(* ===== verification/_CoqProject ===== *)
-Q . S2P
Prelude.v
GoTime.v
GoBytes.v
GoJson.v
GoRawJson.v
GoFloat.v
GoNetip.v
GoAddrText.v
GoCrypto.v
GoAes.v
GraphWalk.v
AtsLease.v
Slipstream.v
UrlTestHistory.v
FailureCodes.v
Observability.v
AndroidEvents.v
SaClientHello.v
SaOutbound.v
SaServiceGroup.v
SaProbe.v
RuleMatch.v
CatalogWindow.v
RuleSnapshot.v
HysteriaOptions.v
HysteriaReload.v
LocalDpi.v
UrlTest.v
TelegramWs.v
CarrierPolicy.v
SlipstreamProcess.v
FallbackGraph.v
RuntimeControl.v
ControlWire.v
RestrictionStore.v
ControlVerify.v
CatalogVerify.v
TelegramPrepare.v
WindowsDpi.v
DnsTunnel.v
RuntimeRenewal.v
ServiceRun.v
LinuxProfile.v
HostCore.v
LinuxDaemon.v
AwgContract.v
Balancer.v
EgressProbe.v
