(* ===== verification/Prelude.v ===== *)
(** * POKROV Core

    A verification of the part of the repository that is its own: the Smart
    Access, routing catalog, Telegram, local-DPI and carrier logic that POKROV
    adds to the sing-box engine ([engine/sing-box]), its load-balancing group,
    AmneziaWG endpoint, DNS tunnel and Hysteria account reload, the profiles and the
    process of the Linux service ([v2/linuxruntime], [v2/hcore]), and the life cycle
    and the operational events of the host core ([v2/hcore], [internal/observability]).

    ** The program

    A started service ([engine/sing-box/daemon]) runs one instance of the engine:
    outbounds, groups of outbounds, and route and DNS rules.  A signed routing
    catalog compiles to rules with a window; a Smart Access outbound relays TLS
    flows of named domains while a signed lease runs; an ATS outbound serves one
    endpoint while its lease runs; the Telegram and local-DPI outbounds use a
    direct transport while they are admitted and fall back to the protected VPN.
    A worker asks a control plane whether the profile is still allowed and
    renews leases; what it restricts is written to a journal that outlives the
    process.  The host reads a closed vocabulary of events.

    The parts interact by calls under locks and by shared objects (leases, flows,
    windows, probes, enrolments), which the code holds by pointer.

    ** Conventions

    - A critical section (a body between [Lock] and [Unlock]) is one definition
      on the component's state.  A handler that releases its lock is the
      sequence of its sections, and where other goroutines can run in between
      their interference is an argument; the step relations ([step], [sstep],
      [jstep], [dstep], ...) interleave the sections in any order.
    - Shared objects live in a store of the state and are referred to by key.
    - Readings of the clock, random bytes, the state of contexts and the outcomes
      of input and output are arguments.  Times carry a wall and a monotonic
      reading, as in Go.
    - A Go [(value, error)] is [result]; an index out of range or a second close
      of a channel is kept apart as a panic.
    - Integers are [Z] with the wrap-around of their width where it can happen.
    - Names are those of the source; [x_section], [x_record] and the like are
      named parts of the operation [x].

    ** Files

    Shared by all: [Prelude] (results, record updates, tactics), and what the
    source uses of Go's library, executable: [GoTime] (clock readings, dates),
    [GoBytes] (slices, strings), [GoJson] (reading and writing JSON, with the
    round trip [parse_print]), [GoRawJson] (texts of members kept as they are and
    structs read from them; a value depends only on its own text), [GoFloat] ([float64] by the Standard Library's IEEE
    754 specification, with bounds on its rounding), [GoNetip] and [GoAddrText]
    (addresses and their text), [GoCrypto] (SHA-256, HMAC), [GoAes] (AES-256-CTR).
    [GraphWalk] is the walk over named nodes that several components make: it ends,
    and collects exactly the grounded nodes.

    Outbounds ([protocol/pokrov], [protocol/group]):
    - [AtsLease]: [atslease/outbound.go].  The lease bounds every flow; revoked
      is for ever; no endpoint leaks.
    - [SaClientHello], [SaOutbound], [SaServiceGroup], [SaProbe]:
      [smartaccess/*.go].  Only a named domain of the grant is relayed, byte for
      byte, within quota and lease; a renewal moves forward; one probe at a time
      opens a relay's breaker; the group selects in order and its readiness
      receipt is evidence.
    - [LocalDpi]: [localdpi/*.go].  A flow is offloaded only while the admission
      is ready; an admission that was resolved never reopens.
    - [TelegramWs], [FallbackGraph]: [telegramws/*.go].  A payload leaves by one
      transport; a withdrawal is final; the fallback graph is acyclic, protected
      and exactly what the walk collects.
    - [Slipstream], [CarrierPolicy]: [slipstream/local_io.go], [dns_relay.go],
      [policy.go], [dnstt/policy.go], [naive/policy.go].  Frames are
      authenticated and used once (the sliding window refines a set of sequence
      numbers); accepted options are in normal form.
    - [SlipstreamProcess]: [slipstream/outbound.go].  The helper process is started,
      spoken to and supervised so that nothing of it outlives its session.
    - [DnsTunnel]: [dnstt/dns_packet.go], [dnstt/outbound.go].  Queries and answers
      read back as they were framed; a session is closed before another replaces
      it, and nothing is left open after a close.
    - [UrlTest], [UrlTestHistory]: [group/urltest.go], [selector.go],
      [common/urltest/urltest.go].  The selection is within the tolerance of the
      minimum; a batch tests every real outbound once.
    - [Balancer]: [group/balancer].  The four strategies as instances of one
      interface: a started group serves every connection with a member for its
      network, the round robin is fair, and the jump hash ends and is consistent.
    - [AwgContract]: [awg/contract.go], [awg/endpoint.go] and of the vendored device
      its reading of the configuration, of ranges and of times.  Packets of an
      accepted endpoint fit the wire budget, headers are unambiguous, keys are
      refreshed in time, and the device reads back the text the endpoint wrote.

    Rules: [RuleMatch] ([route/rule]: the bit-set matcher is equal to the
    reference semantics) and [CatalogWindow] ([pokrov_catalog_window.go]: a rule
    matches only inside its window and while its lease and group admit; once out,
    always out).

    The dedicated Hysteria server: [RuleSnapshot] ([route/hysteria_rules.go]: rules
    in use are never closed, retired ones exactly once), [HysteriaOptions] and
    [HysteriaReload] ([pokrov_hysteria_reload.go] with the outbound manager, the
    sessions of the server and the rule loop of [route/route.go]: in every
    interleaving a reload fences changed accounts before anything new is reachable,
    and it ends with nothing, everything or only unchanged accounts in force).  The
    theorems are about rules that are not inverted over accounts; for the others,
    and for default outbounds and failed reloads, the file proves what goes wrong.

    The service: [RuntimeControl] ([daemon/routing_catalog.go]: a withdrawal
    reaches every component), [ControlWire], [ControlVerify]
    ([daemon/smart_access_runtime_control.go], [..._renewal.go],
    [..._renewal_poll.go]: an answer is acted on only if a configured key signed
    it for this request), [CatalogVerify] ([daemon/local_dpi_catalog.go],
    [telegram_ws_catalog.go]: a strategy or an address is taken from a catalog only if
    a pinned key signed its current text), [TelegramPrepare] and [WindowsDpi]
    ([telegram_ws_catalog.go], [v2/hcore/windows_local_dpi.go]: a prepared profile is the
    given one with exactly the outbounds and rules the catalog admits), [RestrictionStore]
    ([daemon/smart_access_restriction_store.go]: a restriction survives failed
    writes and crashes until acknowledged; the file reads back),
    [RuntimeRenewal] (the worker) and [ServiceRun] (its runs: they refine the
    journal's, decisions are enforced, renewals are recorded before use).
    [EgressProbe] ([common/urltest/protected_session.go], [diagnostic_budget.go],
    [daemon/selected_outbound_probe.go], [v2/hcore/candidate_probe.go]): a healthy
    verdict is evidence about the protected outbound in use, and every failure has
    a name of a closed list.

    The host: [FailureCodes], [Observability], [AndroidEvents]
    ([internal/observability], [v2/hcore], [experimental/libbox]): only events of
    the closed vocabulary, numbered, delivered with bounded delay.  [HostCore]
    ([v2/hcore/start.go], [stop.go], [restart.go], [custom.go]): at most one engine runs
    and the core refers to it; two ways in which calls outside the lock break that are
    proved too.  [LinuxProfile] ([v2/linuxruntime/profile.go]): an accepted profile has
    no say over the host.  [LinuxDaemon] ([v2/hcore/linux_daemon_linux.go] and the files of
    its deadline and lease): a run is bound to its identity, is cancelled at its
    deadline or at the end of its lease, and closes its engine.

    ** Bounds and fuel

    Recursions that are not structural run on fuel that is proved enough: the
    walks over outbounds ([walk_fuel], [visit_fuel], [real_fuel],
    [fallback_fuel], [protected_fuel]) have one unit more than there are outbounds, the JSON reader
    one more than there are bytes, the reader of command lines likewise, the framing of
    the DNS tunnel one per byte, the jump hash one per bucket; a Hysteria reload takes
    one section per outbound and two more ([reload_ends]).  The event queue holds 128 events and a
    delivery takes three steps, hence the 386 steps of [deliveries_progress];
    event numbers are assumed below 2^63.

    ** Parameters

    Ed25519 verification, [url.Parse] (as the tests on its result), the public suffix
    list, the hash function and the cache of the load-balancing group, what a
    conversion of a float to [uint16] gives out of range, the message buffer of the
    AmneziaWG device, the reading of a profile as engine options, the library of DNS
    messages, the conditions of route rules other than the account, and everything that
    is behind a socket.  The random generations of workers are assumed to
    differ within a process; nothing else is assumed of randomness.

    ** Not modelled

    - The journal covers crashes of the process.  A loss of power after the
      rename and before the directory reaches the disk is not covered, and there
      is one storage directory.
    - Upstream sing-box (dispatch of connections, DNS resolution, protocols,
      sniffing, TLS), the vendored stacks under [replace] (but for the part of the
      AmneziaWG device named above), generated code,
      certificate bundles, command-line tools and platform bindings: they are
      third-party code the modelled parts only reach through the network, or
      carry no logic of their own.
    - The configuration builder ([v2/config]) and the link parsers ([ray2sing]):
      tables of literal options.
    - [ReadSmartAccessLeases], the timer of the worker's loop, subscriptions and
      streaming calls of the service, and platform handles.
    - Of a start of the host core the building of the configuration, the extensions
      and the engine are outcomes; of the Linux process the tunnel interface and the
      health probe.
*)

From stdpp Require Import base list strings gmap.
From Stdlib Require Import ZArith Lia Ascii.

Declare Scope go_scope.
Delimit Scope go_scope with go.

(** ** Results: a Go [(value, error)] pair

    A Go function that returns [(T, error)] has either a value or an error. *)
Inductive result (E A : Type) : Type :=
| Ok (a : A)
| Err (e : E).

Arguments Ok {E A} a.
Arguments Err {E A} e.

Definition rbind {E A B} (r : result E A) (f : A → result E B) : result E B :=
  match r with
  | Ok a => f a
  | Err e => Err e
  end.

Definition is_ok {E A} (r : result E A) : bool :=
  match r with Ok _ => true | Err _ => false end.

Notation "'let?' x ':=' r 'in' k" := (rbind r (λ x, k))
  (at level 10, x name, r at level 100, k at level 200) : go_scope.
Notation "'check' b 'orelse' e ';;' k" := (if b then k else Err e)
  (at level 10, b at level 100, e at level 0, k at level 200) : go_scope.

Open Scope go_scope.

Lemma rbind_ok {E A B} (r : result E A) (f : A → result E B) b :
  rbind r f = Ok b ↔ ∃ a, r = Ok a ∧ f a = Ok b.
Proof.
  destruct r; simpl; split; [eauto| | done|].
  - intros (? & [= ->] & ?). done.
  - intros (? & [=] & _).
Qed.

(** ** Field assignment: [r <| field := v |>]

    A record type with fields assigned by the code declares its expansion
    [r = mk (f1 r) ... (fn r)] as an [Eta] instance; the setter of a field is
    that expansion with the field's projection replaced. *)
Class Eta (R : Type) := eta : R → R.

Definition Setter {R E : Type} (proj : R → E) : Type := (E → E) → R → R.
Existing Class Setter.
Definition set {R E : Type} (proj : R → E) {s : Setter proj} : (E → E) → R → R := s.
Arguments set {R E} proj {s} / f r.

Ltac build_setter :=
  match goal with
  | |- @Setter ?R ?E ?proj =>
      let e := constr:(@eta R _) in
      lazymatch e with
      | @eta _ ?inst =>
          let body := eval unfold inst in inst in
          match (eval pattern proj in body) with
          | ?g proj =>
              let s := eval cbv beta in (λ (f : E → E) (r : R), g (λ r' : R, f (proj r')) r) in
              exact s
          end
      end
  end.
#[export] Hint Extern 1 (Setter _) => build_setter : typeclass_instances.

Notation "r <| p := v |>" := (set p (λ _, v) r)
  (at level 1, left associativity, p constr at level 9, v constr at level 200,
   format "r  <| p  :=  v |>") : go_scope.
Notation "r <| p ::= f |>" := (set p f r)
  (at level 1, left associativity, p constr at level 9, f constr at level 200,
   format "r  <| p  ::=  f |>") : go_scope.

(** ** Strings: a Go string is the list of its bytes *)

Abbreviation str_of_list := Stdlib.Strings.String.string_of_list_ascii.
Abbreviation list_of_str := Stdlib.Strings.String.list_ascii_of_string.

(** ** Machine integers *)

Definition int64_min : Z := (- 2 ^ 63)%Z.
Definition int64_max : Z := (2 ^ 63 - 1)%Z.
Definition in_int64 (z : Z) : bool := (int64_min <=? z)%Z && (z <=? int64_max)%Z.

(** The result of an operation that saturates at the [int64] range. *)
Definition sat64 (z : Z) : Z := Z.max int64_min (Z.min int64_max z).

Definition wrap (w z : Z) : Z := (z mod 2 ^ w)%Z.
Abbreviation u8 z := (wrap 8 z).
Abbreviation u16 z := (wrap 16 z).
Abbreviation u32 z := (wrap 32 z).
Abbreviation u64 z := (wrap 64 z).

Lemma wrap_range w z : (0 ≤ w → 0 ≤ wrap w z < 2 ^ w)%Z.
Proof. intros. apply Z.mod_pos_bound. by apply Z.pow_pos_nonneg. Qed.

Lemma wrap_small w z : (0 ≤ z < 2 ^ w → wrap w z = z)%Z.
Proof. apply Z.mod_small. Qed.

Lemma sat64_id z : in_int64 z = true → sat64 z = z.
Proof. unfold in_int64, sat64. lia. Qed.

Lemma sat64_range z : in_int64 (sat64 z) = true.
Proof. unfold in_int64, sat64, int64_min, int64_max. lia. Qed.

Lemma bool_true_if {A} (b : bool) (x y : A) : b = true → (if b then x else y) = x.
Proof. by intros ->. Qed.

Lemma bool_false_if {A} (b : bool) (x y : A) : b = false → (if b then x else y) = y.
Proof. by intros ->. Qed.

(** ** Automation *)

Create HintDb pokrov discriminated.

(** Case analysis on the innermost scrutinee of an [if] or [match] of the goal
    or of a hypothesis. *)
Ltac case_inner e :=
  lazymatch e with
  | context [match ?e' with _ => _ end] => case_inner e'
  | _ => destruct e eqn:?
  end.
Ltac case_goal :=
  match goal with
  | |- context [match ?e with _ => _ end] => case_inner e
  end.
Ltac case_hyp H :=
  match type of H with
  | context [match ?e with _ => _ end] => case_inner e
  end.

(** Splits the boolean tests of the hypotheses. *)
Ltac bsplit :=
  repeat match goal with
  | H : _ && _ = true |- _ => apply andb_true_iff in H as [? ?]
  | H : _ || _ = false |- _ => apply orb_false_iff in H as [? ?]
  | H : negb _ = true |- _ => apply negb_true_iff in H
  | H : negb _ = false |- _ => apply negb_false_iff in H
  | H : bool_decide _ = true |- _ => apply bool_decide_eq_true in H
  | H : bool_decide _ = false |- _ => apply bool_decide_eq_false in H
  end.

(** Case analysis on whether a map update hits the key that is looked up. *)
Ltac case_key i j :=
  destruct (decide (i = j)) as [<-|];
  [rewrite ?lookup_insert_eq, ?lookup_delete_eq
  |rewrite ?lookup_insert_ne, ?lookup_delete_ne by done].
