(* ===== verification/GoTime.v ===== *)
(** * Go's [time] package, as far as the core uses it

    A [time.Time] carries a wall clock reading and, when it comes from
    [time.Now], a monotonic reading.  The comparisons and differences use the
    monotonic readings when both operands have one and the wall clock
    otherwise; [time.Parse] never yields a monotonic reading.  The lease and
    admission gates of the core rely on exactly this distinction: each of them
    tests a wall-clock bound and a monotonic bound.

    Wall times are nanoseconds since 0001-01-01T00:00:00Z, the zero [Time]. *)

From stdpp Require Import base list strings.
From Stdlib Require Import ZArith Lia Ascii.
From S2P Require Import Prelude.

Local Open Scope Z_scope.

Record time := mkTime { wall : Z; mono : option Z }.

#[export] Instance time_eq_dec : EqDecision time.
Proof. solve_decision. Defined.

Definition Nanosecond : Z := 1.
Definition Millisecond : Z := 1000000.
Definition Second : Z := 1000 * Millisecond.
Definition Minute : Z := 60 * Second.
Definition Hour : Z := 60 * Minute.

Definition zero_time : time := mkTime 0 None.
Definition IsZero (t : time) : bool := wall t =? 0.

Definition Before (t u : time) : bool :=
  match mono t, mono u with
  | Some a, Some b => a <? b
  | _, _ => wall t <? wall u
  end.

Definition After (t u : time) : bool := Before u t.

(** [Time.Sub]: a [Duration] is an [int64]; the difference saturates. *)
Definition Sub (t u : time) : Z :=
  match mono t, mono u with
  | Some a, Some b => sat64 (a - b)
  | _, _ => sat64 (wall t - wall u)
  end.

(** [Time.Add] drops the monotonic reading when it leaves the [int64] range. *)
Definition Add (t : time) (d : Z) : time :=
  mkTime (wall t + d)
    (match mono t with
     | Some m => if in_int64 (m + d) then Some (m + d) else None
     | None => None
     end).

(** [time.Until] and [time.Since] at the current reading [now]. *)
Definition Until (t now : time) : Z := Sub t now.
Definition Since (t now : time) : Z := Sub now t.

(** [Time.UnixMilli]. *)
Definition unix_epoch : Z := 62135596800 * Second.
Definition UnixMilli (t : time) : Z := (wall t - unix_epoch) / Millisecond.

(** ** Calendar: the proleptic Gregorian date of a day count *)

Definition is_leap (y : Z) : bool :=
  (y mod 4 =? 0) && (negb (y mod 100 =? 0) || (y mod 400 =? 0)).

Definition days_before_year (y : Z) : Z :=
  let p := y - 1 in 365 * p + p / 4 - p / 100 + p / 400.

Definition days_in_month (y m : Z) : Z :=
  if m =? 2 then (if is_leap y then 29 else 28)
  else if (m =? 4) || (m =? 6) || (m =? 9) || (m =? 11) then 30 else 31.

Definition days_before_month (y m : Z) : Z :=
  (if 1 <? m then 31 else 0) +
  (if 2 <? m then (if is_leap y then 29 else 28) else 0) +
  (if 3 <? m then 31 else 0) + (if 4 <? m then 30 else 0) +
  (if 5 <? m then 31 else 0) + (if 6 <? m then 30 else 0) +
  (if 7 <? m then 31 else 0) + (if 8 <? m then 31 else 0) +
  (if 9 <? m then 30 else 0) + (if 10 <? m then 31 else 0) +
  (if 11 <? m then 30 else 0).

Definition days_of_date (y m d : Z) : Z :=
  days_before_year y + days_before_month y m + (d - 1).

(** The year of a day: an estimate from the mean year, corrected by one. *)
Definition year_of_days (n : Z) : Z :=
  let y := n * 400 / 146097 + 1 in
  if n <? days_before_year y then y - 1
  else if days_before_year (y + 1) <=? n then y + 1 else y.

Fixpoint month_from (y doy : Z) (m : Z) (fuel : nat) : Z :=
  match fuel with
  | O => m
  | S f => if days_before_month y m <=? doy then m else month_from y doy (m - 1) f
  end.
Definition month_of (y doy : Z) : Z := month_from y doy 12 11.

Definition date_of_days (n : Z) : Z * Z * Z :=
  let y := year_of_days n in
  let doy := n - days_before_year y in
  let m := month_of y doy in
  (y, m, doy - days_before_month y m + 1).

(** ** The layout 2006-01-02T15:04:05Z *)

Definition digit_char (d : Z) : ascii := ascii_of_N (Z.to_N (48 + d)).
Definition digit_val (c : ascii) : option Z :=
  let n := Z.of_N (N_of_ascii c) in
  if (48 <=? n) && (n <=? 57) then Some (n - 48) else None.

Definition fmt2 (n : Z) : list ascii :=
  [digit_char (n / 10 mod 10); digit_char (n mod 10)].
Definition fmt4 (n : Z) : list ascii := fmt2 (n / 100) ++ fmt2 n.

Definition val2 (a b : ascii) : option Z :=
  x ← digit_val a; y ← digit_val b; Some (10 * x + y).
Definition val4 (a b c d : ascii) : option Z :=
  x ← val2 a b; y ← val2 c d; Some (100 * x + y).

Definition civil_wall (y m d hh mi ss : Z) : Z :=
  (((days_of_date y m d * 24 + hh) * 60 + mi) * 60 + ss) * Second.

(** [Time.Format] with that layout, for a UTC time of the years 1 to 9999. *)
Definition format_utc (t : time) : string :=
  let s := wall t / Second in
  let '(y, m, d) := date_of_days (s / 86400) in
  let r := s mod 86400 in
  str_of_list
    (fmt4 y ++ ["-"%char] ++ fmt2 m ++ ["-"%char] ++ fmt2 d ++ ["T"%char] ++
     fmt2 (r / 3600) ++ [":"%char] ++ fmt2 (r / 60 mod 60) ++ [":"%char] ++
     fmt2 (r mod 60) ++ ["Z"%char]).

(** [time.Parse] with that layout followed by the test that formatting gives
    the input back: Go also reads a fraction of a second or a one-digit hour
    with this layout, and neither survives that test.  The year 0 is rejected
    too. *)
Definition parse_utc (v : string) : option time :=
  match list_of_str v with
  | [y1; y2; y3; y4; c1; m1; m2; c2; d1; d2; c3; h1; h2; c4; i1; i2; c5; s1; s2; c6] =>
      y ← val4 y1 y2 y3 y4;
      m ← val2 m1 m2;
      d ← val2 d1 d2;
      hh ← val2 h1 h2;
      mi ← val2 i1 i2;
      ss ← val2 s1 s2;
      if Ascii.eqb c1 "-" && Ascii.eqb c2 "-" && Ascii.eqb c3 "T" &&
         Ascii.eqb c4 ":" && Ascii.eqb c5 ":" && Ascii.eqb c6 "Z" &&
         (1 <=? y) && (1 <=? m) && (m <=? 12) && (1 <=? d) && (d <=? days_in_month y m) &&
         (hh <? 24) && (mi <? 60) && (ss <? 60)
      then Some (mkTime (civil_wall y m d hh mi ss) None)
      else None
  | _ => None
  end.

(** ** Clock comparisons *)

Lemma before_mono t u a b :
  mono t = Some a → mono u = Some b → Before t u = (a <? b).
Proof. unfold Before. by intros -> ->. Qed.

Lemma before_wall t u :
  mono u = None → Before t u = (wall t <? wall u).
Proof. unfold Before. intros ->. by destruct (mono t). Qed.

Lemma before_wall_l t u :
  mono t = None → Before t u = (wall t <? wall u).
Proof. unfold Before. by intros ->. Qed.

Lemma sub_wall t u :
  mono t = None → Sub t u = sat64 (wall t - wall u).
Proof. unfold Sub. by intros ->. Qed.

Lemma before_irrefl t : Before t t = false.
Proof. unfold Before. destruct (mono t); lia. Qed.

(** ** The calendar is inverted *)

Lemma dby_succ y : days_before_year (y + 1) - days_before_year y = if is_leap y then 366 else 365.
Proof.
  unfold days_before_year, is_leap. replace (y + 1 - 1) with y by lia.
  destruct (y mod 4 =? 0) eqn:?, (y mod 100 =? 0) eqn:?, (y mod 400 =? 0) eqn:?; simpl;
    Z.div_mod_to_equations; lia.
Qed.

Lemma dby_mono y z : y ≤ z → days_before_year y ≤ days_before_year z.
Proof. unfold days_before_year. intros. Z.div_mod_to_equations; lia. Qed.

Lemma dby_estimate n :
  let y := n * 400 / 146097 + 1 in
  days_before_year (y - 1) ≤ n < days_before_year (y + 2).
Proof. simpl. unfold days_before_year. Z.div_mod_to_equations; lia. Qed.

Lemma year_of_days_spec n :
  days_before_year (year_of_days n) ≤ n < days_before_year (year_of_days n + 1).
Proof.
  pose proof (dby_estimate n) as H. simpl in H. unfold year_of_days.
  set (y := n * 400 / 146097 + 1) in *.
  repeat case_goal; bsplit;
    rewrite ?Z.ltb_lt, ?Z.ltb_ge, ?Z.leb_le, ?Z.leb_gt in *;
    replace (y - 1 + 1) with y by lia; replace (y + 1 + 1) with (y + 2) by lia; lia.
Qed.

Lemma year_of_days_unique n y :
  days_before_year y ≤ n < days_before_year (y + 1) → year_of_days n = y.
Proof.
  intros H. pose proof (year_of_days_spec n) as G.
  destruct (Z.lt_trichotomy (year_of_days n) y) as [?|[?|?]]; [|done|].
  - pose proof (dby_mono (year_of_days n + 1) y). lia.
  - pose proof (dby_mono (y + 1) (year_of_days n)). lia.
Qed.

Lemma month_cases m : 1 ≤ m ≤ 12 →
  m = 1 ∨ m = 2 ∨ m = 3 ∨ m = 4 ∨ m = 5 ∨ m = 6 ∨ m = 7 ∨ m = 8 ∨ m = 9 ∨ m = 10 ∨ m = 11 ∨ m = 12.
Proof. lia. Qed.

Lemma dbm_succ y m :
  1 ≤ m ≤ 11 → days_before_month y (m + 1) = days_before_month y m + days_in_month y m.
Proof.
  intros. destruct (month_cases m) as [->|[->|[->|[->|[->|[->|[->|[->|[->|[->|[->| ->]]]]]]]]]]];
    [lia|unfold days_before_month, days_in_month; simpl; destruct (is_leap y); lia..].
Qed.

Lemma dim_pos y m : 0 < days_in_month y m.
Proof. unfold days_in_month. repeat case_goal; lia. Qed.

Lemma dbm_after y m (k : nat) :
  1 ≤ m → m + 1 + Z.of_nat k ≤ 12 →
  days_before_month y m + days_in_month y m ≤ days_before_month y (m + 1 + Z.of_nat k).
Proof.
  intros Hm. induction k as [|k IH]; intros Hk.
  - rewrite Z.add_0_r, dbm_succ by lia. lia.
  - replace (m + 1 + Z.of_nat (S k)) with (m + 1 + Z.of_nat k + 1) by lia.
    rewrite dbm_succ by lia. pose proof (dim_pos y (m + 1 + Z.of_nat k)). lia.
Qed.

Lemma month_from_spec y doy m k fuel :
  1 ≤ m → days_before_month y m ≤ doy < days_before_month y m + days_in_month y m →
  m ≤ k ≤ 12 → k - m ≤ Z.of_nat fuel → month_from y doy k fuel = m.
Proof.
  intros Hm H. revert k. induction fuel as [|fuel IH]; intros k Hk Hf; simpl.
  - lia.
  - destruct (Z.leb_spec (days_before_month y k) doy) as [Hle|Hgt].
    + destruct (Z.eq_dec k m) as [->|]; [done|].
      pose proof (dbm_after y m (Z.to_nat (k - m - 1)) Hm) as G.
      replace (m + 1 + Z.of_nat (Z.to_nat (k - m - 1))) with k in G by lia. lia.
    + destruct (Z.eq_dec k m) as [->|]; [lia|]. apply IH; lia.
Qed.

Lemma month_of_unique y m doy :
  1 ≤ m ≤ 12 → days_before_month y m ≤ doy < days_before_month y m + days_in_month y m →
  month_of y doy = m.
Proof. intros. apply month_from_spec; lia. Qed.

Lemma days_before_month_end y m :
  1 ≤ m ≤ 12 → 0 ≤ days_before_month y m ∧
  days_before_month y m + days_in_month y m ≤ if is_leap y then 366 else 365.
Proof.
  intros Hm.
  destruct (month_cases m Hm) as [->|[->|[->|[->|[->|[->|[->|[->|[->|[->|[->| ->]]]]]]]]]]];
    unfold days_before_month, days_in_month; simpl; destruct (is_leap y); lia.
Qed.

Lemma date_of_days_of_date y m d :
  1 ≤ m ≤ 12 → 1 ≤ d ≤ days_in_month y m → date_of_days (days_of_date y m d) = (y, m, d).
Proof.
  intros Hm Hd. unfold date_of_days, days_of_date.
  pose proof (days_before_month_end y m Hm). pose proof (dby_succ y).
  rewrite (year_of_days_unique _ y) by lia.
  rewrite (month_of_unique y m) by lia. f_equal. lia.
Qed.

(** ** Printing and parsing *)

Lemma ascii_of_N_range (n : N) : (n < 256)%N → N_of_ascii (ascii_of_N n) = n.
Proof. apply N_ascii_embedding. Qed.

Lemma digit_val_char d : 0 ≤ d ≤ 9 → digit_val (digit_char d) = Some d.
Proof.
  intros. unfold digit_val, digit_char. rewrite ascii_of_N_range by lia.
  rewrite Z2N.id by lia.
  destruct (Z.leb_spec 48 (48 + d)); [|lia]. destruct (Z.leb_spec (48 + d) 57); [|lia].
  simpl. f_equal. lia.
Qed.

Lemma digit_char_val c d : digit_val c = Some d → digit_char d = c ∧ 0 ≤ d ≤ 9.
Proof.
  unfold digit_val, digit_char. intros H. repeat case_hyp H; simplify_eq. bsplit.
  split; [|lia]. replace (Z.to_N (48 + (Z.of_N (N_of_ascii c) - 48))) with (N_of_ascii c) by lia.
  apply ascii_N_embedding.
Qed.

Lemma val2_fmt2 a b n : val2 a b = Some n → fmt2 n = [a; b] ∧ 0 ≤ n ≤ 99.
Proof.
  unfold val2, fmt2. intros H.
  destruct (digit_val a) as [x|] eqn:Ha; simpl in H; [|done].
  destruct (digit_val b) as [y|] eqn:Hb; simpl in H; [|done]. simplify_eq.
  apply digit_char_val in Ha as [<- ?]. apply digit_char_val in Hb as [<- ?].
  split; [|lia]. repeat f_equal; Z.div_mod_to_equations; lia.
Qed.

Lemma val4_fmt4 a b c d n : val4 a b c d = Some n → fmt4 n = [a; b; c; d] ∧ 0 ≤ n ≤ 9999.
Proof.
  unfold val4, fmt4. intros H.
  destruct (val2 a b) as [x|] eqn:Ha; simpl in H; [|done].
  destruct (val2 c d) as [y|] eqn:Hb; simpl in H; [|done]. simplify_eq.
  apply val2_fmt2 in Ha as [Hx ?]. apply val2_fmt2 in Hb as [Hy ?].
  split; [|lia].
  replace ((100 * x + y) / 100) with x by (Z.div_mod_to_equations; lia). rewrite Hx.
  unfold fmt2 in Hy |- *.
  replace ((100 * x + y) / 10 mod 10) with (y / 10 mod 10) by (Z.div_mod_to_equations; lia).
  replace ((100 * x + y) mod 10) with (y mod 10) by (Z.div_mod_to_equations; lia).
  by rewrite Hy.
Qed.

Lemma fmt2_val2 n : 0 ≤ n ≤ 99 → ∃ a b, fmt2 n = [a; b] ∧ val2 a b = Some n.
Proof.
  intros. eexists _, _. split; [reflexivity|]. unfold val2.
  rewrite !digit_val_char by (Z.div_mod_to_equations; lia). simpl.
  f_equal. Z.div_mod_to_equations; lia.
Qed.

Lemma civil_wall_split y m d hh mi ss :
  0 ≤ hh < 24 → 0 ≤ mi < 60 → 0 ≤ ss < 60 →
  let s := civil_wall y m d hh mi ss / Second in
  s / 86400 = days_of_date y m d ∧ s mod 86400 / 3600 = hh ∧
  s mod 86400 / 60 mod 60 = mi ∧ s mod 86400 mod 60 = ss.
Proof.
  intros Hh Hm Hs. cbv zeta. unfold civil_wall. rewrite Z.div_mul by done.
  generalize (days_of_date y m d); intros n.
  replace (((n * 24 + hh) * 60 + mi) * 60 + ss) with (n * 86400 + (hh * 3600 + mi * 60 + ss)) by ring.
  rewrite Z.div_add_l, (Z.add_comm (n * 86400)), Z.mod_add, Z.mod_small by lia.
  repeat split; Z.div_mod_to_equations; lia.
Qed.

(** A string the layout parser accepts is the printed form of its time: the
    [parsed.Format(timeLayout) != value] test of the source can not fail on
    what [parse_utc] accepts. *)
Lemma format_parse_utc v t : parse_utc v = Some t → format_utc t = v ∧ mono t = None.
Proof.
  unfold parse_utc. intros H.
  destruct (list_of_str v) as [|y1 [|y2 [|y3 [|y4 [|c1 [|m1 [|m2 [|c2 [|d1 [|d2 [|c3
    [|h1 [|h2 [|c4 [|i1 [|i2 [|c5 [|s1 [|s2 [|c6 [|? ?]]]]]]]]]]]]]]]]]]]]] eqn:E; try done.
  destruct (val4 y1 y2 y3 y4) as [y|] eqn:Hy; simpl in H; [|done].
  destruct (val2 m1 m2) as [m|] eqn:Hm; simpl in H; [|done].
  destruct (val2 d1 d2) as [d|] eqn:Hd; simpl in H; [|done].
  destruct (val2 h1 h2) as [hh|] eqn:Hh; simpl in H; [|done].
  destruct (val2 i1 i2) as [mi|] eqn:Hi; simpl in H; [|done].
  destruct (val2 s1 s2) as [ss|] eqn:Hs; simpl in H; [|done].
  case_hyp H; simplify_eq. bsplit.
  repeat match goal with H : Ascii.eqb _ _ = true |- _ => apply Ascii.eqb_eq in H as -> end.
  apply val4_fmt4 in Hy as [Hy ?]. apply val2_fmt2 in Hm as [Hm ?].
  apply val2_fmt2 in Hd as [Hd ?]. apply val2_fmt2 in Hh as [Hh ?].
  apply val2_fmt2 in Hi as [Hi ?]. apply val2_fmt2 in Hs as [Hs ?].
  split; [|done]. unfold format_utc. cbn [wall].
  destruct (civil_wall_split y m d hh mi ss) as (E1 & E2 & E3 & E4); [lia..|].
  rewrite E1, date_of_days_of_date by lia.
  rewrite E2, E3, E4, Hy, Hm, Hd, Hh, Hi, Hs. cbn [app].
  rewrite <- E. apply Stdlib.Strings.String.string_of_list_ascii_of_string.
Qed.

Lemma parse_utc_inj v1 v2 t : parse_utc v1 = Some t → parse_utc v2 = Some t → v1 = v2.
Proof. intros [<- _]%format_parse_utc [<- _]%format_parse_utc. done. Qed.

(** Distinct times that the parser yields print differently. *)
Lemma format_utc_eq v t w : parse_utc v = Some t → format_utc t = w ↔ w = v.
Proof. intros [<- _]%format_parse_utc. naive_solver. Qed.

Example parse_utc_ex :
  parse_utc "2024-02-29T23:59:59Z" = Some (mkTime (63844847999 * Second) None).
Proof. vm_compute. reflexivity. Qed.
