(* ===== verification/GoBytes.v ===== *)
(** * Go byte slices

    A [[]byte] is the list of its bytes.  Indexing and slicing are partial: out
    of range they panic, which [outcome] keeps apart from an error the code
    returns, so that a theorem about a parser can say that it never panics. *)

From stdpp Require Import base list strings.
From Stdlib Require Import ZArith Lia Ascii.
From S2P Require Import Prelude.

Local Open Scope Z_scope.

Abbreviation bytes := (list ascii).

(** ** Outcomes: a value, a returned error, or a run-time panic *)
Inductive outcome (A : Type) : Type :=
| Ret (a : A)
| Fail (e : string)
| Panic.
Arguments Ret {A} a.
Arguments Fail {A} e.
Arguments Panic {A}.

Definition obind {A B} (o : outcome A) (f : A → outcome B) : outcome B :=
  match o with
  | Ret a => f a
  | Fail e => Fail e
  | Panic => Panic
  end.

Notation "x <~ o ; k" := (obind o (λ x, k))
  (at level 20, o at level 100, k at level 200, right associativity) : go_scope.
Notation "'guard' b 'else' e ; k" := (if b then k else Fail e)
  (at level 20, b at level 100, e at level 100, k at level 200, right associativity) : go_scope.

Definition panics {A} (o : outcome A) : bool :=
  match o with Panic => true | _ => false end.

(** ** Bytes and integers *)

Definition byte_val (c : ascii) : Z := Z.of_N (N_of_ascii c).
(** The conversion [byte(z)]. *)
Definition byte_of (z : Z) : ascii := ascii_of_N (Z.to_N (wrap 8 z)).

Definition blen (b : bytes) : Z := Z.of_nat (length b).

(** [b[i]] *)
Definition index (b : bytes) (i : Z) : outcome Z :=
  if (0 <=? i) && (i <? blen b)
  then match b !! Z.to_nat i with Some c => Ret (byte_val c) | None => Panic end
  else Panic.

(** [b[lo:hi]].  Go allows [hi] up to the capacity; asking for the length here
    makes the absence of panics a stronger statement. *)
Definition slice (b : bytes) (lo hi : Z) : outcome bytes :=
  if (0 <=? lo) && (lo <=? hi) && (hi <=? blen b)
  then Ret (take (Z.to_nat (hi - lo)) (drop (Z.to_nat lo) b))
  else Panic.

(** [b[lo:]] *)
Definition slice_from (b : bytes) (lo : Z) : outcome bytes := slice b lo (blen b).

(** Big-endian integers. *)
Fixpoint be_val (b : bytes) : Z :=
  match b with
  | [] => 0
  | c :: r => byte_val c * 2 ^ (8 * blen r) + be_val r
  end.

Fixpoint be_put (n : nat) (z : Z) : bytes :=
  match n with
  | O => []
  | S k => byte_of (z / 2 ^ (8 * Z.of_nat k)) :: be_put k z
  end.

Fixpoint le_val (b : bytes) : Z :=
  match b with
  | [] => 0
  | c :: r => byte_val c + 256 * le_val r
  end.

(** [binary.BigEndian.Uint16] and the like read the first bytes and panic on a
    shorter slice. *)
Definition Uint16 (b : bytes) : outcome Z := s <~ slice b 0 2; Ret (be_val s).
Definition Uint32 (b : bytes) : outcome Z := s <~ slice b 0 4; Ret (be_val s).
Definition Uint64 (b : bytes) : outcome Z := s <~ slice b 0 8; Ret (be_val s).
Definition LeUint32 (b : bytes) : outcome Z := s <~ slice b 0 4; Ret (le_val s).

Definition bytes_eqb (a b : bytes) : bool := bool_decide (a = b).

(** ** Text *)

(** [strings.ToLower], as far as its ASCII characters go: an ASCII letter is
    folded, and the two non-ASCII letters whose lower case is ASCII (U+212A, the
    Kelvin sign, and U+0130, the dotted capital I) become [k] and [i].  Every
    other non-ASCII byte stays some non-ASCII byte: the uses of the result only
    look for ASCII text in it. *)
Definition lower_char (c : ascii) : ascii :=
  let n := byte_val c in if (65 <=? n) && (n <=? 90) then byte_of (n + 32) else c.

Fixpoint to_lower (b : bytes) : bytes :=
  match b with
  | [] => []
  | c1 :: r1 =>
      match r1 with
      | c2 :: r2 =>
          if (byte_val c1 =? 0xc4) && (byte_val c2 =? 0xb0) then byte_of 105 :: to_lower r2
          else
            match r2 with
            | c3 :: r3 =>
                if (byte_val c1 =? 0xe2) && (byte_val c2 =? 0x84) && (byte_val c3 =? 0xaa)
                then byte_of 107 :: to_lower r3
                else lower_char c1 :: to_lower r1
            | [] => lower_char c1 :: to_lower r1
            end
      | [] => [lower_char c1]
      end
  end.

(** [strings.HasPrefix] and [strings.Contains] *)
Fixpoint has_prefix (b prefix : bytes) : bool :=
  match prefix, b with
  | [], _ => true
  | p :: prefix, c :: b => Ascii.eqb p c && has_prefix b prefix
  | _ :: _, [] => false
  end.

Fixpoint contains_bytes (b sub : bytes) : bool :=
  has_prefix b sub || match b with [] => false | _ :: b => contains_bytes b sub end.

(** ** Lemmas *)

Lemma byte_val_range c : 0 ≤ byte_val c < 256.
Proof. unfold byte_val. pose proof (N_ascii_bounded c). lia. Qed.

Lemma byte_val_of z : byte_val (byte_of z) = wrap 8 z.
Proof.
  unfold byte_val, byte_of. pose proof (wrap_range 8 z).
  rewrite N_ascii_embedding by lia. lia.
Qed.

Lemma byte_of_val c : byte_of (byte_val c) = c.
Proof.
  unfold byte_of. pose proof (byte_val_range c). rewrite wrap_small by lia.
  unfold byte_val. rewrite N2Z.id. apply ascii_N_embedding.
Qed.

Lemma byte_val_inj c d : byte_val c = byte_val d → c = d.
Proof. intros H. rewrite <- (byte_of_val c), <- (byte_of_val d). by f_equal. Qed.

Lemma blen_app a b : blen (a ++ b) = blen a + blen b.
Proof. unfold blen. rewrite length_app. lia. Qed.

Lemma blen_cons c b : blen (c :: b) = 1 + blen b.
Proof. unfold blen. simpl. lia. Qed.

Lemma blen_nil : blen [] = 0.
Proof. done. Qed.

Lemma blen_nonneg b : 0 ≤ blen b.
Proof. unfold blen. lia. Qed.

#[export] Hint Rewrite blen_app blen_cons blen_nil : blen.

Lemma be_put_length n z : length (be_put n z) = n.
Proof. induction n; simpl; congruence. Qed.

Lemma blen_be_put n z : blen (be_put n z) = Z.of_nat n.
Proof. unfold blen. by rewrite be_put_length. Qed.

Lemma be_val_range b : 0 ≤ be_val b < 2 ^ (8 * blen b).
Proof.
  induction b as [|c b IH]; [done|]. cbn [be_val]. rewrite blen_cons.
  pose proof (byte_val_range c). pose proof (blen_nonneg b).
  replace (8 * (1 + blen b)) with (8 + 8 * blen b) by lia.
  rewrite Z.pow_add_r by lia. change (2 ^ 8) with 256. nia.
Qed.

Lemma be_val_put n z : be_val (be_put n z) = z mod 2 ^ (8 * Z.of_nat n).
Proof.
  induction n as [|n IH]; [by rewrite Z.mod_1_r|].
  cbn [be_put be_val]. rewrite IH, byte_val_of, blen_be_put. unfold wrap.
  replace (8 * Z.of_nat (S n)) with (8 * Z.of_nat n + 8) by lia.
  rewrite Z.pow_add_r by lia. rewrite (Z.rem_mul_r z) by (apply Z.pow_nonzero || apply Z.pow_pos_nonneg; lia).
  ring.
Qed.

Lemma be_put_val b : be_put (length b) (be_val b) = b.
Proof.
  induction b as [|c b IH]; [done|]. cbn [length be_put be_val].
  pose proof (be_val_range b). fold (blen b).
  assert (0 < 2 ^ (8 * blen b)) by (apply Z.pow_pos_nonneg; unfold blen; lia).
  rewrite Z.div_add_l, Z.div_small, Z.add_0_r, byte_of_val by lia. f_equal.
  assert (G : ∀ n x y, be_put n (x * 2 ^ (8 * Z.of_nat n) + y) = be_put n y).
  { intros n x y. revert x. induction n as [|n IHn]; intros x; [done|]. cbn [be_put].
    assert (0 < 2 ^ (8 * Z.of_nat n)) by (apply Z.pow_pos_nonneg; lia).
    replace (8 * Z.of_nat (S n)) with (8 + 8 * Z.of_nat n) by lia.
    rewrite Z.pow_add_r, Z.mul_assoc by lia. rewrite IHn. f_equal.
    rewrite Z.div_add_l by lia. unfold byte_of, wrap.
    change (2 ^ 8) with 256. by rewrite Z.add_comm, Z.mod_add by lia. }
  etrans; [apply G|apply IH].
Qed.

Lemma index_ok b i : 0 ≤ i < blen b → ∃ z, index b i = Ret z ∧ 0 ≤ z < 256.
Proof.
  intros H. unfold index.
  destruct (Z.leb_spec 0 i), (Z.ltb_spec i (blen b)); simpl; try lia.
  destruct (lookup_lt_is_Some_2 b (Z.to_nat i)) as [c ->]; [unfold blen in *; lia|].
  eexists. split; [done|]. apply byte_val_range.
Qed.

Lemma slice_ok b lo hi :
  0 ≤ lo ≤ hi → hi ≤ blen b →
  slice b lo hi = Ret (take (Z.to_nat (hi - lo)) (drop (Z.to_nat lo) b)).
Proof. intros. unfold slice. rewrite bool_true_if; [done|]. lia. Qed.

Lemma slice_len b lo hi s : slice b lo hi = Ret s → blen s = hi - lo ∧ 0 ≤ lo ≤ hi ∧ hi ≤ blen b.
Proof.
  unfold slice. intros H. case_hyp H; [|done]. simplify_eq. bsplit.
  unfold blen in *. rewrite length_take, length_drop. lia.
Qed.

Lemma uint16_ok b : 2 ≤ blen b → ∃ z, Uint16 b = Ret z ∧ 0 ≤ z < 2 ^ 16.
Proof.
  intros. unfold Uint16. rewrite slice_ok by lia. simpl. eexists. split; [done|].
  match goal with |- context [be_val ?s] => pose proof (be_val_range s) as R end.
  revert R. unfold blen at 1. rewrite length_take, length_drop.
  unfold blen in *. replace (Nat.min _ _) with 2%nat by lia. simpl. lia.
Qed.

(** Slicing an append at a known boundary. *)
Lemma slice_app_l a b n : blen a = n → slice (a ++ b) 0 n = Ret a.
Proof.
  intros <-. rewrite slice_ok; [|pose proof (blen_nonneg a); lia|rewrite blen_app; pose proof (blen_nonneg b); lia].
  rewrite Z.sub_0_r. unfold blen. rewrite Nat2Z.id. change (Z.to_nat 0) with 0%nat. by rewrite drop_0, take_app_length.
Qed.

Lemma slice_app_r a b lo hi :
  blen a ≤ lo ≤ hi → slice (a ++ b) lo hi = slice b (lo - blen a) (hi - blen a).
Proof.
  intros Hk. unfold slice. rewrite blen_app. pose proof (blen_nonneg a).
  replace ((0 <=? lo) && (lo <=? hi) && (hi <=? blen a + blen b))
    with ((0 <=? lo - blen a) && (lo - blen a <=? hi - blen a) && (hi - blen a <=? blen b)) by lia.
  case_goal; [|done]. f_equal. f_equal; [f_equal; lia|].
  rewrite drop_app_ge by (unfold blen in *; lia). f_equal. unfold blen in *. lia.
Qed.

Lemma slice_full b n : blen b = n → slice b 0 n = Ret b.
Proof. intros H. rewrite <- (app_nil_r b) at 1. by apply slice_app_l. Qed.

(** ** Safety: no panic, and a postcondition on the value *)

Definition safe {A} (o : outcome A) (Q : A → Prop) : Prop :=
  match o with
  | Ret a => Q a
  | Fail _ => True
  | Panic => False
  end.

Lemma safe_bind {A B} (o : outcome A) (f : A → outcome B) Q :
  safe o (λ a, safe (f a) Q) → safe (obind o f) Q.
Proof. by destruct o. Qed.

Lemma safe_mono {A} (o : outcome A) (P Q : A → Prop) :
  safe o P → (∀ a, P a → Q a) → safe o Q.
Proof. destruct o; simpl; auto. Qed.

Lemma safe_no_panic {A} (o : outcome A) Q : safe o Q → o ≠ Panic.
Proof. by destruct o. Qed.

Lemma safe_ret {A} (o : outcome A) Q a : safe o Q → o = Ret a → Q a.
Proof. by intros H ->. Qed.

Lemma safe_index b i Q :
  0 ≤ i < blen b → (∀ z, 0 ≤ z < 256 → Q z) → safe (index b i) Q.
Proof. intros (z & -> & ?)%index_ok HQ. simpl. auto. Qed.

Lemma safe_slice b lo hi (Q : bytes → Prop) :
  0 ≤ lo ≤ hi → hi ≤ blen b → (∀ s, blen s = hi - lo → slice b lo hi = Ret s → Q s) →
  safe (slice b lo hi) Q.
Proof.
  intros H1 H2 HQ. destruct (slice b lo hi) eqn:E; simpl; [|done|].
  - apply HQ; [|done]. by apply slice_len in E as (? & _).
  - rewrite slice_ok in E by done. done.
Qed.

Lemma safe_uint16 b lo hi (Q : Z → Prop) :
  hi = lo + 2 → 0 ≤ lo → hi ≤ blen b → (∀ z, 0 ≤ z < 65536 → Q z) →
  safe (s <~ slice b lo hi; Uint16 s) Q.
Proof.
  intros -> H1 H2 HQ. apply safe_bind, safe_slice; [lia|lia|]. intros s Hs _.
  destruct (uint16_ok s) as (z & -> & ?); [lia|]. by apply HQ.
Qed.

#[global] Arguments be_put : simpl never.
#[global] Arguments be_val : simpl never.
