(* ===== verification/GoJson.v ===== *)
(** * encoding/json

    The part of Go's [encoding/json] that the engine relies on: the text of a
    JSON value, read as the scanner reads it (white space, escapes, surrogate
    pairs, replacement of malformed UTF-8, the number grammar) and written as
    [json.Marshal] writes it (no white space, HTML-safe escapes).  An object
    keeps its members in the order of the text, duplicates included, and a
    number keeps its literal, because the code looks at both.  The scanner's
    nesting limit of 10000 is left out: every reader modelled here refuses a
    value nested that deep for its type. *)

From stdpp Require Import base list strings gmap sorting.
From Stdlib Require Import ZArith Lia Ascii.
From S2P Require Import Prelude GoBytes.

Local Open Scope Z_scope.
Set Default Goal Selector "!".

Inductive json : Type :=
| JNull
| JBool (b : bool)
| JNum (literal : string)
| JStr (s : string)
| JArr (l : list json)
| JObj (l : list (string * json)).

(** ** Writing *)

Definition hex_char (d : Z) : ascii := if d <? 10 then byte_of (48 + d) else byte_of (87 + d).
(** [hex.EncodeToString] *)
Definition hex_byte (c : ascii) : bytes := [hex_char (byte_val c / 16); hex_char (byte_val c mod 16)].
Definition hex_encode (b : bytes) : bytes := concat (hex_byte <$> b).

Definition backslash : ascii := byte_of 92.
Definition quote : ascii := byte_of 34.

(** The bytes of a text in this file. *)
Definition txt (s : string) : bytes := list_of_str s.
Definition esc_u (a b : Z) : bytes := backslash :: "u"%char :: hex_byte (byte_of a) ++ hex_byte (byte_of b).

Definition cont (c : ascii) : bool := (128 <=? byte_val c) && (byte_val c <=? 191).

(** The length of the UTF-8 encoding at the head of a text; [None]: malformed. *)
Definition rune_len (b : bytes) : option nat :=
  match b with
  | [] => None
  | c :: r =>
      let x := byte_val c in
      if x <? 128 then Some 1%nat
      else
        match r with
        | d :: r' =>
            let y := byte_val d in
            if (194 <=? x) && (x <=? 223) && cont d then Some 2%nat
            else
              match r' with
              | e :: r'' =>
                  if (224 <=? x) && (x <=? 239) && cont d && cont e &&
                     (negb (x =? 224) || (160 <=? y)) && (negb (x =? 237) || (y <=? 159))
                  then Some 3%nat
                  else
                    match r'' with
                    | f :: _ =>
                        if (240 <=? x) && (x <=? 244) && cont d && cont e && cont f &&
                           (negb (x =? 240) || (144 <=? y)) && (negb (x =? 244) || (y <=? 143))
                        then Some 4%nat else None
                    | [] => None
                    end
              | [] => None
              end
        | [] => None
        end
  end.

(** An ASCII character inside a string. *)
Definition escape_ascii (c : ascii) : bytes :=
  let x := byte_val c in
  if (x =? 34) || (x =? 92) then [backslash; c]
  else if x =? 8 then [backslash; "b"%char]
  else if x =? 12 then [backslash; "f"%char]
  else if x =? 10 then [backslash; "n"%char]
  else if x =? 13 then [backslash; "r"%char]
  else if x =? 9 then [backslash; "t"%char]
  else if (x <? 32) || (x =? 60) || (x =? 62) || (x =? 38) then esc_u 0 x
  else [c].

(** The body of a string; [copy] bytes of a multi-byte character are still to
    be copied, [skip] dropped. *)
Fixpoint escape (copy skip : nat) (b : bytes) : bytes :=
  match b with
  | [] => []
  | c :: r =>
      match copy, skip with
      | S k, _ => c :: escape k 0 r
      | O, S k => escape 0 k r
      | O, O =>
          if byte_val c <? 128 then escape_ascii c ++ escape 0 0 r
          else match rune_len (c :: r) with
               | None => esc_u 255 253 ++ escape 0 0 r
               | Some n =>
                   let y := byte_val (default c (r !! 1%nat)) in
                   if (byte_val c =? 226) && bool_decide (byte_val <$> r !! 0%nat = Some 128) && ((y =? 168) || (y =? 169))
                   then esc_u 32 (y - 128) ++ escape 0 2 r
                   else c :: escape (n - 1) 0 r
               end
      end
  end.

Definition print_string (s : string) : bytes := quote :: escape 0 0 (list_of_str s) ++ [quote].

Fixpoint commas (l : list bytes) : bytes :=
  match l with
  | [] => []
  | [x] => x
  | x :: l => x ++ ","%char :: commas l
  end.

Fixpoint print (j : json) : bytes :=
  match j with
  | JNull => txt "null"
  | JBool true => txt "true"
  | JBool false => txt "false"
  | JNum literal => list_of_str literal
  | JStr s => print_string s
  | JArr l => "["%char :: commas (print <$> l) ++ ["]"%char]
  | JObj l => "{"%char :: commas ((λ m, print_string m.1 ++ ":"%char :: print m.2) <$> l) ++ ["}"%char]
  end.

(** ** Reading *)

Definition is_space (c : ascii) : bool :=
  let x := byte_val c in (x =? 32) || (x =? 9) || (x =? 10) || (x =? 13).
Fixpoint skip_ws (b : bytes) : bytes :=
  match b with
  | c :: r => if is_space c then skip_ws r else b
  | [] => []
  end.

Definition hex_val (c : ascii) : option Z :=
  let x := byte_val c in
  if (48 <=? x) && (x <=? 57) then Some (x - 48)
  else if (97 <=? x) && (x <=? 102) then Some (x - 87)
  else if (65 <=? x) && (x <=? 70) then Some (x - 55)
  else None.
Definition hex4 (a b c d : ascii) : option Z :=
  a ← hex_val a; b ← hex_val b; c ← hex_val c; d ← hex_val d;
  Some (((a * 16 + b) * 16 + c) * 16 + d).

(** [utf8.AppendRune] *)
Definition utf8 (r : Z) : bytes :=
  if r <? 128 then [byte_of r]
  else if r <? 2048 then [byte_of (192 + r / 64); byte_of (128 + r mod 64)]
  else if r <? 65536 then [byte_of (224 + r / 4096); byte_of (128 + r / 64 mod 64); byte_of (128 + r mod 64)]
  else [byte_of (240 + r / 262144); byte_of (128 + r / 4096 mod 64); byte_of (128 + r / 64 mod 64); byte_of (128 + r mod 64)].
Definition replacement : bytes := utf8 65533.

Definition is_high (r : Z) : bool := (55296 <=? r) && (r <? 56320).
Definition is_low (r : Z) : bool := (56320 <=? r) && (r <? 57344).

Definition simple_escape (c : ascii) : option ascii :=
  let x := byte_val c in
  if (x =? 34) || (x =? 92) || (x =? 47) then Some c
  else if x =? 98 then Some (byte_of 8)
  else if x =? 102 then Some (byte_of 12)
  else if x =? 110 then Some (byte_of 10)
  else if x =? 114 then Some (byte_of 13)
  else if x =? 116 then Some (byte_of 9)
  else None.

(** The rest of a string after its opening quote: its value and what follows
    the closing quote.  [copy]: bytes of a multi-byte character still to copy. *)
Fixpoint read_string (copy : nat) (b : bytes) : option (bytes * bytes) :=
  match b with
  | [] => None
  | c :: r =>
      let put x := p ← read_string 0 r; Some (x ++ p.1, p.2) in
      let x := byte_val c in
      match copy with
      | S k => p ← read_string k r; Some (c :: p.1, p.2)
      | O =>
          if x =? 34 then Some ([], r)
          else if x <? 32 then None
          else if x =? 92 then
            match r with
            | e :: r1 =>
                if byte_val e =? 117 then
                  match r1 with
                  | a1 :: a2 :: a3 :: a4 :: r2 =>
                      u ← hex4 a1 a2 a3 a4;
                      let one v := p ← read_string 0 r2; Some (v ++ p.1, p.2) in
                      if is_high u then
                        match r2 with
                        | f :: e' :: b1 :: b2 :: b3 :: b4 :: r3 =>
                            if (byte_val f =? 92) && (byte_val e' =? 117) then
                              v ← hex4 b1 b2 b3 b4;
                              if is_low v
                              then p ← read_string 0 r3;
                                   Some (utf8 (65536 + (u - 55296) * 1024 + (v - 56320)) ++ p.1, p.2)
                              else one replacement
                            else one replacement
                        | _ => one replacement
                        end
                      else if is_low u then one replacement
                      else one (utf8 u)
                  | _ => None
                  end
                else c' ← simple_escape e; p ← read_string 0 r1; Some (c' :: p.1, p.2)
            | [] => None
            end
          else if x <? 128 then put [c]
          else match rune_len b with
               | Some n => p ← read_string (n - 1) r; Some (c :: p.1, p.2)
               | None => put replacement
               end
      end
  end.

Definition is_digit (c : ascii) : bool := (48 <=? byte_val c) && (byte_val c <=? 57).
Fixpoint digits (b : bytes) : bytes * bytes :=
  match b with
  | c :: r => if is_digit c then let '(d, s) := digits r in (c :: d, s) else ([], b)
  | [] => ([], [])
  end.

(** The number at the head of a text: [-?(0|[1-9][0-9]* )(\.[0-9]+)?([eE][+-]?[0-9]+)?] *)
Definition read_number (b : bytes) : option (bytes * bytes) :=
  let '(sign, b) := match b with c :: r => if byte_val c =? 45 then ([c], r) else ([], b) | [] => ([], b) end in
  p ← match b with
      | c :: r => if byte_val c =? 48 then Some ([c], r) else if is_digit c then Some (digits b) else None
      | [] => None
      end;
  let '(int, b) := (p : bytes * bytes) in
  p ← match b with
      | c :: r => if byte_val c =? 46 then let '(d, s) := digits r in
                    match d with [] => None | _ => Some (c :: d, s) end
                  else Some ([], b)
      | [] => Some ([], b)
      end;
  let '(frac, b) := (p : bytes * bytes) in
  p ← match b with
      | c :: r =>
          if (byte_val c =? 101) || (byte_val c =? 69) then
            let '(sg, r) := match r with
                            | e :: r' => if (byte_val e =? 43) || (byte_val e =? 45) then ([e], r') else ([], r)
                            | [] => ([], r)
                            end in
            let '(d, s) := digits r in
            match d with [] => None | _ => Some (c :: sg ++ d, s) end
          else Some ([], b)
      | [] => Some ([], b)
      end;
  let '(exp, b) := (p : bytes * bytes) in
  Some (sign ++ int ++ frac ++ exp, b).

(** What follows a literal word. *)
Fixpoint after (word b : bytes) : option bytes :=
  match word, b with
  | [], _ => Some b
  | c :: w, d :: r => if Ascii.eqb c d then after w r else None
  | _, [] => None
  end.

(** A value, the members of an array and of an object; every call uses up one
    unit of fuel and at least one byte. *)
Fixpoint read_value (fuel : nat) (b : bytes) : option (json * bytes) :=
  match fuel with
  | O => None
  | S f =>
      match skip_ws b with
      | [] => None
      | c :: r =>
          let x := byte_val c in
          if x =? 123 then
            match skip_ws r with
            | d :: r' => if byte_val d =? 125 then Some (JObj [], r')
                         else p ← read_members f r; Some (JObj p.1, p.2)
            | [] => None
            end
          else if x =? 91 then
            match skip_ws r with
            | d :: r' => if byte_val d =? 93 then Some (JArr [], r')
                         else p ← read_elements f r; Some (JArr p.1, p.2)
            | [] => None
            end
          else if x =? 34 then p ← read_string 0 r; Some (JStr (str_of_list p.1), p.2)
          else if x =? 116 then r' ← after (txt "rue") r; Some (JBool true, r')
          else if x =? 102 then r' ← after (txt "alse") r; Some (JBool false, r')
          else if x =? 110 then r' ← after (txt "ull") r; Some (JNull, r')
          else p ← read_number (c :: r); Some (JNum (str_of_list p.1), p.2)
      end
  end
with read_elements (fuel : nat) (b : bytes) : option (list json * bytes) :=
  match fuel with
  | O => None
  | S f =>
      p ← read_value f b;
      match skip_ws p.2 with
      | c :: r =>
          if byte_val c =? 44 then q ← read_elements f r; Some (p.1 :: q.1, q.2)
          else if byte_val c =? 93 then Some ([p.1], r)
          else None
      | [] => None
      end
  end
with read_members (fuel : nat) (b : bytes) : option (list (string * json) * bytes) :=
  match fuel with
  | O => None
  | S f =>
      match skip_ws b with
      | q :: r =>
          if byte_val q =? 34 then
            k ← read_string 0 r;
            match skip_ws k.2 with
            | colon :: r =>
                if byte_val colon =? 58 then
                  p ← read_value f r;
                  match skip_ws p.2 with
                  | c :: r =>
                      if byte_val c =? 44 then q ← read_members f r; Some ((str_of_list k.1, p.1) :: q.1, q.2)
                      else if byte_val c =? 125 then Some ([(str_of_list k.1, p.1)], r)
                      else None
                  | [] => None
                  end
                else None
            | [] => None
            end
          else None
      | [] => None
      end
  end.

(** A whole text: one value and nothing but white space after it. *)
Definition parse (b : bytes) : option json :=
  p ← read_value (S (length b)) b;
  match skip_ws p.2 with [] => Some p.1 | _ => None end.

(** ** Integers *)

Fixpoint show_digits (fuel : nat) (n : Z) (acc : bytes) : bytes :=
  match fuel with
  | O => acc
  | S f => if n <? 10 then byte_of (48 + n) :: acc else show_digits f (n / 10) (byte_of (48 + n mod 10) :: acc)
  end.
(** [strconv.FormatInt] on an [int64]; twenty digits are enough. *)
Definition show_int (n : Z) : string :=
  str_of_list (if n <? 0 then "-"%char :: show_digits 20 (- n) [] else show_digits 20 n []).

Definition digits_val (b : bytes) : Z := fold_left (λ a c, 10 * a + (byte_val c - 48)) b 0.
(** [strconv.ParseInt(literal, 10, 64)]: a fraction or an exponent is an error,
    and so is a value out of range. *)
Definition parse_int (literal : string) : option Z :=
  let number b := if (negb (bool_decide (b = []))) && forallb is_digit b then Some (digits_val b) else None in
  z ← match list_of_str literal with
      | c :: r => if byte_val c =? 45 then z ← number r; Some (- z) else number (c :: r)
      | [] => None
      end;
  if in_int64 z then Some z else None.

(** ** json.Unmarshal into Go types: [null] leaves the zero value *)

Definition un_string (j : json) : option string :=
  match j with JStr s => Some s | JNull => Some "" | _ => None end.
Definition un_int64 (j : json) : option Z :=
  match j with JNum l => parse_int l | JNull => Some 0 | _ => None end.
Definition un_bool (j : json) : option bool :=
  match j with JBool b => Some b | JNull => Some false | _ => None end.
(** A slice or a map; the inner [None] is [nil]. *)
Definition un_slice (j : json) : option (option (list json)) :=
  match j with JArr l => Some (Some l) | JNull => Some None | _ => None end.
Definition un_string_map (j : json) : option (option (gmap string string)) :=
  match j with
  | JObj l =>
      m ← foldl (λ acc kv, m ← acc; v ← un_string kv.2; Some (<[kv.1 := v]> m)) (Some ∅) l;
      Some (Some m)
  | JNull => Some None
  | _ => None
  end.

(** The member of an object. *)
Fixpoint field (k : string) (l : list (string * json)) : option json :=
  match l with
  | [] => None
  | (k', v) :: l => if String.eqb k' k then Some v else field k l
  end.

(** ** The round trip *)

Definition plain_char (c : ascii) : bool :=
  let x := byte_val c in
  (32 <=? x) && (x <=? 126) && negb (x =? 34) && negb (x =? 92) && negb (x =? 60) && negb (x =? 62) && negb (x =? 38).
Definition plain_string (s : string) : bool := forallb plain_char (list_of_str s).
Definition plain_number (s : string) : bool :=
  match list_of_str s with
  | [] => false
  | c :: r => is_digit c && forallb is_digit r && (negb (byte_val c =? 48) || bool_decide (r = []))
  end.
Fixpoint plain (j : json) : bool :=
  match j with
  | JNull | JBool _ => true
  | JNum l => plain_number l
  | JStr s => plain_string s
  | JArr l => forallb plain l
  | JObj l => forallb (λ m, plain_string m.1 && plain m.2) l
  end.

Lemma json_ind' (P : json → Prop) :
  P JNull → (∀ b, P (JBool b)) → (∀ l, P (JNum l)) → (∀ s, P (JStr s)) →
  (∀ l, Forall P l → P (JArr l)) → (∀ l, Forall (λ m, P m.2) l → P (JObj l)) → ∀ j, P j.
Proof.
  intros Hn Hb Hl Hs Ha Ho. fix IH 1. intros [| | | |l|l]; [done|done|done|done| |].
  - apply Ha. induction l as [|x l IHl]; constructor; [apply IH|apply IHl].
  - apply Ho. induction l as [|x l IHl]; constructor; [apply IH|apply IHl].
Qed.

Lemma str_list s : str_of_list (list_of_str s) = s.
Proof. apply String.string_of_list_ascii_of_string. Qed.
Lemma list_str b : list_of_str (str_of_list b) = b.
Proof. apply String.list_ascii_of_string_of_list_ascii. Qed.

Lemma escape_plain b : forallb plain_char b = true → escape 0 0 b = b.
Proof.
  induction b as [|c b IH]; [done|]. cbn [forallb escape]. intros [Hc Hb]%andb_true_iff. rewrite (IH Hb).
  unfold plain_char in Hc. rewrite bool_true_if by lia. unfold escape_ascii.
  rewrite !bool_false_if by lia. done.
Qed.

Lemma read_string_plain b r : forallb plain_char b = true → read_string 0 (b ++ quote :: r) = Some (b, r).
Proof.
  induction b as [|c b IH]; [done|]. cbn [forallb app]. intros [Hc Hb]%andb_true_iff.
  cbn [read_string]. unfold plain_char in Hc. rewrite !(bool_false_if (_ =? _)), bool_false_if, bool_true_if by lia.
  by rewrite (IH Hb).
Qed.

Lemma read_print_string s r : plain_string s = true →
  ∃ t, print_string s ++ r = quote :: t ∧ read_string 0 t = Some (list_of_str s, r).
Proof.
  intros H. unfold print_string. rewrite escape_plain by done. exists (list_of_str s ++ quote :: r).
  split; [simpl; by rewrite <- app_assoc|]. by apply read_string_plain.
Qed.

(** What may follow a value: the end of the text, a comma or a closing bracket. *)
Definition closes (r : bytes) : Prop :=
  match r with [] => True | c :: _ => byte_val c = 44 ∨ byte_val c = 93 ∨ byte_val c = 125 end.

Lemma digits_plain b r : forallb is_digit b = true → closes r → digits (b ++ r) = (b, r).
Proof.
  intros Hb Hr. induction b as [|c b IH]; cbn [app digits].
  - destruct r as [|d r]; [done|]. unfold is_digit. cbn [digits]. rewrite bool_false_if; [done|].
    unfold closes in Hr. unfold is_digit. lia.
  - cbn [forallb] in Hb. apply andb_true_iff in Hb as [-> Hb]. by rewrite (IH Hb).
Qed.

Lemma read_number_plain l r : plain_number l = true → closes r →
  read_number (list_of_str l ++ r) = Some (list_of_str l, r).
Proof.
  unfold plain_number. intros Hl Hr. destruct (list_of_str l) as [|c b] eqn:El; [done|].
  apply andb_true_iff in Hl as [[Hc Hb]%andb_true_iff Hz].
  unfold read_number. cbn [app]. unfold is_digit in Hc. rewrite (bool_false_if (byte_val c =? 45)) by lia.
  assert (Hint : (if byte_val c =? 48 then Some ([c], b ++ r) else if is_digit c then Some (digits (c :: b ++ r)) else None)
    = Some (c :: b, r)).
  { destruct (byte_val c =? 48) eqn:E.
    - apply orb_true_iff in Hz as [Hz|Hz]; [done|]. apply bool_decide_eq_true in Hz as ->. done.
    - unfold is_digit. rewrite bool_true_if by lia.
      change (c :: b ++ r) with ((c :: b) ++ r). rewrite digits_plain; [done| |done]. cbn [forallb]. unfold is_digit at 1.
      rewrite Hb. lia. }
  rewrite Hint. cbn [mbind option_bind]. destruct r as [|d r]; cbn [mbind option_bind].
  - by rewrite !app_nil_r.
  - unfold closes in Hr. rewrite (bool_false_if (byte_val d =? 46)) by lia. cbn [mbind option_bind].
    rewrite (bool_false_if (_ || _)) by lia. cbn [mbind option_bind]. by rewrite !app_nil_r.
Qed.

(** The first byte of a printed value. *)
Lemma print_head v : plain v = true → ∃ c r, print v = c :: r ∧ is_space c = false ∧ byte_val c ≠ 93 ∧ byte_val c ≠ 125.
Proof.
  destruct v as [|[]|l|s|l|l]; intros H; try (eexists _, _; split; [reflexivity|done]).
  cbn [plain] in H. unfold plain_number in H. cbn [print]. destruct (list_of_str l) as [|c r]; [done|].
  eexists _, _. split; [reflexivity|]. unfold is_digit in H. unfold is_space. lia.
Qed.

Fixpoint nsize (v : json) : nat :=
  match v with
  | JArr l => S (sum_list_with (λ x, S (nsize x)) l)
  | JObj l => S (sum_list_with (λ m, S (nsize m.2)) l)
  | _ => 1
  end.

Lemma skip_ws_head c r : is_space c = false → skip_ws (c :: r) = c :: r.
Proof. intros H. cbn [skip_ws]. by rewrite H. Qed.

Lemma closes_skip c r : byte_val c = 44 ∨ byte_val c = 93 ∨ byte_val c = 125 → skip_ws (c :: r) = c :: r.
Proof. intros H. apply skip_ws_head. unfold is_space. lia. Qed.

Lemma commas_cons2 x y l : commas (x :: y :: l) = x ++ ","%char :: commas (y :: l).
Proof. done. Qed.

Definition reads (v : json) : Prop := plain v = true → ∀ fuel r, closes r → (nsize v ≤ fuel)%nat →
  read_value fuel (print v ++ r) = Some (v, r).

Lemma read_elements_print x l fuel r :
  Forall reads (x :: l) → forallb plain (x :: l) = true → (sum_list_with (λ x, S (nsize x)) (x :: l) ≤ fuel)%nat →
  read_elements fuel (commas (print <$> x :: l) ++ "]"%char :: r) = Some (x :: l, r).
Proof.
  revert x fuel. induction l as [|y l IH]; intros x fuel HF HP Hf; cbn in Hf;
    destruct fuel as [|f]; try lia; cbn [read_elements];
    apply Forall_cons in HF as [Hx HF]; cbn [forallb] in HP; apply andb_true_iff in HP as [Px HP].
  - cbn [fmap list_fmap commas]. rewrite (Hx Px); [|unfold closes; cbn; auto|lia]. done.
  - rewrite !fmap_cons, commas_cons2, <- fmap_cons, <- app_assoc, <- app_comm_cons.
    rewrite (Hx Px); [|unfold closes; cbn; auto|lia]. cbn [mbind option_bind fst snd].
    rewrite closes_skip by (cbn; auto). cbn [mbind option_bind].
    change (byte_val ","%char =? 44) with true. cbv iota.
    rewrite (IH y f HF HP) by (cbn; lia). done.
Qed.

Lemma read_members_print m l fuel r :
  Forall (λ m, reads m.2) (m :: l) → forallb (λ m, plain_string m.1 && plain m.2) (m :: l) = true →
  (sum_list_with (λ m, S (nsize m.2)) (m :: l) ≤ fuel)%nat →
  read_members fuel (commas ((λ m, print_string m.1 ++ ":"%char :: print m.2) <$> m :: l) ++ "}"%char :: r) = Some (m :: l, r).
Proof.
  assert (Hone : ∀ (k : string) v f t, plain_string k = true → plain v = true → reads v → closes t → (nsize v ≤ f)%nat →
    ∃ u w, (print_string k ++ ":"%char :: print v) ++ t = quote :: u ∧ read_string 0 u = Some (list_of_str k, ":"%char :: w) ∧
      read_value f w = Some (v, t)).
  { intros k v f t Pk Pv Hv Ht Hn. destruct (read_print_string k (":"%char :: print v ++ t) Pk) as (u & Hu & Hr).
    exists u, (print v ++ t). split_and!; [by rewrite <- app_assoc|done|by apply Hv]. }
  set (pm := λ m : string * json, print_string m.1 ++ ":"%char :: print m.2).
  revert m fuel. induction l as [|y l IH]; intros [k v] fuel HF HP Hf; cbn in Hf;
    destruct fuel as [|f]; try lia; cbn [read_members];
    apply Forall_cons in HF as [Hx HF]; cbn [forallb fst snd] in HP; apply andb_true_iff in HP as [[Pk Pv]%andb_true_iff HP].
  - cbn [fmap list_fmap commas fst snd]. unfold pm. cbn [fst snd].
    destruct (Hone k v f ("}"%char :: r) Pk Pv Hx) as (u & w & -> & Hu & Hw); [unfold closes; cbn; auto|lia|].
    change (skip_ws (quote :: u)) with (quote :: u). change (byte_val quote =? 34) with true. cbv iota. rewrite Hu.
    cbn [mbind option_bind fst snd]. change (skip_ws (":"%char :: w)) with (":"%char :: w).
    change (byte_val ":"%char =? 58) with true. cbv iota. rewrite Hw. cbn. by rewrite str_list.
  - rewrite !fmap_cons, commas_cons2, <- fmap_cons. rewrite <- app_assoc, <- app_comm_cons. unfold pm at 1. cbn [fst snd].
    set (t := ","%char :: _ ++ _).
    destruct (Hone k v f t Pk Pv Hx) as (u & w & -> & Hu & Hw); [unfold closes; cbn; auto|lia|].
    change (skip_ws (quote :: u)) with (quote :: u). change (byte_val quote =? 34) with true. cbv iota. rewrite Hu.
    cbn [mbind option_bind fst snd]. change (skip_ws (":"%char :: w)) with (":"%char :: w).
    change (byte_val ":"%char =? 58) with true. cbv iota. rewrite Hw. cbn [mbind option_bind fst snd].
    unfold t. rewrite closes_skip by (cbn; auto).
    change (byte_val ","%char =? 44) with true. cbv iota.
    rewrite (IH y f HF HP) by (cbn; lia). cbn. by rewrite str_list.
Qed.

Lemma read_print v : reads v.
Proof.
  induction v as [|[]|l|s|l IH|l IH] using json_ind'; intros Hp fuel r Hr Hf;
    destruct fuel as [|f]; try (cbn in Hf; lia); try done.
  - cbn [plain] in Hp. cbn [print]. pose proof (read_number_plain l r Hp Hr) as Hn.
    unfold plain_number in Hp. destruct (list_of_str l) as [|c b] eqn:El; [done|].
    cbn [app read_value]. unfold is_digit in Hp. rewrite skip_ws_head by (unfold is_space; lia).
    rewrite !bool_false_if by lia. cbn [app] in Hn. rewrite Hn. cbn [mbind option_bind fst snd]. by rewrite <- El, str_list.
  - cbn [plain] in Hp. cbn [print]. destruct (read_print_string s r Hp) as (t & -> & Ht).
    cbn [read_value]. change (skip_ws (quote :: t)) with (quote :: t).
    change (byte_val quote) with 34. cbn -[read_string]. rewrite Ht. cbn. by rewrite str_list.
  - destruct l as [|x l]; [done|]. change (plain (JArr (x :: l))) with (forallb plain (x :: l)) in Hp.
    cbn [print]. rewrite <- app_comm_cons, <- app_assoc. cbn [app]. cbn [read_value].
    set (t := commas _ ++ _). change (skip_ws ("["%char :: t)) with ("["%char :: t).
    assert (∃ c u, t = c :: u ∧ is_space c = false ∧ byte_val c ≠ 93) as (c & u & Ht & Hc & Hc').
    { destruct (print_head x) as (c & u & Hx & ? & ? & ?); [cbn [forallb] in Hp; by apply andb_true_iff in Hp as [? _]|].
      unfold t. rewrite fmap_cons, Hx. exists c. destruct (print <$> l); eexists; (split; [reflexivity|done]). }
    cbv zeta. change (byte_val "["%char =? 123) with false. change (byte_val "["%char =? 91) with true. cbv iota. rewrite Ht, (skip_ws_head c u Hc), <- Ht.
    rewrite bool_false_if by lia. unfold t. rewrite read_elements_print; [done|done|done|]. cbn in Hf |- *. lia.
  - destruct l as [|x l]; [done|]. change (plain (JObj (x :: l))) with (forallb (λ m, plain_string m.1 && plain m.2) (x :: l)) in Hp.
    cbn [print]. rewrite <- app_comm_cons, <- app_assoc. cbn [app]. cbn [read_value].
    set (t := commas _ ++ _). change (skip_ws ("{"%char :: t)) with ("{"%char :: t).
    assert (∃ u, t = quote :: u) as (u & Ht).
    { unfold t. rewrite fmap_cons. unfold print_string at 1. destruct (_ <$> l); eexists; reflexivity. }
    cbv zeta. change (byte_val "{"%char =? 123) with true. cbv iota. rewrite Ht.
    change (skip_ws (quote :: u)) with (quote :: u). cbv iota.
    change (byte_val quote =? 125) with false. cbv iota. rewrite <- Ht.
    unfold t. rewrite read_members_print; [done|done|done|]. cbn in Hf |- *. lia.
Qed.

Lemma commas_length ls : ls ≠ [] → (S (length (commas ls)) = sum_list_with (λ b, S (length b)) ls)%nat.
Proof.
  induction ls as [|x [|y l] IH]; intros H; [done|cbn; lia|].
  rewrite commas_cons2, length_app. cbn [length]. rewrite IH by done. cbn. lia.
Qed.

Lemma sum_fmap {A B} (f : A → B) (g : B → nat) l : sum_list_with g (f <$> l) = sum_list_with (λ x, g (f x)) l.
Proof. induction l; cbn; auto. Qed.

Lemma sum_mono {A} (f g : A → nat) l : Forall (λ x, f x ≤ g x)%nat l → (sum_list_with f l ≤ sum_list_with g l)%nat.
Proof. induction 1; cbn; lia. Qed.

Lemma nsize_length v : plain v = true → (nsize v ≤ length (print v))%nat.
Proof.
  induction v as [|[]|l|s|l IH|l IH] using json_ind'; intros Hp; try (cbn; lia).
  - cbn [plain] in Hp. unfold plain_number in Hp. cbn [print nsize]. destruct (list_of_str l); [done|cbn; lia].
  - destruct l as [|x l]; [cbn; lia|]. cbn [nsize print length]. rewrite length_app. cbn [length].
    assert (sum_list_with (λ x, S (nsize x)) (x :: l) ≤ S (length (commas (print <$> x :: l))))%nat; [|lia].
    rewrite commas_length, sum_fmap by done. apply sum_mono.
    apply Forall_forall. intros y Hy. rewrite Forall_forall in IH. cbn [plain] in Hp.
    specialize (IH y Hy (proj1 (forallb_forall _ _) Hp y (proj1 (list_elem_of_In _ _) Hy))). lia.
  - destruct l as [|x l]; [cbn; lia|]. cbn [nsize print length]. rewrite length_app. cbn [length].
    assert (sum_list_with (λ m, S (nsize m.2)) (x :: l) ≤
      S (length (commas ((λ m, print_string m.1 ++ ":"%char :: print m.2) <$> x :: l))))%nat; [|lia].
    rewrite commas_length, sum_fmap by done. apply sum_mono.
    apply Forall_forall. intros y Hy. rewrite Forall_forall in IH. cbn [plain] in Hp.
    pose proof (proj1 (forallb_forall _ _) Hp y (proj1 (list_elem_of_In _ _) Hy)) as [_ Py]%andb_true_iff.
    specialize (IH y Hy Py). rewrite length_app. cbn [length]. lia.
Qed.

(** Reading what was written gives the value back. *)
Lemma parse_print v : plain v = true → parse (print v) = Some v.
Proof.
  intros Hp. unfold parse. pose proof (nsize_length v Hp). rewrite <- (app_nil_r (print v)) at 2.
  rewrite (read_print v Hp); [done|done|lia].
Qed.

(** ** Integers round trip *)

Lemma digits_val_app a b : digits_val (a ++ b) = digits_val a * 10 ^ blen b + digits_val b.
Proof.
  unfold digits_val. rewrite fold_left_app. generalize (fold_left (λ a c, 10 * a + (byte_val c - 48)) a 0). intros z. revert z.
  induction b as [|c b IH]; intros z; cbn [fold_left]; [change (blen []) with 0; lia|].
  rewrite IH, blen_cons, Z.pow_add_r by (pose proof (blen_nonneg b); lia). rewrite (IH (10 * 0 + _)). lia.
Qed.

Lemma show_digits_spec fuel n acc :
  0 ≤ n < 10 ^ Z.of_nat fuel → (0 < fuel)%nat →
  ∃ b, show_digits fuel n acc = b ++ acc ∧ b ≠ [] ∧ forallb is_digit b = true ∧ digits_val b = n ∧
    (n = 0 → b = ["0"%char]) ∧ (0 < n → ∃ c r, b = c :: r ∧ byte_val c ≠ 48).
Proof.
  revert n acc. induction fuel as [|f IH]; intros n acc Hn Hf; [lia|]. cbn [show_digits].
  assert (Hd : ∀ d, 0 ≤ d ≤ 9 → byte_val (byte_of (48 + d)) = 48 + d)
    by (intros d ?; rewrite byte_val_of; apply wrap_small; cbn; lia).
  destruct (n <? 10) eqn:E.
  - exists [byte_of (48 + n)]. split_and!; [done|done| | | |].
    + cbn [forallb]. unfold is_digit. rewrite Hd by lia. lia.
    + unfold digits_val. cbn [fold_left]. rewrite Hd by lia. lia.
    + by intros ->.
    + intros. eexists _, _. split; [done|]. rewrite Hd by lia. lia.
  - assert (f ≠ 0)%nat as Hf0 by (intros ->; cbn in Hn; lia).
    assert (Hq : 0 ≤ n / 10 < 10 ^ Z.of_nat f).
    { rewrite Nat2Z.inj_succ, Z.pow_succ_r in Hn by lia. split; [apply Z.div_pos; lia|]. apply Z.div_lt_upper_bound; lia. }
    destruct (IH (n / 10) (byte_of (48 + n mod 10) :: acc) Hq ltac:(lia)) as (b & -> & Hb & Hf' & Hv & _ & Hp).
    exists (b ++ [byte_of (48 + n mod 10)]). pose proof (Z.mod_pos_bound n 10 ltac:(lia)). split_and!.
    + by rewrite <- app_assoc.
    + by destruct b.
    + rewrite forallb_app, Hf'. cbn [forallb]. unfold is_digit. rewrite Hd by lia. lia.
    + rewrite digits_val_app, Hv. change (blen [_]) with 1. unfold digits_val. cbn [fold_left]. rewrite Hd by lia.
      pose proof (Z.div_mod n 10). lia.
    + intros ->. lia.
    + intros _. destruct Hp as (c & r & -> & Hc); [|by exists c, (r ++ [byte_of (48 + n mod 10)])].
      apply Z.div_str_pos. lia.
Qed.

Lemma show_int_spec n : 0 ≤ n ≤ int64_max → parse_int (show_int n) = Some n ∧ plain_number (show_int n) = true.
Proof.
  intros Hn. unfold int64_max in Hn. unfold show_int. rewrite bool_false_if by lia.
  destruct (show_digits_spec 20 n []) as (b & -> & Hb & Hd & Hv & H0 & Hp); [change (Z.of_nat 20) with 20; lia|lia|].
  rewrite app_nil_r. unfold parse_int, plain_number. rewrite list_str. destruct b as [|c b]; [done|].
  assert (Hc : 48 <= byte_val c <= 57) by (cbn [forallb] in Hd; unfold is_digit at 1 in Hd; lia).
  rewrite (bool_false_if (byte_val c =? 45)) by lia. rewrite Hd.
  rewrite bool_decide_eq_false_2 by done. cbn [negb andb mbind option_bind]. rewrite Hv. split.
  - rewrite bool_true_if; [done|]. unfold in_int64, int64_min, int64_max. lia.
  - cbn [forallb] in Hd. rewrite Hd. cbn [andb]. destruct (decide (n = 0)) as [->|Hn0].
    + by injection (H0 eq_refl) as -> ->.
    + destruct (Hp ltac:(lia)) as (c' & r & [= <- <-] & Hc'). apply orb_true_iff. left. lia.
Qed.

(** ** Sizes *)

Definition slen (s : string) : nat := length (list_of_str s).

Lemma print_string_length s : plain_string s = true → length (print_string s) = (2 + slen s)%nat.
Proof. intros H. unfold print_string. rewrite escape_plain by done. cbn [length]. rewrite length_app. cbn. unfold slen. lia. Qed.

Lemma commas_length_le ls : (length (commas ls) ≤ sum_list_with (λ b, S (length b)) ls)%nat.
Proof. destruct (decide (ls = [])) as [->|H]; [done|]. pose proof (commas_length ls H). lia. Qed.

Lemma print_array_length l : (length (print (JArr l)) ≤ 2 + sum_list_with (λ j, S (length (print j))) l)%nat.
Proof.
  cbn [print length]. rewrite length_app. pose proof (commas_length_le (print <$> l)) as H. rewrite sum_fmap in H.
  cbn [length]. lia.
Qed.

Definition member_length (m : string * json) : nat := S (length (print_string m.1) + S (length (print m.2))).

Lemma print_object_length l : (length (print (JObj l)) ≤ 2 + sum_list_with member_length l)%nat.
Proof.
  cbn [print length]. rewrite length_app.
  pose proof (commas_length_le ((λ m, print_string m.1 ++ ":"%char :: print m.2) <$> l)) as H. rewrite sum_fmap in H.
  cbn [length]. assert (sum_list_with (λ m : string * json, S (length (print_string m.1 ++ ":"%char :: print m.2))) l =
    sum_list_with member_length l) as Hs; [|lia].
  clear. induction l as [|m l IH]; [done|]. cbn [sum_list_with]. rewrite IH. unfold member_length at 2.
  rewrite length_app. cbn [length]. done.
Qed.

Lemma sum_perm {A} (f : A → nat) l k : Permutation l k → sum_list_with f l = sum_list_with f k.
Proof. induction 1; cbn; lia. Qed.

Lemma sum_bound {A} (f : A → nat) l n : Forall (λ x, f x ≤ n)%nat l → (sum_list_with f l ≤ length l * n)%nat.
Proof. induction 1; cbn; lia. Qed.

Lemma show_digits_length fuel n acc k :
  0 ≤ n < 10 ^ Z.of_nat k → (0 < k)%nat → (length (show_digits fuel n acc) ≤ length acc + k)%nat.
Proof.
  revert n acc k. induction fuel as [|f IH]; intros n acc k Hn Hk; [cbn; lia|]. cbn [show_digits].
  destruct (n <? 10) eqn:E; [cbn [length]; lia|].
  destruct k as [|[|k]]; [lia|cbn in Hn; lia|].
  rewrite Nat2Z.inj_succ, Z.pow_succ_r in Hn by lia.
  pose proof (IH (n / 10) (byte_of (48 + n mod 10) :: acc) (S k)
    ltac:(split; [apply Z.div_pos; lia|apply Z.div_lt_upper_bound; lia]) ltac:(lia)) as H.
  cbn [length] in H. lia.
Qed.
