(* ===== verification/GoRawJson.v ===== *)
(** * json.RawMessage

    A [json.RawMessage] is the text of a value as it stands in the document: no
    white space around it, its inner spacing and escapes kept.  Code that hashes
    or verifies a part of a document works on that text.  The readers here cut an
    object or an array into the texts of its members; [raw_object_parse] and
    [raw_array_parse] show that reading those texts one by one gives the values
    that reading the whole document gives. *)

From stdpp Require Import base list strings gmap.
From Stdlib Require Import ZArith Lia Ascii.
From S2P Require Import Prelude GoBytes GoJson.

Local Open Scope Z_scope.
Set Default Goal Selector "!".

(** The text of the value at the head of [b], and what follows it. *)
Definition raw_value (fuel : nat) (b : bytes) : option (bytes * bytes) :=
  let b := skip_ws b in
  p ← read_value fuel b;
  Some (take (length b - length p.2) b, p.2).

Fixpoint raw_elements (fuel : nat) (b : bytes) : option (list bytes * bytes) :=
  match fuel with
  | O => None
  | S f =>
      p ← raw_value f b;
      match skip_ws p.2 with
      | c :: r =>
          if byte_val c =? 44 then q ← raw_elements f r; Some (p.1 :: q.1, q.2)
          else if byte_val c =? 93 then Some ([p.1], r)
          else None
      | [] => None
      end
  end.

Fixpoint raw_members (fuel : nat) (b : bytes) : option (list (string * bytes) * bytes) :=
  match fuel with
  | O => None
  | S f =>
      match skip_ws b with
      | q :: r =>
          if byte_val q =? 34 then
            k ← read_string 0 r;
            match skip_ws k.2 with
            | colon :: r =>
                if byte_val colon =? 58 then
                  p ← raw_value f r;
                  match skip_ws p.2 with
                  | c :: r =>
                      if byte_val c =? 44 then q ← raw_members f r; Some ((str_of_list k.1, p.1) :: q.1, q.2)
                      else if byte_val c =? 125 then Some ([(str_of_list k.1, p.1)], r)
                      else None
                  | [] => None
                  end
                else None
            | [] => None
            end
          else None
      | [] => None
      end
  end.

(** A whole document that is an object: its members in order, duplicates kept. *)
Definition raw_object (b : bytes) : option (list (string * bytes)) :=
  match skip_ws b with
  | c :: r =>
      if byte_val c =? 123 then
        p ← match skip_ws r with
            | d :: r' => if byte_val d =? 125 then Some ([], r') else raw_members (length b) r
            | [] => None
            end;
        match skip_ws p.2 with [] => Some p.1 | _ => None end
      else None
  | [] => None
  end.

(** A whole document that is an array. *)
Definition raw_array (b : bytes) : option (list bytes) :=
  match skip_ws b with
  | c :: r =>
      if byte_val c =? 91 then
        p ← match skip_ws r with
            | d :: r' => if byte_val d =? 93 then Some ([], r') else raw_elements (length b) r
            | [] => None
            end;
        match skip_ws p.2 with [] => Some p.1 | _ => None end
      else None
  | [] => None
  end.

(** [json.Unmarshal] into a [map[string]json.RawMessage]: the last of several
    members of a name wins; [null] is the empty map. *)
Definition raw_map (b : bytes) : option (gmap string bytes) :=
  match raw_object b with
  | Some l => Some (foldl (λ m kv, <[kv.1 := kv.2]> m) ∅ l)
  | None => match parse b with Some JNull => Some ∅ | _ => None end
  end.

(** ** json.Unmarshal into a struct

    A member sets the field whose name it has, letters compared without case: the
    long s (U+017F) counts as an s and the Kelvin sign (U+212A) as a k.  Members
    are taken in order; [null] leaves a string, a number or a boolean as it is. *)

Fixpoint fold_key (b : bytes) : bytes :=
  match b with
  | [] => []
  | c :: r =>
      let x := byte_val c in
      match r with
      | d :: r' =>
          if (x =? 197) && (byte_val d =? 191) then "s"%char :: fold_key r'
          else match r' with
               | e :: r'' =>
                   if (x =? 226) && (byte_val d =? 132) && (byte_val e =? 170) then "k"%char :: fold_key r''
                   else (if (65 <=? x) && (x <=? 90) then byte_of (x + 32) else c) :: fold_key r
               | [] => (if (65 <=? x) && (x <=? 90) then byte_of (x + 32) else c) :: fold_key r
               end
      | [] => [if (65 <=? x) && (x <=? 90) then byte_of (x + 32) else c]
      end
  end.

(** The field [name], lower case and ASCII, of a struct. *)
Definition struct_field {A} (assign : json → A → option A) (name : string) (zero : A) (ms : list (string * json)) : option A :=
  foldl (λ acc m, a ← acc; if bytes_eqb (fold_key (list_of_str m.1)) (list_of_str name) then assign m.2 a else Some a) (Some zero) ms.

Definition assign_string (j : json) (a : string) : option string :=
  match j with JStr s => Some s | JNull => Some a | _ => None end.
Definition assign_int64 (j : json) (a : Z) : option Z :=
  match j with JNum l => parse_int l | JNull => Some a | _ => None end.
Definition assign_bool (j : json) (a : bool) : option bool :=
  match j with JBool b => Some b | JNull => Some a | _ => None end.
Definition assign_string_map (j : json) (a : gmap string string) : option (gmap string string) :=
  match j with
  | JObj l => foldl (λ acc kv, m ← acc; v ← un_string kv.2; Some (<[kv.1 := v]> m)) (Some a) l
  | JNull => Some ∅
  | _ => None
  end.

(** The members a struct is read from; [null] is no member at all. *)
Definition struct_members (j : json) : option (list (string * json)) :=
  match j with JObj ms => Some ms | JNull => Some [] | _ => None end.
(** A slice of structs or of maps, read into an empty slice. *)
Definition assign_slice {A} (elem : json → option A) (j : json) (_ : list A) : option (list A) :=
  match j with JArr l => mapM elem l | JNull => Some [] | _ => None end.

(** ** A value is read from its own text *)

(** What may follow a number. *)
Definition ends (r : bytes) : Prop :=
  match r with [] => True | c :: _ => is_digit c = false ∧ byte_val c ≠ 46 ∧ byte_val c ≠ 101 ∧ byte_val c ≠ 69 end.

(** [read] took [v] from the head of [b] and left [r]: it did so by looking at
    [x] alone. *)
Definition local {A} (read : bytes → option (A * bytes)) (P : bytes → Prop) (b : bytes) (v : A) (r : bytes) : Prop :=
  ∃ x, b = x ++ r ∧ x ≠ [] ∧ ∀ r', P r' → read (x ++ r') = Some (v, r').

Lemma skip_ws_split b : ∃ w, b = w ++ skip_ws b ∧ forallb is_space w = true.
Proof.
  induction b as [|c b (w & Hb & Hw)]; [by exists []|]. cbn [skip_ws]. destruct (is_space c) eqn:E.
  - exists (c :: w). cbn. rewrite E. split; [congruence|done].
  - by exists [].
Qed.

Lemma skip_ws_app w b : forallb is_space w = true → skip_ws (w ++ b) = skip_ws b.
Proof. induction w as [|c w IH]; cbn [app forallb skip_ws]; [done|]. intros [-> ?]%andb_true_iff. auto. Qed.

Lemma skip_ws_idem b : skip_ws (skip_ws b) = skip_ws b.
Proof. induction b as [|c b IH]; [done|]. cbn [skip_ws]. destruct (is_space c) eqn:E; [done|]. cbn [skip_ws]. by rewrite E. Qed.

Lemma skip_ws_cons b c r : skip_ws b = c :: r → is_space c = false ∧ ∃ w, b = w ++ c :: r ∧ forallb is_space w = true.
Proof.
  intros H. split.
  - pose proof (skip_ws_idem b) as Hi. rewrite H in Hi. cbn [skip_ws] in Hi. destruct (is_space c) eqn:E; [|done].
    exfalso. assert (length (skip_ws r) ≤ length r)%nat as Hl.
    { destruct (skip_ws_split r) as (w & Hr & _). rewrite Hr at 2. rewrite length_app. lia. }
    rewrite Hi in Hl. cbn [length] in Hl. lia.
  - destruct (skip_ws_split b) as (w & Hb & Hw). exists w. rewrite H in Hb. done.
Qed.

(** White space and punctuation end a number. *)
Lemma ends_ws w c r : forallb is_space w = true → byte_val c = 44 ∨ byte_val c = 93 ∨ byte_val c = 125 → ends (w ++ c :: r).
Proof.
  destruct w as [|d w]; cbn [app forallb ends].
  - unfold is_digit. lia.
  - intros [Hd _]%andb_true_iff _. unfold is_space in Hd. unfold is_digit. lia.
Qed.

Lemma rune_len_quote c y r r' : rune_len (c :: y ++ quote :: r) = rune_len (c :: y ++ quote :: r').
Proof.
  unfold rune_len. destruct (byte_val c <? 128); [done|].
  assert (Hq : cont quote = false) by done.
  destruct y as [|y1 [|y2 [|y3 y]]]; cbn [app]; [| | |done]; rewrite ?Hq, ?andb_false_r; cbn [andb];
    repeat case_match; try done.
Qed.

Lemma byte_quote c : byte_val c = 34 → c = quote.
Proof. intros H. unfold quote. rewrite <- H. by rewrite byte_of_val. Qed.

Lemma hex4_quote a b c d : a = quote ∨ b = quote ∨ c = quote ∨ d = quote → hex4 a b c d = None.
Proof.
  intros H. unfold hex4. destruct (hex_val a) eqn:Ea; [|done]. destruct (hex_val b) eqn:Eb; [|done].
  destruct (hex_val c) eqn:Ec; [|done]. destruct (hex_val d) eqn:Ed; [|done]. by destruct H as [->|[->|[->| ->]]].
Qed.

Lemma unicode_escape f e rest : byte_val f = 92 → byte_val e = 117 → is_Some (read_string 0 (f :: e :: rest)) →
  ∃ a1 a2 a3 a4 r2, rest = a1 :: a2 :: a3 :: a4 :: r2 ∧ is_Some (hex4 a1 a2 a3 a4).
Proof.
  intros Hf He [p Hp]. cbn [read_string] in Hp. rewrite Hf, He in Hp. cbn in Hp.
  destruct rest as [|a1 [|a2 [|a3 [|a4 r2]]]]; try done. exists a1, a2, a3, a4, r2. split; [done|].
  destruct (hex4 a1 a2 a3 a4); [done|discriminate].
Qed.

Lemma no_hex {A} f e a1 a2 a3 a4 r (pair : Z → option A) (one : option A) :
  is_Some (read_string 0 (f :: e :: a1 :: a2 :: a3 :: a4 :: r)) →
  a1 = quote ∨ a2 = quote ∨ a3 = quote ∨ a4 = quote →
  (if (byte_val f =? 92) && (byte_val e =? 117) then v ← hex4 a1 a2 a3 a4; if is_low v then pair v else one else one) = one.
Proof.
  intros Hp Hq. destruct (_ && _) eqn:E; [|done]. bsplit.
  apply unicode_escape in Hp as (? & ? & ? & ? & ? & [= <- <- <- <- <-] & []); [|lia..]. by rewrite hex4_quote in *.
Qed.

(** After a high surrogate the reader looks six bytes ahead; a closing quote
    within them makes it take none. *)
Lemma no_surrogate {A} y r (pair : Z → bytes → option A) (one : option A) :
  is_Some (read_string 0 (y ++ quote :: r)) → (length y < 6)%nat →
  match y ++ quote :: r with
  | f :: e' :: b1 :: b2 :: b3 :: b4 :: r3 =>
      if (byte_val f =? 92) && (byte_val e' =? 117) then
        v ← hex4 b1 b2 b3 b4; if is_low v then pair v r3 else one
      else one
  | _ => one
  end = one.
Proof.
  intros Hp Hy. destruct y as [|f [|e [|b1 [|b2 [|b3 [|b4 y]]]]]]; cbn [length] in Hy; [..|lia]; clear Hy; cbn [app] in *.
  - by destruct r as [|? [|? [|? [|? [|? ?]]]]].
  - destruct r as [|? [|? [|? [|? ?]]]]; try done. change (byte_val quote =? 117) with false. by rewrite andb_false_r.
  - destruct r as [|? [|? [|? ?]]]; try done. eapply (no_hex f e); eauto.
  - destruct r as [|? [|? ?]]; try done. eapply (no_hex f e); eauto.
  - destruct r as [|? ?]; try done. eapply (no_hex f e); eauto.
  - eapply (no_hex f e); eauto.
Qed.

(** The rest of a string, read within [n] bytes, ends at a quote and depends on
    nothing after it. *)
Definition string_local (read : bytes → option (bytes * bytes)) (b : bytes) : Prop :=
  ∀ v r, read b = Some (v, r) → ∃ y, b = y ++ quote :: r ∧ ∀ r', read (y ++ quote :: r') = Some (v, r').

(** What the reader does after a high surrogate [u]. *)
Definition after_high (u : Z) (b : bytes) : option (bytes * bytes) :=
  let one := p ← read_string 0 b; Some (replacement ++ p.1, p.2) in
  match b with
  | f :: e' :: b1 :: b2 :: b3 :: b4 :: r3 =>
      if (byte_val f =? 92) && (byte_val e' =? 117) then
        v ← hex4 b1 b2 b3 b4;
        if is_low v
        then p ← read_string 0 r3; Some (utf8 (65536 + (u - 55296) * 1024 + (v - 56320)) ++ p.1, p.2)
        else one
      else one
  | _ => one
  end.

Definition replaced (b : bytes) : option (bytes * bytes) := p ← read_string 0 b; Some (replacement ++ p.1, p.2).

Lemma replaced_local b : string_local (read_string 0) b → string_local replaced b.
Proof.
  intros Hb v r H. unfold replaced in *. destruct (read_string 0 b) as [[v' r2]|] eqn:E; [|done]. injection H as <- <-.
  destruct (Hb v' r2 E) as (y & -> & Hy). exists y. split; [done|]. intros r'. by rewrite Hy.
Qed.

(** A surrogate that is replaced within [y] is replaced whatever follows. *)
Lemma after_high_replaced u y r v : (∀ r', replaced (y ++ quote :: r') = Some (v, r')) →
  ((6 ≤ length y)%nat → ∀ r', after_high u (y ++ quote :: r') = replaced (y ++ quote :: r')) →
  after_high u (y ++ quote :: r) = Some (v, r).
Proof.
  intros Hy Hlong. rewrite <- (Hy r). destruct (decide (length y < 6)%nat) as [Hl|Hl]; [|apply Hlong; lia].
  unfold after_high. apply no_surrogate; [|done]. specialize (Hy r). unfold replaced in Hy.
  by destruct (read_string 0 (y ++ quote :: r)).
Qed.

Lemma after_high_local u b : string_local (read_string 0) b →
  (∀ f e b1 b2 b3 b4 r, b = f :: e :: b1 :: b2 :: b3 :: b4 :: r → string_local (read_string 0) r) →
  string_local (after_high u) b.
Proof.
  intros Hb Hr v r H.
  assert (Hone : replaced b = Some (v, r) →
    (∀ f e b1 b2 b3 b4 t r', b = f :: e :: b1 :: b2 :: b3 :: b4 :: t →
       ∀ t', after_high u (f :: e :: b1 :: b2 :: b3 :: b4 :: t' ++ quote :: r') = replaced (f :: e :: b1 :: b2 :: b3 :: b4 :: t' ++ quote :: r')) →
    ∃ y, b = y ++ quote :: r ∧ ∀ r', after_high u (y ++ quote :: r') = Some (v, r')).
  { intros (y & Hby & Hy)%(replaced_local b Hb) Hlong. exists y. split; [done|]. intros r'. apply after_high_replaced; [done|].
    intros Hl r''. destruct y as [|f [|e [|b1 [|b2 [|b3 [|b4 y]]]]]]; cbn [length] in Hl; try lia. cbn [app] in *. by eapply Hlong. }
  unfold after_high in H. destruct b as [|f [|e [|b1 [|b2 [|b3 [|b4 r3]]]]]]; try (by apply Hone).
  destruct ((byte_val f =? 92) && (byte_val e =? 117)) eqn:E.
  2:{ apply Hone; [done|]. intros ? ? ? ? ? ? ? ? [= <- <- <- <- <- <- <-] ?. unfold after_high. by rewrite E. }
  destruct (hex4 b1 b2 b3 b4) as [x|] eqn:Ex; [|done]. cbn [mbind option_bind] in H. destruct (is_low x) eqn:El.
  2:{ apply Hone; [done|]. intros ? ? ? ? ? ? ? ? [= <- <- <- <- <- <- <-] ?. unfold after_high. rewrite E, Ex. cbn [mbind option_bind]. by rewrite El. }
  destruct (read_string 0 r3) as [[v' r4]|] eqn:E3; [|done]. injection H as <- <-.
  destruct (Hr _ _ _ _ _ _ _ eq_refl v' r4 E3) as (y & -> & Hy). exists (f :: e :: b1 :: b2 :: b3 :: b4 :: y). split; [done|].
  intros r'. unfold after_high. cbn [app]. rewrite E, Ex. cbn [mbind option_bind]. by rewrite El, Hy.
Qed.

(** [read] on [w ++ b] puts [x] before what the string reader finds in [b]. *)
Definition puts (read : bytes → option (bytes * bytes)) (w : bytes) (k : nat) (x b : bytes) : Prop :=
  read (w ++ b) = read_string k b ≫= λ p, Some (x ++ p.1, p.2).

Lemma puts_local read w k x b : string_local (read_string k) b → puts read w k x b →
  (∀ y r r', b = y ++ quote :: r → puts read w k x (y ++ quote :: r')) → string_local read (w ++ b).
Proof.
  intros Hb H1 H2 v r H. rewrite H1 in H. destruct (read_string k b) as [[v' r1]|] eqn:E; [|done]. injection H as <- <-.
  destruct (Hb v' r1 E) as (y & Hy & Hr). exists (w ++ y). split; [by rewrite Hy, app_assoc|].
  intros r'. rewrite <- app_assoc, (H2 y r1 r' Hy), Hr. done.
Qed.

(** A unicode escape, by its hexadecimal digits. *)
Lemma read_unicode c e a1 a2 a3 a4 r : byte_val c = 92 → byte_val e = 117 →
  read_string 0 (c :: e :: a1 :: a2 :: a3 :: a4 :: r) =
  hex4 a1 a2 a3 a4 ≫= λ u, if is_high u then after_high u r
                           else read_string 0 r ≫= λ p, Some ((if is_low u then replacement else utf8 u) ++ p.1, p.2).
Proof.
  intros Hc He. cbn [read_string]. rewrite Hc, He. cbn [Z.eqb Pos.eqb Z.ltb Z.compare Pos.compare Pos.compare_cont].
  destruct (hex4 a1 a2 a3 a4) as [u|]; [|done]. cbn [mbind option_bind]. destruct (is_high u); [done|]. by destruct (is_low u).
Qed.

(** An escape after its backslash [c]. *)
Lemma escape_local c e r : byte_val c = 92 → (∀ k b, (length b ≤ length r)%nat → string_local (read_string k) b) →
  string_local (read_string 0) (c :: e :: r).
Proof.
  intros Hc IH. destruct (byte_val e =? 117) eqn:Eu.
  - intros v t H. destruct (unicode_escape c e r) as (a1 & a2 & a3 & a4 & r2 & -> & u & Eh); [lia..|done|].
    assert (Hr2 : string_local (read_string 0) r2) by (apply IH; cbn [length]; lia).
    rewrite read_unicode, Eh in H by lia. cbn [mbind option_bind] in H. destruct (is_high u) eqn:Ehi.
    + apply after_high_local in H as (y & -> & Hy); [|done|intros f e' b1 b2 b3 b4 t' ->; apply IH; cbn [length]; lia].
      exists (c :: e :: a1 :: a2 :: a3 :: a4 :: y). split; [done|]. intros r'. cbn [app]. rewrite read_unicode, Eh by lia.
      cbn [mbind option_bind]. by rewrite Ehi, Hy.
    + destruct (read_string 0 r2) as [[v' r3]|] eqn:E; [|done]. injection H as <- <-. apply Hr2 in E as (y & -> & Hy).
      exists (c :: e :: a1 :: a2 :: a3 :: a4 :: y). split; [done|]. intros r'. cbn [app]. rewrite read_unicode, Eh by lia.
      cbn [mbind option_bind]. by rewrite Ehi, Hy.
  - destruct (simple_escape e) as [c'|] eqn:Ee; [|intros v t H; cbn [read_string] in H; rewrite Hc, Eu, Ee in H; discriminate].
    apply (puts_local _ [c; e] 0 [c']); [by apply IH| |intros y t r' ->];
      unfold puts; cbn [app read_string]; rewrite Hc, Eu, Ee; done.
Qed.

Lemma read_string_local copy b : string_local (read_string copy) b.
Proof.
  remember (length b) as n eqn:Hn. revert copy b Hn. induction (lt_wf n) as [n _ IH]. intros copy [|c b] ->; [done|].
  assert (IH' : ∀ k t, (length t ≤ length b)%nat → string_local (read_string k) t).
  { intros k t Ht. eapply IH; [|done]. cbn [length]. lia. }
  destruct copy as [|k]; [|by apply (puts_local _ [c] k [c]); [apply IH'|done..]].
  destruct (byte_val c =? 34) eqn:E34.
  { intros v r H. cbn [read_string] in H. rewrite E34 in H. injection H as <- <-. exists []. by rewrite (byte_quote c) by lia. }
  destruct (byte_val c <? 32) eqn:E32; [intros v r H; cbn [read_string] in H; rewrite E34, E32 in H; discriminate|].
  destruct (byte_val c =? 92) eqn:E92.
  { destruct b as [|e b]; [intros v r H; cbn [read_string] in H; rewrite E34, E32, E92 in H; discriminate|].
    apply escape_local; [lia|]. intros k t Ht. apply IH'. cbn [length]. lia. }
  destruct (byte_val c <? 128) eqn:E128.
  { apply (puts_local _ [c] 0 [c]); [by apply IH'| |intros y t r' ->]; unfold puts; cbn [app read_string]; by rewrite E34, E32, E92, E128. }
  destruct (rune_len (c :: b)) as [m|] eqn:Em.
  - apply (puts_local _ [c] (m - 1) [c]); [by apply IH'| |intros y t r' ->; rewrite (rune_len_quote _ _ _ r') in Em];
      unfold puts; cbn [app]; cbn [read_string]; by rewrite E34, E32, E92, E128, Em.
  - apply (puts_local _ [c] 0 replacement); [by apply IH'| |intros y t r' ->; rewrite (rune_len_quote _ _ _ r') in Em];
      unfold puts; cbn [app]; cbn [read_string]; by rewrite E34, E32, E92, E128, Em.
Qed.

(** *** Numbers *)

Definition num_sign (b : bytes) : bytes * bytes :=
  match b with c :: r => if byte_val c =? 45 then ([c], r) else ([], b) | [] => ([], b) end.
Definition num_int (b : bytes) : option (bytes * bytes) :=
  match b with
  | c :: r => if byte_val c =? 48 then Some ([c], r) else if is_digit c then Some (digits b) else None
  | [] => None
  end.
Definition num_frac (b : bytes) : option (bytes * bytes) :=
  match b with
  | c :: r => if byte_val c =? 46 then let '(d, s) := digits r in match d with [] => None | _ => Some (c :: d, s) end
              else Some ([], b)
  | [] => Some ([], b)
  end.
Definition exp_sign (b : bytes) : bytes * bytes :=
  match b with e :: r => if (byte_val e =? 43) || (byte_val e =? 45) then ([e], r) else ([], b) | [] => ([], b) end.
Definition num_exp (b : bytes) : option (bytes * bytes) :=
  match b with
  | c :: r =>
      if (byte_val c =? 101) || (byte_val c =? 69) then
        let '(sg, r) := exp_sign r in
        let '(d, s) := digits r in
        match d with [] => None | _ => Some (c :: sg ++ d, s) end
      else Some ([], b)
  | [] => Some ([], b)
  end.

Lemma read_number_stages b : read_number b =
  (let '(sign, b) := num_sign b in
   p ← num_int b; q ← num_frac p.2; e ← num_exp q.2; Some (sign ++ p.1 ++ q.1 ++ e.1, e.2)).
Proof.
  unfold read_number. change (match b with c :: r => if byte_val c =? 45 then ([c], r) else ([], b) | [] => ([], b) end) with (num_sign b).
  destruct (num_sign b) as [s b1]. fold (num_int b1). destruct (num_int b1) as [[i b2]|]; [|done]. cbn [mbind option_bind fst snd].
  fold (num_frac b2). destruct (num_frac b2) as [[f b3]|]; [|done]. cbn [mbind option_bind fst snd].
  unfold num_exp, exp_sign. destruct b3 as [|c r]; [done|]. destruct (_ || _); [|done].
  destruct r as [|e r]; [done|]. destruct ((byte_val e =? 43) || (byte_val e =? 45)); destruct (digits _) as [[|] ?]; done.
Qed.

Definition no_digit (r : bytes) : Prop := match r with c :: _ => is_digit c = false | [] => True end.

Lemma digits_local b d s : digits b = (d, s) → b = d ++ s ∧ ∀ r', no_digit r' → digits (d ++ r') = (d, r').
Proof.
  revert d s. induction b as [|c b IH]; intros d s; cbn [digits].
  - intros [= <- <-]. split; [done|]. intros [|c r'] H; cbn; [done|]. cbn in H. by rewrite H.
  - destruct (is_digit c) eqn:E.
    + destruct (digits b) as [d' s'] eqn:Ed. intros [= <- <-]. destruct (IH d' s' eq_refl) as [-> Hd]. split; [done|].
      intros r' H. cbn [app digits]. by rewrite E, Hd.
    + intros [= <- <-]. split; [done|]. intros [|c' r'] H; cbn; [done|]. cbn in H. by rewrite H.
Qed.

Lemma num_exp_local b x r : num_exp b = Some (x, r) → b = x ++ r ∧ (x = [] ∨ ∃ c y, x = c :: y ∧ (byte_val c = 101 ∨ byte_val c = 69)) ∧
  ∀ r', ends r' → num_exp (x ++ r') = Some (x, r').
Proof.
  assert (Hnil : ∀ r', ends r' → num_exp r' = Some ([], r')).
  { intros [|c r'] H; [done|]. cbn in H |- *. by rewrite bool_false_if by lia. }
  destruct b as [|c b]; cbn [num_exp]; [intros [= <- <-]; auto|]. destruct (_ || _) eqn:E; [|intros [= <- <-]; auto].
  destruct (exp_sign b) as [sg b1] eqn:Es. destruct (digits b1) as [d s] eqn:Ed. destruct (digits_local _ _ _ Ed) as [-> Hd].
  destruct d as [|d1 d]; [done|]. intros [= <- <-].
  assert (b = sg ++ (d1 :: d) ++ s ∧ ∀ r', exp_sign (sg ++ (d1 :: d) ++ r') = (sg, (d1 :: d) ++ r')) as [-> Hs].
  { destruct b as [|e b]; [done|]. cbn [exp_sign] in Es. destruct (_ || _) eqn:Ee in Es.
    - injection Es as <- ->. split; [done|]. intros r'. cbn [app exp_sign]. by rewrite Ee.
    - injection Es as <- -> ->. split; [done|]. intros r'. cbn [app exp_sign]. by rewrite Ee. }
  split; [cbn [app]; by rewrite <- app_assoc|]. split; [right; eexists c, _; split; [done|lia]|].
  intros r' Hr. cbn [app num_exp]. rewrite E, <- app_assoc, Hs, Hd by (destruct r'; cbn in *; [done|tauto]). done.
Qed.

Definition no_point (r : bytes) : Prop := match r with c :: _ => is_digit c = false ∧ byte_val c ≠ 46 | [] => True end.

Lemma num_frac_local b x r : num_frac b = Some (x, r) → b = x ++ r ∧ (x = [] ∨ ∃ c y, x = c :: y ∧ byte_val c = 46) ∧
  ∀ r', no_point r' → num_frac (x ++ r') = Some (x, r').
Proof.
  assert (Hnil : ∀ r', no_point r' → num_frac r' = Some ([], r')).
  { intros [|c r'] H; [done|]. cbn in H |- *. by rewrite bool_false_if by lia. }
  destruct b as [|c b]; cbn [num_frac]; [intros [= <- <-]; auto|]. destruct (_ =? _) eqn:E; [|intros [= <- <-]; auto].
  destruct (digits b) as [d s] eqn:Ed. destruct (digits_local _ _ _ Ed) as [-> Hd]. destruct d as [|d1 d]; [done|]. intros [= <- <-].
  split; [done|]. split; [right; eexists c, _; split; [done|lia]|].
  intros r' Hr. change ((c :: d1 :: d) ++ r') with (c :: ((d1 :: d) ++ r')). cbn [num_frac].
  rewrite E, Hd by (destruct r'; cbn in *; [done|tauto]). done.
Qed.

Lemma num_int_local b x r : num_int b = Some (x, r) → b = x ++ r ∧ x ≠ [] ∧ ∀ r', no_digit r' → num_int (x ++ r') = Some (x, r').
Proof.
  destruct b as [|c b]; [done|]. cbn [num_int]. destruct (_ =? 48) eqn:E.
  { intros [= <- <-]. split_and!; [done..|]. intros r' _. cbn. by rewrite E. }
  destruct (is_digit c) eqn:Ec; [|done]. intros H. assert (Hd : digits (c :: b) = (x, r)) by congruence.
  destruct (digits_local _ _ _ Hd) as [Hb Hx]. clear H.
  destruct x as [|c' x].
  { cbn [digits] in Hd. rewrite Ec in Hd. by destruct (digits b). }
  cbn in Hb. injection Hb as <- Hb. split_and!; [by cbn; f_equal|done|]. intros r' Hr. specialize (Hx r' Hr). cbn [app] in *.
  unfold num_int. by rewrite E, Ec, Hx.
Qed.

Lemma read_number_local b v r : read_number b = Some (v, r) → b = v ++ r ∧ v ≠ [] ∧ ∀ r', ends r' → read_number (v ++ r') = Some (v, r').
Proof.
  rewrite read_number_stages. destruct (num_sign b) as [s b1] eqn:Es.
  destruct (num_int b1) as [[i b2]|] eqn:Ei; [|done]. cbn [mbind option_bind fst snd].
  destruct (num_frac b2) as [[f b3]|] eqn:Ef; [|done]. cbn [mbind option_bind fst snd].
  destruct (num_exp b3) as [[e b4]|] eqn:Ee; [|done]. intros [= <- <-].
  apply num_int_local in Ei as (-> & Hi0 & Hi). apply num_frac_local in Ef as (-> & Hf0 & Hf). apply num_exp_local in Ee as (-> & He0 & He).
  assert (b = s ++ i ++ f ++ e ++ b4 ∧ ∀ r', num_sign (s ++ i ++ r') = (s, i ++ r')) as [-> Hs].
  { destruct i as [|c i]; [done|]. destruct b as [|d b]; [done|]. cbn [num_sign] in Es. destruct (_ =? 45) eqn:E.
    - injection Es as <- ->. split; [done|]. intros r'. cbn. by rewrite E.
    - injection Es as <- -> ->. split; [done|]. intros r'. cbn. by rewrite E. }
  split; [by rewrite !app_assoc|]. split; [by destruct s, i|]. intros r' Hr. rewrite read_number_stages, <- !app_assoc, Hs.
  assert (no_point (e ++ r')) as He1.
  { destruct He0 as [->|(c & y & -> & Hc)]; cbn [app].
    - destruct r' as [|c r']; [done|]. cbn in *. tauto.
    - cbn. unfold is_digit. lia. }
  rewrite Hi; cbn [mbind option_bind fst snd].
  - rewrite Hf by done. cbn [mbind option_bind fst snd]. by rewrite He.
  - destruct Hf0 as [->|(c & y & -> & Hc)]; cbn [app].
    + destruct (e ++ r'); cbn in *; tauto.
    + cbn. unfold is_digit. lia.
Qed.

(** *** Values *)

Lemma after_local w b r : after w b = Some r → b = w ++ r ∧ ∀ r', after w (w ++ r') = Some r'.
Proof.
  revert b. induction w as [|c w IH]; intros b; cbn [after]; [intros [= ->]; done|].
  destruct b as [|d b]; [done|]. destruct (Ascii.eqb c d) eqn:E; [|done]. apply Ascii.eqb_eq in E as <-.
  intros [-> Hw]%IH. split; [done|]. intros r'. cbn [app after]. by rewrite Ascii.eqb_refl.
Qed.

(** [x] is the text of [j], of the elements [l] up to the closing bracket, of the
    members [l] up to the closing brace; fuel for every byte is enough. *)
Definition value_text (x : bytes) (j : json) : Prop :=
  (1 ≤ length x)%nat ∧ ∀ f r', ends r' → (length x ≤ f)%nat → read_value f (x ++ r') = Some (j, r').
Definition elements_text (x : bytes) (l : list json) : Prop :=
  (1 ≤ length x)%nat ∧ ∀ f r', (length x ≤ f)%nat → read_elements f (x ++ r') = Some (l, r').
Definition members_text (x : bytes) (l : list (string * json)) : Prop :=
  (1 ≤ length x)%nat ∧ ∀ f r', (length x ≤ f)%nat → read_members f (x ++ r') = Some (l, r').

(** The reader starts over after white space. *)
Lemma read_value_ws f w b : forallb is_space w = true → read_value f (w ++ b) = read_value f b.
Proof. intros H. destruct f; [done|]. cbn [read_value]. by rewrite skip_ws_app. Qed.

Lemma value_text_ws w x j : forallb is_space w = true → value_text x j → value_text (w ++ x) j.
Proof.
  intros Hw [H1 H2]. split; [rewrite length_app; lia|]. intros f r' Hr Hf. rewrite length_app in Hf.
  rewrite <- app_assoc, read_value_ws by done. apply H2; [done|lia].
Qed.

(** Members do not start with a brace, nor elements with a bracket. *)
Lemma members_head f b p : read_members f b = Some p → ∃ d t, skip_ws b = d :: t ∧ byte_val d ≠ 125.
Proof.
  destruct f; [done|]. cbn [read_members]. destruct (skip_ws b) as [|q r]; [done|]. destruct (byte_val q =? 34) eqn:E; [|done].
  intros _. exists q, r. split; [done|lia].
Qed.
Lemma elements_head f b p : read_elements f b = Some p → ∃ d t, skip_ws b = d :: t ∧ byte_val d ≠ 93.
Proof.
  destruct f; [done|]. cbn [read_elements]. destruct f; [done|]. cbn [read_value]. destruct (skip_ws b) as [|c r]; [done|].
  intros H. exists c, r. split; [done|]. intros Hc. rewrite Hc in H. cbn [Z.eqb Pos.eqb] in H.
  rewrite read_number_stages in H. unfold num_sign, num_int, is_digit in H. rewrite !Hc in H. cbn in H. rewrite Hc in H. discriminate.
Qed.

(** One byte selects the kind of a value. *)
Lemma object_text c x l : byte_val c = 123 → members_text x l → value_text (c :: x) (JObj l).
Proof.
  intros Hc [H1 H2]. split; [cbn [length]; lia|]. intros f r' _ Hf. cbn [length] in Hf. destruct f as [|f]; [lia|].
  specialize (H2 f r' ltac:(lia)). destruct (members_head _ _ _ H2) as (d & t & Ed & Hd).
  cbn [app read_value]. rewrite skip_ws_head by (unfold is_space; lia). rewrite Hc. cbn [Z.eqb Pos.eqb].
  rewrite Ed, bool_false_if by lia. by rewrite H2.
Qed.

Lemma array_text c x l : byte_val c = 91 → elements_text x l → value_text (c :: x) (JArr l).
Proof.
  intros Hc [H1 H2]. split; [cbn [length]; lia|]. intros f r' _ Hf. cbn [length] in Hf. destruct f as [|f]; [lia|].
  specialize (H2 f r' ltac:(lia)). destruct (elements_head _ _ _ H2) as (d & t & Ed & Hd).
  cbn [app read_value]. rewrite skip_ws_head by (unfold is_space; lia). rewrite Hc. cbn [Z.eqb Pos.eqb].
  rewrite Ed, bool_false_if by lia. by rewrite H2.
Qed.

(** A value that needs no fuel of its own. *)
Lemma leaf_text c x j : is_space c = false →
  (∀ f r', ends r' → read_value (S f) (c :: x ++ r') = Some (j, r')) → value_text (c :: x) j.
Proof.
  intros Hc H. split; [cbn [length]; lia|]. intros f r' Hr Hf. cbn [length] in Hf. destruct f as [|f]; [lia|]. by apply H.
Qed.

Lemma read_elements_step f xv j w c t : value_text xv j → (length xv ≤ f)%nat → forallb is_space w = true →
  byte_val c = 44 ∨ byte_val c = 93 →
  read_elements (S f) (xv ++ w ++ c :: t) =
    if byte_val c =? 44 then q ← read_elements f t; Some (j :: q.1, q.2) else Some ([j], t).
Proof.
  intros [_ Hv] Hf Hw Hc. cbn [read_elements]. rewrite Hv; [|apply ends_ws; [done|tauto]|done]. cbn [mbind option_bind fst snd].
  rewrite skip_ws_app, closes_skip by tauto. destruct Hc as [->| ->]; done.
Qed.

Lemma read_members_step f w1 q y k w2 colon xv j w3 c t : byte_val q = 34 → (∀ r', read_string 0 (y ++ quote :: r') = Some (k, r')) →
  byte_val colon = 58 → value_text xv j → (length xv ≤ f)%nat → Forall (λ w, forallb is_space w = true) [w1; w2; w3] →
  byte_val c = 44 ∨ byte_val c = 125 →
  read_members (S f) (w1 ++ q :: y ++ quote :: w2 ++ colon :: xv ++ w3 ++ c :: t) =
    if byte_val c =? 44 then p ← read_members f t; Some ((str_of_list k, j) :: p.1, p.2) else Some ([(str_of_list k, j)], t).
Proof.
  intros Hq Hy Hcol [_ Hv] Hf Hw Hc. rewrite !Forall_cons in Hw. destruct Hw as (Hw1 & Hw2 & Hw3 & _).
  cbn [read_members]. rewrite skip_ws_app, skip_ws_head by (done || (unfold is_space; lia)). rewrite Hq. cbn [Z.eqb Pos.eqb].
  rewrite Hy. cbn [mbind option_bind fst snd]. rewrite skip_ws_app, skip_ws_head by (done || (unfold is_space; lia)). rewrite Hcol. cbn [Z.eqb Pos.eqb].
  rewrite Hv; [|apply ends_ws; [done|tauto]|done]. cbn [mbind option_bind fst snd].
  rewrite skip_ws_app, closes_skip by tauto. destruct Hc as [->| ->]; done.
Qed.

Definition values_local f := ∀ b j r, read_value f b = Some (j, r) → ∃ x, b = x ++ r ∧ value_text x j.
Definition elements_local f := ∀ b l r, read_elements f b = Some (l, r) → ∃ x, b = x ++ r ∧ elements_text x l.
Definition members_local f := ∀ b l r, read_members f b = Some (l, r) → ∃ x, b = x ++ r ∧ members_text x l.

Lemma elements_step f : values_local f → elements_local f → elements_local (S f).
Proof.
  intros IHv IHe b l r H. cbn [read_elements] in H. destruct (read_value f b) as [[j r1]|] eqn:Ev; [|done].
  cbn [mbind option_bind fst snd] in H. destruct (skip_ws r1) as [|c r2] eqn:Es; [done|].
  apply IHv in Ev as (xv & -> & Hv). apply skip_ws_cons in Es as (_ & w & -> & Hw).
  destruct (byte_val c =? 44) eqn:E44.
  - destruct (read_elements f r2) as [[l' r3]|] eqn:Ee; [|done]. injection H as <- <-. apply IHe in Ee as (xe & -> & Hx & He).
    exists (xv ++ w ++ c :: xe). split; [by rewrite <- !app_assoc|]. split; [rewrite !length_app; cbn [length]; lia|].
    intros g r' Hg. rewrite !length_app in Hg. cbn [length] in Hg. destruct g as [|g]; [lia|]. rewrite <- !app_assoc. cbn [app].
    rewrite (read_elements_step g xv j) by (done || lia). rewrite E44, He by lia. done.
  - destruct (byte_val c =? 93) eqn:E93; [|done]. injection H as <- <-.
    exists (xv ++ w ++ [c]). split; [by rewrite <- !app_assoc|]. split; [rewrite !length_app; cbn [length]; lia|].
    intros g r' Hg. rewrite !length_app in Hg. cbn [length] in Hg. destruct g as [|g]; [lia|]. rewrite <- !app_assoc. cbn [app].
    rewrite (read_elements_step g xv j) by (done || lia). by rewrite E44.
Qed.

Lemma members_step f : values_local f → members_local f → members_local (S f).
Proof.
  intros IHv IHm b l r H. cbn [read_members] in H. destruct (skip_ws b) as [|q r0] eqn:E0; [done|].
  apply skip_ws_cons in E0 as (_ & w1 & -> & Hw1). destruct (byte_val q =? 34) eqn:Eq; [|done].
  destruct (read_string 0 r0) as [[k r1]|] eqn:Ek; [|done]. apply read_string_local in Ek as (y & -> & Hy).
  cbn [mbind option_bind fst snd] in H. destruct (skip_ws r1) as [|colon r2] eqn:E1; [done|].
  apply skip_ws_cons in E1 as (_ & w2 & -> & Hw2). destruct (byte_val colon =? 58) eqn:Ec; [|done].
  destruct (read_value f r2) as [[j r3]|] eqn:Ev; [|done]. apply IHv in Ev as (xv & -> & Hv).
  cbn [mbind option_bind fst snd] in H. destruct (skip_ws r3) as [|c r4] eqn:E3; [done|].
  apply skip_ws_cons in E3 as (_ & w3 & -> & Hw3).
  assert (Hws : Forall (λ w, forallb is_space w = true) [w1; w2; w3]) by (by repeat constructor).
  destruct (byte_val c =? 44) eqn:E44.
  - destruct (read_members f r4) as [[l' r5]|] eqn:Em; [|done]. injection H as <- <-. apply IHm in Em as (xm & -> & Hx & Hm).
    exists (w1 ++ q :: y ++ quote :: w2 ++ colon :: xv ++ w3 ++ c :: xm). split; [by repeat (rewrite <- ?app_assoc; cbn [app])|].
    split; [rewrite !length_app; cbn [length]; lia|]. intros g r' Hg. repeat (rewrite ?length_app in Hg; cbn [length] in Hg).
    destruct g as [|g]; [lia|]. repeat (rewrite <- ?app_assoc; cbn [app]).
    rewrite (read_members_step g w1 q y k w2 colon xv j) by (done || lia). rewrite E44, Hm by lia. done.
  - destruct (byte_val c =? 125) eqn:E125; [|done]. injection H as <- <-.
    exists (w1 ++ q :: y ++ quote :: w2 ++ colon :: xv ++ w3 ++ [c]). split; [by repeat (rewrite <- ?app_assoc; cbn [app])|].
    split; [rewrite !length_app; cbn [length]; lia|]. intros g r' Hg. repeat (rewrite ?length_app in Hg; cbn [length] in Hg).
    destruct g as [|g]; [lia|]. repeat (rewrite <- ?app_assoc; cbn [app]).
    rewrite (read_members_step g w1 q y k w2 colon xv j) by (done || lia). by rewrite E44.
Qed.

(** A container whose first byte is [c] and whose closing byte is [close]. *)
Lemma empty_text c w d j : is_space c = false → forallb is_space w = true → is_space d = false →
  (∀ f r', read_value (S f) (c :: w ++ d :: r') = Some (j, r')) → value_text (c :: w ++ [d]) j.
Proof. intros Hc Hw Hd H. apply leaf_text; [done|]. intros f r' _. rewrite <- app_assoc. apply H. Qed.

Lemma values_step f : elements_local f → members_local f → values_local (S f).
Proof.
  intros IHe IHm b j r H. cbn [read_value] in H. destruct (skip_ws b) as [|c r0] eqn:E0; [done|].
  apply skip_ws_cons in E0 as (Hc & w & -> & Hw).
  enough (∃ x, c :: r0 = x ++ r ∧ value_text x j) as (x & Hx & Ht).
  { exists (w ++ x). split; [by rewrite Hx, app_assoc|]. by apply value_text_ws. }
  clear w Hw. destruct (byte_val c =? 123) eqn:E1.
  { destruct (skip_ws r0) as [|d r'] eqn:Ed; [done|]. apply skip_ws_cons in Ed as (Hd & w & -> & Hw).
    destruct (byte_val d =? 125) eqn:E2.
    - injection H as <- <-. exists (c :: w ++ [d]). split; [cbn [app]; by rewrite <- app_assoc|]. apply empty_text; try done.
      intros g r1. cbn [read_value]. rewrite skip_ws_head by done. by rewrite E1, skip_ws_app, skip_ws_head, E2.
    - destruct (read_members f (w ++ d :: r')) as [[l r1]|] eqn:Em; [|done]. injection H as <- <-.
      apply IHm in Em as (x & Hx & Ht). exists (c :: x). split; [by rewrite Hx|]. apply object_text; [lia|done]. }
  destruct (byte_val c =? 91) eqn:E3.
  { destruct (skip_ws r0) as [|d r'] eqn:Ed; [done|]. apply skip_ws_cons in Ed as (Hd & w & -> & Hw).
    destruct (byte_val d =? 93) eqn:E2.
    - injection H as <- <-. exists (c :: w ++ [d]). split; [cbn [app]; by rewrite <- app_assoc|]. apply empty_text; try done.
      intros g r1. cbn [read_value]. rewrite skip_ws_head by done. by rewrite E1, E3, skip_ws_app, skip_ws_head, E2.
    - destruct (read_elements f (w ++ d :: r')) as [[l r1]|] eqn:Em; [|done]. injection H as <- <-.
      apply IHe in Em as (x & Hx & Ht). exists (c :: x). split; [by rewrite Hx|]. apply array_text; [lia|done]. }
  destruct (byte_val c =? 34) eqn:E4.
  { destruct (read_string 0 r0) as [[s r1]|] eqn:Es; [|done]. injection H as <- <-. apply read_string_local in Es as (y & -> & Hy).
    exists (c :: y ++ [quote]). split; [cbn [app]; by rewrite <- app_assoc|]. apply leaf_text; [done|]. intros g r' _.
    rewrite <- app_assoc. cbn [read_value app]. rewrite skip_ws_head by done. by rewrite E1, E3, E4, Hy. }
  destruct (byte_val c =? 116) eqn:E5; [|destruct (byte_val c =? 102) eqn:E6; [|destruct (byte_val c =? 110) eqn:E7]].
  4:{ destruct (read_number (c :: r0)) as [[n r1]|] eqn:En; [|done]. injection H as <- <-.
      apply read_number_local in En as (Hb & Hn & Hr). destruct n as [|c' n]; [done|]. cbn [app] in Hb. injection Hb as <- ->.
      exists (c :: n). split; [done|]. apply leaf_text; [done|]. intros g r' He. specialize (Hr r' He). cbn [app] in Hr.
      cbn [read_value]. rewrite skip_ws_head by done. by rewrite E1, E3, E4, E5, E6, E7, Hr. }
  all: revert H; match goal with |- (after ?w ?b ≫= _) = Some _ → _ =>
    intros H; destruct (after w b) as [r1|] eqn:Ea; [|done]; injection H as <- <-; apply after_local in Ea as [-> Ha];
    exists (c :: w); split; [done|]; apply leaf_text; [done|]; intros g r' _;
    cbn [read_value]; rewrite skip_ws_head by done; rewrite ?E1, ?E3, ?E4, ?E5, ?E6, ?E7, Ha; done end.
Qed.

Lemma texts f : values_local f ∧ elements_local f ∧ members_local f.
Proof.
  induction f as [|f (IHv & IHe & IHm)]; [done|]. auto using values_step, elements_step, members_step.
Qed.

(** ** Cutting and reading *)

Lemma value_text_parse x j : value_text x j → parse x = Some j.
Proof. intros [_ H]. unfold parse. specialize (H (S (length x)) [] I ltac:(lia)). rewrite app_nil_r in H. by rewrite H. Qed.

Lemma read_value_skip f b : read_value f (skip_ws b) = read_value f b.
Proof. destruct f; [done|]. cbn [read_value]. by rewrite skip_ws_idem. Qed.

Lemma raw_value_read f b : match raw_value f b with
  | Some (t, r) => ∃ j, read_value f b = Some (j, r) ∧ parse t = Some j
  | None => read_value f b = None
  end.
Proof.
  unfold raw_value. rewrite read_value_skip. destruct (read_value f b) as [[j r]|] eqn:E; [|done]. cbn [mbind option_bind fst snd].
  exists j. split; [done|]. rewrite <- read_value_skip in E. apply texts in E as (x & -> & Hx).
  rewrite length_app, Nat.add_sub, take_app_length. by apply value_text_parse.
Qed.

(** The texts of the members against the members. *)
Definition reads_as (t : bytes) (j : json) : Prop := parse t = Some j.
Definition member_reads_as (t : string * bytes) (m : string * json) : Prop := t.1 = m.1 ∧ reads_as t.2 m.2.

Lemma raw_elements_read f b : match raw_elements f b with
  | Some (l, r) => ∃ js, read_elements f b = Some (js, r) ∧ Forall2 reads_as l js
  | None => read_elements f b = None
  end.
Proof.
  revert b. induction f as [|f IH]; intros b; [done|]. cbn [raw_elements read_elements].
  pose proof (raw_value_read f b) as H. destruct (raw_value f b) as [[t r]|]; cbn [mbind option_bind fst snd]; [|by rewrite H].
  destruct H as (j & -> & Hj). cbn [mbind option_bind fst snd]. destruct (skip_ws r) as [|c r']; [done|].
  destruct (byte_val c =? 44).
  - specialize (IH r'). destruct (raw_elements f r') as [[l r2]|]; cbn [mbind option_bind fst snd]; [|by rewrite IH].
    destruct IH as (js & -> & Hl). exists (j :: js). by split; [|constructor].
  - destruct (byte_val c =? 93); [|done]. exists [j]. split; [done|]. by repeat constructor.
Qed.

Lemma raw_members_read f b : match raw_members f b with
  | Some (l, r) => ∃ ms, read_members f b = Some (ms, r) ∧ Forall2 member_reads_as l ms
  | None => read_members f b = None
  end.
Proof.
  revert b. induction f as [|f IH]; intros b; [done|]. cbn [raw_members read_members].
  destruct (skip_ws b) as [|q r0]; [done|]. destruct (byte_val q =? 34); [|done].
  destruct (read_string 0 r0) as [[k r1]|]; [|done]. cbn [mbind option_bind fst snd].
  destruct (skip_ws r1) as [|colon r2]; [done|]. destruct (byte_val colon =? 58); [|done].
  pose proof (raw_value_read f r2) as H. destruct (raw_value f r2) as [[t r]|]; cbn [mbind option_bind fst snd]; [|by rewrite H].
  destruct H as (j & -> & Hj). cbn [mbind option_bind fst snd]. destruct (skip_ws r) as [|c r']; [done|].
  destruct (byte_val c =? 44).
  - specialize (IH r'). destruct (raw_members f r') as [[l r3]|]; cbn [mbind option_bind fst snd]; [|by rewrite IH].
    destruct IH as (ms & -> & Hl). eexists. by split; [|constructor].
  - destruct (byte_val c =? 125); [|done]. eexists. split; [done|]. by repeat constructor.
Qed.

(** The first byte of a value tells an object and an array from the rest. *)
Lemma value_kind f b c r p : skip_ws b = c :: r → read_value f b = Some p →
  match p.1 with JObj _ => byte_val c = 123 | JArr _ => byte_val c = 91 | _ => True end.
Proof.
  intros Hb H. destruct f as [|f]; [done|]. cbn [read_value] in H. rewrite Hb in H.
  destruct (byte_val c =? 123) eqn:E1.
  { destruct (skip_ws r) as [|d r']; [done|]. destruct (byte_val d =? 125); [injection H as <-; cbn; lia|].
    destruct (read_members f r) as [q|]; [|done]. injection H as <-. cbn. lia. }
  destruct (byte_val c =? 91) eqn:E2.
  { destruct (skip_ws r) as [|d r']; [done|]. destruct (byte_val d =? 93); [injection H as <-; cbn; lia|].
    destruct (read_elements f r) as [q|]; [|done]. injection H as <-. cbn. lia. }
  destruct (byte_val c =? 34); [by destruct (read_string 0 r); [injection H as <-|]|].
  destruct (byte_val c =? 116); [by destruct (after (txt "rue") r); [injection H as <-|]|].
  destruct (byte_val c =? 102); [by destruct (after (txt "alse") r); [injection H as <-|]|].
  destruct (byte_val c =? 110); [by destruct (after (txt "ull") r); [injection H as <-|]|].
  by destruct (read_number (c :: r)); [injection H as <-|].
Qed.

Lemma parse_kind b c r j : skip_ws b = c :: r → parse b = Some j →
  match j with JObj _ => byte_val c = 123 | JArr _ => byte_val c = 91 | _ => True end.
Proof.
  intros Hb H. unfold parse in H. destruct (read_value (S (length b)) b) as [p|] eqn:E; [|done].
  cbn [mbind option_bind] in H. destruct (skip_ws p.2); [|done]. injection H as <-. by eapply value_kind.
Qed.

(** Cutting an object into the texts of its members and reading each is reading
    the object, and what is not an object is not cut. *)
Lemma raw_object_parse b : match raw_object b with
  | Some l => ∃ ms, parse b = Some (JObj ms) ∧ Forall2 member_reads_as l ms
  | None => ∀ ms, parse b ≠ Some (JObj ms)
  end.
Proof.
  destruct (skip_ws b) as [|c r] eqn:Eb.
  { unfold raw_object, parse. cbn [read_value]. by rewrite Eb. }
  destruct (byte_val c =? 123) eqn:Ec.
  - unfold raw_object, parse. cbn [read_value]. rewrite Eb, Ec. destruct (skip_ws r) as [|d r'] eqn:Er; [done|]. destruct (byte_val d =? 125).
    + cbn [mbind option_bind fst snd]. destruct (skip_ws r'); [|done]. exists []. by split.
    + pose proof (raw_members_read (length b) r) as H. destruct (raw_members (length b) r) as [[l r1]|]; cbn [mbind option_bind fst snd].
      * destruct H as (ms & -> & Hl). cbn [mbind option_bind fst snd]. destruct (skip_ws r1); [|done]. by exists ms.
      * by rewrite H.
  - unfold raw_object. rewrite Eb, Ec. intros ms H. apply (parse_kind _ _ _ _ Eb) in H. cbn in H. lia.
Qed.

Lemma raw_array_parse b : match raw_array b with
  | Some l => ∃ js, parse b = Some (JArr js) ∧ Forall2 reads_as l js
  | None => ∀ js, parse b ≠ Some (JArr js)
  end.
Proof.
  destruct (skip_ws b) as [|c r] eqn:Eb.
  { unfold raw_array, parse. cbn [read_value]. by rewrite Eb. }
  destruct (byte_val c =? 91) eqn:Ec.
  - unfold raw_array, parse. cbn [read_value]. rewrite Eb, Ec, bool_false_if by lia. destruct (skip_ws r) as [|d r'] eqn:Er; [done|]. destruct (byte_val d =? 93).
    + cbn [mbind option_bind fst snd]. destruct (skip_ws r'); [|done]. exists []. by split.
    + pose proof (raw_elements_read (length b) r) as H. destruct (raw_elements (length b) r) as [[l r1]|]; cbn [mbind option_bind fst snd].
      * destruct H as (ms & -> & Hl). cbn [mbind option_bind fst snd]. destruct (skip_ws r1); [|done]. by exists ms.
      * by rewrite H.
  - unfold raw_array. rewrite Eb, Ec. intros js H. apply (parse_kind _ _ _ _ Eb) in H. cbn in H. lia.
Qed.
