(* ===== verification/GoFloat.v ===== *)
(** * Go's [float64], as far as the core uses it

    Binary64 numbers in the Standard Library's executable specification of IEEE
    754 ([SpecFloat]), with the two conversions of [strconv] behind the JSON
    decoder and encoder: [ParseFloat] of a number literal, correctly rounded, and
    the shortest decimal that reads back as the same number. *)

From stdpp Require Import base list strings.
From Stdlib Require Import ZArith Lia Ascii SpecFloat.
From S2P Require Import Prelude GoBytes GoJson.

Local Open Scope Z_scope.
Set Default Goal Selector "!".

Definition float64 : Type := spec_float.
Definition f_mul : float64 → float64 → float64 := SFmul 53 1024.
Definition f_div : float64 → float64 → float64 := SFdiv 53 1024.
(** [float64(z)] *)
Definition f_of_Z (z : Z) : float64 := binary_normalize 53 1024 z 0 false.
Definition f_max (x y : float64) : float64 := if SFltb x y then y else x.

(** ** Reading *)

(** [±digits · 10^exp], rounded to nearest even.  Beyond 10^400 and 10^-400 the
    result is an infinity or a zero whatever the digits. *)
Definition decimal_float (neg : bool) (digits exp : Z) : float64 :=
  match digits with
  | Zpos d =>
      if 400 <? Z.log2 digits / 4 + exp then S754_infinity neg
      else if Z.log2 digits / 3 + 1 + exp <? -400 then S754_zero neg
      else if 0 <=? exp then binary_normalize 53 1024 (if neg then - (digits * 10 ^ exp) else digits * 10 ^ exp) 0 neg
      else f_div (S754_finite neg d 0) (S754_finite false (Z.to_pos (10 ^ (- exp))) 0)
  | _ => S754_zero neg
  end.

(** The sign, the digits and the exponent of a JSON number literal. *)
Definition literal_parts (b : bytes) : bool * Z * Z :=
  let '(neg, b) := match b with "-"%char :: r => (true, r) | _ => (false, b) end in
  let '(int, b) := digits b in
  let '(frac, b) := match b with "."%char :: r => digits r | _ => ([], b) end in
  let exp :=
    match b with
    | _ :: "-"%char :: r => - digits_val (digits r).1
    | _ :: "+"%char :: r => digits_val (digits r).1
    | _ :: r => digits_val (digits r).1
    | [] => 0
    end in
  (neg, digits_val (int ++ frac), exp - blen frac).

(** [strconv.ParseFloat(literal, 64)] of a JSON literal; [None]: out of range. *)
Definition ParseFloat (literal : string) : option float64 :=
  let '(neg, d, e) := literal_parts (list_of_str literal) in
  match decimal_float neg d e with
  | S754_infinity _ | S754_nan => None
  | f => Some f
  end.

(** ** Writing *)

Definition f_eqb (x y : float64) : bool :=
  match x, y with
  | S754_zero a, S754_zero b | S754_infinity a, S754_infinity b => Bool.eqb a b
  | S754_finite a m e, S754_finite b n f => Bool.eqb a b && (Zpos m =? Zpos n) && (e =? f)
  | S754_nan, S754_nan => true
  | _, _ => false
  end.

(** The position of the decimal point of [num/den]: [10^(x-1) <= num/den < 10^x]. *)
Fixpoint point_up (fuel : nat) (num den x : Z) : Z :=
  match fuel with O => x | S fuel => if num <? den * 10 ^ Z.max x 0 then x else point_up fuel num den (x + 1) end.
Fixpoint point_down (fuel : nat) (num den x : Z) : Z :=
  match fuel with O => x | S fuel => if num * 10 ^ Z.max (1 - x) 0 <? den then point_down fuel num den (x - 1) else x end.
Definition decimal_point (num den : Z) : Z := if num <? den then point_down 400 num den 0 else point_up 400 num den 1.

(** The first [k] of at most 17 digits with a decimal that reads back as [f]. *)
Fixpoint shortest (fuel : nat) (k : Z) (f : float64) (num den x : Z) : Z * Z :=
  let s := k - x in
  let a := num * 10 ^ Z.max s 0 in
  let b := den * 10 ^ Z.max (- s) 0 in
  let q := a / b in
  let ok n := f_eqb (decimal_float false n (- s)) f in
  let near_up := b <? 2 * (a mod b) in
  if ok (q + 1) && (near_up || negb (ok q)) then (q + 1, - s)
  else if ok q then (q, - s)
  else match fuel with O => (q, - s) | S fuel => shortest fuel (k + 1) f num den x end.

Fixpoint trim_zeros (fuel : nat) (n e : Z) : Z * Z :=
  match fuel with
  | O => (n, e)
  | S fuel => if (0 <? n) && (n mod 10 =? 0) then trim_zeros fuel (n / 10) (e + 1) else (n, e)
  end.

Definition zeros (n : Z) : bytes := replicate (Z.to_nat n) "0"%char.

(** The text [json.Marshal] gives a number. *)
Definition format_positive (m : positive) (e : Z) : bytes :=
  let '(num, den) := if 0 <=? e then (Zpos m * 2 ^ e, 1) else (Zpos m, 2 ^ (- e)) in
  let '(n, s) := shortest 16 1 (S754_finite false m e) num den (decimal_point num den) in
  let '(n, s) := trim_zeros 20 n s in
  let ds := list_of_str (show_int n) in
  let nd := blen ds in
  let dp := nd + s in
  if SFltb (S754_finite false m e) (decimal_float false 1 (-6)) || negb (SFltb (S754_finite false m e) (decimal_float false 1 21)) then
    let x := dp - 1 in
    take 1 ds ++ (if nd =? 1 then [] else "."%char :: drop 1 ds) ++ "e"%char :: (if x <? 0 then "-"%char else "+"%char) ::
      list_of_str (show_int (Z.abs x))
  else if dp <=? 0 then list_of_str "0." ++ zeros (- dp) ++ ds
  else if nd <=? dp then ds ++ zeros (dp - nd)
  else take (Z.to_nat dp) ds ++ "."%char :: drop (Z.to_nat dp) ds.

Definition FormatFloat (f : float64) : string :=
  str_of_list match f with
  | S754_finite neg m e => (if neg then ["-"%char] else []) ++ format_positive m e
  | S754_zero true => list_of_str "-0"
  | _ => list_of_str "0"
  end.

(** The integer a number is, if it is one. *)
Definition float_int (f : float64) : option Z :=
  match f with
  | S754_zero _ => Some 0
  | S754_finite neg m e =>
      let sign z := if neg then - z else z in
      if 0 <=? e then Some (sign (Zpos m * 2 ^ e))
      else if Zpos m mod 2 ^ (- e) =? 0 then Some (sign (Zpos m / 2 ^ (- e))) else None
  | _ => None
  end.
(** Truncation, as the conversion to an integer type does in its range. *)
Definition float_trunc (f : float64) : Z :=
  match f with
  | S754_finite neg m e =>
      let a := if 0 <=? e then Zpos m * 2 ^ e else Zpos m / 2 ^ (- e) in if neg then - a else a
  | _ => 0
  end.

(** *** Examples *)

Lemma ex_floats :
  (λ s, FormatFloat <$> ParseFloat s) <$>
    ["1500"; "0.1"; "1e21"; "123456789012345678901234567890"; "1E-7"; "-2.50"; "9007199254740993"; "0.000001"; "5e-324"; "1e999";
     "1.7976931348623157e308"; "-0"; "100"; "8.5e3"] =
    [Some "1500"; Some "0.1"; Some "1e+21"; Some "1.2345678901234568e+29"; Some "1e-7"; Some "-2.5"; Some "9007199254740992";
     Some "0.000001"; Some "5e-324"; None; Some "1.7976931348623157e+308"; Some "-0"; Some "100"; Some "8500"].
Proof. vm_compute. reflexivity. Qed.

(** ** Rounding of positive numbers

    What the bounds of [jumpHash] need: a number that is at least an integer is
    rounded to at least that integer, and rounding adds at most one unit in the last
    place. *)

Lemma digits2_log2 p : Zpos (digits2_pos p) = Z.log2 (Zpos p) + 1.
Proof.
  induction p as [p IH|p IH|]; [| |done]; cbn [digits2_pos]; rewrite Pos2Z.inj_succ, IH.
  - change (Zpos p~1) with (2 * Zpos p + 1). rewrite Z.log2_succ_double by lia. lia.
  - change (Zpos p~0) with (2 * Zpos p). rewrite Z.log2_double by lia. lia.
Qed.

Lemma shr_1_m r : 0 ≤ shr_m r → shr_m (shr_1 r) = shr_m r / 2.
Proof.
  destruct r as [m x s]. cbn [shr_m]. intros Hm. unfold shr_1. destruct m as [|[p|p|]|]; [done| | |done|lia]; cbn [shr_m].
  - change (Zpos p~1) with (2 * Zpos p + 1). rewrite Z.mul_comm, Z.div_add_l by lia. rewrite (Z.div_small 1) by lia. lia.
  - change (Zpos p~0) with (2 * Zpos p). rewrite Z.mul_comm, Z.div_mul by lia. done.
Qed.

Lemma iter_pos_nat {A} (f : A → A) p x : iter_pos f p x = Nat.iter (Pos.to_nat p) f x.
Proof.
  assert (∀ a b y, Nat.iter a f (Nat.iter b f y) = Nat.iter (a + b) f y) as H by (intros; by rewrite Nat.iter_add).
  assert (∀ n y, Nat.iter n f (f y) = Nat.iter (S n) f y) as H1 by (intros; by rewrite (Nat.iter_add n 1)|| by rewrite Nat.iter_succ_r).
  revert x. induction p as [p IH|p IH|]; intros x; [| |done]; cbn [iter_pos]; rewrite !IH, H.
  - rewrite H1. f_equal. lia.
  - f_equal. lia.
Qed.

Lemma iter_shr_m p r : 0 ≤ shr_m r → shr_m (iter_pos shr_1 p r) = shr_m r / 2 ^ Zpos p.
Proof.
  intros Hr. rewrite iter_pos_nat, <- (positive_nat_Z p). induction (Pos.to_nat p) as [|n IH]; [by rewrite Z.div_1_r|].
  rewrite Nat2Z.inj_succ, Z.pow_succ_r by lia. rewrite (Z.mul_comm 2), <- Z.div_div by lia. rewrite <- IH. apply shr_1_m.
  rewrite IH. apply Z.div_pos; lia.
Qed.

(** The shift that makes a mantissa fit. *)
Definition excess (m e : Z) : Z := Z.max 0 (Z.max (Zdigits2 m - 53) (-1074 - e)).

Lemma shr_fexp_m m e l : 0 ≤ m → ∃ r s,
  shr_fexp 53 1024 m e l = (Build_shr_record (m / 2 ^ excess m e) r s, e + excess m e).
Proof.
  intros Hm. unfold shr_fexp, shr, fexp, emin, excess. replace (3 - 1024 - 53) with (-1074) by lia.
  destruct (Z.max (Zdigits2 m + e - 53) (-1074) - e) as [|p|p] eqn:E.
  - rewrite Z.max_l by lia. rewrite Z.div_1_r, Z.add_0_r. destruct l as [|[]]; by eexists _, _.
  - replace (Z.max 0 _) with (Zpos p) by lia. pose proof (iter_shr_m p (shr_record_of_loc m l)) as H.
    assert (shr_m (shr_record_of_loc m l) = m) as Em by (by destruct l as [|[]]). rewrite Em in H. specialize (H Hm).
    destruct (iter_pos shr_1 p (shr_record_of_loc m l)) as [m' r s]. cbn in H. subst m'. by eexists _, _.
  - rewrite Z.max_l by lia. rewrite Z.div_1_r, Z.add_0_r. destruct l as [|[]]; by eexists _, _.
Qed.

(** A rounding is a shift, at most one unit more, and a shift. *)
Lemma round_shape m e l : 0 < m → ∃ d m' e',
  0 ≤ d ≤ 1 ∧ let a := m / 2 ^ excess m e + d in let f := e + excess m e in
  m' = a / 2 ^ excess a f ∧ e' = f + excess a f ∧
  binary_round_aux 53 1024 false m e l =
    match m' with Z0 => S754_zero false | Zpos p => if e' <=? 971 then S754_finite false p e' else S754_infinity false | _ => S754_nan end.
Proof.
  intros Hm. destruct (shr_fexp_m m e l) as (r & s & E); [lia|]. unfold binary_round_aux. rewrite E.
  pose proof (Z.div_pos m (2 ^ excess m e)) as Hp.
  assert (0 < 2 ^ excess m e) by (apply Z.pow_pos_nonneg; unfold excess; lia).
  set (l' := loc_of_shr_record _). cbn [shr_m].
  assert (∃ d, 0 ≤ d ≤ 1 ∧ round_nearest_even (m / 2 ^ excess m e) l' = m / 2 ^ excess m e + d) as (d & Hd & ->).
  { unfold round_nearest_even. destruct l' as [|[]]; [exists 0; lia| |exists 0; lia|exists 1; lia].
    destruct (Z.even _); [exists 0; lia|exists 1; lia]. }
  exists d. do 2 eexists. split; [done|]. cbn zeta. split; [reflexivity|]. split; [reflexivity|].
  destruct (shr_fexp_m (m / 2 ^ excess m e + d) (e + excess m e) loc_Exact) as (r' & s' & ->); [lia|]. done.
Qed.

(** The integer part of [m * 2 ^ e]. *)
Definition int_part (m e : Z) : Z := if 0 <=? e then m * 2 ^ e else m / 2 ^ (- e).

Lemma digits2_bounds m : 0 < m → 2 ^ (Zdigits2 m - 1) ≤ m < 2 ^ Zdigits2 m.
Proof.
  intros Hm. destruct m as [|p|p]; [lia| |lia]. cbn [Zdigits2]. rewrite digits2_log2.
  pose proof (Z.log2_spec (Zpos p) ltac:(lia)). replace (Z.log2 (Zpos p) + 1 - 1) with (Z.log2 (Zpos p)) by lia. rewrite Z.add_1_r. lia.
Qed.

Lemma excess_lower m e t : 0 < m → t ≤ 2 ^ 52 → t ≤ int_part m e → t ≤ int_part (m / 2 ^ excess m e) (e + excess m e).
Proof.
  intros Hm Ht Hi. set (x := excess m e). assert (0 ≤ x) as Hx by (unfold x, excess; lia).
  destruct (decide (x = 0)) as [->|Hx0]; [by rewrite Z.div_1_r, Z.add_0_r|]. unfold int_part in *.
  destruct (0 <=? e + x) eqn:E.
  - destruct (decide (e + x = 0)) as [E0|E0].
    + rewrite bool_false_if in Hi by lia. replace (- e) with x in Hi by lia. rewrite E0. lia.
    + assert (Zdigits2 m = x + 53) as Hd by (unfold x, excess in *; lia). pose proof (digits2_bounds m Hm) as Hb. rewrite Hd in Hb.
      assert (2 ^ 52 ≤ m / 2 ^ x). { apply Z.div_le_lower_bound; [lia|]. rewrite <- Z.pow_add_r by lia. replace (x + 52) with (x + 53 - 1) by lia. lia. }
      assert (1 ≤ 2 ^ (e + x)) by (apply Z.lt_pred_le; cbn; apply Z.pow_pos_nonneg; lia). nia.
  - rewrite bool_false_if in Hi by lia. rewrite Z.div_div by lia. rewrite <- Z.pow_add_r by lia. by replace (x + - (e + x)) with (- e) by lia.
Qed.

Lemma excess_upper m e u : 0 < m → -1074 ≤ u → e ≤ u → m ≤ 2 ^ (u - e) →
  e + excess m e ≤ u ∧ m / 2 ^ excess m e ≤ 2 ^ (u - (e + excess m e)) ∧
  (m < 2 ^ (u - e) → m / 2 ^ excess m e < 2 ^ (u - (e + excess m e))).
Proof.
  intros Hm Hu He Hle. set (x := excess m e). assert (0 ≤ x) as Hx by (unfold x, excess; lia).
  assert (e + x ≤ u) as Hex.
  { destruct (decide (x = 0)); [lia|]. destruct (decide (x = -1074 - e)); [lia|].
    assert (Zdigits2 m = x + 53) as Hd by (unfold x, excess in *; lia). pose proof (digits2_bounds m Hm) as Hb. rewrite Hd in Hb.
    assert (x + 52 ≤ u - e); [|lia]. apply (Z.pow_le_mono_r_iff 2); [lia|lia|]. replace (x + 52) with (x + 53 - 1) by lia. lia. }
  assert (2 ^ (u - e) = 2 ^ (u - (e + x)) * 2 ^ x) as Hp by (rewrite <- Z.pow_add_r by lia; f_equal; lia).
  split_and!; [done| |].
  - apply Z.div_le_upper_bound; lia.
  - intros Hlt. apply Z.div_lt_upper_bound; lia.
Qed.

(** Rounding keeps an integer lower bound and an upper bound that is a power of two. *)
Lemma round_bounds m e l t u : 0 < m → 1 ≤ t ≤ 2 ^ 52 → t ≤ int_part m e → -1074 ≤ u ≤ 900 → e ≤ u → m < 2 ^ (u - e) →
  ∃ p e', binary_round_aux 53 1024 false m e l = S754_finite false p e' ∧ t ≤ int_part (Zpos p) e' ∧ e' ≤ u ∧ Zpos p ≤ 2 ^ (u - e').
Proof.
  intros Hm Ht Hi Hu He Hlt. destruct (round_shape m e l Hm) as (d & m' & e' & Hd & Em & Ee & ->). set (x := excess m e) in *.
  destruct (excess_upper m e u) as (He1 & _ & Hs); [lia..|]. specialize (Hs Hlt). fold x in He1, Hs.
  pose proof (excess_lower m e t Hm ltac:(lia) Hi) as Hi1. fold x in Hi1.
  assert (∀ a b f, a ≤ b → int_part a f ≤ int_part b f) as Mono.
  { intros a b f Hab. unfold int_part. destruct (0 <=? f) eqn:Ef; [apply Z.mul_le_mono_nonneg_r; [apply Z.pow_nonneg; lia|done]|].
    apply Z.div_le_mono; [apply Z.pow_pos_nonneg; lia|done]. }
  assert (∀ a f, 1 ≤ int_part a f → 0 < a) as Gpos.
  { intros a f H. destruct (decide (0 < a)); [done|]. pose proof (Mono a 0 f ltac:(lia)) as H0. assert (int_part 0 f = 0); [|lia].
    unfold int_part. by destruct (0 <=? f). }
  assert (0 < m / 2 ^ x) as Hp1 by (eapply Gpos; etransitivity; [apply Ht|eassumption]).
  set (a := m / 2 ^ x + d) in *. assert (0 < a) as Ha by (unfold a; lia).
  pose proof (excess_lower a (e + x) t Ha ltac:(lia)) as Hi2. specialize (Hi2 ltac:(etransitivity; [exact Hi1|apply Mono; unfold a; lia])).
  destruct (excess_upper a (e + x) u) as (He2 & Hs2 & _); [lia|lia|lia|unfold a; lia|].
  rewrite <- Em, <- Ee in *. assert (0 < m') as Hm' by (eapply Gpos; etransitivity; [apply Ht|eassumption]).
  destruct m' as [|p|p]; [lia| |lia]. rewrite bool_true_if by lia. exists p, e'. done.
Qed.

Lemma shr_fexp_fit m e : 0 < m → excess m e = 0 → shr_fexp 53 1024 m e loc_Exact = (Build_shr_record m false false, e).
Proof.
  intros Hm Hx. unfold shr_fexp, shr, fexp, emin. unfold excess in Hx. replace (3 - 1024 - 53) with (-1074) by lia.
  destruct (Z.max _ _ - e) eqn:E; [done|lia|done].
Qed.

Lemma shl_pos p j : Zpos (Pos.iter xO p j) = Zpos p * 2 ^ Zpos j.
Proof.
  revert p. induction j as [|j IH] using Pos.peano_ind; intros p; [cbn; lia|].
  rewrite Pos.iter_succ. change (Zpos (Pos.iter xO p j)~0) with (2 * Zpos (Pos.iter xO p j)). rewrite IH.
  rewrite Pos2Z.inj_succ, Z.pow_succ_r by lia. lia.
Qed.

Lemma digits2_shift m j : 0 < m → 0 ≤ j → Zdigits2 (m * 2 ^ j) = Zdigits2 m + j.
Proof.
  intros Hm Hj. assert (∀ z, 0 < z → Zdigits2 z = Z.log2 z + 1) as D.
  { intros [|p|p] Hp; [lia|apply digits2_log2|lia]. }
  rewrite !D; [|lia|apply Z.mul_pos_pos; lia]. rewrite Z.log2_mul_pow2 by lia. lia.
Qed.

(** Integers below 2^53 are exact. *)
Lemma f_of_Z_exact k : 0 < k < 2 ^ 53 → ∃ p, f_of_Z k = S754_finite false p (Zdigits2 k - 53) ∧ Zpos p = k * 2 ^ (53 - Zdigits2 k).
Proof.
  intros Hk. destruct k as [|q|q]; [lia| |lia]. assert (1 ≤ Zdigits2 (Zpos q) ≤ 53) as Hd.
  { pose proof (digits2_bounds (Zpos q)) as Hb. split; [cbn; lia|]. apply Z.le_ngt. intros Hgt.
    assert (2 ^ 53 ≤ 2 ^ (Zdigits2 (Zpos q) - 1)) by (apply Z.pow_le_mono_r; lia). lia. }
  unfold f_of_Z, binary_normalize, binary_round, shl_align, fexp, emin. change (Zpos (digits2_pos q)) with (Zdigits2 (Zpos q)).
  replace (Z.max (Zdigits2 (Zpos q) + 0 - 53) (3 - 1024 - 53)) with (Zdigits2 (Zpos q) - 53) by lia.
  assert (∃ p, (match Zdigits2 (Zpos q) - 53 - 0 with Zneg d => (Pos.iter xO q d, Zdigits2 (Zpos q) - 53) | _ => (q, 0) end)
    = (p, Zdigits2 (Zpos q) - 53) ∧ Zpos p = Zpos q * 2 ^ (53 - Zdigits2 (Zpos q))) as (p & -> & Hp).
  { destruct (Zdigits2 (Zpos q) - 53 - 0) as [|z|z] eqn:E; [|lia|].
    - exists q. split; [f_equal; lia|]. replace (53 - _) with 0 by lia. lia.
    - exists (Pos.iter xO q z). split; [done|]. rewrite shl_pos. do 2 f_equal. lia. }
  exists p. split; [|done]. assert (excess (Zpos p) (Zdigits2 (Zpos q) - 53) = 0) as Hx.
  { unfold excess. rewrite Hp, digits2_shift by lia. lia. }
  unfold binary_round_aux. rewrite shr_fexp_fit by (done || lia). cbn [shr_m loc_of_shr_record round_nearest_even].
  rewrite shr_fexp_fit by (done || lia). cbn [shr_m]. by rewrite bool_true_if by lia.
Qed.

Lemma int_part_upper m e u : 0 ≤ u → e ≤ u → m ≤ 2 ^ (u - e) → int_part m e ≤ 2 ^ u.
Proof.
  intros Hu He Hm. unfold int_part. destruct (0 <=? e) eqn:E.
  - replace u with (u - e + e) at 1 by lia. rewrite Z.pow_add_r by lia. apply Z.mul_le_mono_nonneg_r; [apply Z.pow_nonneg; lia|done].
  - apply Z.div_le_upper_bound; [apply Z.pow_pos_nonneg; lia|]. rewrite <- Z.pow_add_r by lia. by replace (- e + u) with (u - e) by lia.
Qed.

(** A quotient of 2^31 by at most 2^31 is at least one and at most 2^31. *)
Lemma f_div_bounds k : 1 ≤ k ≤ 2 ^ 31 → ∃ p e, f_div (f_of_Z (2 ^ 31)) (f_of_Z k) = S754_finite false p e ∧
  1 ≤ int_part (Zpos p) e ∧ e ≤ 31 ∧ Zpos p ≤ 2 ^ (31 - e).
Proof.
  intros Hk. destruct (decide (k = 1)) as [->|Hk1].
  { exists 4503599627370496%positive, (-21). by vm_compute. }
  destruct (f_of_Z_exact k) as (m & -> & Hm); [lia|]. set (d := Zdigits2 k) in *.
  assert (2 ≤ d ≤ 32) as Hd.
  { pose proof (digits2_bounds k ltac:(lia)) as Hb. fold d in Hb. split; apply Z.le_ngt; intros Hlt.
    - assert (2 ^ d ≤ 2 ^ 1) by (apply Z.pow_le_mono_r; lia). lia.
    - assert (2 ^ 32 ≤ 2 ^ (d - 1)) by (apply Z.pow_le_mono_r; lia). lia. }
  assert (Zdigits2 (Zpos m) = 53) as Hm53 by (rewrite Hm, digits2_shift by lia; unfold d; lia).
  replace (f_of_Z (2 ^ 31)) with (S754_finite false 4503599627370496 (-21)) by (by vm_compute).
  unfold f_div, SFdiv, SFdiv_core_binary. rewrite Hm53. change (Zdigits2 4503599627370496) with 53.
  unfold fexp, emin. replace (Z.min _ _) with (-21 - d) by lia. replace (-21 - (d - 53) - (-21 - d)) with 53 by lia. cbn [xorb].
  change (Z.shiftl 4503599627370496 53) with (2 ^ 105).
  assert ((Z.div_eucl (2 ^ 105) (Zpos m)).1 = 2 ^ 105 / Zpos m) as Hdiv by reflexivity.
  destruct (Z.div_eucl (2 ^ 105) (Zpos m)) as [q r]. cbn [fst] in Hdiv. subst q.
  assert (2 ^ (21 + d) ≤ 2 ^ 105 / Zpos m) as Hlo.
  { apply Z.div_le_lower_bound; [lia|]. rewrite Hm. replace (2 ^ 105) with (2 ^ 31 * 2 ^ 74) by lia.
    transitivity (k * (2 ^ (53 - d) * 2 ^ (21 + d))); [lia|]. rewrite <- Z.pow_add_r by lia. replace (53 - d + (21 + d)) with 74 by lia.
    apply Z.mul_le_mono_nonneg_r; lia. }
  assert (2 ^ 105 / Zpos m < 2 ^ (52 + d)) as Hhi.
  { apply Z.div_lt_upper_bound; [lia|]. rewrite Hm. transitivity (2 * (2 ^ (53 - d) * 2 ^ (52 + d)) - 1).
    - rewrite <- Z.pow_add_r by lia. replace (53 - d + (52 + d)) with 105 by lia. lia.
    - assert (0 < 2 ^ (53 - d)) by (apply Z.pow_pos_nonneg; lia). assert (0 < 2 ^ (52 + d)) by (apply Z.pow_pos_nonneg; lia). nia. }
  destruct (round_bounds (2 ^ 105 / Zpos m) (-21 - d) (new_location (Zpos m) r) 1 31) as (p & e & H1 & H2 & H3 & H4); [| | | | | |by eauto 10].
  - assert (0 < 2 ^ (21 + d)) by (apply Z.pow_pos_nonneg; lia). lia.
  - lia.
  - unfold int_part. rewrite bool_false_if by lia. apply Z.div_le_lower_bound; [apply Z.pow_pos_nonneg; lia|].
    replace (- (-21 - d)) with (21 + d) by lia. lia.
  - lia.
  - lia.
  - by replace (31 - (-21 - d)) with (52 + d) by lia.
Qed.

(** The step of [jumpHash]: from [b] to a larger number, within [int64]. *)
Lemma f_jump_bounds b k : 0 ≤ b < 2 ^ 31 - 1 → 1 ≤ k ≤ 2 ^ 31 →
  b < float_trunc (f_mul (f_of_Z (b + 1)) (f_div (f_of_Z (2 ^ 31)) (f_of_Z k))) ≤ 2 ^ 62.
Proof.
  intros Hb Hk. destruct (f_div_bounds k Hk) as (p & e & -> & Hlo & He & Hhi).
  destruct (f_of_Z_exact (b + 1)) as (m & -> & Hm); [lia|]. set (d := Zdigits2 (b + 1)) in *.
  assert (1 ≤ d ≤ 31) as Hd.
  { pose proof (digits2_bounds (b + 1) ltac:(lia)) as Hbb. fold d in Hbb. split; apply Z.le_ngt; intros Hlt.
    - assert (2 ^ d ≤ 2 ^ 0) by (destruct (decide (d < 0)); [rewrite Z.pow_neg_r by lia; lia|apply Z.pow_le_mono_r; lia]). lia.
    - assert (2 ^ 31 ≤ 2 ^ (d - 1)) by (apply Z.pow_le_mono_r; lia). lia. }
  assert (0 < 2 ^ (53 - d)) as Hpd by (apply Z.pow_pos_nonneg; lia).
  unfold f_mul, SFmul. cbn [xorb].
  destruct (round_bounds (Zpos (m * p)) (d - 53 + e) loc_Exact (b + 1) 62) as (p' & e' & -> & H2 & H3 & H4); [lia|lia| |lia|lia| |].
  - rewrite Pos2Z.inj_mul, Hm. unfold int_part in *. destruct (0 <=? e) eqn:E.
    + destruct (0 <=? d - 53 + e) eqn:E'.
      * assert (0 < 2 ^ (d - 53 + e)) by (apply Z.pow_pos_nonneg; lia). nia.
      * apply Z.div_le_lower_bound; [apply Z.pow_pos_nonneg; lia|]. assert (2 ^ (- (d - 53 + e)) ≤ 2 ^ (53 - d)) by (apply Z.pow_le_mono_r; lia). nia.
    + rewrite bool_false_if by lia. apply Z.div_le_lower_bound; [apply Z.pow_pos_nonneg; lia|].
      replace (- (d - 53 + e)) with (53 - d + - e) by lia. rewrite Z.pow_add_r by lia.
      assert (2 ^ (- e) ≤ Zpos p). { destruct (Z.le_gt_cases (2 ^ (- e)) (Zpos p)) as [|Hlt]; [done|]. rewrite Z.div_small in Hlo by lia. lia. }
      nia.
  - rewrite Pos2Z.inj_mul, Hm. replace (62 - (d - 53 + e)) with (31 + (53 - d) + (31 - e)) by lia. rewrite !Z.pow_add_r by lia.
    assert (0 < 2 ^ (31 - e)) by (apply Z.pow_pos_nonneg; lia).
    apply Z.le_lt_trans with ((b + 1) * 2 ^ (53 - d) * 2 ^ (31 - e)); [apply Z.mul_le_mono_nonneg_l; lia|].
    apply Z.mul_lt_mono_pos_r; [done|]. apply Z.mul_lt_mono_pos_r; lia.
  - change (float_trunc (S754_finite false p' e')) with (int_part (Zpos p') e'). split; [lia|]. apply int_part_upper; lia.
Qed.
