(* ===== verification/GoNetip.v ===== *)
(** * Go's [net/netip], as far as the core uses it

    [netip.Addr] and [netip.Prefix] with the predicates the address policies
    test, and [netip.ParseAddr].  An address is a number: 32 bits for IPv4,
    128 bits with a zone for IPv6. *)

From stdpp Require Import base list strings.
From Stdlib Require Import ZArith Lia Ascii.
From S2P Require Import Prelude GoBytes.

Local Open Scope Z_scope.

(** [AInvalid] is the zero [netip.Addr]. *)
Inductive addr :=
| AInvalid
| AV4 (v : Z)
| AV6 (v : Z) (zone : bytes).

#[export] Instance addr_eq_dec : EqDecision addr.
Proof. solve_decision. Defined.

Definition IsValid (a : addr) : bool := match a with AInvalid => false | _ => true end.
Definition Is4 (a : addr) : bool := match a with AV4 _ => true | _ => false end.
Definition Is6 (a : addr) : bool := match a with AV6 _ _ => true | _ => false end.
Definition Is4In6 (a : addr) : bool :=
  match a with AV6 v _ => Z.shiftr v 32 =? 0xffff | _ => false end.
Definition Zone (a : addr) : bytes := match a with AV6 _ z => z | _ => [] end.
Definition Unmap (a : addr) : addr :=
  match a with
  | AV6 v _ => if Z.shiftr v 32 =? 0xffff then AV4 (wrap 32 v) else a
  | _ => a
  end.

(** The first byte and the first 16 bits of an IPv6 address. *)
Definition v6_0 (v : Z) : Z := Z.shiftr v 120.
Definition v6u16_0 (v : Z) : Z := Z.shiftr v 112.
Definition v4_0 (v : Z) : Z := Z.shiftr v 24.

(** The predicates look through an IPv4-mapped address. *)
Definition IsLoopback (a : addr) : bool :=
  match Unmap a with
  | AV4 v => v4_0 v =? 127
  | AV6 v _ => v =? 1
  | AInvalid => false
  end.
Definition IsMulticast (a : addr) : bool :=
  match Unmap a with
  | AV4 v => Z.land (v4_0 v) 0xf0 =? 0xe0
  | AV6 v _ => v6_0 v =? 0xff
  | AInvalid => false
  end.
Definition IsLinkLocalUnicast (a : addr) : bool :=
  match Unmap a with
  | AV4 v => Z.shiftr v 16 =? 169 * 256 + 254
  | AV6 v _ => Z.land (v6u16_0 v) 0xffc0 =? 0xfe80
  | AInvalid => false
  end.
Definition IsPrivate (a : addr) : bool :=
  match Unmap a with
  | AV4 v => (v4_0 v =? 10) || ((v4_0 v =? 172) && (Z.land (Z.shiftr v 16) 0xf0 =? 16)) ||
             (Z.shiftr v 16 =? 192 * 256 + 168)
  | AV6 v _ => Z.land (v6_0 v) 0xfe =? 0xfc
  | AInvalid => false
  end.
Definition IsGlobalUnicast (a : addr) : bool :=
  match Unmap a with
  | AInvalid => false
  | AV4 v => negb (v =? 0) && negb (v =? 0xffffffff) && negb (IsLoopback a) &&
             negb (IsMulticast a) && negb (IsLinkLocalUnicast a)
  | AV6 v z => negb ((v =? 0) && bool_decide (z = [])) && negb (IsLoopback a) &&
               negb (IsMulticast a) && negb (IsLinkLocalUnicast a)
  end.

(** [netip.Prefix]: the address and the number of bits. *)
Definition prefix : Type := addr * Z.

Definition Contains (p : prefix) (a : addr) : bool :=
  match p.1, a with
  | AV4 x, AV4 y => Z.shiftr x (32 - p.2) =? Z.shiftr y (32 - p.2)
  | AV6 x _, AV6 y z => bool_decide (z = []) && (Z.shiftr x (128 - p.2) =? Z.shiftr y (128 - p.2))
  | _, _ => false
  end.

(** ** Parsing *)

Definition dot : ascii := ".".
Definition colon : ascii := ":".

(** [strings.Split(s, sep)] for a one byte separator. *)
Fixpoint split_at (sep : ascii) (b : bytes) : list bytes :=
  match b with
  | [] => [[]]
  | c :: r =>
      if Ascii.eqb c sep then [] :: split_at sep r
      else match split_at sep r with
           | l :: ls => (c :: l) :: ls
           | [] => [[c]]
           end
  end.
Abbreviation split_dot := (split_at dot).

Definition digit_of (c : ascii) : option Z :=
  let n := byte_val c in if (48 <=? n) && (n <=? 57) then Some (n - 48) else None.

Fixpoint decimal (acc : Z) (l : bytes) : option Z :=
  match l with
  | [] => Some acc
  | c :: r => d ← digit_of c; decimal (10 * acc + d) r
  end.

(** A field of an IPv4 address: one to three digits, at most 255, without a
    leading zero. *)
Definition ipv4_field (l : bytes) : option Z :=
  match l with
  | [] => None
  | c :: r =>
      if (blen l <=? 3) && (bool_decide (r = []) || negb (byte_val c =? 48)) then
        v ← decimal 0 l; if v <=? 255 then Some v else None
      else None
  end.

(** [parseIPv4Fields]. *)
Definition parse_ipv4 (b : bytes) : option Z :=
  match mapM ipv4_field (split_dot b) with
  | Some [p; q; r; s] => Some (((p * 256 + q) * 256 + r) * 256 + s)
  | _ => None
  end.

Definition hex_of (c : ascii) : option Z :=
  let n := byte_val c in
  if (48 <=? n) && (n <=? 57) then Some (n - 48)
  else if (97 <=? n) && (n <=? 102) then Some (n - 87)
  else if (65 <=? n) && (n <=? 70) then Some (n - 55)
  else None.

(** The hexadecimal digits at the front of [b]: value, number of digits, rest. *)
Fixpoint hex_prefix (acc : Z) (off : Z) (b : bytes) : Z * Z * bytes :=
  match b with
  | [] => (acc, off, [])
  | c :: r =>
      match hex_of c with
      | Some d => hex_prefix (acc * 16 + d) (off + 1) r
      | None => (acc, off, b)
      end
  end.

(** The loop of [parseIPv6] over the groups: [ip] holds the 16-bit groups read
    so far, [ell] the position of the ellipsis in groups. *)
Fixpoint ipv6_groups (fuel : nat) (s : bytes) (ip : list Z) (ell : option nat)
    : option (list Z * option nat * bytes) :=
  match fuel with
  | O => Some (ip, ell, s)
  | S fuel =>
      if (8 <=? length ip)%nat then Some (ip, ell, s)
      else
        let '(acc, off, r) := hex_prefix 0 0 s in
        if (off =? 0) || (4 <? off) then None
        else
          match r with
          | [] => Some (ip ++ [acc], ell, [])
          | c :: r' =>
              if Ascii.eqb c dot then
                if (bool_decide (ell = None) && negb (length ip =? 6)%nat) || (6 <? length ip)%nat
                then None
                else v ← parse_ipv4 s; Some (ip ++ [v / 65536; v mod 65536], ell, [])
              else if negb (Ascii.eqb c colon) then None
              else
                match r' with
                | [] => None
                | d :: r'' =>
                    if Ascii.eqb d colon then
                      match ell with
                      | Some _ => None
                      | None =>
                          if bool_decide (r'' = []) then Some (ip ++ [acc], Some (length ip + 1)%nat, [])
                          else ipv6_groups fuel r'' (ip ++ [acc]) (Some (length ip + 1)%nat)
                      end
                    else ipv6_groups fuel r' (ip ++ [acc]) ell
                end
          end
  end.

Fixpoint groups_val (acc : Z) (l : list Z) : Z :=
  match l with [] => acc | g :: l => groups_val (acc * 65536 + g) l end.

Definition ipv6_expand (ip : list Z) (ell : option nat) (rest : bytes) : option Z :=
  match rest with
  | _ :: _ => None
  | [] =>
      if (length ip <? 8)%nat then
        e ← ell; Some (groups_val 0 (take e ip ++ replicate (8 - length ip) 0 ++ drop e ip))
      else match ell with Some _ => None | None => Some (groups_val 0 ip) end
  end.

(** The address before a zone and the zone, when there is one. *)
Fixpoint cut_zone (b : bytes) : bytes * option bytes :=
  match b with
  | [] => ([], None)
  | c :: r => if Ascii.eqb c "%" then ([], Some r) else let '(x, z) := cut_zone r in (c :: x, z)
  end.

Definition parse_ipv6 (b : bytes) : option addr :=
  let '(s, z) := cut_zone b in
  if bool_decide (z = Some []) then None
  else
    let zone := default [] z in
    match s with
    | c :: d :: r =>
        if Ascii.eqb c colon && Ascii.eqb d colon then
          if bool_decide (r = []) then Some (AV6 0 zone)
          else '(ip, ell, rest) ← ipv6_groups 8 r [] (Some 0%nat);
               v ← ipv6_expand ip ell rest; Some (AV6 v zone)
        else '(ip, ell, rest) ← ipv6_groups 8 s [] None; v ← ipv6_expand ip ell rest; Some (AV6 v zone)
    | _ => '(ip, ell, rest) ← ipv6_groups 8 s [] None; v ← ipv6_expand ip ell rest; Some (AV6 v zone)
    end.

(** [netip.ParseAddr]: the first dot, colon or percent sign decides. *)
Fixpoint addr_kind (b : bytes) : option ascii :=
  match b with
  | [] => None
  | c :: r => if Ascii.eqb c dot || Ascii.eqb c colon || Ascii.eqb c "%" then Some c else addr_kind r
  end.

Definition ParseAddr (b : bytes) : option addr :=
  match addr_kind b with
  | Some c =>
      if Ascii.eqb c dot then AV4 <$> parse_ipv4 b
      else if Ascii.eqb c colon then parse_ipv6 b
      else None
  | None => None
  end.

Definition pfx (s : string) (bits : Z) : prefix := (default AInvalid (ParseAddr (list_of_str s)), bits).

Example parse_addr_ex :
  ParseAddr (list_of_str "192.0.2.1") = Some (AV4 0xc0000201) ∧
  ParseAddr (list_of_str "2001:db8::8a2e:370:7334") = Some (AV6 0x20010db80000000000008a2e03707334 []) ∧
  ParseAddr (list_of_str "::ffff:1.2.3.4") = Some (AV6 0xffff01020304 []) ∧
  ParseAddr (list_of_str "fe80::1%eth0") = Some (AV6 0xfe800000000000000000000000000001 (list_of_str "eth0")) ∧
  ParseAddr (list_of_str "::") = Some (AV6 0 []) ∧
  ParseAddr (list_of_str "1::") = Some (AV6 0x10000000000000000000000000000 []) ∧
  ParseAddr (list_of_str "1:2:3:4:5:6:7::") = Some (AV6 0x10002000300040005000600070000 []) ∧
  ParseAddr (list_of_str "1:2:3:4:5:6:7:8::") = None ∧
  ParseAddr (list_of_str "01.2.3.4") = None ∧ ParseAddr (list_of_str "1.2.3") = None ∧
  ParseAddr (list_of_str "1:2") = None ∧ ParseAddr (list_of_str "1::2::3") = None ∧
  ParseAddr (list_of_str "::1%") = None ∧ ParseAddr (list_of_str "12345::") = None.
Proof. vm_compute. repeat split. Qed.
