(* ===== verification/GoAddrText.v ===== *)
(** * The text of addresses

    [netip.Addr.String] and [net.JoinHostPort]. *)

From stdpp Require Import base list strings.
From Stdlib Require Import ZArith Lia Ascii.
From S2P Require Import Prelude GoBytes GoJson GoNetip.

Local Open Scope Z_scope.

Definition v4_string (v : Z) : bytes :=
  let f k := list_of_str (show_int (Z.shiftr v k mod 256)) in
  f 24 ++ dot :: f 16 ++ dot :: f 8 ++ dot :: f 0.
Fixpoint hex_digits (fuel : nat) (n : Z) (acc : bytes) : bytes :=
  match fuel with
  | O => acc
  | S fuel => if n <? 16 then hex_char n :: acc else hex_digits fuel (n / 16) (hex_char (n mod 16) :: acc)
  end.
Definition v6_groups (v : Z) : list Z := (λ k, Z.shiftr v (16 * k) mod 65536) <$> [7; 6; 5; 4; 3; 2; 1; 0].
(** The first longest run of at least two zero groups: start and end. *)
Fixpoint zero_run (l : list Z) : nat := match l with 0 :: l => S (zero_run l) | _ => 0%nat end.
Fixpoint longest_run (i : nat) (best : nat * nat) (l : list Z) : nat * nat :=
  match l with
  | [] => best
  | _ :: r => longest_run (S i) (if (1 <? zero_run l)%nat && (best.2 - best.1 <? zero_run l)%nat then (i, (i + zero_run l)%nat) else best) r
  end.
Definition joined (gs : list Z) : bytes := mjoin ((λ i_g : nat * Z,
  (if (i_g.1 =? 0)%nat then [] else [colon]) ++ hex_digits 4 i_g.2 []) <$> zip (seq 0 (length gs)) gs).
Definition v6_string (v : Z) : bytes :=
  let gs := v6_groups v in
  let '(s, e) := longest_run 0 (0, 0)%nat gs in
  if (e =? 0)%nat then joined gs else joined (take s gs) ++ colon :: colon :: joined (drop e gs).
(** [Addr.String] *)
Definition addr_string (a : addr) : bytes :=
  match a with
  | AV4 v => v4_string v
  | AV6 v z =>
      (if Is4In6 a then list_of_str "::ffff:" ++ v4_string (wrap 32 v) else v6_string v) ++
      (if bool_decide (z = []) then [] else "%"%char :: z)
  | AInvalid => list_of_str "invalid IP"
  end.

(** [net.JoinHostPort] *)
Definition JoinHostPort (host port : bytes) : bytes :=
  if bool_decide (colon ∈ host) then "["%char :: host ++ "]"%char :: colon :: port else host ++ colon :: port.

Example addr_text_ex :
  (λ s, str_of_list ∘ addr_string <$> ParseAddr (list_of_str s)) <$>
    ["192.0.2.1"; "2001:db8::1"; "0:0:0:1::"; "1:0:0:2:0:0:0:3"; "::ffff:1.2.3.4"; "fe80::1%eth0"; "::"; "1:2:3:4:5:6:7:8"; "1:0:2:0:3:0:4:0"] =
    [Some "192.0.2.1"; Some "2001:db8::1"; Some "0:0:0:1::"; Some "1:0:0:2::3"; Some "::ffff:1.2.3.4"; Some "fe80::1%eth0"; Some "::";
     Some "1:2:3:4:5:6:7:8"; Some "1:0:2:0:3:0:4:0"]%string.
Proof. vm_compute. reflexivity. Qed.
