(* ===== verification/GoCrypto.v ===== *)
(** * SHA-256 and HMAC ([crypto/sha256], [crypto/hmac])

    The executable functions of the Go standard library the local protocols
    use (FIPS 180-4 and RFC 2104), with the length of their output. *)

From stdpp Require Import base list strings.
From Stdlib Require Import ZArith Lia Ascii.
From S2P Require Import Prelude GoBytes.

Local Open Scope Z_scope.

Definition rotr (x n : Z) : Z := Z.lor (Z.shiftr x n) (u32 (Z.shiftl x (32 - n))).
Definition add32 (x y : Z) : Z := u32 (x + y).

Definition big_sigma0 (x : Z) : Z := Z.lxor (rotr x 2) (Z.lxor (rotr x 13) (rotr x 22)).
Definition big_sigma1 (x : Z) : Z := Z.lxor (rotr x 6) (Z.lxor (rotr x 11) (rotr x 25)).
Definition small_sigma0 (x : Z) : Z := Z.lxor (rotr x 7) (Z.lxor (rotr x 18) (Z.shiftr x 3)).
Definition small_sigma1 (x : Z) : Z := Z.lxor (rotr x 17) (Z.lxor (rotr x 19) (Z.shiftr x 10)).
Definition ch (x y z : Z) : Z := Z.lxor (Z.land x y) (Z.land (2 ^ 32 - 1 - x) z).
Definition maj (x y z : Z) : Z := Z.lxor (Z.land x y) (Z.lxor (Z.land x z) (Z.land y z)).

(** The constants of FIPS 180-4: the first 32 bits of the fractional parts of
    the roots of the first primes, cube roots for the rounds and square roots
    for the initial value. *)
Definition primes : list Z :=
  let composite n := existsb (λ d, (n mod d =? 0) && (d <? n)) (Z.of_nat <$> seq 2 20) in
  List.filter (λ n, negb (composite n)) (Z.of_nat <$> seq 2 310).

Fixpoint cube_root (bits : nat) (n acc : Z) : Z :=
  match bits with
  | O => acc
  | S k => let r := acc + Z.shiftl 1 (Z.of_nat k) in cube_root k n (if r * r * r <=? n then r else acc)
  end.

Definition cube_const (q : Z) : Z := u32 (cube_root 36 (Z.shiftl q 96) 0).
Definition square_const (q : Z) : Z := u32 (Z.sqrt (Z.shiftl q 64)).

Definition sha_k : list Z := Eval vm_compute in cube_const <$> take 64 primes.

Record sha_state := mkSha { ha : Z; hb : Z; hc : Z; hd : Z; he : Z; hf : Z; hg : Z; hh : Z }.

Definition sha_init : sha_state := Eval vm_compute in
  mkSha (square_const 2) (square_const 3) (square_const 5) (square_const 7)
    (square_const 11) (square_const 13) (square_const 17) (square_const 19).

(** The message schedule, most recent word first. *)
Fixpoint sha_extend (n : nat) (ws : list Z) : list Z :=
  match n with
  | O => ws
  | S k =>
      let w i := nth i ws 0 in
      sha_extend k
        (add32 (add32 (small_sigma1 (w 1%nat)) (w 6%nat))
               (add32 (small_sigma0 (w 14%nat)) (w 15%nat)) :: ws)
  end.

Definition sha_round (s : sha_state) (kw : Z * Z) : sha_state :=
  let t1 := add32 (add32 (hh s) (big_sigma1 (he s)))
                  (add32 (ch (he s) (hf s) (hg s)) (add32 kw.1 kw.2)) in
  let t2 := add32 (big_sigma0 (ha s)) (maj (ha s) (hb s) (hc s)) in
  mkSha (add32 t1 t2) (ha s) (hb s) (hc s) (add32 (hd s) t1) (he s) (hf s) (hg s).

Fixpoint words (n : nat) (b : bytes) : list Z :=
  match n with
  | O => []
  | S k => be_val (take 4 b) :: words k (drop 4 b)
  end.

Definition sha_block (s : sha_state) (block : bytes) : sha_state :=
  let ws := rev (sha_extend 48 (rev (words 16 block))) in
  let r := foldl sha_round s (zip sha_k ws) in
  mkSha (add32 (ha s) (ha r)) (add32 (hb s) (hb r)) (add32 (hc s) (hc r)) (add32 (hd s) (hd r))
        (add32 (he s) (he r)) (add32 (hf s) (hf r)) (add32 (hg s) (hg r)) (add32 (hh s) (hh r)).

Fixpoint sha_blocks (n : nat) (s : sha_state) (b : bytes) : sha_state :=
  match n with
  | O => s
  | S k => sha_blocks k (sha_block s (take 64 b)) (drop 64 b)
  end.

Definition sha_pad (b : bytes) : bytes :=
  b ++ [byte_of 0x80] ++ replicate (Z.to_nat ((55 - blen b) mod 64)) (byte_of 0) ++
  be_put 8 (8 * blen b).

Definition sha256 (b : bytes) : bytes :=
  let p := sha_pad b in
  let s := sha_blocks (Z.to_nat (blen p / 64)) sha_init p in
  be_put 4 (ha s) ++ be_put 4 (hb s) ++ be_put 4 (hc s) ++ be_put 4 (hd s) ++
  be_put 4 (he s) ++ be_put 4 (hf s) ++ be_put 4 (hg s) ++ be_put 4 (hh s).

Definition xor_pad (key : bytes) (p : Z) : bytes :=
  (λ c, byte_of (Z.lxor (byte_val c) p)) <$> key.

Definition hmac_sha256 (key msg : bytes) : bytes :=
  let key := if (64 <? blen key)%Z then sha256 key else key in
  let key := key ++ replicate (64 - length key) (byte_of 0) in
  sha256 (xor_pad key 0x5c ++ sha256 (xor_pad key 0x36 ++ msg)).

Lemma sha256_length b : length (sha256 b) = 32%nat.
Proof. reflexivity. Qed.

Lemma hmac_length k m : blen (hmac_sha256 k m) = 32.
Proof. reflexivity. Qed.

Example sha256_abc :
  be_val (sha256 (list_of_str "abc")) =
  0xba7816bf8f01cfea414140de5dae2223b00361a396177a9cb410ff61f20015ad.
Proof. vm_compute. reflexivity. Qed.

(** RFC 4231, test case 2. *)
Example hmac_rfc4231 :
  be_val (hmac_sha256 (list_of_str "Jefe") (list_of_str "what do ya want for nothing?")) =
  0x5bdcc146bf60754e6a042426089575c75a003f089d2739839dec58b964ec3843.
Proof. vm_compute. reflexivity. Qed.

Global Opaque sha256 hmac_sha256.
