(* ===== verification/GoAes.v ===== *)
(** * AES-256 in counter mode

    What the Telegram detection uses of [crypto/aes] and [crypto/cipher]: the
    block cipher with a 32-byte key and the CTR key stream, on bytes as 8-bit
    values.  The substitution is computed from its definition over GF(2^8). *)

From stdpp Require Import base list.
From Stdlib Require Import ZArith Lia.
From S2P Require Import Prelude GoBytes.

Local Open Scope Z_scope.

Definition xtime (x : Z) : Z := Z.lxor (u8 (Z.shiftl x 1)) (if 128 <=? x then 27 else 0).

Fixpoint gf_mul (n : nat) (a b : Z) : Z :=
  match n with
  | O => 0
  | S n => Z.lxor (if Z.odd b then a else 0) (gf_mul n (xtime a) (Z.shiftr b 1))
  end.
Definition mul (a b : Z) : Z := gf_mul 8 a b.

(** [x] to the power 254, the inverse in the field. *)
Definition gf_inv (x : Z) : Z :=
  let x2 := mul x x in
  let x4 := mul x2 x2 in
  let x8 := mul x4 x4 in
  let x16 := mul x8 x8 in
  let x32 := mul x16 x16 in
  let x64 := mul x32 x32 in
  let x128 := mul x64 x64 in
  mul x2 (mul x4 (mul x8 (mul x16 (mul x32 (mul x64 x128))))).

Definition rotl8 (x n : Z) : Z := Z.lor (u8 (Z.shiftl x n)) (Z.shiftr x (8 - n)).

Definition sub_byte (x : Z) : Z :=
  let i := gf_inv x in
  Z.lxor 99 (Z.lxor i (Z.lxor (rotl8 i 1) (Z.lxor (rotl8 i 2) (Z.lxor (rotl8 i 3) (rotl8 i 4))))).

Definition sbox_table : list Z := Eval vm_compute in sub_byte ∘ Z.of_nat <$> seq 0 256.
Definition sbox (x : Z) : Z := default 0 (sbox_table !! Z.to_nat x).

Definition xor_list (a b : list Z) : list Z := zip_with Z.lxor a b.

(** ** The key schedule: sixty words of four bytes *)

Definition rot_word (w : list Z) : list Z := drop 1 w ++ take 1 w.

(** [back] holds the eight last words, the latest first. *)
Fixpoint expand (n : nat) (i : Z) (rcon : Z) (back : list (list Z)) : list (list Z) :=
  match n with
  | O => []
  | S n =>
      let temp := default [] (head back) in
      let temp :=
        if i mod 8 =? 0 then xor_list (sbox <$> rot_word temp) [rcon; 0; 0; 0]
        else if i mod 8 =? 4 then sbox <$> temp else temp in
      let w := xor_list (default [] (back !! 7%nat)) temp in
      w :: expand n (i + 1) (if i mod 8 =? 0 then xtime rcon else rcon) (take 8 (w :: back))
  end.

Fixpoint chunks (k n : nat) (l : list Z) : list (list Z) :=
  match n with
  | O => []
  | S n => take k l :: chunks k n (drop k l)
  end.

Definition round_keys (key : list Z) : list (list Z) :=
  let w := chunks 4 8 key in
  chunks 16 15 (mjoin (w ++ expand 52 8 1 (reverse w))).

(** ** The rounds, on sixteen bytes in column order *)

Definition shift_rows (s : list Z) : list Z :=
  (λ i : nat, default 0 (s !! ((i + 4 * (i mod 4)) mod 16)%nat)) <$> seq 0 16.

Definition mix_column (c : list Z) : list Z :=
  match c with
  | [a; b; c; d] =>
      [Z.lxor (mul 2 a) (Z.lxor (mul 3 b) (Z.lxor c d)); Z.lxor a (Z.lxor (mul 2 b) (Z.lxor (mul 3 c) d));
       Z.lxor a (Z.lxor b (Z.lxor (mul 2 c) (mul 3 d))); Z.lxor (mul 3 a) (Z.lxor b (Z.lxor c (mul 2 d)))]
  | _ => c
  end.
Definition mix_columns (s : list Z) : list Z := mjoin (mix_column <$> chunks 4 4 s).

Fixpoint aes_rounds (keys : list (list Z)) (s : list Z) : list Z :=
  match keys with
  | [] => s
  | [k] => xor_list (shift_rows (sbox <$> s)) k
  | k :: keys => aes_rounds keys (xor_list (mix_columns (shift_rows (sbox <$> s))) k)
  end.

Definition aes256_block (key block : list Z) : list Z :=
  match round_keys key with
  | k :: keys => aes_rounds keys (xor_list block k)
  | [] => []
  end.

(** ** Counter mode *)

Definition bytes_z (b : bytes) : list Z := byte_val <$> b.
Definition z_bytes (l : list Z) : bytes := byte_of <$> l.

(** The [n] key stream blocks from the counter block [iv]. *)
Fixpoint ctr_stream (n : nat) (key : list Z) (iv : Z) : list Z :=
  match n with
  | O => []
  | S n => aes256_block key (bytes_z (be_put 16 iv)) ++ ctr_stream n key (wrap 128 (iv + 1))
  end.

(** [XORKeyStream] of a fresh CTR stream over [data]. *)
Definition ctr_xor (key iv data : bytes) : bytes :=
  z_bytes (xor_list (bytes_z data)
    (ctr_stream (S (length data / 16)) (bytes_z key) (be_val iv))).

Lemma xor_list_length a b : length (xor_list a b) = min (length a) (length b).
Proof. apply length_zip_with. Qed.

(** Applying the stream twice gives the data back. *)
Lemma xor_list_twice a b :
  Forall (λ x, 0 ≤ x < 256) a → (length a ≤ length b)%nat → xor_list (xor_list a b) b = a.
Proof.
  intros Ha. revert b. induction Ha as [|x a Hx Ha IH]; intros [|y b] Hl; simpl in *; try done; [lia|].
  f_equal; [|apply IH; lia]. rewrite Z.lxor_assoc, Z.lxor_nilpotent, Z.lxor_0_r. done.
Qed.

(** The published vector: key 00..1f, block 00 11 .. ff. *)
Example aes256_vector :
  aes256_block (Z.of_nat <$> seq 0 32) ((λ i, 17 * Z.of_nat i) <$> seq 0 16) =
  Z.of_nat <$> [142; 162; 183; 202; 81; 103; 69; 191; 234; 252; 73; 144; 75; 73; 96; 137]%nat.
Proof. vm_compute. reflexivity. Qed.
