(* ===== verification/GraphWalk.v ===== *)
(** * Walks over a graph of outbounds

    Several checks of the engine accept an outbound when it is itself acceptable
    and all the outbounds it depends on are, following dependencies with the set
    of tags on the current path.  This file shows once that such a walk ends
    within as many steps as there are outbounds, refuses cycles and otherwise
    decides exactly the outbounds whose paths all end. *)

From stdpp Require Import base list strings gmap.
From Stdlib Require Import Lia.
From S2P Require Import Prelude.

Set Default Goal Selector "!".

Section Walk.
(** [node t]: whether the outbound [t] is acceptable, and what it depends on. *)
Context (node : string → option (bool * list string)) (nodes : gset string).

Fixpoint walk (fuel : nat) (seen : gset string) (t : string) : bool :=
  match fuel with
  | O => false
  | S fuel =>
      match node t with
      | None => false
      | Some (ok, deps) => negb (bool_decide (t ∈ seen)) && ok && forallb (walk fuel ({[t]} ∪ seen)) deps
      end
  end.

(** All paths from [t] end, after finitely many hops, in acceptable outbounds. *)
Inductive Grounded : string → Prop :=
| grounded t deps : node t = Some (true, deps) → (∀ d, d ∈ deps → Grounded d) → Grounded t.

(** The recursion without the path, [h] deep. *)
Fixpoint grounded_in (h : nat) (t : string) : bool :=
  match h with
  | O => false
  | S h => match node t with Some (ok, deps) => ok && forallb (grounded_in h) deps | None => false end
  end.

Lemma grounded_in_mono h h' t : (h ≤ h')%nat → grounded_in h t = true → grounded_in h' t = true.
Proof.
  revert h' t. induction h as [|h IH]; intros [|h'] t Hh; simpl; try done; [lia|].
  destruct (node t) as [[ok deps]|]; [|done]. rewrite !andb_true_iff, !forallb_forall.
  intros [Hok Hd]. split; [done|]. intros d Hin. apply IH; [lia|auto].
Qed.

Lemma grounded_in_sound h t : grounded_in h t = true → Grounded t.
Proof.
  revert t. induction h as [|h IH]; intros t; simpl; [done|]. destruct (node t) as [[ok deps]|] eqn:E; [|done].
  rewrite andb_true_iff, forallb_forall. intros [-> H]. eapply grounded; [exact E|]. intros d Hd%list_elem_of_In. auto.
Qed.

Lemma grounded_in_complete t : Grounded t → ∃ h, grounded_in h t = true.
Proof.
  induction 1 as [t deps E _ IH].
  assert (∃ h, ∀ d, d ∈ deps → grounded_in h d = true) as [h Hh].
  { clear E. induction deps as [|d l IHl]; [exists 0%nat; intros d Hd; by apply not_elem_of_nil in Hd|].
    destruct IHl as [h Hh]; [intros; apply IH; by right|]. destruct (IH d) as [hd Hd]; [by left|].
    exists (max h hd). intros d' [->|Hd']%elem_of_cons; (eapply grounded_in_mono; [|eauto]); lia. }
  exists (S h). simpl. rewrite E. apply forallb_forall. intros d Hd%list_elem_of_In. by apply Hh.
Qed.

(** The least depth at which an outbound is accepted. *)
Lemma grounded_in_least h t : grounded_in h t = true →
  ∃ k, (k ≤ h)%nat ∧ grounded_in k t = true ∧ ∀ j, (j < k)%nat → grounded_in j t = false.
Proof.
  induction h as [|h IH]; intros H; [done|]. destruct (grounded_in h t) eqn:E.
  - destruct (IH eq_refl) as (k & ? & ? & ?). exists k. split_and!; [lia|done|done].
  - exists (S h). split_and!; [lia|done|]. intros j Hj. destruct (grounded_in j t) eqn:Ej; [|done].
    rewrite (grounded_in_mono j h t) in E; [done|lia|done].
Qed.

Lemma walk_sound fuel t seen : walk fuel seen t = true → grounded_in fuel t = true.
Proof.
  revert t seen. induction fuel as [|fuel IH]; intros t seen; [done|]. simpl. destruct (node t) as [[ok deps]|]; [|done].
  rewrite !andb_true_iff, !forallb_forall. intros [[_ Hok] Hd]. split; [done|]. intros d Hin. by eapply IH, Hd.
Qed.

Context (Hnodes : ∀ t x, node t = Some x → t ∈ nodes).

Lemma walk_complete fuel t seen h :
  grounded_in h t = true → (∀ j, (j < h)%nat → grounded_in j t = false) → (∀ s, s ∈ seen → grounded_in h s = false) →
  seen ⊆ nodes → (size nodes < fuel + size seen)%nat → walk fuel seen t = true.
Proof.
  revert t seen h. induction fuel as [|fuel IH]; intros t seen h Hp Hl Hs Hd Hf.
  { exfalso. apply subseteq_size in Hd. lia. }
  destruct h as [|h]; [done|]. pose proof Hp as Hp'. simpl in Hp |- *. destruct (node t) as [[ok deps]|] eqn:E; [|done].
  assert (Ht : t ∉ seen) by (intros Ht; rewrite Hs in Hp' by done; done).
  rewrite bool_decide_eq_false_2 by done. rewrite !andb_true_iff, !forallb_forall in *. destruct Hp as [Hok Hp].
  split; [done|]. intros d Hin. destruct (grounded_in_least h d (Hp d Hin)) as (k & Hk & Hpk & Hlk).
  apply (IH d _ k); [done|done| | |].
  - intros s [->%elem_of_singleton|Hin']%elem_of_union; [apply Hl; lia|].
    destruct (grounded_in k s) eqn:Ek; [|done]. specialize (Hs s Hin').
    rewrite (grounded_in_mono k (S h) s) in Hs; [done|lia|done].
  - apply union_subseteq. split; [|done]. apply singleton_subseteq_l. by eapply Hnodes.
  - rewrite size_union, size_singleton by set_solver. lia.
Qed.

(** The walk decides exactly the outbounds whose paths all end. *)
Lemma walk_exact t : walk (S (size nodes)) ∅ t = true ↔ Grounded t.
Proof.
  split; [intros H; eapply grounded_in_sound, walk_sound, H|]. intros [h Hh]%grounded_in_complete.
  destruct (grounded_in_least h t Hh) as (k & _ & Hk & Hlk).
  apply (walk_complete _ t ∅ k); [done|done|set_solver|set_solver|]. rewrite size_empty. lia.
Qed.
End Walk.
