(* ===== verification/AtsLease.v ===== *)
(** * The ATS endpoint lease outbound

    Models [engine/sing-box/protocol/pokrov/atslease/outbound.go]: an outbound
    that admits new flows while its lease runs, bounds every flow by the active
    deadline and stays registered as a rejecting target once revoked.

    Every critical section (a body between [mu.Lock] and [mu.Unlock]) is one
    definition on the state; the work a goroutine does after it released the
    lock (closing an endpoint) is recorded in [closing] until the goroutine
    performs it.  [step] interleaves these sections in any order; the handlers
    ([DialContext], [ListenPacket], [Revoke], [Close], the leased [Read] and
    [Write]) are their sequential compositions, with the interference of other
    goroutines during a blocking call as an argument. *)

From stdpp Require Import base list strings gmap relations.
From Stdlib Require Import ZArith Lia Ascii.
From S2P Require Import Prelude GoTime.

Definition Type_ : string := "pokrov-ats-lease".
Definition errLease : string := "ats_endpoint_lease_unavailable".

(** ** Data *)

Record options := mkOptions {
  UpstreamTag : string;
  LeaseID : string;
  IssuedAt : string;
  NewFlowsUntil : string;
  ActiveFlowsUntil : string
}.

Record Outbound := mkOutbound {
  tag : string;
  upstreamTag : string;
  leaseID : string;
  upstream : option string;
  issued : time;
  newUntil : time;
  activeUntil : time;
  newDeadline : time;
  activeDeadline : time;
  closed : bool;
  revoked : bool;
  terminateActive : bool;
  flows : gset nat
}.

#[export] Instance eta_Outbound : Eta Outbound := λ h,
  mkOutbound (tag h) (upstreamTag h) (leaseID h) (upstream h) (issued h) (newUntil h)
    (activeUntil h) (newDeadline h) (activeDeadline h) (closed h) (revoked h)
    (terminateActive h) (flows h).

(** [cancelled] is the state of the dial context of the flow; [connection] and
    [packet] name the upstream endpoint once the dial is finished. *)
Record leaseFlow := mkFlow {
  cancelled : bool;
  connection : option nat;
  packet : option nat;
  timer : option Z;
  fclosed : bool
}.

#[export] Instance eta_leaseFlow : Eta leaseFlow := λ f,
  mkFlow (cancelled f) (connection f) (packet f) (timer f) (fclosed f).

(** The outbound with the flow objects the program refers to, the endpoints a
    goroutine is about to close and the endpoints that are closed. *)
Record world := mkWorld {
  ob : Outbound;
  heap : gmap nat leaseFlow;
  next : nat;
  closing : gset nat;
  shut : gset nat
}.

#[export] Instance eta_world : Eta world := λ w,
  mkWorld (ob w) (heap w) (next w) (closing w) (shut w).

(** ** Construction *)

Definition parseTime (value : string) : result string time :=
  match parse_utc value with
  | Some t => Ok t
  | None => Err errLease
  end.

Definition lease_hex (c : ascii) : bool :=
  let n := N_of_ascii c in
  ((97 <=? n)%N && (n <=? 102)%N) || ((48 <=? n)%N && (n <=? 57)%N).

(** [^lease_[a-f0-9]{32}$] *)
Definition leaseIDPattern (s : string) : bool :=
  match list_of_str s with
  | "l" :: "e" :: "a" :: "s" :: "e" :: "_" :: rest =>
      (length rest =? 32)%nat && forallb lease_hex rest
  | _ => false
  end%char.

Definition NewOutbound (now : time) (tg : string) (o : options) (manager : bool)
    : result string Outbound :=
  let? issued := parseTime (IssuedAt o) in
  let? newUntil := parseTime (NewFlowsUntil o) in
  let? activeUntil := parseTime (ActiveFlowsUntil o) in
  if bool_decide (tg = "") || bool_decide (UpstreamTag o = "") ||
     bool_decide (UpstreamTag o = tg) ||
     negb (leaseIDPattern (LeaseID o)) || Before now issued ||
     negb (Before now newUntil) || negb (After newUntil issued) ||
     Before activeUntil newUntil ||
     (10 * Minute <? Sub newUntil issued)%Z || (Hour <? Sub activeUntil issued)%Z
  then Err errLease
  else if negb manager then Err errLease
  else Ok {|
    tag := tg; upstreamTag := UpstreamTag o; leaseID := LeaseID o; upstream := None;
    issued := issued; newUntil := newUntil; activeUntil := activeUntil;
    newDeadline := Add now (Sub newUntil now);
    activeDeadline := Add now (Sub activeUntil now);
    closed := false; revoked := false; terminateActive := false; flows := ∅
  |}.

Definition initial (h : Outbound) : world := mkWorld h ∅ 0 ∅ ∅.

(** ** Operations *)

Definition admits (h : Outbound) (now : time) : bool :=
  negb (closed h) && negb (revoked h) && negb (Before now (issued h)) &&
  Before now (newUntil h) && Before now (newDeadline h).

Definition ConfirmLease (now : time) (lid iss nu au : string) (w : world) : bool :=
  let h := ob w in
  match upstream h with Some _ => true | None => false end &&
  admits h now && Before now (activeDeadline h) &&
  bool_decide (leaseID h = lid) && bool_decide (format_utc (issued h) = iss) &&
  bool_decide (format_utc (newUntil h) = nu) &&
  bool_decide (format_utc (activeUntil h) = au).

(** [manager] is the outbound manager: the type of the outbound with a tag. *)
Definition Start (manager : string → option string) (w : world) : result string unit * world :=
  match manager (upstreamTag (ob w)) with
  | Some ty =>
      if negb (bool_decide (ty = "vless")) then (Err errLease, w)
      else if closed (ob w) then (Err errLease, w)
      else (Ok tt, w <| ob ::= λ h, h <| upstream := Some (upstreamTag h) |> |>)
  | None => (Err errLease, w)
  end.

(** The critical section of [leaseFlow.close]; the endpoint is closed next. *)
Definition close_section (f : nat) (w : world) : option nat * world :=
  match heap w !! f with
  | None => (None, w)
  | Some fl =>
      if fclosed fl then (None, w)
      else
        let e := match connection fl with Some c => Some c | None => packet fl end in
        (e,
         w <| heap := <[f := fl <| fclosed := true |> <| cancelled := true |>]> (heap w) |>
           <| ob ::= λ h, h <| flows := flows h ∖ {[f]} |> |>
           <| closing := closing w ∪ match e with Some c => {[c]} | None => ∅ end |>)
  end.

Definition close_endpoint (e : nat) (w : world) : world :=
  w <| closing := closing w ∖ {[e]} |> <| shut := {[e]} ∪ shut w |>.

(** [leaseFlow.close]. *)
Definition flow_close (f : nat) (w : world) : world :=
  match close_section f w with
  | (Some e, w') => close_endpoint e w'
  | (None, w') => w'
  end.

(** The critical section of [revoke] and the flows it collects. *)
Definition unattached (w : world) (f : nat) : bool :=
  match heap w !! f with
  | Some fl => bool_decide (connection fl = None) && bool_decide (packet fl = None)
  | None => false
  end.

Definition revoke_section (closeOutbound terminate : bool) (w : world) : list nat * world :=
  let h := ob w in
  (if terminate then elements (flows h)
   else List.filter (unattached w) (elements (flows h)),
   w <| ob := h <| closed := closeOutbound || closed h |>
                <| revoked := true |>
                <| terminateActive := terminate || terminateActive h |> |>).

Definition revoke (closeOutbound terminate : bool) (w : world) : world :=
  let '(fs, w') := revoke_section closeOutbound terminate w in
  foldl (λ w f, flow_close f w) w' fs.

Definition Close (w : world) : world := revoke true true w.
Definition Revoke (terminate : bool) (w : world) : world := revoke false terminate w.

Definition RevokeLease (lid : string) (terminate : bool) (w : world) : bool * world :=
  if bool_decide (leaseID (ob w) = lid) then (true, Revoke terminate w) else (false, w).

Definition begin_ (now : time) (w : world) : option nat * world :=
  match upstream (ob w) with
  | Some _ =>
      if admits (ob w) now then
        let f := next w in
        (Some f,
         w <| heap := <[f := mkFlow false None None None false]> (heap w) |>
           <| next := S f |>
           <| ob ::= λ h, h <| flows := {[f]} ∪ flows h |> |>)
      else (None, w)
  | None => (None, w)
  end.

(** The cancellation of a dial: the caller's context, the [newDeadline] timer. *)
Definition cancel (f : nat) (w : world) : world :=
  match heap w !! f with
  | Some fl => w <| heap := <[f := fl <| cancelled := true |>]> (heap w) |>
  | None => w
  end.

Definition endpoints (conn pkt : option nat) : gset nat :=
  match conn with Some c => {[c]} | None => ∅ end ∪
  match pkt with Some p => {[p]} | None => ∅ end.

(** The critical section of [finishDial].  On failure the endpoints are closed
    next, then the flow. *)
Definition finish_section (f : nat) (ctxErr : bool) (conn pkt : option nat) (now : time)
    (w : world) : bool * world :=
  let h := ob w in
  match heap w !! f with
  | None => (false, w)
  | Some fl =>
      if fclosed fl || (ctxErr || cancelled fl) || negb (admits h now) ||
         negb (Before now (activeUntil h)) || negb (Before now (activeDeadline h))
      then (false, w <| closing := closing w ∪ endpoints conn pkt |>)
      else (true,
            w <| heap := <[f := fl <| connection := conn |> <| packet := pkt |>
                                   <| timer := Some (Until (activeDeadline h) now) |>]> (heap w) |>)
  end.

Definition close_opt (e : option nat) (w : world) : world :=
  match e with Some c => close_endpoint c w | None => w end.

Definition finishDial (f : nat) (ctxErr : bool) (conn pkt : option nat) (now : time)
    (w : world) : result string unit * world :=
  match finish_section f ctxErr conn pkt now w with
  | (true, w') => (Ok tt, w')
  | (false, w') => (Err errLease, flow_close f (close_opt pkt (close_opt conn w')))
  end.

(** [env f] is what the other goroutines do while the upstream dials for the
    flow [f]; [res] is the upstream's answer. *)
Definition DialContext (now1 : time) (env : nat → world → world) (res : result string nat)
    (ctxErr : bool) (now2 : time) (w : world) : result string (nat * nat) * world :=
  match begin_ now1 w with
  | (None, w) => (Err errLease, w)
  | (Some f, w) =>
      let w := env f w in
      match res with
      | Err e => (Err e, flow_close f w)
      | Ok conn =>
          match finishDial f ctxErr (Some conn) None now2 w with
          | (Ok _, w) => (Ok (f, conn), w)
          | (Err e, w) => (Err e, w)
          end
      end
  end.

Definition ListenPacket (now1 : time) (env : nat → world → world) (res : result string nat)
    (ctxErr : bool) (now2 : time) (w : world) : result string (nat * nat) * world :=
  match begin_ now1 w with
  | (None, w) => (Err errLease, w)
  | (Some f, w) =>
      let w := env f w in
      match res with
      | Err e => (Err e, flow_close f w)
      | Ok pkt =>
          match finishDial f ctxErr None (Some pkt) now2 w with
          | (Ok _, w) => (Ok (f, pkt), w)
          | (Err e, w) => (Err e, w)
          end
      end
  end.

Definition current (f : nat) (now : time) (w : world) : bool :=
  match heap w !! f with
  | Some fl =>
      negb (fclosed fl) && negb (terminateActive (ob w)) &&
      Before now (activeUntil (ob w)) && Before now (activeDeadline (ob w))
  | None => false
  end.

(** [leasedConn.Read]: [r] is what the underlying read returns, [env] the
    interference while it blocks. *)
Definition Read (f : nat) (now1 : time) (env : world → world) (r : result string Z)
    (now2 : time) (w : world) : result string Z * world :=
  if negb (current f now1 w) then (Err errLease, flow_close f w)
  else
    let w := env w in
    if negb (current f now2 w) then (Err errLease, flow_close f w) else (r, w).

(** [leasedPacket.ReadFrom]: the byte count with the peer's address. *)
Definition ReadFrom (f : nat) (now1 : time) (env : world → world)
    (r : result string (Z * string)) (now2 : time) (w : world)
    : result string (Z * string) * world :=
  if negb (current f now1 w) then (Err errLease, flow_close f w)
  else
    let w := env w in
    if negb (current f now2 w) then (Err errLease, flow_close f w) else (r, w).

(** [leasedConn.Write]. *)
Definition Write (f : nat) (now : time) (r : result string Z) (w : world)
    : result string Z * world :=
  if negb (current f now w) then (Err errLease, flow_close f w) else (r, w).

(** [leasedPacket.WriteTo]: [r] is the answer of the underlying socket for the
    peer it is given. *)
Definition WriteTo (f : nat) (now : time) (peer : string) (r : string → result string Z)
    (w : world) : result string Z * world :=
  if negb (current f now w) then (Err errLease, flow_close f w) else (r peer, w).

(** [leasedConn.CloseWrite]: [closer] is the answer of an underlying
    connection that can half-close. *)
Definition CloseWrite (f : nat) (now : time) (closer : option (result string unit)) (w : world)
    : result string unit * world :=
  if negb (current f now w) then (Err errLease, flow_close f w)
  else match closer with
       | Some r => (r, w)
       | None => (Ok tt, flow_close f w)
       end.

(** [leasedConn.Close] and [leasedPacket.Close]. *)
Definition leased_Close (f : nat) (w : world) : world := flow_close f w.

(** ** Interleavings of the critical sections *)

Inductive step (w : world) : world → Prop :=
| step_start manager : step w (Start manager w).2
| step_begin now : step w (begin_ now w).2
| step_cancel f : step w (cancel f w)
| step_finish f ctxErr e asPacket now :
    unattached w f = true →
    step w (finish_section f ctxErr (if asPacket : bool then None else Some e)
              (if asPacket then Some e else None) now w).2
| step_revoke co term : step w (revoke_section co term w).2
| step_close f : step w (close_section f w).2
| step_shut e : e ∈ closing w → step w (close_endpoint e w).

(** ** Invariant *)

Record Inv (w : world) : Prop := mkInv {
  inv_open : ∀ f, f ∈ flows (ob w) ↔ ∃ fl, heap w !! f = Some fl ∧ fclosed fl = false;
  inv_timer : ∀ f fl, heap w !! f = Some fl → connection fl ≠ None ∨ packet fl ≠ None →
              timer fl ≠ None;
  inv_one : ∀ f fl, heap w !! f = Some fl → connection fl = None ∨ packet fl = None;
  inv_next : ∀ f fl, heap w !! f = Some fl → f < next w;
  inv_revoked : closed (ob w) = true ∨ terminateActive (ob w) = true → revoked (ob w) = true
}.

Definition flow_fresh : leaseFlow := mkFlow false None None None false.

(** What a section may do to the outbound: the windows are constant, the
    closing flags only rise. *)
Definition outbound_le (h h' : Outbound) : Prop :=
  tag h' = tag h ∧ upstreamTag h' = upstreamTag h ∧ leaseID h' = leaseID h ∧
  issued h' = issued h ∧ newUntil h' = newUntil h ∧ activeUntil h' = activeUntil h ∧
  newDeadline h' = newDeadline h ∧ activeDeadline h' = activeDeadline h ∧
  (closed h = true → closed h' = true) ∧ (revoked h = true → revoked h' = true) ∧
  (terminateActive h = true → terminateActive h' = true).

#[export] Instance outbound_le_po : PreOrder outbound_le.
Proof.
  split; [by intros h|]. intros h1 h2 h3. unfold outbound_le. intuition congruence.
Qed.

Ltac le_refl := unfold outbound_le; simpl; tauto.

Lemma close_section_le f w : outbound_le (ob w) (ob (close_section f w).2).
Proof. unfold close_section. repeat case_goal; le_refl. Qed.

Lemma finish_section_le f x c p now w : outbound_le (ob w) (ob (finish_section f x c p now w).2).
Proof. unfold finish_section. repeat case_goal; le_refl. Qed.

Lemma begin_le now w : outbound_le (ob w) (ob (begin_ now w).2).
Proof. unfold begin_. repeat case_goal; le_refl. Qed.

Lemma revoke_section_le co t w : outbound_le (ob w) (ob (revoke_section co t w).2).
Proof. unfold outbound_le. simpl. rewrite !orb_true_iff. tauto. Qed.

Lemma step_le w w' : step w w' → outbound_le (ob w) (ob w').
Proof.
  destruct 1.
  - unfold Start. repeat case_goal; le_refl.
  - apply begin_le.
  - unfold cancel. case_goal; le_refl.
  - apply finish_section_le.
  - apply revoke_section_le.
  - apply close_section_le.
  - le_refl.
Qed.

Lemma steps_le w w' : rtc step w w' → outbound_le (ob w) (ob w').
Proof. induction 1; [reflexivity|]. etrans; [by apply step_le|done]. Qed.

(** *** Preservation *)

Lemma inv_initial h : flows h = ∅ → (closed h = true ∨ terminateActive h = true → revoked h = true) →
  Inv (initial h).
Proof.
  intros Hf Hr. split; simpl; try done.
  intros f. rewrite Hf. split; [set_solver|]. intros (? & ? & _). simplify_map_eq.
Qed.

(** A section that rewrites one flow keeps the invariant when the rewritten
    flow stays open, keeps one endpoint and has a timer once it has an
    endpoint. *)
Lemma inv_update w f fl fl' :
  Inv w → heap w !! f = Some fl → fclosed fl' = fclosed fl →
  (connection fl' ≠ None ∨ packet fl' ≠ None → timer fl' ≠ None) →
  (connection fl' = None ∨ packet fl' = None) →
  Inv (w <| heap := <[f := fl']> (heap w) |>).
Proof.
  intros [H1 H2 H3 H4 H5] Hf Hc Ht Ho. split; simpl; [|intros g gl..|done].
  - intros g. rewrite H1. case_key f g; naive_solver.
  - case_key f g; intros; simplify_eq; eauto.
  - case_key f g; intros; simplify_eq; eauto.
  - case_key f g; intros; simplify_eq; eauto.
Qed.

Lemma inv_close_section f w : Inv w → Inv (close_section f w).2.
Proof.
  intros I. unfold close_section. destruct (heap w !! f) as [fl|] eqn:Hf; [|done].
  destruct (fclosed fl) eqn:Hc; [done|]. destruct I as [H1 H2 H3 H4 H5].
  split; simpl; [|intros g gl; case_key f g; intros; simplify_eq/=; eauto..|done].
  intros g. rewrite elem_of_difference, H1, elem_of_singleton. case_key f g; naive_solver.
Qed.

Lemma inv_begin now w : Inv w → Inv (begin_ now w).2.
Proof.
  intros I. unfold begin_. repeat case_goal; [|done..]. destruct I as [H1 H2 H3 H4 H5].
  assert (Hn : heap w !! next w = None).
  { destruct (heap w !! next w) eqn:E; [|done]. apply H4 in E. lia. }
  split; simpl; [|intros g gl; case_key (next w) g; intros; simplify_eq; simpl in *;
    try tauto; eauto using Nat.lt_lt_succ_r, Nat.lt_succ_diag_r..|done].
  intros g. rewrite elem_of_union, elem_of_singleton, H1. case_key (next w) g; naive_solver.
Qed.

Lemma inv_finish_section f x e (b : bool) now w :
  Inv w → Inv (finish_section f x (if b then None else Some e) (if b then Some e else None) now w).2.
Proof.
  intros I. unfold finish_section. destruct (heap w !! f) as [fl|] eqn:Hf; [|done].
  case_goal; [destruct I; split; simpl; assumption|]. apply inv_update with fl; [done..| |]; simpl; [done|].
  destruct b; auto.
Qed.

Lemma inv_step w w' : Inv w → step w w' → Inv w'.
Proof.
  intros I H. destruct H.
  - unfold Start. repeat case_goal; destruct I; split; simpl; first [assumption|tauto].
  - by apply inv_begin.
  - unfold cancel. destruct (heap w !! f) eqn:E; [|done].
    apply inv_update with l; [done..| |]; simpl; eapply I; eauto.
  - by apply inv_finish_section.
  - destruct I. split; simpl; tauto.
  - by apply inv_close_section.
  - destruct I. split; simpl; assumption.
Qed.

Lemma inv_steps w w' : Inv w → rtc step w w' → Inv w'.
Proof. intros I. induction 1; eauto using inv_step. Qed.

(** ** Construction bounds *)

Definition errors_only_lease (r : result string Outbound) : Prop :=
  match r with Ok _ => True | Err e => e = errLease end.

Lemma parseTime_ok v t : parseTime v = Ok t → parse_utc v = Some t ∧ format_utc t = v ∧ mono t = None.
Proof.
  unfold parseTime. destruct (parse_utc v) eqn:E; [|done]. intros [= <-].
  apply format_parse_utc in E as G. tauto.
Qed.

Lemma NewOutbound_inv now tg o m h :
  NewOutbound now tg o m = Ok h →
  (parse_utc (IssuedAt o) = Some (issued h) ∧ parse_utc (NewFlowsUntil o) = Some (newUntil h) ∧
   parse_utc (ActiveFlowsUntil o) = Some (activeUntil h)) ∧
  (mono (issued h) = None ∧ mono (newUntil h) = None ∧ mono (activeUntil h) = None) ∧
  (tag h = tg ∧ upstreamTag h = UpstreamTag o ∧ leaseID h = LeaseID o ∧ upstream h = None) ∧
  (leaseIDPattern (LeaseID o) = true ∧ tg ≠ "" ∧ UpstreamTag o ≠ "" ∧ UpstreamTag o ≠ tg ∧ m = true) ∧
  (wall (issued h) ≤ wall now < wall (newUntil h) ∧ wall (newUntil h) ≤ wall (activeUntil h) ∧
   wall (newUntil h) - wall (issued h) ≤ 10 * Minute ∧
   wall (activeUntil h) - wall (issued h) ≤ Hour)%Z ∧
  (newDeadline h = Add now (wall (newUntil h) - wall now) ∧
   activeDeadline h = Add now (wall (activeUntil h) - wall now)) ∧
  (closed h = false ∧ revoked h = false ∧ terminateActive h = false ∧ flows h = ∅).
Proof.
  unfold NewOutbound. intros H.
  apply rbind_ok in H as (ti & Hi & H). apply rbind_ok in H as (tn & Hn & H).
  apply rbind_ok in H as (ta & Ha & H).
  apply parseTime_ok in Hi as (Hi & _ & Mi). apply parseTime_ok in Hn as (Hn & _ & Mn).
  apply parseTime_ok in Ha as (Ha & _ & Ma).
  repeat case_hyp H; [done..|]. simplify_eq/=. bsplit. unfold After in *.
  rewrite !before_wall in * by done. rewrite !sub_wall in * by done.
  assert (B : (wall tn - wall ti ≤ 10 * Minute ∧ wall ta - wall ti ≤ Hour)%Z).
  { unfold sat64, int64_min, int64_max, Minute, Hour, Minute, Second, Millisecond in *. lia. }
  unfold Minute, Hour, Minute, Second, Millisecond in *.
  rewrite !sat64_id by (unfold in_int64, int64_min, int64_max; lia).
  repeat split; try done; lia.
Qed.

(** ** Closing a collected list of flows *)

Definition endpoint_of (fl : leaseFlow) (e : nat) : Prop :=
  connection fl = Some e ∨ packet fl = Some e.

Definition close_all (fs : list nat) (w : world) : world :=
  foldl (λ w f, flow_close f w) w fs.

Lemma flow_close_ob f w :
  ob (flow_close f w) = (ob w) <| flows := flows (ob (flow_close f w)) |>.
Proof. unfold flow_close, close_section. destruct w as [[] ? ? ? ?]; simpl. repeat (case_goal; simplify_eq/=); done. Qed.

Lemma flow_close_lookup_ne f g w : f ≠ g → heap (flow_close f w) !! g = heap w !! g.
Proof.
  intros. unfold flow_close, close_section. repeat case_goal; simplify_eq/=; by rewrite ?lookup_insert_ne.
Qed.

Lemma flow_close_closed f g w fl :
  heap w !! g = Some fl → fclosed fl = true → heap (flow_close f w) !! g = Some fl.
Proof.
  intros Hg Hc. destruct (decide (f = g)) as [->|]; [|by rewrite flow_close_lookup_ne].
  unfold flow_close, close_section. by rewrite Hg, Hc.
Qed.

Lemma flow_close_open f w fl :
  heap w !! f = Some fl → fclosed fl = false → (connection fl = None ∨ packet fl = None) →
  heap (flow_close f w) !! f = Some (fl <| fclosed := true |> <| cancelled := true |>) ∧
  (∀ e, endpoint_of fl e → e ∈ shut (flow_close f w)).
Proof.
  intros Hf Hc H1. unfold flow_close, close_section. rewrite Hf, Hc. unfold endpoint_of.
  destruct (connection fl) eqn:E1, (packet fl) eqn:E2; simpl; rewrite lookup_insert_eq;
    (split; [done|]); intros e; set_solver.
Qed.

Lemma flow_close_shut f w : shut w ⊆ shut (flow_close f w).
Proof. unfold flow_close, close_section. repeat case_goal; simplify_eq/=; set_solver. Qed.

Lemma inv_flow_close f w : Inv w → Inv (flow_close f w).
Proof.
  intros I. apply (inv_close_section f) in I. unfold flow_close.
  destruct (close_section f w) as [[e|] w'] eqn:E; simpl in I; [|done].
  destruct I; split; simpl; assumption.
Qed.

Lemma inv_close_all fs w : Inv w → Inv (close_all fs w).
Proof. revert w. induction fs; intros w I; simpl; eauto using inv_flow_close. Qed.

Lemma close_all_ob fs w :
  ob (close_all fs w) = (ob w) <| flows := flows (ob (close_all fs w)) |>.
Proof.
  revert w. induction fs as [|f fs IH]; intros w; simpl; [by destruct w as [[] ? ? ? ?]|].
  rewrite IH. rewrite (flow_close_ob f w). done.
Qed.

Lemma close_all_shut fs w : shut w ⊆ shut (close_all fs w).
Proof.
  revert w. induction fs as [|f fs IH]; intros w; simpl; [done|].
  etrans; [apply (flow_close_shut f)|apply IH].
Qed.

Lemma close_all_closed fs w g fl :
  heap w !! g = Some fl → fclosed fl = true → heap (close_all fs w) !! g = Some fl.
Proof.
  revert w. induction fs as [|f fs IH]; intros w ? ?; simpl; [done|].
  apply IH; [|done]. by apply flow_close_closed.
Qed.

Lemma close_all_not_in fs w g : g ∉ fs → heap (close_all fs w) !! g = heap w !! g.
Proof.
  revert w. induction fs as [|f fs IH]; intros w; simpl; [done|].
  rewrite not_elem_of_cons. intros [? ?]. rewrite IH by done. by rewrite flow_close_lookup_ne.
Qed.

Lemma close_all_in fs w g fl :
  Inv w → heap w !! g = Some fl → fclosed fl = false → g ∈ fs →
  (∃ fl', heap (close_all fs w) !! g = Some fl' ∧ fclosed fl' = true) ∧
  (∀ e, endpoint_of fl e → e ∈ shut (close_all fs w)).
Proof.
  revert w. induction fs as [|f fs IH]; intros w I Hg Hc; simpl; [set_solver|].
  intros Hin. destruct (decide (f = g)) as [->|].
  - destruct (flow_close_open g w fl Hg Hc (inv_one _ I g fl Hg)) as [H1 H2].
    split; [eexists; split; [by apply close_all_closed|done]|].
    intros e He. apply (close_all_shut fs). auto.
  - apply IH; [by apply inv_flow_close|by rewrite flow_close_lookup_ne|done|set_solver].
Qed.

Lemma revoke_close_all co t w :
  revoke co t w = close_all (revoke_section co t w).1 (revoke_section co t w).2.
Proof. done. Qed.

Lemma inv_revoke_section co t w : Inv w → Inv (revoke_section co t w).2.
Proof. intros I. eapply inv_step; [done|constructor]. Qed.

(** ** Endpoint accounting *)

(** A flow of the outbound's table that has the endpoint and a close timer. *)
Definition held (w : world) (e : nat) : Prop :=
  ∃ f fl, f ∈ flows (ob w) ∧ heap w !! f = Some fl ∧ fclosed fl = false ∧
          endpoint_of fl e ∧ timer fl ≠ None.

Definition accounted (w : world) (e : nat) : Prop :=
  held w e ∨ e ∈ closing w ∨ e ∈ shut w.

Lemma close_section_accounted f w e : Inv w → accounted w e → accounted (close_section f w).2 e.
Proof.
  intros I H. unfold close_section. destruct (heap w !! f) as [fl|] eqn:Hf; [|done].
  destruct (fclosed fl) eqn:Hc; [done|]. unfold accounted, held in *. simpl.
  destruct H as [(g & gl & Hin & Hg & Ho & He & Ht)|H]; [|set_solver].
  destruct (decide (f = g)) as [->|]; [|left; exists g, gl; rewrite lookup_insert_ne by done; set_solver].
  right. left. rewrite Hg in Hf. simplify_eq. unfold endpoint_of in He.
  destruct (inv_one _ I _ _ Hg) as [E|E]; rewrite E in *; destruct He as [He|He]; try done;
    rewrite He; set_solver.
Qed.

Lemma finish_section_accounted f x c p now w e :
  Inv w → unattached w f = true → accounted w e → accounted (finish_section f x c p now w).2 e.
Proof.
  unfold unattached, finish_section. intros I Hu H. destruct (heap w !! f) as [fl|] eqn:Hf; [|done].
  bsplit. case_goal; unfold accounted, held in *; simpl; [set_solver|].
  destruct H as [(g & gl & Hin & Hg & Ho & He & Ht)|H]; [|set_solver]. left.
  destruct (decide (f = g)) as [->|]; [|exists g, gl; rewrite lookup_insert_ne by done; set_solver].
  rewrite Hg in Hf. simplify_eq. unfold endpoint_of in He. naive_solver.
Qed.

Lemma step_accounted w w' e : Inv w → step w w' → accounted w e → accounted w' e.
Proof.
  intros I H Ha. destruct H.
  - unfold Start. repeat case_goal; done.
  - unfold begin_. repeat case_goal; try done. unfold accounted, held in *. simpl.
    destruct Ha as [(g & gl & Hin & Hg & Hr)|Ha]; [|set_solver]. left. exists g, gl.
    rewrite lookup_insert_ne by (apply (inv_next _ I) in Hg; lia). set_solver.
  - unfold cancel. destruct (heap w !! f) as [fl|] eqn:Hf; [|done]. unfold accounted, held in *. simpl.
    destruct Ha as [(g & gl & Hin & Hg & Hr)|Ha]; [|set_solver]. left.
    destruct (decide (f = g)) as [->|].
    + rewrite Hg in Hf. simplify_eq. exists g, (fl <| cancelled := true |>).
      by rewrite lookup_insert_eq.
    + exists g, gl. by rewrite lookup_insert_ne.
  - by apply finish_section_accounted.
  - done.
  - by apply close_section_accounted.
  - unfold accounted, held in *. simpl. destruct (decide (e = e0)); set_solver.
Qed.

Lemma steps_accounted w w' e : Inv w → rtc step w w' → accounted w e → accounted w' e.
Proof. intros I H. induction H; eauto using inv_step, step_accounted. Qed.

(** ** Properties *)

(** [NewOutbound] only builds a lease whose admission window is at most ten
    minutes and whose active window is at most an hour, counted from the issue
    time, and pins both windows to the monotonic clock at construction. *)
Theorem lease_windows now tg o m h t0 :
  NewOutbound now tg o m = Ok h →
  mono now = Some t0 → in_int64 t0 = true → in_int64 (t0 + Hour) = true →
  leaseIDPattern (leaseID h) = true ∧
  (wall (issued h) ≤ wall now < wall (newUntil h))%Z ∧
  (wall (newUntil h) ≤ wall (activeUntil h))%Z ∧
  (wall (newUntil h) - wall (issued h) ≤ 10 * Minute)%Z ∧
  (wall (activeUntil h) - wall (issued h) ≤ Hour)%Z ∧
  mono (newDeadline h) = Some (t0 + (wall (newUntil h) - wall now))%Z ∧
  mono (activeDeadline h) = Some (t0 + (wall (activeUntil h) - wall now))%Z.
Proof.
  intros H Hm Ht Ht'. apply NewOutbound_inv in H.
  destruct H as (_ & _ & (_ & _ & -> & _) & (Hp & _) & (Hw & Hw1 & Hw2 & Hw3) & (-> & ->) & _).
  unfold Add. rewrite Hm. simpl.
  unfold in_int64, Minute, Hour, Minute, Second, Millisecond, int64_min, int64_max in *.
  rewrite !bool_true_if by lia. repeat split; try done; lia.
Qed.

(** A lease of ten minutes and an hour, one second after its issue. *)
Definition ex_options : options := {|
  UpstreamTag := "exit"; LeaseID := "lease_0123456789abcdef0123456789abcdef";
  IssuedAt := "2026-01-01T00:00:00Z"; NewFlowsUntil := "2026-01-01T00:10:00Z";
  ActiveFlowsUntil := "2026-01-01T01:00:00Z" |}.
Definition ex_now (s : Z) : time :=
  mkTime (63902822400 * Second + s * Second) (Some (1000 * Second + s * Second))%Z.
Definition ex_outbound : Outbound :=
  Eval vm_compute in
  match NewOutbound (ex_now 1) "pokrov-ats" ex_options true with
  | Ok h => h
  | Err _ => mkOutbound "" "" "" None zero_time zero_time zero_time zero_time zero_time
               true true true ∅
  end.

Lemma ex_outbound_new : NewOutbound (ex_now 1) "pokrov-ats" ex_options true = Ok ex_outbound.
Proof. vm_compute. reflexivity. Qed.

Lemma lease_windows_witness :
  leaseIDPattern (leaseID ex_outbound) = true ∧
  mono (newDeadline ex_outbound) =
    Some (1001 * Second + (wall (newUntil ex_outbound) - wall (ex_now 1)))%Z.
Proof.
  destruct (lease_windows (ex_now 1) "pokrov-ats" ex_options true ex_outbound (1001 * Second)%Z
    ltac:(vm_compute; reflexivity) ltac:(vm_compute; reflexivity)
    ltac:(vm_compute; reflexivity) ltac:(vm_compute; reflexivity))
    as (? & _ & _ & _ & _ & ? & _).
  split; assumption.
Defined.

Lemma initial_inv now tg o m h : NewOutbound now tg o m = Ok h → Inv (initial h).
Proof.
  intros H. apply NewOutbound_inv in H as (_ & _ & _ & _ & _ & _ & (Hc & Hr & Ht & Hf)).
  apply inv_initial; [done|]. rewrite Hc, Ht. by intros [?|?].
Qed.

(** The clock facts behind an accepted operation. *)
Lemma current_windows f now w :
  current f now w = true →
  Before now (activeUntil (ob w)) = true ∧ Before now (activeDeadline (ob w)) = true ∧
  terminateActive (ob w) = false.
Proof. unfold current. case_goal; [|done]. intros. by bsplit. Qed.

Lemma finishDial_ok f x c p now w u w' :
  finishDial f x c p now w = (Ok u, w') →
  admits (ob w) now = true ∧ Before now (activeDeadline (ob w)) = true.
Proof.
  unfold finishDial, finish_section. intros H.
  repeat case_hyp H; simplify_eq; bsplit; done.
Qed.

Lemma DialContext_ok now1 env res x now2 w f c w' :
  DialContext now1 env res x now2 w = (Ok (f, c), w') ∨
  ListenPacket now1 env res x now2 w = (Ok (f, c), w') →
  admits (ob w) now1 = true ∧ ∃ g, admits (ob (env g (begin_ now1 w).2)) now2 = true.
Proof.
  unfold DialContext, ListenPacket, begin_. intros [H|H];
    (destruct (upstream (ob w)) eqn:Hu; [|done];
     destruct (admits (ob w) now1) eqn:Ha; [|done]; simpl in H |- *;
     split; [done|]; exists (next w); destruct res; [|done]; case_hyp H; case_hyp H; simplify_eq;
     match goal with G : finishDial _ _ _ _ _ _ = _ |- _ => by apply finishDial_ok in G as [? ?] end).
Qed.

(** C10: a byte is only delivered on a leased connection while both clocks are
    inside the active window that construction pinned: whatever steps led to
    the state, whatever happened during the blocking read and however the wall
    clock was set in between, the monotonic clock has advanced by less than an
    hour since the lease was built and the wall clock is before the signed
    end of the window. *)
Theorem lease_lifetime now tg o m h t0 w f now1 env r now2 t2 n w' :
  NewOutbound now tg o m = Ok h →
  mono now = Some t0 → in_int64 t0 = true → in_int64 (t0 + Hour) = true →
  rtc step (initial h) w → rtc step w (env w) →
  Read f now1 env r now2 w = (Ok n, w') → mono now2 = Some t2 →
  (t2 < t0 + Hour ∧ wall now2 < wall (activeUntil h))%Z.
Proof.
  intros Hn Hm Ht Ht' Hs He Hr Hm2.
  apply (lease_windows _ _ _ _ _ t0) in Hn as W; [|done..].
  apply NewOutbound_inv in Hn as (_ & (_ & _ & Ma) & _).
  apply steps_le in Hs, He. pose proof (transitivity Hs He) as L. simpl in L.
  destruct L as (_ & _ & _ & Ei & En & Ea & _ & Ed & _).
  unfold Read in Hr. case_hyp Hr; [done|]. case_hyp Hr; [done|]. bsplit.
  match goal with H : current _ now2 _ = true |- _ => apply current_windows in H as (H1 & H2 & _) end.
  rewrite Ea, before_wall in H1 by done.
  destruct W as (_ & W1 & W2 & W3 & W4 & _ & W6).
  rewrite Ed, (before_mono _ _ _ _ Hm2 W6) in H2. lia.
Qed.

(** The lease started, one flow dialled and connected to the endpoint 7. *)
Definition ex_started : world := (Start (λ _, Some "vless") (initial ex_outbound)).2.
Definition ex_dialling : world := (begin_ (ex_now 2) ex_started).2.
Definition ex_world : world :=
  (finish_section 0 false (Some 7) None (ex_now 3) ex_dialling).2.

Lemma ex_world_steps : rtc step (initial ex_outbound) ex_world.
Proof.
  apply (rtc_l _ _ ex_started); [apply (step_start _ (λ _, Some "vless"))|].
  apply (rtc_l _ _ ex_dialling); [apply (step_begin _ (ex_now 2))|].
  apply rtc_once, (step_finish _ 0 false 7 false (ex_now 3)). vm_compute. reflexivity.
Qed.

Lemma lease_lifetime_witness :
  (4 * Second + 1000 * Second < 1001 * Second + Hour ∧
   wall (ex_now 4) < wall (activeUntil ex_outbound))%Z.
Proof.
  refine (lease_lifetime (ex_now 1) "pokrov-ats" ex_options true ex_outbound (1001 * Second)
    ex_world 0 (ex_now 4) id (Ok 5%Z) (ex_now 4) _ 5%Z _ _ _ _ _ _ _ _ _);
    try (vm_compute; reflexivity). apply ex_world_steps.
Defined.

(** revocation is irreversible.  Once a lease is revoked or its outbound
    closed, in every later state every new dial and every new packet socket is
    refused before the upstream is contacted, and a dial that was in flight
    when the revocation came in is refused and its endpoint closed. *)
Theorem revoked_forever w w' :
  Inv w → revoked (ob w) = true → rtc step w w' →
  (∀ now1 env res x now2,
     DialContext now1 env res x now2 w' = (Err errLease, w') ∧
     ListenPacket now1 env res x now2 w' = (Err errLease, w')) ∧
  (∀ f x e now, f ∈ dom (heap w') →
     (finishDial f x (Some e) None now w').1 = Err errLease ∧
     e ∈ shut (finishDial f x (Some e) None now w').2) ∧
  (∀ now lid i n a, ConfirmLease now lid i n a w' = false).
Proof.
  intros I Hr Hs. apply steps_le in Hs as L. destruct L as (_ & _ & _ & _ & _ & _ & _ & _ & _ & L & _).
  assert (Ha : ∀ now, admits (ob w') now = false).
  { intros now. unfold admits. rewrite L by done. simpl. by rewrite andb_false_r. }
  split_and!.
  - intros. unfold DialContext, ListenPacket, begin_. rewrite Ha. by destruct (upstream (ob w')).
  - intros f x e now [fl Hf]%elem_of_dom. unfold finishDial, finish_section.
    rewrite Hf, Ha. simpl. rewrite !orb_true_r. simpl. split; [done|].
    apply flow_close_shut. simpl. set_solver.
  - intros. unfold ConfirmLease. rewrite Ha. destruct (upstream (ob w')); done.
Qed.

Lemma revoked_forever_witness :
  DialContext (ex_now 5) (λ _ w, w) (Ok 8) false (ex_now 6) (Revoke true ex_world) =
    (Err errLease, Revoke true ex_world) ∧
  ListenPacket (ex_now 5) (λ _ w, w) (Ok 8) false (ex_now 6) (Revoke true ex_world) =
    (Err errLease, Revoke true ex_world).
Proof.
  apply (revoked_forever (Revoke true ex_world) (Revoke true ex_world)).
  - unfold Revoke. rewrite revoke_close_all. apply inv_close_all, inv_revoke_section.
    apply (inv_steps (initial ex_outbound)); [|apply ex_world_steps].
    eapply initial_inv. apply ex_outbound_new.
  - vm_compute. reflexivity.
  - apply rtc_refl.
Defined.

(** no upstream endpoint is lost.  An endpoint that a dial passed to
    [finishDial] is, from then on and under every interleaving, held by an open
    flow of the outbound's table that has a running close timer, or some
    goroutine is about to close it, or it is closed. *)
Theorem endpoint_never_leaks now tg o m h w f x e (asPacket : bool) now1 w' :
  NewOutbound now tg o m = Ok h →
  rtc step (initial h) w → unattached w f = true →
  rtc step (finish_section f x (if asPacket then None else Some e)
              (if asPacket then Some e else None) now1 w).2 w' →
  held w' e ∨ e ∈ closing w' ∨ e ∈ shut w'.
Proof.
  intros Hn Hs Hu Hs'. apply initial_inv in Hn as I. apply (inv_steps _ _ I) in Hs as Iw.
  apply (steps_accounted _ _ e) in Hs'; [done|by apply inv_finish_section|].
  unfold unattached, finish_section in *. destruct (heap w !! f) as [fl|] eqn:Hf; [|done].
  case_goal; unfold accounted, held; simpl.
  - right. left. unfold endpoints. destruct asPacket; set_solver.
  - left. bsplit. eexists f, _. rewrite lookup_insert_eq. simpl. split_and!; [|done|done| |done].
    + apply (inv_open _ Iw). eauto.
    + unfold endpoint_of. destruct asPacket; simpl; auto.
Qed.

Lemma endpoint_never_leaks_witness :
  held ex_world 7 ∨ 7 ∈ closing ex_world ∨ 7 ∈ shut ex_world.
Proof.
  apply (endpoint_never_leaks (ex_now 1) "pokrov-ats" ex_options true ex_outbound ex_dialling
    0 false 7 false (ex_now 3)).
  - apply ex_outbound_new.
  - apply (rtc_l _ _ ex_started); [apply (step_start _ (λ _, Some "vless"))|].
    apply rtc_once, (step_begin _ (ex_now 2)).
  - vm_compute. reflexivity.
  - apply rtc_refl.
Defined.

(** [Revoke(true)] (and [Close]) terminates everything: it empties the flow
    table, closes every flow the program still refers to together with the
    endpoint it had, and no leased connection is usable afterwards. *)
Theorem terminate_closes_all co w :
  Inv w →
  let w' := revoke co true w in
  flows (ob w') = ∅ ∧
  (∀ f fl, heap w !! f = Some fl → fclosed fl = false →
     (∃ fl', heap w' !! f = Some fl' ∧ fclosed fl' = true) ∧
     (∀ e, endpoint_of fl e → e ∈ shut w')) ∧
  (∀ f now r, (Write f now r w').1 = Err errLease) ∧
  (∀ f now peer r, (WriteTo f now peer r w').1 = Err errLease).
Proof.
  intros I. cbv zeta. rewrite revoke_close_all.
  set (w1 := (revoke_section co true w).2).
  change ((revoke_section co true w).1) with (elements (flows (ob w))).
  set (fs := elements (flows (ob w))).
  assert (I1 : Inv w1) by (by apply inv_revoke_section).
  assert (Hin : ∀ f fl, heap w !! f = Some fl → fclosed fl = false → f ∈ fs).
  { intros f fl ? ?. apply elem_of_elements, (inv_open _ I). eauto. }
  assert (Hd : ∀ f fl, heap w !! f = Some fl → fclosed fl = false →
     (∃ fl', heap (close_all fs w1) !! f = Some fl' ∧ fclosed fl' = true) ∧
     (∀ e, endpoint_of fl e → e ∈ shut (close_all fs w1))).
  { intros f fl Hf Hc. apply close_all_in; eauto. }
  assert (Hcur : ∀ f now, current f now (close_all fs w1) = false).
  { intros f now. unfold current. rewrite (close_all_ob fs w1). simpl.
    destruct (heap (close_all fs w1) !! f); [|done]. by rewrite andb_false_r. }
  split_and!; [|exact Hd|intros; unfold Write; by rewrite Hcur|intros; unfold WriteTo; by rewrite Hcur].
  - apply set_eq. intros f. split; [|set_solver].
    intros (fl & Hf & Hc)%(inv_open _ (inv_close_all fs _ I1)).
    destruct (heap w !! f) as [fl0|] eqn:Hf0.
    + destruct (fclosed fl0) eqn:Hc0.
      * apply (close_all_closed fs w1) in Hf0; [|done]. congruence.
      * destruct (Hd _ _ Hf0 Hc0) as [(? & ? & ?) _]. congruence.
    + rewrite close_all_not_in in Hf; [simpl in Hf; congruence|].
      intros (? & ? & _)%elem_of_elements%(inv_open _ I). congruence.
Qed.

Lemma ex_world_inv : Inv ex_world.
Proof. eapply inv_steps; [apply (initial_inv _ _ _ _ _ ex_outbound_new)|apply ex_world_steps]. Qed.

Lemma terminate_closes_all_witness :
  flows (ob (Close ex_world)) = ∅ ∧ 7 ∈ shut (Close ex_world).
Proof.
  destruct (terminate_closes_all true ex_world ex_world_inv) as (H1 & H2 & _).
  split; [exact H1|].
  apply (H2 0 (mkFlow false (Some 7) None (Some (3597 * Second)%Z) false));
    [vm_compute; reflexivity|reflexivity|]. left. reflexivity.
Defined.

(** a drain ([Revoke(false)]) stops pending dials and keeps established
    streams: a flow that already has its upstream endpoint is left exactly as
    it was and its connection stays usable until the deadline that applied
    before; a flow that is still dialling is closed. *)
Theorem drain_keeps_established w f fl :
  Inv w → heap w !! f = Some fl → fclosed fl = false →
  let w' := Revoke false w in
  if unattached w f
  then ∃ fl', heap w' !! f = Some fl' ∧ fclosed fl' = true
  else heap w' !! f = Some fl ∧ f ∈ flows (ob w') ∧ ∀ now, current f now w' = current f now w.
Proof.
  intros I Hf Hc. cbv zeta. unfold Revoke. rewrite revoke_close_all.
  set (w1 := (revoke_section false false w).2).
  change ((revoke_section false false w).1)
    with (List.filter (unattached w) (elements (flows (ob w)))).
  set (fs := List.filter (unattached w) (elements (flows (ob w)))).
  assert (I1 : Inv w1) by (by apply inv_revoke_section).
  assert (Hfs : f ∈ fs ↔ unattached w f = true).
  { unfold fs. rewrite list_elem_of_In, filter_In, <- list_elem_of_In, elem_of_elements.
    rewrite (inv_open _ I). naive_solver. }
  destruct (unattached w f) eqn:Hu.
  - apply close_all_in with fl; [done..|]. by apply Hfs.
  - assert (Hl : heap (close_all fs w1) !! f = Some fl).
    { rewrite close_all_not_in; [done|]. intros ?%Hfs. done. }
    split_and!; [done|..].
    + apply (inv_open _ (inv_close_all fs _ I1)). eauto.
    + intros now. unfold current. rewrite Hl, Hf. rewrite (close_all_ob fs w1). done.
Qed.

Lemma drain_keeps_established_witness :
  0 ∈ flows (ob (Revoke false ex_world)) ∧
  current 0 (ex_now 600) (Revoke false ex_world) = current 0 (ex_now 600) ex_world.
Proof.
  pose proof (drain_keeps_established ex_world 0
    (mkFlow false (Some 7) None (Some (3597 * Second)%Z) false) ex_world_inv
    ltac:(vm_compute; reflexivity) ltac:(reflexivity)) as H. cbv zeta in H.
  assert (E : unattached ex_world 0 = false) by (vm_compute; reflexivity).
  rewrite E in H. destruct H as (_ & H1 & H2). split; [exact H1|apply H2].
Defined.

(** [ConfirmLease] attests exactly the loaded gate: on a lease built from
    [o] it answers true iff the outbound is started, still admits at both
    clocks, and the four strings are the ones the lease was built from. *)
Theorem confirm_exact now tg o m h w now1 lid iss nu au :
  NewOutbound now tg o m = Ok h → rtc step (initial h) w →
  ConfirmLease now1 lid iss nu au w = true ↔
  upstream (ob w) ≠ None ∧ admits (ob w) now1 = true ∧
  Before now1 (activeDeadline h) = true ∧
  lid = LeaseID o ∧ iss = IssuedAt o ∧ nu = NewFlowsUntil o ∧ au = ActiveFlowsUntil o.
Proof.
  intros Hn Hs. apply NewOutbound_inv in Hn as ((Pi & Pn & Pa) & _ & (_ & _ & Hl & _) & _).
  apply steps_le in Hs as (_ & _ & El & Ei & En & Ea & _ & Ed & _). simpl in *.
  unfold ConfirmLease. rewrite !andb_true_iff, !bool_decide_eq_true, El, Ei, En, Ea, Ed, Hl.
  rewrite (format_utc_eq _ _ _ Pi), (format_utc_eq _ _ _ Pn), (format_utc_eq _ _ _ Pa).
  destruct (upstream (ob w)); naive_solver.
Qed.

Lemma confirm_exact_witness :
  ConfirmLease (ex_now 5) (LeaseID ex_options) (IssuedAt ex_options) (NewFlowsUntil ex_options)
    (ActiveFlowsUntil ex_options) ex_world = true.
Proof.
  apply (confirm_exact (ex_now 1) "pokrov-ats" ex_options true ex_outbound ex_world (ex_now 5)).
  - apply ex_outbound_new.
  - apply ex_world_steps.
  - split_and!; try reflexivity; try (vm_compute; reflexivity). vm_compute. discriminate.
Defined.
