(* ===== verification/Slipstream.v ===== *)
(** * Slipstream: the local authenticated protocol

    Models [engine/sing-box/protocol/pokrov/slipstream/local_io.go] and
    [dns_relay.go]: the frames between the core and its native child process
    (bootstrap, ready message, TCP authentication, sealed DNS datagrams), the
    replay window and the relay between the child and the remote resolver. *)

From stdpp Require Import base list strings gmap pretty.
From Stdlib Require Import ZArith Lia Ascii.
From S2P Require Import Prelude GoBytes GoCrypto.

Local Open Scope Z_scope.

Definition bootstrapMagic : bytes := list_of_str "PKRVIPC1".
Definition readyMagic : bytes := list_of_str "PKRVRDY1".
Definition tcpMagic : bytes := list_of_str "PKRVTCP1".
Definition dnsMagic : bytes := list_of_str "PKRVDNS1".
Definition dnsFrameSize : Z := 8 + 16 + 8 + 32.
Definition childProof : bytes := list_of_str "pokrov/slipstream/local/v1/tcp/child" ++ [byte_of 0].
Definition parentProof : bytes := list_of_str "pokrov/slipstream/local/v1/tcp/parent" ++ [byte_of 0].
Definition dnsQuery : bytes := list_of_str "pokrov/slipstream/local/v1/dns/query" ++ [byte_of 0].
Definition dnsReply : bytes := list_of_str "pokrov/slipstream/local/v1/dns/reply" ++ [byte_of 0].

(** ** Authentication material and frames *)

Record localAuth := mkAuth { key : bytes; generation : bytes }.

(** The arrays [[32]byte] and [[16]byte]. *)
Definition auth_wf (a : localAuth) : Prop := blen (key a) = 32 ∧ blen (generation a) = 16.

Definition bootstrap (a : localAuth) : bytes := bootstrapMagic ++ key a ++ generation a.

Definition mac_input (a : localAuth) (domain : bytes) (parts : list bytes) : bytes :=
  domain ++ generation a ++ concat parts.

Definition mac (a : localAuth) (domain : bytes) (parts : list bytes) : bytes :=
  hmac_sha256 (key a) (mac_input a domain parts).

(** [authenticate]: the bytes sent to the child, given the fresh [nonce] and
    what [io.ReadFull] of the 64 reply bytes yields. *)
Definition authenticate (a : localAuth) (nonce : bytes) (reply : option bytes)
    : list bytes * result string unit :=
  let hello := tcpMagic ++ generation a ++ nonce in
  match reply with
  | None => ([hello], Err "EOF")
  | Some r =>
      if negb (bytes_eqb (drop 32 r) (mac a childProof [nonce; take 32 r]))
      then ([hello], Err "slipstream local authentication failed")
      else ([hello; mac a parentProof [nonce; take 32 r]], Ok tt)
  end.

(** An IPv4 address and port. *)
Definition addrPort : Type := Z * Z.
Definition loopback : Z := 0x7f000001.

(** [parseReady]: the TCP address to dial, as text, and the UDP peer. *)
Definition parseReady (a : localAuth) (message : bytes) : outcome (string * addrPort) :=
  guard blen message =? 28 else "slipstream native client has an incompatible local protocol";
  magic <~ slice message 0 8;
  gen <~ slice message 8 24;
  guard bytes_eqb magic readyMagic && bytes_eqb gen (generation a)
    else "slipstream native client has an incompatible local protocol";
  tcp <~ (s <~ slice message 24 26; Uint16 s);
  udp <~ (s <~ slice message 26 28; Uint16 s);
  guard negb ((tcp =? 0) || (udp =? 0)) else "slipstream native client returned an invalid local port";
  Ret ("127.0.0.1:" +:+ pretty (Z.to_N tcp), (loopback, udp)).

Definition sealDNS (a : localAuth) (domain : bytes) (sequence : Z) (payload : bytes) : bytes :=
  let message := dnsMagic ++ generation a ++ be_put 8 sequence ++ payload in
  message ++ mac a domain [message].

Definition openDNS (a : localAuth) (domain : bytes) (message : bytes)
    : outcome (option (bytes * Z)) :=
  if blen message <=? dnsFrameSize then Ret None
  else
    magic <~ slice message 0 8;
    gen <~ slice message 8 24;
    if negb (bytes_eqb magic dnsMagic) || negb (bytes_eqb gen (generation a)) then Ret None
    else
      let stop := blen message - 32 in
      tag <~ slice_from message stop;
      body <~ slice message 0 stop;
      if negb (bytes_eqb tag (mac a domain [body])) then Ret None
      else
        sequence <~ (s <~ slice message 24 32; Uint64 s);
        payload <~ slice message 32 stop;
        Ret (if sequence =? 0 then None else Some (payload, sequence)).

(** ** The replay window *)

Record replayWindow := mkWindow { highest : Z; bitmap : Z }.

(** [x << n] on [uint64]: a shift count of 64 or more clears it. *)
Definition shl64 (x n : Z) : Z := if 64 <=? n then 0 else u64 (Z.shiftl x n).

Definition accept (w : replayWindow) (sequence : Z) : bool * replayWindow :=
  if sequence =? 0 then (false, w)
  else if highest w <? sequence then
    let shift := u64 (sequence - highest w) in
    (true, mkWindow sequence (Z.lor (shl64 (bitmap w) shift) 1))
  else
    let distance := u64 (highest w - sequence) in
    if (64 <=? distance) || negb (Z.land (bitmap w) (shl64 1 distance) =? 0)
    then (false, w)
    else (true, mkWindow (highest w) (Z.lor (bitmap w) (shl64 1 distance))).

(** The sequence numbers a window accepts from a stream of them. *)
Fixpoint accepted (w : replayWindow) (ss : list Z) : list Z :=
  match ss with
  | [] => []
  | s :: r =>
      match accept w s with
      | (true, w') => s :: accepted w' r
      | (false, w') => accepted w' r
      end
  end.

(** ** The DNS relay *)

(** [peer] is the child's UDP address once reported; [sent] is what the relay
    wrote to the remote resolver, [replied] what it wrote to the child. *)
Record dnsRelay := mkRelay {
  auth : localAuth;
  peer : option addrPort;
  queries : replayWindow;
  sequence : Z;
  sent : list bytes;
  replied : list (addrPort * bytes);
  stopped : bool
}.

#[export] Instance eta_dnsRelay : Eta dnsRelay := λ r,
  mkRelay (auth r) (peer r) (queries r) (sequence r) (sent r) (replied r) (stopped r).

Definition newDNSRelay (a : localAuth) : dnsRelay := mkRelay a None (mkWindow 0 0) 0 [] [] false.

Definition setPeer (p : addrPort) (r : dnsRelay) : dnsRelay := r <| peer := Some p |>.

Definition stop (r : dnsRelay) : dnsRelay := r <| stopped := true |>.

(** One iteration of [forwardQueries]: a datagram of at most 65535 bytes from a
    local address; [writeErr] is the error of the write to the resolver. *)
Definition forwardQuery (from : addrPort) (datagram : bytes) (writeErr : bool) (r : dnsRelay)
    : dnsRelay :=
  if stopped r then r
  else
    match openDNS (auth r) dnsQuery datagram with
    | Ret (Some (payload, seq)) =>
        if bool_decide (peer r = Some from) then
          let '(ok, w) := accept (queries r) seq in
          let r := r <| queries := w |> in
          if ok then
            if writeErr then stop r else r <| sent := sent r ++ [payload] |>
          else r
        else r
    | _ => r
    end.

(** One iteration of [forwardReplies]: what one read of the resolver yields. *)
Definition reply_capacity : Z := 65507 - dnsFrameSize.
Definition forwardReply (payload : bytes) (writeErr : bool) (r : dnsRelay) : dnsRelay :=
  if stopped r then r
  else
    match peer r with
    | Some p =>
        let seq := u64 (sequence r + 1) in
        let r := r <| sequence := seq |> in
        if writeErr then stop r
        else r <| replied := replied r ++ [(p, sealDNS (auth r) dnsReply seq payload)] |>
    | None => r
    end.

Inductive event :=
| EvPeer (p : addrPort)
| EvQuery (from : addrPort) (datagram : bytes) (writeErr : bool)
| EvReply (payload : bytes) (writeErr : bool)
| EvStop.

Definition relay_step (r : dnsRelay) (e : event) : dnsRelay :=
  match e with
  | EvPeer p => setPeer p r
  | EvQuery from d err => forwardQuery from d err r
  | EvReply p err => forwardReply p err r
  | EvStop => stop r
  end.

Definition relay_run (r : dnsRelay) (es : list event) : dnsRelay := foldl relay_step r es.

(** ** Frames *)

Lemma bytes_eqb_eq a b : bytes_eqb a b = true ↔ a = b.
Proof. apply bool_decide_eq_true. Qed.

Lemma bytes_eqb_refl a : bytes_eqb a a = true.
Proof. by apply bytes_eqb_eq. Qed.

Lemma mac_length a d ps : blen (mac a d ps) = 32.
Proof. apply hmac_length. Qed.

Lemma be_put8_range z : 0 ≤ z < 2 ^ 64 → be_val (be_put 8 z) = z.
Proof. intros. rewrite be_val_put. apply Z.mod_small. done. Qed.

Lemma sealDNS_length a d s p :
  auth_wf a → blen (sealDNS a d s p) = blen p + dnsFrameSize.
Proof.
  intros [_ H]. unfold sealDNS. rewrite !blen_app, mac_length, blen_be_put, H.
  unfold dnsFrameSize. change (blen dnsMagic) with 8. lia.
Qed.

(** The fields of a frame of magic, generation, sequence, payload and tag. *)
Lemma frame_slices (magic gen sq p t : bytes) :
  blen magic = 8 → blen gen = 16 → blen sq = 8 → blen t = 32 →
  let m := (magic ++ gen ++ sq ++ p) ++ t in
  slice m 0 8 = Ret magic ∧ slice m 8 24 = Ret gen ∧ slice m 24 32 = Ret sq ∧
  slice m 32 (blen m - 32) = Ret p ∧ slice m 0 (blen m - 32) = Ret (magic ++ gen ++ sq ++ p) ∧
  slice_from m (blen m - 32) = Ret t.
Proof.
  intros H1 H2 H3 H4 m. subst m. unfold slice_from.
  pose proof (blen_nonneg p).
  set (m := (magic ++ gen ++ sq ++ p) ++ t).
  assert (E : m = magic ++ (gen ++ (sq ++ (p ++ t)))) by (unfold m; by rewrite <- !app_assoc).
  assert (L : blen m = 64 + blen p) by (unfold m; rewrite !blen_app; lia).
  rewrite L. split_and!.
  - rewrite E. by apply slice_app_l.
  - rewrite E, slice_app_r, H1 by lia. by apply slice_app_l.
  - rewrite E, !slice_app_r, H1, H2 by lia. by apply slice_app_l.
  - rewrite E, !slice_app_r, H1, H2, H3 by lia. apply slice_app_l. lia.
  - unfold m. apply slice_app_l. rewrite !blen_app. lia.
  - unfold m. rewrite slice_app_r by (rewrite ?blen_app; lia).
    rewrite !blen_app, H1, H2, H3.
    replace (64 + blen p - 32 - (8 + (16 + (8 + blen p)))) with 0 by lia.
    apply slice_full. lia.
Qed.

(** A message that is longer than a frame's overhead splits into its fields. *)
Lemma frame_split m :
  dnsFrameSize < blen m →
  ∃ magic gen sq p t, m = (magic ++ gen ++ sq ++ p) ++ t ∧
    blen magic = 8 ∧ blen gen = 16 ∧ blen sq = 8 ∧ blen t = 32 ∧ p ≠ [].
Proof.
  unfold dnsFrameSize. intros H. set (k := (length m - 32)%nat).
  exists (take 8 m), (take 16 (drop 8 m)), (take 8 (drop 24 m)), (take (k - 32) (drop 32 m)), (drop k m).
  unfold blen in *. split_and!.
  - rewrite <- (take_drop k m) at 1. f_equal.
    rewrite <- (take_drop 8 (take k m)) at 1.
    rewrite take_take, Nat.min_l by lia. f_equal.
    rewrite <- (take_drop 16 (drop 8 (take k m))) at 1. rewrite drop_drop.
    change (8 + 16)%nat with 24%nat.
    rewrite !skipn_firstn_comm, take_take, Nat.min_l by lia. f_equal.
    rewrite <- (take_drop 8 (take (k - 24) (drop 24 m))) at 1.
    rewrite take_take, Nat.min_l, skipn_firstn_comm, drop_drop by lia.
    replace (k - 24 - 8)%nat with (k - 32)%nat by lia. done.
  - rewrite length_take. lia.
  - rewrite length_take, length_drop. lia.
  - rewrite length_take, length_drop. lia.
  - rewrite length_drop. lia.
  - intros E. apply (f_equal length) in E. rewrite length_take, length_drop in E. simpl in E. lia.
Qed.

Lemma openDNS_seal a d p s :
  auth_wf a → p ≠ [] → 0 < s < 2 ^ 64 → openDNS a d (sealDNS a d s p) = Ret (Some (p, s)).
Proof.
  intros [_ Hg] Hp Hs. unfold openDNS, sealDNS.
  set (t := mac a d [dnsMagic ++ generation a ++ be_put 8 s ++ p]).
  destruct (frame_slices dnsMagic (generation a) (be_put 8 s) p t)
    as (S1 & S2 & S3 & S4 & S5 & S6); [done|done|apply blen_be_put|apply mac_length|].
  rewrite bool_false_if.
  - rewrite S1, S2, S3, S4, S5, S6. cbn [obind]. rewrite !bytes_eqb_refl. cbn [negb orb].
    cbn [negb obind].
    unfold Uint64. rewrite slice_full by apply blen_be_put. cbn [obind].
    rewrite be_put8_range by lia. by destruct (Z.eqb_spec s 0); [lia|].
  - rewrite !blen_app, Hg, blen_be_put. unfold dnsFrameSize, t. rewrite mac_length.
    change (blen dnsMagic) with 8. destruct p as [|c p]; [done|]. rewrite blen_cons.
    pose proof (blen_nonneg p). apply Z.leb_gt. lia.
Qed.

Lemma openDNS_inv a d m :
  blen (generation a) = 16 →
  match openDNS a d m with
  | Ret (Some (p, s)) => m = sealDNS a d s p ∧ p ≠ [] ∧ 0 < s < 2 ^ 64
  | Ret None => True
  | _ => False
  end.
Proof.
  intros Hg. unfold openDNS. destruct (Z.leb_spec (blen m) dnsFrameSize) as [Hl|Hl]; [done|].
  apply frame_split in Hl as (magic & gen & sq & p & t & E & L1 & L2 & L3 & L4 & Hp).
  destruct (frame_slices magic gen sq p t L1 L2 L3 L4) as (S1 & S2 & S3 & S4 & S5 & S6).
  rewrite <- E in *. rewrite S1. cbn [obind]. rewrite S2. cbn [obind].
  destruct (bytes_eqb magic dnsMagic) eqn:Em; simpl; [|done].
  destruct (bytes_eqb gen (generation a)) eqn:Eg; simpl; [|done].
  rewrite S6. cbn [obind]. rewrite S5. cbn [obind].
  destruct (bytes_eqb t _) eqn:Et; simpl; [|done].
  rewrite S3. cbn [obind]. unfold Uint64. rewrite slice_full by done. cbn [obind].
  rewrite S4. cbn [obind].
  destruct (Z.eqb_spec (be_val sq) 0); [done|].
  apply bytes_eqb_eq in Em, Eg, Et. subst.
  pose proof (be_val_range sq) as R. rewrite L3 in R. change (2 ^ (8 * 8)) with (2 ^ 64) in R.
  unfold sealDNS.
  assert (Q : be_put 8 (be_val sq) = sq).
  { rewrite <- (be_put_val sq) at 2. f_equal. unfold blen in L3. lia. }
  rewrite Q. split_and!; [done|done|lia|lia].
Qed.

(** ** Properties of the frames *)

(** [openDNS] accepts exactly the frames [sealDNS] produces with the same
    key, generation and direction: it never panics, returns a payload and
    sequence only for the frame that seals them, and opens every such frame
    with a nonempty payload and a nonzero sequence. *)
Theorem openDNS_exact a d m :
  auth_wf a →
  openDNS a d m ≠ Panic ∧
  ∀ p s, openDNS a d m = Ret (Some (p, s)) ↔
         m = sealDNS a d s p ∧ p ≠ [] ∧ 0 < s < 2 ^ 64.
Proof.
  intros Hw. pose proof (openDNS_inv a d m (proj2 Hw)) as H.
  split; [by destruct (openDNS a d m)|]. intros p s. split.
  - intros E. by rewrite E in H.
  - intros (-> & ? & ?). by apply openDNS_seal.
Qed.

Definition ex_auth : localAuth := mkAuth (replicate 32 (byte_of 7)) (replicate 16 (byte_of 9)).

Lemma openDNS_exact_witness :
  openDNS ex_auth dnsQuery (sealDNS ex_auth dnsQuery 5 [byte_of 1; byte_of 2]) =
    Ret (Some ([byte_of 1; byte_of 2], 5)).
Proof. apply openDNS_exact; [split; reflexivity|]. split_and!; [reflexivity|discriminate|lia|lia]. Defined.

Definition domains : list bytes := [childProof; parentProof; dnsQuery; dnsReply].

(** No domain string is a prefix of another one. *)
Lemma domains_prefix_free d1 d2 r1 r2 :
  d1 ∈ domains → d2 ∈ domains → d1 ++ r1 = d2 ++ r2 → d1 = d2.
Proof.
  unfold domains. rewrite !elem_of_cons, !elem_of_nil.
  intros [->|[->|[->|[->|[]]]]] [->|[->|[->|[->|[]]]]] H; try done; exfalso;
    unfold childProof, parentProof, dnsQuery, dnsReply in H; simpl in H; simplify_eq.
Qed.

(** the four uses of the key are separated.  Two MAC computations of one
    process whose inputs coincide serve the same purpose and cover the same
    bytes, so a child proof, a parent proof, a query tag and a reply tag can
    never stand for one another. *)
Theorem mac_domain_separation a d1 d2 ps1 ps2 :
  d1 ∈ domains → d2 ∈ domains →
  mac_input a d1 ps1 = mac_input a d2 ps2 → d1 = d2 ∧ concat ps1 = concat ps2.
Proof.
  intros H1 H2 E. unfold mac_input in E.
  assert (d1 = d2) as -> by (by eapply domains_prefix_free).
  by apply app_inv_head, app_inv_head in E.
Qed.

Lemma mac_domain_separation_witness :
  childProof = childProof ∧ concat [[byte_of 1]; [byte_of 2]] = concat [[byte_of 1; byte_of 2]].
Proof.
  apply (mac_domain_separation ex_auth childProof childProof [[byte_of 1]; [byte_of 2]] [[byte_of 1; byte_of 2]]);
    [unfold domains; set_solver..|reflexivity].
Defined.

(** ** The replay window refines a set of sequence numbers *)

(** The reference: remember everything; accept a nonzero number that is new and
    less than 64 behind the largest one accepted so far. *)
Definition largest (seen : list Z) : Z := foldr Z.max 0 seen.

Definition spec_accept (seen : list Z) (s : Z) : bool :=
  negb (s =? 0) && negb (bool_decide (s ∈ seen)) && (largest seen - 64 <? s).

Fixpoint spec_accepted (seen : list Z) (ss : list Z) : list Z :=
  match ss with
  | [] => []
  | s :: r => if spec_accept seen s then s :: spec_accepted (s :: seen) r else spec_accepted seen r
  end.

Record window_rel (seen : list Z) (w : replayWindow) : Prop := mkRel {
  rel_highest : highest w = largest seen;
  rel_range : 0 ≤ bitmap w < 2 ^ 64;
  rel_bits : ∀ i, 0 ≤ i < 64 → Z.testbit (bitmap w) i = bool_decide (largest seen - i ∈ seen);
  rel_seen : ∀ s, s ∈ seen → 0 < s < 2 ^ 64
}.

Lemma largest_bound seen s : s ∈ seen → s ≤ largest seen.
Proof. induction seen as [|x l IH]; simpl; [set_solver|]. intros [->|?%IH]%elem_of_cons; lia. Qed.

Lemma largest_range seen : (∀ s, s ∈ seen → 0 < s < 2 ^ 64) → 0 ≤ largest seen < 2 ^ 64.
Proof.
  induction seen as [|x l IH]; intros H; simpl; [lia|].
  specialize (IH ltac:(set_solver)). specialize (H x ltac:(set_solver)). lia.
Qed.

Lemma land_pow2_zero b i : 0 ≤ i → (Z.land b (2 ^ i) =? 0) = negb (Z.testbit b i).
Proof.
  intros Hi. destruct (Z.testbit b i) eqn:E; simpl.
  - apply Z.eqb_neq. intros H. apply (f_equal (λ z, Z.testbit z i)) in H.
    rewrite Z.land_spec, E, Z.pow2_bits_true, Z.bits_0 in H by done. done.
  - apply Z.eqb_eq. apply Z.bits_inj'. intros n Hn. rewrite Z.land_spec, Z.bits_0.
    rewrite Z.pow2_bits_eqb by done. destruct (Z.eqb_spec i n) as [->|]; [by rewrite E|].
    by rewrite andb_false_r.
Qed.

Lemma testbit_u64 z i : 0 ≤ i < 64 → Z.testbit (u64 z) i = Z.testbit z i.
Proof. intros. unfold wrap. apply Z.mod_pow2_bits_low; lia. Qed.

Lemma testbit_shl64 z n i :
  0 ≤ i < 64 → 0 ≤ n → Z.testbit (shl64 z n) i = Z.testbit z (i - n).
Proof.
  intros. unfold shl64. destruct (Z.leb_spec 64 n).
  - rewrite Z.bits_0. symmetry. apply Z.testbit_neg_r. lia.
  - rewrite testbit_u64, Z.shiftl_spec by lia. done.
Qed.

Lemma shl64_1 n : 0 ≤ n < 64 → shl64 1 n = 2 ^ n.
Proof.
  intros. unfold shl64. destruct (Z.leb_spec 64 n); [lia|].
  rewrite Z.shiftl_1_l. apply wrap_small. split; [lia|apply Z.pow_lt_mono_r; lia].
Qed.

Lemma bounded_bits z : 0 ≤ z < 2 ^ 64 ↔ 0 ≤ z ∧ ∀ i, 64 ≤ i → Z.testbit z i = false.
Proof.
  split.
  - intros H. split; [lia|]. intros i Hi. destruct (Z.eq_dec z 0) as [->|]; [apply Z.bits_0|].
    apply Z.bits_above_log2; [lia|].
    assert (Z.log2 z < 64) by (apply Z.log2_lt_pow2; lia). lia.
  - intros [Hz H]. split; [done|]. destruct (Z.lt_ge_cases z (2 ^ 64)) as [|Hge]; [done|].
    assert (64 ≤ Z.log2 z) by (apply Z.log2_le_pow2; lia).
    assert (E : Z.testbit z (Z.log2 z) = true) by (apply Z.bit_log2; lia).
    by rewrite H in E.
Qed.

Lemma u64_range z : 0 ≤ u64 z < 2 ^ 64.
Proof. by apply wrap_range. Qed.

Lemma shl64_range z n : 0 ≤ shl64 z n < 2 ^ 64.
Proof. unfold shl64. case_goal; [lia|apply u64_range]. Qed.

Lemma lor_range a b : 0 ≤ a < 2 ^ 64 → 0 ≤ b < 2 ^ 64 → 0 ≤ Z.lor a b < 2 ^ 64.
Proof.
  rewrite !bounded_bits. intros [Ha Ha'] [Hb Hb']. split; [by apply Z.lor_nonneg|].
  intros i Hi. rewrite Z.lor_spec, Ha', Hb'; done.
Qed.

Lemma window_rel_init : window_rel [] (mkWindow 0 0).
Proof.
  split; [done|done| |set_solver]. intros i Hi. cbn [bitmap]. rewrite Z.bits_0.
  symmetry. apply bool_decide_eq_false. set_solver.
Qed.

(** The window decides as the reference and stays related to it. *)
Lemma accept_refines seen w s :
  window_rel seen w → 0 ≤ s < 2 ^ 64 →
  (accept w s).1 = spec_accept seen s ∧
  window_rel (if spec_accept seen s then s :: seen else seen) (accept w s).2.
Proof.
  intros [Hh Hr Hb Hs] Hrange. pose proof (largest_range _ Hs) as HL.
  unfold accept, spec_accept. rewrite Hh.
  destruct (Z.eqb_spec s 0) as [->|Hz]; [split; [done|by split]|].
  destruct (Z.ltb_spec (largest seen) s) as [Hgt|Hle].
  - rewrite (bool_decide_eq_false_2 (s ∈ seen)) by (intros ?%largest_bound; lia).
    destruct (Z.ltb_spec (largest seen - 64) s); [|lia]. simpl. split; [done|].
    assert (Hmax : largest (s :: seen) = s) by (simpl; lia).
    split; cbn [highest bitmap]; [done|by apply lor_range; [apply shl64_range|]| |set_solver by lia].
    intros i Hi. rewrite (wrap_small 64) by lia.
    rewrite Hmax, Z.lor_spec, testbit_shl64 by lia.
    destruct (Z.eq_dec i 0) as [->|Hi0].
    { rewrite orb_true_r. symmetry. apply bool_decide_eq_true, elem_of_cons. left. lia. }
    change 1 with (2 ^ 0). rewrite Z.pow2_bits_false, orb_false_r by lia.
    destruct (Z.lt_ge_cases i (s - largest seen)) as [Hlt|Hge].
    + rewrite Z.testbit_neg_r by lia. symmetry. apply bool_decide_eq_false.
      intros [?|Hin]%elem_of_cons; [lia|]. apply largest_bound in Hin. lia.
    + rewrite Hb by lia. apply bool_decide_ext. rewrite elem_of_cons.
      replace (largest seen - (i - (s - largest seen))) with (s - i) by lia.
      split; [by right|]. intros [?|?]; [lia|done].
  - rewrite (wrap_small 64) by lia.
    destruct (Z.leb_spec 64 (largest seen - s)) as [Hfar|Hnear].
    { destruct (Z.ltb_spec (largest seen - 64) s); [lia|]. rewrite !andb_false_r. simpl.
      split; [done|by split]. }
    destruct (Z.ltb_spec (largest seen - 64) s); [|lia].
    rewrite shl64_1, land_pow2_zero, negb_involutive, Hb by lia.
    replace (largest seen - (largest seen - s)) with s by lia.
    destruct (bool_decide (s ∈ seen)) eqn:Hin; simpl; [split; [done|by split]|].
    apply bool_decide_eq_false in Hin. split; [done|].
    assert (Hmax : largest (s :: seen) = largest seen) by (simpl; lia).
    split; cbn [highest bitmap]; [congruence| | |set_solver by lia].
    + apply lor_range; [done|]. split; [lia|apply Z.pow_lt_mono_r; lia].
    + intros i Hi. rewrite Hmax, Z.lor_spec, Hb, Z.pow2_bits_eqb by lia.
      destruct (Z.eqb_spec (largest seen - s) i) as [<-|Hne].
      * rewrite orb_true_r. symmetry. apply bool_decide_eq_true, elem_of_cons. left. lia.
      * rewrite orb_false_r. apply bool_decide_ext. rewrite elem_of_cons.
        split; [by right|]. intros [?|?]; [lia|done].
Qed.

Lemma accepted_refines seen w ss :
  window_rel seen w → Forall (λ s, 0 ≤ s < 2 ^ 64) ss →
  accepted w ss = spec_accepted seen ss.
Proof.
  intros Hrel H. revert seen w Hrel. induction H as [|s ss Hs _ IH]; intros seen w Hrel; [done|].
  simpl. destruct (accept_refines seen w s Hrel Hs) as [E R].
  destruct (accept w s) as [ok w'] eqn:Ea. simpl in E, R. subst ok.
  destruct (spec_accept seen s); [f_equal|]; by apply IH.
Qed.

Lemma spec_accepted_nodup seen ss :
  NoDup (spec_accepted seen ss) ∧ ∀ s, s ∈ spec_accepted seen ss → s ∉ seen ∧ s ≠ 0 ∧ s ∈ ss.
Proof.
  revert seen. induction ss as [|s ss IH]; intros seen; simpl.
  { split; [constructor|set_solver]. }
  destruct (spec_accept seen s) eqn:E.
  - unfold spec_accept in E. bsplit. destruct (IH (s :: seen)) as [N1 N2].
    split; [constructor; [intros (? & _)%N2; set_solver|done]|].
    intros x [->|(? & ? & ?)%N2]%elem_of_cons; [|set_solver]. split_and!; [done|lia|set_solver].
  - destruct (IH seen) as [H1 H2]. split; [done|]. intros x (? & ? & ?)%H2. set_solver.
Qed.

(** C36: on every stream of 64-bit sequence numbers the 128-bit replay window
    decides exactly as the reference that remembers every number it accepted
    and accepts a number iff it is nonzero, was not accepted before and is
    less than 64 behind the largest; in particular it accepts none twice. *)
Theorem replay_window_refines ss :
  Forall (λ s, 0 ≤ s < 2 ^ 64) ss →
  accepted (mkWindow 0 0) ss = spec_accepted [] ss ∧ NoDup (accepted (mkWindow 0 0) ss).
Proof.
  intros H. rewrite (accepted_refines []) by (apply window_rel_init || done).
  split; [done|apply spec_accepted_nodup].
Qed.

Lemma replay_window_refines_witness :
  accepted (mkWindow 0 0) [3; 1; 3; 70; 2; 6; 7; 70; 2 ^ 64 - 1] =
    spec_accepted [] [3; 1; 3; 70; 2; 6; 7; 70; 2 ^ 64 - 1] ∧
  NoDup (accepted (mkWindow 0 0) [3; 1; 3; 70; 2; 6; 7; 70; 2 ^ 64 - 1]).
Proof.
  apply (replay_window_refines [3; 1; 3; 70; 2; 6; 7; 70; 2 ^ 64 - 1]).
  repeat (apply Forall_cons_2; [lia|]). apply Forall_nil_2.
Defined.

Example replay_window_ex :
  accepted (mkWindow 0 0) [3; 1; 3; 70; 2; 6; 7; 70; 2 ^ 64 - 1] = [3; 1; 70; 7; 2 ^ 64 - 1].
Proof. vm_compute. reflexivity. Qed.

(** ** The relay *)

(** What the relay forwarded so far: the payloads in order, each with the
    sequence number it was accepted under. *)
Definition relay_inv (a : localAuth) (es : list event) (r : dnsRelay) : Prop :=
  auth r = a ∧
  ∃ seen fwd, window_rel seen (queries r) ∧ NoDup (fst <$> fwd) ∧ (∀ s, s ∈ fst <$> fwd → s ∈ seen) ∧
    sent r = snd <$> fwd ∧
    ∀ s p, (s, p) ∈ fwd → ∃ from err, EvQuery from (sealDNS a dnsQuery s p) err ∈ es.

Lemma forwardQuery_inv a es r from d err :
  auth_wf a → relay_inv a es r →
  relay_inv a (es ++ [EvQuery from d err]) (forwardQuery from d err r).
Proof.
  intros Hw (Ha & seen & fwd & Hrel & Hnd & Hsub & Hsent & Horig).
  assert (Hkeep : ∀ s p, (s, p) ∈ fwd → ∃ from' err',
            EvQuery from' (sealDNS a dnsQuery s p) err' ∈ es ++ [EvQuery from d err]).
  { intros s p (f' & e' & ?)%Horig. exists f', e'. set_solver. }
  unfold forwardQuery. destruct (stopped r); [by repeat split; eauto 10|]. rewrite Ha.
  pose proof (openDNS_inv a dnsQuery d (proj2 Hw)) as Ho.
  destruct (openDNS a dnsQuery d) as [[[p s]|]| |]; try done; try by split; eauto 10.
  destruct Ho as (-> & Hp & Hs).
  destruct (bool_decide _); [|by split; eauto 10].
  destruct (accept_refines seen (queries r) s Hrel ltac:(lia)) as [E R].
  destruct (accept (queries r) s) as [ok w'] eqn:Ea. simpl in E, R. subst ok.
  destruct (spec_accept seen s) eqn:Es.
  - unfold spec_accept in Es. bsplit.
    destruct err; split; simpl; [done| |done|].
    + exists (s :: seen), fwd. split_and!; [done|done|set_solver|done|done].
    + exists (s :: seen), (fwd ++ [(s, p)]).
      rewrite !fmap_app. simpl. split_and!; [done| | |by rewrite Hsent|].
      * apply NoDup_app. split_and!; [done|set_solver|apply NoDup_singleton].
      * set_solver.
      * intros s' p' [?|Hin]%elem_of_app; [eauto|]. apply list_elem_of_singleton in Hin.
        simplify_eq. exists from, false. set_solver.
  - split; simpl; [done|]. exists seen, fwd. by split_and!.
Qed.

Lemma relay_inv_run a es : auth_wf a → relay_inv a es (relay_run (newDNSRelay a) es).
Proof.
  intros Hw. induction es as [|e es IH] using rev_ind.
  { split; [done|]. exists [], []. split_and!; [apply window_rel_init|constructor|set_solver|done|set_solver]. }
  unfold relay_run. rewrite foldl_snoc. fold (relay_run (newDNSRelay a) es).
  destruct e; simpl; [|by apply forwardQuery_inv|..];
    destruct IH as (Ha & seen & fwd & Hrel & Hnd & Hsub & Hsent & Horig).
  - split; [done|]. exists seen, fwd. split_and!; [done..|]. intros s q (f' & e' & ?)%Horig.
    exists f', e'. set_solver.
  - unfold forwardReply. repeat case_goal; (split; [done|]); exists seen, fwd;
      (split_and!; [done..|]); intros s q (f' & e' & ?)%Horig; exists f', e'; set_solver.
  - split; [done|]. exists seen, fwd. split_and!; [done..|]. intros s q (f' & e' & ?)%Horig.
    exists f', e'. set_solver.
Qed.

(** whatever datagrams, replies and peer changes reach the relay, each
    payload it forwards to the resolver was received in a query frame sealed
    with this process's key and generation, under a sequence number that no
    other forwarded payload used. *)
Theorem relay_forwards_authentic_once a es :
  auth_wf a →
  ∃ fwd : list (Z * bytes),
    sent (relay_run (newDNSRelay a) es) = snd <$> fwd ∧ NoDup (fst <$> fwd) ∧
    ∀ s p, (s, p) ∈ fwd → ∃ from err, EvQuery from (sealDNS a dnsQuery s p) err ∈ es.
Proof.
  intros Hw. destruct (relay_inv_run a es Hw) as (_ & seen & fwd & _ & Hnd & _ & Hs & Ho). eauto.
Qed.

Definition ex_events : list event :=
  [EvPeer (loopback, 5353);
   EvQuery (loopback, 5353) (sealDNS ex_auth dnsQuery 1 [byte_of 42]) false;
   EvQuery (loopback, 5353) (sealDNS ex_auth dnsQuery 1 [byte_of 42]) false].

Lemma relay_forwards_authentic_once_witness :
  ∃ fwd : list (Z * bytes),
    sent (relay_run (newDNSRelay ex_auth) ex_events) = snd <$> fwd ∧ NoDup (fst <$> fwd) ∧
    ∀ s p, (s, p) ∈ fwd → ∃ from err, EvQuery from (sealDNS ex_auth dnsQuery s p) err ∈ ex_events.
Proof. apply relay_forwards_authentic_once. split; reflexivity. Defined.

(** The duplicate is dropped. *)
Example relay_ex : sent (relay_run (newDNSRelay ex_auth) ex_events) = [[byte_of 42]].
Proof. vm_compute. reflexivity. Qed.

(** Replies carry consecutive sequence numbers and fit a UDP datagram. *)
Lemma reply_fits a s p : auth_wf a → blen p ≤ reply_capacity → blen (sealDNS a dnsReply s p) ≤ 65507.
Proof. intros. rewrite sealDNS_length by done. unfold reply_capacity in *. lia. Qed.
