(* ===== verification/UrlTestHistory.v ===== *)
(** * Probe errors and the history of URL tests

    Models [engine/sing-box/common/urltest/urltest.go]: the stages a probe error
    reports, what a failure allows to be said about its cause, and the storage
    of measured delays the selecting groups read. *)

From stdpp Require Import base list strings gmap relations.
From Stdlib Require Import ZArith Lia.
From S2P Require Import Prelude GoTime.

Local Open Scope Z_scope.

(** ** Probe errors *)

Inductive ProbeStage := StageConnect | StageTLS | StageResponse | StageDNS | StageLeaseExpired.

#[export] Instance ProbeStage_eq_dec : EqDecision ProbeStage.
Proof. solve_decision. Defined.

(** A Go error as the chain that [errors.Is] and [errors.As] walk.  [NNet]
    stands for any other error that implements [net.Error], [NOther] for any
    error that does not.  A system error number implements [net.Error] too, and
    so does [net.ErrClosed], which is never a timeout. *)
Inductive err_node :=
| NCanceled
| NDeadline
| NDNS (timeout : bool)
| NOp (net : string) (timeout : bool)
| NProbe (stage : ProbeStage)
| NErrno (code : Z) (timeout : bool)
| NNet (timeout : bool)
| NEOF
| NUnexpectedEOF
| NClosed
| NClosedPipe
| NCertificate
| NOwnedInvalid
| NOther.

#[export] Instance err_node_eq_dec : EqDecision err_node.
Proof. solve_decision. Defined.

Definition goerr : Type := list err_node.

(** [Error()] of a probe error. *)
Definition probe_message (s : ProbeStage) : string :=
  match s with
  | StageConnect => "URL probe connection failed"
  | StageTLS => "URL probe TLS negotiation failed"
  | StageResponse => "URL probe response failed"
  | StageDNS => "URL probe DNS resolution failed"
  | StageLeaseExpired => "Smart Access lease expired"
  end.

(** [errors.As] to [net.Error]: the first node of the chain that implements it. *)
Fixpoint as_net_timeout (e : goerr) : option bool :=
  match e with
  | [] => None
  | NDeadline :: _ => Some true
  | NDNS t :: _ | NOp _ t :: _ | NErrno _ t :: _ | NNet t :: _ => Some t
  | NClosed :: _ => Some false
  | _ :: e => as_net_timeout e
  end.
Fixpoint as_op (e : goerr) : option string :=
  match e with [] => None | NOp n _ :: _ => Some n | _ :: e => as_op e end.
Fixpoint as_probe (e : goerr) : option ProbeStage :=
  match e with [] => None | NProbe s :: _ => Some s | _ :: e => as_probe e end.
Definition is_canceled (n : err_node) : bool := match n with NCanceled => true | _ => false end.
Definition is_deadline (n : err_node) : bool := match n with NDeadline => true | _ => false end.
Definition is_dns (n : err_node) : bool := match n with NDNS _ => true | _ => false end.

Definition ObservedFailure (err : option goerr) : string :=
  match err with
  | None => ""
  | Some e =>
      if existsb is_canceled e then ""
      else if existsb is_dns e then "dns_lookup"
      else if negb (existsb is_deadline e) && negb (default false (as_net_timeout e)) then ""
      else
        match as_op e with
        | Some net =>
            if bool_decide (net = "udp") || bool_decide (net = "udp4") || bool_decide (net = "udp6")
            then "udp_timeout"
            else match as_probe e with
                 | Some StageTLS => "tls_timeout"
                 | Some StageResponse => "response_timeout"
                 | _ => ""
                 end
        | None => match as_probe e with
                  | Some StageTLS => "tls_timeout"
                  | Some StageResponse => "response_timeout"
                  | _ => ""
                  end
        end
  end.

(** ** The storage of measured delays

    Readers keep the pointer they loaded after the lock is released, and a
    producer may reuse the object it passed in, so the entries are objects of a
    heap and the table maps tags to pointers. *)

Record URLTestHistory := mkHistory { Time : time; Delay : Z; IpInfo : option nat; IsFromCache : bool }.

#[export] Instance eta_URLTestHistory : Eta URLTestHistory := λ h,
  mkHistory (Time h) (Delay h) (IpInfo h) (IsFromCache h).

(** A failed test is recorded as this delay. *)
Definition unavailable_delay : Z := 65535.

(** [emitted] is the sequence of notified hooks. *)
Record HistoryStorage := mkStorage {
  delayHistory : gmap string (option nat);
  objects : gmap nat URLTestHistory;
  nextObject : nat;
  updateHook : option nat;
  updateHooks : list nat;
  emitted : list nat
}.

#[export] Instance eta_HistoryStorage : Eta HistoryStorage := λ s,
  mkStorage (delayHistory s) (objects s) (nextObject s) (updateHook s) (updateHooks s) (emitted s).

Definition NewHistoryStorage : HistoryStorage := mkStorage ∅ ∅ 0 None [] [].

Definition SetHook (hook : option nat) (s : HistoryStorage) : HistoryStorage := s <| updateHook := hook |>.
Definition AddUpdateHook (hook : nat) (s : HistoryStorage) : HistoryStorage := s <| updateHooks ::= λ l, l ++ [hook] |>.
Definition storage_Close (s : HistoryStorage) : HistoryStorage := s <| updateHook := None |> <| updateHooks := [] |>.

Definition notifyUpdated (s : HistoryStorage) : HistoryStorage :=
  s <| emitted ::= λ l, l ++ option_list (updateHook s) ++ updateHooks s |>.

(** The pointer a reader gets, and what it points to. *)
Definition LoadURLTestHistory (tag : string) (s : HistoryStorage) : option nat := mjoin (delayHistory s !! tag).
Definition loaded (tag : string) (s : HistoryStorage) : option URLTestHistory :=
  LoadURLTestHistory tag s ≫= λ p, objects s !! p.

Definition alloc (h : URLTestHistory) (s : HistoryStorage) : nat * HistoryStorage :=
  (nextObject s, s <| objects ::= insert (nextObject s) h |> <| nextObject ::= S |>).

(** The entry is put under the tag; [None] is a nil history. *)
Definition put_history (tag : string) (h : option URLTestHistory) (s : HistoryStorage) : option nat * HistoryStorage :=
  match h with
  | None => (None, s <| delayHistory ::= insert tag None |>)
  | Some h => let '(p, s) := alloc h s in (Some p, s <| delayHistory ::= insert tag (Some p) |>)
  end.

Definition StoreURLTestHistory (tag : string) (history : option URLTestHistory) (s : HistoryStorage)
    : option nat * HistoryStorage :=
  let updated :=
    match history with
    | None => None
    | Some h =>
        Some match loaded tag s with
             | Some old =>
                 let u := old <| Delay := Delay h |> <| Time := Time h |> in
                 match IpInfo h with Some i => u <| IpInfo := Some i |> | None => u end
             | None => h
             end
    end in
  let '(p, s) := put_history tag updated s in (p, notifyUpdated s).

Definition DeleteURLTestHistory (tag : string) (now : time) (s : HistoryStorage) : HistoryStorage :=
  (StoreURLTestHistory tag (Some (mkHistory now unavailable_delay None false)) s).2.

Definition AddOnlyIpToHistory (tag : string) (history : option URLTestHistory) (s : HistoryStorage) : HistoryStorage :=
  let updated :=
    match history with
    | None => None
    | Some h => Some match loaded tag s with Some old => old <| IpInfo := IpInfo h |> | None => h end
    end in
  notifyUpdated (put_history tag updated s).2.

Inductive storage_step (s : HistoryStorage) : HistoryStorage → Prop :=
| sstep_store tag h : storage_step s (StoreURLTestHistory tag h s).2
| sstep_delete tag now : storage_step s (DeleteURLTestHistory tag now s)
| sstep_ip tag h : storage_step s (AddOnlyIpToHistory tag h s)
| sstep_hook h : storage_step s (SetHook h s)
| sstep_add_hook h : storage_step s (AddUpdateHook h s)
| sstep_notify : storage_step s (notifyUpdated s)
| sstep_close : storage_step s (storage_Close s).

(** Pointers of the table are allocated, so a new object never replaces one. *)
Record storage_inv (s : HistoryStorage) : Prop := mkStorageInv {
  si_alloc : ∀ p h, objects s !! p = Some h → (p < nextObject s)%nat;
  si_table : ∀ tag p, delayHistory s !! tag = Some (Some p) → is_Some (objects s !! p)
}.

Lemma put_history_spec tag h s :
  storage_inv s →
  storage_inv (put_history tag h s).2 ∧ objects s ⊆ objects (put_history tag h s).2 ∧
  loaded tag (put_history tag h s).2 = h ∧
  (∀ t, t ≠ tag → loaded t (put_history tag h s).2 = loaded t s) ∧
  (∀ p, (put_history tag h s).1 = Some p → objects s !! p = None).
Proof.
  intros [A T]. assert (Hn : objects s !! nextObject s = None).
  { destruct (objects s !! nextObject s) eqn:E; [|done]. apply A in E. lia. }
  unfold loaded, LoadURLTestHistory. destruct h as [h|]; simpl.
  - split_and!.
    + split; simpl.
      * intros p h'. case_key (nextObject s) p; [lia|]. intros ?%A. lia.
      * intros t p. case_key tag t; [intros [= <-]; by rewrite lookup_insert_eq|].
        intros Hp%T. case_key (nextObject s) p; done.
    + by apply insert_subseteq.
    + rewrite lookup_insert_eq; simpl; by rewrite lookup_insert_eq.
    + intros t Ht. rewrite lookup_insert_ne by done. destruct (delayHistory s !! t) as [[p|]|] eqn:E; simpl; try done.
      apply T in E. rewrite lookup_insert_ne; [done|]. intros <-. rewrite Hn in E. by destruct E.
    + by intros p [= <-].
  - split_and!; [|done| | |done].
    + split; simpl; [done|]. intros t p. case_key tag t; [done|]. apply T.
    + by rewrite lookup_insert_eq.
    + intros t Ht. by rewrite lookup_insert_ne.
Qed.

Lemma storage_step_ok s s' : storage_step s s' → storage_inv s → storage_inv s' ∧ objects s ⊆ objects s'.
Proof.
  intros H I. assert (Hput : ∀ tag h, storage_inv (notifyUpdated (put_history tag h s).2) ∧
    objects s ⊆ objects (notifyUpdated (put_history tag h s).2)).
  { intros tag h. destruct (put_history_spec tag h s I) as ([A T] & ? & _). split; [split; [exact A|exact T]|done]. }
  destruct H; try (split; [destruct I; by split|done]).
  - unfold StoreURLTestHistory. rewrite surjective_pairing with (p := put_history _ _ _). apply Hput.
  - unfold DeleteURLTestHistory, StoreURLTestHistory. rewrite surjective_pairing with (p := put_history _ _ _). apply Hput.
  - apply Hput.
Qed.

Lemma storage_steps_ok s s' : rtc storage_step s s' → storage_inv s → storage_inv s' ∧ objects s ⊆ objects s'.
Proof.
  induction 1 as [|s1 s2 s3 H1 _ IH]; [done|]. intros I. destruct (storage_step_ok _ _ H1 I) as [I2 ?].
  destruct (IH I2). split; [done|by etrans].
Qed.

Lemma storage_inv_new : storage_inv NewHistoryStorage.
Proof. split; set_solver. Qed.

(** The storage hands out snapshots: what a reader loaded keeps its contents
    through every later operation, and a stored entry is a new object, never the
    producer's.  Storing under a tag changes exactly that tag: the delay and the
    time are the new ones, the address information is replaced only by new
    information, the cache mark of an existing entry stays; deleting records the
    unavailable delay without losing the address information; adding address
    information leaves the measured delay alone. *)
Theorem history_snapshots s s' tag p h :
  rtc storage_step NewHistoryStorage s → rtc storage_step s s' →
  LoadURLTestHistory tag s = Some p → objects s !! p = Some h →
  objects s' !! p = Some h ∧
  (∀ t x, (StoreURLTestHistory t x s).1 ≠ Some p) ∧
  (∀ x, loaded tag (StoreURLTestHistory tag (Some x) s).2 =
     Some (mkHistory (Time x) (Delay x) (match IpInfo x with Some i => Some i | None => IpInfo h end) (IsFromCache h))) ∧
  (∀ now, loaded tag (DeleteURLTestHistory tag now s) = Some (mkHistory now unavailable_delay (IpInfo h) (IsFromCache h))) ∧
  (∀ x, loaded tag (AddOnlyIpToHistory tag (Some x) s) = Some (mkHistory (Time h) (Delay h) (IpInfo x) (IsFromCache h))) ∧
  (∀ t x, t ≠ tag → loaded tag (StoreURLTestHistory t x s).2 = Some h ∧ loaded tag (AddOnlyIpToHistory t x s) = Some h).
Proof.
  intros R R' Hp Hh. destruct (storage_steps_ok _ _ R storage_inv_new) as [I _].
  destruct (storage_steps_ok _ _ R' I) as [_ Hs].
  assert (Hl : loaded tag s = Some h) by (unfold loaded; by rewrite Hp).
  assert (Hput : ∀ t x, loaded t (notifyUpdated (put_history t x s).2) = x) by (intros; by apply put_history_spec).
  assert (Hne : ∀ t x, t ≠ tag → loaded tag (notifyUpdated (put_history t x s).2) = Some h).
  { intros t x Ht. rewrite <- Hl. by apply put_history_spec. }
  split_and!.
  - by eapply lookup_weaken.
  - intros t x. unfold StoreURLTestHistory. rewrite surjective_pairing with (p := put_history _ _ _). cbn [fst].
    intros E. apply (put_history_spec t _ s I) in E. congruence.
  - intros x. unfold StoreURLTestHistory. rewrite surjective_pairing with (p := put_history _ _ _). cbn [snd].
    rewrite Hput, Hl. destruct x as [? ? [i|] ?]; done.
  - intros now. unfold DeleteURLTestHistory, StoreURLTestHistory. rewrite surjective_pairing with (p := put_history _ _ _).
    cbn [snd]. by rewrite Hput, Hl.
  - intros x. unfold AddOnlyIpToHistory. by rewrite Hput, Hl.
  - intros t x Ht. split; [|by apply Hne]. unfold StoreURLTestHistory.
    rewrite surjective_pairing with (p := put_history _ _ _). by apply Hne.
Qed.

Definition ex_history : URLTestHistory := mkHistory (mkTime 5 None) 120 (Some 1%nat) true.
Definition ex_storage : HistoryStorage := (StoreURLTestHistory "a" (Some ex_history) NewHistoryStorage).2.

Lemma history_snapshots_witness :
  objects (DeleteURLTestHistory "a" (mkTime 9 None) ex_storage) !! 0%nat = Some ex_history ∧
  loaded "a" (DeleteURLTestHistory "a" (mkTime 9 None) ex_storage) = Some (mkHistory (mkTime 9 None) 65535 (Some 1%nat) true).
Proof.
  destruct (history_snapshots ex_storage (DeleteURLTestHistory "a" (mkTime 9 None) ex_storage) "a" 0 ex_history
    (rtc_once _ _ (sstep_store NewHistoryStorage "a" (Some ex_history)))
    (rtc_once _ _ (sstep_delete ex_storage "a" (mkTime 9 None))) ltac:(reflexivity) ltac:(reflexivity))
    as (H1 & _ & _ & H4 & _).
  split; [exact H1|exact (H4 (mkTime 9 None))].
Defined.
