(* ===== verification/FailureCodes.v ===== *)
(** * Closed failure codes

    Models the two classifiers that turn a Go error into a code of the closed
    catalog before anything is reported to the host:
    [ClassifyStartError] of [internal/observability/emitter.go], which the
    desktop core uses, and [classifyOperationalStartError] of
    [engine/sing-box/experimental/libbox/operational_events.go], its Android
    counterpart; and [runtimeFailure] of [v2/hcore/custom.go], the error that
    carries such a code. *)

From stdpp Require Import base list strings.
From Stdlib Require Import ZArith Lia Ascii.
From S2P Require Import Prelude GoBytes UrlTestHistory.

Local Open Scope Z_scope.

(** ** Errors

    An error is a node of the kinds of [UrlTestHistory] with its message and the
    errors it wraps, in order: [errors.Is] and [errors.As] visit it in preorder,
    the order of [chain]. *)
Inductive gerr :=
| GErr (node : err_node) (msg : string) (wrapped : list gerr).

Definition node_of (e : gerr) : err_node := let 'GErr n _ _ := e in n.
Definition wrapped_of (e : gerr) : list gerr := let 'GErr _ _ l := e in l.

(** [err.Error()]; the message of a probe error depends on its stage only. *)
Definition message_of (e : gerr) : string :=
  match e with
  | GErr (NProbe s) _ _ => probe_message s
  | GErr _ m _ => m
  end.

Fixpoint chain (e : gerr) : goerr :=
  match e with
  | GErr n _ l => n :: (fix go l := match l with [] => [] | e :: l => chain e ++ go l end) l
  end.

(** [errors.As] to a probe error: the [Err] field of the first one, which the
    zero value of the field leaves nil. *)
Fixpoint find_probe (e : gerr) : option (option gerr) :=
  match e with
  | GErr (NProbe _) _ l => Some (head l)
  | GErr _ _ l =>
      (fix go l := match l with
                   | [] => None
                   | e :: l => match find_probe e with Some r => Some r | None => go l end
                   end) l
  end.

(** Every probe error of the tree has its cause. *)
Fixpoint probes_caused (e : gerr) : bool :=
  match e with
  | GErr n _ l =>
      match n, l with NProbe _, [] => false | _, _ => true end &&
      (fix go l := match l with [] => true | e :: l => probes_caused e && go l end) l
  end.

(** ** The catalog *)

Definition known_codes : list string :=
  ["CORE-003"; "CORE-005"; "CORE-006"; "CORE-008"; "EGRESS-001"; "DNS-002"; "TRANSPORT-001"; "TRANSPORT-002";
   "TRANSPORT-003"; "TRANSPORT-004"; "TRANSPORT-005"; "TRANSPORT-006"; "TRANSPORT-007"].

Definition isKnownErrorCode (code : string) : bool := bool_decide (code ∈ known_codes).

(** ** The classifiers *)

(** [runtime.GOOS == "windows"] and [syscall.ECONNREFUSED] of the platform. *)
Record platform := mkPlatform { p_windows : bool; p_ECONNREFUSED : Z }.

Definition is_errno (code : Z) (n : err_node) : bool :=
  match n with NErrno c _ => c =? code | _ => false end.
Fixpoint as_errno (e : goerr) : option Z :=
  match e with [] => None | NErrno c _ :: _ => Some c | _ :: e => as_errno e end.

Definition any_marker (message : bytes) (markers : list string) : bool :=
  existsb (λ m, contains_bytes message (list_of_str m)) markers.

Definition timeout_markers : list string := ["timeout"; "timed out"; "deadline exceeded"].
Definition refused_markers : list string := ["connection refused"; "actively refused"].
Definition auth_markers : list string :=
  ["authentication"; "unauthorized"; "forbidden"; "invalid credential"; "bad credential"; "access denied";
   "permission denied"].
Definition handshake_markers : list string :=
  ["handshake"; "protocol negotiation"; "protocol version"; "tls alert"; "alpn"; "unexpected eof";
   "malformed response"; "version mismatch"].
Definition config_markers : list string :=
  ["config"; "parse"; "unknown field"; "unsupported option"; "invalid option"; "invalid profile"].
Definition network_markers : list string :=
  ["transport"; "dial"; "connect"; "network is unreachable"; "connection reset"; "no route to host"; "broken pipe"].

(** The text part both classifiers end with. *)
Definition classify_message (message : bytes) : string :=
  if any_marker message timeout_markers then "TRANSPORT-001"
  else if any_marker message refused_markers then "TRANSPORT-002"
  else if any_marker message auth_markers then "TRANSPORT-003"
  else if any_marker message handshake_markers then "TRANSPORT-004"
  else if any_marker message config_markers then "CORE-005"
  else if any_marker message network_markers then "CORE-006"
  else "CORE-003".

(** What the typed part of the error says, before any text is looked at. *)
Definition classify_typed (p : platform) (e : gerr) : option string :=
  let observed := ObservedFailure (Some (chain e)) in
  if bool_decide (observed = "dns_lookup") then Some "DNS-002"
  else if bool_decide (observed = "udp_timeout") then Some "TRANSPORT-005"
  else if bool_decide (observed = "tls_timeout") then Some "TRANSPORT-006"
  else if bool_decide (observed = "response_timeout") then Some "TRANSPORT-007"
  else if existsb is_deadline (chain e) then Some "TRANSPORT-001"
  else if default false (as_net_timeout (chain e)) then Some "TRANSPORT-001"
  else if existsb (is_errno (p_ECONNREFUSED p)) (chain e) then Some "TRANSPORT-002"
  else None.

(** The text looked at is the one of the cause of a probe error, if there is
    one; calling [Error] on a nil cause panics. *)
Definition classify_text (e : gerr) : outcome string :=
  match find_probe e with
  | Some None => Panic
  | Some (Some cause) => Ret (classify_message (to_lower (list_of_str (message_of cause))))
  | None => Ret (classify_message (to_lower (list_of_str (message_of e))))
  end.

Definition ClassifyStartError (p : platform) (err : option gerr) : outcome string :=
  match err with
  | None => Ret ""
  | Some e =>
      if isKnownErrorCode (message_of e) then Ret (message_of e)
      else
        match classify_typed p e with
        | Some code => Ret code
        | None =>
            if p_windows p &&
               match as_errno (chain e) with Some c => (c =? 1225) || (c =? 10061) | None => false end
            then Ret "TRANSPORT-002"
            else classify_text e
        end
  end.

Definition classifyOperationalStartError (p : platform) (err : option gerr) : outcome string :=
  match err with
  | None => Ret ""
  | Some e =>
      match classify_typed p e with
      | Some code => Ret code
      | None => classify_text e
      end
  end.

(** [runtimeFailure]: the error that replaces [err], built by [errorWrapper]. *)
Definition runtimeFailure (code : string) (cause : gerr) : gerr := GErr NOther code [cause].
Definition errorWrapper (p : platform) (err : gerr) : outcome gerr :=
  match ClassifyStartError p (Some err) with
  | Ret code => Ret (runtimeFailure code err)
  | Fail e => Fail e
  | Panic => Panic
  end.

(** ** Lemmas *)

Lemma isKnownErrorCode_spec code : isKnownErrorCode code = true ↔ code ∈ known_codes.
Proof. apply bool_decide_eq_true. Qed.

(** A code of the list is known, decided by evaluation. *)
Ltac known_code := apply isKnownErrorCode_spec; reflexivity.

Lemma classify_message_known m : classify_message m ∈ known_codes.
Proof. unfold classify_message. repeat case_match; known_code. Qed.

Lemma classify_typed_known p e code : classify_typed p e = Some code → code ∈ known_codes.
Proof. unfold classify_typed. intros H. repeat case_match; simplify_eq; known_code. Qed.

(** Induction over the wrapped errors. *)
Lemma gerr_rect_list (P : gerr → Prop) :
  (∀ n m l, Forall P l → P (GErr n m l)) → ∀ e, P e.
Proof.
  intros H. fix IH 1. intros [n m l]. apply H. induction l as [|e l IHl]; constructor; [apply IH|exact IHl].
Qed.

Lemma find_probe_caused e : probes_caused e = true → find_probe e ≠ Some None.
Proof.
  induction e as [n m l IH] using gerr_rect_list. intros [Hn Hl]%andb_true_iff.
  assert (G : (fix go l := match l with
                   | [] => None
                   | e :: l => match find_probe e with Some r => Some r | None => go l end
                   end) l ≠ Some None).
  { clear Hn. induction IH as [|e l He _ IHl]; [done|]. apply andb_true_iff in Hl as [H1 H2].
    destruct (find_probe e) as [r|] eqn:E; [intros [= ->]; by apply He|by apply IHl]. }
  destruct n; try exact G. destruct l; [done|]. simpl. congruence.
Qed.

Lemma classify_text_known e : probes_caused e = true → ∃ code, classify_text e = Ret code ∧ code ∈ known_codes.
Proof.
  intros H%find_probe_caused. unfold classify_text.
  destruct (find_probe e) as [[c|]|]; [|done|]; eexists; (split; [done|apply classify_message_known]).
Qed.

Lemma ClassifyStartError_known p e :
  probes_caused e = true → ∃ code, ClassifyStartError p (Some e) = Ret code ∧ code ∈ known_codes.
Proof.
  intros H. unfold ClassifyStartError. destruct (isKnownErrorCode (message_of e)) eqn:K.
  { eexists. split; [done|by apply isKnownErrorCode_spec]. }
  destruct (classify_typed p e) as [c|] eqn:T; [eexists; split; [done|by eapply classify_typed_known]|].
  destruct (p_windows p && _); [eexists; split; [done|known_code]|by apply classify_text_known].
Qed.

(** Whatever the error, what is reported is a code of the closed catalog: the
    desktop and the Android classifier end without a panic on every error whose
    probe errors carry their cause, give a known code, and agree unless the
    message already is a code or a Windows socket number decides.  A fact of
    the error's types takes precedence over every text in it.  The error that
    replaces a start failure shows only its code, keeps the typed causes, and
    is classified as the same code again. *)
Theorem failure_codes_closed p e :
  probes_caused e = true →
  (∃ code, ClassifyStartError p (Some e) = Ret code ∧ code ∈ known_codes) ∧
  (∃ code, classifyOperationalStartError p (Some e) = Ret code ∧ code ∈ known_codes) ∧
  (isKnownErrorCode (message_of e) = false → p_windows p = false →
     ClassifyStartError p (Some e) = classifyOperationalStartError p (Some e)) ∧
  (∀ e' code, chain e' = chain e → isKnownErrorCode (message_of e') = false → classify_typed p e = Some code →
     ClassifyStartError p (Some e') = Ret code ∧ classifyOperationalStartError p (Some e') = Ret code) ∧
  (∃ f, errorWrapper p e = Ret f ∧ ClassifyStartError p (Some e) = Ret (message_of f) ∧
     ClassifyStartError p (Some f) = Ret (message_of f) ∧ chain f = NOther :: chain e).
Proof.
  intros H. destruct (ClassifyStartError_known p e H) as (code & HC & HK). split_and!.
  - eauto.
  - unfold classifyOperationalStartError. destruct (classify_typed p e) eqn:T; [|by apply classify_text_known].
    eexists. split; [done|by eapply classify_typed_known].
  - unfold ClassifyStartError, classifyOperationalStartError. intros -> ->. by destruct (classify_typed p e).
  - intros e' c Hch Hm Ht. assert (Ht' : classify_typed p e' = Some c) by (unfold classify_typed; by rewrite Hch).
    unfold ClassifyStartError, classifyOperationalStartError. by rewrite Hm, Ht'.
  - unfold errorWrapper. rewrite HC. eexists. split_and!; [done|done| |].
    + unfold ClassifyStartError. cbn [message_of runtimeFailure]. apply isKnownErrorCode_spec in HK. by rewrite HK.
    + simpl. by rewrite app_nil_r.
Qed.

(** A TLS handshake that timed out behind a probe error, on Linux. *)
Definition ex_linux : platform := mkPlatform false 111.
Definition ex_tls_timeout : gerr :=
  GErr (NProbe StageTLS) "" [GErr (NOp "tcp" true) "read tcp 203.0.113.42:443: i/o timeout" [GErr (NNet true) "i/o timeout" []]].

Lemma failure_codes_closed_witness :
  ClassifyStartError ex_linux (Some ex_tls_timeout) = Ret "TRANSPORT-006" ∧
  (∃ f, errorWrapper ex_linux ex_tls_timeout = Ret f ∧ message_of f = "TRANSPORT-006").
Proof.
  destruct (failure_codes_closed ex_linux ex_tls_timeout ltac:(reflexivity)) as (_ & _ & _ & H & f & H1 & H2 & _ & _).
  destruct (H ex_tls_timeout "TRANSPORT-006" eq_refl ltac:(reflexivity) ltac:(reflexivity)) as [E _].
  split; [exact E|]. exists f. split; [exact H1|]. rewrite E in H2. congruence.
Defined.

(** An error text with a marker of a later class is classified by the first
    class it has a marker of. *)
Lemma text_precedence :
  ClassifyStartError ex_linux (Some (GErr NOther "Dial TCP: Connection Refused" [])) = Ret "TRANSPORT-002" ∧
  ClassifyStartError ex_linux (Some (GErr NOther "dial failed: secret" [])) = Ret "CORE-006" ∧
  ClassifyStartError ex_linux (Some (GErr (NProbe StageConnect) "" [])) = Panic.
Proof. split_and!; vm_compute; reflexivity. Qed.
