(* ===== verification/Observability.v ===== *)
(** * Operational events

    Models [internal/observability/event.go] and [emitter.go], and the DNS trace
    of [v2/hcore/operational_events.go]: the closed vocabulary of events, the
    emitter that numbers them under its lock and hands them to a bounded queue
    after releasing it, and the goroutine that delivers the queue to the host.

    An [emit] call is two steps, the locked section and the non-blocking send,
    and a delivery is three, the receive, the load of the sink and its call; the
    steps of different goroutines interleave freely. *)

From stdpp Require Import base list strings gmap relations.
From Stdlib Require Import ZArith Lia Ascii.
From S2P Require Import Prelude GoTime GoBytes UrlTestHistory FailureCodes.

Local Open Scope Z_scope.

(** ** The vocabulary *)

Definition SchemaVersion : Z := 1.
Definition EventABIVersion : Z := 1.
Definition MaximumPendingEvents : Z := 128.

Definition SeverityInfo : string := "info".
Definition SeverityError : string := "error".
Definition OutcomeStarted : string := "started".
Definition OutcomeSucceeded : string := "succeeded".
Definition OutcomeFailed : string := "failed".

Record EventDefinition := mkDefinition { Name : string; Subsystem : string; Stage : string; Phase : string }.

#[export] Instance EventDefinition_eq_dec : EqDecision EventDefinition.
Proof. solve_decision. Defined.

Definition RuntimeInitialize := mkDefinition "core.runtime.initialize" "core" "initialize" "initialization".
Definition RuntimeStart := mkDefinition "core.runtime.start" "core" "start" "core_start".
Definition RuntimeStop := mkDefinition "core.runtime.stop" "core" "stop" "stop".
Definition EgressProbe := mkDefinition "core.egress.probe" "egress" "verify" "egress".
Definition DNSProbeReceive := mkDefinition "core.dns.probe" "dns" "receive" "dns".
Definition DNSProbeExchange := mkDefinition "core.dns.probe" "dns" "exchange" "dns".
Definition DNSProbeReply := mkDefinition "core.dns.probe" "dns" "reply" "dns".

Definition definitions : list EventDefinition :=
  [RuntimeInitialize; RuntimeStart; RuntimeStop; EgressProbe; DNSProbeReceive; DNSProbeExchange; DNSProbeReply].

Record Event := mkEvent {
  ev_schema : Z; ev_abi : Z; OccurredAtUTC : time;
  RunID : string; AttemptID : string; Generation : Z; Sequence : Z;
  ev_definition : EventDefinition;
  Severity : string; Outcome : string; ErrorCode : string
}.

(** The severity of an admissible event. *)
Definition validateEvent (definition : EventDefinition) (outcome errorCode : string) : option string :=
  let isd d := bool_decide (definition = d) in
  let out o := bool_decide (outcome = o) in
  if negb (isd RuntimeInitialize) && negb (isd RuntimeStart) && negb (isd RuntimeStop) && negb (isd EgressProbe) &&
     negb (isd DNSProbeReceive) && negb (isd DNSProbeExchange) && negb (isd DNSProbeReply) then None
  else if (isd DNSProbeReceive && negb (out OutcomeStarted)) ||
          ((isd DNSProbeExchange || isd DNSProbeReply) && (negb (out OutcomeSucceeded) && negb (out OutcomeFailed)))
  then None
  else if (isd DNSProbeExchange || isd DNSProbeReply) && out OutcomeFailed && negb (bool_decide (errorCode = "DNS-002"))
  then None
  else if negb (out OutcomeStarted) && negb (out OutcomeSucceeded) && negb (out OutcomeFailed) then None
  else if out OutcomeFailed then (if negb (isKnownErrorCode errorCode) then None else Some SeverityError)
  else if negb (bool_decide (errorCode = "")) then None
  else Some SeverityInfo.

(** [^[0-9a-f]{8}-[0-9a-f]{4}-[1-5][0-9a-f]{3}-[89ab][0-9a-f]{3}-[0-9a-f]{12}$] *)
Definition uuid_hex (c : ascii) : bool :=
  let n := byte_val c in ((48 <=? n) && (n <=? 57)) || ((97 <=? n) && (n <=? 102)).
Definition uuid_version (c : ascii) : bool := let n := byte_val c in (49 <=? n) && (n <=? 53).
Definition uuid_variant (c : ascii) : bool :=
  let n := byte_val c in (n =? 56) || (n =? 57) || (n =? 97) || (n =? 98).
Definition uuid_dash (c : ascii) : bool := byte_val c =? 45.

Definition uuid_shape : list (ascii → bool) :=
  replicate 8 uuid_hex ++ [uuid_dash] ++ replicate 4 uuid_hex ++ [uuid_dash; uuid_version] ++ replicate 3 uuid_hex ++
  [uuid_dash; uuid_variant] ++ replicate 3 uuid_hex ++ [uuid_dash] ++ replicate 12 uuid_hex.

Fixpoint match_shape (shape : list (ascii → bool)) (b : bytes) : bool :=
  match shape, b with
  | [], [] => true
  | p :: shape, c :: b => p c && match_shape shape b
  | _, _ => false
  end.

Definition uuidPattern (s : string) : bool := match_shape uuid_shape (list_of_str s).

(** ** The emitter *)

Record Emitter := mkEmitter {
  sink : option nat;
  runID : string;
  attemptID : string;
  generation : Z;
  sequence : Z;
  firstOwnedDNSReceived : bool;
  capacity : nat;
  pending : list Event;
  enqueued : Z;
  dropped : Z;
  delivered : Z;
  panicked : Z
}.

#[export] Instance eta_Emitter : Eta Emitter := λ e,
  mkEmitter (sink e) (runID e) (attemptID e) (generation e) (sequence e) (firstOwnedDNSReceived e) (capacity e)
    (pending e) (enqueued e) (dropped e) (delivered e) (panicked e).

Definition NewEmitter (maximumPending : Z) : Emitter :=
  let maximumPending :=
    if (maximumPending <? 1) || (MaximumPendingEvents <? maximumPending) then MaximumPendingEvents else maximumPending in
  mkEmitter None "" "" 0 0 false (Z.to_nat maximumPending) [] 0 0 0 0.

Definition SetSink (s : option nat) (e : Emitter) : Emitter := e <| sink := s |>.

(** [int64(^uint32(0)>>1)] *)
Definition maximum_generation : Z := 2 ^ 31 - 1.

Definition Configure (run attempt : string) (gen : Z) (e : Emitter) : option string * Emitter :=
  if negb (uuidPattern run) then (Some "invalid run identifier", e)
  else if negb (uuidPattern attempt) then (Some "invalid attempt identifier", e)
  else if (gen <? 1) || (maximum_generation <? gen) then (Some "invalid generation", e)
  else if gen <? generation e then (Some "stale generation", e)
  else
    let e := if generation e <? gen then e <| sequence := 0 |> <| firstOwnedDNSReceived := false |> else e in
    (None, e <| runID := run |> <| attemptID := attempt |> <| generation := gen |>).

Record eventContext := mkContext { c_runID : string; c_attemptID : string; c_generation : Z }.

(** The owner a captured emit function carries; [None] is the nil function. *)
Definition CaptureContext (e : Emitter) : option eventContext :=
  if bool_decide (is_Some (sink e)) && (0 <? generation e)
  then Some (mkContext (runID e) (attemptID e) (generation e)) else None.

Definition owner_current (owner : option eventContext) (e : Emitter) : bool :=
  match owner with
  | None => true
  | Some o => bool_decide (runID e = c_runID o) && bool_decide (attemptID e = c_attemptID o) &&
              (generation e =? c_generation o)
  end.

(** [int64] addition *)
Definition i64 (z : Z) : Z := wrap 64 (z + 2 ^ 63) - 2 ^ 63.

(** The locked section of [emit]: the event it builds, if any. *)
Definition emit_locked (definition : EventDefinition) (outcome errorCode : string) (owner : option eventContext)
    (now : time) (e : Emitter) : option Event * Emitter :=
  match validateEvent definition outcome errorCode with
  | None => (None, e)
  | Some severity =>
      if negb (bool_decide (is_Some (sink e))) || (generation e <? 1) then (None, e)
      else if negb (owner_current owner e) then (None, e)
      else if bool_decide (definition = DNSProbeReceive) && firstOwnedDNSReceived e then (None, e)
      else
        let e := if bool_decide (definition = DNSProbeReceive) then e <| firstOwnedDNSReceived := true |> else e in
        let e := e <| sequence ::= λ s, i64 (s + 1) |> in
        (Some (mkEvent SchemaVersion EventABIVersion now (runID e) (attemptID e) (generation e) (sequence e)
                 definition severity outcome errorCode), e)
  end.

(** The non-blocking send that follows. *)
Definition emit_select (event : Event) (e : Emitter) : bool * Emitter :=
  if (length (pending e) <? capacity e)%nat
  then (true, e <| pending ::= λ q, q ++ [event] |> <| enqueued ::= λ n, u64 (n + 1) |>)
  else (false, e <| dropped ::= λ n, u64 (n + 1) |>).

Definition emit (definition : EventDefinition) (outcome errorCode : string) (owner : option eventContext)
    (now : time) (e : Emitter) : bool * Emitter :=
  match emit_locked definition outcome errorCode owner now e with
  | (None, e) => (false, e)
  | (Some event, e) => emit_select event e
  end.

Definition Emit definition outcome errorCode now e := emit definition outcome errorCode None now e.

Record Snapshot := mkSnapshot {
  s_generation : Z; s_sequence : Z; s_enqueued : Z; s_dropped : Z; s_delivered : Z; s_panics : Z }.
Definition take_snapshot (e : Emitter) : Snapshot :=
  mkSnapshot (generation e) (sequence e) (enqueued e) (dropped e) (delivered e) (panicked e).

(** ** The trace of the owned DNS question *)

Inductive OwnedDNSProbeStage := OwnedDNSProbeReceive | OwnedDNSProbeExchange | OwnedDNSProbeReply | OwnedDNSProbeUnknown.

(** The event a trace call asks for; [None] when it returns false at once. *)
Definition trace_event (stage : OwnedDNSProbeStage) (ctxErr : bool) (err : option goerr)
    : option (EventDefinition * string * string) :=
  if ctxErr || match err with Some e => existsb is_canceled e | None => false end then None
  else
    let base := match stage with
                | OwnedDNSProbeReceive => Some (DNSProbeReceive, OutcomeStarted)
                | OwnedDNSProbeExchange => Some (DNSProbeExchange, OutcomeSucceeded)
                | OwnedDNSProbeReply => Some (DNSProbeReply, OutcomeSucceeded)
                | OwnedDNSProbeUnknown => None
                end in
    match base with
    | None => None
    | Some (d, o) => Some (match err with Some _ => (d, OutcomeFailed, "DNS-002") | None => (d, o, "") end)
    end.

Definition newOwnedDNSProbeTrace (e : Emitter)
    : option (OwnedDNSProbeStage → bool → option goerr → time → Emitter → bool * Emitter) :=
  match CaptureContext e with
  | None => None
  | Some owner =>
      Some (λ stage ctxErr err now e,
        match trace_event stage ctxErr err with
        | None => (false, e)
        | Some (d, o, code) => emit d o code (Some owner) now e
        end)
  end.

(** ** Goroutines

    [sending] holds the events of the [emit] calls between their locked section
    and their send, by goroutine; [worker] is where the [deliver] goroutine is;
    [calls] are the sink calls in order.  [assigned] (newest first), [lost] and
    [skipped] only record what happened: the events built, the ones a full queue
    refused, and the ones received while no sink was set. *)
Inductive wstate := Idle | Received (event : Event) | Calling (s : nat) (event : Event).

Record world := mkWorld {
  em : Emitter;
  sending : gmap nat Event;
  worker : wstate;
  calls : list (nat * Event);
  assigned : list Event;
  lost : list Event;
  skipped : list Event
}.

#[export] Instance eta_obs_world : Eta world := λ w,
  mkWorld (em w) (sending w) (worker w) (calls w) (assigned w) (lost w) (skipped w).

Definition new_world (maximumPending : Z) : world := mkWorld (NewEmitter maximumPending) ∅ Idle [] [] [] [].

Definition emit_begin (tid : nat) definition outcome errorCode owner now (w : world) : world :=
  match emit_locked definition outcome errorCode owner now (em w) with
  | (None, e) => w <| em := e |>
  | (Some event, e) => w <| em := e |> <| sending ::= insert tid event |> <| assigned ::= cons event |>
  end.

Definition emit_end (tid : nat) (event : Event) (w : world) : world :=
  let '(ok, e) := emit_select event (em w) in
  let w := w <| em := e |> <| sending ::= delete tid |> in
  if ok then w else w <| lost ::= cons event |>.

(** One step of [deliver]; [panics] is how the sink call ends.  [None]: it waits
    for an event. *)
Definition deliver (panics : bool) (w : world) : option world :=
  match worker w with
  | Idle =>
      match pending (em w) with
      | [] => None
      | event :: q => Some (w <| em ::= (λ e, e <| pending := q |>) |> <| worker := Received event |>)
      end
  | Received event =>
      match sink (em w) with
      | None => Some (w <| worker := Idle |> <| skipped ::= cons event |>)
      | Some s => Some (w <| worker := Calling s event |> <| calls ::= λ l, l ++ [(s, event)] |>)
      end
  | Calling _ _ =>
      Some (w <| worker := Idle |>
              <| em ::= (λ e, if panics then e <| panicked ::= λ n, u64 (n + 1) |>
                              else e <| delivered ::= λ n, u64 (n + 1) |>) |>)
  end.

Inductive ostep (w : world) : world → Prop :=
| os_sink s : ostep w (w <| em ::= SetSink s |>)
| os_configure run attempt gen : ostep w (w <| em ::= λ e, (Configure run attempt gen e).2 |>)
| os_begin tid d o c owner now : sending w !! tid = None → ostep w (emit_begin tid d o c owner now w)
| os_end tid event : sending w !! tid = Some event → ostep w (emit_end tid event w)
| os_deliver panics w' : deliver panics w = Some w' → ostep w w'.

(** ** Invariant *)

Definition event_key (e : Event) : Z * Z := (Generation e, Sequence e).

Fixpoint gen_count (g : Z) (l : list Event) : nat :=
  match l with [] => 0%nat | e :: l => ((if (Generation e =? g)%Z then 1 else 0) + gen_count g l)%nat end.

(** The numbering of the events built, newest first. *)
Fixpoint numbered (l : list Event) : Prop :=
  match l with
  | [] => True
  | e :: l =>
      Sequence e = i64 (Z.of_nat (S (gen_count (Generation e) l))) ∧
      (∀ e', e' ∈ l → Generation e' ≤ Generation e) ∧
      (ev_definition e = DNSProbeReceive →
         ∀ e', e' ∈ l → Generation e' = Generation e → ev_definition e' ≠ DNSProbeReceive) ∧
      numbered l
  end.

Record event_ok (e : Event) : Prop := mkEventOk {
  eo_versions : ev_schema e = SchemaVersion ∧ ev_abi e = EventABIVersion;
  eo_ids : uuidPattern (RunID e) = true ∧ uuidPattern (AttemptID e) = true;
  eo_generation : 1 ≤ Generation e ≤ maximum_generation;
  eo_valid : validateEvent (ev_definition e) (Outcome e) (ErrorCode e) = Some (Severity e)
}.

Definition held (s : wstate) : list Event := match s with Received e => [e] | _ => [] end.
Definition in_call (s : wstate) : Z := match s with Calling _ _ => 1 | _ => 0 end.

Record oinv (w : world) : Prop := mkOinv {
  oi_capacity : (1 ≤ capacity (em w) ≤ 128)%nat ∧ (length (pending (em w)) ≤ capacity (em w))%nat;
  oi_generation : 0 ≤ generation (em w) ≤ maximum_generation;
  oi_ids : 1 ≤ generation (em w) → uuidPattern (runID (em w)) = true ∧ uuidPattern (attemptID (em w)) = true;
  oi_sequence : sequence (em w) = i64 (Z.of_nat (gen_count (generation (em w)) (assigned w)));
  oi_newest : ∀ e, e ∈ assigned w → Generation e ≤ generation (em w);
  oi_dns : firstOwnedDNSReceived (em w) = false →
    ∀ e, e ∈ assigned w → Generation e = generation (em w) → ev_definition e ≠ DNSProbeReceive;
  oi_numbered : numbered (assigned w);
  oi_ok : ∀ e, e ∈ assigned w → event_ok e;
  oi_perm : assigned w ≡ₚ (map_to_list (sending w)).*2 ++ lost w ++ pending (em w) ++ held (worker w) ++
                          (calls w).*2 ++ skipped w;
  oi_dropped : dropped (em w) = u64 (Z.of_nat (length (lost w)));
  oi_enqueued : enqueued (em w) = u64 (Z.of_nat (length (pending (em w) ++ held (worker w) ++ (calls w).*2 ++ skipped w)));
  oi_delivered : u64 (delivered (em w) + panicked (em w)) = u64 (Z.of_nat (length (calls w)) - in_call (worker w));
  oi_calling : in_call (worker w) ≤ Z.of_nat (length (calls w))
}.

Lemma u64_succ a b : a = u64 b → u64 (a + 1) = u64 (b + 1).
Proof. intros ->. unfold wrap. by rewrite Zplus_mod_idemp_l. Qed.

Lemma i64_succ a b : a = i64 b → i64 (a + 1) = i64 (b + 1).
Proof.
  intros ->. unfold i64, wrap.
  replace ((b + 2 ^ 63) mod 2 ^ 64 - 2 ^ 63 + 1 + 2 ^ 63) with ((b + 2 ^ 63) mod 2 ^ 64 + 1) by lia.
  rewrite Zplus_mod_idemp_l. do 2 f_equal. lia.
Qed.

Lemma i64_small z : - 2 ^ 63 ≤ z < 2 ^ 63 → i64 z = z.
Proof. intros. unfold i64. rewrite wrap_small; lia. Qed.

Lemma gen_count_above g l : (∀ e, e ∈ l → Generation e < g) → gen_count g l = 0%nat.
Proof.
  induction l as [|e l IH]; [done|]. intros H. simpl. rewrite IH by (intros; apply H; by right).
  pose proof (H e ltac:(left)). by destruct (Z.eqb_spec (Generation e) g); [lia|].
Qed.

Lemma gen_count_length g l : (gen_count g l ≤ length l)%nat.
Proof. induction l as [|e l IH]; simpl; [done|]. destruct (_ =? _); lia. Qed.

(** What an admissible event can say. *)
Lemma validateEvent_closed d o c s :
  validateEvent d o c = Some s →
  d ∈ definitions ∧
  ((o = OutcomeFailed ∧ c ∈ known_codes ∧ s = SeverityError) ∨
   ((o = OutcomeStarted ∨ o = OutcomeSucceeded) ∧ c = "" ∧ s = SeverityInfo)).
Proof.
  unfold validateEvent. intros H. repeat case_match; simplify_eq; bsplit.
  all: rewrite ?andb_false_iff, ?negb_false_iff, ?bool_decide_eq_true in *.
  all: split; [unfold definitions; repeat match goal with H : _ ∨ _ |- _ => destruct H end; subst; set_solver|].
  - left. split; [done|]. split; [by apply isKnownErrorCode_spec|done].
  - right. split; [|done]. by destruct H3.
Qed.

(** ** Preservation *)

Lemma oinv_new n : oinv (new_world n).
Proof.
  assert ((1 ≤ capacity (NewEmitter n) ≤ 128)%nat).
  { unfold NewEmitter, MaximumPendingEvents. cbn [capacity]. destruct ((n <? 1) || (128 <? n)) eqn:E; lia. }
  split; simpl; try done; try lia; try (intros; set_solver).
  split; [done|lia].
Qed.

Lemma oinv_configure run attempt gen w :
  oinv w → oinv (w <| em ::= λ e, (Configure run attempt gen e).2 |>).
Proof.
  intros I. destruct w as [e sd wk cl asg ls sk]. unfold Configure. simpl.
  destruct (uuidPattern run) eqn:Hr; [|exact I]. destruct (uuidPattern attempt) eqn:Ha; [|exact I]. simpl.
  destruct ((gen <? 1) || (maximum_generation <? gen)) eqn:Hg; [exact I|].
  destruct (gen <? generation e) eqn:Hs; [exact I|]. destruct I as [? ? ? ? Hn ? ? ? ? ? ? ? ?]. simpl in *.
  destruct (Z.ltb_spec (generation e) gen) as [Hlt|Hge].
  - assert (Hz : gen_count gen asg = 0%nat) by (apply gen_count_above; intros x Hx%Hn; lia).
    split; simpl; try done; try lia.
    + by rewrite Hz.
    + intros x Hx%Hn. lia.
    + intros _ x Hx%Hn. lia.
  - assert (gen = generation e) as -> by lia. split; simpl; done.
Qed.

(** The event a locked section builds, and the state it leaves. *)
Lemma emit_locked_inv d o c owner now e ev e' :
  emit_locked d o c owner now e = (Some ev, e') →
  ∃ sev, validateEvent d o c = Some sev ∧ is_Some (sink e) ∧ 1 ≤ generation e ∧ owner_current owner e = true ∧
  (d = DNSProbeReceive → firstOwnedDNSReceived e = false) ∧
  e' = e <| firstOwnedDNSReceived := bool_decide (d = DNSProbeReceive) || firstOwnedDNSReceived e |>
         <| sequence := i64 (sequence e + 1) |> ∧
  ev = mkEvent SchemaVersion EventABIVersion now (runID e) (attemptID e) (generation e) (i64 (sequence e + 1)) d sev o c.
Proof.
  unfold emit_locked. intros H. destruct (validateEvent d o c) as [sev|]; [|done]. exists sev. split; [done|].
  destruct (negb _ || _) eqn:H1; [done|]. apply orb_false_iff in H1 as [H1 H2].
  apply negb_false_iff, bool_decide_eq_true in H1. apply Z.ltb_ge in H2.
  destruct (owner_current owner e); [|done]. cbn [negb] in H.
  destruct (bool_decide_reflect (d = DNSProbeReceive)) as [->|Hd].
  - simpl in H. destruct (firstOwnedDNSReceived e) eqn:Hf; [done|]. simplify_eq. destruct e; simpl in *. by subst.
  - simpl in H. simplify_eq. destruct e; simpl in *. done.
Qed.

Lemma emit_locked_none d o c owner now e e' : emit_locked d o c owner now e = (None, e') → e' = e.
Proof. unfold emit_locked. intros. repeat case_match; simplify_eq; done. Qed.

Lemma oinv_begin tid d o c owner now w :
  sending w !! tid = None → oinv w → oinv (emit_begin tid d o c owner now w).
Proof.
  intros Ht I. unfold emit_begin. destruct (emit_locked d o c owner now (em w)) as [[ev|] e'] eqn:E.
  2:{ apply emit_locked_none in E as ->. by destruct w. }
  apply emit_locked_inv in E as (sev & Hv & Hs & Hg & _ & Hd & -> & ->).
  destruct w as [e sd wk cl asg ls sk]. destruct I as [? ? Hid Hq Hn Hf Hm Ho Hp ? ? ? ?]. simpl in *.
  pose proof (i64_succ _ _ Hq) as Hq'.
  split; simpl; try done.
  - rewrite Z.eqb_refl, Hq'. f_equal. lia.
  - intros x [->|Hx]%elem_of_cons; simpl; [lia|by apply Hn].
  - intros [H1 H2]%orb_false_iff x [->|Hx]%elem_of_cons; simpl.
    + by apply bool_decide_eq_false in H1.
    + by apply Hf.
  - split_and!; [rewrite Hq'; f_equal; lia|done|intros E x Hx; apply Hf; by auto|done].
  - intros x [->|Hx]%elem_of_cons; [|by apply Ho]. split; simpl; try done; [by apply Hid|lia].
  - rewrite map_to_list_insert by done. simpl. by rewrite Hp.
Qed.

Lemma oinv_end tid ev w : sending w !! tid = Some ev → oinv w → oinv (emit_end tid ev w).
Proof.
  intros Ht I. unfold emit_end, emit_select. destruct w as [e sd wk cl asg ls sk].
  destruct I as [? ? Hid Hq Hn Hf Hm Ho Hp Hdr He ? ?]. simpl in *.
  assert (Hsd : (map_to_list sd).*2 ≡ₚ ev :: (map_to_list (delete tid sd)).*2).
  { by rewrite <- (map_to_list_delete sd tid ev) by done. }
  destruct (Nat.ltb_spec (length (pending e)) (capacity e)); split; simpl; try done.
  - rewrite length_app. simpl. lia.
  - rewrite Hp, Hsd. simpl. rewrite (Permutation_app_comm (pending e) [ev]). simpl. by rewrite <- !Permutation_middle.
  - rewrite (u64_succ _ _ He). f_equal. rewrite !length_app. simpl. lia.
  - rewrite Hp, Hsd. simpl. by rewrite <- !Permutation_middle.
  - rewrite (u64_succ _ _ Hdr). f_equal. lia.
Qed.

Lemma oinv_deliver p w w' : deliver p w = Some w' → oinv w → oinv w'.
Proof.
  intros H I. unfold deliver in H. destruct w as [e sd wk cl asg ls sk].
  destruct I as [? ? Hid Hq Hn Hf Hm Ho Hp Hdr He Hde Hca]. simpl in *.
  destruct wk as [|ev|s ev]; [destruct (pending e) as [|ev q] eqn:Eq; [done|]|destruct (sink e) as [s|]|];
    simplify_eq; split; simpl in *; try done; try lia; try by destruct p.
  - rewrite Hp. by rewrite <- !Permutation_middle.
  - rewrite He. f_equal. rewrite !length_app. simpl. rewrite !length_app. lia.
  - rewrite Hp, fmap_app, <- app_assoc. simpl. by rewrite <- !Permutation_middle.
  - rewrite He. f_equal. rewrite !length_app. simpl. rewrite !length_app, !length_fmap, length_app. simpl. lia.
  - rewrite Hde. f_equal. rewrite length_app. simpl. lia.
  - rewrite length_app. simpl. lia.
  - rewrite Hp. by rewrite <- !Permutation_middle.
  - rewrite He. f_equal. rewrite !length_app. simpl. rewrite !length_app. simpl. lia.
  - pose proof (u64_succ _ _ Hde) as Hde'. replace (Z.of_nat (length cl) - 0) with (Z.of_nat (length cl) - 1 + 1) by lia.
    rewrite <- Hde'. unfold wrap.
    destruct p; cbn [delivered panicked]; rewrite ?Zplus_mod_idemp_l, ?Zplus_mod_idemp_r; f_equal; lia.
Qed.

Lemma oinv_step w w' : ostep w w' → oinv w → oinv w'.
Proof.
  intros H I. destruct H as [s|run attempt gen|tid d o c owner now Ht|tid ev Ht|p w' Hd].
  - destruct I; by split.
  - by apply oinv_configure.
  - by apply oinv_begin.
  - by apply oinv_end.
  - by eapply oinv_deliver.
Qed.

Lemma oinv_reach n w : rtc ostep (new_world n) w → oinv w.
Proof.
  remember (new_world n) as w0 eqn:E. assert (I : oinv w0) by (subst; apply oinv_new). clear E.
  induction 1 as [|w0 w1 w2 H _ IH]; [done|]. apply IH. by eapply oinv_step.
Qed.

(** ** Numbering *)

Lemma numbered_bound l e :
  numbered l → Z.of_nat (length l) < 2 ^ 63 → e ∈ l → 1 ≤ Sequence e ≤ Z.of_nat (gen_count (Generation e) l).
Proof.
  induction l as [|x l IH]; [intros _ _ []%elem_of_nil|]. intros (Hs & _ & _ & Hl) Hb Hin. simpl in Hb.
  pose proof (gen_count_length (Generation e) l).
  apply elem_of_cons in Hin as [->|Hin]; simpl.
  - rewrite Z.eqb_refl, Hs, i64_small by lia. lia.
  - specialize (IH Hl ltac:(lia) Hin). destruct (_ =? _); lia.
Qed.

Lemma numbered_unique l : numbered l → Z.of_nat (length l) < 2 ^ 63 → NoDup (event_key <$> l).
Proof.
  induction l as [|x l IH]; [constructor|]. intros (Hs & Hg & Hd & Hl) Hb. simpl in Hb.
  constructor; [|apply IH; [done|lia]]. intros (e & [= Eg Es] & He)%list_elem_of_fmap.
  pose proof (numbered_bound l e Hl ltac:(lia) He). pose proof (gen_count_length (Generation e) l).
  rewrite <- Eg in *. rewrite i64_small in Hs by lia. lia.
Qed.

Definition is_receive (g : Z) (e : Event) : Prop := ev_definition e = DNSProbeReceive ∧ Generation e = g.
#[export] Instance is_receive_dec g e : Decision (is_receive g e).
Proof. apply _. Defined.

Lemma numbered_receive l g :
  numbered l →
  (length (filter (is_receive g) l) ≤ 1)%nat.
Proof.
  induction l as [|x l IH]; [simpl; lia|]. intros (_ & _ & Hd & Hl). rewrite filter_cons.
  destruct (decide _) as [[H1 H2]|]; [|by apply IH]. simpl.
  destruct (filter _ l) as [|e k] eqn:F; [simpl; lia|]. assert (He : e ∈ e :: k) by left.
  rewrite <- F in He. apply list_elem_of_filter in He as [[H3 H4] He]. destruct (Hd H1 e He); congruence.
Qed.

Lemma NoDup_sub {A} (l k : list A) : l ⊆+ k → NoDup k → NoDup l.
Proof. intros [r ->]%submseteq_Permutation [H _]%NoDup_app. exact H. Qed.

(** ** Delivered events *)

Lemma calls_assigned w : oinv w → (calls w).*2 ⊆+ assigned w.
Proof.
  intros I. rewrite (oi_perm w I). do 4 apply submseteq_inserts_l. apply submseteq_inserts_r. done.
Qed.


(** ** Captured owners *)

Lemma generation_mono w w' : ostep w w' → generation (em w) ≤ generation (em w').
Proof.
  intros H. destruct H as [s|run attempt gen|tid d o c owner now Ht|tid ev Ht|p w' Hd]; simpl; try done.
  - unfold Configure. repeat case_match; simpl in *; try done; lia.
  - unfold emit_begin. destruct (emit_locked d o c owner now (em w)) as [[ev|] e'] eqn:E; simpl.
    + apply emit_locked_inv in E as (? & _ & _ & _ & _ & _ & -> & _). done.
    + by apply emit_locked_none in E as ->.
  - unfold emit_end, emit_select. by case_match; case_match; simplify_eq.
  - unfold deliver in Hd. repeat case_match; simplify_eq; simpl; try done.
Qed.

Lemma generation_mono_rtc w w' : rtc ostep w w' → generation (em w) ≤ generation (em w').
Proof. induction 1 as [|w1 w2 w3 H%generation_mono _ IH]; [done|lia]. Qed.

Lemma emit_stale d o c owner now e : owner_current (Some owner) e = false → emit d o c (Some owner) now e = (false, e).
Proof. intros H. unfold emit, emit_locked. repeat case_match; simplify_eq; try done; bsplit; congruence. Qed.

(** An emit function captured for one run reports only for that run: an
    event it produces carries exactly the captured run, attempt and generation,
    and once the generation has advanced it produces nothing ever again and
    leaves the emitter untouched, whatever is configured later; so do the
    stages of a DNS trace, whose admissible calls never ask for an event the
    vocabulary refuses except a failed receive. *)
Theorem captured_owner_fenced n w owner w' :
  rtc ostep (new_world n) w → CaptureContext (em w) = Some owner → rtc ostep w w' →
  (∀ d o c now ev e', emit_locked d o c (Some owner) now (em w') = (Some ev, e') →
     mkContext (RunID ev) (AttemptID ev) (Generation ev) = owner ∧ event_ok ev) ∧
  (generation (em w') ≠ c_generation owner → ∀ w'', rtc ostep w' w'' →
     (∀ d o c now, emit d o c (Some owner) now (em w'') = (false, em w'')) ∧
     (∀ trace stage ctxErr err now, newOwnedDNSProbeTrace (em w) = Some trace →
        trace stage ctxErr err now (em w'') = (false, em w''))) ∧
  (∀ stage err d o c, trace_event stage false err = Some (d, o, c) →
     is_Some (validateEvent d o c) ∨ (stage = OwnedDNSProbeReceive ∧ is_Some err)).
Proof.
  intros R HC R'. pose proof (oinv_reach n w' ltac:(by etrans)) as I.
  assert (Hg : c_generation owner = generation (em w)).
  { unfold CaptureContext in HC. case_match; by simplify_eq. }
  assert (Hlate : generation (em w') ≠ c_generation owner → ∀ w'', rtc ostep w' w'' →
    owner_current (Some owner) (em w'') = false).
  { intros Hne w'' R''. pose proof (generation_mono_rtc _ _ R'). pose proof (generation_mono_rtc _ _ R'').
    unfold owner_current. apply andb_false_iff. right. apply Z.eqb_neq. lia. }
  split_and!.
  - intros d o c now ev e' E.
    apply emit_locked_inv in E as (sev & Hv & _ & Hgen & Hown & _ & _ & ->).
    simpl in Hown. bsplit. match goal with H : (_ =? _) = true |- _ => apply Z.eqb_eq in H end.
    split; [destruct owner; simpl in *; congruence|]. pose proof (oi_ids w' I Hgen). pose proof (oi_generation w' I).
    split; simpl; [done|tauto|lia|done].
  - intros Hne w'' R''. specialize (Hlate Hne w'' R''). split; [intros; by apply emit_stale|].
    intros trace stage ctxErr err now Ht. unfold newOwnedDNSProbeTrace in Ht. rewrite HC in Ht.
    injection Ht as <-. destruct (trace_event stage ctxErr err) as [[[d o] c]|]; [by apply emit_stale|done].
  - intros stage err d o c. unfold trace_event. simpl. destruct (match err with Some _ => _ | None => _ end); [done|].
    destruct stage, err; intros E; simplify_eq; try (left; by eexists). right. by split; eexists.
Qed.

(** ** Delivery *)

Definition wstep (w w' : world) : Prop := ∃ p, deliver p w = Some w'.
Definition phase (s : wstate) : nat := match s with Idle => 0 | Received _ => 2 | Calling _ _ => 1 end.
Definition backlog (w : world) : nat := 3 * length (pending (em w)) + phase (worker w).

(** What the worker still owes sink [s]. *)
Definition owed (s : nat) (w : world) : list (nat * Event) := (s,.) <$> (held (worker w) ++ pending (em w)).

Lemma wstep_backlog w w' : wstep w w' → (S (backlog w') ≤ backlog w)%nat.
Proof.
  intros [p H]. unfold deliver, backlog in *. destruct w as [e sd wk cl asg ls sk]. simpl in *.
  repeat case_match; simplify_eq; simpl in *; try lia. all: try (destruct p; simpl; lia).
Qed.

Lemma wstep_owed s w w' :
  wstep w w' → sink (em w) = Some s → sink (em w') = Some s ∧ calls w' ++ owed s w' = calls w ++ owed s w.
Proof.
  intros [p H] Hs. unfold deliver, owed in *. destruct w as [e sd wk cl asg ls sk]. simpl in *.
  repeat case_match; simplify_eq; simpl in *; try done.
  - by rewrite <- app_assoc.
Qed.

Lemma wstep_stuck w : (¬ ∃ w', wstep w w') → pending (em w) = [] ∧ worker w = Idle.
Proof.
  intros H. unfold wstep, deliver in H. destruct (worker w) eqn:Ew.
  - destruct (pending (em w)) eqn:Ep; [done|]. destruct H. eexists. by exists false.
  - destruct (sink (em w)); destruct H; eexists; by exists false.
  - destruct H. eexists. by exists false.
Qed.

(** C39: The deliveries make progress: while a sink is set, the delivering
    goroutine, run alone, stops after at most 386 steps, whatever its calls
    return; it stops only with an empty queue, and has then handed the sink
    exactly the event it held and the queued events, in order, each once.
    From there every admissible event is accepted into the queue. *)
Theorem deliveries_progress n w s k w' :
  rtc ostep (new_world n) w → sink (em w) = Some s → nsteps wstep k w w' →
  (k ≤ 386)%nat ∧
  ((¬ ∃ w'', wstep w' w'') →
     worker w' = Idle ∧ pending (em w') = [] ∧
     calls w' = calls w ++ ((s,.) <$> (held (worker w) ++ pending (em w))) ∧
     ∀ d o c now, is_Some (validateEvent d o c) → 1 ≤ generation (em w') →
       (d = DNSProbeReceive → firstOwnedDNSReceived (em w') = false) →
       ∃ e', emit d o c None now (em w') = (true, e')).
Proof.
  intros R Hs Hk. pose proof (oinv_reach n w R) as I.
  assert (R' : rtc ostep w w').
  { apply rtc_nsteps_2 in Hk. eapply rtc_subrel, Hk. intros x y [p Hp]. by econstructor. }
  assert (G : (k + backlog w' ≤ backlog w)%nat ∧ sink (em w') = Some s ∧ calls w' ++ owed s w' = calls w ++ owed s w).
  { clear R R' I. induction Hk as [w|k w1 w2 w3 H _ IH]; [split_and!; [lia|done|done]|].
    pose proof (wstep_backlog _ _ H). destruct (wstep_owed _ _ _ H Hs) as [Hs2 Ho].
    destruct (IH Hs2) as (? & ? & ?). split_and!; [lia|done|congruence]. }
  destruct G as (Hb & Hs' & Ho). split.
  { pose proof (oi_capacity w I). unfold backlog in Hb. assert (phase (worker w) ≤ 2)%nat by (destruct (worker w); simpl; lia).
    lia. }
  intros [Hp Hw]%wstep_stuck. split_and!; [done|done| |].
  - unfold owed in Ho. rewrite Hp, Hw in Ho. simpl in Ho. by rewrite app_nil_r in Ho.
  - intros d o c now [sev Hv] Hg Hf. pose proof (oinv_reach n w' ltac:(by etrans)) as I'.
    unfold emit, emit_locked. rewrite Hv, Hs'. replace (generation (em w') <? 1) with false by lia. simpl.
    destruct (bool_decide_reflect (d = DNSProbeReceive)) as [Hd|_]; [rewrite (Hf Hd)|]; simpl;
      unfold emit_select; cbn [pending capacity set]; simpl; rewrite Hp; pose proof (oi_capacity w' I');
      (replace (_ <? _)%nat with true by (symmetry; apply Nat.ltb_lt; simpl; lia)); eauto.
Qed.

(** ** Examples *)

Definition ex_run : string := "018f4f2a-6d58-4c11-8c27-4fb77bd28c15".
Definition ex_attempt : string := "57ba1c00-f8a9-4b76-a3dc-d44a6d7cff33".
Definition ex_now : time := mkTime 5 None.

(** A sink, a configured generation, and two starts being sent by two goroutines. *)
Definition ex_w1 : world := (new_world 8) <| em ::= SetSink (Some 1%nat) |>.
Definition ex_w2 : world := ex_w1 <| em ::= λ e, (Configure ex_run ex_attempt 7 e).2 |>.
Definition ex_w3 : world := emit_begin 0 RuntimeStart OutcomeStarted "" None ex_now ex_w2.
Definition ex_w4 : world := emit_begin 1 RuntimeStart OutcomeFailed "CORE-006" None ex_now ex_w3.
Definition ex_event (i : nat) : Event := default (mkEvent 0 0 ex_now "" "" 0 0 RuntimeStart "" "" "") (sending ex_w4 !! i).
Definition ex_w5 : world := emit_end 1 (ex_event 1) ex_w4.
Definition ex_w6 : world := emit_end 0 (ex_event 0) ex_w5.

Lemma ex_reach2 : rtc ostep (new_world 8) ex_w2.
Proof. apply (rtc_l _ _ ex_w1); [apply os_sink|]. apply (rtc_l _ _ ex_w2); [apply os_configure|apply rtc_refl]. Qed.

Lemma ex_reach6 : rtc ostep (new_world 8) ex_w6.
Proof.
  etrans; [apply ex_reach2|].
  apply (rtc_l _ _ ex_w3); [apply os_begin; vm_compute; reflexivity|].
  apply (rtc_l _ _ ex_w4); [apply os_begin; vm_compute; reflexivity|].
  apply (rtc_l _ _ ex_w5); [apply os_end; vm_compute; reflexivity|].
  apply (rtc_l _ _ ex_w6); [apply os_end; vm_compute; reflexivity|apply rtc_refl].
Qed.

(** The worker run to the end, calls returning normally. *)
Fixpoint drain (fuel : nat) (w : world) : world :=
  match fuel with
  | O => w
  | S fuel => match deliver false w with Some w' => drain fuel w' | None => w end
  end.

Lemma drain_steps fuel w : ∃ k, nsteps wstep k w (drain fuel w).
Proof.
  revert w. induction fuel as [|fuel IH]; intros w; [exists 0%nat; constructor|]. simpl.
  destruct (deliver false w) as [w'|] eqn:E; [|exists 0%nat; constructor].
  destruct (IH w') as [k Hk]. exists (S k). econstructor; [by exists false|done].
Qed.

Lemma drain_reach fuel n w : rtc ostep (new_world n) w → rtc ostep (new_world n) (drain fuel w).
Proof.
  intros R. destruct (drain_steps fuel w) as [k Hk%rtc_nsteps_2]. etrans; [exact R|].
  eapply rtc_subrel, Hk. intros x y [p Hp]. by econstructor.
Qed.

(** The number is taken under the lock and the event is sent after it: two
    goroutines can exchange their places, and the host then meets sequence
    number 2 before sequence number 1 of the same generation. *)
Lemma delivered_out_of_sequence :
  rtc ostep (new_world 8) (drain 6 ex_w6) ∧
  (Sequence <$> (calls (drain 6 ex_w6)).*2) = [2; 1] ∧ (Generation <$> (calls (drain 6 ex_w6)).*2) = [7; 7].
Proof. split; [apply drain_reach, ex_reach6|]. split; vm_compute; reflexivity. Qed.


Definition ex_w7 : world := ex_w6 <| em ::= λ e, (Configure ex_attempt ex_run 8 e).2 |>.

Lemma captured_owner_fenced_witness :
  emit RuntimeStop OutcomeStarted "" (Some (mkContext ex_run ex_attempt 7)) ex_now (em ex_w7) = (false, em ex_w7).
Proof.
  assert (R : rtc ostep ex_w6 ex_w7) by (eapply rtc_l; [apply os_configure|apply rtc_refl]).
  destruct (captured_owner_fenced 8 ex_w6 (mkContext ex_run ex_attempt 7) ex_w7 ex_reach6 ltac:(vm_compute; reflexivity) R)
    as (_ & H & _).
  exact (proj1 (H ltac:(vm_compute; congruence) ex_w7 (rtc_refl _ _)) RuntimeStop OutcomeStarted "" ex_now).
Defined.

Lemma deliveries_progress_witness :
  worker (drain 6 ex_w6) = Idle ∧ calls (drain 6 ex_w6) = [(1%nat, ex_event 1); (1%nat, ex_event 0)].
Proof.
  destruct (drain_steps 6 ex_w6) as [k Hk].
  destruct (deliveries_progress 8 ex_w6 1 k (drain 6 ex_w6) ex_reach6 ltac:(vm_compute; reflexivity) Hk) as (_ & H).
  destruct H as (H1 & _ & H3 & _).
  { intros [w' [p Hp]]. vm_compute in Hp. discriminate. }
  split; [exact H1|]. rewrite H3. vm_compute. reflexivity.
Defined.
