(* ===== verification/AndroidEvents.v ===== *)
(** * Operational events of the Android surface

    Models [engine/sing-box/experimental/libbox/operational_events.go], the
    emitter behind [OperationalEventHandler], and the filter of
    [platformHandler.WriteOperationalEvent] in [command_server.go].  It differs
    from [Observability]: a smaller vocabulary, a stop, and a send that happens
    while the lock is still held. *)

From stdpp Require Import base list strings gmap relations.
From Stdlib Require Import ZArith Lia Ascii Sorted.
From S2P Require Import Prelude GoTime GoBytes UrlTestHistory FailureCodes Observability.

Local Open Scope Z_scope.

(** ** The vocabulary *)

Definition operationalEventSubsystem (name : string) : string :=
  if bool_decide (name = "core.egress.probe") then "egress" else "core".

Definition validOperationalEvent (name stage phase outcome errorCode : string) : bool :=
  let validDefinition :=
    (bool_decide (name = "core.runtime.start") && bool_decide (stage = "start") && bool_decide (phase = "core_start")) ||
    (bool_decide (name = "core.runtime.stop") && bool_decide (stage = "stop") && bool_decide (phase = "stop")) ||
    (bool_decide (name = "core.egress.probe") && bool_decide (stage = "verify") && bool_decide (phase = "egress")) in
  if negb validDefinition then false
  else if negb (bool_decide (outcome = "started")) && negb (bool_decide (outcome = "succeeded")) &&
          negb (bool_decide (outcome = "failed")) then false
  else if negb (bool_decide (outcome = "failed")) then bool_decide (errorCode = "")
  else bool_decide (errorCode = "CORE-003") || bool_decide (errorCode = "CORE-005") ||
       bool_decide (errorCode = "CORE-006") || bool_decide (errorCode = "CORE-008") ||
       bool_decide (errorCode = "EGRESS-001") || bool_decide (errorCode = "TRANSPORT-001") ||
       bool_decide (errorCode = "TRANSPORT-002") || bool_decide (errorCode = "TRANSPORT-003") ||
       bool_decide (errorCode = "TRANSPORT-004") || bool_decide (errorCode = "TRANSPORT-005") ||
       bool_decide (errorCode = "TRANSPORT-006") || bool_decide (errorCode = "TRANSPORT-007") ||
       bool_decide (errorCode = "DNS-002").

(** ** The emitter

    The event record has the fields of [Observability.Event]; its time is the
    formatted one. *)
Record operationalEventEmitter := mkAndroidEmitter {
  handler : option nat;
  a_runID : string;
  a_attemptID : string;
  a_generation : Z;
  a_sequence : Z;
  a_pending : list Event;
  stopped : bool
}.

#[export] Instance eta_operationalEventEmitter : Eta operationalEventEmitter := λ e,
  mkAndroidEmitter (handler e) (a_runID e) (a_attemptID e) (a_generation e) (a_sequence e) (a_pending e) (stopped e).

Definition operationalEventQueueSize : nat := 128.

Definition newOperationalEventEmitter : operationalEventEmitter := mkAndroidEmitter None "" "" 0 0 [] false.

Definition setHandler (h : option nat) (e : operationalEventEmitter) : operationalEventEmitter := e <| handler := h |>.

Definition configure (run attempt : string) (gen : Z) (e : operationalEventEmitter)
    : option string * operationalEventEmitter :=
  if negb (uuidPattern run) then (Some "invalid run identifier", e)
  else if negb (uuidPattern attempt) then (Some "invalid attempt identifier", e)
  else if (gen <? 1) || (maximum_generation <? gen) then (Some "invalid generation", e)
  else if stopped e then (Some "event emitter stopped", e)
  else if gen <? a_generation e then (Some "stale generation", e)
  else
    let e := if a_generation e <? gen then e <| a_sequence := 0 |> else e in
    (None, e <| a_runID := run |> <| a_attemptID := attempt |> <| a_generation := gen |>).

(** The event a call of [emit] builds, with the state after its number is taken. *)
Definition build_event (name stage phase outcome errorCode : string) (now : time) (e : operationalEventEmitter)
    : option (Event * operationalEventEmitter) :=
  if negb (validOperationalEvent name stage phase outcome errorCode) then None
  else if stopped e || negb (bool_decide (is_Some (handler e))) || (a_generation e <? 1) then None
  else
    let e := e <| a_sequence ::= λ s, i64 (s + 1) |> in
    let severity := if bool_decide (outcome = "failed") then "error" else "info" in
    Some (mkEvent 1 1 now (a_runID e) (a_attemptID e) (a_generation e) (a_sequence e)
            (mkDefinition name (operationalEventSubsystem name) stage phase) severity outcome errorCode, e).

(** [emit] is one critical section: the send is inside it. *)
Definition emit (name stage phase outcome errorCode : string) (now : time) (e : operationalEventEmitter)
    : bool * operationalEventEmitter :=
  match build_event name stage phase outcome errorCode now e with
  | None => (false, e)
  | Some (event, e) =>
      if (length (a_pending e) <? operationalEventQueueSize)%nat
      then (true, e <| a_pending ::= λ q, q ++ [event] |>) else (false, e)
  end.

Definition close (e : operationalEventEmitter) : operationalEventEmitter :=
  if stopped e then e else e <| stopped := true |> <| handler := None |>.

(** [platformHandler.WriteOperationalEvent] *)
Definition WriteOperationalEvent (name subsystem stage outcome errorCode phase : string) (now : time)
    (e : operationalEventEmitter) : operationalEventEmitter :=
  if negb (bool_decide (subsystem = "core")) && negb (bool_decide (subsystem = "egress")) then e
  else (emit name stage phase outcome errorCode now e).2.

(** ** Goroutines

    [a_assigned], newest first, records the events built. *)
Record aworld := mkAworld {
  aem : operationalEventEmitter;
  a_worker : wstate;
  a_calls : list (nat * Event);
  a_assigned : list Event
}.

#[export] Instance eta_aworld : Eta aworld := λ w, mkAworld (aem w) (a_worker w) (a_calls w) (a_assigned w).

Definition new_aworld : aworld := mkAworld newOperationalEventEmitter Idle [] [].

Definition emit_world (name stage phase outcome errorCode : string) (now : time) (w : aworld) : aworld :=
  w <| aem := (emit name stage phase outcome errorCode now (aem w)).2 |>
    <| a_assigned ::= λ l, match build_event name stage phase outcome errorCode now (aem w) with
                           | Some (event, _) => event :: l | None => l end |>.

(** One step of [deliver]; a handler that panics is recovered.  [None]: it waits,
    or has ended after [close]. *)
Definition deliver (w : aworld) : option aworld :=
  match a_worker w with
  | Idle =>
      match a_pending (aem w) with
      | [] => None
      | event :: q => Some (w <| aem ::= (λ e, e <| a_pending := q |>) |> <| a_worker := Received event |>)
      end
  | Received event =>
      match handler (aem w) with
      | None => Some (w <| a_worker := Idle |>)
      | Some s => Some (w <| a_worker := Calling s event |> <| a_calls ::= λ l, l ++ [(s, event)] |>)
      end
  | Calling _ _ => Some (w <| a_worker := Idle |>)
  end.

Inductive astep (w : aworld) : aworld → Prop :=
| as_handler h : astep w (w <| aem ::= setHandler h |>)
| as_configure run attempt gen : astep w (w <| aem ::= λ e, (configure run attempt gen e).2 |>)
| as_emit name stage phase outcome code now : astep w (emit_world name stage phase outcome code now w)
| as_close : astep w (w <| aem ::= close |>)
| as_deliver w' : deliver w = Some w' → astep w w'.

(** ** Invariant *)

Definition precedes (e e' : Event) : Prop :=
  Generation e < Generation e' ∨ (Generation e = Generation e' ∧ Sequence e < Sequence e').

Definition stream (w : aworld) : list Event := (a_calls w).*2 ++ held (a_worker w) ++ a_pending (aem w).

Record ainv (w : aworld) : Prop := mkAinv {
  ai_generation : 0 ≤ a_generation (aem w) ≤ maximum_generation;
  ai_ids : 1 ≤ a_generation (aem w) → uuidPattern (a_runID (aem w)) = true ∧ uuidPattern (a_attemptID (aem w)) = true;
  ai_sequence : a_sequence (aem w) = i64 (Z.of_nat (gen_count (a_generation (aem w)) (a_assigned w)));
  ai_newest : ∀ e, e ∈ a_assigned w → Generation e ≤ a_generation (aem w);
  ai_numbered : numbered (a_assigned w);
  ai_ok : ∀ e, e ∈ a_assigned w → event_ok e;
  ai_stream : sublist (reverse (stream w)) (a_assigned w);
  ai_queue : (length (a_pending (aem w)) ≤ operationalEventQueueSize)%nat
}.

(** The definitions both surfaces have. *)
Definition shared_definitions : list EventDefinition := [RuntimeStart; RuntimeStop; EgressProbe].

Lemma outcome_code_cases (outcome code : string) :
  (outcome = "failed" ∧ code ∈ known_codes) ∨ ((outcome = "started" ∨ outcome = "succeeded") ∧ code = "") →
  ∀ d, d ∈ shared_definitions →
  validateEvent d outcome code = Some (if bool_decide (outcome = "failed") then "error" else "info") ∧
  validOperationalEvent (Name d) (Stage d) (Phase d) outcome code = true ∧
  operationalEventSubsystem (Name d) = Subsystem d.
Proof.
  intros Ho d Hd. unfold shared_definitions in Hd.
  repeat (apply elem_of_cons in Hd as [->|Hd]); [..|by apply elem_of_nil in Hd].
  all: destruct Ho as [[-> Hc]|[[-> | ->] ->]]; try (split_and!; reflexivity).
  all: unfold known_codes in Hc; repeat (apply elem_of_cons in Hc as [->|Hc]);
    [..|by apply elem_of_nil in Hc]; split_and!; reflexivity.
Qed.

Lemma valid_operational_inv name stage phase outcome code :
  validOperationalEvent name stage phase outcome code = true →
  mkDefinition name (operationalEventSubsystem name) stage phase ∈ shared_definitions ∧
  ((outcome = "failed" ∧ code ∈ known_codes) ∨ ((outcome = "started" ∨ outcome = "succeeded") ∧ code = "")).
Proof.
  unfold validOperationalEvent. intros H. destruct (negb _) eqn:Hd; [done|]. apply negb_false_iff in Hd.
  split.
  { clear H. repeat (apply orb_true_iff in Hd as [Hd|Hd]); bsplit; subst; unfold shared_definitions;
      [left|right; left|right; right; left]. }
  clear Hd. destruct (bool_decide_reflect (outcome = "failed")) as [->|Hf].
  - left. split; [done|]. rewrite andb_false_r in H. apply isKnownErrorCode_spec.
    repeat (apply orb_true_iff in H as [H|H]); bsplit; subst; reflexivity.
  - right. rewrite andb_true_r in H. destruct (negb _ && negb _) eqn:Ho; [done|]. simpl in H. bsplit. split; [|done].
    apply andb_false_iff in Ho as [Ho|Ho]; bsplit; auto.
Qed.

(** ** Preservation *)

Lemma build_event_inv name stage phase outcome code now e ev e' :
  build_event name stage phase outcome code now e = Some (ev, e') →
  validOperationalEvent name stage phase outcome code = true ∧ stopped e = false ∧ is_Some (handler e) ∧
  1 ≤ a_generation e ∧ e' = e <| a_sequence := i64 (a_sequence e + 1) |> ∧
  ev = mkEvent 1 1 now (a_runID e) (a_attemptID e) (a_generation e) (i64 (a_sequence e + 1))
         (mkDefinition name (operationalEventSubsystem name) stage phase)
         (if bool_decide (outcome = "failed") then "error" else "info") outcome code.
Proof.
  unfold build_event. intros H. destruct (validOperationalEvent name stage phase outcome code); [|done].
  cbn [negb] in H. destruct (stopped e) eqn:Hs; [done|]. destruct (bool_decide_reflect (is_Some (handler e))); [|done].
  cbn [negb orb] in H. destruct (Z.ltb_spec (a_generation e) 1); [done|]. injection H as <- <-. done.
Qed.

Lemma ainv_emit name stage phase outcome code now w :
  ainv w → ainv (emit_world name stage phase outcome code now w).
Proof.
  intros I. unfold emit_world, emit.
  destruct (build_event name stage phase outcome code now (aem w)) as [[ev e']|] eqn:E; [|destruct I; by split].
  apply build_event_inv in E as (Hv & _ & _ & Hg & -> & ->).
  apply valid_operational_inv in Hv as [Hd Ho]. destruct (outcome_code_cases _ _ Ho _ Hd) as (Hval & _).
  assert (Hnr : mkDefinition name (operationalEventSubsystem name) stage phase ≠ DNSProbeReceive).
  { intros Hx. rewrite Hx in Hd. by repeat (apply elem_of_cons in Hd as [?|Hd]); [..|apply elem_of_nil in Hd]. }
  destruct w as [e wk cl asg]. destruct I as [? Hid Hq Hn Hm Hok Hst Hl]. simpl in *.
  pose proof (i64_succ _ _ Hq) as Hq'.
  assert (HS : i64 (a_sequence e + 1) = i64 (Z.of_nat (S (gen_count (a_generation e) asg)))) by (rewrite Hq'; f_equal; lia).
  match goal with |- context [mkEvent 1 1 now ?r ?a ?g ?s ?d ?v ?o ?c] => set (ev := mkEvent 1 1 now r a g s d v o c) end.
  assert (Hrest : numbered (ev :: asg) ∧ (∀ x, x ∈ ev :: asg → event_ok x) ∧
    (∀ x, x ∈ ev :: asg → Generation x ≤ a_generation e) ∧
    i64 (a_sequence e + 1) = i64 (Z.of_nat (gen_count (a_generation e) (ev :: asg)))).
  { simpl. rewrite Z.eqb_refl. split_and!; try done.
    - intros x [->|Hx]%elem_of_cons; [|by apply Hok]. split; simpl; [done|by apply Hid|lia|done].
    - intros x [->|Hx]%elem_of_cons; simpl; [lia|by apply Hn]. }
  destruct Hrest as (H1 & H2 & H3 & H4). unfold stream in *. simpl in *.
  destruct (Nat.ltb_spec (length (a_pending e)) operationalEventQueueSize); split; simpl; try done.
  - unfold stream; simpl. rewrite !app_assoc, reverse_app. simpl. apply sublist_skip. by rewrite <- app_assoc.
  - rewrite length_app. simpl. lia.
  - by apply sublist_cons.
Qed.

Lemma ainv_configure run attempt gen w :
  ainv w → ainv (w <| aem ::= λ e, (configure run attempt gen e).2 |>).
Proof.
  intros I. destruct w as [e wk cl asg]. unfold configure. simpl.
  destruct (uuidPattern run) eqn:Hr; [|exact I]. destruct (uuidPattern attempt) eqn:Ha; [|exact I]. simpl.
  destruct ((gen <? 1) || (maximum_generation <? gen)) eqn:Hg; [exact I|]. destruct (stopped e); [exact I|].
  destruct (gen <? a_generation e) eqn:Hs; [exact I|]. destruct I as [? ? ? Hn ? ? Hst ?]. simpl in *.
  destruct (Z.ltb_spec (a_generation e) gen) as [Hlt|Hge].
  - assert (Hz : gen_count gen asg = 0%nat) by (apply gen_count_above; intros x Hx%Hn; lia).
    split; simpl; try done; try lia; [by rewrite Hz|intros x Hx%Hn; lia].
  - assert (gen = a_generation e) as -> by lia. split; simpl; done.
Qed.

Lemma ainv_deliver w w' : deliver w = Some w' → ainv w → ainv w'.
Proof.
  intros H I. unfold deliver in H. destruct w as [e wk cl asg]. destruct I as [? Hid Hq Hn Hm Hok Hst Hl].
  unfold stream in *. simpl in *.
  destruct wk as [|ev|s ev]; [destruct (a_pending e) as [|ev q] eqn:Eq; [done|]|destruct (handler e) as [s|]|];
    simplify_eq; split; unfold stream; simpl in *; try done; try lia.
  - by rewrite fmap_app, <- app_assoc.
  - etrans; [|exact Hst]. rewrite !reverse_app, reverse_cons, <- app_assoc.
    apply sublist_app; [done|]. simpl. by apply sublist_cons.
Qed.

Lemma ainv_step w w' : astep w w' → ainv w → ainv w'.
Proof.
  intros H I. destruct H as [h|run attempt gen|name stage phase outcome code now| |w' Hd].
  - destruct I; by split.
  - by apply ainv_configure.
  - by apply ainv_emit.
  - destruct w as [e wk cl asg]. unfold close. destruct (stopped e) eqn:E; simpl; rewrite E; destruct I; by split.
  - by eapply ainv_deliver.
Qed.

Lemma ainv_reach w : rtc astep new_aworld w → ainv w.
Proof.
  remember new_aworld as w0 eqn:E. assert (I : ainv w0).
  { subst. split; simpl; try done; try lia. intros e []%elem_of_nil. intros e []%elem_of_nil. }
  clear E. induction 1 as [|w0 w1 w2 H _ IH]; [done|]. apply IH. by eapply ainv_step.
Qed.

(** ** Order *)

Lemma numbered_sorted l :
  numbered l → Z.of_nat (length l) < 2 ^ 63 → StronglySorted (λ e e', precedes e' e) l.
Proof.
  induction l as [|x l IH]; [constructor|]. intros (Hs & Hg & _ & Hl) Hb. simpl in Hb.
  constructor; [apply IH; [done|lia]|]. apply Forall_forall. intros e He. unfold precedes.
  pose proof (Hg e He). destruct (decide (Generation e = Generation x)) as [E|]; [right|left; lia]. split; [done|].
  pose proof (numbered_bound l e Hl ltac:(lia) He). pose proof (gen_count_length (Generation e) l).
  rewrite <- E in Hs. rewrite i64_small in Hs by lia. lia.
Qed.

Lemma sublist_sorted {A} (R : A → A → Prop) l k : sublist l k → StronglySorted R k → StronglySorted R l.
Proof.
  induction 1 as [|x l k Hs IH|x l k Hs IH]; [done| |].
  - intros [Hk Hx]%StronglySorted_inv. constructor; [by apply IH|]. rewrite Forall_forall in *. intros y Hy. by apply Hx, (elem_of_sublist l k).
  - intros [Hk _]%StronglySorted_inv. by apply IH.
Qed.

Lemma sorted_reverse {A} (R : A → A → Prop) l :
  StronglySorted (λ x y, R y x) (reverse l) → StronglySorted R l.
Proof.
  induction l as [|x l IH] using rev_ind; [constructor|]. rewrite reverse_snoc.
  intros [Hl Hx]%StronglySorted_inv. specialize (IH Hl). clear Hl. induction IH as [|y l Hs IH Hy]; simpl.
  { constructor; constructor. }
  rewrite reverse_cons in Hx. apply Forall_app in Hx as [Hx Hyx]. constructor; [by apply IH|].
  apply Forall_app. split; [done|]. constructor; [by inversion Hyx|constructor].
Qed.

Lemma stopped_step w w' :
  astep w w' → stopped (aem w) = true → stopped (aem w') = true ∧ a_assigned w' = a_assigned w.
Proof.
  intros H Hs. destruct H as [h|run attempt gen|name stage phase outcome code now| |w' Hd]; simpl; try done.
  - unfold configure. rewrite Hs. repeat case_match; simplify_eq; done.
  - unfold emit_world, emit. destruct (build_event name stage phase outcome code now (aem w)) as [[ev e']|] eqn:E; [|done].
    apply build_event_inv in E as (_ & ? & _). congruence.
  - unfold close. by rewrite Hs.
  - unfold deliver in Hd. repeat case_match; simplify_eq; done.
Qed.

Lemma stopped_steps w w' :
  rtc astep w w' → stopped (aem w) = true → stopped (aem w') = true ∧ a_assigned w' = a_assigned w.
Proof.
  induction 1 as [|w1 w2 w3 H _ IH]; [done|]. intros Hs. destruct (stopped_step _ _ H Hs) as [Hs2 E].
  destruct (IH Hs2). split; congruence.
Qed.

(** On the Android surface the host meets the events in order: the ones
    already handed over, the one in hand and the queued ones are sorted
    strictly by generation and sequence number, are all well formed, and use
    only the definitions both surfaces share, for which the two vocabularies
    admit the same outcomes and codes.  After the stop no event is built and no
    context is configured again. *)
Theorem android_events_ordered w :
  rtc astep new_aworld w → Z.of_nat (length (a_assigned w)) < 2 ^ 63 →
  StronglySorted precedes (stream w) ∧
  (∀ e, e ∈ stream w → event_ok e) ∧
  (length (a_pending (aem w)) ≤ 128)%nat ∧
  (∀ d o c, d ∈ shared_definitions →
     is_Some (validateEvent d o c) ↔ validOperationalEvent (Name d) (Stage d) (Phase d) o c = true) ∧
  (stopped (aem w) = true → ∀ w', rtc astep w w' →
     a_assigned w' = a_assigned w ∧ ∀ run attempt gen, is_Some (configure run attempt gen (aem w')).1).
Proof.
  intros I%ainv_reach Hb. split_and!.
  - apply sorted_reverse. eapply sublist_sorted; [apply I|]. apply numbered_sorted; [apply I|done].
  - intros e He. apply (ai_ok w I). eapply elem_of_sublist, (ai_stream w I). by apply elem_of_reverse.
  - apply (ai_queue w I).
  - intros d o c Hd. split.
    + intros [s [_ Hs]%validateEvent_closed].
      refine (proj1 (proj2 (outcome_code_cases o c _ d Hd))). unfold OutcomeFailed, OutcomeStarted, OutcomeSucceeded in Hs.
      tauto.
    + intros [_ Ho]%valid_operational_inv. eexists. apply (outcome_code_cases o c Ho d Hd).
  - intros Hs w' R. destruct (stopped_steps _ _ R Hs) as [Hs' ?]. split; [done|]. intros run attempt gen.
    unfold configure. rewrite Hs'. repeat case_match; by eexists.
Qed.

Definition ex_a1 : aworld := new_aworld <| aem ::= setHandler (Some 1%nat) |>.
Definition ex_a2 : aworld := ex_a1 <| aem ::= λ e, (configure ex_run ex_attempt 3 e).2 |>.
Definition ex_a3 : aworld := emit_world "core.runtime.start" "start" "core_start" "started" "" ex_now ex_a2.
Definition ex_a4 : aworld := emit_world "core.runtime.start" "start" "core_start" "succeeded" "" ex_now ex_a3.
Definition ex_a5 : aworld := ex_a4 <| aem ::= close |>.

Lemma ex_areach : rtc astep new_aworld ex_a5.
Proof.
  apply (rtc_l _ _ ex_a1); [apply as_handler|]. apply (rtc_l _ _ ex_a2); [apply as_configure|].
  apply (rtc_l _ _ ex_a3); [apply as_emit|]. apply (rtc_l _ _ ex_a4); [apply as_emit|].
  apply (rtc_l _ _ ex_a5); [apply as_close|apply rtc_refl].
Qed.

Lemma android_events_ordered_witness :
  (Sequence <$> stream ex_a5) = [1; 2] ∧ StronglySorted precedes (stream ex_a5) ∧
  is_Some (configure ex_run ex_attempt 4 (aem ex_a5)).1.
Proof.
  destruct (android_events_ordered ex_a5 ex_areach ltac:(vm_compute; reflexivity)) as (H1 & _ & _ & _ & H5).
  split; [vm_compute; reflexivity|]. split; [exact H1|].
  exact (proj2 (H5 ltac:(vm_compute; reflexivity) ex_a5 (rtc_refl _ _)) ex_run ex_attempt 4).
Defined.
