(* ===== verification/SaClientHello.v ===== *)
(** * Smart Access: the TLS ClientHello boundary

    Models [engine/sing-box/protocol/pokrov/smartaccess/clienthello.go] and
    [normalizeDomain] and [allows] of [outbound.go]: the records a flow sends
    first are read, the server name is parsed and normalized, and the exact
    bytes are replayed to the relay.

    The parser indexes and slices with the bounds checks of the source; an
    index or slice out of range would be a run-time panic and is [Panic] here. *)

From stdpp Require Import base list strings.
From Stdlib Require Import ZArith Lia Ascii.
From S2P Require Import Prelude GoBytes GoNetip.

Local Open Scope Z_scope.

Definition errInvalidClientHello : string := "invalid TLS ClientHello".
Definition errECHUnsupported : string := "invalid TLS ClientHello: ech_unsupported".
Definition errScope : string := "smart_access_flow_unsupported".

(** ** Domain names *)

(** [strings.TrimSuffix(value, ".")] *)
Definition trim_dot (b : bytes) : bytes :=
  match rev b with
  | c :: r => if Ascii.eqb c dot then rev r else b
  | [] => b
  end.

Definition is_alnum (c : ascii) : bool :=
  let n := byte_val c in ((97 <=? n) && (n <=? 122)) || ((48 <=? n) && (n <=? 57)).

(** [^[a-z0-9](?:[a-z0-9-]{0,61}[a-z0-9])?$] *)
Definition domainLabelPattern (l : bytes) : bool :=
  match l with
  | [] => false
  | [c] => is_alnum c
  | c :: r =>
      is_alnum c && (blen l <=? 63) &&
      match last r with Some e => is_alnum e | None => false end &&
      forallb (λ x, is_alnum x || (byte_val x =? 45)) r
  end.

Definition is_addr (name : bytes) : bool := if ParseAddr name then true else false.

Definition has_suffix (b suffix : bytes) : bool :=
  bytes_eqb (drop (length b - length suffix) b) suffix && (blen suffix <=? blen b).

Definition own_zone : bytes := list_of_str "pokrov.space".

Definition normalizeDomain (value : bytes) : result string bytes :=
  let name := to_lower (trim_dot value) in
  if (blen name =? 0) || (253 <? blen name) || bytes_eqb name own_zone ||
     has_suffix name (dot :: own_zone)
  then Err errScope
  else if is_addr name then Err errScope
  else
    let labels := split_dot name in
    if (length labels <? 2)%nat then Err errScope
    else if forallb domainLabelPattern labels then Ok name else Err errScope.

(** The scope of a grant: [option.PokrovSmartAccessDomain]. *)
Record smartDomain := mkDomain { Name : bytes; Match : string }.

Definition allows (domains : list smartDomain) (name : bytes) : bool :=
  existsb (λ d, bytes_eqb name (Name d) ||
                (bool_decide (Match d = "suffix") && has_suffix name (dot :: Name d))) domains.

(** ** The server name of a ClientHello *)

(** The entries of the server name list. *)
Fixpoint name_loop (fuel : nat) (extension : bytes) (nameOffset : Z) (serverName : bytes)
    : outcome bytes :=
  match fuel with
  | O => Panic
  | S fuel =>
      if nameOffset <? blen extension then
        if blen extension <? nameOffset + 3 then Fail errInvalidClientHello
        else
          nameType <~ index extension nameOffset;
          nameLength <~ (s <~ slice extension (nameOffset + 1) (nameOffset + 3); Uint16 s);
          let nameOffset := nameOffset + 3 in
          if (nameLength =? 0) || (blen extension <? nameOffset + nameLength)
          then Fail errInvalidClientHello
          else
            if nameType =? 0 then
              if negb (bytes_eqb serverName []) then Fail errInvalidClientHello
              else
                raw <~ slice extension nameOffset (nameOffset + nameLength);
                match normalizeDomain raw with
                | Err _ => Fail errInvalidClientHello
                | Ok normalized => name_loop fuel extension (nameOffset + nameLength) normalized
                end
            else name_loop fuel extension (nameOffset + nameLength) serverName
      else Ret serverName
  end.

(** The extensions. *)
Fixpoint ext_loop (fuel : nat) (body : bytes) (offset extensionsEnd : Z) (ech : bool)
    (serverName : bytes) : outcome bytes :=
  match fuel with
  | O => Panic
  | S fuel =>
      if offset <? extensionsEnd then
        if extensionsEnd <? offset + 4 then Fail errInvalidClientHello
        else
          extensionType <~ (s <~ slice body offset (offset + 2); Uint16 s);
          extensionLength <~ (s <~ slice body (offset + 2) (offset + 4); Uint16 s);
          let offset := offset + 4 in
          if extensionsEnd <? offset + extensionLength then Fail errInvalidClientHello
          else if (extensionType =? 0xfe0d) && negb ech then Fail errECHUnsupported
          else if extensionType =? 0 then
            if negb (bytes_eqb serverName []) || (extensionLength <? 5) then Fail errInvalidClientHello
            else
              extension <~ slice body offset (offset + extensionLength);
              listLength <~ (s <~ slice extension 0 2; Uint16 s);
              if negb (listLength =? blen extension - 2) then Fail errInvalidClientHello
              else
                serverName <~ name_loop (S (length extension)) extension 2 serverName;
                ext_loop fuel body (offset + extensionLength) extensionsEnd ech serverName
          else ext_loop fuel body (offset + extensionLength) extensionsEnd ech serverName
      else Ret serverName
  end.

Definition handshake_length (h : bytes) : outcome Z :=
  b1 <~ index h 1; b2 <~ index h 2; b3 <~ index h 3;
  Ret (4 + Z.shiftl b1 16 + Z.shiftl b2 8 + b3).

Definition parseClientHelloSNI (handshake : bytes) (ech : bool) : outcome bytes :=
  if blen handshake <? 4 then Fail errInvalidClientHello
  else
    b0 <~ index handshake 0;
    expected <~ handshake_length handshake;
    if negb (b0 =? 1) || negb (blen handshake =? expected) then Fail errInvalidClientHello
    else
      body <~ slice_from handshake 4;
      if blen body <? 34 then Fail errInvalidClientHello
      else
        let offset := 34 in
        if blen body <=? offset then Fail errInvalidClientHello
        else
          sessionLength <~ index body offset;
          let offset := offset + (1 + sessionLength) in
          if blen body <? offset + 2 then Fail errInvalidClientHello
          else
            cipherLength <~ (s <~ slice body offset (offset + 2); Uint16 s);
            let offset := offset + (2 + cipherLength) in
            if (cipherLength <? 2) || negb (cipherLength mod 2 =? 0) || (blen body <=? offset)
            then Fail errInvalidClientHello
            else
              compressionLength <~ index body offset;
              let offset := offset + (1 + compressionLength) in
              if (compressionLength <? 1) || (blen body <? offset + 2) then Fail errInvalidClientHello
              else
                extensionsLength <~ (s <~ slice body offset (offset + 2); Uint16 s);
                let offset := offset + 2 in
                if negb (offset + extensionsLength =? blen body) then Fail errInvalidClientHello
                else
                  serverName <~ ext_loop (S (length body)) body offset (offset + extensionsLength) ech [];
                  if bytes_eqb serverName [] then Fail errInvalidClientHello else Ret serverName.

(** ** Reading the records *)

Definition maximum : Z := 65535.

(** [io.ReadFull] of [n] bytes from what the peer sends. *)
Definition read_full (n : Z) (stream : bytes) : option (bytes * bytes) :=
  if n <=? blen stream then Some (take (Z.to_nat n) stream, drop (Z.to_nat n) stream) else None.

(** The loop: [raw] and [handshake] are what was read so far, [expected] is the
    announced length of the handshake message once known (negative before). *)
Fixpoint read_loop (fuel : nat) (ech : bool) (stream raw handshake : bytes) (expected : Z)
    : outcome (bytes * bytes * bytes) :=
  match fuel with
  | O => Panic
  | S fuel =>
      if blen raw <? maximum then
        match read_full 5 stream with
        | None => Fail "invalid TLS ClientHello: record header"
        | Some (header, stream) =>
            h0 <~ index header 0;
            h1 <~ index header 1;
            if negb (h0 =? 22) || negb (h1 =? 3) then Fail "invalid TLS ClientHello: record type"
            else
              recordLength <~ (s <~ slice header 3 5; Uint16 s);
              if (recordLength =? 0) || (maximum <? blen raw + 5 + recordLength)
              then Fail "invalid TLS ClientHello: record length"
              else
                match read_full recordLength stream with
                | None => Fail "invalid TLS ClientHello: record body"
                | Some (body, stream) =>
                    let raw := raw ++ header ++ body in
                    let handshake := handshake ++ body in
                    expected <~
                      (if (4 <=? blen handshake) && (expected <? 0) then
                         t <~ index handshake 0;
                         if negb (t =? 1) then Fail "invalid TLS ClientHello: handshake type"
                         else
                           e <~ handshake_length handshake;
                           if (maximum <? e) || (e <? 42)
                           then Fail "invalid TLS ClientHello: handshake length"
                           else Ret e
                       else Ret expected);
                    if (0 <=? expected) && (expected <=? blen handshake) then
                      h <~ slice handshake 0 expected;
                      name <~ parseClientHelloSNI h ech;
                      Ret (raw, name, stream)
                    else read_loop fuel ech stream raw handshake expected
                end
        end
      else Fail "invalid TLS ClientHello: size limit"
  end.

(** [readClientHello]: the bytes to replay, the server name, and what the
    connection still has to deliver. *)
Definition readClientHello (ech : bool) (stream : bytes) : outcome (bytes * bytes * bytes) :=
  read_loop (S (length stream)) ech stream [] [] (-1).

(** ** Normal form of a name *)

Definition name_char (c : ascii) : bool := is_alnum c || (byte_val c =? 45) || Ascii.eqb c dot.

Lemma split_dot_chars b P :
  Forall (Forall P) (split_dot b) → Forall (λ c, P c ∨ c = dot) b.
Proof.
  induction b as [|c b IH]; [done|]. simpl.
  destruct (Ascii.eqb c dot) eqn:E.
  - apply Ascii.eqb_eq in E as ->. inversion 1; subst. constructor; auto.
  - destruct (split_dot b) as [|l ls] eqn:Es; inversion 1 as [|? ? Hh Ht]; subst; inversion Hh; subst;
      (constructor; [by left|]); apply IH; [done|by constructor].
Qed.

Lemma domainLabel_chars l : domainLabelPattern l = true →
  l ≠ [] ∧ blen l ≤ 63 ∧ Forall (λ c, is_alnum c || (byte_val c =? 45) = true) l.
Proof.
  unfold domainLabelPattern. destruct l as [|c [|d r]]; [done| |].
  - intros H. split_and!; [done|done|]. constructor; [by rewrite H|constructor].
  - intros H. bsplit. split_and!; [done|lia|]. constructor; [by rewrite H|].
    match goal with G : forallb _ _ = true |- _ => rewrite forallb_forall in G; rename G into Hf end.
    apply Forall_forall. intros x Hx%list_elem_of_In. by apply Hf.
Qed.

Lemma lower_char_fixed c : name_char c = true → lower_char c = c ∧ byte_val c < 128.
Proof.
  unfold name_char, lower_char, is_alnum. intros H.
  destruct (Ascii.eqb c dot) eqn:E; [apply Ascii.eqb_eq in E as ->; done|].
  destruct ((65 <=? byte_val c) && (byte_val c <=? 90)) eqn:E2; [lia|]. split; [done|lia].
Qed.

Lemma to_lower_fixed b : Forall (λ c, name_char c = true) b → to_lower b = b.
Proof.
  induction 1 as [|c b Hc Hb IH]; [done|]. apply lower_char_fixed in Hc as [Hc Hv]. simpl.
  destruct b as [|d b]; [by rewrite Hc|].
  destruct (Z.eqb_spec (byte_val c) 196); [lia|]. cbn [andb].
  destruct b as [|e b]; [by rewrite Hc, IH|].
  destruct (Z.eqb_spec (byte_val c) 226); [lia|]. cbn [andb]. by rewrite Hc, IH.
Qed.

Lemma split_dot_snoc b : last (split_dot (b ++ [dot])) = Some [].
Proof.
  induction b as [|c b IH]; [done|]. simpl. destruct (Ascii.eqb c dot).
  - destruct (split_dot (b ++ [dot])) eqn:E; [done|]. simpl in *. done.
  - destruct (split_dot (b ++ [dot])) as [|l [|l' ls]] eqn:E; [done| |done].
    exfalso. clear IH. revert l E. induction b as [|c' b IH]; intros l E; simpl in E.
    + done.
    + destruct (Ascii.eqb c' dot); [destruct (split_dot (b ++ [dot])) eqn:E2; simplify_eq;
        destruct b; simpl in E2; repeat case_hyp E2; done|].
      destruct (split_dot (b ++ [dot])) as [|l2 ls2] eqn:E2; [|simplify_eq; by eapply IH].
      destruct b; simpl in E2; repeat case_hyp E2; done.
Qed.

Lemma trim_dot_fixed b : Forall (λ l, l ≠ []) (split_dot b) → trim_dot b = b.
Proof.
  intros H. unfold trim_dot. destruct (rev b) as [|c r] eqn:E; [done|].
  destruct (Ascii.eqb c dot) eqn:Ec; [|done]. apply Ascii.eqb_eq in Ec as ->.
  assert (b = rev r ++ [dot]) as -> by (rewrite <- (rev_involutive b), E; done).
  exfalso. pose proof (split_dot_snoc (rev r)) as L. rewrite Forall_forall in H.
  apply (H []); [|done]. by eapply last_Some_elem_of.
Qed.

Lemma normalizeDomain_inv v n :
  normalizeDomain v = Ok n →
  n = to_lower (trim_dot v) ∧ 0 < blen n ≤ 253 ∧ n ≠ own_zone ∧
  has_suffix n (dot :: own_zone) = false ∧ is_addr n = false ∧
  (2 ≤ length (split_dot n))%nat ∧ forallb domainLabelPattern (split_dot n) = true.
Proof.
  unfold normalizeDomain. intros H.
  destruct ((blen _ =? 0) || _ || _ || _) eqn:E1; [done|].
  destruct (is_addr _) eqn:E2; [done|]. destruct (Nat.ltb_spec (length (split_dot (to_lower (trim_dot v)))) 2); [done|].
  destruct (forallb _ _) eqn:E3; [|done]. injection H as <-. bsplit.
  pose proof (blen_nonneg (to_lower (trim_dot v))).
  split_and!; try done; try lia.
  match goal with G : bytes_eqb _ own_zone = false |- _ => unfold bytes_eqb in G; by bsplit end.
Qed.

Lemma labels_fixed n :
  forallb domainLabelPattern (split_dot n) = true → to_lower (trim_dot n) = n.
Proof.
  intros H. rewrite forallb_forall in H.
  assert (L : ∀ l, l ∈ split_dot n → domainLabelPattern l = true) by (intros l Hl%list_elem_of_In; auto).
  rewrite trim_dot_fixed.
  - apply to_lower_fixed. eapply Forall_impl.
    + apply (split_dot_chars n (λ c, is_alnum c || (byte_val c =? 45) = true)).
      apply Forall_forall. intros l Hl%L%domainLabel_chars. tauto.
    + intros c [Hc| ->]; [|done]. unfold name_char. by rewrite Hc.
  - apply Forall_forall. intros l Hl%L%domainLabel_chars. tauto.
Qed.

Lemma normalizeDomain_idempotent v n : normalizeDomain v = Ok n → normalizeDomain n = Ok n.
Proof.
  intros (_ & Hl & Hz & Hs & Hi & Hn & Hp)%normalizeDomain_inv.
  unfold normalizeDomain. rewrite labels_fixed by done. rewrite Hi, Hp, Hs.
  unfold bytes_eqb. rewrite bool_decide_eq_false_2 by done.
  destruct (Z.eqb_spec (blen n) 0); [lia|]. destruct (Z.ltb_spec 253 (blen n)); [lia|].
  destruct (Nat.ltb_spec (length (split_dot n)) 2); [lia|]. done.
Qed.

(** ** The parser never panics and yields a normal name *)

Definition named (n : bytes) : Prop := n = [] ∨ ∃ v, normalizeDomain v = Ok n.

Ltac wp_if :=
  match goal with
  | |- safe (if ?b then _ else _) _ =>
      let E := fresh "E" in destruct b eqn:E; bsplit; try exact I
  end.

Lemma name_loop_safe fuel ext off sn :
  0 ≤ off → 0 < Z.of_nat fuel → blen ext - off < Z.of_nat fuel → named sn →
  safe (name_loop fuel ext off sn) named.
Proof.
  revert off sn. induction fuel as [|fuel IH]; intros off sn H0 Hp Hf Hn; [lia|].
  cbn [name_loop]. wp_if; [|done]. wp_if.
  apply safe_bind, safe_index; [lia|]. intros ty _.
  apply safe_bind, safe_uint16; [lia..|]. intros len Hlen. cbv zeta.
  wp_if. wp_if; [wp_if|].
  - apply safe_bind, safe_slice; [lia..|]. intros raw _ _.
    destruct (normalizeDomain raw) eqn:En; [|exact I]. apply IH; [lia..|]. right. eauto.
  - apply IH; [lia..|done].
Qed.

Lemma ext_loop_safe fuel body off stop ech sn :
  0 ≤ off → stop ≤ blen body → 0 < Z.of_nat fuel → stop - off < Z.of_nat fuel → named sn →
  safe (ext_loop fuel body off stop ech sn) named.
Proof.
  revert off sn. induction fuel as [|fuel IH]; intros off sn H0 Hs Hp Hf Hn; [lia|].
  cbn [ext_loop]. wp_if; [|done]. wp_if.
  apply safe_bind, safe_uint16; [lia..|]. intros ty Hty.
  apply safe_bind, safe_uint16; [lia..|]. intros len Hlen. cbv zeta.
  wp_if. wp_if. wp_if; [wp_if|apply IH; [lia..|done]].
  apply safe_bind, safe_slice; [lia..|]. intros ext Hext _.
  apply safe_bind, safe_uint16; [lia..|]. intros ll Hll. wp_if.
  apply safe_bind. eapply safe_mono; [apply name_loop_safe; [lia|lia|unfold blen; lia|done]|].
  intros sn' Hn'. apply IH; [lia..|done].
Qed.

Lemma handshake_length_safe h (Q : Z → Prop) :
  4 ≤ blen h → (∀ z, 0 ≤ z → Q z) → safe (handshake_length h) Q.
Proof.
  intros Hl HQ. unfold handshake_length.
  do 3 (apply safe_bind, safe_index; [lia|]; intros ? ?). apply HQ.
  rewrite !Z.shiftl_mul_pow2 by lia. lia.
Qed.

Lemma parse_safe h ech : safe (parseClientHelloSNI h ech) (λ n, ∃ v, normalizeDomain v = Ok n).
Proof.
  unfold parseClientHelloSNI. wp_if.
  apply safe_bind, safe_index; [lia|]. intros b0 _.
  apply safe_bind, handshake_length_safe; [lia|]. intros el _. wp_if.
  unfold slice_from. apply safe_bind, safe_slice; [lia..|]. intros body Hb _.
  wp_if. cbv zeta. wp_if. apply safe_bind, safe_index; [lia|]. intros sl Hsl.
  wp_if. apply safe_bind, safe_uint16; [lia..|]. intros cl Hcl.
  wp_if. apply safe_bind, safe_index; [lia|]. intros cm Hcm.
  wp_if. apply safe_bind, safe_uint16; [lia..|]. intros xl Hxl. wp_if.
  apply safe_bind. eapply safe_mono; [apply ext_loop_safe; [lia|lia|lia|unfold blen in *; lia|by left]|].
  intros n Hn. wp_if. destruct Hn as [->|Hn]; [done|]. exact Hn.
Qed.

Lemma read_full_split n s a b : read_full n s = Some (a, b) → s = a ++ b ∧ (0 ≤ n → blen a = n).
Proof.
  unfold read_full. intros H. case_hyp H; [|done]. simplify_eq.
  split; [by rewrite take_drop|]. intros. unfold blen in *. rewrite length_take. lia.
Qed.

Lemma read_loop_safe fuel ech stream raw hs ex :
  blen stream < Z.of_nat fuel → blen raw ≤ maximum →
  safe (read_loop fuel ech stream raw hs ex) (λ r,
    r.1.1 ++ r.2 = raw ++ stream ∧ blen r.1.1 ≤ maximum ∧ ∃ v, normalizeDomain v = Ok r.1.2).
Proof.
  revert stream raw hs ex. induction fuel as [|fuel IH]; intros stream raw hs ex Hf Hr.
  { pose proof (blen_nonneg stream). lia. }
  cbn [read_loop]. wp_if.
  destruct (read_full 5 stream) as [[header stream1]|] eqn:E1; [|exact I].
  apply read_full_split in E1 as [-> L1]. specialize (L1 ltac:(lia)).
  do 2 (apply safe_bind, safe_index; [lia|]; intros ? ?). wp_if.
  apply safe_bind, safe_uint16; [lia..|]. intros rl Hrl. wp_if.
  destruct (read_full rl stream1) as [[body stream2]|] eqn:E2; [|exact I].
  apply read_full_split in E2 as [-> L2]. specialize (L2 ltac:(lia)). cbv zeta.
  rewrite !blen_app in Hf.
  apply safe_bind. eapply (safe_mono _ (λ _, True)).
  - wp_if. apply safe_bind, safe_index; [lia|]. intros t _. wp_if.
    apply safe_bind, handshake_length_safe; [lia|]. intros e _. by wp_if.
  - intros ex' _. wp_if.
    + apply safe_bind, safe_slice; [lia..|]. intros h _ _.
      apply safe_bind. eapply safe_mono; [apply parse_safe|]. intros n Hn. simpl.
      split_and!; [by rewrite <- !app_assoc|rewrite !blen_app; lia|done].
    + eapply safe_mono; [apply IH; [lia|rewrite !blen_app; lia]|].
      intros r (R1 & R2 & R3). split_and!; [|done..]. by rewrite R1, <- !app_assoc.
Qed.

(** reading a ClientHello never panics, whatever the peer sends.  When it
    accepts, the bytes it hands on for replay are exactly the prefix of the
    stream it consumed, at most 65535 of them, and the server name is in
    normal form: at most 253 bytes, at least two labels of the allowed shape,
    no IPv4 address, neither the operator's own zone nor below it, and a fixed
    point of the normalization. *)
Theorem client_hello_safe_and_replayed ech stream :
  safe (readClientHello ech stream) (λ r,
    let '(raw, name, rest) := r in
    raw ++ rest = stream ∧ blen raw ≤ 65535 ∧
    normalizeDomain name = Ok name ∧ 0 < blen name ≤ 253 ∧
    forallb domainLabelPattern (split_dot name) = true ∧ (2 ≤ length (split_dot name))%nat ∧
    is_addr name = false ∧ name ≠ own_zone ∧ has_suffix name (dot :: own_zone) = false).
Proof.
  eapply safe_mono.
  - apply read_loop_safe; [unfold blen; lia|done].
  - intros [[raw name] rest] (H1 & H2 & v & Hv). simpl in *.
    pose proof (normalizeDomain_inv _ _ Hv) as (_ & ? & ? & ? & ? & ? & ?).
    apply normalizeDomain_idempotent in Hv. split_and!; first [done|exact H2|lia].
Qed.

(** ** What a client sends: a reference encoder *)

Definition enc_ext (x : Z * bytes) : bytes := be_put 2 x.1 ++ be_put 2 (blen x.2) ++ x.2.

Definition enc_sni (name : bytes) : Z * bytes :=
  (0, be_put 2 (blen name + 3) ++ [byte_of 0] ++ be_put 2 (blen name) ++ name).

(** [prefix] is the version and the random, 34 bytes. *)
Definition enc_hello (prefix session ciphers compression : bytes) (exts : list (Z * bytes)) : bytes :=
  let xs := concat (enc_ext <$> exts) in
  let body := prefix ++ [byte_of (blen session)] ++ session ++ be_put 2 (blen ciphers) ++ ciphers ++
              [byte_of (blen compression)] ++ compression ++ be_put 2 (blen xs) ++ xs in
  [byte_of 1] ++ be_put 3 (blen body) ++ body.

Definition enc_record (minor : Z) (fragment : bytes) : bytes :=
  [byte_of 22; byte_of 3; byte_of minor] ++ be_put 2 (blen fragment) ++ fragment.

(** An extension the parser passes over. *)
Definition plain_ext (ech : bool) (x : Z * bytes) : Prop :=
  0 < x.1 < 65536 ∧ blen x.2 < 65536 ∧ (x.1 ≠ 0xfe0d ∨ ech = true).

(** *** Reading at a known offset *)

Lemma u16_at (p b r : bytes) (n : Z) lo hi :
  b = be_put 2 n → lo = blen p → hi = lo + 2 → 0 ≤ n < 65536 →
  (s <~ slice (p ++ b ++ r) lo hi; Uint16 s) = Ret n.
Proof.
  intros -> -> -> Hn. rewrite slice_app_r, Z.sub_diag by lia.
  replace (blen p + 2 - blen p) with 2 by lia. rewrite slice_app_l by apply blen_be_put. cbn [obind].
  unfold Uint16. rewrite slice_full by apply blen_be_put. cbn [obind]. f_equal.
  rewrite be_val_put. apply Z.mod_small. done.
Qed.

Lemma index_at (p r : bytes) c i : i = blen p → index (p ++ c :: r) i = Ret (byte_val c).
Proof.
  intros ->. unfold index. rewrite blen_app, blen_cons. pose proof (blen_nonneg p). pose proof (blen_nonneg r).
  rewrite bool_true_if by lia. unfold blen. rewrite Nat2Z.id, lookup_app_r, Nat.sub_diag by done. done.
Qed.

Lemma slice_at (p b r : bytes) lo hi :
  lo = blen p → hi = lo + blen b → slice (p ++ b ++ r) lo hi = Ret b.
Proof.
  intros -> ->. pose proof (blen_nonneg b). rewrite slice_app_r by lia.
  replace (blen p - blen p) with 0 by lia. replace (blen p + blen b - blen p) with (blen b) by lia.
  by apply slice_app_l.
Qed.

Lemma slice_at_end (p b : bytes) lo hi :
  lo = blen p → hi = lo + blen b → slice (p ++ b) lo hi = Ret b.
Proof. intros. rewrite <- (app_nil_r b) at 1. by apply slice_at. Qed.

Lemma enc_ext_len x : blen (enc_ext x) = 4 + blen x.2.
Proof. unfold enc_ext. rewrite !blen_app, !blen_be_put. lia. Qed.

(** One extension that is passed over. *)
Lemma ext_loop_plain fuel pre x post off stop ech sn :
  plain_ext ech x → off = blen pre → off + blen (enc_ext x) ≤ stop →
  ext_loop (S fuel) (pre ++ enc_ext x ++ post) off stop ech sn =
  ext_loop fuel (pre ++ enc_ext x ++ post) (off + blen (enc_ext x)) stop ech sn.
Proof.
  intros (Ht & Hl & He) -> Hs. rewrite enc_ext_len in *. pose proof (blen_nonneg x.2).
  unfold enc_ext. cbn [ext_loop].
  rewrite bool_true_if by lia. rewrite bool_false_if by lia.
  rewrite <- !app_assoc.
  rewrite (u16_at pre _ _ x.1) by (done || lia). cbn [obind].
  rewrite (app_assoc pre (be_put 2 x.1)).
  rewrite (u16_at (pre ++ be_put 2 x.1) _ _ (blen x.2))
    by (rewrite ?blen_app, ?blen_be_put; done || lia).
  cbn [obind]. cbv zeta. rewrite bool_false_if by lia.
  rewrite (bool_false_if ((x.1 =? 65037) && negb ech)) by (destruct He as [?| ->]; simpl; lia).
  rewrite (bool_false_if (x.1 =? 0)) by lia. f_equal. lia.
Qed.

(** The server name extension. *)
Lemma ext_loop_sni fuel pre name n post off stop ech :
  normalizeDomain name = Ok n → 0 < blen name < 65000 →
  off = blen pre → off + blen (enc_ext (enc_sni name)) ≤ stop →
  ext_loop (S fuel) (pre ++ enc_ext (enc_sni name) ++ post) off stop ech [] =
  ext_loop fuel (pre ++ enc_ext (enc_sni name) ++ post) (off + blen (enc_ext (enc_sni name))) stop ech n.
Proof.
  intros Hn Hb -> Hs. rewrite enc_ext_len in *.
  set (d := (enc_sni name).2) in *.
  assert (Ld : blen d = blen name + 5).
  { unfold d, enc_sni. cbn [snd]. rewrite !blen_app, !blen_be_put, blen_cons, blen_nil. lia. }
  unfold enc_ext. fold d. cbn [ext_loop].
  rewrite bool_true_if by lia. rewrite bool_false_if by lia. rewrite <- !app_assoc.
  rewrite (u16_at pre _ _ 0) by (done || lia). cbn [obind].
  rewrite (app_assoc pre (be_put 2 _)).
  rewrite (u16_at (pre ++ be_put 2 (enc_sni name).1) _ _ (blen d))
    by (rewrite ?blen_app, ?blen_be_put; done || lia).
  cbn [obind]. cbv zeta. rewrite bool_false_if by lia.
  change (0 =? 65037) with false. change (0 =? 0) with true. cbn [andb].
  rewrite (bool_false_if (negb (bytes_eqb [] []) || (blen d <? 5))) by (simpl; lia).
  rewrite (app_assoc (pre ++ be_put 2 (enc_sni name).1) (be_put 2 (blen d))).
  rewrite (slice_at ((pre ++ be_put 2 (enc_sni name).1) ++ be_put 2 (blen d)) d)
    by (rewrite ?blen_app, ?blen_be_put; lia).
  cbn [obind].
  assert (Ed : d = be_put 2 (blen name + 3) ++ (byte_of 0 :: be_put 2 (blen name) ++ name)) by done.
  assert (D1 : (s <~ slice d 0 2; Uint16 s) = Ret (blen name + 3)).
  { rewrite Ed. apply (u16_at []); done || lia. }
  assert (D2 : index d 2 = Ret 0).
  { rewrite Ed. by rewrite index_at by (by rewrite blen_be_put). }
  assert (Ed' : d = (be_put 2 (blen name + 3) ++ [byte_of 0]) ++ be_put 2 (blen name) ++ name)
    by (rewrite Ed, <- app_assoc; done).
  assert (D3 : (s <~ slice d (2 + 1) (2 + 3); Uint16 s) = Ret (blen name)).
  { rewrite Ed'. apply u16_at; [done|by rewrite blen_app, blen_be_put|done|lia]. }
  assert (D4 : slice d (2 + 3) (2 + 3 + blen name) = Ret name).
  { rewrite Ed', app_assoc. apply slice_at_end; rewrite ?blen_app, ?blen_be_put; done || lia. }
  rewrite D1. cbn [obind]. rewrite bool_false_if by lia.
  (* the single entry of the name list *)
  assert (E1 : name_loop (S (length d)) d 2 [] = Ret n).
  { cbn [name_loop]. rewrite bool_true_if by lia. rewrite bool_false_if by lia.
    rewrite D2. cbn [obind]. rewrite D3. cbn [obind]. cbv zeta. rewrite bool_false_if by lia.
    change (0 =? 0) with true. change (negb (bytes_eqb [] [])) with false. cbv iota.
    rewrite D4. cbn [obind]. rewrite Hn.
    destruct (length d) eqn:El; [unfold blen in *; lia|].
    cbn [name_loop]. by rewrite bool_false_if by lia. }
  rewrite E1. cbn [obind]. f_equal; first [by rewrite <- !app_assoc|lia].
Qed.

Lemma ext_loop_plains fuel pre xs post stop ech sn :
  Forall (plain_ext ech) xs → blen pre + blen (concat (enc_ext <$> xs)) ≤ stop →
  ext_loop (length xs + fuel) (pre ++ concat (enc_ext <$> xs) ++ post) (blen pre) stop ech sn =
  ext_loop fuel (pre ++ concat (enc_ext <$> xs) ++ post)
    (blen pre + blen (concat (enc_ext <$> xs))) stop ech sn.
Proof.
  intros H. revert pre. induction H as [|x xs Hx _ IH]; intros pre Hs.
  { cbn [fmap list_fmap concat length Nat.add]. by rewrite blen_nil, Z.add_0_r. }
  cbn [fmap list_fmap concat length] in *. rewrite !blen_app in *.
  pose proof (blen_nonneg (concat (enc_ext <$> xs))).
  rewrite <- !app_assoc. cbn [Nat.add]. rewrite ext_loop_plain by (done || lia).
  rewrite (app_assoc pre). rewrite <- blen_app. rewrite IH by (rewrite blen_app; lia).
  f_equal. rewrite blen_app. lia.
Qed.

Lemma ext_loop_done fuel body stop ech sn : ext_loop (S fuel) body stop stop ech sn = Ret sn.
Proof. cbn [ext_loop]. by rewrite bool_false_if by lia. Qed.

Lemma ext_loop_mono fuel fuel' body off stop ech sn n :
  ext_loop fuel body off stop ech sn = Ret n → (fuel ≤ fuel')%nat →
  ext_loop fuel' body off stop ech sn = Ret n.
Proof.
  revert fuel' off sn. induction fuel as [|fuel IH]; intros fuel' off sn H Hf; [done|].
  destruct fuel' as [|fuel']; [lia|]. cbn [ext_loop] in *.
  repeat match type of H with
  | (if ?b then _ else _) = _ => destruct b; try done
  | obind ?o _ = _ => destruct o; simpl in H |- *; try done
  end; try (apply IH; [done|lia]).
Qed.

(** The extension block of a hello: extensions the parser passes over around
    one server name. *)
Lemma ext_loop_hello before after name n pre ech :
  Forall (plain_ext ech) before → Forall (plain_ext ech) after →
  normalizeDomain name = Ok n → 0 < blen name < 65000 →
  let xs := concat (enc_ext <$> before ++ enc_sni name :: after) in
  ext_loop (S (length (pre ++ xs))) (pre ++ xs) (blen pre) (blen pre + blen xs) ech [] = Ret n.
Proof.
  intros Hb Ha Hn Hl xs.
  set (A := concat (enc_ext <$> before)). set (B := concat (enc_ext <$> after)).
  assert (E : xs = A ++ enc_ext (enc_sni name) ++ B)
    by (unfold xs; rewrite fmap_app, concat_app; done).
  pose proof (blen_nonneg A). pose proof (blen_nonneg B).
  pose proof (enc_ext_len (enc_sni name)) as Ls. pose proof (blen_nonneg (enc_sni name).2).
  assert (Lx : blen xs = blen A + (blen (enc_ext (enc_sni name)) + blen B)) by (rewrite E, !blen_app; lia).
  assert (Hlen : ∀ l, (length l ≤ length (concat (enc_ext <$> l)))%nat).
  { induction l as [|x l IHl]; [done|]. cbn [fmap list_fmap concat length]. rewrite length_app.
    pose proof (enc_ext_len x) as Q. unfold blen in Q. fold (enc_ext <$> l) in *. lia. }
  eapply (ext_loop_mono (length before + S (length after + 1))).
  - remember (blen pre + blen xs) as stop eqn:Es. rewrite E. unfold A at 1.
    rewrite ext_loop_plains by first [exact Hb|fold A; lia]. fold A.
    rewrite (app_assoc pre A). rewrite <- blen_app.
    rewrite (ext_loop_sni _ _ _ n) by (first [exact Hn|exact Hl|reflexivity|rewrite !blen_app; lia]).
    rewrite (app_assoc (pre ++ A)). rewrite <- blen_app. rewrite <- (app_nil_r B).
    unfold B. rewrite ext_loop_plains by first [exact Ha|fold B; rewrite !blen_app; lia].
    fold B. replace (blen ((pre ++ A) ++ enc_ext (enc_sni name)) + blen B) with stop
      by (rewrite !blen_app; lia).
    apply ext_loop_done.
  - rewrite length_app, E, !length_app. pose proof (Hlen before). pose proof (Hlen after).
    unfold A, B. unfold blen in Ls. lia.
Qed.

(** The whole handshake message. *)
Lemma index_head a b c d (r : bytes) :
  index (a :: b :: c :: d :: r) 1 = Ret (byte_val b) ∧ index (a :: b :: c :: d :: r) 2 = Ret (byte_val c) ∧
  index (a :: b :: c :: d :: r) 3 = Ret (byte_val d).
Proof.
  split_and!; [exact (index_at [a] (c :: d :: r) b 1 eq_refl)|exact (index_at [a; b] (d :: r) c 2 eq_refl)|
    exact (index_at [a; b; c] r d 3 eq_refl)].
Qed.

Lemma handshake_length_enc n rest :
  0 ≤ n < 16777216 → handshake_length ([byte_of 1] ++ be_put 3 n ++ rest) = Ret (4 + n).
Proof.
  intros Hn. unfold handshake_length. cbv [be_put].
  change (Z.of_nat 2) with 2. change (Z.of_nat 1) with 1. change (Z.of_nat 0) with 0.
  change (2 ^ (8 * 2)) with 65536. change (2 ^ (8 * 1)) with 256. change (2 ^ (8 * 0)) with 1.
  cbn [app].
  match goal with |- context [index (?a :: ?b :: ?c :: ?d :: ?r) _] =>
    destruct (index_head a b c d r) as (-> & -> & ->) end. cbn [obind].
  rewrite !byte_val_of. unfold wrap. change (2 ^ 8) with 256. f_equal.
  rewrite !Z.shiftl_mul_pow2 by lia. change (2 ^ 16) with 65536. change (2 ^ 8) with 256.
  rewrite Z.div_1_r. Z.div_mod_to_equations. lia.
Qed.

Ltac hsz := rewrite ?blen_app, ?blen_be_put, ?blen_cons, ?blen_nil; first [reflexivity|lia].

Record hello_ok (ech : bool) (prefix session ciphers compression : bytes)
    (before : list (Z * bytes)) (name n : bytes) (after : list (Z * bytes)) : Prop := HelloOk {
  ho_prefix : blen prefix = 34;
  ho_session : blen session < 256;
  ho_ciphers : 2 ≤ blen ciphers < 65536 ∧ blen ciphers mod 2 = 0;
  ho_compression : 1 ≤ blen compression < 256;
  ho_exts : blen (concat (enc_ext <$> before ++ enc_sni name :: after)) < 65536;
  ho_before : Forall (plain_ext ech) before;
  ho_after : Forall (plain_ext ech) after;
  ho_name : normalizeDomain name = Ok n ∧ 0 < blen name < 65000 }.

Lemma byte_val_of_small z : 0 ≤ z < 256 → byte_val (byte_of z) = z.
Proof. intros. by rewrite byte_val_of, wrap_small. Qed.

Lemma normalizeDomain_nonempty name n : normalizeDomain name = Ok n → bytes_eqb n [] = false.
Proof.
  intros H. pose proof (normalizeDomain_inv _ _ H) as (_ & Hl & _).
  unfold bytes_eqb. apply bool_decide_eq_false. intros ->. rewrite blen_nil in Hl. lia.
Qed.

Lemma parse_enc_hello ech prefix session ciphers compression before name n after :
  hello_ok ech prefix session ciphers compression before name n after →
  let hello := enc_hello prefix session ciphers compression (before ++ enc_sni name :: after) in
  parseClientHelloSNI hello ech = Ret n ∧
  ∃ l, hello = [byte_of 1] ++ be_put 3 l ++ drop 4 hello ∧ 38 ≤ l < 16777216 ∧ blen hello = 4 + l.
Proof.
  intros [Hp Hs Hc Hk Hx Hb Ha [Hn Hl]]. unfold enc_hello.
  set (xs := concat _) in *. cbv zeta.
  set (body := prefix ++ _). pose proof (blen_nonneg session). pose proof (blen_nonneg xs).
  assert (Lb : blen body = 34 + (1 + (blen session + (2 + (blen ciphers + (1 + (blen compression + (2 + blen xs)))))))).
  { unfold body. rewrite !blen_app, !blen_be_put, !blen_cons, blen_nil. lia. }
  assert (Lh : blen ([byte_of 1] ++ be_put 3 (blen body) ++ body) = 4 + blen body).
  { rewrite !blen_app, blen_be_put, blen_cons, blen_nil. lia. }
  split.
  2: { exists (blen body). split_and!; [by destruct body|lia|lia|exact Lh]. }
  unfold parseClientHelloSNI. rewrite Lh. rewrite bool_false_if by lia.
  rewrite handshake_length_enc by lia. cbn [obind].
  change (index ([byte_of 1] ++ be_put 3 (blen body) ++ body) 0) with
    (index ([] ++ byte_of 1 :: be_put 3 (blen body) ++ body) 0).
  rewrite (index_at []) by done. cbn [obind]. change (byte_val (byte_of 1)) with 1.
  rewrite bool_false_if by lia.
  assert (Sb : slice_from ([byte_of 1] ++ be_put 3 (blen body) ++ body) 4 = Ret body).
  { unfold slice_from. rewrite Lh, app_assoc. apply slice_at_end;
      rewrite ?blen_app, ?blen_be_put, ?blen_cons, ?blen_nil; lia. }
  rewrite Sb. cbn [obind]. rewrite !bool_false_if by lia.
  assert (Q1 : index body 34 = Ret (blen session)).
  { unfold body. cbn [app]. rewrite index_at, byte_val_of_small by lia. done. }
  rewrite Q1. cbn [obind]. rewrite bool_false_if by lia.
  assert (Q2 : (s <~ slice body (34 + (1 + blen session)) (34 + (1 + blen session) + 2); Uint16 s) = Ret (blen ciphers)).
  { eapply (@eq_trans _ _ (s <~ slice ((prefix ++ [byte_of (blen session)] ++ session) ++ be_put 2 (blen ciphers) ++ _) _ _; Uint16 s)).
    - unfold body. rewrite <- !app_assoc. reflexivity.
    - apply u16_at; hsz. }
  rewrite Q2. cbn [obind]. rewrite bool_false_if by lia.
  assert (Q3 : index body (34 + (1 + blen session) + (2 + blen ciphers)) = Ret (blen compression)).
  { rewrite <- (byte_val_of_small (blen compression)) by lia.
    eapply (@eq_trans _ _ (index ((prefix ++ [byte_of (blen session)] ++ session ++ be_put 2 (blen ciphers) ++ ciphers) ++ byte_of (blen compression) :: _) _)).
    - unfold body. rewrite <- !app_assoc. reflexivity.
    - apply index_at; hsz. }
  rewrite Q3. cbn [obind]. rewrite bool_false_if by lia.
  set (pre := prefix ++ [byte_of (blen session)] ++ session ++ be_put 2 (blen ciphers) ++ ciphers ++
              [byte_of (blen compression)] ++ compression).
  assert (Eb : body = pre ++ be_put 2 (blen xs) ++ xs) by (unfold body, pre; rewrite <- !app_assoc; done).
  assert (Lp : blen pre = 34 + (1 + blen session) + (2 + blen ciphers) + (1 + blen compression)) by (unfold pre; hsz).
  clearbody pre body. subst body. rewrite <- Lp.
  rewrite (u16_at _ _ _ (blen xs)) by (done || lia). cbn [obind]. rewrite bool_false_if by lia.
  rewrite app_assoc. replace (blen pre + 2) with (blen (pre ++ be_put 2 (blen xs))) by hsz.
  pose proof (ext_loop_hello before after name n (pre ++ be_put 2 (blen xs)) ech Hb Ha Hn Hl) as He.
  cbv zeta in He. fold xs in He. rewrite He. cbn [obind].
  by rewrite (normalizeDomain_nonempty _ _ Hn).
Qed.

(** *** Reading the records back *)

Lemma read_full_app (a b : bytes) n : n = blen a → read_full n (a ++ b) = Some (a, b).
Proof.
  intros ->. unfold read_full. rewrite blen_app. pose proof (blen_nonneg b). rewrite bool_true_if by lia.
  unfold blen. rewrite Nat2Z.id, take_app_length, drop_app_length. done.
Qed.

(** What the loop knows of the announced length after [h]. *)
Definition announced (h : bytes) (l : Z) : Z := if 4 <=? blen h then 4 + l else -1.

Lemma announced_prefix (h t d : bytes) l :
  h ++ t = [byte_of 1] ++ be_put 3 l ++ d → 38 ≤ l < 16777216 → 4 ≤ blen h →
  index h 0 = Ret 1 ∧ handshake_length h = Ret (4 + l).
Proof.
  intros E Hl Hh.
  assert (∃ r, h = [byte_of 1] ++ be_put 3 l ++ r) as [r ->].
  { assert (L4 : length ([byte_of 1] ++ be_put 3 l) = 4%nat) by done.
    exists (drop 4 h). rewrite app_assoc in *. rewrite <- (take_drop 4 h) at 1. f_equal.
    rewrite <- (take_app_le h t) by (unfold blen in Hh; lia). rewrite E.
    rewrite take_app_le by lia. by rewrite take_ge by lia. }
  split; [exact (index_at [] (be_put 3 l ++ r) (byte_of 1) 0 eq_refl)|].
  apply handshake_length_enc. lia.
Qed.

Definition records (minor : Z) (frags : list bytes) : bytes := concat (enc_record minor <$> frags).

Lemma enc_record_len minor f : blen (enc_record minor f) = 5 + blen f.
Proof. unfold enc_record. hsz. Qed.

Lemma read_loop_records ech minor hello n l d rest frags :
  hello = [byte_of 1] ++ be_put 3 l ++ d → 38 ≤ l < 16777216 → blen hello = 4 + l →
  parseClientHelloSNI hello ech = Ret n → Forall (λ f, f ≠ []) frags →
  ∀ fuel raw h, frags ≠ [] → h ++ concat frags = hello → blen h ≤ blen raw →
  blen raw + blen (records minor frags) ≤ maximum → (length frags ≤ fuel)%nat →
  read_loop fuel ech (records minor frags ++ rest) raw h (announced h l) =
  Ret (raw ++ records minor frags, n, rest).
Proof.
  intros Eh Hl Lh Hp Hf. induction Hf as [|f frags Hne Hf IH]; [done|].
  intros fuel raw h _ Ec Hr Hm Hfuel. destruct fuel as [|fuel]; [simpl in Hfuel; lia|].
  unfold records in *. cbn [fmap list_fmap concat length] in *. fold (enc_record minor <$> frags) in *.
  rewrite blen_app, enc_record_len in Hm.
  pose proof (blen_nonneg (concat (enc_record minor <$> frags))). pose proof (blen_nonneg raw).
  assert (0 < blen f) by (destruct f; [done|rewrite blen_cons; pose proof (blen_nonneg f); lia]).
  unfold maximum in *. cbn [read_loop]. unfold maximum. rewrite bool_true_if by lia.
  set (hd := [byte_of 22; byte_of 3; byte_of minor] ++ be_put 2 (blen f)).
  assert (Er : enc_record minor f = hd ++ f) by (unfold enc_record, hd; by rewrite app_assoc).
  rewrite Er, <- !app_assoc. rewrite read_full_app by done.
  change (index hd 0) with (Ret 22). change (index hd 1) with (Ret 3). cbn [obind].
  change (negb (22 =? 22) || negb (3 =? 3)) with false. cbv iota.
  assert (E3 : (s <~ slice hd 3 5; Uint16 s) = Ret (blen f)).
  { unfold hd. rewrite <- (app_nil_r (be_put 2 (blen f))). apply u16_at; done || lia. }
  rewrite E3. cbn [obind]. rewrite bool_false_if by lia. rewrite read_full_app by done.
  assert (Ea : (if (4 <=? blen (h ++ f)) && (announced h l <? 0) then
        t <~ index (h ++ f) 0;
        if negb (t =? 1) then Fail "invalid TLS ClientHello: handshake type"
        else e <~ handshake_length (h ++ f);
             if (65535 <? e) || (e <? 42) then Fail "invalid TLS ClientHello: handshake length" else Ret e
      else Ret (announced h l)) = Ret (announced (h ++ f) l)).
  { unfold announced at 3. destruct (4 <=? blen (h ++ f)) eqn:E4.
    - unfold announced. destruct (4 <=? blen h) eqn:E5; cbn [andb].
      + by rewrite bool_false_if by lia.
      + cbn. destruct (announced_prefix (h ++ f) (concat frags) d l) as [-> ->];
          [by rewrite <- app_assoc, Ec|done|lia|]. cbn [obind].
        change (negb (1 =? 1)) with false. cbv iota. cbn [obind]. rewrite bool_false_if; [done|].
        assert (blen hello = blen h + blen f + blen (concat frags)) by (rewrite <- Ec, !blen_app; lia).
        assert (blen (concat frags) ≤ blen (concat (enc_record minor <$> frags))).
        { clear. induction frags as [|g gs IHg]; [done|]. cbn [fmap list_fmap concat].
          rewrite !blen_app, enc_record_len. fold (enc_record minor <$> gs). lia. }
        lia.
    - cbn [andb]. unfold announced. rewrite bool_false_if; [done|].
      rewrite blen_app in E4. lia. }
  rewrite Ea. cbn [obind].
  destruct frags as [|g gs].
  - cbn [concat] in Ec. rewrite app_nil_r in Ec. rewrite Ec.
    unfold announced. rewrite Lh. rewrite (bool_true_if (4 <=? 4 + l)) by lia. rewrite bool_true_if by lia.
    rewrite slice_full by done. cbn [obind]. rewrite Hp. cbn [obind]. by rewrite !app_nil_r.
  - assert (Hg : 0 < blen (concat (g :: gs))).
    { inversion Hf; subst. cbn [concat]. rewrite blen_app. pose proof (blen_nonneg (concat gs)).
      destruct g; [done|]. rewrite blen_cons. pose proof (blen_nonneg g). lia. }
    assert (Hn : blen (h ++ f) + blen (concat (g :: gs)) = 4 + l) by (rewrite <- Lh, <- Ec, !blen_app; lia).
    rewrite bool_false_if by (unfold announced; case_goal; lia).
    assert (Lr : blen (raw ++ hd ++ f) = blen raw + 5 + blen f) by (rewrite <- Er, blen_app, enc_record_len; lia).
    rewrite IH; [by rewrite <- !app_assoc|done|by rewrite <- app_assoc|rewrite Lr, blen_app; lia|lia|lia].
Qed.

(** C35: A ClientHello read back: whatever the session, the ciphers, the
    compression methods and the extensions the parser passes over, and however
    the client cuts the handshake message into non-empty records, as long as
    the whole stays within 65535 bytes, [readClientHello] returns the name in
    the server name extension (normalized), and exactly the records it read,
    and leaves the rest of the stream untouched. *)
Theorem client_hello_roundtrip ech minor prefix session ciphers compression before name n after frags rest :
  hello_ok ech prefix session ciphers compression before name n after →
  concat frags = enc_hello prefix session ciphers compression (before ++ enc_sni name :: after) →
  Forall (λ f, f ≠ []) frags → blen (records minor frags) ≤ maximum →
  readClientHello ech (records minor frags ++ rest) = Ret (records minor frags, n, rest).
Proof.
  intros Ho Ec Hf Hm.
  destruct (parse_enc_hello _ _ _ _ _ _ _ _ _ Ho) as [Hp (l & Eh & Hl & Lh)].
  unfold readClientHello.
  apply (read_loop_records ech minor _ n l _ rest frags Eh Hl Lh Hp Hf); [|done|done|by rewrite blen_nil|].
  - intros ->. rewrite <- Ec in Lh. cbn [concat] in Lh. rewrite blen_nil in Lh. lia.
  - rewrite length_app. clear -Hf. induction Hf as [|f fs Hne Hf IH]; [simpl; lia|].
    unfold records in *. cbn [fmap list_fmap concat length]. rewrite length_app.
    pose proof (enc_record_len minor f) as Q. unfold blen in Q. fold (enc_record minor <$> fs). lia.
Qed.

Lemma client_hello_roundtrip_witness :
  let name := list_of_str "Example.COM." in
  let prefix := repeat (byte_of 3) 34 in
  let hello := enc_hello prefix [] (repeat (byte_of 1) 2) [byte_of 0] ([(10, [])] ++ enc_sni name :: [(16, [])]) in
  readClientHello false (records 1 [take 3 hello; drop 3 hello] ++ [byte_of 23]) =
  Ret (records 1 [take 3 hello; drop 3 hello], list_of_str "example.com", [byte_of 23]).
Proof.
  intros name prefix hello. apply (client_hello_roundtrip false 1 prefix [] (repeat (byte_of 1) 2) [byte_of 0]
    [(10, [])] name (list_of_str "example.com") [(16, [])]).
  - split; try (by vm_compute); repeat constructor; simpl; try lia; by vm_compute.
  - by vm_compute.
  - repeat constructor; by vm_compute.
  - by vm_compute.
Defined.
