(* ===== verification/SaOutbound.v ===== *)
(** * The Smart Access outbound

    Models [engine/sing-box/protocol/pokrov/smartaccess/outbound.go],
    [relay_connect.go] and [address.go]: an outbound that admits TLS flows for
    the domains of a signed lease, relays them through pinned public addresses
    and can have its lease renewed or revoked while flows are running.

    The program keeps lease authorizations and flows as shared objects: every
    flow retains the authorization it was admitted with, and revoking or
    expiring that object must reach the flow.  They live in the stores [auths]
    and [heap] of the state, and the outbound and its flows refer to them by
    key.  Every critical section is one definition; a section that reads the
    clock takes the readings as arguments. *)

From stdpp Require Import base list strings gmap relations.
From Stdlib Require Import ZArith Lia Ascii.
From S2P Require Import Prelude GoTime GoBytes GoNetip UrlTestHistory SaClientHello.

Local Open Scope Z_scope.

Definition errLease : string := "smart_access_lease_unavailable".

(** ** Options *)

Record relayConnectPolicy := mkPolicy {
  FailureThreshold : Z;
  FailureWindowMS : Z;
  CooldownMS : Z;
  ConnectTimeoutMS : Z;
  TotalTimeoutMS : Z;
  MaxAttempts : Z
}.

Record saOptions := mkSaOptions {
  Detour : string;
  LeaseID : string;
  IssuedAt : string;
  NewFlowsUntil : string;
  ActiveFlowsUntil : string;
  RelayAddresses : list bytes;
  RelayConnectPolicy : option relayConnectPolicy;
  ExternalECHOuterSNI : bool;
  Domains : list smartDomain;
  MaxNewConnectionsPerMinute : Z;
  MaxConcurrentConnections : Z
}.

(** ** State *)

(** [probeFailure] is the stage of the retained probe error. *)
Record leaseAuthorization := mkAuthorization {
  id : string;
  issued : time;
  newUntil : time;
  activeUntil : time;
  newDeadline : time;
  activeDeadline : time;
  admissionExpired : bool;
  probeFailure : option ProbeStage;
  l_revoked : bool;
  l_terminateActive : bool
}.

#[export] Instance eta_leaseAuthorization : Eta leaseAuthorization := λ l,
  mkAuthorization (id l) (issued l) (newUntil l) (activeUntil l) (newDeadline l) (activeDeadline l)
    (admissionExpired l) (probeFailure l) (l_revoked l) (l_terminateActive l).

Record relayConnectState := mkRelayState {
  failures : list time;
  openUntil : time;
  probing : bool;
  epoch : Z
}.

#[export] Instance eta_relayConnectState : Eta relayConnectState := λ s,
  mkRelayState (failures s) (openUntil s) (probing s) (epoch s).

(** [authorization] refers to the store of authorizations; [remote] is the
    relay connection; [timer] the delay of the closing timer. *)
Record leaseFlow := mkFlow {
  authorization : nat;
  remote : option nat;
  fclosed : bool;
  active : bool;
  timer : Z
}.

#[export] Instance eta_leaseFlow : Eta leaseFlow := λ f,
  mkFlow (authorization f) (remote f) (fclosed f) (active f) (timer f).

Record Outbound := mkOutbound {
  relays : list addr;
  relayPolicy : option relayConnectPolicy;
  relayStates : list relayConnectState;
  preferredRelay : nat;
  domains : list smartDomain;
  externalECHOuterSNI : bool;
  lease : nat;
  leases : gmap string nat;
  maxNew : Z;
  maxConcurrent : Z;
  closed : bool;
  revoked : bool;
  terminateActive : bool;
  attempts : list time;
  flows : gset nat
}.

#[export] Instance eta_Outbound : Eta Outbound := λ h,
  mkOutbound (relays h) (relayPolicy h) (relayStates h) (preferredRelay h) (domains h)
    (externalECHOuterSNI h) (lease h) (leases h) (maxNew h) (maxConcurrent h) (closed h)
    (revoked h) (terminateActive h) (attempts h) (flows h).

(** The outbound with the objects the program refers to and the relay
    connections that were closed. *)
Record world := mkWorld {
  ob : Outbound;
  auths : gmap nat leaseAuthorization;
  next_auth : nat;
  heap : gmap nat leaseFlow;
  next_flow : nat;
  shut : gset nat
}.

#[export] Instance eta_world : Eta world := λ w,
  mkWorld (ob w) (auths w) (next_auth w) (heap w) (next_flow w) (shut w).

(** ** Public relay addresses ([address.go]) *)

Definition forbiddenRelayPrefixes : list prefix := Eval vm_compute in
  [ pfx "0.0.0.0" 8; pfx "100.64.0.0" 10; pfx "192.0.0.0" 24; pfx "192.0.2.0" 24;
    pfx "192.88.99.0" 24; pfx "198.18.0.0" 15; pfx "198.51.100.0" 24; pfx "203.0.113.0" 24;
    pfx "240.0.0.0" 4; pfx "2001::" 23; pfx "2001:db8::" 32; pfx "2002::" 16; pfx "3fff::" 20 ].

Definition global6 : prefix := Eval vm_compute in pfx "2000::" 3.

Definition publicRelayAddress (a : addr) : bool :=
  if negb (IsValid a) || Is4In6 a || negb (bool_decide (Zone a = [])) ||
     negb (IsGlobalUnicast a) || IsPrivate a || IsLoopback a
  then false
  else if Is6 a && negb (Contains global6 a) then false
  else negb (existsb (λ p, Contains p a) forbiddenRelayPrefixes).

(** ** Construction *)

Definition lease_hex (c : ascii) : bool :=
  let n := byte_val c in ((97 <=? n) && (n <=? 102)) || ((48 <=? n) && (n <=? 57)).

(** [^[a-f0-9]{32}$] *)
Definition leaseIDPattern (s : string) : bool :=
  let b := list_of_str s in (length b =? 32)%nat && forallb lease_hex b.

Definition parse (value : string) : result string time :=
  match parse_utc value with Some t => Ok t | None => Err errLease end.

Definition newLeaseAuthorization (now : time) (lid issuedAt newFlowsUntil activeFlowsUntil : string)
    : result string leaseAuthorization :=
  let? issued := parse issuedAt in
  let? newUntil := parse newFlowsUntil in
  let? activeUntil := parse activeFlowsUntil in
  if negb (leaseIDPattern lid) || negb (After newUntil issued) || Before activeUntil newUntil ||
     (10 * Minute <? Sub newUntil issued) || (Hour <? Sub activeUntil issued) || Before now issued
  then Err errLease
  else Ok {|
    id := lid; issued := issued; newUntil := newUntil; activeUntil := activeUntil;
    newDeadline := Add now (Sub newUntil now); activeDeadline := Add now (Sub activeUntil now);
    admissionExpired := negb (Before now newUntil); probeFailure := None;
    l_revoked := false; l_terminateActive := false |}.

Definition validRelayConnectPolicy (p : option relayConnectPolicy) : bool :=
  match p with
  | None => true
  | Some p =>
      if (FailureThreshold p <? 1) || (10000 <? FailureThreshold p) || (MaxAttempts p <? 1) || (8 <? MaxAttempts p)
      then false
      else if existsb (λ v, (v <? 1) || (600000 <? v))
                [FailureWindowMS p; CooldownMS p; ConnectTimeoutMS p; TotalTimeoutMS p]
      then false
      else ConnectTimeoutMS p <=? TotalTimeoutMS p
  end.

Fixpoint parse_relays (seen : list addr) (vs : list bytes) : result string (list addr) :=
  match vs with
  | [] => Ok []
  | v :: vs =>
      match ParseAddr v with
      | None => Err errScope
      | Some r =>
          if negb (publicRelayAddress r) || bool_decide (r ∈ seen) then Err errScope
          else let? rs := parse_relays (r :: seen) vs in Ok (r :: rs)
      end
  end.

#[export] Instance smartDomain_eq_dec : EqDecision smartDomain.
Proof. solve_decision. Defined.

Fixpoint check_domains (ech : bool) (seen : list smartDomain) (ds : list smartDomain)
    : result string unit :=
  match ds with
  | [] => Ok tt
  | d :: ds =>
      match normalizeDomain (Name d) with
      | Err _ => Err errScope
      | Ok name =>
          if negb (bytes_eqb name (Name d)) ||
             (negb (bool_decide (Match d = "exact")) && negb (bool_decide (Match d = "suffix"))) ||
             bool_decide (d ∈ seen) || (ech && negb (bool_decide (Match d = "exact")))
          then Err errScope
          else check_domains ech (d :: seen) ds
      end
  end.

(** [transport] is whether the dialer could be built, [manager] whether the
    context has a connection manager. *)
Definition NewOutbound (now : time) (o : saOptions) (transport manager : bool) : result string world :=
  let? l := newLeaseAuthorization now (LeaseID o) (IssuedAt o) (NewFlowsUntil o) (ActiveFlowsUntil o) in
  if (MaxNewConnectionsPerMinute o <? 1) || (10000 <? MaxNewConnectionsPerMinute o) ||
     (MaxConcurrentConnections o <? 1) || (256 <? MaxConcurrentConnections o) ||
     (length (Domains o) =? 0)%nat || (256 <? length (Domains o))%nat
  then Err errLease
  else if (length (RelayAddresses o) <? 1)%nat || (8 <? length (RelayAddresses o))%nat ||
          negb (validRelayConnectPolicy (RelayConnectPolicy o))
  then Err errLease
  else
    let? rs := parse_relays [] (RelayAddresses o) in
    if negb (bool_decide (Detour o = "")) then Err errScope
    else
      let? _ := check_domains (ExternalECHOuterSNI o) [] (Domains o) in
      if negb transport then Err errScope
      else if negb manager then Err errLease
      else Ok {|
        ob := {| relays := rs; relayPolicy := RelayConnectPolicy o;
                 relayStates := replicate (length rs) (mkRelayState [] zero_time false 0);
                 preferredRelay := 0%nat; domains := Domains o;
                 externalECHOuterSNI := ExternalECHOuterSNI o;
                 lease := 0%nat; leases := {[id l := 0%nat]};
                 maxNew := MaxNewConnectionsPerMinute o; maxConcurrent := MaxConcurrentConnections o;
                 closed := false; revoked := false; terminateActive := false;
                 attempts := []; flows := ∅ |};
        auths := {[0%nat := l]}; next_auth := 1; heap := ∅; next_flow := 0; shut := ∅ |}.

(** ** Admission *)

(** Assigns a field of the authorization [a]. *)
Definition set_auth (a : nat) (g : leaseAuthorization → leaseAuthorization) (w : world) : world :=
  w <| auths ::= alter g a |>.

Definition expired_now (now : time) (l : leaseAuthorization) : bool :=
  Before now (issued l) || negb (Before now (newUntil l)) || negb (Before now (newDeadline l)).

Definition admitsLeaseLocked (a : nat) (now : time) (w : world) : bool * world :=
  match auths w !! a with
  | None => (false, w)
  | Some l =>
      let w := if expired_now now l then set_auth a (λ l, l <| admissionExpired := true |>) w else w in
      (negb (closed (ob w)) && negb (revoked (ob w)) && negb (l_revoked l) &&
       negb (admissionExpired l || expired_now now l) && bool_decide (probeFailure l = None), w)
  end.

Definition admitsLocked (now : time) (w : world) : bool * world :=
  admitsLeaseLocked (lease (ob w)) now w.

Definition AdmitsNewFlows (now : time) (w : world) : bool * world := admitsLocked now w.

Definition current_lease (w : world) : option leaseAuthorization := auths w !! lease (ob w).

Definition getLeaseID (w : world) : string := from_option id "" (current_lease w).

Definition AcceptsRenewalEnrollment (now : time) (lid iss nu au : string) (w : world) : bool * world :=
  match current_lease w with
  | None => (false, w)
  | Some l =>
      if bool_decide (id l = lid) && bool_decide (format_utc (issued l) = iss) &&
         bool_decide (format_utc (newUntil l) = nu) && bool_decide (format_utc (activeUntil l) = au)
      then admitsLocked now w
      else (false, w)
  end.

Definition CanRenewLease (lid : string) (w : world) : bool :=
  match current_lease w with
  | Some l => negb (closed (ob w)) && negb (revoked (ob w)) && negb (l_revoked l) && bool_decide (id l = lid)
  | None => false
  end.

Definition recordProbeFailure (a : nat) (stage : ProbeStage) (now : time) (w : world) : world :=
  if bool_decide (lease (ob w) = a) then
    match admitsLeaseLocked a now w with
    | (true, w) => set_auth a (λ l, l <| probeFailure := Some stage |>) w
    | (false, w) => w
    end
  else w.

(** ** Renewal *)

Definition Equal (t u : time) : bool :=
  match mono t, mono u with
  | Some a, Some b => a =? b
  | _, _ => wall t =? wall u
  end.

(** The same identity and dates: a retry of the renewal that made [l]. *)
Definition same_grant (l next : leaseAuthorization) : bool :=
  bool_decide (id l = id next) && Equal (issued l) (issued next) &&
  Equal (newUntil l) (newUntil next) && Equal (activeUntil l) (activeUntil next).

(** The retained generations that are past their active window, which a
    renewal drops. *)
Definition prunable (now : time) (w : world) (expectedID : string) (e : string * nat) : bool :=
  negb (bool_decide (e.1 = expectedID)) &&
  match auths w !! e.2 with
  | Some r => negb (Before now (activeUntil r)) || negb (Before now (activeDeadline r))
  | None => false
  end.

(** [now1], [now2] and [now3] are the three readings of the clock;
    [retainExpiry] is the caller's persistence of the recovery bound. *)
Definition RenewLease (now1 now2 now3 : time) (expectedID nextID issuedAt newFlowsUntil activeFlowsUntil : string)
    (retainExpiry : time → option string) (w : world) : result string bool * world :=
  match leases (ob w) !! expectedID, current_lease w with
  | None, _ | _, None => (Ok false, w)
  | Some _, Some cur =>
      if closed (ob w) || revoked (ob w) || l_revoked cur then (Err errLease, w)
      else
        match newLeaseAuthorization now1 nextID issuedAt newFlowsUntil activeFlowsUntil with
        | Err _ => (Err errLease, w)
        | Ok nx =>
            if admissionExpired nx then (Err errLease, w)
            else if same_grant cur nx then (Ok true, w)
            else if negb (bool_decide (id cur = expectedID)) || bool_decide (nextID = expectedID) ||
                    Before (issued nx) (issued cur) || negb (After (newUntil nx) (newUntil cur))
            then (Err errLease, w)
            else if bool_decide (is_Some (leases (ob w) !! nextID)) then (Err errLease, w)
            else
              let w := w <| ob ::= λ h,
                h <| leases := filter (λ e, prunable now2 w expectedID e = false) (leases h) |> |> in
              if (256 <=? size (leases (ob w)))%nat then (Err errLease, w)
              else
                match retainExpiry (activeUntil nx) with
                | Some e => (Err e, w)
                | None =>
                    if Before now3 (issued nx) || negb (Before now3 (newUntil nx)) ||
                       negb (Before now3 (newDeadline nx))
                    then (Err errLease, w)
                    else
                      let a := next_auth w in
                      (Ok true,
                       w <| auths ::= insert a nx |> <| next_auth := S a |>
                         <| ob ::= λ h, h <| leases ::= insert nextID a |> <| lease := a |> |>)
                end
        end
  end.

(** ** Flows *)

(** [leaseFlow.Close]: under its own lock the flow is marked closed, once, and
    its relay connection is closed; under the outbound's lock it then leaves
    the table. *)
Definition flow_mark (f : nat) (w : world) : bool * world :=
  match heap w !! f with
  | None => (false, w)
  | Some fl =>
      if fclosed fl then (false, w)
      else (true, w <| heap := <[f := fl <| fclosed := true |>]> (heap w) |>
                    <| shut ::= λ s, match remote fl with Some r => {[r]} ∪ s | None => s end |>)
  end.

Definition flow_drop (f : nat) (w : world) : world :=
  w <| ob ::= λ h, h <| flows ::= λ s, s ∖ {[f]} |> |>.

Definition flow_Close (f : nat) (w : world) : world :=
  match flow_mark f w with
  | (true, w) => flow_drop f w
  | (false, w) => w
  end.

Definition close_flows (fs : list nat) (w : world) : world := foldl (λ w f, flow_Close f w) w fs.

Definition flow_active (w : world) (f : nat) : bool := from_option active false (heap w !! f).
Definition flow_of (w : world) (a f : nat) : bool :=
  match heap w !! f with Some fl => (authorization fl =? a)%nat | None => false end.

Definition Start (w : world) : result string unit := if closed (ob w) then Err errLease else Ok tt.

(** The sections of [Close], [Revoke] and [RevokeLease]: the new state and the
    flows that are closed after the lock is released. *)
Definition Close_section (w : world) : list nat * world :=
  (elements (flows (ob w)), w <| ob ::= λ h, h <| closed := true |> <| terminateActive := true |> |>).

Definition Revoke_section (term : bool) (w : world) : list nat * world :=
  (List.filter (λ f, term || negb (flow_active w f)) (elements (flows (ob w))),
   w <| ob ::= λ h, h <| revoked := true |> <| terminateActive ::= orb term |> |>).

Definition RevokeLease_section (lid : string) (term : bool) (w : world) : option (list nat) * world :=
  match leases (ob w) !! lid with
  | None => (None, w)
  | Some a =>
      (Some (List.filter (λ f, flow_of w a f && (term || negb (flow_active w f))) (elements (flows (ob w)))),
       set_auth a (λ l, l <| l_revoked := true |> <| l_terminateActive ::= orb term |>) w)
  end.

Definition Close (w : world) : world := let '(fs, w) := Close_section w in close_flows fs w.
Definition Revoke (term : bool) (w : world) : world :=
  let '(fs, w) := Revoke_section term w in close_flows fs w.
Definition RevokeLease (lid : string) (term : bool) (w : world) : bool * world :=
  match RevokeLease_section lid term w with
  | (None, w) => (false, w)
  | (Some fs, w) => (true, close_flows fs w)
  end.

(** A caller can not use the outbound as a raw dialer. *)
Definition DialContext (w : world) : result string nat * world := (Err errScope, w).
Definition ListenPacket (w : world) : result string nat * world := (Err errScope, w).

Definition setRemote (f : nat) (r : nat) (w : world) : bool * world :=
  match heap w !! f with
  | None => (false, w)
  | Some fl =>
      if fclosed fl then (false, w)
      else (true, w <| heap := <[f := fl <| remote := Some r |>]> (heap w) |>)
  end.

Definition current (f : nat) (now : time) (w : world) : bool * world :=
  match heap w !! f with
  | None => (false, w)
  | Some fl =>
      match auths w !! authorization fl with
      | None => (false, w)
      | Some l =>
          if Before now (issued l) || negb (Before now (activeUntil l)) || negb (Before now (activeDeadline l))
          then (false, flow_Close f w)
          else if terminateActive (ob w) || l_terminateActive l then (false, w)
          else (negb (fclosed fl), w)
      end
  end.

(** [leaseFlow.Read] and [leaseRemote.Read]: [env] is the interference while
    the underlying read blocks, [r] what it returns. *)
Definition flow_Read (f : nat) (now1 : time) (env : world → world) (r : result string Z) (now2 : time)
    (w : world) : result string Z * world :=
  match current f now1 w with
  | (false, w) => (Err errLease, w)
  | (true, w) =>
      match current f now2 (env w) with
      | (false, w) => (Err errLease, w)
      | (true, w) => (r, w)
      end
  end.

(** [leaseFlow.Write] and [leaseRemote.Write]. *)
Definition flow_Write (f : nat) (now : time) (r : result string Z) (w : world) : result string Z * world :=
  match current f now w with
  | (false, w) => (Err errLease, w)
  | (true, w) => (r, w)
  end.

(** [cachedLeaseConn.CloseWrite]. *)
Definition cached_CloseWrite (f : nat) (now : time) (closer : option (result string unit)) (w : world)
    : result string unit * world :=
  match current f now w with
  | (false, w) => (Err errLease, w)
  | (true, w) => match closer with Some r => (r, w) | None => (Ok tt, flow_Close f w) end
  end.

(** [leaseRemote.CloseWrite]: without half-close the relay connection is closed. *)
Definition remote_CloseWrite (f r : nat) (now : time) (closer : option (result string unit)) (w : world)
    : result string unit * world :=
  match current f now w with
  | (false, w) => (Err errLease, w)
  | (true, w) => match closer with Some x => (x, w) | None => (Ok tt, w <| shut ::= λ s, {[r]} ∪ s |>) end
  end.

(** ** Quota *)

(** The loop that forgets the attempts of more than a minute ago. *)
Fixpoint prune (now : time) (window : Z) (ts : list time) : list time :=
  match ts with
  | t :: r => if window <=? Sub now t then prune now window r else ts
  | [] => []
  end.

(** The last admission of [newConnection], which makes the flow active. *)
Definition activate (f a : nat) (now : time) (w : world) : bool * world :=
  let '(ok, w) := admitsLeaseLocked a now w in
  (ok, if ok then w <| heap ::= alter (λ fl, fl <| active := true |>) f |> else w).

(** The first critical section of [newConnection]. *)
Definition admit_flow (now now_timer : time) (w : world) : option nat * world :=
  let w := w <| ob ::= λ h, h <| attempts ::= prune now Minute |> |> in
  let '(ok, w) := admitsLocked now w in
  if negb ok || (maxConcurrent (ob w) <=? Z.of_nat (size (flows (ob w)))) ||
     (maxNew (ob w) <=? Z.of_nat (length (attempts (ob w))))
  then (None, w)
  else
    let f := next_flow w in
    let a := lease (ob w) in
    let deadline := from_option activeDeadline zero_time (auths w !! a) in
    (Some f,
     w <| heap ::= insert f (mkFlow a None false false (Until deadline now_timer)) |>
       <| next_flow := S f |>
       <| ob ::= λ h, h <| flows ::= union {[f]} |> <| attempts ::= λ ts, ts ++ [now] |> |>).

(** ** Relay connections ([relay_connect.go]) *)

(** The scan of [reserveRelay] over the relays, from the preferred one. *)
Fixpoint find_relay (now : time) (n pref : nat) (visited : gset nat) (states : list relayConnectState)
    (offsets : list nat) : option (nat * relayConnectState) :=
  match offsets with
  | [] => None
  | off :: offsets =>
      let index := ((pref + off) mod n)%nat in
      let continue := find_relay now n pref visited states offsets in
      if bool_decide (index ∈ visited) then continue
      else
        match states !! index with
        | None => continue
        | Some st =>
            if negb (IsZero (openUntil st)) && (probing st || Before now (openUntil st)) then continue
            else Some (index, st)
        end
  end.

(** The reserved relay, its epoch and whether the attempt is a half-open probe. *)
Definition reserveRelay (a : nat) (visited : gset nat) (extra : bool) (now : time) (w : world)
    : option (nat * Z * bool) * world :=
  let '(ok, w) := admitsLeaseLocked a now w in
  if negb ok then (None, w)
  else
    let w := w <| ob ::= λ h, h <| attempts ::= prune now Minute |> |> in
    if extra && (maxNew (ob w) <=? Z.of_nat (length (attempts (ob w)))) then (None, w)
    else
      let n := length (relays (ob w)) in
      match find_relay now n (preferredRelay (ob w)) visited (relayStates (ob w)) (seq 0 n) with
      | None => (None, w)
      | Some (index, st) =>
          let probe := negb (IsZero (openUntil st)) in
          let w := if probe
                   then w <| ob ::= λ h, h <| relayStates ::= alter (λ s, s <| probing := true |>) index |> |>
                   else w in
          let w := if extra then w <| ob ::= λ h, h <| attempts ::= λ ts, ts ++ [now] |> |> else w in
          (Some (index, epoch st, probe), w)
      end.

(** What [completeRelay] does to the state of one relay. *)
Definition complete_state (p : relayConnectPolicy) (ep : Z) (probe success cancelled : bool) (now : time)
    (st : relayConnectState) : bool * relayConnectState :=
  if negb (epoch st =? ep) then (false, st)
  else
    let st := if probe then st <| probing := false |> else st in
    if cancelled then (false, st)
    else if success then
      let st := st <| failures := [] |> in
      (true, if probe then st <| openUntil := zero_time |> <| epoch := u64 (epoch st + 1) |> else st)
    else
      let st := st <| failures ::= λ fs, prune now (FailureWindowMS p * Millisecond) fs ++ [now] |> in
      (false,
       if probe || (FailureThreshold p <=? Z.of_nat (length (failures st)))
       then st <| failures := [] |> <| openUntil := Add now (CooldownMS p * Millisecond) |>
               <| epoch := u64 (epoch st + 1) |>
       else st).

Definition completeRelay (p : relayConnectPolicy) (index : nat) (ep : Z) (probe success cancelled : bool)
    (now : time) (w : world) : bool * world :=
  match relayStates (ob w) !! index with
  | None => (false, w)
  | Some st =>
      let '(accepted, st') := complete_state p ep probe success cancelled now st in
      (accepted, w <| ob ::= λ h, h <| relayStates ::= insert index st' |>
                                    <| preferredRelay := if accepted then index else preferredRelay h |> |>)
  end.

(** What the dial of one attempt reports: whether the flow's context was over
    before the attempt, the clock at the reservation, the connection to the
    relay that was reserved, whether
    the attempt stayed within its own timeout, whether the flow's context was
    over after it, the clock at the completion, and the context at the end. *)
Record dialReport := mkDial {
  d_ctxErr : bool;
  d_now : time;
  d_conn : nat → result string nat;
  d_within : bool;
  d_cancelled : bool;
  d_now2 : time;
  d_ctxErr2 : bool
}.

Definition close_remote (r : nat) (w : world) : world := w <| shut ::= λ s, {[r]} ∪ s |>.

(** The loop of [connectRelay]: [k] counts the attempts, [dial k] is the
    report of attempt [k] and [env k] what the other goroutines
    do meanwhile.  The relays that were dialled are returned too, with what each
    dial gave. *)
Fixpoint relay_loop (p : relayConnectPolicy) (a : nat) (remaining k : nat) (visited : gset nat)
    (dial : nat → dialReport) (env : nat → world → world) (w : world)
    : result string nat * list (nat * result string nat) * world :=
  match remaining with
  | O => (Err errLease, [], w)
  | S remaining =>
      let d := dial k in
      if d_ctxErr d then (Err errLease, [], w)
      else
        match reserveRelay a visited (0 <? k)%nat (d_now d) w with
        | (None, w) => (Err errLease, [], w)
        | (Some (index, ep, probe), w) =>
            let conn := d_conn d index in
            let '(accepted, w) := completeRelay p index ep probe (is_ok conn && d_within d)
                                    (d_cancelled d) (d_now2 d) (env k w) in
            let taken := is_ok conn && accepted && negb (d_ctxErr2 d) in
            let w := match conn with
                     | Ok r => if taken then w else close_remote r w
                     | Err _ => w
                     end in
            match conn with
            | Ok r =>
                if taken then (Ok r, [(index, conn)], w)
                else if d_cancelled d then (Err errLease, [(index, conn)], w)
                else let '(res, ds, w) := relay_loop p a remaining (S k) ({[index]} ∪ visited) dial env w in
                     (res, (index, conn) :: ds, w)
            | Err _ =>
                if d_cancelled d then (Err errLease, [(index, conn)], w)
                else let '(res, ds, w) := relay_loop p a remaining (S k) ({[index]} ∪ visited) dial env w in
                     (res, (index, conn) :: ds, w)
            end
        end
  end.

Definition connectRelay (a : nat) (dial : nat → dialReport) (env : nat → world → world) (w : world)
    : result string nat * list (nat * result string nat) * world :=
  match relayPolicy (ob w) with
  | None =>
      let d := dial 0%nat in
      let w := env 0%nat w in
      let conn := d_conn d 0%nat in
      match conn with
      | Ok r => if d_ctxErr2 d then (Err errLease, [(0%nat, conn)], close_remote r w) else (Ok r, [(0%nat, conn)], w)
      | Err e => (Err e, [(0%nat, conn)], w)
      end
  | Some p => relay_loop p a (Z.to_nat (MaxAttempts p)) 0 ∅ dial env w
  end.

(** ** A connection *)

Inductive conn_result :=
| Refused (err : string)
| Forwarded (f r : nat) (raw : bytes) (serverName : bytes).

(** What a connection brings: its destination port, the bytes its peer delivers
    before the connect deadline, the readings of the clock at the successive
    sections, the failures of setting read deadlines, and the interference of
    the other goroutines between the sections. *)
Record conn_input := mkInput {
  c_port : Z;
  c_stream : bytes;
  c_now : nat → time;
  c_deadlineErr : bool;
  c_resetErr : bool;
  c_dial : nat → dialReport;
  c_dialEnv : nat → world → world;
  c_env : nat → world → world
}.

(** The read deadline while connecting: the admission deadline of the lease,
    shortened by the relay budget. *)
Definition connectDeadline (now : time) (l : leaseAuthorization) (h : Outbound) : time :=
  match relayPolicy h with
  | None => newDeadline l
  | Some p =>
      let budget := Add now (TotalTimeoutMS p * Millisecond) in
      if Before budget (newDeadline l) then budget else newDeadline l
  end.

Definition newConnection (c : conn_input) (w : world)
    : conn_result * list (nat * result string nat) * world :=
  if negb (c_port c =? 443) then (Refused errScope, [], w)
  else
    match admit_flow (c_now c 0%nat) (c_now c 1%nat) w with
    | (None, w) => (Refused errLease, [], w)
    | (Some f, w) =>
        let a := lease (ob w) in
        if c_deadlineErr c then (Refused errScope, [], flow_Close f w)
        else
          let hello := readClientHello (externalECHOuterSNI (ob w)) (c_stream c) in
          let w := c_env c 0%nat w in
          match hello with
          | Panic => (Refused "panic", [], w)
          | Fail e =>
              let w := if bool_decide (e = errECHUnsupported)
                       then recordProbeFailure a StageTLS (c_now c 2%nat) w else w in
              (Refused errScope, [], flow_Close f w)
          | Ret (raw, serverName, _) =>
              if negb (allows (domains (ob w)) serverName) then (Refused errScope, [], flow_Close f w)
              else
                match admitsLeaseLocked a (c_now c 3%nat) w with
                | (false, w) => (Refused errLease, [], flow_Close f w)
                | (true, w) =>
                    match connectRelay a (c_dial c) (c_dialEnv c) w with
                    | (Err _, ds, w) => (Refused errLease, ds, flow_Close f w)
                    | (Ok r, ds, w) =>
                        match setRemote f r (c_env c 1%nat w) with
                        | (false, w) => (Refused errLease, ds, flow_Close f (close_remote r w))
                        | (true, w) =>
                            match activate f a (c_now c 4%nat) (c_env c 2%nat w) with
                            | (false, w) => (Refused errLease, ds, flow_Close f w)
                            | (true, w) =>
                                if c_resetErr c then (Refused errLease, ds, flow_Close f (c_env c 3%nat w))
                                else (Forwarded f r raw serverName, ds, w)
                            end
                        end
                    end
                end
          end
    end.

(** ** Interleavings of the critical sections *)

Inductive step (w : world) : world → Prop :=
| step_admit_flow now nowt : step w (admit_flow now nowt w).2
| step_admits a now : step w (admitsLeaseLocked a now w).2
| step_probe_failure a stage now : step w (recordProbeFailure a stage now w)
| step_renew n1 n2 n3 expected nextID iss nu au retain :
    step w (RenewLease n1 n2 n3 expected nextID iss nu au retain w).2
| step_mark f : step w (flow_mark f w).2
| step_drop f : (∀ fl, heap w !! f = Some fl → fclosed fl = true) → step w (flow_drop f w)
| step_close : step w (Close_section w).2
| step_revoke term : step w (Revoke_section term w).2
| step_revoke_lease lid term : step w (RevokeLease_section lid term w).2
| step_remote f r : (∀ fl, heap w !! f = Some fl → remote fl = None) → step w (setRemote f r w).2
| step_activate f a now : step w (activate f a now w).2
| step_reserve a visited extra now : step w (reserveRelay a visited extra now w).2
| step_complete p index ep probe success cancelled now :
    step w (completeRelay p index ep probe success cancelled now w).2
| step_shut r : step w (close_remote r w).

(** ** What the sections may change *)

(** Identity and dates of an authorization are constant, its restrictions only
    accumulate. *)
Definition auth_le (l l' : leaseAuthorization) : Prop :=
  id l' = id l ∧ issued l' = issued l ∧ newUntil l' = newUntil l ∧ activeUntil l' = activeUntil l ∧
  newDeadline l' = newDeadline l ∧ activeDeadline l' = activeDeadline l ∧
  (admissionExpired l = true → admissionExpired l' = true) ∧
  (probeFailure l ≠ None → probeFailure l' ≠ None) ∧
  (l_revoked l = true → l_revoked l' = true) ∧
  (l_terminateActive l = true → l_terminateActive l' = true).

Definition outbound_le (h h' : Outbound) : Prop :=
  relays h' = relays h ∧ relayPolicy h' = relayPolicy h ∧ domains h' = domains h ∧
  externalECHOuterSNI h' = externalECHOuterSNI h ∧ maxNew h' = maxNew h ∧
  maxConcurrent h' = maxConcurrent h ∧
  (closed h = true → closed h' = true) ∧ (revoked h = true → revoked h' = true) ∧
  (terminateActive h = true → terminateActive h' = true).

Definition flow_le (f f' : leaseFlow) : Prop :=
  authorization f' = authorization f ∧ (fclosed f = true → fclosed f' = true) ∧
  (active f = true → active f' = true) ∧ (∀ r, remote f = Some r → remote f' = Some r).

(** [R] holds between every entry of the first store and its later version. *)
Definition grows {A} (R : A → A → Prop) (m m' : gmap nat A) : Prop :=
  ∀ k x, m !! k = Some x → ∃ y, m' !! k = Some y ∧ R x y.

Record world_le (w w' : world) : Prop := mkLe {
  le_ob : outbound_le (ob w) (ob w');
  le_auths : grows auth_le (auths w) (auths w');
  le_heap : grows flow_le (heap w) (heap w');
  le_shut : shut w ⊆ shut w'
}.

#[export] Instance auth_le_po : PreOrder auth_le.
Proof. split; [by intros h; unfold auth_le|]. intros x y z. unfold auth_le. intuition congruence. Qed.
#[export] Instance outbound_le_po : PreOrder outbound_le.
Proof. split; [by intros h; unfold outbound_le|]. intros x y z. unfold outbound_le. intuition congruence. Qed.
#[export] Instance flow_le_po : PreOrder flow_le.
Proof. split; [by intros h; unfold flow_le|]. intros x y z. unfold flow_le. naive_solver congruence. Qed.
#[export] Instance grows_po {A} (R : A → A → Prop) : PreOrder R → PreOrder (grows R).
Proof.
  intros HR. split; [intros m k x H; exists x; split; [done|reflexivity]|].
  intros m1 m2 m3 H12 H23 k x Hx. destruct (H12 k x Hx) as (y & Hy & Hxy).
  destruct (H23 k y Hy) as (z & Hz & Hyz). exists z. split; [done|by transitivity y].
Qed.
#[export] Instance world_le_po : PreOrder world_le.
Proof.
  split; [intros w; split; reflexivity|]. intros x y z [] []. split; etrans; eassumption.
Qed.

Lemma grows_insert_new {A} (R : A → A → Prop) `{!PreOrder R} (m : gmap nat A) k x :
  m !! k = None → grows R m (<[k := x]> m).
Proof.
  intros Hk j y Hj. exists y. rewrite lookup_insert_ne; [split; [done|reflexivity]|congruence].
Qed.

Lemma grows_update {A} (R : A → A → Prop) `{!PreOrder R} (m : gmap nat A) k x y :
  m !! k = Some x → R x y → grows R m (<[k := y]> m).
Proof.
  intros Hk HR j z Hj. case_key k j; [|by exists z; split]. rewrite Hk in Hj. simplify_eq. eauto.
Qed.

Lemma grows_alter {A} (R : A → A → Prop) `{!PreOrder R} (m : gmap nat A) k g :
  (∀ x, R x (g x)) → grows R m (alter g k m).
Proof.
  intros HR j z Hj. destruct (decide (k = j)) as [->|].
  - exists (g z). by rewrite lookup_alter_eq, Hj.
  - exists z. by rewrite lookup_alter_ne.
Qed.

(** ** Invariant *)

Record Inv (w : world) : Prop := mkInv {
  inv_cur : ∃ l, auths w !! lease (ob w) = Some l ∧ leases (ob w) !! id l = Some (lease (ob w));
  inv_leases : ∀ i a, leases (ob w) !! i = Some a → ∃ l, auths w !! a = Some l ∧ id l = i;
  inv_auths : ∀ a l, auths w !! a = Some l →
    (a < next_auth w)%nat ∧ mono (issued l) = None ∧ mono (newUntil l) = None ∧ mono (activeUntil l) = None;
  inv_heap : ∀ f fl, heap w !! f = Some fl → (f < next_flow w)%nat ∧ is_Some (auths w !! authorization fl);
  inv_open : ∀ f fl, heap w !! f = Some fl → fclosed fl = false → f ∈ flows (ob w);
  inv_dom : ∀ f, f ∈ flows (ob w) → is_Some (heap w !! f);
  inv_history : (size (leases (ob w)) ≤ 256)%nat;
  inv_flows : Z.of_nat (size (flows (ob w))) ≤ maxConcurrent (ob w);
  inv_attempts : Z.of_nat (length (attempts (ob w))) ≤ maxNew (ob w);
  inv_shut : ∀ f fl r, heap w !! f = Some fl → fclosed fl = true → remote fl = Some r → r ∈ shut w
}.

(** A section that leaves the stores and only shrinks the table and the
    attempts. *)
Lemma inv_ob w h :
  Inv w → outbound_le (ob w) h → lease h = lease (ob w) → leases h = leases (ob w) →
  (∀ f, f ∈ flows (ob w) → f ∈ flows h ∨ from_option fclosed true (heap w !! f) = true) →
  flows h ⊆ flows (ob w) → (length (attempts h) ≤ length (attempts (ob w)))%nat →
  Inv (w <| ob := h |>) ∧ world_le w (w <| ob := h |>).
Proof.
  intros [C L A H O D S F T U] Hle E1 E2 Hf Hs Ha. split.
  2: { split; simpl; [done|reflexivity..]. }
  pose proof Hle as (_ & _ & _ & _ & Hn & Hc & _).
  assert (size (flows h) ≤ size (flows (ob w)))%nat by (by apply subseteq_size).
  split; simpl; rewrite ?E1, ?E2; auto; try lia.
  intros f fl Hfl Ho. destruct (Hf f (O _ _ Hfl Ho)) as [?|G]; [done|]. rewrite Hfl in G. simpl in G. congruence.
Qed.

Lemma inv_set_auth w a g :
  Inv w → (∀ l, auth_le l (g l)) → Inv (set_auth a g w) ∧ world_le w (set_auth a g w).
Proof.
  intros [C L A H O D S F T U] Hg. unfold set_auth.
  assert (G : ∀ b l, auths w !! b = Some l → ∃ l', alter g a (auths w) !! b = Some l' ∧ auth_le l l').
  { intros b l Hb. by apply (grows_alter auth_le (auths w) a g Hg). }
  split; [|split; simpl; [reflexivity|exact G|reflexivity..]].
  split; simpl; auto.
  - destruct C as (l & Hl & Hi). destruct (G _ _ Hl) as (l' & Hl' & E & _). exists l'. by rewrite E.
  - intros i b Hi. destruct (L i b Hi) as (l & Hl & <-). destruct (G _ _ Hl) as (l' & Hl' & E & _).
    exists l'. by rewrite E.
  - intros b l Hb. rewrite lookup_alter_Some in Hb. destruct Hb as [(-> & l0 & Hb & ->)|[_ Hb]]; [|by apply A].
    destruct (Hg l0) as (_ & -> & -> & -> & _). by apply A.
  - intros f fl Hf. destruct (H f fl Hf) as [? [l Hl]]. destruct (G _ _ Hl) as (l' & Hl' & _).
    split; [done|by exists l'].
Qed.

Lemma inv_set_flow w f fl fl' s :
  Inv w → heap w !! f = Some fl → authorization fl' = authorization fl →
  (fclosed fl = true → fclosed fl' = true) → shut w ⊆ s →
  (fclosed fl' = true → ∀ r, remote fl' = Some r → r ∈ s) →
  Inv (w <| heap := <[f := fl']> (heap w) |> <| shut := s |>).
Proof.
  intros [C L A H O D S F T U] Hf Ha Hc Hs Hr. split; simpl; auto.
  - intros g gl. case_key f g; [|apply H]. intros [= <-]. rewrite Ha. by apply H.
  - intros g gl. case_key f g; [|apply O]. intros [= <-] Ho. apply (O f fl Hf).
    destruct (fclosed fl) eqn:E; [|done]. by rewrite Hc in Ho.
  - intros g Hg. case_key f g; [done|]. by apply D.
  - intros g gl r. case_key f g; [intros [= <-] ? ?; auto|]. intros. apply Hs. by eapply U.
Qed.

Lemma world_le_set_flow w f fl fl' s :
  heap w !! f = Some fl → flow_le fl fl' → shut w ⊆ s →
  world_le w (w <| heap := <[f := fl']> (heap w) |> <| shut := s |>).
Proof. intros Hf Hle Hs. split; simpl; [reflexivity|reflexivity|by eapply grows_update; [apply _|..]|done]. Qed.

Lemma inv_shut_more w s :
  Inv w → shut w ⊆ s → Inv (w <| shut := s |>) ∧ world_le w (w <| shut := s |>).
Proof. intros [] Hs. split; split; simpl; auto; [|reflexivity..]. intros. apply Hs. eauto. Qed.

(** Composition of sections. *)
Definition keeps (w w' : world) : Prop := Inv w → Inv w' ∧ world_le w w'.
Lemma keeps_refl w : keeps w w.
Proof. intros I. split; [done|reflexivity]. Qed.
Lemma keeps_trans w1 w2 w3 : keeps w1 w2 → keeps w2 w3 → keeps w1 w3.
Proof. intros H1 H2 I. destruct (H1 I) as [I2 ?], (H2 I2) as [I3 ?]. split; [done|by etrans]. Qed.

Lemma prune_length now d ts : (length (prune now d ts) ≤ length ts)%nat.
Proof. induction ts as [|t ts IH]; simpl; [lia|]. case_goal; simpl; lia. Qed.

Ltac ob_le := unfold outbound_le; simpl; rewrite ?orb_true_iff; tauto.

Lemma keeps_prune now w : keeps w (w <| ob ::= λ h, h <| attempts ::= prune now Minute |> |>).
Proof.
  intros I. apply inv_ob; simpl; auto; [ob_le|]. apply prune_length.
Qed.

Lemma keeps_admits a now w : keeps w (admitsLeaseLocked a now w).2.
Proof.
  intros I. unfold admitsLeaseLocked. destruct (auths w !! a); [|by apply keeps_refl].
  simpl. destruct (expired_now now l); [|by apply keeps_refl].
  apply inv_set_auth; [done|]. intros l'. unfold auth_le. simpl. tauto.
Qed.

Lemma keeps_probe_failure a stage now w : keeps w (recordProbeFailure a stage now w).
Proof.
  unfold recordProbeFailure. case_goal; [|apply keeps_refl].
  pose proof (keeps_admits a now w) as K. destruct (admitsLeaseLocked a now w) as [[] w']; [|exact K].
  eapply keeps_trans; [exact K|]. intros I. apply inv_set_auth; [done|].
  intros l. unfold auth_le. simpl. intuition congruence.
Qed.

Lemma keeps_mark f w : keeps w (flow_mark f w).2.
Proof.
  unfold flow_mark. destruct (heap w !! f) as [fl|] eqn:E; [|apply keeps_refl].
  case_goal; [apply keeps_refl|]. intros I. cbn [snd].
  assert (Hs : shut w ⊆ match remote fl with Some r => {[r]} ∪ shut w | None => shut w end)
    by (case_goal; set_solver).
  split; [apply (inv_set_flow w f fl (fl <| fclosed := true |>)); try done|
    apply (world_le_set_flow w f fl (fl <| fclosed := true |>)); [done|unfold flow_le; simpl; tauto|done]].
  simpl. intros _ r ->. set_solver.
Qed.

Lemma keeps_drop f w : (∀ fl, heap w !! f = Some fl → fclosed fl = true) → keeps w (flow_drop f w).
Proof.
  intros Hc I. apply inv_ob; simpl; auto; [ob_le| |set_solver].
  intros g Hg. destruct (decide (g = f)) as [->|]; [right|left; set_solver].
  destruct (heap w !! f) eqn:E; simpl; auto.
Qed.

Lemma flow_mark_closed f w fl : heap (flow_mark f w).2 !! f = Some fl → fclosed fl = true.
Proof.
  unfold flow_mark. destruct (heap w !! f) as [fl0|] eqn:E; simpl; [|congruence].
  destruct (fclosed fl0) eqn:Ec; simpl; [congruence|]. rewrite lookup_insert_eq. by intros [= <-].
Qed.

Lemma keeps_flow_Close f w : keeps w (flow_Close f w).
Proof.
  unfold flow_Close. pose proof (keeps_mark f w) as K. pose proof (flow_mark_closed f w) as C.
  destruct (flow_mark f w) as [[] w']; [|exact K]. eapply keeps_trans; [exact K|]. by apply keeps_drop.
Qed.

Lemma keeps_close_flows fs w : keeps w (close_flows fs w).
Proof.
  revert w. induction fs as [|f fs IH]; intros w; simpl; [apply keeps_refl|].
  eapply keeps_trans; [apply keeps_flow_Close|apply IH].
Qed.

Lemma keeps_Close_section w : keeps w (Close_section w).2.
Proof. intros I. apply inv_ob; simpl; auto. ob_le. Qed.

Lemma keeps_Revoke_section term w : keeps w (Revoke_section term w).2.
Proof. intros I. apply inv_ob; simpl; auto. ob_le. Qed.

Lemma keeps_RevokeLease_section lid term w : keeps w (RevokeLease_section lid term w).2.
Proof.
  intros I. unfold RevokeLease_section. case_goal; [|by apply keeps_refl]. apply inv_set_auth; [done|].
  intros l. unfold auth_le. simpl. rewrite orb_true_iff. tauto.
Qed.

Lemma inv_setRemote f r w : Inv w → Inv (setRemote f r w).2.
Proof.
  intros I. unfold setRemote. destruct (heap w !! f) eqn:E; [|done]. case_goal; [done|].
  apply (inv_set_flow w f l (l <| remote := Some r |>) (shut w)); simpl; try done. congruence.
Qed.

Lemma keeps_setRemote f r w :
  (∀ fl, heap w !! f = Some fl → remote fl = None) → keeps w (setRemote f r w).2.
Proof.
  intros Hr I. split; [by apply inv_setRemote|].
  unfold setRemote. destruct (heap w !! f) eqn:E; [|reflexivity]. case_goal; [reflexivity|].
  apply (world_le_set_flow w f l (l <| remote := Some r |>) (shut w)); [done| |done].
  unfold flow_le. simpl. rewrite (Hr l) by done. naive_solver.
Qed.

Lemma keeps_activate_flow f w : keeps w (w <| heap ::= alter (λ fl, fl <| active := true |>) f |>).
Proof.
  intros I. destruct (heap w !! f) as [fl|] eqn:E.
  - assert (Ea : alter (λ fl, fl <| active := true |>) f (heap w) = <[f := fl <| active := true |>]> (heap w)).
    { apply map_eq. intros j. case_key f j; [by rewrite lookup_alter_eq, E|by rewrite lookup_alter_ne]. }
    assert (Ew : w <| heap ::= alter (λ fl, fl <| active := true |>) f |> =
      w <| heap := <[f := fl <| active := true |>]> (heap w) |> <| shut := shut w |>)
      by (unfold set; f_equal; exact Ea).
    rewrite Ew. split.
    + apply (inv_set_flow w f fl (fl <| active := true |>) (shut w)); simpl; try done. intros. by eapply inv_shut.
    + apply (world_le_set_flow w f fl (fl <| active := true |>) (shut w)); [done|unfold flow_le; simpl; tauto|done].
  - assert (Ea : alter (λ fl, fl <| active := true |>) f (heap w) = heap w).
    { apply map_eq. intros j. destruct (decide (f = j)) as [->|];
        [by rewrite lookup_alter_eq, E|by rewrite lookup_alter_ne]. }
    assert (Ew : w <| heap ::= alter (λ fl, fl <| active := true |>) f |> = w)
      by (destruct w; unfold set; f_equal; exact Ea).
    rewrite Ew. by apply keeps_refl.
Qed.

Lemma keeps_activate f a now w : keeps w (activate f a now w).2.
Proof.
  unfold activate. pose proof (keeps_admits a now w) as K. destruct (admitsLeaseLocked a now w) as [[] w']; [|exact K].
  eapply keeps_trans; [exact K|]. apply keeps_activate_flow.
Qed.

Lemma admitsLeaseLocked_ob a now w : ob (admitsLeaseLocked a now w).2 = ob w.
Proof. unfold admitsLeaseLocked. repeat case_goal; done. Qed.
Lemma admitsLeaseLocked_heap a now w : heap (admitsLeaseLocked a now w).2 = heap w.
Proof. unfold admitsLeaseLocked. repeat case_goal; done. Qed.

Lemma keeps_admit_flow now nowt w : keeps w (admit_flow now nowt w).2.
Proof.
  unfold admit_flow, admitsLocked. eapply keeps_trans; [apply (keeps_prune now)|].
  set (w1 := w <| ob ::= _ |>). pose proof (keeps_admits (lease (ob w1)) now w1) as K.
  destruct (admitsLeaseLocked (lease (ob w1)) now w1) as [ok w2]. cbn [snd] in K.
  destruct (negb ok || _ || _) eqn:E; [exact K|].
  eapply keeps_trans; [exact K|]. clear K. clearbody w1. clear w1. bsplit.
  intros [C L A HH O D S F T U]. cbn [snd].
  assert (Hn : heap w2 !! next_flow w2 = None).
  { destruct (heap w2 !! next_flow w2) eqn:G; [|done]. apply HH in G as [? _]. lia. }
  split; [|split; simpl; [ob_le|reflexivity|by apply grows_insert_new; [apply _|]|reflexivity]].
  split; simpl; auto.
  - intros f fl. case_key (next_flow w2) f.
    + intros [= <-]. simpl. split; [lia|]. destruct C as (l & Hl & _). by exists l.
    + intros Hf. destruct (HH f fl Hf). split; [lia|done].
  - intros f fl. case_key (next_flow w2) f; [set_solver|]. intros. apply elem_of_union_r. by eapply O.
  - intros f [->%elem_of_singleton|Hf]%elem_of_union; [by rewrite lookup_insert_eq|].
    rewrite lookup_insert_ne; [by apply D|]. intros <-. apply D in Hf as [? ?]. congruence.
  - rewrite size_union by (apply disjoint_singleton_l; intros Hf; apply D in Hf as [? ?]; congruence).
    rewrite size_singleton. lia.
  - rewrite length_app. simpl. lia.
  - intros f fl r. case_key (next_flow w2) f; [by intros [= <-]|apply U].
Qed.

Lemma keeps_reserve a visited extra now w : keeps w (reserveRelay a visited extra now w).2.
Proof.
  unfold reserveRelay. pose proof (keeps_admits a now w) as K.
  destruct (admitsLeaseLocked a now w) as [ok w1]. cbn [snd] in K.
  destruct ok; [|exact K]. simpl negb. cbv iota.
  eapply keeps_trans; [exact K|]. eapply keeps_trans; [apply (keeps_prune now)|].
  set (w2 := w1 <| ob ::= _ |>). clearbody w2. clear.
  destruct (extra && _) eqn:E; [apply keeps_refl|].
  destruct (find_relay _ _ _ _ _ _) as [[index st]|]; [|apply keeps_refl]. cbn [snd].
  set (w3 := if negb (IsZero (openUntil st)) then _ else w2).
  assert (K3 : keeps w2 w3).
  { unfold w3. case_goal; [|apply keeps_refl]. intros I. apply inv_ob; simpl; auto. ob_le. }
  eapply keeps_trans; [exact K3|].
  assert (Ea : attempts (ob w3) = attempts (ob w2) ∧ maxNew (ob w3) = maxNew (ob w2))
    by (unfold w3; case_goal; done).
  clearbody w3. destruct extra; [|apply keeps_refl]. simpl in E.
  intros [C L A HH O D S F T U]. split; [|split; simpl; [ob_le|reflexivity..]].
  split; simpl; auto. destruct Ea as [-> ->]. rewrite length_app. simpl. lia.
Qed.

Lemma keeps_complete p index ep probe success cancelled now w :
  keeps w (completeRelay p index ep probe success cancelled now w).2.
Proof.
  unfold completeRelay. case_goal; [|apply keeps_refl]. destruct (complete_state _ _ _ _ _ _ _) as [acc st'].
  intros I. apply inv_ob; simpl; auto. ob_le.
Qed.

Lemma newLeaseAuthorization_inv now lid i n a l :
  newLeaseAuthorization now lid i n a = Ok l →
  id l = lid ∧ parse_utc i = Some (issued l) ∧ parse_utc n = Some (newUntil l) ∧
  parse_utc a = Some (activeUntil l) ∧
  (mono (issued l) = None ∧ mono (newUntil l) = None ∧ mono (activeUntil l) = None) ∧
  (wall (issued l) < wall (newUntil l) ≤ wall (activeUntil l) ∧ wall (issued l) ≤ wall now ∧
   wall (newUntil l) - wall (issued l) ≤ 10 * Minute ∧ wall (activeUntil l) - wall (issued l) ≤ Hour) ∧
  newDeadline l = Add now (Sub (newUntil l) now) ∧ activeDeadline l = Add now (Sub (activeUntil l) now) ∧
  admissionExpired l = negb (Before now (newUntil l)) ∧
  probeFailure l = None ∧ l_revoked l = false ∧ l_terminateActive l = false ∧ leaseIDPattern lid = true.
Proof.
  unfold newLeaseAuthorization, parse. intros H.
  apply rbind_ok in H as (ti & Hi & H). apply rbind_ok in H as (tn & Hn & H).
  apply rbind_ok in H as (ta & Ha & H).
  repeat match goal with G : match parse_utc ?v with _ => _ end = Ok _ |- _ =>
    destruct (parse_utc v) eqn:?; [injection G as ->|done] end.
  repeat match goal with G : parse_utc _ = Some ?t |- _ =>
    pose proof (format_parse_utc _ _ G) as [_ ?]; revert G end. intros.
  case_hyp H; [done|]. simplify_eq/=. bsplit. unfold After in *.
  rewrite !before_wall in * by done. rewrite !sub_wall in * by done.
  unfold sat64, int64_min, int64_max, Minute, Hour, Minute, Second, Millisecond in *.
  repeat split; try done; lia.
Qed.

(** The generations a renewal drops, and its commit. *)
Definition renew_prune (now : time) (expected : string) (w : world) : world :=
  w <| ob ::= λ h, h <| leases := filter (λ e, prunable now w expected e = false) (leases h) |> |>.
Definition renew_commit (nextID : string) (nx : leaseAuthorization) (w : world) : world :=
  w <| auths ::= insert (next_auth w) nx |> <| next_auth := S (next_auth w) |>
    <| ob ::= λ h, h <| leases ::= insert nextID (next_auth w) |> <| lease := next_auth w |> |>.

Lemma renew_cases n1 n2 n3 expected nextID iss nu au retain w :
  let r := RenewLease n1 n2 n3 expected nextID iss nu au retain w in
  r.2 = w ∨
  (∃ cur, current_lease w = Some cur ∧ id cur = expected ∧
     ((r.2 = renew_prune n2 expected w ∧ ∃ e, r.1 = Err e) ∨
      ∃ nx, newLeaseAuthorization n1 nextID iss nu au = Ok nx ∧ r.1 = Ok true ∧
        r.2 = renew_commit nextID nx (renew_prune n2 expected w) ∧
        closed (ob w) = false ∧ revoked (ob w) = false ∧ l_revoked cur = false ∧
        leases (ob w) !! nextID = None ∧ (size (leases (ob (renew_prune n2 expected w))) < 256)%nat ∧
        admissionExpired nx = false ∧ Before (issued nx) (issued cur) = false ∧
        After (newUntil nx) (newUntil cur) = true ∧ retain (activeUntil nx) = None ∧
        expired_now n3 nx = false)).
Proof.
  unfold RenewLease. cbv zeta.
  destruct (leases (ob w) !! expected) as [a0|] eqn:E0; [|by left].
  destruct (current_lease w) as [cur|] eqn:Ecur; [|by left].
  destruct (closed (ob w) || _ || _) eqn:Ec; [by left|]. bsplit.
  destruct (newLeaseAuthorization _ _ _ _ _) as [nx|] eqn:En; [|by left].
  destruct (admissionExpired nx) eqn:Ex; [by left|].
  destruct (same_grant cur nx); [by left|].
  destruct (negb (bool_decide (id cur = expected)) || _ || _ || _) eqn:Eg; [by left|]. bsplit.
  destruct (bool_decide (is_Some _)) eqn:Ef; [by left|]. apply bool_decide_eq_false in Ef.
  right. exists cur. split_and!; [done|done|]. fold (renew_prune n2 expected w).
  destruct (256 <=? size _)%nat eqn:Es; [left; split; [done|by eexists]|]. apply Nat.leb_gt in Es.
  destruct (retain (activeUntil nx)) eqn:Er; [left; split; [done|by eexists]|].
  destruct (Before n3 (issued nx) || _ || _) eqn:Eb; [left; split; [done|by eexists]|].
  right. exists nx. split_and!; try done. by apply eq_None_not_Some.
Qed.

Lemma keeps_renew_prune now expected w cur :
  current_lease w = Some cur → id cur = expected → keeps w (renew_prune now expected w).
Proof.
  intros Ecur Hid [C L A HH O D S F T U]. split; [|split; simpl; [ob_le|reflexivity..]].
  split; simpl; auto.
  - destruct C as (l & Hl & Hi). exists l. split; [done|]. apply map_lookup_filter_Some. split; [done|].
    unfold prunable. simpl. rewrite bool_decide_eq_true_2; [done|].
    unfold current_lease in Ecur. congruence.
  - intros i b Hi. apply map_lookup_filter_Some in Hi as [Hi _]. by apply L.
  - etrans; [apply map_size_filter|exact S].
Qed.

Lemma keeps_renew_commit now lid iss nu au nx w :
  newLeaseAuthorization now lid iss nu au = Ok nx → leases (ob w) !! lid = None →
  (size (leases (ob w)) < 256)%nat → keeps w (renew_commit lid nx w).
Proof.
  intros Hx Hf Hs [C L A HH O D S F T U].
  apply newLeaseAuthorization_inv in Hx as (Hid & _ & _ & _ & Hm & _).
  assert (Hn : auths w !! next_auth w = None).
  { destruct (auths w !! next_auth w) eqn:G; [|done]. apply A in G as [? _]. lia. }
  assert (Hne : ∀ a l, auths w !! a = Some l → a ≠ next_auth w) by congruence.
  split; [|split; simpl; [ob_le|by apply grows_insert_new; [apply _|]|reflexivity..]].
  split; simpl; auto.
  - exists nx. by rewrite lookup_insert_eq, Hid, lookup_insert_eq.
  - intros i b. case_key lid i.
    + intros [= <-]. exists nx. by rewrite lookup_insert_eq.
    + intros Hi. destruct (L i b Hi) as (l & Hl & ?). exists l. rewrite lookup_insert_ne; [done|].
      intros <-. congruence.
  - intros a l. case_key (next_auth w) a; [intros [= <-]; split; [lia|done]|].
    intros Ha. destruct (A a l Ha) as (? & ?). split; [lia|done].
  - intros f fl Hfl. destruct (HH f fl Hfl) as [? [l Hl]]. split; [done|]. exists l.
    rewrite lookup_insert_ne; [done|]. intros E. apply (Hne _ _ Hl). done.
  - rewrite map_size_insert_None by done. lia.
Qed.

Lemma keeps_renew n1 n2 n3 expected nextID iss nu au retain w :
  keeps w (RenewLease n1 n2 n3 expected nextID iss nu au retain w).2.
Proof.
  destruct (renew_cases n1 n2 n3 expected nextID iss nu au retain w)
    as [->|(cur & Hc & Hid & [[-> _]|(nx & Hx & _ & -> & _ & _ & _ & Hf & Hs & _)])];
    [apply keeps_refl|by eapply keeps_renew_prune|].
  eapply keeps_trans; [by eapply keeps_renew_prune|]. eapply keeps_renew_commit; [done| |done].
  simpl. apply map_lookup_filter_None. by left.
Qed.

Lemma keeps_step w w' : step w w' → keeps w w'.
Proof.
  destruct 1; auto using keeps_admit_flow, keeps_admits, keeps_probe_failure, keeps_renew, keeps_mark,
    keeps_drop, keeps_Close_section, keeps_Revoke_section, keeps_RevokeLease_section, keeps_setRemote,
    keeps_activate, keeps_reserve, keeps_complete.
  intros I. apply (inv_shut_more w ({[r]} ∪ shut w)); [done|set_solver].
Qed.

Lemma keeps_steps w w' : rtc step w w' → keeps w w'.
Proof. induction 1; [apply keeps_refl|]. eapply keeps_trans; [by apply keeps_step|done]. Qed.

(** ** Construction *)

Lemma parse_relays_ok seen vs rs :
  parse_relays seen vs = Ok rs →
  NoDup rs ∧ (∀ r, r ∈ rs → r ∉ seen ∧ publicRelayAddress r = true) ∧ mapM ParseAddr vs = Some rs.
Proof.
  revert seen rs. induction vs as [|v vs IH]; intros seen rs H; simpl in H.
  { injection H as <-. split_and!; [constructor|set_solver|done]. }
  destruct (ParseAddr v) as [r|] eqn:Er; [|done]. case_hyp H; [done|]. bsplit.
  apply rbind_ok in H as (rs' & H & [= <-]). apply IH in H as (Hn & Hp & Hm). split_and!.
  - constructor; [|done]. intros Hr. apply Hp in Hr as [Hr _]. set_solver.
  - intros x [->|Hx]%elem_of_cons; [done|]. apply Hp in Hx as [? ?]. set_solver.
  - simpl. rewrite Er. simpl. by rewrite Hm.
Qed.

Lemma check_domains_ok ech seen ds :
  check_domains ech seen ds = Ok tt →
  NoDup ds ∧ ∀ d, d ∈ ds → d ∉ seen ∧ normalizeDomain (Name d) = Ok (Name d) ∧
    (Match d = "exact" ∨ Match d = "suffix" ∧ ech = false).
Proof.
  revert seen. induction ds as [|d ds IH]; intros seen H; simpl in H; [split; [constructor|set_solver]|].
  destruct (normalizeDomain (Name d)) as [name|] eqn:En; [|done]. case_hyp H; [done|]. bsplit.
  match goal with G : bytes_eqb _ _ = true |- _ => apply bool_decide_eq_true in G as -> end.
  apply IH in H as [Hn Hp]. split.
  - constructor; [|done]. intros Hd. apply Hp in Hd as [Hd _]. set_solver.
  - intros x [->|Hx]%elem_of_cons; [|apply Hp in Hx as (? & ? & ?); set_solver].
    split_and!; [done|done|].
    destruct (bool_decide (Match d = "exact")) eqn:E1; bsplit; [by left|]. right.
    destruct ech; simpl in *; bsplit; [done|].
    destruct (bool_decide (Match d = "suffix")) eqn:E2; bsplit; done.
Qed.

Lemma sa_NewOutbound_inv now o t m w :
  NewOutbound now o t m = Ok w →
  ∃ l rs, newLeaseAuthorization now (LeaseID o) (IssuedAt o) (NewFlowsUntil o) (ActiveFlowsUntil o) = Ok l ∧
    parse_relays [] (RelayAddresses o) = Ok rs ∧ check_domains (ExternalECHOuterSNI o) [] (Domains o) = Ok tt ∧
    1 ≤ MaxNewConnectionsPerMinute o ≤ 10000 ∧ 1 ≤ MaxConcurrentConnections o ≤ 256 ∧
    (1 ≤ length (RelayAddresses o) ≤ 8)%nat ∧ validRelayConnectPolicy (RelayConnectPolicy o) = true ∧
    w = mkWorld (mkOutbound rs (RelayConnectPolicy o) (replicate (length rs) (mkRelayState [] zero_time false 0))
                   0 (Domains o) (ExternalECHOuterSNI o) 0 {[id l := 0%nat]} (MaxNewConnectionsPerMinute o)
                   (MaxConcurrentConnections o) false false false [] ∅)
          {[0%nat := l]} 1 ∅ 0 ∅.
Proof.
  unfold NewOutbound. intros H. apply rbind_ok in H as (l & Hl & H).
  case_hyp H; [done|]. case_hyp H; [done|]. apply rbind_ok in H as (rs & Hr & H).
  case_hyp H; [done|]. apply rbind_ok in H as ([] & Hd & H). case_hyp H; [done|]. case_hyp H; [done|].
  injection H as <-. bsplit. exists l, rs. rewrite Nat.ltb_ge in *. split_and!; try done; lia.
Qed.

Lemma sa_initial_inv now o t m w : NewOutbound now o t m = Ok w → Inv w.
Proof.
  intros (l & rs & Hl & _ & _ & Hn & Hc & _ & _ & ->)%sa_NewOutbound_inv.
  apply newLeaseAuthorization_inv in Hl as (_ & _ & _ & _ & Hm & _).
  split; simpl.
  - exists l. by rewrite !lookup_singleton_eq.
  - intros i a [<- <-]%lookup_singleton_Some. exists l. by rewrite lookup_singleton_eq.
  - intros a l' [<- <-]%lookup_singleton_Some. split; [lia|done].
  - intros f fl Hf. by rewrite lookup_empty in Hf.
  - intros f fl Hf. by rewrite lookup_empty in Hf.
  - set_solver.
  - rewrite map_size_singleton. lia.
  - change (set_size _) with (size (∅ : gset nat)). rewrite size_empty. lia.
  - lia.
  - intros f fl r Hf. by rewrite lookup_empty in Hf.
Qed.

(** ** Renewal *)

Definition restricted (w : world) : Prop :=
  closed (ob w) = true ∨ revoked (ob w) = true ∨
  ∃ l, current_lease w = Some l ∧ l_revoked l = true.

Definition progress (w w' : world) : Prop :=
  lease (ob w') = lease (ob w) ∨
  ∃ l l', current_lease w = Some l ∧ current_lease w' = Some l' ∧
    wall (newUntil l) < wall (newUntil l') ∧ wall (issued l) ≤ wall (issued l').

Lemma step_lease w w' :
  Inv w → step w w' → progress w w' ∧ (restricted w → lease (ob w') = lease (ob w)).
Proof.
  intros I H.
  assert (Hs : lease (ob w') = lease (ob w) → progress w w' ∧ (restricted w → lease (ob w') = lease (ob w)))
    by (intros E; split; [by left|done]).
  destruct H; try (apply Hs; done).
  - apply Hs. unfold admit_flow, admitsLocked. pose proof (admitsLeaseLocked_ob) as G.
    match goal with |- context [admitsLeaseLocked ?a ?n ?x] => specialize (G a n x);
      destruct (admitsLeaseLocked a n x) as [ok w2] end. simpl in G. repeat case_goal; simpl; by rewrite G.
  - apply Hs. by rewrite admitsLeaseLocked_ob.
  - apply Hs. unfold recordProbeFailure. case_goal; [|done]. pose proof (admitsLeaseLocked_ob a now w) as G.
    destruct (admitsLeaseLocked a now w) as [[] w2]; simpl in *; by rewrite G.
  - destruct (renew_cases n1 n2 n3 expected nextID iss nu au retain w)
      as [E|(cur & Hc & Hid & [[E _]|(nx & Hx & _ & E & H1 & H2 & H3 & _ & _ & _ & Hi & Hu & _)])];
      [apply Hs; by rewrite E..|].
    split.
    + right. exists cur, nx. split_and!; [done| | |].
      * rewrite E. unfold current_lease. simpl. by rewrite lookup_insert_eq.
      * apply newLeaseAuthorization_inv in Hx as (_ & _ & _ & _ & (? & ? & ?) & _).
        destruct (inv_auths _ I _ _ Hc) as (_ & ? & ? & ?). unfold After in Hu.
        rewrite before_wall in Hu by done. lia.
      * destruct (inv_auths _ I _ _ Hc) as (_ & ? & ? & ?). rewrite before_wall in Hi by done. lia.
    + intros [?|[?|(l & Hl & ?)]]; congruence.
  - apply Hs. unfold flow_mark. repeat case_goal; done.
  - apply Hs. unfold RevokeLease_section. repeat case_goal; done.
  - apply Hs. unfold setRemote. repeat case_goal; done.
  - apply Hs. unfold activate. pose proof (admitsLeaseLocked_ob a now w) as G.
    destruct (admitsLeaseLocked a now w) as [[] w2]; simpl in *; by rewrite G.
  - apply Hs. unfold reserveRelay. pose proof (admitsLeaseLocked_ob a now w) as G.
    destruct (admitsLeaseLocked a now w) as [[] w2]; simpl in *; repeat case_goal; simpl; by rewrite G.
  - apply Hs. unfold completeRelay. repeat case_goal; done.
Qed.

Lemma restricted_le w w' :
  world_le w w' → lease (ob w') = lease (ob w) → restricted w → restricted w'.
Proof.
  intros [(_ & _ & _ & _ & _ & _ & H1 & H2 & _) Ha _] E [?|[?|(l & Hl & Hr)]]; unfold restricted; auto.
  right. right. destruct (Ha _ _ Hl) as (l' & Hl' & Hle). exists l'. split.
  - unfold current_lease. by rewrite E.
  - by apply Hle.
Qed.

Lemma steps_lease w w' :
  Inv w → rtc step w w' →
  progress w w' ∧ (restricted w → lease (ob w') = lease (ob w) ∧ restricted w').
Proof.
  intros I H. revert I. induction H as [w|w1 w2 w3 H12 H23 IH]; intros I; [split; [by left|done]|].
  destruct (keeps_step _ _ H12 I) as [I2 L12]. destruct (IH I2) as [P23 R23].
  destruct (step_lease _ _ I H12) as [P12 R12]. split.
  - pose proof (keeps_steps _ _ H23 I2) as [_ L23].
    destruct P12 as [E12|(l & l' & Hl & Hl' & H1 & H2)].
    + destruct P23 as [E23|(m & m' & Hm & Hm' & H3 & H4)]; [left; congruence|]. right.
      destruct (inv_cur _ I) as (l & Hl & _). destruct (le_auths _ _ L12 _ _ Hl) as (l' & Hl' & Hle).
      unfold current_lease in Hm. rewrite E12, Hl' in Hm. simplify_eq.
      destruct Hle as (_ & E1 & E2 & _). rewrite E1, E2 in *. by exists l, m'.
    + right. destruct P23 as [E23|(m & m' & Hm & Hm' & H3 & H4)].
      * destruct (le_auths _ _ L23 _ _ Hl') as (l3 & Hl3 & (_ & E1 & E2 & _)). exists l, l3.
        unfold current_lease. rewrite E23, E1, E2. done.
      * exists l, m'. rewrite Hm in Hl'. simplify_eq. split_and!; try done; lia.
  - intros R. specialize (R12 R). destruct (R23 (restricted_le _ _ L12 R12 R)) as [E R3].
    split; [congruence|done].
Qed.

(** Renewal only ever moves forward.  From any state built by the
    constructor, under every interleaving: the current generation is either
    the same object or has a strictly later admission window and no earlier
    issue time; at most 256 generations are retained; and once the outbound is
    closed or revoked, or its current generation is revoked, the generation is
    never replaced again and every renewal is refused. *)
Theorem renewal_forward now o t m w0 w w' :
  NewOutbound now o t m = Ok w0 → rtc step w0 w → rtc step w w' →
  progress w w' ∧ (size (leases (ob w')) ≤ 256)%nat ∧
  (restricted w →
     lease (ob w') = lease (ob w) ∧
     ∀ n1 n2 n3 expected nextID iss nu au retain,
       (RenewLease n1 n2 n3 expected nextID iss nu au retain w').1 ≠ Ok true).
Proof.
  intros Hn H0 H. apply sa_initial_inv in Hn. destruct (keeps_steps _ _ H0 Hn) as [I _].
  destruct (keeps_steps _ _ H I) as [I' _]. destruct (steps_lease _ _ I H) as [P R].
  split_and!; [done|apply I'|]. intros Hr. destruct (R Hr) as [E Hr']. split; [done|].
  intros. unfold RenewLease. destruct (leases (ob w') !! expected); [|done].
  destruct (current_lease w') as [cur|] eqn:Ec; [|done].
  rewrite bool_true_if; [done|]. rewrite !orb_true_iff.
  destruct Hr' as [?|[?|(l & Hl & ?)]]; [tauto|tauto|]. right. congruence.
Qed.

(** A lease of ten minutes for one domain, one relay with a connect policy. *)
Definition ex_policy : relayConnectPolicy := mkPolicy 1 60000 1000 500 2000 2.
Definition ex_options : saOptions := {|
  Detour := ""; LeaseID := "0123456789abcdef0123456789abcdef";
  IssuedAt := "2026-01-01T00:00:00Z"; NewFlowsUntil := "2026-01-01T00:10:00Z";
  ActiveFlowsUntil := "2026-01-01T01:00:00Z";
  RelayAddresses := [list_of_str "93.184.216.34"; list_of_str "2606:4700::1111"];
  RelayConnectPolicy := Some ex_policy; ExternalECHOuterSNI := false;
  Domains := [mkDomain (list_of_str "example.com") "suffix"];
  MaxNewConnectionsPerMinute := 2; MaxConcurrentConnections := 3 |}.
Definition ex_now (s : Z) : time :=
  mkTime (63902822400 * Second + s * Second) (Some (1000 * Second + s * Second)).

Definition ex_auth : leaseAuthorization := Eval vm_compute in
  match newLeaseAuthorization (ex_now 1) (LeaseID ex_options) (IssuedAt ex_options)
          (NewFlowsUntil ex_options) (ActiveFlowsUntil ex_options) with
  | Ok l => l
  | Err _ => mkAuthorization "" zero_time zero_time zero_time zero_time zero_time true None true true
  end.
Definition ex_world : world :=
  mkWorld (mkOutbound [AV4 0x5db8d822; AV6 0x26064700000000000000000000001111 []] (Some ex_policy)
             (replicate 2 (mkRelayState [] zero_time false 0)) 0 (Domains ex_options) false 0
             {[id ex_auth := 0%nat]} 2 3 false false false [] ∅)
    {[0%nat := ex_auth]} 1 ∅ 0 ∅.

Lemma ex_world_new : NewOutbound (ex_now 1) ex_options true true = Ok ex_world.
Proof. vm_compute. reflexivity. Qed.

Lemma renewal_forward_witness :
  (RenewLease (ex_now 5) (ex_now 5) (ex_now 5) (LeaseID ex_options) "fedcba9876543210fedcba9876543210"
     "2026-01-01T00:00:01Z" "2026-01-01T00:10:01Z" "2026-01-01T01:00:00Z" (λ _, None)
     (Revoke_section false ex_world).2).1 ≠ Ok true.
Proof.
  apply (renewal_forward (ex_now 1) ex_options true true ex_world (Revoke_section false ex_world).2
    (Revoke_section false ex_world).2 ex_world_new).
  - apply rtc_once. constructor.
  - apply rtc_refl.
  - right. left. reflexivity.
Defined.

(** ** Admission *)

Definition barred (w : world) (l : leaseAuthorization) : Prop :=
  closed (ob w) = true ∨ revoked (ob w) = true ∨ l_revoked l = true ∨ admissionExpired l = true ∨
  probeFailure l ≠ None.

Lemma barred_le w w' a l :
  world_le w w' → auths w !! a = Some l → barred w l → ∃ l', auths w' !! a = Some l' ∧ barred w' l'.
Proof.
  intros [(_ & _ & _ & _ & _ & _ & H1 & H2 & _) Ha _] Hl Hb. destruct (Ha _ _ Hl) as (l' & Hl' & Hle).
  exists l'. split; [done|]. unfold barred, auth_le in *. tauto.
Qed.

Lemma admits_barred w a l now : auths w !! a = Some l → barred w l → (admitsLeaseLocked a now w).1 = false.
Proof.
  intros Hl Hb. unfold admitsLeaseLocked. rewrite Hl. simpl.
  destruct (expired_now now l); simpl; unfold barred in Hb;
    destruct Hb as [->|[->|[->|[->|Hp]]]]; simpl; rewrite ?andb_false_r; try done;
    destruct (probeFailure l); try done; by rewrite andb_false_r.
Qed.

(** The admission latches are final.  If a generation was seen outside its
    admission window once, or was revoked, or had a provider failure, or the
    outbound was revoked or closed, then no later reading of the clock - one
    set back included - admits a flow, reserves a relay or activates a pending
    flow for it again, whatever the other goroutines do. *)
Theorem admission_latched now o t m w0 w w' a l :
  NewOutbound now o t m = Ok w0 → rtc step w0 w → rtc step w w' →
  auths w !! a = Some l → barred w l →
  ∀ n n', (admitsLeaseLocked a n w').1 = false ∧
    (∀ visited extra, (reserveRelay a visited extra n w').1 = None) ∧
    (∀ f, (activate f a n w').1 = false) ∧
    (lease (ob w') = a → (admit_flow n n' w').1 = None).
Proof.
  intros Hn H0 H Hl Hb n n'. apply sa_initial_inv in Hn. destruct (keeps_steps _ _ H0 Hn) as [I _].
  destruct (keeps_steps _ _ H I) as [_ L]. destruct (barred_le _ _ _ _ L Hl Hb) as (l' & Hl' & Hb').
  pose proof (admits_barred _ _ _ n Hl' Hb') as Ha. split_and!; [done|..].
  - intros visited extra. unfold reserveRelay. by destruct (admitsLeaseLocked a n w') as [[] ?].
  - intros f. unfold activate. by destruct (admitsLeaseLocked a n w') as [[] ?].
  - intros <-. unfold admit_flow, admitsLocked.
    set (x := w' <| ob ::= _ |>).
    pose proof (admits_barred x (lease (ob x)) l' n Hl' Hb') as G.
    destruct (admitsLeaseLocked (lease (ob x)) n x) as [ok w2]. simpl in G. by rewrite G.
Qed.

(** The clock passes the admission window once and is then set back. *)
Lemma admission_latched_witness :
  let w := (admitsLeaseLocked 0 (ex_now 700) ex_world).2 in (admit_flow (ex_now 5) (ex_now 5) w).1 = None.
Proof.
  apply (admission_latched (ex_now 1) ex_options true true ex_world (admitsLeaseLocked 0 (ex_now 700) ex_world).2
    (admitsLeaseLocked 0 (ex_now 700) ex_world).2 0 (ex_auth <| admissionExpired := true |>) ex_world_new).
  - apply rtc_once. constructor.
  - apply rtc_refl.
  - vm_compute. reflexivity.
  - right. right. right. left. reflexivity.
  - vm_compute. reflexivity.
Defined.

(** ** Quota *)

(** A run of the sections with the clock: [g_clock] is the instant of the last
    section, [g_log] the recorded attempts, each with the reading of the clock
    it was recorded with and the instant of its section.  A section may read
    the clock long before it gets the lock, so a reading is only known not to
    be later than the instant. *)
Record gstate := mkG { g_world : world; g_clock : Z; g_log : list (Z * Z) }.

Inductive gstep : gstate → gstate → Prop :=
| g_other w w' c c' log :
    step w w' → attempts (ob w') = attempts (ob w) → c ≤ c' → gstep (mkG w c log) (mkG w' c' log)
| g_admit now nowt t w c c' log :
    mono now = Some t → t ≤ c' → c ≤ c' →
    gstep (mkG w c log) (mkG (admit_flow now nowt w).2 c'
      (log ++ if (admit_flow now nowt w).1 then [(t, c')] else []))
| g_reserve a visited (extra : bool) now t w c c' log :
    mono now = Some t → t ≤ c' → c ≤ c' →
    gstep (mkG w c log) (mkG (reserveRelay a visited extra now w).2 c'
      (log ++ if (reserveRelay a visited extra now w).1 then (if extra then [(t, c')] else []) else [])).

Lemma gstep_step s s' : gstep s s' → step (g_world s) (g_world s').
Proof. destruct 1; simpl; [done|constructor..]. Qed.

(** The attempts are the end of the log; what was forgotten is a minute old. *)
Record ginv (s : gstate) : Prop := mkGinv {
  ginv_inv : Inv (g_world s);
  ginv_log : ∃ old, (g_log s).*1 = old ++ omap mono (attempts (ob (g_world s))) ∧
     Forall (λ t, t + Minute ≤ g_clock s) old;
  ginv_mono : Forall (λ t, mono t ≠ None) (attempts (ob (g_world s)));
  ginv_window : ∀ i j ti ci tj cj, g_log s !! i = Some (ti, ci) → g_log s !! j = Some (tj, cj) →
     Z.of_nat i + maxNew (ob (g_world s)) ≤ Z.of_nat j → ti + Minute ≤ cj
}.

Lemma prune_split now d ts : ∃ old, ts = old ++ prune now d ts ∧ Forall (λ x, d ≤ Sub now x) old.
Proof.
  induction ts as [|t ts (old & E & Ho)]; simpl; [by exists []|].
  destruct (d <=? Sub now t) eqn:Et; [|by exists []].
  exists (t :: old). split; [simpl; by f_equal|]. constructor; [lia|done].
Qed.

Lemma minute_elapsed now t x u :
  mono now = Some t → mono x = Some u → Minute ≤ Sub now x → u + Minute ≤ t.
Proof.
  unfold Sub. intros -> ->. unfold sat64, int64_min, int64_max, Minute, Second, Millisecond. lia.
Qed.

Lemma ginv_same s w' c' :
  ginv s → Inv w' → attempts (ob w') = attempts (ob (g_world s)) →
  maxNew (ob w') = maxNew (ob (g_world s)) → g_clock s ≤ c' → ginv (mkG w' c' (g_log s)).
Proof.
  intros [I (old & El & Ho) M W] I' Ea En Hc. split; simpl; rewrite ?Ea, ?En; try done.
  exists old. split; [done|]. eapply Forall_impl; [exact Ho|]. simpl. lia.
Qed.

Lemma ginv_section s w' c' now t (app : bool) :
  ginv s → Inv w' → maxNew (ob w') = maxNew (ob (g_world s)) →
  mono now = Some t → t ≤ c' → g_clock s ≤ c' →
  attempts (ob w') = prune now Minute (attempts (ob (g_world s))) ++ (if app then [now] else []) →
  (app = true → Z.of_nat (length (prune now Minute (attempts (ob (g_world s))))) < maxNew (ob (g_world s))) →
  ginv (mkG w' c' (g_log s ++ if app then [(t, c')] else [])).
Proof.
  intros [I (old & El & Ho) M W] I' En Hm Ht Hc Ea Hl.
  destruct (prune_split now Minute (attempts (ob (g_world s)))) as (gone & Eg & Hg).
  set (ts := prune now Minute (attempts (ob (g_world s)))) in *.
  assert (Mts : Forall (λ x, mono x ≠ None) gone ∧ Forall (λ x, mono x ≠ None) ts).
  { rewrite Eg in M. by apply Forall_app in M. }
  assert (Hold : Forall (λ u, u + Minute ≤ c') (old ++ omap mono gone)).
  { apply Forall_app. split; [eapply Forall_impl; [exact Ho|]; simpl; lia|].
    apply Forall_forall. intros u (x & Hx & Hu)%list_elem_of_omap.
    rewrite Forall_forall in Hg. pose proof (minute_elapsed _ _ _ _ Hm Hu (Hg x Hx)). lia. }
  assert (Elog : (g_log s).*1 = (old ++ omap mono gone) ++ omap mono ts).
  { rewrite El, Eg, omap_app, app_assoc. done. }
  split; simpl.
  - done.
  - exists (old ++ omap mono gone). split; [|done]. rewrite Ea, fmap_app, omap_app, Elog, <- app_assoc.
    f_equal. f_equal. destruct app; simpl; [by rewrite Hm|done].
  - rewrite Ea. apply Forall_app. split; [apply Mts|]. destruct app; [|constructor].
    constructor; [by rewrite Hm|constructor].
  - rewrite En. intros i j ti ci tj cj Hi Hj Hij.
    destruct app; [|rewrite app_nil_r in *; by eapply W].
    specialize (Hl eq_refl). pose proof (inv_attempts _ I).
    rewrite lookup_app_Some in Hj. destruct Hj as [Hj|[Hjl Hj]].
    { assert (Hi' : g_log s !! i = Some (ti, ci)).
      { apply lookup_lt_Some in Hj. rewrite lookup_app_l in Hi; [done|]. lia. }
      by eapply W. }
    destruct (j - length (g_log s))%nat as [|?] eqn:Ej; [|done]. simpl in Hj. simplify_eq.
    assert (Hlen : length (g_log s) = (length (old ++ omap mono gone) + length ts)%nat).
    { rewrite <- (length_fmap fst), Elog, length_app. f_equal.
      destruct Mts as [_ Mts]. clear -Mts. induction Mts as [|x l Hx _ IH]; [done|].
      change (omap mono (x :: l)) with (match mono x with Some y => y :: omap mono l | None => omap mono l end).
      destruct (mono x); [cbn [length]; lia|done]. }
    assert (Hi' : (old ++ omap mono gone) !! i = Some ti).
    { assert (i < length (old ++ omap mono gone))%nat by lia.
      rewrite lookup_app_l in Hi by lia.
      assert (G : (g_log s).*1 !! i = Some ti) by (rewrite list_lookup_fmap, Hi; done).
      rewrite Elog, lookup_app_l in G by lia. done. }
    rewrite Forall_lookup in Hold. by apply (Hold i).
Qed.

Lemma admit_flow_attempts now nowt w :
  let r := admit_flow now nowt w in
  attempts (ob r.2) = prune now Minute (attempts (ob w)) ++ (if r.1 then [now] else []) ∧
  (is_Some r.1 → Z.of_nat (length (prune now Minute (attempts (ob w)))) < maxNew (ob w)).
Proof.
  cbv zeta. unfold admit_flow, admitsLocked. set (x := w <| ob ::= _ |>).
  pose proof (admitsLeaseLocked_ob (lease (ob x)) now x) as G.
  destruct (admitsLeaseLocked (lease (ob x)) now x) as [ok w2]. simpl in G.
  destruct (negb ok || _ || _) eqn:E; simpl; rewrite G; simpl.
  - rewrite app_nil_r. split; [done|]. by intros [? ?].
  - rewrite G in E. simpl in E. bsplit. split; [done|]. intros _. lia.
Qed.

Lemma reserve_attempts a visited extra now w :
  let r := reserveRelay a visited extra now w in
  attempts (ob r.2) = attempts (ob w) ∧ r.1 = None ∨
  attempts (ob r.2) = prune now Minute (attempts (ob w)) ++
    (if r.1 then (if extra then [now] else []) else []) ∧
  (is_Some r.1 → extra = true → Z.of_nat (length (prune now Minute (attempts (ob w)))) < maxNew (ob w)).
Proof.
  cbv zeta. unfold reserveRelay. pose proof (admitsLeaseLocked_ob a now w) as G.
  destruct (admitsLeaseLocked a now w) as [ok w1]. simpl in G.
  destruct ok; simpl; [|left; by rewrite G]. right. rewrite G.
  destruct (extra && _) eqn:E; simpl.
  { rewrite app_nil_r. split; [done|]. by intros [? ?]. }
  destruct (find_relay _ _ _ _ _ _) as [[index st]|]; simpl.
  2: { rewrite app_nil_r. split; [done|]. by intros [? ?]. }
  destruct (negb (IsZero (openUntil st))), extra; simpl; rewrite ?app_nil_r;
    (split; [done|]); intros _ ?; simpl in E; try done; lia.
Qed.

Lemma gstep_ginv s s' : ginv s → gstep s s' → ginv s'.
Proof.
  intros G H. pose proof (ginv_inv _ G) as I. pose proof (gstep_step _ _ H) as St.
  destruct (keeps_step _ _ St I) as [I' [(_ & _ & _ & _ & En & _) _ _]].
  destruct H; simpl in *.
  - by apply (ginv_same (mkG w c log)).
  - destruct (admit_flow_attempts now nowt w) as [Ea Hl].
    replace (if (admit_flow now nowt w).1 then [(t, c')] else []) with
      (if bool_decide (is_Some (admit_flow now nowt w).1) then [(t, c')] else [])
      by (by destruct (admit_flow now nowt w).1).
    apply (ginv_section (mkG w c log) _ _ now); simpl; try done.
    + rewrite Ea. f_equal. by destruct (admit_flow now nowt w).1.
    + intros ?%bool_decide_eq_true. auto.
  - destruct (reserve_attempts a visited extra now w) as [[Ea Er]|[Ea Hl]].
    + rewrite Er, app_nil_r. by apply (ginv_same (mkG w c log)).
    + replace (if (reserveRelay a visited extra now w).1 then (if extra then [(t, c')] else []) else []) with
        (if bool_decide (is_Some (reserveRelay a visited extra now w).1) && extra then [(t, c')] else [])
        by (by destruct (reserveRelay a visited extra now w).1, extra).
      apply (ginv_section (mkG w c log) _ _ now); simpl; try done.
      * rewrite Ea. f_equal. by destruct (reserveRelay a visited extra now w).1, extra.
      * intros [? ?]%andb_true_iff. bsplit. auto.
Qed.

(** The quotas hold under every interleaving.  At most
    [MaxConcurrentConnections] flows are in the table, and between the clock
    reading of one recorded attempt and the section that records the
    [MaxNewConnectionsPerMinute]-th attempt after it, at least a minute has
    passed: no sliding minute contains more attempts than the lease allows,
    whether they come from new flows or from further relay dials. *)
Theorem quota_window now o t m w0 c0 s :
  NewOutbound now o t m = Ok w0 → rtc gstep (mkG w0 c0 []) s →
  Z.of_nat (size (flows (ob (g_world s)))) ≤ MaxConcurrentConnections o ∧
  (∀ i j ti ci tj cj, g_log s !! i = Some (ti, ci) → g_log s !! j = Some (tj, cj) →
     Z.of_nat i + MaxNewConnectionsPerMinute o ≤ Z.of_nat j → ti + Minute ≤ cj).
Proof.
  intros Hn H. pose proof (sa_initial_inv _ _ _ _ _ Hn) as I.
  assert (G0 : ginv (mkG w0 c0 [])).
  { apply sa_NewOutbound_inv in Hn as (l & rs & _ & _ & _ & _ & _ & _ & _ & ->).
    split; simpl in *; [done|by exists []|constructor|]. intros i j ti ci tj cj Hi. by rewrite lookup_nil in Hi. }
  assert (St : rtc step w0 (g_world s)).
  { change w0 with (g_world (mkG w0 c0 [])). clear -H. induction H; [done|].
    eapply rtc_l; [by apply gstep_step|done]. }
  destruct (keeps_steps _ _ St I) as [I' [(_ & _ & _ & _ & En & Ec & _) _ _]].
  assert (G : ginv s) by (clear -G0 H; induction H; eauto using gstep_ginv).
  apply sa_NewOutbound_inv in Hn as (l & rs & _ & _ & _ & _ & _ & _ & _ & ->). simpl in *.
  split; [rewrite <- Ec; apply I'|]. rewrite <- En. apply G.
Qed.

(** Two flows in the same second; the third attempt waits for a minute. *)
Lemma quota_window_witness : 1002 * Second + Minute ≤ 1062 * Second.
Proof.
  pose (a := λ n w, (admit_flow (ex_now n) (ex_now n) w).2).
  pose (L1 := [(1002 * Second, 1002 * Second)]).
  pose (L2 := L1 ++ [(1002 * Second, 1002 * Second)]).
  pose (L4 := L2 ++ [(1062 * Second, 1062 * Second)]).
  assert (Hs : ∀ n w c log log', (c ≤ 1000 * Second + n * Second) →
     log' = (log ++ if (admit_flow (ex_now n) (ex_now n) w).1
                    then [(1000 * Second + n * Second, 1000 * Second + n * Second)] else []) →
     gstep (mkG w c log) (mkG (a n w) (1000 * Second + n * Second) log')).
  { intros n w c log log' Hc ->. by apply g_admit. }
  refine (proj2 (quota_window (ex_now 1) ex_options true true ex_world (1001 * Second)
    (mkG (a 62 (a 61 (a 2 (a 2 ex_world)))) (1000 * Second + 62 * Second) L4) ex_world_new _)
    0%nat 2%nat (1002 * Second) (1002 * Second) (1062 * Second) (1062 * Second) _ _ _).
  - eapply rtc_l; [apply (Hs 2 ex_world _ [] L1); [done|by vm_compute]|].
    eapply rtc_l; [apply (Hs 2 (a 2 ex_world) _ L1 L2); [done|by vm_compute]|].
    eapply rtc_l; [apply (Hs 61 (a 2 (a 2 ex_world)) _ L2 L2); [done|by vm_compute]|].
    apply rtc_once. apply (Hs 62 (a 61 (a 2 (a 2 ex_world))) _ L2 L4); [done|by vm_compute].
  - reflexivity.
  - reflexivity.
  - vm_compute. discriminate.
Defined.

(** ** Closing flows *)

Lemma flow_Close_lookup_ne f g w : f ≠ g → heap (flow_Close f w) !! g = heap w !! g.
Proof.
  intros. unfold flow_Close, flow_mark. repeat case_goal; simplify_eq/=; by rewrite ?lookup_insert_ne.
Qed.

Lemma flow_Close_flows f w : flows (ob w) ∖ {[f]} ⊆ flows (ob (flow_Close f w)) ⊆ flows (ob w).
Proof. unfold flow_Close, flow_mark. repeat case_goal; simplify_eq/=; set_solver. Qed.

Lemma flow_Close_ob f w : ob (flow_Close f w) = (ob w) <| flows := flows (ob (flow_Close f w)) |>.
Proof.
  unfold flow_Close, flow_mark. destruct w as [[] ? ? ? ? ?]; simpl. repeat (case_goal; simplify_eq/=); done.
Qed.

Lemma flow_Close_auths f w : auths (flow_Close f w) = auths w.
Proof. unfold flow_Close, flow_mark. repeat case_goal; simplify_eq/=; done. Qed.

Lemma flow_Close_closed f w fl : heap (flow_Close f w) !! f = Some fl → fclosed fl = true.
Proof.
  pose proof (flow_mark_closed f w fl) as H. unfold flow_Close.
  destruct (flow_mark f w) as [[] w']; simpl in *; exact H.
Qed.

Lemma close_flows_ob fs w : ob (close_flows fs w) = (ob w) <| flows := flows (ob (close_flows fs w)) |>.
Proof.
  revert w. induction fs as [|f fs IH]; intros w; simpl; [by destruct w as [[] ? ? ? ? ?]|].
  rewrite IH. rewrite (flow_Close_ob f w). done.
Qed.

Lemma close_flows_auths fs w : auths (close_flows fs w) = auths w.
Proof. revert w. induction fs as [|f fs IH]; intros w; simpl; [done|]. by rewrite IH, flow_Close_auths. Qed.

Lemma close_flows_not_in fs w g :
  g ∉ fs → heap (close_flows fs w) !! g = heap w !! g ∧ (g ∈ flows (ob w) → g ∈ flows (ob (close_flows fs w))).
Proof.
  revert w. induction fs as [|f fs IH]; intros w; simpl; [done|]. rewrite not_elem_of_cons. intros [Hn Hg].
  destruct (IH (flow_Close f w) Hg) as [-> H]. rewrite flow_Close_lookup_ne by done. split; [done|].
  intros Hin. apply H. pose proof (flow_Close_flows f w). set_solver.
Qed.

Lemma close_flows_in fs w g fl :
  heap w !! g = Some fl → g ∈ fs →
  ∃ fl', heap (close_flows fs w) !! g = Some fl' ∧ fclosed fl' = true ∧ flow_le fl fl'.
Proof.
  intros Hg Hin.
  assert (G : ∀ fs w fl, heap w !! g = Some fl →
    ∃ fl', heap (close_flows fs w) !! g = Some fl' ∧ (fclosed fl = true ∨ g ∈ fs → fclosed fl' = true) ∧ flow_le fl fl').
  { clear. induction fs as [|f fs IH]; intros w fl Hg; simpl.
    { exists fl. split_and!; [done|set_solver|reflexivity]. }
    assert (∃ fl1, heap (flow_Close f w) !! g = Some fl1 ∧ (fclosed fl = true ∨ f = g → fclosed fl1 = true) ∧ flow_le fl fl1)
      as (fl1 & H1 & Hc & Hle).
    { destruct (decide (f = g)) as [->|]; [|exists fl; rewrite flow_Close_lookup_ne by done; naive_solver].
      unfold flow_Close, flow_mark. rewrite Hg. destruct (fclosed fl) eqn:E; simpl; [by exists fl|].
      rewrite lookup_insert_eq. eexists. split_and!; [done|done|]. unfold flow_le. simpl. tauto. }
    destruct (IH (flow_Close f w) fl1 H1) as (fl2 & H2 & Hc2 & Hle2). exists fl2. split_and!; [done| |by etrans].
    intros [?|[->|?]%elem_of_cons]; apply Hc2; auto. }
  destruct (G fs w fl Hg) as (fl' & ? & Hc & ?). exists fl'. split_and!; auto.
Qed.

Lemma current_terminated f fl l now w :
  heap w !! f = Some fl → auths w !! authorization fl = Some l → l_terminateActive l = true →
  (current f now w).1 = false.
Proof. intros Hf Hl Ht. unfold current. rewrite Hf, Hl, Ht, orb_true_r. by case_goal. Qed.

Lemma current_eq f now w w' :
  heap w' !! f = heap w !! f → terminateActive (ob w') = terminateActive (ob w) →
  (∀ fl, heap w !! f = Some fl → auths w' !! authorization fl = auths w !! authorization fl) →
  (current f now w').1 = (current f now w).1.
Proof.
  intros E1 E2 E3. unfold current. rewrite E1, E2. destruct (heap w !! f) as [fl|]; [|done].
  rewrite (E3 fl eq_refl). by repeat case_goal.
Qed.

(** A revocation reaches exactly the generation it names.  [RevokeLease] of
    a retained generation closes its flows - all of them when it terminates,
    the ones not yet active when it drains - with their relay connections;
    every flow of another generation stays as it is, open, in the table and
    usable as before.  After a terminating revocation no byte passes through
    any flow of the generation in any later state. *)
Theorem revoke_generation w lid term a :
  Inv w → leases (ob w) !! lid = Some a →
  let w' := (RevokeLease lid term w).2 in
  (RevokeLease lid term w).1 = true ∧
  (∀ f fl, heap w !! f = Some fl → fclosed fl = false →
     if (authorization fl =? a)%nat && (term || negb (active fl))
     then (∃ fl', heap w' !! f = Some fl' ∧ fclosed fl' = true) ∧ (∀ r, remote fl = Some r → r ∈ shut w')
     else heap w' !! f = Some fl ∧ f ∈ flows (ob w') ∧
          (authorization fl ≠ a → ∀ now, (current f now w').1 = (current f now w).1)) ∧
  (term = true → ∀ w'' f fl now1 env r now2, rtc step w' w'' →
     heap w'' !! f = Some fl → authorization fl = a →
     (flow_Read f now1 env r now2 w'').1 = Err errLease ∧ (flow_Write f now1 r w'').1 = Err errLease).
Proof.
  intros I Ha. cbv zeta. unfold RevokeLease.
  pose proof (keeps_RevokeLease_section lid term w I) as [I1 _].
  unfold RevokeLease_section in *. rewrite Ha in *. cbn [snd fst] in *.
  set (w1 := set_auth a _ w) in *. set (fs := List.filter _ _).
  destruct (keeps_close_flows fs w1 I1) as [I2 L2].
  assert (Hfs : ∀ f fl, heap w !! f = Some fl → fclosed fl = false →
    f ∈ fs ↔ (authorization fl =? a)%nat && (term || negb (active fl)) = true).
  { intros f fl Hf Ho. unfold fs. rewrite list_elem_of_In, filter_In, <- list_elem_of_In, elem_of_elements.
    unfold flow_of, flow_active. rewrite Hf. simpl. pose proof (inv_open _ I f fl Hf Ho). tauto. }
  split_and!; [done|..].
  - intros f fl Hf Ho. specialize (Hfs f fl Hf Ho). destruct (_ && _) eqn:E.
    + destruct (close_flows_in fs w1 f fl Hf) as (fl' & Hf' & Hc' & Hle); [by apply Hfs|].
      split; [by exists fl'|]. intros r Hr. eapply (inv_shut _ I2 f fl'); [done|done|]. by apply Hle.
    + assert (Hn : f ∉ fs) by (intros ?%Hfs; done).
      destruct (close_flows_not_in fs w1 f Hn) as [Hl Hin]. split_and!.
      * rewrite Hl. done.
      * apply Hin. by eapply (inv_open _ I).
      * intros Hna now. apply current_eq; [by rewrite Hl|by rewrite close_flows_ob|].
        intros fl0 Hf0. rewrite close_flows_auths. rewrite Hf in Hf0. simplify_eq.
        unfold w1, set_auth. simpl. by rewrite lookup_alter_ne by congruence.
  - intros -> w'' f fl now1 env r now2 Hs Hf Hfa.
    destruct (keeps_steps _ _ Hs I2) as [_ L3].
    destruct (inv_leases _ I lid a Ha) as (l & Hl & _).
    assert (H1 : auths (close_flows fs w1) !! a = Some (l <| l_revoked := true |> <| l_terminateActive ::= orb true |>)).
    { rewrite close_flows_auths. unfold w1, set_auth. simpl. by rewrite lookup_alter_eq, Hl. }
    destruct (le_auths _ _ L3 _ _ H1) as (l' & Hl' & Hle).
    assert (Ht : l_terminateActive l' = true) by (by apply Hle).
    rewrite <- Hfa in Hl'. pose proof (current_terminated f fl l' now1 w'' Hf Hl' Ht) as Hcur.
    unfold flow_Read, flow_Write. by destruct (current f now1 w'') as [[] ?].
Qed.

(** One flow is admitted, the lease is renewed, a second flow is admitted: the
    revocation of the first generation leaves the second flow alone. *)
Definition ex_next : string := "fedcba9876543210fedcba9876543210".
Definition ex_two : world :=
  let w1 := (admit_flow (ex_now 2) (ex_now 2) ex_world).2 in
  let w2 := (RenewLease (ex_now 3) (ex_now 3) (ex_now 3) (LeaseID ex_options) ex_next
               "2026-01-01T00:00:01Z" "2026-01-01T00:10:01Z" "2026-01-01T01:00:00Z" (λ _, None) w1).2 in
  (admit_flow (ex_now 4) (ex_now 4) w2).2.

Lemma ex_two_inv : Inv ex_two.
Proof.
  pose proof (sa_initial_inv _ _ _ _ _ ex_world_new) as I.
  unfold ex_two. apply keeps_admit_flow, keeps_renew, keeps_admit_flow. exact I.
Qed.

Lemma revoke_generation_witness :
  heap (RevokeLease (LeaseID ex_options) true ex_two).2 !! 1%nat = heap ex_two !! 1%nat ∧
  1%nat ∈ flows (ob (RevokeLease (LeaseID ex_options) true ex_two).2).
Proof.
  pose proof (revoke_generation ex_two (LeaseID ex_options) true 0 ex_two_inv ltac:(vm_compute; reflexivity))
    as (_ & H & _).
  specialize (H 1%nat (mkFlow 1 None false false 3596000000000) ltac:(vm_compute; reflexivity) eq_refl).
  change ((authorization (mkFlow 1 None false false 3596000000000) =? 0)%nat && (true || negb false)) with false in H.
  cbv iota in H. destruct H as (H1 & H2 & _). split; [rewrite H1; vm_compute; reflexivity|exact H2].
Defined.

(** ** Relay dials *)

Lemma find_relay_ok now n pref visited states offs index st :
  find_relay now n pref visited states offs = Some (index, st) →
  index ∉ visited ∧ states !! index = Some st ∧
  (IsZero (openUntil st) = true ∨ probing st = false ∧ Before now (openUntil st) = false).
Proof.
  induction offs as [|off offs IH]; simpl; [done|]. intros H.
  case_hyp H; [auto|]. case_hyp H; [|auto]. bsplit. case_hyp H; [auto|]. simplify_eq.
  split_and!; [done|done|].
  destruct (IsZero (openUntil st)); [by left|]. right. simpl in *. by bsplit.
Qed.

Lemma reserve_ok a visited extra now w index ep probe w' :
  reserveRelay a visited extra now w = (Some (index, ep, probe), w') →
  index ∉ visited ∧ ∃ st, relayStates (ob w) !! index = Some st ∧ ep = epoch st ∧
    probe = negb (IsZero (openUntil st)) ∧
    (probe = true → probing st = false ∧ Before now (openUntil st) = false) ∧
    relayStates (ob w') = (if probe then alter (λ s, s <| probing := true |>) index (relayStates (ob w))
                           else relayStates (ob w)).
Proof.
  unfold reserveRelay. pose proof (admitsLeaseLocked_ob a now w) as G.
  destruct (admitsLeaseLocked a now w) as [ok w1]. simpl in G. intros H.
  case_hyp H; [done|]. case_hyp H; [done|].
  destruct (find_relay _ _ _ _ _ _) as [[i st]|] eqn:Ef; [|done]. simplify_eq/=.
  apply find_relay_ok in Ef as (Hv & Hst & Ho). rewrite G in Hst. split; [done|]. exists st.
  split_and!; [done..| |].
  - intros Hp. apply negb_true_iff in Hp. destruct Ho as [?|?]; [congruence|done].
  - destruct (IsZero (openUntil st)), extra; simpl; rewrite ?G; done.
Qed.

Lemma close_remote_keeps r w : keeps w (close_remote r w) ∧ r ∈ shut (close_remote r w).
Proof. split; [intros I; apply (inv_shut_more w ({[r]} ∪ shut w)); [done|set_solver]|simpl; set_solver]. Qed.

(** What a run of dials guarantees: no relay twice, none of the visited ones,
    at most [n], and every connection that was opened is the result or closed. *)
Record dials_ok (visited : gset nat) (n : nat) (res : result string nat)
    (ds : list (nat * result string nat)) (w' : world) : Prop := mkDials {
  dials_nodup : NoDup ds.*1;
  dials_fresh : ∀ i, i ∈ ds.*1 → i ∉ visited;
  dials_bound : (length ds ≤ n)%nat;
  dials_closed : ∀ i r, (i, Ok r) ∈ ds → res = Ok r ∨ r ∈ shut w';
  dials_result : ∀ r, res = Ok r → ∃ i, (i, Ok r) ∈ ds }.

Lemma dials_nil visited n e w : dials_ok visited n (Err e) [] w.
Proof.
  split; simpl; [constructor|intros i H; by apply elem_of_nil in H|lia|intros i r H; by apply elem_of_nil in H|done].
Qed.

Lemma dials_one visited n res i conn w :
  i ∉ visited → (∀ r, conn = Ok r → res = Ok r ∨ r ∈ shut w) → (∀ r, res = Ok r → conn = Ok r) →
  dials_ok visited (S n) res [(i, conn)] w.
Proof.
  intros Hv Hc Hr. split; simpl.
  - apply NoDup_singleton.
  - by intros j ->%list_elem_of_singleton.
  - lia.
  - intros j r Hj. apply list_elem_of_singleton in Hj. injection Hj as -> Ej. auto.
  - intros r H. exists i. apply list_elem_of_singleton. f_equal. symmetry. auto.
Qed.

Lemma dials_cons visited n res i conn ds w :
  i ∉ visited → (∀ r, conn = Ok r → r ∈ shut w) → dials_ok ({[i]} ∪ visited) n res ds w →
  dials_ok visited (S n) res ((i, conn) :: ds) w.
Proof.
  intros Hv Hc [H1 H2 H3 H4 H5]. split; simpl.
  - constructor; [|done]. intros ?%H2. set_solver.
  - intros j [->|Hj]%elem_of_cons; [done|]. apply H2 in Hj. set_solver.
  - lia.
  - intros j r [[= -> <-]|Hj]%elem_of_cons; [right; auto|by eapply H4].
  - intros r Hr. destruct (H5 r Hr) as [j Hj]. exists j. by apply list_elem_of_further.
Qed.

Lemma relay_loop_spec p a n k visited dial env w res ds w' :
  Inv w → (∀ k w, rtc step w (env k w)) →
  relay_loop p a n k visited dial env w = (res, ds, w') →
  (Inv w' ∧ world_le w w') ∧ dials_ok visited n res ds w'.
Proof.
  intros I He. revert k visited w I res ds w'.
  induction n as [|n IH]; intros k visited w I res ds w' H; cbn [relay_loop] in H.
  { simplify_eq. split; [done|apply dials_nil]. }
  case_hyp H; [simplify_eq; split; [done|apply dials_nil]|].
  pose proof (keeps_reserve a visited (0 <? k)%nat (d_now (dial k)) w I) as [I1 L1].
  destruct (reserveRelay a visited (0 <? k)%nat (d_now (dial k)) w) as [[[[index ep] probe]|] w1] eqn:Er;
    simpl in I1, L1; [|simplify_eq; split; [done|apply dials_nil]].
  apply reserve_ok in Er as [Hv _].
  destruct (keeps_steps _ _ (He k w1) I1) as [I2 L2].
  pose proof (keeps_complete p index ep probe (is_ok (d_conn (dial k) index) && d_within (dial k))
    (d_cancelled (dial k)) (d_now2 (dial k)) (env k w1) I2) as [I3 L3].
  destruct (completeRelay _ _ _ _ _ _ _ _) as [acc w3]. cbn [snd] in I3, L3.
  pose proof (transitivity L1 (transitivity L2 L3)) as L. clear L1 L2 L3 I1 I2.
  set (conn := d_conn (dial k) index) in *.
  set (taken := is_ok conn && acc && negb (d_ctxErr2 (dial k))) in *.
  set (w4 := match conn with Ok r => if taken then w3 else close_remote r w3 | Err _ => w3 end) in *.
  assert (K : keeps w3 w4 ∧ ∀ r, conn = Ok r → taken = false → r ∈ shut w4).
  { unfold w4. destruct conn as [r|]; [|split; [apply keeps_refl|done]].
    destruct taken; [split; [apply keeps_refl|done]|]. destruct (close_remote_keeps r w3) as [? ?].
    split; [done|]. naive_solver. }
  destruct K as [K Hsh]. destruct (K I3) as [I4 L4]. pose proof (transitivity L L4) as L5.
  assert (Hend : ∀ r0, conn = r0 → (is_ok r0 = true → taken = false) →
    (if d_cancelled (dial k) then (Err errLease, [(index, conn)], w4)
     else let '(res, ds, w) := relay_loop p a n (S k) ({[index]} ∪ visited) dial env w4 in
          (res, (index, conn) :: ds, w)) = (res, ds, w') →
    (Inv w' ∧ world_le w w') ∧ dials_ok visited (S n) res ds w').
  { intros r0 Ec Ht G. assert (Hsh' : ∀ r, conn = Ok r → r ∈ shut w4) by (intros r Hr; apply Hsh; [done|]; apply Ht; by rewrite <- Ec, Hr).
    case_hyp G; [simplify_eq; split; [done|]; apply dials_one; naive_solver|].
    destruct (relay_loop p a n (S k) ({[index]} ∪ visited) dial env w4) as [[res' ds'] w5] eqn:El.
    simplify_eq. destruct (IH _ _ _ I4 _ _ _ El) as [[I5 L6] D]. split; [split; [done|by etrans]|].
    apply dials_cons; [done| |done]. intros r Hr. apply (le_shut _ _ L6). auto. }
  destruct conn as [r|e] eqn:Ec.
  - destruct taken eqn:Et; [|by eapply Hend]. simplify_eq. split; [done|]. apply dials_one; naive_solver.
  - by eapply Hend.
Qed.

(** Connecting through the relays is bounded and leaks nothing.  Under a
    connect policy [connectRelay] dials at most [MaxAttempts] relays, never the
    same relay twice for one flow, without a policy it dials the pinned relay
    once; every connection a dial opened is the one that is returned or is
    closed, also when the flow is cancelled meanwhile. *)
Theorem connect_relay_bounded now o t m w0 w a dial env res ds w' :
  NewOutbound now o t m = Ok w0 → rtc step w0 w →
  (∀ k w, rtc step w (env k w)) → connectRelay a dial env w = (res, ds, w') →
  NoDup ds.*1 ∧
  (length ds ≤ match RelayConnectPolicy o with Some p => Z.to_nat (MaxAttempts p) | None => 1 end)%nat ∧
  (length ds ≤ 8)%nat ∧
  (∀ i r, (i, Ok r) ∈ ds → res = Ok r ∨ r ∈ shut w') ∧ (∀ r, res = Ok r → ∃ i, (i, Ok r) ∈ ds).
Proof.
  intros Hn Hs He H. pose proof (sa_initial_inv _ _ _ _ _ Hn) as I0.
  destruct (keeps_steps _ _ Hs I0) as [I [(_ & Ep & _) _ _ _]].
  apply sa_NewOutbound_inv in Hn as (l & rs & _ & _ & _ & _ & _ & _ & Hp & ->). simpl in Ep.
  unfold connectRelay in H. rewrite Ep in H. destruct (RelayConnectPolicy o) as [p|].
  - apply relay_loop_spec in H as [_ [H1 H2 H3 H4 H5]]; [|done|done]. split_and!; try done.
    simpl in Hp. repeat case_hyp Hp; try done. bsplit. lia.
  - assert (D : dials_ok ∅ 1 res ds w').
    { destruct (d_conn (dial 0%nat) 0%nat) as [r|e]; [destruct (d_ctxErr2 (dial 0%nat))|]; simplify_eq;
        apply dials_one; try apply not_elem_of_empty; try done.
      - intros r0 [= <-]. right. simpl. set_solver.
      - intros r0 [= <-]. by left. }
    destruct D as [H1 H2 H3 H4 H5]. split_and!; try done. lia.
Qed.

(** Both relays are dialled: the first refuses, the second connects. *)
Definition ex_dial (k : nat) : dialReport :=
  mkDial false (ex_now 3) (λ i, match i with O => Err "refused" | _ => Ok 7%nat end) true false (ex_now 3) false.
Definition ex_admitted : world := (admit_flow (ex_now 2) (ex_now 2) ex_world).2.

Lemma connect_relay_bounded_witness :
  let '(res, ds, w') := connectRelay 0 ex_dial (λ _ w, w) ex_admitted in
  res = Ok 7%nat ∧ NoDup ds.*1 ∧ (length ds ≤ 2)%nat.
Proof.
  destruct (connectRelay 0 ex_dial (λ _ w, w) ex_admitted) as [[res ds] w'] eqn:E.
  destruct (connect_relay_bounded (ex_now 1) ex_options true true ex_world ex_admitted 0 ex_dial (λ _ w, w)
    res ds w' ex_world_new ltac:(apply rtc_once; constructor) ltac:(intros; apply rtc_refl) E) as (H1 & H2 & _).
  split; [|split; [exact H1|exact H2]].
  assert (E2 : (connectRelay 0 ex_dial (λ _ w, w) ex_admitted).1.1 = Ok 7%nat) by (vm_compute; reflexivity).
  rewrite E in E2. exact E2.
Defined.

(** ** The gate a connection passes *)

Lemma readClientHello_sound ech stream :
  match readClientHello ech stream with
  | Panic => False
  | Fail _ => True
  | Ret (raw, name, rest) => raw ++ rest = stream ∧ normalizeDomain name = Ok name
  end.
Proof.
  pose proof (read_loop_safe (S (length stream)) ech stream [] [] (-1)) as H.
  fold (readClientHello ech stream) in H.
  specialize (H ltac:(unfold blen; lia) ltac:(done)).
  destruct (readClientHello ech stream) as [[[raw name] rest]| |]; simpl in H; [|done|done].
  destruct H as (H1 & _ & v & Hv). split; [done|]. by apply normalizeDomain_idempotent in Hv.
Qed.

Lemma admits_ok a now w w' :
  admitsLeaseLocked a now w = (true, w') →
  ∃ l, auths w !! a = Some l ∧ expired_now now l = false ∧ ¬ barred w l ∧ w' = w.
Proof.
  unfold admitsLeaseLocked. destruct (auths w !! a) as [l|] eqn:E; [|done].
  destruct (expired_now now l) eqn:Ex; intros H; simplify_eq; bsplit.
  - done.
  - exists l. split_and!; try done. unfold barred. intuition congruence.
Qed.

Lemma admit_flow_ok now nowt w f w' :
  Inv w → admit_flow now nowt w = (Some f, w') →
  f = next_flow w ∧ lease (ob w') = lease (ob w) ∧
  ∃ t, heap w' !! f = Some (mkFlow (lease (ob w)) None false false t).
Proof.
  intros I. unfold admit_flow, admitsLocked. set (x := w <| ob ::= _ |>).
  pose proof (admitsLeaseLocked_ob (lease (ob x)) now x) as G.
  assert (N : next_flow (admitsLeaseLocked (lease (ob x)) now x).2 = next_flow w).
  { unfold admitsLeaseLocked. repeat case_goal; done. }
  destruct (admitsLeaseLocked (lease (ob x)) now x) as [ok w2]. simpl in G, N.
  intros H. case_hyp H; [done|]. simplify_eq. split; [done|]. simpl. rewrite G. split; [done|].
  eexists. by rewrite lookup_insert_eq.
Qed.

Lemma connectRelay_spec a dial env w res ds w' :
  Inv w → (∀ k w, rtc step w (env k w)) → connectRelay a dial env w = (res, ds, w') →
  (Inv w' ∧ world_le w w') ∧
  (∀ i r, (i, Ok r) ∈ ds → res = Ok r ∨ r ∈ shut w') ∧ (∀ r, res = Ok r → ∃ i, (i, Ok r) ∈ ds).
Proof.
  intros I He H. unfold connectRelay in H. destruct (relayPolicy (ob w)) as [p|].
  - apply relay_loop_spec in H as [K [H1 H2 H3 H4 H5]]; done.
  - destruct (keeps_steps _ _ (He 0%nat w) I) as [I1 L1].
    destruct (d_conn (dial 0%nat) 0%nat) as [r|e] eqn:Ed; [destruct (d_ctxErr2 (dial 0%nat))|]; simplify_eq.
    + destruct (close_remote_keeps r (env 0%nat w)) as [K Hr]. destruct (K I1) as [I2 L2].
      split; [split; [done|by etrans]|]. split; [|done].
      intros i r0 G. apply list_elem_of_singleton in G. simplify_eq. by right.
    + split; [done|]. split; [intros i r0 G; apply list_elem_of_singleton in G; simplify_eq; by left|].
      intros r0 [= <-]. exists 0%nat. by apply list_elem_of_singleton.
    + split; [done|]. split; [|done]. intros i r0 G. by apply list_elem_of_singleton in G.
Qed.

(** Closing the flow of a refused connection. *)
Lemma refused_closed f w fl : heap (flow_Close f w) !! f = Some fl → fclosed fl = true.
Proof. apply flow_Close_closed. Qed.

Lemma setRemote_ok f r w w' :
  setRemote f r w = (true, w') →
  ∃ fl, heap w !! f = Some fl ∧ heap w' !! f = Some (fl <| remote := Some r |>) ∧ shut w' = shut w ∧
    auths w' = auths w ∧ ob w' = ob w.
Proof.
  unfold setRemote. destruct (heap w !! f) as [fl|]; [|done]. case_goal; [done|]. intros. simplify_eq/=.
  exists fl. by rewrite lookup_insert_eq.
Qed.

Lemma setRemote_fail f r w w' : setRemote f r w = (false, w') → w' = w.
Proof. unfold setRemote. intros H. repeat case_hyp H; by simplify_eq. Qed.

Lemma activate_ok f a now w w' fl :
  activate f a now w = (true, w') → heap w !! f = Some fl →
  (∃ l, auths w' !! a = Some l ∧ expired_now now l = false ∧ ¬ barred w' l) ∧
  heap w' !! f = Some (fl <| active := true |>) ∧ shut w' = shut w.
Proof.
  unfold activate. destruct (admitsLeaseLocked a now w) as [[] w2] eqn:E; [|done].
  apply admits_ok in E as (l & Hl & Hx & Hb & ->). intros [= <-] Hf. simpl. split_and!; [by exists l| |done].
  by rewrite lookup_alter_eq, Hf.
Qed.

(** What a refusal leaves: the flow closed and every relay connection closed. *)
Definition refused_ok (f : nat) (ds : list (nat * result string nat)) (w' : world) : Prop :=
  (∀ fl, heap w' !! f = Some fl → fclosed fl = true) ∧ (∀ i r, (i, Ok r) ∈ ds → r ∈ shut w').

Lemma refuse_spec f ds w :
  Inv w → (∀ i r, (i, Ok r) ∈ ds → r ∈ shut w ∨ ∃ fl, heap w !! f = Some fl ∧ remote fl = Some r) →
  refused_ok f ds (flow_Close f w).
Proof.
  intros I Hd. split; [apply refused_closed|]. intros i r Hr. destruct (keeps_flow_Close f w I) as [I' L].
  destruct (Hd i r Hr) as [?|(fl & Hf & Hrem)]; [by apply (le_shut _ _ L)|].
  destruct (le_heap _ _ L _ _ Hf) as (fl' & Hf' & Hle). apply (inv_shut _ I' f fl' r); [done| |by apply Hle].
  by eapply flow_Close_closed.
Qed.

Lemma refuse_nil f w : Inv w → refused_ok f [] (flow_Close f w).
Proof. intros I. apply refuse_spec; [done|]. intros i r H. by apply elem_of_nil in H. Qed.

(** The end of a connection: the relay connection [r] is attached, the flow
    passes the last admission. *)
Lemma gate_end c f a w ds res w' fl r raw name :
  Inv w → (∀ k w, rtc step w (c_env c k w)) → heap w !! f = Some fl →
  (∀ i r', (i, Ok r') ∈ ds → r' = r ∨ r' ∈ shut w) →
  match setRemote f r (c_env c 1%nat w) with
  | (false, w) => (Refused errLease, ds, flow_Close f (close_remote r w))
  | (true, w) =>
      match activate f a (c_now c 4%nat) (c_env c 2%nat w) with
      | (false, w) => (Refused errLease, ds, flow_Close f w)
      | (true, w) =>
          if c_resetErr c then (Refused errLease, ds, flow_Close f (c_env c 3%nat w))
          else (Forwarded f r raw name, ds, w)
      end
  end = (res, ds, w') →
  match res with
  | Refused _ => refused_ok f ds w'
  | Forwarded f' r' raw' name' =>
      f' = f ∧ r' = r ∧ raw' = raw ∧ name' = name ∧
      (∃ l, auths w' !! a = Some l ∧ expired_now (c_now c 4%nat) l = false ∧ ¬ barred w' l) ∧
      (∃ fl', heap w' !! f = Some fl' ∧ authorization fl' = authorization fl ∧ remote fl' = Some r ∧
         active fl' = true ∧ (fclosed fl' = true → r ∈ shut w')) ∧
      (∀ i r', (i, Ok r') ∈ ds → r' = r ∨ r' ∈ shut w')
  end.
Proof.
  intros I Henv Hf Hd H. destruct (keeps_steps _ _ (Henv 1%nat w) I) as [I1 L1].
  destruct (le_heap _ _ L1 _ _ Hf) as (fl1 & Hf1 & Ha1 & _).
  assert (Hd1 : ∀ i r', (i, Ok r') ∈ ds → r' = r ∨ r' ∈ shut (c_env c 1%nat w)).
  { intros i r' [?|?]%Hd; [by left|right; by apply (le_shut _ _ L1)]. }
  pose proof (inv_setRemote f r _ I1) as I2.
  destruct (setRemote f r (c_env c 1%nat w)) as [[] w2] eqn:E2; cbn [snd] in I2.
  2: { apply setRemote_fail in E2 as ->. simplify_eq.
       destruct (close_remote_keeps r (c_env c 1%nat w)) as [K Hr]. destruct (K I1) as [I3 L3].
       apply refuse_spec; [done|]. intros i r' [->|?]%Hd1; left; [done|by apply (le_shut _ _ L3)]. }
  apply setRemote_ok in E2 as (fl0 & Hf0 & Hf2 & Hs2 & _ & _). rewrite Hf1 in Hf0. simplify_eq.
  destruct (keeps_steps _ _ (Henv 2%nat w2) I2) as [I3 L3].
  destruct (le_heap _ _ L3 _ _ Hf2) as (fl3 & Hf3 & Ha3 & _ & _ & Hr3). simpl in Ha3, Hr3. specialize (Hr3 r eq_refl).
  assert (Hd3 : ∀ i r', (i, Ok r') ∈ ds → r' = r ∨ r' ∈ shut (c_env c 2%nat w2)).
  { intros i r' [?|?]%Hd1; [by left|right]. apply (le_shut _ _ L3). by rewrite Hs2. }
  pose proof (keeps_activate f a (c_now c 4%nat) _ I3) as [I4 L4].
  assert (Hd4 : ∀ w'', world_le (c_env c 2%nat w2) w'' → ∀ i r', (i, Ok r') ∈ ds →
    r' ∈ shut w'' ∨ ∃ fl, heap w'' !! f = Some fl ∧ remote fl = Some r').
  { intros w'' L i r' [->|?]%Hd3; [right|left; by apply (le_shut _ _ L)].
    destruct (le_heap _ _ L _ _ Hf3) as (fl5 & Hf5 & _ & _ & _ & Hr5). eauto. }
  destruct (activate f a (c_now c 4%nat) (c_env c 2%nat w2)) as [[] w4] eqn:E4; cbn [snd] in I4, L4.
  2: { simplify_eq. by apply refuse_spec; [|apply Hd4]. }
  destruct (c_resetErr c).
  { simplify_eq. destruct (keeps_steps _ _ (Henv 3%nat w4) I4) as [I5 L5].
    apply refuse_spec; [done|]. apply Hd4. by etrans. }
  simplify_eq. destruct (activate_ok _ _ _ _ _ _ E4 Hf3) as (Hl & Hf4 & Hs4). split_and!; try done.
  - exists (fl3 <| active := true |>). split_and!; simpl; try done; [congruence|].
    intros Hc. eapply (inv_shut _ I4 f); [exact Hf4|done|done].
  - intros i r' [?|?]%Hd3; [by left|right]. by rewrite Hs4.
Qed.


Definition ex_hello : bytes :=
  enc_hello (repeat (byte_of 3) 34) [] (repeat (byte_of 1) 2) [byte_of 0] [enc_sni (list_of_str "Example.com")].
Definition ex_input : conn_input :=
  mkInput 443 (records 1 [ex_hello]) (λ _, ex_now 2) false false ex_dial (λ _ w, w) (λ _ w, w).

Lemma ex_forwarded :
  (newConnection ex_input ex_world).1.1 =
  Forwarded 0 7 (records 1 [ex_hello]) (list_of_str "example.com").
Proof. vm_compute. reflexivity. Qed.


(** ** The circuit breaker *)

(** The relay states with the reservations that are not completed yet. *)
Record bstate := mkB { b_world : world; b_pending : list (nat * Z * bool) }.

Inductive bstep (p : relayConnectPolicy) : bstate → bstate → Prop :=
| b_other w w' pend : step w w' → relayStates (ob w') = relayStates (ob w) → bstep p (mkB w pend) (mkB w' pend)
| b_reserve a visited extra now w r w' pend :
    reserveRelay a visited extra now w = (Some r, w') → bstep p (mkB w pend) (mkB w' (r :: pend))
| b_complete pre post index ep probe success cancelled now w :
    0 ≤ wall now →
    bstep p (mkB w (pre ++ (index, ep, probe) :: post))
      (mkB (completeRelay p index ep probe success cancelled now w).2 (pre ++ post)).

(** The outstanding reservations of a relay in its current epoch. *)
Definition outstanding (pend : list (nat * Z * bool)) (i : nat) (ep : Z) (probe : bool) : nat :=
  count_occ (λ x y, decide (x = y)) pend (i, ep, probe).

Record breaker_ok (n : Z) (s : bstate) (i : nat) (st : relayConnectState) : Prop := mkBreaker {
  bo_probe : outstanding (b_pending s) i (epoch st) true = if probing st then 1%nat else 0%nat;
  bo_open : probing st = true → IsZero (openUntil st) = false;
  bo_closed : IsZero (openUntil st) = false → outstanding (b_pending s) i (epoch st) false = 0%nat;
  bo_past : ∀ ep b, (i, ep, b) ∈ b_pending s → ep ≤ epoch st;
  bo_epoch : 0 ≤ epoch st ≤ n
}.

Definition breaker_inv (n : Z) (s : bstate) : Prop :=
  ∀ i st, relayStates (ob (b_world s)) !! i = Some st → breaker_ok n s i st.

Lemma outstanding_insert pre post x i ep b :
  outstanding (pre ++ x :: post) i ep b =
  (outstanding (pre ++ post) i ep b + if decide (x = (i, ep, b)) then 1 else 0)%nat.
Proof.
  unfold outstanding. rewrite !count_occ_app. cbn [count_occ]. destruct (decide (x = (i, ep, b))); lia.
Qed.

Lemma outstanding_future pend i ep b e :
  (∀ ep b, (i, ep, b) ∈ pend → ep ≤ e) → e < ep → outstanding pend i ep b = 0%nat.
Proof.
  intros H He. apply count_occ_not_In. intros Hin%list_elem_of_In. apply H in Hin. lia.
Qed.

Lemma elem_insert (pre post : list (nat * Z * bool)) x y : y ∈ pre ++ post → y ∈ pre ++ x :: post.
Proof. rewrite !elem_of_app, elem_of_cons. tauto. Qed.

Lemma cooldown_nonzero p now : 1 ≤ CooldownMS p → 0 ≤ wall now → IsZero (Add now (CooldownMS p * Millisecond)) = false.
Proof. unfold IsZero, Add. simpl. unfold Millisecond. lia. Qed.

(** The completed relay. *)
Lemma complete_breaker p n w pre post i ep probe success cancelled now st :
  1 ≤ CooldownMS p → 0 ≤ wall now → n + 1 < 2 ^ 64 →
  breaker_ok n (mkB w (pre ++ (i, ep, probe) :: post)) i st → ∀ w',
  breaker_ok (n + 1) (mkB w' (pre ++ post)) i (complete_state p ep probe success cancelled now st).2.
Proof.
  intros Hp Hnow Hn [H1 H2 H3 H4 H5] w'. simpl in *.
  rewrite outstanding_insert in H1. rewrite outstanding_insert in H3.
  assert (H4' : ∀ ep b, (i, ep, b) ∈ pre ++ post → ep ≤ epoch st) by (intros; eapply H4, elem_insert; eauto).
  assert (Hf : ∀ b, outstanding (pre ++ post) i (epoch st + 1) b = 0%nat)
    by (intros b; eapply outstanding_future; [done|lia]).
  assert (Hw : wrap 64 (epoch st + 1) = epoch st + 1) by (apply wrap_small; lia).
  unfold complete_state. destruct (epoch st =? ep) eqn:Ee; cbn [negb]; cbv iota.
  2: { split; simpl; try done; [|intros Ho; specialize (H3 Ho); lia|lia].
       destruct (decide _) as [G|]; [simplify_eq; lia|]. rewrite <- H1. lia. }
  apply Z.eqb_eq in Ee. subst ep.
  destruct probe.
  - rewrite decide_True in H1 by done.
    assert (Hpr : probing st = true) by (destruct (probing st); [done|lia]). rewrite Hpr in H1.
    specialize (H2 Hpr). specialize (H3 H2).
    assert (Ho : outstanding (pre ++ post) i (epoch st) true = 0%nat) by lia.
    destruct cancelled; [split; simpl; try done; lia|].
    destruct success; [split; simpl; rewrite ?Hw; try done; try lia; intros; pose proof (H4' _ _ H); lia|].
    cbn [orb]. cbv iota. split; simpl; rewrite ?Hw; try done; try lia.
    intros; pose proof (H4' _ _ H); lia.
  - rewrite decide_False in H1 by (intros [=]). rewrite decide_True in H3 by done.
    assert (Hz : IsZero (openUntil st) = true) by (destruct (IsZero (openUntil st)); [done|specialize (H3 eq_refl); lia]).
    assert (Hpr : probing st = false) by (destruct (probing st); [specialize (H2 eq_refl); congruence|done]).
    rewrite Hpr in *.
    destruct cancelled; [split; simpl; rewrite ?Hpr; try done; [lia|congruence|lia]|].
    destruct success; [split; simpl; rewrite ?Hpr; try done; [lia|congruence|lia]|].
    cbn [orb]. case_goal; [|split; simpl; rewrite ?Hpr; try done; [lia|congruence|lia]].
    split; simpl; rewrite ?Hw, ?Hpr; try done; try lia; try (by rewrite Hf).
    intros; pose proof (H4' _ _ H); lia.
Qed.

(** A relay the completion or the reservation is not about. *)
Lemma other_breaker n w w' pre post x i st :
  x.1.1 ≠ i → breaker_ok n (mkB w (pre ++ post)) i st ↔ breaker_ok n (mkB w' (pre ++ x :: post)) i st.
Proof.
  intros Hx. assert (E : ∀ ep b, outstanding (pre ++ x :: post) i ep b = outstanding (pre ++ post) i ep b).
  { intros ep b. rewrite outstanding_insert, decide_False; [lia|]. intros ->. done. }
  assert (M : ∀ ep b, (i, ep, b) ∈ pre ++ x :: post ↔ (i, ep, b) ∈ pre ++ post).
  { intros ep b. rewrite !elem_of_app, elem_of_cons. split; [intros [?|[<-|?]]; auto; done|tauto]. }
  split; intros [H1 H2 H3 H4 H5]; split; simpl in *; try done.
  - by rewrite E.
  - intros Ho. rewrite E. auto.
  - intros ep b. rewrite M. apply H4.
  - by rewrite <- E.
  - intros Ho. rewrite <- E. auto.
  - intros ep b. rewrite <- M. apply H4.
Qed.

Lemma breaker_mono n n' s i st : n ≤ n' → breaker_ok n s i st → breaker_ok n' s i st.
Proof. intros ? [? ? ? ? ?]. split; try done. lia. Qed.

Lemma bstep_inv p n s s' :
  1 ≤ CooldownMS p → n + 1 < 2 ^ 64 → breaker_inv n s → bstep p s s' → breaker_inv (n + 1) s'.
Proof.
  intros Hp Hn HI H. destruct H as [w w' pend Hs E|a visited extra now w [[i0 ep] probe] w' pend Hr|
    pre post index ep probe success cancelled now w Hnow]; intros i st Hi; cbn [b_world b_pending] in *.
  - rewrite E in Hi. destruct (HI i st Hi). split; try done. simpl. lia.
  - apply reserve_ok in Hr as (_ & st0 & Hst & -> & -> & Hpr & Es). rewrite Es in Hi.
    destruct (decide (i0 = i)) as [->|Hne].
    + pose proof (HI i st0 Hst) as [H1 H2 H3 H4 H5]. simpl in *.
      assert (H4' : ∀ b ep b', (i, ep, b') ∈ (i, epoch st0, b) :: pend → ep ≤ epoch st0).
      { intros b ep b' [[= -> ->]|?]%elem_of_cons; [lia|by eapply H4]. }
      destruct (IsZero (openUntil st0)) eqn:Ez; simpl in *.
      * rewrite Hst in Hi. simplify_eq.
        assert (Hpf : probing st = false) by (destruct (probing st); [specialize (H2 eq_refl); congruence|done]).
        rewrite Hpf in *. split; simpl; try done; try congruence; [|by apply H4'|lia].
        rewrite Hpf. pose proof (outstanding_insert [] pend (i, epoch st, false) i (epoch st) true) as G.
        simpl in G. rewrite G, decide_False by (intros [=]). lia.
      * rewrite list_lookup_alter_eq, Hst in Hi. simpl in Hi. simplify_eq. destruct (Hpr eq_refl) as [Hpf _].
        rewrite Hpf in H1. split; simpl; try done; [| |by apply H4'|lia].
        -- pose proof (outstanding_insert [] pend (i, epoch st0, true) i (epoch st0) true) as G.
           simpl in G. rewrite G, decide_True by done. lia.
        -- intros Ho. pose proof (outstanding_insert [] pend (i, epoch st0, true) i (epoch st0) false) as G.
           simpl in G. rewrite G, decide_False by (intros [=]). rewrite H3 by done. lia.
    + assert (Hi' : relayStates (ob w) !! i = Some st)
        by (destruct (negb _); [by rewrite list_lookup_alter_ne in Hi|done]).
      apply (breaker_mono n); [lia|].
      apply (other_breaker n w w' [] pend (i0, epoch st0, _)); [done|]. by apply HI.
  - unfold completeRelay in Hi |- *. destruct (relayStates (ob w) !! index) as [st0|] eqn:E0.
    + destruct (complete_state p ep probe success cancelled now st0) as [acc st'] eqn:Ec. simpl in Hi.
      destruct (decide (index = i)) as [->|Hne].
      * rewrite list_lookup_insert_eq in Hi by (by eapply lookup_lt_Some). simplify_eq.
        pose proof (complete_breaker p n w pre post i ep probe success cancelled now st0 Hp Hnow Hn (HI i st0 E0)) as G.
        rewrite Ec in G. apply G.
      * rewrite list_lookup_insert_ne in Hi by done. apply (breaker_mono n); [lia|].
        apply (other_breaker n _ w pre post (index, ep, probe)); [done|]. by apply HI.
    + cbn [snd] in Hi. assert (index ≠ i) by (intros ->; congruence). apply (breaker_mono n); [lia|].
      apply (other_breaker n _ w pre post (index, ep, probe)); [done|]. by apply HI.
Qed.

Lemma bsteps_inv p n k s s' :
  1 ≤ CooldownMS p → n + Z.of_nat k < 2 ^ 64 → breaker_inv n s → nsteps (bstep p) k s s' →
  breaker_inv (n + Z.of_nat k) s'.
Proof.
  intros Hp Hn HI H. revert n Hn HI. induction H as [|k x y z H _ IH]; intros n Hn HI.
  { replace (n + Z.of_nat 0) with n by lia. done. }
  replace (n + Z.of_nat (S k)) with (n + 1 + Z.of_nat k) by lia. apply IH; [lia|].
  eapply bstep_inv; [done|lia|done|done].
Qed.

(** The circuit breaker of a relay.  In every state the sections can reach
    (in fewer than 2^64 of them, the range of the epoch counter): an open
    breaker has at most one half-open attempt outstanding, exactly one when it
    says it is probing, so it neither lets two probes through nor stays
    blocked by a probe that ended; a reservation is only given for a closed
    breaker, or as that one probe after the cooldown; and a completion from an
    earlier epoch - a late success included - changes nothing. *)
Theorem breaker_single_probe now o t m w0 p k s :
  NewOutbound now o t m = Ok w0 → RelayConnectPolicy o = Some p → Z.of_nat k < 2 ^ 64 →
  nsteps (bstep p) k (mkB w0 []) s →
  ∀ i st, relayStates (ob (b_world s)) !! i = Some st →
    outstanding (b_pending s) i (epoch st) true = (if probing st then 1%nat else 0%nat) ∧
    (IsZero (openUntil st) = false → outstanding (b_pending s) i (epoch st) false = 0%nat) ∧
    (∀ a visited extra now ep probe w',
       reserveRelay a visited extra now (b_world s) = (Some (i, ep, probe), w') →
       ep = epoch st ∧ i ∉ visited ∧
       if probe then probing st = false ∧ Before now (openUntil st) = false else IsZero (openUntil st) = true) ∧
    (∀ ep probe success cancelled now, ep ≠ epoch st →
       relayStates (ob (completeRelay p i ep probe success cancelled now (b_world s)).2) =
       relayStates (ob (b_world s)) ∧
       (completeRelay p i ep probe success cancelled now (b_world s)).1 = false).
Proof.
  intros Hn Ep Hk H i st Hi.
  apply sa_NewOutbound_inv in Hn as (l & rs & _ & _ & _ & _ & _ & _ & Hv & ->). rewrite Ep in Hv.
  assert (Hc : 1 ≤ CooldownMS p).
  { simpl in Hv. repeat case_hyp Hv; try done. bsplit. lia. }
  assert (HI : breaker_inv (0 + Z.of_nat k) s).
  { eapply bsteps_inv; [done|lia| |done]. intros j sj Hj. simpl in Hj.
    apply lookup_replicate in Hj as [-> _]. split; simpl; try done.
    intros ep b Hb. by apply elem_of_nil in Hb. }
  destruct (HI i st Hi) as [H1 H2 H3 H4 H5]. split_and!; [done|done|..].
  - intros a visited extra now' ep probe w' Hr. apply reserve_ok in Hr as (Hv' & st0 & Hst & -> & -> & Hpr & _).
    rewrite Hi in Hst. simplify_eq. split_and!; [done|done|].
    destruct (IsZero (openUntil st0)); simpl in *; auto.
  - intros ep probe success cancelled now' Hne. unfold completeRelay. rewrite Hi.
    unfold complete_state. rewrite (bool_true_if (negb (epoch st =? ep))) by (apply negb_true_iff; lia).
    simpl. split; [|done]. by apply list_insert_id.
Qed.

(** The breaker of the first relay opens after one failure (the threshold of
    the example policy); its late first attempt can not close it. *)
Definition ex_open : bstate :=
  let w1 := (reserveRelay 0 ∅ false (ex_now 2) ex_world).2 in
  let w2 := (reserveRelay 0 ∅ false (ex_now 2) w1).2 in
  mkB (completeRelay ex_policy 0 0 false false false (ex_now 3) w2).2 [(0%nat, 0, false)].

Lemma breaker_single_probe_witness :
  (completeRelay ex_policy 0 0 false true false (ex_now 4) (b_world ex_open)).1 = false.
Proof.
  refine (proj2 (proj2 (proj2 (proj2 (breaker_single_probe (ex_now 1) ex_options true true ex_world ex_policy 3 ex_open
    ex_world_new eq_refl _ _ 0%nat (mkRelayState [] (Add (ex_now 3) (1000 * Millisecond)) false 1) _)))
    0 false true false (ex_now 4) _)).
  - vm_compute. reflexivity.
  - eapply nsteps_l; [eapply (b_reserve ex_policy 0 ∅ false (ex_now 2) ex_world (0%nat, 0, false)); vm_compute; reflexivity|].
    eapply nsteps_l; [eapply (b_reserve ex_policy 0 ∅ false (ex_now 2) _ (0%nat, 0, false)); vm_compute; reflexivity|].
    eapply nsteps_l; [|apply nsteps_O].
    apply (b_complete ex_policy [] [(0%nat, 0, false)] 0 0 false false false (ex_now 3)). vm_compute. discriminate.
  - vm_compute. reflexivity.
  - simpl. discriminate.
Defined.
