(* ===== verification/SaServiceGroup.v ===== *)
(** * The Smart Access service group

    Models [engine/sing-box/protocol/pokrov/smartaccess/service_group.go]: the
    ordered providers of one service, the selection among them and the
    readiness receipt of a probe.  The members are outbounds of [SaOutbound];
    probes and windows are shared objects, referred to by key.  Every method
    holds the group's lock for its whole body, so each is one definition. *)

From stdpp Require Import base list strings gmap relations.
From Stdlib Require Import ZArith Lia Ascii.
From S2P Require Import Prelude GoTime GoBytes GoNetip UrlTestHistory SaClientHello SaOutbound.

Local Open Scope Z_scope.

(** ** State *)

Inductive status := SPending | SPass | SFailure.

#[export] Instance status_eq_dec : EqDecision status.
Proof. solve_decision. Defined.

Record ServiceReadinessStage := mkStage {
  Stage : string;
  st_pass : bool;
  ObservedAtMS : Z;
  DurationMS : Z;
  Reason : string
}.

(** [serviceReadinessProbe] with its embedded receipt.  Transports and members
    are referred to by key; [p_manager] says whether a manager was captured. *)
Record probe := mkProbe {
  ProbeID : Z;
  p_LeaseID : string;
  StartedAtMS : Z;
  CompletedAtMS : option Z;
  Status : status;
  Stages : list ServiceReadinessStage;
  FallbackGuardClosed : bool;
  p_member : option nat;
  p_transport : option nat;
  p_manager : bool;
  resolverLookupStartedAt : time
}.

#[export] Instance eta_probe : Eta probe := λ p,
  mkProbe (ProbeID p) (p_LeaseID p) (StartedAtMS p) (CompletedAtMS p) (Status p) (Stages p)
    (FallbackGuardClosed p) (p_member p) (p_transport p) (p_manager p) (resolverLookupStartedAt p).

(** [serviceProbeWindow]; its two callbacks are read through the environment. *)
Record window := mkWindow { w_id : nat; w_member : nat; w_dns : bool; w_transport : option nat }.

Record group := mkGroup {
  serviceID : string;
  members : list nat;
  selected : Z;
  evaluated : bool;
  dnsFailed : gset nat;
  probeWindows : list window;
  probeID : Z;
  readiness : option nat;
  probes : gmap nat probe;
  fallbackGuardClosed : bool;
  next_key : nat
}.

#[export] Instance eta_group : Eta group := λ g,
  mkGroup (serviceID g) (members g) (selected g) (evaluated g) (dnsFailed g) (probeWindows g)
    (probeID g) (readiness g) (probes g) (fallbackGuardClosed g) (next_key g).

(** The group with the outbounds of its members. *)
Record gw := mkGw { grp : group; outs : gmap nat world }.

#[export] Instance eta_gw : Eta gw := λ x, mkGw (grp x) (outs x).

(** What a method reads from outside: the clock, the error of the probe's
    context, whether the owner's context is over, the transport the DNS manager
    binds for the tag of a transport, and whether the catalog window of a
    binding is active and covers a domain. *)
Inductive ctx_err := CtxDeadline | CtxCanceled.

Record genv := mkEnv {
  e_now : time;
  e_ctx : option ctx_err;
  e_owner : bool;
  e_bound : nat → option nat;
  e_active : nat → bool;
  e_current : nat → string → bool
}.

Definition selected_member (g : group) : option nat :=
  if selected g <? 0 then None else members g !! Z.to_nat (selected g).

(** A method of a member outbound. *)
Definition on_member {A} (m : nat) (d : A) (f : world → A * world) (x : gw) : A * gw :=
  match outs x !! m with
  | None => (d, x)
  | Some w => let '(r, w') := f w in (r, x <| outs ::= insert m w' |>)
  end.

(** ** Selection *)

Definition availableForNewFlows (now : time) (w : world) : bool * world :=
  let '(ok, w) := admitsLocked now w in
  if negb ok || (maxConcurrent (ob w) <=? Z.of_nat (size (flows (ob w)))) then (false, w)
  else
    let w := w <| ob ::= λ h, h <| attempts ::= prune now Minute |> |> in
    if maxNew (ob w) <=? Z.of_nat (length (attempts (ob w))) then (false, w)
    else
      match relayPolicy (ob w) with
      | None => (true, w)
      | Some _ =>
          (existsb (λ st, IsZero (openUntil st) || (negb (probing st) && negb (Before now (openUntil st))))
             (relayStates (ob w)), w)
      end.

Definition update_probe (k : nat) (f : probe → probe) (x : gw) : gw :=
  x <| grp ::= λ g, g <| probes ::= alter f k |> |>.

Definition closeReadinessLocked (now : time) (x : gw) : gw :=
  match readiness (grp x) with
  | None => x
  | Some k =>
      update_probe k (λ p,
        let p := p <| FallbackGuardClosed := true |> in
        if bool_decide (Status p = SFailure) then p
        else p <| CompletedAtMS := Some (UnixMilli now) |> <| Status := SFailure |>)
        (x <| grp ::= λ g, g <| fallbackGuardClosed := true |> |>)
  end.

Definition readiness_probe (x : gw) : option probe :=
  k ← readiness (grp x); probes (grp x) !! k.

(** The member the current readiness is bound to. *)
Definition readiness_member (x : gw) : option nat := p ← readiness_probe x; p_member p.

(** The deferred check of [Selected]. *)
Definition selected_guard (now : time) (x : gw) : gw :=
  match readiness_member x with
  | Some m => if bool_decide (selected_member (grp x) = Some m) then x else closeReadinessLocked now x
  | None => x
  end.

(** One member, asked for its availability unless its resolver failed. *)
Definition offer (now : time) (m : nat) (x : gw) : bool * gw :=
  if bool_decide (m ∈ dnsFailed (grp x)) then (false, x)
  else on_member m false (availableForNewFlows now) x.

Fixpoint first_available (now : time) (index : Z) (ms : list nat) (x : gw) : option (Z * nat) * gw :=
  match ms with
  | [] => (None, x)
  | m :: ms =>
      match offer now m x with
      | (true, x) => (Some (index, m), x)
      | (false, x) => first_available now (index + 1) ms x
      end
  end.

Definition Selected (now : time) (x : gw) : option nat * gw :=
  let x := x <| grp ::= λ g, g <| evaluated := true |> |> in
  let '(keep, x) := match selected_member (grp x) with
                    | Some m => offer now m x
                    | None => (false, x)
                    end in
  if keep : bool then (selected_member (grp x), selected_guard now x)
  else
    match first_available now 0 (members (grp x)) x with
    | (Some (i, m), x) =>
        let x := x <| grp ::= λ g, g <| selected := i |> |> in (Some m, selected_guard now x)
    | (None, x) =>
        let x := x <| grp ::= λ g, g <| selected := -1 |> |> in (None, selected_guard now x)
    end.

(** The part of [DNSFailed] on the member: its current grant retains the stage. *)
Definition mark_dns (now : time) (w : world) : unit * world :=
  match admitsLocked now w with
  | (true, w) => (tt, set_auth (lease (ob w)) (λ l, l <| probeFailure := Some StageDNS |>) w)
  | (false, w) => (tt, w)
  end.

Definition DNSFailed (now : time) (m : nat) (x : gw) : gw :=
  let x := if bool_decide (readiness_member x = Some m) then closeReadinessLocked now x else x in
  let x := (on_member m tt (mark_dns now) x).2 in
  x <| grp ::= λ g, g <| dnsFailed ::= union {[m]} |>
                      <| selected := if bool_decide (selected_member g = Some m) then -1 else selected g |> |>.

(** ** Readiness *)

Definition readinessBindingCurrentLocked (e : genv) (p : probe) (x : gw) : bool * gw :=
  match p_member p, p_transport p with
  | Some m, Some t =>
      if e_owner e || negb (bool_decide (selected_member (grp x) = Some m)) || negb (p_manager p)
      then (false, x)
      else
        let '(ok, x) := on_member m false (λ w,
          if bool_decide (getLeaseID w = p_LeaseID p) then admitsLocked (e_now e) w else (false, w)) x in
        if negb ok then (false, x)
        else if negb (bool_decide (e_bound e t = Some t)) then (false, x)
        else
          let ws := List.filter (λ b, (w_member b =? m)%nat && e_active e (w_id b)) (probeWindows (grp x)) in
          (existsb (λ b, w_dns b && bool_decide (w_transport b = Some t)) ws &&
           existsb (λ b, negb (w_dns b)) ws, x)
  | _, _ => (false, x)
  end.

Definition readinessCurrentLocked (e : genv) (p : probe) (x : gw) : bool * gw :=
  if bool_decide (Status p = SPending) && bool_decide (is_Some (e_ctx e)) then (false, x)
  else readinessBindingCurrentLocked e p x.

Definition retainResolverDeadlineLocked (e : genv) (k : nat) (x : gw) : gw :=
  match probes (grp x) !! k with
  | None => x
  | Some p =>
      if negb (fallbackGuardClosed (grp x)) && bool_decide (Status p = SPending) &&
         negb (IsZero (resolverLookupStartedAt p)) && (length (Stages p) =? 0)%nat &&
         match e_ctx e with Some CtxDeadline => true | _ => false end
      then
        match readinessBindingCurrentLocked e p x with
        | (true, x) =>
            update_probe k (λ p, p <| Stages ::= λ ss, ss ++
              [mkStage "resolver" false (UnixMilli (e_now e))
                 (Sub (e_now e) (resolverLookupStartedAt p) `quot` Millisecond) ""] |>) x
        | (false, x) => x
        end
      else x
  end.

(** The context error is the one of the previous probe. *)
Definition beginReadiness (e : genv) (x : gw) : nat * gw :=
  let previous := readiness_probe x in
  let x := match previous with
           | Some p =>
               if bool_decide (p_member p = None) then x
               else match readinessCurrentLocked e p x with
                    | (true, x) => x
                    | (false, x) => closeReadinessLocked (e_now e) x
                    end
           | None => x
           end in
  let g := grp x in
  let k := next_key g in
  let id := u64 (probeID g + 1) in
  let p := mkProbe id (from_option p_LeaseID "" previous) (UnixMilli (e_now e)) None SPending []
             (fallbackGuardClosed g) (previous ≫= p_member) (previous ≫= p_transport)
             (from_option p_manager false previous) zero_time in
  (k, x <| grp := g <| probeID := id |> <| readiness := Some k |> <| probes ::= insert k p |>
                    <| next_key := S k |> |>).

Definition is_current (k : nat) (x : gw) : bool := bool_decide (readiness (grp x) = Some k).

Definition bindReadiness (k m : nat) (leaseID : string) (transport : option nat) (manager : bool) (x : gw) : gw :=
  if negb (is_current k x) then x
  else update_probe k (λ p, p <| p_member := Some m |> <| p_LeaseID := leaseID |>
                              <| p_transport := transport |> <| p_manager := manager |>) x.

Definition beginResolverLookup (e : genv) (k : nat) (x : gw) : gw :=
  match probes (grp x) !! k with
  | Some p =>
      if is_current k x && bool_decide (Status p = SPending) then
        match readinessCurrentLocked e p x with
        | (true, x) => update_probe k (λ p, p <| resolverLookupStartedAt := e_now e |>) x
        | (false, x) => x
        end
      else x
  | None => x
  end.

Definition finishResolverLookup (e : genv) (k : nat) (x : gw) : gw :=
  if is_current k x && bool_decide (e_ctx e = None)
  then update_probe k (λ p, p <| resolverLookupStartedAt := zero_time |>) x else x.

Definition observeReadiness (e : genv) (k : nat) (stage : string) (observedAt : time) (duration : Z)
    (err : option goerr) (x : gw) : gw :=
  if negb (is_current k x) then x
  else
    match probes (grp x) !! k with
    | None => x
    | Some p =>
        let '(ok, x) := if bool_decide (is_Some (e_ctx e)) then (false, x) else readinessCurrentLocked e p x in
        if negb ok then closeReadinessLocked (e_now e) (retainResolverDeadlineLocked e k x)
        else
          let x := update_probe k (λ p, p <| Stages ::= λ ss, ss ++
                     [mkStage stage (bool_decide (err = None)) (UnixMilli observedAt) (duration `quot` Millisecond)
                        (ObservedFailure err)] |>) x in
          if bool_decide (err = None) then x else closeReadinessLocked (e_now e) x
    end.

(** Exactly the three stages, in order, all passed. *)
Definition three_stages (ss : list ServiceReadinessStage) : bool :=
  match ss with
  | [a; b; c] =>
      bool_decide (Stage a = "resolver") && bool_decide (Stage b = "dns") && bool_decide (Stage c = "tls") &&
      st_pass a && st_pass b && st_pass c
  | _ => false
  end.

Definition finishReadiness (e : genv) (k : nat) (err : bool) (x : gw) : gw :=
  if negb (is_current k x) then x
  else
    match probes (grp x) !! k with
    | None => x
    | Some p =>
        let '(bad, x) :=
          if err || bool_decide (is_Some (e_ctx e)) || fallbackGuardClosed (grp x) then (true, x)
          else let '(ok, x) := readinessCurrentLocked e p x in (negb ok || negb (three_stages (Stages p)), x) in
        if bad : bool then closeReadinessLocked (e_now e) (retainResolverDeadlineLocked e k x)
        else update_probe k (λ p, p <| CompletedAtMS := Some (UnixMilli (e_now e)) |> <| Status := SPass |>) x
    end.

(** [domain] is normalized by [strings.ToLower] and [strings.TrimSuffix]. *)
Definition ObserveScopedRuleBypass (now : time) (m : nat) (domain : bytes) (x : gw) : gw :=
  if bool_decide (readiness_member x = Some m) &&
     from_option (λ w, allows (domains (ob w)) (to_lower (trim_dot domain))) false (outs x !! m)
  then closeReadinessLocked now x else x.

(** ** Windows *)

Definition BindProbeWindow (m : nat) (dns : bool) (transport : option nat) (x : gw) : nat * gw :=
  let k := next_key (grp x) in
  (k, x <| grp ::= λ g, g <| probeWindows ::= λ ws, ws ++ [mkWindow k m dns transport] |> <| next_key := S k |> |>).

(** The function [BindProbeWindow] returns, which removes the binding. *)
Fixpoint remove_window (k : nat) (ws : list window) : list window :=
  match ws with
  | [] => []
  | b :: ws => if (w_id b =? k)%nat then ws else b :: remove_window k ws
  end.

Definition unbindWindow (now : time) (k m : nat) (x : gw) : gw :=
  if existsb (λ b, (w_id b =? k)%nat) (probeWindows (grp x)) then
    let x := if bool_decide (readiness_member x = Some m) then closeReadinessLocked now x else x in
    x <| grp ::= λ g, g <| probeWindows ::= remove_window k |> |>
  else x.

Definition probeScope (e : genv) (m : nat) (domain : string) (sel : bool) (x : gw) : option nat * bool * gw :=
  let '(ok, x) := on_member m false (AdmitsNewFlows (e_now e)) x in
  if negb ok then (None, false, x)
  else
    let '(s1, x) := if sel then Selected (e_now e) x else (Some m, x) in
    if sel && negb (bool_decide (s1 = Some m)) then (None, false, x)
    else
      let ws := List.filter (λ b, (w_member b =? m)%nat && e_active e (w_id b) &&
                                  (negb sel || e_current e (w_id b) domain)) (probeWindows (grp x)) in
      let transport := from_option w_transport None (last (List.filter w_dns ws)) in
      let route := existsb (λ b, negb (w_dns b)) ws in
      if route && bool_decide (is_Some transport) then
        let '(s2, x) := if sel then Selected (e_now e) x else (Some m, x) in
        (transport, negb sel || bool_decide (s2 = Some m), x)
      else (transport, false, x).

(** ** Unavailability *)

(** The DNS binding and the route binding of a member: the last DNS window that
    has a transport decides whether its transport is still bound. *)
Fixpoint window_state (e : genv) (m : nat) (ws : list window) (dns route : bool) : bool * bool :=
  match ws with
  | [] => (dns, route)
  | b :: ws =>
      if negb ((w_member b =? m)%nat && e_active e (w_id b)) then window_state e m ws dns route
      else if negb (w_dns b) then window_state e m ws dns true
      else match w_transport b with
           | Some t => window_state e m ws (bool_decide (e_bound e t = Some t)) route
           | None => window_state e m ws dns route
           end
  end.

(** The loop over the members: [None] when authority is missing, else the
    first failure that was found. *)
Fixpoint unavailable_loop (e : genv) (ms : list nat) (failure : option ProbeStage) (x : gw)
    : option (option ProbeStage) :=
  match ms with
  | [] => Some failure
  | m :: ms =>
      w ← outs x !! m;
      l ← current_lease w;
      if closed (ob w) || revoked (ob w) || l_revoked l || Before (e_now e) (issued l) then None
      else
        let failed := bool_decide (m ∈ dnsFailed (grp x)) in
        let expired := negb (Before (e_now e) (newUntil l)) || negb (Before (e_now e) (newDeadline l)) in
        failure ←
          (if expired then (if failed then None else Some failure)
           else if admissionExpired l || (bool_decide (probeFailure l = None) && negb failed) then None
           else match failure with
                | Some _ => Some failure
                | None => Some (if failed then Some StageDNS else probeFailure l)
                end);
        let '(dns, route) := window_state e m (probeWindows (grp x)) false false in
        if negb dns || negb route then None else unavailable_loop e ms failure x
  end.

Definition probeUnavailableError (e : genv) (manager : bool) (x : gw) : option ProbeStage :=
  if negb manager then None
  else
    match unavailable_loop e (members (grp x)) None x with
    | None => None
    | Some (Some s) => Some s
    | Some None => Some StageLeaseExpired
    end.

(** ** Construction and readback *)

(** [existing] is the group the anchor already has; the members are distinct
    providers of the same domain scope. *)
Definition same_scope (ds : list smartDomain) (w : world) : bool :=
  (length (domains (ob w)) =? length (remove_dups ds))%nat &&
  forallb (λ d, bool_decide (d ∈ ds)) (domains (ob w)).

Fixpoint check_members (ds : list smartDomain) (seen : gset nat) (ms : list nat) (ws : gmap nat world) : bool :=
  match ms with
  | [] => true
  | m :: ms =>
      match ws !! m with
      | None => false
      | Some w => negb (bool_decide (m ∈ seen)) && same_scope ds w && check_members ds ({[m]} ∪ seen) ms ws
      end
  end.

(** [(h *Outbound).ServiceLeaseGroup] for the anchor [h]. *)
Definition ServiceLeaseGroup (h : nat) (svc : string) (ms : list nat) (existing : option group)
    (ws : gmap nat world) : result string group :=
  match ws !! h with
  | None => Err errScope
  | Some anchor =>
      if bool_decide (svc = "") || (length ms =? 0)%nat || (16 <? length ms)%nat ||
         negb (bool_decide (head ms = Some h))
      then Err errScope
      else if negb (check_members (domains (ob anchor)) ∅ ms ws) then Err errScope
      else
        match existing with
        | Some g =>
            if negb (bool_decide (serviceID g = svc)) || negb (bool_decide (members g = ms)) then Err errScope
            else Ok g
        | None => Ok (mkGroup svc ms 0 false ∅ [] 0 None ∅ false 0)
        end
  end.

Record selection := mkSelection {
  sel_service : string;
  sel_lease : string;
  sel_index : Z;
  sel_state : string;
  sel_available : bool;
  sel_readiness : option probe
}.

Definition ReadServiceLeaseSelection (e : genv) (x : gw) : selection * gw :=
  let x := match readiness (grp x), readiness_probe x with
           | Some k, Some p =>
               if bool_decide (p_member p = None) then x
               else match readinessCurrentLocked e p x with
                    | (true, x) => x
                    | (false, x) => closeReadinessLocked (e_now e) (retainResolverDeadlineLocked e k x)
                    end
           | _, _ => x
           end in
  match selected_member (grp x) with
  | None => (mkSelection (serviceID (grp x)) "" (selected (grp x)) "unavailable" false (readiness_probe x), x)
  | Some m =>
      let lid := from_option getLeaseID "" (outs x !! m) in
      let '(av, x) := on_member m false (availableForNewFlows (e_now e)) x in
      (mkSelection (serviceID (grp x)) lid (selected (grp x))
         (if evaluated (grp x) then "gateway" else "pending") av (readiness_probe x), x)
  end.

(** ** Interleavings of the methods *)

Inductive gop (x : gw) : gw → Prop :=
| op_selected now : gop x (Selected now x).2
| op_dns_failed now m : gop x (DNSFailed now m x)
| op_begin e : gop x (beginReadiness e x).2
| op_bind k m lid t mg : gop x (bindReadiness k m lid t mg x)
| op_begin_lookup e k : gop x (beginResolverLookup e k x)
| op_finish_lookup e k : gop x (finishResolverLookup e k x)
| op_observe e k stage at_ d err : gop x (observeReadiness e k stage at_ d err x)
| op_finish e k err : gop x (finishReadiness e k err x)
| op_bypass now m d : gop x (ObserveScopedRuleBypass now m d x)
| op_window m dns t : gop x (BindProbeWindow m dns t x).2
| op_unbind now k m : gop x (unbindWindow now k m x)
| op_scope e m d sel : gop x (probeScope e m d sel x).2
| op_read e : gop x (ReadServiceLeaseSelection e x).2
| op_member m w w' : outs x !! m = Some w → step w w' → gop x (x <| outs ::= insert m w' |>).

(** ** What the methods leave alone *)

Lemma on_member_grp {A} m (d : A) f x : grp (on_member m d f x).2 = grp x.
Proof. unfold on_member. destruct (outs x !! m); [|done]. by destruct (f w). Qed.

Lemma offer_grp now m x : grp (offer now m x).2 = grp x.
Proof. unfold offer. case_goal; [done|]. apply on_member_grp. Qed.

Lemma first_available_grp now i ms x : grp (first_available now i ms x).2 = grp x.
Proof.
  revert i x. induction ms as [|m ms IH]; intros i x; simpl; [done|].
  pose proof (offer_grp now m x) as E. destruct (offer now m x) as [[] x']; simpl in *; [done|].
  by rewrite IH.
Qed.

Lemma binding_grp e p x : grp (readinessBindingCurrentLocked e p x).2 = grp x.
Proof.
  unfold readinessBindingCurrentLocked. repeat case_goal; simplify_eq/=; try done;
    match goal with H : on_member ?m ?d ?f ?x = (_, ?y) |- _ =>
      pose proof (on_member_grp m d f x) as E; rewrite H in E; exact E end.
Qed.

Lemma current_grp e p x : grp (readinessCurrentLocked e p x).2 = grp x.
Proof. unfold readinessCurrentLocked. case_goal; [done|]. apply binding_grp. Qed.

(** ** Receipts *)

Definition all_passed (ss : list ServiceReadinessStage) : Prop :=
  ∃ a b c rest, ss = [a; b; c] ++ rest ∧ three_stages [a; b; c] = true ∧ Forall (λ s, st_pass s = true) rest.

Record receipt_ok (g : group) : Prop := mkReceipt {
  rc_pass : ∀ k p, probes g !! k = Some p → Status p = SPass → all_passed (Stages p);
  rc_guard : fallbackGuardClosed g = true → ∀ k p, readiness g = Some k → probes g !! k = Some p →
             FallbackGuardClosed p = true ∧ Status p ≠ SPass;
  rc_failed : ∀ k p, probes g !! k = Some p → Status p = SFailure →
             FallbackGuardClosed p = true ∧ fallbackGuardClosed g = true;
  rc_keys : ∀ k p, probes g !! k = Some p → (k < next_key g)%nat;
  rc_current : ∀ k, readiness g = Some k → is_Some (probes g !! k)
}.

(** A receipt may only turn to failure once the guard is closed. *)
Definition probe_le (closed : bool) (p p' : probe) : Prop :=
  ProbeID p' = ProbeID p ∧ StartedAtMS p' = StartedAtMS p ∧ (∃ ss, Stages p' = Stages p ++ ss) ∧
  (Status p = SFailure → Status p' = SFailure) ∧ (FallbackGuardClosed p = true → FallbackGuardClosed p' = true) ∧
  (closed = true → Status p' = SPass → Status p = SPass).

Record group_le (g g' : group) : Prop := mkGroupLe {
  gl_members : members g' = members g;
  gl_guard : fallbackGuardClosed g = true → fallbackGuardClosed g' = true;
  gl_failed : dnsFailed g ⊆ dnsFailed g';
  gl_probes : ∀ k p, probes g !! k = Some p →
    ∃ p', probes g' !! k = Some p' ∧ probe_le (fallbackGuardClosed g) p p';
  gl_new : fallbackGuardClosed g = true → ∀ k p', probes g !! k = None → probes g' !! k = Some p' → Status p' ≠ SPass
}.

Lemma probe_le_refl b p : probe_le b p p.
Proof. split_and!; try done. exists []. by rewrite app_nil_r. Qed.

Lemma probe_le_trans (b b' : bool) p q r :
  (b = true → b' = true) → probe_le b p q → probe_le b' q r → probe_le b p r.
Proof.
  intros Hb (E1 & E2 & (s1 & E3) & H1 & H2 & H3) (F1 & F2 & (s2 & F3) & G1 & G2 & G3).
  split_and!; try congruence; auto. exists (s1 ++ s2). by rewrite F3, E3, app_assoc.
Qed.

Lemma group_le_refl g : group_le g g.
Proof. split; try done; [|congruence]. intros k p Hp. exists p. split; [done|apply probe_le_refl]. Qed.

Lemma group_le_trans g1 g2 g3 : group_le g1 g2 → group_le g2 g3 → group_le g1 g3.
Proof.
  intros [M1 G1 F1 P1 N1] [M2 G2 F2 P2 N2]. split; [congruence|auto|set_solver| |].
  - intros k p Hp. destruct (P1 k p Hp) as (q & Hq & L1). destruct (P2 k q Hq) as (r & Hr & L2).
    exists r. split; [done|]. by eapply probe_le_trans.
  - intros Hc k p' Hn Hp'. destruct (probes g2 !! k) as [q|] eqn:Hq.
    + destruct (P2 k q Hq) as (r & Hr & (_ & _ & _ & _ & _ & L)). rewrite Hp' in Hr. simplify_eq.
      intros Hs. by apply (N1 Hc k q Hn Hq), L; [apply G1|].
    + by apply (N2 (G1 Hc) k).
Qed.

Definition sound (x x' : gw) : Prop := receipt_ok (grp x) → receipt_ok (grp x') ∧ group_le (grp x) (grp x').

Lemma sound_refl x : sound x x.
Proof. intros R. split; [done|apply group_le_refl]. Qed.
Lemma sound_trans x y z : sound x y → sound y z → sound x z.
Proof. intros H1 H2 R. destruct (H1 R) as [R2 L1], (H2 R2) as [R3 L2]. split; [done|by eapply group_le_trans]. Qed.
Lemma sound_outs x x' : grp x' = grp x → sound x x'.
Proof. intros E R. rewrite E. split; [done|apply group_le_refl]. Qed.

(** A change of the selection, the windows, the failed resolvers or the keys. *)
Lemma sound_fields x g :
  members g = members (grp x) → readiness g = readiness (grp x) → probes g = probes (grp x) →
  fallbackGuardClosed g = fallbackGuardClosed (grp x) → dnsFailed (grp x) ⊆ dnsFailed g →
  (next_key (grp x) ≤ next_key g)%nat → sound x (x <| grp := g |>).
Proof.
  intros E1 E2 E3 E4 Hd Hk [R1 R2 R3 R4 R5]. simpl. split.
  - split; rewrite ?E2, ?E3, ?E4; auto. intros k p Hp. specialize (R4 k p Hp). lia.
  - split; rewrite ?E3, ?E4; auto; [|congruence]. intros k p Hp. exists p. split; [done|apply probe_le_refl].
Qed.

(** An assignment to one probe object. *)
Lemma sound_update x k f :
  (∀ p, probes (grp x) !! k = Some p → probe_le (fallbackGuardClosed (grp x)) p (f p) ∧
     (Status (f p) = SPass → all_passed (Stages (f p))) ∧
     (Status (f p) = SFailure → FallbackGuardClosed (f p) = true ∧ fallbackGuardClosed (grp x) = true) ∧
     (fallbackGuardClosed (grp x) = true → readiness (grp x) = Some k → FallbackGuardClosed p = true → Status p ≠ SPass →
        FallbackGuardClosed (f p) = true ∧ Status (f p) ≠ SPass)) →
  sound x (update_probe k f x).
Proof.
  intros Hf [R1 R2 R3 R4 R5]. unfold update_probe. simpl.
  assert (L : ∀ j p, alter f k (probes (grp x)) !! j = Some p →
    ∃ q, probes (grp x) !! j = Some q ∧ (j = k ∧ p = f q ∨ j ≠ k ∧ p = q)).
  { intros j p. rewrite lookup_alter_Some. intros [(-> & q & Hq & ->)|[? Hp]]; eauto 10. }
  split; split; simpl; try done.
  - intros j p (q & Hq & [[-> ->]|[_ ->]])%L; [by apply Hf|by eapply R1].
  - intros Hc j p Hj (q & Hq & [[-> ->]|[_ ->]])%L; [|by eapply R2].
    destruct (R2 Hc k q Hj Hq). by apply Hf.
  - intros j p (q & Hq & [[-> ->]|[_ ->]])%L; [by apply Hf|by eapply R3].
  - intros j p (q & Hq & _)%L. by eapply R4.
  - intros j Hj. destruct (R5 j Hj) as [q Hq]. rewrite lookup_alter. case_decide; subst; rewrite Hq; by eexists.
  - intros j p Hp. destruct (decide (j = k)) as [->|].
    + exists (f p). rewrite lookup_alter_eq, Hp. split; [done|]. by apply Hf.
    + exists p. rewrite lookup_alter_ne by done. split; [done|apply probe_le_refl].
  - intros _ j p' Hn (q & Hq & _)%L. congruence.
Qed.

(** An assignment that leaves the receipt's status, stages and guard alone. *)
Lemma sound_benign x k f :
  (∀ p, ProbeID (f p) = ProbeID p ∧ StartedAtMS (f p) = StartedAtMS p ∧ Stages (f p) = Stages p ∧
        Status (f p) = Status p ∧ FallbackGuardClosed (f p) = FallbackGuardClosed p) →
  sound x (update_probe k f x).
Proof.
  intros Hf R. apply sound_update; [|done]. intros p Hp. destruct (Hf p) as (E1 & E2 & E3 & E4 & E5).
  rewrite E3, E4, E5. split_and!; try done.
  - split_and!; try congruence. exists []. by rewrite app_nil_r.
  - by apply (rc_pass _ R k).
  - by apply (rc_failed _ R k).
Qed.

Lemma alter_twice {A} (f g : A → A) (k : nat) (m : gmap nat A) : alter f k (alter g k m) = alter (f ∘ g) k m.
Proof.
  apply map_eq. intros j. destruct (decide (k = j)) as [->|].
  - rewrite !lookup_alter_eq. by destruct (m !! j).
  - by rewrite !lookup_alter_ne.
Qed.

(** Closing the guard, after a stage was possibly appended to the current
    probe. *)
Lemma sound_append_close now k (ss : probe → list ServiceReadinessStage) x :
  readiness (grp x) = Some k →
  sound x (closeReadinessLocked now (update_probe k (λ p, p <| Stages ::= λ l, l ++ ss p |>) x)).
Proof.
  intros Hk R. pose proof R as [R1 R2 R3 R4 R5]. unfold closeReadinessLocked, update_probe. simpl. rewrite Hk.
  set (x1 := x <| grp ::= λ g, g <| fallbackGuardClosed := true |> |>).
  set (f := λ p : probe, p <| Stages ::= λ l, l ++ ss p |>).
  set (c := λ p : probe, let p := p <| FallbackGuardClosed := true |> in
     if bool_decide (Status p = SFailure) then p
     else p <| CompletedAtMS := Some (UnixMilli now) |> <| Status := SFailure |>).
  simpl. change (alter _ k (alter _ k (probes (grp x)))) with (alter c k (alter f k (probes (grp x)))).
  rewrite alter_twice. set (cf := c ∘ f).
  assert (Hcf : ∀ p, ProbeID (cf p) = ProbeID p ∧ StartedAtMS (cf p) = StartedAtMS p ∧
    Stages (cf p) = Stages p ++ ss p ∧ Status (cf p) = SFailure ∧ FallbackGuardClosed (cf p) = true).
  { intros p. unfold cf, c, f. simpl. case_bool_decide; simpl; done. }
  clearbody cf.
  assert (L : ∀ j p, alter cf k (probes (grp x)) !! j = Some p →
    ∃ q, probes (grp x) !! j = Some q ∧ (j = k ∧ p = cf q ∨ j ≠ k ∧ p = q)).
  { intros j p. rewrite lookup_alter_Some. intros [(-> & q & Hq & ->)|[? Hp]]; eauto 10. }
  split; split; simpl; try done.
  - intros j p (q & Hq & [[-> ->]|[_ ->]])%L; [|by eapply R1]. destruct (Hcf q) as (_ & _ & _ & -> & _). done.
  - intros _ j p [= <-] (q & Hq & [[_ ->]|[? _]])%L; [|done]. destruct (Hcf q) as (_ & _ & _ & -> & ->). done.
  - intros j p (q & Hq & [[-> ->]|[_ ->]])%L; [by intros _; split; [apply Hcf|]|].
    intros Hs. by destruct (R3 j q Hq Hs).
  - intros j p (q & Hq & _)%L. by eapply R4.
  - intros j [= <-]. destruct (R5 k Hk) as [q Hq]. rewrite lookup_alter_eq, Hq. by eexists.
  - intros j p Hp. destruct (decide (j = k)) as [->|].
    + exists (cf p). rewrite lookup_alter_eq, Hp. split; [done|].
      destruct (Hcf p) as (E1 & E2 & E3 & E4 & E5). split_and!; try done; [by exists (ss p)|]. rewrite E4. done.
    + exists p. rewrite lookup_alter_ne by done. split; [done|apply probe_le_refl].
  - intros _ j p' Hn (q & Hq & _)%L. congruence.
Qed.

Lemma update_probe_id k x : update_probe k (λ p, p <| Stages ::= λ l, l ++ [] |>) x = x.
Proof.
  assert (E : alter (λ p : probe, p <| Stages ::= λ l, l ++ [] |>) k (probes (grp x)) = probes (grp x)).
  { apply map_eq. intros j. destruct (decide (k = j)) as [->|]; [|by rewrite lookup_alter_ne].
    rewrite lookup_alter_eq. destruct (probes (grp x) !! j) as [[]|]; simpl; [|done]. by rewrite app_nil_r. }
  unfold update_probe, set in *. rewrite E. by destruct x as [[] ?].
Qed.

Lemma sound_close now x : sound x (closeReadinessLocked now x).
Proof.
  destruct (readiness (grp x)) as [k|] eqn:Hk.
  - pose proof (sound_append_close now k (λ _, []) x Hk) as H. by rewrite update_probe_id in H.
  - unfold closeReadinessLocked. rewrite Hk. apply sound_refl.
Qed.

(** *** The methods *)

Lemma sound_then x y z : grp y = grp x → sound y z → sound x z.
Proof. intros E H. eapply sound_trans; [by apply sound_outs|done]. Qed.

Lemma sound_retain_close e k x now :
  readiness (grp x) = Some k → sound x (closeReadinessLocked now (retainResolverDeadlineLocked e k x)).
Proof.
  intros Hk. unfold retainResolverDeadlineLocked. destruct (probes (grp x) !! k) as [p|] eqn:Hp; [|apply sound_close].
  destruct (_ && _); [|apply sound_close]. pose proof (binding_grp e p x) as E.
  destruct (readinessBindingCurrentLocked e p x) as [[] y]; simpl in E; (eapply sound_then; [exact E|]).
  - apply (sound_append_close now k (λ p, [_])). by rewrite E.
  - apply sound_close.
Qed.

Lemma sound_guard now x : sound x (selected_guard now x).
Proof. unfold selected_guard. repeat case_goal; try apply sound_refl. apply sound_close. Qed.

Lemma sound_select now x i : sound x (selected_guard now (x <| grp ::= λ g, g <| selected := i |> |>)).
Proof. eapply sound_trans; [|apply sound_guard]. by apply sound_fields. Qed.

Lemma sound_Selected now x : sound x (Selected now x).2.
Proof.
  unfold Selected. eapply sound_trans; [by apply (sound_fields x ((grp x) <| evaluated := true |>))|].
  set (x1 := x <| grp ::= _ |>). change (x <| grp := _ |>) with x1.
  assert (E : grp (match selected_member (grp x1) with Some m => offer now m x1 | None => (false, x1) end).2 = grp x1).
  { case_goal; [apply offer_grp|done]. }
  destruct (match selected_member (grp x1) with Some m => offer now m x1 | None => (false, x1) end) as [keep x2].
  simpl in E. eapply sound_then; [exact E|]. destruct keep; [apply sound_guard|].
  pose proof (first_available_grp now 0 (members (grp x2)) x2) as E3.
  destruct (first_available now 0 (members (grp x2)) x2) as [[[i m]|] x3]; simpl in E3 |- *;
    (eapply sound_then; [exact E3|apply sound_select]).
Qed.

Lemma sound_DNSFailed now m x : sound x (DNSFailed now m x).
Proof.
  unfold DNSFailed. set (x1 := if bool_decide _ then _ else _).
  assert (S1 : sound x x1) by (unfold x1; case_goal; [apply sound_close|apply sound_refl]).
  eapply sound_trans; [exact S1|]. eapply sound_then; [apply (on_member_grp m tt (mark_dns now))|].
  apply sound_fields; simpl; try done. set_solver.
Qed.

Lemma sound_begin e x : sound x (beginReadiness e x).2.
Proof.
  unfold beginReadiness. set (x1 := match readiness_probe x with Some p => _ | None => x end).
  assert (S1 : sound x x1).
  { unfold x1. destruct (readiness_probe x) as [p|]; [|apply sound_refl]. case_goal; [apply sound_refl|].
    pose proof (current_grp e p x) as E. destruct (readinessCurrentLocked e p x) as [[] y]; simpl in E;
      (eapply sound_then; [exact E|]); [apply sound_refl|apply sound_close]. }
  eapply sound_trans; [exact S1|]. clearbody x1. generalize (readiness_probe x). clear. intros prev.
  intros R. pose proof R as [R1 R2 R3 R4 R5]. cbn [snd].
  assert (Hn : probes (grp x1) !! next_key (grp x1) = None).
  { destruct (probes (grp x1) !! next_key (grp x1)) eqn:E; [|done]. apply R4 in E. lia. }
  split; split; simpl; try done.
  - intros k p. case_key (next_key (grp x1)) k; [by intros [= <-]|apply R1].
  - intros Hc k p [= <-]. rewrite lookup_insert_eq. intros [= <-]. simpl. by rewrite Hc.
  - intros k p. case_key (next_key (grp x1)) k; [by intros [= <-]|apply R3].
  - intros k p. case_key (next_key (grp x1)) k; [lia|]. intros Hp. specialize (R4 k p Hp). lia.
  - intros k [= <-]. by rewrite lookup_insert_eq.
  - intros k p Hp. exists p. rewrite lookup_insert_ne by congruence. split; [done|apply probe_le_refl].
  - intros Hc k p Hk. case_key (next_key (grp x1)) k; [by intros [= <-]|congruence].
Qed.

Lemma sound_bind k m lid t mg x : sound x (bindReadiness k m lid t mg x).
Proof. unfold bindReadiness. case_goal; [apply sound_refl|]. apply sound_benign. done. Qed.

Lemma sound_begin_lookup e k x : sound x (beginResolverLookup e k x).
Proof.
  unfold beginResolverLookup. destruct (probes (grp x) !! k) as [p|]; [|apply sound_refl]. case_goal; [|apply sound_refl].
  pose proof (current_grp e p x) as E. destruct (readinessCurrentLocked e p x) as [[] y]; simpl in E;
    (eapply sound_then; [exact E|]); [by apply sound_benign|apply sound_refl].
Qed.

Lemma sound_finish_lookup e k x : sound x (finishResolverLookup e k x).
Proof. unfold finishResolverLookup. case_goal; [by apply sound_benign|apply sound_refl]. Qed.

Lemma all_passed_app ss s : all_passed ss → st_pass s = true → all_passed (ss ++ [s]).
Proof.
  intros (a & b & c & rest & -> & H3 & Hr) Hs. exists a, b, c, (rest ++ [s]). split_and!; [done|done|].
  apply Forall_app. split; [done|by constructor].
Qed.

Lemma sound_observe e k stage at_ d err x : sound x (observeReadiness e k stage at_ d err x).
Proof.
  unfold observeReadiness. destruct (is_current k x) eqn:Hk; [|apply sound_refl]. apply bool_decide_eq_true in Hk.
  cbn [negb]. cbv iota. destruct (probes (grp x) !! k) as [p|] eqn:Hp; [|apply sound_refl].
  assert (E : grp (if bool_decide (is_Some (e_ctx e)) then (false, x) else readinessCurrentLocked e p x).2 = grp x)
    by (case_goal; [done|apply current_grp]).
  destruct (if bool_decide (is_Some (e_ctx e)) then _ else _) as [ok y]. simpl in E.
  eapply sound_then; [exact E|]. rewrite <- E in Hk, Hp. destruct ok; [|by apply sound_retain_close].
  cbn [negb]. cbv iota. case_bool_decide as Herr; [|apply (sound_append_close (e_now e) k (λ _, [_]) y Hk)].
  intros R. apply sound_update; [|done]. intros q Hq. simpl. split_and!.
  - split_and!; try done. by eexists.
  - intros Hs. apply all_passed_app; [|done]. by apply (rc_pass _ R k).
  - by apply (rc_failed _ R k).
  - done.
Qed.

Lemma three_all_passed ss : three_stages ss = true → all_passed ss.
Proof.
  intros H. destruct ss as [|a [|b [|c [|? ?]]]]; try done. exists a, b, c, []. by split_and!.
Qed.

Lemma sound_finish e k err x : sound x (finishReadiness e k err x).
Proof.
  unfold finishReadiness. destruct (is_current k x) eqn:Hk; [|apply sound_refl]. apply bool_decide_eq_true in Hk.
  cbn [negb]. cbv iota. destruct (probes (grp x) !! k) as [p|] eqn:Hp; [|apply sound_refl].
  destruct (err || _ || fallbackGuardClosed (grp x)) eqn:Hbad; [by apply sound_retain_close|]. bsplit.
  pose proof (current_grp e p x) as E. destruct (readinessCurrentLocked e p x) as [ok y]. simpl in E.
  eapply sound_then; [exact E|]. rewrite <- E in *.
  destruct (negb ok || negb (three_stages (Stages p))) eqn:Hb; [by apply sound_retain_close|]. bsplit.
  intros R. apply sound_update; [|done]. intros q Hq. rewrite Hp in Hq. simplify_eq. simpl.
  split_and!; try done; [|by intros _; apply three_all_passed|congruence].
  split_and!; try done; [exists []; by rewrite app_nil_r| |congruence].
  intros Hs. destruct (rc_failed _ R k q Hp Hs). congruence.
Qed.

Lemma sound_bypass now m d x : sound x (ObserveScopedRuleBypass now m d x).
Proof. unfold ObserveScopedRuleBypass. case_goal; [apply sound_close|apply sound_refl]. Qed.

Lemma sound_unbind now k m x : sound x (unbindWindow now k m x).
Proof.
  unfold unbindWindow. case_goal; [|apply sound_refl]. set (x1 := if bool_decide _ then _ else _).
  assert (S1 : sound x x1) by (unfold x1; case_goal; [apply sound_close|apply sound_refl]).
  eapply sound_trans; [exact S1|]. by apply sound_fields.
Qed.

Lemma sound_scope e m d sel x : sound x (probeScope e m d sel x).2.
Proof.
  unfold probeScope. pose proof (on_member_grp m false (AdmitsNewFlows (e_now e)) x) as E.
  destruct (on_member m false _ x) as [ok y]. simpl in E. eapply sound_then; [exact E|].
  destruct ok; [|apply sound_refl]. cbn [negb]. cbv iota.
  assert (S1 : sound y (if sel then Selected (e_now e) y else (Some m, y)).2)
    by (destruct sel; [apply sound_Selected|apply sound_refl]).
  destruct (if sel then _ else _) as [s1 z]. simpl in S1. eapply sound_trans; [exact S1|].
  case_goal; [apply sound_refl|]. case_goal; [|apply sound_refl].
  assert (S2 : sound z (if sel then Selected (e_now e) z else (Some m, z)).2)
    by (destruct sel; [apply sound_Selected|apply sound_refl]).
  destruct (if sel then _ else _) as [s2 z']. exact S2.
Qed.

Lemma sound_read e x : sound x (ReadServiceLeaseSelection e x).2.
Proof.
  unfold ReadServiceLeaseSelection. set (x1 := match readiness (grp x) with Some k => _ | None => x end).
  assert (S1 : sound x x1).
  { unfold x1. destruct (readiness (grp x)) as [k|] eqn:Hk; [|apply sound_refl].
    destruct (readiness_probe x) as [p|]; [|apply sound_refl]. case_goal; [apply sound_refl|].
    pose proof (current_grp e p x) as E. destruct (readinessCurrentLocked e p x) as [[] y]; simpl in E;
      (eapply sound_then; [exact E|]); [apply sound_refl|]. apply sound_retain_close. by rewrite E. }
  eapply sound_trans; [exact S1|]. destruct (selected_member (grp x1)) as [m|]; [|apply sound_refl].
  pose proof (on_member_grp m false (availableForNewFlows (e_now e)) x1) as E.
  destruct (on_member m false _ x1) as [av y]. by apply sound_outs.
Qed.

Lemma gop_sound x x' : gop x x' → sound x x'.
Proof.
  destruct 1; auto using sound_Selected, sound_DNSFailed, sound_begin, sound_bind, sound_begin_lookup,
    sound_finish_lookup, sound_observe, sound_finish, sound_bypass, sound_unbind, sound_scope, sound_read.
  - apply sound_fields; simpl; try done. lia.
  - by apply sound_outs.
Qed.

Lemma gops_sound x x' : rtc gop x x' → sound x x'.
Proof. induction 1; [apply sound_refl|]. eapply sound_trans; [by apply gop_sound|done]. Qed.

Lemma fresh_receipt svc ms : receipt_ok (mkGroup svc ms 0 false ∅ [] 0 None ∅ false 0).
Proof. split; simpl; try done; intros k p H; by rewrite lookup_empty in H. Qed.

(** A readiness receipt says "pass" only for evidence it really has, and a
    closed fallback guard never reopens.  In every state the methods of a group
    can reach: a passed receipt carries the resolver, DNS and TLS stages in that
    order, all passed, and nothing failed after them; and once the guard is
    closed it stays closed, no receipt that had not passed yet - a later
    probe's included - ever passes, and a readback of the current receipt shows
    the closed guard and no pass. *)
Theorem readiness_receipt h svc ms ws g x x' :
  ServiceLeaseGroup h svc ms None ws = Ok g → rtc gop (mkGw g ws) x → rtc gop x x' →
  (∀ k p, probes (grp x) !! k = Some p → Status p = SPass → all_passed (Stages p)) ∧
  (fallbackGuardClosed (grp x) = true →
     fallbackGuardClosed (grp x') = true ∧
     (∀ k p', probes (grp x') !! k = Some p' → Status p' = SPass →
        ∃ p, probes (grp x) !! k = Some p ∧ Status p = SPass) ∧
     (∀ e p, sel_readiness (ReadServiceLeaseSelection e x').1 = Some p →
        FallbackGuardClosed p = true ∧ Status p ≠ SPass)).
Proof.
  intros Hg H0 H.
  assert (R0 : receipt_ok (grp (mkGw g ws))).
  { unfold ServiceLeaseGroup in Hg. repeat case_hyp Hg; try done. simplify_eq. apply fresh_receipt. }
  destruct (gops_sound _ _ H0 R0) as [R _]. destruct (gops_sound _ _ H R) as [R' L].
  split; [apply R|]. intros Hc. split_and!; [by apply L| |].
  - intros k p' Hp' Hs. destruct (probes (grp x) !! k) as [p|] eqn:Hp.
    + exists p. split; [done|]. destruct (gl_probes _ _ L k p Hp) as (q & Hq & (_ & _ & _ & _ & _ & G)).
      rewrite Hp' in Hq. simplify_eq. auto.
    + by destruct (gl_new _ _ L Hc k p' Hp Hp').
  - intros e p Hp. apply L in Hc as Hc'. destruct (sound_read e x' R') as [R2 L2]. apply L2 in Hc' as Hc2.
    assert (Hr : readiness_probe (ReadServiceLeaseSelection e x').2 = Some p).
    { revert Hp. unfold ReadServiceLeaseSelection. repeat case_goal; simplify_eq/=; done. }
    unfold readiness_probe in Hr. destruct (readiness _) as [k|] eqn:Hk; [|done]. by apply (rc_guard _ R2 Hc2 k).
Qed.

(** ** Selection *)

Lemma prune_twice now d ts : prune now d (prune now d ts) = prune now d ts.
Proof.
  induction ts as [|t ts IH]; simpl; [done|]. destruct (d <=? Sub now t) eqn:E; [done|]. simpl. by rewrite E.
Qed.

Lemma admits_twice now w :
  admitsLocked now (admitsLocked now w).2 = admitsLocked now w.
Proof.
  unfold admitsLocked. rewrite admitsLeaseLocked_ob. set (a := lease (ob w)).
  unfold admitsLeaseLocked. destruct (auths w !! a) as [l|] eqn:E; simpl; [|by rewrite E].
  destruct (expired_now now l) eqn:Ex; simpl.
  - rewrite lookup_alter_eq, E. simpl. change (expired_now now _) with (expired_now now l). rewrite Ex.
    rewrite orb_true_r. simpl. f_equal. unfold set_auth, set. f_equal. apply alter_twice.
  - rewrite E. by rewrite Ex.
Qed.

Lemma admits_attempts now g w :
  admitsLocked now (w <| ob ::= λ h, h <| attempts ::= g |> |>) =
  ((admitsLocked now w).1, (admitsLocked now w).2 <| ob ::= λ h, h <| attempts ::= g |> |>).
Proof.
  unfold admitsLocked, admitsLeaseLocked. simpl. destruct (auths w !! lease (ob w)); [|done]. simpl.
  by destruct (expired_now now l).
Qed.

Lemma available_twice now w :
  availableForNewFlows now (availableForNewFlows now w).2 = availableForNewFlows now w.
Proof.
  unfold availableForNewFlows. pose proof (admits_twice now w) as A.
  destruct (admitsLocked now w) as [ok w1]. cbn [snd] in A.
  destruct (negb ok || _) eqn:E1; cbn [snd]; [by rewrite A, E1|].
  set (w2 := w1 <| ob ::= λ h, h <| attempts ::= prune now Minute |> |>).
  assert (A2 : admitsLocked now w2 = (ok, w2)) by (unfold w2; by rewrite admits_attempts, A).
  assert (P : w2 <| ob ::= λ h, h <| attempts ::= prune now Minute |> |> = w2)
    by (unfold w2, set; cbn [attempts ob]; by rewrite prune_twice).
  assert (E1' : negb ok || (maxConcurrent (ob w2) <=? Z.of_nat (size (flows (ob w2)))) = false) by exact E1.
  destruct (maxNew (ob w2) <=? _) eqn:E2; cbn [snd]; [by rewrite A2, E1', P, E2|].
  destruct (relayPolicy (ob w2)) eqn:E3; cbn [snd]; by rewrite A2, E1', P, E2, E3.
Qed.

Lemma available_keeps now w : heap (availableForNewFlows now w).2 = heap w ∧ flows (ob (availableForNewFlows now w).2) = flows (ob w).
Proof.
  unfold availableForNewFlows, admitsLocked. pose proof (admitsLeaseLocked_ob (lease (ob w)) now w) as O.
  pose proof (admitsLeaseLocked_heap (lease (ob w)) now w) as H.
  destruct (admitsLeaseLocked (lease (ob w)) now w) as [ok w1]. simpl in *.
  repeat case_goal; simpl; by rewrite ?O, ?H.
Qed.

(** A member that may take new flows at this reading of the clock. *)
Definition eligible (now : time) (x : gw) (m : nat) : bool :=
  negb (bool_decide (m ∈ dnsFailed (grp x))) &&
  from_option (λ w, (availableForNewFlows now w).1) false (outs x !! m).

(** The selection: keep the current member while it is eligible, else take the
    first eligible one in the coordinator's order. *)
Definition spec_select (ok : nat → bool) (cur : option nat) (ms : list nat) : option nat :=
  match cur with
  | Some m => if ok m then Some m else List.find ok ms
  | None => List.find ok ms
  end.

(** The flows of the members, which a selection must not touch. *)
Definition member_flows (x : gw) (m : nat) : option (gmap nat leaseFlow * gset nat) :=
  (λ w, (heap w, flows (ob w))) <$> outs x !! m.

Lemma offer_spec now m x :
  (offer now m x).1 = eligible now x m ∧ (∀ m', eligible now (offer now m x).2 m' = eligible now x m') ∧
  (∀ m', member_flows (offer now m x).2 m' = member_flows x m').
Proof.
  unfold offer, eligible, on_member, member_flows. case_bool_decide as Hd; simpl; [done|].
  destruct (outs x !! m) as [w|] eqn:E; simpl; [|done].
  pose proof (available_twice now w) as T. pose proof (available_keeps now w) as [K1 K2].
  destruct (availableForNewFlows now w) as [r w'] eqn:Ew. simpl in *. split_and!; [done|..];
    intros m'; case_key m m'; rewrite ?E; simpl; rewrite ?T, ?Ew, ?K1, ?K2; done.
Qed.

Lemma first_available_spec now ms i x :
  match first_available now i ms x with
  | (Some (j, m), x') =>
      List.find (eligible now x) ms = Some m ∧ i ≤ j ∧ ms !! Z.to_nat (j - i) = Some m ∧
      (∀ m', member_flows x' m' = member_flows x m')
  | (None, x') => List.find (eligible now x) ms = None ∧ (∀ m', member_flows x' m' = member_flows x m')
  end.
Proof.
  revert i x. induction ms as [|m ms IH]; intros i x; simpl; [done|].
  destruct (offer_spec now m x) as (E1 & E2 & E3). destruct (offer now m x) as [b x1]. simpl in *. subst b.
  destruct (eligible now x m) eqn:Em.
  - split_and!; [done|lia|by rewrite Z.sub_diag|done].
  - specialize (IH (i + 1) x1).
    assert (Ef : List.find (eligible now x1) ms = List.find (eligible now x) ms).
    { clear -E2. induction ms as [|m' ms IH]; simpl; [done|]. rewrite E2. by rewrite IH. }
    destruct (first_available now (i + 1) ms x1) as [[[j m']|] x2]; rewrite Ef in IH.
    + destruct IH as (H1 & H2 & H3 & H4). split_and!; [done|lia| |intros; by rewrite H4].
      replace (Z.to_nat (j - i)) with (S (Z.to_nat (j - (i + 1)))) by lia. done.
    + destruct IH as (H1 & H4). split; [done|]. intros. by rewrite H4.
Qed.

Lemma guard_selected now x :
  selected_member (grp (selected_guard now x)) = selected_member (grp x) ∧ outs (selected_guard now x) = outs x.
Proof. unfold selected_guard, closeReadinessLocked, update_probe. repeat case_goal; done. Qed.

Lemma selected_spec now x :
  let '(r, x') := Selected now x in
  r = spec_select (eligible now x) (selected_member (grp x)) (members (grp x)) ∧
  selected_member (grp x') = r ∧ (∀ m, member_flows x' m = member_flows x m).
Proof.
  unfold Selected. set (x1 := x <| grp ::= _ |>).
  assert (K : ∀ keep x2, (match selected_member (grp x1) with Some m => offer now m x1 | None => (false, x1) end) = (keep, x2) →
    keep = from_option (eligible now x) false (selected_member (grp x)) ∧ grp x2 = grp x1 ∧
    (∀ m, eligible now x2 m = eligible now x m) ∧ (∀ m, member_flows x2 m = member_flows x m)).
  { intros keep x2. change (selected_member (grp x1)) with (selected_member (grp x)).
    destruct (selected_member (grp x)) as [m|]; [|by intros [= <- <-]]. intros E.
    destruct (offer_spec now m x1) as (E1 & E2 & E3). pose proof (offer_grp now m x1) as E4. rewrite E in *. done. }
  destruct (match selected_member (grp x1) with Some m => _ | None => _ end) as [keep x2].
  destruct (K keep x2 eq_refl) as (Ek & E2 & El & Em). clear K.
  assert (Es : selected_member (grp x2) = selected_member (grp x)) by (by rewrite E2).
  destruct keep.
  - rewrite Es. destruct (guard_selected now x2) as [G1 G2]. rewrite G1, Es.
    unfold spec_select. destruct (selected_member (grp x)) as [m|]; [|done]. simpl in Ek. rewrite <- Ek.
    split_and!; [done|done|]. intros m'. unfold member_flows. rewrite G2. apply Em.
  - replace (members (grp x2)) with (members (grp x)) by (by rewrite E2).
    pose proof (first_available_spec now (members (grp x)) 0 x2) as F.
    pose proof (first_available_grp now 0 (members (grp x)) x2) as F2.
    assert (Ef : List.find (eligible now x2) (members (grp x)) = List.find (eligible now x) (members (grp x))).
    { generalize (members (grp x)). induction l as [|m' ms IH]; simpl; [done|]. by rewrite El, IH. }
    assert (Ep : spec_select (eligible now x) (selected_member (grp x)) (members (grp x)) =
                 List.find (eligible now x) (members (grp x))).
    { unfold spec_select. destruct (selected_member (grp x)); [|done]. simpl in Ek. by rewrite <- Ek. }
    rewrite Ep, <- Ef.
    destruct (first_available now 0 (members (grp x)) x2) as [[[i m]|] x3]; simpl in F2.
    + destruct F as (F3 & F4 & F5 & F6). destruct (guard_selected now (x3 <| grp ::= λ g, g <| selected := i |> |>)) as [G1 G2].
      rewrite F3, G1. split_and!; [done| |intros m'; rewrite <- Em, <- F6; unfold member_flows; by rewrite G2].
      unfold selected_member. simpl. rewrite bool_false_if by lia. rewrite F2, E2. simpl.
      replace (i - 0) with i in F5 by lia. done.
    + destruct F as (F3 & F6). destruct (guard_selected now (x3 <| grp ::= λ g, g <| selected := -1 |> |>)) as [G1 G2].
      rewrite F3, G1. split_and!; [done|done|]. intros m'. rewrite <- Em, <- F6. unfold member_flows. by rewrite G2.
Qed.

(** [Selected] executes the coordinator's order and nothing else.  It keeps
    the selected provider while that one is eligible, otherwise takes the first
    eligible provider in order, and reports none exactly when none is eligible;
    the group's selection is what it returned; the connections of every
    provider are left as they are; and a provider whose resolver failed is
    never selected again in any later state. *)
Theorem selected_in_order now x :
  receipt_ok (grp x) →
  let '(r, x') := Selected now x in
  r = spec_select (eligible now x) (selected_member (grp x)) (members (grp x)) ∧
  selected_member (grp x') = r ∧
  (∀ m, member_flows x' m = member_flows x m) ∧
  (∀ m y now', m ∈ dnsFailed (grp x) → rtc gop x y → (Selected now' y).1 ≠ Some m).
Proof.
  intros R. pose proof (selected_spec now x) as H. destruct (Selected now x) as [r x'].
  destruct H as (H1 & H2 & H3). split_and!; [done|done|done|].
  intros m y now' Hm Hs. destruct (gops_sound _ _ Hs R) as [_ L]. apply (gl_failed _ _ L) in Hm.
  pose proof (selected_spec now' y) as G. destruct (Selected now' y) as [r' y']. destruct G as (-> & _). simpl.
  assert (He : eligible now' y m = false) by (unfold eligible; by rewrite bool_decide_eq_true_2).
  assert (Hf : ∀ ms, List.find (eligible now' y) ms ≠ Some m).
  { intros ms E. apply find_some in E as [_ E]. congruence. }
  unfold spec_select. repeat case_goal; auto. intros [= ->]. congruence.
Qed.

(** ** Unavailability *)

Definition grant_expired (now : time) (l : leaseAuthorization) : bool :=
  negb (Before now (newUntil l)) || negb (Before now (newDeadline l)).

(** A member that is out of service with its authority intact: the grant ran
    out by the clock while the resolver is healthy, or a current grant has a
    recorded failure. *)
Definition out_of_service (e : genv) (x : gw) (m : nat) : Prop :=
  ∃ w l, outs x !! m = Some w ∧ current_lease w = Some l ∧
    closed (ob w) = false ∧ revoked (ob w) = false ∧ l_revoked l = false ∧
    Before (e_now e) (issued l) = false ∧
    window_state e m (probeWindows (grp x)) false false = (true, true) ∧
    if grant_expired (e_now e) l then m ∉ dnsFailed (grp x)
    else admissionExpired l = false ∧ (m ∈ dnsFailed (grp x) ∨ probeFailure l ≠ None).

(** The failure of a member with a current grant. *)
Definition member_stage (e : genv) (x : gw) (m : nat) : option ProbeStage :=
  w ← outs x !! m; l ← current_lease w;
  if grant_expired (e_now e) l then None
  else if bool_decide (m ∈ dnsFailed (grp x)) then Some StageDNS else probeFailure l.

Lemma unavailable_loop_spec e x ms failure r :
  unavailable_loop e ms failure x = Some r ↔
  (∀ m, m ∈ ms → out_of_service e x m) ∧
  r = match failure with Some _ => failure | None => head (omap (member_stage e x) ms) end.
Proof.
  revert failure. induction ms as [|m ms IH]; intros failure.
  { simpl. split; [intros [= <-]; split; [intros m H; by apply elem_of_nil in H|by destruct failure]|].
    intros [_ ->]. by destruct failure. }
  assert (Hcons : (∀ m', m' ∈ m :: ms → out_of_service e x m') ↔
    out_of_service e x m ∧ (∀ m', m' ∈ ms → out_of_service e x m')).
  { setoid_rewrite elem_of_cons. naive_solver. }
  rewrite Hcons. clear Hcons. cbn [unavailable_loop].
  change (omap (member_stage e x) (m :: ms)) with
    (match member_stage e x m with Some y => y :: omap (member_stage e x) ms | None => omap (member_stage e x) ms end).
  destruct (outs x !! m) as [w|] eqn:Ew; simpl.
  2: { split; [done|]. intros [[(w & l & Hw & _) _] _]. congruence. }
  destruct (current_lease w) as [l|] eqn:El; simpl.
  2: { split; [done|]. intros [[(w' & l & Hw & Hl & _) _] _]. congruence. }
  assert (Hoos : out_of_service e x m ↔ closed (ob w) = false ∧ revoked (ob w) = false ∧ l_revoked l = false ∧
    Before (e_now e) (issued l) = false ∧ window_state e m (probeWindows (grp x)) false false = (true, true) ∧
    if grant_expired (e_now e) l then m ∉ dnsFailed (grp x)
    else admissionExpired l = false ∧ (m ∈ dnsFailed (grp x) ∨ probeFailure l ≠ None)).
  { unfold out_of_service. split; [intros (w' & l' & Hw & Hl & H); simplify_eq; naive_solver|].
    intros H. exists w, l. naive_solver. }
  rewrite Hoos. clear Hoos. unfold member_stage. rewrite Ew. simpl. rewrite El. simpl.
  fold (grant_expired (e_now e) l).
  destruct (closed (ob w)), (revoked (ob w)), (l_revoked l), (Before (e_now e) (issued l)); simpl;
    try (split; [done|naive_solver]).
  destruct (window_state e m (probeWindows (grp x)) false false) as [dns route].
  destruct (grant_expired (e_now e) l); destruct (bool_decide (m ∈ dnsFailed (grp x))) eqn:Hd; bsplit; simpl;
    try (split; [done|naive_solver]).
  - destruct dns, route; simpl; try (split; [done|naive_solver]). rewrite IH. naive_solver.
  - destruct (admissionExpired l); simpl; [split; [done|naive_solver]|]. rewrite andb_false_r.
    destruct failure as [s|]; simpl; destruct dns, route; simpl; try (split; [done|naive_solver]);
      rewrite IH; naive_solver.
  - destruct (admissionExpired l); simpl; [split; [done|naive_solver]|]. rewrite andb_true_r.
    destruct (bool_decide (probeFailure l = None)) eqn:Hp; bsplit; simpl; [split; [done|naive_solver]|].
    destruct failure as [s|]; simpl; destruct dns, route; simpl; try (split; [done|naive_solver]);
      rewrite IH; destruct (probeFailure l); naive_solver.
Qed.

(** A probe reports a service as unavailable exactly when every member of
    the group is out of service with its authority intact - nothing closed,
    revoked or not yet valid, its route and DNS windows still bound - and then
    it reports the failure of the first member whose grant is still current,
    or the expiry when all grants ran out.  Missing authority is never turned
    into a provider failure. *)
Theorem unavailable_exact e x s :
  probeUnavailableError e true x = Some s ↔
  (∀ m, m ∈ members (grp x) → out_of_service e x m) ∧
  s = default StageLeaseExpired (head (omap (member_stage e x) (members (grp x)))).
Proof.
  unfold probeUnavailableError. simpl.
  destruct (unavailable_loop e (members (grp x)) None x) as [r|] eqn:E.
  - apply unavailable_loop_spec in E as [H ->]. destruct (head _); simpl; naive_solver.
  - split; [done|]. intros [H ->]. exfalso.
    assert (G : unavailable_loop e (members (grp x)) None x = Some (head (omap (member_stage e x) (members (grp x)))))
      by (by apply unavailable_loop_spec). congruence.
Qed.

(** *** Examples: a group of two providers with the same scope *)

Definition ex_outs : gmap nat world := {[1%nat := ex_world; 2%nat := ex_world]}.
Definition ex_group : group := mkGroup "video" [1%nat; 2%nat] 0 false ∅ [] 0 None ∅ false 0.
Definition ex_env (s : Z) : genv := mkEnv (ex_now s) None false Some (λ _, true) (λ _ _, true).

Lemma ex_group_new : ServiceLeaseGroup 1 "video" [1%nat; 2%nat] None ex_outs = Ok ex_group.
Proof. vm_compute. reflexivity. Qed.

(** A full probe that passes. *)
Definition ex_start : gw := mkGw ex_group ex_outs.
Definition ex_dns : gw := (BindProbeWindow 1 true (Some 5%nat) ex_start).2.
Definition ex_route : gw := (BindProbeWindow 1 false None ex_dns).2.
Definition ex_begun : gw := (beginReadiness (ex_env 2) ex_route).2.
Definition ex_bound : gw := bindReadiness 2 1 (LeaseID ex_options) (Some 5%nat) true ex_begun.
Definition ex_obs (s : string) (x : gw) : gw :=
  observeReadiness (ex_env 3) 2 s (ex_now 3) (5 * Millisecond) None x.
Definition ex_observed : gw := ex_obs "tls" (ex_obs "dns" (ex_obs "resolver" ex_bound)).
Definition ex_passed : gw := finishReadiness (ex_env 3) 2 false ex_observed.

Lemma ex_passed_steps : rtc gop ex_start ex_passed.
Proof.
  apply (rtc_l _ _ ex_dns); [apply op_window|]. apply (rtc_l _ _ ex_route); [apply op_window|].
  apply (rtc_l _ _ ex_begun); [apply op_begin|]. apply (rtc_l _ _ ex_bound); [apply op_bind|].
  apply (rtc_l _ _ (ex_obs "resolver" ex_bound)); [apply op_observe|].
  apply (rtc_l _ _ (ex_obs "dns" (ex_obs "resolver" ex_bound))); [apply op_observe|].
  apply (rtc_l _ _ ex_observed); [apply op_observe|]. apply rtc_once, op_finish.
Qed.

Lemma readiness_receipt_witness :
  ∃ p, probes (grp ex_passed) !! 2%nat = Some p ∧ Status p = SPass ∧ all_passed (Stages p).
Proof.
  pose proof (readiness_receipt 1 "video" [1%nat; 2%nat] ex_outs ex_group ex_passed ex_passed ex_group_new
    ex_passed_steps (rtc_refl _ _)) as [H _].
  destruct (probes (grp ex_passed) !! 2%nat) as [p|] eqn:E.
  - exists p. assert (Hs : Status p = SPass) by (assert (G : Status <$> probes (grp ex_passed) !! 2%nat = Some SPass)
      by (vm_compute; reflexivity); rewrite E in G; injection G; trivial).
    split; [reflexivity|]. split; [exact Hs|]. exact (H 2%nat p E Hs).
  - exfalso. assert (G : Status <$> probes (grp ex_passed) !! 2%nat = Some SPass) by (vm_compute; reflexivity).
    rewrite E in G. discriminate.
Defined.

(** The first provider's resolver fails: the second one takes over for good. *)
Definition ex_failed : gw := DNSFailed (ex_now 3) 1 ex_start.

Lemma selected_in_order_witness :
  (Selected (ex_now 4) ex_failed).1 = Some 2%nat ∧ (Selected (ex_now 4) ex_failed).1 ≠ Some 1%nat.
Proof.
  pose proof (selected_in_order (ex_now 4) ex_failed
    (proj1 (sound_DNSFailed (ex_now 3) 1 ex_start (fresh_receipt _ _)))) as H.
  destruct (Selected (ex_now 4) ex_failed) as [r x'] eqn:E. destruct H as (H1 & _ & _ & H4). split.
  - rewrite H1. vm_compute. reflexivity.
  - specialize (H4 1%nat ex_failed (ex_now 4) ltac:(vm_compute; reflexivity) (rtc_refl _ _)).
    rewrite E in H4. exact H4.
Defined.
