(* ===== verification/SaProbe.v ===== *)
(** * The service readiness probe

    Models [engine/sing-box/protocol/pokrov/smartaccess/probe.go]: one probe of
    the selected provider's resolver and TLS relay, over the service group of
    [SaServiceGroup].  The blocking calls (the resolver, the relay connection,
    the TLS handshake) are inputs, with the interference of other goroutines
    before every checkpoint. *)

From stdpp Require Import base list strings gmap relations.
From Stdlib Require Import ZArith Lia Ascii.
From S2P Require Import Prelude GoTime GoBytes GoNetip UrlTestHistory SaClientHello SaOutbound SaServiceGroup.

Local Open Scope Z_scope.

(** The errors of a probe: a plain error, a staged probe error or the cause of
    the context. *)
Inductive perr :=
| PPlain (e : string)
| PStage (s : ProbeStage)
| PCause.

(** What a probe meets.  [i_env k] and [i_at k] are the interference before and
    the environment at checkpoint [k]; [i_ownerErr] is the error of the
    outbound's own context, part of the environment as [e_owner]. *)
Record probe_input := mkProbeInput {
  i_at : nat → genv;
  i_env : nat → gw → gw;
  i_manager : bool;
  i_resolver : bool;
  i_responses : list (nat * time * Z * option goerr);
  i_lookup : result goerr (list addr);
  i_started : time;
  i_dnsNow : time;
  i_tls : option goerr;
  i_tlsAt : time;
  i_tlsDuration : Z;
  i_flowError : option string;
  i_connected : bool;
  i_connectError : option string;
  i_end : time
}.

Definition over (e : genv) : bool := bool_decide (is_Some (e_ctx e)) || e_owner e.

(** [current(selected)] of the source. *)
Definition probe_current (e : genv) (manager : bool) (m : nat) (leaseID : string) (transport : option nat)
    (domain : string) (sel : bool) (x : gw) : bool * gw :=
  let '(active, scoped, x) := probeScope e m domain sel x in
  (negb (over e) && bool_decide (from_option getLeaseID "" (outs x !! m) = leaseID) &&
   bool_decide (transport ≫= e_bound e = transport) && bool_decide (is_Some transport) && scoped &&
   bool_decide (active = transport), x).

(** [unavailable()] of the source. *)
Definition probe_unavailable (e : genv) (manager : bool) (m : nat) (leaseID : string) (x : gw) : perr :=
  if negb (over e) && bool_decide (from_option getLeaseID "" (outs x !! m) = leaseID) then
    match probeUnavailableError e manager x with Some s => PStage s | None => PPlain errLease end
  else PPlain errLease.

(** The resolver's response observer. *)
Fixpoint observe_responses (e : genv) (k : nat) (transport : option nat)
    (rs : list (nat * time * Z * option goerr)) (x : gw) : gw :=
  match rs with
  | [] => x
  | (t, observedAt, d, err) :: rs =>
      observe_responses e k transport rs
        (if bool_decide (Some t = transport) then observeReadiness e k "resolver" observedAt d err x else x)
  end.

(** Every address is an IPv4 relay of the member. *)
Definition owned (w : world) (a : addr) : bool := Is4 a && bool_decide (a ∈ relays (ob w)).

Definition clamp_delay (ms : Z) : Z := if ms <? 1 then 1 else if 65534 <? ms then 65534 else ms.

(** The body, without the deferred [finishReadiness]; [k] is the probe. *)
Definition probe_body (i : probe_input) (k : nat) (x : gw) : result perr Z * gw :=
  let step n x := i_env i n x in
  let e n := i_at i n in
  if over (e 1%nat) then (Err (PPlain errLease), x)
  else
    match Selected (e_now (e 1%nat)) (step 1%nat x) with
    | (None, x) =>
        (Err (match probeUnavailableError (e 2%nat) (i_manager i) x with
              | Some s => if over (e 2%nat) then PPlain errLease else PStage s
              | None => PPlain errLease
              end), x)
    | (Some m, x) =>
        let x := step 2%nat x in
        let w0 := outs x !! m in
        let leaseID := from_option getLeaseID "" w0 in
        let domain := str_of_list (from_option (λ w, from_option Name [] (head (domains (ob w)))) [] w0) in
        let '(transport, scoped, x) := probeScope (e 3%nat) m domain true x in
        let x := bindReadiness k m leaseID transport (i_manager i) (step 3%nat x) in
        if negb scoped || negb (i_manager i) || negb (i_resolver i) then (Err (PPlain errScope), x)
        else
          let cur n sel x := probe_current (e n) (i_manager i) m leaseID transport domain sel (step n x) in
          let fail n x := (Err (probe_unavailable (e n) (i_manager i) m leaseID x), x) in
          match cur 4%nat true x with
          | (false, x) => fail 4%nat x
          | (true, x) =>
              let x := beginResolverLookup (e 5%nat) k (step 5%nat x) in
              let x := observe_responses (e 6%nat) k transport (i_responses i) (step 6%nat x) in
              let x := finishResolverLookup (e 7%nat) k (step 7%nat x) in
              let observe_dns err x :=
                observeReadiness (e 8%nat) k "dns" (i_dnsNow i) (Since (i_started i) (i_dnsNow i)) err x in
              match cur 7%nat false x with
              | (false, x) => fail 7%nat x
              | (true, x) =>
                  match i_lookup i with
                  | Err err => (Err (PStage StageDNS), observe_dns (Some (NProbe StageDNS :: err)) x)
                  | Ok addresses =>
                      match cur 8%nat true x with
                      | (false, x) => fail 8%nat x
                      | (true, x) =>
                          if bool_decide (addresses = []) ||
                             negb (forallb (λ a, from_option (λ w, owned w a) false (outs x !! m)) addresses)
                          then (Err (PStage StageDNS), observe_dns (Some [NProbe StageDNS; NOther]) x)
                          else
                            let x := step 9%nat (observe_dns None x) in
                            let observe_tls err x :=
                              observeReadiness (e 10%nat) k "tls" (i_tlsAt i) (i_tlsDuration i) err x in
                            match cur 10%nat false x with
                            | (false, x) =>
                                if bool_decide (is_Some (e_ctx (e 10%nat))) then (Err PCause, x) else fail 10%nat x
                            | (true, x) =>
                                match i_connectError i with
                                | Some _ => (Err (PStage StageConnect), observe_tls (Some [NProbe StageConnect; NOther]) x)
                                | None =>
                                    match i_tls i with
                                    | Some err =>
                                        (Err (if i_connected i then PStage StageTLS
                                              else PPlain (default errLease (i_flowError i))),
                                         observe_tls (Some (NProbe StageTLS :: err)) x)
                                    | None =>
                                        match cur 11%nat true x with
                                        | (false, x) => fail 11%nat x
                                        | (true, x) =>
                                            (Ok (clamp_delay (Since (i_started i) (i_end i) `quot` Millisecond)),
                                             observe_tls None x)
                                        end
                                    end
                                end
                            end
                      end
                  end
              end
          end
    end.

(** [ProbeServiceReadiness]. *)
Definition ProbeServiceReadiness (i : probe_input) (x : gw) : result perr Z * gw :=
  let '(k, x) := beginReadiness (i_at i 0%nat) x in
  let '(r, x) := probe_body i k x in
  (r, finishReadiness (i_at i 12%nat) k (negb (is_ok r)) (i_env i 12%nat x)).

(** ** The relays of a member never change *)

Definition relays_of (x : gw) (m : nat) : option (list addr) := (λ w, relays (ob w)) <$> outs x !! m.
Definition same_relays (x x' : gw) : Prop := ∀ m, relays_of x' m = relays_of x m.

Lemma same_relays_trans x y z : same_relays x y → same_relays y z → same_relays x z.
Proof. intros H1 H2 m. by rewrite H2, H1. Qed.

Lemma on_member_relays {A} m (d : A) f x :
  (∀ w, relays (ob (f w).2) = relays (ob w)) → same_relays x (on_member m d f x).2.
Proof.
  intros Hf m'. unfold on_member, relays_of. destruct (outs x !! m) as [w|] eqn:E; [|done].
  specialize (Hf w). destruct (f w) as [r w']. simpl in *. case_key m m'; [|done]. rewrite E. simpl. by rewrite Hf.
Qed.

Lemma admits_relays a now w : relays (ob (admitsLeaseLocked a now w).2) = relays (ob w).
Proof. by rewrite admitsLeaseLocked_ob. Qed.

Lemma available_relays now w : relays (ob (availableForNewFlows now w).2) = relays (ob w).
Proof.
  unfold availableForNewFlows, admitsLocked. pose proof (admitsLeaseLocked_ob (lease (ob w)) now w) as O.
  destruct (admitsLeaseLocked (lease (ob w)) now w) as [ok w1]. simpl in *. repeat case_goal; simpl; by rewrite ?O.
Qed.

Lemma offer_relays now m x : same_relays x (offer now m x).2.
Proof. unfold offer. case_goal; [done|]. apply on_member_relays, available_relays. Qed.

Lemma first_available_relays now i ms x : same_relays x (first_available now i ms x).2.
Proof.
  revert i x. induction ms as [|m ms IH]; intros i x; simpl; [done|].
  pose proof (offer_relays now m x) as E. destruct (offer now m x) as [[] x']; simpl in *; [done|].
  eapply same_relays_trans; [exact E|apply IH].
Qed.

Lemma outs_relays x x' : outs x' = outs x → same_relays x x'.
Proof. intros E m. unfold relays_of. by rewrite E. Qed.

Lemma Selected_relays now x : same_relays x (Selected now x).2.
Proof.
  unfold Selected. set (x1 := x <| grp ::= _ |>).
  assert (E : same_relays x (match selected_member (grp x1) with Some m => offer now m x1 | None => (false, x1) end).2).
  { case_goal; [apply (offer_relays now n x1)|by apply outs_relays]. }
  destruct (match selected_member (grp x1) with Some m => _ | None => _ end) as [keep x2]. simpl in E.
  eapply same_relays_trans; [exact E|]. destruct keep; [apply outs_relays, guard_selected|].
  pose proof (first_available_relays now 0 (members (grp x2)) x2) as E3.
  destruct (first_available now 0 (members (grp x2)) x2) as [[[i m]|] x3]; cbn [snd] in E3 |- *;
    (eapply same_relays_trans; [exact E3|]); apply outs_relays;
    match goal with |- outs (selected_guard ?n ?y) = _ => exact (proj2 (guard_selected n y)) end.
Qed.

Lemma close_outs now x : outs (closeReadinessLocked now x) = outs x.
Proof. unfold closeReadinessLocked. by case_goal. Qed.

Lemma binding_relays e p x : same_relays x (readinessBindingCurrentLocked e p x).2.
Proof.
  unfold readinessBindingCurrentLocked. destruct (p_member p) as [m|]; [|done].
  destruct (p_transport p) as [t|]; [|done]. case_goal; [done|].
  match goal with |- context [on_member m false ?f x] =>
    pose proof (on_member_relays m false f x) as E; destruct (on_member m false f x) as [ok y] end.
  assert (E' : same_relays x y).
  { apply E. intros w. case_goal; [|done]. apply admits_relays. }
  repeat case_goal; exact E'.
Qed.

Lemma current_relays e p x : same_relays x (readinessCurrentLocked e p x).2.
Proof. unfold readinessCurrentLocked. case_goal; [done|]. apply binding_relays. Qed.

Lemma retain_relays e k x : same_relays x (retainResolverDeadlineLocked e k x).
Proof.
  unfold retainResolverDeadlineLocked. destruct (probes (grp x) !! k) as [p|]; [|done].
  destruct (_ && _); [|done].
  pose proof (binding_relays e p x) as E. destruct (readinessBindingCurrentLocked e p x) as [[] y]; exact E.
Qed.

Lemma scope_relays e m d sel x : same_relays x (probeScope e m d sel x).2.
Proof.
  unfold probeScope. pose proof (on_member_relays m false (AdmitsNewFlows (e_now e)) x) as E.
  destruct (on_member m false _ x) as [ok y]. cbn [snd] in E.
  eapply same_relays_trans; [apply E; intros; apply admits_relays|].
  destruct ok; [|done]. cbn [negb]. cbv iota.
  assert (S1 : same_relays y (if sel then Selected (e_now e) y else (Some m, y)).2) by (destruct sel; [apply Selected_relays|done]).
  destruct (if sel then _ else _) as [s1 z]. eapply same_relays_trans; [exact S1|].
  case_goal; [done|]. case_goal; [|done].
  assert (S2 : same_relays z (if sel then Selected (e_now e) z else (Some m, z)).2) by (destruct sel; [apply Selected_relays|done]).
  destruct (if sel then _ else _) as [s2 z']. exact S2.
Qed.

Lemma step_relays w w' : step w w' → relays (ob w') = relays (ob w).
Proof.
  destruct 1; try done.
  - unfold admit_flow, admitsLocked. set (y := w <| ob ::= _ |>).
    pose proof (admitsLeaseLocked_ob (lease (ob y)) now y) as G.
    destruct (admitsLeaseLocked (lease (ob y)) now y) as [ok w2]. simpl in G. repeat case_goal; simpl; by rewrite G.
  - apply admits_relays.
  - unfold recordProbeFailure. case_goal; [|done]. pose proof (admitsLeaseLocked_ob a now w) as G.
    destruct (admitsLeaseLocked a now w) as [[] w2]; simpl in *; by rewrite G.
  - destruct (renew_cases n1 n2 n3 expected nextID iss nu au retain w)
      as [->|(cur & _ & _ & [[-> _]|(nx & _ & _ & -> & _)])]; done.
  - unfold flow_mark. repeat case_goal; done.
  - unfold RevokeLease_section. repeat case_goal; done.
  - unfold setRemote. repeat case_goal; done.
  - unfold activate. pose proof (admitsLeaseLocked_ob a now w) as G.
    destruct (admitsLeaseLocked a now w) as [[] w2]; simpl in *; by rewrite G.
  - unfold reserveRelay. pose proof (admitsLeaseLocked_ob a now w) as G.
    destruct (admitsLeaseLocked a now w) as [[] w2]; simpl in *; repeat case_goal; simpl; by rewrite G.
  - unfold completeRelay. repeat case_goal; done.
Qed.

Lemma begin_relays e x : same_relays x (beginReadiness e x).2.
Proof.
  unfold beginReadiness. cbn [snd]. destruct (readiness_probe x) as [p|]; [|done]. case_goal; [done|].
  pose proof (current_relays e p x) as E. destruct (readinessCurrentLocked e p x) as [[] y]; [exact E|].
  intros m'. rewrite <- E. unfold relays_of. simpl. by rewrite close_outs.
Qed.

Lemma lookup_relays e k x : same_relays x (beginResolverLookup e k x) ∧ same_relays x (finishResolverLookup e k x).
Proof.
  split; [|unfold finishResolverLookup; by case_goal].
  unfold beginResolverLookup. destruct (probes (grp x) !! k) as [p|]; [|done]. case_goal; [|done].
  pose proof (current_relays e p x) as E. destruct (readinessCurrentLocked e p x) as [[] y]; exact E.
Qed.

Lemma observe_relays e k stage at_ d err x : same_relays x (observeReadiness e k stage at_ d err x).
Proof.
  unfold observeReadiness. case_goal; [done|]. destruct (probes (grp x) !! k) as [p|]; [|done].
  assert (E : same_relays x (if bool_decide (is_Some (e_ctx e)) then (false, x) else readinessCurrentLocked e p x).2)
    by (case_goal; [done|apply current_relays]).
  destruct (if bool_decide (is_Some (e_ctx e)) then _ else _) as [ok y]. eapply same_relays_trans; [exact E|].
  case_goal; [eapply same_relays_trans; [apply (retain_relays e k)|apply outs_relays, close_outs]|].
  case_goal; [done|]. intros m'. unfold relays_of. by rewrite close_outs.
Qed.

Lemma gop_relays x x' : gop x x' → same_relays x x'.
Proof.
  destruct 1; auto using Selected_relays, begin_relays, observe_relays, scope_relays; try (by apply lookup_relays).
  - unfold DNSFailed. set (x1 := if bool_decide _ then _ else _).
    assert (E : outs x1 = outs x) by (unfold x1; case_goal; [apply close_outs|done]).
    eapply same_relays_trans; [by apply outs_relays|].
    apply (on_member_relays m tt (mark_dns now) x1). intros w. unfold mark_dns, admitsLocked.
    pose proof (admitsLeaseLocked_ob (lease (ob w)) now w) as G.
    destruct (admitsLeaseLocked (lease (ob w)) now w) as [[] w2]; simpl in *; by rewrite G.
  - unfold bindReadiness. by destruct (negb (is_current k x)).
  - unfold finishReadiness. destruct (negb (is_current k x)); [done|]. destruct (probes (grp x) !! k) as [p|]; [|done].
    destruct (err || _ || _); [eapply same_relays_trans; [apply (retain_relays e k)|apply outs_relays, close_outs]|].
    pose proof (current_relays e p x) as E. destruct (readinessCurrentLocked e p x) as [ok y].
    eapply same_relays_trans; [exact E|]. destruct (_ || _); [|done].
    eapply same_relays_trans; [apply (retain_relays e k)|apply outs_relays, close_outs].
  - unfold ObserveScopedRuleBypass. case_goal; [apply outs_relays, close_outs|done].
  - done.
  - unfold unbindWindow. case_goal; [|done]. apply outs_relays. simpl. case_goal; [apply close_outs|done].
  - unfold ReadServiceLeaseSelection. set (x1 := match readiness (grp x) with Some k => _ | None => x end).
    assert (S1 : same_relays x x1).
    { unfold x1. destruct (readiness (grp x)) as [k|]; [|done]. destruct (readiness_probe x) as [p|]; [|done].
      case_goal; [done|]. pose proof (current_relays e p x) as E.
      destruct (readinessCurrentLocked e p x) as [[] y]; [exact E|]. eapply same_relays_trans; [exact E|].
      eapply same_relays_trans; [apply (retain_relays e k)|apply outs_relays, close_outs]. }
    eapply same_relays_trans; [exact S1|]. destruct (selected_member (grp x1)) as [m|]; [|done].
    pose proof (on_member_relays m false (availableForNewFlows (e_now e)) x1 (available_relays _)) as E.
    destruct (on_member m false _ x1) as [av y]. exact E.
  - intros m'. unfold relays_of. simpl. case_key m m'; [|done]. rewrite H. simpl. by rewrite (step_relays w w').
Qed.

Lemma gops_relays x x' : rtc gop x x' → same_relays x x'.
Proof. induction 1; [done|]. eapply same_relays_trans; [by apply gop_relays|done]. Qed.

Lemma probe_current_relays e mg m lid t d sel x : same_relays x (probe_current e mg m lid t d sel x).2.
Proof.
  unfold probe_current. pose proof (scope_relays e m d sel x) as E.
  destruct (probeScope e m d sel x) as [[active scoped] y]. exact E.
Qed.

Lemma observe_responses_relays e k t rs x : same_relays x (observe_responses e k t rs x).
Proof.
  revert x. induction rs as [|[[[t' at_] d] err] rs IH]; intros x; simpl; [done|].
  eapply same_relays_trans; [|apply IH]. case_goal; [apply observe_relays|done].
Qed.

Lemma clamp_delay_range ms : 1 ≤ clamp_delay ms ≤ 65534.
Proof. unfold clamp_delay. repeat case_goal; lia. Qed.

(** The addresses a successful probe resolved. *)
Definition resolved_to (x : gw) (m : nat) (addresses : list addr) : Prop :=
  addresses ≠ [] ∧ ∃ rs, relays_of x m = Some rs ∧ ∀ a, a ∈ addresses → Is4 a = true ∧ a ∈ rs.

Lemma owned_resolved x m addresses :
  bool_decide (addresses = []) ||
  negb (forallb (λ a, from_option (λ w, owned w a) false (outs x !! m)) addresses) = false →
  resolved_to x m addresses.
Proof.
  intros H. bsplit. split; [done|]. rewrite forallb_forall in *. unfold relays_of.
  destruct addresses as [|a0 rest]; [done|].
  destruct (outs x !! m) as [w|] eqn:E; simpl in *.
  - exists (relays (ob w)). split; [done|]. intros a Ha%list_elem_of_In.
    match goal with G : ∀ _, _ |- _ => specialize (G a Ha) end. unfold owned in *. by bsplit.
  - match goal with G : ∀ _, _ |- _ => specialize (G a0 (or_introl eq_refl)) end. done.
Qed.

Lemma probe_body_ok i k x d x' :
  (∀ n y, rtc gop y (i_env i n y)) → probe_body i k x = (Ok d, x') →
  1 ≤ d ≤ 65534 ∧ i_tls i = None ∧ i_connectError i = None ∧ i_manager i = true ∧ i_resolver i = true ∧
  ∃ m addresses, i_lookup i = Ok addresses ∧ resolved_to x m addresses.
Proof.
  intros He H. assert (Hr : ∀ n y, same_relays y (i_env i n y)) by (intros; by apply gops_relays).
  unfold probe_body in H. cbv zeta in H. case_hyp H; [done|].
  pose proof (Selected_relays (e_now (i_at i 1%nat)) (i_env i 1%nat x)) as R1.
  destruct (Selected _ (i_env i 1%nat x)) as [[m|] x1]; [|done]. cbn [snd] in R1.
  match type of H with context [probeScope ?e ?mm ?d ?s ?y] =>
    pose proof (scope_relays e mm d s y) as R2; destruct (probeScope e mm d s y) as [[t scoped] x2] end.
  cbn [snd] in R2. destruct (negb scoped || _ || _) eqn:Eg; [done|]. bsplit.
  match type of H with context [bindReadiness ?k ?mm ?l ?t ?g ?y] =>
    assert (R3 : same_relays x2 (bindReadiness k mm l t g y))
      by (eapply same_relays_trans; [apply (Hr 3%nat)|unfold bindReadiness; by destruct (negb _)]);
    set (x3 := bindReadiness k mm l t g y) in * end.
  assert (R13 : same_relays x x3) by (intros mm; rewrite (R3 mm), (R2 mm), (Hr _ _ mm), (R1 mm), (Hr _ _ mm); done).
  clearbody x3. clear R1 R2 R3.
  match type of H with context [probe_current ?e ?mg ?mm ?l ?t ?dd true ?y] =>
    pose proof (probe_current_relays e mg mm l t dd true y) as R4;
    destruct (probe_current e mg mm l t dd true y) as [[] x4] end; [|done]. cbn [snd] in R4.
  match type of H with context [finishResolverLookup ?e ?kk (i_env i ?n (observe_responses ?e2 ?k2 ?t2 ?rs ?y))] =>
    assert (R5 : same_relays x (finishResolverLookup e kk (i_env i n (observe_responses e2 k2 t2 rs y))));
    [|set (x5 := finishResolverLookup e kk (i_env i n (observe_responses e2 k2 t2 rs y))) in *] end.
  { intros mm. rewrite (proj2 (lookup_relays _ _ _) mm), (Hr _ _ mm), (observe_responses_relays _ _ _ _ _ mm),
      (Hr _ _ mm), (proj1 (lookup_relays _ _ _) mm), (Hr _ _ mm), (R4 mm), (Hr _ _ mm). apply R13. }
  clearbody x5. clear R13 R4.
  match type of H with context [probe_current ?e ?mg ?mm ?l ?t ?dd false ?y] =>
    pose proof (probe_current_relays e mg mm l t dd false y) as R6;
    destruct (probe_current e mg mm l t dd false y) as [[] x6] end; [|done]. cbn [snd] in R6.
  destruct (i_lookup i) as [addresses|err]; [|done].
  match type of H with context [probe_current ?e ?mg ?mm ?l ?t ?dd true ?y] =>
    pose proof (probe_current_relays e mg mm l t dd true y) as R7;
    destruct (probe_current e mg mm l t dd true y) as [[] x7] end; [|done]. cbn [snd] in R7.
  assert (R8 : same_relays x x7) by (intros mm; rewrite (R7 mm), (Hr _ _ mm), (R6 mm), (Hr _ _ mm); apply R5).
  clear R5 R6 R7.
  destruct (bool_decide (addresses = []) || _) eqn:Eo; [done|]. apply owned_resolved in Eo.
  match type of H with context [probe_current ?e ?mg ?mm ?l ?t ?dd false ?y] =>
    destruct (probe_current e mg mm l t dd false y) as [[] x9] end; [|case_hyp H; done].
  destruct (i_connectError i); [done|]. destruct (i_tls i); [done|].
  match type of H with context [probe_current ?e ?mg ?mm ?l ?t ?dd true ?y] =>
    destruct (probe_current e mg mm l t dd true y) as [[] x10] end; [|done].
  injection H as <- _. split; [apply clamp_delay_range|]. split_and!; try done.
  exists m, addresses. split; [done|]. destruct Eo as (Hne & rs & Hrs & Ha). split; [done|]. exists rs.
  by rewrite <- (R8 m).
Qed.

Lemma finish_error_closes e k x :
  readiness (grp (finishReadiness e k true x)) = Some k →
  is_Some (probes (grp x) !! k) → fallbackGuardClosed (grp (finishReadiness e k true x)) = true.
Proof.
  unfold finishReadiness, is_current. intros Hr [p Hp]. case_bool_decide as Hc; simpl in *; [|congruence].
  rewrite Hp in *. unfold closeReadinessLocked.
  assert (E : readiness (grp (retainResolverDeadlineLocked e k x)) = Some k).
  { unfold retainResolverDeadlineLocked. rewrite Hp. destruct (_ && _); [|done].
    pose proof (binding_grp e p x) as E. destruct (readinessBindingCurrentLocked e p x) as [[] y]; simpl in *; by rewrite E. }
  by rewrite E.
Qed.

Lemma begin_key e x : (beginReadiness e x).1 = next_key (grp x).
Proof.
  unfold beginReadiness. cbn [fst]. destruct (readiness_probe x) as [p|]; [|done]. case_goal; [done|].
  pose proof (current_grp e p x) as E. destruct (readinessCurrentLocked e p x) as [[] y]; simpl in E.
  - by rewrite E.
  - unfold closeReadinessLocked. destruct (readiness (grp y)); simpl; by rewrite E.
Qed.

Lemma sound_current e mg m lid t d sel x : sound x (probe_current e mg m lid t d sel x).2.
Proof.
  unfold probe_current. pose proof (sound_scope e m d sel x) as E.
  destruct (probeScope e m d sel x) as [[active scoped] y]. exact E.
Qed.

Lemma sound_responses e k t rs x : sound x (observe_responses e k t rs x).
Proof.
  revert x. induction rs as [|[[[t' at_] d] err] rs IH]; intros x; simpl; [apply sound_refl|].
  eapply sound_trans; [|apply IH]. case_goal; [apply sound_observe|apply sound_refl].
Qed.

(** Runs one checkpoint of the body in a goal [sound x (... y ...)]. *)
Ltac checkpoint :=
  match goal with
  | |- context [probe_current ?e ?mg ?mm ?l ?t ?dd ?s ?y] =>
      eapply sound_trans; [apply (sound_current e mg mm l t dd s y)|];
      destruct (probe_current e mg mm l t dd s y) as [[] ?]; cbn [snd]
  end.

Lemma sound_probe_body i k x : (∀ n y, rtc gop y (i_env i n y)) → sound x (probe_body i k x).2.
Proof.
  intros He. assert (Hs : ∀ n y, sound y (i_env i n y)) by (intros; by apply gops_sound).
  unfold probe_body. cbv zeta. case_goal; [apply sound_refl|].
  eapply sound_trans; [apply (Hs 1%nat)|]. eapply sound_trans; [apply (sound_Selected (e_now (i_at i 1%nat)))|].
  destruct (Selected _ (i_env i 1%nat x)) as [[m|] x1]; [|apply sound_refl]. cbn [snd].
  eapply sound_trans; [apply (Hs 2%nat)|].
  match goal with |- context [probeScope ?e ?mm ?d ?s ?y] =>
    eapply sound_trans; [apply (sound_scope e mm d s y)|]; destruct (probeScope e mm d s y) as [[t scoped] x2] end.
  cbn [snd]. eapply sound_trans; [apply (Hs 3%nat)|].
  match goal with |- context [bindReadiness ?k ?mm ?l ?t ?g ?y] =>
    eapply sound_trans; [apply (sound_bind k mm l t g y)|]; set (x3 := bindReadiness k mm l t g y) end.
  clearbody x3. destruct (_ || _ || _); [apply sound_refl|].
  eapply sound_trans; [apply (Hs 4%nat)|]. checkpoint; [|apply sound_refl].
  eapply sound_trans; [apply (Hs 5%nat)|]. eapply sound_trans; [apply (sound_begin_lookup (i_at i 5%nat) k)|].
  eapply sound_trans; [apply (Hs 6%nat)|]. eapply sound_trans; [apply (sound_responses (i_at i 6%nat) k t (i_responses i))|].
  eapply sound_trans; [apply (Hs 7%nat)|]. eapply sound_trans; [apply (sound_finish_lookup (i_at i 7%nat) k)|].
  eapply sound_trans; [apply (Hs 7%nat)|]. checkpoint; [|apply sound_refl].
  destruct (i_lookup i) as [addresses|err]; [|apply sound_observe].
  eapply sound_trans; [apply (Hs 8%nat)|]. checkpoint; [|apply sound_refl].
  destruct (_ || _); [apply sound_observe|].
  eapply sound_trans; [apply sound_observe|]. eapply sound_trans; [apply (Hs 9%nat)|].
  eapply sound_trans; [apply (Hs 10%nat)|]. checkpoint; [|destruct (bool_decide _); apply sound_refl].
  destruct (i_connectError i); [apply sound_observe|]. destruct (i_tls i); [apply sound_observe|].
  eapply sound_trans; [apply (Hs 11%nat)|]. checkpoint; [apply sound_observe|apply sound_refl].
Qed.

(** C37: A readiness probe is honest.  Whatever the other goroutines do between
    its checkpoints, it reports a delay (clamped to 1..65534, below the value
    that marks a failure) only after the resolver answered with addresses that
    are all IPv4 relays of the selected provider, the relay connected and the
    TLS handshake succeeded; and when it reports an error while its receipt is
    still the current one, the fallback guard of the service is closed. *)
Theorem probe_honest i x r x' :
  receipt_ok (grp x) → (∀ n y, rtc gop y (i_env i n y)) → ProbeServiceReadiness i x = (r, x') →
  match r with
  | Ok d =>
      1 ≤ d ≤ 65534 ∧ i_tls i = None ∧ i_connectError i = None ∧
      ∃ m addresses, i_lookup i = Ok addresses ∧ resolved_to x m addresses
  | Err _ => readiness (grp x') = Some (next_key (grp x)) → fallbackGuardClosed (grp x') = true
  end.
Proof.
  intros R He H. unfold ProbeServiceReadiness in H.
  pose proof (begin_relays (i_at i 0%nat) x) as Rb. pose proof (sound_begin (i_at i 0%nat) x R) as [R1 _].
  destruct (beginReadiness (i_at i 0%nat) x) as [k x1] eqn:Eb. cbn [snd] in *.
  destruct (probe_body i k x1) as [r' x2] eqn:Ep. simplify_eq. destruct r as [d|e]; simpl in *.
  - apply probe_body_ok in Ep as (H1 & H2 & H3 & _ & _ & m & addresses & H4 & (Hne & rs & Hrs & Ha)); [|done].
    split_and!; try done; try lia. exists m, addresses. split; [done|]. split; [done|]. exists rs.
    by rewrite <- (Rb m).
  - intros Hr. pose proof (begin_key (i_at i 0%nat) x) as Ek. rewrite Eb in Ek. simpl in Ek. subst k.
    destruct (sound_probe_body i (next_key (grp x)) x1 He R1) as [R2 _]. rewrite Ep in R2. simpl in R2.
    destruct (gops_sound _ _ (He 12%nat x2) R2) as [R3 _].
    apply finish_error_closes; [done|]. apply (rc_current _ R3).
    revert Hr. unfold finishReadiness, is_current. case_bool_decide; simpl; [done|]. done.
Qed.

(** The probe of the example group: the resolver answers with the first relay. *)
Definition ex_probe_input : probe_input := mkProbeInput (λ _, ex_env 3) (λ _ y, y) true true
  [(5%nat, ex_now 3, 2 * Millisecond, None)] (Ok [AV4 0x5db8d822]) (ex_now 2) (ex_now 3) None (ex_now 3)
  (7 * Millisecond) None true None (ex_now 3).

Lemma ex_probe : (ProbeServiceReadiness ex_probe_input ex_route).1 = Ok 1000.
Proof. vm_compute. reflexivity. Qed.

Lemma ex_probe_pass :
  sel_readiness (ReadServiceLeaseSelection (ex_env 4) (ProbeServiceReadiness ex_probe_input ex_route).2).1 ≫=
    (λ p, Some (Status p)) = Some SPass.
Proof. vm_compute. reflexivity. Qed.

Lemma probe_honest_witness : 1 ≤ 1000 ≤ 65534 ∧ ∃ m, resolved_to ex_route m [AV4 0x5db8d822].
Proof.
  pose proof (probe_honest ex_probe_input ex_route (ProbeServiceReadiness ex_probe_input ex_route).1
    (ProbeServiceReadiness ex_probe_input ex_route).2
    (proj1 (gops_sound ex_start ex_route
      (rtc_l _ _ _ _ (op_window ex_start 1 true (Some 5%nat)) (rtc_once _ _ (op_window ex_dns 1 false None)))
      (fresh_receipt _ _)))
    ltac:(intros; apply rtc_refl)
    ltac:(destruct (ProbeServiceReadiness ex_probe_input ex_route); reflexivity)) as H.
  rewrite ex_probe in H. destruct H as (H1 & _ & _ & m & addresses & Ha & H2). split; [exact H1|].
  exists m. injection Ha as Ea. rewrite Ea. exact H2.
Defined.
