(* ===== verification/RuleMatch.v ===== *)
(** * Rule matching

    Models the matching of route and DNS rules in
    [engine/sing-box/route/rule/rule_abstract.go], [match_state.go] and
    [rule_item_rule_set.go]: the bit sets of required and satisfied condition
    groups, the metadata the nested matches overwrite and restore, and the
    merging of a single-rule rule set with the rule that refers to it.  The
    catalog window of a rule is in [CatalogWindow]. *)

From stdpp Require Import base list.
From Stdlib Require Import ZArith Lia.
From S2P Require Import Prelude.

Local Open Scope Z_scope.

(** ** Metadata

    The fields of [adapter.InboundContext] the matching itself reads or writes.
    A condition reads the two flags of the enclosing rule set; everything else
    it looks at does not change during a match, so an item is a function of the
    flags. *)
Record metadata := mkMetadata {
  IPCIDRMatchSource : bool;
  IPCIDRAcceptEmpty : bool;
  IgnoreDestinationIPCIDRMatch : bool;
  DeferredIPCIDRMatchGroups : Z
}.

#[export] Instance eta_metadata : Eta metadata := λ m,
  mkMetadata (IPCIDRMatchSource m) (IPCIDRAcceptEmpty m) (IgnoreDestinationIPCIDRMatch m) (DeferredIPCIDRMatchGroups m).

Definition ResetRuleMatchCache (m : metadata) : metadata := m <| DeferredIPCIDRMatchGroups := 0 |>.
Definition ResetRuleCache (m : metadata) : metadata :=
  ResetRuleMatchCache (m <| IPCIDRMatchSource := false |> <| IPCIDRAcceptEmpty := false |>).

(** [snapshotRuleMatch] and [restore]: the snapshot is the metadata itself. *)
Definition restore (snapshot m : metadata) : metadata :=
  m <| IPCIDRMatchSource := IPCIDRMatchSource snapshot |> <| IPCIDRAcceptEmpty := IPCIDRAcceptEmpty snapshot |>
    <| DeferredIPCIDRMatchGroups := DeferredIPCIDRMatchGroups snapshot |>.

(** ** Rules *)

Definition item : Type := bool → bool → bool.
Definition item_match (m : metadata) (i : item) : bool := i (IPCIDRMatchSource m) (IPCIDRAcceptEmpty m).

Record conditions := mkConditions {
  items : list item;
  sourceAddressItems : list item;
  sourcePortItems : list item;
  destinationAddressItems : list item;
  destinationIPCIDRItems : list item;
  destinationPortItems : list item
}.

(** A default rule with its conditions, its rule-set item (the two flags and the
    rules of each set) and inversion, or a logical rule. *)
Inductive rule :=
| DefaultRule (c : conditions) (sets : option (bool * bool * list (list rule))) (invert : bool)
| LogicalRule (conjunction : bool) (rules : list rule) (invert : bool).

(** ** Groups *)

Definition ruleMatchSourceAddress : Z := 1.
Definition ruleMatchSourcePort : Z := 2.
Definition ruleMatchDestinationAddress : Z := 4.
Definition ruleMatchDestinationPort : Z := 8.

Record ruleGroupMatch := mkGroups { required : Z; satisfied : Z }.

(** Go's [&^] *)
Definition and_not (a b : Z) : Z := Z.ldiff a b.

Definition done (g : ruleGroupMatch) : bool := and_not (required g) (satisfied g) =? 0.
Definition mergeWith (g other : ruleGroupMatch) : ruleGroupMatch :=
  mkGroups (Z.lor (required g) (required other)) (Z.lor (satisfied g) (satisfied other)).
Definition has (s target : Z) : bool := negb (Z.land s target =? 0).

Definition matchAnyItem (m : metadata) (l : list item) : bool := existsb (item_match m) l.
Definition nonempty {A} (l : list A) : bool := match l with [] => false | _ => true end.

(** One block of [evaluateGroups]: with the block's guard, the bit is required,
    and satisfied if it already is or an item matches. *)
Definition require (guard : bool) (bit : Z) (m : metadata) (l : list item) (g : ruleGroupMatch) : ruleGroupMatch :=
  if guard then
    mkGroups (Z.lor (required g) bit)
      (if negb (has (satisfied g) bit) && matchAnyItem m l then Z.lor (satisfied g) bit else satisfied g)
  else g.

Definition destinationIPCIDRMatchesSource (c : conditions) (m : metadata) : bool :=
  IPCIDRMatchSource m && nonempty (destinationIPCIDRItems c).
Definition destinationIPCIDRMatchesDestination (c : conditions) (m : metadata) : bool :=
  negb (IgnoreDestinationIPCIDRMatch m) && negb (IPCIDRMatchSource m) && nonempty (destinationIPCIDRItems c).

Definition evaluateGroups (c : conditions) (m : metadata) : ruleGroupMatch * metadata :=
  let g := mkGroups 0 0 in
  let g := require (nonempty (sourceAddressItems c)) ruleMatchSourceAddress m (sourceAddressItems c) g in
  let g := require (destinationIPCIDRMatchesSource c m) ruleMatchSourceAddress m (destinationIPCIDRItems c) g in
  let g := require (nonempty (sourcePortItems c)) ruleMatchSourcePort m (sourcePortItems c) g in
  let g := require (nonempty (destinationAddressItems c)) ruleMatchDestinationAddress m (destinationAddressItems c) g in
  let g := require (destinationIPCIDRMatchesDestination c m) ruleMatchDestinationAddress m (destinationIPCIDRItems c) g in
  let g := require (nonempty (destinationPortItems c)) ruleMatchDestinationPort m (destinationPortItems c) g in
  (g, if IgnoreDestinationIPCIDRMatch m && negb (IPCIDRMatchSource m) && nonempty (destinationIPCIDRItems c) &&
         negb (nonempty (destinationAddressItems c))
      then m <| DeferredIPCIDRMatchGroups ::= λ d, Z.lor d ruleMatchDestinationAddress |> else m).

Definition evaluateForMerge (c : conditions) (m : metadata) : option ruleGroupMatch * metadata :=
  let '(g, m) := evaluateGroups c m in
  if forallb (item_match m) (items c) then (Some g, m) else (None, m).

(** The single rule of a set that can be merged with the outer rule. *)
Definition mergeableRuleIn (rules : list rule) : option conditions :=
  match rules with
  | [DefaultRule c None false] => Some c
  | _ => None
  end.

Definition prepareNestedMatch (matchSource acceptEmpty : bool) (m : metadata) : metadata :=
  ResetRuleMatchCache m <| IPCIDRMatchSource := matchSource |> <| IPCIDRAcceptEmpty := acceptEmpty |>.

(** ** Matching *)

Definition no_conditions (c : conditions) (sets : option (bool * bool * list (list rule))) : bool :=
  negb (nonempty (items c) || nonempty (sourceAddressItems c) || nonempty (sourcePortItems c) ||
        nonempty (destinationAddressItems c) || nonempty (destinationIPCIDRItems c) ||
        nonempty (destinationPortItems c) || match sets with Some _ => true | None => false end).

(** The inversion at the end of [abstractDefaultRule.Match]. *)
Definition invert_result (invert matched : bool) (m : metadata) : bool * metadata :=
  if invert then
    if negb matched then (true, m <| DeferredIPCIDRMatchGroups := 0 |>)
    else (negb (DeferredIPCIDRMatchGroups m =? 0), m)
  else (matched, m).

Section Loops.
(** The nested match. *)
Variable Match : rule → metadata → bool * metadata.

(** [matchAnyHeadlessRule]: the loop over the rules of a set; a match without
    deferred groups ends it. *)
Fixpoint any_loop (snapshot : metadata) (rules : list rule) (matched : bool) (deferred : Z) (m : metadata)
    : bool * metadata :=
  match rules with
  | [] =>
      let m := restore snapshot m in
      (matched, if matched then m <| DeferredIPCIDRMatchGroups ::= λ d, Z.lor d deferred |> else m)
  | r :: rules =>
      let '(ok, m) := Match r (ResetRuleMatchCache m) in
      if ok then
        if DeferredIPCIDRMatchGroups m =? 0 then (true, restore snapshot m)
        else any_loop snapshot rules true (Z.lor deferred (DeferredIPCIDRMatchGroups m)) m
      else any_loop snapshot rules matched deferred m
  end.

(** [matchWithOuterGroups]: the loop over the sets. *)
Fixpoint sets_loop (matchSource acceptEmpty : bool) (outer : ruleGroupMatch) (snapshot : metadata)
    (sets : list (list rule)) (matched : bool) (deferred : Z) (m : metadata) : bool * metadata :=
  match sets with
  | [] =>
      let m := restore snapshot m in
      (matched, if matched then m <| DeferredIPCIDRMatchGroups ::= λ d, Z.lor d deferred |> else m)
  | rules :: sets =>
      let m := prepareNestedMatch matchSource acceptEmpty m in
      match mergeableRuleIn rules with
      | Some branch =>
          let '(g, m) := evaluateForMerge branch m in
          match g with
          | Some groups =>
              let merged := mergeWith outer groups in
              if done merged then
                let branchDeferred := and_not (DeferredIPCIDRMatchGroups m) (satisfied merged) in
                if branchDeferred =? 0 then
                  (true, restore snapshot m <| DeferredIPCIDRMatchGroups ::= λ d, and_not d (satisfied merged) |>)
                else sets_loop matchSource acceptEmpty outer snapshot sets true (Z.lor deferred branchDeferred) m
              else sets_loop matchSource acceptEmpty outer snapshot sets matched deferred m
          | None => sets_loop matchSource acceptEmpty outer snapshot sets matched deferred m
          end
      | None =>
          if done outer then
            let '(ok, m) := any_loop m rules false 0 m in
            if ok then
              if DeferredIPCIDRMatchGroups m =? 0 then (true, restore snapshot m)
              else sets_loop matchSource acceptEmpty outer snapshot sets true (Z.lor deferred (DeferredIPCIDRMatchGroups m)) m
            else sets_loop matchSource acceptEmpty outer snapshot sets matched deferred m
          else sets_loop matchSource acceptEmpty outer snapshot sets matched deferred m
      end
  end.

Definition matchInner (c : conditions) (sets : option (bool * bool * list (list rule))) (m : metadata)
    : bool * metadata :=
  let '(groups, m) := evaluateGroups c m in
  if negb (forallb (item_match m) (items c)) then (false, m)
  else
    let '(matched, m) :=
      match sets with
      | Some (matchSource, acceptEmpty, l) => sets_loop matchSource acceptEmpty groups m l false 0 m
      | None => (done groups, m)
      end in
    (matched, if matched then m <| DeferredIPCIDRMatchGroups ::= λ d, and_not d (satisfied groups) |> else m).

(** The loops of [abstractLogicalRule.Match]; the result carries the deferred
    groups found. *)
Fixpoint and_loop (rules : list rule) (deferred : Z) (m : metadata) : bool * Z * metadata :=
  match rules with
  | [] => (true, deferred, m)
  | r :: rules =>
      let '(ok, m) := Match r (ResetRuleCache m) in
      if ok then and_loop rules (Z.lor deferred (DeferredIPCIDRMatchGroups m)) m else (false, 0, m)
  end.
Fixpoint or_loop (rules : list rule) (matched : bool) (deferred : Z) (m : metadata) : bool * Z * metadata :=
  match rules with
  | [] => (matched, deferred, m)
  | r :: rules =>
      let '(ok, m) := Match r (ResetRuleCache m) in
      if ok then
        if DeferredIPCIDRMatchGroups m =? 0 then (true, 0, m)
        else or_loop rules true (Z.lor deferred (DeferredIPCIDRMatchGroups m)) m
      else or_loop rules matched deferred m
  end.
End Loops.

Fixpoint Match (r : rule) (m : metadata) : bool * metadata :=
  match r with
  | DefaultRule c sets invert =>
      if no_conditions c sets then (true, m)
      else let '(matched, m) := matchInner Match c sets m in invert_result invert matched m
  | LogicalRule conjunction rules invert =>
      let '(matched, deferred, m') := if conjunction then and_loop Match rules 0 m else or_loop Match rules false 0 m in
      let m' := restore m m' in
      let m' := if matched then m' <| DeferredIPCIDRMatchGroups ::= λ d, Z.lor d deferred |> else m' in
      (if invert then (if negb matched then true else negb (deferred =? 0)) else matched, m')
  end.

(** ** Reference semantics

    Without deferral a rule is a Boolean formula: every plain condition holds,
    and each of the four groups has no condition or one that matches.  A rule
    set with a single plain rule shares its groups with the outer rule; any
    other set needs a matching rule of its own. *)
Definition source_items (matchSource : bool) (c : conditions) : list item :=
  sourceAddressItems c ++ if matchSource then destinationIPCIDRItems c else [].
Definition destination_items (matchSource : bool) (c : conditions) : list item :=
  destinationAddressItems c ++ if matchSource then [] else destinationIPCIDRItems c.

Definition holds (matchSource acceptEmpty : bool) (i : item) : bool := i matchSource acceptEmpty.

(** For each group, whether it has a condition and whether one matches. *)
Definition group_state : Type := bool * bool.
Definition state_of (matchSource acceptEmpty : bool) (l : list item) : group_state :=
  (nonempty l, existsb (holds matchSource acceptEmpty) l).
Definition groups_of (matchSource acceptEmpty : bool) (c : conditions) : list group_state :=
  state_of matchSource acceptEmpty <$>
    [source_items matchSource c; sourcePortItems c; destination_items matchSource c; destinationPortItems c].
Definition groups_done (gs : list group_state) : bool := forallb (λ g, implb g.1 g.2) gs.
Definition groups_merge (gs hs : list group_state) : list group_state :=
  zip_with (λ g h, (g.1 || h.1, g.2 || h.2)) gs hs.

Fixpoint spec (r : rule) (matchSource acceptEmpty : bool) : bool :=
  match r with
  | DefaultRule c sets invert =>
      if no_conditions c sets then true
      else
        xorb invert
          (forallb (holds matchSource acceptEmpty) (items c) &&
           match sets with
           | None => groups_done (groups_of matchSource acceptEmpty c)
           | Some (ms, ae, l) =>
               existsb (λ rules,
                 match mergeableRuleIn rules with
                 | Some branch =>
                     forallb (holds ms ae) (items branch) &&
                     groups_done (groups_merge (groups_of matchSource acceptEmpty c) (groups_of ms ae branch))
                 | None =>
                     groups_done (groups_of matchSource acceptEmpty c) && existsb (λ r, spec r ms ae) rules
                 end) l
           end)
  | LogicalRule conjunction rules invert =>
      xorb invert (if conjunction then forallb (λ r, spec r false false) rules else existsb (λ r, spec r false false) rules)
  end.

(** ** Bit sets *)

Definition mask (b : bool) (bit : Z) : Z := if b then bit else 0.
Definition mask4 (b1 b2 b3 b4 : bool) : Z :=
  Z.lor (Z.lor (Z.lor (mask b1 ruleMatchSourceAddress) (mask b2 ruleMatchSourcePort))
    (mask b3 ruleMatchDestinationAddress)) (mask b4 ruleMatchDestinationPort).

(** The bit set of four group states. *)
Definition encode (gs : list group_state) : ruleGroupMatch :=
  match gs with
  | [(r1, s1); (r2, s2); (r3, s3); (r4, s4)] => mkGroups (mask4 r1 r2 r3 r4) (mask4 s1 s2 s3 s4)
  | _ => mkGroups 0 0
  end.

Lemma mask4_or a b c d a' b' c' d' :
  Z.lor (mask4 a b c d) (mask4 a' b' c' d') = mask4 (a || a') (b || b') (c || c') (d || d').
Proof. destruct a, b, c, d, a', b', c', d'; reflexivity. Qed.

Lemma mask4_done a b c d a' b' c' d' :
  (and_not (mask4 a b c d) (mask4 a' b' c' d') =? 0) = implb a a' && (implb b b' && (implb c c' && (implb d d' && true))).
Proof. destruct a, b, c, d, a', b', c', d'; reflexivity. Qed.

Lemma groups_four ms ae c : ∃ g1 g2 g3 g4, groups_of ms ae c = [g1; g2; g3; g4].
Proof. unfold groups_of. simpl. eauto. Qed.

Lemma encode_done ms ae c : done (encode (groups_of ms ae c)) = groups_done (groups_of ms ae c).
Proof.
  destruct (groups_four ms ae c) as ([r1 s1] & [r2 s2] & [r3 s3] & [r4 s4] & ->). apply mask4_done.
Qed.

Lemma encode_merge ms ae c ms' ae' c' :
  done (mergeWith (encode (groups_of ms ae c)) (encode (groups_of ms' ae' c'))) =
  groups_done (groups_merge (groups_of ms ae c) (groups_of ms' ae' c')).
Proof.
  destruct (groups_four ms ae c) as ([r1 s1] & [r2 s2] & [r3 s3] & [r4 s4] & ->).
  destruct (groups_four ms' ae' c') as ([q1 t1] & [q2 t2] & [q3 t3] & [q4 t4] & ->).
  unfold mergeWith, done. simpl. rewrite !mask4_or. apply mask4_done.
Qed.

(** A group's block adds its state to the bit set. *)
Lemma require_state guard bit m l r s :
  guard = nonempty l → Z.land s bit = 0 → bit ≠ 0 →
  require guard bit m l (mkGroups r s) =
  mkGroups (Z.lor r (mask (nonempty l) bit)) (Z.lor s (mask (matchAnyItem m l) bit)).
Proof.
  intros -> Hs Hb. unfold require, has. simpl. rewrite Hs. simpl.
  destruct l as [|i l]; simpl; [by rewrite !Z.lor_0_r|].
  destruct (_ || _); simpl; [done|by rewrite Z.lor_0_r].
Qed.

(** Two blocks for the same bit are one block for both lists. *)
Lemma require_app g1 g2 bit m l k G :
  g1 = nonempty l → g2 = nonempty k → bit ≠ 0 → Z.land (satisfied G) bit = 0 →
  require g2 bit m k (require g1 bit m l G) = require (nonempty (l ++ k)) bit m (l ++ k) G.
Proof.
  intros -> -> Hb HG. destruct G as [r s]. simpl in HG.
  assert (Hor : Z.land (Z.lor s bit) bit = bit).
  { rewrite Z.land_lor_distr_l, HG, Z.land_diag. by rewrite Z.lor_0_l. }
  assert (Hz : (bit =? 0) = false) by lia.
  unfold require, has, matchAnyItem. destruct l as [|i l]; [done|]. rewrite existsb_app. simpl.
  destruct k as [|j k]; simpl; rewrite HG; simpl.
  { by rewrite orb_false_r. }
  rewrite <- Z.lor_assoc, Z.lor_diag.
  destruct (item_match m i || existsb (item_match m) l); simpl.
  - by rewrite Hor, Hz.
  - by rewrite HG.
Qed.

Lemma evaluate_encode c m :
  IgnoreDestinationIPCIDRMatch m = false →
  evaluateGroups c m = (encode (groups_of (IPCIDRMatchSource m) (IPCIDRAcceptEmpty m) c), m).
Proof.
  intros Hi. unfold evaluateGroups. rewrite Hi. cbn [andb]. f_equal.
  set (k1 := if IPCIDRMatchSource m then destinationIPCIDRItems c else []).
  set (k2 := if IPCIDRMatchSource m then [] else destinationIPCIDRItems c).
  assert (E1 : ∀ G, require (destinationIPCIDRMatchesSource c m) ruleMatchSourceAddress m (destinationIPCIDRItems c) G =
    require (nonempty k1) ruleMatchSourceAddress m k1 G).
  { intros G. unfold destinationIPCIDRMatchesSource, k1. by destruct (IPCIDRMatchSource m). }
  assert (E2 : ∀ G, require (destinationIPCIDRMatchesDestination c m) ruleMatchDestinationAddress m (destinationIPCIDRItems c) G =
    require (nonempty k2) ruleMatchDestinationAddress m k2 G).
  { intros G. unfold destinationIPCIDRMatchesDestination, k2. rewrite Hi. by destruct (IPCIDRMatchSource m). }
  assert (Hp : ∀ a, Z.land (Z.lor 0 (mask a ruleMatchSourceAddress)) ruleMatchSourcePort = 0) by (intros []; reflexivity).
  assert (Hd : ∀ a b, Z.land (Z.lor (Z.lor 0 (mask a ruleMatchSourceAddress)) (mask b ruleMatchSourcePort))
    ruleMatchDestinationAddress = 0) by (intros [] []; reflexivity).
  assert (He : ∀ a b d, Z.land (Z.lor (Z.lor (Z.lor 0 (mask a ruleMatchSourceAddress)) (mask b ruleMatchSourcePort))
    (mask d ruleMatchDestinationAddress)) ruleMatchDestinationPort = 0) by (intros [] [] []; reflexivity).
  rewrite E1, E2. rewrite (require_app _ _ ruleMatchSourceAddress) by (first [reflexivity|discriminate]).
  rewrite (require_state _ ruleMatchSourceAddress) by (first [reflexivity|discriminate]).
  rewrite (require_state _ ruleMatchSourcePort) by (first [reflexivity|discriminate|apply Hp]).
  rewrite (require_app _ _ ruleMatchDestinationAddress) by (first [reflexivity|discriminate|apply Hd]).
  rewrite (require_state _ ruleMatchDestinationAddress) by (first [reflexivity|discriminate|apply Hd]).
  rewrite (require_state _ ruleMatchDestinationPort) by (first [reflexivity|discriminate|apply He]).
  reflexivity.
Qed.

(** ** Nested rules *)

Lemma rule_nested (P : rule → Prop) :
  (∀ c sets invert, (∀ ms ae l, sets = Some (ms, ae, l) → Forall (Forall P) l) → P (DefaultRule c sets invert)) →
  (∀ conjunction rules invert, Forall P rules → P (LogicalRule conjunction rules invert)) →
  ∀ r, P r.
Proof.
  intros HD HL. fix IH 1. intros [c sets invert|conjunction rules invert].
  - apply HD. intros ms ae l E. destruct sets as [[[ms' ae'] l']|]; [|discriminate E]. injection E as _ _ <-.
    induction l' as [|rules l' IHl]; constructor; [|exact IHl].
    induction rules as [|r rules IHr]; constructor; [apply IH|exact IHr].
  - apply HL. induction rules as [|r rules IHr]; constructor; [apply IH|exact IHr].
Qed.

(** The metadata of a match without deferral. *)
Definition plain (ms ae : bool) : metadata := mkMetadata ms ae false 0.

Definition matches (r : rule) : Prop := ∀ ms ae, Match r (plain ms ae) = (spec r ms ae, plain ms ae).

Lemma any_loop_spec ms ae rules :
  Forall matches rules →
  any_loop Match (plain ms ae) rules false 0 (plain ms ae) = (existsb (λ r, spec r ms ae) rules, plain ms ae).
Proof.
  induction 1 as [|r rules Hr _ IH]; [done|]. cbn [any_loop existsb].
  change (ResetRuleMatchCache (plain ms ae)) with (plain ms ae). rewrite (Hr ms ae). by destruct (spec r ms ae).
Qed.

Lemma sets_loop_spec ms ae ms' ae' c (l : list (list rule)) fs fe :
  Forall (Forall matches) l →
  sets_loop Match ms' ae' (encode (groups_of ms ae c)) (plain ms ae) l false 0 (plain fs fe) =
  (existsb (λ rules,
     match mergeableRuleIn rules with
     | Some branch =>
         forallb (holds ms' ae') (items branch) &&
         groups_done (groups_merge (groups_of ms ae c) (groups_of ms' ae' branch))
     | None => groups_done (groups_of ms ae c) && existsb (λ r, spec r ms' ae') rules
     end) l, plain ms ae).
Proof.
  intros H. revert fs fe. induction H as [|rules l Hr _ IH]; intros fs fe; [done|]. cbn [sets_loop existsb].
  change (prepareNestedMatch ms' ae' (plain fs fe)) with (plain ms' ae').
  destruct (mergeableRuleIn rules) as [b|].
  - unfold evaluateForMerge. rewrite evaluate_encode by done.
    change (item_match (plain ms' ae')) with (holds ms' ae'). cbn [IPCIDRMatchSource IPCIDRAcceptEmpty plain].
    destruct (forallb (holds ms' ae') (items b)); [|apply IH]. rewrite encode_merge.
    destruct (groups_done (groups_merge _ _)); [|apply IH]. reflexivity.
  - rewrite encode_done. destruct (groups_done (groups_of ms ae c)); [|apply IH].
    rewrite any_loop_spec by done. destruct (existsb _ rules); [done|apply IH].
Qed.

Lemma and_loop_spec rules fs fe :
  Forall matches rules →
  ∃ gs ge, and_loop Match rules 0 (plain fs fe) = (forallb (λ r, spec r false false) rules, 0, plain gs ge).
Proof.
  intros H. revert fs fe. induction H as [|r rules Hr _ IH]; intros fs fe; [by exists fs, fe|]. cbn [and_loop forallb].
  change (ResetRuleCache (plain fs fe)) with (plain false false). rewrite (Hr false false).
  destruct (spec r false false); [apply IH|by exists false, false].
Qed.

Lemma or_loop_spec rules fs fe :
  Forall matches rules →
  ∃ gs ge, or_loop Match rules false 0 (plain fs fe) = (existsb (λ r, spec r false false) rules, 0, plain gs ge).
Proof.
  intros H. revert fs fe. induction H as [|r rules Hr _ IH]; intros fs fe; [by exists fs, fe|]. cbn [or_loop existsb].
  change (ResetRuleCache (plain fs fe)) with (plain false false). rewrite (Hr false false).
  destruct (spec r false false); [by exists false, false|apply IH].
Qed.

Lemma match_spec r : matches r.
Proof.
  induction r as [c sets invert IH|conjunction rules invert IH] using rule_nested; intros ms ae; cbn [Match spec].
  - destruct (no_conditions c sets); [done|]. unfold matchInner. rewrite evaluate_encode by done.
    change (item_match (plain ms ae)) with (holds ms ae). cbn [IPCIDRMatchSource IPCIDRAcceptEmpty plain].
    destruct (forallb (holds ms ae) (items c)); [|by destruct invert].
    destruct sets as [[[ms' ae'] l]|].
    + rewrite (sets_loop_spec ms ae) by (by eapply IH). destruct (existsb _ l); by destruct invert.
    + rewrite encode_done. destruct (groups_done _); by destruct invert.
  - destruct conjunction.
    + destruct (and_loop_spec rules ms ae IH) as (gs & ge & ->). destruct (forallb _ rules); by destruct invert.
    + destruct (or_loop_spec rules ms ae IH) as (gs & ge & ->). destruct (existsb _ rules); by destruct invert.
Qed.


(** A route rule for a rule set with a destination port of its own. *)
Definition ex_none : conditions := mkConditions [] [] [] [] [] [].
Definition ex_outer : conditions := mkConditions [] [] [] [] [] [λ _ _, true].
Definition ex_inner : conditions := mkConditions [] [] [] [λ _ _, false] [λ ms _, negb ms] [].
Definition ex_rule : rule :=
  LogicalRule true
    [DefaultRule ex_outer (Some (false, false, [[DefaultRule ex_inner None false]])) false;
     DefaultRule (mkConditions [λ _ _, false] [] [] [] [] []) None true] false.


(** With the destination addresses ignored, a rule that has only them matches
    provisionally: the group is reported as deferred. *)
Lemma deferred_example :
  Match (DefaultRule (mkConditions [] [] [] [] [λ _ _, false] []) None false) (mkMetadata false false true 0) =
  (true, mkMetadata false false true ruleMatchDestinationAddress).
Proof. reflexivity. Qed.
