(* ===== verification/CatalogWindow.v ===== *)
(** * Catalog windows of route and DNS rules

    Models [engine/sing-box/route/rule/pokrov_catalog_window.go] and the parts
    of [rule_abstract.go] that use it: the lifetime a signed routing catalog
    gives the rules compiled from it, its binding to a Smart Access lease
    ([SaOutbound]) and to a service group ([SaServiceGroup]), and the matching
    of such a rule ([RuleMatch] without the window).

    A method reads the shared objects one lock at a time, so other goroutines
    may run between its reads: [Match] takes their interference as an input. *)

From stdpp Require Import base list strings gmap relations.
From Stdlib Require Import ZArith Lia Ascii.
From S2P Require Import Prelude GoTime GoBytes UrlTestHistory SaClientHello SaOutbound SaServiceGroup RuleMatch.

Local Open Scope Z_scope.

(** ** Windows *)

Record PokrovCatalogWindow := mkCatalogOptions {
  co_IssuedAt : string; co_ExpiresAt : string; co_ServiceID : string; co_LeaseID : string; co_LeaseGroup : list string }.

(** [catalogRuleWindow].  Leases and groups are keys of the shared state;
    [probeCurrent] says whether the callback is set, and [probeUnbind] is the
    binding the returned function removes. *)
Record catalogRuleWindow := mkWindow {
  issuedAt : time;
  expiresAt : time;
  deadline : time;
  expired : bool;
  w_leaseID : string;
  w_serviceID : string;
  w_lease : option nat;
  leaseGroupIDs : list string;
  leaseGroup : option nat;
  probeCurrent : bool;
  probeDNS : bool;
  probeServer : string;
  probeUnbind : option (nat * nat)
}.

#[export] Instance eta_catalogRuleWindow : Eta catalogRuleWindow := λ w,
  mkWindow (issuedAt w) (expiresAt w) (deadline w) (expired w) (w_leaseID w) (w_serviceID w) (w_lease w) (leaseGroupIDs w)
    (leaseGroup w) (probeCurrent w) (probeDNS w) (probeServer w) (probeUnbind w).

(** [^[a-z0-9][a-z0-9._-]{0,63}$] *)
Definition catalogServiceIDPattern (s : string) : bool :=
  match list_of_str s with
  | [] => false
  | c :: r =>
      is_alnum c && (length r <=? 63)%nat &&
      forallb (λ x, is_alnum x || (byte_val x =? 46) || (byte_val x =? 95) || (byte_val x =? 45)) r
  end.

(** The loop over the group; the result is the set of seen identifiers. *)
Fixpoint check_group (seen : list string) (ids : list string) : option (list string) :=
  match ids with
  | [] => Some seen
  | i :: ids => if negb (leaseIDPattern i) || bool_decide (i ∈ seen) then None else check_group (i :: seen) ids
  end.

(** [outbounds] says whether the context has an outbound manager. *)
Definition newCatalogRuleWindow (options : option PokrovCatalogWindow) (invert : bool) (domains : nat) (now : time)
    (outbounds : bool) : result string (option catalogRuleWindow) :=
  match options with
  | None => Ok None
  | Some o =>
      check negb (invert || (domains =? 0)%nat) orelse "catalog_window_requires_noninverted_domain_rule" ;;
      match parse_utc (co_IssuedAt o) with
      | None => Err "catalog_window_time_invalid"
      | Some issued =>
          match parse_utc (co_ExpiresAt o) with
          | None => Err "catalog_window_time_invalid"
          | Some expires =>
              check After expires issued orelse "catalog_window_time_invalid" ;;
              check negb (Before now issued) orelse "catalog_window_not_current" ;;
              check bool_decide (co_LeaseID o = "") || leaseIDPattern (co_LeaseID o) orelse "catalog_window_lease_invalid" ;;
              check bool_decide (co_LeaseID o = "") || outbounds orelse "catalog_window_lease_unavailable" ;;
              check bool_decide (co_ServiceID o = "") || catalogServiceIDPattern (co_ServiceID o)
                orelse "catalog_window_service_invalid" ;;
              check bool_decide (co_LeaseGroup o = []) ||
                    (negb (bool_decide (co_LeaseID o = "")) && negb (bool_decide (co_ServiceID o = "")) &&
                     (length (co_LeaseGroup o) <=? 16)%nat &&
                     match check_group [] (co_LeaseGroup o) with
                     | Some seen => bool_decide (co_LeaseID o ∈ seen)
                     | None => false
                     end) orelse "catalog_window_group_invalid" ;;
              Ok (Some {|
                issuedAt := issued; expiresAt := expires; deadline := Add now (Sub expires now);
                expired := negb (Before now expires); w_leaseID := co_LeaseID o; w_serviceID := co_ServiceID o;
                w_lease := None; leaseGroupIDs := co_LeaseGroup o; leaseGroup := None;
                probeCurrent := false; probeDNS := false; probeServer := ""; probeUnbind := None |})
          end
      end
  end.

(** ** Shared state

    A rule has its window, if any, and its conditions; the groups are kept by
    the outbound that anchors them. *)
Record crule := mkCrule {
  r_window : option catalogRuleWindow;
  r_conditions : conditions;
  r_sets : option (bool * bool * list (list rule));
  r_invert : bool
}.

#[export] Instance eta_crule : Eta crule := λ r, mkCrule (r_window r) (r_conditions r) (r_sets r) (r_invert r).

Record sys := mkSys { rules : gmap nat crule; souts : gmap nat world; sgroups : gmap nat group }.

#[export] Instance eta_sys : Eta sys := λ s, mkSys (rules s) (souts s) (sgroups s).

Definition window_of (i : nat) (s : sys) : option catalogRuleWindow := r ← rules s !! i; r_window r.
Definition set_window (i : nat) (f : catalogRuleWindow → catalogRuleWindow) (s : sys) : sys :=
  s <| rules ::= alter (λ r, r <| r_window ::= fmap f |>) i |>.

(** A method of an outbound, and of a group with its members' outbounds. *)
Definition on_outbound {A} (k : nat) (d : A) (f : world → A * world) (s : sys) : A * sys :=
  match souts s !! k with
  | None => (d, s)
  | Some w => let '(r, w') := f w in (r, s <| souts ::= insert k w' |>)
  end.
Definition on_group {A} (g : nat) (d : A) (f : gw → A * gw) (s : sys) : A * sys :=
  match sgroups s !! g with
  | None => (d, s)
  | Some gr => let '(r, x) := f (mkGw gr (souts s)) in (r, s <| sgroups ::= insert g (grp x) |> <| souts := outs x |>)
  end.

(** ** Operations *)

Definition outside (now : time) (w : catalogRuleWindow) : bool :=
  Before now (issuedAt w) || negb (Before now (expiresAt w)) || negb (Before now (deadline w)).

Definition catalogCurrent (i : nat) (now : time) (s : sys) : bool * sys :=
  match window_of i s with
  | None => (false, s)
  | Some w =>
      if expired w then (false, s)
      else if outside now w then (false, set_window i (λ w, w <| expired := true |>) s)
      else (true, s)
  end.

(** The second half of [active]: the lease of the window admits new flows. *)
Definition lease_admits (i : nat) (now : time) (s : sys) : bool * sys :=
  match window_of i s with
  | None => (false, s)
  | Some w =>
      if bool_decide (w_leaseID w = "") then (true, s)
      else match w_lease w with
           | None => (false, s)
           | Some k => on_outbound k false (AdmitsNewFlows now) s
           end
  end.

Definition window_selected (i : nat) (now : time) (s : sys) : bool * sys :=
  match window_of i s with
  | None => (false, s)
  | Some w =>
      match leaseGroup w with
      | None => (true, s)
      | Some g => let '(m, s) := on_group g None (Selected now) s in (bool_decide (m = w_lease w), s)
      end
  end.

(** [domainMatch] is what the window's domain item says of the connection and
    [domain] its domain or destination name. *)
Definition observeScopedBypass (i : nat) (now : time) (domainMatch : bool) (domain : bytes) (s : sys) : sys :=
  match window_of i s with
  | None => s
  | Some w =>
      match leaseGroup w, w_lease w with
      | Some g, Some l =>
          if domainMatch then (on_group g tt (λ x, (tt, ObserveScopedRuleBypass now l domain x)) s).2 else s
      | _, _ => s
      end
  end.

Definition closeProbe (i : nat) (now : time) (s : sys) : sys :=
  match window_of i s with
  | None => s
  | Some w =>
      let s := set_window i (λ w, w <| expired := true |>) s in
      match probeUnbind w, leaseGroup w with
      | Some (k, m), Some g =>
          set_window i (λ w, w <| probeUnbind := None |>) (on_group g tt (λ x, (tt, unbindWindow now k m x)) s).2
      | Some _, None => set_window i (λ w, w <| probeUnbind := None |>) s
      | None, _ => s
      end
  end.

Definition smartAccessDNSFailed (i : nat) (now : time) (s : sys) : bool * sys :=
  match window_of i s with
  | None => (false, s)
  | Some w =>
      match leaseGroup w, w_lease w with
      | Some g, Some l => (true, (on_group g tt (λ x, (tt, DNSFailed now l x)) s).2)
      | _, _ => (false, s)
      end
  end.

(** ** Start

    [mgr] gives the outbound of a tag, [Some None] for one of another type;
    [dns] the DNS transports with whether they are HTTPS, if there is a manager. *)
Definition lease_tag (id : string) : string := String.append "pokrov-smart-access-" id.

Definition bound_lease (mgr : gmap string (option nat)) (id : string) (s : sys) : option nat :=
  k ← mjoin (mgr !! lease_tag id); w ← souts s !! k; if bool_decide (getLeaseID w = id) then Some k else None.

Definition probe_transport (dns : option (gmap string (nat * bool))) (w : catalogRuleWindow) : option nat :=
  if probeDNS w && bool_decide (probeServer w = String.append "pokrov-smart-access-dns-" (w_leaseID w)) then
    match d ← dns; d !! probeServer w with
    | Some (t, true) => Some t
    | _ => None
    end
  else None.

Definition start (mgr : gmap string (option nat)) (dns : option (gmap string (nat * bool))) (i : nat) (s : sys)
    : option string * sys :=
  match window_of i s with
  | None => (None, s)
  | Some w =>
      if bool_decide (w_leaseID w = "") then (None, s)
      else
        match bound_lease mgr (w_leaseID w) s with
        | None => (Some "catalog_window_lease_unavailable", s)
        | Some lease =>
            let s := set_window i (λ w, w <| w_lease := Some lease |>) s in
            match leaseGroupIDs w with
            | [] => (None, s)
            | ids =>
                match mapM (λ id, bound_lease mgr id s) ids with
                | None => (Some "catalog_window_group_unavailable", s)
                | Some members =>
                    let anchor := default lease (head members) in
                    match ServiceLeaseGroup anchor (w_serviceID w) members (sgroups s !! anchor) (souts s) with
                    | Err e => (Some e, s)
                    | Ok g =>
                        let s := set_window i (λ w, w <| leaseGroup := Some anchor |>) (s <| sgroups ::= insert anchor g |>) in
                        if probeCurrent w then
                          let '(k, s) := on_group anchor 0%nat (BindProbeWindow lease (probeDNS w) (probe_transport dns w)) s in
                          (None, set_window i (λ w, w <| probeUnbind := Some (k, lease) |>) s)
                        else (None, s)
                    end
                end
            end
        end
  end.

(** ** Matching

    [mi_at k] is the clock at the [k]-th read of the shared state and [mi_env k]
    what other goroutines do before it. *)
Record match_input := mkMatch {
  mi_at : nat → time;
  mi_env : nat → sys → sys;
  mi_domainMatch : bool;
  mi_domain : bytes
}.

Definition bypass (c : match_input) (i : nat) (s : sys) : sys :=
  observeScopedBypass i (mi_at c 3) (mi_domainMatch c) (mi_domain c) (mi_env c 3 s).

Definition active (c : match_input) (i : nat) (s : sys) : bool * sys :=
  let '(ok, s) := catalogCurrent i (mi_at c 0) (mi_env c 0 s) in
  if ok then lease_admits i (mi_at c 1) (mi_env c 1 s) else (false, s).

(** [abstractDefaultRule.Match] *)
Definition Match (c : match_input) (i : nat) (m : metadata) (s : sys) : bool * metadata * sys :=
  match rules s !! i with
  | None => (false, m, s)
  | Some r =>
      let windowed := bool_decide (is_Some (r_window r)) in
      let '(ok, s) := if windowed then active c i s else (true, s) in
      if negb ok then (false, m, bypass c i s)
      else if no_conditions (r_conditions r) (r_sets r) then (true, m, s)
      else
        let '(matched, m) := matchInner RuleMatch.Match (r_conditions r) (r_sets r) m in
        let s := if negb matched && windowed then bypass c i s else s in
        let '(sel, s) := if matched && windowed then window_selected i (mi_at c 2) (mi_env c 2 s) else (true, s) in
        if negb sel then (false, m, bypass c i s)
        else let '(b, m) := invert_result (r_invert r) matched m in (b, m, s)
  end.

(** ** Withdrawal *)

Definition rule_RevokeRoutingCatalog (i : nat) (now : time) (s : sys) : bool * sys :=
  match window_of i s with
  | None => (false, s)
  | Some _ => (true, closeProbe i now s)
  end.

Definition rule_RevokeRoutingCatalogService (svc : string) (i : nat) (now : time) (s : sys) : bool * sys :=
  match window_of i s with
  | None => (false, s)
  | Some w =>
      if bool_decide (w_serviceID w = "") || negb (bool_decide (w_serviceID w = svc)) then (false, s)
      else
        let s := closeProbe i now s in
        (true, match w_lease w with Some k => (on_outbound k tt (λ x, (tt, Revoke true x)) s).2 | None => s end)
  end.

(** ** Interleavings *)

Inductive sstep (s : sys) : sys → Prop :=
| ss_current i now : sstep s (catalogCurrent i now s).2
| ss_close i now : sstep s (closeProbe i now s)
| ss_start mgr dns i : sstep s (start mgr dns i s).2
| ss_outbound k w w' : souts s !! k = Some w → step w w' → sstep s (s <| souts ::= insert k w' |>)
| ss_group g gr x : sgroups s !! g = Some gr → gop (mkGw gr (souts s)) x →
    sstep s (s <| sgroups ::= insert g (grp x) |> <| souts := outs x |>).

(** The dates of a window are constant, and it stays expired. *)
Definition window_le (w w' : catalogRuleWindow) : Prop :=
  issuedAt w' = issuedAt w ∧ expiresAt w' = expiresAt w ∧ deadline w' = deadline w ∧ w_leaseID w' = w_leaseID w ∧
  w_serviceID w' = w_serviceID w ∧ (expired w = true → expired w' = true).

Definition rule_le (r r' : crule) : Prop :=
  r_conditions r' = r_conditions r ∧ r_sets r' = r_sets r ∧ r_invert r' = r_invert r ∧
  match r_window r, r_window r' with
  | Some w, Some w' => window_le w w'
  | None, None => True
  | _, _ => False
  end.

Definition sys_le (s s' : sys) : Prop :=
  ∀ i, match rules s !! i, rules s' !! i with
       | Some r, Some r' => rule_le r r'
       | None, None => True
       | _, _ => False
       end.

Lemma window_le_refl w : window_le w w.
Proof. done. Qed.

Lemma rule_le_refl r : rule_le r r.
Proof. unfold rule_le. by destruct (r_window r). Qed.

#[export] Instance sys_le_preorder : PreOrder sys_le.
Proof.
  split.
  - intros s i. destruct (rules s !! i); [apply rule_le_refl|done].
  - intros s1 s2 s3 H1 H2 i. specialize (H1 i). specialize (H2 i).
    destruct (rules s1 !! i) as [r1|], (rules s2 !! i) as [r2|], (rules s3 !! i) as [r3|]; try done.
    destruct H1 as (A1 & A2 & A3 & A4), H2 as (B1 & B2 & B3 & B4). split_and!; [congruence..|].
    destruct (r_window r1), (r_window r2), (r_window r3); try done. unfold window_le in *. intuition congruence.
Qed.

Lemma sys_le_rules s s' : rules s' = rules s → sys_le s s'.
Proof. intros E i. rewrite E. destruct (rules s !! i); [apply rule_le_refl|done]. Qed.

Lemma sys_le_window i f s : (∀ w, window_le w (f w)) → sys_le s (set_window i f s).
Proof.
  intros Hf j. unfold set_window. simpl. destruct (decide (i = j)) as [<-|].
  - rewrite lookup_alter_eq. destruct (rules s !! i) as [r|]; [|done]. unfold rule_le. simpl.
    destruct (r_window r); simpl; auto.
  - rewrite lookup_alter_ne by done. destruct (rules s !! j); [apply rule_le_refl|done].
Qed.

Lemma on_outbound_rules {A} k (d : A) f s : rules (on_outbound k d f s).2 = rules s.
Proof. unfold on_outbound. destruct (souts s !! k); [|done]. by destruct (f w). Qed.
Lemma on_group_rules {A} g (d : A) f s : rules (on_group g d f s).2 = rules s.
Proof. unfold on_group. destruct (sgroups s !! g); [|done]. by destruct (f _). Qed.

Lemma current_le i now s : sys_le s (catalogCurrent i now s).2.
Proof.
  unfold catalogCurrent. destruct (window_of i s) as [w|]; [|done]. destruct (expired w); [done|].
  destruct (outside now w); [|done]. by apply sys_le_window.
Qed.

Lemma closeProbe_le i now s : sys_le s (closeProbe i now s).
Proof.
  unfold closeProbe. destruct (window_of i s) as [w|]; [|done].
  assert (H1 : sys_le s (set_window i (λ w, w <| expired := true |>) s)) by (by apply sys_le_window).
  destruct (probeUnbind w) as [[k m]|]; [|done]. etrans; [exact H1|].
  destruct (leaseGroup w) as [g|]; [|by apply sys_le_window].
  etrans; [apply sys_le_rules, (on_group_rules g tt (λ x, (tt, unbindWindow now k m x)))|]. by apply sys_le_window.
Qed.

Lemma start_le mgr dns i s : sys_le s (start mgr dns i s).2.
Proof.
  unfold start. destruct (window_of i s) as [w|]; [|done]. destruct (bool_decide _); [done|].
  destruct (bound_lease mgr (w_leaseID w) s) as [lease|]; [|done].
  set (s1 := set_window i _ s). assert (H1 : sys_le s s1) by (by apply sys_le_window).
  destruct (leaseGroupIDs w) as [|id ids]; [done|]. destruct (mapM _ _) as [members|]; [|done].
  destruct (ServiceLeaseGroup _ _ _ _ _) as [g|e]; [|done].
  set (s2 := set_window i _ (s1 <| sgroups ::= _ |>)).
  assert (H2 : sys_le s s2).
  { etrans; [exact H1|]. etrans; [by apply (sys_le_rules s1 (s1 <| sgroups ::= insert (default lease (head members)) g |>))|].
    by apply sys_le_window. }
  destruct (probeCurrent w); [|done].
  match goal with |- context [on_group ?a ?d ?f s2] => pose proof (on_group_rules a d f s2) as E; destruct (on_group a d f s2) as [k s3] end.
  simpl in *. etrans; [exact H2|]. etrans; [by apply sys_le_rules|]. by apply sys_le_window.
Qed.

Lemma sstep_le s s' : sstep s s' → sys_le s s'.
Proof.
  intros []; [apply current_le|apply closeProbe_le|apply start_le|by apply sys_le_rules|by apply sys_le_rules].
Qed.

Lemma ssteps_le s s' : rtc sstep s s' → sys_le s s'.
Proof. induction 1 as [|s1 s2 s3 H%sstep_le _ IH]; [done|by etrans]. Qed.

Lemma window_of_le i s s' w : sys_le s s' → window_of i s = Some w → ∃ w', window_of i s' = Some w' ∧ window_le w w'.
Proof.
  intros H Hw. specialize (H i). unfold window_of in *. destruct (rules s !! i) as [r|]; [|done]. simpl in Hw.
  destruct (rules s' !! i) as [r'|]; [|done]. destruct H as (_ & _ & _ & H). rewrite Hw in H. simpl.
  destruct (r_window r') as [w'|]; [by eauto|done].
Qed.

Lemma window_of_set i f s w : window_of i s = Some w → window_of i (set_window i f s) = Some (f w).
Proof.
  unfold window_of, set_window. simpl. rewrite lookup_alter_eq. destruct (rules s !! i) as [r|]; [|done]. simpl. by intros ->.
Qed.

(** A window found outside its dates, or closed, is expired. *)
Definition latched (i : nat) (s : sys) : Prop := ∃ w, window_of i s = Some w ∧ expired w = true.

Lemma latched_le i s s' : sys_le s s' → latched i s → latched i s'.
Proof. intros H (w & Hw & He). destruct (window_of_le _ _ _ _ H Hw) as (w' & Hw' & Hle). exists w'. split; [done|]. by apply Hle. Qed.

Lemma latched_current i now s : latched i s → catalogCurrent i now s = (false, s).
Proof. intros (w & Hw & He). unfold catalogCurrent. by rewrite Hw, He. Qed.

Lemma current_false i now s w : window_of i s = Some w → (catalogCurrent i now s).1 = false → latched i (catalogCurrent i now s).2.
Proof.
  intros Hw. unfold catalogCurrent. rewrite Hw. destruct (expired w) eqn:He; [by exists w|].
  destruct (outside now w); [|done]. intros _. eexists. split; [by apply window_of_set|done].
Qed.

Lemma closeProbe_latched i now s w : window_of i s = Some w → latched i (closeProbe i now s).
Proof.
  intros Hw. assert (L : latched i (set_window i (λ w, w <| expired := true |>) s)).
  { eexists. split; [by apply window_of_set|done]. }
  unfold closeProbe. rewrite Hw. destruct (probeUnbind w) as [[k m]|]; [|done].
  destruct (leaseGroup w) as [g|]; (eapply latched_le; [|exact L]); [|by apply sys_le_window].
  etrans; [apply sys_le_rules, (on_group_rules g tt (λ x, (tt, unbindWindow now k m x)))|]. by apply sys_le_window.
Qed.

(** ** Theorems *)

Definition env_ok (c : match_input) : Prop := ∀ k x, rtc sstep x (mi_env c k x).

(** What a true answer of the match needs, read by read. *)
Lemma match_inv c i m s r w m' s' :
  rules s !! i = Some r → r_window r = Some w → env_ok c → Match c i m s = (true, m', s') →
  let s0 := mi_env c 0 s in
  (catalogCurrent i (mi_at c 0) s0).1 = true ∧
  let s1 := mi_env c 1 (catalogCurrent i (mi_at c 0) s0).2 in
  (lease_admits i (mi_at c 1) s1).1 = true ∧
  (no_conditions (r_conditions r) (r_sets r) = true ∨
   ∃ b, (matchInner RuleMatch.Match (r_conditions r) (r_sets r) m).1 = b ∧
     (b = true → (window_selected i (mi_at c 2) (mi_env c 2 (lease_admits i (mi_at c 1) s1).2)).1 = true) ∧
     (r_invert r = false → b = true)).
Proof.
  intros Hr Hw He H. unfold Match, active in H. rewrite Hr, Hw in H. cbn [bool_decide] in H.
  rewrite (bool_decide_eq_true_2 (is_Some (Some w))) in H by done. cbv zeta.
  destruct (catalogCurrent i (mi_at c 0) (mi_env c 0 s)) as [[] s1]; cbn [fst snd] in *; [|by cbn in H].
  split; [done|].
  destruct (lease_admits i (mi_at c 1) (mi_env c 1 s1)) as [[] s2]; cbn [fst snd negb] in *; [|done]. split; [done|].
  destruct (no_conditions _ _); [by left|]. right.
  destruct (matchInner RuleMatch.Match (r_conditions r) (r_sets r) m) as [b m1]. cbn [fst snd] in *. exists b.
  split; [done|]. destruct b; cbn [andb negb] in H.
  - destruct (window_selected i (mi_at c 2) (mi_env c 2 s2)) as [[] s3]; [done|done].
  - split; [done|]. intros Hi. rewrite Hi in H. cbn in H. done.
Qed.

Lemma catalogCurrent_true i now s w :
  window_of i s = Some w → (catalogCurrent i now s).1 = true →
  expired w = false ∧ outside now w = false ∧ (catalogCurrent i now s).2 = s.
Proof. unfold catalogCurrent. intros ->. destruct (expired w); [done|]. by destruct (outside now w). Qed.

Lemma new_window_inv o invert domains now mgrs w :
  newCatalogRuleWindow (Some o) invert domains now mgrs = Ok (Some w) →
  parse_utc (co_IssuedAt o) = Some (issuedAt w) ∧ parse_utc (co_ExpiresAt o) = Some (expiresAt w) ∧
  After (expiresAt w) (issuedAt w) = true ∧ Before now (issuedAt w) = false ∧
  deadline w = Add now (Sub (expiresAt w) now) ∧ expired w = negb (Before now (expiresAt w)) ∧
  w_leaseID w = co_LeaseID o ∧ w_serviceID w = co_ServiceID o ∧ invert = false ∧ domains ≠ 0%nat.
Proof.
  unfold newCatalogRuleWindow. intros H.
  destruct (negb (invert || _)) eqn:E1; [|done].
  destruct (parse_utc (co_IssuedAt o)) as [iss|]; [|done]. destruct (parse_utc (co_ExpiresAt o)) as [ex|]; [|done].
  destruct (After ex iss) eqn:E2; [|done]. destruct (negb (Before now iss)) eqn:E3; [|done].
  do 4 (match type of H with (if ?b then _ else _) = _ => destruct b; [|done] end).
  injection H as <-. simpl. apply negb_true_iff, orb_false_iff in E1 as [-> E1]. apply negb_true_iff in E3.
  split_and!; try done. intros ->. done.
Qed.

Lemma lease_admits_steps i now s : rtc sstep s (lease_admits i now s).2.
Proof.
  unfold lease_admits. destruct (window_of i s) as [w|]; [|apply rtc_refl]. destruct (bool_decide _); [apply rtc_refl|].
  destruct (w_lease w) as [k|]; [|apply rtc_refl]. unfold on_outbound. destruct (souts s !! k) as [x|] eqn:E; [|apply rtc_refl].
  unfold AdmitsNewFlows, admitsLocked. rewrite (surjective_pairing (admitsLeaseLocked _ _ _)). apply rtc_once.
  cbn [snd]. eapply ss_outbound; [exact E|apply step_admits].
Qed.

(** C7: A rule compiled from a catalog matches only inside the catalog's
    lifetime: at the clock reading of the match the wall clock is between the
    signed dates, and no more time has passed on the monotonic clock since the
    window was built than was left on the wall clock then, so setting the clock
    back does not prolong it.  A rule bound to a lease needs the lease to admit
    new flows at that moment, one bound to a service group needs that lease to
    be the selected member, and the conditions of the rule hold. *)
Theorem catalog_gate o invert domains now0 mgrs w0 c i m s r w m' s' :
  newCatalogRuleWindow (Some o) invert domains now0 mgrs = Ok (Some w0) → window_le w0 w →
  rules s !! i = Some r → r_window r = Some w → r_invert r = false → env_ok c →
  Match c i m s = (true, m', s') →
  expired w = false ∧
  wall (issuedAt w0) ≤ wall (mi_at c 0) < wall (expiresAt w0) ∧
  (∀ a b, mono now0 = Some a → mono (mi_at c 0) = Some b →
     in_int64 (a + Sub (expiresAt w0) now0) = true → b - a < sat64 (wall (expiresAt w0) - wall now0)) ∧
  (co_LeaseID o ≠ "" → ∃ s1 w1 k x, rtc sstep s s1 ∧ window_of i s1 = Some w1 ∧ w_lease w1 = Some k ∧
     souts s1 !! k = Some x ∧ (AdmitsNewFlows (mi_at c 1) x).1 = true) ∧
  (no_conditions (r_conditions r) (r_sets r) = true ∨
   ((matchInner RuleMatch.Match (r_conditions r) (r_sets r) m).1 = true ∧
    ∃ s2 w2, rtc sstep s s2 ∧ window_of i s2 = Some w2 ∧
      ∀ g, leaseGroup w2 = Some g → (on_group g None (Selected (mi_at c 2)) s2).1 = w_lease w2)).
Proof.
  intros Hn Hle Hr Hw Hinv He H. destruct (match_inv c i m s r w m' s' Hr Hw He H) as (H1 & H2 & H3).
  assert (Hws : window_of i s = Some w) by (unfold window_of; rewrite Hr; exact Hw).
  destruct (window_of_le _ _ _ _ (ssteps_le _ _ (He 0%nat s)) Hws) as (wa & Ha & La).
  destruct (catalogCurrent_true _ _ _ _ Ha H1) as (X1 & X2 & X3). rewrite X3 in *.
  destruct (new_window_inv _ _ _ _ _ _ Hn) as (P1 & P2 & _ & _ & Hd & _ & Hl & _ & _ & _).
  apply format_parse_utc in P1 as [_ M1]. apply format_parse_utc in P2 as [_ M2].
  destruct Hle as (D1 & D2 & D3 & D4 & _ & _), La as (F1 & F2 & F3 & F4 & _ & Hx).
  unfold outside in X2. rewrite F1, F2, F3, D1, D2, D3 in X2. apply orb_false_iff in X2 as [X2 Y3].
  apply orb_false_iff in X2 as [Y1 Y2]. apply negb_false_iff in Y2, Y3.
  assert (He1 : rtc sstep s (mi_env c 1 (mi_env c 0 s))) by (etrans; apply He).
  destruct (window_of_le _ _ _ _ (ssteps_le _ _ He1) Hws) as (wb & Hb & Lb).
  split_and!.
  - destruct (expired w) eqn:E; [|done]. by rewrite Hx in X1.
  - unfold Before in Y1. rewrite M1 in Y1. destruct (mono (mi_at c 0)); lia.
  - unfold Before in Y2. rewrite M2 in Y2. destruct (mono (mi_at c 0)); lia.
  - intros a b Ea Eb Hr64. rewrite Hd in Y3. unfold Before, Add in Y3. cbn [mono] in Y3. rewrite Ea, Eb, Hr64 in Y3.
    unfold Sub in Y3. rewrite M2 in Y3. lia.
  - intros Hne. unfold lease_admits in H2. rewrite Hb in H2. destruct Lb as (_ & _ & _ & G4 & _).
    rewrite G4, D4, Hl in H2. rewrite bool_decide_eq_false_2 in H2 by done.
    destruct (w_lease wb) as [k|] eqn:Ek; [|done]. unfold on_outbound in H2.
    destruct (souts (mi_env c 1 (mi_env c 0 s)) !! k) as [x|] eqn:Ex; [|done].
    exists (mi_env c 1 (mi_env c 0 s)), wb, k, x. split_and!; try done. by destruct (AdmitsNewFlows (mi_at c 1) x).
  - destruct H3 as [H3|(b & Hbm & Hsel & Hi)]; [by left|right]. specialize (Hi Hinv) as ->. split; [done|].
    specialize (Hsel eq_refl). unfold window_selected in Hsel.
    assert (He2 : rtc sstep s (mi_env c 2 (lease_admits i (mi_at c 1) (mi_env c 1 (mi_env c 0 s))).2)).
    { etrans; [exact He1|]. etrans; [apply lease_admits_steps|apply He]. }
    match type of Hsel with context [window_of i ?x] => exists x; destruct (window_of i x) as [w2|]; [|done] end.
    exists w2. split; [done|]. split; [done|]. intros g Hg. rewrite Hg in Hsel.
    destruct (on_group g None _ _) as [sel ?]. cbn [fst] in *. by apply bool_decide_eq_true in Hsel.
Qed.

(** The function a binding returned removes it. *)
Lemma remove_window_gone k ws : NoDup (w_id <$> ws) → k ∉ w_id <$> remove_window k ws.
Proof.
  induction ws as [|b ws IH]; simpl; [set_solver|]. intros [Hb Hn]%NoDup_cons.
  destruct (Nat.eqb_spec (w_id b) k) as [<-|Hne]; [done|]. simpl. apply not_elem_of_cons. split; [done|by apply IH].
Qed.

Lemma remove_window_absent k ws : existsb (λ b, (w_id b =? k)%nat) ws = false → k ∉ w_id <$> ws.
Proof.
  induction ws as [|b ws IH]; simpl; [set_solver|]. intros [Hb Hn]%orb_false_iff. apply Nat.eqb_neq in Hb.
  apply not_elem_of_cons. split; [done|by apply IH].
Qed.

Lemma unbind_removes now k m x :
  NoDup (w_id <$> probeWindows (grp x)) → k ∉ w_id <$> probeWindows (grp (unbindWindow now k m x)).
Proof.
  intros Hn. unfold unbindWindow. destruct (existsb _ _) eqn:E; [|by apply remove_window_absent].
  assert (Hc : probeWindows (grp (closeReadinessLocked now x)) = probeWindows (grp x)).
  { unfold closeReadinessLocked. by destruct (readiness (grp x)). }
  destruct (bool_decide _); simpl; rewrite ?Hc; by apply remove_window_gone.
Qed.

(** Closing a window touches neither the other rules nor the outbounds. *)
Lemma closeProbe_others i now s j : j ≠ i → rules (closeProbe i now s) !! j = rules s !! j.
Proof.
  intros Hj. assert (Hset : ∀ f x, rules (set_window i f x) !! j = rules x !! j).
  { intros f x. unfold set_window. simpl. by rewrite lookup_alter_ne. }
  unfold closeProbe. destruct (window_of i s) as [w|]; [|done]. destruct (probeUnbind w) as [[k m]|]; [|apply Hset].
  destruct (leaseGroup w); rewrite !Hset; [|done]. rewrite on_group_rules. apply Hset.
Qed.

Lemma closeProbe_outs i now s : souts (closeProbe i now s) = souts s.
Proof.
  assert (Hu : ∀ k m x, outs (unbindWindow now k m x) = outs x).
  { intros k m x. unfold unbindWindow, closeReadinessLocked. by repeat case_match. }
  unfold closeProbe. destruct (window_of i s) as [w|]; [|done]. destruct (probeUnbind w) as [[k m]|]; [|done].
  destruct (leaseGroup w) as [g|]; [|done]. simpl. unfold on_group. simpl. destruct (sgroups s !! g); [|done]. simpl. apply Hu.
Qed.

(** A latched window refuses every match. *)
Lemma latched_refuses i s r c m :
  rules s !! i = Some r → latched i s → env_ok c → (Match c i m s).1.1 = false.
Proof.
  intros Hr L He. pose proof L as (w & Hw & _). unfold window_of in Hw. rewrite Hr in Hw. simpl in Hw.
  unfold Match, active. rewrite Hr, Hw. rewrite (bool_decide_eq_true_2 (is_Some (Some w))) by done.
  rewrite (latched_current i (mi_at c 0)); [done|]. eapply latched_le; [by apply ssteps_le, He|done].
Qed.

Lemma latched_rule i s : latched i s → ∃ r, rules s !! i = Some r.
Proof. intros (w & Hw & _). unfold window_of in Hw. destruct (rules s !! i); [by eauto|done]. Qed.

(** The end of a catalog window is final.  Once a match or a readiness probe
    has read the clock outside the window, or the window was closed by a
    withdrawal or with its rule, no later match of the rule succeeds, whatever
    the clock then shows and whatever the other goroutines do; the decision
    falls to the rules after it.  Closing also takes the window's binding out of
    its service group, and other rules keep their windows. *)
Theorem catalog_window_final i w s s' now :
  window_of i s = Some w →
  ((catalogCurrent i now s).1 = false ∧ rtc sstep (catalogCurrent i now s).2 s') ∨ rtc sstep (closeProbe i now s) s' →
  (∀ c m, env_ok c → (Match c i m s').1.1 = false) ∧
  (∀ now', catalogCurrent i now' s' = (false, s')) ∧
  (∀ j, j ≠ i → rules (closeProbe i now s) !! j = rules s !! j) ∧
  (∀ k x g gr, probeUnbind w = Some (k, x) → leaseGroup w = Some g → sgroups s !! g = Some gr →
     NoDup (w_id <$> probeWindows gr) →
     ∃ gr', sgroups (closeProbe i now s) !! g = Some gr' ∧ k ∉ w_id <$> probeWindows gr').
Proof.
  intros Hw H. assert (L : latched i s').
  { destruct H as [[H1 H2]|H2]; (eapply latched_le; [by apply ssteps_le, H2|]); [by eapply current_false|by eapply closeProbe_latched]. }
  destruct (latched_rule i s' L) as [r Hr]. split_and!.
  - intros c m Hc. by eapply latched_refuses.
  - intros now'. by apply latched_current.
  - intros j Hj. by apply closeProbe_others.
  - intros k x g gr Hu Hg Hgr Hnd. unfold closeProbe. rewrite Hw, Hu, Hg. unfold on_group. simpl. rewrite Hgr. simpl.
    eexists. split; [by rewrite lookup_insert_eq|]. by apply unbind_removes.
Qed.

(** *** Examples: a started rule bound to a lease and its one-member group *)

Definition ex_catalog : PokrovCatalogWindow :=
  mkCatalogOptions "2026-01-01T00:00:00Z" "2026-01-01T00:05:00Z" "video" (LeaseID ex_options) [LeaseID ex_options].
Definition ex_window : catalogRuleWindow := Eval vm_compute in
  match newCatalogRuleWindow (Some ex_catalog) false 1 (ex_now 1) true with
  | Ok (Some w) => w
  | _ => mkWindow zero_time zero_time zero_time true "" "" None [] None false false "" None
  end.

Lemma ex_window_new : newCatalogRuleWindow (Some ex_catalog) false 1 (ex_now 1) true = Ok (Some ex_window).
Proof. vm_compute. reflexivity. Qed.

Definition ex_crule : crule :=
  mkCrule (Some (ex_window <| probeCurrent := true |>)) (mkConditions [] [] [] [λ _ _, true] [] []) None false.
Definition ex_sys0 : sys := mkSys {[0%nat := ex_crule]} {[1%nat := ex_world]} ∅.
Definition ex_mgr : gmap string (option nat) := {[lease_tag (LeaseID ex_options) := Some 1%nat]}.
Definition ex_sys : sys := (start ex_mgr None 0 ex_sys0).2.

Definition ex_match (s : Z) : match_input := mkMatch (λ _, ex_now s) (λ _ x, x) true (list_of_str "example.com").
Definition ex_md : metadata := mkMetadata false false false 0.

Definition ex_started_rule : crule := default ex_crule (rules ex_sys !! 0%nat).
Definition ex_started_window : catalogRuleWindow := default ex_window (window_of 0 ex_sys).

Lemma ex_rule_at : rules ex_sys !! 0%nat = Some ex_started_rule.
Proof. vm_compute. reflexivity. Qed.
Lemma ex_window_at : r_window ex_started_rule = Some ex_started_window.
Proof. vm_compute. reflexivity. Qed.
Lemma ex_window_le : window_le ex_window ex_started_window.
Proof. unfold window_le. split_and!; [vm_compute; reflexivity..|]. intros H. exact H. Qed.
Lemma ex_env_ok s : env_ok (ex_match s).
Proof. intros k x. apply rtc_refl. Qed.

Lemma catalog_gate_witness :
  (Match (ex_match 5) 0 ex_md ex_sys).1 = (true, ex_md) ∧ expired ex_started_window = false ∧
  wall (ex_now 5) < wall (expiresAt ex_window).
Proof.
  assert (F : (Match (ex_match 5) 0 ex_md ex_sys).1 = (true, ex_md)) by (vm_compute; reflexivity).
  pose proof (surjective_pairing (Match (ex_match 5) 0 ex_md ex_sys)) as E. rewrite F in E.
  destruct (catalog_gate ex_catalog false 1 (ex_now 1) true ex_window (ex_match 5) 0 ex_md ex_sys ex_started_rule
    ex_started_window ex_md _ ex_window_new ex_window_le ex_rule_at ex_window_at
    ltac:(vm_compute; reflexivity) (ex_env_ok 5) E) as (H1 & H2 & _).
  split; [exact F|]. split; [exact H1|exact (proj2 H2)].
Defined.

(** The window is read once after its end and then at an earlier clock. *)
Lemma catalog_window_final_witness :
  (Match (ex_match 5) 0 ex_md (catalogCurrent 0 (ex_now 400) ex_sys).2).1.1 = false.
Proof.
  assert (W : window_of 0 ex_sys = Some ex_started_window) by (vm_compute; reflexivity).
  assert (F : (catalogCurrent 0 (ex_now 400) ex_sys).1 = false) by (vm_compute; reflexivity).
  exact (proj1 (catalog_window_final 0 ex_started_window ex_sys _ (ex_now 400) W (or_introl (conj F (rtc_refl _ _))))
    (ex_match 5) ex_md (ex_env_ok 5)).
Defined.
