(* ===== verification/RuleSnapshot.v ===== *)
(** * Rule snapshots of the router

    Models [engine/sing-box/route/hysteria_rules.go] and [Rules] of
    [route/router.go]: a flow reads the rules of a snapshot it holds a reference
    to; a reload retires the current snapshot and installs another; the rules of
    a retired snapshot are closed by whoever drops its last reference.

    The critical sections under [rulesAccess] are definitions on the router's
    state, and [rstep] interleaves them with the closing of rules and with the
    wait group, which happen outside the lock. *)

From stdpp Require Import base list gmap.
From Stdlib Require Import ZArith Lia.
From S2P Require Import Prelude.

Local Open Scope Z_scope.

Section Snapshot.
(** A started [adapter.Rule]. *)
Context {R : Type}.

(** ** State *)

Record hysteriaRuleSnapshot := mkSnapshot {
  snap_rules : list R;
  references : Z;
  retired : bool
}.

#[export] Instance eta_snapshot : Eta hysteriaRuleSnapshot := λ s,
  mkSnapshot (snap_rules s) (references s) (retired s).

(** The fields of [Router] behind [rulesAccess]; snapshots are shared by
    pointer, so they live in a store, whose keys from [fresh_key] on are free. *)
Record Router := mkRouter {
  rules : list R;
  hysteriaRules : option nat;
  rulesReaders : Z;
  rulesClosed : bool;
  snapshots : gmap nat hysteriaRuleSnapshot;
  fresh_key : nat
}.

#[export] Instance eta_Router : Eta Router := λ r,
  mkRouter (rules r) (hysteriaRules r) (rulesReaders r) (rulesClosed r) (snapshots r) (fresh_key r).

(** A router as it is started: no snapshot yet. *)
Definition NewRouter (l : list R) : Router := mkRouter l None 0 false ∅ 0.

(** [&hysteriaRuleSnapshot{rules: l}] *)
Definition new_snapshot (l : list R) (r : Router) : nat * Router :=
  (fresh_key r, r <| snapshots ::= <[fresh_key r := mkSnapshot l 0 false]> |> <| fresh_key := S (fresh_key r) |>).

Definition update_snapshot (k : nat) (f : hysteriaRuleSnapshot → hysteriaRuleSnapshot) (r : Router) : Router :=
  r <| snapshots ::= alter f k |>.

(** ** Operations *)

(** The snapshot in force, made on the first use. *)
Definition current_snapshot (r : Router) : nat * Router :=
  match hysteriaRules r with
  | Some k => (k, r)
  | None => let '(k, r) := new_snapshot (rules r) r in (k, r <| hysteriaRules := Some k |>)
  end.

Definition add_reference (s : hysteriaRuleSnapshot) : hysteriaRuleSnapshot := s <| references ::= Z.add 1 |>.
Definition readers_add (r : Router) : Router := r <| rulesReaders ::= Z.add 1 |>.

Definition acquireHysteriaRules (r : Router) : option nat * Router :=
  if rulesClosed r then (None, r)
  else
    let '(k, r) := current_snapshot r in
    (Some k, readers_add (update_snapshot k add_reference r)).

(** The locked part of [releaseHysteriaRules]: whether the caller closes the
    rules.  The deferred [rulesReaders.Done] is [readers_done]. *)
Definition release_section (k : nat) (r : Router) : bool * Router :=
  let r := update_snapshot k (λ s, s <| references ::= λ n, n - 1 |>) r in
  (match snapshots r !! k with Some s => retired s && (references s =? 0) | None => false end, r).

Definition readers_done (r : Router) : Router := r <| rulesReaders ::= λ n, n - 1 |>.

(** [ReplaceHysteriaRules], its locked part: [None] for a closed router (the new
    rules are closed), otherwise the retired snapshot and whether the caller
    closes its rules. *)
Definition replace_section (l : list R) (r : Router) : option (nat * bool) * Router :=
  if rulesClosed r then (None, r)
  else
    let '(previous, r) := match hysteriaRules r with
                          | Some k => (k, r)
                          | None => new_snapshot (rules r) r
                          end in
    let r := update_snapshot previous (λ s, s <| retired := true |>) r in
    let '(k, r) := new_snapshot l (r <| rules := l |>) in
    let r := r <| hysteriaRules := Some k |> in
    (Some (previous, match snapshots r !! previous with Some s => references s =? 0 | None => false end), r).

(** The locked part of [stopHysteriaMatching]; it then waits until there are no
    readers and returns [Rules]. *)
Definition stop_section (r : Router) : Router := r <| rulesClosed := true |>.

(** ** Runs

    What a goroutine that uses the rules is at: it holds a snapshot, closes the
    rules of a snapshot it was the last to hold, is about to leave the wait
    group, or closes the rules a reload retired. *)
Inductive phase :=
| Holding (k : nat)
| Closing (k : nat)
| Leaving
| Retiring (k : nat).

(** [closed] lists the snapshots whose rules were closed, the latest first. *)
Record world := mkWorld { router : Router; threads : gmap nat phase; closed : list nat }.

#[export] Instance eta_world : Eta world := λ w, mkWorld (router w) (threads w) (closed w).

Inductive rstep : world → world → Prop :=
| step_acquire w t k r : threads w !! t = None → acquireHysteriaRules (router w) = (Some k, r) →
    rstep w (mkWorld r (<[t := Holding k]> (threads w)) (closed w))
| step_acquire_closed w r : acquireHysteriaRules (router w) = (None, r) → rstep w (mkWorld r (threads w) (closed w))
| step_release w t k b r : threads w !! t = Some (Holding k) → release_section k (router w) = (b, r) →
    rstep w (mkWorld r (<[t := if b then Closing k else Leaving]> (threads w)) (closed w))
| step_close w t k : threads w !! t = Some (Closing k) →
    rstep w (mkWorld (router w) (<[t := Leaving]> (threads w)) (k :: closed w))
| step_done w t : threads w !! t = Some Leaving →
    rstep w (mkWorld (readers_done (router w)) (delete t (threads w)) (closed w))
| step_replace w t l k (b : bool) r : threads w !! t = None → replace_section l (router w) = (Some (k, b), r) →
    rstep w (mkWorld r (if b then <[t := Retiring k]> (threads w) else threads w) (closed w))
| step_replace_closed w l r : replace_section l (router w) = (None, r) → rstep w (mkWorld r (threads w) (closed w))
| step_retire w t k : threads w !! t = Some (Retiring k) →
    rstep w (mkWorld (router w) (delete t (threads w)) (k :: closed w))
| step_stop w : rstep w (mkWorld (stop_section (router w)) (threads w) (closed w)).

Definition start (l : list R) : world := mkWorld (NewRouter l) ∅ [].
End Snapshot.

Arguments hysteriaRuleSnapshot R : clear implicits.
Arguments Router R : clear implicits.
Arguments world R : clear implicits.

(** ** Counting goroutines *)

Definition tally (P : phase → bool) (m : gmap nat phase) : Z := map_fold (λ _ p n, Z.b2z (P p) + n) 0 m.

Definition holds (k : nat) (p : phase) : bool := match p with Holding k' => bool_decide (k' = k) | _ => false end.
Definition closes (k : nat) (p : phase) : bool :=
  match p with Closing k' | Retiring k' => bool_decide (k' = k) | _ => false end.
Definition reads (p : phase) : bool := match p with Retiring _ => false | _ => true end.

Lemma tally_empty P : tally P ∅ = 0.
Proof. apply map_fold_empty. Qed.

Lemma tally_insert P m t p : m !! t = None → tally P (<[t := p]> m) = Z.b2z (P p) + tally P m.
Proof.
  intros. unfold tally.
  rewrite (map_fold_insert_L (λ (_ : nat) (p : phase) (n : Z), Z.b2z (P p) + n) 0 t p m); [done|intros; lia|done].
Qed.

Lemma tally_delete P m t p : m !! t = Some p → tally P (delete t m) = tally P m - Z.b2z (P p).
Proof.
  intros Ht. assert (H := tally_insert P (delete t m) t p (lookup_delete_eq m t)).
  rewrite insert_delete_id in H by done. lia.
Qed.

Lemma tally_update P m t p q : m !! t = Some p → tally P (<[t := q]> m) = tally P m - Z.b2z (P p) + Z.b2z (P q).
Proof.
  intros Ht. rewrite <- insert_delete_eq, tally_insert, (tally_delete P m t p) by (done || apply lookup_delete_eq). lia.
Qed.

Lemma tally_pos P m : 0 ≤ tally P m.
Proof.
  induction m using map_ind; [by rewrite tally_empty|]. rewrite tally_insert by done.
  destruct (P _); simpl; lia.
Qed.

Lemma tally_some P m t p : m !! t = Some p → P p = true → 1 ≤ tally P m.
Proof.
  intros Ht Hp. pose proof (tally_pos P (delete t m)) as H. rewrite (tally_delete P m t p), Hp in H by done. simpl in H. lia.
Qed.

Lemma tally_zero P m t p : tally P m = 0 → m !! t = Some p → P p = false.
Proof. intros Hz Ht. destruct (P p) eqn:Hp; [|done]. pose proof (tally_some _ _ _ _ Ht Hp). lia. Qed.

Lemma tally_found P m : 1 ≤ tally P m → ∃ t p, m !! t = Some p ∧ P p = true.
Proof.
  induction m as [|t p m Ht IH] using map_ind; [rewrite tally_empty; lia|].
  rewrite tally_insert by done. destruct (P p) eqn:Hp.
  - intros _. exists t, p. by rewrite lookup_insert_eq.
  - intros (u & q & Hu & Hq)%IH. exists u, q. rewrite lookup_insert_ne; [done|]. intros <-. congruence.
Qed.

#[export] Hint Rewrite tally_empty : pokrov.

(** ** The invariant *)

Section Invariant.
Context {R : Type}.
Implicit Types w : world R.

(** How often the rules of snapshot [k] were closed or are being closed. *)
Definition closings (k : nat) (m : gmap nat phase) (l : list nat) : Z :=
  tally (closes k) m + Z.of_nat (count_occ Nat.eq_dec l k).

Definition ended (s : hysteriaRuleSnapshot R) : bool := retired s && (references s =? 0).

Record inv w : Prop := {
  inv_refs : ∀ k s, snapshots (router w) !! k = Some s → references s = tally (holds k) (threads w);
  inv_ends : ∀ k s, snapshots (router w) !! k = Some s → closings k (threads w) (closed w) = Z.b2z (ended s);
  inv_none : ∀ k, snapshots (router w) !! k = None → tally (holds k) (threads w) = 0 ∧ closings k (threads w) (closed w) = 0;
  inv_current : ∀ k, hysteriaRules (router w) = Some k →
    ∃ s, snapshots (router w) !! k = Some s ∧ retired s = false ∧ snap_rules s = rules (router w);
  inv_only : ∀ k s, snapshots (router w) !! k = Some s → retired s = false → hysteriaRules (router w) = Some k;
  inv_fresh : ∀ k, (fresh_key (router w) ≤ k)%nat → snapshots (router w) !! k = None;
  inv_readers : rulesReaders (router w) = tally reads (threads w)
}.

Lemma inv_start (l : list R) : inv (start l).
Proof.
  constructor; simpl; try done; try (intros; simplify_map_eq; done).
Qed.

Lemma current_inv w : inv w → inv (mkWorld (snd (current_snapshot (router w))) (threads w) (closed w)).
Proof.
  intros [Hr He Hn Hc Ho Hf Hw]. unfold current_snapshot.
  destruct (hysteriaRules (router w)) as [k|] eqn:Hk; [constructor; simpl; rewrite ?Hk; assumption|].
  assert (Hnew : snapshots (router w) !! fresh_key (router w) = None) by (apply Hf; lia).
  destruct (Hn _ Hnew) as [Hn1 Hn2].
  constructor; simpl; [..|exact Hw].
  - intros k s. case_key (fresh_key (router w)) k; [intros [= <-]|intros]; simpl; [lia|by apply Hr].
  - intros k s. case_key (fresh_key (router w)) k; [intros [= <-]|intros]; simpl; [lia|by apply He].
  - intros k. case_key (fresh_key (router w)) k; [done|by apply Hn].
  - intros k [= <-]. eexists. by rewrite lookup_insert_eq.
  - intros k s. case_key (fresh_key (router w)) k; [done|]. intros Hs Hret. by pose proof (Ho _ _ Hs Hret).
  - intros k Hle. rewrite lookup_insert_ne by lia. apply Hf. lia.
Qed.

Lemma current_key (r : Router R) : hysteriaRules (snd (current_snapshot r)) = Some (fst (current_snapshot r)).
Proof. unfold current_snapshot. by destruct (hysteriaRules r) eqn:Hk. Qed.

Lemma acquire_current (r r' : Router R) k : acquireHysteriaRules r = (Some k, r') →
  k = fst (current_snapshot r) ∧
  r' = readers_add (update_snapshot k add_reference (snd (current_snapshot r))).
Proof. unfold acquireHysteriaRules. destruct (rulesClosed r); [done|]. destruct (current_snapshot r). by intros [= -> <-]. Qed.

Lemma bump_inv w t k : inv w → threads w !! t = None → hysteriaRules (router w) = Some k →
  inv (mkWorld (readers_add (update_snapshot k add_reference (router w)))
         (<[t := Holding k]> (threads w)) (closed w)).
Proof.
  intros [Hr He Hn Hc Ho Hf Hw] Ht Hk. destruct (Hc k Hk) as (s0 & Hs0 & Hret & Hrul).
  constructor; simpl.
  - intros k' s. rewrite tally_insert by done. simpl. destruct (decide (k = k')) as [<-|Hne].
    + rewrite lookup_alter_eq, Hs0. intros [= <-]. rewrite bool_decide_eq_true_2 by done. simpl. rewrite (Hr _ _ Hs0). lia.
    + rewrite lookup_alter_ne, bool_decide_eq_false_2 by done. intros Hs. simpl. rewrite (Hr _ _ Hs). lia.
  - intros k' s. unfold closings. rewrite tally_insert by done. simpl. destruct (decide (k = k')) as [<-|Hne].
    + rewrite lookup_alter_eq, Hs0. intros [= <-]. unfold ended. simpl. rewrite Hret. simpl.
      pose proof (He _ _ Hs0) as H. unfold ended, closings in H. rewrite Hret in H. exact H.
    + rewrite lookup_alter_ne by done. intros Hs. apply (He _ _ Hs).
  - intros k'. unfold closings. rewrite !tally_insert by done. simpl. destruct (decide (k = k')) as [<-|Hne].
    + by rewrite lookup_alter_eq, Hs0.
    + rewrite lookup_alter_ne, bool_decide_eq_false_2 by done. apply Hn.
  - intros k'. rewrite Hk. intros [= <-]. rewrite lookup_alter_eq, Hs0. simpl. eauto.
  - intros k' s. destruct (decide (k = k')) as [<-|Hne]; [done|]. rewrite lookup_alter_ne by done. apply Ho.
  - intros k' Hle. rewrite lookup_alter_None. by apply Hf.
  - rewrite tally_insert by done. simpl. lia.
Qed.

Lemma release_inv w t k b r : inv w → threads w !! t = Some (Holding k) → release_section k (router w) = (b, r) →
  inv (mkWorld r (<[t := if b then Closing k else Leaving]> (threads w)) (closed w)).
Proof.
  intros [Hr He Hn Hc Ho Hf Hw] Ht. unfold release_section. simpl. intros [= Hb <-].
  destruct (snapshots (router w) !! k) as [s0|] eqn:Hs0.
  2:{ destruct (Hn k Hs0) as [Hz _]. pose proof (tally_zero _ _ _ _ Hz Ht) as Hd. simpl in Hd. by rewrite bool_decide_eq_true_2 in Hd. }
  rewrite lookup_alter_eq, Hs0 in Hb. simpl in Hb.
  assert (Hpos : 1 ≤ references s0).
  { rewrite (Hr _ _ Hs0). eapply tally_some; [done|]. simpl. by apply bool_decide_eq_true_2. }
  assert (Hother : ∀ k', k ≠ k' → holds k' (Holding k) = false ∧ closes k' (Closing k) = false)
    by (intros; simpl; by rewrite bool_decide_eq_false_2).
  constructor; simpl.
  - intros k' s. rewrite (tally_update _ _ _ _ _ Ht).
    assert (Hx : holds k' (if b then Closing k else Leaving) = false) by (by destruct b). rewrite Hx.
    destruct (decide (k = k')) as [<-|Hne].
    + rewrite lookup_alter_eq, Hs0. intros [= <-]. simpl. rewrite bool_decide_eq_true_2 by done.
      rewrite (Hr _ _ Hs0). simpl. lia.
    + rewrite lookup_alter_ne by done. intros Hs. rewrite (Hr _ _ Hs). destruct (Hother k' Hne) as [-> _]. simpl. lia.
  - intros k' s. unfold closings. rewrite (tally_update _ _ _ _ _ Ht). destruct (decide (k = k')) as [<-|Hne].
    + rewrite lookup_alter_eq, Hs0. intros [= <-]. pose proof (He _ _ Hs0) as H. unfold ended, closings in H.
      rewrite (proj2 (Z.eqb_neq _ _)), andb_false_r in H by lia. unfold ended. simpl.
      rewrite Hb. destruct b; simpl; [rewrite bool_decide_eq_true_2 by done; simpl|]; simpl in H; lia.
    + rewrite lookup_alter_ne by done. intros Hs. pose proof (He _ _ Hs) as H. unfold closings in H.
      destruct (Hother k' Hne) as [_ Hcl]. destruct b; simpl in *; rewrite ?Hcl; simpl; lia.
  - intros k'. destruct (decide (k = k')) as [<-|Hne]; [by rewrite lookup_alter_eq, Hs0|]. rewrite lookup_alter_ne by done.
    intros Hs. destruct (Hn _ Hs) as [H1 H2]. unfold closings in *. rewrite !(tally_update _ _ _ _ _ Ht).
    destruct (Hother k' Hne) as [Hh Hcl]. rewrite Hh. destruct b; simpl in *; rewrite ?Hcl; simpl; lia.
  - intros k' Hk'. destruct (Hc _ Hk') as (s & Hs & Hret & Hrul). destruct (decide (k = k')) as [<-|Hne].
    + rewrite lookup_alter_eq, Hs. simpl. eauto.
    + rewrite lookup_alter_ne by done. eauto.
  - intros k' s. destruct (decide (k = k')) as [<-|Hne]; [|rewrite lookup_alter_ne by done; apply Ho].
    rewrite lookup_alter_eq, Hs0. intros [= <-]. simpl. by apply Ho.
  - intros k' Hle. rewrite lookup_alter_None. by apply Hf.
  - rewrite (tally_update _ _ _ _ _ Ht). destruct b; simpl; lia.
Qed.

Lemma replace_current l (r : Router R) : rulesClosed r = false →
  replace_section l r = replace_section l (snd (current_snapshot r)).
Proof. destruct r as [? [] ? ? ? ?]; simpl; by intros ->. Qed.

(** A goroutine that closes the rules of [k] moves the pending closing to the log. *)
Lemma closing_inv w t k p r m : inv w → threads w !! t = Some p → closes k p = true → (∀ k', holds k' p = false) →
  (∀ k', closes k' p = true → k' = k) → snapshots r = snapshots (router w) → hysteriaRules r = hysteriaRules (router w) →
  rules r = rules (router w) → fresh_key r = fresh_key (router w) → rulesReaders r = tally reads m →
  (∀ k', tally (holds k') m = tally (holds k') (threads w)) →
  (∀ k', tally (closes k') m = tally (closes k') (threads w) - Z.b2z (closes k' p)) →
  inv (mkWorld r m (k :: closed w)).
Proof.
  intros [Hr He Hn Hc Ho Hf Hw] Ht Hp Hh Honly Es Ek Er Ef Hrd Hth Htc.
  assert (Hcl : ∀ k', closings k' m (k :: closed w) = closings k' (threads w) (closed w)).
  { intros k'. unfold closings. rewrite Htc. simpl. destruct (Nat.eq_dec k k') as [<-|Hne].
    - rewrite Hp. simpl. lia.
    - destruct (closes k' p) eqn:Hx; [by apply Honly in Hx|]. simpl. lia. }
  constructor; simpl; rewrite ?Es, ?Ek, ?Er, ?Ef; intros; rewrite ?Hth, ?Hcl; auto; by eapply Ho.
Qed.

Lemma replace_inv w t l k (b : bool) r : inv w → threads w !! t = None → replace_section l (router w) = (Some (k, b), r) →
  inv (mkWorld r (if b then <[t := Retiring k]> (threads w) else threads w) (closed w)).
Proof.
  intros Hi%current_inv Ht Hsec.
  destruct (rulesClosed (router w)) eqn:Hcl; [unfold replace_section in Hsec; by rewrite Hcl in Hsec|].
  rewrite replace_current in Hsec by done. pose proof (current_key (router w)) as Hk.
  revert Hi Hsec Hk. generalize (fst (current_snapshot (router w))). generalize (snd (current_snapshot (router w))). intros r0 k0.
  intros [Hr He Hn Hc Ho Hf Hw] Hsec Hk. simpl in *.
  unfold replace_section in Hsec. destruct (rulesClosed r0); [done|]. rewrite Hk in Hsec. simpl in Hsec.
  destruct (Hc _ Hk) as (s0 & Hs0 & Hret & Hrul).
  assert (Hne0 : fresh_key r0 ≠ k0) by (intros E; rewrite (Hf k0) in Hs0; [done|lia]).
  rewrite lookup_insert_ne, lookup_alter_eq, Hs0 in Hsec by done. simpl in Hsec.
  injection Hsec as <- Hb Hrr. subst r.
  assert (Hnew : snapshots r0 !! fresh_key r0 = None) by (apply Hf; lia).
  assert (Hth : ∀ k', tally (holds k') (if b then <[t:=Retiring k0]> (threads w) else threads w) = tally (holds k') (threads w)).
  { intros k'. destruct b; [rewrite tally_insert by done|]; done. }
  assert (Htc : ∀ k', tally (closes k') (if b then <[t:=Retiring k0]> (threads w) else threads w) =
                      (if b && bool_decide (k0 = k') then 1 else 0) + tally (closes k') (threads w)).
  { intros k'. destruct b; [rewrite tally_insert by done; simpl; by destruct (bool_decide _)|done]. }
  constructor; simpl.
  - intros k' s. rewrite Hth. case_key (fresh_key r0) k'; [intros [= <-]; simpl; by destruct (Hn _ Hnew)|].
    destruct (decide (k0 = k')) as [<-|]; [|rewrite lookup_alter_ne by done; apply Hr].
    rewrite lookup_alter_eq, Hs0. intros [= <-]. exact (Hr _ _ Hs0).
  - intros k' s. unfold closings. rewrite Htc. case_key (fresh_key r0) k'.
    + intros [= <-]. destruct (Hn _ Hnew) as [_ Hz]. unfold closings in Hz. unfold ended. simpl.
      rewrite bool_decide_eq_false_2, andb_false_r by done. lia.
    + destruct (decide (k0 = k')) as [<-|].
      * rewrite lookup_alter_eq, Hs0. intros [= <-]. pose proof (He _ _ Hs0) as H. unfold ended, closings in *. simpl.
        rewrite Hret in H. rewrite bool_decide_eq_true_2, andb_true_r, Hb by done. destruct b; simpl in *; lia.
      * rewrite lookup_alter_ne, bool_decide_eq_false_2, andb_false_r by done. intros Hs. by apply He.
  - intros k'. unfold closings. rewrite Hth, Htc. case_key (fresh_key r0) k'; [done|].
    destruct (decide (k0 = k')) as [<-|]; [by rewrite lookup_alter_eq, Hs0|].
    rewrite lookup_alter_ne, bool_decide_eq_false_2, andb_false_r by done. apply Hn.
  - intros k' [= <-]. eexists. by rewrite lookup_insert_eq.
  - intros k' s. case_key (fresh_key r0) k'; [done|]. destruct (decide (k0 = k')) as [<-|].
    + rewrite lookup_alter_eq, Hs0. by intros [= <-].
    + rewrite lookup_alter_ne by done. intros Hs Hns. pose proof (Ho _ _ Hs Hns). congruence.
  - intros k' Hle. rewrite lookup_insert_ne, lookup_alter_None by lia. apply Hf. lia.
  - rewrite Hw. destruct b; [rewrite tally_insert by done|]; done.
Qed.

Lemma rstep_inv w w' : rstep w w' → inv w → inv w'.
Proof.
  intros H Hi. destruct H as [w t k r Ht Ha|w r Ha|w t k b r Ht Hs|w t k Ht|w t Ht|w t l k b r Ht Hs|w l r Hs|w t k Ht|w].
  - apply acquire_current in Ha as [Hk ->].
    apply (bump_inv (mkWorld _ _ _) t k (current_inv w Hi)); [done|]. rewrite Hk. apply current_key.
  - unfold acquireHysteriaRules in Ha. destruct (rulesClosed _); [|by destruct (current_snapshot (router w))]. simplify_eq. by destruct w.
  - by eapply release_inv.
  - apply (closing_inv w t k (Closing k)); try done; intros; rewrite ?(tally_update _ _ _ _ _ Ht); simpl.
    + by apply bool_decide_eq_true_2.
    + by apply bool_decide_eq_true in H.
    + rewrite inv_readers by done. lia.
    + lia.
    + lia.
  - destruct Hi as [Hr He Hn Hc Ho Hf Hw].
    assert (Hd : ∀ P, tally P (delete t (threads w)) = tally P (threads w) - Z.b2z (P Leaving)) by (intros; by apply tally_delete).
    constructor; simpl; unfold closings; intros; rewrite ?Hd; simpl; rewrite ?Z.sub_0_r;
      first [by eapply He|by eapply Ho|by eapply Hn|by eapply Hr|by eapply Hc|by eapply Hf|lia].
  - by eapply replace_inv.
  - unfold replace_section in Hs. destruct (rulesClosed _); [|by destruct (hysteriaRules (router w))].
    simplify_eq. by destruct w.
  - apply (closing_inv w t k (Retiring k)); try done; intros; rewrite ?(tally_delete _ _ _ _ Ht); simpl.
    + by apply bool_decide_eq_true_2.
    + by apply bool_decide_eq_true in H.
    + rewrite inv_readers by done. lia.
    + lia.
    + lia.
  - destruct Hi. by constructor.
Qed.

Lemma reachable_inv (l : list R) w : rtc rstep (start l) w → inv w.
Proof. intros H. remember (start l) as w0 eqn:E. assert (inv w0) as Hi by (subst; apply inv_start). clear E. induction H; eauto using rstep_inv. Qed.

Lemma count_le_NoDup (l : list nat) : (∀ k, count_occ Nat.eq_dec l k ≤ 1)%nat → NoDup l.
Proof. intros H. by apply NoDup_ListNoDup, (NoDup_count_occ Nat.eq_dec). Qed.

Lemma closings_le w k : inv w → closings k (threads w) (closed w) ≤ 1.
Proof.
  intros Hi. destruct (snapshots (router w) !! k) as [s|] eqn:Hs.
  - rewrite (inv_ends _ Hi _ _ Hs). by destruct (ended s).
  - destruct (inv_none _ Hi _ Hs) as [_ ->]. done.
Qed.

Lemma held_open w t k : inv w → threads w !! t = Some (Holding k) → closings k (threads w) (closed w) = 0.
Proof.
  intros Hi Ht. assert (Hpos : 1 ≤ tally (holds k) (threads w)).
  { eapply tally_some; [done|]. simpl. by apply bool_decide_eq_true_2. }
  destruct (snapshots (router w) !! k) as [s|] eqn:Hs; [|destruct (inv_none _ Hi _ Hs); lia].
  rewrite (inv_ends _ Hi _ _ Hs). unfold ended. rewrite (inv_refs _ Hi _ _ Hs), (proj2 (Z.eqb_neq _ _)), andb_false_r by lia. done.
Qed.

Lemma no_closings w k : closings k (threads w) (closed w) = 0 →
  k ∉ closed w ∧ ∀ t p, threads w !! t = Some p → closes k p = false.
Proof.
  unfold closings. intros H. pose proof (tally_pos (closes k) (threads w)). split.
  - rewrite list_elem_of_In. intros Hin%(count_occ_In Nat.eq_dec). lia.
  - intros t p. apply tally_zero. lia.
Qed.

Lemma some_closing w k : closings k (threads w) (closed w) = 1 →
  k ∈ closed w ∨ ∃ t p, threads w !! t = Some p ∧ closes k p = true.
Proof.
  unfold closings. intros H. destruct (decide (k ∈ closed w)) as [|Hn]; [by left|right].
  apply tally_found. rewrite list_elem_of_In, (count_occ_not_In Nat.eq_dec) in Hn. lia.
Qed.
End Invariant.

(** ** What a run of the router guarantees *)


(** A flow holds the first rules while a reload retires them; it lets go last and
    closes them. *)
Definition ex_retired : world nat :=
  mkWorld (mkRouter [2%nat] (Some 1%nat) 1 false
             {[ 0%nat := mkSnapshot [1%nat] 0 true; 1%nat := mkSnapshot [2%nat] 0 false ]} 2)
    {[ 7%nat := Leaving ]} [0%nat].

