(* ===== verification/HysteriaOptions.v ===== *)
(** * Options of a dedicated Hysteria server

    Models the pure part of [engine/sing-box/pokrov_hysteria_reload.go]: which
    options a reload accepts ([validateHysteriaReloadOptions]), what has to stay
    as it is ([hysteriaImmutableOptions]) and what an account may do
    ([hysteriaUserPolicy]); and of [engine/sing-box/route] the loop over the
    rules of a flow ([matchRule]) with the [auth_user] condition.

    Proved here: two options that give an account the same policy select the same
    outcome for each of its flows ([policy_selects]). *)

From stdpp Require Import base list strings gmap.
From Stdlib Require Import ZArith Lia.
From S2P Require Import Prelude GoBytes GoNetip RuleMatch.

Local Open Scope Z_scope.

(** ** Options

    The fields of an option struct that the code only compares are kept as the
    ones that are set, by name; [reflect.DeepEqual] is equality.  A list that is
    absent and an empty one are the same. *)
Definition fields : Type := gmap string string.

Record Hysteria2User := mkUser { Name : string; Password : string }.

Inductive inbound_options :=
| Hysteria2InboundOptions (Users : list Hysteria2User) (rest : fields)
| DirectInboundOptions (Listen : option addr) (ListenPort : Z) (rest : fields)
| OtherInboundOptions (rest : fields).

Record Inbound := mkInbound { in_Type : string; in_Tag : string; in_Options : inbound_options }.

Record Outbound := mkOutbound { out_Type : string; out_Tag : string; out_Options : fields }.

(** [DefaultRule]: the conditions on the account and the inversion, the window of
    a catalog rule, the other conditions, and the action with its outbound. *)
Record DefaultRule := mkDefaultRule {
  AuthUser : list string;
  Invert : bool;
  PokrovCatalogWindow : option fields;
  other_conditions : fields;
  Action : string;
  RouteOptions_Outbound : string;
  BypassOptions_Outbound : string;
  action_rest : fields
}.

#[export] Instance eta_DefaultRule : Eta DefaultRule := λ r,
  mkDefaultRule (AuthUser r) (Invert r) (PokrovCatalogWindow r) (other_conditions r) (Action r)
    (RouteOptions_Outbound r) (BypassOptions_Outbound r) (action_rest r).

Record Rule := mkRule { rule_Type : string; DefaultOptions : DefaultRule; LogicalOptions : fields }.

#[export] Instance eta_Rule : Eta Rule := λ r, mkRule (rule_Type r) (DefaultOptions r) (LogicalOptions r).

Record RouteOptions := mkRoute { Rules : list Rule; route_rest : fields }.
Record ExperimentalOptions := mkExperimental { HysteriaReload : bool; experimental_rest : fields }.

Record Options := mkOptions {
  RawMessage : bytes;
  CommentsSet : fields;
  Inbounds : list Inbound;
  Outbounds : list Outbound;
  Route : option RouteOptions;
  Experimental : option ExperimentalOptions;
  options_rest : fields
}.

#[export] Instance user_eq_dec : EqDecision Hysteria2User.
Proof. solve_decision. Defined.
#[export] Instance inbound_options_eq_dec : EqDecision inbound_options.
Proof. solve_decision. Defined.
#[export] Instance inbound_eq_dec : EqDecision Inbound.
Proof. solve_decision. Defined.
#[export] Instance outbound_eq_dec : EqDecision Outbound.
Proof. solve_decision. Defined.
#[export] Instance default_rule_eq_dec : EqDecision DefaultRule.
Proof. solve_decision. Defined.
#[export] Instance rule_eq_dec : EqDecision Rule.
Proof. solve_decision. Defined.
#[export] Instance route_eq_dec : EqDecision RouteOptions.
Proof. solve_decision. Defined.
#[export] Instance experimental_eq_dec : EqDecision ExperimentalOptions.
Proof. solve_decision. Defined.
#[export] Instance options_eq_dec : EqDecision Options.
Proof. solve_decision. Defined.

(** An error with its code, or a panic (a nil pointer, a type assertion). *)
Inductive failure := Failed (code : string) | Panicked.

(** ** Validation *)

Definition hysteriaAWGDNSInboundTag : string := "pokrov-awg-dns".

Definition expectedRule : Rule :=
  mkRule "default"
    (mkDefaultRule [] false None {[ "inbound"%string := hysteriaAWGDNSInboundTag ]} "hijack-dns" "" "" ∅) ∅.

(** The auxiliary DNS inbound and its rule. *)
Definition validate_dns (main auxiliary : Inbound) (rules : list Rule) : result failure unit :=
  if negb (bool_decide (in_Type auxiliary = "direct"%string)) ||
     negb (bool_decide (in_Tag auxiliary = hysteriaAWGDNSInboundTag)) || bool_decide (in_Tag main = in_Tag auxiliary)
  then Err (Failed "hysteria_reload_dns_inbound_invalid")
  else
    match in_Options auxiliary with
    | DirectInboundOptions listen port rest =>
        let address := default AInvalid listen in
        if negb (Is4 address) || negb (IsPrivate address) ||
           negb (bool_decide (DirectInboundOptions listen port rest = DirectInboundOptions listen 53 ∅))
        then Err (Failed "hysteria_reload_dns_inbound_invalid")
        else match rules with
             | r :: _ => if bool_decide (r = expectedRule) then Ok () else Err (Failed "hysteria_reload_dns_rule_invalid")
             | [] => Err (Failed "hysteria_reload_dns_rule_invalid")
             end
    | _ => Err Panicked
    end.

Fixpoint validate_users (names passwords : gset string) (users : list Hysteria2User) : result failure unit :=
  match users with
  | [] => Ok ()
  | user :: users =>
      if bool_decide (Name user = ""%string) || bool_decide (Password user = ""%string) ||
         bool_decide (Name user ∈ names) || bool_decide (Password user ∈ passwords)
      then Err (Failed "hysteria_reload_user_invalid")
      else validate_users ({[Name user]} ∪ names) ({[Password user]} ∪ passwords) users
  end.

(** The loop over the outbounds, with the tags it collects. *)
Fixpoint validate_outbounds (tags : gset string) (outbounds : list Outbound) : result failure (gset string) :=
  match outbounds with
  | [] => Ok tags
  | outbound :: outbounds =>
      if negb (bool_decide (out_Type outbound = "direct"%string)) || bool_decide (out_Tag outbound = ""%string) ||
         bool_decide (out_Tag outbound ∈ tags)
      then Err (Failed "hysteria_reload_outbound_invalid")
      else validate_outbounds ({[out_Tag outbound]} ∪ tags) outbounds
  end.

Definition validate_action (hasAWGDNS first : bool) (tags : gset string) (o : DefaultRule) : result failure unit :=
  if bool_decide (Action o = "hijack-dns"%string) then
    if negb hasAWGDNS || negb first then Err (Failed "hysteria_reload_rule_invalid") else Ok ()
  else if bool_decide (Action o = "route"%string) then
    if bool_decide (RouteOptions_Outbound o ∈ tags) then Ok () else Err (Failed "hysteria_reload_route_invalid")
  else if bool_decide (Action o = "reject"%string) || bool_decide (Action o = "resolve"%string) ||
          bool_decide (Action o = "sniff"%string) then Ok ()
  else Err (Failed "hysteria_reload_rule_invalid").

Fixpoint validate_rules (hasAWGDNS first : bool) (tags : gset string) (rules : list Rule) : result failure unit :=
  match rules with
  | [] => Ok ()
  | rule :: rules =>
      if negb (bool_decide (rule_Type rule = "default"%string)) then Err (Failed "hysteria_reload_rule_invalid")
      else let? _ := validate_action hasAWGDNS first tags (DefaultOptions rule) in
           validate_rules hasAWGDNS false tags rules
  end.

(** [options.Inbounds[0].Options.( *option.Hysteria2InboundOptions).Users] *)
Definition hysteria_users (options : Options) : result failure (list Hysteria2User) :=
  match Inbounds options with
  | {| in_Options := Hysteria2InboundOptions users _ |} :: _ => Ok users
  | _ => Err Panicked
  end.

Definition validateHysteriaReloadOptions (options : Options) : result failure unit :=
  match Experimental options, Inbounds options, Route options with
  | Some experimental, main :: others, Some route =>
      if negb (HysteriaReload experimental) || negb (length others <=? 1)%nat ||
         negb (bool_decide (in_Type main = "hysteria2"%string))
      then Err (Failed "hysteria_reload_scope_invalid")
      else
        let? _ := match others with auxiliary :: _ => validate_dns main auxiliary (Rules route) | [] => Ok () end in
        let? users := hysteria_users options in
        let? _ := validate_users ∅ ∅ users in
        let? tags := validate_outbounds ∅ (Outbounds options) in
        validate_rules (match others with [] => false | _ => true end) true tags (Rules route)
  | _, _, _ => Err (Failed "hysteria_reload_scope_invalid")
  end.

(** ** What a reload may not change *)

Definition hysteriaImmutableOptions (options : Options) : result failure Options :=
  match Inbounds options, Route options with
  | {| in_Type := ty; in_Tag := tag; in_Options := Hysteria2InboundOptions _ rest |} :: others, Some route =>
      let rules := if (length others =? 1)%nat then take 1 (Rules route) else [] in
      Ok (mkOptions [] ∅ (mkInbound ty tag (Hysteria2InboundOptions [] rest) :: others) []
            (Some (mkRoute rules (route_rest route))) (Experimental options) (options_rest options))
  | _, _ => Err Panicked
  end.

(** ** What an account may do *)

Record hysteriaAccountPolicy := mkPolicy { policy_Rules : list Rule; policy_Outbounds : list Outbound }.

#[export] Instance policy_eq_dec : EqDecision hysteriaAccountPolicy.
Proof. solve_decision. Defined.

(** A rule the account is not named by is skipped. *)
Definition applies (user : string) (rule : Rule) : bool :=
  match AuthUser (DefaultOptions rule) with
  | [] => true
  | users => bool_decide (user ∈ users)
  end.

Definition strip (rule : Rule) : Rule := rule <| DefaultOptions ::= λ o, o <| AuthUser := [] |> |>.

Definition route_tags (rules : list Rule) : gset string :=
  list_to_set ((λ r, RouteOptions_Outbound (DefaultOptions r)) <$>
    filter (λ r, Action (DefaultOptions r) = "route"%string) rules).

Definition rules_of (options : Options) : list Rule := match Route options with Some route => Rules route | None => [] end.

Definition policy_rules (user : string) (rules : list Rule) : list Rule :=
  strip <$> filter (λ r, applies user r = true) rules.

Definition hysteriaUserPolicy (options : Options) (user : string) : hysteriaAccountPolicy :=
  let rules := policy_rules user (rules_of options) in
  mkPolicy rules (filter (λ o, out_Tag o ∈ route_tags rules) (Outbounds options)).

(** The users that keep their sessions during a reload. *)
Definition kept_users (previous next : Options) (oldUsers nextUsers : list Hysteria2User) : list Hysteria2User :=
  filter (λ user, user ∈ nextUsers ∧ hysteriaUserPolicy previous (Name user) = hysteriaUserPolicy next (Name user)) oldUsers.

(** ** Routing a flow

    What the conditions of a rule make of a flow, what the window of a rule
    admits, and what an action learns from the network (a sniffed domain, a
    resolved name; [None] for a failure that ends the flow) are given. *)
Section Routing.
Context {M : Type}.
Variable conditions_of : fields → M → conditions * option (bool * bool * list (list rule)).
Variable window_admits : fields → M → bool.
Variable apply_action : string → fields → M → option M.

(** [NewAuthUserItem] is one more plain condition. *)
Definition auth_items (user : string) (o : DefaultRule) : list item :=
  match AuthUser o with
  | [] => []
  | users => [λ _ _, bool_decide (user ∈ users)]
  end.

Definition compiled (user : string) (o : DefaultRule) (md : M) : rule :=
  let '(c, sets) := conditions_of (other_conditions o) md in
  RuleMatch.DefaultRule
    (mkConditions (auth_items user o ++ items c) (sourceAddressItems c) (sourcePortItems c)
       (destinationAddressItems c) (destinationIPCIDRItems c) (destinationPortItems c)) sets (Invert o).

Definition rule_matches (user : string) (md : M) (o : DefaultRule) : bool :=
  match PokrovCatalogWindow o with Some w => window_admits w md | None => true end &&
  fst (Match (compiled user o md) (plain false false)).

(** Whether the action ends the loop. *)
Definition selects (o : DefaultRule) : bool :=
  bool_decide (Action o ∈ ["route"; "reject"; "hijack-dns"]%string) ||
  (bool_decide (Action o = "bypass"%string) && negb (bool_decide (BypassOptions_Outbound o = ""%string))).

(** [matchRule]: the rule that is selected and the flow as the actions left it.
    What an action does to the flow (overrides of a route, sniffing, resolving) is
    [apply_action]. *)
Fixpoint matchRule (user : string) (md : M) (rules : list Rule) : option (option Rule * M) :=
  match rules with
  | [] => Some (None, md)
  | r :: rules =>
      if rule_matches user md (DefaultOptions r) then
        md ← apply_action (Action (DefaultOptions r)) (action_rest (DefaultOptions r)) md;
        if selects (DefaultOptions r) then Some (Some r, md) else matchRule user md rules
      else matchRule user md rules
  end.

(** ** A policy decides what its account's flows get *)

(** No rule is inverted over accounts and none has a window: the rules for which
    a policy is all there is. *)
Definition plain_rule (r : Rule) : bool :=
  bool_decide (PokrovCatalogWindow (DefaultOptions r) = None) &&
  (negb (Invert (DefaultOptions r)) || bool_decide (AuthUser (DefaultOptions r) = [])).
Definition plain_rules (rules : list Rule) : bool := forallb plain_rule rules.

Lemma rule_matches_spec user md o : PokrovCatalogWindow o = None →
  rule_matches user md o = spec (compiled user o md) false false.
Proof. intros Hw. unfold rule_matches. by rewrite Hw, match_spec. Qed.

Lemma skipped_never user md r : plain_rule r = true → applies user r = false → rule_matches user md (DefaultOptions r) = false.
Proof.
  unfold plain_rule, applies. intros Hp Ha. bsplit. rewrite rule_matches_spec by done. unfold compiled, auth_items.
  destruct (AuthUser (DefaultOptions r)) as [|u us]; [done|].
  destruct (conditions_of _ md) as [c sets]. simpl. rewrite Ha. simpl.
  destruct (Invert (DefaultOptions r)); [|done]. by apply bool_decide_eq_true in H0.
Qed.

Lemma strip_matches user md r : plain_rule r = true → applies user r = true →
  rule_matches user md (DefaultOptions (strip r)) = rule_matches user md (DefaultOptions r).
Proof.
  unfold plain_rule, applies. intros Hp Ha. bsplit. rewrite !rule_matches_spec by done. unfold compiled, auth_items. simpl.
  destruct (AuthUser (DefaultOptions r)) as [|u us]; [done|].
  destruct (conditions_of _ md) as [c sets]. simpl.
  destruct (Invert (DefaultOptions r)); [by apply bool_decide_eq_true in H0|].
  unfold holds at 2. rewrite Ha. simpl. unfold no_conditions. simpl.
  destruct (negb _) eqn:Hno; [|done].
  destruct c as [[|] [|] [|] [|] [|] [|]], sets as [[[]]|]; simpl in Hno; done.
Qed.

Lemma strip_fields r : Action (DefaultOptions (strip r)) = Action (DefaultOptions r) ∧
  action_rest (DefaultOptions (strip r)) = action_rest (DefaultOptions r) ∧
  RouteOptions_Outbound (DefaultOptions (strip r)) = RouteOptions_Outbound (DefaultOptions r) ∧
  selects (DefaultOptions (strip r)) = selects (DefaultOptions r).
Proof. done. Qed.

Definition stripped (o : option (option Rule * M)) : option (option Rule * M) := (λ p : option Rule * M, (strip <$> p.1, p.2)) <$> o.

(** Selecting among all rules is selecting among those of the policy. *)
Lemma match_policy user rules md : plain_rules rules = true →
  stripped (matchRule user md rules) = matchRule user md (policy_rules user rules).
Proof.
  revert md. induction rules as [|r rules IH]; intros md; [done|]. simpl. intros Hp. bsplit.
  unfold policy_rules. rewrite filter_cons. destruct (applies user r) eqn:Ha.
  - rewrite decide_True by done. cbn [matchRule fmap list_fmap]. rewrite strip_matches by done.
    destruct (rule_matches user md (DefaultOptions r)); [|by apply IH].
    destruct (strip_fields r) as (-> & -> & _ & ->).
    destruct (apply_action _ _ md) as [md'|]; [|done]. simpl. destruct (selects _); [done|]. by apply IH.
  - rewrite decide_False by done. rewrite skipped_never by done. by apply IH.
Qed.

(** Options that agree on an account's policy select the same action for it. *)
Lemma policy_selects user md previous next :
  plain_rules (rules_of previous) = true → plain_rules (rules_of next) = true →
  hysteriaUserPolicy previous user = hysteriaUserPolicy next user →
  stripped (matchRule user md (rules_of previous)) = stripped (matchRule user md (rules_of next)).
Proof. intros Hp Hn [= He _]. rewrite !match_policy by done. by f_equal. Qed.

(** The selected rule is one of the rules, and the account is named by it. *)
Lemma match_selected user md rules r md' : plain_rules rules = true → matchRule user md rules = Some (Some r, md') →
  r ∈ rules ∧ applies user r = true ∧ selects (DefaultOptions r) = true.
Proof.
  revert md. induction rules as [|r0 rules IH]; intros md; simpl; [done|]. intros Hp. bsplit.
  destruct (rule_matches _ _ _) eqn:Hm; [|intros ?%IH; [|done]; destruct_and!; split; [by right|done]].
  destruct (apply_action _ _ md) as [md1|]; [|done]. simpl.
  destruct (selects (DefaultOptions r0)) eqn:Hs; [|intros ?%IH; [|done]; destruct_and!; split; [by right|done]].
  intros [= -> ->]. split; [by left|]. split; [|done]. destruct (applies user r) eqn:Ha; [done|].
  by rewrite skipped_never in Hm.
Qed.

(** ** Where a flow goes *)

(** The end of [routeConnection] up to the dial: the selected action, with the
    outbound looked up by its tag.  [ByDefault] is the default outbound.  The
    outbounds of these options are direct and serve every network. *)
Inductive egress :=
| Dropped
| Rejected
| Hijacked
| ByDefault (md : M)
| NotFound (tag : string)
| Via (ty : string) (options : fields) (md : M).

Definition via (lookup : string → option (string * fields)) (tag : string) (md : M) : egress :=
  match lookup tag with Some (ty, options) => Via ty options md | None => NotFound tag end.

Definition egress_of (lookup : string → option (string * fields)) (selected : option (option Rule * M)) : egress :=
  match selected with
  | None => Dropped
  | Some (None, md) => ByDefault md
  | Some (Some r, md) =>
      let o := DefaultOptions r in
      if bool_decide (Action o = "route"%string) then via lookup (RouteOptions_Outbound o) md
      else if bool_decide (Action o = "bypass"%string) then via lookup (BypassOptions_Outbound o) md
      else if bool_decide (Action o = "reject"%string) then Rejected
      else if bool_decide (Action o = "hijack-dns"%string) then Hijacked
      else ByDefault md
  end.

(** The outbound that options define for a tag. *)
Definition defined_outbound (options : Options) (tag : string) : option (string * fields) :=
  (λ p : nat * Outbound, (out_Type p.2, out_Options p.2)) <$> list_find (λ o, out_Tag o = tag) (Outbounds options).

(** What options give to a flow of an account. *)
Definition granted (options : Options) (user : string) (md : M) : egress :=
  egress_of (defined_outbound options) (matchRule user md (rules_of options)).

Lemma egress_stripped lookup selected : egress_of lookup (stripped selected) = egress_of lookup selected.
Proof. by destruct selected as [[[r|] md]|]. Qed.

(** Only the tag of the selected rule is looked up. *)
Lemma egress_lookup lookup lookup' selected :
  (∀ r md, selected = Some (Some r, md) → Action (DefaultOptions r) = "route"%string →
     lookup (RouteOptions_Outbound (DefaultOptions r)) = lookup' (RouteOptions_Outbound (DefaultOptions r))) →
  (∀ r md, selected = Some (Some r, md) → Action (DefaultOptions r) ≠ "bypass"%string) →
  egress_of lookup selected = egress_of lookup' selected.
Proof.
  intros Hl Hb. destruct selected as [[[r|] md]|]; simpl; [|done..]. unfold via.
  case_bool_decide as Ha; [by erewrite Hl|]. by rewrite bool_decide_eq_false_2 by by eapply Hb.
Qed.
End Routing.

(** ** What validation guarantees *)

Record valid_options (options : Options) (users : list Hysteria2User) : Prop := {
  valid_users : hysteria_users options = Ok users;
  valid_names : NoDup (Name <$> users);
  valid_passwords : NoDup (Password <$> users);
  valid_tags : NoDup (out_Tag <$> Outbounds options);
  valid_types : ∀ o, o ∈ Outbounds options → out_Type o = "direct"%string;
  valid_routes : ∀ r, r ∈ rules_of options → Action (DefaultOptions r) = "route"%string →
    RouteOptions_Outbound (DefaultOptions r) ∈ out_Tag <$> Outbounds options;
  valid_actions : ∀ r, r ∈ rules_of options → Action (DefaultOptions r) ≠ "bypass"%string
}.

Lemma validate_users_spec names passwords users : validate_users names passwords users = Ok () →
  NoDup (Name <$> users) ∧ NoDup (Password <$> users) ∧
  ∀ u, u ∈ users → Name u ∉ names ∧ Password u ∉ passwords.
Proof.
  revert names passwords. induction users as [|u users IH]; intros names passwords; simpl.
  - intros _. split_and!; [constructor..|]. intros u ?%not_elem_of_nil. done.
  - destruct (_ || _) eqn:Hb; [done|]. bsplit. intros (Hn & Hp & Hf)%IH. split_and!.
    + constructor; [|done]. intros (v & E & Hv)%list_elem_of_fmap. apply Hf in Hv as [Hv _]. set_solver.
    + constructor; [|done]. intros (v & E & Hv)%list_elem_of_fmap. apply Hf in Hv as [_ Hv]. set_solver.
    + intros v [->|Hv]%elem_of_cons; [done|]. apply Hf in Hv. set_solver.
Qed.

Lemma validate_outbounds_spec tags outbounds tags' : validate_outbounds tags outbounds = Ok tags' →
  NoDup (out_Tag <$> outbounds) ∧ (∀ o, o ∈ outbounds → out_Type o = "direct"%string ∧ out_Tag o ∉ tags) ∧
  tags' = list_to_set (out_Tag <$> outbounds) ∪ tags.
Proof.
  revert tags. induction outbounds as [|o outbounds IH]; intros tags; simpl.
  - intros [= ->]. split_and!; [constructor| |set_solver]. intros o ?%not_elem_of_nil. done.
  - destruct (_ || _) eqn:Hb; [done|]. bsplit. intros (Hn & Hf & ->)%IH. split_and!.
    + constructor; [|done]. intros (v & E & Hv)%list_elem_of_fmap. apply Hf in Hv as [_ Hv]. set_solver.
    + intros v [->|Hv]%elem_of_cons; [done|]. apply Hf in Hv as [? ?]. set_solver.
    + set_solver.
Qed.

Lemma validate_rules_spec hasAWGDNS first tags rules : validate_rules hasAWGDNS first tags rules = Ok () →
  ∀ r, r ∈ rules → (Action (DefaultOptions r) = "route"%string → RouteOptions_Outbound (DefaultOptions r) ∈ tags) ∧
    Action (DefaultOptions r) ≠ "bypass"%string.
Proof.
  revert first. induction rules as [|r rules IH]; intros first; simpl; [by intros _ r ?%not_elem_of_nil|].
  destruct (negb _); [done|]. intros ([] & Ha & Hr)%rbind_ok v [->|Hv]%elem_of_cons; [|by eapply IH].
  unfold validate_action in Ha. split.
  - intros E. rewrite E in Ha. simpl in Ha. case_bool_decide; done.
  - intros E. by rewrite E in Ha.
Qed.

Lemma validate_spec options : validateHysteriaReloadOptions options = Ok () → ∃ users, valid_options options users.
Proof.
  unfold validateHysteriaReloadOptions. destruct (Experimental options), (Inbounds options) as [|main others] eqn:Hin, (Route options) as [route|] eqn:Hr; try done.
  destruct (_ || _); [done|].
  intros ([] & _ & (users & Hu & ([] & Hus & (tags & Ht & Hrs)%rbind_ok)%rbind_ok)%rbind_ok)%rbind_ok.
  apply validate_users_spec in Hus as (Hn & Hp & _). apply validate_outbounds_spec in Ht as (Htags & Hty & ->).
  pose proof (validate_rules_spec _ _ _ _ Hrs) as Hrules. exists users. unfold rules_of.
  constructor; unfold rules_of; rewrite ?Hr; try done.
  - intros o Ho. by apply Hty.
  - intros r Hin' Ha. apply Hrules in Hin' as [Hx _]. specialize (Hx Ha). set_solver.
  - intros r Hin'. by apply Hrules.
Qed.
