(* ===== verification/HysteriaReload.v ===== *)
(** * Reloading the accounts of a Hysteria server

    Models [ReloadHysteria] of [engine/sing-box/pokrov_hysteria_reload.go] with
    what it acts on: the users and sessions of the server
    ([UpdateUsers], the authentication and the stream fence of
    [replace/sing-quic/hysteria2/service.go]), the outbound manager
    ([Create], [Remove] and [Outbound] of [adapter/outbound/manager.go]) and the
    rule snapshots of the router ([RuleSnapshot]).

    A reload is the sequence of its sections ([advance]); [hstep] interleaves
    them with connections, authentications and the routing of flows. *)

From stdpp Require Import base list strings gmap relations.
From Stdlib Require Import ZArith Lia.
From S2P Require Import Prelude GoBytes RuleMatch HysteriaOptions RuleSnapshot.

Local Open Scope Z_scope.

(** ** Users and sessions *)

Record serverSession := mkSession {
  authenticated : bool;
  authUser : string;
  authPassword : string;
  revoked : bool
}.

#[export] Instance eta_session : Eta serverSession := λ s,
  mkSession (authenticated s) (authUser s) (authPassword s) (revoked s).

Record Service := mkService { userMap : gmap string string; sessions : gmap nat serverSession }.

#[export] Instance eta_Service : Eta Service := λ s, mkService (userMap s) (sessions s).

(** The map from passwords to names; a later user overwrites an earlier one. *)
Definition user_map (users : list Hysteria2User) : gmap string string :=
  foldl (λ m u, <[Password u := Name u]> m) ∅ users.

(** Whether [UpdateUsers] revokes a session. *)
Definition outdated (users : gmap string string) (s : serverSession) : bool :=
  authenticated s && negb (bool_decide (users !! authPassword s = Some (authUser s))).

(** [UpdateUsers]; the connections of the sessions it revokes are closed after. *)
Definition UpdateUsers (users : list Hysteria2User) (s : Service) : Service :=
  mkService (user_map users)
    ((λ x, if outdated (user_map users) x then x <| revoked := true |> else x) <$> sessions s).

(** [handleConnection]: a new session, and its end. *)
Definition connect (sid : nat) (s : Service) : Service := s <| sessions ::= <[sid := mkSession false "" "" false]> |>.
Definition disconnect (sid : nat) (s : Service) : Service := s <| sessions ::= delete sid |>.

(** The authentication request of [ServeHTTP]. *)
Definition authenticate (sid : nat) (password : string) (s : Service) : Service :=
  match sessions s !! sid with
  | Some x =>
      if revoked x || authenticated x then s
      else match userMap s !! password with
           | Some user => s <| sessions ::= <[sid := mkSession true user password false]> |>
           | None => s
           end
  | None => s
  end.

(** The fence of [handleStream]: the account of a stream that may pass. *)
Definition stream_user (sid : nat) (s : Service) : option string :=
  match sessions s !! sid with
  | Some x => if negb (authenticated x) || revoked x then None else Some (authUser x)
  | None => None
  end.

(** ** The outbound manager *)

(** An outbound; two are the same if their identities are. *)
Record object := mkObject {
  o_id : nat;
  o_Type : string;
  o_Tag : string;
  o_Options : fields;
  o_Dependencies : list string
}.

Record Manager := mkManager {
  defaultTag : string;
  started : bool;
  outbounds : list object;
  outboundByTag : gmap string object;
  dependByTag : gmap string (list string);
  defaultOutbound : option object;
  endpoints : gmap string object
}.

#[export] Instance eta_Manager : Eta Manager := λ m,
  mkManager (defaultTag m) (started m) (outbounds m) (outboundByTag m) (dependByTag m) (defaultOutbound m) (endpoints m).

Definition Manager_Outbound (m : Manager) (tag : string) : option object :=
  match outboundByTag m !! tag with Some o => Some o | None => endpoints m !! tag end.

(** The list without the first object of that identity; [None] if there is none. *)
Fixpoint remove_object (id : nat) (l : list object) : option (list object) :=
  match l with
  | [] => None
  | o :: l => if (o_id o =? id)%nat then Some l else (o ::.) <$> remove_object id l
  end.

(** What the registry and the network do when an outbound is created: the
    identity it gets, whether it could be built from its options or only as a
    placeholder, what it depends on, and whether starting it and closing the one
    it replaces succeed. *)
Record creation := mkCreation {
  new_id : nat;
  buildable : bool;
  placeholder : bool;
  dependencies : list string;
  start_ok : bool;
  close_ok : bool
}.

Definition TypeHInvalidConfig : string := "hinvalid".

Definition CreateOutbound (e : creation) (tag : string) (options : fields) : option object :=
  if buildable e then Some (mkObject (new_id e) "direct" tag options (dependencies e))
  else if placeholder e then Some (mkObject (new_id e) TypeHInvalidConfig tag options (dependencies e))
  else None.

Definition depend (tag : string) (deps : list string) (d : gmap string (list string)) : gmap string (list string) :=
  foldl (λ d dep, <[dep := default [] (d !! dep) ++ [tag]]> d) d deps.

(** The end of [Create]: the object is listed, and is the default if its tag is
    or if there was none. *)
Definition add_object (tag : string) (o : object) (l : list object) (m : Manager) : Manager :=
  m <| outbounds := l ++ [o] |> <| outboundByTag ::= <[tag := o]> |> <| dependByTag ::= depend tag (o_Dependencies o) |>
    <| defaultOutbound ::= λ d,
         if bool_decide (tag = defaultTag m) ||
            (bool_decide (defaultTag m = ""%string) && match d with None => true | Some _ => false end)
         then Some o else d |>.

Definition Create (e : creation) (tag : string) (options : fields) (m : Manager) : result failure Manager :=
  if bool_decide (tag = ""%string) then Err (Failed "invalid argument")
  else match CreateOutbound e tag options with
       | None => Err (Failed "create")
       | Some o =>
           if started m && negb (start_ok e) then Err (Failed "start")
           else match outboundByTag m !! tag with
                | Some exists_ =>
                    if started m && negb (close_ok e) then Err (Failed "close")
                    else match remove_object (o_id exists_) (outbounds m) with
                         | None => Err Panicked
                         | Some l => Ok (add_object tag o l m)
                         end
                | None => Ok (add_object tag o (outbounds m) m)
                end
       end.

Definition release_dependency (tag : string) (d : gmap string (list string)) (dep : string) : gmap string (list string) :=
  let users := default [] (d !! dep) in
  if (length users =? 1)%nat then delete dep d else <[dep := filter (λ t, t ≠ tag) users]> d.

(** [Remove] changes the manager even when it fails. *)
Definition Remove (closes : bool) (tag : string) (m : Manager) : Manager * result failure unit :=
  match outboundByTag m !! tag with
  | None => (m, Err (Failed "invalid argument"))
  | Some o =>
      let m := m <| outboundByTag ::= delete tag |> in
      match remove_object (o_id o) (outbounds m) with
      | None => (m, Err Panicked)
      | Some l =>
          let m := m <| outbounds := l |> in
          let m := match defaultOutbound m with
                   | Some d => if (o_id d =? o_id o)%nat then m <| defaultOutbound := head l |> else m
                   | None => m
                   end in
          if negb (bool_decide (default [] (dependByTag m !! tag) = [])) then (m, Err (Failed "depended"))
          else
            let m := m <| dependByTag ::= λ d, foldl (release_dependency tag) d (o_Dependencies o) |> in
            (m, if started m && negb closes then Err (Failed "close") else Ok ())
      end
  end.

(** ** The reload *)

(** The options in force, those to load, and the users of both. *)
Record job := mkJob {
  previous : Options;
  next : Options;
  kept : list Hysteria2User;
  nextUsers : list Hysteria2User
}.

(** The checks of [ReloadHysteria] before it touches anything: whether the rules
    and the outbounds could be built is given, as is what the inbound manager
    knows of a tag (whether that inbound has [UpdateUsers]). *)
Definition reload_plan (loaded : option Options) (inbounds : gmap string bool) (prepared candidates : result failure unit)
    (next : Options) : result failure job :=
  match loaded with
  | None => Err (Failed "hysteria_reload_disabled")
  | Some previous =>
      let? _ := validateHysteriaReloadOptions next in
      let? a := hysteriaImmutableOptions previous in
      let? b := hysteriaImmutableOptions next in
      if negb (bool_decide (a = b)) then Err (Failed "hysteria_reload_immutable_change")
      else
        let? _ := prepared in
        let? _ := candidates in
        match Inbounds previous with
        | [] => Err Panicked
        | main :: _ =>
            match inbounds !! in_Tag main with
            | None => Err (Failed "hysteria_reload_inbound_missing")
            | Some false => Err (Failed "hysteria_reload_inbound_unsupported")
            | Some true =>
                let? oldUsers := hysteria_users previous in
                let? nextUsers := hysteria_users next in
                Ok (mkJob previous next (kept_users previous next oldUsers nextUsers) nextUsers)
            end
        end
  end.

(** Where a reload is: before its fence, with outbounds left to create or to
    remove, done, or failed. *)
Inductive progress :=
| Idle
| Creating (j : job) (rest : list Outbound)
| Removing (j : job) (rest : list Outbound)
| Finished (j : job)
| Aborted (j : job) (f : failure).

Section Reload.
Context {M : Type}.
Variable conditions_of : fields → M → conditions * option (bool * bool * list (list rule)).
Variable window_admits : fields → M → bool.
Variable apply_action : string → fields → M → option M.

(** A flow of an account: the stage of [routeConnection] it is at.  [f_fenced]
    records whether it passed the stream fence after the reload's. *)
Inductive stage :=
| Accepted
| Reading (k : nat)
| Selected (k : nat) (selected : option (option Rule * M))
| Sent (e : @egress M).

Record flow := mkFlow { f_user : string; f_md : M; f_fenced : bool; f_stage : stage }.

Record world := mkWorld {
  service : Service;
  manager : Manager;
  router : Router Rule;
  hysteriaOptions : option Options;
  inbounds : gmap string bool;
  reload : progress;
  flows : gmap nat flow
}.

Definition set_service (f : Service → Service) (w : world) : world :=
  mkWorld (f (service w)) (manager w) (router w) (hysteriaOptions w) (inbounds w) (reload w) (flows w).
Definition set_flow (fid : nat) (x : flow) (r : Router Rule) (w : world) : world :=
  mkWorld (service w) (manager w) r (hysteriaOptions w) (inbounds w) (reload w) (<[fid := x]> (flows w)).
Definition set_reload (p : progress) (m : Manager) (r : Router Rule) (w : world) : world :=
  mkWorld (service w) m r (hysteriaOptions w) (inbounds w) p (flows w).

(** The fence: [updater.UpdateUsers(kept)], the first effect of a reload. *)
Definition begin (j : job) (w : world) : world :=
  set_reload (Creating j (Outbounds (next j))) (manager w) (router w) (set_service (UpdateUsers (kept j)) w).

(** What the environment answers to one section of the reload. *)
Record answer := mkAnswer { creates : creation; closes_rules : bool; closes_outbound : bool }.

(** The loop that creates the changed outbounds.  A reload that ends here also
    closes the rules it had built, which nothing else refers to. *)
Definition create_section (a : answer) (j : job) (o : Outbound) (rest : list Outbound) (w : world) : world :=
  if bool_decide (o ∈ Outbounds (previous j)) then set_reload (Creating j rest) (manager w) (router w) w
  else
    match Create (creates a) (out_Tag o) (out_Options o) (manager w) with
    | Err f => set_reload (Aborted j f) (manager w) (router w) w
    | Ok m =>
        match Manager_Outbound m (out_Tag o) with
        | Some x => if bool_decide (o_Type x = "direct"%string) then set_reload (Creating j rest) m (router w) w
                    else set_reload (Aborted j (Failed "hysteria_reload_outbound_unverified")) m (router w) w
        | None => set_reload (Aborted j (Failed "hysteria_reload_outbound_unverified")) m (router w) w
        end
    end.

(** [ReplaceHysteriaRules] with the closing of the rules it retires. *)
Definition rules_section (a : answer) (j : job) (w : world) : world :=
  match replace_section (rules_of (next j)) (router w) with
  | (None, r) => set_reload (Aborted j (Failed "use of closed network connection")) (manager w) r w
  | (Some (_, closing), r) =>
      if closing && negb (closes_rules a) then set_reload (Aborted j (Failed "close")) (manager w) r w
      else set_reload (Removing j (Outbounds (previous j))) (manager w) r w
  end.

(** The loop that removes the outbounds that are gone. *)
Definition remove_section (a : answer) (j : job) (o : Outbound) (rest : list Outbound) (w : world) : world :=
  if bool_decide (out_Tag o ∈ out_Tag <$> Outbounds (next j)) then set_reload (Removing j rest) (manager w) (router w) w
  else
    match Remove (closes_outbound a) (out_Tag o) (manager w) with
    | (m, Err f) => set_reload (Aborted j f) m (router w) w
    | (m, Ok _) => set_reload (Removing j rest) m (router w) w
    end.

(** [updater.UpdateUsers(nextUsers)] and the new options. *)
Definition commit (j : job) (w : world) : world :=
  mkWorld (UpdateUsers (nextUsers j) (service w)) (manager w) (router w) (Some (next j)) (inbounds w) (Finished j) (flows w).

Definition advance (a : answer) (w : world) : world :=
  match reload w with
  | Creating j (o :: rest) => create_section a j o rest w
  | Creating j [] => rules_section a j w
  | Removing j (o :: rest) => remove_section a j o rest w
  | Removing j [] => commit j w
  | Idle | Finished _ | Aborted _ _ => w
  end.

(** The whole of [ReloadHysteria], with nothing in between. *)
Definition ReloadHysteria (prepared candidates : result failure unit) (answers : list answer) (next : Options) (w : world)
    : world * result failure unit :=
  match reload_plan (hysteriaOptions w) (inbounds w) prepared candidates next with
  | Err f => (w, Err f)
  | Ok j =>
      let w := foldl (λ w a, advance a w) (begin j w) answers in
      (w, match reload w with Aborted _ f => Err f | _ => Ok () end)
  end.

(** ** Interleavings *)

Definition lookup_outbound (m : Manager) (tag : string) : option (string * fields) :=
  (λ o, (o_Type o, o_Options o)) <$> Manager_Outbound m tag.

Definition fenced (p : progress) : bool := match p with Idle => false | _ => true end.

(** One step of the server while options [target] are loaded. *)
Inductive hstep (target : Options) : world → world → Prop :=
| h_connect w sid : sessions (service w) !! sid = None → hstep target w (set_service (connect sid) w)
| h_disconnect w sid : hstep target w (set_service (disconnect sid) w)
| h_authenticate w sid password : hstep target w (set_service (authenticate sid password) w)
| h_admit w sid fid user md : flows w !! fid = None → stream_user sid (service w) = Some user →
    hstep target w (set_flow fid (mkFlow user md (fenced (reload w)) Accepted) (router w) w)
| h_acquire w fid x k r : flows w !! fid = Some x → f_stage x = Accepted →
    acquireHysteriaRules (router w) = (Some k, r) →
    hstep target w (set_flow fid (mkFlow (f_user x) (f_md x) (f_fenced x) (Reading k)) r w)
| h_match w fid x k s : flows w !! fid = Some x → f_stage x = Reading k → snapshots (router w) !! k = Some s →
    hstep target w (set_flow fid (mkFlow (f_user x) (f_md x) (f_fenced x)
      (Selected k (matchRule conditions_of window_admits apply_action (f_user x) (f_md x) (snap_rules s)))) (router w) w)
| h_send w fid x k selected : flows w !! fid = Some x → f_stage x = Selected k selected →
    hstep target w (set_flow fid (mkFlow (f_user x) (f_md x) (f_fenced x)
      (Sent (egress_of (lookup_outbound (manager w)) selected)))
      (readers_done (snd (release_section k (router w)))) w)
| h_begin w prepared candidates j : reload w = Idle →
    reload_plan (hysteriaOptions w) (inbounds w) prepared candidates target = Ok j → hstep target w (begin j w)
| h_advance w a : hstep target w (advance a w).
End Reload.

(** ** Users and sessions *)

(** A session that can pass the fence belongs to a user that is listed. *)
Definition sessions_listed (s : Service) : Prop :=
  ∀ sid x, sessions s !! sid = Some x → authenticated x = true → revoked x = false →
    userMap s !! authPassword x = Some (authUser x).

Lemma update_users_listed users s : sessions_listed (UpdateUsers users s).
Proof.
  intros sid x. simpl. rewrite lookup_fmap, fmap_Some. intros (y & Hy & ->). destruct (outdated _ y) eqn:Ho; [done|].
  intros Ha _. unfold outdated in Ho. rewrite Ha in Ho. simpl in Ho. by bsplit.
Qed.

Lemma connect_listed sid s : sessions_listed s → sessions_listed (connect sid s).
Proof. intros H sid' x. simpl. case_key sid sid'; [by intros [= <-]|apply H]. Qed.

Lemma disconnect_listed sid s : sessions_listed s → sessions_listed (disconnect sid s).
Proof. intros H sid' x. simpl. case_key sid sid'; [done|apply H]. Qed.

Lemma authenticate_listed sid password s : sessions_listed s → sessions_listed (authenticate sid password s).
Proof.
  intros H. unfold authenticate. destruct (sessions s !! sid) as [x|]; [|done].
  destruct (revoked x || authenticated x); [done|]. destruct (userMap s !! password) as [u|] eqn:Hu; [|done].
  intros sid' y. simpl. case_key sid sid'; [by intros [= <-]|apply H].
Qed.

Lemma authenticate_users sid password s : userMap (authenticate sid password s) = userMap s.
Proof. unfold authenticate. repeat case_goal; done. Qed.

Lemma user_map_name users password name : user_map users !! password = Some name → name ∈ Name <$> users.
Proof.
  assert (H : ∀ m : gmap string string, foldl (λ m u, <[Password u := Name u]> m) m users !! password = Some name →
                   name ∈ Name <$> users ∨ m !! password = Some name).
  { induction users as [|u users IH]; intros m; simpl; [by right|]. intros [H|H]%IH; [set_solver|].
    revert H. case_key (Password u) password; [intros [= <-]; set_solver|by right]. }
  intros [?|Hn]%H; [done|]. by rewrite lookup_empty in Hn.
Qed.

Lemma stream_listed sid s user users : sessions_listed s → userMap s = user_map users → stream_user sid s = Some user →
  user ∈ Name <$> users.
Proof.
  unfold stream_user. intros Hl Hu. destruct (sessions s !! sid) as [x|] eqn:Hx; [|done].
  destruct (authenticated x) eqn:Ha, (revoked x) eqn:Hr; simpl; try done. intros [= <-].
  pose proof (Hl _ _ Hx Ha Hr) as H. rewrite Hu in H. by eapply user_map_name.
Qed.

(** ** The outbound manager *)

(** The manager runs an outbound of the options under its tag. *)
Definition serves (m : Manager) (o : Outbound) : Prop :=
  ∃ x, outboundByTag m !! out_Tag o = Some x ∧ o_Type x = out_Type o ∧ o_Options x = out_Options o.

Lemma serves_lookup m o : serves m o → lookup_outbound m (out_Tag o) = Some (out_Type o, out_Options o).
Proof. intros (x & Hx & Ht & Ho). unfold lookup_outbound, Manager_Outbound. rewrite Hx. simpl. by rewrite Ht, Ho. Qed.

Lemma add_object_serves tag x l m o : out_Tag o ≠ tag → serves m o → serves (add_object tag x l m) o.
Proof. intros Hne (y & Hy & H). exists y. split; [|done]. simpl. by rewrite lookup_insert_ne. Qed.

Lemma Create_serves e tag options m m' o : Create e tag options m = Ok m' → out_Tag o ≠ tag → serves m o → serves m' o.
Proof.
  unfold Create. intros H Hne Hs. repeat case_hyp H; simplify_eq; by apply add_object_serves.
Qed.

(** A verified outbound is the one that was asked for. *)
Lemma Create_found e tag options m m' x : Create e tag options m = Ok m' → Manager_Outbound m' tag = Some x →
  o_Type x = "direct"%string → outboundByTag m' !! tag = Some x ∧ o_Options x = options.
Proof.
  intros H. assert (Hy : ∃ y, outboundByTag m' !! tag = Some y ∧ (o_Type y = "direct"%string → o_Options y = options)).
  { unfold Create, CreateOutbound in H. repeat case_hyp H; simplify_eq; eexists; (split; [apply lookup_insert_eq|done]). }
  destruct Hy as (y & Hy & Ho). unfold Manager_Outbound. rewrite Hy. intros [= <-] Ht. auto.
Qed.

Lemma Remove_serves closes tag m m' r o : Remove closes tag m = (m', r) → out_Tag o ≠ tag → serves m o → serves m' o.
Proof.
  unfold Remove. intros H Hne (y & Hy & Hrest). exists y. split; [|done].
  destruct (outboundByTag m !! tag) as [x|]; [|by simplify_eq].
  assert (Hd : outboundByTag m' = delete tag (outboundByTag m)) by (repeat case_hyp H; by simplify_eq).
  by rewrite Hd, lookup_delete_ne.
Qed.

(** ** The router *)

(** The snapshot in force holds the router's rules, and new keys are free. *)
Definition router_ok (r : Router Rule) : Prop :=
  (∀ k, (fresh_key r ≤ k)%nat → snapshots r !! k = None) ∧
  (∀ k, hysteriaRules r = Some k → ∃ s, snapshots r !! k = Some s ∧ snap_rules s = rules r).

(** Snapshots keep their rules. *)
Definition extends (r r' : Router Rule) : Prop :=
  ∀ k s, snapshots r !! k = Some s → ∃ s', snapshots r' !! k = Some s' ∧ snap_rules s' = snap_rules s.

#[export] Instance extends_refl : Reflexive extends.
Proof. intros r k s Hs. eauto. Qed.
#[export] Instance extends_trans : Transitive extends.
Proof. intros a b c Hab Hbc k s (s' & Hs' & E)%Hab. destruct (Hbc _ _ Hs') as (t & Ht & E'). exists t. by rewrite E'. Qed.

Lemma update_extends k f r : (∀ s, snap_rules (f s) = snap_rules s) → extends r (update_snapshot k f r).
Proof.
  intros Hf k' s Hs. simpl. destruct (decide (k = k')) as [<-|].
  - rewrite lookup_alter_eq, Hs. simpl. eauto.
  - rewrite lookup_alter_ne by done. eauto.
Qed.

Lemma update_ok k f r : (∀ s, snap_rules (f s) = snap_rules s) → router_ok r → router_ok (update_snapshot k f r).
Proof.
  intros Hf [Hfr Hc]. split.
  - intros k' Hk. simpl. rewrite lookup_alter_None. by apply Hfr.
  - intros k' Hk. destruct (Hc _ Hk) as (s & Hs & E).
    destruct (update_extends k f r Hf _ _ Hs) as (s' & Hs' & E'). exists s'. split; [exact Hs'|]. by rewrite E'.
Qed.

Lemma new_extends l r k r' : router_ok r → new_snapshot l r = (k, r') → extends r r' ∧ snapshots r' !! k = Some (mkSnapshot l 0 false).
Proof.
  intros [Hf _] [= <- <-]. split; [|apply lookup_insert_eq]. intros k s Hs. exists s. simpl.
  rewrite lookup_insert_ne; [done|]. intros <-. by rewrite Hf in Hs by lia.
Qed.

Lemma new_ok l r : router_ok r → router_ok (snd (new_snapshot l r)).
Proof.
  intros Hr. destruct (new_extends l r _ _ Hr eq_refl) as [He _]. split.
  - intros k Hk. simpl in *. rewrite lookup_insert_ne by lia. apply Hr. lia.
  - intros k Hk. destruct Hr as [_ Hc]. destruct (Hc _ Hk) as (s & Hs & E).
    destruct (He _ _ Hs) as (s' & Hs' & E'). exists s'. split; [exact Hs'|]. by rewrite E'.
Qed.

Lemma acquire_ok r k r' : router_ok r → acquireHysteriaRules r = (Some k, r') →
  router_ok r' ∧ extends r r' ∧ rules r' = rules r ∧ ∃ s, snapshots r' !! k = Some s ∧ snap_rules s = rules r.
Proof.
  intros Hr [-> ->]%acquire_current.
  assert (H : router_ok (snd (current_snapshot r)) ∧ extends r (snd (current_snapshot r)) ∧ rules (snd (current_snapshot r)) = rules r).
  { unfold current_snapshot. destruct (hysteriaRules r) as [k|] eqn:Hk; [done|].
    destruct (new_extends (rules r) r _ _ Hr eq_refl) as [He Hs]. pose proof (new_ok (rules r) r Hr) as [Hf _].
    split_and!; [|exact He|done]. split; [exact Hf|]. intros k [= <-]. eauto. }
  pose proof (current_key r) as Hk. destruct H as (Hok & He & Hrul). revert Hok He Hrul Hk.
  generalize (snd (current_snapshot r)), (fst (current_snapshot r)). intros r1 k Hok He Hrul Hk.
  assert (Hadd : ∀ s : hysteriaRuleSnapshot Rule, snap_rules (add_reference s) = snap_rules s) by done.
  pose proof (update_ok k add_reference r1 Hadd Hok) as Hok2. pose proof (update_extends k add_reference r1 Hadd) as He2.
  split_and!; [exact Hok2|etrans; [exact He|exact He2]|done|].
  destruct (proj2 Hok2 k Hk) as (s & Hs & E). exists s. split; [exact Hs|]. rewrite E. exact Hrul.
Qed.

Lemma release_ok k r : router_ok r →
  router_ok (readers_done (snd (release_section k r))) ∧ extends r (readers_done (snd (release_section k r))) ∧
  rules (readers_done (snd (release_section k r))) = rules r.
Proof.
  intros Hr. split_and!; [|by apply update_extends|done].
  by apply (update_ok k (λ s, mkSnapshot (snap_rules s) (references s - 1) (retired s))).
Qed.

Lemma replace_ok l r o r' : router_ok r → replace_section l r = (o, r') →
  router_ok r' ∧ extends r r' ∧ match o with None => r' = r | Some _ => rules r' = l end.
Proof.
  intros Hr. unfold replace_section. destruct (rulesClosed r); [by intros [= <- <-]|].
  assert (H : ∃ p r1, match hysteriaRules r with Some k => (k, r) | None => new_snapshot (rules r) r end = (p, r1) ∧
                      router_ok r1 ∧ extends r r1).
  { destruct (hysteriaRules r) as [k|]; [by exists k, r|]. eexists _, _. split; [done|].
    destruct (new_extends (rules r) r _ _ Hr eq_refl) as [He _]. split; [apply (new_ok (rules r) r Hr)|done]. }
  destruct H as (p & r1 & -> & Hr1 & He1).
  pose proof (update_ok p (λ s, mkSnapshot (snap_rules s) (references s) true) r1 (λ _, eq_refl) Hr1) as Hr2.
  pose proof (update_extends p (λ s, mkSnapshot (snap_rules s) (references s) true) r1 (λ _, eq_refl)) as He2.
  destruct (new_extends l _ _ _ Hr2 eq_refl) as [He3 Hs3]. pose proof (new_ok l _ Hr2) as [Hf3 _].
  intros [= <- <-]. split_and!; [|etrans; [exact He1|etrans; [exact He2|exact He3]]|done].
  split; [exact Hf3|]. intros k [= <-]. eauto.
Qed.

(** ** Policies *)

Lemma defined_lookup options users o : valid_options options users → o ∈ Outbounds options →
  defined_outbound options (out_Tag o) = Some (out_Type o, out_Options o).
Proof.
  intros Hv Ho. unfold defined_outbound. pose proof (valid_tags _ _ Hv) as Hnd. revert Ho Hnd.
  induction (Outbounds options) as [|p l IH]; [by intros ?%not_elem_of_nil|].
  simpl. intros Ho [Hp Hnd]%NoDup_cons. case_decide as Ht; simpl.
  - apply elem_of_cons in Ho as [->|Ho]; [done|]. destruct Hp. rewrite Ht. by apply list_elem_of_fmap_2.
  - apply elem_of_cons in Ho as [->|Ho]; [done|]. specialize (IH Ho Hnd).
    destruct (list_find _ l) as [[i q]|]; simpl in *; [done|done].
Qed.

(** An outbound that an unchanged policy routes to is in both options. *)
Lemma policy_outbound previous next users user r :
  valid_options next users → hysteriaUserPolicy previous user = hysteriaUserPolicy next user →
  r ∈ rules_of next → applies user r = true → Action (DefaultOptions r) = "route"%string →
  ∃ o, o ∈ Outbounds previous ∧ o ∈ Outbounds next ∧ out_Tag o = RouteOptions_Outbound (DefaultOptions r).
Proof.
  intros Hv Hp Hr Ha Hact. apply (valid_routes _ _ Hv r Hr) in Hact as Ht.
  apply list_elem_of_fmap in Ht as (o & Etag & Ho). exists o. split; [|done].
  assert (Hin : o ∈ policy_Outbounds (hysteriaUserPolicy next user)).
  { simpl. apply list_elem_of_filter. split; [|done]. unfold route_tags. apply elem_of_list_to_set.
    apply list_elem_of_fmap. exists (strip r). split; [done|]. apply list_elem_of_filter. split; [done|].
    apply list_elem_of_fmap. exists r. split; [done|]. by apply list_elem_of_filter. }
  rewrite <- Hp in Hin. simpl in Hin. by apply list_elem_of_filter in Hin as [_ ?].
Qed.

(** What a plan that is accepted says. *)
Lemma plan_spec loaded inbounds prepared candidates next j : reload_plan loaded inbounds prepared candidates next = Ok j →
  ∃ previous oldUsers nextUsers, loaded = Some previous ∧ validateHysteriaReloadOptions next = Ok () ∧
    hysteria_users previous = Ok oldUsers ∧ hysteria_users next = Ok nextUsers ∧
    j = mkJob previous next (kept_users previous next oldUsers nextUsers) nextUsers.
Proof.
  unfold reload_plan. destruct loaded as [previous|]; [|done].
  intros ([] & Hv & (a & _ & (b & _ & H)%rbind_ok)%rbind_ok)%rbind_ok. destruct (negb _); [done|].
  apply rbind_ok in H as ([] & _ & ([] & _ & H)%rbind_ok). destruct (Inbounds previous); [done|].
  destruct (inbounds !! _) as [[]|]; [|done..].
  apply rbind_ok in H as (o & Ho & (n & Hn & [= <-])%rbind_ok). by exists previous, o, n.
Qed.

(** ** The invariant of a reload *)

(** A server that runs exactly its options. *)
Definition settled {M} (options : Options) (users : list Hysteria2User) (w : @world M) : Prop :=
  hysteriaOptions w = Some options ∧ userMap (service w) = user_map users ∧ sessions_listed (service w) ∧
  router_ok (router w) ∧ rules (router w) = rules_of options ∧
  (∀ o, o ∈ Outbounds options → serves (manager w) o).

Section Invariant.
Context {M : Type}.
Variable conditions_of : fields → M → conditions * option (bool * bool * list (list rule)).
Variable window_admits : fields → M → bool.
Variable apply_action : string → fields → M → option M.
Notation match_rule := (matchRule conditions_of window_admits apply_action).
Notation grant := (granted conditions_of window_admits apply_action).
Notation step := (hstep conditions_of window_admits apply_action).

Context (prev target : Options) (oldUsers newUsers : list Hysteria2User).
Context (Hprev : valid_options prev oldUsers) (Htarget : valid_options target newUsers).
Context (Pprev : plain_rules (rules_of prev) = true) (Ptarget : plain_rules (rules_of target) = true).

Definition keeps : list Hysteria2User := kept_users prev target oldUsers newUsers.
Definition the_job : job := mkJob prev target keeps newUsers.
Definition is_kept (user : string) : Prop := user ∈ Name <$> keeps.

Definition common_served (m : Manager) : Prop :=
  ∀ o, o ∈ Outbounds prev → o ∈ Outbounds target → serves m o.
Definition all_served (options : Options) (m : Manager) : Prop := ∀ o, o ∈ Outbounds options → serves m o.

Definition phase_ok (w : @world M) : Prop :=
  match reload w with
  | Idle => hysteriaOptions w = Some prev ∧ userMap (service w) = user_map oldUsers ∧ rules (router w) = rules_of prev ∧
            all_served prev (manager w)
  | Creating j rest => j = the_job ∧ userMap (service w) = user_map keeps ∧ rules (router w) = rules_of prev ∧
      common_served (manager w) ∧ ∃ ahead, Outbounds target = ahead ++ rest ∧ ∀ o, o ∈ ahead → serves (manager w) o
  | Removing j rest => j = the_job ∧ userMap (service w) = user_map keeps ∧ rules (router w) = rules_of target ∧
      all_served target (manager w)
  | Finished j => j = the_job ∧ userMap (service w) = user_map newUsers ∧ rules (router w) = rules_of target ∧
      all_served target (manager w) ∧ hysteriaOptions w = Some target
  | Aborted j _ => j = the_job ∧ userMap (service w) = user_map keeps ∧
      (rules (router w) = rules_of prev ∨ rules (router w) = rules_of target) ∧ common_served (manager w)
  end.

Definition finished (w : @world M) : Prop := reload w = Finished the_job.

Definition stage_ok (r : Router Rule) (x : @flow M) : Prop :=
  match f_stage x with
  | Accepted => True
  | Reading k => ∃ s, snapshots r !! k = Some s ∧
      (snap_rules s = rules_of target ∨ (is_kept (f_user x) ∧ snap_rules s = rules_of prev))
  | Selected _ selected => stripped selected = stripped (match_rule (f_user x) (f_md x) (rules_of target))
  | Sent e => e = grant target (f_user x) (f_md x)
  end.

Definition flow_ok (w : @world M) (x : flow) : Prop :=
  (f_fenced x = true → is_kept (f_user x) ∨ finished w) ∧
  (f_fenced x = true ∨ is_kept (f_user x) → stage_ok (router w) x).

Record reload_inv (w : @world M) : Prop := {
  ri_router : router_ok (router w);
  ri_sessions : sessions_listed (service w);
  ri_phase : phase_ok w;
  ri_flows : ∀ fid x, flows w !! fid = Some x → flow_ok w x
}.

Lemma kept_policy user : is_kept user → hysteriaUserPolicy prev user = hysteriaUserPolicy target user.
Proof. intros (u & -> & Hu)%list_elem_of_fmap. by apply list_elem_of_filter in Hu as [[_ ?] _]. Qed.

Lemma kept_selects user md : is_kept user →
  stripped (match_rule user md (rules_of prev)) = stripped (match_rule user md (rules_of target)).
Proof. intros Hk. apply policy_selects; [done..|]. by apply kept_policy. Qed.

Lemma phase_common w : phase_ok w → common_served (manager w).
Proof. unfold phase_ok. destruct (reload w); intros ?; destruct_and?; intros o Hp Ht; auto. Qed.

(** What a flow gets once its rule is selected. *)
Lemma send_granted w user md selected : phase_ok w → is_kept user ∨ finished w →
  stripped selected = stripped (match_rule user md (rules_of target)) →
  egress_of (lookup_outbound (manager w)) selected = grant target user md.
Proof.
  intros Hph Hu Hs. rewrite <- egress_stripped, Hs, egress_stripped. unfold granted. apply egress_lookup.
  - intros r md' (Hr & Ha & _)%match_selected Hact; [|done].
    assert (Ho : ∃ o, o ∈ Outbounds target ∧ serves (manager w) o ∧ out_Tag o = RouteOptions_Outbound (DefaultOptions r)).
    { destruct Hu as [Hk|Hfin].
      - destruct (policy_outbound prev target newUsers user r Htarget (kept_policy _ Hk) Hr Ha Hact) as (o & Hop & Hot & E).
        exists o. split_and!; [done| |done]. by apply (phase_common w).
      - unfold phase_ok in Hph. rewrite Hfin in Hph. apply (valid_routes _ _ Htarget r Hr) in Hact as Ht.
        apply list_elem_of_fmap in Ht as (o & E & Ho). exists o. split_and!; [done| |done]. by apply Hph. }
    destruct Ho as (o & Ho & Hse & <-). by rewrite (serves_lookup _ _ Hse), (defined_lookup target newUsers).
  - intros r md' (Hr & _)%match_selected; [|done]. by apply (valid_actions _ _ Htarget).
Qed.

(** The kept accounts get the same from both options. *)
Lemma kept_granted user md : is_kept user → grant prev user md = grant target user md.
Proof.
  intros Hk. unfold granted. rewrite <- egress_stripped, (kept_selects _ _ Hk), egress_stripped. apply egress_lookup.
  - intros r md' (Hr & Ha & _)%match_selected Hact; [|done].
    destruct (policy_outbound prev target newUsers user r Htarget (kept_policy _ Hk) Hr Ha Hact) as (o & Hop & Hot & <-).
    by rewrite (defined_lookup prev oldUsers), (defined_lookup target newUsers).
  - intros r md' (Hr & _)%match_selected; [|done]. by apply (valid_actions _ _ Htarget).
Qed.

(** ** Every step keeps the invariant *)

Lemma stage_extends r r' x : extends r r' → stage_ok r x → stage_ok r' x.
Proof. unfold stage_ok. destruct (f_stage x); try done. intros He (s & (s' & Hs' & E)%He & H). exists s'. by rewrite E. Qed.

(** A step that leaves the reload and the outbounds alone. *)
Lemma quiet_inv w s r fs : reload_inv w → router_ok r → extends (router w) r → rules r = rules (router w) →
  sessions_listed s → userMap s = userMap (service w) →
  (∀ fid x, fs !! fid = Some x → flows w !! fid = Some x ∨
     flow_ok (mkWorld s (manager w) r (hysteriaOptions w) (inbounds w) (reload w) fs) x) →
  reload_inv (mkWorld s (manager w) r (hysteriaOptions w) (inbounds w) (reload w) fs).
Proof.
  intros [Hr Hse Hp Hf] Hr' He Er Hs Eu Hx. constructor; simpl; [done|done| |].
  - revert Hp. unfold phase_ok. simpl. by rewrite Er, Eu.
  - intros fid x [Hold|]%Hx; [|done]. destruct (Hf _ _ Hold) as [H1 H2].
    split; [exact H1|]. intros H. eapply stage_extends; [exact He|]. by apply H2.
Qed.

Lemma set_flow_inv w fid x r : reload_inv w → router_ok r → extends (router w) r → rules r = rules (router w) →
  flow_ok (set_flow fid x r w) x → reload_inv (set_flow fid x r w).
Proof.
  intros Hi Hr He Er Hx. apply quiet_inv; [done..|by destruct Hi|done|].
  intros fid' y. case_key fid fid'; [intros [= <-]; by right|by left].
Qed.

Lemma service_inv w f : reload_inv w → sessions_listed (f (service w)) → userMap (f (service w)) = userMap (service w) →
  reload_inv (set_service f w).
Proof. intros Hi Hs Hu. apply quiet_inv; [done|by destruct Hi|done|done|done|done|]. intros fid x Hx. by left. Qed.

(** The rules a flow can acquire. *)
Lemma phase_rules w (x : @flow M) : phase_ok w → (f_fenced x = true → is_kept (f_user x) ∨ finished w) →
  f_fenced x = true ∨ is_kept (f_user x) →
  rules (router w) = rules_of target ∨ (is_kept (f_user x) ∧ rules (router w) = rules_of prev).
Proof.
  intros Hph Hx Hor. assert (Hu : is_kept (f_user x) ∨ finished w) by (destruct Hor; auto).
  unfold phase_ok, finished in *. destruct Hu as [Hk|Hfin].
  - destruct (reload w); destruct_and?; destruct_or?; auto.
  - rewrite Hfin in Hph. destruct_and?; auto.
Qed.

(** A section of the reload. *)
Lemma reload_section_inv w m r p : reload_inv w → ¬ finished w → router_ok r → extends (router w) r →
  phase_ok (set_reload p m r w) → reload_inv (set_reload p m r w).
Proof.
  intros [Hr Hse Hp Hf] Hn Hr' He Hp'. constructor; simpl; [done..|].
  intros fid x Hx. destruct (Hf _ _ Hx) as [H1 H2]. split.
  - intros Hfe. destruct (H1 Hfe); [by left|done].
  - intros H. eapply stage_extends; [exact He|]. by apply H2.
Qed.

Lemma reload_begin_inv w prepared candidates j : reload_inv w → reload w = Idle →
  reload_plan (hysteriaOptions w) (inbounds w) prepared candidates target = Ok j → reload_inv (begin j w).
Proof.
  intros [Hr Hse Hp Hf] Hidle (p & o & n & Hl & _ & Ho & Hn & ->)%plan_spec.
  unfold phase_ok in Hp. rewrite Hidle in Hp. destruct Hp as (Hopt & Hu & Hrul & Hserve).
  assert (p = prev) as -> by congruence. rewrite (valid_users _ _ Hprev) in Ho. rewrite (valid_users _ _ Htarget) in Hn.
  injection Ho as <-. injection Hn as <-.
  constructor; simpl; [done|apply update_users_listed| |].
  - unfold phase_ok. simpl. split_and!; [done..| |]; [intros q Hq _; by apply Hserve|].
    exists []. split; [done|]. intros q Hq%not_elem_of_nil. done.
  - intros fid x Hx. destruct (Hf _ _ Hx) as [H1 H2]. split; [|exact H2].
    intros [Hk|Hfin]%H1; [by left|]. unfold finished in Hfin. congruence.
Qed.

Lemma create_inv w a o rest : reload_inv w → reload w = Creating the_job (o :: rest) →
  reload_inv (create_section a the_job o rest w).
Proof.
  intros Hi Hre. pose proof (ri_phase _ Hi) as Hp. unfold phase_ok in Hp. rewrite Hre in Hp.
  destruct Hp as (_ & Hu & Hrul & Hcom & ahead & Hal & Hdone).
  assert (Hnf : ¬ finished w) by (unfold finished; by rewrite Hre).
  assert (Hnd : NoDup (out_Tag <$> Outbounds target)) by apply (valid_tags _ _ Htarget).
  assert (Ho : o ∈ Outbounds target) by (rewrite Hal; set_solver).
  assert (Hnext : ∀ m, common_served m → (∀ q, q ∈ ahead → serves m q) → serves m o →
                  reload_inv (set_reload (Creating the_job rest) m (router w) w)).
  { intros m Hc Ha Hs. apply reload_section_inv; [done|done|by destruct Hi|done|]. unfold phase_ok. simpl. split_and!; [done..|].
    exists (ahead ++ [o]). split; [by rewrite <- app_assoc|]. intros q [Hq|Hq]%elem_of_app; [by apply Ha|].
    apply list_elem_of_singleton in Hq as ->. done. }
  assert (Habort : ∀ m f, common_served m → reload_inv (set_reload (Aborted the_job f) m (router w) w)).
  { intros m f Hc. apply reload_section_inv; [done|done|by destruct Hi|done|]. unfold phase_ok. simpl. auto. }
  unfold create_section. simpl. case_bool_decide as Hin; [apply Hnext; auto|].
  destruct (Create _ _ _ (manager w)) as [m|f] eqn:Hc; [|by apply Habort].
  assert (Hother : ∀ q, q ∈ Outbounds target → q ≠ o → serves (manager w) q → serves m q).
  { intros q Hq Hne. eapply Create_serves; [exact Hc|]. intros E. apply Hne.
    apply list_elem_of_lookup in Hq as [i Hq], Ho as [k Hk]. 
    assert (i = k) as ->; [|congruence]. eapply (NoDup_lookup _ i k (out_Tag q) Hnd); rewrite list_lookup_fmap, ?Hq, ?Hk; simpl; by rewrite ?E. }
  assert (Hcom' : common_served m).
  { intros q Hq1 Hq2. apply Hother; [done| |by apply Hcom]. by intros ->. }
  destruct (Manager_Outbound m (out_Tag o)) as [x|] eqn:Hm; [|by apply Habort].
  case_bool_decide as Ht; [|by apply Habort].
  destruct (Create_found _ _ _ _ _ _ Hc Hm Ht) as [Hx Hxo].
  assert (serves m o) as Hso.
  { exists x. split_and!; [done| |done]. by rewrite (valid_types _ _ Htarget o Ho). }
  apply Hnext; [done| |done]. intros q Hq. destruct (decide (q = o)) as [->|Hne]; [done|].
  apply Hother; [rewrite Hal; set_solver|done|by apply Hdone].
Qed.

Lemma rules_inv w a : reload_inv w → reload w = Creating the_job [] → reload_inv (rules_section a the_job w).
Proof.
  intros Hi Hre. pose proof (ri_phase _ Hi) as Hp. unfold phase_ok in Hp. rewrite Hre in Hp.
  destruct Hp as (_ & Hu & Hrul & Hcom & ahead & Hal & Hdone). rewrite app_nil_r in Hal. subst ahead.
  assert (Hnf : ¬ finished w) by (unfold finished; by rewrite Hre).
  unfold rules_section. simpl. destruct (replace_section _ _) as [o r] eqn:Hrep.
  destruct (replace_ok _ _ _ _ (ri_router _ Hi) Hrep) as (Hr & He & Hl).
  destruct o as [[k closing]|].
  - destruct (closing && _); apply reload_section_inv; try done; unfold phase_ok; simpl; auto.
  - subst r. apply reload_section_inv; try done. unfold phase_ok. simpl. auto.
Qed.

Lemma remove_inv w a o rest : reload_inv w → reload w = Removing the_job (o :: rest) →
  reload_inv (remove_section a the_job o rest w).
Proof.
  intros Hi Hre. pose proof (ri_phase _ Hi) as Hp. unfold phase_ok in Hp. rewrite Hre in Hp.
  destruct Hp as (_ & Hu & Hrul & Hall).
  assert (Hnf : ¬ finished w) by (unfold finished; by rewrite Hre).
  assert (Hnext : ∀ m p, all_served target m → p = Removing the_job rest ∨ (∃ f, p = Aborted the_job f) →
                  reload_inv (set_reload p m (router w) w)).
  { intros m p Ha Hp. apply reload_section_inv; [done|done|by destruct Hi|done|]. unfold phase_ok. simpl.
    destruct Hp as [->|[f ->]]; split_and!; try done; [by right|]. intros q _ Hq. by apply Ha. }
  unfold remove_section. case_bool_decide as Hin; [apply Hnext; auto|].
  destruct (Remove _ _ (manager w)) as [m res] eqn:Hrm.
  assert (Hm : all_served target m).
  { intros q Hq. eapply Remove_serves; [exact Hrm| |by apply Hall]. intros E. apply Hin. simpl. rewrite <- E. by apply list_elem_of_fmap_2. }
  destruct res as [[]|f]; apply Hnext; eauto.
Qed.

Lemma commit_inv w : reload_inv w → reload w = Removing the_job [] → reload_inv (commit the_job w).
Proof.
  intros Hi Hre. pose proof (ri_phase _ Hi) as Hp. unfold phase_ok in Hp. rewrite Hre in Hp.
  destruct Hp as (_ & Hu & Hrul & Hall). destruct Hi as [Hr Hse _ Hf].
  constructor; simpl; [done|apply update_users_listed|done|].
  intros fid x Hx. destruct (Hf _ _ Hx) as [H1 H2]. split; [by right|exact H2].
Qed.

Lemma advance_inv w a : reload_inv w → reload_inv (advance a w).
Proof.
  intros Hi. pose proof (ri_phase _ Hi) as Hp. unfold phase_ok in Hp. unfold advance.
  destruct (reload w) as [|j [|o rest]|j [|o rest]|j|j f] eqn:Hre; try done; destruct Hp as [-> _].
  - by apply rules_inv.
  - by apply create_inv.
  - by apply commit_inv.
  - by apply remove_inv.
Qed.

Lemma step_inv w w' : step target w w' → reload_inv w → reload_inv w'.
Proof.
  intros H Hi. destruct H as [w sid Hs|w sid|w sid password|w sid fid user md Hn Hu|w fid x k r Hx Hst Ha|
    w fid x k s Hx Hst Hs|w fid x k selected Hx Hst|w prepared candidates j Hid Hpl|w a].
  - apply service_inv; [done|apply connect_listed; by destruct Hi|done].
  - apply service_inv; [done|apply disconnect_listed; by destruct Hi|done].
  - apply service_inv; [done|apply authenticate_listed; by destruct Hi|apply authenticate_users].
  - apply set_flow_inv; [done|by destruct Hi|done|done|]. split; simpl; [|done]. intros Hfe.
    pose proof (ri_phase _ Hi) as Hp. unfold phase_ok in Hp. unfold finished. simpl.
    destruct (reload w) as [|j rest|j rest|j|j f]; [done|..]; destruct Hp as [-> [Hum _]]; try by right.
    all: left; by eapply stream_listed; [destruct Hi|exact Hum|exact Hu].
  - destruct (acquire_ok _ _ _ (ri_router _ Hi) Ha) as (Hr & He & Er & s & Hs & Es).
    apply set_flow_inv; [done..|]. destruct (ri_flows _ Hi _ _ Hx) as [H1 H2]. split; simpl; [exact H1|].
    intros Hor. unfold stage_ok. simpl. exists s. split; [done|]. rewrite Es.
    by apply (phase_rules w x (ri_phase _ Hi)).
  - apply set_flow_inv; [done|by destruct Hi|done|done|]. destruct (ri_flows _ Hi _ _ Hx) as [H1 H2].
    split; simpl; [exact H1|]. intros Hor. specialize (H2 Hor). unfold stage_ok in *. rewrite Hst in H2. simpl.
    destruct H2 as (s' & Hs' & Hrul). assert (s' = s) as -> by congruence.
    destruct Hrul as [->|[Hk ->]]; [done|by apply kept_selects].
  - destruct (release_ok k (router w) (ri_router _ Hi)) as (Hr & He & Er).
    apply set_flow_inv; [done..|]. destruct (ri_flows _ Hi _ _ Hx) as [H1 H2]. split; simpl; [exact H1|].
    intros Hor. specialize (H2 Hor). unfold stage_ok in *. rewrite Hst in H2. simpl.
    apply send_granted; [apply Hi| |done]. destruct Hor; auto.
  - by eapply reload_begin_inv.
  - by apply advance_inv.
Qed.
End Invariant.

(** ** A reload ends *)

(** The sections that are left. *)
Definition sections_left {M} (w : @world M) : nat :=
  match reload w with
  | Creating j rest => length rest + 1 + (length (Outbounds (previous j)) + 1)
  | Removing _ rest => length rest + 1
  | Idle | Finished _ | Aborted _ _ => 0
  end.

Lemma advance_left {M} (w : @world M) a : (sections_left (advance a w) ≤ sections_left w - 1)%nat.
Proof.
  unfold sections_left at 2, advance.
  destruct (reload w) as [|j [|o rest]|j [|o rest]|j|j f] eqn:Hre; unfold sections_left; rewrite ?Hre; simpl; try lia.
  - unfold rules_section. repeat (case_goal; simpl); lia.
  - unfold create_section. repeat (case_goal; simpl); lia.
  - unfold remove_section. repeat (case_goal; simpl); lia.
Qed.

Lemma advances_left {M} answers (w : @world M) :
  (sections_left (foldl (λ w a, advance a w) w answers) ≤ sections_left w - length answers)%nat.
Proof.
  revert w. induction answers as [|a answers IH]; intros w; simpl; [lia|].
  pose proof (IH (advance a w)). pose proof (advance_left w a). lia.
Qed.

Lemma advance_fenced {M} (w : @world M) a : fenced (reload w) = true → fenced (reload (advance a w)) = true.
Proof.
  unfold advance. destruct (reload w) as [|j [|o rest]|j [|o rest]|j|j f] eqn:Hre; rewrite ?Hre; try done; intros _.
  - unfold rules_section. by repeat (case_goal; simpl).
  - unfold create_section. by repeat (case_goal; simpl).
  - unfold remove_section. by repeat (case_goal; simpl).
Qed.

Lemma advances_fenced {M} answers (w : @world M) :
  fenced (reload w) = true → fenced (reload (foldl (λ w a, advance a w) w answers)) = true.
Proof. revert w. induction answers as [|a answers IH]; intros w; simpl; [done|]. intros ?%(advance_fenced _ a). by apply IH. Qed.

Lemma advances_inv {M} c wd ap prev target us ns (w : @world M) answers :
  valid_options prev us → valid_options target ns → plain_rules (rules_of prev) = true → plain_rules (rules_of target) = true →
  reload_inv c wd ap prev target us ns w → reload_inv c wd ap prev target us ns (foldl (λ w a, advance a w) w answers).
Proof. intros Hp Ht Pp Pt. revert w. induction answers as [|a answers IH]; intros w Hi; [done|]. simpl. apply IH. by apply advance_inv. Qed.

Lemma settled_inv {M} c wd ap prev target us ns (w : @world M) : settled prev us w → reload w = Idle → flows w = ∅ →
  reload_inv c wd ap prev target us ns w.
Proof.
  intros (Ho & Hu & Hs & Hr & Hrul & Hse) Hre Hf. constructor; [done..| |].
  - unfold phase_ok. by rewrite Hre.
  - intros fid x. by rewrite Hf, lookup_empty.
Qed.

Lemma reload_runs_inv {M} c wd ap prev target us ns (w w' : @world M) :
  valid_options prev us → valid_options target ns → plain_rules (rules_of prev) = true → plain_rules (rules_of target) = true →
  rtc (hstep c wd ap target) w w' → reload_inv c wd ap prev target us ns w → reload_inv c wd ap prev target us ns w'.
Proof. intros Hp Ht Pp Pt H. induction H; eauto using step_inv. Qed.

(** ** What a reload guarantees *)


(** a reload ends, and leaves the server in one of three states.  With an
    answer for each of its sections (one per outbound of either options and two
    more) it returns an error before it touched anything, returns success with
    the server running exactly the new options, or fails half-way: then the old
    options are still the ones recorded and only accounts whose policy does not
    change can pass the fence. *)
Theorem reload_ends {M} (w w' : @world M) prev target oldUsers newUsers prepared candidates answers r :
  validateHysteriaReloadOptions prev = Ok () → hysteria_users prev = Ok oldUsers → hysteria_users target = Ok newUsers →
  plain_rules (rules_of prev) = true → plain_rules (rules_of target) = true →
  settled prev oldUsers w → reload w = Idle → flows w = ∅ →
  (length (Outbounds prev) + length (Outbounds target) + 2 ≤ length answers)%nat →
  ReloadHysteria prepared candidates answers target w = (w', r) →
  (∃ f, r = Err f ∧ w' = w) ∨
  (r = Ok () ∧ settled target newUsers w') ∨
  (∃ f j, r = Err f ∧ reload w' = Aborted j f ∧
     ∀ sid user, stream_user sid (service w') = Some user → user ∈ Name <$> kept_users prev target oldUsers newUsers).
Proof.
  intros Hvp Hup Hut Pp Pt Hse Hre Hfl Hlen. unfold ReloadHysteria.
  destruct (reload_plan _ _ _ _ _) as [j|f] eqn:Hplan; [|intros [= <- <-]; by eauto].
  assert (Hj := plan_spec _ _ _ _ _ _ Hplan). destruct Hj as (p & o & n & Hl & Hvt & Ho & Hn & Hj).
  destruct Hse as [Hopt Hse]. assert (p = prev) as -> by congruence.
  assert (o = oldUsers) as -> by congruence. assert (n = newUsers) as -> by congruence. subst j.
  assert (Hp : valid_options prev oldUsers) by (destruct (validate_spec _ Hvp) as [us Hv]; pose proof (valid_users _ _ Hv); congruence).
  assert (Ht : valid_options target newUsers) by (destruct (validate_spec _ Hvt) as [us Hv]; pose proof (valid_users _ _ Hv); congruence).
  assert (Hi := settled_inv (λ _ _, (ex_none, None)) (λ _ _, true) (λ _ _ m, Some m) prev target oldUsers newUsers w
                  (conj Hopt Hse) Hre Hfl).
  apply (reload_begin_inv _ _ _ prev target oldUsers newUsers Hp Ht) with (2 := Hre) (3 := Hplan) in Hi.
  apply (advances_inv _ _ _ prev target oldUsers newUsers _ answers Hp Ht Pp Pt) in Hi.
  pose proof (advances_left answers (begin (mkJob prev target (kept_users prev target oldUsers newUsers) newUsers) w)) as Hz.
  unfold sections_left at 2 in Hz. simpl in Hz. intros [= <- <-]. right.
  pose proof (advances_fenced answers (begin (mkJob prev target (kept_users prev target oldUsers newUsers) newUsers) w) eq_refl) as Hfe.
  revert Hi Hz Hfe. generalize (foldl (λ w a, advance a w) (begin (mkJob prev target (kept_users prev target oldUsers newUsers) newUsers) w) answers).
  intros v Hi Hz Hfe. pose proof (ri_phase _ _ _ _ _ _ _ _ Hi) as Hph. unfold phase_ok, sections_left in *.
  destruct (reload v) as [|j rest|j rest|j|j f] eqn:Hv; [done|lia|lia|left|right].
  - destruct Hph as (_ & Hu & Hr & Hs & Ho'). split; [done|]. by destruct Hi.
  - destruct Hph as (_ & Hu & _). eexists _, _. split_and!; [done..|]. intros sid user Hst.
    eapply stream_listed; [|exact Hu|exact Hst]. by destruct Hi.
Qed.

(** ** An example

    Two accounts; the reload moves the second to another outbound. *)
Module Example.
Definition conditions_of (f : fields) (md : string) : conditions * option (bool * bool * list (list rule)) :=
  (mkConditions (match f !! "domain"%string with Some d => [λ _ _, bool_decide (d = md)] | None => [] end) [] [] [] [] [], None).
Definition window_admits (f : fields) (md : string) : bool := true.
Definition apply_action (action : string) (f : fields) (md : string) : option string := Some md.

Definition alice : Hysteria2User := mkUser "alice" "pa".
Definition bob : Hysteria2User := mkUser "bob" "pb".
Definition account_rule (users : list string) (invert : bool) (tag : string) : Rule :=
  mkRule "default" (mkDefaultRule users invert None ∅ "route" tag "" ∅) ∅.
Definition out (tag : string) (f : fields) : Outbound := mkOutbound "direct" tag f.
Definition bound (address : string) : fields := {[ "inet4_bind_address"%string := address ]}.

Definition server (rules : list Rule) (outbounds : list Outbound) : Options :=
  mkOptions [] ∅ [mkInbound "hysteria2" "hy" (Hysteria2InboundOptions [alice; bob] ∅)] outbounds
    (Some (mkRoute rules ∅)) (Some (mkExperimental true ∅)) ∅.

Definition old_options : Options :=
  server [account_rule ["alice"%string] false "a"; account_rule ["bob"%string] false "b"] [out "a" ∅; out "b" ∅].
Definition new_options : Options :=
  server [account_rule ["alice"%string] false "a"; account_rule ["bob"%string] false "c"] [out "a" ∅; out "c" (bound "192.0.2.1")].

(** A server started with options, both accounts connected. *)
Definition objects (l : list Outbound) : list object := imap (λ i o, mkObject i (out_Type o) (out_Tag o) (out_Options o) []) l.
Definition started_manager (final : string) (l : list Outbound) : Manager :=
  mkManager final true (objects l) (list_to_map ((λ o, (o_Tag o, o)) <$> objects l)) ∅ (head (objects l)) ∅.
Definition started_world (options : Options) : @world string :=
  mkWorld (mkService (user_map [alice; bob])
             {[ 1%nat := mkSession true "alice" "pa" false; 2%nat := mkSession true "bob" "pb" false ]})
    (started_manager "" (Outbounds options)) (NewRouter (rules_of options)) (Some options) {[ "hy"%string := true ]} Idle ∅.

Definition good : answer := mkAnswer (mkCreation 7 true true [] true true) true true.

Lemma old_settled : settled old_options [alice; bob] (started_world old_options).
Proof.
  split_and!; [done|done| | |done|].
  - intros sid x. simpl. rewrite lookup_insert_Some, lookup_singleton_Some.
    intros [(<- & <-)|(? & <- & <-)]; simpl; vm_compute; done.
  - split; [intros k Hk; apply lookup_empty|done].
  - intros o Ho. simpl in Ho. rewrite !elem_of_cons in Ho. destruct Ho as [->|[->|Ho%not_elem_of_nil]]; [eexists; split_and!; reflexivity..|done].
Qed.

(** A flow of the first account is admitted, the reload fences, the flow reads
    the old rules, the reload replaces outbounds and rules, the flow is sent. *)
Definition plan : job := mkJob old_options new_options [alice] [alice; bob].
Definition w1 : @world string := set_flow 1 (mkFlow "alice" "x" false Accepted) (router (started_world old_options)) (started_world old_options).
Definition w2 : @world string := begin plan w1.
Definition w3 : @world string :=
  set_flow 1 (mkFlow "alice" "x" false (Reading 0)) (snd (acquireHysteriaRules (router w2))) w2.
Definition w4 : @world string := advance good (advance good (advance good w3)).
Definition w5 : @world string :=
  set_flow 1 (mkFlow "alice" "x" false
    (Selected 0 (matchRule conditions_of window_admits apply_action "alice" "x" (rules_of old_options)))) (router w4) w4.
Definition w6 : @world string :=
  set_flow 1 (mkFlow "alice" "x" false
    (Sent (egress_of (lookup_outbound (manager w5)) (matchRule conditions_of window_admits apply_action "alice" "x" (rules_of old_options)))))
    (readers_done (snd (release_section 0 (router w5)))) w5.

Lemma example_run : rtc (hstep conditions_of window_admits apply_action new_options) (started_world old_options) w6.
Proof.
  eapply rtc_l; [apply (h_admit _ _ _ _ (started_world old_options) 1 1 "alice"%string "x"%string); reflexivity|].
  eapply rtc_l; [apply (h_begin _ _ _ _ w1 (Ok ()) (Ok ()) plan); vm_compute; reflexivity|].
  eapply rtc_l; [apply (h_acquire _ _ _ _ w2 1 (mkFlow "alice" "x" false Accepted) 0); reflexivity|].
  do 3 (eapply rtc_l; [apply (h_advance _ _ _ _ _ good)|]).
  eapply rtc_l; [apply (h_match _ _ _ _ w4 1 (mkFlow "alice" "x" false (Reading 0)) 0 (mkSnapshot (rules_of old_options) 1 true)); vm_compute; reflexivity|].
  eapply rtc_l; [eapply (h_send _ _ _ _ w5 1); reflexivity|]. apply rtc_refl.
Qed.
End Example.


Lemma reload_ends_witness :
  settled Example.new_options [Example.alice; Example.bob]
    (fst (ReloadHysteria (Ok ()) (Ok ()) (replicate 6 Example.good) Example.new_options (Example.started_world Example.old_options))).
Proof.
  destruct (reload_ends (Example.started_world Example.old_options)
    (fst (ReloadHysteria (Ok ()) (Ok ()) (replicate 6 Example.good) Example.new_options (Example.started_world Example.old_options)))
    Example.old_options Example.new_options [Example.alice; Example.bob] [Example.alice; Example.bob] (Ok ()) (Ok ())
    (replicate 6 Example.good) (Ok ()) eq_refl eq_refl eq_refl eq_refl eq_refl Example.old_settled eq_refl eq_refl)
    as [(f & Hf & _)|[(_ & Hs)|(f & j & Hf & _)]].
  - vm_compute. lia.
  - vm_compute. reflexivity.
  - discriminate Hf.
  - exact Hs.
  - discriminate Hf.
Defined.

(** ** Where the code stops short

    The comment over the fence promises that changed permissions are fenced
    before anything new is reachable.  Three changes escape it. *)

(** A rule inverted over accounts concerns the accounts it does not name, but is
    no part of their policy: the second account is kept although the reload sends
    it elsewhere.  Hence [plain_rules] in the theorems. *)
Lemma inverted_rule_unfenced :
  let rule tag := Example.account_rule ["alice"%string] true tag in
  let outs := [Example.out "a" ∅; Example.out "b" (Example.bound "192.0.2.1")] in
  let prev := Example.server [rule "a"%string] outs in
  let target := Example.server [rule "b"%string] outs in
  let grant options := granted Example.conditions_of Example.window_admits Example.apply_action options "bob" "x" in
  validateHysteriaReloadOptions prev = Ok () ∧ validateHysteriaReloadOptions target = Ok () ∧
  Example.bob ∈ kept_users prev target [Example.alice; Example.bob] [Example.alice; Example.bob] ∧
  grant prev = Via "direct" ∅ "x"%string ∧ grant target = Via "direct" (Example.bound "192.0.2.1") "x"%string.
Proof. vm_compute. split_and!; try reflexivity. by left. Qed.

(** The default outbound is no part of a policy either, and without a final tag
    the manager keeps the object that was replaced, and closed, as its default. *)
Lemma default_outbound_stale :
  let prev := Example.server [] [Example.out "a" ∅] in
  let target := Example.server [] [Example.out "a" (Example.bound "192.0.2.1")] in
  let '(w, r) := ReloadHysteria (Ok ()) (Ok ()) (replicate 4 Example.good) target (Example.started_world prev) in
  r = Ok () ∧ o_id <$> defaultOutbound (manager w) = Some 0%nat ∧ o_id <$> outbounds (manager w) = [7%nat].
Proof. vm_compute. done. Qed.

(** The loop over the outbounds compares with the recorded options, not with what
    runs: after a reload that failed past the loop, loading the old options again
    succeeds but leaves the outbound of the failed reload in place. *)
Lemma rollback_outbound_stale :
  let prev := Example.server [Example.account_rule [] false "a"] [Example.out "a" ∅] in
  let target := Example.server [Example.account_rule [] false "a"] [Example.out "a" (Example.bound "192.0.2.1")] in
  let broken := mkAnswer (creates Example.good) false true in
  let '(w, r) := ReloadHysteria (Ok ()) (Ok ()) [Example.good; broken] target (Example.started_world prev) in
  let '(w', r') := ReloadHysteria (Ok ()) (Ok ()) (replicate 4 Example.good) prev w in
  r = Err (Failed "close") ∧ r' = Ok () ∧ hysteriaOptions w' = Some prev ∧
  lookup_outbound (manager w') "a" = Some ("direct"%string, Example.bound "192.0.2.1").
Proof. vm_compute. done. Qed.
