(* ===== verification/LocalDpi.v ===== *)
(** * The local DPI-circumvention outbound

    Models [engine/sing-box/protocol/pokrov/localdpi/outbound.go], [conn.go] and
    [runtime_retry.go]: an outbound that offloads eligible TCP flows to a local
    strategy while its admission is ready, falls back to the protected VPN at
    most once per flow, and retires the strategy on the first failure it
    observes before any response.

    As in the other outbounds, every critical section is one definition.  The
    channel that announces the resolution of an admission and the withdrawal
    contexts are objects: closing a closed channel panics in Go, which the
    state records in [panicked]. *)

From stdpp Require Import base list strings gmap relations.
From Stdlib Require Import ZArith Lia Ascii.
From S2P Require Import Prelude GoTime GoBytes GoNetip GraphWalk UrlTestHistory.

Local Open Scope Z_scope.

Definition setupTimeout : Z := 5 * Second.
Definition firstResponseTimeout : Z := 5 * Second.
Definition errScope : string := "local_dpi_scope_invalid".
Definition errClosed : string := "local_dpi_closed".
Definition errUnavailable : string := "local_dpi_admission_unavailable".

(** ** State *)

Inductive admission_state := Unpublished | Ready | Failed | Withdrawn.

#[export] Instance admission_state_eq_dec : EqDecision admission_state.
Proof. solve_decision. Defined.

Inductive admissionFailure :=
| ConnectTimeoutIPv4 | ConnectTimeoutIPv6 | ConnectErrorIPv4 | ConnectErrorIPv6 | EarlyRead | EarlyWrite.

#[export] Instance admissionFailure_eq_dec : EqDecision admissionFailure.
Proof. solve_decision. Defined.

(** [closeOnce] is whether the closing work of the flow was done. *)
Record flow := mkFlow { remote : option nat; fclosed : bool; local : bool; closeOnce : bool }.

#[export] Instance eta_flow : Eta flow := λ f, mkFlow (remote f) (fclosed f) (local f) (closeOnce f).

(** [admissionResolved] and [withdrawCtx] name the channel and the context. *)
Record Outbound := mkOutbound {
  tag : string;
  vpnTag : string;
  vpn : option string;
  serviceID : string;
  preferTCP : bool;
  windowsDirect : bool;
  admissionID : string;
  admission : admission_state;
  admissionResolved : nat;
  admissionDeadline : time;
  withdrawCtx : nat;
  closed : bool;
  retryPrepared : bool;
  flows : gset nat;
  withdrawCompleted : bool;
  localHandoffs : Z;
  vpnHandoffs : Z;
  quicRejected : Z;
  failureReason : option admissionFailure
}.

#[export] Instance eta_Outbound : Eta Outbound := λ h,
  mkOutbound (tag h) (vpnTag h) (vpn h) (serviceID h) (preferTCP h) (windowsDirect h) (admissionID h)
    (admission h) (admissionResolved h) (admissionDeadline h) (withdrawCtx h) (closed h) (retryPrepared h)
    (flows h) (withdrawCompleted h) (localHandoffs h) (vpnHandoffs h) (quicRejected h) (failureReason h).

(** The outbound with its flow objects, the closed channels, the cancelled
    withdrawal contexts, the closed connections, the next free name, and
    whether the runtime's own context, the parent of every withdrawal context,
    is over. *)
Record world := mkWorld {
  ob : Outbound;
  heap : gmap nat flow;
  resolved : gset nat;
  cancelled : gset nat;
  shut : gset nat;
  next : nat;
  runtimeErr : bool;
  panicked : bool
}.

#[export] Instance eta_world : Eta world := λ w,
  mkWorld (ob w) (heap w) (resolved w) (cancelled w) (shut w) (next w) (runtimeErr w) (panicked w).

(** ** Construction *)

Record dpiOptions := mkDpiOptions {
  o_Server : bytes;
  o_ServerPort : Z;
  o_Detour : string;
  o_BindInterface : string;
  o_VPNOutbound : string;
  o_ServiceID : string;
  o_PreferTCP : bool;
  o_WindowsDirect : bool
}.

(** [windows] is [runtime.GOOS], [managers] whether the context has both
    managers, [transport] the error of the dialer, [identity] the random
    admission id. *)
Definition NewOutbound (tg : string) (o : dpiOptions) (windows managers : bool) (transport : option string)
    (identity : result string string) : result string world :=
  if bool_decide (tg = "") || bool_decide (o_ServiceID o = "") || bool_decide (o_VPNOutbound o = "") ||
     bool_decide (o_VPNOutbound o = tg) || negb (bool_decide (o_Detour o = "")) ||
     (o_PreferTCP o && negb (bool_decide (o_ServiceID o = "youtube")))
  then Err errScope
  else if (if o_WindowsDirect o
           then negb windows || bool_decide (o_BindInterface o = "") || negb (bool_decide (o_Server o = [])) ||
                negb (o_ServerPort o =? 0)
           else match ParseAddr (o_Server o) with
                | None => true
                | Some server => negb (IsLoopback server) || (o_ServerPort o =? 0)
                end)
  then Err errScope
  else if negb managers then Err errScope
  else match transport with
       | Some e => Err e
       | None =>
           let? id := identity in
           Ok (mkWorld
                 (mkOutbound tg (o_VPNOutbound o) None (o_ServiceID o) (o_PreferTCP o) (o_WindowsDirect o)
                    id Unpublished 0 zero_time 1 false false ∅ false 0 0 0 None)
                 ∅ ∅ ∅ ∅ 2 false false)
       end.

(** ** Flows ([conn.go]) *)

Definition attach (f r : nat) (w : world) : bool * world :=
  match heap w !! f with
  | None => (false, w)
  | Some fl =>
      if fclosed fl then (false, w <| shut ::= union {[r]} |>)
      else (true, w <| heap := <[f := fl <| remote := Some r |>]> (heap w) |>)
  end.

Definition opt_set (r : option nat) : gset nat := match r with Some c => {[c]} | None => ∅ end.

Definition flow_close (f : nat) (w : world) : world :=
  match heap w !! f with
  | None => w
  | Some fl =>
      let w1 := w <| heap := <[f := fl <| fclosed := true |> <| closeOnce := true |>]> (heap w) |> in
      if closeOnce fl then w1 else w1 <| shut ::= union (opt_set (remote fl)) |>
  end.

Definition is_local (w : world) (f : nat) : bool := from_option local false (heap w !! f).

(** ** Admission *)

Definition failAdmission (expectedID : string) (reason : admissionFailure) (w : world) : world :=
  if bool_decide (expectedID = admissionID (ob w)) && bool_decide (admission (ob w) = Ready)
  then w <| ob ::= λ h, h <| admission := Failed |> <| failureReason := Some reason |> |>
  else w.

Definition close_channel (c : nat) (w : world) : world :=
  if bool_decide (c ∈ resolved w) then w <| panicked := true |> else w <| resolved ::= union {[c]} |>.

Definition AdmitAdmission (expectedID : string) (w : world) : bool * world :=
  let h := ob w in
  if closed h || negb (bool_decide (expectedID = admissionID h)) || negb (bool_decide (admission h = Unpublished))
  then (false, w)
  else (true, close_channel (admissionResolved h) (w <| ob := h <| admission := Ready |> |>)).

(** The first section of [WithdrawAdmission]: the context it cancels and the
    flows it closes next. *)
Definition withdraw_section (expectedID : string) (w : world) : option (nat * list nat) * world :=
  let h := ob w in
  if negb (bool_decide (expectedID = admissionID h)) then (None, w)
  else if bool_decide (admission h = Withdrawn) then (None, w)
  else
    let w := w <| ob := h <| admission := Withdrawn |> |> in
    let w := if bool_decide (admission h = Unpublished) then close_channel (admissionResolved h) w else w in
    (Some (withdrawCtx h, List.filter (is_local w) (elements (flows h))), w).

Definition cancel_ctx (c : nat) (w : world) : world := w <| cancelled ::= union {[c]} |>.

(** One flow, closed under the lock if it is still local. *)
Definition close_local (f : nat) (w : world) : world := if is_local w f then flow_close f w else w.

Definition withdraw_done (expectedID : string) (w : world) : world :=
  if bool_decide (admissionID (ob w) = expectedID)
  then w <| ob ::= λ h, h <| withdrawCompleted := true |> |> else w.

Definition WithdrawAdmission (expectedID : string) (w : world) : bool * world :=
  match withdraw_section expectedID w with
  | (None, w) => (false, w)
  | (Some (ctx, fs), w) =>
      (true, withdraw_done expectedID (foldl (λ w f, close_local f w) (cancel_ctx ctx w) fs))
  end.

Definition IsReady (w : world) : bool := bool_decide (admission (ob w) = Ready).

Record Observation := mkObservation {
  State : string;
  o_withdrawCompleted : bool;
  o_local : Z;
  o_vpn : Z;
  o_quic : Z;
  FailureReason : string
}.

Definition state_name (s : admission_state) : string :=
  match s with Unpublished => "unpublished" | Ready => "ready" | Failed => "failed" | Withdrawn => "withdrawn" end.
Definition failure_name (r : option admissionFailure) : string :=
  match r with
  | None => "none"
  | Some ConnectTimeoutIPv4 => "connect_timeout_ipv4"
  | Some ConnectTimeoutIPv6 => "connect_timeout_ipv6"
  | Some ConnectErrorIPv4 => "connect_error_ipv4"
  | Some ConnectErrorIPv6 => "connect_error_ipv6"
  | Some EarlyRead => "early_read"
  | Some EarlyWrite => "early_write"
  end.

Definition ReadObservation (w : world) : Observation :=
  let h := ob w in
  mkObservation (state_name (admission h)) (withdrawCompleted h) (localHandoffs h) (vpnHandoffs h)
    (quicRejected h) (failure_name (failureReason h)).

Definition Close_section (w : world) : string * list nat * world :=
  (admissionID (ob w), elements (flows (ob w)), w <| ob ::= λ h, h <| closed := true |> |>).

Definition Close (w : world) : world :=
  let '(id, fs, w) := Close_section w in
  foldl (λ w f, flow_close f w) (WithdrawAdmission id w).2 fs.

(** ** The protected fallback *)

(** An outbound as the manager shows it; the manager registers it under its
    own tag.  [n_carrier] marks the DNS carriers ([dnstt], [slipstream]). *)
Record node := mkNode { n_type : string; n_deps : list string; n_h2 : bool; n_carrier : bool }.

Definition TypeNaive := "naive".
Definition TypeVLESS := "vless".
Definition is_exit (t : string) : bool :=
  bool_decide (t ∈ ["vless"; "hysteria2"; "wireguard"; "awg"]).
Definition is_group (t : string) : bool :=
  bool_decide (t ∈ ["selector"; "urltest"; "pokrov-ats-lease"]).

(** The recursion follows dependencies with the tags of the current path in
    [seen]; it ends because a tag on the path is refused, so the number of tags
    bounds its depth. *)
Fixpoint protectedFallback (fuel : nat) (mgr : gmap string node) (target : string) (seen : gset string) : bool :=
  match fuel with
  | O => false
  | S fuel =>
      match mgr !! target with
      | None => false
      | Some n =>
          if bool_decide (target ∈ seen) then false
          else if bool_decide (n_type n = TypeNaive) then n_h2 n
          else if is_exit (n_type n) || (is_group (n_type n) && negb (bool_decide (n_deps n = []))) then
            forallb (λ d,
              match mgr !! d with
              | None => false
              | Some c =>
                  if bool_decide (n_type n = TypeVLESS) && n_carrier c then true
                  else protectedFallback fuel mgr d ({[target]} ∪ seen)
              end) (n_deps n)
          else false
      end
  end.

Definition fallback_fuel (mgr : gmap string node) : nat := S (size mgr).

Definition Start (mgr : gmap string node) (now : time) (w : world) : result string unit * world :=
  if negb (protectedFallback (fallback_fuel mgr) mgr (vpnTag (ob w)) ∅) then (Err errScope, w)
  else (Ok tt, w <| ob ::= λ h, h <| vpn := Some (vpnTag h) |>
          <| admissionDeadline := if IsZero (admissionDeadline h) then Add now setupTimeout else admissionDeadline h |> |>).

(** ** Connections *)

Definition ctx_over (c : nat) (w : world) : bool := bool_decide (c ∈ cancelled w) || runtimeErr w.

(** [waitAdmission]: [env] is what happens while it waits, [ctxErr] the state of
    the caller's context afterwards. *)
Definition waitAdmission (env : world → world) (ctxErr : bool) (w : world) : option string * world :=
  if closed (ob w) then (Some errClosed, w)
  else
    let id := admissionID (ob w) in
    let ctx := withdrawCtx (ob w) in
    let w := env w in
    if ctxErr then (Some "context", w)
    else if closed (ob w) ||
            (bool_decide (id = admissionID (ob w)) && ctx_over ctx w && negb (bool_decide (admission (ob w) = Withdrawn)))
    then (Some errClosed, w)
    else (None, w).

Inductive packet_result := PacketRefused (err : string) | PacketVPN.

Definition packet_section (prefer : bool) (w : world) : packet_result * world :=
  if closed (ob w) then (PacketRefused errClosed, w)
  else if prefer && IsReady w
  then (PacketRefused "connection refused", w <| ob ::= λ h, h <| quicRejected ::= λ n, u64 (n + 1) |> |>)
  else (PacketVPN, w).

Definition NewPacketConnection (port : Z) (env : world → world) (ctxErr : bool) (w : world)
    : packet_result * world :=
  let prefer := preferTCP (ob w) && bool_decide (serviceID (ob w) = "youtube") && (port =? 443) in
  if prefer then
    match waitAdmission env ctxErr w with
    | (Some e, w) => (PacketRefused e, w)
    | (None, w) => packet_section prefer w
    end
  else packet_section prefer w.

(** What a connection brings.  [c_ctx k] is whether the flow's context is over
    and [c_env k] the interference at checkpoint [k]; the local dial returns a
    connection or an error (possibly with a connection), and leaves an error of
    the setup context. *)
Inductive setup_err := SetupDeadline | SetupCanceled.
Inductive dial_outcome := Dialled (r : nat) | DialFailed (r : option nat) (e : goerr).

Record conn_input := mkConn {
  c_tcp : bool;
  c_port : Z;
  c_addr : addr;
  c_ctx : nat → bool;
  c_env : nat → world → world;
  c_dial : dial_outcome;
  c_setup : option setup_err;
  c_vpn : result string nat
}.

Definition c_remote (c : conn_input) : option nat :=
  match c_dial c with Dialled r => Some r | DialFailed r _ => r end.
Definition c_err (c : conn_input) : option goerr :=
  match c_dial c with Dialled _ => None | DialFailed _ e => Some e end.

Definition eligible (c : conn_input) : bool :=
  c_tcp c && (c_port c =? 443) && IsGlobalUnicast (c_addr c) && negb (IsPrivate (c_addr c)) && negb (Is4In6 (c_addr c)).

Inductive conn_result := Refused (err : string) | ToVPN (r : nat) | ToLocal (r : nat).

(** The dials a connection made. *)
Inductive dial_kind := LocalDial | VpnDial.

Definition open_flow (elig : bool) (w : world) : option nat * world :=
  if closed (ob w) then (None, w)
  else
    let f := next w in
    (Some f, w <| heap ::= insert f (mkFlow None false (elig && IsReady w) false) |> <| next := S f |>
               <| ob ::= λ h, h <| flows ::= union {[f]} |> |>).

(** The closing handler of a flow. *)
Definition finish (f : nat) (w : world) : world :=
  (flow_close f w) <| ob ::= λ h, h <| flows ::= λ s, s ∖ {[f]} |> |>.

Definition set_local (f : nat) (b : bool) (w : world) : world :=
  w <| heap ::= alter (λ fl, fl <| local := b |>) f |>.

Definition shut_opt (r : option nat) (w : world) : world := w <| shut ::= union (opt_set r) |>.

Definition connectVPN (c : conn_input) (f : nat) (w : world) : conn_result * list dial_kind * world :=
  let w := set_local f false w in
  if c_ctx c 5%nat then (Refused "context", [], finish f (c_env c 5%nat w))
  else
    let w := c_env c 6%nat w in
    match c_vpn c with
    | Err e => (Refused e, [VpnDial], finish f w)
    | Ok r =>
        match attach f r w with
        | (false, w) => (Refused errUnavailable, [VpnDial], finish f w)
        | (true, w) => (ToVPN r, [VpnDial], (c_env c 7%nat w) <| ob ::= λ h, h <| vpnHandoffs ::= λ n, u64 (n + 1) |> |>)
        end
    end.

(** The section that hands a local connection over. *)
Definition attach_section (f r : nat) (id : string) (ctxErr : bool) (w : world) : bool * world :=
  if negb (closed (ob w)) && bool_decide (admissionID (ob w) = id) && IsReady w && negb ctxErr then
    match attach f r w with
    | (true, w) => (true, w <| ob ::= λ h, h <| localHandoffs ::= λ n, u64 (n + 1) |> |>)
    | (false, w) => (false, w)
    end
  else (false, w).

Definition is_timeout (c : conn_input) : bool :=
  match c_setup c with Some SetupDeadline => true | _ => false end ||
  match c_err c with
  | Some e => existsb is_deadline e || default false (as_net_timeout e)
  | None => false
  end.

Definition connect_failure (c : conn_input) : admissionFailure :=
  match is_timeout c, Is4 (c_addr c) with
  | true, true => ConnectTimeoutIPv4
  | true, false => ConnectTimeoutIPv6
  | false, true => ConnectErrorIPv4
  | false, false => ConnectErrorIPv6
  end.

(** The part of [NewConnection] after the local path was chosen. *)
Definition connect_local (c : conn_input) (f : nat) (id : string) (ctx : nat) (w : world)
    : conn_result * list dial_kind * world :=
  let w := c_env c 2%nat w in
  if c_ctx c 2%nat || ctx_over ctx w || from_option (existsb is_canceled) false (c_err c)
  then (Refused errUnavailable, [LocalDial], finish f (shut_opt (c_remote c) w))
  else
    match c_dial c, c_setup c with
    | DialFailed _ _, _ | _, Some SetupDeadline =>
        let w := c_env c 3%nat (failAdmission id (connect_failure c) (shut_opt (c_remote c) w)) in
        if negb (bool_decide (admissionID (ob w) = id)) || bool_decide (admission (ob w) = Withdrawn) || ctx_over ctx w
        then (Refused errUnavailable, [LocalDial], finish f w)
        else let '(r, ds, w) := connectVPN c f w in (r, LocalDial :: ds, w)
    | Dialled r, _ =>
        match attach_section f r id (c_ctx c 4%nat) (c_env c 4%nat w) with
        | (false, w) => (Refused errUnavailable, [LocalDial], finish f (shut_opt (Some r) w))
        | (true, w) => (ToLocal r, [LocalDial], w)
        end
    end.

Definition NewConnection (c : conn_input) (w : world) : conn_result * list dial_kind * world :=
  let elig := eligible c in
  match open_flow elig w with
  | (None, w) => (Refused errClosed, [], w)
  | (Some f, w) =>
      if c_ctx c 0%nat then (Refused "context", [], finish f (c_env c 0%nat w))
      else if elig then
        match waitAdmission (c_env c 0%nat) (c_ctx c 1%nat) w with
        | (Some e, w) => (Refused e, [], finish f w)
        | (None, w) =>
            let w := c_env c 1%nat w in
            if closed (ob w) then (Refused errClosed, [], finish f w)
            else
              let ready := IsReady w in
              let w := set_local f ready w in
              if ready then connect_local c f (admissionID (ob w)) (withdrawCtx (ob w)) w
              else connectVPN c f w
        end
      else connectVPN c f w
  end.

(** ** Observed connections *)

Record observedConn := mkObserved {
  oc_admissionID : string;
  callerReadDeadline : time;
  firstResponseDeadline : time;
  wrote : bool;
  responded : bool;
  oc_closed : bool;
  conn_deadline : time
}.

#[export] Instance eta_observedConn : Eta observedConn := λ c,
  mkObserved (oc_admissionID c) (callerReadDeadline c) (firstResponseDeadline c) (wrote c) (responded c)
    (oc_closed c) (conn_deadline c).

Definition effectiveReadDeadline (c : observedConn) (caller : time) : time :=
  if negb (IsZero (firstResponseDeadline c)) && (IsZero caller || Before (firstResponseDeadline c) caller)
  then firstResponseDeadline c else caller.

(** [SetReadDeadline] of the underlying connection records the deadline unless
    it fails. *)
Definition setCallerReadDeadline (deadline : time) (err : option string) (c : observedConn)
    : option string * observedConn :=
  match err with
  | Some e => (Some e, c)
  | None => (None, c <| conn_deadline := effectiveReadDeadline c deadline |> <| callerReadDeadline := deadline |>)
  end.

Definition SetDeadline (deadline : time) (readErr writeErr : option string) (c : observedConn)
    : option string * observedConn :=
  match setCallerReadDeadline deadline readErr c with
  | (Some e, c) => (Some e, c)
  | (None, c) => (writeErr, c)
  end.

Definition observe (err : option goerr) (reason : admissionFailure) (ctxErr : bool) (c : observedConn) (w : world)
    : world :=
  match err with
  | Some e =>
      if negb (responded c) && negb (oc_closed c) && negb ctxErr && negb (existsb is_canceled e) &&
         negb (existsb is_deadline e)
      then failAdmission (oc_admissionID c) reason w else w
  | None => w
  end.

(** [Read]: [n] and [err] are what the connection returned. *)
Definition oc_Read (n : Z) (err : option goerr) (ctxErr : bool) (c : observedConn) (w : world)
    : Z * option goerr * observedConn * world :=
  let c := if (0 <? n) && negb (responded c) then
             let c' := c <| responded := true |> in
             if negb (IsZero (firstResponseDeadline c))
             then c' <| firstResponseDeadline := zero_time |> <| conn_deadline := callerReadDeadline c |>
             else c'
           else c in
  (n, err, c, if wrote c then observe err EarlyRead ctxErr c w else w).

(** [Write] of [len] bytes: the deadline is armed on the first payload. *)
Definition oc_Write (len : Z) (now : time) (deadlineErr : option goerr) (n : Z) (err : option goerr)
    (ctxErr : bool) (c : observedConn) (w : world) : Z * result string (option goerr) * observedConn * world :=
  if negb (bool_decide (admissionID (ob w) = oc_admissionID c)) || bool_decide (admission (ob w) = Withdrawn) || ctxErr
  then (0, Err errUnavailable, c, w)
  else
    let first := (0 <? len) && negb (wrote c) in
    let arm := first && negb (responded c) in
    let c := if first then c <| wrote := true |> else c in
    let c := if arm then c <| firstResponseDeadline := Add now firstResponseTimeout |> else c in
    let failed := if arm then deadlineErr else None in
    match failed with
    | Some e => (0, Ok (Some e), c, observe (Some e) EarlyWrite ctxErr c w)
    | None =>
        let c := if arm then c <| conn_deadline := effectiveReadDeadline c (callerReadDeadline c) |> else c in
        (n, Ok err, c, if wrote c then observe err EarlyWrite ctxErr c w else w)
    end.

Definition oc_Close (c : observedConn) : observedConn := c <| oc_closed := true |>.

(** ** The Windows retry ([runtime_retry.go]) *)

(** The test of one holder under the locks; [ids] are the ids seen so far. *)
Definition retry_holder (expected : string) (ids : gset string) (w : world) : bool :=
  let h := ob w in
  windowsDirect h && negb (closed h) && negb (retryPrepared h) && negb (runtimeErr w) &&
  bool_decide (admissionID h = expected) &&
  (bool_decide (admission h = Ready) || bool_decide (admission h = Failed)) &&
  negb (bool_decide (expected ∈ ids)).

(** A failure that a retry may answer. *)
Definition retry_reason (w : world) : bool :=
  bool_decide (admission (ob w) = Failed) &&
  match failureReason (ob w) with
  | Some EarlyRead | Some EarlyWrite | Some ConnectTimeoutIPv4 | Some ConnectErrorIPv4 => true
  | _ => false
  end.

Fixpoint retry_check (ws : gmap nat world) (hs : list (nat * string)) (ids : gset string) (failed : bool)
    : option (gset string * bool) :=
  match hs with
  | [] => Some (ids, failed)
  | (k, expected) :: hs =>
      match ws !! k with
      | None => None
      | Some w =>
          if retry_holder expected ids w
          then retry_check ws hs ({[expected]} ∪ ids) (failed || retry_reason w)
          else None
      end
  end.

Fixpoint fresh_ids (ids : gset string) (new : list string) : bool :=
  match new with
  | [] => true
  | i :: new => negb (bool_decide (i ∈ ids)) && fresh_ids ({[i]} ∪ ids) new
  end.

(** The replacement of one holder's admission; the local flows are closed after
    the locks are released. *)
Definition retry_replace (id : string) (w : world) : list nat * world :=
  let h := ob w in
  let c := next w in
  (List.filter (is_local w) (elements (flows h)),
   cancel_ctx (withdrawCtx h)
     (w <| ob := h <| admission := Unpublished |> <| admissionID := id |> <| admissionResolved := c |>
                   <| admissionDeadline := zero_time |> <| withdrawCtx := S c |>
                   <| withdrawCompleted := false |> <| failureReason := None |> <| retryPrepared := true |> |>
        <| next := S (S c) |>)).

Fixpoint retry_apply (ws : gmap nat world) (hs : list (nat * string)) : gmap nat world :=
  match hs with
  | [] => ws
  | (k, id) :: hs =>
      match ws !! k with
      | None => retry_apply ws hs
      | Some w =>
          let '(fs, w') := retry_replace id w in
          retry_apply (<[k := foldl (λ w f, close_local f w) w' fs]> ws) hs
      end
  end.

(** [newIDs] are the random identities; [None] when a random read failed. *)
Definition PrepareWindowsRetry (holders : list nat) (expectedIDs : list string) (newIDs : option (list string))
    (ws : gmap nat world) : option (list string) * gmap nat world :=
  if (length holders =? 0)%nat || negb (length holders =? length expectedIDs)%nat || (256 <? length holders)%nat
  then (None, ws)
  else if negb (bool_decide (NoDup holders)) || negb (forallb (λ k, bool_decide (is_Some (ws !! k))) holders)
  then (None, ws)
  else
    match newIDs with
    | None => (None, ws)
    | Some new =>
        match retry_check ws (zip holders expectedIDs) ∅ false with
        | None => (None, ws)
        | Some (ids, failed) =>
            if negb (fresh_ids ids new) then (None, ws)
            else if negb failed then (None, ws)
            else (Some new, retry_apply ws (zip holders new))
        end
    end.

(** ** Interleavings of the critical sections *)

Inductive step (w : world) : world → Prop :=
| step_fail id reason : step w (failAdmission id reason w)
| step_admit id : step w (AdmitAdmission id w).2
| step_withdraw id : step w (withdraw_section id w).2
| step_withdraw_done id : step w (withdraw_done id w)
| step_cancel c : step w (cancel_ctx c w)
| step_runtime : step w (w <| runtimeErr := true |>)
| step_close_local f : step w (close_local f w)
| step_flow_close f : step w (flow_close f w)
| step_finish f : step w (finish f w)
| step_close : step w (Close_section w).2
| step_start mgr now : step w (Start mgr now w).2
| step_open elig : step w (open_flow elig w).2
| step_set_local f b : step w (set_local f b w)
| step_attach f r : (∀ fl, heap w !! f = Some fl → remote fl = None) → step w (attach f r w).2
| step_attach_local f r id ctxErr :
    (∀ fl, heap w !! f = Some fl → remote fl = None) → step w (attach_section f r id ctxErr w).2
| step_handoff : step w (w <| ob ::= λ h, h <| vpnHandoffs ::= λ n, u64 (n + 1) |> |>)
| step_packet prefer : step w (packet_section prefer w).2
| step_shut r : step w (shut_opt r w).

(** ** Admission automaton *)

Definition rank (s : admission_state) : nat :=
  match s with Unpublished => 0 | Ready => 1 | Failed => 2 | Withdrawn => 3 end.

(** Allowed moves of one admission: [Failed] is only reached from [Ready]. *)
Definition admission_le (s s' : admission_state) : Prop :=
  s = s' ∨ (s = Unpublished ∧ s' ≠ Unpublished) ∨ (s = Ready ∧ (s' = Failed ∨ s' = Withdrawn)) ∨
  (s = Failed ∧ s' = Withdrawn).

Definition flow_le (f f' : flow) : Prop :=
  (fclosed f = true → fclosed f' = true) ∧ (∀ r, remote f = Some r → remote f' = Some r).

Record le (w w' : world) : Prop := mkLe {
  le_id : admissionID (ob w') = admissionID (ob w);
  le_state : admission_le (admission (ob w)) (admission (ob w'));
  le_reason : ∀ r, failureReason (ob w) = Some r → failureReason (ob w') = Some r;
  le_closed : closed (ob w) = true → closed (ob w') = true;
  le_channel : admissionResolved (ob w') = admissionResolved (ob w);
  le_ctx : withdrawCtx (ob w') = withdrawCtx (ob w);
  le_cancelled : cancelled w ⊆ cancelled w';
  le_shut : shut w ⊆ shut w';
  le_heap : ∀ f fl, heap w !! f = Some fl → ∃ fl', heap w' !! f = Some fl' ∧ flow_le fl fl';
  le_fixed : serviceID (ob w') = serviceID (ob w) ∧ preferTCP (ob w') = preferTCP (ob w) ∧
             windowsDirect (ob w') = windowsDirect (ob w) ∧ retryPrepared (ob w') = retryPrepared (ob w)
}.

Lemma flow_le_refl f : flow_le f f.
Proof. by split. Qed.

#[export] Instance admission_le_po : PreOrder admission_le.
Proof.
  split; [by left|]. unfold admission_le. intros [] [] []; naive_solver.
Qed.

#[export] Instance le_po : PreOrder le.
Proof.
  split; [intros w; split; try done; intros f fl H; exists fl; done|].
  intros x y z [A1 A2 A3 A4 A5 A6 A7 A8 AH A9] [B1 B2 B3 B4 B5 B6 B7 B8 BH B9].
  split; try congruence; auto; [by etrans|set_solver|set_solver| |naive_solver congruence].
  intros f fl H. destruct (AH f fl H) as (fl1 & H1 & L1 & L2). destruct (BH f fl1 H1) as (fl2 & H2 & L3 & L4).
  exists fl2. split; [done|]. split; auto.
Qed.

(** The state of an admission agrees with its channel, its reason and its
    context; nothing closed a channel twice. *)
Record Inv (w : world) : Prop := mkInv {
  inv_panic : panicked w = false;
  inv_channel : admissionResolved (ob w) ∈ resolved w ↔ admission (ob w) ≠ Unpublished;
  inv_reason : admission (ob w) = Failed ↔ is_Some (failureReason (ob w)) ∧ admission (ob w) ≠ Withdrawn;
  inv_fresh : ∀ n, n ∈ resolved w ∨ n = admissionResolved (ob w) → (n < next w)%nat;
  inv_heap : ∀ f fl, heap w !! f = Some fl → (f < next w)%nat;
  inv_once : ∀ f fl, heap w !! f = Some fl → closeOnce fl = fclosed fl;
  inv_shut : ∀ f fl r, heap w !! f = Some fl → fclosed fl = true → remote fl = Some r → r ∈ shut w;
  inv_dom : ∀ f, f ∈ flows (ob w) → is_Some (heap w !! f)
}.

Definition keeps (w w' : world) : Prop := Inv w → Inv w' ∧ le w w'.
Lemma dpi_refl w : keeps w w.
Proof. intros I. split; [done|reflexivity]. Qed.
Lemma dpi_trans w1 w2 w3 : keeps w1 w2 → keeps w2 w3 → keeps w1 w3.
Proof. intros H1 H2 I. destruct (H1 I) as [I2 ?], (H2 I2) as [I3 ?]. split; [done|by etrans]. Qed.

(** A section that only touches counters, flags, the table or the contexts. *)
Lemma dpi_fields w w' :
  heap w' = heap w → resolved w' = resolved w → panicked w' = panicked w → next w' = next w →
  admissionID (ob w') = admissionID (ob w) → admission (ob w') = admission (ob w) →
  admissionResolved (ob w') = admissionResolved (ob w) → withdrawCtx (ob w') = withdrawCtx (ob w) →
  failureReason (ob w') = failureReason (ob w) → (closed (ob w) = true → closed (ob w') = true) →
  serviceID (ob w') = serviceID (ob w) → preferTCP (ob w') = preferTCP (ob w) →
  windowsDirect (ob w') = windowsDirect (ob w) → retryPrepared (ob w') = retryPrepared (ob w) →
  flows (ob w') ⊆ flows (ob w) → cancelled w ⊆ cancelled w' → shut w ⊆ shut w' → keeps w w'.
Proof.
  intros E1 E2 E3 E4 E5 E6 E7 E8 E9 Hc F1 F2 F3 F4 Hf Hca Hs [P C R F H O U D]. split.
  - split; rewrite ?E1, ?E2, ?E3, ?E4, ?E6, ?E7, ?E9; auto. intros f fl r ? ? ?. apply Hs. by eapply U.
  - split; rewrite ?E6, ?E9; auto; [reflexivity|]. intros f fl Hfl. exists fl. by rewrite E1.
Qed.

Ltac fields := apply dpi_fields; simpl; try done; try set_solver.

(** An assignment to one flow object. *)
Lemma inv_flow w f fl fl' s :
  heap w !! f = Some fl → closeOnce fl' = fclosed fl' → shut w ⊆ s →
  (fclosed fl' = true → ∀ r, remote fl' = Some r → r ∈ s) →
  Inv w → Inv (w <| heap := <[f := fl']> (heap w) |> <| shut := s |>).
Proof.
  intros Hf Ho Hs Hr [P C R F H O U D].
  split; simpl; try done.
  - intros g gl. case_key f g; [intros _; by eapply H|apply H].
  - intros g gl. case_key f g; [by intros [= <-]|apply O].
  - intros g gl r. case_key f g; [intros [= <-] ? ?; auto|]. intros. apply Hs. by eapply U.
  - intros g Hg. case_key f g; [done|]. by apply D.
Qed.

Lemma dpi_flow w f fl fl' s :
  heap w !! f = Some fl → closeOnce fl' = fclosed fl' → shut w ⊆ s →
  (fclosed fl' = true → ∀ r, remote fl' = Some r → r ∈ s) → flow_le fl fl' →
  keeps w (w <| heap := <[f := fl']> (heap w) |> <| shut := s |>).
Proof.
  intros Hf Ho Hs Hr Hle I. split; [by apply (inv_flow w f fl)|split; simpl; try done; try reflexivity].
  intros g gl Hg. case_key f g; [|by exists gl]. rewrite Hf in Hg. simplify_eq. by exists fl'.
Qed.

Lemma dpi_flow_close f w : keeps w (flow_close f w).
Proof.
  unfold flow_close. destruct (heap w !! f) as [fl|] eqn:E; [|apply dpi_refl]. intros I.
  pose proof (inv_once _ I f fl E) as Ho.
  destruct (closeOnce fl) eqn:Ec.
  - apply (dpi_flow w f fl (fl <| fclosed := true |> <| closeOnce := true |>) (shut w)); try done.
    simpl. intros _ r Hr. by eapply (inv_shut _ I).
  - apply (dpi_flow w f fl (fl <| fclosed := true |> <| closeOnce := true |>) (opt_set (remote fl) ∪ shut w));
      try done; [set_solver|]. simpl. intros _ r ->. simpl. set_solver.
Qed.

Lemma dpi_close_local f w : keeps w (close_local f w).
Proof. unfold close_local. case_goal; [apply dpi_flow_close|apply dpi_refl]. Qed.

Lemma dpi_finish f w : keeps w (finish f w).
Proof. eapply dpi_trans; [apply (dpi_flow_close f)|]. unfold finish. fields. Qed.

Lemma dpi_set_local f b w : keeps w (set_local f b w).
Proof.
  intros I. destruct (heap w !! f) as [fl|] eqn:E.
  - assert (Ew : set_local f b w = w <| heap := <[f := fl <| local := b |>]> (heap w) |> <| shut := shut w |>).
    { unfold set_local, set. f_equal. cbn [heap]. apply map_eq. intros j.
      case_key f j; [by rewrite lookup_alter_eq, E|by rewrite lookup_alter_ne]. }
    rewrite Ew. apply (dpi_flow w f fl); try done; simpl.
    + by eapply (inv_once _ I).
    + intros. by eapply (inv_shut _ I).
  - assert (Ea : alter (λ fl, fl <| local := b |>) f (heap w) = heap w).
    { apply map_eq. intros j. destruct (decide (f = j)) as [->|];
        [by rewrite lookup_alter_eq, E|by rewrite lookup_alter_ne]. }
    assert (Ew : set_local f b w = w) by (unfold set_local; destruct w; unfold set; f_equal; exact Ea).
    rewrite Ew. by apply dpi_refl.
Qed.

Lemma dpi_attach f r w : (∀ fl, heap w !! f = Some fl → remote fl = None) → keeps w (attach f r w).2.
Proof.
  intros Hn. unfold attach. destruct (heap w !! f) as [fl|] eqn:E; [|apply dpi_refl].
  destruct (fclosed fl) eqn:Ec; [fields|]. intros I.
  apply (dpi_flow w f fl (fl <| remote := Some r |>) (shut w)); try done; simpl.
  - by eapply (inv_once _ I).
  - congruence.
  - split; simpl; [done|]. by rewrite (Hn fl eq_refl).
Qed.

Lemma dpi_attach_section f r id x w :
  (∀ fl, heap w !! f = Some fl → remote fl = None) → keeps w (attach_section f r id x w).2.
Proof.
  intros Hn. unfold attach_section. case_goal; [|apply dpi_refl]. pose proof (dpi_attach f r w Hn) as K.
  destruct (attach f r w) as [[] w']; [|exact K]. eapply dpi_trans; [exact K|]. fields.
Qed.

Lemma dpi_fail id reason w : keeps w (failAdmission id reason w).
Proof.
  unfold failAdmission. destruct (_ && _) eqn:E; [|apply dpi_refl]. bsplit. intros [P C R F HH O U D].
  split; [split; simpl; try done|split; simpl; try done].
  - rewrite C. split; [done|]. congruence.
  - right. right. left. auto.
  - intros r Hr. exfalso. destruct R as [_ R]. rewrite Hr in R. assert (admission (ob w) = Failed) by (apply R; split; [by eexists|congruence]).
    congruence.
  - by eauto using flow_le_refl.
Qed.

Lemma dpi_admit id w : keeps w (AdmitAdmission id w).2.
Proof.
  unfold AdmitAdmission. destruct (_ || _ || _) eqn:E; [apply dpi_refl|]. bsplit. intros [P C R F HH O U D].
  unfold close_channel. simpl. rewrite bool_decide_eq_false_2 by (rewrite C; tauto).
  split; [split; simpl; try done|split; simpl; try done].
  - set_solver.
  - split; [done|]. intros [? ?]. destruct R as [_ R]. assert (admission (ob w) = Failed) by (apply R; split; [done|congruence]).
    congruence.
  - intros n [Hn|Hn]; apply F; set_solver.
  - right. left. done.
  - by eauto using flow_le_refl.
Qed.

Lemma dpi_withdraw id w : keeps w (withdraw_section id w).2.
Proof.
  unfold withdraw_section. case_goal; [apply dpi_refl|]. case_goal; [apply dpi_refl|]. bsplit. cbn [snd].
  intros [P C R F HH O U D].
  assert (Hle : ∀ w', ob w' = (ob w) <| admission := Withdrawn |> → cancelled w' = cancelled w → shut w' = shut w →
    heap w' = heap w → le w w').
  { intros w' E1 E2 E3 E4. split; rewrite ?E1, ?E2, ?E3, ?E4; simpl; try done; [|by eauto using flow_le_refl].
    unfold admission_le. destruct (admission (ob w)); [right; left; done|auto 6..]. }
  case_bool_decide as Hu; unfold close_channel; simpl.
  - rewrite bool_decide_eq_false_2 by (rewrite C; tauto). split; [split; simpl; try done|by apply Hle].
    + set_solver.
    + split; [done|]. by intros [_ ?].
    + intros n [Hn|Hn]; apply F; set_solver.
  - split; [split; simpl; try done|by apply Hle].
    + rewrite C. done.
    + split; [done|]. by intros [_ ?].
Qed.

Lemma dpi_open elig w : keeps w (open_flow elig w).2.
Proof.
  unfold open_flow. case_goal; [apply dpi_refl|]. intros [P C R F HH O U D].
  split; [split; simpl; try done|split; simpl; try done; try reflexivity].
  - intros n Hn. specialize (F n Hn). lia.
  - intros f fl. case_key (next w) f; [lia|]. intros Hf. specialize (HH f fl Hf). lia.
  - intros f fl. case_key (next w) f; [by intros [= <-]|apply O].
  - intros f fl r. case_key (next w) f; [by intros [= <-]|apply U].
  - intros f [->%elem_of_singleton|Hf]%elem_of_union; [by rewrite lookup_insert_eq|].
    case_key (next w) f; [done|]. by apply D.
  - intros f fl Hf. exists fl. split; [|apply flow_le_refl]. specialize (HH f fl Hf).
    rewrite lookup_insert_ne; [done|lia].
Qed.

Lemma dpi_Start mgr now w : keeps w (Start mgr now w).2.
Proof. unfold Start. case_goal; [apply dpi_refl|]. fields. Qed.

Lemma dpi_packet prefer w : keeps w (packet_section prefer w).2.
Proof. unfold packet_section. repeat case_goal; try apply dpi_refl. fields. Qed.

Lemma dpi_withdraw_done id w : keeps w (withdraw_done id w).
Proof. unfold withdraw_done. case_goal; [fields|apply dpi_refl]. Qed.

Lemma dpi_step w w' : step w w' → keeps w w'.
Proof.
  destruct 1; auto using dpi_fail, dpi_admit, dpi_withdraw, dpi_close_local, dpi_flow_close, dpi_finish,
    dpi_open, dpi_set_local, dpi_attach, dpi_attach_section, dpi_Start, dpi_packet, dpi_withdraw_done;
    fields.
Qed.

Lemma dpi_steps w w' : rtc step w w' → keeps w w'.
Proof. induction 1; [apply dpi_refl|]. eapply dpi_trans; [by apply dpi_step|done]. Qed.

(** ** The protected fallback is the least set of protected exits *)

(** A DNS carrier directly below a VLESS exit needs no protection of its own. *)
Definition carried (mgr : gmap string node) (n : node) (d : string) : bool :=
  match mgr !! d with Some c => bool_decide (n_type n = TypeVLESS) && n_carrier c | None => false end.

Definition chain_type (n : node) : bool :=
  is_exit (n_type n) || (is_group (n_type n) && negb (bool_decide (n_deps n = []))).

(** Every traffic path from an outbound ends, after finitely many hops, in an
    HTTP/2-protected or an encrypted exit. *)
Inductive Protected (mgr : gmap string node) : string → Prop :=
| protected_naive t n :
    mgr !! t = Some n → n_type n = TypeNaive → n_h2 n = true → Protected mgr t
| protected_chain t n :
    mgr !! t = Some n → n_type n ≠ TypeNaive → chain_type n = true →
    (∀ d, d ∈ n_deps n → carried mgr n d = false → Protected mgr d) → Protected mgr t.

Lemma forallb_eq {A} (f g : A → bool) l : (∀ x, f x = g x) → forallb f l = forallb g l.
Proof. intros H. induction l as [|x l IH]; simpl; [done|]. by rewrite H, IH. Qed.

Lemma fallback_step fuel mgr t seen :
  protectedFallback (S fuel) mgr t seen =
  match mgr !! t with
  | None => false
  | Some n =>
      negb (bool_decide (t ∈ seen)) &&
      if bool_decide (n_type n = TypeNaive) then n_h2 n
      else chain_type n && forallb (λ d, carried mgr n d || protectedFallback fuel mgr d ({[t]} ∪ seen)) (n_deps n)
  end.
Proof.
  cbn [protectedFallback]. destruct (mgr !! t) as [n|]; [|done]. case_bool_decide; simpl; [done|].
  case_bool_decide as Hn; [done|]. fold (chain_type n). destruct (chain_type n); simpl; [|done].
  apply forallb_eq. intros d. unfold carried. destruct (mgr !! d) as [c|] eqn:E.
  - by destruct (_ && _).
  - destruct fuel; simpl; [done|]. by rewrite E.
Qed.

(** The check as a walk over the graph: a carrier is not followed. *)
Definition fallback_node (mgr : gmap string node) (t : string) : option (bool * list string) :=
  n ← mgr !! t;
  Some (if bool_decide (n_type n = TypeNaive) then (n_h2 n, [])
        else (chain_type n, filter (λ d, carried mgr n d = false) (n_deps n))).

Lemma forallb_filter {A} (c f : A → bool) l : forallb f (filter (λ x, c x = false) l) = forallb (λ x, c x || f x) l.
Proof.
  induction l as [|x l IH]; [done|]. rewrite filter_cons. destruct (c x) eqn:E; cbn [forallb]; rewrite E; cbn [orb andb].
  - by rewrite decide_False.
  - by rewrite decide_True, <- IH.
Qed.

Lemma fallback_walk fuel mgr t seen : protectedFallback fuel mgr t seen = walk (fallback_node mgr) fuel seen t.
Proof.
  revert t seen. induction fuel as [|fuel IH]; intros t seen; [done|]. rewrite fallback_step. cbn [walk]. unfold fallback_node at 1.
  destruct (mgr !! t) as [n|]; [|done]. cbn [mbind option_bind].
  destruct (bool_decide (n_type n = TypeNaive)); rewrite <- andb_assoc; f_equal; [cbn; by rewrite andb_true_r|].
  rewrite forallb_filter. f_equal. apply forallb_eq. intros d. by rewrite IH.
Qed.

Lemma protected_grounded mgr t : Protected mgr t ↔ Grounded (fallback_node mgr) t.
Proof.
  split.
  - induction 1 as [t n E Ht Hh|t n E Ht Hc _ IH].
    + apply (grounded _ t []); [|set_solver]. unfold fallback_node. rewrite E. cbn. by rewrite bool_decide_eq_true_2, Hh.
    + eapply grounded; [unfold fallback_node; rewrite E; cbn; by rewrite bool_decide_eq_false_2, Hc|].
      intros d [Hd Hin]%list_elem_of_filter. by apply IH.
  - induction 1 as [t deps E _ IH]. unfold fallback_node in E. destruct (mgr !! t) as [n|] eqn:En; [|done]. cbn in E.
    case_bool_decide as Hn; injection E as Hok <-; [by eapply protected_naive|]. eapply protected_chain; [done..|].
    intros d Hin Hd. apply IH. by apply list_elem_of_filter.
Qed.

(** The check of the VPN fallback decides exactly the outbounds all of whose
    dependency paths end in a protected exit.  The recursion with the set of
    tags on the current path always ends (its depth is bounded by the number of
    registered outbounds), refuses every cycle, and loses nothing: an outbound
    that is protected by a finite chain of dependencies is accepted. *)
Theorem protected_fallback_exact mgr t :
  protectedFallback (fallback_fuel mgr) mgr t ∅ = true ↔ Protected mgr t.
Proof.
  rewrite fallback_walk, protected_grounded. unfold fallback_fuel. rewrite <- size_dom. apply walk_exact.
  intros t' x. unfold fallback_node. destruct (mgr !! t') eqn:E; [|done]. intros _. apply elem_of_dom. by eexists.
Qed.

(** ** The life of an admission *)

Lemma dpi_NewOutbound tg o win mgrs tr id w : NewOutbound tg o win mgrs tr id = Ok w → Inv w.
Proof.
  unfold NewOutbound. repeat (case_goal; try done); destruct id; simpl; try done;
  intros [= <-]; split; simpl; try done; set_solver by lia.
Qed.

Lemma retired_le s s' : admission_le s s' → s = Failed ∨ s = Withdrawn → s' = Failed ∨ s' = Withdrawn.
Proof. unfold admission_le. naive_solver. Qed.

Lemma attach_section_refused f r id x w : admission (ob w) ≠ Ready → attach_section f r id x w = (false, w).
Proof. intros H. unfold attach_section, IsReady. rewrite (bool_decide_eq_false_2 _ H), andb_false_r. done. Qed.

(** In every interleaving of the critical sections from construction, the
    admission of the local strategy moves only forward: the channel that
    announces its resolution is closed exactly when it leaves [Unpublished] and
    never twice (which would panic), the first failure reason is the one that
    stays, and once failed or withdrawn the strategy never becomes ready again,
    is never admitted again and receives no further flow; a second withdrawal
    does nothing. *)
Theorem admission_never_reopens tg o win mgrs tr id w0 w w' :
  NewOutbound tg o win mgrs tr id = Ok w0 → rtc step w0 w → rtc step w w' →
  panicked w' = false ∧
  (admissionResolved (ob w') ∈ resolved w' ↔ admission (ob w') ≠ Unpublished) ∧
  admission_le (admission (ob w)) (admission (ob w')) ∧
  (∀ r, failureReason (ob w) = Some r → failureReason (ob w') = Some r) ∧
  (admission (ob w) = Failed ∨ admission (ob w) = Withdrawn →
     IsReady w' = false ∧ (∀ i, AdmitAdmission i w' = (false, w')) ∧
     ∀ f r i x, attach_section f r i x w' = (false, w')) ∧
  (admission (ob w) = Withdrawn → ∀ i, WithdrawAdmission i w' = (false, w')).
Proof.
  intros I0%dpi_NewOutbound R R'. destruct (dpi_steps _ _ R I0) as [I _], (dpi_steps _ _ R' I) as [I' L].
  split_and!; [apply I'|apply I'|apply L|apply L| |].
  - intros H. pose proof (retired_le _ _ (le_state _ _ L) H) as H'. split_and!.
    + apply bool_decide_eq_false_2. by destruct H' as [->| ->].
    + intros i. unfold AdmitAdmission. rewrite (bool_decide_eq_false_2 (admission _ = _)); [|by destruct H' as [->| ->]].
      by rewrite orb_true_r.
    + intros. apply attach_section_refused. by destruct H' as [->| ->].
  - intros H i. unfold WithdrawAdmission, withdraw_section. case_goal; [done|].
    rewrite bool_decide_eq_true_2; [done|]. pose proof (le_state _ _ L) as Hs. unfold admission_le in Hs.
    rewrite H in Hs. naive_solver.
Qed.

(** ** The gate of a connection *)

Definition released (f : nat) (w : world) : Prop :=
  f ∉ flows (ob w) ∧ ∃ fl, heap w !! f = Some fl ∧ fclosed fl = true ∧ ∀ r, remote fl = Some r → r ∈ shut w.

Lemma finish_released f w : Inv w → is_Some (heap w !! f) → released f (finish f w).
Proof.
  intros I [fl Hf]. pose proof (dpi_finish f w I) as [I' L]. split; [unfold finish; simpl; set_solver|].
  assert (∃ fl', heap (finish f w) !! f = Some fl' ∧ fclosed fl' = true) as (fl' & Hf' & Hc).
  { unfold finish, flow_close. rewrite Hf. destruct (closeOnce fl); simpl; rewrite lookup_insert_eq; by eexists. }
  exists fl'. split_and!; [done..|]. intros r Hr. by eapply (inv_shut _ I').
Qed.

(** What the sections of one connection maintain about its flow. *)
Definition holds_flow (f : nat) (w : world) : Prop := Inv w ∧ is_Some (heap w !! f).

Lemma holds_keeps f w w' : keeps w w' → holds_flow f w → holds_flow f w' ∧ le w w'.
Proof.
  intros K [I [fl Hf]]. destruct (K I) as [I' L]. split; [split; [done|]|done].
  destruct (le_heap _ _ L f fl Hf) as (fl' & -> & _). done.
Qed.

Section connection.
Context (c : conn_input) (Henv : ∀ k w, rtc step w (c_env c k w)).

Lemma env_keeps k w : keeps w (c_env c k w).
Proof. apply dpi_steps, Henv. Qed.

Lemma shut_opt_keeps r w : keeps w (shut_opt r w).
Proof. unfold shut_opt. fields. Qed.

(** The outcome of a connection that owns flow [f]. *)
Definition outcome (f : nat) (x : conn_result * list dial_kind * world) : Prop :=
  let '(res, ds, w') := x in
  match res with
  | Refused _ => released f w'
  | ToVPN r => c_vpn c = Ok r ∧ last ds = Some VpnDial ∧
      ∃ fl, heap w' !! f = Some fl ∧ remote fl = Some r
  | ToLocal r => ds = [LocalDial] ∧ c_remote c = Some r ∧ c_err c = None ∧ closed (ob w') = false ∧ IsReady w' = true ∧
      ∃ fl, heap w' !! f = Some fl ∧ fclosed fl = false ∧ remote fl = Some r
  end.

Lemma attach_heap f r w w' : attach f r w = (true, w') →
  ob w' = ob w ∧ ∃ fl, heap w' !! f = Some fl ∧ fclosed fl = false ∧ remote fl = Some r.
Proof.
  unfold attach. destruct (heap w !! f) as [fl|] eqn:E; [|done]. destruct (fclosed fl) eqn:Ec; [done|].
  intros [= <-]. simpl. split; [done|]. rewrite lookup_insert_eq. by eexists.
Qed.

Lemma attach_inv f r w : Inv w → Inv (attach f r w).2.
Proof.
  intros I. unfold attach. destruct (heap w !! f) as [fl|] eqn:E; [|done].
  destruct (fclosed fl) eqn:Ec.
  - assert (K : keeps w (w <| shut ::= union {[r]} |>)) by fields. by apply K.
  - apply (inv_flow w f fl (fl <| remote := Some r |>) (shut w)); simpl; try done; [by eapply inv_once|congruence].
Qed.

(** [attach] never moves the admission and keeps the closed connections. *)
Lemma attach_ob f r w : ob (attach f r w).2 = ob w ∧ shut w ⊆ shut (attach f r w).2.
Proof. unfold attach. destruct (heap w !! f); [|done]. case_goal; simpl; [set_solver|done]. Qed.

Lemma attach_some f r w g : is_Some (heap w !! g) → is_Some (heap (attach f r w).2 !! g).
Proof.
  unfold attach. intros Hg. destruct (heap w !! f) as [fl|] eqn:E; [|done]. case_goal; simpl; [done|].
  case_key f g; done.
Qed.

(** What is left of [le] when a connection was attached to a flow. *)
Definition grows (w w' : world) : Prop :=
  admission_le (admission (ob w)) (admission (ob w')) ∧ shut w ⊆ shut w'.

Lemma le_grows w w' : le w w' → grows w w'.
Proof. intros L. split; apply L. Qed.
Lemma grows_trans w1 w2 w3 : grows w1 w2 → grows w2 w3 → grows w1 w3.
Proof. intros [A1 S1] [A2 S2]. split; [by etrans|set_solver]. Qed.
Lemma attach_grows f r w : grows w (attach f r w).2.
Proof. destruct (attach_ob f r w) as [E ?]. split; [rewrite E; reflexivity|done]. Qed.

Lemma attach_holds f r w : holds_flow f w → holds_flow f (attach f r w).2.
Proof. intros [I H]. split; [by apply attach_inv|by apply attach_some]. Qed.

(** The closing handler ends the connection. *)
Lemma refuse_ok f w ds e : holds_flow f w → outcome f (Refused e, ds, finish f w) ∧ grows w (finish f w).
Proof. intros [I H]. split; [by apply finish_released|]. by apply le_grows, dpi_finish. Qed.

Lemma connectVPN_ok f w :
  holds_flow f w →
  let '(res, ds, w') := connectVPN c f w in
  outcome f (res, ds, w') ∧ grows w w' ∧ (ds = [] ∨ ds = [VpnDial]) ∧ (∀ r, res ≠ ToLocal r).
Proof.
  intros H. unfold connectVPN.
  destruct (holds_keeps f _ _ (dpi_set_local f false w) H) as [H1 L1]. revert H1 L1.
  generalize (set_local f false w). intros w1 H1 L1. apply le_grows in L1. case_goal.
  - destruct (holds_keeps f _ _ (env_keeps 5 w1) H1) as [H2 L2%le_grows].
    destruct (refuse_ok f _ [] "context" H2) as [R G]. split_and!; eauto using grows_trans.
  - destruct (holds_keeps f _ _ (env_keeps 6 w1) H1) as [H2 L2%le_grows]. revert H2 L2.
    generalize (c_env c 6 w1). intros w2 H2 L2. destruct (c_vpn c) as [r|e] eqn:Ev.
    + pose proof (attach_grows f r w2) as G. pose proof (attach_holds f r w2 H2) as H3.
      destruct (attach f r w2) as [[] w3] eqn:Ea; simpl in G, H3.
      * destruct (attach_heap _ _ _ _ Ea) as [_ (fl & Hfl & _ & Hr)].
        destruct (holds_keeps f _ _ (env_keeps 7 w3) H3) as [H4 L4].
        destruct (le_heap _ _ L4 f fl Hfl) as (fl' & Hfl' & _ & Hr').
        split_and!; [|eapply grows_trans; [exact L1|eapply grows_trans; [exact L2|eapply grows_trans;
          [exact G|exact (le_grows _ _ L4)]]]|auto|done].
        simpl. split_and!; [done|done|]. exists fl'. auto.
      * destruct (refuse_ok f _ [VpnDial] errUnavailable H3) as [R G']. split_and!; eauto using grows_trans.
    + destruct (refuse_ok f _ [VpnDial] e H2) as [R G]. split_and!; eauto using grows_trans.
Qed.

(** A failure report leaves no ready admission under the reported id. *)
Lemma failAdmission_retires id reason w :
  admissionID (ob w) = id → admission (ob w) ≠ Unpublished →
  admission (ob (failAdmission id reason w)) = Failed ∨ admission (ob (failAdmission id reason w)) = Withdrawn.
Proof.
  intros <- Hu. unfold failAdmission. rewrite bool_decide_eq_true_2 by done. simpl.
  case_bool_decide; simpl; [by left|]. by destruct (admission (ob w)); auto.
Qed.

Lemma attach_section_ok f r id x w w' : attach_section f r id x w = (true, w') →
  closed (ob w') = false ∧ IsReady w' = true ∧ ∃ fl, heap w' !! f = Some fl ∧ fclosed fl = false ∧ remote fl = Some r.
Proof.
  unfold attach_section. destruct (_ && _) eqn:E; [|done]. bsplit.
  destruct (attach f r w) as [[] w1] eqn:Ea; [|done]. intros [= <-].
  destruct (attach_heap _ _ _ _ Ea) as [Eo Hfl]. unfold IsReady in *. simpl. by rewrite Eo.
Qed.

Lemma attach_section_false f r id x w w' : attach_section f r id x w = (false, w') → holds_flow f w →
  holds_flow f w' ∧ grows w w'.
Proof.
  unfold attach_section. destruct (_ && _); [|by intros [= <-]; split; [|by apply le_grows]].
  pose proof (attach_grows f r w) as G. pose proof (attach_holds f r w) as H.
  destruct (attach f r w) as [[] w1]; intros [= <-]; auto.
Qed.

(** The remote of the local dial is closed unless the flow was handed over. *)
Definition local_shut (res : conn_result) (w' : world) : Prop :=
  match res with ToLocal _ => True | _ => ∀ r, c_remote c = Some r → r ∈ shut w' end.

Lemma shut_remote w w' : grows (shut_opt (c_remote c) w) w' → ∀ r, c_remote c = Some r → r ∈ shut w'.
Proof. intros [_ G] r Hr. apply G. simpl. rewrite Hr. simpl. set_solver. Qed.

(** The two ways the local dial ends when nobody gave up. *)
Lemma local_failed_ok f id ctx w1 :
  holds_flow f (shut_opt (c_remote c) w1) → admissionID (ob w1) = id → admission (ob w1) ≠ Unpublished →
  let '(res, ds, w') :=
    let w := c_env c 3%nat (failAdmission id (connect_failure c) (shut_opt (c_remote c) w1)) in
    if negb (bool_decide (admissionID (ob w) = id)) || bool_decide (admission (ob w) = Withdrawn) || ctx_over ctx w
    then (Refused errUnavailable, [LocalDial], finish f w)
    else let '(r, ds, w) := connectVPN c f w in (r, LocalDial :: ds, w) in
  outcome f (res, ds, w') ∧ (ds = [LocalDial] ∨ ds = [LocalDial; VpnDial]) ∧ local_shut res w' ∧
  (VpnDial ∈ ds → admission (ob w') = Failed ∨ admission (ob w') = Withdrawn).
Proof.
  intros H2 Hid Hu. cbv zeta. set (w2 := failAdmission id (connect_failure c) (shut_opt (c_remote c) w1)).
  assert (Hf : admission (ob w2) = Failed ∨ admission (ob w2) = Withdrawn) by (by apply failAdmission_retires).
  destruct (holds_keeps f _ _ (dpi_fail id (connect_failure c) (shut_opt (c_remote c) w1)) H2) as [H3 L3%le_grows].
  fold w2 in H3, L3. destruct (holds_keeps f _ _ (env_keeps 3 w2) H3) as [H4 L4%le_grows].
  pose proof (grows_trans _ _ _ L3 L4) as L5. pose proof (retired_le _ _ (proj1 L4) Hf) as Hf'.
  revert H4 L5 Hf'. generalize (c_env c 3 w2). intros w3 H4 L5 Hf'. case_goal.
  - destruct (refuse_ok f _ [LocalDial] errUnavailable H4) as [R G].
    split_and!; [exact R|by left|exact (shut_remote _ _ (grows_trans _ _ _ L5 G))|set_solver].
  - pose proof (connectVPN_ok f w3 H4) as K. destruct (connectVPN c f w3) as [[res ds] w4].
    destruct K as (K1 & K2 & K3 & K4). pose proof (grows_trans _ _ _ L5 K2) as G.
    split_and!.
    + destruct res; try exact K1; [|by destruct (K4 r)].
      destruct K1 as (? & Hl & ?). split_and!; [done| |done]. by destruct K3 as [-> | ->].
    + destruct K3 as [-> | ->]; auto.
    + destruct res; try done; exact (shut_remote _ _ G).
    + intros _. exact (retired_le _ _ (proj1 K2) Hf').
Qed.

Lemma local_dialled_ok f id r w1 :
  holds_flow f w1 → c_dial c = Dialled r →
  let '(res, ds, w') :=
    match attach_section f r id (c_ctx c 4%nat) (c_env c 4%nat w1) with
    | (false, w) => (Refused errUnavailable, [LocalDial], finish f (shut_opt (Some r) w))
    | (true, w) => (ToLocal r, [LocalDial], w)
    end in
  outcome f (res, ds, w') ∧ (ds = [LocalDial] ∨ ds = [LocalDial; VpnDial]) ∧ local_shut res w' ∧
  (VpnDial ∈ ds → admission (ob w') = Failed ∨ admission (ob w') = Withdrawn).
Proof.
  intros H1 Ed. assert (Er : c_remote c = Some r) by (unfold c_remote; by rewrite Ed).
  assert (Ee : c_err c = None) by (unfold c_err; by rewrite Ed).
  destruct (holds_keeps f _ _ (env_keeps 4 w1) H1) as [H3 _].
  destruct (attach_section f r id (c_ctx c 4) (c_env c 4 w1)) as [[] w2] eqn:Ea.
  - split_and!; [|by left|done|set_solver]. destruct (attach_section_ok _ _ _ _ _ _ Ea) as (? & ? & ?).
    simpl. split_and!; done.
  - destruct (attach_section_false _ _ _ _ _ _ Ea H3) as [H4 _].
    destruct (holds_keeps f _ _ (shut_opt_keeps (Some r) w2) H4) as [H5 _].
    destruct (refuse_ok f _ [LocalDial] errUnavailable H5) as [R G].
    split_and!; [exact R|by left| |set_solver]. simpl. rewrite <- Er in *. exact (shut_remote _ _ G).
Qed.

Lemma connect_local_ok f id w :
  holds_flow f w → admissionID (ob w) = id → admission (ob w) ≠ Unpublished →
  let '(res, ds, w') := connect_local c f id (withdrawCtx (ob w)) w in
  outcome f (res, ds, w') ∧ (ds = [LocalDial] ∨ ds = [LocalDial; VpnDial]) ∧ local_shut res w' ∧
  (VpnDial ∈ ds → admission (ob w') = Failed ∨ admission (ob w') = Withdrawn).
Proof.
  intros H Hid Hu. unfold connect_local. generalize (withdrawCtx (ob w)). intros ctx.
  destruct (holds_keeps f _ _ (env_keeps 2 w) H) as [H1 L1].
  assert (Hid1 : admissionID (ob (c_env c 2 w)) = id) by (rewrite (le_id _ _ L1); done).
  assert (Hu1 : admission (ob (c_env c 2 w)) ≠ Unpublished).
  { pose proof (le_state _ _ L1) as Hs. intros Hx. unfold admission_le in Hs. rewrite Hx in Hs. intuition congruence. }
  revert H1 Hid1 Hu1. clear L1. generalize (c_env c 2 w). intros w1 H1 Hid1 Hu1.
  destruct (holds_keeps f _ _ (shut_opt_keeps (c_remote c) w1) H1) as [H2 _].
  destruct (c_ctx c 2 || _ || _).
  { destruct (refuse_ok f _ [LocalDial] errUnavailable H2) as [R G].
    split_and!; [exact R|by left|exact (shut_remote _ _ G)|set_solver]. }
  pose proof (local_failed_ok f id ctx w1 H2 Hid1 Hu1) as Hfail.
  destruct (c_dial c) as [r|r e] eqn:Ed; [|exact Hfail].
  destruct (c_setup c) as [[]|]; [exact Hfail|by apply local_dialled_ok..].
Qed.
End connection.

Lemma waitAdmission_keeps env x w w' e :
  waitAdmission env x w = (e, w') → (∀ w, keeps w (env w)) → keeps w w'.
Proof.
  unfold waitAdmission. intros H Henv. repeat case_hyp H; simplify_eq; auto using dpi_refl.
Qed.


(** ** The Windows retry *)

Definition close_locals (fs : list nat) (w : world) : world := foldl (λ w f, close_local f w) w fs.

(** A holder after its part of a prepared retry. *)
Definition retried (id : string) (w : world) : world :=
  let '(fs, w') := retry_replace id w in close_locals fs w'.

Definition closed_flow (fl : flow) : flow := fl <| fclosed := true |> <| closeOnce := true |>.

Lemma close_local_heap g w f fl :
  heap w !! f = Some fl →
  heap (close_local g w) !! f = Some (if bool_decide (f = g) && local fl then closed_flow fl else fl).
Proof.
  intros Hf. unfold close_local, flow_close, is_local. case_bool_decide as E; simpl.
  - subst. rewrite Hf. simpl. destruct (local fl) eqn:El; [|done].
    destruct (closeOnce fl); simpl; rewrite lookup_insert_eq; unfold closed_flow; simpl; by rewrite ?El.
  - destruct (heap w !! g) as [gl|]; simpl; [|done]. destruct (local gl); [|done].
    destruct (closeOnce gl); simpl; by rewrite lookup_insert_ne.
Qed.

Lemma close_local_fields g w : ob (close_local g w) = ob w ∧ cancelled (close_local g w) = cancelled w.
Proof.
  unfold close_local, flow_close. destruct (is_local w g); [|done]. destruct (heap w !! g) as [gl|]; [|done].
  by destruct (closeOnce gl).
Qed.

Lemma close_locals_spec fs w :
  let w' := close_locals fs w in
  keeps w w' ∧ ob w' = ob w ∧ cancelled w' = cancelled w ∧
  ∀ f fl, heap w !! f = Some fl →
    heap w' !! f = Some (if bool_decide (f ∈ fs) && local fl then closed_flow fl else fl).
Proof.
  unfold close_locals. revert w. induction fs as [|g fs IH]; intros w; cbn [foldl]; [split_and!; [apply dpi_refl|done..]|].
  destruct (IH (close_local g w)) as (K & O & C & H). clear IH. destruct (close_local_fields g w) as [E1 E2].
  split_and!; [eapply dpi_trans; [apply dpi_close_local|exact K]|congruence..|].
  intros f fl Hf. rewrite (H f _ (close_local_heap g w f fl Hf)).
  destruct (decide (f = g)) as [->|Hne].
  - rewrite !(bool_decide_eq_true_2 (g = g)), (bool_decide_eq_true_2 (g ∈ g :: fs)) by (done || by left).
    simpl. destruct (local fl) eqn:El; simpl; rewrite ?El, ?andb_false_r; [by destruct (_ && _)|done].
  - rewrite (bool_decide_eq_false_2 (f = g)) by done. simpl.
    replace (bool_decide (f ∈ g :: fs)) with (bool_decide (f ∈ fs)); [done|].
    apply bool_decide_ext. rewrite elem_of_cons. tauto.
Qed.

Lemma retry_apply_spec hs ws :
  NoDup hs.*1 →
  (∀ k, k ∉ hs.*1 → retry_apply ws hs !! k = ws !! k) ∧
  (∀ k id w, (k, id) ∈ hs → ws !! k = Some w → retry_apply ws hs !! k = Some (retried id w)).
Proof.
  revert ws. induction hs as [|[k0 id0] hs IH]; intros ws; rewrite ?fmap_cons; [intros _; split; [done|set_solver]|].
  intros [Hn Hd]%NoDup_cons. destruct (ws !! k0) as [w0|] eqn:E0.
  - assert (Er : retry_apply ws ((k0, id0) :: hs) = retry_apply (<[k0 := retried id0 w0]> ws) hs).
    { cbn [retry_apply]. rewrite E0. unfold retried. by destruct (retry_replace id0 w0). }
    rewrite Er. destruct (IH (<[k0 := retried id0 w0]> ws) Hd) as [IH1 IH2]. split.
    + intros k Hk. rewrite IH1 by set_solver. apply lookup_insert_ne. set_solver.
    + intros k id w [[= -> ->]|Hin]%elem_of_cons Hw.
      * rewrite IH1, lookup_insert_eq by done. congruence.
      * apply IH2; [done|]. rewrite lookup_insert_ne; [done|].
        intros <-. apply Hn. apply list_elem_of_fmap. by exists (k0, id).
  - assert (Er : retry_apply ws ((k0, id0) :: hs) = retry_apply ws hs) by (cbn [retry_apply]; by rewrite E0).
    rewrite Er. destruct (IH ws Hd) as [IH1 IH2]. split; [set_solver|].
    intros k id w [[= -> ->]|Hin]%elem_of_cons Hw; [congruence|by apply IH2].
Qed.

Lemma retry_check_spec ws hs ids failed ids' failed' :
  retry_check ws hs ids failed = Some (ids', failed') →
  (∀ k e, (k, e) ∈ hs → e ∈ ids' ∧ ∃ w, ws !! k = Some w ∧ retry_holder e ∅ w = true) ∧ ids ⊆ ids' ∧
  (failed' = true → failed = true ∨ ∃ k e w, (k, e) ∈ hs ∧ ws !! k = Some w ∧ retry_reason w = true).
Proof.
  revert ids failed. induction hs as [|[k e] hs IH]; intros ids failed; simpl.
  { intros [= <- <-]. split_and!; [set_solver|done|auto]. }
  destruct (ws !! k) as [w|] eqn:E; [|done]. destruct (retry_holder e ids w) eqn:Eh; [|done].
  intros (H1 & H2 & H3)%IH. split_and!.
  - intros k' e' [[= -> ->]|Hin]%elem_of_cons; [|by apply H1]. split; [set_solver|]. exists w. split; [done|].
    unfold retry_holder in *. rewrite (bool_decide_eq_false_2 (e ∈ ∅)) by set_solver.
    rewrite !andb_true_iff in *. tauto.
  - set_solver.
  - intros Hf. destruct (H3 Hf) as [Ho|(k' & e' & w' & Hin & ?)].
    + apply orb_true_iff in Ho as [?|?]; [by left|]. right. exists k, e, w. split; [by left|done].
    + right. exists k', e', w'. split; [by right|done].
Qed.

Lemma fresh_ids_spec ids new : fresh_ids ids new = true → NoDup new ∧ ∀ i, i ∈ new → i ∉ ids.
Proof.
  revert ids. induction new as [|i new IH]; intros ids; simpl; [intros _; split; [constructor|set_solver]|].
  intros [Hi [H1 H2]%IH]%andb_true_iff. bsplit. split.
  - constructor; [|done]. intros Hin. apply (H2 i Hin). set_solver.
  - intros j [->|Hj]%elem_of_cons; [done|]. specialize (H2 j Hj). set_solver.
Qed.

Lemma retried_spec id w :
  Inv w →
  Inv (retried id w) ∧ admission (ob (retried id w)) = Unpublished ∧ admissionID (ob (retried id w)) = id ∧
  retryPrepared (ob (retried id w)) = true ∧ failureReason (ob (retried id w)) = None ∧
  withdrawCtx (ob w) ∈ cancelled (retried id w) ∧ admissionResolved (ob (retried id w)) ∉ resolved w ∧
  ∀ f fl, heap w !! f = Some fl →
    heap (retried id w) !! f = Some (if bool_decide (f ∈ flows (ob w)) && local fl then closed_flow fl else fl).
Proof.
  intros I. unfold retried, retry_replace.
  set (w1 := cancel_ctx _ _). assert (Hr : next w ∉ resolved w).
  { intros Hin. pose proof (inv_fresh _ I (next w) (or_introl Hin)). lia. }
  assert (I1 : Inv w1).
  { destruct I as [P C R F H O U D]. split; simpl; try done.
    - split; [done|]. by intros [[? ?] ?].
    - intros n [?%(or_introl (B := n = admissionResolved (ob w)))%F| ->]; lia.
    - intros f fl Hf%H. lia. }
  destruct (close_locals_spec (List.filter (is_local w) (elements (flows (ob w)))) w1) as (K & O & C & H).
  split_and!; [by apply K|by rewrite O..| |by rewrite O|]; [rewrite C; simpl; set_solver|].
  intros f fl Hf. rewrite (H f fl Hf). f_equal. f_equal. destruct (local fl) eqn:El; [|by rewrite !andb_false_r].
  rewrite !andb_true_r. rewrite (bool_decide_ext _ (f ∈ flows (ob w))); [done|]. rewrite list_elem_of_In, filter_In, <- list_elem_of_In.
  unfold is_local. rewrite Hf. simpl. rewrite El. set_solver.
Qed.

Lemma retry_refused hs es ns ws k w :
  k ∈ hs → ws !! k = Some w → retryPrepared (ob w) = true → PrepareWindowsRetry hs es ns ws = (None, ws).
Proof.
  intros Hk Hw Hr. unfold PrepareWindowsRetry. destruct (_ || _) eqn:El; [done|]. case_goal; [done|].
  destruct ns as [new|]; [|done]. destruct (retry_check _ _ _ _) as [[ids failed]|] eqn:Ec; [|done].
  exfalso. apply list_elem_of_lookup in Hk as [i Hi]. bsplit.
  destruct (es !! i) as [e|] eqn:Ee.
  - destruct (retry_check_spec _ _ _ _ _ _ Ec) as [HC _]. destruct (HC k e) as [_ (w' & Hw' & Hh)].
    { apply list_elem_of_lookup. exists i. apply lookup_zip_with_Some. eauto. }
    rewrite Hw in Hw'. simplify_eq. unfold retry_holder in Hh. rewrite Hr in Hh. bsplit. done.
  - apply lookup_ge_None in Ee. apply lookup_lt_Some in Hi.
    repeat match goal with H : (_ =? _)%nat = true |- _ => apply Nat.eqb_eq in H end. lia.
Qed.

(** The retry of the Windows direct strategies is all or nothing.  When it
    refuses, no holder changed.  When it succeeds, every named holder was an
    open Windows holder under the expected id, not retried before, ready or
    failed, at least one with a failure a retry may answer; the new ids are
    distinct and none is an expected id; each holder now has a fresh
    unpublished admission under its new id with its old context cancelled and
    its state consistent, its local flows closed and every VPN flow exactly as
    it was; other holders are untouched, and a second retry that names one of
    them is refused. *)
Theorem retry_all_or_nothing holders expected newIDs ws :
  (∀ k w, ws !! k = Some w → Inv w) → (∀ new, newIDs = Some new → length new = length holders) →
  let '(res, ws') := PrepareWindowsRetry holders expected newIDs ws in
  match res with
  | None => ws' = ws
  | Some new =>
      newIDs = Some new ∧ NoDup new ∧ (∀ i, i ∈ new → i ∉ expected) ∧
      (∃ k w, k ∈ holders ∧ ws !! k = Some w ∧ retry_reason w = true) ∧
      (∀ k, k ∉ holders → ws' !! k = ws !! k) ∧
      (∀ i k, holders !! i = Some k → ∃ e n w w', expected !! i = Some e ∧ new !! i = Some n ∧
         ws !! k = Some w ∧ ws' !! k = Some w' ∧ retry_holder e ∅ w = true ∧ Inv w' ∧
         admission (ob w') = Unpublished ∧ admissionID (ob w') = n ∧ failureReason (ob w') = None ∧
         withdrawCtx (ob w) ∈ cancelled w' ∧ admissionResolved (ob w') ∉ resolved w ∧
         ∀ f fl, heap w !! f = Some fl →
           heap w' !! f = Some (if bool_decide (f ∈ flows (ob w)) && local fl then closed_flow fl else fl)) ∧
      (∀ hs es ns, (∃ k, k ∈ hs ∧ k ∈ holders) → PrepareWindowsRetry hs es ns ws' = (None, ws'))
  end.
Proof.
  intros HI Hlen. unfold PrepareWindowsRetry at 1.
  destruct (_ || _) eqn:El; [done|]. destruct (negb _ || _) eqn:En; [done|].
  destruct newIDs as [new|]; [|done]. specialize (Hlen new eq_refl).
  destruct (retry_check _ _ _ _) as [[ids failed]|] eqn:Ec; [|done].
  destruct (fresh_ids ids new) eqn:Ef; simpl; [|done]. destruct failed; simpl; [|done].
  bsplit. apply Nat.eqb_eq in H3. destruct (retry_check_spec _ _ _ _ _ _ Ec) as (C1 & _ & C2).
  destruct (fresh_ids_spec _ _ Ef) as [F1 F2].
  assert (Hfst : (zip holders new).*1 = holders) by (apply fst_zip; lia).
  destruct (retry_apply_spec (zip holders new) ws) as [A1 A2]; [by rewrite Hfst|]. rewrite Hfst in A1.
  assert (Hz : ∀ (l : list string) i k x, holders !! i = Some k → l !! i = Some x → (k, x) ∈ zip holders l).
  { intros l i k x Hk Hx. apply list_elem_of_lookup. exists i. apply lookup_zip_with_Some. eauto. }
  assert (Hh : ∀ i k, holders !! i = Some k → ∃ e n w, expected !! i = Some e ∧ new !! i = Some n ∧
     ws !! k = Some w ∧ retry_holder e ∅ w = true ∧ retry_apply ws (zip holders new) !! k = Some (retried n w)).
  { intros i k Hk. pose proof (lookup_lt_Some _ _ _ Hk).
    destruct (lookup_lt_is_Some_2 expected i) as [e He]; [lia|].
    destruct (lookup_lt_is_Some_2 new i) as [n Hn]; [lia|].
    destruct (C1 k e) as [_ (w & Hw & ?)]; [by eapply Hz|]. exists e, n, w. split_and!; try done.
    apply A2; [by eapply Hz|done]. }
  split_and!; try done.
  - intros i Hi He. apply (F2 i Hi). apply list_elem_of_lookup in He as [j Hj].
    destruct (lookup_lt_is_Some_2 holders j) as [k Hk]; [apply lookup_lt_Some in Hj; lia|].
    destruct (C1 k i) as [? _]; [by eapply Hz|done].
  - destruct (C2 eq_refl) as [?|(k & e & w & Hin & Hw & Hr)]; [done|]. exists k, w. split_and!; [|done..].
    by apply elem_of_zip_l in Hin.
  - intros i k Hk. destruct (Hh i k Hk) as (e & n & w & He & Hn & Hw & Hr & Hw').
    destruct (retried_spec n w (HI k w Hw)) as (S1 & S2 & S3 & S4 & S5 & S6 & S7 & S8).
    exists e, n, w, (retried n w). split_and!; done.
  - intros hs es ns (k & Hk & Hin). apply list_elem_of_lookup in Hin as [i Hi].
    destruct (Hh i k Hi) as (e & n & w & He & Hn & Hw & Hr & Hw').
    apply (retry_refused _ _ _ _ k (retried n w)); [done..|]. by apply retried_spec, (HI k).
Qed.

(** ** Examples *)

Definition ex_options : dpiOptions := mkDpiOptions [] 0 "" "eth0" "vpn" "youtube" true true.
Definition ex_world : world :=
  mkWorld (mkOutbound "dpi" "vpn" None "youtube" true true "id-1" Unpublished 0 zero_time 1 false false ∅ false 0 0 0 None)
    ∅ ∅ ∅ ∅ 2 false false.
Definition ex_ready : world := (AdmitAdmission "id-1" ex_world).2.
Definition ex_failed : world := failAdmission "id-1" EarlyRead ex_ready.

Lemma ex_ready_steps : rtc step ex_world ex_ready.
Proof. apply rtc_once, (step_admit ex_world "id-1"). Qed.
Lemma ex_failed_steps : rtc step ex_world ex_failed.
Proof. eapply rtc_r; [apply ex_ready_steps|apply (step_fail ex_ready "id-1")]. Qed.

Lemma admission_never_reopens_witness :
  IsReady (withdraw_section "id-1" ex_failed).2 = false ∧
  failureReason (ob (withdraw_section "id-1" ex_failed).2) = Some EarlyRead.
Proof.
  pose proof (admission_never_reopens "dpi" ex_options true true None (Ok "id-1") ex_world ex_failed
    (withdraw_section "id-1" ex_failed).2 ltac:(reflexivity) ex_failed_steps
    (rtc_once _ _ (step_withdraw ex_failed "id-1"))) as (_ & _ & _ & Hr & Hf & _).
  split; [apply Hf; by left|by apply Hr].
Defined.

(** A flow to a public address whose local dial fails falls back to the VPN. *)
Definition ex_conn : conn_input :=
  mkConn true 443 (AV4 16909060) (λ _, false) (λ _ w, w) (DialFailed None [NOther]) None (Ok 7%nat).


(** Two holders, one failed; the ids of the retry replace both. *)
Definition ex_other : world := ex_failed <| ob ::= λ h, h <| admissionID := "id-2" |> |>.
Definition ex_holders : gmap nat world := {[ 0%nat := ex_failed; 1%nat := ex_other ]}.

Lemma retry_all_or_nothing_witness :
  (PrepareWindowsRetry [0; 1]%nat ["id-1"; "id-2"] (Some ["id-3"; "id-4"]) ex_holders).1 = Some ["id-3"; "id-4"] ∧
  ∃ w', (PrepareWindowsRetry [0; 1]%nat ["id-1"; "id-2"] (Some ["id-3"; "id-4"]) ex_holders).2 !! 1%nat = Some w' ∧
    admissionID (ob w') = "id-4".
Proof.
  assert (HI : ∀ k w, ex_holders !! k = Some w → Inv w).
  { assert (I : Inv ex_failed).
    { apply (dpi_steps _ _ ex_failed_steps),
        (dpi_NewOutbound "dpi" ex_options true true None (Ok "id-1")). reflexivity. }
    intros k w. unfold ex_holders. rewrite lookup_insert_Some, lookup_singleton_Some.
    intros [[_ <-]|[_ [_ <-]]]; [exact I|]. destruct I as [I1 I2 I3 I4 I5 I6 I7 I8]. split; assumption. }
  pose proof (retry_all_or_nothing [0; 1]%nat ["id-1"; "id-2"] (Some ["id-3"; "id-4"]) ex_holders HI) as H.
  assert (E : (PrepareWindowsRetry [0; 1]%nat ["id-1"; "id-2"] (Some ["id-3"; "id-4"]) ex_holders).1
              = Some ["id-3"; "id-4"]) by (vm_compute; reflexivity).
  split; [exact E|]. destruct (PrepareWindowsRetry _ _ _ _) as [res ws']. simpl in *. subst res.
  destruct H as (_ & _ & _ & _ & _ & H & _); [by intros new [= <-]|].
  destruct (H 1%nat 1%nat eq_refl) as (e & n & w & w' & He & Hn & Hw & Hw' & _ & _ & _ & Hid & _).
  exists w'. split; [exact Hw'|]. injection Hn as <-. exact Hid.
Defined.
