(* ===== verification/UrlTest.v ===== *)
(** * The latency-selecting and the manual outbound groups

    Models [engine/sing-box/protocol/group/urltest.go] and [selector.go]: the
    choice of the best outbound from the measured delays, the update of the
    selection, the walk that tests a group's members, the ticker's life, and the
    manual selector with its persisted choice.

    The manager registers one outbound per tag, so an outbound is identified by
    its tag.  [n_now] is the answer of a group's [Now()] at that moment. *)

From stdpp Require Import base list strings gmap relations.
From Stdlib Require Import ZArith Lia.
From S2P Require Import Prelude GoTime UrlTestHistory.

Local Open Scope Z_scope.

Definition NetworkTCP : string := "tcp".
Definition NetworkUDP : string := "udp".

Inductive node_kind := Leaf | NestedURLTest | NestedGroup.

#[export] Instance node_kind_eq_dec : EqDecision node_kind.
Proof. solve_decision. Defined.

Record node := mkNode { n_kind : node_kind; n_networks : list string; n_members : list string; n_now : string }.

Abbreviation manager := (gmap string node).

(** ** The real tag behind a chain of groups ([selector.go]) *)

Fixpoint RealTag (fuel : nat) (mgr : manager) (tag : string) : option string :=
  match fuel with
  | O => None
  | S fuel =>
      match mgr !! tag with
      | None => Some tag
      | Some n => if bool_decide (n_kind n = Leaf) then Some tag else RealTag fuel mgr (n_now n)
      end
  end.

(** The number of outbounds bounds every chain that ends; a chain that does not
    end makes the code loop. *)
Definition real_fuel (mgr : manager) : nat := S (size mgr).
Definition real (mgr : manager) (tag : string) : string := default tag (RealTag (real_fuel mgr) mgr tag).

(** ** The URL-test group *)

Definition DefaultURLTestInterval : Z := 3 * Minute.
Definition DefaultURLTestIdleTimeout : Z := 30 * Minute.

(** [ticker] names the running ticker, [closeChan] is whether the close channel
    was closed, [interrupts] counts the interruptions of the connections. *)
Record URLTestGroup := mkGroup {
  outbounds : list string;
  preferredTags : list string;
  interval : Z;
  tolerance : Z;
  idleTimeout : Z;
  history : HistoryStorage;
  checking : bool;
  selectedOutboundTCP : option string;
  selectedOutboundUDP : option string;
  interrupts : nat;
  ticker : option nat;
  tickers : nat;
  callbacks : gset nat;
  closeChan : bool;
  panicked : bool;
  started : bool;
  lastActive : time
}.

#[export] Instance eta_URLTestGroup : Eta URLTestGroup := λ g,
  mkGroup (outbounds g) (preferredTags g) (interval g) (tolerance g) (idleTimeout g) (history g) (checking g)
    (selectedOutboundTCP g) (selectedOutboundUDP g) (interrupts g) (ticker g) (tickers g) (callbacks g) (closeChan g)
    (panicked g) (started g) (lastActive g).

Record urltest_options := mkURLTestOptions {
  opt_outbounds : list string;
  opt_preferred : list string;
  opt_interval : Z;
  opt_tolerance : Z;
  opt_idle : Z
}.

Definition NewURLTest (o : urltest_options) : result string urltest_options :=
  if bool_decide (opt_outbounds o = []) then Err "missing tags"
  else if negb (forallb (λ p, bool_decide (p ∈ opt_outbounds o)) (opt_preferred o))
  then Err "preferred outbound is not a group member"
  else Ok o.

Definition NewURLTestGroup (outs : list string) (iv tol idle : Z) (h : option HistoryStorage) : result string URLTestGroup :=
  let iv := if iv =? 0 then DefaultURLTestInterval else iv in
  let tol := if tol =? 0 then 50 else tol in
  let idle := if idle =? 0 then DefaultURLTestIdleTimeout else idle in
  if idle <? iv then Err "interval must be less or equal than idle_timeout"
  else match h with
       | None => Err "missing URL test history storage"
       | Some h => Ok (mkGroup outs [] iv tol idle h false None None 0 None 0 ∅ false false false zero_time)
       end.

(** [Start] of the outbound: every member must be registered. *)
Definition Start (mgr : manager) (h : option HistoryStorage) (o : urltest_options) : result string URLTestGroup :=
  if forallb (λ t, bool_decide (is_Some (mgr !! t))) (opt_outbounds o) then
    let? g := NewURLTestGroup (opt_outbounds o) (opt_interval o) (opt_tolerance o) (opt_idle o) h in
    Ok (g <| preferredTags := opt_preferred o |>)
  else Err "outbound not found".

(** *** Selection *)

Definition contains (l : list string) (t : string) : bool := bool_decide (t ∈ l).
Definition supports (mgr : manager) (net tag : string) : bool :=
  match mgr !! tag with Some n => contains (n_networks n) net | None => false end.

(** The usable delay of an outbound: recorded, and not the mark of a failure. *)
Definition avail (mgr : manager) (g : URLTestGroup) (tag : string) : option Z :=
  match loaded (real mgr tag) (history g) with
  | Some h => if Delay h =? unavailable_delay then None else Some (Delay h)
  | None => None
  end.

Definition preferredAvailable (mgr : manager) (net : string) (g : URLTestGroup) : bool :=
  existsb (λ t, contains (preferredTags g) t && supports mgr net t && bool_decide (is_Some (avail mgr g t))) (outbounds g).

Definition selected (net : string) (g : URLTestGroup) : option string :=
  if bool_decide (net = NetworkTCP) then selectedOutboundTCP g
  else if bool_decide (net = NetworkUDP) then selectedOutboundUDP g else None.

(** The starting point of the search: the current selection while it is usable. *)
Definition select_init (mgr : manager) (net : string) (g : URLTestGroup) : Z * option string :=
  match selected net g with
  | None => (0, None)
  | Some s =>
      match avail mgr g s with
      | None => (0, None)
      | Some d => if preferredAvailable mgr net g && negb (contains (preferredTags g) s) then (0, None) else (d, Some s)
      end
  end.

Definition select_step (mgr : manager) (net : string) (pref : bool) (g : URLTestGroup) (acc : Z * option string)
    (detour : string) : Z * option string :=
  if negb (supports mgr net detour) || (pref && negb (contains (preferredTags g) detour)) then acc
  else match avail mgr g detour with
       | None => acc
       | Some d => if (acc.1 =? 0) || (u32 (d + tolerance g) <? acc.1) then (d, Some detour) else acc
       end.

Definition Select (mgr : manager) (net : string) (g : URLTestGroup) : option string * bool :=
  let pref := preferredAvailable mgr net g in
  match (foldl (select_step mgr net pref g) (select_init mgr net g) (outbounds g)).2 with
  | Some o => (Some o, true)
  | None => (List.find (supports mgr net) (outbounds g), false)
  end.

Definition Now (mgr : manager) (g : URLTestGroup) : string :=
  match selectedOutboundTCP g, selectedOutboundUDP g with
  | Some t, _ => t
  | None, Some t => t
  | None, None => default "" (Select mgr NetworkTCP g).1
  end.

(** One network of [performUpdateCheck]: the new selection, and whether a
    selection was replaced. *)
Definition update_one (mgr : manager) (net : string) (g : URLTestGroup) : option string * bool :=
  match Select mgr net g with
  | (Some o, exists_) =>
      if bool_decide (selected net g = None) || (exists_ && negb (bool_decide (selected net g = Some o)))
      then (Some o, bool_decide (is_Some (selected net g)))
      else (selected net g, false)
  | (None, _) => (selected net g, false)
  end.

Definition performUpdateCheck (mgr : manager) (g : URLTestGroup) : URLTestGroup :=
  let '(tcp, u1) := update_one mgr NetworkTCP g in
  let g := g <| selectedOutboundTCP := tcp |> in
  let '(udp, u2) := update_one mgr NetworkUDP g in
  let g := g <| selectedOutboundUDP := udp |> in
  if u1 || u2 then g <| interrupts ::= S |> else g.

(** *** Dialling *)

(** [DialContext] and [ListenPacket]: the outbound they dial, and the history
    when its dial failed at [now]. *)
Definition dial_target (mgr : manager) (net : string) (g : URLTestGroup) : result string string :=
  if negb (contains [NetworkTCP; NetworkUDP] net) then Err "unknown network"
  else match selected net g with
       | Some o => Ok o
       | None => match (Select mgr net g).1 with Some o => Ok o | None => Err "missing supported outbound" end
       end.

Definition DialContext (mgr : manager) (net : string) (dial : string → bool) (now : time) (g : URLTestGroup)
    : result string string * URLTestGroup :=
  match dial_target mgr net g with
  | Err e => (Err e, g)
  | Ok o => if dial o then (Ok o, g) else (Err "dial", g <| history ::= DeleteURLTestHistory o now |>)
  end.
Definition ListenPacket (mgr : manager) := DialContext mgr NetworkUDP.

(** *** The ticker *)

Definition PostStart (now : time) (g : URLTestGroup) : URLTestGroup := g <| started := true |> <| lastActive := now |>.

Definition Touch (now : time) (g : URLTestGroup) : URLTestGroup :=
  if negb (started g) then g
  else match ticker g with
       | Some _ => g <| lastActive := now |>
       | None => g <| ticker := Some (tickers g) |> <| tickers ::= S |> <| callbacks ::= union {[tickers g]} |>
       end.

Definition stop_ticker (t : nat) (g : URLTestGroup) : URLTestGroup :=
  g <| ticker := None |> <| callbacks ::= λ c, c ∖ {[t]} |>.

Definition Close (g : URLTestGroup) : URLTestGroup :=
  match ticker g with
  | None => g
  | Some t =>
      let g := stop_ticker t g in
      if closeChan g then g <| panicked := true |> else g <| closeChan := true |>
  end.

(** The tick of [loopCheck] for ticker [t]: it retires an idle ticker, once. *)
Definition idle_check (t : nat) (now : time) (g : URLTestGroup) : bool * URLTestGroup :=
  if idleTimeout g <? Since (lastActive g) now
  then (true, if bool_decide (ticker g = Some t) then stop_ticker t g else g)
  else (false, g).

(** *** Testing the members *)

Inductive task := TestLeaf (tag : string) | TestNested (tag : string).
Definition task_tag (t : task) : string := match t with TestLeaf t | TestNested t => t end.

Record urlTestBatch := mkBatch { checked : gset string; groups : list string; tasks : list task }.

#[export] Instance eta_urlTestBatch : Eta urlTestBatch := λ b, mkBatch (checked b) (groups b) (tasks b).

Definition registered (mgr : manager) (l : list string) : list string :=
  List.filter (λ t, bool_decide (is_Some (mgr !! t))) l.

(** A recent measurement is not repeated unless the test is forced. *)
Definition fresh (g : URLTestGroup) (now : time) (tag : string) : bool :=
  match loaded tag (history g) with Some h => Since (Time h) now <? interval g | None => false end.

(** One member of the walk that starts the tests; [rec] walks the members of a
    nested group. *)
Definition visit (rec : list string → urlTestBatch → option urlTestBatch) (mgr : manager) (skip : string → bool)
    (t : string) (b : urlTestBatch) : option urlTestBatch :=
  if bool_decide (t ∈ checked b) then Some b
  else match mgr !! t with
       | None => Some b
       | Some n =>
           match n_kind n with
           | NestedURLTest =>
               Some (b <| checked ::= union {[t]} |> <| groups ::= λ l, l ++ [t] |> <| tasks ::= λ l, l ++ [TestNested t] |>)
           | NestedGroup =>
               rec (registered mgr (n_members n)) (b <| checked ::= union {[t]} |> <| groups ::= λ l, l ++ [t] |>)
           | Leaf =>
               if skip t then Some b
               else Some (b <| checked ::= union {[t]} |> <| tasks ::= λ l, l ++ [TestLeaf t] |>)
           end
       end.

Fixpoint walk (rec : list string → urlTestBatch → option urlTestBatch) (mgr : manager) (skip : string → bool)
    (outs : list string) (b : urlTestBatch) : option urlTestBatch :=
  match outs with
  | [] => Some b
  | t :: outs => b ← visit rec mgr skip t b; walk rec mgr skip outs b
  end.

(** The recursion enters a group only after marking it, so the number of
    outbounds bounds its depth. *)
Fixpoint test (fuel : nat) (mgr : manager) (skip : string → bool) (outs : list string) (b : urlTestBatch)
    : option urlTestBatch :=
  match fuel with
  | O => None
  | S fuel => walk (test fuel mgr skip) mgr skip outs b
  end.

Definition walk_fuel (mgr : manager) : nat := S (size mgr).

(** What one started test does: a leaf's probe returned a delay or an error, a
    nested group ran its own test. *)
Inductive outcome :=
| Measured (delay : Z) (now : time)
| Failed (batchOver : bool) (now : time)
| NestedRan (effect : HistoryStorage → HistoryStorage) (results : gmap string Z).

Definition run_task (s : HistoryStorage * gmap string Z) (t : task * outcome) : HistoryStorage * gmap string Z :=
  let '(h, r) := s in
  match t.2 with
  | Measured d now =>
      ((StoreURLTestHistory (task_tag t.1) (Some (mkHistory now d None false)) h).2, <[task_tag t.1 := d]> r)
  | Failed over now => if over then (h, r) else (DeleteURLTestHistory (task_tag t.1) now h, r)
  | NestedRan f rs => (f h, rs ∪ r)
  end.

(** [URLTestOutbounds]: [order] is the order in which the started tests finish. *)
Definition URLTestOutbounds (mgr : manager) (skip : string → bool) (outs : list string)
    (order : list task → list (task * outcome)) (h : HistoryStorage) : option (HistoryStorage * gmap string Z) :=
  b ← test (walk_fuel mgr) mgr skip outs (mkBatch ∅ [] []);
  let '(h, r) := foldl run_task (h, ∅) (order (tasks b)) in
  Some (h, foldl (λ r t, match loaded (real mgr t) h with Some x => <[t := Delay x]> r | None => r end) r (groups b)).

Definition urlTest (mgr : manager) (force : bool) (now : time) (order : list task → list (task * outcome))
    (g : URLTestGroup) : option (gmap string Z * URLTestGroup) :=
  if checking g then Some (∅, g)
  else
    '(h, r) ← URLTestOutbounds mgr (λ t, negb force && fresh g now t) (outbounds g) order (history g);
    Some (r, performUpdateCheck mgr (g <| history := h |>)).

(** ** The manual selector ([selector.go]) *)

(** [s_interrupts] counts the interruptions of the connections, [s_notified] the
    notifications of the history. *)
Record Selector := mkSelector {
  s_tag : string;
  s_tags : list string;
  s_default : string;
  s_outbounds : gset string;
  s_selected : option string;
  s_interrupts : nat;
  s_notified : nat
}.

#[export] Instance eta_Selector : Eta Selector := λ s,
  mkSelector (s_tag s) (s_tags s) (s_default s) (s_outbounds s) (s_selected s) (s_interrupts s) (s_notified s).

Definition NewSelector (tag : string) (tags : list string) (dflt : string) : result string Selector :=
  if bool_decide (tags = []) then Err "missing tags" else Ok (mkSelector tag tags dflt ∅ None 0 0).

(** The selection file: the recorded tag of each selector. *)
Abbreviation cache_file := (gmap string string).

Definition cached (cache : option cache_file) (s : Selector) : string :=
  if bool_decide (s_tag s = "") then ""
  else match cache with Some c => default "" (c !! s_tag s) | None => "" end.

Definition selector_Start (mgr : manager) (cache : option cache_file) (s : Selector) : result string Selector :=
  if forallb (λ t, bool_decide (is_Some (mgr !! t))) (s_tags s) then
    let s := s <| s_outbounds := list_to_set (s_tags s) |> in
    let c := cached cache s in
    if negb (bool_decide (c = "")) && bool_decide (c ∈ s_outbounds s) then Ok (s <| s_selected := Some c |>)
    else if negb (bool_decide (s_default s = "")) then
      if bool_decide (s_default s ∈ s_outbounds s) then Ok (s <| s_selected := Some (s_default s) |>)
      else Err "default outbound not found"
    else Ok (s <| s_selected := head (s_tags s) |>)
  else Err "outbound not found".

(** [stored] is whether the write to the file succeeds, [hasHistory] whether the
    context has a history to notify. *)
Definition SelectOutbound (tag : string) (stored hasHistory : bool) (cache : option cache_file) (s : Selector)
    : bool * option cache_file * Selector :=
  if negb (bool_decide (tag ∈ s_outbounds s)) then (false, cache, s)
  else if bool_decide (s_selected s = Some tag) then (true, cache, s)
  else
    let cache := if negb (bool_decide (s_tag s = "")) && stored then insert (s_tag s) tag <$> cache else cache in
    (true, cache, s <| s_selected := Some tag |> <| s_interrupts ::= S |>
                    <| s_notified ::= λ n, if hasHistory then S n else n |>).

Definition selector_Now (s : Selector) : option string :=
  match s_selected s with Some t => Some t | None => head (s_tags s) end.

Definition selector_Network (mgr : manager) (s : Selector) : list string :=
  match s_selected s with
  | None => [NetworkTCP; NetworkUDP]
  | Some t => from_option n_networks [] (mgr !! t)
  end.

(** What the monitor is asked for after a selection. *)
Inductive ping := TestNow (tag : string) | SignalChange (tag : string).

Definition pingSelected (monitorRealTag : string → string) (mgr : manager) (s : Selector) : option ping :=
  t ← s_selected s;
  n ← mgr !! monitorRealTag t;
  Some (if bool_decide (n_kind n = Leaf) then TestNow (monitorRealTag t) else SignalChange (s_tag s)).

(** ** Selection: nothing beats the choice by more than the tolerance *)

(** The candidates of the search. *)
Definition candidate (mgr : manager) (net : string) (g : URLTestGroup) (t : string) (d : Z) : Prop :=
  t ∈ outbounds g ∧ supports mgr net t = true ∧ avail mgr g t = Some d ∧
  (preferredAvailable mgr net g = true → t ∈ preferredTags g).

(** The current selection takes part in the search. *)
Definition incumbent (mgr : manager) (net : string) (g : URLTestGroup) (t : string) (d : Z) : Prop :=
  selected net g = Some t ∧ avail mgr g t = Some d ∧ (preferredAvailable mgr net g = true → t ∈ preferredTags g).

(** Delays and tolerance are 16-bit values; a measured delay is positive. *)
Definition delays_ok (mgr : manager) (g : URLTestGroup) : Prop :=
  0 ≤ tolerance g ≤ 65535 ∧ ∀ t d, avail mgr g t = Some d → 0 < d < 65535.

Lemma tier_test (p : bool) l t : p && negb (contains l t) = false ↔ (p = true → t ∈ l).
Proof. unfold contains. destruct p; simpl; [|naive_solver]. rewrite negb_false_iff, bool_decide_eq_true. naive_solver. Qed.
Lemma tier_test_true (p : bool) l t : p && negb (contains l t) = true → p = true ∧ t ∉ l.
Proof. unfold contains. intros. by bsplit. Qed.

Lemma select_init_spec mgr net g :
  select_init mgr net g = (0, None) ∧ (∀ t d, ¬ incumbent mgr net g t d) ∨
  ∃ t d, select_init mgr net g = (d, Some t) ∧ incumbent mgr net g t d.
Proof.
  unfold select_init, incumbent. destruct (selected net g) as [s|] eqn:Es; [|left; split; [done|naive_solver]].
  destruct (avail mgr g s) as [d|] eqn:Ea; [|left; split; [done|naive_solver]].
  destruct (preferredAvailable mgr net g && _) eqn:Ep.
  - left. split; [done|]. intros t d' ([= <-] & _ & Hp). apply tier_test_true in Ep as [? ?]. auto.
  - right. exists s, d. split_and!; [done..|]. by apply tier_test.
Qed.

(** What the search has established after a prefix [seen] of the members. *)
Record sel_inv (mgr : manager) (net : string) (g : URLTestGroup) (seen : list string) (acc : Z * option string) : Prop :=
  mkSelInv {
  sel_none : acc.2 = None → acc.1 = 0 ∧ (∀ t d, ¬ incumbent mgr net g t d) ∧
    (∀ t d, t ∈ seen → ¬ candidate mgr net g t d);
  sel_some : ∀ o, acc.2 = Some o → avail mgr g o = Some acc.1 ∧
    (incumbent mgr net g o acc.1 ∨ candidate mgr net g o acc.1) ∧
    (∀ t d, t ∈ seen → candidate mgr net g t d → acc.1 ≤ d + tolerance g) ∧
    (∀ t d, incumbent mgr net g t d → t = o ∨ acc.1 + tolerance g < d)
}.

Lemma select_step_inv mgr net g seen t acc :
  delays_ok mgr g → t ∈ outbounds g → sel_inv mgr net g seen acc →
  sel_inv mgr net g (t :: seen) (select_step mgr net (preferredAvailable mgr net g) g acc t).
Proof.
  intros [Ht Hd] Hin [N S]. unfold select_step.
  assert (Hskip : (∀ d, ¬ candidate mgr net g t d) → sel_inv mgr net g (t :: seen) acc).
  { intros Hc. split; [intros E|intros o E]; [destruct (N E) as (? & ? & H)|destruct (S o E) as (? & ? & H & ?)];
      split_and!; try done; intros t' d [->|?]%elem_of_cons; try naive_solver; by eapply H. }
  destruct (_ || _) eqn:E1.
  { apply Hskip. intros d (_ & Hs & _ & Hp). rewrite Hs in E1. simpl in E1. apply tier_test_true in E1 as [? ?]. auto. }
  destruct (avail mgr g t) as [d|] eqn:Ea; [|apply Hskip; unfold candidate; naive_solver].
  assert (Hc : candidate mgr net g t d).
  { apply orb_false_iff in E1 as [Hs%negb_false_iff Hp]. split_and!; [done..|]. by apply tier_test. }
  pose proof (Hd t d Ea) as Hpos. assert (Hu : u32 (d + tolerance g) = d + tolerance g) by (apply wrap_small; lia).
  clear E1. rewrite Hu. destruct acc as [m [o|]]; simpl in *.
  - destruct (S o eq_refl) as (A & B & C & D). pose proof (Hd o m A) as Hm.
    destruct (_ || _) eqn:E2.
    + apply orb_true_iff in E2 as [E2|E2]; [lia|]. apply Z.ltb_lt in E2. split; simpl; [done|]. intros o' [= <-].
      split_and!; [done|by right| |].
      * intros t' d' [->|Ht']%elem_of_cons Hc'; [|pose proof (C t' d' Ht' Hc'); lia].
        destruct Hc' as (_ & _ & ? & _). simplify_eq. lia.
      * intros t' d' Hi. right. destruct (D t' d' Hi) as [->|]; [|lia].
        destruct Hi as (_ & ? & _). simplify_eq. lia.
    + apply orb_false_iff in E2 as [_ E2]. apply Z.ltb_ge in E2. split; simpl; [done|]. intros o' [= <-].
      split_and!; [done..| |done]. intros t' d' [->|Ht']%elem_of_cons Hc'; [|by eapply C].
      destruct Hc' as (_ & _ & ? & _). simplify_eq. lia.
  - destruct (N eq_refl) as (-> & Hi & Hn). rewrite Z.eqb_refl. simpl. split; simpl; [done|]. intros o' [= <-].
    split_and!; [done|by right| |intros t' d' ?; by destruct (Hi t' d')].
    intros t' d' [->|Ht']%elem_of_cons Hc'; [|by destruct (Hn t' d')].
    destruct Hc' as (_ & _ & ? & _). simplify_eq. lia.
Qed.

Lemma select_loop_inv mgr net g l seen acc :
  delays_ok mgr g → l ⊆ outbounds g → sel_inv mgr net g seen acc →
  sel_inv mgr net g (reverse l ++ seen) (foldl (select_step mgr net (preferredAvailable mgr net g) g) acc l).
Proof.
  intros Hd. revert seen acc. induction l as [|t l IH]; intros seen acc Hl I; [done|].
  rewrite reverse_cons, <- app_assoc. simpl. apply IH; [set_solver|]. apply select_step_inv; [done|set_solver|done].
Qed.

Lemma select_inv mgr net g :
  delays_ok mgr g →
  sel_inv mgr net g (outbounds g)
    (foldl (select_step mgr net (preferredAvailable mgr net g) g) (select_init mgr net g) (outbounds g)).
Proof.
  intros Hd. assert (I : sel_inv mgr net g [] (select_init mgr net g)).
  { destruct (select_init_spec mgr net g) as [[-> Hn]|(t & d & -> & Hi)]; split; simpl; try done.
    - intros _. split_and!; [done..|set_solver].
    - intros o [= <-]. split_and!; [apply Hi|by left|set_solver|].
      intros t' d' Hi'. destruct Hi as (E & _), Hi' as (E' & _). left. congruence. }
  destruct (select_loop_inv mgr net g (outbounds g) [] _ Hd ltac:(done) I) as [N S].
  split; [intros E|intros o E]; [destruct (N E) as (? & ? & H)|destruct (S o E) as (? & ? & H & ?)]; split_and!; try done;
    intros t d Ht; apply H; rewrite app_nil_r; by apply elem_of_reverse.
Qed.

(** The choice of one search. *)
Lemma select_spec mgr net g :
  delays_ok mgr g →
  match Select mgr net g with
  | (Some o, true) => ∃ d, avail mgr g o = Some d ∧
      (incumbent mgr net g o d ∨ candidate mgr net g o d) ∧
      (∀ t d', candidate mgr net g t d' → d ≤ d' + tolerance g) ∧
      (∀ t d', incumbent mgr net g t d' → t = o ∨ d + tolerance g < d')
  | (r, _) =>
      (∀ t d, ¬ candidate mgr net g t d) ∧ (∀ t d, ¬ incumbent mgr net g t d) ∧
      (∀ o, r = Some o → o ∈ outbounds g ∧ supports mgr net o = true) ∧
      (r = None → ∀ t, t ∈ outbounds g → supports mgr net t = false)
  end.
Proof.
  intros Hd. pose proof (select_inv mgr net g Hd) as [N S]. unfold Select. cbv zeta.
  destruct (foldl _ _ _) as [m [o|]]; simpl in *.
  - destruct (S o eq_refl) as (A & B & C & D). exists m. split_and!; [done..| |done].
    intros t d' Hc. by eapply C; [apply Hc|].
  - destruct (N eq_refl) as (_ & Hi & Hn).
    assert (Hf : (∀ o, List.find (supports mgr net) (outbounds g) = Some o → o ∈ outbounds g ∧ supports mgr net o = true) ∧
      (List.find (supports mgr net) (outbounds g) = None → ∀ t, t ∈ outbounds g → supports mgr net t = false)).
    { split; [intros o [? ?]%find_some; by rewrite list_elem_of_In|].
      intros E t Ht. eapply find_none; [exact E|by apply list_elem_of_In]. }
    destruct Hf. destruct (List.find _ _); split_and!; try done; intros t d Hc; by eapply Hn; [apply Hc|].
Qed.

(** A selection that no candidate beats by more than the tolerance, and that
    gave up the current one only for one faster by more than it. *)
Definition good_choice (mgr : manager) (net : string) (g : URLTestGroup) (sel : option string) : Prop :=
  (∀ t d, candidate mgr net g t d → ∃ o d', sel = Some o ∧ avail mgr g o = Some d' ∧ d' ≤ d + tolerance g ∧
     (preferredAvailable mgr net g = true → o ∈ preferredTags g)) ∧
  (∀ s d, incumbent mgr net g s d → sel = Some s ∨
     ∃ o d', sel = Some o ∧ avail mgr g o = Some d' ∧ d' + tolerance g < d).

(** One network of the update: the outbound that is selected afterwards. *)
Lemma update_one_spec mgr net g :
  delays_ok mgr g →
  let sel := (update_one mgr net g).1 in
  ((update_one mgr net g).2 = true ↔ is_Some (selected net g) ∧ sel ≠ selected net g) ∧
  (is_Some (selected net g) → is_Some sel) ∧
  ((∀ t d, ¬ candidate mgr net g t d) → is_Some (selected net g) → sel = selected net g) ∧
  (selected net g = None → (∃ t, t ∈ outbounds g ∧ supports mgr net t = true) → is_Some sel) ∧
  good_choice mgr net g sel.
Proof.
  intros Hd. pose proof (select_spec mgr net g Hd) as H. unfold update_one.
  assert (Hempty : (∀ t d, ¬ candidate mgr net g t d) → (∀ t d, ¬ incumbent mgr net g t d) → ∀ x, good_choice mgr net g x).
  { intros Hc Hi x. split; [intros t d Ht; by destruct (Hc t d)|intros s d Ht; by destruct (Hi s d)]. }
  destruct (Select mgr net g) as [[o|] []] eqn:E; simpl in H.
  - destruct H as (d & Ha & Hw & Hc & Hi).
    assert (Ho : preferredAvailable mgr net g = true → o ∈ preferredTags g) by (destruct Hw as [Hw|Hw]; apply Hw).
    assert (Hno : (∀ t d, ¬ candidate mgr net g t d) → selected net g = Some o).
    { intros Hn. destruct Hw as [Hw|Hw]; [apply Hw|by destruct (Hn o d)]. }
    assert (Hsel : good_choice mgr net g (Some o)).
    { split.
      - intros t d' Ht. exists o, d. eauto.
      - intros s d' Hs. destruct (Hi s d' Hs) as [->|Hlt]; [by left|right]. exists o, d. eauto. }
    destruct (selected net g) as [s|] eqn:Es; simpl.
    + case_bool_decide as Ec; simpl.
      * simplify_eq. split_and!; [naive_solver|done..].
      * split_and!; [naive_solver|done| |done|done]. intros Hn _. by rewrite Hno.
    + split_and!; [naive_solver|done|by intros ? []|done..].
  - destruct H as (Hc & Hi & Hf & _). destruct (selected net g) as [s|] eqn:Es; simpl.
    + split_and!; [naive_solver|done..|by apply Hempty].
    + split_and!; [naive_solver|done|by intros ? []|done|by apply Hempty].
  - destruct H as (Hc & Hi & _ & Hf). split_and!; [naive_solver|done..| |by apply Hempty].
    intros _ (t & Ht & Hs). by rewrite Hf in Hs.
  - destruct H as (Hc & Hi & _ & Hf). split_and!; [naive_solver|done..| |by apply Hempty].
    intros _ (t & Ht & Hs). by rewrite Hf in Hs.
Qed.

(** An update of the URL-test group, with positive measured delays.  For TCP
    and for UDP: a selection is never lost; while nothing usable is measured it
    stays, and without one the first supporting member is taken; otherwise the
    selected outbound has a usable delay, is of the preferred tier whenever that
    tier has a usable member, and no candidate is faster by more than the
    tolerance; a usable selection of the right tier is given up only for one
    faster by more than the tolerance.  Existing connections are interrupted,
    once, exactly when a previous selection was replaced, and nothing else of the
    group changes. *)
Theorem select_near_minimum mgr g :
  delays_ok mgr g →
  let g' := performUpdateCheck mgr g in
  (∀ net, net = NetworkTCP ∨ net = NetworkUDP →
     (is_Some (selected net g) → is_Some (selected net g')) ∧
     ((∀ t d, ¬ candidate mgr net g t d) → is_Some (selected net g) → selected net g' = selected net g) ∧
     (selected net g = None → (∃ t, t ∈ outbounds g ∧ supports mgr net t = true) → is_Some (selected net g')) ∧
     good_choice mgr net g (selected net g')) ∧
  (interrupts g' = interrupts g + Nat.b2n (bool_decide
     ((is_Some (selectedOutboundTCP g) ∧ selectedOutboundTCP g' ≠ selectedOutboundTCP g) ∨
      (is_Some (selectedOutboundUDP g) ∧ selectedOutboundUDP g' ≠ selectedOutboundUDP g))))%nat ∧
  (outbounds g', preferredTags g', tolerance g', history g', ticker g', closeChan g', panicked g') =
  (outbounds g, preferredTags g, tolerance g, history g, ticker g, closeChan g, panicked g).
Proof.
  intros Hd. cbv zeta. unfold performUpdateCheck.
  destruct (update_one_spec mgr NetworkTCP g Hd) as (U1 & A1). destruct (update_one mgr NetworkTCP g) as [tcp u1].
  set (g1 := g <| selectedOutboundTCP := tcp |>).
  assert (Eu : update_one mgr NetworkUDP g1 = update_one mgr NetworkUDP g) by done. rewrite Eu.
  destruct (update_one_spec mgr NetworkUDP g Hd) as (U2 & A2). destruct (update_one mgr NetworkUDP g) as [udp u2].
  cbn [fst snd] in *.
  change (selected NetworkTCP g) with (selectedOutboundTCP g) in *.
  change (selected NetworkUDP g) with (selectedOutboundUDP g) in *.
  destruct (u1 || u2) eqn:Eb; simpl; split_and!; try done;
    try (intros net [-> | ->]; [exact A1|exact A2]).
  - rewrite bool_decide_eq_true_2; [simpl; lia|]. apply orb_true_iff in Eb. tauto.
  - rewrite bool_decide_eq_false_2; [simpl; lia|]. apply orb_false_iff in Eb as [-> ->]. intuition congruence.
Qed.

(** A selection example: the slow selection is replaced, the near one is not. *)
Definition ex_mgr : manager :=
  {[ "a" := mkNode Leaf ["tcp"; "udp"] [] ""; "b" := mkNode Leaf ["tcp"] [] "";
     "g" := mkNode NestedGroup ["tcp"; "udp"] ["a"; "b"] "b" ]}.
Definition ex_entry (d : Z) : URLTestHistory := mkHistory (mkTime 1 None) d None false.
Definition ex_history (l : list (string * Z)) : HistoryStorage :=
  foldl (λ s x, (StoreURLTestHistory x.1 (Some (ex_entry x.2)) s).2) NewHistoryStorage l.
Definition ex_group (tcp : option string) (l : list (string * Z)) : URLTestGroup :=
  mkGroup ["a"; "b"] [] (3 * Minute) 50 (30 * Minute) (ex_history l) false tcp None 0 None 0 ∅ false false true zero_time.

Lemma real_ex : real ex_mgr "g" = "b" ∧ real ex_mgr "a" = "a".
Proof. by split. Qed.

Lemma ex_delays_ok : delays_ok ex_mgr (ex_group (Some "a") [("a", 300); ("b", 200)]).
Proof.
  split; [done|]. intros t d. unfold avail.
  assert (H : ∀ r, loaded r (ex_history [("a", 300); ("b", 200)]) = None ∨
    loaded r (ex_history [("a", 300); ("b", 200)]) = Some (ex_entry 300) ∨
    loaded r (ex_history [("a", 300); ("b", 200)]) = Some (ex_entry 200)).
  { intros r. unfold loaded, LoadURLTestHistory. simpl.
    destruct (decide (r = "b")) as [->|]; [by right; right|]. rewrite lookup_insert_ne by done.
    destruct (decide (r = "a")) as [->|]; [by right; left|]. rewrite lookup_insert_ne by done. by left. }
  cbn [history ex_group]. destruct (H (real ex_mgr t)) as [-> |[-> | ->]]; [done|intros [= <-]; lia..].
Qed.

Lemma select_near_minimum_witness :
  let g := ex_group (Some "a") [("a", 300); ("b", 200)] in
  selectedOutboundTCP (performUpdateCheck ex_mgr g) = Some "b" ∧ interrupts (performUpdateCheck ex_mgr g) = 1%nat.
Proof.
  destruct (select_near_minimum ex_mgr _ ex_delays_ok) as (_ & Hi & _).
  split; [reflexivity|]. rewrite Hi. reflexivity.
Defined.

(** A delay below one millisecond is recorded as zero, which the search also uses
    for "nothing found yet": the fastest member is passed over. *)
Lemma zero_delay_passed_over :
  (Select ex_mgr NetworkTCP (ex_group None [("a", 0); ("b", 300)])) = (Some "b", true).
Proof. reflexivity. Qed.

(** The failed dial of a member that is itself a group is recorded under the
    group's tag, which the search does not read. *)
Lemma nested_dial_failure_ignored :
  let g := (ex_group (Some "g") [("a", 300); ("b", 200)]) <| outbounds := ["g"; "a"] |> in
  (DialContext ex_mgr NetworkTCP (λ _, false) (mkTime 2 None) g).1 = Err "dial" ∧
  Select ex_mgr NetworkTCP (DialContext ex_mgr NetworkTCP (λ _, false) (mkTime 2 None) g).2 = (Some "g", true).
Proof. split; reflexivity. Qed.

(** ** The chain of groups *)

Lemma RealTag_mono mgr f f' t r : (f ≤ f')%nat → RealTag f mgr t = Some r → RealTag f' mgr t = Some r.
Proof.
  revert f' t. induction f as [|f IH]; intros [|f'] t Hf; simpl; try done; [lia|].
  destruct (mgr !! t); [|done]. case_goal; [done|]. apply IH. lia.
Qed.

Lemma RealTag_least mgr f t r : RealTag f mgr t = Some r →
  ∃ k, (k ≤ f)%nat ∧ RealTag k mgr t = Some r ∧ ∀ j, (j < k)%nat → RealTag j mgr t = None.
Proof.
  induction f as [|f IH]; intros H; [done|]. destruct (RealTag f mgr t) as [r'|] eqn:E.
  - assert (r' = r) as -> by (apply (RealTag_mono _ _ (S f)) in E; [congruence|lia]).
    destruct (IH eq_refl) as (k & ? & ? & ?). exists k. split_and!; [lia|done..].
  - exists (S f). split_and!; [lia|done|]. intros j Hj. destruct (RealTag j mgr t) eqn:Ej; [|done].
    apply (RealTag_mono _ _ f) in Ej; [congruence|lia].
Qed.

Lemma RealTag_enough mgr fuel t h r (seen : gset string) :
  RealTag h mgr t = Some r → (∀ j, (j < h)%nat → RealTag j mgr t = None) →
  (∀ s, s ∈ seen → RealTag h mgr s = None) → seen ⊆ dom mgr → (size mgr < fuel + size seen)%nat →
  RealTag fuel mgr t = Some r.
Proof.
  revert t seen h. induction fuel as [|fuel IH]; intros t seen h Hp Hl Hs Hd Hf.
  { exfalso. apply subseteq_size in Hd. rewrite size_dom in Hd. lia. }
  destruct h as [|h]; [done|]. pose proof Hp as Hp'. simpl in Hp |- *.
  destruct (mgr !! t) as [n|] eqn:E; [|done]. case_goal; [done|].
  assert (Ht : t ∉ seen) by (intros Ht; rewrite Hs in Hp' by done; done).
  destruct (RealTag_least _ _ _ _ Hp) as (k & Hk & Hpk & Hlk). apply (IH _ ({[t]} ∪ seen) k); [done|done| | |].
  - intros s [->%elem_of_singleton|Hin]%elem_of_union; [apply Hl; lia|].
    destruct (RealTag k mgr s) eqn:Ek; [|done]. specialize (Hs s Hin). apply (RealTag_mono _ _ (S h)) in Ek; [congruence|lia].
  - apply union_subseteq. split; [|done]. apply singleton_subseteq_l, elem_of_dom. by eexists.
  - rewrite size_union, size_singleton by set_solver. lia.
Qed.

(** The fuel is enough for every chain that ends at all. *)
Lemma RealTag_fuel mgr f t r : RealTag f mgr t = Some r → RealTag (real_fuel mgr) mgr t = Some r.
Proof.
  intros H. destruct (RealTag_least _ _ _ _ H) as (k & _ & Hk & Hl).
  apply (RealTag_enough mgr _ t k r ∅); [done..|set_solver|set_solver|]. unfold real_fuel. rewrite size_empty. lia.
Qed.

(** ** The walk over the members *)

(** The outbounds a test of [outs] is about: groups are entered, URL-test groups
    test their own members. *)
Inductive Reach (mgr : manager) (outs : list string) : string → Prop :=
| reach_in t : t ∈ outs → Reach mgr outs t
| reach_member t n m :
    Reach mgr outs t → mgr !! t = Some n → n_kind n = NestedGroup → m ∈ n_members n → is_Some (mgr !! m) → Reach mgr outs m.

Section walk.
Context (mgr : manager) (skip : string → bool).

(** A member is done: tested, entered, or a leaf that is skipped. *)
Definition covered (b : urlTestBatch) (t : string) : Prop :=
  t ∈ checked b ∨ (skip t = true ∧ ∃ n, mgr !! t = Some n ∧ n_kind n = Leaf).

(** What a walk over [outs] did. *)
Record walked (outs : list string) (b b' : urlTestBatch) : Prop := mkWalked {
  wk_mono : checked b ⊆ checked b';
  wk_outs : ∀ t, t ∈ outs → is_Some (mgr !! t) → covered b' t;
  wk_groups : ∀ t n, t ∈ checked b' → t ∉ checked b → mgr !! t = Some n → n_kind n = NestedGroup →
    ∀ m, m ∈ n_members n → is_Some (mgr !! m) → covered b' m;
  wk_leaf : ∀ t n, t ∈ checked b' → t ∉ checked b → mgr !! t = Some n → n_kind n = Leaf → TestLeaf t ∈ tasks b' ∧ skip t = false;
  wk_nested : ∀ t n, t ∈ checked b' → t ∉ checked b → mgr !! t = Some n → n_kind n = NestedURLTest → TestNested t ∈ tasks b';
  wk_reach : ∀ t, t ∈ checked b' → t ∉ checked b → Reach mgr outs t;
  wk_tasks : ∃ new, tasks b' = tasks b ++ new ∧ NoDup (task_tag <$> new) ∧
    ∀ x, x ∈ new → task_tag x ∈ checked b' ∧ task_tag x ∉ checked b
}.

Lemma covered_mono b b' t : checked b ⊆ checked b' → covered b t → covered b' t.
Proof. unfold covered. set_solver. Qed.

Lemma reach_weaken outs outs' t : (∀ x, x ∈ outs → Reach mgr outs' x) → Reach mgr outs t → Reach mgr outs' t.
Proof. intros H. induction 1; [auto|]. by eapply reach_member. Qed.

Lemma walked_refl b : walked [] b b.
Proof. split; try done; [set_solver..|]. exists []. rewrite app_nil_r. split_and!; [done|constructor|set_solver]. Qed.

(** A walk over one member followed by a walk over the others. *)
Lemma walked_cons t outs b1 b2 b3 : walked [t] b1 b2 → walked outs b2 b3 → walked (t :: outs) b1 b3.
Proof.
  intros [M1 O1 G1 L1 N1 R1 (n1 & E1 & D1 & F1)] [M2 O2 G2 L2 N2 R2 (n2 & E2 & D2 & F2)]. split.
  - set_solver.
  - intros x [->|Hx]%elem_of_cons Hs; [|by apply O2]. eapply covered_mono; [exact M2|]. apply O1; [by left|done].
  - intros x n Hx Hn ? ? m ? ?. destruct (decide (x ∈ checked b2)); [|by eapply G2].
    eapply covered_mono; [exact M2|]. by eapply G1.
  - intros x n Hx Hn ? ?. destruct (decide (x ∈ checked b2)); [|by eapply L2].
    destruct (L1 x n) as [? ?]; [done..|]. split; [|done]. rewrite E2. set_solver.
  - intros x n Hx Hn ? ?. destruct (decide (x ∈ checked b2)); [|by eapply N2].
    rewrite E2. apply elem_of_app. left. by eapply N1.
  - intros x Hx Hn. destruct (decide (x ∈ checked b2)).
    + eapply reach_weaken; [|by apply R1]. intros y ->%list_elem_of_singleton. apply reach_in. by left.
    + eapply reach_weaken; [|by apply R2]. intros y Hy. apply reach_in. by right.
  - exists (n1 ++ n2). rewrite E2, E1, app_assoc. split_and!; [done| |].
    + rewrite fmap_app. apply NoDup_app. split_and!; [done| |done]. intros x (y & -> & Hy)%list_elem_of_fmap (z & Ez & Hz)%list_elem_of_fmap.
      destruct (F1 y Hy) as [? _], (F2 z Hz) as [_ ?]. rewrite Ez in *. done.
    + intros x [Hx|Hx]%elem_of_app; [destruct (F1 x Hx)|destruct (F2 x Hx)]; set_solver.
Qed.

Lemma walked_skip t b : (is_Some (mgr !! t) → covered b t) → walked [t] b b.
Proof.
  intros H. split; try done; [|set_solver..|].
  - intros x ->%list_elem_of_singleton. exact H.
  - exists []. rewrite app_nil_r. split_and!; [done|constructor|set_solver].
Qed.

(** Marking a member that starts its own test. *)
Lemma walked_task t n b b' x :
  t ∉ checked b → mgr !! t = Some n → checked b' = {[t]} ∪ checked b → tasks b' = tasks b ++ [x] → task_tag x = t →
  (n_kind n = Leaf → x = TestLeaf t ∧ skip t = false) → (n_kind n = NestedURLTest → x = TestNested t) →
  n_kind n ≠ NestedGroup → walked [t] b b'.
Proof.
  intros Hn Hm Ec Et Hx Hl Hu Hg.
  assert (Honly : ∀ y, y ∈ checked b' → y ∉ checked b → y = t) by (rewrite Ec; set_solver).
  split.
  - rewrite Ec. set_solver.
  - intros y ->%list_elem_of_singleton _. left. rewrite Ec. set_solver.
  - intros y ny Hy Hy' Hm'. rewrite (Honly y Hy Hy') in Hm'. by simplify_eq.
  - intros y ny Hy Hy' Hm' Hk. rewrite (Honly y Hy Hy') in *. simplify_eq. destruct (Hl Hk) as [-> ?].
    rewrite Et. split; [set_solver|done].
  - intros y ny Hy Hy' Hm' Hk. rewrite (Honly y Hy Hy') in *. simplify_eq. rewrite (Hu Hk) in *. rewrite Et. set_solver.
  - intros y Hy Hy'. rewrite (Honly y Hy Hy'). apply reach_in. by left.
  - exists [x]. split_and!; [done| |].
    + simpl. apply NoDup_singleton.
    + intros y ->%list_elem_of_singleton. rewrite Hx, Ec. set_solver.
Qed.

(** Entering a group. *)
Lemma walked_group t n b b1 b' :
  t ∉ checked b → mgr !! t = Some n → n_kind n = NestedGroup → checked b1 = {[t]} ∪ checked b → tasks b1 = tasks b →
  walked (registered mgr (n_members n)) b1 b' → walked [t] b b'.
Proof.
  intros Hn Hm Hk Ec Et [M O G L N R (new & E & D & F)]. rewrite Ec in *. rewrite Et in *.
  assert (Hreg : ∀ m, m ∈ registered mgr (n_members n) ↔ m ∈ n_members n ∧ is_Some (mgr !! m)).
  { intros m. unfold registered. rewrite list_elem_of_In, filter_In, <- list_elem_of_In, bool_decide_eq_true. done. }
  assert (Hself : ∀ y, y ∈ checked b' → y ∉ checked b → y = t ∨ y ∉ {[t]} ∪ checked b).
  { intros y _ Hy. destruct (decide (y = t)); [by left|right]. rewrite elem_of_union, elem_of_singleton. tauto. }
  split.
  - set_solver.
  - intros y ->%list_elem_of_singleton _. left. set_solver.
  - intros y ny Hy Hy' Hm' Hk' m Hin Hs. destruct (Hself y Hy Hy') as [->|?]; [|by eapply G].
    simplify_eq. apply O; [by apply Hreg|done].
  - intros y ny Hy Hy' Hm' Hk'. destruct (Hself y Hy Hy') as [->|?]; [simplify_eq; congruence|by eapply L].
  - intros y ny Hy Hy' Hm' Hk'. destruct (Hself y Hy Hy') as [->|?]; [simplify_eq; congruence|by eapply N].
  - intros y Hy Hy'. destruct (Hself y Hy Hy') as [->|?]; [apply reach_in; by left|].
    eapply reach_weaken; [|by apply R]. intros m [? ?]%Hreg. eapply reach_member; [apply reach_in; by left|done..].
  - exists new. split_and!; [done..|]. intros x Hx. destruct (F x Hx). set_solver.
Qed.

Lemma visit_walked rec t b b' :
  (∀ outs b b', rec outs b = Some b' → walked outs b b') → visit rec mgr skip t b = Some b' → walked [t] b b'.
Proof.
  intros Hrec. unfold visit. case_bool_decide as Hc; [intros [= <-]; apply walked_skip; by left|].
  destruct (mgr !! t) as [n|] eqn:E; [|intros [= <-]; apply walked_skip; rewrite E; by intros [? ?]].
  destruct (n_kind n) eqn:Ek.
  - destruct (skip t) eqn:Es; intros [= <-].
    + apply walked_skip. intros _. right. split; [done|]. by exists n.
    + apply (walked_task t n b _ (TestLeaf t)); simpl; try done; congruence.
  - intros [= <-]. apply (walked_task t n b _ (TestNested t)); simpl; try done; congruence.
  - intros H%Hrec. eapply walked_group; [done|done|done| | |exact H]; done.
Qed.

Lemma walk_walked rec outs b b' :
  (∀ outs b b', rec outs b = Some b' → walked outs b b') → walk rec mgr skip outs b = Some b' → walked outs b b'.
Proof.
  intros Hrec. revert b. induction outs as [|t outs IH]; intros b; simpl; [intros [= <-]; apply walked_refl|].
  intros (b1 & Hv & Hw)%bind_Some. eapply walked_cons; [by eapply visit_walked|by apply IH].
Qed.

Lemma test_walked fuel outs b b' : test fuel mgr skip outs b = Some b' → walked outs b b'.
Proof. revert outs b b'. induction fuel as [|fuel IH]; intros outs b b'; [done|]. simpl. by apply walk_walked. Qed.

(** Enough fuel: the marked groups leave less to enter. *)
Lemma walk_total fuel :
  (∀ outs b, (size mgr < fuel + size (checked b ∩ dom mgr))%nat → is_Some (test fuel mgr skip outs b)) →
  ∀ outs b, (size mgr < S fuel + size (checked b ∩ dom mgr))%nat → is_Some (walk (test fuel mgr skip) mgr skip outs b).
Proof.
  intros IH outs. induction outs as [|t outs IHo]; intros b Hb; simpl; [done|].
  assert (is_Some (visit (test fuel mgr skip) mgr skip t b)) as [b1 Hv].
  { unfold visit. case_bool_decide as Hc; [done|]. destruct (mgr !! t) as [n|] eqn:E; [|done].
    destruct (n_kind n); [by destruct (skip t)|done|]. apply IH. simpl.
    replace (({[t]} ∪ checked b) ∩ dom mgr) with ({[t]} ∪ (checked b ∩ dom mgr)).
    - rewrite size_union, size_singleton by set_solver. lia.
    - apply elem_of_dom_2 in E. set_solver. }
  rewrite Hv. simpl. apply IHo. apply visit_walked in Hv; [|intros; by eapply test_walked].
  pose proof (subseteq_size (checked b ∩ dom mgr) (checked b1 ∩ dom mgr)) as Hs.
  destruct Hv as [M _ _ _ _ _ _]. specialize (Hs ltac:(set_solver)). lia.
Qed.

Lemma test_total fuel outs b :
  (size mgr < fuel + size (checked b ∩ dom mgr))%nat → is_Some (test fuel mgr skip outs b).
Proof.
  revert outs b. induction fuel as [|fuel IH]; intros outs b Hb; [|by apply walk_total].
  exfalso. pose proof (subseteq_size (checked b ∩ dom mgr) (dom mgr) ltac:(set_solver)) as H. rewrite size_dom in H. lia.
Qed.
End walk.

(** The walk that starts the tests of a group's members always ends, also
    when groups contain each other, and starts exactly the tests that are due:
    one for every leaf reachable through nested groups whose last measurement is
    not recent enough to be skipped, one for every reachable URL-test group
    (which tests its own members), none twice and no other. *)
Theorem batch_tests_once mgr skip outs :
  ∃ b, test (walk_fuel mgr) mgr skip outs (mkBatch ∅ [] []) = Some b ∧
    NoDup (task_tag <$> tasks b) ∧
    (∀ t n, mgr !! t = Some n → n_kind n = Leaf → TestLeaf t ∈ tasks b ↔ Reach mgr outs t ∧ skip t = false) ∧
    (∀ t n, mgr !! t = Some n → n_kind n = NestedURLTest → TestNested t ∈ tasks b ↔ Reach mgr outs t) ∧
    (∀ x, x ∈ tasks b → Reach mgr outs (task_tag x)).
Proof.
  destruct (test_total mgr skip (walk_fuel mgr) outs (mkBatch ∅ [] [])) as [b Hb].
  { unfold walk_fuel. simpl. lia. }
  exists b. split; [done|]. destruct (test_walked _ _ _ _ _ _ Hb) as [M O G L N R (new & E & D & F)].
  simpl in *. subst new. assert (Hcov : ∀ t, Reach mgr outs t → is_Some (mgr !! t) → covered mgr skip b t).
  { induction 1 as [t Ht|t n m Hr IH Hm Hk Hin Hs]; intros Hreg; [by apply O|].
    destruct IH as [Hc|(_ & n' & ? & ?)]; [by eexists|eapply G; [exact Hc|set_solver|done..]|simplify_eq; congruence]. }
  assert (Htask : ∀ x, x ∈ tasks b → Reach mgr outs (task_tag x)).
  { intros x Hx. apply R; [by apply F|set_solver]. }
  split_and!; [done| | |done].
  - intros t n Hm Hk. split.
    + intros Hx. split; [by apply (Htask _ Hx)|]. apply (L t n); [by apply (F _ Hx)|set_solver|done..].
    + intros [Hr Hs]. destruct (Hcov t Hr) as [Hc|(? & _)]; [by eexists| |congruence].
      apply (L t n); [done|set_solver|done..].
  - intros t n Hm Hk. split; [intros Hx; by apply (Htask _ Hx)|].
    intros Hr. destruct (Hcov t Hr) as [Hc|(_ & n' & ? & ?)]; [by eexists| |simplify_eq; congruence].
    apply (N t n); [done|set_solver|done..].
Qed.

(** ** The persisted choice *)

Definition select_op (x : cache_file * Selector) (t : string * bool) : cache_file * Selector :=
  let '(_, c, s) := SelectOutbound t.1 true t.2 (Some x.1) x.2 in (default x.1 c, s).

(** The choice of a start, from the file, the default and the members. *)
Definition start_choice (tags : list string) (dflt c : string) : option string :=
  if negb (bool_decide (c = "")) && bool_decide (c ∈ tags) then Some c
  else if negb (bool_decide (dflt = "")) then Some dflt else head tags.

Lemma start_ok mgr cache s s' :
  selector_Start mgr cache s = Ok s' →
  s' = s <| s_outbounds := list_to_set (s_tags s) |> <| s_selected := start_choice (s_tags s) (s_default s) (cached cache s) |> ∧
  forallb (λ t, bool_decide (is_Some (mgr !! t))) (s_tags s) = true.
Proof.
  unfold selector_Start. case_goal; [|done]. cbn zeta. simpl s_outbounds.
  assert (Ec : cached cache (s <| s_outbounds := list_to_set (s_tags s) |>) = cached cache s) by done. rewrite Ec.
  assert (Es : ∀ t, bool_decide (t ∈@{gset string} list_to_set (s_tags s)) = bool_decide (t ∈ s_tags s)).
  { intros t. apply bool_decide_ext. set_solver. }
  rewrite !Es. simpl. unfold start_choice.
  destruct (_ && _) eqn:E1; [|case_goal; [case_goal; [|done]|]]; intros [= <-]; done.
Qed.

Lemma start_again mgr cache cache' s s' :
  selector_Start mgr cache s = Ok s' →
  (cached cache' s ≠ "" ∧ cached cache' s ∈ s_tags s ∨ cached cache' s = cached cache s) →
  selector_Start mgr cache' s = Ok (s' <| s_selected := start_choice (s_tags s) (s_default s) (cached cache' s) |>).
Proof.
  intros H Hc. destruct (start_ok _ _ _ _ H) as (Es & Hr). revert H. unfold selector_Start. rewrite Hr. cbn zeta.
  assert (Ec : ∀ c, cached c (s <| s_outbounds := list_to_set (s_tags s) |>) = cached c s) by done. rewrite !Ec.
  destruct Hc as [[Hn Hin]| ->].
  - intros _. rewrite (bool_decide_eq_false_2 _ Hn), (bool_decide_eq_true_2 (_ ∈ s_outbounds _)) by (simpl; set_solver).
    simpl. rewrite Es. unfold start_choice. by rewrite (bool_decide_eq_false_2 _ Hn), (bool_decide_eq_true_2 _ Hin).
  - intros H. rewrite H. rewrite Es. done.
Qed.

(** The members, the tag and the default never change; the selection is what a
    start would choose now. *)
Record chosen (s0 : Selector) (x : cache_file * Selector) : Prop := mkChosen {
  ch_fixed : s_tag x.2 = s_tag s0 ∧ s_outbounds x.2 = list_to_set (s_tags s0);
  ch_choice : s_selected x.2 = start_choice (s_tags s0) (s_default s0) (cached (Some x.1) s0)
}.

Lemma chosen_select s0 cache0 x t :
  s_tag s0 ≠ "" → "" ∉ s_tags s0 → chosen s0 x →
  (cached (Some x.1) s0 ≠ "" ∧ cached (Some x.1) s0 ∈ s_tags s0 ∨ cached (Some x.1) s0 = cached (Some cache0) s0) →
  chosen s0 (select_op x t) ∧ delete (s_tag s0) (select_op x t).1 = delete (s_tag s0) x.1 ∧
  (cached (Some (select_op x t).1) s0 ≠ "" ∧ cached (Some (select_op x t).1) s0 ∈ s_tags s0 ∨
   cached (Some (select_op x t).1) s0 = cached (Some cache0) s0).
Proof.
  intros Htag Hne [[F1 F2] C] Hc. destruct x as [cache s], t as [t b]. simpl in *.
  unfold select_op, SelectOutbound. simpl. case_bool_decide as E1; simpl; [|done].
  case_bool_decide as E2; simpl; [done|]. rewrite F1, (bool_decide_eq_false_2 _ Htag). simpl.
  assert (Ht : t ∈ s_tags s0) by (rewrite F2 in E1; set_solver).
  assert (Ecached : cached (Some (<[s_tag s0:=t]> cache)) s0 = t).
  { unfold cached. rewrite (bool_decide_eq_false_2 _ Htag), lookup_insert_eq. done. }
  assert (Hn : t ≠ "") by (intros ->; done).
  split_and!; [split; simpl; [done|]|by rewrite delete_insert_eq|left; by rewrite Ecached].
  rewrite Ecached. unfold start_choice. by rewrite (bool_decide_eq_false_2 _ Hn), (bool_decide_eq_true_2 _ Ht).
Qed.

(** The manual selector's choice survives a restart: after any sequence of
    selections, whatever their tags, the selected outbound is a member, and a
    new start of the same selector with the selection file as it is now selects
    the same outbound; the entries of other selectors are untouched. *)
Theorem selection_survives_restart mgr tag tags dflt cache s0 s l :
  NewSelector tag tags dflt = Ok s0 → tag ≠ "" → "" ∉ tags → selector_Start mgr (Some cache) s0 = Ok s →
  let '(cache', s') := foldl select_op (cache, s) l in
  selector_Start mgr (Some cache') s0 = Ok (s <| s_selected := s_selected s' |>) ∧
  (∃ t, selector_Now s' = Some t ∧ t ∈ tags ∧ is_Some (mgr !! t)) ∧
  delete tag cache' = delete tag cache.
Proof.
  intros Hn Htag Hne Hs. unfold NewSelector in Hn. case_bool_decide as Hnil; [done|]. injection Hn as <-.
  set (s0 := mkSelector tag tags dflt ∅ None 0 0) in *.
  destruct (start_ok _ _ _ _ Hs) as (Es & Hreg). simpl in Hreg.
  assert (I : chosen s0 (cache, s)) by (rewrite Es; done).
  assert (Hl : ∀ x, chosen s0 x → delete tag x.1 = delete tag cache →
    (cached (Some x.1) s0 ≠ "" ∧ cached (Some x.1) s0 ∈ tags ∨ cached (Some x.1) s0 = cached (Some cache) s0) →
    chosen s0 (foldl select_op x l) ∧ delete tag (foldl select_op x l).1 = delete tag cache ∧
    (cached (Some (foldl select_op x l).1) s0 ≠ "" ∧ cached (Some (foldl select_op x l).1) s0 ∈ tags ∨
     cached (Some (foldl select_op x l).1) s0 = cached (Some cache) s0)).
  { clear -Htag Hne. induction l as [|t l IH]; intros x Hx Hd Hc; simpl; [done|].
    destruct (chosen_select s0 cache x t Htag Hne Hx Hc) as (? & E & ?). apply IH; [done| |done]. simpl in E. congruence. }
  destruct (Hl (cache, s) I eq_refl (or_intror eq_refl)) as (J & Hd & Hc). clear Hl.
  destruct (foldl select_op (cache, s) l) as [cache' s'].
  pose proof (start_again mgr (Some cache) (Some cache') s0 s Hs Hc) as Ha. split_and!; [|clear Ha|exact Hd].
  - rewrite Ha. f_equal. destruct J as [_ C]. cbn [fst snd] in C. by rewrite C.
  - assert (∃ t, s_selected s' = Some t ∧ t ∈ tags) as (t & Et & Hin).
    { destruct J as [_ C]. cbn [fst snd] in C. rewrite C.
      pose proof (start_again mgr (Some cache) (Some cache') s0 s Hs Hc) as Ha. revert Ha.
      unfold selector_Start, start_choice. simpl s_tags. rewrite Hreg. cbn zeta. simpl s_default.
      assert (Ec : cached (Some cache') (s0 <| s_outbounds := list_to_set tags |>) = cached (Some cache') s0) by done.
      simpl s_outbounds. rewrite Ec. destruct (negb _ && bool_decide (_ ∈ tags)) eqn:E1; [intros _; bsplit; eauto|].
      destruct (bool_decide (dflt = "")); simpl.
      - intros _. destruct tags as [|t0 ?]; [done|]. exists t0. split; [done|]. by left.
      - replace (bool_decide (cached (Some cache') s0 ∈@{gset string} list_to_set tags)) with
          (bool_decide (cached (Some cache') s0 ∈ tags)) by (apply bool_decide_ext; set_solver).
        rewrite E1. destruct (bool_decide (dflt ∈@{gset string} _)) eqn:Hd'; [|done]. intros _. exists dflt.
        split; [done|]. bsplit. set_solver. }
    exists t. unfold selector_Now. rewrite Et. split_and!; [done..|].
    rewrite forallb_forall in Hreg. apply list_elem_of_In, Hreg in Hin. by apply bool_decide_eq_true in Hin.
Qed.

Lemma selection_survives_restart_witness :
  let s0 := mkSelector "sel" ["a"; "b"] "" ∅ None 0 0 in
  let s := s0 <| s_outbounds := {["a"; "b"]} |> <| s_selected := Some "a" |> in
  selector_Start ex_mgr (Some (foldl select_op (∅, s) [("b", true); ("x", true)]).1) s0 =
  Ok (s <| s_selected := Some "b" |>).
Proof.
  intros s0 s. assert (Hs : selector_Start ex_mgr (Some ∅) s0 = Ok s).
  { vm_compute. reflexivity. }
  pose proof (selection_survives_restart ex_mgr "sel" ["a"; "b"] "" ∅ s0 s [("b", true); ("x", true)]
    ltac:(reflexivity) ltac:(done) ltac:(set_solver) Hs) as H.
  assert (E : s_selected (foldl select_op (∅, s) [("b", true); ("x", true)]).2 = Some "b") by (vm_compute; reflexivity).
  destruct (foldl _ _ _) as [c s']. cbn [fst snd] in *. destruct H as (H & _ & _). rewrite H. by rewrite E.
Defined.

(** ** The ticker after a close *)

(** A dial after [Close] starts a ticker again, and closing the group once more
    closes its channel twice. *)
Lemma close_after_touch_panics :
  let g := ex_group None [] in
  panicked (Close (Touch zero_time (Close (Touch zero_time g)))) = true.
Proof. reflexivity. Qed.
