(* ===== verification/TelegramWs.v ===== *)
(** * The Telegram WebSocket outbound

    Models [engine/sing-box/protocol/pokrov/telegramws/outbound.go],
    [admission.go] (the admission and the preparation store), [conn.go] and
    [obfuscation.go]: native Telegram connections to admitted datacenter
    addresses are carried over Telegram's own WebSocket gateway while a signed
    preparation is current; everything else, and every failure before the first
    payload, uses the protected VPN.

    Every critical section of the outbound's and of a flow's mutex is one
    definition.  Sockets are names; closing a flow, which cancels its context
    and closes its sockets after its flag is set, is one step. *)

From stdpp Require Import base list strings gmap relations.
From Stdlib Require Import ZArith Lia Ascii.
From S2P Require Import Prelude GoTime GoBytes GoNetip GoAes.

Local Open Scope Z_scope.

Definition setupTimeout : Z := 5 * Second.
Definition errScope : string := "telegram_ws_scope_invalid".
Definition errClosed : string := "telegram_ws_closed".

(** ** The native initialization ([obfuscation.go]) *)

(** A four-byte little-endian word of four equal bytes. *)
Definition word4 (b : Z) : Z := ((b * 256 + b) * 256 + b) * 256 + b.

(** The prefixes that belong to other transports. *)
Definition foreign_prefix : list bytes :=
  (list_of_str <$> ["HEAD"; "POST"; "GET "; "OPTI"]) ++
  [byte_of <$> [238; 238; 238; 238]; byte_of <$> [221; 221; 221; 221]; byte_of <$> [22; 3; 1; 2]].

Definition nativeObfuscatedInitialization (initial : bytes) : bool :=
  if negb (blen initial =? 64) || bool_decide (head initial = Some (byte_of 239)) ||
     (le_val (take 4 (drop 4 initial)) =? 0)
  then false
  else if bool_decide (take 4 initial ∈ foreign_prefix) then false
  else
    let decoded := ctr_xor (take 32 (drop 8 initial)) (take 16 (drop 40 initial)) initial in
    bool_decide (le_val (take 4 (drop 56 decoded)) ∈ [word4 239; word4 238; word4 221]).

(** ** Addresses *)

(** [netip.Addr.String] of an address without zone that is not IPv4-mapped. *)
Fixpoint dec_digits (fuel : nat) (n : Z) : bytes :=
  match fuel with
  | O => []
  | S fuel => (if n <? 10 then [] else dec_digits fuel (n / 10)) ++ [byte_of (48 + n mod 10)]
  end.
Definition v4_string (v : Z) : bytes :=
  dec_digits 3 (v / 2 ^ 24 mod 256) ++ [dot] ++ dec_digits 3 (v / 2 ^ 16 mod 256) ++ [dot] ++
  dec_digits 3 (v / 2 ^ 8 mod 256) ++ [dot] ++ dec_digits 3 (v mod 256).

Definition hex_digit (n : Z) : ascii := byte_of (if n <? 10 then 48 + n else 87 + n).
Fixpoint hex_digits (fuel : nat) (n : Z) : bytes :=
  match fuel with
  | O => []
  | S fuel => (if n <? 16 then [] else hex_digits fuel (n / 16)) ++ [hex_digit (n mod 16)]
  end.

Definition v6_groups (v : Z) : list Z := (λ i : nat, v / 2 ^ (112 - 16 * Z.of_nat i) mod 65536) <$> seq 0 8.

(** The run of zero groups from position [i], and the first longest one. *)
Fixpoint zero_run (l : list Z) : nat :=
  match l with
  | 0 :: l => S (zero_run l)
  | _ => O
  end.
Fixpoint longest_run (i : nat) (l : list Z) (start len : nat) : nat * nat :=
  match l with
  | [] => (start, len)
  | x :: l' =>
      let n := zero_run l in
      if (len <? n)%nat then longest_run (S i) l' i n else longest_run (S i) l' start len
  end.

Fixpoint v6_join (l : list Z) : bytes :=
  match l with
  | [] => []
  | [x] => hex_digits 4 x
  | x :: l => hex_digits 4 x ++ [colon] ++ v6_join l
  end.

Definition v6_string (v : Z) : bytes :=
  let l := v6_groups v in
  let '(start, len) := longest_run 0 l 0 1 in
  if (len <? 2)%nat then v6_join l
  else v6_join (take start l) ++ [colon; colon] ++ v6_join (drop (start + len) l).

Definition addr_string (a : addr) : bytes :=
  match a with
  | AInvalid => []
  | AV4 v => v4_string v
  | AV6 v _ => v6_string v
  end.

Definition forbiddenPublicPrefixes : list prefix := Eval vm_compute in
  [pfx "0.0.0.0" 8; pfx "100.64.0.0" 10; pfx "192.0.0.0" 24; pfx "192.0.2.0" 24; pfx "192.88.99.0" 24;
   pfx "198.18.0.0" 15; pfx "198.51.100.0" 24; pfx "203.0.113.0" 24; pfx "240.0.0.0" 4; pfx "2001::" 23;
   pfx "2001:db8::" 32; pfx "2002::" 16; pfx "3fff::" 20].

Definition publicAddress (a : addr) : bool :=
  if negb (IsGlobalUnicast a) || IsPrivate a || Is4In6 a || negb (bool_decide (Zone a = [])) then false
  else if Is6 a && negb (Contains (pfx "2000::" 3) a) then false
  else negb (existsb (λ p, Contains p a) forbiddenPublicPrefixes).

(** An address in canonical text that is public. *)
Definition public_text (value : bytes) : option addr :=
  match ParseAddr value with
  | Some a => if publicAddress a && bool_decide (addr_string a = value) then Some a else None
  | None => None
  end.

Definition PublicDatacenterAddress (value : bytes) : bool := bool_decide (is_Some (public_text value)).

Example public_text_examples :
  public_text (list_of_str "149.154.167.51") = Some (AV4 2509940531) ∧
  PublicDatacenterAddress (list_of_str "2001:67c:4e8:f002::a") = true ∧
  PublicDatacenterAddress (list_of_str "2001:67c:4e8:f002:0::a") = false ∧
  PublicDatacenterAddress (list_of_str "10.0.0.1") = false.
Proof. vm_compute. done. Qed.

(** ** Options and preparations ([admission.go]) *)

Record dc_options := mkDcOptions { dc_ID : Z; dc_Addresses : list bytes; dc_WebsocketAddress : bytes }.

(** [o_dialer] stands for the remaining dialer options. *)
Record tg_options := mkTgOptions {
  o_dialer : string;
  o_Detour : string;
  o_VPNOutbound : string;
  o_Datacenters : list dc_options;
  o_ServiceID : string;
  o_IssuedAt : string;
  o_ExpiresAt : string;
  o_NativePreparationID : string
}.

#[export] Instance eta_tg_options : Eta tg_options := λ o,
  mkTgOptions (o_dialer o) (o_Detour o) (o_VPNOutbound o) (o_Datacenters o) (o_ServiceID o) (o_IssuedAt o)
    (o_ExpiresAt o) (o_NativePreparationID o).

#[export] Instance dc_options_eq_dec : EqDecision dc_options.
Proof. solve_decision. Defined.
#[export] Instance tg_options_eq_dec : EqDecision tg_options.
Proof. solve_decision. Defined.

(** [time.Parse(time.RFC3339, v)] with the test that formatting gives [v] back:
    UTC as [Z], or a non-zero offset of at most 24 hours. *)
Definition parse_rfc3339 (v : string) : option time :=
  let l := list_of_str v in
  match drop 19 l with
  | [sign; h1; h2; c; m1; m2] =>
      t ← parse_utc (str_of_list (take 19 l ++ ["Z"%char]));
      h ← val2 h1 h2;
      m ← val2 m1 m2;
      let off := (h * 60 + m) * 60 in
      if Ascii.eqb c ":" && (h <=? 24) && (m <? 60) && negb (off =? 0) then
        if Ascii.eqb sign "+" then Some (mkTime (wall t - off * Second) None)
        else if Ascii.eqb sign "-" then Some (mkTime (wall t + off * Second) None) else None
      else None
  | _ => parse_utc v
  end.

Record preparedScope := mkPrepared { p_options : tg_options; p_deadline : time; p_fallback : gmap string string }.

Abbreviation preparations := (gmap string preparedScope).

(** [nonce] is the random id, [None] when the random source failed. *)
Definition RegisterPreparation (o : tg_options) (fallback : gmap string string) (now : time) (nonce : option string)
    (ps : preparations) : result string string * preparations :=
  if bool_decide (fallback = ∅) then (Err errScope, ps)
  else match parse_rfc3339 (o_IssuedAt o) with
       | None => (Err errScope, ps)
       | Some issued =>
           if Before now issued then (Err errScope, ps)
           else match parse_rfc3339 (o_ExpiresAt o) with
                | None => (Err errScope, ps)
                | Some expires =>
                    if negb (Before now expires) then (Err errScope, ps)
                    else match nonce with
                         | None => (Err "random", ps)
                         | Some id =>
                             let live := filter (λ kv : string * preparedScope, Before now (p_deadline kv.2) = true) ps in
                             (Ok id, <[id := mkPrepared (o <| o_NativePreparationID := "" |>)
                                               (Add now (Sub expires now)) fallback]> live)
                         end
                end
       end.

(** The preparation under the id of [o], when it covers exactly [o] and is not
    over. *)
Definition valid_for (o : tg_options) (now : time) (p : preparedScope) : bool :=
  Before now (p_deadline p) && bool_decide (o <| o_NativePreparationID := "" |> = p_options p).

Definition peekPreparation (o : tg_options) (now : time) (ps : preparations) : option time :=
  match ps !! o_NativePreparationID o with
  | Some p => if valid_for o now p then Some (p_deadline p) else None
  | None => None
  end.

(** [bound] are the preparations whose graph was checked for this runtime. *)
Definition consumePreparation (bound : preparations) (o : tg_options) (now : time) (ps : preparations)
    : option time * preparations :=
  let id := o_NativePreparationID o in
  (match ps !! id, bound !! id with
   | Some p, Some checked =>
       if valid_for o now p && bool_decide (p_fallback checked = p_fallback p) then Some (p_deadline p) else None
   | _, _ => None
   end, delete id ps).

(** One outbound of [BindPreparations]: [graph] is the result of
    [FallbackDefinitions] for its VPN outbound. *)
Definition bind_one (tag : string) (o : tg_options) (graph : result string (gmap string string)) (now : time)
    (ps checked : preparations) : result string preparations :=
  if negb (bool_decide (tag = "pokrov-telegram-ws-" +:+ o_ServiceID o)) then Err errScope
  else
    let? g := graph in
    match ps !! o_NativePreparationID o with
    | Some p => if valid_for o now p && bool_decide (g = p_fallback p)
                then Ok (<[o_NativePreparationID o := p]> checked) else Err errScope
    | None => Err errScope
    end.

Fixpoint BindPreparations (outs : list (string * tg_options * result string (gmap string string))) (now : time)
    (ps checked : preparations) : result string preparations :=
  match outs with
  | [] => Ok checked
  | (tag, o, graph) :: outs => let? checked := bind_one tag o graph now ps checked in BindPreparations outs now ps checked
  end.

(** ** State *)

Record telegramFlow := mkFlow {
  remote : option nat;
  reading : bool;
  active : bool;
  fclosed : bool;
  vpnTransferred : bool;
  payloadCommitted : bool;
  setupWithdrawn : bool;
  woken : bool
}.

#[export] Instance eta_telegramFlow : Eta telegramFlow := λ f,
  mkFlow (remote f) (reading f) (active f) (fclosed f) (vpnTransferred f) (payloadCommitted f) (setupWithdrawn f) (woken f).

(** A datacenter is named by its position in the options. *)
Record Outbound := mkOutbound {
  vpnTag : string;
  vpn : option string;
  addresses : list (addr * nat);
  unavailable : gset nat;
  closed : bool;
  flows : gset nat;
  admissionID : string;
  issued : time;
  expires : time;
  deadline : time;
  admitted : bool;
  withdrawn : bool;
  timers : bool;
  preparedOptions : tg_options
}.

#[export] Instance eta_Outbound : Eta Outbound := λ h,
  mkOutbound (vpnTag h) (vpn h) (addresses h) (unavailable h) (closed h) (flows h) (admissionID h) (issued h) (expires h)
    (deadline h) (admitted h) (withdrawn h) (timers h) (preparedOptions h).

(** [withdrawErr] is whether the withdrawal context is over, [shut] the closed
    sockets. *)
Record world := mkWorld { ob : Outbound; heap : gmap nat telegramFlow; next : nat; withdrawErr : bool; shut : gset nat }.

#[export] Instance eta_world : Eta world := λ w, mkWorld (ob w) (heap w) (next w) (withdrawErr w) (shut w).

(** ** Construction *)

Fixpoint parse_addresses (dc : nat) (l : list bytes) (acc : list (addr * nat)) : option (list (addr * nat)) :=
  match l with
  | [] => Some acc
  | v :: l =>
      a ← public_text v;
      if bool_decide (a ∈ acc.*1) then None else parse_addresses dc l (acc ++ [(a, dc)])
  end.

Fixpoint parse_datacenters (i : nat) (seen : list Z) (l : list dc_options) (acc : list (addr * nat))
    : option (list (addr * nat)) :=
  match l with
  | [] => Some acc
  | dc :: l =>
      if (dc_ID dc <? 1) || (5 <? dc_ID dc) || bool_decide (dc_ID dc ∈ seen) ||
         negb (PublicDatacenterAddress (dc_WebsocketAddress dc)) ||
         (length (dc_Addresses dc) =? 0)%nat || (16 <? length (dc_Addresses dc))%nat
      then None
      else acc ← parse_addresses i (dc_Addresses dc) acc; parse_datacenters (S i) (dc_ID dc :: seen) l acc
  end.

Definition NewOutbound (tag : string) (o : tg_options) (now : time) (ps : preparations) (managers : bool)
    (transport : option string) (identity : result string string) : result string world :=
  if bool_decide (tag = "") || bool_decide (o_VPNOutbound o = "") || bool_decide (o_VPNOutbound o = tag) ||
     negb (bool_decide (o_Detour o = "")) || (length (o_Datacenters o) =? 0)%nat || (5 <? length (o_Datacenters o))%nat ||
     negb (bool_decide (tag = "pokrov-telegram-ws-" +:+ o_ServiceID o))
  then Err errScope
  else match peekPreparation o now ps with
       | None => Err errScope
       | Some dl =>
           match parse_datacenters 0 [] (o_Datacenters o) [] with
           | None => Err errScope
           | Some addrs =>
               match transport with
               | Some e => Err e
               | None =>
                   if negb managers then Err errScope
                   else
                     let? id := identity in
                     Ok (mkWorld (mkOutbound (o_VPNOutbound o) None addrs ∅ false ∅ id
                                    (default zero_time (parse_rfc3339 (o_IssuedAt o)))
                                    (default zero_time (parse_rfc3339 (o_ExpiresAt o))) dl false false false o)
                           ∅ 0 false ∅)
               end
           end
       end.

(** ** The protected fallback *)

Record node := mkNode { n_type : string; n_deps : list string; n_h2 : bool }.

Definition is_exit (t : string) : bool := bool_decide (t ∈ ["vless"; "hysteria2"; "wireguard"; "awg"]).
Definition is_group (t : string) : bool := bool_decide (t ∈ ["selector"; "urltest"]).

(** As in the local strategy, except that an encrypted exit is accepted whatever
    it depends on. *)
Fixpoint protectedFallback (fuel : nat) (mgr : gmap string node) (target : string) (seen : gset string) : bool :=
  match fuel with
  | O => false
  | S fuel =>
      match mgr !! target with
      | None => false
      | Some n =>
          if bool_decide (target ∈ seen) then false
          else if bool_decide (n_type n = "naive") then n_h2 n
          else if is_exit (n_type n) then true
          else if is_group (n_type n) && negb (bool_decide (n_deps n = []))
          then forallb (λ d, protectedFallback fuel mgr d ({[target]} ∪ seen)) (n_deps n)
          else false
      end
  end.

Definition fallback_fuel (mgr : gmap string node) : nat := S (size mgr).

(** ** Flows ([conn.go]) *)

(** The context of a flow is over when the caller's is ([ctxErr]) or the flow
    was closed. *)
Definition upd (f : nat) (g : telegramFlow → telegramFlow) (w : world) : world := w <| heap ::= alter g f |>.
Definition fl (f : nat) (w : world) : option telegramFlow := heap w !! f.

Definition attach (f : nat) (r : option nat) (ctxErr : bool) (w : world) : bool * world :=
  match fl f w, r with
  | Some x, Some r =>
      if fclosed x || setupWithdrawn x || ctxErr then (false, w)
      else (true, upd f (λ x, x <| remote := Some r |> <| active := true |>) w)
  | _, _ => (false, w)
  end.

Definition opt_set (r : option nat) : gset nat := match r with Some c => {[c]} | None => ∅ end.

Definition flow_close (f : nat) (w : world) : world :=
  match fl f w with
  | Some x => if fclosed x then w
              else (upd f (λ x, x <| fclosed := true |>) w) <| shut ::= union (opt_set (remote x)) |>
  | None => w
  end.

(** The locked part of [withdraw]; it interrupts a pending read. *)
Definition withdraw_mark (f : nat) (w : world) : world :=
  upd f (λ x, if vpnTransferred x then x
              else x <| setupWithdrawn := true |> <| woken := woken x || reading x |>) w.
Definition withdraw (f : nat) (w : world) : world :=
  match fl f w with
  | Some x => if vpnTransferred x then w
              else let w := withdraw_mark f w in if active x then flow_close f w else w
  | None => w
  end.

Definition transferVPN (f : nat) (w : world) : bool * world :=
  match fl f w with
  | Some x => if fclosed x || active x || payloadCommitted x then (false, w)
              else (true, upd f (λ x, x <| vpnTransferred := true |>) w)
  | None => (false, w)
  end.

Definition commitPayload (f : nat) (ctxErr : bool) (w : world) : bool * world :=
  match fl f w with
  | Some x => if fclosed x || negb (active x) || vpnTransferred x || ctxErr then (false, w)
              else (true, upd f (λ x, x <| payloadCommitted := true |>) w)
  | None => (false, w)
  end.

(** ** Admission *)

Definition currentLocked (now : time) (w : world) : bool :=
  let h := ob w in
  negb (closed h) && negb (withdrawn h) && negb (withdrawErr w) && negb (Before now (issued h)) &&
  Before now (expires h) && Before now (deadline h).

(** The flows the returned cleanup withdraws; [None] when already denied. *)
Definition denyLocked (w : world) : option (list nat) * world :=
  if withdrawn (ob w) then (None, w)
  else (Some (elements (flows (ob w))),
        w <| ob ::= λ h, h <| withdrawn := true |> <| admitted := false |> <| timers := false |> |>).

Definition cancel_withdraw (w : world) : world := w <| withdrawErr := true |>.
Definition cleanup (fs : option (list nat)) (w : world) : world :=
  match fs with
  | None => w
  | Some fs => foldl (λ w f, withdraw f w) (cancel_withdraw w) fs
  end.

(** The guard every use of the outbound runs under the lock: not current means
    denied from now on. *)
Definition gate (now : time) (w : world) : bool * option (list nat) * world :=
  if currentLocked now w then (true, None, w) else let '(fs, w) := denyLocked w in (false, fs, w).

Definition IsReady (now : time) (w : world) : bool * world :=
  let '(current, fs, w) := gate now w in
  (current && admitted (ob w), cleanup fs w).

Definition AdmitAdmission (expectedID : string) (now : time) (w : world) : bool * world :=
  if negb (bool_decide (expectedID = admissionID (ob w))) || admitted (ob w) then (false, w)
  else match gate now w with
       | (true, _, w) => (true, w <| ob ::= λ h, h <| admitted := true |> |>)
       | (false, fs, w) => (false, cleanup fs w)
       end.

Definition WithdrawAdmission (expectedID : string) (w : world) : bool * world :=
  if negb (bool_decide (expectedID = admissionID (ob w))) then (false, w)
  else match denyLocked w with
       | (None, w) => (false, w)
       | (Some fs, w) => (true, cleanup (Some fs) w)
       end.

Definition Start (mgr : gmap string node) (bound : preparations) (now : time) (ps : preparations) (w : world)
    : result string unit * preparations * world :=
  if negb (protectedFallback (fallback_fuel mgr) mgr (vpnTag (ob w)) ∅) then (Err errScope, ps, w)
  else
    let w := w <| ob ::= λ h, h <| vpn := Some (vpnTag h) |> |> in
    match consumePreparation bound (preparedOptions (ob w)) now ps with
    | (None, ps) => (Err errScope, ps, w)
    | (Some dl, ps) => (Ok tt, ps, w <| ob ::= λ h, h <| deadline := dl |> <| timers := true |> |>)
    end.

(** [Close] after its withdrawal: the flag, and the flows it closes next. *)
Definition Close_section (w : world) : list nat * world :=
  (elements (flows (ob w)), w <| ob ::= λ h, h <| closed := true |> |>).
Definition Close (w : world) : world :=
  let w := (WithdrawAdmission (admissionID (ob w)) w).2 in
  let '(fs, w) := Close_section w in foldl (λ w f, flow_close f w) w fs.

Definition markUnavailable (dc : nat) (w : world) : world := w <| ob ::= λ h, h <| unavailable ::= union {[dc]} |> |>.

(** A write of the admitted connection of flow [f]: whether the bytes reach the
    gateway's socket. *)
Definition admitted_Write (f : nat) (ctxErr : bool) (now : time) (w : world) : bool * option (list nat) * world :=
  let '(current, fs, w) := gate now w in
  if current && admitted (ob w) then let '(ok, w) := commitPayload f ctxErr w in (ok, fs, w) else (false, fs, w).

(** An error of the gateway's socket that was not closed here retires its
    datacenter. *)
Definition gateway_io (dc : nat) (err connClosed : bool) (w : world) : world :=
  if err && negb connClosed then markUnavailable dc w else w.

(** ** Connections *)

(** What a connection brings.  [c_env k] is the interference and [c_ctx k]
    whether the caller's context is over at checkpoint [k]; [c_now k] the clock;
    [c_deadline k] the error of the [k]-th read-deadline call; [c_read] the bytes
    read for the initialization and whether the read failed; [c_gateway] the
    gateway's socket or an error, possibly with the setup context over. *)
Record conn_input := mkConn {
  c_tcp : bool;
  c_port : Z;
  c_addr : addr;
  c_env : nat → world → world;
  c_ctx : nat → bool;
  c_now : nat → time;
  c_deadline : nat → option string;
  c_read : bytes * bool;
  c_gateway : option nat;
  c_setupErr : bool
}.

(** Where a connection went.  [ToVPN] carries the bytes already read, which the
    VPN connection replays first. *)
Inductive conn_result := Refused (err : string) | ToVPN (replay : bytes) | ToWSS (r : nat) (payload : bytes).

Definition find_dc (a : addr) (l : list (addr * nat)) : option nat :=
  snd <$> List.find (λ x, bool_decide (x.1 = a)) l.

(** The context of flow [f]. *)
Definition flow_ctx (f : nat) (ctxErr : bool) (w : world) : bool := ctxErr || from_option fclosed true (fl f w).

Definition finish (f : nat) (w : world) : world :=
  (flow_close f w) <| ob ::= λ h, h <| flows ::= λ s, s ∖ {[f]} |> |>.

(** The section of the fallback: the flow leaves the table and is offered to
    the VPN. *)
Definition fallback_section (f : nat) (w : world) : bool * bool * world :=
  let w := w <| ob ::= λ h, h <| flows ::= λ s, s ∖ {[f]} |> |> in
  let '(transferred, w) := transferVPN f w in (closed (ob w), transferred, w).

Definition fallback (c : conn_input) (f : nat) (replay : bytes) (w : world) : conn_result * world :=
  let '(isClosed, transferred, w) := fallback_section f w in
  let w := c_env c 9%nat w in
  if isClosed || negb transferred || flow_ctx f (c_ctx c 9%nat) w then (Refused errClosed, finish f w)
  else (ToVPN replay, w).

(** The first section: the flow of an offloaded connection, or [None]. *)
Definition admit_section (c : conn_input) (w : world) : option (nat * nat) * option (list nat) * world :=
  let dc := find_dc (c_addr c) (addresses (ob w)) in
  let '(current, fs, w) := gate (c_now c 0%nat) w in
  match dc with
  | Some d =>
      if admitted (ob w) && current && negb (bool_decide (d ∈ unavailable (ob w))) && c_tcp c && (c_port c =? 443)
      then let f := next w in
           (Some (d, f), None, w <| heap ::= insert f (mkFlow None false false false false false false false) |>
                                 <| next := S f |> <| ob ::= λ h, h <| flows ::= union {[f]} |> |>)
      else (None, fs, w)
  | None => (None, fs, w)
  end.

(** The section that decides about the gateway's socket. *)
Definition handoff_section (c : conn_input) (f : nat) (w : world) : bool * option (list nat) * world :=
  let '(current, fs, w) := gate (c_now c 4%nat) w in
  if admitted (ob w) && current && negb (flow_ctx f (c_ctx c 4%nat) w) && negb (c_setupErr c) &&
     bool_decide (is_Some (c_gateway c))
  then let '(ok, w) := attach f (c_gateway c) (flow_ctx f (c_ctx c 4%nat) w) w in (ok, fs, w)
  else (false, fs, w).

(** After the initialization was read. *)
Definition offload (c : conn_input) (d f : nat) (initial : bytes) (w : world) : conn_result * world :=
  let '(ok, fs, w) := handoff_section c f (c_env c 4%nat w) in
  let w := c_env c 5%nat (cleanup fs w) in
  match ok, c_gateway c with
  | true, Some r => (ToWSS r initial, w)
  | _, _ =>
      let w := w <| shut ::= union (opt_set (c_gateway c)) |> in
      let w := if negb (flow_ctx f (c_ctx c 5%nat) w)
               then let '(ready, w) := IsReady (c_now c 5%nat) w in if ready then markUnavailable d w else w
               else w in
      fallback c f initial (c_env c 6%nat w)
  end.

Definition set_reading (f : nat) (b : bool) (w : world) : world := upd f (λ x, x <| reading := b |>) w.

Definition NewConnection (c : conn_input) (w : world) : conn_result * world :=
  if closed (ob w) then (Refused errClosed, w)
  else
    match admit_section c w with
    | (None, fs, w) =>
        if c_ctx c 0%nat then (Refused "context", cleanup fs w) else (ToVPN [], cleanup fs w)
    | (Some (d, f), _, w) =>
        let w := c_env c 1%nat w in
        if from_option setupWithdrawn true (fl f w) then fallback c f [] w
        else
          let w := set_reading f true w in
          match c_deadline c 0%nat with
          | Some e => (Refused e, finish f (c_env c 2%nat w))
          | None =>
              let w := set_reading f false (c_env c 2%nat w) in
              match c_deadline c 1%nat with
              | Some e => (Refused e, finish f (c_env c 3%nat w))
              | None =>
                  let w := c_env c 3%nat w in
                  let '(initial, readErr) := c_read c in
                  if readErr then fallback c f initial w
                  else
                    let '(ready, w) := IsReady (c_now c 3%nat) w in
                    if negb ready || negb (nativeObfuscatedInitialization initial) then fallback c f initial w
                    else offload c d f initial w
              end
          end
    end.

(** ** Interleavings of the critical sections *)

Inductive step (w : world) : world → Prop :=
| step_gate now : step w (gate now w).2
| step_deny : step w (denyLocked w).2
| step_cancel : step w (cancel_withdraw w)
| step_mark f : step w (withdraw_mark f w)
| step_withdraw f : step w (withdraw f w)
| step_flow_close f : step w (flow_close f w)
| step_finish f : step w (finish f w)
| step_ready now : step w (IsReady now w).2
| step_admit id now : step w (AdmitAdmission id now w).2
| step_withdraw_admission id : step w (WithdrawAdmission id w).2
| step_start mgr bound now ps : step w (Start mgr bound now ps w).2
| step_close : step w (Close_section w).2
| step_unavailable dc : step w (markUnavailable dc w)
| step_write f ctxErr now : step w (admitted_Write f ctxErr now w).2
| step_reading f b : step w (set_reading f b w)
| step_open c : step w (admit_section c w).2
| step_handoff c f : step w (handoff_section c f w).2
| step_fallback f : step w (fallback_section f w).2
| step_shut r : step w (w <| shut ::= union (opt_set r) |>).

(** ** What every section keeps *)

(** A flow's payload goes to at most one transport. *)
Definition flow_ok (x : telegramFlow) : Prop :=
  (vpnTransferred x = true → payloadCommitted x = false) ∧ (payloadCommitted x = true → active x = true).

Definition flow_le (x y : telegramFlow) : Prop :=
  (fclosed x = true → fclosed y = true) ∧ (vpnTransferred x = true → vpnTransferred y = true) ∧
  (payloadCommitted x = true → payloadCommitted y = true) ∧ (active x = true → active y = true) ∧
  (setupWithdrawn x = true → setupWithdrawn y = true).

Record Inv (w : world) : Prop := mkInv {
  inv_latch : withdrawn (ob w) = true → admitted (ob w) = false;
  inv_flow : ∀ f x, heap w !! f = Some x → flow_ok x;
  inv_fresh : ∀ f x, heap w !! f = Some x → (f < next w)%nat;
  inv_table : ∀ f, f ∈ flows (ob w) → is_Some (heap w !! f)
}.

Record le (w w' : world) : Prop := mkLe {
  le_fixed : admissionID (ob w') = admissionID (ob w) ∧ issued (ob w') = issued (ob w) ∧ expires (ob w') = expires (ob w) ∧
             addresses (ob w') = addresses (ob w);
  le_withdrawn : withdrawn (ob w) = true → withdrawn (ob w') = true;
  le_closed : closed (ob w) = true → closed (ob w') = true;
  le_next : (next w ≤ next w')%nat;
  le_heap : ∀ f x, heap w !! f = Some x → ∃ y, heap w' !! f = Some y ∧ flow_le x y
}.

#[export] Instance flow_le_po : PreOrder flow_le.
Proof. split; [done|]. unfold flow_le. intros x y z ? ?. naive_solver. Qed.

#[export] Instance le_po : PreOrder le.
Proof.
  split; [intros w; split; try done; intros f x H; exists x; split; [done|reflexivity]|].
  intros x y z [A1 A2 A3 A4 A5] [B1 B2 B3 B4 B5]. split; auto; [intuition congruence|lia|].
  intros f a H. destruct (A5 f a H) as (b & Hb & L1). destruct (B5 f b Hb) as (d & Hd & L2). exists d. split; [done|by etrans].
Qed.

Definition keeps (w w' : world) : Prop := Inv w → Inv w' ∧ le w w'.

Lemma tg_refl w : keeps w w.
Proof. intros I. split; [done|reflexivity]. Qed.
Lemma tg_trans w1 w2 w3 : keeps w1 w2 → keeps w2 w3 → keeps w1 w3.
Proof. intros H1 H2 I. destruct (H1 I) as [I2 ?], (H2 I2) as [I3 ?]. split; [done|by etrans]. Qed.

(** A section that leaves the flows alone and keeps the latch. *)
Lemma tg_fields w w' :
  heap w' = heap w → next w' = next w → admissionID (ob w') = admissionID (ob w) → issued (ob w') = issued (ob w) →
  expires (ob w') = expires (ob w) → addresses (ob w') = addresses (ob w) →
  (withdrawn (ob w) = true → withdrawn (ob w') = true) → (closed (ob w) = true → closed (ob w') = true) →
  (Inv w → withdrawn (ob w') = true → admitted (ob w') = false) → flows (ob w') ⊆ flows (ob w) → keeps w w'.
Proof.
  intros E1 E2 E3 E4 E5 E6 Hw Hc Ha Hf I. pose proof I as [L F N T]. split.
  - split; rewrite ?E1, ?E2; auto.
  - split; auto; [lia|]. rewrite E1. intros f x H. exists x. split; [done|reflexivity].
Qed.

Ltac fields := apply tg_fields; simpl; try done; try set_solver; try (intros [? _ _ _]; auto).

(** An assignment to one flow. *)
Lemma tg_upd f g w :
  (∀ x, heap w !! f = Some x → flow_ok x → flow_ok (g x) ∧ flow_le x (g x)) → keeps w (upd f g w).
Proof.
  intros Hg [L F N T].
  assert (Hl : ∀ h x, heap (upd f g w) !! h = Some x → ∃ y, heap w !! h = Some y ∧ flow_ok x ∧ flow_le y x).
  { intros h x. unfold upd. simpl. destruct (decide (f = h)) as [<-|Hne].
    - rewrite lookup_alter_eq. destruct (heap w !! f) as [y|] eqn:E; [|done]. intros [= <-]. exists y. split; [done|].
      apply Hg; [done|]. by eapply F.
    - rewrite lookup_alter_ne by done. intros E. exists x. split_and!; [done|by eapply F|reflexivity]. }
  split; split; simpl; try done.
  - intros h x H. by destruct (Hl h x H) as (y & _ & ? & _).
  - intros h x H. destruct (Hl h x H) as (y & ? & _). by eapply N.
  - intros h Hh. destruct (decide (f = h)) as [<-|Hne];
      [rewrite lookup_alter_eq; by apply fmap_is_Some, T|rewrite lookup_alter_ne by done; by apply T].
  - intros h x H. destruct (decide (f = h)) as [<-|Hne].
    + rewrite lookup_alter_eq, H. simpl. eexists. split; [done|]. apply Hg; [done|]. by eapply F.
    + rewrite lookup_alter_ne by done. exists x. split; [done|reflexivity].
Qed.

Lemma tg_deny w : keeps w (denyLocked w).2.
Proof. unfold denyLocked. case_goal; [apply tg_refl|]. fields. Qed.

Lemma tg_gate now w : keeps w (gate now w).2.
Proof.
  unfold gate. destruct (currentLocked now w); [apply tg_refl|]. pose proof (tg_deny w) as H. by destruct (denyLocked w).
Qed.

Lemma tg_flow_close f w : keeps w (flow_close f w).
Proof.
  unfold flow_close. destruct (fl f w) as [x|]; [|apply tg_refl]. case_goal; [apply tg_refl|].
  eapply tg_trans; [apply (tg_upd f (λ x, x <| fclosed := true |>))|fields].
  intros y _ H. split; [exact H|]. unfold flow_le. simpl. done.
Qed.

Lemma tg_mark f w : keeps w (withdraw_mark f w).
Proof.
  apply tg_upd. intros x _ H. case_goal; [split; [done|reflexivity]|]. split; [exact H|]. unfold flow_le. simpl. done.
Qed.

Lemma tg_withdraw f w : keeps w (withdraw f w).
Proof.
  unfold withdraw. destruct (fl f w) as [x|]; [|apply tg_refl]. case_goal; [apply tg_refl|].
  case_goal; [|apply tg_mark]. eapply tg_trans; [apply tg_mark|apply tg_flow_close].
Qed.

Lemma tg_cleanup fs w : keeps w (cleanup fs w).
Proof.
  destruct fs as [fs|]; [|apply tg_refl]. unfold cleanup.
  eapply tg_trans; [instantiate (1 := cancel_withdraw w); fields|].
  generalize (cancel_withdraw w). induction fs as [|f fs IH]; intros w'; simpl; [apply tg_refl|].
  eapply tg_trans; [apply tg_withdraw|apply IH].
Qed.

Lemma tg_ready now w : keeps w (IsReady now w).2.
Proof.
  unfold IsReady. pose proof (tg_gate now w) as H. destruct (gate now w) as [[b fs] w1].
  eapply tg_trans; [exact H|apply tg_cleanup].
Qed.

Lemma gate_true now w b fs w' : gate now w = (b, fs, w') → b = true → fs = None ∧ w' = w ∧ currentLocked now w = true.
Proof. unfold gate. destruct (currentLocked now w); [by intros [= <- <- <-]|]. destruct (denyLocked w). by intros [= <- <- <-]. Qed.

Lemma current_latch now w : currentLocked now w = true → withdrawn (ob w) = false.
Proof. unfold currentLocked. intros H. bsplit. done. Qed.

Lemma tg_admit id now w : keeps w (AdmitAdmission id now w).2.
Proof.
  unfold AdmitAdmission. case_goal; [apply tg_refl|]. pose proof (tg_gate now w) as H.
  destruct (gate now w) as [[[] fs] w1] eqn:E; simpl.
  - destruct (gate_true _ _ _ _ _ E eq_refl) as (_ & -> & Hc%current_latch). fields.
  - eapply tg_trans; [exact H|apply tg_cleanup].
Qed.

Lemma tg_withdraw_admission id w : keeps w (WithdrawAdmission id w).2.
Proof.
  unfold WithdrawAdmission. case_goal; [apply tg_refl|]. pose proof (tg_deny w) as H.
  destruct (denyLocked w) as [[fs|] w1]; simpl; [|done]. eapply tg_trans; [exact H|apply (tg_cleanup (Some fs))].
Qed.

Lemma tg_start mgr bound now ps w : keeps w (Start mgr bound now ps w).2.
Proof.
  unfold Start. case_goal; [apply tg_refl|]. destruct (consumePreparation _ _ _ _) as [[dl|] ps']; simpl; fields.
Qed.

Lemma tg_commit f x w : keeps w (commitPayload f x w).2.
Proof.
  unfold commitPayload. destruct (fl f w) as [y|] eqn:E; [|apply tg_refl]. case_goal; [apply tg_refl|]. simpl. bsplit.
  apply tg_upd. intros z Hz _. unfold fl in E. rewrite E in Hz. simplify_eq. split.
  - split; simpl; [congruence|done].
  - unfold flow_le. simpl. done.
Qed.

Lemma tg_write f x now w : keeps w (admitted_Write f x now w).2.
Proof.
  unfold admitted_Write. pose proof (tg_gate now w) as H. destruct (gate now w) as [[b fs] w1]. simpl in H.
  case_goal; [|exact H]. pose proof (tg_commit f x w1) as K. destruct (commitPayload f x w1) as [ok w2].
  by eapply tg_trans.
Qed.

Lemma tg_attach f r x w : keeps w (attach f r x w).2.
Proof.
  unfold attach. destruct (fl f w) as [y|] eqn:E; [|apply tg_refl]. destruct r as [r|]; [|apply tg_refl].
  case_goal; [apply tg_refl|]. simpl. apply tg_upd. intros z _ [H1 H2]. split; [by split|]. unfold flow_le. simpl. done.
Qed.

Lemma tg_transfer f w : keeps w (transferVPN f w).2.
Proof.
  unfold transferVPN. destruct (fl f w) as [y|] eqn:E; [|apply tg_refl]. case_goal; [apply tg_refl|]. simpl. bsplit.
  apply tg_upd. intros z Hz _. unfold fl in E. rewrite E in Hz. simplify_eq. split; [split; simpl; congruence|].
  unfold flow_le. simpl. done.
Qed.

Lemma tg_open c w : keeps w (admit_section c w).2.
Proof.
  unfold admit_section. pose proof (tg_gate (c_now c 0) w) as H. destruct (gate (c_now c 0) w) as [[b fs] w1]. simpl in H.
  case_goal; [|exact H]. case_goal; [|exact H]. eapply tg_trans; [exact H|]. clear H. simpl.
  intros [L F N T]. split; split; simpl; try done.
  - intros f x. case_key (next w1) f; [by intros [= <-]|apply F].
  - intros f x. case_key (next w1) f; [lia|]. intros Hf%N. lia.
  - intros f [->%elem_of_singleton|Hf]%elem_of_union; [by rewrite lookup_insert_eq|].
    case_key (next w1) f; [done|by apply T].
  - lia.
  - intros f x Hf. pose proof (N f x Hf). exists x. split; [|reflexivity]. rewrite lookup_insert_ne; [done|lia].
Qed.

Lemma tg_handoff c f w : keeps w (handoff_section c f w).2.
Proof.
  unfold handoff_section. pose proof (tg_gate (c_now c 4) w) as H. destruct (gate (c_now c 4) w) as [[b fs] w1]. simpl in H.
  case_goal; [|exact H]. pose proof (tg_attach f (c_gateway c) (flow_ctx f (c_ctx c 4) w1) w1) as K.
  destruct (attach _ _ _ w1) as [ok w2]. by eapply tg_trans.
Qed.

Lemma tg_fallback_section f w : keeps w (fallback_section f w).2.
Proof.
  unfold fallback_section. set (w1 := w <| ob ::= _ |>). assert (H : keeps w w1) by fields.
  pose proof (tg_transfer f w1) as K. destruct (transferVPN f w1) as [t w2]. by eapply tg_trans.
Qed.

Lemma tg_finish f w : keeps w (finish f w).
Proof. eapply tg_trans; [apply (tg_flow_close f)|]. unfold finish. fields. Qed.

Lemma tg_reading f b w : keeps w (set_reading f b w).
Proof. apply tg_upd. intros x _ H. split; [exact H|]. unfold flow_le. simpl. done. Qed.

Lemma tg_step w w' : step w w' → keeps w w'.
Proof.
  destruct 1; auto using tg_gate, tg_deny, tg_mark, tg_withdraw, tg_flow_close, tg_finish, tg_ready, tg_admit,
    tg_withdraw_admission, tg_start, tg_write, tg_reading, tg_open, tg_handoff, tg_fallback_section; fields.
Qed.

Lemma tg_steps w w' : rtc step w w' → keeps w w'.
Proof. induction 1; [apply tg_refl|]. eapply tg_trans; [by apply tg_step|done]. Qed.

Lemma tg_initial tag o now ps mgrs tr id w : NewOutbound tag o now ps mgrs tr id = Ok w → Inv w.
Proof.
  unfold NewOutbound. intros H. repeat (case_hyp H; try done); destruct id; simpl in H; try done;
  injection H as <-; split; simpl; try done; set_solver.
Qed.

(** ** One transport per stream *)

Lemma transfer_refused f w x :
  Inv w → heap w !! f = Some x → payloadCommitted x = true → transferVPN f w = (false, w).
Proof.
  intros I E Hc. unfold transferVPN, fl. rewrite E. destruct (inv_flow _ I f x E) as [_ Ha].
  rewrite (Ha Hc). by rewrite orb_true_r.
Qed.

Lemma commit_refused f e w x : heap w !! f = Some x → vpnTransferred x = true → commitPayload f e w = (false, w).
Proof. intros E Hv. unfold commitPayload, fl. rewrite E, Hv. by rewrite orb_true_r. Qed.

Lemma gate_heap now w : heap (gate now w).2 = heap w.
Proof. unfold gate, denyLocked. destruct (currentLocked now w); [done|]. by destruct (withdrawn (ob w)). Qed.

(** C6: A Telegram stream is carried by one transport only, in every
    interleaving: once a write of it was let through to the WebSocket gateway it
    is never handed to the VPN, and once it was handed to the VPN no write of it
    is let through to the gateway; nothing undoes either fact. *)
Theorem tg_single_transport tag o now0 ps mgrs tr id w0 w w' f x :
  NewOutbound tag o now0 ps mgrs tr id = Ok w0 → rtc step w0 w → rtc step w w' → heap w !! f = Some x →
  (payloadCommitted x = true → transferVPN f w' = (false, w')) ∧
  (vpnTransferred x = true → ∀ e now, (admitted_Write f e now w').1.1 = false) ∧
  ∃ x', heap w' !! f = Some x' ∧ flow_le x x' ∧ (vpnTransferred x' = true → payloadCommitted x' = false).
Proof.
  intros I0%tg_initial R R' E. destruct (tg_steps _ _ R I0) as [I _], (tg_steps _ _ R' I) as [I' L].
  destruct (le_heap _ _ L f x E) as (x' & E' & Hle). pose proof Hle as (_ & Hv & Hc & _). split_and!.
  - intros H. by apply (transfer_refused f w' x'), Hc.
  - intros H e now. unfold admitted_Write. pose proof (gate_heap now w') as Hg.
    destruct (gate now w') as [[b fs] w1]. simpl in Hg. case_goal; [|done].
    rewrite (commit_refused f e w1 x'); [done|by rewrite Hg|by apply Hv].
  - exists x'. split_and!; [done..|]. by destruct (inv_flow _ I' f x' E').
Qed.

(** ** The denial is terminal *)

Lemma gate_denied now w : withdrawn (ob w) = true → gate now w = (false, None, w).
Proof.
  intros H. unfold gate, currentLocked, denyLocked. rewrite H. by rewrite andb_false_r.
Qed.

Lemma gate_closed now w : closed (ob w) = true → (gate now w).1.1 = false.
Proof. intros H. unfold gate, currentLocked. rewrite H. simpl. by destruct (denyLocked w). Qed.

(** The denial of the Telegram admission is terminal: after the first
    withdrawal, expiry, interface change or end of the runtime that any section
    observed, in every later state the outbound is not ready and nothing changes
    that: it cannot be admitted, offers no flow to the gateway, attaches no
    gateway socket and lets no write through.  While it is not denied, a write
    is let through only with the admission granted, inside the signed window and
    before the monotonic deadline. *)
Theorem tg_terminal_denial tag o now0 ps mgrs tr id w0 w w' :
  NewOutbound tag o now0 ps mgrs tr id = Ok w0 → rtc step w0 w → rtc step w w' →
  (withdrawn (ob w) = true →
     (∀ now, IsReady now w' = (false, w')) ∧ (∀ i now, AdmitAdmission i now w' = (false, w')) ∧
     (∀ i, WithdrawAdmission i w' = (false, w')) ∧ (∀ f e now, admitted_Write f e now w' = (false, None, w')) ∧
     (∀ c, admit_section c w' = (None, None, w')) ∧ (∀ c f, handoff_section c f w' = (false, None, w'))) ∧
  (∀ f e now, (admitted_Write f e now w').1.1 = true →
     admitted (ob w') = true ∧ closed (ob w') = false ∧ withdrawn (ob w') = false ∧
     Before now (issued (ob w')) = false ∧ Before now (expires (ob w')) = true ∧ Before now (deadline (ob w')) = true).
Proof.
  intros I0%tg_initial R R'. destruct (tg_steps _ _ R I0) as [I _], (tg_steps _ _ R' I) as [I' L]. split.
  - intros H%(le_withdrawn _ _ L). pose proof (inv_latch _ I' H) as Ha. split_and!; intros.
    + unfold IsReady. by rewrite gate_denied.
    + unfold AdmitAdmission. rewrite gate_denied by done. by case_goal.
    + unfold WithdrawAdmission, denyLocked. rewrite H. by case_goal.
    + unfold admitted_Write. by rewrite gate_denied.
    + unfold admit_section. rewrite gate_denied, Ha by done. by case_goal.
    + unfold handoff_section. by rewrite gate_denied, Ha.
  - intros f e now. unfold admitted_Write. destruct (gate now w') as [[[] fs] w1] eqn:E; simpl; [|done].
    destruct (gate_true _ _ _ _ _ E eq_refl) as (_ & -> & Hc). destruct (admitted (ob w')) eqn:Ead; [|done].
    intros _. unfold currentLocked in Hc. by bsplit.
Qed.

(** ** What a withdrawal does to the flows *)

Definition withdrawn_flow (x : telegramFlow) : telegramFlow :=
  if vpnTransferred x then x
  else x <| setupWithdrawn := true |> <| woken := woken x || reading x |> <| fclosed := fclosed x || active x |>.

Lemma withdraw_heap f w : heap (withdraw f w) = alter withdrawn_flow f (heap w).
Proof.
  unfold withdraw, fl. apply map_eq. intros j. destruct (heap w !! f) as [x|] eqn:E.
  - unfold withdrawn_flow. destruct (decide (f = j)) as [<-|Hne].
    + rewrite lookup_alter_eq, E. simpl. destruct (vpnTransferred x) eqn:Ev; [done|].
      destruct (active x) eqn:Ea.
      * unfold flow_close, fl, withdraw_mark, upd. simpl. rewrite lookup_alter_eq, E. simpl. rewrite Ev. simpl.
        destruct (fclosed x) eqn:Ec; simpl; rewrite !lookup_alter_eq, ?E; simpl; rewrite Ev; simpl; by rewrite ?Ea, ?Ec.
      * unfold withdraw_mark, upd. simpl. rewrite lookup_alter_eq, E. simpl. rewrite Ev, orb_false_r. by rewrite Ea.
    + rewrite lookup_alter_ne by done. destruct (vpnTransferred x); [done|].
      assert (Hm : heap (withdraw_mark f w) !! j = heap w !! j) by (unfold withdraw_mark, upd; simpl; by rewrite lookup_alter_ne).
      destruct (active x); [|exact Hm]. unfold flow_close, fl. destruct (heap (withdraw_mark f w) !! f); [|exact Hm].
      case_goal; [exact Hm|]. simpl. by rewrite !lookup_alter_ne.
  - destruct (decide (f = j)) as [<-|Hne]; [by rewrite lookup_alter_eq, E|by rewrite lookup_alter_ne].
Qed.

Lemma withdraw_all_heap fs w :
  NoDup fs → ∀ f, heap (foldl (λ w f, withdraw f w) w fs) !! f =
    (if bool_decide (f ∈ fs) then withdrawn_flow <$> heap w !! f else heap w !! f).
Proof.
  intros Hd. revert w. induction Hd as [|g fs Hg Hd IH]; intros w f; simpl; [done|].
  rewrite IH, withdraw_heap. destruct (decide (f = g)) as [->|Hne].
  - rewrite bool_decide_eq_false_2, bool_decide_eq_true_2, lookup_alter_eq; [done|by left|done].
  - rewrite lookup_alter_ne by done. rewrite (bool_decide_ext (f ∈ g :: fs) (f ∈ fs)); [done|].
    rewrite elem_of_cons. tauto.
Qed.

(** A withdrawal of the Telegram admission reaches every flow exactly as it
    should: a flow that still owns a gateway socket is closed, a flow that is
    being set up is marked so that it can never attach a gateway socket (and its
    pending read is interrupted) but can still go to the VPN, and a flow the VPN
    owns is left exactly as it was, as are flows that are not in the table. *)
Theorem tg_withdraw_contains tag o now0 ps mgrs tr id w0 w :
  NewOutbound tag o now0 ps mgrs tr id = Ok w0 → rtc step w0 w → withdrawn (ob w) = false →
  let '(ok, w') := WithdrawAdmission (admissionID (ob w)) w in
  ok = true ∧ withdrawErr w' = true ∧
  (∀ f, f ∉ flows (ob w) → heap w' !! f = heap w !! f) ∧
  (∀ f x, f ∈ flows (ob w) → heap w !! f = Some x →
     (vpnTransferred x = true → heap w' !! f = Some x) ∧
     (vpnTransferred x = false → active x = true → ∃ x', heap w' !! f = Some x' ∧ fclosed x' = true) ∧
     (vpnTransferred x = false → active x = false → fclosed x = false →
        (∀ r e w2, rtc step w' w2 → attach f r e w2 = (false, w2)) ∧ (transferVPN f w').1 = true)).
Proof.
  intros I0%tg_initial R Hw. destruct (tg_steps _ _ R I0) as [I _].
  unfold WithdrawAdmission, denyLocked. rewrite bool_decide_eq_true_2, Hw by done. simpl negb. cbv iota.
  set (w1 := w <| ob ::= _ |>). unfold cleanup.
  pose proof (withdraw_all_heap (elements (flows (ob w))) (cancel_withdraw w1) (NoDup_elements _)) as Hh.
  assert (Hi : ∀ w2 fs, withdrawErr w2 = true → withdrawErr (foldl (λ w f, withdraw f w) w2 fs) = true).
  { intros w2 fs. revert w2. induction fs as [|f fs IH]; intros w2 E; simpl; [done|]. apply IH.
    unfold withdraw, flow_close. repeat case_goal; done. }
  assert (K : keeps w (cleanup (Some (elements (flows (ob w)))) w1)).
  { eapply tg_trans; [|apply tg_cleanup]. pose proof (tg_deny w) as D. unfold denyLocked in D. by rewrite Hw in D. }
  destruct (K I) as [I' _]. unfold cleanup in I'. split_and!; [done|by apply Hi| |].
  - intros f Hf. rewrite Hh, bool_decide_eq_false_2; [done|]. by rewrite elem_of_elements.
  - intros f x Hf E. specialize (Hh f). rewrite bool_decide_eq_true_2 in Hh by (by rewrite elem_of_elements).
    simpl in Hh. rewrite E in Hh. simpl in Hh. unfold withdrawn_flow in Hh. split_and!.
    + intros Hv. by rewrite Hv in Hh.
    + intros Hv Ha. rewrite Hv in Hh. eexists. split; [exact Hh|]. simpl. by rewrite Ha, orb_true_r.
    + intros Hv Ha Hc. rewrite Hv in Hh. split.
      * intros r e w2 R2. destruct (tg_steps _ _ R2 I') as [_ L]. destruct (le_heap _ _ L f _ Hh) as (y & Ey & Hle).
        unfold attach, fl. rewrite Ey. destruct r; [|done]. destruct Hle as (_ & _ & _ & _ & ->); [|done].
        by rewrite orb_true_r.
      * unfold transferVPN, fl. rewrite Hh. simpl. rewrite Hc, Ha. simpl.
        destruct (inv_flow _ I f x E) as [_ Hp]. destruct (payloadCommitted x); [|done]. rewrite Hp in Ha by done. done.
Qed.

(** ** Preparations are used once, for exactly what was prepared *)

Inductive prep_event :=
| ERegister (o : tg_options) (fallback : gmap string string) (now : time) (nonce : option string)
| EConsume (bound : preparations) (o : tg_options) (now : time).

(** What happened: a registration with its id, or a start that was granted. *)
Inductive prep_log :=
| Registered (id : string) (o : tg_options) (fallback : gmap string string) (dl : time)
| Granted (id : string) (o : tg_options) (now : time).

Definition prep_step (s : list prep_log * preparations) (e : prep_event) : list prep_log * preparations :=
  let '(log, ps) := s in
  match e with
  | ERegister o fb now nonce =>
      match RegisterPreparation o fb now nonce ps with
      | (Ok id, ps) => (Registered id o fb (from_option p_deadline now (ps !! id)) :: log, ps)
      | (Err _, ps) => (log, ps)
      end
  | EConsume bound o now =>
      let r := consumePreparation bound o now ps in
      (match r.1 with Some _ => Granted (o_NativePreparationID o) o now :: log | None => log end, r.2)
  end.

Definition registers (id : string) (l : list prep_log) : nat :=
  length (List.filter (λ x, match x with Registered i _ _ _ => bool_decide (i = id) | _ => false end) l).
Definition grants (id : string) (l : list prep_log) : nat :=
  length (List.filter (λ x, match x with Granted i _ _ => bool_decide (i = id) | _ => false end) l).

Definition unstamped (o : tg_options) : tg_options := o <| o_NativePreparationID := "" |>.

Record prep_inv (s : list prep_log * preparations) : Prop := mkPrepInv {
  pi_count : ∀ id, (grants id s.1 + (if bool_decide (is_Some (s.2 !! id)) then 1 else 0) ≤ registers id s.1)%nat;
  pi_store : ∀ id p, s.2 !! id = Some p → ∃ o, Registered id o (p_fallback p) (p_deadline p) ∈ s.1 ∧ p_options p = unstamped o;
  pi_grant : ∀ id o now, Granted id o now ∈ s.1 → ∃ o' fb dl, Registered id o' fb dl ∈ s.1 ∧
    unstamped o = unstamped o' ∧ Before now dl = true
}.

Lemma register_ok o fb now nonce ps id ps' :
  RegisterPreparation o fb now nonce ps = (Ok id, ps') →
  ∃ p, ps' = <[id := p]> (filter (λ kv : string * preparedScope, Before now (p_deadline kv.2) = true) ps) ∧
    p_options p = unstamped o ∧ p_fallback p = fb.
Proof.
  unfold RegisterPreparation. intros H. repeat (case_hyp H; try done). injection H as <- <-. eexists. split; [done|]. done.
Qed.

Lemma consume_ok bound o now ps dl :
  (consumePreparation bound o now ps).1 = Some dl →
  ∃ p, ps !! o_NativePreparationID o = Some p ∧ p_options p = unstamped o ∧ Before now (p_deadline p) = true ∧ dl = p_deadline p.
Proof.
  unfold consumePreparation. destruct (ps !! o_NativePreparationID o) as [p|]; [|done].
  destruct (bound !! _) as [q|]; [|done]. simpl. case_goal; [|done]. intros [= <-]. unfold valid_for in *. bsplit.
  exists p. done.
Qed.

Lemma indicator_mono (P Q : Prop) `{Decision P, Decision Q} :
  (P → Q) → ((if bool_decide P then 1 else 0) ≤ (if bool_decide Q then 1 else 0))%nat.
Proof. intros H1. case_bool_decide as HP; [|lia]. rewrite bool_decide_eq_true_2; [done|auto]. Qed.

Lemma prep_inv_step s e : prep_inv s → prep_inv (prep_step s e).
Proof.
  destruct s as [log ps]. intros [C S G]. cbn [fst snd] in C, S, G.
  destruct e as [o fb now nonce|bound o now]; unfold prep_step; cbv zeta.
  - destruct (RegisterPreparation o fb now nonce ps) as [[id|err] ps'] eqn:E.
    + destruct (register_ok _ _ _ _ _ _ _ E) as (p & -> & Ho & Hf). split; simpl.
      * intros id'. specialize (C id'). unfold registers, grants in *. simpl.
        destruct (decide (id = id')) as [<-|Hne].
        { rewrite (bool_decide_eq_true_2 (id = id)) by done. simpl.
          rewrite bool_decide_eq_true_2 by (by rewrite lookup_insert_eq).
          destruct (bool_decide (is_Some (ps !! id))); lia. }
        { rewrite (bool_decide_eq_false_2 (id = id')), lookup_insert_ne by done.
          etrans; [|exact C]. apply Nat.add_le_mono_l, indicator_mono. intros [q [Hq _]%map_lookup_filter_Some]. by eexists. }
      * intros id' q. destruct (decide (id = id')) as [<-|Hne].
        { rewrite lookup_insert_eq. intros [= <-]. simpl. exists o. rewrite Hf. split; [left|done]. }
        { rewrite lookup_insert_ne by done. intros [Hq _]%map_lookup_filter_Some. destruct (S id' q Hq) as (o' & ? & ?).
          exists o'. split; [by right|done]. }
      * intros id' o' now' [|Hin]%elem_of_cons; [done|]. destruct (G id' o' now' Hin) as (a & b & d & ? & ?).
        exists a, b, d. split; [by right|done].
    + assert (ps' = ps) as ->; [|by split]. revert E. unfold RegisterPreparation. intros E.
      repeat (case_hyp E; try congruence).
  - change (consumePreparation bound o now ps).2 with (delete (o_NativePreparationID o) ps).
    destruct (consumePreparation bound o now ps).1 as [dl|] eqn:E.
    + destruct (consume_ok _ _ _ _ _ E) as (p & Hp & Ho & Hb & ->). clear E. revert Hp. generalize (o_NativePreparationID o). intros id Hp.
      split; simpl.
      * intros id'. specialize (C id'). unfold registers, grants in *. simpl. destruct (decide (id = id')) as [<-|Hne].
        { rewrite Hp, bool_decide_eq_true_2 in C by done. rewrite (bool_decide_eq_true_2 (id = id)), lookup_delete_eq by done.
          simpl. lia. }
        { by rewrite (bool_decide_eq_false_2 (id = id')), lookup_delete_ne by done. }
      * intros id' q [_ Hq]%lookup_delete_Some. destruct (S id' q Hq) as (o' & ? & ?). exists o'. split; [by right|done].
      * intros id' o' now' [[= -> -> ->]|Hin]%elem_of_cons.
        { destruct (S id p Hp) as (o' & Hin & Ho'). exists o', (p_fallback p), (p_deadline p).
          split_and!; [by right|congruence|done]. }
        { destruct (G id' o' now' Hin) as (a & b & d & ? & ?). exists a, b, d. split; [by right|done]. }
    + split; simpl; [|intros id q [_ Hq]%lookup_delete_Some; by apply S|done].
      intros id. etrans; [|apply (C id)]. apply Nat.add_le_mono_l, indicator_mono.
      intros [q [_ Hq]%lookup_delete_Some]. by eexists.
Qed.

(** A native preparation authorises one start, of exactly what was
    prepared: through any sequence of preparations and starts, an id is granted
    at most as often as it was registered, and every granted start had the
    options of a registration under that id, field for field, before the
    deadline that registration fixed. *)
Theorem preparation_once events id :
  let s := foldl prep_step ([], ∅) events in
  (grants id s.1 ≤ registers id s.1)%nat ∧
  ∀ o now, Granted id o now ∈ s.1 → ∃ o' fb dl, Registered id o' fb dl ∈ s.1 ∧
    unstamped o = unstamped o' ∧ Before now dl = true.
Proof.
  cbv zeta. assert (I : prep_inv ([], ∅)) by (split; simpl; [intros i; by rewrite lookup_empty|done|set_solver]).
  revert I. generalize (@nil prep_log, ∅ : preparations). induction events as [|e events IH]; intros s I; simpl;
    [|by apply IH, prep_inv_step].
  destruct I as [C _ G]. split; [specialize (C id); destruct (bool_decide _); lia|]. intros o now. apply G.
Qed.

(** ** The gate of a connection *)

Definition released (f : nat) (w : world) : Prop :=
  f ∉ flows (ob w) ∧ ∃ x, heap w !! f = Some x ∧ fclosed x = true.

Definition holds_flow (f : nat) (w : world) : Prop := Inv w ∧ is_Some (heap w !! f).

Lemma tg_holds_keeps f w w' : keeps w w' → holds_flow f w → holds_flow f w' ∧ le w w'.
Proof.
  intros K [I [x Hf]]. destruct (K I) as [I' L]. split; [split; [done|]|done].
  destruct (le_heap _ _ L f x Hf) as (y & -> & _). done.
Qed.

Lemma tg_finish_released f w : holds_flow f w → released f (finish f w).
Proof.
  intros [_ [x Hf]]. split; [unfold finish; simpl; set_solver|]. unfold finish, flow_close, fl. rewrite Hf.
  destruct (fclosed x) eqn:Ec; simpl; [by exists x|]. rewrite lookup_alter_eq, Hf. simpl. by eexists.
Qed.

Section connection.
Context (c : conn_input) (Henv : ∀ k w, rtc step w (c_env c k w)).

Lemma tg_env_keeps k w : keeps w (c_env c k w).
Proof. apply tg_steps, Henv. Qed.

(** Where the connection that owns flow [f] ended. *)
Definition outcome (f : nat) (res : conn_result) (w' : world) : Prop :=
  Inv w' ∧
  match res with
  | Refused _ => released f w'
  | ToVPN replay => (replay = [] ∨ replay = (c_read c).1) ∧ ∃ x, heap w' !! f = Some x ∧ vpnTransferred x = true
  | ToWSS r p => c_gateway c = Some r ∧ p = (c_read c).1 ∧ (c_read c).2 = false ∧ c_setupErr c = false ∧
      nativeObfuscatedInitialization p = true ∧ ∃ x, heap w' !! f = Some x ∧ active x = true
  end.

Lemma tg_refuse_ok f e w : holds_flow f w → outcome f (Refused e) (finish f w).
Proof. intros H. split; [by apply tg_finish, H|by apply tg_finish_released]. Qed.

Lemma transfer_ok f w w' : transferVPN f w = (true, w') → ∃ x, heap w' !! f = Some x ∧ vpnTransferred x = true.
Proof.
  unfold transferVPN, fl. destruct (heap w !! f) as [x|] eqn:E; [|done]. case_goal; [done|]. intros [= <-].
  unfold upd. simpl. rewrite lookup_alter_eq, E. by eexists.
Qed.

Lemma fallback_ok f replay w :
  holds_flow f w → replay = [] ∨ replay = (c_read c).1 →
  let '(res, w') := fallback c f replay w in outcome f res w'.
Proof.
  intros H Hr. unfold fallback. destruct (tg_holds_keeps f _ _ (tg_fallback_section f w) H) as [H1 _].
  assert (Ht : (fallback_section f w).1.2 = true →
    ∃ x, heap (fallback_section f w).2 !! f = Some x ∧ vpnTransferred x = true).
  { unfold fallback_section. destruct (transferVPN f _) as [t w2] eqn:E. simpl. intros ->. by eapply transfer_ok. }
  destruct (fallback_section f w) as [[cl t] w1]. simpl in *.
  destruct (tg_holds_keeps f _ _ (tg_env_keeps 9 w1) H1) as [H2 L]. case_goal; [by apply tg_refuse_ok|].
  bsplit. destruct t; [|done]. destruct (Ht eq_refl) as (x & Ex & Hv). destruct (le_heap _ _ L f x Ex) as (y & Ey & Hle).
  split; [apply H2|]. split; [done|]. exists y. split; [done|]. by apply Hle.
Qed.

Lemma attach_ok f r e w w' : attach f r e w = (true, w') → ∃ x, heap w' !! f = Some x ∧ active x = true.
Proof.
  unfold attach, fl. destruct (heap w !! f) as [x|] eqn:E; [|done]. destruct r; [|done]. case_goal; [done|].
  intros [= <-]. unfold upd. simpl. rewrite lookup_alter_eq, E. by eexists.
Qed.

Lemma handoff_ok f w fs w' : handoff_section c f w = (true, fs, w') →
  c_setupErr c = false ∧ is_Some (c_gateway c) ∧ ∃ x, heap w' !! f = Some x ∧ active x = true.
Proof.
  unfold handoff_section. destruct (gate (c_now c 4) w) as [[b fs1] w1]. destruct (_ && _) eqn:E; [|done]. bsplit.
  destruct (attach _ _ _ w1) as [ok w2] eqn:Ea. intros [= -> <- <-]. split_and!; [done..|by eapply attach_ok].
Qed.

Lemma offload_ok d f initial w :
  holds_flow f w → initial = (c_read c).1 → (c_read c).2 = false → nativeObfuscatedInitialization initial = true →
  let '(res, w') := offload c d f initial w in outcome f res w'.
Proof.
  intros H Hi Hr Hn. unfold offload. destruct (tg_holds_keeps f _ _ (tg_env_keeps 4 w) H) as [H1 _].
  destruct (tg_holds_keeps f _ _ (tg_handoff c f (c_env c 4 w)) H1) as [H2 _].
  pose proof (handoff_ok f (c_env c 4 w)) as Hok. destruct (handoff_section c f (c_env c 4 w)) as [[ok fs] w1].
  simpl in H2. assert (K : keeps w1 (c_env c 5 (cleanup fs w1))) by (eapply tg_trans; [apply tg_cleanup|apply tg_env_keeps]).
  destruct (tg_holds_keeps f _ _ K H2) as [H3 L3]. revert H3 L3. generalize (c_env c 5 (cleanup fs w1)). intros w2 H3 L3.
  assert (Hfb : let '(res, w') :=
    fallback c f initial (c_env c 6 (let w3 := w2 <| shut ::= union (opt_set (c_gateway c)) |> in
      if negb (flow_ctx f (c_ctx c 5) w3)
      then let '(ready, w4) := IsReady (c_now c 5) w3 in if ready then markUnavailable d w4 else w4 else w3))
    in outcome f res w').
  { apply fallback_ok; [|auto]. eapply tg_holds_keeps; [apply tg_env_keeps|]. cbv zeta.
    set (w3 := w2 <| shut ::= _ |>). pose proof (tg_step _ _ (step_shut w2 (c_gateway c))) as K3. fold w3 in K3.
    destruct (tg_holds_keeps f _ _ K3 H3) as [H4 _]. destruct (negb _); [|exact H4].
    pose proof (tg_ready (c_now c 5) w3) as K4. destruct (IsReady (c_now c 5) w3) as [ready w4]. simpl in K4.
    destruct (tg_holds_keeps f _ _ K4 H4) as [H5 _]. destruct ready; [|exact H5].
    eapply tg_holds_keeps; [|exact H5]. apply tg_step, step_unavailable. }
  destruct ok; [|exact Hfb]. destruct (Hok fs w1 eq_refl) as (Hs & [r Hg] & x & Ex & Ha). rewrite Hg.
  destruct (le_heap _ _ L3 f x Ex) as (y & Ey & Hle). split; [apply H3|]. split_and!; try done.
  exists y. split; [done|]. by apply Hle.
Qed.

Lemma admit_ok w d f fs w' : admit_section c w = (Some (d, f), fs, w') →
  Inv w → f = next w ∧ holds_flow f w' ∧ fs = None ∧ find_dc (c_addr c) (addresses (ob w)) = Some d ∧
  d ∉ unavailable (ob w) ∧ c_tcp c = true ∧ c_port c = 443 ∧ admitted (ob w) = true ∧ currentLocked (c_now c 0) w = true.
Proof.
  intros E I. pose proof (tg_open c w I) as [I' _]. rewrite E in I'. revert E. unfold admit_section.
  destruct (find_dc _ _) as [d'|] eqn:Ed; [|by destruct (gate _ _) as [[? ?] ?]].
  destruct (gate (c_now c 0) w) as [[b fs1] w1] eqn:Eg. destruct (_ && _) eqn:E; [|done]. bsplit.
  destruct (gate_true _ _ _ _ _ Eg) as (-> & -> & Hc); [done|]. intros [= <- <- <- <-]. simpl in I'.
  split_and!; try done; [|lia]. split; [done|]. simpl. by rewrite lookup_insert_eq.
Qed.
End connection.

(** A connection through the Telegram outbound, with any interference of
    other sections wherever it holds no lock.  It is considered for the gateway
    only for TCP 443 to an admitted address of a datacenter not yet marked
    unavailable, while the admission is granted and current; otherwise it goes
    to the VPN as it came (or is refused when its context is over).  A
    considered connection ends on the gateway only with a native
    initialization, its bytes passed on unchanged; on the VPN with exactly the
    bytes read so far replayed first and the flow transferred, after which no
    byte can reach the gateway; or refused with its flow closed and out of the
    table.  The state stays consistent in every case. *)
Theorem tg_connection_gate tag o now0 ps mgrs tr id w0 c w :
  NewOutbound tag o now0 ps mgrs tr id = Ok w0 → rtc step w0 w → (∀ k w, rtc step w (c_env c k w)) →
  let '(res, w') := NewConnection c w in
  (closed (ob w) = true → res = Refused errClosed ∧ w' = w) ∧
  (closed (ob w) = false →
     match (admit_section c w).1.1 with
     | None => Inv w' ∧ res = if c_ctx c 0%nat then Refused "context" else ToVPN []
     | Some (d, f) =>
         find_dc (c_addr c) (addresses (ob w)) = Some d ∧ d ∉ unavailable (ob w) ∧ c_tcp c = true ∧ c_port c = 443 ∧
         admitted (ob w) = true ∧ currentLocked (c_now c 0%nat) w = true ∧ f = next w ∧ outcome c f res w'
     end).
Proof.
  intros I0%tg_initial R Henv. destruct (tg_steps _ _ R I0) as [I _]. unfold NewConnection.
  destruct (closed (ob w)) eqn:Ec; [split; [done|done]|].
  destruct (admit_section c w) as [[[[d f]|] fs] w1] eqn:Ea.
  2: { pose proof (tg_open c w I) as [I1 _]. rewrite Ea in I1. simpl in I1.
       destruct (tg_cleanup fs w1 I1) as [I2 _]. by destruct (c_ctx c 0). }
  destruct (admit_ok c w d f fs w1 Ea I) as (Hf & H1 & -> & Hfind & Hun & Htcp & Hport & Had & Hcur).
  match goal with |- let '(_, _) := ?e in _ => enough (let '(res, w') := e in outcome c f res w') as Hout end.
  { match goal with |- let '(_, _) := ?e in _ => destruct e as [res w'] end. split; [done|]. intros _. simpl. done. }
  destruct (tg_holds_keeps f _ _ (tg_env_keeps c Henv 1 w1) H1) as [H2 _].
  case_goal; [apply fallback_ok; auto|].
  destruct (tg_holds_keeps f _ _ (tg_reading f true (c_env c 1 w1)) H2) as [H3 _].
  destruct (tg_holds_keeps f _ _ (tg_env_keeps c Henv 2 (set_reading f true (c_env c 1 w1))) H3) as [H4 _].
  destruct (c_deadline c 0); [by apply tg_refuse_ok|].
  destruct (tg_holds_keeps f _ _ (tg_reading f false _) H4) as [H5 _].
  destruct (tg_holds_keeps f _ _ (tg_env_keeps c Henv 3 _) H5) as [H6 _].
  destruct (c_deadline c 1); [by apply tg_refuse_ok|].
  destruct (c_read c) as [initial readErr] eqn:Er.
  assert (Hr1 : initial = (c_read c).1) by (by rewrite Er). assert (Hr2 : readErr = (c_read c).2) by (by rewrite Er).
  destruct readErr; [apply fallback_ok; auto|].
  pose proof (tg_ready (c_now c 3) (c_env c 3 (set_reading f false (c_env c 2 (set_reading f true (c_env c 1 w1)))))) as K.
  destruct (IsReady (c_now c 3) _) as [ready w6]. simpl in K. destruct (tg_holds_keeps f _ _ K H6) as [H7 _].
  case_goal; [apply fallback_ok; auto|]. bsplit. by apply offload_ok.
Qed.

(** ** Examples *)

Definition ex_dc : dc_options := mkDcOptions 2 [list_of_str "149.154.167.51"] (list_of_str "149.154.167.99").
Definition ex_options : tg_options :=
  mkTgOptions "" "" "vpn" [ex_dc] "telegram" "2025-01-01T00:00:00Z" "2025-01-01T01:00:00Z" "prep".
Definition ex_now : time := mkTime (wall (default zero_time (parse_utc "2025-01-01T00:10:00Z"))) (Some 0).
Definition ex_end : time := mkTime (wall (default zero_time (parse_utc "2025-01-01T01:00:00Z"))) (Some (50 * Minute)).
Definition ex_store : preparations :=
  {[ "prep" := mkPrepared (ex_options <| o_NativePreparationID := "" |>) ex_end {[ "vpn" := "vless" ]} ]}.
Definition ex_world : world :=
  mkWorld (mkOutbound "vpn" None [(AV4 2509940531, 0%nat)] ∅ false ∅ "id"
    (default zero_time (parse_utc "2025-01-01T00:00:00Z")) (default zero_time (parse_utc "2025-01-01T01:00:00Z"))
    ex_end false false false ex_options) ∅ 0 false ∅.

Lemma tg_ex_world_new : NewOutbound "pokrov-telegram-ws-telegram" ex_options ex_now ex_store true None (Ok "id") = Ok ex_world.
Proof. vm_compute. reflexivity. Qed.

Definition ex_conn : conn_input :=
  mkConn true 443 (AV4 2509940531) (λ _ w, w) (λ _, false) (λ _, ex_now) (λ _, None) (list_of_str "abc", true) (Some 7%nat) false.

Definition ex_admitted : world := (AdmitAdmission "id" ex_now ex_world).2.
Definition ex_open : world := (admit_section ex_conn ex_admitted).2.
Definition ex_attached : world := (handoff_section ex_conn 0 ex_open).2.
Definition ex_written : world := (admitted_Write 0 false ex_now ex_attached).2.

Lemma ex_admitted_steps : rtc step ex_world ex_admitted.
Proof. apply rtc_once, step_admit. Qed.
Lemma ex_open_steps : rtc step ex_world ex_open.
Proof. eapply rtc_r; [apply ex_admitted_steps|apply step_open]. Qed.
Lemma ex_written_steps : rtc step ex_world ex_written.
Proof. eapply rtc_r; [eapply rtc_r; [apply ex_open_steps|apply (step_handoff _ ex_conn 0)]|apply (step_write _ 0 false ex_now)]. Qed.

Definition ex_denied : world := (WithdrawAdmission "id" ex_open).2.

Lemma ex_denied_steps : rtc step ex_world ex_denied.
Proof. eapply rtc_r; [apply ex_open_steps|apply step_withdraw_admission]. Qed.
Lemma ex_denied_latch : withdrawn (ob ex_denied) = true.
Proof. vm_compute. reflexivity. Qed.

Lemma tg_terminal_denial_witness : AdmitAdmission "id" ex_now ex_denied = (false, ex_denied).
Proof.
  exact (proj1 (proj2 (proj1 (tg_terminal_denial _ _ _ _ _ _ _ _ ex_denied ex_denied
    tg_ex_world_new ex_denied_steps (rtc_refl _ _)) ex_denied_latch)) "id" ex_now).
Defined.

Lemma ex_written_id : admissionID (ob ex_written) = "id" ∧ withdrawn (ob ex_written) = false.
Proof. vm_compute. split; reflexivity. Qed.
Lemma ex_written_table : bool_decide (0%nat ∈ flows (ob ex_written)) = true.
Proof. vm_compute. reflexivity. Qed.
Lemma ex_written_flow : heap ex_written !! 0%nat = Some (mkFlow (Some 7%nat) false true false false true false false).
Proof. vm_compute. reflexivity. Qed.

Lemma tg_single_transport_witness : transferVPN 0 ex_written = (false, ex_written).
Proof.
  exact (proj1 (tg_single_transport _ _ _ _ _ _ _ _ ex_written ex_written 0 _ tg_ex_world_new ex_written_steps
    (rtc_refl _ _) ex_written_flow) eq_refl).
Defined.

Lemma tg_withdraw_contains_witness :
  ∃ x', heap (WithdrawAdmission (admissionID (ob ex_written)) ex_written).2 !! 0%nat = Some x' ∧ fclosed x' = true.
Proof.
  pose proof (tg_withdraw_contains _ _ _ _ _ _ _ _ ex_written tg_ex_world_new ex_written_steps (proj2 ex_written_id)) as H.
  destruct (WithdrawAdmission (admissionID (ob ex_written)) ex_written) as [ok w']. cbn [snd].
  destruct H as (_ & _ & _ & H).
  exact (proj1 (proj2 (H 0%nat _ (bool_decide_eq_true_1 _ ex_written_table) ex_written_flow)) eq_refl eq_refl).
Defined.

Lemma tg_connection_gate_witness :
  (NewConnection ex_conn ex_admitted).1 = ToVPN (list_of_str "abc") ∧
  ∃ x, heap (NewConnection ex_conn ex_admitted).2 !! 0%nat = Some x ∧ vpnTransferred x = true.
Proof.
  assert (E : (NewConnection ex_conn ex_admitted).1 = ToVPN (list_of_str "abc")) by (vm_compute; reflexivity).
  split; [exact E|].
  pose proof (tg_connection_gate _ _ _ _ _ _ _ _ ex_conn ex_admitted tg_ex_world_new ex_admitted_steps
    (λ _ w, rtc_refl _ w)) as H.
  assert (Es : (admit_section ex_conn ex_admitted).1.1 = Some (0%nat, 0%nat)) by (vm_compute; reflexivity).
  assert (Ec : closed (ob ex_admitted) = false) by (vm_compute; reflexivity).
  rewrite Es in H. destruct (NewConnection ex_conn ex_admitted) as [res w']. cbn [fst snd] in *. subst res.
  destruct H as [_ H]. destruct (H Ec) as (_ & _ & _ & _ & _ & _ & _ & _ & _ & Hx). exact Hx.
Defined.
