(* ===== verification/CarrierPolicy.v ===== *)
(** * Admission policies of the protected exits

    Models [engine/sing-box/protocol/pokrov/slipstream/policy.go],
    [.../dnstt/policy.go] and [engine/sing-box/protocol/naive/policy.go]: which
    options of the DNS carriers, of the VLESS exit they carry and of the Naive
    exit are accepted as protected. *)

From stdpp Require Import base list strings.
From Stdlib Require Import ZArith Lia Ascii.
From S2P Require Import Prelude GoBytes GoNetip SaClientHello.

Local Open Scope Z_scope.

(** ** Resolver addresses *)

(** The position of the last [c], as what is before and after it. *)
Fixpoint cut_last (c : ascii) (b : bytes) : option (bytes * bytes) :=
  match b with
  | [] => None
  | x :: r =>
      match cut_last c r with
      | Some (p, q) => Some (x :: p, q)
      | None => if Ascii.eqb x c then Some ([], r) else None
      end
  end.

(** [strconv.ParseUint(s, 10, 16)] *)
Definition parse_uint16 (b : bytes) : option Z :=
  match b with
  | [] => None
  | _ => n ← decimal 0 b; if n <? 65536 then Some n else None
  end.

(** [netip.ParseAddrPort] *)
Definition ParseAddrPort (b : bytes) : option (addr * Z) :=
  match cut_last colon b with
  | None => None
  | Some (ip, port) =>
      match ip, port with
      | [], _ | _, [] => None
      | c :: r, _ =>
          p ← parse_uint16 port;
          if Ascii.eqb c "[" then
            match r with
            | [] => None
            | _ => match last r with
                   | Some e => if Ascii.eqb e "]" then
                                 a ← ParseAddr (removelast r); if Is4 a then None else Some (a, p)
                               else None
                   | None => None
                   end
            end
          else a ← ParseAddr ip; if Is6 a then None else Some (a, p)
      end
  end.

Definition IsUnspecified (a : addr) : bool :=
  match a with
  | AInvalid => false
  | AV4 v => v =? 0
  | AV6 v z => (v =? 0) && bool_decide (z = [])
  end.

(** The numeric UDP resolver both carriers require. *)
Definition resolver_ok (resolvers : list bytes) : option (addr * Z) :=
  match resolvers with
  | [r] => '(a, p) ← ParseAddrPort r;
           if (p =? 0) || IsUnspecified a || IsMulticast a then None else Some (a, p)
  | _ => None
  end.

(** [NetworkList.Build], and the test that only TCP is named. *)
Definition Build (network : string) : list bytes :=
  if bool_decide (network = "") then [list_of_str "tcp"; list_of_str "udp"]
  else split_at (byte_of 10) (list_of_str network).
Definition tcp_only (network : string) : bool :=
  forallb (λ n, bool_decide (n = list_of_str "tcp") || bool_decide (network = "")) (Build network).

(** ** Slipstream *)

Record SlipstreamOptions := mkSlip {
  s_detour : string;
  s_domain : bytes;
  s_resolvers : list bytes;
  s_certificate : bytes;
  s_network : string
}.

#[export] Instance eta_SlipstreamOptions : Eta SlipstreamOptions := λ o,
  mkSlip (s_detour o) (s_domain o) (s_resolvers o) (s_certificate o) (s_network o).

Definition label_char (c : ascii) : bool :=
  let n := byte_val c in (n =? 45) || ((97 <=? n) && (n <=? 122)) || ((48 <=? n) && (n <=? 57)).

Definition label_ok (l : bytes) : bool :=
  negb (blen l =? 0) && (blen l <=? 63) && negb (bool_decide (head l = Some (byte_of 45))) &&
  negb (bool_decide (last l = Some (byte_of 45))) && forallb label_char l.

Definition slip_domain (d : bytes) : option bytes :=
  let domain := trim_dot (to_lower d) in
  if (blen domain =? 0) || (240 <=? blen domain) then None
  else if forallb label_ok (split_dot domain) then Some domain else None.

Record tunnelConfig := mkTunnel { t_domain : bytes; t_resolver : addr * Z; t_certificate : bytes }.

(** [pem] is [pem.Decode] restricted to one block of type [CERTIFICATE] with
    nothing after it: the block's bytes and its canonical encoding; [x509] is
    whether [x509.ParseCertificate] accepts the bytes. *)
Definition slip_parseOptions (pem : bytes → option (bytes * bytes)) (x509 : bytes → bool) (o : SlipstreamOptions) : result string tunnelConfig :=
  if negb (length (s_resolvers o) =? 1)%nat || negb (bool_decide (s_detour o = ""))
  then Err "slipstream requires one UDP resolver without a detour"
  else match resolver_ok (s_resolvers o) with
       | None => Err "slipstream requires a numeric UDP resolver address and port"
       | Some resolver =>
           if negb (tcp_only (s_network o)) then Err "slipstream transport supports TCP streams only"
           else match slip_domain (s_domain o) with
                | None => Err "invalid slipstream domain"
                | Some domain =>
                    match pem (s_certificate o) with
                    | None => Err "slipstream requires one pinned server leaf certificate"
                    | Some (der, cert) =>
                        if x509 der then Ok (mkTunnel domain resolver cert)
                        else Err "invalid slipstream server certificate"
                    end
                end
       end.

(** ** DNSTT *)

Record DnsttOptions := mkDnstt {
  d_detour : string;
  d_publicKey : bytes;
  d_domain : bytes;
  d_resolvers : list bytes;
  d_tunnels : Z;
  d_udpOverTCP : option bool;
  d_network : string
}.

Record dnstt_config := mkDnsttConfig { dc_resolver : addr * Z; dc_key : bytes }.

(** [server] is [dnstt.NewTunnelServer], [key] is [noise.DecodeKey]. *)
Definition dnstt_parseOptions (server : bytes → bytes → bool) (key : bytes → option bytes) (o : DnsttOptions)
    : result string dnstt_config :=
  if negb (length (d_resolvers o) =? 1)%nat || (d_tunnels o <? 0) || (1 <? d_tunnels o)
  then Err "dnstt requires one resolver and one tunnel"
  else match resolver_ok (d_resolvers o) with
       | None => Err "dnstt requires a numeric UDP resolver address and port"
       | Some resolver =>
           if negb (bool_decide (d_detour o = "")) || bool_decide (d_udpOverTCP o = Some true)
           then Err "dnstt resolver detour and UDP-over-TCP are unsupported"
           else if negb (tcp_only (d_network o)) then Err "dnstt transport supports TCP streams only"
           else if bool_decide (d_domain o = []) then Err "dnstt domain is required"
           else if negb (server (d_domain o) (d_publicKey o)) then Err "invalid dnstt domain or server public key"
           else match key (d_publicKey o) with
                | None => Err "invalid dnstt server public key"
                | Some k => Ok (mkDnsttConfig resolver k)
                end
       end.

(** ** The carried VLESS exit *)

Record tls_options := mkTLS {
  t_Enabled : bool;
  t_ServerName : string;
  t_Insecure : bool;
  t_DisableSNI : bool;
  t_ALPN : list string;
  t_Fragment : bool;
  t_RecordFragment : option bool;
  t_UTLS : option bool;
  t_Reality : option bool;
  t_ECH : option bool
}.

Record VLESSOptions := mkVLESS {
  v_detour : string;
  v_server : string;
  v_port : Z;
  v_uuid : string;
  v_flow : string;
  v_network : string;
  v_tls : option tls_options;
  v_multiplex : option bool;
  v_transport : bool
}.

(** The fixed loopback backend, TCP only, with no security of its own. *)
Definition carried_vless (v : VLESSOptions) (tunnelNetwork : string) : bool :=
  negb (bool_decide (v_detour v = "")) && negb (bool_decide (v_uuid v = "")) &&
  bool_decide (v_server v = "127.0.0.1") && (v_port v =? 12543) && bool_decide (v_flow v = "") &&
  bool_decide (v_network v = "tcp") && bool_decide (tunnelNetwork = "tcp") &&
  negb (if v_tls v then true else false) && negb (v_transport v) && negb (bool_decide (v_multiplex v = Some true)).

Definition slip_ProtectedVLESSDetour (pem : bytes → option (bytes * bytes)) (x509 : bytes → bool) (v : VLESSOptions)
    (o : SlipstreamOptions) : bool :=
  carried_vless v (s_network o) && is_ok (slip_parseOptions pem x509 o).

Definition dnstt_ProtectedVLESSDetour (server : bytes → bytes → bool) (key : bytes → option bytes) (v : VLESSOptions)
    (o : DnsttOptions) : bool :=
  carried_vless v (d_network o) && is_ok (dnstt_parseOptions server key o).

(** ** Naive *)

Record NaiveOptions := mkNaive {
  n_server : string;
  n_port : Z;
  n_username : string;
  n_password : string;
  n_detour : string;
  n_quic : bool;
  n_udpOverTCP : option bool;
  n_tls : option tls_options
}.

Definition ProtectedH2 (o : NaiveOptions) : bool :=
  if bool_decide (n_server o = "") || (n_port o =? 0) || bool_decide (n_username o = "") ||
     bool_decide (n_password o = "") || negb (bool_decide (n_detour o = "")) || n_quic o ||
     bool_decide (n_udpOverTCP o = Some true)
  then false
  else match n_tls o with
       | None => false
       | Some t =>
           t_Enabled t && negb (bool_decide (t_ServerName t = "")) && negb (t_Insecure t) && negb (t_DisableSNI t) &&
           bool_decide (t_ALPN t = []) && negb (t_Fragment t) && negb (bool_decide (t_RecordFragment t = Some true)) &&
           negb (bool_decide (t_UTLS t = Some true)) && negb (bool_decide (t_Reality t = Some true)) &&
           negb (bool_decide (t_ECH t = Some true))
       end.

(** ** Accepted options are well formed *)

Lemma label_char_lower c : label_char c = true → lower_char c = c ∧ byte_val c < 128.
Proof.
  unfold label_char, lower_char. intros H. case_goal; split; try done; lia.
Qed.

Lemma to_lower_labels b : Forall (λ c, label_char c = true ∨ c = dot) b → to_lower b = b.
Proof.
  intros H. assert (Hs : Forall (λ c, lower_char c = c ∧ byte_val c < 128) b).
  { eapply Forall_impl; [exact H|]. intros c [Hc| ->]; [by apply label_char_lower|done]. }
  clear H. induction b as [|c1 r1 IH]; [done|]. inversion_clear Hs as [|? ? [L1 B1] Hr]. specialize (IH Hr).
  cbn [to_lower]. destruct r1 as [|c2 r2]; [by rewrite L1|].
  replace (byte_val c1 =? 0xc4) with false by lia. cbn [andb].
  destruct r2 as [|c3 r3]; [by rewrite L1, IH|]. replace (byte_val c1 =? 0xe2) with false by lia. cbn [andb].
  by rewrite L1, IH.
Qed.

Lemma labels_chars b : forallb label_ok (split_dot b) = true → Forall (λ c, label_char c = true ∨ c = dot) b.
Proof.
  intros H. assert (Hc : Forall (λ l, Forall (λ c, label_char c = true) l) (split_dot b)).
  { apply Forall_forall. intros l Hl. rewrite forallb_forall in H. apply list_elem_of_In, H in Hl.
    unfold label_ok in Hl. apply andb_true_iff in Hl as [_ Hl]. apply Forall_forall. intros c Hin.
    rewrite forallb_forall in Hl. by apply Hl, list_elem_of_In. }
  clear H. induction b as [|c r IH]; [constructor|]. simpl in Hc. destruct (Ascii.eqb c dot) eqn:E.
  - apply Ascii.eqb_eq in E. inversion_clear Hc. constructor; [by right|by apply IH].
  - destruct (split_at dot r) as [|l ls] eqn:Es; inversion_clear Hc as [|? ? Hl Hls].
    + inversion_clear Hl. constructor; [by left|]. apply IH. constructor.
    + inversion_clear Hl. constructor; [by left|]. apply IH. by constructor.
Qed.

Lemma slip_domain_fixed d n : slip_domain d = Some n →
  slip_domain n = Some n ∧ 0 < blen n < 240 ∧ Forall (λ l, label_ok l = true) (split_dot n).
Proof.
  unfold slip_domain. intros H. destruct (_ || _) eqn:E1; [done|]. destruct (forallb _ _) eqn:E2; [|done].
  injection H as <-. set (n := trim_dot (to_lower d)) in *.
  assert (Hn : trim_dot (to_lower n) = n).
  { rewrite to_lower_labels by (by apply labels_chars). apply trim_dot_fixed. apply Forall_forall. intros l Hl.
    rewrite forallb_forall in E2. apply list_elem_of_In, E2 in Hl. unfold label_ok in Hl. by intros ->. }
  rewrite Hn, E1, E2. apply orb_false_iff in E1 as [? ?]. pose proof (blen_nonneg n). split_and!; [done|lia|lia|].
  apply Forall_forall. intros l Hl. rewrite forallb_forall in E2. by apply E2, list_elem_of_In.
Qed.

Lemma decimal_nonneg acc b n : 0 ≤ acc → decimal acc b = Some n → 0 ≤ n.
Proof.
  revert acc. induction b as [|c r IH]; intros acc Ha; simpl; [by intros [= <-]|].
  intros (d & Hd & H)%bind_Some. eapply IH; [|exact H]. unfold digit_of in Hd. case_hyp Hd; simplify_eq. lia.
Qed.

Lemma ParseAddr_valid b a : ParseAddr b = Some a → IsValid a = true.
Proof.
  unfold ParseAddr, parse_ipv6. intros H. repeat case_hyp H; try done;
    repeat (apply bind_Some in H as (? & ? & H) || apply fmap_Some in H as (? & ? & ->) || case_hyp H); by simplify_eq.
Qed.

Lemma resolver_ok_spec rs a p : resolver_ok rs = Some (a, p) →
  1 ≤ p ≤ 65535 ∧ IsValid a = true ∧ IsUnspecified a = false ∧ IsMulticast a = false.
Proof.
  unfold resolver_ok. destruct rs as [|r [|]]; try done. intros ([a' p'] & Hp & H)%bind_Some.
  destruct (_ || _) eqn:E; [done|]. injection H as -> ->. bsplit. unfold ParseAddrPort in Hp.
  destruct (cut_last colon r) as [[ip port]|]; [|done]. destruct ip as [|c ip]; [done|]. destruct port as [|d port]; [done|].
  apply bind_Some in Hp as (n & Hn & Hp). unfold parse_uint16 in Hn. apply bind_Some in Hn as (m & Hm & Hn).
  case_hyp Hn; simplify_eq. apply decimal_nonneg in Hm; [|lia].
  assert (n = p ∧ IsValid a = true) as [-> ?].
  { repeat case_hyp Hp; try done; apply bind_Some in Hp as (a' & Ha & Hp); case_hyp Hp; simplify_eq;
      (split; [done|by eapply ParseAddr_valid]). }
  split_and!; [lia|lia|done..].
Qed.

Lemma slip_same_domain pem x509 o n :
  slip_domain n = slip_domain (s_domain o) →
  slip_parseOptions pem x509 (o <| s_domain := n |>) = slip_parseOptions pem x509 o.
Proof. intros H. unfold slip_parseOptions. cbn -[slip_domain resolver_ok tcp_only]. by rewrite H. Qed.


Definition ex_slip : SlipstreamOptions :=
  mkSlip "" (list_of_str "T.Example.") [list_of_str "9.9.9.9:53"] (list_of_str "pem") "tcp".

