(* ===== verification/SlipstreamProcess.v ===== *)
(** * Slipstream: the native helper process

    Models [engine/sing-box/protocol/pokrov/slipstream/outbound.go]: the outbound that
    keeps one helper process behind a gate, starts it with a relay and a
    certificate file, hands it the session's key over its standard input, dials its
    loopback listener and supervises its end.  The goroutines (the one that waits for the
    process, the one that watches the relay, the relay itself) and the holder of
    the gate are interleaved step by step; what the operating system, the helper
    and the resolver do is chosen by the steps. *)

From stdpp Require Import base list strings gmap.
From Stdlib Require Import ZArith Lia Ascii.
From S2P Require Import Prelude GoTime GoBytes GoNetip GoCrypto Slipstream CarrierPolicy.

Local Open Scope Z_scope.
Set Default Goal Selector "!".

(** ** The outbound's construction *)

Definition TCPConnectTimeout : Z := 5 * Second.

Record settings := mkSettings { config : tunnelConfig; executable : string; timeout : Z }.

(** [isAbs] is [filepath.IsAbs] of the platform, [dialerErr] the error of the
    transport dialer's construction. *)
Definition NewOutbound (isAbs : string → bool) (pem : bytes → option (bytes * bytes)) (x509 : bytes → bool)
    (o : SlipstreamOptions) (hostPath : string) (dialerErr : option string) (connectTimeout : Z) : result string settings :=
  let? config := slip_parseOptions pem x509 o in
  check negb (bool_decide (hostPath = "") || negb (isAbs hostPath))
    orelse "slipstream native client is not configured by the host" ;;
  match dialerErr with
  | Some e => Err e
  | None => Ok (mkSettings config hostPath (if connectTimeout <=? 0 then TCPConnectTimeout else connectTimeout))
  end.

(** ** A session *)

(** Where the goroutine that waits for the process is; [Done]: [s.done] is closed. *)
Inductive stage := Unstarted | Waiting | Reaped | RelayClosed | CertRemoved | Done.
#[export] Instance stage_eq : EqDecision stage.
Proof. solve_decision. Defined.

(** [certFile]: the temporary file's content, [None] when it does not exist or its
    removal was asked for; [stdin]: what was written to the process; [alive]: the
    process runs; [killed]: it was sent a kill. *)
Record tunnelSession := mkSession {
  s_auth : localAuth;
  relay : dnsRelay;
  certFile : option bytes;
  argv : list bytes;
  stdin : bytes;
  inputOpen : bool;
  outputOpen : bool;
  alive : bool;
  killed : bool;
  waiter : stage;
  address : option string;
  onceDone : bool
}.
#[export] Instance eta_tunnelSession : Eta tunnelSession := λ s,
  mkSession (s_auth s) (relay s) (certFile s) (argv s) (stdin s) (inputOpen s) (outputOpen s) (alive s) (killed s)
    (waiter s) (address s) (onceDone s).

(** [tunnelSession.closed] *)
Definition closed (s : tunnelSession) : bool := bool_decide (waiter s = Done).

(** The part of [tunnelSession.Close] before it waits for [done]. *)
Definition close_kill (s : tunnelSession) : tunnelSession :=
  if onceDone s then s else s <| onceDone := true |> <| killed := true |>.

(** One statement of the goroutine that waits for the process; [Wait] returns when
    the process has ended and closes our ends of its pipes. *)
Definition wait_step (s : tunnelSession) : tunnelSession :=
  match waiter s with
  | Waiting => if alive s then s else s <| waiter := Reaped |> <| inputOpen := false |> <| outputOpen := false |>
  | Reaped => s <| relay ::= stop |> <| waiter := RelayClosed |>
  | RelayClosed => s <| certFile := None |> <| waiter := CertRemoved |>
  | CertRemoved => s <| waiter := Done |>
  | Unstarted | Done => s
  end.

(** The goroutine that watches the relay. *)
Definition watch_step (s : tunnelSession) : tunnelSession :=
  if stopped (relay s) && negb (closed s) && negb (bool_decide (waiter s = Unstarted)) then s <| killed := true |> else s.

(** The calls deferred by [start], on a return before the process was started. *)
Definition unwind (s : tunnelSession) : tunnelSession :=
  s <| outputOpen := false |> <| inputOpen := false |> <| certFile := None |> <| relay ::= stop |>.
(** And after it was. *)
Definition leave_start (s : tunnelSession) : tunnelSession := s <| outputOpen := false |> <| inputOpen := false |>.

(** ** The outbound *)

(** What follows [s.Close()] in its caller: [DialContext] replaces a session that
    has ended; [start] fails; [DialContext], [Close] or [InterfaceUpdated] drop it. *)
Inductive next := ThenStart | ThenFail | ThenDrop.
(** Where the holder of the gate is. *)
Inductive holder := Free | Starting | Booting (k : nat) | Reading (k : nat) | Dialing (created : bool) | Closing (k : nat) (n : next).

(** A connection handed to a caller: its session, where it was dialled, and the
    exchange that authenticated the other end. *)
Record grant := mkGrant { g_session : nat; g_address : string; g_nonce : bytes; g_reply : bytes }.

(** [openConns]: the loopback connections opened and not closed by the outbound. *)
Record outbound := mkOutbound {
  sessions : gmap nat tunnelSession;
  current : option nat;
  ctxDone : bool;
  gate : holder;
  granted : list grant;
  openConns : nat
}.
#[export] Instance eta_outbound : Eta outbound := λ t,
  mkOutbound (sessions t) (current t) (ctxDone t) (gate t) (granted t) (openConns t).

Definition on_session (k : nat) (f : tunnelSession → tunnelSession) (t : outbound) : outbound := t <| sessions ::= alter f k |>.
Definition session_done (k : nat) (t : outbound) : bool := default false (closed <$> sessions t !! k).

Definition begin_close (k : nat) (n : next) (t : outbound) : outbound := on_session k close_kill t <| gate := Closing k n |>.

(** [s.Close()] has returned. *)
Definition close_return (k : nat) (n : next) (t : outbound) : outbound :=
  match n with
  | ThenStart => t <| current := None |> <| gate := Starting |>
  | ThenFail => on_session k leave_start t <| gate := Free |>
  | ThenDrop => t <| current := None |> <| gate := Free |>
  end.

(** [DialContext] from the gate to the start or the dial; [tcp]: the network is TCP. *)
Definition dial_enter (tcp : bool) (t : outbound) : outbound :=
  if negb tcp || ctxDone t then t
  else match current t with
       | Some c => if session_done c t then begin_close c ThenStart t else t <| gate := Dialing false |>
       | None => t <| gate := Starting |>
       end.

(** [Close] after [h.cancel()], and [InterfaceUpdated]. *)
Definition drop_session (t : outbound) : outbound :=
  match current t with Some c => begin_close c ThenDrop t | None => t end.

Section Outbound.
(** The configuration, the name the file manager gives to the certificate file of a
    session and the address of its relay's local socket. *)
Context (cfg : tunnelConfig) (certPath relayAddr : nat → bytes).

Definition command_line (k : nat) : list bytes :=
  [list_of_str "--pokrov-local-io"; list_of_str "--resolver"; relayAddr k; list_of_str "--domain"; t_domain cfg; list_of_str "--cert"; certPath k].

(** How far [start] gets before the process runs. *)
Inductive setup := NoAuth | NoSocket | NoListen | NoTemp | NoWrite (partial : bytes) | NoStdin | NoStdout | NoStart | Started.

(** [start] up to [command.Start]; [a] is the fresh key and generation, [k] a fresh
    name for the session.  A failure of [newDNSRelay] closes the socket itself. *)
Definition start_open (k : nat) (a : localAuth) (r : setup) (t : outbound) : outbound :=
  let fail s := t <| sessions ::= <[k := unwind s]> |> <| gate := Free |> in
  let relay_s := mkSession a (newDNSRelay a) None [] [] false false false false Unstarted None false in
  let cert_s := relay_s <| certFile := Some (t_certificate cfg) |> in
  let command_s := cert_s <| argv := command_line k |> in
  let input_s := command_s <| inputOpen := true |> in
  let output_s := input_s <| outputOpen := true |> in
  match r with
  | NoAuth | NoSocket | NoListen => t <| gate := Free |>
  | NoTemp => fail relay_s
  | NoWrite partial => fail (relay_s <| certFile := Some partial |>)
  | NoStdin => fail command_s
  | NoStdout => fail input_s
  | NoStart => fail output_s
  | Started => t <| sessions ::= <[k := output_s <| alive := true |> <| waiter := Waiting |>]> |> <| gate := Booting k |>
  end.

(** The bootstrap: [n] bytes are taken by the pipe, with or without an error. *)
Definition boot (k n : nat) (err : bool) (t : outbound) : outbound :=
  match sessions t !! k with
  | None => t
  | Some s =>
      let t := on_session k (λ s, s <| stdin := take n (bootstrap (s_auth s)) |>) t in
      if err || negb (bool_decide (length (bootstrap (s_auth s)) ≤ n)%nat) then begin_close k ThenFail t
      else on_session k (λ s, s <| inputOpen := false |>) t <| gate := Reading k |>
  end.

(** The selection of [start] takes what was read from the process. *)
Definition select_read (k : nat) (ready : option bytes) (t : outbound) : outbound :=
  match sessions t !! k, ready with
  | Some s, Some m =>
      match parseReady (s_auth s) m with
      | Ret (a, peer) =>
          on_session k (λ s, leave_start (s <| address := Some a |> <| relay ::= setPeer peer |>)) t
            <| current := Some k |> <| gate := Dialing true |>
      | _ => begin_close k ThenFail t
      end
  | _, _ => begin_close k ThenFail t
  end.

(** It takes [s.done]. *)
Definition select_done (k : nat) (t : outbound) : outbound := on_session k leave_start t <| gate := Free |>.

(** How a dial of the loopback listener ends; [ioErr]: a write or the random source fails. *)
Inductive tcp := Refused | Accepted (nonce : bytes) (reply : option bytes) (ioErr : bool).

(** [tunnelSession.dial]: whether a connection is returned. *)
Definition session_dial (c : nat) (s : tunnelSession) (o : tcp) (t : outbound) : bool * outbound :=
  if closed s then (false, t)
  else match o with
       | Refused => (false, t)
       | Accepted nonce reply ioErr =>
           let t := t <| openConns ::= S |> in
           match (authenticate (s_auth s) nonce reply).2, reply with
           | Ok _, Some r =>
               if ioErr then (false, t <| openConns ::= Nat.pred |>)
               else (true, t <| granted ::= (λ l, l ++ [mkGrant c (default "" (address s)) nonce r]) |>)
           | _, _ => (false, t <| openConns ::= Nat.pred |>)
           end
       end.

(** The rest of [DialContext]. *)
Definition dial_end (created : bool) (o : tcp) (t : outbound) : outbound :=
  match current t with
  | None => t
  | Some c =>
      match sessions t !! c with
      | None => t
      | Some s =>
          let '(ok, t) := session_dial c s o t in
          if negb ok && created then begin_close c ThenDrop t else t <| gate := Free |>
      end
  end.

(** What the relay's own goroutines do: everything but learning the peer. *)
Definition relay_own (e : event) : bool := match e with EvPeer _ => false | _ => true end.

Inductive hstep : outbound → outbound → Prop :=
| h_enter t tcp : gate t = Free → hstep t (dial_enter tcp t)
| h_start t k a r : gate t = Starting → sessions t !! k = None → hstep t (start_open k a r t)
| h_boot t k n err : gate t = Booting k → hstep t (boot k n err t)
| h_read t k ready : gate t = Reading k → hstep t (select_read k ready t)
| h_timeout t k : gate t = Reading k → hstep t (begin_close k ThenFail t)
| h_stopped t k : gate t = Reading k → session_done k t = true → hstep t (select_done k t)
| h_dial t created o : gate t = Dialing created → hstep t (dial_end created o t)
| h_return t k n : gate t = Closing k n → session_done k t = true → hstep t (close_return k n t)
| h_drop t : gate t = Free → hstep t (drop_session t)
| h_cancel t : hstep t (t <| ctxDone := true |>)
| h_ctxkill t k : ctxDone t = true → hstep t (on_session k (λ s, s <| killed := true |>) t)
| h_exit t k : hstep t (on_session k (λ s, s <| alive := false |>) t)
| h_wait t k : hstep t (on_session k wait_step t)
| h_watch t k : hstep t (on_session k watch_step t)
| h_relay t k e : relay_own e = true → hstep t (on_session k (λ s, s <| relay ::= λ r, relay_step r e |>) t).

Definition initial : outbound := mkOutbound ∅ None false Free [] 0.

(** ** Sessions on their own *)

Definition pipes_closed (s : tunnelSession) : Prop := inputOpen s = false ∧ outputOpen s = false.

(** Nothing of the session is left: no process, no relay, no file, no pipe. *)
Definition released (s : tunnelSession) : Prop :=
  alive s = false ∧ stopped (relay s) = true ∧ certFile s = None ∧ pipes_closed s.

Definition stage_ok (k : nat) (s : tunnelSession) : Prop :=
  match waiter s with
  | Waiting => certFile s = Some (t_certificate cfg) ∧ argv s = command_line k
  | Reaped => alive s = false ∧ pipes_closed s
  | RelayClosed => alive s = false ∧ pipes_closed s ∧ stopped (relay s) = true
  | Unstarted | CertRemoved | Done => released s
  end.

(** The relay's peer and the listener's address come from one ready message of this
    session, and are unknown before. *)
Definition peer_ok (s : tunnelSession) : Prop :=
  match address s with
  | None => peer (relay s) = None
  | Some a => ∃ m p, parseReady (s_auth s) m = Ret (a, p) ∧ peer (relay s) = Some p
  end.

Record sess_ok (k : nat) (s : tunnelSession) : Prop := mkSessOk {
  so_stage : stage_ok k s;
  so_auth : auth (relay s) = s_auth s;
  so_peer : peer_ok s;
  so_stdin : stdin s `prefix_of` bootstrap (s_auth s);
  so_once : onceDone s = true → killed s = true
}.

(** What every step on a session preserves. *)
Record keeps (k : nat) (s s' : tunnelSession) : Prop := mkKeeps {
  ke_ok : sess_ok k s → sess_ok k s';
  ke_unstarted : waiter s = Unstarted ↔ waiter s' = Unstarted;
  ke_done : waiter s = Done → waiter s' = Done;
  ke_address : ∀ a, address s = Some a → address s' = Some a;
  ke_auth : s_auth s' = s_auth s;
  ke_once : onceDone s = true → onceDone s' = true
}.

Lemma keeps_then k s1 s2 s3 : keeps k s1 s2 → keeps k s2 s3 → keeps k s1 s3.
Proof. intros [A1 A2 A3 A4 A5 A6] [B1 B2 B3 B4 B5 B6]. split; [auto|tauto|auto|auto|congruence|auto]. Qed.

Ltac same_session := split; [intros [? ? ? ? ?]; split; cbn; try done|done|done|done|done|done].

Lemma keeps_killed k s : keeps k s (s <| killed := true |>).
Proof. by same_session. Qed.

Lemma keeps_close k s : keeps k s (close_kill s).
Proof. unfold close_kill. case_goal; by same_session. Qed.

Lemma keeps_watch k s : keeps k s (watch_step s).
Proof. unfold watch_step. case_goal; [apply keeps_killed|by same_session]. Qed.

Lemma keeps_exit k s : keeps k s (s <| alive := false |>).
Proof. same_session. unfold stage_ok, released in *. cbn. destruct (waiter s); tauto. Qed.

Lemma keeps_leave k s : keeps k s (leave_start s).
Proof. same_session. unfold stage_ok, released, pipes_closed in *. cbn. destruct (waiter s); tauto. Qed.

Lemma keeps_input k s : keeps k s (s <| inputOpen := false |>).
Proof. same_session. unfold stage_ok, released, pipes_closed in *. cbn. destruct (waiter s); tauto. Qed.

Lemma keeps_stdin k s n : keeps k s (s <| stdin := take n (bootstrap (s_auth s)) |>).
Proof. same_session. apply prefix_take. Qed.

Lemma keeps_wait k s : keeps k s (wait_step s).
Proof.
  unfold wait_step. destruct (waiter s) eqn:Ew; [by same_session| |..].
  1: destruct (alive s) eqn:Ea; [by same_session|].
  5: by same_session.
  all: split; [intros [H ? Hp ? ?]; split; cbn; try done|cbn; rewrite Ew; done|cbn; congruence|done|done|done].
  all: try (unfold stage_ok in *; rewrite Ew in H; cbn; unfold released, pipes_closed in *; cbn; tauto).
Qed.

Lemma relay_step_own r e : relay_own e = true →
  auth (relay_step r e) = auth r ∧ peer (relay_step r e) = peer r ∧ (stopped r = true → stopped (relay_step r e) = true).
Proof.
  destruct e; cbn; [done|..]; intros _; [| |done]; unfold forwardQuery, forwardReply; repeat (case_goal; cbn; try done).
Qed.

Lemma keeps_relay k s e : relay_own e = true → keeps k s (s <| relay ::= λ r, relay_step r e |>).
Proof.
  intros He. destruct (relay_step_own (relay s) e He) as (Ha & Hp & Hs).
  split; [intros [H ? Hq ? ?]; split; cbn; try done|done|done|done|done|done].
  - unfold stage_ok, released, pipes_closed in *. cbn. destruct (waiter s); tauto.
  - congruence.
  - unfold peer_ok in *. cbn. destruct (address s); by rewrite Hp.
Qed.

Lemma keeps_ready k s m a p : address s = None → parseReady (s_auth s) m = Ret (a, p) →
  keeps k s (s <| address := Some a |> <| relay ::= setPeer p |>).
Proof.
  intros Hn Hm. split; [intros [H ? Hq ? ?]; split; cbn; try done|done|done|cbn; congruence|done|done].
  unfold peer_ok. cbn. eauto.
Qed.

Lemma sess_done k s : sess_ok k s → waiter s = Unstarted ∨ waiter s = Done → released s.
Proof. intros [H _ _ _ _] Hw. unfold stage_ok in H. by destruct Hw as [E|E]; rewrite E in H. Qed.

(** ** The outbound's invariant *)

Definition holder_session (g : holder) : option nat :=
  match g with Booting k | Reading k | Closing k _ => Some k | _ => None end.
Definition owned (t : outbound) (k : nat) : Prop := current t = Some k ∨ holder_session (gate t) = Some k.

(** The connection of a grant was authenticated by the helper of its session. *)
Definition grant_ok (m : gmap nat tunnelSession) (g : grant) : Prop :=
  ∃ s, m !! g_session g = Some s ∧ address s = Some (g_address g) ∧
    (authenticate (s_auth s) (g_nonce g) (Some (g_reply g))).2 = Ok tt.

Record base (m : gmap nat tunnelSession) (own : nat → Prop) (gr : list grant) (n : nat) : Prop := mkBase {
  b_sess : ∀ k s, m !! k = Some s → sess_ok k s;
  b_free : ∀ k s, m !! k = Some s → own k ∨ waiter s = Unstarted ∨ waiter s = Done;
  b_own : ∀ k, own k → ∃ s, m !! k = Some s ∧ waiter s ≠ Unstarted;
  b_grants : ∀ g, g ∈ gr → grant_ok m g;
  b_conns : n = length gr
}.

Lemma base_alter m own gr n k f : (∀ s, m !! k = Some s → keeps k s (f s)) → base m own gr n → base (alter f k m) own gr n.
Proof.
  intros Hk [H1 H2 H3 H4 H5]. split; try done.
  - intros j s. case_key k j; rewrite ?lookup_alter_eq, ?lookup_alter_ne by done; [|apply H1].
    destruct (m !! k) as [s0|] eqn:E; [|done]. intros [= <-]. by apply (Hk s0), H1.
  - intros j s. case_key k j; rewrite ?lookup_alter_eq, ?lookup_alter_ne by done; [|apply H2].
    destruct (m !! k) as [s0|] eqn:E; [|done]. intros [= <-]. destruct (Hk s0 eq_refl) as [_ U D _ _ _].
    destruct (H2 k s0 E) as [?|[?|?]]; [by left|right; left; tauto|right; right; auto].
  - intros j Hj. destruct (H3 j Hj) as (s & Hs & Hw). case_key k j; rewrite ?lookup_alter_eq, ?lookup_alter_ne by done; [|eauto].
    rewrite Hs. eexists. split; [done|]. rewrite <- (ke_unstarted _ _ _ (Hk s Hs)). done.
  - intros g Hg. destruct (H4 g Hg) as (s & Hs & Ha & Hm). unfold grant_ok.
    destruct (decide (k = g_session g)) as [->|]; rewrite ?lookup_alter_eq, ?lookup_alter_ne by done; [|eauto].
    rewrite Hs. eexists. split; [done|]. destruct (Hk s Hs) as [_ _ _ A E _]. rewrite E. auto.
Qed.

Lemma base_owner m (own own' : nat → Prop) gr n : (∀ k, own' k → own k) →
  (∀ k s, own k → m !! k = Some s → own' k ∨ waiter s = Done) → base m own gr n → base m own' gr n.
Proof.
  intros Hsub Hlost [H1 H2 H3 H4 H5]. split; try done; [|by auto]. intros k s Hs.
  destruct (H2 k s Hs) as [Ho|?]; [|by right]. destruct (Hlost k s Ho Hs); auto.
Qed.

Lemma base_same m (own own' : nat → Prop) gr n : (∀ k, own' k ↔ own k) → base m own gr n → base m own' gr n.
Proof. intros H. apply base_owner; [apply H|]. intros k s Ho _. left. by apply H. Qed.

Lemma base_insert m (own own' : nat → Prop) gr n k s : m !! k = None → sess_ok k s → base m own gr n →
  (∀ j, own' j ↔ own j ∨ j = k ∧ waiter s ≠ Unstarted) → base (<[k := s]> m) own' gr n.
Proof.
  intros Hm Hs [H1 H2 H3 H4 H5] Ho. split; try done.
  - intros j s'. case_key k j; [by intros [= <-]|apply H1].
  - intros j s'. rewrite Ho. case_key k j; [intros [= <-]|intros E; destruct (H2 j s' E); auto].
    destruct (decide (waiter s = Unstarted)); auto.
  - intros j [Hj|[-> Hw]]%Ho; [|rewrite lookup_insert_eq; eauto].
    destruct (H3 j Hj) as (s' & E & ?). exists s'. rewrite lookup_insert_ne by congruence. done.
  - intros g Hg. destruct (H4 g Hg) as (s' & E & ?). exists s'. rewrite lookup_insert_ne by congruence. done.
Qed.

Definition onb (m : gmap nat tunnelSession) (k : nat) (P : tunnelSession → Prop) : Prop := ∀ s, m !! k = Some s → P s.

Definition shape (m : gmap nat tunnelSession) (c : option nat) (g : holder) : Prop :=
  (∀ k, c = Some k → onb m k (λ s, address s ≠ None)) ∧
  match g with
  | Free => True
  | Starting => c = None
  | Booting k | Reading k => c = None ∧ onb m k (λ s, address s = None)
  | Dialing _ => c ≠ None
  | Closing k n => onb m k (λ s, onceDone s = true) ∧ c = match n with ThenFail => None | _ => Some k end
  end.

Definition inv (t : outbound) : Prop :=
  base (sessions t) (owned t) (granted t) (openConns t) ∧ shape (sessions t) (current t) (gate t).

Lemma onb_alter m k j f (P Q : tunnelSession → Prop) : (∀ s, m !! j = Some s → P s → Q s) →
  (∀ s, m !! k = Some s → P s → Q (f s)) → onb m j P → onb (alter f k m) j Q.
Proof.
  intros H1 H2 H s. case_key k j; rewrite ?lookup_alter_eq, ?lookup_alter_ne by done; [|eauto].
  destruct (m !! k) eqn:E; [|done]. intros [= <-]. eauto.
Qed.

(** A step of a goroutine leaves the holder where it is. *)
Lemma inv_session k f t : (∀ s, sessions t !! k = Some s → keeps k s (f s)) → (∀ s, address (f s) = address s) →
  inv t → inv (on_session k f t).
Proof.
  intros Hk Ha [Hb [Hc Hg]]. split; [by apply base_alter|]. split.
  - intros j Hj. eapply onb_alter; [| |by apply Hc]; cbn; intros; [done|by rewrite Ha].
  - cbn. destruct (gate t); try done; destruct Hg as [Hg1 Hg2]; (split; [|by auto]) || (split; [by auto|]);
      (eapply onb_alter; [| |eassumption]); cbn; intros ?? Hx; rewrite ?Ha; try done.
    by eapply ke_once; [apply Hk|].
Qed.

Lemma close_address s : address (close_kill s) = address s.
Proof. unfold close_kill. by case_goal. Qed.
Lemma close_once s : onceDone (close_kill s) = true.
Proof. unfold close_kill. by case_goal. Qed.

(** Addresses of the current session survive a change of another field. *)
Lemma shape_current m c k f : (∀ s, m !! k = Some s → keeps k s (f s)) →
  (∀ j, c = Some j → onb m j (λ s, address s ≠ None)) → ∀ j, c = Some j → onb (alter f k m) j (λ s, address s ≠ None).
Proof.
  intros Hk Hc j Hj. eapply onb_alter; [| |by apply Hc]; cbn; [done|]. intros s Hs Ha.
  destruct (address s) as [a|] eqn:E; [|done]. by rewrite (ke_address _ _ _ (Hk s Hs) a E).
Qed.

Lemma inv_begin_close k n t : inv t → current t = match n with ThenFail => None | _ => Some k end →
  (∀ j, current t = Some j ∨ Some k = Some j ↔ owned t j) → inv (begin_close k n t).
Proof.
  intros [Hb [Hc Hg]] He Ho. split; cbn.
  - apply base_alter; [intros; apply keeps_close|]. eapply base_same; [|exact Hb]. intros j. apply Ho.
  - split; [apply shape_current; [intros; apply keeps_close|done]|]. split; [|done].
    intros s. rewrite lookup_alter_eq. destruct (sessions t !! k); [|done]. intros [= <-]. apply close_once.
Qed.

(** Failing while the process is being brought up. *)
Lemma inv_fail k t : inv t → gate t = Booting k ∨ gate t = Reading k → inv (begin_close k ThenFail t).
Proof.
  intros Hi Hg. assert (current t = None) as Hc by (destruct Hi as [_ [_ Hs]]; destruct Hg as [E|E]; rewrite E in Hs; by destruct Hs).
  apply inv_begin_close; [done|done|]. intros j. unfold owned. rewrite Hc. by destruct Hg as [-> | ->].
Qed.

(** Dropping the current session. *)
Lemma inv_drop_current c n t : inv t → current t = Some c → holder_session (gate t) = None → n ≠ ThenFail → inv (begin_close c n t).
Proof.
  intros Hi Hc Hg Hn. apply inv_begin_close; [done|by destruct n|]. intros j. unfold owned. rewrite Hg, Hc.
  split; [tauto|]. intros [?|?]; [tauto|done].
Qed.

Lemma session_done_inv k t : session_done k t = true → onb (sessions t) k (λ s, waiter s = Done).
Proof.
  unfold session_done, onb. intros H s Hs. rewrite Hs in H. cbn in H. unfold closed in H. by apply bool_decide_eq_true in H.
Qed.

(** The holder lets go of a session that has ended. *)
Lemma inv_let_go k g t : inv t → current t = None ∨ current t = Some k → holder_session (gate t) = Some k →
  holder_session g = None → (g = Free ∨ g = Starting) → onb (sessions t) k (λ s, waiter s = Done) →
  inv (t <| current := None |> <| gate := g |>).
Proof.
  intros [Hb _] Hc Hh Hg Hg' Hd. split; cbn; [|split; [done|by destruct Hg' as [-> | ->]]]. eapply base_owner; [| |exact Hb].
  - intros j [?|?]; cbn in *; congruence.
  - intros j s Ho Hs. right. apply Hd. destruct Ho as [Ho|Ho]; [|congruence]. destruct Hc; congruence.
Qed.

Lemma inv_return k n t : inv t → gate t = Closing k n → session_done k t = true → inv (close_return k n t).
Proof.
  intros Hi Hg Hd%session_done_inv. pose proof Hi as [_ [_ Hs]]. rewrite Hg in Hs. destruct Hs as [_ Hc].
  destruct n; cbn [close_return].
  - apply (inv_let_go k); auto. by rewrite Hg.
  - replace (on_session k leave_start t <| gate := Free |>) with (on_session k leave_start (t <| current := None |> <| gate := Free |>))
      by (destruct t; cbn in *; by subst).
    apply inv_session; [intros; apply keeps_leave|done|]. apply (inv_let_go k); auto. by rewrite Hg.
  - apply (inv_let_go k); auto. by rewrite Hg.
Qed.

Lemma inv_select_done k t : inv t → gate t = Reading k → session_done k t = true → inv (select_done k t).
Proof.
  intros Hi Hg Hd%session_done_inv. pose proof Hi as [_ [_ Hs]]. rewrite Hg in Hs. destruct Hs as [Hc _].
  replace (select_done k t) with (on_session k leave_start (t <| current := None |> <| gate := Free |>))
    by (destruct t; cbn in *; by subst).
  apply inv_session; [intros; apply keeps_leave|done|]. apply (inv_let_go k); auto. by rewrite Hg.
Qed.

Lemma unwind_ok k a c v : sess_ok k (unwind (mkSession a (newDNSRelay a) c v [] true true false false Unstarted None false)).
Proof. split; cbn; try done. apply prefix_nil. Qed.

Lemma inv_start_open k a r t : inv t → gate t = Starting → sessions t !! k = None → inv (start_open k a r t).
Proof.
  intros [Hb Hs] Hg Hk. assert (current t = None) as Hc by (destruct Hs as [_ Hs]; by rewrite Hg in Hs).
  assert (Hfail : ∀ c v i o, inv (t <| sessions ::= <[k := unwind (mkSession a (newDNSRelay a) c v [] i o false false Unstarted None false)]> |>
                                <| gate := Free |>)).
  { intros c v i o. split; cbn; [|split; [by rewrite Hc|done]]. eapply base_insert; [done|apply (unwind_ok k a c v)|exact Hb|].
    intros j. unfold owned. cbn. rewrite Hg. cbn. tauto. }
  assert (Hquit : inv (t <| gate := Free |>)).
  { split; cbn; [|split; [by rewrite Hc|done]]. eapply base_same; [|exact Hb]. intros j. unfold owned. by rewrite Hg. }
  destruct r; cbn [start_open]; [exact Hquit..|apply Hfail|apply Hfail|apply Hfail|apply Hfail|apply Hfail|].
  split; cbn.
  - eapply base_insert; [done| |exact Hb|].
    + split; cbn; try done. apply prefix_nil.
    + intros j. unfold owned. cbn. rewrite Hg, Hc. cbn. split; [intros [?|[= ->]]; [done|by right]|intros [[?|?]|[-> _]]; [done|done|by right]].
  - split; [by rewrite Hc|]. split; [done|]. intros s. rewrite lookup_insert_eq. by intros [= <-].
Qed.

Lemma inv_boot k n err t : inv t → gate t = Booting k → inv (boot k n err t).
Proof.
  intros Hi Hg. unfold boot. destruct (sessions t !! k) as [s|] eqn:Es; [|done].
  set (t1 := on_session k (λ s, s <| stdin := take n (bootstrap (s_auth s)) |>) t).
  assert (H1 : inv t1) by (apply inv_session; [intros; apply keeps_stdin|done|done]).
  destruct (err || _); [apply inv_fail; [done|by left]|].
  assert (H2 : inv (on_session k (λ s, s <| inputOpen := false |>) t1)) by (apply inv_session; [intros; apply keeps_input|done|done]).
  destruct H2 as [Hb [Hc Hs]]. split; cbn in *.
  - eapply base_same; [|exact Hb]. intros j. unfold owned. cbn. by rewrite Hg.
  - rewrite Hg in Hs. by split.
Qed.

Lemma inv_select_read k ready t : inv t → gate t = Reading k → inv (select_read k ready t).
Proof.
  intros Hi Hg. assert (Hf : inv (begin_close k ThenFail t)) by (apply inv_fail; auto). unfold select_read.
  destruct (sessions t !! k) as [s|] eqn:Es; [|done]. destruct ready as [m|]; [|done].
  destruct (parseReady (s_auth s) m) as [[a p]| |] eqn:Em; try done.
  destruct Hi as [Hb [Hc Hs]]. rewrite Hg in Hs. destruct Hs as [Hn Ha].
  set (f := λ s, leave_start (s <| address := Some a |> <| relay ::= setPeer p |>)).
  assert (Hk : ∀ s', sessions t !! k = Some s' → keeps k s' (f s')).
  { intros s'. rewrite Es. intros [= <-]. eapply keeps_then; [by eapply keeps_ready; [apply Ha|]|apply keeps_leave]. }
  split; cbn.
  - apply base_alter; [exact Hk|]. eapply base_same; [|exact Hb]. intros j. unfold owned. cbn. rewrite Hg, Hn. cbn.
    split; [intros [?|?]; [by right|done]|intros [?|?]; [done|by left]].
  - split; [|done]. intros j [= <-] s'. rewrite lookup_alter_eq, Es. by intros [= <-].
Qed.

Lemma inv_enter tcp t : inv t → gate t = Free → inv (dial_enter tcp t).
Proof.
  intros Hi Hg. unfold dial_enter. destruct (_ || _); [done|]. destruct (current t) as [c|] eqn:Ec.
  - destruct (session_done c t); [apply inv_drop_current; [done|done|by rewrite Hg|done]|].
    destruct Hi as [Hb [Hc Hs]]. split; cbn; [|split; [done|by rewrite Ec]].
    eapply base_same; [|exact Hb]. intros j. unfold owned. by rewrite Hg.
  - destruct Hi as [Hb [Hc Hs]]. split; cbn; [|split; [by rewrite Ec|done]].
    eapply base_same; [|exact Hb]. intros j. unfold owned. by rewrite Hg.
Qed.

Lemma inv_drop_session t : inv t → gate t = Free → inv (drop_session t).
Proof. intros Hi Hg. unfold drop_session. destruct (current t) eqn:Ec; [|done]. apply inv_drop_current; [done|done|by rewrite Hg|done]. Qed.

Lemma authenticate_unit a nonce reply (u : unit) : (authenticate a nonce reply).2 = Ok u → (authenticate a nonce reply).2 = Ok tt.
Proof. by destruct u. Qed.

Lemma session_dial_spec c s o t ok t' : session_dial c s o t = (ok, t') →
  sessions t' = sessions t ∧ current t' = current t ∧ gate t' = gate t ∧ ctxDone t' = ctxDone t ∧
  (granted t' = granted t ∧ openConns t' = openConns t ∨
   ∃ nonce r, ok = true ∧ granted t' = granted t ++ [mkGrant c (default "" (address s)) nonce r] ∧ openConns t' = S (openConns t) ∧
     (authenticate (s_auth s) nonce (Some r)).2 = Ok tt).
Proof.
  unfold session_dial. destruct (closed s); [intros [= <- <-]; by split_and!; auto|].
  destruct o as [|nonce reply ioErr]; [intros [= <- <-]; by split_and!; auto|].
  destruct (authenticate (s_auth s) nonce reply).2 as [u|e] eqn:Ea; destruct reply as [r|]; try (intros [= <- <-]; by split_and!; auto).
  destruct ioErr; intros [= <- <-]; cbn; split_and!; auto. right. exists nonce, r. apply authenticate_unit in Ea. by split_and!.
Qed.

Lemma inv_dial_end created o t : inv t → gate t = Dialing created → inv (dial_end created o t).
Proof.
  intros Hi Hg. unfold dial_end. destruct (current t) as [c|] eqn:Ec; [|done]. destruct (sessions t !! c) as [s|] eqn:Es; [|done].
  destruct (session_dial c s o t) as [ok t'] eqn:Ed. apply session_dial_spec in Ed as (E1 & E2 & E3 & _ & E5).
  assert (Hi' : inv t').
  { destruct Hi as [[B1 B2 B3 B4 B5] Hs]. split; [|by rewrite E1, E2, E3].
    assert (Hw : ∀ j, owned t' j ↔ owned t j) by (intros j; unfold owned; by rewrite E2, E3).
    apply (base_same _ (owned t)); [done|]. rewrite E1. split; try done.
    - destruct E5 as [[-> _]|(nonce & r & _ & -> & _ & Ha)]; [done|]. intros g [?|Hg']%elem_of_app; [by apply B4|].
      apply list_elem_of_singleton in Hg' as ->. exists s. split_and!; [done| |done]. cbn.
      destruct Hs as [Hc _]. specialize (Hc c Ec s Es). cbn in Hc. by destruct (address s).
    - destruct E5 as [[-> ->]|(nonce & r & _ & -> & -> & _)]; [done|]. rewrite length_app. cbn. lia. }
  destruct (negb ok && created); [apply inv_drop_current; [done|congruence|by rewrite E3, Hg|done]|].
  destruct Hi' as [Hb [Hc _]]. split; cbn; [|by split]. eapply base_same; [|exact Hb]. intros j. unfold owned. cbn. by rewrite E3, Hg.
Qed.

Lemma watch_address s : address (watch_step s) = address s.
Proof. unfold watch_step. by case_goal. Qed.
Lemma wait_address s : address (wait_step s) = address s.
Proof. unfold wait_step. by repeat case_goal. Qed.

Lemma hstep_inv t t' : hstep t t' → inv t → inv t'.
Proof.
  intros [] Hi.
  - by apply inv_enter.
  - by apply inv_start_open.
  - by apply inv_boot.
  - by apply inv_select_read.
  - apply inv_fail; auto.
  - by apply inv_select_done.
  - by apply inv_dial_end.
  - by apply inv_return.
  - by apply inv_drop_session.
  - by destruct Hi.
  - apply inv_session; [intros; apply keeps_killed|done|done].
  - apply inv_session; [intros; apply keeps_exit|done|done].
  - apply inv_session; [intros; apply keeps_wait|apply wait_address|done].
  - apply inv_session; [intros; apply keeps_watch|apply watch_address|done].
  - apply inv_session; [intros; by apply keeps_relay|done|done].
Qed.

Lemma inv_first : inv initial.
Proof.
  split; [|done]. split; cbn.
  1,2: by intros ? ? ?%lookup_empty_Some.
  - by intros ? [?|?].
  - by intros ? ?%not_elem_of_nil.
  - done.
Qed.

Lemma hruns_inv t t' : rtc hstep t t' → inv t → inv t'.
Proof. induction 1; eauto using hstep_inv. Qed.

(** ** After the end *)

Lemma hstep_over t t' : hstep t t' → ctxDone t = true → gate t = Free → current t = None →
  ctxDone t' = true ∧ gate t' = Free ∧ current t' = None.
Proof.
  intros [] Hx Hg Hc; try congruence; cbn; auto.
  - unfold dial_enter. rewrite Hx, orb_true_r. auto.
  - unfold drop_session. rewrite Hc. auto.
Qed.

Lemma runs_over t t' : rtc hstep t t' → ctxDone t = true → gate t = Free → current t = None → gate t' = Free ∧ current t' = None.
Proof. induction 1 as [|x y z Hxy _ IH]; intros Hx Hg Hc; [done|]. by destruct (hstep_over _ _ Hxy Hx Hg Hc) as (? & ? & ?); apply IH. Qed.

(** ** Closing a session ends *)

(** What is left to do until [s.done] is closed. *)
Definition rank (s : tunnelSession) : nat :=
  match waiter s with
  | Waiting => if alive s then 5 else 4
  | Reaped => 3 | RelayClosed => 2 | CertRemoved => 1
  | Unstarted | Done => 0
  end.
Definition rank_of (k : nat) (t : outbound) : nat := default 0%nat (rank <$> sessions t !! k).

(** The steps that bring the end of session [k] nearer: a process that was killed
    ends, the waiting goroutine moves on, [s.Close()] returns. *)
Inductive progress (k : nat) (t : outbound) : outbound → Prop :=
| p_exit s : sessions t !! k = Some s → killed s = true → alive s = true → progress k t (on_session k (λ s, s <| alive := false |>) t)
| p_wait s : sessions t !! k = Some s → alive s = false → closed s = false → progress k t (on_session k wait_step t)
| p_return n : gate t = Closing k n → session_done k t = true → progress k t (close_return k n t).

Lemma rank_session j f k t : (∀ s, (rank (f s) ≤ rank s)%nat) → (rank_of k (on_session j f t) ≤ rank_of k t)%nat.
Proof.
  intros Hf. unfold rank_of. cbn. case_key j k; rewrite ?lookup_alter_eq, ?lookup_alter_ne by done; [|done].
  destruct (sessions t !! j); cbn; [apply Hf|done].
Qed.

Lemma rank_exit s : (rank (s <| alive := false |>) ≤ rank s)%nat.
Proof. unfold rank. cbn. destruct (waiter s); try done. case_goal; lia. Qed.
Lemma rank_wait s : (rank (wait_step s) ≤ rank s)%nat.
Proof. unfold rank, wait_step. destruct (waiter s) eqn:E; try (destruct (alive s) eqn:A); cbn; rewrite ?E, ?A; lia. Qed.
Lemma rank_watch s : (rank (watch_step s) ≤ rank s)%nat.
Proof. unfold watch_step. by case_goal. Qed.

(** No step of anyone moves a session that is being closed away from its end. *)
Lemma hstep_rank k n t t' : hstep t t' → gate t = Closing k n → gate t' = Closing k n → (rank_of k t' ≤ rank_of k t)%nat.
Proof.
  intros [] Hg Hg'; try congruence; try done; try (apply rank_session; done || apply rank_exit || apply rank_wait || apply rank_watch).
  assert (k = k0) as -> by congruence. destruct n0; cbn in Hg'; congruence.
Qed.

Lemma progress_rank k n t t' : inv t → progress k t t' → gate t = Closing k n →
  hstep t t' ∧ (gate t' = Closing k n → (rank_of k t' < rank_of k t)%nat).
Proof.
  intros Hi [s Hs Hk Ha|s Hs Ha Hc|n' Hg Hd] Hgate.
  - split; [constructor|]. intros _. unfold rank_of. cbn. rewrite lookup_alter_eq, Hs. cbn. unfold rank. cbn. rewrite Ha.
    destruct Hi as [[Hb _ _ _ _] _]. destruct (Hb k s Hs) as [H _ _ _ _]. unfold stage_ok, released in H.
    destruct (waiter s); try (destruct H; congruence). lia.
  - split; [constructor|]. intros _. unfold rank_of. cbn. rewrite lookup_alter_eq, Hs. cbn.
    destruct Hi as [[_ _ Hb _ _] _]. destruct (Hb k) as (s' & Hs' & Hw); [right; by rewrite Hgate|].
    assert (s' = s) as -> by congruence. unfold closed in Hc. apply bool_decide_eq_false in Hc.
    unfold rank, wait_step. destruct (waiter s) eqn:E; try congruence; rewrite ?Ha; cbn; rewrite ?E; lia.
  - split; [by apply h_return|]. intros H. destruct n'; cbn in H; congruence.
Qed.

Lemma closing_progress k n t : inv t → gate t = Closing k n → ∃ t', progress k t t'.
Proof.
  intros [[B1 B2 B3 B4 B5] [_ Hs]] Hg. rewrite Hg in Hs. destruct Hs as [Ho _].
  destruct (B3 k) as (s & Es & _); [right; by rewrite Hg|]. specialize (Ho s Es). cbn in Ho.
  destruct (closed s) eqn:Ec.
  - eexists. apply (p_return k t n Hg). unfold session_done. by rewrite Es.
  - destruct (alive s) eqn:Ea; eexists; [eapply p_exit|eapply p_wait]; try done. by apply (so_once _ _ (B1 k s Es)).
Qed.

(** C33: The helper process is supervised.  In every interleaving of dials, the
    end or the failure of the helper at any point, datagrams, interface changes and
    closing:
    - a session that is neither the current one nor in the hands of the holder of
      the gate has no process, no relay sockets, no certificate file and no pipe left;
    - a running helper was started with exactly the loopback resolver, the
      domain and the file with the pinned certificate, which holds exactly that
      certificate; the session's key went to its standard input only, and its
      relay serves only the peer named by a ready message of its own generation;
    - a connection handed out was dialled at the address of such a message, and its
      other end proved to hold the session's key; no other loopback connection is left open;
    - closing a session can always go on and never goes back, whatever else
      happens, until the helper is reaped and all is released;
    - once the outbound is cancelled and closed this is for ever. *)
Theorem helper_supervised t : rtc hstep initial t →
  (∀ k s, sessions t !! k = Some s → owned t k ∨ released s) ∧
  (∀ k s, sessions t !! k = Some s → alive s = true →
     argv s = command_line k ∧ certFile s = Some (t_certificate cfg) ∧ stdin s `prefix_of` bootstrap (s_auth s) ∧
     auth (relay s) = s_auth s ∧ ∀ p, peer (relay s) = Some p → ∃ m a, parseReady (s_auth s) m = Ret (a, p) ∧ address s = Some a) ∧
  ((∀ g, g ∈ granted t → ∃ s m p, sessions t !! g_session g = Some s ∧ parseReady (s_auth s) m = Ret (g_address g, p) ∧
     drop 32 (g_reply g) = mac (s_auth s) childProof [g_nonce g; take 32 (g_reply g)]) ∧ openConns t = length (granted t)) ∧
  (∀ k n, gate t = Closing k n → (∃ t', progress k t t') ∧
     ∀ t', hstep t t' → gate t' = Closing k n →
       (rank_of k t' ≤ rank_of k t)%nat ∧ (progress k t t' → (rank_of k t' < rank_of k t)%nat)) ∧
  (ctxDone t = true → gate t = Free → current t = None → ∀ t', rtc hstep t t' →
     gate t' = Free ∧ current t' = None ∧ ∀ k s, sessions t' !! k = Some s → released s).
Proof.
  intros Ht. pose proof (hruns_inv _ _ Ht inv_first) as Hi.
  assert (Hrel : ∀ t' k s, inv t' → sessions t' !! k = Some s → owned t' k ∨ released s).
  { intros t' k s [[B1 B2 _ _ _] _] Hs. destruct (B2 k s Hs) as [?|?]; [by left|]. right. by eapply sess_done; [apply B1|]. }
  pose proof Hi as [[B1 B2 B3 B4 B5] Hs]. split_and!.
  - intros k s. by apply Hrel.
  - intros k s Es Ea. destruct (B1 k s Es) as [H1 H2 H3 H4 _]. unfold stage_ok, released in H1.
    destruct (waiter s); try (destruct H1; congruence). destruct H1 as [? ?]. split_and!; try done.
    intros p Hp. unfold peer_ok in H3. destruct (address s) as [a|]; [|congruence]. destruct H3 as (m & p' & Hm & Hp').
    exists m, a. split; [congruence|done].
  - intros g Hg. destruct (B4 g Hg) as (s & Es & Ha & Hm). destruct (B1 _ s Es) as [_ _ H3 _ _]. unfold peer_ok in H3.
    rewrite Ha in H3. destruct H3 as (m & p & H3 & _). exists s, m, p. split_and!; [done|done|].
    unfold authenticate in Hm. destruct (bytes_eqb _ _) eqn:E; [|done]. by apply bytes_eqb_eq in E.
  - done.
  - intros k n Hg. split; [by eapply closing_progress|]. intros t' Ht' Hg'. split; [by eapply hstep_rank|].
    intros Hp. by eapply progress_rank.
  - intros Hx Hg Hc t' Ht'. destruct (runs_over _ _ Ht' Hx Hg Hc) as [Hg' Hc']. split_and!; [done|done|].
    intros k s Es. destruct (Hrel t' k s (hruns_inv _ _ Ht' Hi) Es) as [[?|Ho]|?]; [congruence| |done]. by rewrite Hg' in Ho.
Qed.
End Outbound.

(** A run: a helper is started, serves a connection, and is closed. *)
Definition ex_cfg : tunnelConfig := mkTunnel (list_of_str "t.example") (AV4 0x09090909, 53) (list_of_str "pem").
Definition ex_path (k : nat) : bytes := list_of_str "/tmp/slipstream-cert-1.pem".
Definition ex_relay (k : nat) : bytes := list_of_str "127.0.0.1:40000".
Definition ex_ready : bytes := readyMagic ++ generation ex_auth ++ be_put 2 4000 ++ be_put 2 5353.
Definition ex_nonce : bytes := replicate 32 (byte_of 1).
Definition ex_reply : bytes := replicate 32 (byte_of 2) ++ mac ex_auth childProof [ex_nonce; replicate 32 (byte_of 2)].
Definition ex_serving : outbound :=
  dial_end true (Accepted ex_nonce (Some ex_reply) false)
    (select_read 0 (Some ex_ready) (boot 0 56 false (start_open ex_cfg ex_path ex_relay 0 ex_auth Started (dial_enter true initial)))).
Definition ex_closing : outbound := drop_session (ex_serving <| ctxDone := true |>).
Definition ex_exited : outbound := on_session 0 (λ s, s <| alive := false |>) ex_closing.
Definition ex_reaped : outbound := on_session 0 wait_step (on_session 0 wait_step (on_session 0 wait_step (on_session 0 wait_step ex_exited))).
Definition ex_over : outbound := close_return 0 ThenDrop ex_reaped.

Lemma helper_supervised_witness :
  (length (granted ex_over) = 1%nat ∧ is_Some (sessions ex_over !! 0%nat)) ∧
  (∀ k s, sessions ex_over !! k = Some s → released s) ∧ ∃ t', progress 0 ex_closing t'.
Proof.
  assert (H1 : rtc (hstep ex_cfg ex_path ex_relay) initial ex_closing).
  { eapply rtc_l; [apply (h_enter _ _ _ initial true); reflexivity|].
    eapply rtc_l; [apply (h_start _ _ _ _ 0 ex_auth Started); reflexivity|].
    eapply rtc_l; [apply (h_boot _ _ _ _ 0 56 false); reflexivity|].
    eapply rtc_l; [apply (h_read _ _ _ _ 0 (Some ex_ready)); vm_compute; reflexivity|].
    eapply rtc_l; [apply (h_dial _ _ _ _ true (Accepted ex_nonce (Some ex_reply) false)); vm_compute; reflexivity|].
    eapply rtc_l; [apply h_cancel|]. eapply rtc_l; [apply h_drop; vm_compute; reflexivity|]. apply rtc_refl. }
  assert (H2 : rtc (hstep ex_cfg ex_path ex_relay) initial ex_over).
  { etransitivity; [exact H1|]. eapply rtc_l; [apply (h_exit _ _ _ _ 0)|].
    do 4 (eapply rtc_l; [apply (h_wait _ _ _ _ 0)|]).
    eapply rtc_l; [apply (h_return _ _ _ _ 0 ThenDrop); vm_compute; reflexivity|]. apply rtc_refl. }
  destruct (helper_supervised ex_cfg ex_path ex_relay ex_over H2) as (_ & _ & _ & _ & H3).
  destruct (helper_supervised ex_cfg ex_path ex_relay ex_closing H1) as (_ & _ & _ & H4 & _).
  split_and!.
  - vm_compute. reflexivity.
  - vm_compute. eauto.
  - assert (ctxDone ex_over = true) as Ex by (vm_compute; reflexivity).
    assert (gate ex_over = Free) as Eg by (vm_compute; reflexivity).
    assert (current ex_over = None) as Ec by (vm_compute; reflexivity).
    apply (H3 Ex Eg Ec ex_over (rtc_refl _ _)).
  - apply (H4 0%nat ThenDrop). vm_compute. reflexivity.
Defined.

(** ** Construction *)

(** The helper is the host's absolute path, never a name of the profile, and
    every attempt has a deadline. *)
Lemma NewOutbound_ok isAbs pem x509 o hostPath dialerErr connectTimeout st :
  NewOutbound isAbs pem x509 o hostPath dialerErr connectTimeout = Ok st →
  executable st = hostPath ∧ hostPath ≠ "" ∧ isAbs hostPath = true ∧ 0 < timeout st ∧ slip_parseOptions pem x509 o = Ok (config st).
Proof.
  unfold NewOutbound. destruct (slip_parseOptions pem x509 o) as [c|]; cbn; [|done]. case_goal; [|done].
  destruct dialerErr; [done|]. intros [= <-]. cbn. bsplit. split_and!; try done.
  case_goal; [done|lia].
Qed.
