(* ===== verification/FallbackGraph.v ===== *)
(** * The bound fallback graph of a Telegram preparation

    Models [FallbackDefinitions] of
    [engine/sing-box/protocol/pokrov/telegramws/admission.go]: the walk over the
    configured outbounds from the VPN tag that collects the exact definition of
    every outbound the fallback can use, and refuses a graph with an unprotected
    or unknown outbound or with a cycle. *)

From stdpp Require Import base list strings gmap.
From Stdlib Require Import ZArith Lia Ascii.
From S2P Require Import Prelude GoBytes GoNetip CarrierPolicy.

Definition errScope : string := "telegram_ws_scope_invalid".

(** The option types the walk tells apart. *)
Inductive def_options :=
| DNaive (o : NaiveOptions)
| DVLESS (o : VLESSOptions)
| DHysteria2 (detour : string)
| DLegacyWireGuard (detour : string)
| DWireGuard (detour : string)
| DAwg (detour : string)
| DSelector (outbounds : list string)
| DURLTest (outbounds : list string)
| DSlipstream (o : SlipstreamOptions)
| DDnstt (o : DnsttOptions)
| DOther.

Record definition := mkDef { kind : string; d_options : def_options }.

(** The table of definitions: an empty tag, or a tag that already has a
    definition with a type, is refused. *)
Fixpoint byTag (l : list (string * definition)) (acc : gmap string definition) : option (gmap string definition) :=
  match l with
  | [] => Some acc
  | (t, d) :: l =>
      if bool_decide (t = "") || negb (bool_decide (from_option kind "" (acc !! t) = "")) then None
      else byTag l (<[t := d]> acc)
  end.

Section walk.
(** [json.Marshal], the certificate checks and the DNSTT library. *)
Context (marshal : def_options → option string).
Context (pem : bytes → option (bytes * bytes)) (x509 : bytes → bool).
Context (server : bytes → bytes → bool) (key : bytes → option bytes).
Context (tbl : gmap string definition).

Definition entry (d : definition) : option string :=
  e ← marshal (d_options d); Some (kind d +:+ String "010"%char e).

(** A carrier kind of the detour of a VLESS exit. *)
Definition carrier_of (detour : string) : option definition :=
  d ← tbl !! detour;
  if bool_decide (kind d = "slipstream") || bool_decide (kind d = "dnstt") then Some d else None.

Definition carrier_ok (v : VLESSOptions) (c : definition) : bool :=
  if bool_decide (kind c = "slipstream") then
    match d_options c with DSlipstream o => slip_ProtectedVLESSDetour pem x509 v o | _ => false end
  else match d_options c with DDnstt o => dnstt_ProtectedVLESSDetour server key v o | _ => false end.

Definition vless_tls (v : VLESSOptions) : bool :=
  match v_tls v with Some t => t_Enabled t && negb (t_Insecure t) | None => false end.

(** The switch over the option types: the children to visit and the definitions
    with a bound carrier added. *)
Definition classify (d : definition) (defs : gmap string string) : option (list string * gmap string string) :=
  match d_options d with
  | DNaive o => if ProtectedH2 o then Some ([], defs) else None
  | DVLESS v =>
      match carrier_of (v_detour v) with
      | Some c => if carrier_ok v c then e ← entry c; Some ([], <[v_detour v := e]> defs) else None
      | None => if vless_tls v && bool_decide (v_detour v = "") then Some ([], defs) else None
      end
  | DHysteria2 dt | DLegacyWireGuard dt | DWireGuard dt | DAwg dt =>
      if bool_decide (dt = "") then Some ([], defs) else None
  | DSelector l | DURLTest l => Some (l, defs)
  | DSlipstream _ | DDnstt _ | DOther => None
  end.

Definition empty_group (d : definition) (children : list string) : bool :=
  (bool_decide (kind d = "selector") || bool_decide (kind d = "urltest")) && bool_decide (children = []).

Fixpoint visit_all (rec : string → gmap string string → option (gmap string string)) (l : list string)
    (defs : gmap string string) : option (gmap string string) :=
  match l with
  | [] => Some defs
  | c :: l => defs ← rec c defs; visit_all rec l defs
  end.

(** [visiting] are the tags on the current path. *)
Fixpoint visit (fuel : nat) (visiting : gset string) (name : string) (defs : gmap string string)
    : option (gmap string string) :=
  match fuel with
  | O => None
  | S fuel =>
      if bool_decide (name ∈ visiting) then None
      else if bool_decide (is_Some (defs !! name)) then Some defs
      else
        d ← tbl !! name;
        '(children, defs) ← classify d defs;
        if empty_group d children then None
        else
          defs ← visit_all (visit fuel ({[name]} ∪ visiting)) children defs;
          e ← entry d;
          Some (<[name := e]> defs)
  end.

Definition visit_fuel : nat := S (size tbl).

End walk.

(** [FallbackDefinitions] over the outbounds followed by the endpoints. *)
Definition FallbackDefinitions marshal pem x509 server key (l : list (string * definition)) (tag : string)
    : result string (gmap string string) :=
  match byTag l ∅ with
  | None => Err errScope
  | Some tbl =>
      match visit marshal pem x509 server key tbl (visit_fuel tbl) ∅ tag ∅ with
      | Some defs => Ok defs
      | None => Err errScope
      end
  end.

(** ** The walk accepts exactly the protected graphs *)

Section exact.
Context (marshal : def_options → option string).
Context (pem : bytes → option (bytes * bytes)) (x509 : bytes → bool).
Context (server : bytes → bytes → bool) (key : bytes → option bytes).
Context (tbl : gmap string definition).

Abbreviation classify' := (classify marshal pem x509 server key tbl).
Abbreviation visit' := (visit marshal pem x509 server key tbl).

(** An outbound all of whose uses end, after finitely many hops, in a protected
    exit, each with a definition that can be written down. *)
Inductive Bound : string → Prop :=
| bound_intro name d children defs :
    tbl !! name = Some d → classify' d ∅ = Some (children, defs) → empty_group d children = false →
    is_Some (entry marshal d) → (∀ c, c ∈ children → Bound c) → Bound name.

(** The same up to [h] hops. *)
Fixpoint bound (h : nat) (name : string) : bool :=
  match h with
  | O => false
  | S h =>
      match tbl !! name with
      | None => false
      | Some d =>
          match classify' d ∅ with
          | None => false
          | Some (children, _) =>
              negb (empty_group d children) && bool_decide (is_Some (entry marshal d)) && forallb (bound h) children
          end
      end
  end.

Lemma bound_mono h h' name : (h ≤ h')%nat → bound h name = true → bound h' name = true.
Proof.
  revert h' name. induction h as [|h IH]; intros [|h'] name Hh; simpl; try done; [lia|].
  destruct (tbl !! name) as [d|]; [|done]. destruct (classify' d ∅) as [[ch defs]|]; [|done].
  rewrite !andb_true_iff, !forallb_forall. intros [? H]. split; [done|]. intros c Hc. apply IH; [lia|by apply H].
Qed.

Lemma bound_Bound h name : bound h name = true → Bound name.
Proof.
  revert name. induction h as [|h IH]; intros name; simpl; [done|]. destruct (tbl !! name) as [d|] eqn:E; [|done].
  destruct (classify' d ∅) as [[ch defs]|] eqn:Ec; [|done]. intros H. apply andb_true_iff in H as [H Hf]. bsplit.
  econstructor; [done..|]. intros c Hc. apply IH. rewrite forallb_forall in Hf. by apply Hf, list_elem_of_In.
Qed.

Lemma Bound_bound name : Bound name → ∃ h, bound h name = true.
Proof.
  induction 1 as [name d ch defs E Ec Hg He _ IH].
  assert (∃ h, forallb (bound h) ch = true) as [h Hh].
  { clear Ec Hg. induction ch as [|c ch IHc]; [by exists 0%nat|].
    destruct IHc as [h Hh]; [intros x Hx; apply IH; by right|]. destruct (IH c) as [hc Hc]; [by left|].
    exists (max h hc). simpl. rewrite (bound_mono hc) by (done || lia). simpl.
    rewrite forallb_forall in *. intros x Hx. eapply bound_mono; [|by apply Hh]. lia. }
  exists (S h). simpl. rewrite E, Ec, Hg, Hh, bool_decide_eq_true_2 by done. done.
Qed.

Lemma bound_least h name : bound h name = true →
  ∃ k, (k ≤ h)%nat ∧ bound k name = true ∧ ∀ j, (j < k)%nat → bound j name = false.
Proof.
  induction h as [|h IH]; intros H; [done|]. destruct (bound h name) eqn:E.
  - destruct (IH eq_refl) as (k & ? & ? & ?). exists k. split_and!; [lia|done..].
  - exists (S h). split_and!; [lia|done|]. intros j Hj. destruct (bound j name) eqn:Ej; [|done].
    rewrite (bound_mono j h) in E; [done|lia|done].
Qed.

(** The carriers a VLESS exit can bind. *)
Definition is_carrier (name : string) : bool := bool_decide (is_Some (carrier_of tbl name)).

(** No group lists a DNS carrier as a member of its own. *)
Definition no_raw_carrier : Prop :=
  ∀ name d, tbl !! name = Some d →
    match d_options d with DSelector l | DURLTest l => ∀ c, c ∈ l → is_carrier c = false | _ => True end.

(** The children do not depend on what was collected before, and at most one
    carrier is added. *)
Lemma classify_any d defs ch defs' :
  classify' d defs = Some (ch, defs') →
  (∀ defs1, ∃ defs2, classify' d defs1 = Some (ch, defs2)) ∧
  (defs' = defs ∨ ∃ t e, is_carrier t = true ∧ defs' = <[t := e]> defs).
Proof.
  unfold classify. destruct (d_options d) as [o|v|dt|dt|dt|dt|l|l|o|o|]; try done;
    try (case_goal; [|done]; intros [= <- <-]; by eauto); try (intros [= <- <-]; by eauto).
  destruct (carrier_of tbl (v_detour v)) as [c|] eqn:Ec; [|case_goal; [|done]; intros [= <- <-]; by eauto].
  destruct (carrier_ok _ _ _ _ _ c); [|done]. destruct (entry marshal c) as [e|]; [|done]. simpl. intros [= <- <-].
  split; [by eauto|]. right. exists (v_detour v), e. split; [|done]. unfold is_carrier. by rewrite Ec, bool_decide_eq_true_2.
Qed.

Lemma classify_children d defs ch defs' name :
  no_raw_carrier → tbl !! name = Some d → classify' d defs = Some (ch, defs') → Forall (λ c, is_carrier c = false) ch.
Proof.
  intros Hr E. specialize (Hr name d E). unfold classify. intros H.
  destruct (d_options d) as [o|v|dt|dt|dt|dt|l|l|o|o|]; try done; repeat (case_hyp H; try done);
    try (apply bind_Some in H as (? & _ & H)); simplify_eq; try constructor; by apply Forall_forall.
Qed.

Definition sound_defs (defs : gmap string string) : Prop :=
  ∀ n, is_Some (defs !! n) → Bound n ∨ is_carrier n = true.

Lemma visit_all_sound rec ch defs defs' :
  (∀ c defs defs', c ∈ ch → sound_defs defs → rec c defs = Some defs' → Bound c ∧ sound_defs defs') →
  sound_defs defs → visit_all rec ch defs = Some defs' → (∀ c, c ∈ ch → Bound c) ∧ sound_defs defs'.
Proof.
  revert defs. induction ch as [|c ch IH]; intros defs Hrec Hs; simpl; [intros [= <-]; split; [set_solver|done]|].
  intros (d1 & H1 & H2)%bind_Some. destruct (Hrec c defs d1) as [Hc Hs1]; [by left|done..|].
  destruct (IH d1) as [Hch Hs2]; [intros x ? ? Hx; apply Hrec; by right|done..|]. split; [|done].
  intros x [->|Hx]%elem_of_cons; auto.
Qed.

(** Everything collected is bound or a carrier, and so is what was visited. *)
Lemma visit_sound fuel visiting name defs defs' :
  no_raw_carrier → is_carrier name = false → sound_defs defs → visit' fuel visiting name defs = Some defs' →
  Bound name ∧ sound_defs defs'.
Proof.
  intros Hr. revert visiting name defs defs'. induction fuel as [|fuel IH]; intros visiting name defs defs' Hn Hs; [done|].
  cbn [visit]. destruct (bool_decide (name ∈ visiting)); [done|].
  destruct (bool_decide (is_Some (defs !! name))) eqn:Hd; [apply bool_decide_eq_true in Hd|].
  { intros [= <-]. split; [|done]. destruct (Hs name Hd); [done|congruence]. }
  intros (d & E & H)%bind_Some. apply bind_Some in H as ([ch defs1] & Ec & H).
  destruct (empty_group d ch) eqn:Eg; [done|]. apply bind_Some in H as (defs2 & Ev & H).
  apply bind_Some in H as (e & Ee & [= <-]). destruct (classify_any _ _ _ _ Ec) as [Hany Hadd].
  assert (Hs1 : sound_defs defs1).
  { destruct Hadd as [->|(t & x & Ht & ->)]; [done|]. intros n. case_key t n; [by right|apply Hs]. }
  assert (Hrec : ∀ c x y, c ∈ ch → sound_defs x → visit' fuel ({[name]} ∪ visiting) c x = Some y → Bound c ∧ sound_defs y).
  { intros c x y Hc. apply IH. pose proof (classify_children _ _ _ _ _ Hr E Ec) as Hf. rewrite Forall_forall in Hf. by apply Hf. }
  destruct (visit_all_sound _ _ _ _ Hrec Hs1 Ev) as [Hch Hs2].
  destruct (Hany ∅) as [defs0 H0].
  assert (Hb : Bound name) by (econstructor; [exact E|exact H0|done|by rewrite Ee|done]).
  split; [done|]. intros n. case_key name n; [by left|apply Hs2].
Qed.

(** Completeness: a tag that is bound within [h] hops is accepted when nothing
    on the path is bound as early, and the fuel is more than the tags left. *)
Lemma visit_complete fuel visiting name defs h :
  bound h name = true → (∀ j, (j < h)%nat → bound j name = false) → (∀ v, v ∈ visiting → bound h v = false) →
  visiting ⊆ dom tbl → (size tbl < fuel + size visiting)%nat → is_Some (visit' fuel visiting name defs).
Proof.
  revert visiting name defs h. induction fuel as [|fuel IH]; intros visiting name defs h Hb Hl Hv Hd Hf.
  { exfalso. apply subseteq_size in Hd. rewrite size_dom in Hd. lia. }
  destruct h as [|h]; [done|]. pose proof Hb as Hb'. simpl in Hb.
  assert (Hn : name ∉ visiting) by (intros Hn; rewrite Hv in Hb' by done; done).
  cbn [visit]. rewrite bool_decide_eq_false_2 by done. destruct (bool_decide (is_Some (defs !! name))); [done|].
  destruct (tbl !! name) as [d|] eqn:E; [|done]. simpl.
  destruct (classify' d ∅) as [[ch defs0]|] eqn:E0; [|done].
  destruct (proj1 (classify_any _ _ _ _ E0) defs) as [defs1 ->]. simpl.
  apply andb_true_iff in Hb as [Hb Hch]. bsplit. rewrite H. destruct H0 as [e He].
  assert (Hall : ∀ l defs, (∀ c, c ∈ l → c ∈ ch) → is_Some (visit_all (visit' fuel ({[name]} ∪ visiting)) l defs)).
  { induction l as [|c l IHl]; intros defs2 Hin; simpl; [done|].
    assert (Hc : bound h c = true) by (rewrite forallb_forall in Hch; apply Hch, list_elem_of_In, Hin; by left).
    destruct (bound_least h c Hc) as (k & Hk & Hck & Hlk).
    destruct (IH ({[name]} ∪ visiting) c defs2 k) as [defs3 H3]; [done|done| | | |].
    - intros v [->%elem_of_singleton|Hin']%elem_of_union; [apply Hl; lia|].
      destruct (bound k v) eqn:Ek; [|done]. specialize (Hv v Hin'). rewrite (bound_mono k (S h) v) in Hv; [done|lia|done].
    - apply union_subseteq. split; [|done]. apply singleton_subseteq_l, elem_of_dom. by eexists.
    - rewrite size_union, size_singleton by set_solver. lia.
    - rewrite H3. simpl. apply IHl. intros x Hx. apply Hin. by right. }
  destruct (Hall ch defs1) as [defs2 ->]; [done|]. simpl. by rewrite He.
Qed.

Lemma visit_exact name :
  no_raw_carrier → is_carrier name = false → is_Some (visit' (visit_fuel tbl) ∅ name ∅) ↔ Bound name.
Proof.
  intros Hr Hn. split.
  - intros [defs H]. eapply visit_sound; [done..| |exact H]. intros n [? ?]. set_solver.
  - intros [h Hh]%Bound_bound. destruct (bound_least h name Hh) as (k & _ & Hk & Hl).
    apply (visit_complete _ _ _ _ k); [done..|set_solver|set_solver|]. unfold visit_fuel. rewrite size_empty. lia.
Qed.
End exact.

(** The fallback graph of a Telegram preparation is collected exactly when
    it is protected: for a configuration with well-formed tags in which no group
    lists a DNS carrier as its own member, the walk ends whatever the references
    between outbounds are, refuses with the scope error exactly when some path
    from the tag meets an unknown or unprotected outbound, an empty group or a
    cycle, and otherwise returns definitions that contain only outbounds that
    are protected themselves or carriers bound by an accepted VLESS exit. *)
Theorem fallback_definitions_exact marshal pem x509 server key l tbl tag :
  byTag l ∅ = Some tbl → no_raw_carrier tbl → is_carrier tbl tag = false →
  match FallbackDefinitions marshal pem x509 server key l tag with
  | Ok defs => Bound marshal pem x509 server key tbl tag ∧
      ∀ n, is_Some (defs !! n) → Bound marshal pem x509 server key tbl n ∨ is_carrier tbl n = true
  | Err e => e = errScope ∧ ¬ Bound marshal pem x509 server key tbl tag
  end.
Proof.
  intros E Hr Hn. unfold FallbackDefinitions. rewrite E.
  pose proof (visit_exact marshal pem x509 server key tbl tag Hr Hn) as Hx.
  destruct (visit marshal pem x509 server key tbl (visit_fuel tbl) ∅ tag ∅) as [defs|] eqn:Ev.
  - eapply visit_sound; [done..| |exact Ev]. intros n [? ?]. set_solver.
  - split; [done|]. intros [? ?]%Hx. done.
Qed.

(** ** Examples *)

Definition ex_tls : tls_options := mkTLS true "h" false false [] false None None None None.
Definition ex_exit : definition := mkDef "vless" (DVLESS (mkVLESS "" "h" 443 "u" "" "" (Some ex_tls) None false)).
Definition ex_carried : definition := mkDef "vless" (DVLESS (mkVLESS "dns" "127.0.0.1" 12543 "u" "" "tcp" None None false)).
Definition ex_carrier : definition :=
  mkDef "dnstt" (DDnstt (mkDnstt "" (list_of_str "k") (list_of_str "t.example") [list_of_str "9.9.9.9:53"] 1 None "tcp")).
Definition ex_marshal (o : def_options) : option string := Some "{}".
Definition ex_graph (l : list (string * definition)) (tag : string) : result string (gmap string string) :=
  FallbackDefinitions ex_marshal (λ b, Some (b, b)) (λ _, true) (λ _ _, true) Some l tag.

Definition ex_list : list (string * definition) :=
  [("exit", ex_exit); ("group", mkDef "selector" (DSelector ["exit"; "exit"]))].
Definition ex_tbl : gmap string definition := default ∅ (byTag ex_list ∅).

Lemma fallback_definitions_exact_witness :
  is_ok (ex_graph ex_list "group") = true ∧
  Bound ex_marshal (λ b, Some (b, b)) (λ _, true) (λ _ _, true) Some ex_tbl "group".
Proof.
  assert (Hok : is_ok (ex_graph ex_list "group") = true) by (vm_compute; reflexivity).
  split; [exact Hok|].
  assert (Hr : no_raw_carrier ex_tbl).
  { intros name d. change ex_tbl with (<["group" := mkDef "selector" (DSelector ["exit"; "exit"])]>
      (<["exit" := ex_exit]> (∅ : gmap string definition))). rewrite lookup_insert_Some, lookup_insert_Some.
    intros [[<- <-]|[_ [[<- <-]|[_ H]]]]; simpl; [|done|by rewrite lookup_empty in H].
    intros c Hc. do 2 (apply elem_of_cons in Hc as [->|Hc]; [vm_compute; reflexivity|]). destruct (proj1 (elem_of_nil c) Hc). }
  pose proof (fallback_definitions_exact ex_marshal (λ b, Some (b, b)) (λ _, true) (λ _ _, true) Some ex_list ex_tbl "group"
    ltac:(reflexivity) Hr ltac:(vm_compute; reflexivity)) as H.
  unfold ex_graph in Hok. destruct (FallbackDefinitions _ _ _ _ _ _ _); [apply H|discriminate Hok].
Defined.

(** A group that lists a DNS carrier directly is accepted when an exit that
    binds the carrier is listed before it, and refused in the other order. *)
Lemma raw_carrier_order_dependent :
  let outs g := [("dns", ex_carrier); ("exit", ex_carried); ("group", mkDef "selector" (DSelector g))] in
  is_ok (ex_graph (outs ["exit"; "dns"]) "group") = true ∧ is_ok (ex_graph (outs ["dns"; "exit"]) "group") = false.
Proof. vm_compute. split; reflexivity. Qed.
