(* ===== verification/RuntimeControl.v ===== *)
(** * Control of the running service

    Models [engine/sing-box/daemon/routing_catalog.go] with the two
    [pokrov_catalog.go] files it calls (of the box and of the DNS router): the
    withdrawal of a catalog or of one service over all components at once, and
    the entry points that admit, withdraw or retry one holder.  The components
    are the ones of [CatalogWindow], [SaOutbound], [TelegramWs] and [LocalDpi],
    which share names: they are written with their file. *)

From stdpp Require Import base list strings gmap relations.
From Stdlib Require Import ZArith Lia Ascii.
From S2P Require Import Prelude GoTime GoBytes GoNetip.
From S2P Require Import LocalDpi.
From S2P Require Import TelegramWs.
From S2P Require Import SaOutbound.
From S2P Require Import CatalogWindow.

Local Open Scope Z_scope.

(** ** State

    [sv_outbounds] is the list of the outbound manager with their tags; the
    worlds of the outbounds are kept by key, the Smart Access ones in [sv_sys]
    with the rules that use them. *)
Inductive outbound_ref := RSmart (k : nat) | RTelegram (k : nat) | RLocalDpi (k : nat) | ROther.

Record service := mkService {
  sv_closed : bool;
  sv_started : bool;
  sv_instance : bool;
  sv_outbounds : list (string * outbound_ref);
  sv_dns_rules : list nat;
  sv_route_rules : list nat;
  sv_sys : sys;
  sv_tg : gmap nat TelegramWs.world;
  sv_dpi : gmap nat LocalDpi.world
}.

#[export] Instance eta_service : Eta service := λ s,
  mkService (sv_closed s) (sv_started s) (sv_instance s) (sv_outbounds s) (sv_dns_rules s) (sv_route_rules s) (sv_sys s)
    (sv_tg s) (sv_dpi s).

(** The guard every entry point starts with. *)
Definition running (s : service) : bool := negb (sv_closed s) && sv_started s && sv_instance s.

(** ** Withdrawal of rules *)

(** A loop that revokes rules one by one and reports whether one was found. *)
Fixpoint revoke_rules (f : nat → sys → bool * sys) (l : list nat) (x : sys) : bool * sys :=
  match l with
  | [] => (false, x)
  | i :: l => let '(b, x) := f i x in let '(found, x) := revoke_rules f l x in (b || found, x)
  end.

Definition Box_RevokeRoutingCatalog (now : time) (s : service) : bool * service :=
  let '(f1, x) := revoke_rules (λ i, rule_RevokeRoutingCatalog i now) (sv_dns_rules s) (sv_sys s) in
  let '(f2, x) := revoke_rules (λ i, rule_RevokeRoutingCatalog i now) (sv_route_rules s) x in
  (f1 || f2, s <| sv_sys := x |>).

Definition Box_RevokeRoutingCatalogService (svc : string) (now : time) (s : service) : bool * service :=
  let '(f1, x) := revoke_rules (λ i, rule_RevokeRoutingCatalogService svc i now) (sv_dns_rules s) (sv_sys s) in
  let '(f2, x) := revoke_rules (λ i, rule_RevokeRoutingCatalogService svc i now) (sv_route_rules s) x in
  (f1 || f2, s <| sv_sys := x |>).

(** ** Withdrawal of outbounds *)

Definition tg_ServiceID (w : TelegramWs.world) : string := TelegramWs.o_ServiceID (TelegramWs.preparedOptions (TelegramWs.ob w)).

(** The loop over the Telegram outbounds [p] names. *)
Fixpoint withdraw_telegram (p : string → bool) (os : list (string * outbound_ref)) (tg : gmap nat TelegramWs.world)
    : bool * gmap nat TelegramWs.world :=
  match os with
  | [] => (false, tg)
  | (_, RTelegram k) :: os =>
      match tg !! k with
      | Some w =>
          if p (tg_ServiceID w) then
            let '(b, w') := TelegramWs.WithdrawAdmission (TelegramWs.admissionID (TelegramWs.ob w)) w in
            let '(found, tg) := withdraw_telegram p os (<[k := w']> tg) in (b || found, tg)
          else withdraw_telegram p os tg
      | None => withdraw_telegram p os tg
      end
  | _ :: os => withdraw_telegram p os tg
  end.

(** The loop that revokes every Smart Access outbound. *)
Fixpoint revoke_smart (os : list (string * outbound_ref)) (x : sys) : bool * sys :=
  match os with
  | [] => (false, x)
  | (_, RSmart k) :: os =>
      let x := (on_outbound k tt (λ w, (tt, SaOutbound.Revoke true w)) x).2 in
      let '(_, x) := revoke_smart os x in (true, x)
  | _ :: os => revoke_smart os x
  end.

Definition RevokeRoutingCatalogService (svc : string) (now : time) (s : service) : result string bool * service :=
  if negb (catalogServiceIDPattern svc) then (Err "catalog_service_invalid", s)
  else if negb (running s) then (Err "catalog_runtime_unavailable", s)
  else
    let '(found, tg) := withdraw_telegram (λ x, bool_decide (x = svc)) (sv_outbounds s) (sv_tg s) in
    let '(b, s) := Box_RevokeRoutingCatalogService svc now (s <| sv_tg := tg |>) in
    (Ok (b || found), s).

Definition RevokeRoutingCatalog (now : time) (s : service) : result string bool * service :=
  if negb (running s) then (Err "catalog_runtime_unavailable", s)
  else
    let '(found, tg) := withdraw_telegram (λ _, true) (sv_outbounds s) (sv_tg s) in
    let '(b, s) := Box_RevokeRoutingCatalog now (s <| sv_tg := tg |>) in
    let '(c, x) := revoke_smart (sv_outbounds s) (sv_sys s) in
    (Ok (c || (b || found)), s <| sv_sys := x |>).

(** ** One holder *)

Definition telegram_of (s : service) (r : outbound_ref) : option (nat * TelegramWs.world) :=
  match r with RTelegram k => (k,.) <$> sv_tg s !! k | _ => None end.
Definition local_dpi_of (s : service) (r : outbound_ref) : option (nat * LocalDpi.world) :=
  match r with RLocalDpi k => (k,.) <$> sv_dpi s !! k | _ => None end.

(** The first outbound that satisfies the test of a loop. *)
Fixpoint first_of {A} (f : string → outbound_ref → option A) (os : list (string * outbound_ref)) : option A :=
  match os with
  | [] => None
  | (tag, r) :: os => match f tag r with Some a => Some a | None => first_of f os end
  end.

Definition dpi_by_id (id : string) (s : service) : option (nat * LocalDpi.world) :=
  first_of (λ _ r, x ← local_dpi_of s r;
    if bool_decide (LocalDpi.admissionID (LocalDpi.ob x.2) = id) then Some x else None) (sv_outbounds s).
Definition tg_by_id (id : string) (s : service) : option (nat * TelegramWs.world) :=
  first_of (λ _ r, x ← telegram_of s r;
    if bool_decide (TelegramWs.admissionID (TelegramWs.ob x.2) = id) then Some x else None) (sv_outbounds s).

Definition ReadLocalDpiAdmissionID (tag : string) (s : service) : result string string :=
  if negb (running s) then Err "local_dpi_runtime_unavailable"
  else
    match first_of (λ t r, x ← local_dpi_of s r; if bool_decide (t = tag) then Some x else None) (sv_outbounds s) with
    | Some (_, w) => Ok (LocalDpi.admissionID (LocalDpi.ob w))
    | None => Err "local_dpi_admission_unavailable"
    end.

Definition ReadTelegramWSAdmissionID (tag : string) (s : service) : result string string :=
  if negb (running s) then Err "telegram_ws_runtime_unavailable"
  else
    match first_of (λ t r, x ← telegram_of s r; if bool_decide (t = tag) then Some x else None) (sv_outbounds s) with
    | Some (_, w) => Ok (TelegramWs.admissionID (TelegramWs.ob w))
    | None => Err "telegram_ws_admission_unavailable"
    end.

(** [None] when no holder has the id: the empty answer. *)
Definition ReadLocalDpiObservation (id : string) (s : service) : result string (option LocalDpi.Observation) :=
  if negb (running s) then Err "local_dpi_runtime_unavailable"
  else Ok (match dpi_by_id id s with Some (_, w) => Some (LocalDpi.ReadObservation w) | None => None end).

Definition AdmitLocalDpiAdmission (id : string) (s : service) : result string bool * service :=
  if negb (running s) then (Err "local_dpi_runtime_unavailable", s)
  else
    match dpi_by_id id s with
    | Some (k, w) => let '(b, w) := LocalDpi.AdmitAdmission id w in (Ok b, s <| sv_dpi ::= insert k w |>)
    | None => (Ok false, s)
    end.

Definition WithdrawLocalDpiAdmission (id : string) (s : service) : result string bool * service :=
  if negb (running s) then (Err "local_dpi_runtime_unavailable", s)
  else
    match dpi_by_id id s with
    | Some (k, w) => let '(b, w) := LocalDpi.WithdrawAdmission id w in (Ok b, s <| sv_dpi ::= insert k w |>)
    | None => (Ok false, s)
    end.

Definition AdmitTelegramWSAdmission (id : string) (now : time) (s : service) : result string bool * service :=
  if negb (running s) then (Err "telegram_ws_runtime_unavailable", s)
  else
    match tg_by_id id s with
    | Some (k, w) => let '(b, w) := TelegramWs.AdmitAdmission id now w in (Ok b, s <| sv_tg ::= insert k w |>)
    | None => (Ok false, s)
    end.

Definition WithdrawTelegramWSAdmission (id : string) (s : service) : result string bool * service :=
  if negb (running s) then (Err "telegram_ws_runtime_unavailable", s)
  else
    match tg_by_id id s with
    | Some (k, w) => let '(b, w) := TelegramWs.WithdrawAdmission id w in (Ok b, s <| sv_tg ::= insert k w |>)
    | None => (Ok false, s)
    end.

(** ** Retry of the Windows holders *)

(** [^[0-9a-f]{32}$] *)
Definition localDpiAdmissionID (s : string) : bool := leaseIDPattern s.

Fixpoint index_of (ids : list string) (id : string) : option nat :=
  match ids with
  | [] => None
  | x :: ids => if bool_decide (x = id) then Some 0%nat else S <$> index_of ids id
  end.

(** The loop over the outbounds: the holder of each id and the number of Windows
    holders; [None] at a holder that no id names or a second one for an id. *)
Fixpoint collect (s : service) (ids : list string) (os : list (string * outbound_ref)) (holders : gmap nat nat)
    (count : nat) : option (gmap nat nat * nat) :=
  match os with
  | [] => Some (holders, count)
  | (_, r) :: os =>
      match local_dpi_of s r with
      | None => collect s ids os holders count
      | Some (k, w) =>
          if negb (LocalDpi.windowsDirect (LocalDpi.ob w)) then collect s ids os holders count
          else
            match index_of ids (LocalDpi.admissionID (LocalDpi.ob w)) with
            | None => None
            | Some i =>
                if bool_decide (is_Some (holders !! i)) then None
                else collect s ids os (<[i := k]> holders) (S count)
            end
      end
  end.

(** [strings.Split(csv, ",")] and [strings.Join(ids, ",")] *)
Definition comma : ascii := byte_of 44.
Definition split_csv (csv : string) : list string := (λ b, str_of_list b) <$> split_at comma (list_of_str csv).
Fixpoint join_csv (ids : list string) : string :=
  match ids with
  | [] => ""
  | [id] => id
  | id :: ids => String.append id (String comma (join_csv ids))
  end.

(** [newIDs] are the random identities. *)
Definition PrepareWindowsLocalDpiRetry (csv : string) (newIDs : option (list string)) (s : service)
    : result string string * service :=
  let ids := split_csv csv in
  if (256 <? length ids)%nat then (Ok "", s)
  else if negb (forallb localDpiAdmissionID ids && bool_decide (NoDup ids)) then (Ok "", s)
  else if negb (running s) then (Err "local_dpi_runtime_unavailable", s)
  else
    match collect s ids (sv_outbounds s) ∅ 0 with
    | None => (Ok "", s)
    | Some (holders, count) =>
        if negb (count =? length ids)%nat then (Ok "", s)
        else
          match LocalDpi.PrepareWindowsRetry (omap (λ i, holders !! i) (seq 0 (length ids))) ids newIDs (sv_dpi s) with
          | (None, ws) => (Ok "", s <| sv_dpi := ws |>)
          | (Some new, ws) => (Ok (join_csv new), s <| sv_dpi := ws |>)
          end
    end.

(** ** Smart Access outbounds *)

(** Revoked with every flow closed. *)
Definition shut_down (w : SaOutbound.world) : Prop :=
  SaOutbound.revoked (SaOutbound.ob w) = true ∧ SaOutbound.terminateActive (SaOutbound.ob w) = true ∧
  ∀ f fl, SaOutbound.heap w !! f = Some fl → SaOutbound.fclosed fl = true.

Lemma revoke_shut w : SaOutbound.Inv w → SaOutbound.Inv (SaOutbound.Revoke true w) ∧ shut_down (SaOutbound.Revoke true w).
Proof.
  intros I. unfold SaOutbound.Revoke. pose proof (keeps_Revoke_section true w I) as [I1 _].
  destruct (SaOutbound.Revoke_section true w) as [fs w1] eqn:E. cbn [snd] in I1. injection E as Efs Ew.
  assert (Hfs : ∀ f, f ∈ fs ↔ f ∈ SaOutbound.flows (SaOutbound.ob w)).
  { intros f. rewrite <- Efs, list_elem_of_In, filter_In, <- list_elem_of_In, elem_of_elements. tauto. }
  assert (Hh : SaOutbound.heap w1 = SaOutbound.heap w) by (by rewrite <- Ew).
  destruct (keeps_close_flows fs w1 I1) as [I2 L2]. split; [done|]. split; [|split].
  - rewrite close_flows_ob, <- Ew. done.
  - rewrite close_flows_ob, <- Ew. done.
  - intros f fl Hf. destruct (decide (f ∈ fs)) as [Hin|Hn].
    + destruct (SaOutbound.inv_dom w I f (proj1 (Hfs f) Hin)) as [fl0 Hfl0]. rewrite <- Hh in Hfl0.
      destruct (close_flows_in fs w1 f fl0 Hfl0 Hin) as (fl' & Hf' & Hc & _). congruence.
    + destruct (close_flows_not_in fs w1 f Hn) as [E' _]. rewrite E', Hh in Hf.
      destruct (SaOutbound.fclosed fl) eqn:Ec; [done|]. destruct Hn. apply Hfs. by eapply (SaOutbound.inv_open w I).
Qed.

Lemma revoked_refuses w w' now :
  SaOutbound.Inv w → SaOutbound.revoked (SaOutbound.ob w) = true → rtc SaOutbound.step w w' →
  (SaOutbound.AdmitsNewFlows now w').1 = false.
Proof.
  intros I Hr R. destruct (keeps_steps _ _ R I) as [I' L]. unfold SaOutbound.AdmitsNewFlows, SaOutbound.admitsLocked.
  destruct (SaOutbound.inv_cur w' I') as (l & Hl & _). eapply admits_barred; [done|].
  right. left. destruct (SaOutbound.le_ob _ _ L) as (_ & _ & _ & _ & _ & _ & _ & H & _). by apply H.
Qed.

Definition smart_ok (x : sys) : Prop := ∀ k w, souts x !! k = Some w → SaOutbound.Inv w.

(** A revocation in the shared state: the outbound is shut down, the others and
    the rules are untouched. *)
Lemma on_revoke k x :
  smart_ok x →
  let x' := (on_outbound k tt (λ w, (tt, SaOutbound.Revoke true w)) x).2 in
  smart_ok x' ∧ rules x' = rules x ∧
  ∀ j w, souts x !! j = Some w → ∃ w', souts x' !! j = Some w' ∧ (shut_down w ∨ j = k → shut_down w').
Proof.
  intros I. cbv zeta. unfold on_outbound. destruct (souts x !! k) as [w0|] eqn:E; simpl.
  - destruct (revoke_shut w0 (I k w0 E)) as [I0 S0]. split_and!; [|done|].
    + intros j w. simpl. case_key k j; [by intros [= <-]|]. apply I.
    + intros j w Hj. simpl. case_key k j; [|exists w; naive_solver]. eauto.
  - split_and!; [done|done|]. intros j w Hj. exists w. split; [done|]. intros [?|Hk]; [done|congruence].
Qed.

Lemma revoke_smart_spec os x :
  smart_ok x →
  let x' := (revoke_smart os x).2 in
  smart_ok x' ∧ rules x' = rules x ∧
  ∀ j w, souts x !! j = Some w → ∃ w', souts x' !! j = Some w' ∧
    (shut_down w ∨ (∃ tag, (tag, RSmart j) ∈ os) → shut_down w').
Proof.
  cbv zeta. revert x. induction os as [|[tag r] os IH]; intros x I; simpl.
  { split_and!; [done|done|]. intros j w Hj. exists w. split; [done|]. intros [?|[t H]]; [done|by apply elem_of_nil in H]. }
  destruct r as [k|k|k|]; [|destruct (IH x I) as (H1 & H2 & H3); split_and!; [done|done|];
    intros j w Hj; destruct (H3 j w Hj) as (w' & Hw' & Hs); exists w'; (split; [done|]);
    intros [?|[t Ht]]; [apply Hs; by left|];
    apply elem_of_cons in Ht as [?|?]; [done|apply Hs; right; by eauto]..].
  destruct (on_revoke k x I) as (J1 & J2 & J3). set (x1 := (on_outbound _ _ _ _).2) in *.
  destruct (IH x1 J1) as (H1 & H2 & H3). destruct (revoke_smart os x1) as [b x2]. cbn [snd] in *.
  split_and!; [done|congruence|]. intros j w Hj. destruct (J3 j w Hj) as (w1 & Hw1 & Hs1).
  destruct (H3 j w1 Hw1) as (w2 & Hw2 & Hs2). exists w2. split; [done|].
  intros [?|[t Ht]]; [apply Hs2; left; auto|]. apply elem_of_cons in Ht as [Ht|Ht]; apply Hs2; [|right; by eauto].
  left. apply Hs1. right. congruence.
Qed.

(** ** Telegram outbounds *)

Definition telegram_ok (tg : gmap nat TelegramWs.world) : Prop := ∀ k w, tg !! k = Some w → TelegramWs.Inv w.

Lemma withdraw_withdrawn w :
  TelegramWs.Inv w →
  let w' := (TelegramWs.WithdrawAdmission (TelegramWs.admissionID (TelegramWs.ob w)) w).2 in
  TelegramWs.Inv w' ∧ TelegramWs.withdrawn (TelegramWs.ob w') = true.
Proof.
  intros I. cbv zeta. destruct (tg_withdraw_admission (TelegramWs.admissionID (TelegramWs.ob w)) w I) as [I' L].
  split; [done|]. clear I' L. unfold TelegramWs.WithdrawAdmission. rewrite bool_decide_eq_true_2 by done. cbn [negb].
  pose proof (tg_deny w I) as [I1 _]. unfold TelegramWs.denyLocked in *.
  destruct (TelegramWs.withdrawn (TelegramWs.ob w)) eqn:E; [done|]. cbn [snd] in *.
  match goal with |- context [TelegramWs.cleanup ?fs ?x] => destruct (tg_cleanup fs x I1) as [_ L]; by apply (TelegramWs.le_withdrawn _ _ L) end.
Qed.

Lemma withdraw_telegram_spec p os tg :
  telegram_ok tg →
  let tg' := (withdraw_telegram p os tg).2 in
  telegram_ok tg' ∧
  ∀ j w, tg !! j = Some w → ∃ w', tg' !! j = Some w' ∧
    (TelegramWs.withdrawn (TelegramWs.ob w) = true ∨ (p (tg_ServiceID w) = true ∧ ∃ tag, (tag, RTelegram j) ∈ os) →
       TelegramWs.withdrawn (TelegramWs.ob w') = true) ∧
    (p (tg_ServiceID w) = false → w' = w).
Proof.
  cbv zeta. revert tg. induction os as [|[tag r] os IH]; intros tg I.
  { split; [done|]. intros j w Hj. exists w. split_and!; [done| |done].
    intros [?|[_ [t H]]]; [done|by apply elem_of_nil in H]. }
  assert (Hskip : (∀ j w, r = RTelegram j → tg !! j = Some w → p (tg_ServiceID w) = true → False) →
    withdraw_telegram p ((tag, r) :: os) tg = withdraw_telegram p os tg →
    telegram_ok (withdraw_telegram p ((tag, r) :: os) tg).2 ∧
    ∀ j w, tg !! j = Some w → ∃ w', (withdraw_telegram p ((tag, r) :: os) tg).2 !! j = Some w' ∧
    (TelegramWs.withdrawn (TelegramWs.ob w) = true ∨ (p (tg_ServiceID w) = true ∧ ∃ tag', (tag', RTelegram j) ∈ (tag, r) :: os) →
       TelegramWs.withdrawn (TelegramWs.ob w') = true) ∧ (p (tg_ServiceID w) = false → w' = w)).
  { intros Hr ->. destruct (IH tg I) as [H1 H2]. split; [done|]. intros j w Hj. destruct (H2 j w Hj) as (w' & Hw' & A & B).
    exists w'. split_and!; [done| |done]. intros [?|[Hp [t Ht]]]; [apply A; by left|].
    apply elem_of_cons in Ht as [[= _ <-]|Ht]; [by destruct (Hr j w)|apply A; right; by eauto]. }
  destruct r as [k|k|k|]; try (apply Hskip; [by intros|done]). simpl in *.
  destruct (tg !! k) as [w0|] eqn:E; [|apply Hskip; [intros j w [= <-]; congruence|done]].
  destruct (p (tg_ServiceID w0)) eqn:Ep; [|apply Hskip; [intros j w [= <-]; congruence|done]]. clear Hskip.
  destruct (withdraw_withdrawn w0 (I k w0 E)) as [I0 W0].
  destruct (TelegramWs.WithdrawAdmission _ w0) as [b w1]. cbn [snd] in *.
  assert (I1 : telegram_ok (<[k:=w1]> tg)) by (intros j w; case_key k j; [by intros [= <-]|apply I]).
  destruct (IH _ I1) as [H1 H2]. destruct (withdraw_telegram p os (<[k:=w1]> tg)) as [f tg']. cbn [snd] in *.
  split; [done|]. intros j w Hj. destruct (decide (k = j)) as [<-|Hne].
  - destruct (H2 k w1 ltac:(by rewrite lookup_insert_eq)) as (w' & Hw' & A & _). exists w'.
    split_and!; [done|intros _; apply A; by left|intros; congruence].
  - destruct (H2 j w ltac:(by rewrite lookup_insert_ne)) as (w' & Hw' & A & B). exists w'. split_and!; [done| |done].
    intros [?|[Hp [t Ht]]]; [apply A; by left|]. apply elem_of_cons in Ht as [[= _ ->]|Ht]; [done|apply A; right; by eauto].
Qed.

(** ** Rules *)

Lemma revoke_rules_spec now l x :
  let x' := (revoke_rules (λ i, rule_RevokeRoutingCatalog i now) l x).2 in
  sys_le x x' ∧ souts x' = souts x ∧
  (∀ i w, i ∈ l → window_of i x = Some w → latched i x') ∧
  (∀ i, window_of i x = None → rules x' !! i = rules x !! i).
Proof.
  cbv zeta. revert x. induction l as [|i l IH]; intros x; simpl.
  { split_and!; [done|done| |done]. intros i w H. by apply elem_of_nil in H. }
  assert (Hstep : let x1 := (rule_RevokeRoutingCatalog i now x).2 in
    sys_le x x1 ∧ souts x1 = souts x ∧ (∀ w, window_of i x = Some w → latched i x1) ∧
    (∀ j, window_of j x = None → rules x1 !! j = rules x !! j)).
  { cbv zeta. unfold rule_RevokeRoutingCatalog. destruct (window_of i x) as [w|] eqn:E; [|by split_and!]. cbn [snd].
    split_and!; [apply closeProbe_le|apply closeProbe_outs| |].
    - intros w' _. by eapply closeProbe_latched.
    - intros j Hj. apply closeProbe_others. intros ->. congruence. }
  cbv zeta in Hstep. destruct (rule_RevokeRoutingCatalog i now x) as [b x1]. cbn [snd] in *.
  destruct Hstep as (A1 & A2 & A3 & A4), (IH x1) as (B1 & B2 & B3 & B4).
  destruct (revoke_rules _ l x1) as [f x2]. cbn [snd] in *. split_and!; [by etrans|congruence| |].
  - intros j w Hj Hw. apply elem_of_cons in Hj as [->|Hj].
    + eapply latched_le; [exact B1|]. by eapply A3.
    + destruct (window_of_le _ _ _ _ A1 Hw) as (w' & Hw' & _). by eapply B3.
  - intros j Hj. assert (E : rules x1 !! j = rules x !! j) by auto. rewrite B4; [done|].
    unfold window_of in *. by rewrite E.
Qed.

(** C3: Withdrawing the whole catalog reaches every component at once.  When the
    call returns, every rule with a catalog window is out for good, whatever
    the clock or the other goroutines do; every Smart Access outbound is
    revoked with all its flows closed and admits no flow again; every Telegram
    outbound is withdrawn; rules without a window and the local DPI holders
    are exactly as before. *)
Theorem catalog_withdrawal now s res s' :
  smart_ok (sv_sys s) → telegram_ok (sv_tg s) → RevokeRoutingCatalog now s = (Ok res, s') →
  (∀ i w, i ∈ sv_dns_rules s ++ sv_route_rules s → window_of i (sv_sys s) = Some w →
     ∀ x c m, rtc sstep (sv_sys s') x → env_ok c → (Match c i m x).1.1 = false) ∧
  (∀ i, window_of i (sv_sys s) = None → rules (sv_sys s') !! i = rules (sv_sys s) !! i) ∧
  (∀ tag k w, (tag, RSmart k) ∈ sv_outbounds s → souts (sv_sys s) !! k = Some w →
     ∃ w', souts (sv_sys s') !! k = Some w' ∧ shut_down w' ∧
       ∀ w'' t, rtc SaOutbound.step w' w'' → (SaOutbound.AdmitsNewFlows t w'').1 = false) ∧
  (∀ tag k w, (tag, RTelegram k) ∈ sv_outbounds s → sv_tg s !! k = Some w →
     ∃ w', sv_tg s' !! k = Some w' ∧ TelegramWs.withdrawn (TelegramWs.ob w') = true) ∧
  sv_dpi s' = sv_dpi s.
Proof.
  intros Is It H. unfold RevokeRoutingCatalog in H. destruct (running s); [|done]. cbn [negb] in H.
  destruct (withdraw_telegram_spec (λ _, true) (sv_outbounds s) (sv_tg s) It) as [_ T].
  destruct (withdraw_telegram _ _ _) as [found tg]. cbn [snd] in T.
  unfold Box_RevokeRoutingCatalog in H. cbn in H.
  destruct (revoke_rules_spec now (sv_dns_rules s) (sv_sys s)) as (A1 & A2 & A3 & A4).
  destruct (revoke_rules _ (sv_dns_rules s) _) as [f1 x1]. cbn [snd] in *.
  destruct (revoke_rules_spec now (sv_route_rules s) x1) as (B1 & B2 & B3 & B4).
  destruct (revoke_rules _ (sv_route_rules s) _) as [f2 x2]. cbn in H. cbn [snd] in *.
  assert (I2 : smart_ok x2) by (unfold smart_ok; rewrite B2, A2; exact Is).
  destruct (revoke_smart_spec (sv_outbounds s) x2 I2) as (C1 & C2 & C3).
  destruct (revoke_smart (sv_outbounds s) x2) as [f3 x3]. injection H as _ <-. cbn [snd sv_sys sv_tg sv_dpi] in *. simpl.
  assert (L3 : sys_le x2 x3) by (by apply sys_le_rules). split_and!.
  - intros i w Hi Hw x c m R Hc. assert (L : latched i x).
    { eapply latched_le; [by apply ssteps_le, R|]. eapply latched_le; [exact L3|].
      apply elem_of_app in Hi as [Hi|Hi].
      - eapply latched_le; [exact B1|]. by eapply A3.
      - destruct (window_of_le _ _ _ _ A1 Hw) as (w' & Hw' & _). by eapply B3. }
    destruct (latched_rule i x L) as [r Hr]. by eapply latched_refuses.
  - intros i Hi. assert (E : rules x1 !! i = rules (sv_sys s) !! i) by auto. rewrite C2, B4; [done|].
    unfold window_of in *. by rewrite E.
  - intros tag k w Hk Hw. rewrite <- A2, <- B2 in Hw. destruct (C3 k w Hw) as (w' & Hw' & Hs). exists w'.
    assert (S : shut_down w') by (apply Hs; by eauto). split_and!; [done|done|]. intros w'' t R.
    eapply revoked_refuses; [by eapply C1|apply S|done].
  - intros tag k w Hk Hw. destruct (T k w Hw) as (w' & Hw' & A & _). exists w'. split; [done|]. apply A. by eauto.
  - done.
Qed.

(** ** One service *)

Lemma closeProbe_window i now x :
  window_of i (closeProbe i now x) = (λ w, w <| expired := true |> <| probeUnbind := None |>) <$> window_of i x.
Proof.
  destruct (window_of i x) as [w|] eqn:E; [|unfold closeProbe; by rewrite E]. cbn [fmap option_fmap option_map].
  assert (E1 : window_of i (set_window i (λ w, w <| expired := true |>) x) = Some (w <| expired := true |>)) by (by apply window_of_set).
  unfold closeProbe. rewrite E. destruct (probeUnbind w) as [[k m]|] eqn:Eu.
  - destruct (leaseGroup w) as [g|]; [|by rewrite (window_of_set _ _ _ _ E1)].
    erewrite window_of_set; [done|]. unfold window_of in *. by rewrite on_group_rules.
  - rewrite E1. f_equal. destruct w; simpl in *. by subst.
Qed.

(** What a window keeps when it is closed: its service and its lease. *)
Definition same_binding (w w' : catalogRuleWindow) : Prop := w_serviceID w' = w_serviceID w ∧ w_lease w' = w_lease w.

Definition of_service (svc : string) (w : catalogRuleWindow) : bool :=
  negb (bool_decide (w_serviceID w = "")) && bool_decide (w_serviceID w = svc).

Record service_revoked (svc : string) (l : list nat) (x x' : sys) : Prop := mkRevoked {
  sr_ok : smart_ok x';
  sr_window : ∀ i, match window_of i x with
                   | Some w => ∃ w', window_of i x' = Some w' ∧ same_binding w w' ∧ (expired w = true → expired w' = true) ∧
                       (of_service svc w = true → i ∈ l → expired w' = true)
                   | None => window_of i x' = None
                   end;
  sr_rules : ∀ i, (∀ w, window_of i x = Some w → of_service svc w = false) → rules x' !! i = rules x !! i;
  sr_shut : ∀ k o, souts x !! k = Some o → ∃ o', souts x' !! k = Some o' ∧
    (shut_down o ∨ (∃ i w, i ∈ l ∧ window_of i x = Some w ∧ of_service svc w = true ∧ w_lease w = Some k) → shut_down o');
  sr_outs : ∀ k, (∀ i w, window_of i x = Some w → of_service svc w = true → w_lease w ≠ Some k) →
    souts x' !! k = souts x !! k
}.

Lemma service_revoked_nil svc x : smart_ok x → service_revoked svc [] x x.
Proof.
  intros I. split; try done.
  - intros i. destruct (window_of i x) as [w|]; [|done]. exists w. split_and!; try done. intros _ H. by apply elem_of_nil in H.
  - intros k o Ho. exists o. split; [done|]. intros [?|(i & w & H & _)]; [done|by apply elem_of_nil in H].
Qed.

Lemma service_revoked_trans svc l k x1 x2 x3 :
  service_revoked svc l x1 x2 → service_revoked svc k x2 x3 → service_revoked svc (l ++ k) x1 x3.
Proof.
  intros [A1 A2 A3 A4 A5] [B1 B2 B3 B4 B5]. assert (Hof : ∀ w w', same_binding w w' → of_service svc w' = of_service svc w).
  { intros w w' [E _]. unfold of_service. by rewrite E. }
  split; [done|..].
  - intros i. specialize (A2 i). specialize (B2 i). destruct (window_of i x1) as [w|].
    + destruct A2 as (w1 & E1 & S1 & L1 & M1). rewrite E1 in B2. destruct B2 as (w2 & E2 & S2 & L2 & M2). exists w2.
      split_and!; [done|destruct S1, S2; split; congruence|auto|].
      intros Hw Hi. apply elem_of_app in Hi as [Hi|Hi]; [by auto|]. apply M2; [|done]. by rewrite (Hof _ _ S1).
    + by rewrite A2 in B2.
  - intros i Hi. rewrite B3; [by apply A3|]. intros w2 Hw2. specialize (A2 i). destruct (window_of i x1) as [w|].
    + destruct A2 as (w1 & E1 & S1 & _). rewrite Hw2 in E1. injection E1 as ->. rewrite (Hof _ _ S1). by apply Hi.
    + congruence.
  - intros o w Hw. destruct (A4 o w Hw) as (w1 & E1 & S1), (B4 o w1 E1) as (w2 & E2 & S2). exists w2. split; [done|].
    intros [Hs|(i & c & Hi & Hc & Hc1 & Hc2)]; [apply S2; left; auto|]. apply elem_of_app in Hi as [Hi|Hi].
    { apply S2. left. apply S1. right. eauto 10. }
    apply S2. right. specialize (A2 i). rewrite Hc in A2. destruct A2 as (c1 & E & S & _). exists i, c1.
    split_and!; [done|done|by rewrite (Hof _ _ S)|]. destruct S; congruence.
  - intros o Ho. rewrite B5, A5; [done|exact Ho|]. intros i w Hw Hs. specialize (A2 i). destruct (window_of i x1) as [c|] eqn:Ec.
    + destruct A2 as (w1 & E1 & S1 & _). rewrite Hw in E1. injection E1 as ->. destruct S1 as [S1 ->].
      apply (Ho i c Ec). rewrite <- Hs. unfold of_service. by rewrite S1.
    + congruence.
Qed.

Lemma service_revoked_one svc now i x :
  smart_ok x → service_revoked svc [i] x (rule_RevokeRoutingCatalogService svc i now x).2.
Proof.
  intros I. unfold rule_RevokeRoutingCatalogService. destruct (window_of i x) as [w|] eqn:E.
  2:{ split; try done; cbn [snd].
      - intros j. destruct (window_of j x) as [c|] eqn:Ec; [|done]. exists c. split_and!; try done.
        intros _ ->%list_elem_of_singleton. congruence.
      - intros k o Ho. exists o. split; [done|]. intros [?|(j & c & ->%list_elem_of_singleton & ? & _)]; [done|congruence]. }
  assert (Hof : of_service svc w = negb (bool_decide (w_serviceID w = "") || negb (bool_decide (w_serviceID w = svc)))).
  { unfold of_service. by rewrite negb_orb, negb_involutive. }
  destruct (_ || _); cbn [negb snd] in *.
  { split; try done.
    - intros j. destruct (window_of j x) as [c|] eqn:Ec; [|done]. exists c. split_and!; try done.
      intros Hc ->%list_elem_of_singleton. congruence.
    - intros k o Ho. exists o. split; [done|]. intros [?|(j & c & ->%list_elem_of_singleton & ? & ? & _)]; [done|congruence]. }
  pose proof (closeProbe_window i now x) as Hc. rewrite E in Hc. simpl in Hc.
  pose proof (closeProbe_outs i now x) as Ho. pose proof (closeProbe_others i now x) as Hoth.
  set (x1 := closeProbe i now x) in *. assert (I1 : smart_ok x1) by (unfold smart_ok; by rewrite Ho).
  set (x2 := match w_lease w with Some k => _ | None => x1 end).
  assert (G : smart_ok x2 ∧ rules x2 = rules x1 ∧
    (∀ k o, souts x1 !! k = Some o → ∃ o', souts x2 !! k = Some o' ∧ (shut_down o ∨ w_lease w = Some k → shut_down o')) ∧
    (∀ k, w_lease w ≠ Some k → souts x2 !! k = souts x1 !! k)).
  { unfold x2. destruct (w_lease w) as [l|]; [|split_and!; [done|done|intros k o ?; exists o; naive_solver|done]].
    destruct (on_revoke l x1 I1) as (J1 & J2 & J3). split_and!; [done|done| |].
    - intros k o Hk. destruct (J3 k o Hk) as (o' & Ho' & Hs). exists o'. split; [done|]. intros [?|[= ->]]; auto.
    - intros k Hk. unfold on_outbound. destruct (souts x1 !! l); [|done]. simpl. rewrite lookup_insert_ne; [done|congruence]. }
  destruct G as (G1 & G2 & G3 & G4). assert (Hw2 : ∀ j, window_of j x2 = window_of j x1) by (intros j; unfold window_of; by rewrite G2).
  split.
  - done.
  - intros j. rewrite Hw2. destruct (decide (j = i)) as [->|Hj].
    + rewrite E, Hc. eexists. by split_and!.
    + assert (Ej : window_of j x1 = window_of j x) by (unfold window_of; by rewrite Hoth).
      rewrite Ej. destruct (window_of j x) as [c|]; [|done]. exists c. split_and!; try done. by intros _ ->%list_elem_of_singleton.
  - intros j Hj. rewrite G2. apply Hoth. intros ->. specialize (Hj w E). congruence.
  - intros k o Hk. rewrite <- Ho in Hk. destruct (G3 k o Hk) as (o' & Ho' & Hs). exists o'. split; [done|].
    intros [?|(j & c & ->%list_elem_of_singleton & Hjc & _ & Hl)]; apply Hs; [by left|right]. congruence.
  - intros k Hk. rewrite G4; [by rewrite Ho|]. by apply (Hk i w E).
Qed.

Lemma service_revoked_rules svc now l x :
  smart_ok x → service_revoked svc l x (revoke_rules (λ i, rule_RevokeRoutingCatalogService svc i now) l x).2.
Proof.
  revert x. induction l as [|i l IH]; intros x I; simpl; [by apply service_revoked_nil|].
  pose proof (service_revoked_one svc now i x I) as H1. destruct (rule_RevokeRoutingCatalogService svc i now x) as [b x1].
  pose proof (IH x1 (sr_ok _ _ _ _ H1)) as H2. destruct (revoke_rules _ l x1) as [f x2]. cbn [snd] in *.
  apply (service_revoked_trans svc [i] l x x1 x2 H1 H2).
Qed.

(** Withdrawing one service reaches exactly that service: the rules compiled
    for it are out for good and the leases they are bound to are shut down with
    all their flows, its Telegram outbounds are withdrawn; the rules of every
    other service, the leases no rule of the service is bound to, the other
    Telegram outbounds and the local DPI holders are exactly as before. *)
Theorem service_withdrawal svc now s res s' :
  smart_ok (sv_sys s) → telegram_ok (sv_tg s) → RevokeRoutingCatalogService svc now s = (Ok res, s') →
  (∀ i w, i ∈ sv_dns_rules s ++ sv_route_rules s → window_of i (sv_sys s) = Some w → w_serviceID w = svc →
     (∀ x c m, rtc sstep (sv_sys s') x → env_ok c → (Match c i m x).1.1 = false) ∧
     (∀ k o, w_lease w = Some k → souts (sv_sys s) !! k = Some o →
        ∃ o', souts (sv_sys s') !! k = Some o' ∧ shut_down o')) ∧
  (∀ tag k w, (tag, RTelegram k) ∈ sv_outbounds s → sv_tg s !! k = Some w → tg_ServiceID w = svc →
     ∃ w', sv_tg s' !! k = Some w' ∧ TelegramWs.withdrawn (TelegramWs.ob w') = true) ∧
  (∀ i, (∀ w, window_of i (sv_sys s) = Some w → w_serviceID w ≠ svc) → rules (sv_sys s') !! i = rules (sv_sys s) !! i) ∧
  (∀ k, (∀ i w, window_of i (sv_sys s) = Some w → w_serviceID w = svc → w_lease w ≠ Some k) →
     souts (sv_sys s') !! k = souts (sv_sys s) !! k) ∧
  (∀ k w, sv_tg s !! k = Some w → tg_ServiceID w ≠ svc → sv_tg s' !! k = Some w) ∧
  sv_dpi s' = sv_dpi s.
Proof.
  intros Is It H. unfold RevokeRoutingCatalogService in H. destruct (catalogServiceIDPattern svc) eqn:Ep; [|done].
  assert (Hne : svc ≠ "") by (intros ->; done). cbn [negb] in H. destruct (running s); [|done]. cbn [negb] in H.
  destruct (withdraw_telegram_spec (λ x, bool_decide (x = svc)) (sv_outbounds s) (sv_tg s) It) as [_ T].
  destruct (withdraw_telegram _ _ _) as [found tg]. cbn [snd] in T.
  unfold Box_RevokeRoutingCatalogService in H. cbn in H.
  pose proof (service_revoked_rules svc now (sv_dns_rules s) (sv_sys s) Is) as A.
  destruct (revoke_rules _ (sv_dns_rules s) _) as [f1 x1]. cbn [snd] in *.
  pose proof (service_revoked_rules svc now (sv_route_rules s) x1 (sr_ok _ _ _ _ A)) as B.
  destruct (revoke_rules _ (sv_route_rules s) _) as [f2 x2]. injection H as _ <-. cbn [snd sv_sys sv_tg sv_dpi] in *. simpl.
  destruct (service_revoked_trans _ _ _ _ _ _ A B) as [_ W R S O].
  assert (Hof : ∀ w, of_service svc w = bool_decide (w_serviceID w = svc)).
  { intros w. unfold of_service. destruct (bool_decide_reflect (w_serviceID w = svc)) as [->|]; [|by rewrite andb_false_r].
    by rewrite bool_decide_eq_false_2. }
  split_and!.
  - intros i w Hi Hw Hs. assert (Ho : of_service svc w = true) by (by rewrite Hof, bool_decide_eq_true_2).
    split.
    + intros x c m Rx Hc. specialize (W i). rewrite Hw in W. destruct W as (w' & Hw' & _ & _ & He).
      assert (L : latched i x) by (eapply latched_le; [by apply ssteps_le, Rx|]; exists w'; auto).
      destruct (latched_rule i x L) as [r Hr]. by eapply latched_refuses.
    + intros k o Hl Hk. destruct (S k o Hk) as (o' & Ho' & Hsd). exists o'. split; [done|]. apply Hsd. right. eauto 10.
  - intros tag k w Hk Hw Hs. destruct (T k w Hw) as (w' & Hw' & Hd & _). exists w'. split; [done|]. apply Hd. right.
    rewrite bool_decide_eq_true_2 by done. eauto.
  - intros i Hi. apply R. intros w Hw. rewrite Hof. by apply bool_decide_eq_false_2, Hi.
  - intros k Hk. apply O. intros i w Hw Hs. rewrite Hof in Hs. apply bool_decide_eq_true in Hs. by eapply Hk.
  - intros k w Hw Hs. destruct (T k w Hw) as (w' & Hw' & _ & Hd). rewrite Hd in Hw'; [done|]. by apply bool_decide_eq_false_2.
  - done.
Qed.

(** *** Examples: a running service with one rule, its lease and a Telegram outbound *)

Definition ex_service : service :=
  mkService false true true [("smart", RSmart 1); ("tg", RTelegram 0); ("direct", ROther)] [] [0%nat] ex_sys
    {[0%nat := TelegramWs.ex_written]} ∅.

Lemma ex_smart_ok : smart_ok (sv_sys ex_service).
Proof.
  assert (E : souts ex_sys = {[1%nat := SaOutbound.ex_world]}) by (vm_compute; reflexivity).
  intros k w Hk. change (souts ex_sys !! k = Some w) in Hk. rewrite E in Hk. apply lookup_singleton_Some in Hk as [_ <-].
  exact (sa_initial_inv _ _ _ _ _ SaOutbound.ex_world_new).
Qed.

Lemma ex_telegram_ok : telegram_ok (sv_tg ex_service).
Proof.
  intros k w Hk. change (({[0%nat := TelegramWs.ex_written]} : gmap nat TelegramWs.world) !! k = Some w) in Hk.
  apply lookup_singleton_Some in Hk as [_ <-].
  exact (proj1 (tg_steps _ _ TelegramWs.ex_written_steps (tg_initial _ _ _ _ _ _ _ _ TelegramWs.tg_ex_world_new))).
Qed.

Definition ex_withdrawn : service := (RevokeRoutingCatalog (SaOutbound.ex_now 5) ex_service).2.

Lemma catalog_withdrawal_witness :
  (Match (ex_match 6) 0 ex_md (sv_sys ex_withdrawn)).1.1 = false ∧
  ∃ w', souts (sv_sys ex_withdrawn) !! 1%nat = Some w' ∧ shut_down w'.
Proof.
  assert (E : (RevokeRoutingCatalog (SaOutbound.ex_now 5) ex_service).1 = Ok true) by (vm_compute; reflexivity).
  pose proof (surjective_pairing (RevokeRoutingCatalog (SaOutbound.ex_now 5) ex_service)) as P. rewrite E in P.
  destruct (catalog_withdrawal (SaOutbound.ex_now 5) ex_service true ex_withdrawn ex_smart_ok ex_telegram_ok P)
    as (H1 & _ & H3 & _ & _).
  split.
  - refine (H1 0%nat ex_started_window _ _ _ (ex_match 6) ex_md (rtc_refl _ _) (ex_env_ok 6)).
    + apply elem_of_app. right. apply list_elem_of_here.
    + vm_compute. reflexivity.
  - destruct (H3 "smart" 1%nat SaOutbound.ex_world ltac:(apply list_elem_of_here) ltac:(vm_compute; reflexivity)) as (w' & A & B & _).
    exists w'. split; assumption.
Defined.

Lemma service_withdrawal_witness :
  (∃ o', souts (sv_sys (RevokeRoutingCatalogService "video" (SaOutbound.ex_now 5) ex_service).2) !! 1%nat = Some o' ∧ shut_down o') ∧
  sv_tg (RevokeRoutingCatalogService "video" (SaOutbound.ex_now 5) ex_service).2 !! 0%nat = Some TelegramWs.ex_written.
Proof.
  assert (E : (RevokeRoutingCatalogService "video" (SaOutbound.ex_now 5) ex_service).1 = Ok true) by (vm_compute; reflexivity).
  pose proof (surjective_pairing (RevokeRoutingCatalogService "video" (SaOutbound.ex_now 5) ex_service)) as P. rewrite E in P.
  destruct (service_withdrawal "video" (SaOutbound.ex_now 5) ex_service true _ ex_smart_ok ex_telegram_ok P)
    as (H1 & _ & _ & _ & H5 & _).
  split.
  - refine (proj2 (H1 0%nat ex_started_window _ _ _) 1%nat SaOutbound.ex_world _ _); [apply elem_of_app; right; apply list_elem_of_here|..];
      vm_compute; reflexivity.
  - apply H5; [vm_compute; reflexivity|vm_compute; discriminate].
Defined.
