(* ===== verification/ControlWire.v ===== *)
(** * Wire format of the Smart Access control plane

    The strict JSON objects of [daemon/smart_access_runtime_control.go], and the
    lease identity of [daemon/smart_access_runtime_renewal.go] that the service,
    the restriction journal and the signed responses exchange.

    A [json.RawMessage] is the JSON value it holds: the code only ever decodes
    it again. *)

From stdpp Require Import base list strings gmap sorting.
From Stdlib Require Import ZArith Lia Ascii.
From S2P Require Import Prelude GoTime GoBytes GoJson SaClientHello AtsLease CatalogWindow.

Local Open Scope Z_scope.
Set Default Goal Selector "!".

(** ** Objects, digests and dates *)

(** Exactly the given members, each once. *)
Definition smartAccessControlObject (fields : list string) (raw : json) : option (list (string * json)) :=
  match raw with
  | JObj object =>
      if bool_decide (NoDup object.*1) && (length object =? length fields)%nat &&
         forallb (λ key, bool_decide (key ∈ object.*1)) fields
      then Some object else None
  | _ => None
  end.

(** [^[a-f0-9]{n}$] *)
Definition hex_string (n : nat) (s : string) : bool :=
  (String.length s =? n)%nat && forallb lease_hex (list_of_str s).
Definition smartAccessLeaseID (s : string) : bool := hex_string 32 s.
Definition smartAccessRuntimeDigest (s : string) : bool := hex_string 64 s.

(** The layout of [parse_utc], the year 0 included: its calendar is that of the
    year 400, 146097 days earlier. *)
Definition smartAccessControlTime (value : string) : option time :=
  match parse_utc value with
  | Some t => Some t
  | None =>
      match list_of_str value with
      | y1 :: y2 :: y3 :: y4 :: rest =>
          if bytes_eqb [y1; y2; y3; y4] (list_of_str "0000") then
            t ← parse_utc (str_of_list (list_of_str "0400" ++ rest));
            Some (mkTime (wall t - 146097 * 86400 * Second) None)
          else None
      | _ => None
      end
  end.
(** The time of a date the code does not test for an error: Go's zero time. *)
Definition control_time (value : string) : time := default zero_time (smartAccessControlTime value).

(** ** The identity of a lease *)

Record smartAccessRuntimeLeaseIdentity := mkIdentity {
  LeaseID : string; Platform : string; Audience : string; ServiceID : string; ProviderID : string;
  PermissionID : string; CapabilityID : string; ProviderPolicyRevision : Z; ProviderSecurityRevision : Z;
  ProviderPolicySHA256 : string; IssuedAt : string; NewFlowsUntil : string; ActiveFlowsUntil : string;
  ProfileSHA256 : string; RouteMode : string; RuntimeScopeSHA256 : string; Origin : string; Family : string;
  Feature : string; ProviderRevision : Z; PermissionRevision : Z; CatalogRevision : Z; CatalogSecurityRevision : Z }.
Abbreviation identity := smartAccessRuntimeLeaseIdentity.
#[export] Instance identity_eq : EqDecision identity.
Proof. solve_decision. Defined.

Definition identity_fields : list string :=
  ["lease_id"; "platform"; "audience"; "service_id"; "provider_id"; "permission_id"; "capability_id";
   "provider_policy_revision"; "provider_security_revision"; "provider_policy_sha256"; "issued_at"; "new_flows_until";
   "active_flows_until"; "profile_sha256"; "route_mode"; "runtime_scope_sha256"; "origin"; "family"; "feature";
   "provider_revision"; "permission_revision"; "catalog_revision"; "catalog_security_revision"].

(** The members as [json.Marshal] writes the struct. *)
Definition identity_members (l : identity) : list (string * json) :=
  [("lease_id", JStr (LeaseID l)); ("platform", JStr (Platform l)); ("audience", JStr (Audience l));
   ("service_id", JStr (ServiceID l)); ("provider_id", JStr (ProviderID l)); ("permission_id", JStr (PermissionID l));
   ("capability_id", JStr (CapabilityID l)); ("provider_policy_revision", JNum (show_int (ProviderPolicyRevision l)));
   ("provider_security_revision", JNum (show_int (ProviderSecurityRevision l)));
   ("provider_policy_sha256", JStr (ProviderPolicySHA256 l)); ("issued_at", JStr (IssuedAt l));
   ("new_flows_until", JStr (NewFlowsUntil l)); ("active_flows_until", JStr (ActiveFlowsUntil l));
   ("profile_sha256", JStr (ProfileSHA256 l)); ("route_mode", JStr (RouteMode l));
   ("runtime_scope_sha256", JStr (RuntimeScopeSHA256 l)); ("origin", JStr (Origin l)); ("family", JStr (Family l));
   ("feature", JStr (Feature l)); ("provider_revision", JNum (show_int (ProviderRevision l)));
   ("permission_revision", JNum (show_int (PermissionRevision l)));
   ("catalog_revision", JNum (show_int (CatalogRevision l)));
   ("catalog_security_revision", JNum (show_int (CatalogSecurityRevision l)))].
Definition identity_json (l : identity) : json := JObj (identity_members l).

(** [json.Unmarshal] into the struct, once the members are known to be exactly its fields. *)
Definition identity_unmarshal (o : list (string * json)) : option identity :=
  let str k := field k o ≫= un_string in
  let int k := field k o ≫= un_int64 in
  a1 ← str "lease_id"; a2 ← str "platform"; a3 ← str "audience"; a4 ← str "service_id"; a5 ← str "provider_id";
  a6 ← str "permission_id"; a7 ← str "capability_id"; a8 ← int "provider_policy_revision";
  a9 ← int "provider_security_revision"; a10 ← str "provider_policy_sha256"; a11 ← str "issued_at";
  a12 ← str "new_flows_until"; a13 ← str "active_flows_until"; a14 ← str "profile_sha256"; a15 ← str "route_mode";
  a16 ← str "runtime_scope_sha256"; a17 ← str "origin"; a18 ← str "family"; a19 ← str "feature";
  a20 ← int "provider_revision"; a21 ← int "permission_revision"; a22 ← int "catalog_revision";
  a23 ← int "catalog_security_revision";
  Some (mkIdentity a1 a2 a3 a4 a5 a6 a7 a8 a9 a10 a11 a12 a13 a14 a15 a16 a17 a18 a19 a20 a21 a22 a23).

Definition one_of (l : list string) (s : string) : bool := bool_decide (s ∈ l).

(** The tests on the decoded identity. *)
Definition identity_valid (l : identity) : bool :=
  smartAccessLeaseID (LeaseID l) && one_of ["selective"; "smart_safe"] (RouteMode l) &&
  one_of ["android"; "windows"] (Platform l) && one_of ["lab"; "production"] (Audience l) &&
  one_of ["ipv4"; "ipv6"] (Family l) &&
  one_of ["current-origin"; "brain-origin"; "RU-origin"; "synthetic"] (Origin l) &&
  one_of ["web_request"; "login"; "streaming"; "websocket"; "store"; "gameplay"; "cloud_gaming"] (Feature l) &&
  forallb catalogServiceIDPattern [ServiceID l; ProviderID l; PermissionID l; CapabilityID l] &&
  forallb smartAccessRuntimeDigest [ProviderPolicySHA256 l; ProfileSHA256 l; RuntimeScopeSHA256 l] &&
  forallb (λ r, negb (r <? 1) && negb (9007199254740991 <? r))
    [ProviderPolicyRevision l; ProviderSecurityRevision l; ProviderRevision l; PermissionRevision l; CatalogRevision l;
     CatalogSecurityRevision l] &&
  match smartAccessControlTime (IssuedAt l), smartAccessControlTime (NewFlowsUntil l),
        smartAccessControlTime (ActiveFlowsUntil l) with
  | Some issued, Some newUntil, Some activeUntil =>
      negb (wall issued <? 0) && Before issued newUntil && negb (Before activeUntil newUntil) &&
      (Sub newUntil issued <=? 10 * Minute) && (Sub activeUntil issued <=? Hour)
  | _, _, _ => false
  end.

Definition parseSmartAccessRuntimeLeaseIdentity (raw : json) : option identity :=
  o ← smartAccessControlObject identity_fields raw;
  l ← identity_unmarshal o;
  if identity_valid l then Some l else None.

Definition follows (l p : identity) : bool :=
  bool_decide (Platform l = Platform p) && bool_decide (Audience l = Audience p) && bool_decide (ServiceID l = ServiceID p) &&
  bool_decide (ProviderID l = ProviderID p) && bool_decide (PermissionID l = PermissionID p) &&
  bool_decide (CapabilityID l = CapabilityID p) && bool_decide (ProfileSHA256 l = ProfileSHA256 p) &&
  bool_decide (RouteMode l = RouteMode p) && bool_decide (RuntimeScopeSHA256 l = RuntimeScopeSHA256 p) &&
  bool_decide (Origin l = Origin p) && bool_decide (Family l = Family p) && bool_decide (Feature l = Feature p) &&
  (ProviderRevision p <=? ProviderRevision l) && (PermissionRevision p <=? PermissionRevision l) &&
  (ProviderPolicyRevision p <=? ProviderPolicyRevision l) && (ProviderSecurityRevision p <=? ProviderSecurityRevision l) &&
  (CatalogRevision p <=? CatalogRevision l) && (CatalogSecurityRevision p <=? CatalogSecurityRevision l).

(** [json.Marshal] of a map: members in the order of their keys. *)
Definition key_le (a b : string * json) : Prop := String.leb a.1 b.1 = true.
#[export] Instance key_le_dec a b : Decision (key_le a b) := decide (String.leb a.1 b.1 = true).
Definition canonicalObject (l : identity) : json := JObj (merge_sort key_le (identity_members l)).

(** ** Printable text *)

Lemma plain_hex n s : hex_string n s = true → plain_string s = true.
Proof.
  unfold hex_string, plain_string. intros [_ H]%andb_true_iff. rewrite forallb_forall in H |- *. intros c Hc%H.
  unfold lease_hex in Hc. rewrite orb_true_iff, !andb_true_iff, !N.leb_le in Hc. unfold plain_char, byte_val. lia.
Qed.

Lemma plain_service s : catalogServiceIDPattern s = true → plain_string s = true.
Proof.
  unfold catalogServiceIDPattern, plain_string. destruct (list_of_str s) as [|c r]; [done|].
  intros [[Hc _]%andb_true_iff Hr]%andb_true_iff. cbn [forallb]. apply andb_true_iff. split.
  - unfold is_alnum in Hc. unfold plain_char. lia.
  - rewrite forallb_forall in Hr |- *. intros x Hx%Hr. unfold is_alnum in Hx. unfold plain_char. lia.
Qed.

Lemma plain_one_of l s : forallb plain_string l = true → one_of l s = true → plain_string s = true.
Proof. intros H Hs%bool_decide_eq_true%list_elem_of_In. rewrite forallb_forall in H. by apply H. Qed.

Lemma plain_digit c d : digit_val c = Some d → plain_char c = true.
Proof. intros [<- Hd]%digit_char_val. assert (d = 0 ∨ d = 1 ∨ d = 2 ∨ d = 3 ∨ d = 4 ∨ d = 5 ∨ d = 6 ∨ d = 7 ∨ d = 8 ∨ d = 9) as H by lia.
  by repeat destruct H as [->|H]; subst. Qed.
Lemma plain_val2 a b n : val2 a b = Some n → plain_char a = true ∧ plain_char b = true.
Proof.
  unfold val2. destruct (digit_val a) eqn:Ea; [|done]. cbn. destruct (digit_val b) eqn:Eb; [|done].
  intros _. eauto using plain_digit.
Qed.

Lemma plain_utc v t : parse_utc v = Some t → plain_string v = true.
Proof.
  unfold parse_utc, plain_string.
  destruct (list_of_str v) as [|y1 [|y2 [|y3 [|y4 [|c1 [|m1 [|m2 [|c2 [|d1 [|d2 [|c3 [|h1 [|h2 [|c4 [|i1 [|i2 [|c5 [|s1 [|s2 [|c6 [|]]]]]]]]]]]]]]]]]]]]];
    try done.
  unfold val4. intros H.
  repeat match type of H with context [val2 ?a ?b] => destruct (val2 a b) eqn:?; cbn [mbind option_bind] in H; [|done] end.
  case_hyp H; [|done].
  repeat match goal with H : val2 _ _ = Some _ |- _ => apply plain_val2 in H as [? ?] end.
  bsplit. repeat match goal with H : Ascii.eqb _ _ = true |- _ => apply Ascii.eqb_eq in H as -> end.
  cbn [forallb]. repeat match goal with H : plain_char _ = true |- _ => rewrite H; clear H end. done.
Qed.

(** ** Dates *)

Lemma civil_before y m d hh mi ss :
  1 ≤ m ≤ 12 → 1 ≤ d ≤ days_in_month y m → hh < 24 → mi < 60 → ss < 60 →
  civil_wall y m d hh mi ss < days_before_year (y + 1) * 86400 * Second.
Proof.
  intros Hm Hd ? ? ?. pose proof (days_before_month_end y m Hm). pose proof (dby_succ y).
  unfold civil_wall, days_of_date, Second, Millisecond. destruct (is_leap y); lia.
Qed.

Lemma year_400_bound rest t :
  parse_utc (str_of_list (list_of_str "0400" ++ rest)) = Some t → wall t < 146097 * 86400 * Second.
Proof.
  unfold parse_utc. rewrite list_str. cbn [app list_of_str String.list_ascii_of_string].
  destruct rest as [|c1 [|m1 [|m2 [|c2 [|d1 [|d2 [|c3 [|h1 [|h2 [|c4 [|i1 [|i2 [|c5 [|s1 [|s2 [|c6 [|]]]]]]]]]]]]]]]]]; try done.
  intros H. change (val4 "0" "4" "0" "0") with (Some 400) in H. cbn [mbind option_bind] in H.
  repeat match type of H with context [val2 ?a ?b] => destruct (val2 a b) eqn:?; cbn [mbind option_bind] in H; [|done] end.
  case_hyp H; [|done]. injection H as <-. cbn [wall]. change 146097 with (days_before_year (400 + 1)).
  apply civil_before; lia.
Qed.

Lemma control_mono v t : smartAccessControlTime v = Some t → mono t = None.
Proof.
  unfold smartAccessControlTime. destruct (parse_utc v) as [u|] eqn:E; [intros [= <-]; by apply format_parse_utc in E as [_ ?]|].
  destruct (list_of_str v) as [|? [|? [|? [|? r]]]]; try done. case_match; [|done].
  destruct (parse_utc (str_of_list _)); [|done]. by intros [= <-].
Qed.

Lemma control_utc v t : smartAccessControlTime v = Some t → 0 ≤ wall t → parse_utc v = Some t.
Proof.
  unfold smartAccessControlTime. destruct (parse_utc v) as [u|] eqn:E; [done|]. intros H Hw. exfalso.
  destruct (list_of_str v) as [|? [|? [|? [|? r]]]]; try done. case_match; [|done].
  destruct (parse_utc (str_of_list _)) as [u|] eqn:Eu; [|done]. injection H as <-. apply year_400_bound in Eu.
  cbn [wall] in Hw. lia.
Qed.

Lemma utc_control v t : parse_utc v = Some t → smartAccessControlTime v = Some t.
Proof. unfold smartAccessControlTime. by intros ->. Qed.

(** The three dates of a valid identity. *)
Lemma identity_dates l : identity_valid l = true → ∃ issued newUntil activeUntil,
  parse_utc (IssuedAt l) = Some issued ∧ parse_utc (NewFlowsUntil l) = Some newUntil ∧
  parse_utc (ActiveFlowsUntil l) = Some activeUntil ∧ 0 ≤ wall issued < wall newUntil ∧
  wall newUntil ≤ wall activeUntil ∧ wall newUntil ≤ wall issued + 10 * Minute ∧ wall activeUntil ≤ wall issued + Hour.
Proof.
  intros [_ H]%andb_true_iff.
  destruct (smartAccessControlTime (IssuedAt l)) as [i|] eqn:Ei; [|done].
  destruct (smartAccessControlTime (NewFlowsUntil l)) as [n|] eqn:En; [|done].
  destruct (smartAccessControlTime (ActiveFlowsUntil l)) as [a|] eqn:Ea; [|done].
  pose proof (control_mono _ _ Ei) as Mi. pose proof (control_mono _ _ En) as Mn. pose proof (control_mono _ _ Ea) as Ma.
  rewrite !before_wall, !sub_wall in H by done. unfold sat64, int64_max, int64_min, Minute, Hour, Second, Millisecond in *.
  bsplit. exists i, n, a.
  split_and!; try (apply control_utc; [done|]); unfold Minute, Second, Millisecond in *; lia.
Qed.

(** ** The identity survives its encoding *)

Lemma revision_number r : (r <? 1) = false → (9007199254740991 <? r) = false →
  parse_int (show_int r) = Some r ∧ plain_number (show_int r) = true.
Proof. intros. apply show_int_spec. unfold int64_max. lia. Qed.

Lemma identity_plain l : identity_valid l = true → plain (identity_json l) = true.
Proof.
  intros H. destruct (identity_dates l H) as (? & ? & ? & ?%plain_utc & ?%plain_utc & ?%plain_utc & _).
  unfold identity_valid in H. cbn [forallb] in H. bsplit.
  repeat match goal with
  | H : smartAccessLeaseID _ = true |- _ => apply plain_hex in H
  | H : smartAccessRuntimeDigest _ = true |- _ => apply plain_hex in H
  | H : catalogServiceIDPattern _ = true |- _ => apply plain_service in H
  | H : one_of _ _ = true |- _ => apply plain_one_of in H; [|by vm_compute]
  end.
  unfold identity_json, identity_members. cbn [plain forallb fst snd].
  repeat match goal with H : plain_string _ = true |- _ => rewrite H; clear H end.
  repeat match goal with
  | H1 : (?r <? 1) = false, H2 : (_ <? ?r) = false |- _ => rewrite (proj2 (revision_number r H1 H2)); clear H1
  end.
  by vm_compute.
Qed.

Lemma identity_roundtrip l : identity_valid l = true → parseSmartAccessRuntimeLeaseIdentity (identity_json l) = Some l.
Proof.
  intros H. unfold parseSmartAccessRuntimeLeaseIdentity.
  assert (smartAccessControlObject identity_fields (identity_json l) = Some (identity_members l)) as ->.
  { unfold smartAccessControlObject, identity_json.
    change ((identity_members l).*1) with identity_fields. rewrite bool_true_if; [done|].
    change (length (identity_members l)) with 23%nat. by vm_compute. }
  cbn [mbind option_bind].
  assert (identity_unmarshal (identity_members l) = Some l) as ->; [|by cbn [mbind option_bind]; rewrite H].
  unfold identity_valid in H. cbn [forallb] in H. bsplit.
  unfold identity_unmarshal, identity_members. cbv [field String.eqb Ascii.eqb Bool.eqb].
  cbn [mbind option_bind un_string un_int64].
  repeat match goal with
  | H1 : (?r <? 1) = false, H2 : (_ <? ?r) = false |- _ =>
      rewrite (proj1 (revision_number r H1 H2)); clear H1; cbn [mbind option_bind]
  end.
  by destruct l.
Qed.

(** ** Sizes *)

Lemma slen_length s : slen s = String.length s.
Proof. unfold slen. induction s; cbn; auto. Qed.

Lemma hex_len n s : hex_string n s = true → slen s = n.
Proof. unfold hex_string. rewrite slen_length. intros [H%Nat.eqb_eq _]%andb_true_iff. done. Qed.

Lemma service_len s : catalogServiceIDPattern s = true → (slen s ≤ 64)%nat.
Proof.
  unfold catalogServiceIDPattern, slen. destruct (list_of_str s) as [|c r]; [done|].
  intros [[_ H%Nat.leb_le]%andb_true_iff _]%andb_true_iff. cbn [length]. lia.
Qed.

Lemma one_of_len k l s : forallb (λ x, slen x <=? k)%nat l = true → one_of l s = true → (slen s ≤ k)%nat.
Proof. intros H Hs%bool_decide_eq_true%list_elem_of_In. rewrite forallb_forall in H. apply Nat.leb_le, H, Hs. Qed.

Lemma utc_len v t : parse_utc v = Some t → slen v = 20%nat.
Proof.
  unfold parse_utc, slen.
  by destruct (list_of_str v) as [|y1 [|y2 [|y3 [|y4 [|c1 [|m1 [|m2 [|c2 [|d1 [|d2 [|c3 [|h1 [|h2 [|c4 [|i1 [|i2 [|c5 [|s1 [|s2 [|c6 [|]]]]]]]]]]]]]]]]]]]]].
Qed.

Lemma revision_len r : (r <? 1) = false → (9007199254740991 <? r) = false → (slen (show_int r) ≤ 16)%nat.
Proof.
  intros H1 H2. unfold slen, show_int. rewrite list_str, bool_false_if by lia.
  pose proof (show_digits_length 20 r [] 16 ltac:(change (Z.of_nat 16) with 16; lia) ltac:(lia)) as H. cbn [length] in H. lia.
Qed.

Lemma identity_length l : identity_valid l = true → (sum_list_with member_length (identity_members l) ≤ 1200)%nat.
Proof.
  intros H. destruct (identity_dates l H) as (? & ? & ? & T1 & T2 & T3 & _).
  pose proof (plain_utc _ _ T1). pose proof (plain_utc _ _ T2). pose proof (plain_utc _ _ T3).
  apply utc_len in T1, T2, T3. unfold identity_valid in H. cbn [forallb] in H. bsplit.
  repeat match goal with
  | H : smartAccessLeaseID ?s = true |- _ => pose proof (plain_hex _ _ H); apply hex_len in H
  | H : smartAccessRuntimeDigest ?s = true |- _ => pose proof (plain_hex _ _ H); apply hex_len in H
  | H : catalogServiceIDPattern _ = true |- _ => pose proof (plain_service _ H); apply service_len in H
  | H : one_of _ _ = true |- _ =>
      let P := fresh in pose proof (λ K, plain_one_of _ _ K H) as P; specialize (P eq_refl); apply (one_of_len 14) in H; [|by vm_compute]
  | H1 : (?r <? 1) = false, H2 : (_ <? ?r) = false |- _ => pose proof (revision_len r H1 H2); clear H1
  end.
  unfold identity_members, member_length. cbn [sum_list_with fst snd print].
  repeat match goal with H : plain_string _ = true |- _ => rewrite (print_string_length _ H); clear H end.
  repeat match goal with |- context [length (list_of_str (show_int ?r))] =>
    change (length (list_of_str (show_int r))) with (slen (show_int r)) end.
  repeat match goal with |- context [length (print_string ?s)] =>
    let n := eval vm_compute in (length (print_string s)) in change (length (print_string s)) with n end.
  lia.
Qed.

Lemma parse_utc_nonneg v t : parse_utc v = Some t → 0 ≤ wall t.
Proof.
  unfold parse_utc.
  destruct (list_of_str v) as [|y1 [|y2 [|y3 [|y4 [|c1 [|m1 [|m2 [|c2 [|d1 [|d2 [|c3 [|h1 [|h2 [|c4 [|i1 [|i2 [|c5 [|s1 [|s2 [|c6 [|]]]]]]]]]]]]]]]]]]]]];
    try done.
  intros H. destruct (val4 y1 y2 y3 y4) as [y|]; cbn [mbind option_bind] in H; [|done].
  destruct (val2 m1 m2) as [m|]; cbn [mbind option_bind] in H; [|done].
  destruct (val2 d1 d2) as [d|]; cbn [mbind option_bind] in H; [|done].
  destruct (val2 h1 h2) as [h|] eqn:E1; cbn [mbind option_bind] in H; [|done]. apply val2_fmt2 in E1 as [_ ?].
  destruct (val2 i1 i2) as [mi|] eqn:E2; cbn [mbind option_bind] in H; [|done]. apply val2_fmt2 in E2 as [_ ?].
  destruct (val2 s1 s2) as [s|] eqn:E3; cbn [mbind option_bind] in H; [|done]. apply val2_fmt2 in E3 as [_ ?].
  case_hyp H; [|done]. injection H as <-. cbn [wall]. bsplit.
  pose proof (days_before_month_end y m ltac:(lia)). pose proof (dby_mono 1 y ltac:(lia)) as Hy.
  change (days_before_year 1) with 0 in Hy. unfold civil_wall, days_of_date, Second, Millisecond. lia.
Qed.

Lemma hex_encode_length b : length (hex_encode b) = (2 * length b)%nat.
Proof. unfold hex_encode. induction b as [|c b IH]; [done|]. rewrite fmap_cons. cbn [concat]. rewrite length_app. cbn. cbn in IH. lia. Qed.

Lemma hex_char_range d : 0 ≤ d < 16 → lease_hex (hex_char d) = true.
Proof.
  intros H. assert (d = 0 ∨ d = 1 ∨ d = 2 ∨ d = 3 ∨ d = 4 ∨ d = 5 ∨ d = 6 ∨ d = 7 ∨ d = 8 ∨ d = 9 ∨ d = 10 ∨ d = 11 ∨
    d = 12 ∨ d = 13 ∨ d = 14 ∨ d = 15) as Hd by lia. by repeat destruct Hd as [->|Hd]; subst.
Qed.

Lemma hex_encode_hex b n : length b = n → hex_string (2 * n) (str_of_list (hex_encode b)) = true.
Proof.
  intros <-. unfold hex_string. rewrite <- slen_length. unfold slen. rewrite list_str, hex_encode_length, Nat.eqb_refl. cbn [andb].
  apply forallb_forall. unfold hex_encode. intros c Hc%list_elem_of_In.
  apply list_elem_of_In, in_concat in Hc as (x & Hx & Hc). apply list_elem_of_In, list_elem_of_fmap in Hx as (a & -> & _).
  pose proof (byte_val_range a). destruct Hc as [<-|[<-|[]]]; apply hex_char_range.
  - split; [apply Z.div_pos; lia|]. apply Z.div_lt_upper_bound; lia.
  - apply Z.mod_pos_bound. lia.
Qed.
