(* ===== verification/RestrictionStore.v ===== *)
(** * The restriction journal (daemon/smart_access_restriction_store.go)

    A small file keeps, per profile, which restrictions the control plane has
    imposed, so that they outlive the process: a record is marked pending and
    written before a worker may act, restrictions are added to it as they are
    applied, and it leaves the journal only when the host acknowledges a
    snapshot that contains it.

    [world] is the file and the process's journal.  Each operation is one
    critical section of [journal.access]; what the environment decides (the
    outcome of reading and of writing the file, the random bytes, the clock)
    are arguments.  Writing goes through a temporary file and a rename: it
    replaces the file or leaves it as it was.  A crash loses the journal of the
    process and keeps the file. *)

From stdpp Require Import base list strings gmap sorting.
From Stdlib Require Import ZArith Lia Ascii.
From S2P Require Import Prelude GoTime GoBytes GoJson GoCrypto AtsLease ControlWire.

Local Open Scope Z_scope.
Set Default Goal Selector "!".

(** ** Data *)

Definition smartAccessRestrictionSnapshotLimit : Z := 1024 * 1024.
Definition smartAccessRestrictionDocumentLimit : Z := smartAccessRestrictionSnapshotLimit - 1024.

Record smartAccessRestrictionRecord := mkRecord {
  ProfileDigest : string; CatalogSHA256 : string; Generation : string; Pending : bool; PolicyAction : string;
  CatalogWithdrawn : bool; ExpiresAt : string; Leases : list identity; ScopeActions : gmap string string }.
Abbreviation record := smartAccessRestrictionRecord.
#[export] Instance record_eta : Eta record := λ r,
  mkRecord (ProfileDigest r) (CatalogSHA256 r) (Generation r) (Pending r) (PolicyAction r) (CatalogWithdrawn r)
    (ExpiresAt r) (Leases r) (ScopeActions r).

Record smartAccessRestrictionJournal := mkJournal {
  loaded : bool; records : list record; live : gmap string string; unsettled : gset string }.
Abbreviation journal := smartAccessRestrictionJournal.
#[export] Instance journal_eta : Eta journal := λ j, mkJournal (loaded j) (records j) (live j) (unsettled j).

Definition new_journal : journal := mkJournal false [] ∅ ∅.

Record world := mkWorld { file : option bytes; jr : journal }.
#[export] Instance world_eta : Eta world := λ w, mkWorld (file w) (jr w).

(** [journal.live[profile]]: the empty string when there is none. *)
Definition live_of (p : string) (j : journal) : string := default "" (live j !! p).
Definition is_unsettled (p : string) (j : journal) : bool := bool_decide (p ∈ unsettled j).

(** ** The document *)

(** [json.Marshal] of a map. *)
Definition marshal_map (members : list (string * json)) : json := JObj (merge_sort key_le members).
Definition scopes_json (m : gmap string string) : json :=
  marshal_map ((λ kv, (kv.1, JStr kv.2)) <$> map_to_list m).

Definition record_fields : list string :=
  ["profile_digest"; "catalog_sha256"; "generation"; "pending"; "policy_action"; "catalog_withdrawn"; "expires_at";
   "leases"; "scope_actions"].
Definition record_json (r : record) : json :=
  JObj [("profile_digest", JStr (ProfileDigest r)); ("catalog_sha256", JStr (CatalogSHA256 r));
        ("generation", JStr (Generation r)); ("pending", JBool (Pending r)); ("policy_action", JStr (PolicyAction r));
        ("catalog_withdrawn", JBool (CatalogWithdrawn r)); ("expires_at", JStr (ExpiresAt r));
        ("leases", JArr (identity_json <$> Leases r)); ("scope_actions", scopes_json (ScopeActions r))].
Definition document_json (rs : list record) : json :=
  JObj [("version", JNum "1"); ("records", JArr (record_json <$> rs))].

(** The loop over the leases of a record: distinct, and none active beyond the
    record's own bound. *)
Fixpoint load_leases (expires : option time) (leaseIDs : list string) (raw : list json) : option (list identity) :=
  match raw with
  | [] => Some []
  | rawLease :: raw =>
      lease ← parseSmartAccessRuntimeLeaseIdentity rawLease;
      if bool_decide (LeaseID lease ∈ leaseIDs) then None
      else
        match expires with
        | None => None
        | Some e =>
            if After (control_time (ActiveFlowsUntil lease)) e then None
            else l ← load_leases expires (LeaseID lease :: leaseIDs) raw; Some (lease :: l)
        end
  end.

Definition is_null (j : json) : bool := match j with JNull => true | _ => false end.

Definition load_record (seen : list string) (raw : json) : option record :=
  o ← smartAccessControlObject record_fields raw;
  if existsb is_null o.*2 then None
  else
    p ← field "profile_digest" o ≫= un_string;
    c ← field "catalog_sha256" o ≫= un_string;
    g ← field "generation" o ≫= un_string;
    pending ← field "pending" o ≫= un_bool;
    action ← field "policy_action" o ≫= un_string;
    withdrawn ← field "catalog_withdrawn" o ≫= un_bool;
    expires ← field "expires_at" o ≫= un_string;
    leases ← field "leases" o ≫= un_slice;
    scopes ← field "scope_actions" o ≫= un_string_map;
    if negb (smartAccessRuntimeDigest p) || (negb (bool_decide (c = "")) && negb (smartAccessRuntimeDigest c)) ||
       negb (smartAccessLeaseID g) || bool_decide (p ∈ seen) || negb (one_of ["none"; "drain"; "terminate"] action) ||
       (withdrawn && negb (bool_decide (action = "terminate"))) then None
    else if negb (bool_decide (expires = "")) && negb (bool_decide (is_Some (smartAccessControlTime expires))) then None
    else
      leases ← leases;
      if (256 <? length leases)%nat then None
      else
        l ← load_leases (smartAccessControlTime expires) [] leases;
        scopes ← scopes;
        if (256 <? size scopes)%nat then None
        else if negb (forallb (λ kv : string * string, smartAccessRuntimeDigest kv.1 && one_of ["drain"; "terminate"] kv.2)
                       (map_to_list scopes)) then None
        else
          _ ← field "scope_actions" o ≫= smartAccessControlObject (map_to_list scopes).*1;
          Some (mkRecord p c g pending action withdrawn expires l scopes).

Fixpoint load_records (seen : list string) (raw : list json) : option (list record) :=
  match raw with
  | [] => Some []
  | x :: raw => r ← load_record seen x; l ← load_records (ProfileDigest r :: seen) raw; Some (r :: l)
  end.

Definition load_document (data : bytes) : option (list record) :=
  if smartAccessRestrictionDocumentLimit <? blen data then None
  else
    j ← parse data;
    o ← smartAccessControlObject ["version"; "records"] j;
    version ← field "version" o ≫= un_int64;
    rs ← field "records" o ≫= un_slice;
    if negb (version =? 1) then None
    else rs ← rs; if (3 <? length rs)%nat then None else load_records [] rs.

(** ** Reading and writing the file *)

Definition storage_invalid : string := "smart_access_restriction_storage_invalid".
Definition storage_unavailable : string := "smart_access_restriction_storage_unavailable".
Definition recovery_required : string := "smart_access_restriction_recovery_required".
Definition binding_invalid : string := "smart_access_restriction_binding_invalid".
Definition renewal_recovery : string := "smart_access_renewal_recovery_required".

(** [None]: no error. *)
Definition loadLocked (read : bool) (w : world) : option string * world :=
  if loaded (jr w) then (None, w)
  else
    match file w with
    | None => (None, w <| jr ::= λ j, j <| records := [] |> <| loaded := true |> |>)
    | Some data =>
        if negb read then (Some storage_invalid, w)
        else match load_document data with
             | None => (Some storage_invalid, w)
             | Some rs => (None, w <| jr ::= λ j, j <| records := rs |> <| loaded := true |> |>)
             end
    end.

Definition writeLocked (write : bool) (w : world) : option string * world :=
  let data := print (document_json (records (jr w))) in
  if smartAccessRestrictionDocumentLimit <? blen data then (Some storage_unavailable, w)
  else if negb write then (Some storage_unavailable, w)
  else (None, w <| file := Some data |>).

Definition set_records (rs : list record) (w : world) : world := w <| jr ::= λ j, j <| records := rs |> |>.

(** The first record of a profile, and of a profile and generation. *)
Fixpoint find_record (f : record → bool) (rs : list record) : option (nat * record) :=
  match rs with
  | [] => None
  | r :: rs => if f r then Some (0%nat, r) else p ← find_record f rs; Some (S p.1, p.2)
  end.
Definition of_profile (p : string) (r : record) : bool := bool_decide (ProfileDigest r = p).
Definition of_generation (p g : string) (r : record) : bool :=
  bool_decide (ProfileDigest r = p) && bool_decide (Generation r = g).

Definition format_expiry (t : time) : string := format_utc t.

(** ** Operations *)

Definition begin_refused (p c : string) (r : record) (j : journal) : option string :=
  if Pending r && bool_decide (live_of p j = "") then Some recovery_required
  else if (negb (bool_decide (PolicyAction r = "none")) || CatalogWithdrawn r || negb (size (ScopeActions r) =? 0)%nat) &&
          bool_decide (live_of p j = "") then Some recovery_required
  else if negb (bool_decide (CatalogSHA256 r = "")) && negb (bool_decide (CatalogSHA256 r = c)) then Some binding_invalid
  else None.

Definition begin_record (c generation : string) (expires : time) (r : record) : record :=
  let r := r <| Generation := generation |> <| Pending := true |> in
  let r := if bool_decide (CatalogSHA256 r = "") then r <| CatalogSHA256 := c |> else r in
  if negb (IsZero expires) && After expires (control_time (ExpiresAt r))
  then r <| ExpiresAt := format_expiry expires |> else r.

(** [entropy]: the sixteen random bytes, if they could be read. *)
Definition begin_ (p c : string) (expires : time) (entropy : option bytes) (read write : bool) (w : world)
    : result string string * world :=
  match loadLocked read w with
  | (Some e, w) => (Err e, w)
  | (None, w) =>
      let j := jr w in
      if is_unsettled p j then (Err recovery_required, w)
      else
        let found := find_record (of_profile p) (records j) in
        if bool_decide (found = None) && (3 <=? length (records j))%nat then (Err recovery_required, w)
        else
          match found ≫= λ ir, begin_refused p c ir.2 j with
          | Some e => (Err e, w)
          | None =>
              match entropy with
              | None => (Err storage_unavailable, w)
              | Some b =>
                  let generation := str_of_list (hex_encode b) in
                  let previous := records j in
                  let '(i, rs) := match found with
                                  | Some (i, _) => (i, previous)
                                  | None => (length previous, previous ++ [mkRecord p c "" false "none" false "" [] ∅])
                                  end in
                  let w := set_records (alter (begin_record c generation expires) i rs) w in
                  match writeLocked write w with
                  | (Some e, w) => (Err e, set_records previous w)
                  | (None, w) => (Ok generation, w <| jr ::= λ j, j <| live ::= insert p generation |> |>)
                  end
              end
          end
  end.

Definition extendExpiry (p generation : string) (expires : time) (write : bool) (w : world) : option string * world :=
  let j := jr w in
  if negb (bool_decide (live_of p j = generation)) then (None, w)
  else
    match find_record (of_generation p generation) (records j) with
    | None => (Some recovery_required, w)
    | Some (i, r) =>
        if negb (After expires (control_time (ExpiresAt r))) then (None, w)
        else
          let w := set_records (alter (λ r, r <| ExpiresAt := format_expiry expires |>) i (records j)) w in
          match writeLocked write w with
          | (Some e, w) => (Some e, set_records (records j) w)
          | (None, w) => (None, w)
          end
    end.

(** The leases a record keeps: those that may still be active, those of the
    running outbounds, and the two generations of the renewal. *)
Definition kept (now : time) (previous next : identity) (currentIDs : gset string) (l : identity) : bool :=
  Before now (control_time (ActiveFlowsUntil l)) || bool_decide (LeaseID l ∈ currentIDs) ||
  bool_decide (LeaseID l = LeaseID previous) || bool_decide (LeaseID l = LeaseID next).
Definition retained (now : time) (previous next : identity) (currentIDs : gset string) (ls : list identity)
    : gmap string identity :=
  foldl (λ m l, if kept now previous next currentIDs l then <[LeaseID l := l]> m else m) ∅ ls.
(** A lease recorded under the same identifier is the same lease. *)
Definition agrees (m : gmap string identity) (l : identity) : bool :=
  match m !! LeaseID l with Some x => bool_decide (x = l) | None => true end.

Definition id_le (a b : identity) : Prop := String.leb (LeaseID a) (LeaseID b) = true.
#[export] Instance id_le_dec a b : Decision (id_le a b) := decide (String.leb (LeaseID a) (LeaseID b) = true).
Definition later (e : time) (l : identity) : time :=
  let a := control_time (ActiveFlowsUntil l) in if After a e then a else e.

Definition retain_record (m : gmap string identity) (r : record) : record :=
  let leases := (map_to_list m).*2 in
  r <| Leases := merge_sort id_le leases |>
    <| ExpiresAt := format_expiry (foldl later (control_time (ExpiresAt r)) leases) |>.

Definition retainRenewal (p generation : string) (previous next : identity) (currentIDs : gset string) (now : time)
    (write : bool) (w : world) : option string * world :=
  let j := jr w in
  if negb (bool_decide (live_of p j = generation)) || bool_decide (LeaseID previous = LeaseID next) ||
     negb (follows next previous) then (Some renewal_recovery, w)
  else
    match find_record (of_generation p generation) (records j) with
    | None => (Some renewal_recovery, w)
    | Some (i, r) =>
        if negb (Pending r) || negb (bool_decide (PolicyAction r = "none")) || CatalogWithdrawn r ||
           negb (bool_decide (default "" (ScopeActions r !! RuntimeScopeSHA256 next) = "")) then (Some renewal_recovery, w)
        else
          let m := retained now previous next currentIDs (Leases r) in
          if negb (agrees m previous) then (Some renewal_recovery, w)
          else
            let m := <[LeaseID previous := previous]> m in
            if negb (agrees m next) then (Some renewal_recovery, w)
            else
              let m := <[LeaseID next := next]> m in
              if (256 <? size m)%nat then (Some renewal_recovery, w)
              else
                let w := set_records (alter (retain_record m) i (records j)) w in
                match writeLocked write w with
                | (Some e, w) => (Some e, set_records (records j) w)
                | (None, w) => (None, w)
                end
    end.

Definition restrict_record (reason : string) (r : record) : record :=
  let r := if bool_decide (reason = "catalog_disabled") then r <| CatalogWithdrawn := true |> else r in
  if negb (bool_decide (reason = "issuance_disabled")) then r <| PolicyAction := "terminate" |>
  else if bool_decide (PolicyAction r = "none") then r <| PolicyAction := "drain" |> else r.

Definition restrict (p generation reason : string) (write : bool) (w : world) : world :=
  match find_record (of_generation p generation) (records (jr w)) with
  | None => w
  | Some (i, _) => (writeLocked write (set_records (alter (restrict_record reason) i (records (jr w))) w)).2
  end.

Definition restrictScope (p generation scope action : string) (write : bool) (w : world) : world :=
  match find_record (of_generation p generation) (records (jr w)) with
  | None => w
  | Some (i, r) =>
      let current := default "" (ScopeActions r !! scope) in
      if bool_decide (current = "") && (256 <=? size (ScopeActions r))%nat
      then w <| jr ::= λ j, j <| unsettled ::= union {[p]} |> |>
      else
        let w := if bool_decide (current = "terminate") then w
                 else set_records (alter (λ r, r <| ScopeActions ::= insert scope action |>) i (records (jr w))) w in
        (writeLocked write w).2
  end.

Definition finish (p generation : string) (write : bool) (w : world) : world :=
  if negb (bool_decide (live_of p (jr w) = generation)) then w
  else
    let w := w <| jr ::= λ j, j <| live ::= delete p |> |> in
    match find_record (of_profile p) (records (jr w)) with
    | None => w
    | Some (i, _) =>
        (writeLocked write (set_records (alter (λ r, r <| Pending := is_unsettled p (jr w) |>) i (records (jr w))) w)).2
    end.

(** ** Snapshots and acknowledgement *)

Definition digest_le (a b : record) : Prop := String.leb (ProfileDigest a) (ProfileDigest b) = true.
#[export] Instance digest_le_dec a b : Decision (digest_le a b) := decide (String.leb (ProfileDigest a) (ProfileDigest b) = true).

Definition entry_json (j : journal) (r : record) : json :=
  marshal_map
    [("profile_digest", JStr (ProfileDigest r)); ("catalog_sha256", JStr (CatalogSHA256 r));
     ("generation", JStr (Generation r)); ("pending", JBool (Pending r)); ("policy_action", JStr (PolicyAction r));
     ("catalog_withdrawn", JBool (CatalogWithdrawn r)); ("expires_at", JStr (ExpiresAt r));
     ("leases", JArr (canonicalObject <$> Leases r)); ("scope_actions", scopes_json (ScopeActions r));
     ("live", JBool (bool_decide (live_of (ProfileDigest r) j = Generation r)))].
Definition entries (j : journal) : list json := entry_json j <$> merge_sort digest_le (records j).
Definition snapshot_digest (j : journal) : string := str_of_list (hex_encode (sha256 (print (JArr (entries j))))).
Definition snapshot_text (j : journal) : bytes :=
  print (marshal_map [("schema", JNum "1"); ("snapshot_sha256", JStr (snapshot_digest j)); ("entries", JArr (entries j))]).

Definition snapshotLocked (read write : bool) (w : world) : result string (bytes * string) * world :=
  match loadLocked read w with
  | (Some e, w) => (Err e, w)
  | (None, w) =>
      match writeLocked write w with
      | (Some e, w) => (Err e, w)
      | (None, w) =>
          if smartAccessRestrictionSnapshotLimit <? blen (snapshot_text (jr w)) then (Err storage_invalid, w)
          else (Ok (snapshot_text (jr w), snapshot_digest (jr w)), w)
      end
  end.

Definition ReadSmartAccessRestrictions (read write : bool) (w : world) : result string bytes * world :=
  let '(res, w) := snapshotLocked read write w in
  (match res with Ok (encoded, _) => Ok encoded | Err e => Err e end, w).

Definition is_live (j : journal) (r : record) : bool := bool_decide (live_of (ProfileDigest r) j = Generation r).

(** [write], [write']: the write of the snapshot and the one of what remains. *)
Definition AcknowledgeSmartAccessRestrictions (snapshotSHA256 : string) (read write write' : bool) (w : world)
    : result string bool * world :=
  if negb (smartAccessRuntimeDigest snapshotSHA256) then (Err "smart_access_restriction_ack_invalid", w)
  else
    match snapshotLocked read write w with
    | (Err e, w) => (Err e, w)
    | (Ok (_, current), w) =>
        if negb (bool_decide (current = snapshotSHA256)) then (Ok false, w)
        else
          let previous := records (jr w) in
          let w := set_records (filter (λ r, is_live (jr w) r = true) previous) w in
          match writeLocked write' w with
          | (Some e, w) => (Err e, set_records previous w)
          | (None, w) =>
              let gone := ProfileDigest <$> filter (λ r, is_live (jr w) r = false) previous in
              (Ok true, w <| jr ::= λ j, j <| unsettled ::= λ u, u ∖ list_to_set gone |> |>)
          end
    end.

(** The end of the process. *)
Definition crash (w : world) : world := w <| jr := new_journal |>.

(** ** Well-formed documents *)

(** The lease is valid and ends no later than the record's bound. *)
Definition lease_within (expires : string) (l : identity) : Prop :=
  identity_valid l = true ∧ ∃ t, parse_utc expires = Some t ∧ wall (control_time (ActiveFlowsUntil l)) ≤ wall t.

Record record_ok (r : record) : Prop := {
  ro_profile : smartAccessRuntimeDigest (ProfileDigest r) = true;
  ro_catalog : CatalogSHA256 r = "" ∨ smartAccessRuntimeDigest (CatalogSHA256 r) = true;
  ro_generation : smartAccessLeaseID (Generation r) = true;
  ro_action : one_of ["none"; "drain"; "terminate"] (PolicyAction r) = true;
  ro_withdrawn : CatalogWithdrawn r = true → PolicyAction r = "terminate";
  ro_expires : ExpiresAt r = "" ∨ ∃ t, parse_utc (ExpiresAt r) = Some t;
  ro_leases : Forall (lease_within (ExpiresAt r)) (Leases r);
  ro_ids : NoDup (LeaseID <$> Leases r);
  ro_count : (length (Leases r) ≤ 256)%nat;
  ro_scopes : map_Forall (λ s a, smartAccessRuntimeDigest s = true ∧ one_of ["drain"; "terminate"] a = true) (ScopeActions r);
  ro_scope_count : (size (ScopeActions r) ≤ 256)%nat }.

Record doc_ok (rs : list record) : Prop := {
  do_records : Forall record_ok rs;
  do_distinct : NoDup (ProfileDigest <$> rs);
  do_count : (length rs ≤ 3)%nat }.

Lemma forallb_perm {A} (f : A → bool) l k : Permutation l k → forallb f l = forallb f k.
Proof. induction 1; cbn; [done|by rewrite IHPermutation|by destruct (f x), (f y)|congruence]. Qed.

Lemma marshal_perm members : ∃ l, marshal_map members = JObj l ∧ Permutation l members.
Proof. eexists. split; [done|]. apply merge_sort_Permutation. Qed.

(** The members of [scope_actions], in some order. *)
Lemma scopes_members m : ∃ l, scopes_json m = JObj ((λ kv, (kv.1, JStr kv.2)) <$> l) ∧ Permutation l (map_to_list m).
Proof.
  unfold scopes_json. destruct (marshal_perm ((λ kv, (kv.1, JStr kv.2)) <$> map_to_list m)) as (l & -> & Hl).
  apply Permutation_map_inv in Hl as (l' & -> & Hl'). by exists l'.
Qed.

Lemma foldl_insert (l : list (string * string)) : foldl (λ m kv, <[kv.1 := kv.2]> m) ∅ l = (list_to_map (reverse l) : gmap string string).
Proof.
  unfold list_to_map. rewrite <- (reverse_involutive l) at 1. generalize (reverse l). clear l. intros l.
  induction l as [|[k v] l IH]; [done|]. rewrite reverse_cons, foldl_app. cbn. by rewrite IH.
Qed.

Lemma scopes_roundtrip m : un_string_map (scopes_json m) = Some (Some m).
Proof.
  destruct (scopes_members m) as (l & -> & Hl). cbn [un_string_map].
  assert (∀ m0, foldl (λ acc (kv : string * json), m ← acc; v ← un_string kv.2; Some (<[kv.1:=v]> m)) (Some m0)
    ((λ kv, (kv.1, JStr kv.2)) <$> l) = Some (foldl (λ m kv, <[kv.1 := kv.2]> m) m0 l)) as ->.
  { clear. induction l as [|[k v] l IH]; intros m0; [done|]. cbn. by rewrite IH. }
  cbn [mbind option_bind]. rewrite foldl_insert.
  assert (NoDup l.*1) as Hd by (rewrite Hl; apply NoDup_fst_map_to_list).
  rewrite <- (list_to_map_proper l (reverse l)); [|done|symmetry; apply reverse_Permutation].
  rewrite (list_to_map_proper l (map_to_list m) Hd Hl). by rewrite list_to_map_to_list.
Qed.

Lemma scopes_object m : ∃ o, smartAccessControlObject (map_to_list m).*1 (scopes_json m) = Some o.
Proof.
  destruct (scopes_members m) as (l & -> & Hl). eexists. unfold smartAccessControlObject.
  assert (((λ kv : string * string, (kv.1, JStr kv.2)) <$> l).*1 = l.*1) as Hk by (rewrite <- list_fmap_compose; done).
  rewrite Hk, bool_true_if; [done|]. rewrite !andb_true_iff. split_and!.
  - apply bool_decide_eq_true. rewrite Hl. apply NoDup_fst_map_to_list.
  - rewrite !length_fmap. by rewrite Hl, Nat.eqb_refl.
  - apply forallb_forall. intros k Hin%list_elem_of_In. apply bool_decide_eq_true. by rewrite Hl.
Qed.

Lemma load_leases_roundtrip e t seen ls :
  smartAccessControlTime e = Some t → Forall (lease_within e) ls → NoDup (LeaseID <$> ls) →
  (∀ x, x ∈ LeaseID <$> ls → x ∉ seen) →
  load_leases (Some t) seen (identity_json <$> ls) = Some ls.
Proof.
  intros He HF. revert seen. induction HF as [|l ls (Hv & t' & Ht' & Hw) _ IH]; intros seen Hn Hs; [done|].
  apply utc_control in Ht'. replace t' with t in * by congruence.
  rewrite fmap_cons in Hn. apply NoDup_cons in Hn as [Hl Hn]. rewrite fmap_cons. cbn [load_leases].
  rewrite identity_roundtrip by done. cbn [mbind option_bind].
  rewrite bool_decide_eq_false_2 by (apply Hs; rewrite fmap_cons; left).
  unfold After. rewrite (before_wall_l t) by (by eapply control_mono). rewrite bool_false_if by lia.
  rewrite IH; [done|done|]. intros x Hx. rewrite elem_of_cons. intros [->|Hx']; [done|].
  by apply (Hs x); [rewrite fmap_cons; right|].
Qed.

Lemma load_record_roundtrip seen r : record_ok r → ProfileDigest r ∉ seen → load_record seen (record_json r) = Some r.
Proof.
  intros R Hs. unfold load_record, record_json.
  match goal with |- context [smartAccessControlObject record_fields (JObj ?o)] =>
    assert (smartAccessControlObject record_fields (JObj o) = Some o) as -> by
      (unfold smartAccessControlObject; rewrite bool_true_if; [done|]; by vm_compute) end.
  cbn [mbind option_bind]. rewrite bool_false_if.
  2:{ destruct (scopes_members (ScopeActions r)) as (? & -> & _). done. }
  cbv [field String.eqb Ascii.eqb Bool.eqb]. cbn [mbind option_bind un_string un_bool un_slice].
  rewrite scopes_roundtrip. cbn [mbind option_bind]. destruct R. rewrite bool_false_if.
  2:{ rewrite ro_profile0, ro_generation0, ro_action0, (bool_decide_eq_false_2 (ProfileDigest r ∈ seen)) by done. cbn [negb orb andb].
      rewrite !orb_false_r. rewrite orb_false_iff. split.
      - destruct ro_catalog0 as [->| ->]; [done|]. by rewrite andb_false_r.
      - destruct (CatalogWithdrawn r); [|done]. by rewrite ro_withdrawn0. }
  rewrite bool_false_if.
  2:{ destruct ro_expires0 as [->|(t & Ht)]; [done|]. apply utc_control in Ht. rewrite Ht.
      rewrite (bool_decide_eq_true_2 (is_Some _)) by eauto. by rewrite andb_false_r. }
  cbn [mbind option_bind]. rewrite (bool_false_if (256 <? _)%nat) by (rewrite length_fmap; by apply Nat.ltb_ge).
  assert (load_leases (smartAccessControlTime (ExpiresAt r)) [] (identity_json <$> Leases r) = Some (Leases r)) as ->.
  { destruct (Leases r) as [|l ls] eqn:El; [done|]. pose proof ro_leases0 as [(_ & t & Ht & _) _]%Forall_cons.
    apply utc_control in Ht. rewrite Ht. eapply load_leases_roundtrip; [done|done|done|].
    intros x _. apply not_elem_of_nil. }
  cbn [mbind option_bind]. rewrite (bool_false_if (256 <? _)%nat) by (by apply Nat.ltb_ge). rewrite bool_false_if.
  2:{ apply negb_false_iff, forallb_forall. intros [s a] Hsa%list_elem_of_In. apply elem_of_map_to_list in Hsa.
      apply ro_scopes0 in Hsa as [Hs1 Hs2]. cbn [fst snd]. by rewrite Hs1, Hs2. }
  destruct (scopes_object (ScopeActions r)) as (o & ->). cbn [mbind option_bind]. by destruct r.
Qed.

Lemma load_records_roundtrip seen rs :
  Forall record_ok rs → NoDup (ProfileDigest <$> rs) → (∀ x, x ∈ ProfileDigest <$> rs → x ∉ seen) →
  load_records seen (record_json <$> rs) = Some rs.
Proof.
  intros HF. revert seen. induction HF as [|r rs Hr _ IH]; intros seen Hn Hs; [done|].
  rewrite fmap_cons in Hn. apply NoDup_cons in Hn as [Hl Hn]. cbn [fmap list_fmap load_records].
  change (list_fmap _ _ record_json rs) with (record_json <$> rs).
  rewrite load_record_roundtrip; [|done|apply Hs; rewrite fmap_cons; left]. cbn [mbind option_bind].
  rewrite IH; [done|done|]. intros x Hx. rewrite elem_of_cons. intros [->|Hx']; [done|].
  by apply (Hs x); [rewrite fmap_cons; right|].
Qed.

Lemma plain_empty : plain_string "" = true.
Proof. done. Qed.

Lemma record_plain r : record_ok r → plain (record_json r) = true.
Proof.
  intros R. destruct R. unfold record_json. cbn [plain forallb fst snd].
  assert (plain_string (CatalogSHA256 r) = true) as -> by (destruct ro_catalog0 as [->|?%plain_hex]; done).
  assert (plain_string (ExpiresAt r) = true) as -> by (destruct ro_expires0 as [->|(t & ?%plain_utc)]; done).
  apply plain_hex in ro_profile0 as ->, ro_generation0 as ->.
  apply plain_one_of in ro_action0 as ->; [|by vm_compute].
  assert (forallb plain (identity_json <$> Leases r) = true) as ->.
  { apply forallb_forall. intros j Hj%list_elem_of_In%list_elem_of_fmap. destruct Hj as (l & -> & Hl).
    rewrite Forall_forall in ro_leases0. apply identity_plain. by apply ro_leases0. }
  destruct (scopes_members (ScopeActions r)) as (l & -> & Hl). cbn [plain].
  assert (forallb (λ m, plain_string m.1 && plain m.2) ((λ kv, (kv.1, JStr kv.2)) <$> l) = true) as ->; [|by vm_compute].
  apply forallb_forall. intros j Hj%list_elem_of_In%list_elem_of_fmap. destruct Hj as ([s a] & -> & Hs).
  rewrite Hl in Hs. apply elem_of_map_to_list, ro_scopes0 in Hs as [Hs Ha]. cbn [fst snd plain].
  apply plain_hex in Hs. apply plain_one_of in Ha; [|by vm_compute]. by rewrite Hs, Ha.
Qed.

Lemma document_plain rs : Forall record_ok rs → plain (document_json rs) = true.
Proof.
  intros HF. unfold document_json. cbn [plain forallb fst snd].
  assert (forallb plain (record_json <$> rs) = true) as ->; [|by vm_compute].
  apply forallb_forall. intros j Hj%list_elem_of_In%list_elem_of_fmap. destruct Hj as (r & -> & Hr).
  apply record_plain. rewrite Forall_forall in HF. auto.
Qed.

(** ** A well-formed document fits *)

Lemma leases_length (encode : identity → json) ls :
  (∀ l, identity_valid l = true → (length (print (encode l)) ≤ 1202)%nat) →
  Forall (λ l, identity_valid l = true) ls → (length ls ≤ 256)%nat →
  blen (print (JArr (encode <$> ls))) ≤ 310000.
Proof.
  intros He HF Hn. unfold blen. pose proof (print_array_length (encode <$> ls)) as Hl. rewrite sum_fmap in Hl.
  enough (Forall (λ l, S (length (print (encode l))) ≤ 1203)%nat ls) as Hs%sum_bound by lia.
  eapply Forall_impl; [exact HF|]. intros l H%He. cbn beta. lia.
Qed.

Lemma identity_json_length l : identity_valid l = true → (length (print (identity_json l)) ≤ 1202)%nat.
Proof.
  intros H%identity_length. pose proof (print_object_length (identity_members l)). unfold identity_json. lia.
Qed.

Lemma canonical_length l : identity_valid l = true → (length (print (canonicalObject l)) ≤ 1202)%nat.
Proof.
  intros H%identity_length. unfold canonicalObject. pose proof (print_object_length (merge_sort key_le (identity_members l))) as Hl.
  rewrite (sum_perm _ _ (identity_members l)) in Hl by apply merge_sort_Permutation. lia.
Qed.

Lemma scopes_length r : record_ok r → blen (print (scopes_json (ScopeActions r))) ≤ 22000.
Proof.
  intros R. destruct (scopes_members (ScopeActions r)) as (l & -> & Hl). unfold blen.
  pose proof (print_object_length ((λ kv, (kv.1, JStr kv.2)) <$> l)) as Hp. rewrite sum_fmap in Hp.
  pose proof (ro_scope_count r R) as Hc. rewrite <- length_map_to_list, <- Hl in Hc.
  enough (Forall (λ kv : string * string, member_length (kv.1, JStr kv.2) ≤ 80)%nat l) as Hs%sum_bound by lia.
  apply Forall_forall. intros [s a] Hin. rewrite Hl in Hin. apply elem_of_map_to_list, (ro_scopes r R) in Hin as [H1 H2].
  unfold member_length. cbn [fst snd print]. pose proof (λ K, plain_one_of _ _ K H2) as Hp2. specialize (Hp2 eq_refl).
  apply (one_of_len 9) in H2; [|by vm_compute]. pose proof (plain_hex _ _ H1) as Hp1. apply hex_len in H1.
  rewrite !print_string_length by done. lia.
Qed.

(** The sum of the members that are neither leases nor scopes. *)
Lemma record_strings r : record_ok r →
  length (print_string (ProfileDigest r)) = 66%nat ∧ (length (print_string (CatalogSHA256 r)) ≤ 66)%nat ∧
  length (print_string (Generation r)) = 34%nat ∧ (length (print_string (PolicyAction r)) ≤ 11)%nat ∧
  (length (print_string (ExpiresAt r)) ≤ 22)%nat.
Proof.
  intros R. destruct R. split_and!.
  - pose proof (plain_hex _ _ ro_profile0). apply hex_len in ro_profile0. rewrite print_string_length by done. lia.
  - destruct ro_catalog0 as [->|H]; [cbn; lia|]. pose proof (plain_hex _ _ H). apply hex_len in H.
    rewrite print_string_length by done. lia.
  - pose proof (plain_hex _ _ ro_generation0). apply hex_len in ro_generation0. rewrite print_string_length by done. lia.
  - pose proof (λ K, plain_one_of _ _ K ro_action0) as H. specialize (H eq_refl).
    apply (one_of_len 9) in ro_action0; [|by vm_compute]. rewrite print_string_length by done. lia.
  - destruct ro_expires0 as [->|(t & H)]; [cbn; lia|]. pose proof (plain_utc _ _ H). apply utc_len in H.
    rewrite print_string_length by done. lia.
Qed.

(** Computes the lengths of the literal keys. *)
Ltac key_lengths :=
  repeat match goal with |- context [length (print_string (String ?a ?b))] =>
    let n := eval vm_compute in (length (print_string (String a b))) in
    change (length (print_string (String a b))) with n end.

Lemma valid_leases r : record_ok r → Forall (λ l, identity_valid l = true) (Leases r).
Proof. intros R. eapply Forall_impl; [apply (ro_leases r R)|]. by intros l [? _]. Qed.

Lemma bool_length b : (length (print (JBool b)) ≤ 5)%nat.
Proof. destruct b; cbn; lia. Qed.

Definition record_members (leases : json) (r : record) : list (string * json) :=
  [("profile_digest", JStr (ProfileDigest r)); ("catalog_sha256", JStr (CatalogSHA256 r));
   ("generation", JStr (Generation r)); ("pending", JBool (Pending r)); ("policy_action", JStr (PolicyAction r));
   ("catalog_withdrawn", JBool (CatalogWithdrawn r)); ("expires_at", JStr (ExpiresAt r));
   ("leases", leases); ("scope_actions", scopes_json (ScopeActions r))].

Lemma record_members_length leases r : record_ok r → blen (print leases) ≤ 310000 →
  Z.of_nat (sum_list_with member_length (record_members leases r)) ≤ 333000.
Proof.
  intros R Hl. destruct (record_strings r R) as (H1 & H2 & H3 & H4 & H5). pose proof (scopes_length r R) as Hs.
  pose proof (bool_length (Pending r)). pose proof (bool_length (CatalogWithdrawn r)). unfold blen in *.
  unfold record_members, member_length. cbn [sum_list_with fst snd].
  change (print (JStr ?s)) with (print_string s) in *. key_lengths. lia.
Qed.

Lemma record_length r : record_ok r → blen (print (record_json r)) ≤ 333002.
Proof.
  intros R. pose proof (leases_length identity_json _ identity_json_length (valid_leases r R) (ro_count r R)) as Hl.
  pose proof (record_members_length _ r R Hl) as Hm. pose proof (print_object_length (record_members (JArr (identity_json <$> Leases r)) r)).
  unfold blen. change (record_json r) with (JObj (record_members (JArr (identity_json <$> Leases r)) r)). lia.
Qed.

Lemma entry_length j r : record_ok r → blen (print (entry_json j r)) ≤ 333020.
Proof.
  intros R. pose proof (leases_length canonicalObject _ canonical_length (valid_leases r R) (ro_count r R)) as Hl.
  pose proof (record_members_length _ r R Hl) as Hm.
  set (lv := ("live", JBool (bool_decide (live_of (ProfileDigest r) j = Generation r)))).
  change (entry_json j r) with (marshal_map (record_members (JArr (canonicalObject <$> Leases r)) r ++ [lv])).
  destruct (marshal_perm (record_members (JArr (canonicalObject <$> Leases r)) r ++ [lv])) as (l & -> & Hp).
  pose proof (print_object_length l) as Ho. rewrite (sum_perm _ _ _ Hp), sum_list_with_app in Ho.
  assert (member_length lv ≤ 13)%nat.
  { unfold member_length, lv. cbn [fst snd]. key_lengths. pose proof (bool_length (bool_decide (live_of (ProfileDigest r) j = Generation r))). lia. }
  cbn [sum_list_with] in Ho. unfold blen. lia.
Qed.

Lemma sum_entries {A} (encode : A → json) (P : A → Prop) n rs :
  (∀ r, P r → blen (print (encode r)) ≤ Z.of_nat n) → Forall P rs → (length rs ≤ 3)%nat →
  blen (print (JArr (encode <$> rs))) ≤ 2 + 3 * (1 + Z.of_nat n).
Proof.
  intros He HF Hc. unfold blen in *. pose proof (print_array_length (encode <$> rs)) as H. rewrite sum_fmap in H.
  enough (Forall (λ r, S (length (print (encode r))) ≤ S n)%nat rs) as Hs%sum_bound by nia.
  eapply Forall_impl; [exact HF|]. intros r Hr%He. cbn beta. lia.
Qed.

Lemma document_length rs : doc_ok rs → blen (print (document_json rs)) ≤ smartAccessRestrictionDocumentLimit.
Proof.
  intros [HF _ Hc]. pose proof (sum_entries record_json record_ok (Z.to_nat 333002) rs) as H.
  rewrite Z2Nat.id in H by lia. specialize (H record_length HF Hc). unfold document_json.
  match goal with |- blen (print (JObj ?l)) ≤ _ => pose proof (print_object_length l) as Ho end.
  unfold member_length in Ho. cbn [sum_list_with fst snd] in Ho. unfold blen in *.
  change (length (print_string "version")) with 9%nat in Ho. change (length (print_string "records")) with 9%nat in Ho.
  change (length (print (JNum "1"))) with 1%nat in Ho.
  unfold smartAccessRestrictionDocumentLimit, smartAccessRestrictionSnapshotLimit. lia.
Qed.

Lemma snapshot_length j : doc_ok (records j) → blen (snapshot_text j) ≤ smartAccessRestrictionSnapshotLimit.
Proof.
  intros [HF _ Hc]. unfold snapshot_text.
  assert (blen (print (JArr (entries j))) ≤ 2 + 3 * (1 + 333020)) as He.
  { unfold entries. pose proof (sum_entries (entry_json j) record_ok (Z.to_nat 333020) (merge_sort digest_le (records j))) as H.
    rewrite Z2Nat.id in H by lia. apply H.
    - apply entry_length.
    - by rewrite merge_sort_Permutation.
    - by rewrite merge_sort_Permutation. }
  match goal with |- blen (print (marshal_map ?l)) ≤ _ => destruct (marshal_perm l) as (l' & -> & Hp) end.
  pose proof (print_object_length l') as Ho. rewrite (sum_perm _ _ _ Hp) in Ho.
  unfold member_length in Ho. cbn [sum_list_with fst snd] in Ho. unfold blen in *.
  pose proof (hex_encode_hex (sha256 (print (JArr (entries j)))) 32 (sha256_length _)) as Hh.
  pose proof (plain_hex _ _ Hh) as Hpl. apply hex_len in Hh. fold (snapshot_digest j) in Hh, Hpl.
  change (print (JStr (snapshot_digest j))) with (print_string (snapshot_digest j)) in Ho.
  rewrite (print_string_length _ Hpl), Hh in Ho.
  change (length (print_string "schema")) with 8%nat in Ho. change (length (print_string "snapshot_sha256")) with 17%nat in Ho.
  change (length (print_string "entries")) with 9%nat in Ho. change (length (print (JNum "1"))) with 1%nat in Ho.
  unfold smartAccessRestrictionSnapshotLimit. lia.
Qed.

(** ** Records by profile *)

Definition get (p : string) (rs : list record) : option record := snd <$> find_record (of_profile p) rs.

Lemma find_record_spec f rs i r : find_record f rs = Some (i, r) → rs !! i = Some r ∧ f r = true.
Proof.
  revert i. induction rs as [|x rs IH]; intros i H; [done|]. cbn [find_record] in H. destruct (f x) eqn:E.
  - by injection H as <- <-.
  - destruct (find_record f rs) as [[k y]|]; [|done]. injection H as <- <-. by apply IH.
Qed.

Lemma find_record_none f rs r : find_record f rs = None → r ∈ rs → f r = false.
Proof.
  induction rs as [|x rs IH]; cbn [find_record]; intros H Hr; [by apply not_elem_of_nil in Hr|].
  destruct (f x) eqn:E; [done|]. destruct (find_record f rs); [done|]. apply elem_of_cons in Hr as [->|Hr]; [done|]. by apply IH.
Qed.

Lemma get_some p rs r : get p rs = Some r → r ∈ rs ∧ ProfileDigest r = p.
Proof.
  unfold get. destruct (find_record (of_profile p) rs) as [[i x]|] eqn:E; [|done]. intros [= <-].
  apply find_record_spec in E as [E H]. split; [by eapply list_elem_of_lookup_2|]. by apply bool_decide_eq_true in H.
Qed.

Lemma get_in rs r : NoDup (ProfileDigest <$> rs) → r ∈ rs → get (ProfileDigest r) rs = Some r.
Proof.
  unfold get. induction rs as [|x rs IH]; intros Hn Hr; [by apply not_elem_of_nil in Hr|].
  rewrite fmap_cons in Hn. apply NoDup_cons in Hn as [Hx Hn]. cbn [find_record]. unfold of_profile at 1.
  apply elem_of_cons in Hr as [->|Hr]; [by rewrite bool_decide_eq_true_2|].
  rewrite bool_decide_eq_false_2 by (intros Hc; apply Hx; rewrite Hc; by apply list_elem_of_fmap_2).
  specialize (IH Hn Hr). by destruct (find_record _ rs) as [[]|].
Qed.

Lemma get_lookup rs i r : NoDup (ProfileDigest <$> rs) → rs !! i = Some r → get (ProfileDigest r) rs = Some r.
Proof. intros Hn Hi. apply get_in; [done|]. by eapply list_elem_of_lookup_2. Qed.

Lemma get_cons p r rs : get p (r :: rs) = if bool_decide (ProfileDigest r = p) then Some r else get p rs.
Proof.
  unfold get. cbn [find_record]. unfold of_profile at 1. case_bool_decide; [done|].
  by destruct (find_record _ rs) as [[]|].
Qed.

Lemma get_alter f (i : nat) (rs : list record) r q :
  NoDup (ProfileDigest <$> rs) → rs !! i = Some r → ProfileDigest (f r) = ProfileDigest r →
  get q (alter f i rs) = if bool_decide (ProfileDigest r = q) then Some (f r) else get q rs.
Proof.
  revert i. induction rs as [|x rs IH]; intros i Hn Hi Hf; [done|]. rewrite fmap_cons in Hn. apply NoDup_cons in Hn as [Hx Hn].
  destruct i as [|i].
  - injection Hi as ->. cbn [alter list_alter]. rewrite !get_cons, Hf. by case_bool_decide.
  - cbn [alter list_alter]. rewrite !get_cons. change (list_alter f i rs) with (alter f i rs). rewrite (IH i Hn Hi Hf).
    destruct (decide (ProfileDigest x = q)) as [<-|Hq]; [|by rewrite !(bool_decide_eq_false_2 (ProfileDigest x = q) Hq)].
    rewrite (bool_decide_eq_true_2 (ProfileDigest x = ProfileDigest x)) by done. rewrite bool_decide_eq_false_2; [done|].
    intros Hr. apply Hx. rewrite <- Hr. apply list_elem_of_fmap_2. by eapply list_elem_of_lookup_2.
Qed.

Lemma get_none p rs : find_record (of_profile p) rs = None ↔ p ∉ ProfileDigest <$> rs.
Proof.
  split.
  - intros H Hp. apply list_elem_of_fmap in Hp as (r & -> & Hr). pose proof (find_record_none _ _ _ H Hr) as Hf.
    unfold of_profile in Hf. by apply bool_decide_eq_false in Hf.
  - intros H. destruct (find_record (of_profile p) rs) as [[i r]|] eqn:E; [|done]. destruct H.
    apply find_record_spec in E as [Hi Hf]. apply bool_decide_eq_true in Hf. rewrite <- Hf.
    apply list_elem_of_fmap_2. by eapply list_elem_of_lookup_2.
Qed.

Lemma get_app p rs r : get p (rs ++ [r]) = match get p rs with Some x => Some x | None => get p [r] end.
Proof. induction rs as [|x rs IH]; [done|]. rewrite <- app_comm_cons, (get_cons p x (rs ++ [r])), (get_cons p x rs), IH. by case_bool_decide. Qed.

Lemma get_filter p rs (P : record → bool) r : NoDup (ProfileDigest <$> rs) → get p rs = Some r → P r = true →
  get p (filter (λ r, P r = true) rs) = Some r.
Proof.
  intros Hn [Hr <-]%get_some HP. apply get_in; [|by apply list_elem_of_filter].
  eapply sublist_NoDup; [exact Hn|]. apply fmap_sublist, sublist_filter.
Qed.

Lemma generation_get p g rs i r : NoDup (ProfileDigest <$> rs) → find_record (of_generation p g) rs = Some (i, r) →
  rs !! i = Some r ∧ get p rs = Some r ∧ ProfileDigest r = p ∧ Generation r = g.
Proof.
  intros Hn [Hi Hg]%find_record_spec. unfold of_generation in Hg. bsplit. subst. split_and!; [done| |done|done].
  by eapply get_lookup.
Qed.

Lemma alter_profiles f (i : nat) (rs : list record) : (∀ r, ProfileDigest (f r) = ProfileDigest r) →
  ProfileDigest <$> alter f i rs = ProfileDigest <$> rs.
Proof. intros Hf. revert i. induction rs as [|x rs IH]; intros [|i]; cbn; [done|done|by rewrite Hf|]. f_equal. apply IH. Qed.

Lemma doc_alter f (i : nat) (rs : list record) r : (∀ r, ProfileDigest (f r) = ProfileDigest r) → doc_ok rs → rs !! i = Some r →
  record_ok (f r) → doc_ok (alter f i rs).
Proof.
  intros Hf [HF Hn Hc] Hi Hr. constructor.
  - apply Forall_alter; [done|]. intros x Hx. by replace x with r by congruence.
  - by rewrite alter_profiles.
  - by rewrite length_alter.
Qed.

Lemma doc_get p rs r : doc_ok rs → get p rs = Some r → record_ok r.
Proof. intros D [Hr _]%get_some. pose proof (do_records _ D) as HF. rewrite Forall_forall in HF. auto. Qed.

(** ** Steps

    A restriction is owed from the moment a worker has imposed it on the running
    instance until a snapshot is acknowledged while no worker of the profile is
    live.  Workers act under the generation they were given; the steps of a
    worker are taken while that generation is the live one. *)

Inductive restriction := RPolicy (reason : string) | RScope (scope action : string).

Definition reasons : list string := ["issuance_disabled"; "access_denied"; "provider_policy_disabled"; "catalog_disabled"].

(** What a record must say to carry a restriction. *)
Definition covers (r : record) (k : restriction) : Prop :=
  match k with
  | RPolicy reason =>
      if bool_decide (reason = "issuance_disabled") then PolicyAction r = "drain" ∨ PolicyAction r = "terminate"
      else PolicyAction r = "terminate" ∧ (reason = "catalog_disabled" → CatalogWithdrawn r = true)
  | RScope scope action => ScopeActions r !! scope = Some action ∨ ScopeActions r !! scope = Some "terminate"
  end.

Record history := mkHistory { now_ : world; owed : list (string * restriction) }.

(** What an acknowledgement settles. *)
Definition settle (j : journal) (o : list (string * restriction)) : list (string * restriction) :=
  filter (λ pk, is_Some (live j !! pk.1)) o.

Definition some_date (t : time) : Prop := t = zero_time ∨ ∃ v, parse_utc v = Some t.

Inductive jstep : history → history → Prop :=
| js_begin w o p c e entropy rd wr :
    smartAccessRuntimeDigest p = true → c = "" ∨ smartAccessRuntimeDigest c = true → some_date e →
    (∀ b, entropy = Some b → length b = 16%nat) →
    jstep (mkHistory w o) (mkHistory (begin_ p c e entropy rd wr w).2 o)
| js_extend w o p g e wr :
    smartAccessLeaseID g = true → some_date e → jstep (mkHistory w o) (mkHistory (extendExpiry p g e wr w).2 o)
| js_retain w o p g previous next ids now wr :
    smartAccessLeaseID g = true → identity_valid previous = true → identity_valid next = true →
    jstep (mkHistory w o) (mkHistory (retainRenewal p g previous next ids now wr w).2 o)
| js_restrict w o p g reason wr :
    live (jr w) !! p = Some g → reason ∈ reasons →
    jstep (mkHistory w o) (mkHistory (restrict p g reason wr w) ((p, RPolicy reason) :: o))
| js_scope w o p g scope action wr :
    live (jr w) !! p = Some g → smartAccessRuntimeDigest scope = true → one_of ["drain"; "terminate"] action = true →
    jstep (mkHistory w o) (mkHistory (restrictScope p g scope action wr w) ((p, RScope scope action) :: o))
| js_finish w o p g wr :
    smartAccessLeaseID g = true → jstep (mkHistory w o) (mkHistory (finish p g wr w) o)
| js_read w o rd wr : jstep (mkHistory w o) (mkHistory (ReadSmartAccessRestrictions rd wr w).2 o)
| js_ack w o d rd wr wr' :
    let res := AcknowledgeSmartAccessRestrictions d rd wr wr' w in
    jstep (mkHistory w o)
      (mkHistory res.2 (match res.1 with Ok true => settle (jr w) o | _ => o end))
| js_crash w o : jstep (mkHistory w o) (mkHistory (crash w) o).

Definition first_run : history := mkHistory (mkWorld None new_journal) [].

(** ** The invariant *)

Definition file_is (f : option bytes) (rs : list record) : Prop :=
  match f with None => rs = [] | Some d => d = print (document_json rs) end.

Record disk_ok (rs : list record) (lv : gmap string string) (o : list (string * restriction)) : Prop := {
  dk_doc : doc_ok rs;
  dk_live : ∀ p g, lv !! p = Some g → ∃ r, get p rs = Some r ∧ Pending r = true;
  dk_owed : ∀ p k, (p, k) ∈ o → ∃ r, get p rs = Some r ∧ (Pending r = true ∨ covers r k) }.

Record memory_ok (j : journal) (o : list (string * restriction)) : Prop := {
  mk_doc : doc_ok (records j);
  mk_live : ∀ p g, live j !! p = Some g →
    smartAccessLeaseID g = true ∧ ∃ r, get p (records j) = Some r ∧ Generation r = g ∧ Pending r = true;
  mk_unsettled : ∀ p, p ∈ unsettled j → ∃ r, get p (records j) = Some r ∧ Pending r = true;
  mk_owed : ∀ p k, (p, k) ∈ o → ∃ r, get p (records j) = Some r ∧
    (covers r k ∨ Pending r = true ∧ (p ∈ unsettled j ∨ live j !! p = None)) }.

Definition jinv (h : history) : Prop :=
  let w := now_ h in
  (∃ rs, file_is (file w) rs ∧ disk_ok rs (live (jr w)) (owed h)) ∧
  if loaded (jr w) then memory_ok (jr w) (owed h) else jr w = new_journal.

Lemma memory_disk j o : memory_ok j o → disk_ok (records j) (live j) o.
Proof.
  intros M. constructor.
  - apply M.
  - intros p g Hp. apply (mk_live j o M) in Hp as (_ & r & ? & _ & ?). eauto.
  - intros p k Hk. apply (mk_owed j o M) in Hk as (r & ? & [?|[? _]]); eauto.
Qed.

(** A write, whatever its outcome, keeps the invariant once memory has it. *)
Lemma write_inv wr w o e w' :
  loaded (jr w) = true → memory_ok (jr w) o → (∃ rs, file_is (file w) rs ∧ disk_ok rs (live (jr w)) o) →
  writeLocked wr w = (e, w') → jinv (mkHistory w' o) ∧ jr w' = jr w.
Proof.
  intros Hl M D. unfold writeLocked.
  destruct (_ <? _); [|destruct (negb wr)]; intros [= <- <-]; unfold jinv; cbn [now_ owed]; rewrite ?Hl; [done|done|].
  split; [|done]. split; [|by cbn; rewrite Hl]. exists (records (jr w)). split; [done|]. by apply memory_disk.
Qed.

#[local] Arguments print _ : simpl never.
#[local] Arguments format_expiry _ : simpl never.
#[local] Arguments control_time _ : simpl never.
#[local] Arguments parse_utc _ : simpl never.

Lemma load_document_print rs : doc_ok rs → load_document (print (document_json rs)) = Some rs.
Proof.
  intros D. unfold load_document. pose proof (document_length rs D). rewrite bool_false_if by lia.
  rewrite parse_print by (apply document_plain, D). cbn [mbind option_bind].
  assert (smartAccessControlObject ["version"; "records"] (document_json rs) =
    Some [("version", JNum "1"); ("records", JArr (record_json <$> rs))]) as -> by done.
  cbn [mbind option_bind]. change (field "version" _) with (Some (JNum "1")). change (field "records" _) with (Some (JArr (record_json <$> rs))).
  cbn [mbind option_bind un_slice]. change (un_int64 (JNum "1")) with (Some 1). cbn [mbind option_bind].
  rewrite bool_false_if by done. destruct D as [HF Hn Hc].
  rewrite (bool_false_if (3 <? _)%nat) by (rewrite length_fmap; by apply Nat.ltb_ge).
  apply load_records_roundtrip; [done|done|]. intros x _. apply not_elem_of_nil.
Qed.

Lemma load_inv rd w o e w' :
  jinv (mkHistory w o) → loadLocked rd w = (e, w') →
  match e with
  | Some _ => w' = w
  | None => loaded (jr w') = true ∧ jinv (mkHistory w' o) ∧ live (jr w') = live (jr w) ∧ file w' = file w ∧
            (loaded (jr w) = true → w' = w)
  end.
Proof.
  unfold loadLocked, jinv. cbn [now_ owed]. intros [(rs & Hf & D) M] H.
  assert (Hd : disk_ok rs ∅ o → memory_ok (mkJournal true rs ∅ ∅) o).
  { intros [? _ Ho]. constructor; cbn; [done|done|set_solver|]. intros p k (r & ? & [?|?])%Ho; exists r; split; auto. }
  destruct (loaded (jr w)) eqn:El; [injection H as <- <-; rewrite El; eauto 10|].
  assert (live (jr w) = ∅) as Hl by (by rewrite M). rewrite Hl in D.
  destruct (file w) as [d|] eqn:Ef; cbn [file_is] in Hf; subst.
  - destruct (negb rd); [by injection H as <- <-|]. rewrite load_document_print in H by apply D. injection H as <- <-.
    rewrite M. cbn. rewrite Ef. cbn. split_and!; try done; eauto.
  - injection H as <- <-. rewrite M. cbn. rewrite Ef. cbn. split_and!; try done; eauto.
Qed.

Lemma memory_update f i r j o :
  (∀ r, ProfileDigest (f r) = ProfileDigest r) → memory_ok j o → records j !! i = Some r → record_ok (f r) →
  Generation (f r) = Generation r → Pending (f r) = Pending r → (∀ k, covers r k → covers (f r) k) →
  memory_ok (j <| records := alter f i (records j) |>) o.
Proof.
  intros Hf [Md Ml Mu Mo] Hi Hr Hg Hp Hc.
  assert (Hget : ∀ q x, get q (records j) = Some x → ∃ y, get q (alter f i (records j)) = Some y ∧
    Generation y = Generation x ∧ Pending y = Pending x ∧ (∀ k, covers x k → covers y k)).
  { intros q x Hq. rewrite (get_alter f i _ r) by (done || apply Md). case_bool_decide as Hd; [|eauto].
    subst q. rewrite (get_lookup _ i r) in Hq by (done || apply Md). injection Hq as <-. eauto. }
  constructor; cbn.
  - by eapply doc_alter.
  - intros q g (Hgv & x & Hx & Hgx & Hpx)%Ml. apply Hget in Hx as (y & ? & ? & ? & _). split; [done|]. exists y. split_and!; [done|congruence|congruence].
  - intros q (x & Hx & Hpx)%Mu. apply Hget in Hx as (y & ? & ? & ? & _). exists y. split; [done|congruence].
  - intros q k (x & Hx & Hpx)%Mo. apply Hget in Hx as (y & ? & ? & Hpy & ?). exists y. split; [done|]. rewrite Hpy. naive_solver.
Qed.

Lemma disk_cons rs lv o p g k : disk_ok rs lv o → lv !! p = Some g → disk_ok rs lv ((p, k) :: o).
Proof.
  intros [Dd Dl Do] Hp. constructor; [done|done|]. intros q k' [[= -> ->]|H]%elem_of_cons; [|by apply Do].
  apply Dl in Hp as (r & ? & ?). eauto.
Qed.

Lemma memory_cons j o p k r : memory_ok j o → get p (records j) = Some r →
  covers r k ∨ Pending r = true ∧ p ∈ unsettled j → memory_ok j ((p, k) :: o).
Proof.
  intros [Md Ml Mu Mo] Hp Hk. constructor; [done|done|done|]. intros q k' [[= -> ->]|H]%elem_of_cons; [|by apply Mo].
  exists r. split; [done|]. naive_solver.
Qed.

(** ** The records the operations write are well-formed *)

Lemma some_date_mono t : some_date t → mono t = None.
Proof. intros [->|(v & [_ H]%format_parse_utc)]; [done|done]. Qed.

Lemma some_date_format t : some_date t → t ≠ zero_time → parse_utc (format_utc t) = Some t.
Proof. intros [->|(v & Hv)] H; [done|]. pose proof (format_parse_utc v t Hv) as [-> _]. done. Qed.

Lemma expiry_date r : record_ok r → some_date (control_time (ExpiresAt r)).
Proof.
  intros R. unfold control_time. destruct (ro_expires r R) as [->|(t & Ht)]; [by left|].
  rewrite (utc_control _ _ Ht). right. eauto.
Qed.

(** Extending the bound of a record keeps its leases within. *)
Lemma extend_ok r e : record_ok r → some_date e → After e (control_time (ExpiresAt r)) = true →
  record_ok (r <| ExpiresAt := format_expiry e |>).
Proof.
  intros R He Ha. pose proof (some_date_mono e He) as Hm. pose proof (expiry_date r R) as Hx.
  unfold After in Ha. rewrite before_wall in Ha by done.
  assert (e ≠ zero_time) as Hz.
  { intros ->. cbn in Ha. destruct (ro_expires r R) as [Hr|(t & Ht)].
    - rewrite Hr in Ha. change (control_time "") with zero_time in Ha. cbn in Ha. lia.
    - unfold control_time in Ha. rewrite (utc_control _ _ Ht) in Ha. cbn in Ha. apply parse_utc_nonneg in Ht. lia. }
  pose proof (some_date_format e He Hz) as Hp. destruct R. constructor; cbn; try assumption; [eauto|].
  eapply Forall_impl; [exact ro_leases0|]. intros l (Hv & t & Ht & Hw). split; [done|]. exists e. split; [done|].
  unfold control_time at 1 in Ha. rewrite (utc_control _ _ Ht) in Ha. cbn in Ha. lia.
Qed.

Lemma begin_profile c g e r : ProfileDigest (begin_record c g e r) = ProfileDigest r.
Proof. unfold begin_record. cbn. repeat case_match; done. Qed.
Lemma begin_pending c g e r : Pending (begin_record c g e r) = true ∧ Generation (begin_record c g e r) = g.
Proof. unfold begin_record. cbn. repeat case_match; done. Qed.
Lemma begin_covers c g e r k : covers r k → covers (begin_record c g e r) k.
Proof. unfold begin_record. cbn. repeat case_match; by destruct k. Qed.

(** [r] but for its generation, which [begin] replaces. *)
Lemma begin_ok c g e r r' :
  record_ok r' → ProfileDigest r = ProfileDigest r' → CatalogSHA256 r = CatalogSHA256 r' → PolicyAction r = PolicyAction r' →
  CatalogWithdrawn r = CatalogWithdrawn r' → ExpiresAt r = ExpiresAt r' → Leases r = Leases r' →
  ScopeActions r = ScopeActions r' → c = "" ∨ smartAccessRuntimeDigest c = true → smartAccessLeaseID g = true →
  some_date e → record_ok (begin_record c g e r).
Proof.
  intros R E1 E2 E3 E4 E5 E6 E7 Hc Hg He. unfold begin_record.
  assert (R0 : record_ok (r <| Generation := g |> <| Pending := true |>))
    by (destruct R; constructor; cbn; rewrite ?E1, ?E2, ?E3, ?E4, ?E5, ?E6, ?E7; assumption).
  revert R0. generalize (r <| Generation := g |> <| Pending := true |>). clear - Hc He. intros r R.
  assert (R1 : record_ok (if bool_decide (CatalogSHA256 r = "") then r <| CatalogSHA256 := c |> else r))
    by (case_bool_decide; [|done]; destruct R; constructor; cbn; assumption).
  revert R1. generalize (if bool_decide (CatalogSHA256 r = "") then r <| CatalogSHA256 := c |> else r). clear - He. intros r R.
  destruct (negb (IsZero e) && _) eqn:E; [|done]. apply andb_true_iff in E as [_ E]. by apply extend_ok.
Qed.

Lemma restrict_profile reason r : ProfileDigest (restrict_record reason r) = ProfileDigest r.
Proof. unfold restrict_record. repeat case_match; done. Qed.
Lemma restrict_fields reason r : Generation (restrict_record reason r) = Generation r ∧ Pending (restrict_record reason r) = Pending r.
Proof. unfold restrict_record. repeat case_match; done. Qed.

Lemma restrict_ok reason r : record_ok r → record_ok (restrict_record reason r).
Proof.
  intros R. unfold restrict_record. destruct (decide (reason = "issuance_disabled")) as [->|Hr].
  - change (bool_decide ("issuance_disabled" = "catalog_disabled")) with false.
    change (bool_decide ("issuance_disabled" = "issuance_disabled")) with true. cbn [negb].
    case_bool_decide as Hn; [|done]. destruct R. constructor; cbn; try assumption; [done|].
    intros Hw%ro_withdrawn0. congruence.
  - rewrite (bool_decide_eq_false_2 (reason = "issuance_disabled")) by done.
    case_bool_decide; destruct R; constructor; cbn; try assumption; done.
Qed.

(** Decides the equalities of literal strings in the goal. *)
Ltac str_decide :=
  repeat match goal with |- context [bool_decide (String ?a ?b = String ?c ?d)] =>
    let v := eval vm_compute in (bool_decide (String a b = String c d)) in
    change (bool_decide (String a b = String c d)) with v end; cbn [negb].

Lemma restrict_covers reason r : reason ∈ reasons → record_ok r → covers (restrict_record reason r) (RPolicy reason).
Proof.
  intros Hr R. apply list_elem_of_In in Hr. unfold covers, restrict_record. pose proof (ro_action r R) as Ha.
  apply bool_decide_eq_true in Ha. destruct Hr as [<-|[<-|[<-|[<-|[]]]]]; str_decide; [|done|done|done].
  case_bool_decide; cbn; [by left|]. rewrite !elem_of_cons, elem_of_nil in Ha. naive_solver.
Qed.

Lemma restrict_keeps reason r k : record_ok r → covers r k → covers (restrict_record reason r) k.
Proof.
  intros R. destruct k as [reason'|s a]; unfold covers, restrict_record;
    repeat (case_bool_decide; cbn [negb]); cbn; intuition congruence.
Qed.

Lemma scope_ok scope action r : record_ok r → smartAccessRuntimeDigest scope = true →
  one_of ["drain"; "terminate"] action = true → is_Some (ScopeActions r !! scope) ∨ (size (ScopeActions r) < 256)%nat →
  record_ok (r <| ScopeActions ::= insert scope action |>).
Proof.
  intros R Hs Ha Hn. destruct R. constructor; cbn; try assumption.
  - by apply map_Forall_insert_2.
  - destruct (ScopeActions r !! scope) eqn:E.
    + rewrite map_size_insert_Some by eauto. done.
    + rewrite map_size_insert_None by done. destruct Hn as [[? ?]|?]; [done|]. lia.
Qed.

Lemma scope_keeps scope action r k : one_of ["drain"; "terminate"] action = true → ScopeActions r !! scope ≠ Some "terminate" →
  record_ok r → covers r k → covers (r <| ScopeActions ::= insert scope action |>) k.
Proof.
  intros Ha Hn R. destruct k as [|s a]; cbn; [done|]. intros H. destruct (decide (s = scope)) as [->|Hs].
  - rewrite lookup_insert_eq. destruct H as [H|H]; [|done].
    pose proof (ro_scopes r R scope a H) as [_ Ha']. apply bool_decide_eq_true in Ha, Ha'.
    rewrite !elem_of_cons, elem_of_nil in Ha, Ha'. naive_solver.
  - by rewrite lookup_insert_ne.
Qed.

(** ** The leases a renewal retains *)

Definition leases_ok (m : gmap string identity) : Prop := map_Forall (λ k l, LeaseID l = k ∧ identity_valid l = true) m.

Lemma retained_ok now previous next ids ls :
  Forall (λ l, identity_valid l = true) ls → leases_ok (retained now previous next ids ls).
Proof.
  unfold retained. assert (leases_ok ∅) as H0 by apply map_Forall_empty. revert H0. generalize (∅ : gmap string identity).
  induction ls as [|l ls IH]; intros m Hm HF; [done|]. apply Forall_cons in HF as [Hl HF]. cbn. apply IH; [|done].
  destruct (kept now previous next ids l); [|done]. by apply map_Forall_insert_2.
Qed.

Lemma later_date e l : some_date e → identity_valid l = true → some_date (later e l).
Proof.
  intros He Hl. unfold later. destruct (After _ _); [|done]. destruct (identity_dates l Hl) as (? & ? & a & _ & _ & Ha & _).
  right. exists (ActiveFlowsUntil l). unfold control_time. by rewrite (utc_control _ _ Ha).
Qed.

Lemma later_wall e l : some_date e → identity_valid l = true →
  wall e ≤ wall (later e l) ∧ wall (control_time (ActiveFlowsUntil l)) ≤ wall (later e l).
Proof.
  intros He Hl. unfold later, After. rewrite before_wall_l by (by apply some_date_mono). case_match; lia.
Qed.

Lemma latest ls e : some_date e → Forall (λ l, identity_valid l = true) ls →
  some_date (foldl later e ls) ∧ wall e ≤ wall (foldl later e ls) ∧
  Forall (λ l, wall (control_time (ActiveFlowsUntil l)) ≤ wall (foldl later e ls)) ls.
Proof.
  intros He HF. revert e He. induction HF as [|l ls Hl HF IH]; intros e He; cbn; [done|].
  destruct (IH (later e l) (later_date e l He Hl)) as (H1 & H2 & H3). pose proof (later_wall e l He Hl).
  split_and!; [done|lia|]. constructor; [lia|done].
Qed.

Lemma active_positive l : identity_valid l = true → 0 < wall (control_time (ActiveFlowsUntil l)).
Proof.
  intros Hl. destruct (identity_dates l Hl) as (? & ? & a & _ & _ & Ha & ? & ? & _). unfold control_time.
  rewrite (utc_control _ _ Ha). cbn. lia.
Qed.

Lemma leases_ids m : leases_ok m → LeaseID <$> (map_to_list m).*2 = (map_to_list m).*1.
Proof.
  intros Hm. rewrite <- list_fmap_compose. apply list_fmap_ext. intros i [k l] Hi%list_elem_of_lookup_2.
  apply elem_of_map_to_list, Hm in Hi as [Hi _]. done.
Qed.

Lemma retain_ok m r : record_ok r → leases_ok m → m ≠ ∅ → (size m ≤ 256)%nat → record_ok (retain_record m r).
Proof.
  intros R Hm Hne Hs. unfold retain_record. set (ls := (map_to_list m).*2).
  assert (HV : Forall (λ l, identity_valid l = true) ls).
  { apply Forall_forall. intros l Hl. apply list_elem_of_fmap in Hl as ([k x] & -> & Hx).
    by apply elem_of_map_to_list, Hm in Hx as [_ ?]. }
  destruct (latest ls _ (expiry_date r R) HV) as (HD & _ & HW). set (e := foldl later _ ls) in *.
  assert (Hp : parse_utc (format_expiry e) = Some e).
  { apply some_date_format; [done|]. intros He. destruct ls as [|l ls'] eqn:E.
    - apply Hne, map_to_list_empty_iff. by apply fmap_nil_inv in E.
    - apply Forall_cons in HW as [HW _], HV as [Hl _]. apply active_positive in Hl. rewrite He in HW. cbn in HW. lia. }
  pose proof (merge_sort_Permutation id_le ls) as HP. destruct R. constructor; cbn; try assumption.
  - right. eauto.
  - rewrite HP. apply Forall_forall. intros l Hl. rewrite Forall_forall in HV, HW. split; [by apply HV|]. exists e. auto.
  - rewrite HP. unfold ls. rewrite leases_ids by done. apply NoDup_fst_map_to_list.
  - rewrite HP. unfold ls. by rewrite length_fmap, length_map_to_list.
Qed.

(** ** Every step keeps the invariant *)

Lemma live_generation p g j : live_of p j = g → smartAccessLeaseID g = true → live j !! p = Some g.
Proof. unfold live_of. destruct (live j !! p); cbn; [by intros ->|]. by intros <-. Qed.

Lemma undo w rs : set_records (records (jr w)) (set_records rs w) = w.
Proof. by destruct w as [f []]. Qed.

(** A write that is taken back when it fails. *)
Lemma write_undo wr w o rs e w' :
  jinv (mkHistory w o) → loaded (jr w) = true → memory_ok (jr (set_records rs w)) o →
  writeLocked wr (set_records rs w) = (e, w') →
  jinv (mkHistory (match e with Some _ => set_records (records (jr w)) w' | None => w' end) o).
Proof.
  intros I Hl M H. destruct e as [e|].
  - unfold writeLocked in H. destruct (_ <? _); [|destruct (negb wr)]; [| |done]; injection H as <- <-; by rewrite undo.
  - eapply write_inv in H as [? _]; [done|done|done|]. destruct I as [(rs' & ? & ?) _]. exists rs'. done.
Qed.

Lemma loaded_memory w o : jinv (mkHistory w o) → loaded (jr w) = true → memory_ok (jr w) o.
Proof. intros [_ M] H. cbn in *. by rewrite H in M. Qed.

Lemma begin_memory p c g e j o i rs r :
  memory_ok j o → p ∉ unsettled j → rs !! i = Some r → ProfileDigest r = p → doc_ok (alter (begin_record c g e) i rs) →
  NoDup (ProfileDigest <$> rs) → (∀ q, q ≠ p → get q rs = get q (records j)) →
  (∀ x, get p (records j) = Some x → x = r ∧ (live j !! p = None → Pending r = false)) → smartAccessLeaseID g = true →
  memory_ok (j <| records := alter (begin_record c g e) i rs |> <| live ::= insert p g |>) o.
Proof.
  intros [Md Ml Mu Mo] Hu Hi Hp Hd Hn Hq Hx Hg.
  assert (Hget : ∀ q, get q (alter (begin_record c g e) i rs) =
    if bool_decide (p = q) then Some (begin_record c g e r) else get q (records j)).
  { intros q. rewrite (get_alter _ i _ r) by (done || apply begin_profile). rewrite Hp. case_bool_decide; [done|]. by apply Hq. }
  destruct (begin_pending c g e r) as [Bp Bg].
  constructor; cbn [records live unsettled set].
  - done.
  - intros q g'. cbn. rewrite Hget. case_bool_decide as E.
    + subst q. rewrite lookup_insert_eq. intros [= <-]. eauto 10.
    + rewrite lookup_insert_ne by done. apply Ml.
  - intros q Huq. cbn. rewrite Hget. case_bool_decide as E; [by subst|]. by apply Mu.
  - intros q k (x & Hgx & Hk)%Mo. cbn. rewrite Hget. case_bool_decide as E.
    + subst q. destruct (Hx x Hgx) as [-> Hxp]. exists (begin_record c g e r). split; [done|]. left.
      destruct Hk as [Hk|[Hk [?|Hl]]]; [by apply begin_covers|done|]. rewrite (Hxp Hl) in Hk. done.
    + rewrite lookup_insert_ne by done. eauto.
Qed.

Lemma begin_inv w o p c e entropy rd wr :
  jinv (mkHistory w o) → smartAccessRuntimeDigest p = true → c = "" ∨ smartAccessRuntimeDigest c = true → some_date e →
  (∀ b, entropy = Some b → length b = 16%nat) → jinv (mkHistory (begin_ p c e entropy rd wr w).2 o).
Proof.
  intros I Hp Hc He Hb. unfold begin_. destruct (loadLocked rd w) as [err w0] eqn:El. pose proof (load_inv _ _ _ _ _ I El) as Hl.
  destruct err as [err|]; [by subst|]. destruct Hl as (Hl & I0 & _). clear I El w. rename w0 into w.
  destruct (is_unsettled p (jr w)) eqn:Hu; [done|]. apply bool_decide_eq_false in Hu.
  destruct (bool_decide (find_record (of_profile p) (records (jr w)) = None) && _) eqn:E3; [done|].
  destruct (_ ≫= _) as [err|] eqn:Er; [done|]. destruct entropy as [b|]; [|done]. specialize (Hb b eq_refl).
  pose proof (hex_encode_hex b 16 Hb) as Hg. change (2 * 16)%nat with 32%nat in Hg. fold (smartAccessLeaseID (str_of_list (hex_encode b))) in Hg.
  revert Hg. generalize (str_of_list (hex_encode b)). intros g Hg. pose proof (loaded_memory w o I0 Hl) as M. pose proof (mk_doc _ _ M) as Md.
  assert (∃ i rs, (match find_record (of_profile p) (records (jr w)) with
     | Some (i, _) => (i, records (jr w))
     | None => (length (records (jr w)), records (jr w) ++ [mkRecord p c "" false "none" false "" [] ∅]) end) = (i, rs) ∧
     memory_ok ((jr w) <| records := alter (begin_record c g e) i rs |> <| live ::= insert p g |>) o) as (i & rs & -> & M').
  { destruct (find_record (of_profile p) (records (jr w))) as [[i r]|] eqn:Ef.
    - pose proof (find_record_spec _ _ _ _ Ef) as [Hi Hr]. apply bool_decide_eq_true in Hr.
      exists i, (records (jr w)). split; [done|]. pose proof (get_lookup _ i r (do_distinct _ Md) Hi) as Hget.
      eapply begin_memory; try done.
      + eapply doc_alter; [apply begin_profile|done|done|]. eapply begin_ok; try done. by eapply doc_get.
      + apply Md.
      + rewrite <- Hr, Hget. intros x [= <-]. split; [done|]. intros Hlv. cbn [mbind option_bind] in Er. unfold begin_refused in Er.
        unfold live_of in Er. rewrite Hr in Hlv. rewrite Hlv in Er. cbn in Er. by destruct (Pending r).
    - set (r := mkRecord p c "" false "none" false "" [] ∅). exists (length (records (jr w))), (records (jr w) ++ [r]).
      pose proof Ef as Hnp. apply get_none in Hnp. split; [done|].
      assert (Hi : (records (jr w) ++ [r]) !! length (records (jr w)) = Some r) by (by apply list_lookup_middle).
      assert (Hn : NoDup (ProfileDigest <$> records (jr w) ++ [r])).
      { rewrite fmap_app. apply NoDup_app. split_and!; [apply Md| |apply NoDup_singleton]. cbn. intros x Hx ->%list_elem_of_singleton. done. }
      eapply begin_memory; try done.
      + constructor.
        * rewrite alter_app_r_alt by lia. rewrite Nat.sub_diag. apply Forall_app. split; [apply Md|].
          constructor; [|done]. eapply (begin_ok c g e r (r <| Generation := g |>)); try done.
          constructor; cbn; first [done|by left|by constructor|by apply map_Forall_empty|by rewrite ?map_size_empty; lia].
        * by rewrite alter_profiles by apply begin_profile.
        * rewrite length_alter, length_app. cbn. rewrite bool_decide_eq_true_2 in E3 by done. cbn [andb] in E3.
          apply Nat.leb_gt in E3. lia.
      + intros q Hq. rewrite get_app. destruct (get q (records (jr w))); [done|]. rewrite get_cons. by rewrite bool_decide_eq_false_2.
      + intros x [Hx Hxp]%get_some. destruct Hnp. rewrite <- Hxp. by apply list_elem_of_fmap_2. }
  destruct (writeLocked wr _) as [err w'] eqn:Ew. unfold writeLocked in Ew.
  destruct (_ <? _); [|destruct (negb wr)]; injection Ew as <- <-; cbn [snd]; [by rewrite undo|by rewrite undo|].
  split; cbn; [|cbn in M'; rewrite Hl in M' |- *; exact M']. exists (alter (begin_record c g e) i rs). split; [done|]. by apply memory_disk in M'.
Qed.

(** A worker's update of its own record. *)
Lemma update_memory f i r p g w o :
  jinv (mkHistory w o) → find_record (of_generation p g) (records (jr w)) = Some (i, r) → loaded (jr w) = true →
  (∀ r, ProfileDigest (f r) = ProfileDigest r) → (record_ok r → record_ok (f r)) →
  Generation (f r) = Generation r → Pending (f r) = Pending r → (∀ k, record_ok r → covers r k → covers (f r) k) →
  memory_ok (jr (set_records (alter f i (records (jr w))) w)) o ∧ record_ok r ∧ get p (records (jr w)) = Some r ∧
  get p (alter f i (records (jr w))) = Some (f r).
Proof.
  intros I Hf Hl H1 H2 H3 H4 H5. pose proof (loaded_memory w o I Hl) as M. pose proof (mk_doc _ _ M) as Md.
  destruct (generation_get p g _ i r (do_distinct _ Md) Hf) as (Hi & Hg & Hp & _). pose proof (doc_get p _ r Md Hg) as R.
  split_and!; [|done|done|].
  - by apply (memory_update f i r); auto.
  - rewrite (get_alter f i _ r) by (done || apply Md). by rewrite bool_decide_eq_true_2.
Qed.

Lemma generation_loaded w o p g ir : jinv (mkHistory w o) → find_record (of_generation p g) (records (jr w)) = Some ir →
  loaded (jr w) = true.
Proof. intros [_ M] H. cbn in M. destruct (loaded (jr w)); [done|]. by rewrite M in H. Qed.

Lemma extend_inv w o p g e wr : jinv (mkHistory w o) → some_date e → jinv (mkHistory (extendExpiry p g e wr w).2 o).
Proof.
  intros I He. unfold extendExpiry. case_match; [done|].
  destruct (find_record (of_generation p g) (records (jr w))) as [[i r]|] eqn:Ef; [|done]. case_match eqn:Ha; [done|].
  pose proof (generation_loaded w o p g _ I Ef) as Hl. apply negb_false_iff in Ha.
  destruct (update_memory (λ r, r <| ExpiresAt := format_expiry e |>) i r p g w o I Ef Hl) as [M _].
  { reflexivity. } { intros R. by apply extend_ok. } { reflexivity. } { reflexivity. } { by intros []. }
  destruct (writeLocked wr _) as [err w'] eqn:Ew. pose proof (write_undo _ _ _ _ _ _ I Hl M Ew). by destruct err.
Qed.

Lemma retain_inv w o p g previous next ids now wr :
  jinv (mkHistory w o) → identity_valid previous = true → identity_valid next = true →
  jinv (mkHistory (retainRenewal p g previous next ids now wr w).2 o).
Proof.
  intros I Hv1 Hv2. unfold retainRenewal. case_match; [done|].
  destruct (find_record (of_generation p g) (records (jr w))) as [[i r]|] eqn:Ef; [|done].
  case_match; [done|]. case_match; [done|]. case_match; [done|]. case_match eqn:Hs; [done|]. apply Nat.ltb_ge in Hs.
  pose proof (generation_loaded w o p g _ I Ef) as Hl. set (m := <[LeaseID next := next]> _) in *.
  destruct (update_memory (retain_record m) i r p g w o I Ef Hl) as [M _].
  { reflexivity. }
  { intros R. apply retain_ok; [done| |apply insert_non_empty|done].
    apply map_Forall_insert_2; [done|]. apply map_Forall_insert_2; [done|]. apply retained_ok. by apply valid_leases. }
  { reflexivity. } { reflexivity. } { by intros []. }
  destruct (writeLocked wr _) as [err w'] eqn:Ew. pose proof (write_undo _ _ _ _ _ _ I Hl M Ew). by destruct err.
Qed.

Lemma live_loaded w o p g : jinv (mkHistory w o) → live (jr w) !! p = Some g → loaded (jr w) = true.
Proof. intros [_ M] H. cbn in M. destruct (loaded (jr w)); [done|]. by rewrite M in H. Qed.

(** The live worker's record is found. *)
Lemma live_record w o p g : jinv (mkHistory w o) → live (jr w) !! p = Some g →
  ∃ i r, find_record (of_generation p g) (records (jr w)) = Some (i, r) ∧ Pending r = true.
Proof.
  intros I Hp. pose proof (live_loaded w o p g I Hp) as Hl. pose proof (loaded_memory w o I Hl) as M.
  destruct (mk_live _ _ M p g Hp) as (_ & r & Hr & Hg & Hpend).
  destruct (find_record (of_generation p g) (records (jr w))) as [[i r']|] eqn:E.
  - exists i, r'. split; [done|]. destruct (generation_get p g _ i r' (do_distinct _ (mk_doc _ _ M)) E) as (_ & Hr' & _). congruence.
  - apply get_some in Hr as [Hin <-]. pose proof (find_record_none _ _ _ E Hin) as H. unfold of_generation in H.
    rewrite Hg, !bool_decide_eq_true_2 in H by done. done.
Qed.

Lemma disk_live w o p g k : jinv (mkHistory w o) → live (jr w) !! p = Some g →
  ∃ rs, file_is (file w) rs ∧ disk_ok rs (live (jr w)) ((p, k) :: o).
Proof. intros [(rs & Hf & D) _] Hp. exists rs. split; [done|]. by eapply disk_cons. Qed.

Lemma restrict_inv w o p g reason wr :
  jinv (mkHistory w o) → live (jr w) !! p = Some g → reason ∈ reasons →
  jinv (mkHistory (restrict p g reason wr w) ((p, RPolicy reason) :: o)).
Proof.
  intros I Hp Hr. unfold restrict. destruct (live_record w o p g I Hp) as (i & r & Hf & _). rewrite Hf.
  pose proof (live_loaded w o p g I Hp) as Hl.
  destruct (update_memory (restrict_record reason) i r p g w o I Hf Hl) as (M & R & _ & Hget).
  { apply restrict_profile. } { apply restrict_ok. } { apply restrict_fields. } { apply restrict_fields. }
  { intros k ? ?. by apply restrict_keeps. }
  destruct (writeLocked wr _) as [err w'] eqn:Ew. refine (proj1 (write_inv _ _ _ _ _ _ _ _ Ew)); [exact Hl| |exact (disk_live w o p g _ I Hp)].
  eapply memory_cons; [exact M|exact Hget|]. left. by apply restrict_covers.
Qed.

Lemma scope_inv w o p g scope action wr :
  jinv (mkHistory w o) → live (jr w) !! p = Some g → smartAccessRuntimeDigest scope = true →
  one_of ["drain"; "terminate"] action = true →
  jinv (mkHistory (restrictScope p g scope action wr w) ((p, RScope scope action) :: o)).
Proof.
  intros I Hp Hs Ha. unfold restrictScope. destruct (live_record w o p g I Hp) as (i & r & Hf & Hpend). rewrite Hf.
  pose proof (live_loaded w o p g I Hp) as Hl. pose proof (loaded_memory w o I Hl) as M.
  destruct (generation_get p g _ i r (do_distinct _ (mk_doc _ _ M)) Hf) as (_ & Hget & _).
  pose proof (doc_get p _ r (mk_doc _ _ M) Hget) as R.
  destruct (bool_decide (default "" (ScopeActions r !! scope) = "") && _) eqn:Efull.
  - split; cbn [now_ owed]; [exact (disk_live w o p g _ I Hp)|]. cbn. rewrite Hl. destruct M as [Md Ml Mu Mo]. constructor; cbn.
    + done.
    + done.
    + intros q [->%elem_of_singleton|Hq]%elem_of_union; [eauto|by apply Mu].
    + intros q k [[= -> ->]|Hq]%elem_of_cons; [|].
      * exists r. split; [done|]. right. split; [done|]. left. apply elem_of_union. left. by apply elem_of_singleton.
      * apply Mo in Hq as (x & Hx & Hk). exists x. split; [done|]. destruct Hk as [?|[? [?|?]]]; [by left|right|right]; split; auto.
        left. apply elem_of_union. by right.
  - destruct (bool_decide (default "" (ScopeActions r !! scope) = "terminate")) eqn:Ht;
      [apply bool_decide_eq_true in Ht|apply bool_decide_eq_false in Ht].
    + destruct (writeLocked wr w) as [err w'] eqn:Ew. refine (proj1 (write_inv _ _ _ _ _ _ _ _ Ew)); [exact Hl| |exact (disk_live w o p g _ I Hp)].
      eapply memory_cons; [done|done|]. left. cbn. right. by destruct (ScopeActions r !! scope) as [x|]; cbn in Ht; subst.
    + assert (Hnt : ScopeActions r !! scope ≠ Some "terminate") by (intros Hc; by rewrite Hc in Ht).
      destruct (update_memory (λ r, r <| ScopeActions ::= insert scope action |>) i r p g w o I Hf Hl) as (M' & _ & _ & Hget').
      { reflexivity. }
      { intros _. apply scope_ok; [done|done|done|]. destruct (ScopeActions r !! scope) as [x|] eqn:E; [left; eauto|right].
        cbn [default] in Efull. apply Nat.leb_gt. by destruct (256 <=? _)%nat. }
      { reflexivity. } { reflexivity. } { intros k _ Hk. by apply scope_keeps. }
      destruct (writeLocked wr _) as [err w'] eqn:Ew. refine (proj1 (write_inv _ _ _ _ _ _ _ _ Ew)); [exact Hl| |exact (disk_live w o p g _ I Hp)].
      eapply memory_cons; [exact M'|exact Hget'|]. left. cbn. left. by rewrite lookup_insert_eq.
Qed.

Lemma finish_inv w o p g wr : jinv (mkHistory w o) → smartAccessLeaseID g = true → jinv (mkHistory (finish p g wr w) o).
Proof.
  intros I Hg. unfold finish. case_match eqn:Hlive; [done|]. apply negb_false_iff, bool_decide_eq_true in Hlive.
  apply live_generation in Hlive; [|done]. pose proof (live_loaded w o p g I Hlive) as Hl.
  pose proof (loaded_memory w o I Hl) as M. pose proof (mk_doc _ _ M) as Md.
  destruct (live_record w o p g I Hlive) as (k & r0 & Hf0 & _).
  destruct (generation_get p g _ k r0 (do_distinct _ Md) Hf0) as (_ & Hget0 & _).
  cbv zeta. set (w1 := w <| jr ::= _ |>). change (records (jr w1)) with (records (jr w)).
  change (is_unsettled p (jr w1)) with (is_unsettled p (jr w)).
  destruct (find_record (of_profile p) (records (jr w))) as [[i r]|] eqn:Ef;
    [|unfold get in Hget0; by rewrite Ef in Hget0].
  assert (r0 = r) as -> by (unfold get in Hget0; rewrite Ef in Hget0; by injection Hget0).
  apply find_record_spec in Ef as [Hi Hr]. apply bool_decide_eq_true in Hr.
  set (f := λ r : record, r <| Pending := is_unsettled p (jr w) |>).
  assert (Hget : ∀ q, get q (alter f i (records (jr w))) = if bool_decide (p = q) then Some (f r) else get q (records (jr w))).
  { intros q. rewrite (get_alter f i _ r) by (done || apply Md). by rewrite Hr. }
  destruct (writeLocked wr _) as [err w'] eqn:Ew. refine (proj1 (write_inv _ _ _ _ _ _ _ _ Ew)); [exact Hl| |].
  - destruct M as [_ Ml Mu Mo].
    change (memory_ok (mkJournal (loaded (jr w)) (alter f i (records (jr w))) (delete p (live (jr w))) (unsettled (jr w))) o).
    constructor; cbn [records live unsettled].
    + eapply doc_alter; [done|done|done|]. pose proof (doc_get p _ r Md Hget0) as R. destruct R. constructor; assumption.
    + intros q g'. rewrite Hget. case_bool_decide as E; [subst; by rewrite lookup_delete_eq|]. rewrite lookup_delete_ne by done. apply Ml.
    + intros q Hq. rewrite Hget. case_bool_decide as E; [|by apply Mu]. subst q. exists (f r). split; [done|].
      unfold f, is_unsettled. cbn. by apply bool_decide_eq_true.
    + intros q k' (x & Hx & Hk)%Mo. rewrite Hget. case_bool_decide as E.
      * subst q. rewrite Hget0 in Hx. injection Hx as <-. exists (f r). split; [done|].
        destruct Hk as [Hk|[_ [Hk|Hk]]]; [left; by destruct k'| |congruence]. right. split; [|by left].
        unfold f, is_unsettled. cbn. by apply bool_decide_eq_true.
      * exists x. rewrite lookup_delete_ne by done. done.
  - destruct I as [(rs & Hfile & [D1 D2 D3]) _]. exists rs. split; [done|]. constructor; [done| |done].
    intros q g' Hq. change (delete p (live (jr w)) !! q = Some g') in Hq. apply lookup_delete_Some in Hq as [_ Hq]. by eapply D2.
Qed.

Lemma write_ok w : doc_ok (records (jr w)) → writeLocked true w = (None, w <| file := Some (print (document_json (records (jr w)))) |>).
Proof. intros D%document_length. unfold writeLocked. by rewrite bool_false_if by lia. Qed.

Lemma snapshot_inv rd wr w o res w' :
  jinv (mkHistory w o) → snapshotLocked rd wr w = (res, w') →
  jinv (mkHistory w' o) ∧ live (jr w') = live (jr w) ∧
  (∀ text d, res = Ok (text, d) → loaded (jr w') = true ∧ text = snapshot_text (jr w') ∧ d = snapshot_digest (jr w')) ∧
  (rd = true → wr = true → ∃ text d, res = Ok (text, d)).
Proof.
  intros I H. unfold snapshotLocked in H. destruct (loadLocked rd w) as [err w0] eqn:El. pose proof (load_inv _ _ _ _ _ I El) as L.
  destruct err as [err|].
  - subst. injection H as <- <-. split_and!; [done|done|done|]. intros -> _. exfalso. revert El. unfold loadLocked.
    destruct I as [(rs & Hf & D) M]. cbn in M, Hf. destruct (loaded (jr w)); [done|]. destruct (file w) as [d|]; [|done].
    cbn [negb]. rewrite Hf, load_document_print by apply D. done.
  - destruct L as (Hl & I0 & Hlive & _). destruct (writeLocked wr w0) as [err w1] eqn:Ew.
    pose proof (loaded_memory w0 o I0 Hl) as M. pose proof (mk_doc _ _ M) as Md.
    destruct (write_inv _ _ _ _ _ Hl M ltac:(apply I0) Ew) as [I1 Hj]. rewrite <- Hj in Md, Hl. rewrite <- Hlive, <- Hj.
    destruct err as [err|].
    + injection H as <- <-. split_and!; [done|done|done|]. intros _ ->. rewrite write_ok in Ew by (by rewrite <- Hj). done.
    + pose proof (snapshot_length _ Md). rewrite bool_false_if in H by lia. injection H as <- <-.
      split_and!; [done|done| |eauto]. intros text d [= <- <-]. done.
Qed.

Lemma read_inv rd wr w o : jinv (mkHistory w o) → jinv (mkHistory (ReadSmartAccessRestrictions rd wr w).2 o).
Proof.
  intros I. unfold ReadSmartAccessRestrictions. destruct (snapshotLocked rd wr w) as [res w'] eqn:E. by apply (snapshot_inv _ _ _ _ _ _ I) in E as [? _].
Qed.

Lemma live_is_live w o p g r : jinv (mkHistory w o) → live (jr w) !! p = Some g → get p (records (jr w)) = Some r →
  is_live (jr w) r = true.
Proof.
  intros I Hp Hr. pose proof (loaded_memory w o I (live_loaded w o p g I Hp)) as M.
  destruct (mk_live _ _ M p g Hp) as (_ & r' & Hr' & Hg & _). replace r' with r in * by congruence.
  apply get_some in Hr as [_ <-]. unfold is_live, live_of. rewrite Hp. cbn. by rewrite bool_decide_eq_true_2.
Qed.

(** What remains after an acknowledgement. *)
Lemma settled_memory w o : jinv (mkHistory w o) → loaded (jr w) = true →
  let previous := records (jr w) in
  memory_ok ((jr w) <| records := filter (λ r, is_live (jr w) r = true) previous |>
    <| unsettled ::= λ u, u ∖ list_to_set (ProfileDigest <$> filter (λ r, is_live (jr w) r = false) previous) |>)
    (settle (jr w) o).
Proof.
  intros I Hl previous. pose proof (loaded_memory w o I Hl) as M. pose proof (mk_doc _ _ M) as Md. destruct M as [_ Ml Mu Mo].
  pose proof (do_distinct _ Md) as Hn.
  constructor; cbn [set records live unsettled journal_eta eta].
  - destruct Md as [HF _ Hc]. constructor.
    + apply Forall_forall. intros r [_ Hr]%list_elem_of_filter. rewrite Forall_forall in HF. by apply HF.
    + eapply sublist_NoDup; [exact Hn|]. apply fmap_sublist, sublist_filter.
    + pose proof (sublist_length _ _ (sublist_filter (λ r, is_live (jr w) r = true) previous)). unfold previous in *. cbn in *. lia.
  - cbn. intros p g Hp. destruct (Ml p g Hp) as (? & r & Hr & ? & ?). split; [done|]. exists r. split; [|done].
    apply get_filter; [done|done|]. by eapply live_is_live.
  - cbn. intros p [Hp Hg]%elem_of_difference. destruct (Mu p Hp) as (r & Hr & ?). exists r. split; [|done].
    apply get_filter; [done|done|]. destruct (is_live (jr w) r) eqn:E; [done|]. destruct Hg. apply elem_of_list_to_set.
    apply get_some in Hr as [Hr <-]. apply list_elem_of_fmap_2. by apply list_elem_of_filter.
  - cbn. intros p k Hk. apply list_elem_of_filter in Hk as [[g Hg] Hk]. cbn in Hg. destruct (Mo p k Hk) as (r & Hr & Hc).
    exists r. split; [apply get_filter; [done|done|by eapply live_is_live]|].
    destruct Hc as [Hc|[Hc [Hu|Hu]]]; [by left| |congruence]. right. split; [done|]. left. apply elem_of_difference. split; [done|].
    intros Hin. apply elem_of_list_to_set, list_elem_of_fmap in Hin as (x & -> & Hx). apply list_elem_of_filter in Hx as [Hx Hin].
    rewrite (get_in _ x) in Hr by done. injection Hr as <-.
    rewrite (live_is_live w o (ProfileDigest x) g x I Hg) in Hx; [done|]. by apply get_in.
Qed.

Lemma ack_inv w o d rd wr wr' :
  jinv (mkHistory w o) →
  let res := AcknowledgeSmartAccessRestrictions d rd wr wr' w in
  jinv (mkHistory res.2 (match res.1 with Ok true => settle (jr w) o | _ => o end)).
Proof.
  intros I res. unfold res, AcknowledgeSmartAccessRestrictions. clear res. case_match; [done|].
  destruct (snapshotLocked rd wr w) as [res w0] eqn:Es. pose proof (snapshot_inv _ _ _ _ _ _ I Es) as (I0 & Hlive & Hok & _).
  destruct res as [[text current]|err]; [|done]. destruct (Hok _ _ eq_refl) as (Hl & _ & _). case_match; [done|].
  pose proof (settled_memory w0 o I0 Hl) as M. cbv zeta in M |- *.
  replace (settle (jr w) o) with (settle (jr w0) o) by (unfold settle; by rewrite Hlive).
  destruct (writeLocked wr' (set_records _ w0)) as [err w1] eqn:Ew. unfold writeLocked in Ew.
  destruct (_ <? _); [|destruct (negb wr')]; injection Ew as <- <-; cbn [fst snd]; [by rewrite undo|by rewrite undo|].
  split; [|cbn in M |- *; rewrite Hl in M |- *; exact M].
  eexists. split; [reflexivity|]. by apply memory_disk in M.
Qed.

Lemma jinv_first : jinv first_run.
Proof. split; [|done]. exists []. split; [done|]. constructor; [constructor; [done|apply NoDup_nil_2|cbn; lia]|done|]. intros p k []%elem_of_nil. Qed.

Lemma crash_inv w o : jinv (mkHistory w o) → jinv (mkHistory (crash w) o).
Proof.
  intros [(rs & Hf & [D1 D2 D3]) _]. split; [|done]. exists rs. split; [done|]. constructor; [done| |done]. by intros p g.
Qed.

Lemma jstep_inv h h' : jinv h → jstep h h' → jinv h'.
Proof.
  intros I H. destruct H; [by apply begin_inv|by apply extend_inv|by apply retain_inv|by apply restrict_inv|
    by apply scope_inv|by apply finish_inv|by apply read_inv|by apply ack_inv|by apply crash_inv].
Qed.

Lemma jinv_reach h : rtc jstep first_run h → jinv h.
Proof.
  intros H. assert (∀ a b, rtc jstep a b → jinv a → jinv b) as Hs; [|by eapply Hs, jinv_first].
  clear. induction 1; [done|]. intros I. eauto using jstep_inv.
Qed.

(** ** Properties *)

Lemma owed_record h p k : jinv h → loaded (jr (now_ h)) = true → (p, k) ∈ owed h →
  ∃ r, get p (records (jr (now_ h))) = Some r ∧
    (covers r k ∨ Pending r = true ∧ (p ∈ unsettled (jr (now_ h)) ∨ live (jr (now_ h)) !! p = None)).
Proof. intros [_ M] Hl Hk. rewrite Hl in M. by apply M. Qed.

(** A record that carries a restriction, or is pending, is refused to a new worker. *)
Lemma covers_refused p c r k j : record_ok r → covers r k → live j !! p = None → begin_refused p c r j = Some recovery_required.
Proof.
  intros R Hk Hl. unfold begin_refused, live_of. rewrite Hl. cbn [default]. str_decide.
  rewrite (bool_decide_eq_true_2 ("" = "")) by done. rewrite !andb_true_r. destruct (Pending r); [done|].
  rewrite bool_true_if; [done|]. destruct k as [reason|s a]; cbn in Hk.
  - assert (PolicyAction r ≠ "none") by (revert Hk; case_bool_decide; intuition congruence). by rewrite bool_decide_eq_false_2.
  - assert (size (ScopeActions r) ≠ 0)%nat as Hs by (intros Hz%map_size_empty_iff; rewrite Hz, !lookup_empty in Hk; by destruct Hk).
    apply Nat.eqb_neq in Hs as ->. by rewrite !orb_true_r.
Qed.

Lemma owed_refused w o p k c e entropy rd wr :
  jinv (mkHistory w o) → (p, k) ∈ o → live (jr w) !! p = None →
  (begin_ p c e entropy rd wr w).1 = Err (if loaded (jr w) || rd then recovery_required else storage_invalid).
Proof.
  intros I Hk Hlv. unfold begin_. destruct (loadLocked rd w) as [err w0] eqn:El. pose proof (load_inv _ _ _ _ _ I El) as L.
  destruct err as [err|].
  - subst. revert El. unfold loadLocked. destruct I as [(rs & Hf & D) _]. cbn in Hf. destruct (loaded (jr w)); [done|].
    destruct (file w) as [d|]; [|done]. destruct rd; cbn [negb orb].
    + rewrite Hf, load_document_print by apply D. done.
    + by intros [= <-].
  - destruct L as (Hl & I0 & Hlive & Hfile & Hsame). rewrite (bool_true_if (loaded (jr w) || rd)).
    2:{ unfold loadLocked in El. destruct I as [(rs & Hf & D) _]. destruct (loaded (jr w)); [done|]. cbn [now_] in Hf.
        destruct (file w) as [d|] eqn:Efile; [by destruct rd|]. cbn [file_is] in Hf. subst rs. apply (dk_owed _ _ _ D) in Hk as (r & ? & _). done. }
    rewrite <- Hlive in Hlv. destruct (owed_record (mkHistory w0 o) p k I0 Hl Hk) as (r & Hr & Hc). cbn in Hr, Hc.
    pose proof (loaded_memory w0 o I0 Hl) as M. pose proof (doc_get p _ r (mk_doc _ _ M) Hr) as R.
    destruct (is_unsettled p (jr w0)); [done|]. unfold get in Hr. destruct (find_record _ _) as [[i x]|]; [|done]. injection Hr as ->.
    rewrite bool_decide_eq_false_2 by done. cbn [andb mbind option_bind snd].
    assert (begin_refused p c r (jr w0) = Some recovery_required) as ->; [|done].
    destruct Hc as [Hc|[Hc _]]; [by eapply covers_refused|]. unfold begin_refused, live_of. rewrite Hlv, Hc. done.
Qed.

(** C8: A restriction that a worker imposed stays in force across failed writes,
    restarts and crashes until the host has acknowledged it: in the present
    process and in one started after a crash, unless a worker of the profile is
    live, [begin] refuses the profile, asking for recovery (or reports that the
    file could not be read); and every snapshot handed to the host shows the
    profile as pending or shows the restriction. *)
Theorem restriction_survives h p k w :
  rtc jstep first_run h → (p, k) ∈ owed h → w = now_ h ∨ w = crash (now_ h) →
  (live (jr w) !! p = None → ∀ c e entropy rd wr,
     (begin_ p c e entropy rd wr w).1 = Err (if loaded (jr w) || rd then recovery_required else storage_invalid)) ∧
  (∀ rd wr text w', ReadSmartAccessRestrictions rd wr w = (Ok text, w') →
     text = snapshot_text (jr w') ∧
     ∃ r, entry_json (jr w') r ∈ entries (jr w') ∧ ProfileDigest r = p ∧ (Pending r = true ∨ covers r k)).
Proof.
  intros I%jinv_reach Hk Hw. assert (jinv (mkHistory w (owed h))) as Iw.
  { destruct h as [w0 o]. destruct Hw as [->| ->]; [done|]. by apply crash_inv. }
  split; [intros Hl c e entropy rd wr; by eapply owed_refused|].
  intros rd wr text w' H. unfold ReadSmartAccessRestrictions in H. destruct (snapshotLocked rd wr w) as [res w1] eqn:Es.
  pose proof (snapshot_inv _ _ _ _ _ _ Iw Es) as (I1 & _ & Hok & _). destruct res as [[t d]|]; [|done]. injection H as <- <-.
  destruct (Hok t d eq_refl) as (Hl & -> & _). split; [done|].
  destruct (owed_record _ p k I1 Hl Hk) as (r & Hr & Hc). apply get_some in Hr as [Hin Hp]. exists r.
  split_and!; [|done|naive_solver]. unfold entries. apply list_elem_of_fmap_2. cbn in Hin. by rewrite merge_sort_Permutation.
Qed.

(** C22: The journal reads back what it wrote.  In every reachable state the file,
    if there is one, is the text of a well-formed document that a restarted
    process loads exactly; a well-formed document never exceeds the size limit,
    so a write fails only if the file system fails, and what it wrote is what a
    restarted process loads. *)
Theorem journal_reloads h w :
  rtc jstep first_run h → w = now_ h →
  (∃ rs, file_is (file w) rs ∧ doc_ok rs ∧
     loadLocked true (crash w) = (None, w <| jr := mkJournal true rs ∅ ∅ |>)) ∧
  (loaded (jr w) = true → ∃ w', writeLocked true w = (None, w') ∧
     records (jr (loadLocked true (crash w')).2) = records (jr w)).
Proof.
  intros I%jinv_reach ->. split.
  - destruct I as [(rs & Hf & [D _ _]) _]. exists rs. split_and!; [done|done|]. unfold loadLocked, crash. cbn.
    destruct (file (now_ h)) as [d|] eqn:E; cbn [file_is] in Hf; subst.
    + by rewrite load_document_print by done.
    + done.
  - intros Hl. destruct h as [w o]. cbn in *. pose proof (mk_doc _ _ (loaded_memory w o I Hl)) as Md.
    eexists. split; [by apply write_ok|]. unfold loadLocked, crash. cbn. by rewrite load_document_print.
Qed.

(** In a process without workers everything is acknowledged. *)
Lemma ack_all w o : jinv (mkHistory w o) → loaded (jr w) = true → live (jr w) = ∅ →
  ∃ w2, AcknowledgeSmartAccessRestrictions (snapshot_digest (jr w)) true true true w = (Ok true, w2) ∧
    loaded (jr w2) = true ∧ records (jr w2) = [] ∧ unsettled (jr w2) = ∅ ∧ live (jr w2) = ∅.
Proof.
  intros I Hl Hlv. pose proof (loaded_memory w o I Hl) as M. pose proof (mk_doc _ _ M) as Md.
  assert (smartAccessRuntimeDigest (snapshot_digest (jr w)) = true) as Hd by apply (hex_encode_hex _ 32), sha256_length.
  unfold AcknowledgeSmartAccessRestrictions. rewrite Hd. cbn [negb].
  assert (snapshotLocked true true w =
    (Ok (snapshot_text (jr w), snapshot_digest (jr w)), w <| file := Some (print (document_json (records (jr w)))) |>)) as ->.
  { unfold snapshotLocked, loadLocked. rewrite Hl, write_ok by done. cbn [jr set file]. pose proof (snapshot_length _ Md) as Hs.
    change (jr (w <| file := _ |>)) with (jr w). by rewrite bool_false_if by lia. }
  rewrite bool_decide_eq_true_2 by done. cbn [negb]. set (w1 := w <| file := _ |>).
  change (jr w1) with (jr w). 
  assert (Hn : ∀ r, r ∈ records (jr w) → is_live (jr w) r = false).
  { intros r Hr. unfold is_live, live_of. rewrite Hlv, lookup_empty. cbn. apply bool_decide_eq_false. intros Hg.
    pose proof (do_records _ Md) as HF. rewrite Forall_forall in HF. pose proof (ro_generation r (HF r Hr)) as Hv.
    by rewrite <- Hg in Hv. }
  assert (filter (λ r, is_live (jr w) r = true) (records (jr w)) = []) as ->.
  { apply elem_of_nil_inv. intros r [Hr Hin]%list_elem_of_filter. by rewrite (Hn r Hin) in Hr. }
  rewrite write_ok by (constructor; [done|apply NoDup_nil_2|cbn; lia]). eexists. split; [reflexivity|].
  cbn. split_and!; [done|done| |done]. apply set_eq. intros q. rewrite elem_of_empty, elem_of_difference. split; [|done].
  intros [Hq Hg]. destruct Hg. destruct (mk_unsettled _ _ M q Hq) as (r & [Hr <-]%get_some & _).
  apply elem_of_list_to_set, list_elem_of_fmap_2, list_elem_of_filter. split; [exact (Hn r Hr)|done].
Qed.

(** An empty journal starts a worker. *)
Lemma begin_first p c e b w :
  smartAccessRuntimeDigest p = true → c = "" ∨ smartAccessRuntimeDigest c = true → some_date e → length b = 16%nat →
  loaded (jr w) = true → records (jr w) = [] → unsettled (jr w) = ∅ →
  ∃ w', begin_ p c e (Some b) true true w = (Ok (str_of_list (hex_encode b)), w').
Proof.
  intros Hp Hc He Hb Hl Hr Hu. unfold begin_, loadLocked. rewrite Hl. unfold is_unsettled. rewrite Hu, Hr.
  rewrite bool_decide_eq_false_2 by set_solver. cbn [find_record mbind option_bind length].
  rewrite bool_decide_eq_true_2 by done. cbn [andb Nat.leb app].
  rewrite write_ok; [eauto|]. pose proof (hex_encode_hex b 16 Hb) as Hg. change (2 * 16)%nat with 32%nat in Hg.
  constructor; cbn.
  - constructor; [|done]. set (r := mkRecord p c "" false "none" false "" [] ∅).
    eapply (begin_ok c _ e r (r <| Generation := str_of_list (hex_encode b) |>)); try done.
    constructor; cbn; first [done|by left|by constructor|by apply map_Forall_empty|by rewrite ?map_size_empty; lia].
  - apply NoDup_singleton.
  - lia.
Qed.

(** C40: Recovery always completes.  Whatever happened before a crash, a process
    whose reads and writes succeed can hand the snapshot to the host, have it
    acknowledged, and then start a worker for any profile. *)
Theorem recovery_completes h p c e b :
  rtc jstep first_run h → smartAccessRuntimeDigest p = true → c = "" ∨ smartAccessRuntimeDigest c = true → some_date e →
  length b = 16%nat →
  ∃ text d w1 w2 w3,
    snapshotLocked true true (crash (now_ h)) = (Ok (text, d), w1) ∧
    AcknowledgeSmartAccessRestrictions d true true true w1 = (Ok true, w2) ∧
    begin_ p c e (Some b) true true w2 = (Ok (str_of_list (hex_encode b)), w3).
Proof.
  intros I%jinv_reach Hp Hc He Hb. destruct h as [w o]. apply crash_inv in I. cbn [now_].
  destruct (snapshotLocked true true (crash w)) as [res w1] eqn:Es.
  destruct (snapshot_inv _ _ _ _ _ _ I Es) as (I1 & Hlv & Hok & Hdo). destruct (Hdo eq_refl eq_refl) as (text & d & ->).
  destruct (Hok text d eq_refl) as (Hl & _ & ->). exists text, (snapshot_digest (jr w1)), w1. change (live (jr (crash w))) with (∅ : gmap string string) in Hlv.
  destruct (ack_all w1 o I1 Hl Hlv) as (w2 & Ha & Hl2 & Hr2 & Hu2 & Hlv2). exists w2.
  destruct (begin_first p c e b w2 Hp Hc He Hb Hl2 Hr2 Hu2) as (w3 & Hw3). eauto.
Qed.

(** ** A worker restricts while the disk is full, and the process dies *)

Definition ex_profile : string := str_of_list (replicate 64 "a"%char).
Definition ex_entropy : bytes := replicate 16 "7"%char.
Definition ex_generation : string := str_of_list (hex_encode ex_entropy).
Definition ex_start : world := (begin_ ex_profile "" zero_time (Some ex_entropy) true true (mkWorld None new_journal)).2.
Definition ex_history : history :=
  mkHistory (restrict ex_profile ex_generation "access_denied" false ex_start) [(ex_profile, RPolicy "access_denied")].

Lemma ex_reach : rtc jstep first_run ex_history.
Proof.
  eapply rtc_l.
  - apply (js_begin _ _ ex_profile "" zero_time (Some ex_entropy) true true);
      [by vm_compute|by left|by left|by intros b [= <-]].
  - apply rtc_once. apply (js_restrict ex_start [] ex_profile ex_generation "access_denied" false); [by vm_compute|].
    right. left.
Qed.

Lemma restriction_survives_witness :
  (ex_profile, RPolicy "access_denied") ∈ owed ex_history ∧
  (begin_ ex_profile "" zero_time (Some ex_entropy) true true (crash (now_ ex_history))).1 = Err recovery_required.
Proof.
  assert ((ex_profile, RPolicy "access_denied") ∈ owed ex_history) as Hk by left. split; [exact Hk|].
  destruct (restriction_survives ex_history ex_profile (RPolicy "access_denied") (crash (now_ ex_history)) ex_reach Hk
    (or_intror eq_refl)) as [H _].
  exact (H eq_refl "" zero_time (Some ex_entropy) true true).
Defined.

Lemma journal_reloads_witness :
  loaded (jr (now_ ex_history)) = true ∧
  ∃ w', writeLocked true (now_ ex_history) = (None, w') ∧
    records (jr (loadLocked true (crash w')).2) = records (jr (now_ ex_history)).
Proof.
  assert (loaded (jr (now_ ex_history)) = true) as Hl by (vm_compute; reflexivity). split; [exact Hl|].
  exact (proj2 (journal_reloads ex_history (now_ ex_history) ex_reach eq_refl) Hl).
Defined.

Lemma recovery_completes_witness :
  ∃ text d w1 w2 w3,
    snapshotLocked true true (crash (now_ ex_history)) = (Ok (text, d), w1) ∧
    AcknowledgeSmartAccessRestrictions d true true true w1 = (Ok true, w2) ∧
    begin_ ex_profile "" zero_time (Some ex_entropy) true true w2 = (Ok ex_generation, w3).
Proof.
  exact (recovery_completes ex_history ex_profile "" zero_time ex_entropy ex_reach
    ltac:(vm_compute; reflexivity) (or_introl eq_refl) (or_introl eq_refl) eq_refl).
Defined.
