(* ===== verification/ControlVerify.v ===== *)
(** * Signed responses of the control plane

    [verify], [verifyRenewal] and [verifyRenewalRestriction] of
    [daemon/smart_access_runtime_control.go] and
    [daemon/smart_access_runtime_renewal_poll.go]: which answers of the server a
    worker acts on.  Ed25519 is a parameter, the verification function of
    [crypto/ed25519]; hashing, hexadecimal, base64 and JSON are computed. *)

From stdpp Require Import base list strings gmap sorting.
From Stdlib Require Import ZArith Lia Ascii.
From S2P Require Import Prelude GoTime GoBytes GoJson GoCrypto SaClientHello CatalogWindow ControlWire.

Local Open Scope Z_scope.
Set Default Goal Selector "!".

(** ** encoding/base64, strict *)

Definition b64_val (url : bool) (c : ascii) : option Z :=
  let x := byte_val c in
  if (65 <=? x) && (x <=? 90) then Some (x - 65)
  else if (97 <=? x) && (x <=? 122) then Some (x - 71)
  else if (48 <=? x) && (x <=? 57) then Some (x + 4)
  else if x =? (if url then 45 else 43) then Some 62
  else if x =? (if url then 95 else 47) then Some 63
  else None.

(** Groups of four characters; in a shorter last group the unused bits are zero. *)
Fixpoint b64_groups (l : list Z) : option bytes :=
  match l with
  | [] => Some []
  | [_] => None
  | [a; b] => if b mod 16 =? 0 then Some [byte_of (a * 4 + b / 16)] else None
  | [a; b; c] =>
      if c mod 4 =? 0 then Some [byte_of (a * 4 + b / 16); byte_of (b mod 16 * 16 + c / 4)] else None
  | a :: b :: c :: d :: l =>
      r ← b64_groups l;
      Some (byte_of (a * 4 + b / 16) :: byte_of (b mod 16 * 16 + c / 4) :: byte_of (c mod 4 * 64 + d) :: r)
  end.

Definition b64_decode (url : bool) (b : bytes) : option bytes := mapM (b64_val url) b ≫= b64_groups.
(** The decoder skips line ends. *)
Definition no_newlines (b : bytes) : bytes :=
  filter (λ c, negb ((byte_val c =? 10) || (byte_val c =? 13)) = true) b.
(** [base64.RawURLEncoding.Strict().DecodeString] *)
Definition raw_url_decode (s : string) : option bytes := b64_decode true (no_newlines (list_of_str s)).
(** [base64.StdEncoding.Strict().DecodeString] *)
Definition strip_padding (b : bytes) : bytes :=
  match reverse b with
  | c :: d :: r => if byte_val c =? 61 then (if byte_val d =? 61 then reverse r else reverse (d :: r)) else b
  | _ => b
  end.
Definition std_decode (s : string) : option bytes :=
  let b := no_newlines (list_of_str s) in
  if (length b mod 4 =? 0)%nat then b64_decode false (strip_padding b) else None.

(** [started.UTC().Truncate(time.Second)] *)
Definition whole_second (t : time) : time := mkTime (wall t / Second * Second) None.

(** ** What the worker knows *)

Record smartAccessRuntimeControlConfig := mkConfig {
  c_SchemaVersion : string; c_ProfileDigest : string; c_CatalogSHA256 : string; c_Platform : string; c_Audience : string;
  c_APIBaseURL : string; c_DNSResolver : string; c_Capability : string; c_IssuedAt : string; c_ExpiresAt : string;
  c_LeaseKeysByID : gmap string string }.

(** The fields of the worker that verification reads. *)
Record verifier := mkVerifier {
  v_config : smartAccessRuntimeControlConfig; v_keys : gmap string bytes; v_expires : time; v_deadline : time }.

Record smartAccessRuntimeDecision := mkDecision { d_reason : string; d_expires : time; d_deadline : time }.

(** The part of an attempt that verification reads. *)
Record attempt := mkAttempt {
  a_previous : identity; a_capability : string; a_expires : time; a_deadline : time; a_control : smartAccessRuntimeDecision }.

Record smartAccessRuntimeRenewalDecision := mkRenewal {
  rd_lease : option identity; rd_restriction : string; rd_issued : time; rd_newUntil : time; rd_activeUntil : time;
  rd_deadline : time }.

(** [hex(sha256(prefix 0 nonce 0 capability))] *)
Definition binding (prefix nonce capability : string) : string :=
  str_of_list (hex_encode (sha256 (list_of_str prefix ++ byte_of 0 :: list_of_str nonce ++ byte_of 0 :: list_of_str capability))).

(** [json.Marshal] of a map. *)
Definition canonical (members : list (string * json)) : bytes := print (JObj (merge_sort key_le members)).

(** [payload[field]] of a map of strings: the empty string when absent. *)
Definition text_of (k : string) (l : list (string * string)) : string :=
  default "" (snd <$> head (filter (λ kv, kv.1 = k) l)).

Section Verification.
(** [ed25519.Verify(key, message, signature)] *)
Variable ed25519_Verify : bytes → bytes → bytes → bool.

(** The envelope: the key it names, the digest, the signature's text and the payload. *)
Definition open_envelope (schema : string) (v : verifier) (raw : bytes) : option (bytes * string * string * json) :=
  j ← parse raw;
  outer ← smartAccessControlObject ["schema"; "envelope"] j;
  s ← field "schema" outer ≫= un_string;
  if negb (bool_decide (s = schema)) then None
  else
    envelope ← field "envelope" outer ≫=
      smartAccessControlObject ["algorithm"; "key_id"; "payload_sha256"; "payload"; "signature_b64"];
    algorithm ← field "algorithm" envelope ≫= un_string;
    keyID ← field "key_id" envelope ≫= un_string;
    digest ← field "payload_sha256" envelope ≫= un_string;
    signatureText ← field "signature_b64" envelope ≫= un_string;
    payload ← field "payload" envelope;
    key ← v_keys v !! keyID;
    if negb (bool_decide (algorithm = "Ed25519")) || negb (smartAccessRuntimeDigest digest) ||
       negb (String.length signatureText =? 86)%nat then None
    else Some (key, digest, signatureText, payload).

(** The digest and the signature of the canonical payload. *)
Definition signed (domain : string) (members : list (string * json)) (key : bytes) (digest signatureText : string) : bool :=
  bool_decide (digest = str_of_list (hex_encode (sha256 (canonical members)))) &&
  match raw_url_decode signatureText with
  | Some signature => ed25519_Verify key (list_of_str domain ++ byte_of 10 :: canonical members) signature
  | None => false
  end.

(** Every member is a string and none is [null]. *)
Definition string_member (kv : string * json) : option (string * string) :=
  match kv.2 with JStr s => Some (kv.1, s) | _ => None end.

Definition expected_action (reason : string) : option string :=
  if bool_decide (reason = "current") then Some "none"
  else if bool_decide (reason = "issuance_disabled") then Some "drain"
  else if one_of ["access_denied"; "provider_policy_disabled"; "catalog_disabled"] reason then Some "terminate"
  else None.

Definition control_fields : list string :=
  ["schema_version"; "request_nonce"; "device_binding"; "profile_digest"; "platform"; "audience"; "action"; "reason";
   "issued_at"; "expires_at"].

Definition strings_json (l : list (string * string)) : list (string * json) := (λ kv, (kv.1, JStr kv.2)) <$> l.

Definition verify (v : verifier) (raw : bytes) (nonce : string) (started now : time) : option (string * time) :=
  e ← open_envelope "smart-access-runtime-control-response-v1" v raw;
  let '(key, digest, signatureText, payload) := (e : bytes * string * string * json) in
  values ← smartAccessControlObject control_fields payload;
  payload ← mapM string_member values;
  let text k := text_of k payload in
  let reason := text "reason" in
  if negb (bool_decide (text "schema_version" = "pokrov-smart-access-runtime-control-v1")) ||
     negb (bool_decide (text "request_nonce" = nonce)) ||
     negb (bool_decide (text "profile_digest" = c_ProfileDigest (v_config v))) ||
     negb (bool_decide (text "platform" = c_Platform (v_config v))) ||
     negb (bool_decide (text "audience" = c_Audience (v_config v))) ||
     negb (bool_decide (text "device_binding" = binding "pokrov-smart-access-runtime-binding-v1" nonce (c_Capability (v_config v))))
  then None
  else if negb (bool_decide (expected_action reason = Some (text "action"))) then None
  else
    issued ← smartAccessControlTime (text "issued_at");
    expires ← smartAccessControlTime (text "expires_at");
    if negb (Before issued expires) || (Minute <? Sub expires issued) || Before issued (whole_second started) ||
       Before now issued || negb (Before now expires) || After expires (v_expires v) ||
       negb (Before now (v_expires v)) || negb (Before now (v_deadline v)) then None
    else if negb (signed "pokrov-smart-access-runtime-control-v1" (strings_json payload) key digest signatureText) then None
    else Some (reason, expires).

(** ** Renewals *)

Definition renewal_fields : list string :=
  ["schema_version"; "request_nonce"; "capability_binding"; "profile_digest"; "platform"; "audience"; "expected_lease_id";
   "lease"].
Definition restriction_fields : list string :=
  ["schema_version"; "request_nonce"; "capability_binding"; "profile_digest"; "platform"; "audience"; "expected_lease_id";
   "runtime_scope_sha256"; "action"; "reason"; "issued_at"; "expires_at"; "provider_policy_revision";
   "provider_security_revision"; "catalog_revision"; "catalog_security_revision"].

Definition renewal_action (reason : string) : option string :=
  if one_of ["access_denied"; "catalog_disabled"; "provider_policy_disabled"; "provider_scope_withdrawn";
             "catalog_scope_withdrawn"] reason then Some "terminate"
  else if one_of ["issuance_disabled"; "scope_changed"; "capability_unavailable"] reason then Some "drain"
  else None.
Definition global_reason (reason : string) : bool :=
  one_of ["access_denied"; "catalog_disabled"; "provider_policy_disabled"; "issuance_disabled"] reason.

Definition floors (p : identity) : list (string * Z) :=
  [("provider_policy_revision", ProviderPolicyRevision p); ("provider_security_revision", ProviderSecurityRevision p);
   ("catalog_revision", CatalogRevision p); ("catalog_security_revision", CatalogSecurityRevision p)].

(** The clock conditions both kinds of answer share. *)
Definition attempt_current (v : verifier) (a : attempt) (now : time) : bool :=
  Before now (a_deadline a) && Before now (v_expires v) && Before now (v_deadline v) &&
  Before now (d_expires (a_control a)) && Before now (d_deadline (a_control a)).

(** The members both kinds of payload bind. *)
Definition bound (v : verifier) (schema nonce : string) (a : attempt) (text : string → string) : bool :=
  bool_decide (text "schema_version" = schema) && bool_decide (text "request_nonce" = nonce) &&
  bool_decide (text "capability_binding" = binding "pokrov-smart-access-runtime-renewal-binding-v1" nonce (a_capability a)) &&
  bool_decide (text "profile_digest" = c_ProfileDigest (v_config v)) &&
  bool_decide (text "platform" = c_Platform (v_config v)) && bool_decide (text "audience" = c_Audience (v_config v)) &&
  bool_decide (text "expected_lease_id" = LeaseID (a_previous a)).

(** A member of the restriction payload: revisions are integers in range, the rest strings. *)
Definition restriction_member (p : identity) (kv : string * json) : option (string * (string + Z)) :=
  if bool_decide (kv.1 ∈ (floors p).*1) then
    match kv.2 with
    | JNum l => z ← parse_int l; if (z <? 0) || (9007199254740991 <? z) then None else Some (kv.1, inr z)
    | _ => None
    end
  else match kv.2 with JStr s => Some (kv.1, inl s) | _ => None end.
Definition restriction_json (l : list (string * (string + Z))) : list (string * json) :=
  (λ kv, (kv.1, match kv.2 with inl s => JStr s | inr z => JNum (show_int z) end)) <$> l.
Definition member_text (k : string) (l : list (string * (string + Z))) : string :=
  match snd <$> head (filter (λ kv, kv.1 = k) l) with Some (inl s) => s | _ => "" end.
Definition member_int (k : string) (l : list (string * (string + Z))) : Z :=
  match snd <$> head (filter (λ kv, kv.1 = k) l) with Some (inr z) => z | _ => 0 end.

Definition verifyRenewalRestriction (v : verifier) (raw : json) (nonce : string) (a : attempt) (started now : time)
    (key : bytes) (digest signatureText : string) : option smartAccessRuntimeRenewalDecision :=
  fields ← smartAccessControlObject restriction_fields raw;
  payload ← mapM (restriction_member (a_previous a)) fields;
  let text k := member_text k payload in
  let reason := text "reason" in
  if negb (bound v "pokrov-smart-access-runtime-renewal-restriction-v1" nonce a text) ||
     negb (bool_decide (text "runtime_scope_sha256" = RuntimeScopeSHA256 (a_previous a))) then None
  else if negb (bool_decide (renewal_action reason = Some (text "action"))) then None
  else if existsb (λ f : string * Z, let value := member_int f.1 payload in
                     (global_reason reason && negb (value =? 0)) || (negb (global_reason reason) && (value <? f.2)))
            (floors (a_previous a)) then None
  else
    issued ← smartAccessControlTime (text "issued_at");
    expires ← smartAccessControlTime (text "expires_at");
    if negb (Before issued expires) || (Minute <? Sub expires issued) || Before issued (whole_second started) ||
       Before now issued || negb (Before now expires) || After expires (a_expires a) || negb (attempt_current v a now) then None
    else if negb (signed "pokrov-smart-access-runtime-renewal-v1" (restriction_json payload) key digest signatureText) then None
    else Some (mkRenewal None (text "action") issued expires zero_time (Add now (Sub expires now))).

Definition verifyRenewal (v : verifier) (raw : bytes) (nonce : string) (a : attempt) (started now : time)
    : option smartAccessRuntimeRenewalDecision :=
  e ← open_envelope "smart-access-runtime-renewal-response-v1" v raw;
  let '(key, digest, signatureText, rawPayload) := (e : bytes * string * string * json) in
  match smartAccessControlObject renewal_fields rawPayload with
  | None => verifyRenewalRestriction v rawPayload nonce a started now key digest signatureText
  | Some values =>
      payload ← mapM string_member (filter (λ kv, kv.1 ≠ "lease") values);
      if negb (bound v "pokrov-smart-access-runtime-renewal-v1" nonce a (λ k, text_of k payload)) then None
      else
        lease ← field "lease" values ≫= parseSmartAccessRuntimeLeaseIdentity;
        if bool_decide (LeaseID lease = LeaseID (a_previous a)) || negb (follows lease (a_previous a)) then None
        else
          let issued := control_time (IssuedAt lease) in
          let newUntil := control_time (NewFlowsUntil lease) in
          let activeUntil := control_time (ActiveFlowsUntil lease) in
          if Before issued (whole_second started) || Before issued (control_time (IssuedAt (a_previous a))) ||
             Before now issued || negb (Before now newUntil) ||
             negb (After newUntil (control_time (NewFlowsUntil (a_previous a)))) || After activeUntil (a_expires a) ||
             negb (Before now (a_expires a)) || negb (attempt_current v a now) then None
          else if negb (signed "pokrov-smart-access-runtime-renewal-v1"
                          (("lease", canonicalObject lease) :: strings_json payload) key digest signatureText) then None
          else Some (mkRenewal (Some lease) "" issued newUntil activeUntil (Add now (Sub newUntil now)))
  end.
End Verification.

(** ** What a signature covers *)

Lemma field_in k l v : NoDup l.*1 → (k, v) ∈ l → field k l = Some v.
Proof.
  induction l as [|[k' v'] l IH]; intros Hn Hin; [by apply not_elem_of_nil in Hin|]. cbn [field].
  rewrite fmap_cons in Hn. apply NoDup_cons in Hn as [Hk Hn]. apply elem_of_cons in Hin as [[= -> ->]|Hin].
  - by rewrite String.eqb_refl.
  - destruct (String.eqb k' k) eqn:E; [|by apply IH]. apply String.eqb_eq in E as ->. destruct Hk.
    by apply (list_elem_of_fmap_2 fst _ (k, v)).
Qed.

Lemma field_some k l v : field k l = Some v → (k, v) ∈ l.
Proof.
  induction l as [|[k' v'] l IH]; intros H; [done|]. cbn [field] in H. destruct (String.eqb k' k) eqn:E.
  - apply String.eqb_eq in E as ->. injection H as ->. left.
  - right. by apply IH.
Qed.

Lemma field_perm k l l' : NoDup l.*1 → Permutation l l' → field k l' = field k l.
Proof.
  intros Hn Hp. destruct (field k l) as [v|] eqn:E.
  - apply field_in; [by rewrite <- Hp|]. rewrite <- Hp. by apply field_some.
  - destruct (field k l') as [v|] eqn:E'; [|done]. apply field_some in E'. rewrite <- Hp in E'.
    apply field_in in E'; [congruence|done].
Qed.

(** The canonical text reads back as its members. *)
Lemma canonical_parse members :
  forallb (λ m, plain_string m.1 && plain m.2) members = true → NoDup members.*1 →
  ∃ o, parse (canonical members) = Some (JObj o) ∧ ∀ k, field k o = field k members.
Proof.
  intros Hp Hn. exists (merge_sort key_le members). pose proof (merge_sort_Permutation key_le members) as HP.
  split; [|intros k; symmetry; apply field_perm; [by rewrite HP|done]].
  unfold canonical. apply parse_print. cbn [plain]. apply forallb_forall. intros m Hm. rewrite forallb_forall in Hp. apply Hp.
  apply list_elem_of_In. rewrite <- HP. by apply list_elem_of_In.
Qed.

Lemma control_object_spec fields raw o : smartAccessControlObject fields raw = Some o →
  NoDup o.*1 ∧ length o = length fields ∧ (∀ k, k ∈ fields → k ∈ o.*1).
Proof.
  unfold smartAccessControlObject. destruct raw; try done. case_match eqn:E; [|done]. intros [= <-]. bsplit.
  split_and!; [done|by apply Nat.eqb_eq|]. intros k Hk%list_elem_of_In.
  match goal with H : forallb _ fields = true |- _ => rewrite forallb_forall in H; apply H in Hk end.
  by apply bool_decide_eq_true in Hk.
Qed.

Lemma control_keys fields raw o k : NoDup fields → smartAccessControlObject fields raw = Some o → k ∈ o.*1 → k ∈ fields.
Proof.
  intros Hf (Hn & Hl & Hin)%control_object_spec Hk.
  destruct (decide (k ∈ fields)) as [|Hnk]; [done|]. exfalso.
  assert (submseteq (k :: fields) o.*1) as Hs.
  { apply NoDup_submseteq; [by apply NoDup_cons|]. intros x [->|Hx]%elem_of_cons; auto. }
  apply submseteq_length in Hs. cbn in Hs. rewrite length_fmap in Hs. lia.
Qed.

Lemma string_members_keys values payload : mapM string_member values = Some payload → payload.*1 = values.*1 ∧ strings_json payload = values.
Proof.
  revert payload. induction values as [|[k v] values IH]; intros payload H.
  - by injection H as <-.
  - cbn in H. destruct v; try done. cbn in H. destruct (mapM string_member values) as [p|] eqn:E; [|done].
    injection H as <-. destruct (IH p eq_refl) as [H1 H2]. split; cbn; [by rewrite H1|]. f_equal. exact H2.
Qed.

Lemma assoc_in {B} k (v : B) l : NoDup l.*1 → (k, v) ∈ l → snd <$> head (filter (λ kv : string * B, kv.1 = k) l) = Some v.
Proof.
  induction l as [|[a b] l IH]; intros Hn Hin; [by apply not_elem_of_nil in Hin|].
  rewrite fmap_cons in Hn. apply NoDup_cons in Hn as [Ha Hn]. rewrite filter_cons. cbn [fst].
  apply elem_of_cons in Hin as [[= -> ->]|Hin]; [by rewrite decide_True|].
  rewrite decide_False; [by apply IH|]. intros ->. destruct Ha. by apply (list_elem_of_fmap_2 fst _ (k, v)).
Qed.

Lemma text_field k payload : NoDup payload.*1 → k ∈ payload.*1 → field k (strings_json payload) = Some (JStr (text_of k payload)).
Proof.
  intros Hn Hk. apply list_elem_of_fmap in Hk as ([k' s] & -> & Hin). cbn [fst].
  unfold text_of. rewrite (assoc_in k' s payload Hn Hin). cbn [default]. apply field_in.
  - unfold strings_json. by rewrite <- list_fmap_compose.
  - unfold strings_json. by apply (list_elem_of_fmap_2 (λ kv : string * string, (kv.1, JStr kv.2)) _ (k', s)).
Qed.

Lemma control_time_plain v t : smartAccessControlTime v = Some t → plain_string v = true.
Proof.
  unfold smartAccessControlTime. destruct (parse_utc v) eqn:E; [intros _; by eapply plain_utc|].
  destruct (list_of_str v) as [|y1 [|y2 [|y3 [|y4 r]]]] eqn:Ev; try done. case_match eqn:E0; [|done].
  destruct (parse_utc (str_of_list _)) eqn:Ep; [|done]. intros _. apply plain_utc in Ep.
  unfold plain_string in *. rewrite list_str, forallb_app in Ep. apply andb_true_iff in Ep as [_ Hr].
  apply bool_decide_eq_true in E0. rewrite Ev. change (forallb plain_char ([y1; y2; y3; y4] ++ r) = true).
  rewrite E0, forallb_app, Hr. done.
Qed.

(** A configuration as [parseSmartAccessRuntimeControl] accepts it. *)
Definition config_ok (c : smartAccessRuntimeControlConfig) : Prop :=
  smartAccessRuntimeDigest (c_ProfileDigest c) = true ∧ one_of ["android"; "windows"] (c_Platform c) = true ∧
  one_of ["lab"; "production"] (c_Audience c) = true.

Lemma binding_plain prefix nonce capability : plain_string (binding prefix nonce capability) = true.
Proof. apply (plain_hex 64). apply (hex_encode_hex _ 32), sha256_length. Qed.

Lemma expected_action_plain reason action : expected_action reason = Some action →
  plain_string reason = true ∧ plain_string action = true.
Proof.
  unfold expected_action. intros H. case_bool_decide; [subst; by injection H as <-|].
  case_bool_decide; [subst; by injection H as <-|]. case_match eqn:E; [|done]. injection H as <-. split; [|done].
  by eapply plain_one_of in E.
Qed.

Lemma payload_plain fields payload :
  NoDup payload.*1 → (∀ k, k ∈ payload.*1 → k ∈ fields) → forallb plain_string fields = true →
  Forall (λ k, plain_string (text_of k payload) = true) fields →
  forallb (λ m, plain_string m.1 && plain m.2) (strings_json payload) = true.
Proof.
  intros Hn Hk Hf HF. apply forallb_forall. intros [k v] Hm%list_elem_of_In.
  unfold strings_json in Hm. pose proof Hm as Hm'. apply list_elem_of_fmap in Hm as ([k' s] & [= -> ->] & Hin). cbn [fst snd plain].
  assert (k' ∈ payload.*1) as Hp by (by apply (list_elem_of_fmap_2 fst _ (k', s))).
  rewrite forallb_forall in Hf. rewrite (Hf k') by (by apply list_elem_of_In, Hk). cbn [andb].
  pose proof (text_field k' payload Hn Hp) as Ht. apply field_some in Ht.
  assert (s = text_of k' payload) as ->; [|rewrite Forall_forall in HF; by apply HF, Hk].
  assert (NoDup (strings_json payload).*1) as Hn' by (unfold strings_json; by rewrite <- list_fmap_compose).
  pose proof (field_in _ _ _ Hn' Ht) as E1. pose proof (field_in _ _ _ Hn' Hm') as E2. congruence.
Qed.

Lemma envelope_key schema v raw key digest sig payload : open_envelope schema v raw = Some (key, digest, sig, payload) →
  ∃ keyID, v_keys v !! keyID = Some key.
Proof.
  unfold open_envelope. intros H. repeat match type of H with
  | (?x ≫= _) = Some _ => destruct x eqn:?; cbn [mbind option_bind] in H; [|done]
  | (if ?b then _ else _) = Some _ => destruct b; [done|]
  end. injection H as <- <- <- <-. eauto.
Qed.

Lemma signed_valid ed domain members key digest sig : signed ed domain members key digest sig = true →
  ∃ signature, ed key (list_of_str domain ++ byte_of 10 :: canonical members) signature = true.
Proof. unfold signed. intros [_ H]%andb_true_iff. destruct (raw_url_decode sig); [|done]. eauto. Qed.

(** The date in a member. *)
Definition date_field (k : string) (o : list (string * json)) : option time :=
  s ← field k o ≫= un_string; smartAccessControlTime s.

(** C21: A control decision is authentic and fresh.  A worker acts on an answer
    only if some configured key verifies a signature on a text that, read as
    JSON, names this request's nonce, this worker's profile, platform and
    audience and the binding of its credential, and whose reason is the one
    acted on with the action that belongs to it; the answer was issued after the
    request was sent, is at most a minute long, and has not ended; it ends no
    later than the worker's own authority, which has not ended either. *)
Theorem control_authentic ed v raw nonce started now reason expires :
  config_ok (v_config v) → plain_string nonce = true →
  verify ed v raw nonce started now = Some (reason, expires) →
  ∃ keyID key signature text o issued,
    v_keys v !! keyID = Some key ∧
    ed key (list_of_str "pokrov-smart-access-runtime-control-v1" ++ byte_of 10 :: text) signature = true ∧
    parse text = Some (JObj o) ∧
    field "request_nonce" o = Some (JStr nonce) ∧
    field "device_binding" o = Some (JStr (binding "pokrov-smart-access-runtime-binding-v1" nonce (c_Capability (v_config v)))) ∧
    field "profile_digest" o = Some (JStr (c_ProfileDigest (v_config v))) ∧
    field "platform" o = Some (JStr (c_Platform (v_config v))) ∧
    field "audience" o = Some (JStr (c_Audience (v_config v))) ∧
    field "reason" o = Some (JStr reason) ∧
    field "action" o = JStr <$> expected_action reason ∧
    date_field "issued_at" o = Some issued ∧
    date_field "expires_at" o = Some expires ∧
    wall started / Second * Second ≤ wall issued ≤ wall now ∧ wall now < wall expires ≤ wall issued + Minute ∧
    After expires (v_expires v) = false ∧ Before now (v_expires v) = true ∧ Before now (v_deadline v) = true.
Proof.
  intros (Cp & Cf & Ca) Hnonce H. unfold verify in H.
  destruct (open_envelope _ v raw) as [[[[key digest] sig] rawp]|] eqn:Eo; cbn [mbind option_bind] in H; [|done].
  destruct (smartAccessControlObject control_fields rawp) as [values|] eqn:Ev; cbn [mbind option_bind] in H; [|done].
  destruct (mapM string_member values) as [payload|] eqn:Em; cbn [mbind option_bind] in H; [|done].
  destruct (_ || _) eqn:E1 in H; [done|]. destruct (negb (bool_decide (expected_action _ = _))) eqn:E2; [done|].
  destruct (smartAccessControlTime (text_of "issued_at" payload)) as [issued|] eqn:Ei; cbn [mbind option_bind] in H; [|done].
  destruct (smartAccessControlTime (text_of "expires_at" payload)) as [ex|] eqn:Ex; cbn [mbind option_bind] in H; [|done].
  destruct (_ || _) eqn:E3 in H; [done|]. destruct (negb (signed _ _ _ _ _ _)) eqn:E4; [done|]. injection H as <- <-.
  bsplit. destruct (envelope_key _ _ _ _ _ _ _ Eo) as (keyID & Hkey).
  match goal with H : signed _ _ _ _ _ _ = true |- _ => apply signed_valid in H as (signature & Hsig) end.
  destruct (string_members_keys _ _ Em) as [Hkeys _]. destruct (control_object_spec _ _ _ Ev) as (Hn & _ & Hall).
  rewrite <- Hkeys in Hn, Hall.
  assert (Hin : ∀ k, k ∈ payload.*1 → k ∈ control_fields).
  { intros k Hk. rewrite Hkeys in Hk. eapply control_keys; [|exact Ev|exact Hk]. apply (bool_decide_eq_true_1 _). by vm_compute. }
  match goal with H : expected_action _ = Some _ |- _ => destruct (expected_action_plain _ _ H) as [Pr Pa] end.
  destruct (canonical_parse (strings_json payload)) as (o & Ho & Hfo).
  { eapply payload_plain; [exact Hn|exact Hin|by vm_compute|].
    repeat (apply Forall_cons; split); [..|by apply Forall_nil];
      repeat match goal with H : text_of _ payload = _ |- _ => rewrite H; clear H end;
      first [done|apply binding_plain|by eapply plain_hex|by eapply plain_one_of; [|eassumption]|by eapply control_time_plain]. }
  { unfold strings_json. by rewrite <- list_fmap_compose. }
  exists keyID, key, signature, (canonical (strings_json payload)), o, issued.
  assert (Ht : ∀ k, k ∈ control_fields → field k o = Some (JStr (text_of k payload))).
  { intros k Hk. rewrite Hfo. apply text_field; [done|]. by apply Hall. }
  pose proof (control_mono _ _ Ei) as Mi. pose proof (control_mono _ _ Ex) as Mx.
  rewrite !before_wall in * by done. rewrite sub_wall in * by done. cbn [whole_second wall] in *.
  unfold sat64, int64_min, int64_max, Minute, Second, Millisecond in *.
  split_and!; try done; try lia; unfold date_field;
    rewrite Ht by (apply (bool_decide_eq_true_1 _); by vm_compute); cbn [mbind option_bind un_string]; first [congruence|by rewrite E2].
Qed.

(** ** Renewals *)

Lemma renewal_action_plain reason action : renewal_action reason = Some action →
  plain_string reason = true ∧ plain_string action = true ∧ one_of ["drain"; "terminate"] action = true.
Proof.
  unfold renewal_action. intros H. repeat case_match; try done; injection H as <-;
    (split_and!; [by eapply plain_one_of; [|eassumption]|done|by vm_compute]).
Qed.

Lemma restriction_members_keys p fields payload : mapM (restriction_member p) fields = Some payload →
  payload.*1 = fields.*1 ∧
  Forall (λ kv, (∃ s, kv.2 = inl s ∧ kv.1 ∉ (floors p).*1) ∨ (∃ z, kv.2 = inr z ∧ kv.1 ∈ (floors p).*1 ∧ 0 ≤ z ≤ 9007199254740991)) payload.
Proof.
  revert payload. induction fields as [|[k v] fields IH]; intros payload H.
  - by injection H as <-.
  - cbn in H. destruct (restriction_member p (k, v)) as [[k' x]|] eqn:E; cbn in H; [|done].
    destruct (mapM (restriction_member p) fields) as [l|]; [|done]. injection H as <-. destruct (IH l eq_refl) as [H1 H2].
    assert (k' = k ∧ ((∃ s, x = inl s ∧ k ∉ (floors p).*1) ∨ (∃ z, x = inr z ∧ k ∈ (floors p).*1 ∧ 0 ≤ z ≤ 9007199254740991))) as [-> Hx].
    { unfold restriction_member in E. cbn [fst snd] in E. case_bool_decide; destruct v; try done.
      - destruct (parse_int literal) as [z|]; cbn in E; [|done]. case_match; [done|]. injection E as <- <-. split; [done|]. right. exists z. split_and!; [done|done|lia|lia].
      - injection E as <- <-. split; [done|]. left. eauto. }
    split; [rewrite !fmap_cons; cbn [fst]; by rewrite H1|]. by constructor.
Qed.

Lemma member_text_field p k payload : NoDup payload.*1 → k ∈ payload.*1 → k ∉ (floors p).*1 →
  Forall (λ kv, (∃ s, kv.2 = inl s ∧ kv.1 ∉ (floors p).*1) ∨ (∃ z, kv.2 = inr z ∧ kv.1 ∈ (floors p).*1 ∧ 0 ≤ z ≤ 9007199254740991)) payload →
  field k (restriction_json payload) = Some (JStr (member_text k payload)).
Proof.
  intros Hn Hk Hf HF. apply list_elem_of_fmap in Hk as ([k' x] & -> & Hin). rewrite Forall_forall in HF.
  destruct (HF _ Hin) as [(s & Hs & _)|(z & _ & Hz & _)]; [|done]. cbn [snd] in Hs. subst x. cbn [fst].
  unfold member_text. rewrite (assoc_in k' _ payload Hn Hin). apply field_in.
  - unfold restriction_json. by rewrite <- list_fmap_compose.
  - unfold restriction_json. by apply (list_elem_of_fmap_2 (λ kv : string * (string + Z), (kv.1, match kv.2 with inl s => JStr s | inr z => JNum (show_int z) end)) _ (k', inl s)).
Qed.

Lemma restriction_plain p payload :
  NoDup payload.*1 → (∀ k, k ∈ payload.*1 → k ∈ restriction_fields) →
  Forall (λ kv, (∃ s, kv.2 = inl s ∧ kv.1 ∉ (floors p).*1) ∨ (∃ z, kv.2 = inr z ∧ kv.1 ∈ (floors p).*1 ∧ 0 ≤ z ≤ 9007199254740991)) payload →
  Forall (λ k, k ∈ (floors p).*1 ∨ plain_string (member_text k payload) = true) restriction_fields →
  forallb (λ m, plain_string m.1 && plain m.2) (restriction_json payload) = true.
Proof.
  intros Hn Hk HF HP. apply forallb_forall. intros [k v] Hm%list_elem_of_In.
  unfold restriction_json in Hm. apply list_elem_of_fmap in Hm as ([k' x] & [= -> ->] & Hin). cbn [fst snd].
  assert (k' ∈ restriction_fields) as Hk' by (apply Hk; by apply (list_elem_of_fmap_2 fst _ (k', x))).
  assert (plain_string k' = true) as ->.
  { assert (forallb plain_string restriction_fields = true) as Hf by (by vm_compute). rewrite forallb_forall in Hf.
    by apply Hf, list_elem_of_In. }
  cbn [andb]. rewrite Forall_forall in HF. rewrite Forall_forall in HP. destruct (HF _ Hin) as [(s & Hs & Hnf)|(z & Hs & _ & Hz)]; cbn [fst snd] in *; subst x.
  - cbn [plain]. destruct (HP k' Hk') as [?|H]; [done|]. unfold member_text in H. by rewrite (assoc_in k' _ payload Hn Hin) in H.
  - cbn [plain]. apply show_int_spec. unfold int64_max. lia.
Qed.

(** The members that tie an answer to this attempt. *)
Definition answers (v : verifier) (nonce : string) (a : attempt) (o : list (string * json)) : Prop :=
  field "request_nonce" o = Some (JStr nonce) ∧
  field "capability_binding" o = Some (JStr (binding "pokrov-smart-access-runtime-renewal-binding-v1" nonce (a_capability a))) ∧
  field "profile_digest" o = Some (JStr (c_ProfileDigest (v_config v))) ∧
  field "platform" o = Some (JStr (c_Platform (v_config v))) ∧ field "audience" o = Some (JStr (c_Audience (v_config v))) ∧
  field "expected_lease_id" o = Some (JStr (LeaseID (a_previous a))).

Lemma bound_spec v schema nonce a text : bound v schema nonce a text = true →
  text "schema_version" = schema ∧ text "request_nonce" = nonce ∧
  text "capability_binding" = binding "pokrov-smart-access-runtime-renewal-binding-v1" nonce (a_capability a) ∧
  text "profile_digest" = c_ProfileDigest (v_config v) ∧ text "platform" = c_Platform (v_config v) ∧
  text "audience" = c_Audience (v_config v) ∧ text "expected_lease_id" = LeaseID (a_previous a).
Proof. unfold bound. intros H. bsplit. done. Qed.

Lemma bound_answers v schema nonce a text o : bound v schema nonce a text = true →
  (∀ k, k ∈ ["request_nonce"; "capability_binding"; "profile_digest"; "platform"; "audience"; "expected_lease_id"] →
     field k o = Some (JStr (text k))) → answers v nonce a o.
Proof.
  intros (_ & H2 & H3 & H4 & H5 & H6 & H7)%bound_spec Hf. unfold answers.
  split_and!; rewrite Hf by (apply (bool_decide_eq_true_1 _); by vm_compute); congruence.
Qed.

Lemma identity_previous_plain l : identity_valid l = true → plain_string (LeaseID l) = true ∧ plain_string (RuntimeScopeSHA256 l) = true.
Proof. unfold identity_valid. cbn [forallb]. intros H. bsplit. split; by eapply plain_hex. Qed.

Lemma attempt_current_spec v a now : attempt_current v a now = true →
  Before now (a_deadline a) = true ∧ Before now (v_expires v) = true ∧ Before now (v_deadline v) = true ∧
  Before now (d_expires (a_control a)) = true ∧ Before now (d_deadline (a_control a)) = true.
Proof. unfold attempt_current. intros H. bsplit. done. Qed.

(** What a restriction says. *)
Definition restricts (a : attempt) (o : list (string * json)) (d : smartAccessRuntimeRenewalDecision) : Prop :=
  ∃ reason, field "reason" o = Some (JStr reason) ∧ renewal_action reason = Some (rd_restriction d) ∧
  one_of ["drain"; "terminate"] (rd_restriction d) = true ∧
  field "action" o = Some (JStr (rd_restriction d)) ∧
  field "runtime_scope_sha256" o = Some (JStr (RuntimeScopeSHA256 (a_previous a))) ∧
  date_field "issued_at" o = Some (rd_issued d) ∧ date_field "expires_at" o = Some (rd_newUntil d).

(** What a renewal says. *)
Definition renews (a : attempt) (o : list (string * json)) (l : identity) : Prop :=
  field "lease" o = Some (canonicalObject l) ∧ identity_valid l = true ∧ LeaseID l ≠ LeaseID (a_previous a) ∧
  follows l (a_previous a) = true.

Lemma canonical_plain l : identity_valid l = true → plain (canonicalObject l) = true.
Proof.
  intros H%identity_plain. unfold canonicalObject. cbn [plain]. unfold identity_json in H. cbn [plain] in H.
  apply forallb_forall. intros m Hm. rewrite forallb_forall in H. apply H. apply list_elem_of_In.
  rewrite <- (merge_sort_Permutation key_le). by apply list_elem_of_In.
Qed.

Lemma restriction_authentic ed v rawp nonce a started now key digest sig d :
  config_ok (v_config v) → plain_string nonce = true → identity_valid (a_previous a) = true →
  verifyRenewalRestriction ed v rawp nonce a started now key digest sig = Some d →
  ∃ signature text o,
    ed key (list_of_str "pokrov-smart-access-runtime-renewal-v1" ++ byte_of 10 :: text) signature = true ∧
    parse text = Some (JObj o) ∧ answers v nonce a o ∧ rd_lease d = None ∧ restricts a o d ∧
    wall started / Second * Second ≤ wall (rd_issued d) ≤ wall now ∧ wall now < wall (rd_newUntil d) ∧
    attempt_current v a now = true.
Proof.
  intros (Cp & Cf & Ca) Hnonce Hid H. unfold verifyRenewalRestriction in H.
  destruct (smartAccessControlObject restriction_fields rawp) as [values|] eqn:Ev; cbn [mbind option_bind] in H; [|done].
  destruct (mapM (restriction_member (a_previous a)) values) as [payload|] eqn:Em; cbn [mbind option_bind] in H; [|done].
  destruct (_ || _) eqn:E1 in H; [done|]. destruct (negb (bool_decide (renewal_action _ = _))) eqn:E2; [done|].
  destruct (existsb _ _); [done|].
  destruct (smartAccessControlTime (member_text "issued_at" payload)) as [issued|] eqn:Ei; cbn [mbind option_bind] in H; [|done].
  destruct (smartAccessControlTime (member_text "expires_at" payload)) as [ex|] eqn:Ex; cbn [mbind option_bind] in H; [|done].
  destruct (_ || _) eqn:E3 in H; [done|]. destruct (negb (signed _ _ _ _ _ _)) eqn:E4; [done|]. injection H as <-.
  cbn [rd_lease rd_restriction rd_issued rd_newUntil].
  apply orb_false_iff in E1 as [Hb%negb_false_iff Hs]. bsplit.
  match goal with H : signed _ _ _ _ _ _ = true |- _ => apply signed_valid in H as (signature & Hsig) end.
  destruct (restriction_members_keys _ _ _ Em) as [Hkeys HF]. destruct (control_object_spec _ _ _ Ev) as (Hn & _ & Hall).
  rewrite <- Hkeys in Hn, Hall.
  assert (Hin : ∀ k, k ∈ payload.*1 → k ∈ restriction_fields).
  { intros k Hk. rewrite Hkeys in Hk. eapply control_keys; [|exact Ev|exact Hk]. apply (bool_decide_eq_true_1 _). by vm_compute. }
  destruct (renewal_action_plain _ _ E2) as (Pr & Pa & Po). destruct (identity_previous_plain _ Hid) as [Pl Ps].
  pose proof (bound_spec _ _ _ _ _ Hb) as (B1 & B2 & B3 & B4 & B5 & B6 & B7).
  destruct (canonical_parse (restriction_json payload)) as (o & Ho & Hfo).
  { eapply (restriction_plain (a_previous a)); [exact Hn|exact Hin|exact HF|].
    repeat (apply Forall_cons; split); [..|by apply Forall_nil];
      first [left; apply (bool_decide_eq_true_1 _); by vm_compute|right];
      repeat match goal with H : member_text _ payload = _ |- _ => rewrite H; clear H end;
      first [done|apply binding_plain|by eapply plain_hex|by eapply plain_one_of; [|eassumption]|by eapply control_time_plain]. }
  { unfold restriction_json. by rewrite <- list_fmap_compose. }
  exists signature, (canonical (restriction_json payload)), o.
  assert (Ht : ∀ k, bool_decide (k ∈ restriction_fields) = true → bool_decide (k ∈ (floors (a_previous a)).*1) = false →
    field k o = Some (JStr (member_text k payload))).
  { intros k Hk%bool_decide_eq_true Hnf%bool_decide_eq_false. rewrite Hfo. eapply member_text_field; [done|by apply Hall|exact Hnf|exact HF]. }
  pose proof (control_mono _ _ Ei) as Mi. pose proof (control_mono _ _ Ex) as Mx.
  rewrite !before_wall in * by done. cbn [whole_second wall] in *.
  assert (Ha : answers v nonce a o).
  { eapply bound_answers; [exact Hb|]. intros k Hk. apply Ht.
    - revert Hk. rewrite !elem_of_cons, elem_of_nil. intros Hk. repeat destruct Hk as [->|Hk]; [..|done]; by vm_compute.
    - revert Hk. rewrite !elem_of_cons, elem_of_nil. intros Hk. repeat destruct Hk as [->|Hk]; [..|done]; by vm_compute. }
  split_and!; try done; try lia.
  exists (member_text "reason" payload). unfold date_field. rewrite !Ht by (by vm_compute). cbn [mbind option_bind un_string].
  cbn [rd_restriction rd_issued rd_newUntil]. split_and!; congruence.
Qed.

Lemma renewal_values_keys values payload :
  NoDup values.*1 → (∀ k, k ∈ values.*1 → k ∈ renewal_fields) → (∀ k, k ∈ renewal_fields → k ∈ values.*1) →
  mapM string_member (filter (λ kv, kv.1 ≠ "lease") values) = Some payload →
  NoDup payload.*1 ∧ ∀ k, k ∈ payload.*1 ↔ k ∈ renewal_fields ∧ k ≠ "lease".
Proof.
  intros Hn H1 H2 [Hk _]%string_members_keys. split.
  - rewrite Hk. eapply sublist_NoDup; [exact Hn|]. apply fmap_sublist, sublist_filter.
  - intros k. rewrite Hk. split.
    + intros H. apply list_elem_of_fmap in H as ([k' x] & -> & Hx). apply list_elem_of_filter in Hx as [Hne Hx].
      split; [|done]. apply H1. by apply (list_elem_of_fmap_2 fst _ (k', x)).
    + intros [H Hne]. apply H2 in H. apply list_elem_of_fmap in H as ([k' x] & -> & Hx).
      apply (list_elem_of_fmap_2 fst _ (k', x)). by apply list_elem_of_filter.
Qed.

Lemma parsed_identity_valid j l : parseSmartAccessRuntimeLeaseIdentity j = Some l → identity_valid l = true.
Proof.
  unfold parseSmartAccessRuntimeLeaseIdentity. destruct (smartAccessControlObject identity_fields j) as [o|]; [|done]. cbn [mbind option_bind].
  destruct (identity_unmarshal o) as [x|]; [|done]. cbn [mbind option_bind]. destruct (identity_valid x) eqn:E; [|done]. by intros [= <-].
Qed.

Lemma control_time_utc s t : parse_utc s = Some t → control_time s = t ∧ mono t = None.
Proof. intros H. unfold control_time. rewrite (utc_control _ _ H). split; [done|]. by apply format_parse_utc in H as [_ ?]. Qed.

(** C9: A renewal decision is authentic and fresh.  The worker acts on the answer
    to a renewal only if some configured key verifies a signature on a text that,
    read as JSON, answers this attempt: its nonce, credential binding, profile,
    platform, audience and the lease it was made for.  It then either restricts
    exactly the scope of that lease, with the action that belongs to its reason,
    or carries a valid lease with a new identifier that continues it: same scope,
    revisions not lower, issued after the request and not before its
    predecessor, admitting new flows for longer, and active no longer than the
    enrolment.  The enrolment, the control decision and the worker's authority
    have not ended. *)
Theorem renewal_authentic ed v raw nonce a started now d :
  config_ok (v_config v) → plain_string nonce = true → identity_valid (a_previous a) = true →
  verifyRenewal ed v raw nonce a started now = Some d →
  ∃ keyID key signature text o,
    v_keys v !! keyID = Some key ∧
    ed key (list_of_str "pokrov-smart-access-runtime-renewal-v1" ++ byte_of 10 :: text) signature = true ∧
    parse text = Some (JObj o) ∧ answers v nonce a o ∧ attempt_current v a now = true ∧
    wall started / Second * Second ≤ wall (rd_issued d) ≤ wall now ∧ wall now < wall (rd_newUntil d) ∧
    ((rd_lease d = None ∧ restricts a o d) ∨
     (∃ l, rd_lease d = Some l ∧ rd_restriction d = "" ∧ renews a o l ∧
        parse_utc (IssuedAt l) = Some (rd_issued d) ∧ parse_utc (NewFlowsUntil l) = Some (rd_newUntil d) ∧
        parse_utc (ActiveFlowsUntil l) = Some (rd_activeUntil d) ∧
        wall (control_time (IssuedAt (a_previous a))) ≤ wall (rd_issued d) ∧
        wall (control_time (NewFlowsUntil (a_previous a))) < wall (rd_newUntil d) ∧
        After (rd_activeUntil d) (a_expires a) = false)).
Proof.
  intros C Hnonce Hid H. unfold verifyRenewal in H.
  destruct (open_envelope _ v raw) as [[[[key digest] sig] rawp]|] eqn:Eo; cbn [mbind option_bind] in H; [|done].
  destruct (envelope_key _ _ _ _ _ _ _ Eo) as (keyID & Hkey).
  destruct (smartAccessControlObject renewal_fields rawp) as [values|] eqn:Ev.
  2:{ destruct (restriction_authentic _ _ _ _ _ _ _ _ _ _ _ C Hnonce Hid H) as (signature & text & o & ? & ? & ? & ? & ? & ? & ? & ?).
      exists keyID, key, signature, text, o. split_and!; try done; try lia. by left. }
  destruct C as (Cp & Cf & Ca).
  destruct (mapM string_member _) as [payload|] eqn:Em; cbn [mbind option_bind] in H; [|done].
  destruct (negb (bound _ _ _ _ _)) eqn:Eb; [done|]. apply negb_false_iff in Eb.
  destruct (field "lease" values ≫= _) as [l|] eqn:El; cbn [mbind option_bind] in H; [|done].
  destruct (_ || _) eqn:E1 in H; [done|]. destruct (_ || _) eqn:E2 in H; [done|].
  destruct (negb (signed _ _ _ _ _ _)) eqn:E3; [done|]. injection H as <-. cbn [rd_lease rd_restriction rd_issued rd_newUntil rd_activeUntil].
  assert (Hl : identity_valid l = true) by (destruct (field "lease" values) as [j|]; [by eapply parsed_identity_valid|done]).
  bsplit. match goal with H : signed _ _ _ _ _ _ = true |- _ => apply signed_valid in H as (signature & Hsig) end.
  destruct (control_object_spec _ _ _ Ev) as (Hn & _ & Hall).
  destruct (renewal_values_keys values payload Hn) as [Hn' Hkeys]; [|done|done|].
  { intros k. eapply control_keys; [|exact Ev]. apply (bool_decide_eq_true_1 _). by vm_compute. }
  pose proof (bound_spec _ _ _ _ _ Eb) as (B1 & B2 & B3 & B4 & B5 & B6 & B7).
  destruct (identity_previous_plain _ Hid) as [Pl Ps].
  set (members := ("lease", canonicalObject l) :: strings_json payload) in *.
  assert (Hnm : NoDup members.*1).
  { unfold members. cbn [fmap list_fmap fst]. apply NoDup_cons. unfold strings_json. rewrite <- list_fmap_compose.
    split; [|done]. intros Hc. apply Hkeys in Hc as [_ Hc]. done. }
  destruct (canonical_parse members) as (o & Ho & Hfo); [|done|].
  { unfold members. cbn [forallb fst snd]. rewrite canonical_plain by done. cbn [andb].
    apply (payload_plain (filter (λ k, k ≠ "lease") renewal_fields)); [done| |by vm_compute|].
    - intros k Hk. apply list_elem_of_filter. apply Hkeys in Hk as [? ?]. done.
    - change (filter (λ k, k ≠ "lease") renewal_fields) with (take 7 renewal_fields).
      repeat (apply Forall_cons; split); [..|by apply Forall_nil];
        rewrite ?B1, ?B2, ?B3, ?B4, ?B5, ?B6, ?B7;
        first [done|apply binding_plain|by eapply plain_hex|by eapply plain_one_of; [|eassumption]]. }
  exists keyID, key, signature, (canonical members), o.
  assert (Ha : answers v nonce a o).
  { eapply bound_answers; [exact Eb|]. intros k Hk. rewrite Hfo. unfold members. cbn [field].
    assert (k ∈ renewal_fields ∧ k ≠ "lease") as [Hk1 Hk2]
      by (revert Hk; rewrite !elem_of_cons, elem_of_nil; intros Hk; repeat destruct Hk as [->|Hk]; [..|done];
          (split; [apply (bool_decide_eq_true_1 _); by vm_compute|done])).
    destruct (String.eqb "lease" k) eqn:E; [apply String.eqb_eq in E; by subst|]. apply text_field; [done|]. by apply Hkeys. }
  destruct (identity_dates l Hl) as (i & n & ac & Hi & Hnu & Hac & _).
  destruct (identity_dates _ Hid) as (pi & pn & pa & Hpi & Hpn & _).
  destruct (control_time_utc _ _ Hi) as [Ei Mi], (control_time_utc _ _ Hnu) as [En Mn], (control_time_utc _ _ Hac) as [Ea _].
  destruct (control_time_utc _ _ Hpi) as [Epi M1], (control_time_utc _ _ Hpn) as [Epn M2].
  rewrite Ei, En, Ea, Epi, Epn in *.
  unfold After in *. rewrite !before_wall in * by done. cbn [whole_second wall] in *.
  split_and!; try done; try lia. right. exists l. split_and!; try done; try lia.
Qed.

(** ** An accepted answer

    With a keyed hash in the place of the signature scheme. *)

Definition ex_sign (key message : bytes) : bytes := sha256 (key ++ message) ++ sha256 (message ++ key).
Definition ex_verify (key message signature : bytes) : bool := bytes_eqb signature (ex_sign key message).

Definition b64_char (x : Z) : ascii :=
  if x <? 26 then byte_of (65 + x) else if x <? 52 then byte_of (71 + x) else if x <? 62 then byte_of (x - 4)
  else if x =? 62 then "-"%char else "_"%char.
Fixpoint b64_encode (b : bytes) : bytes :=
  match b with
  | x :: y :: z :: r =>
      let '(x, y, z) := (byte_val x, byte_val y, byte_val z) in
      b64_char (x / 4) :: b64_char (x mod 4 * 16 + y / 16) :: b64_char (y mod 16 * 4 + z / 64) :: b64_char (z mod 64) :: b64_encode r
  | [x; y] =>
      let '(x, y) := (byte_val x, byte_val y) in
      [b64_char (x / 4); b64_char (x mod 4 * 16 + y / 16); b64_char (y mod 16 * 4)]
  | [x] => let x := byte_val x in [b64_char (x / 4); b64_char (x mod 4 * 16)]
  | [] => []
  end.

Definition ex_hex (n : nat) (c : ascii) : string := str_of_list (replicate n c).
Definition ex_key : bytes := replicate 32 "k"%char.
Definition ex_nonce : string := ex_hex 32 "5".
Definition ex_config : smartAccessRuntimeControlConfig :=
  mkConfig "pokrov-smart-access-runtime-worker-v1" (ex_hex 64 "a") "" "android" "lab" "https://api.example.org" "dns"
    "pkr_src1.x.y" "2026-01-01T00:00:00Z" "2026-01-01T01:00:00Z" ∅.
Definition ex_time (s : Z) : time :=
  match parse_utc "2026-01-01T00:00:00Z" with Some t => mkTime (wall t + s * Second) (Some (s * Second)) | None => zero_time end.
Definition ex_date (s : Z) : time := mkTime (wall (ex_time s)) None.
Definition ex_verifier : verifier := mkVerifier ex_config {[ "k1" := ex_key ]} (ex_date 3600) (ex_time 3600).

Definition ex_response (schema domain : string) (members : list (string * json)) : bytes :=
  print (JObj [("schema", JStr schema); ("envelope", JObj
    [("algorithm", JStr "Ed25519"); ("key_id", JStr "k1");
     ("payload_sha256", JStr (str_of_list (hex_encode (sha256 (canonical members)))));
     ("payload", JObj members);
     ("signature_b64", JStr (str_of_list (b64_encode (ex_sign ex_key (list_of_str domain ++ byte_of 10 :: canonical members)))))])]).

Definition ex_control : bytes := Eval vm_compute in
  ex_response "smart-access-runtime-control-response-v1" "pokrov-smart-access-runtime-control-v1"
    [("schema_version", JStr "pokrov-smart-access-runtime-control-v1"); ("request_nonce", JStr ex_nonce);
     ("device_binding", JStr (binding "pokrov-smart-access-runtime-binding-v1" ex_nonce "pkr_src1.x.y"));
     ("profile_digest", JStr (ex_hex 64 "a")); ("platform", JStr "android"); ("audience", JStr "lab");
     ("action", JStr "terminate"); ("reason", JStr "catalog_disabled"); ("issued_at", JStr "2026-01-01T00:10:00Z");
     ("expires_at", JStr "2026-01-01T00:10:40Z")].

Lemma ex_config_ok : config_ok (v_config ex_verifier).
Proof. split_and!; by vm_compute. Qed.

Lemma control_authentic_witness :
  verify ex_verify ex_verifier ex_control ex_nonce (ex_time 600) (ex_time 605) = Some ("catalog_disabled", ex_date 640) ∧
  ∃ keyID key, v_keys ex_verifier !! keyID = Some key.
Proof.
  assert (verify ex_verify ex_verifier ex_control ex_nonce (ex_time 600) (ex_time 605) = Some ("catalog_disabled", ex_date 640)) as H
    by (vm_compute; reflexivity).
  split; [exact H|].
  destruct (control_authentic ex_verify ex_verifier ex_control ex_nonce (ex_time 600) (ex_time 605) "catalog_disabled"
    (ex_date 640) ex_config_ok ltac:(vm_compute; reflexivity) H) as (keyID & key & _ & _ & _ & _ & Hk & _).
  exists keyID, key. exact Hk.
Defined.

Definition ex_lease (id : ascii) (issued newUntil activeUntil : string) (revision : Z) : identity :=
  mkIdentity (ex_hex 32 id) "android" "lab" "svc" "prov" "perm" "cap" revision revision (ex_hex 64 "b") issued newUntil activeUntil
    (ex_hex 64 "a") "selective" (ex_hex 64 "c") "synthetic" "ipv4" "web_request" revision revision revision revision.
Definition ex_previous : identity := ex_lease "1" "2026-01-01T00:05:00Z" "2026-01-01T00:12:00Z" "2026-01-01T00:30:00Z" 3.
Definition ex_next : identity := ex_lease "2" "2026-01-01T00:10:00Z" "2026-01-01T00:18:00Z" "2026-01-01T00:40:00Z" 4.
Definition ex_attempt : attempt :=
  mkAttempt ex_previous "pkr_srn1.x.y" (ex_date 3000) (ex_time 3000) (mkDecision "current" (ex_date 640) (ex_time 640)).
Definition ex_renewal : bytes := Eval vm_compute in
  ex_response "smart-access-runtime-renewal-response-v1" "pokrov-smart-access-runtime-renewal-v1"
    [("schema_version", JStr "pokrov-smart-access-runtime-renewal-v1"); ("request_nonce", JStr ex_nonce);
     ("capability_binding", JStr (binding "pokrov-smart-access-runtime-renewal-binding-v1" ex_nonce "pkr_srn1.x.y"));
     ("profile_digest", JStr (ex_hex 64 "a")); ("platform", JStr "android"); ("audience", JStr "lab");
     ("expected_lease_id", JStr (ex_hex 32 "1")); ("lease", canonicalObject ex_next)].

Definition ex_decision : smartAccessRuntimeRenewalDecision :=
  mkRenewal (Some ex_next) "" (ex_date 600) (ex_date 1080) (ex_date 2400) (ex_time 1080).

Lemma renewal_authentic_witness :
  verifyRenewal ex_verify ex_verifier ex_renewal ex_nonce ex_attempt (ex_time 600) (ex_time 605) = Some ex_decision ∧
  ∃ o, answers ex_verifier ex_nonce ex_attempt o.
Proof.
  assert (verifyRenewal ex_verify ex_verifier ex_renewal ex_nonce ex_attempt (ex_time 600) (ex_time 605) = Some ex_decision) as H
    by (vm_compute; reflexivity).
  split; [exact H|].
  destruct (renewal_authentic ex_verify ex_verifier ex_renewal ex_nonce ex_attempt (ex_time 600) (ex_time 605) ex_decision
    ex_config_ok ltac:(vm_compute; reflexivity) ltac:(vm_compute; reflexivity) H) as (_ & _ & _ & _ & o & _ & _ & _ & Ha & _).
  exists o. exact Ha.
Defined.
