(* ===== verification/CatalogVerify.v ===== *)
(** * The signed routing catalog

    [daemon/local_dpi_catalog.go]: the checks with which the native side accepts
    one service of a signed routing catalog, and with which it lets that service
    admit the local-DPI strategy for a control host.  Signature and digest are over
    the text of the payload as it stands in the envelope, so a [json.RawMessage] is
    its text here ([GoRawJson]).  Ed25519 is a parameter. *)

From stdpp Require Import base list strings gmap sorting.
From Stdlib Require Import ZArith Lia Ascii.
From S2P Require Import Prelude GoTime GoBytes GoJson GoRawJson GoNetip GoCrypto CatalogWindow TelegramWs ControlWire ControlVerify.

Local Open Scope Z_scope.
Set Default Goal Selector "!".

(** ** Reading *)

Abbreviation raw_fields := (list (string * bytes)).

(** [object[key]]: the nil message when absent. *)
Definition raw_field (k : string) (o : raw_fields) : option bytes := snd <$> head (filter (λ kv, kv.1 = k) o).
Definition raw_get (k : string) (o : raw_fields) : bytes := default [] (raw_field k o).

(** [smartAccessControlObject] on the text of an object. *)
Definition rawControlObject (fields : list string) (raw : bytes) : option raw_fields :=
  object ← raw_object raw;
  if bool_decide (NoDup object.*1) && (length object =? length fields)%nat &&
     forallb (λ key, bool_decide (key ∈ object.*1)) fields
  then Some object else None.

Definition starts_with (c : ascii) (raw : bytes) : bool :=
  match raw with d :: _ => Ascii.eqb d c | [] => false end.

(** The value is the empty string when the text is not a string. *)
Definition localDpiCatalogString (raw : bytes) : string * bool :=
  match parse raw with
  | Some (JStr s) => (s, starts_with quote raw)
  | _ => ("", false)
  end.
Abbreviation catalog_text raw := (localDpiCatalogString raw).1.

Definition localDpiCatalogArray (raw : bytes) (min max : nat) : option (list bytes) :=
  if negb (starts_with "[" raw) then None
  else
    values ← raw_array raw;
    if (length values <? min)%nat || (max <? length values)%nat then None else Some values.

(** [json.Unmarshal(raw, &n)] for an [int64]. *)
Definition raw_int64 (raw : bytes) : option Z := parse raw ≫= un_int64.

Fixpoint contains_loop (wanted : string) (seen : list string) (found : bool) (values : list bytes) : bool :=
  match values with
  | [] => found
  | raw :: values =>
      let '(value, valid) := localDpiCatalogString raw in
      if negb valid || bool_decide (value = "") || bool_decide (value ∈ seen) then false
      else contains_loop wanted (value :: seen) (found || bool_decide (value = wanted)) values
  end.
Definition localDpiCatalogContains (raw : bytes) (wanted : string) : bool :=
  match localDpiCatalogArray raw 1 5 with
  | Some values => contains_loop wanted [] false values
  | None => false
  end.

Definition host_char (c : ascii) : bool :=
  let x := byte_val c in ((97 <=? x) && (x <=? 122)) || ((48 <=? x) && (x <=? 57)) || (x =? 45).
Definition host_label (label : bytes) : bool :=
  negb (length label =? 0)%nat && (length label <=? 63)%nat && negb (starts_with "-" label) &&
  negb (bool_decide (last label = Some "-"%char)) && forallb host_char label.
Definition localDpiCatalogHost (host : string) : bool :=
  let b := list_of_str host in
  (3 <=? length b)%nat && (length b <=? 253)%nat && bool_decide ("."%char ∈ b) &&
  negb (bool_decide (is_Some (ParseAddr b))) && forallb host_label (split_at "." b).

(** ** The catalog *)

Record verifiedCatalogService := mkVerified { vc_service : raw_fields; vc_issuedAt : string; vc_expiresAt : string }.

Definition access_states : list string := ["trial_premium"; "bonus_premium"; "paid_unlimited"; "free_monthly"; "free_soft_mode"].
Definition envelope_fields : list string := ["algorithm"; "key_id"; "payload_sha256"; "payload"; "signature_b64"].
Definition catalog_fields : list string :=
  ["schema_version"; "revision"; "security_revision"; "audience"; "issued_at"; "expires_at"; "sources"; "evidence"; "services"].
Definition service_fields : list string :=
  ["service_id"; "display_name"; "categories"; "enabled"; "classification"; "reason"; "evidence_status"; "source_ids";
   "evidence_ids"; "platforms"; "access_states"; "route_intents"; "android"; "windows"; "domains"; "networks";
   "provider_capability_refs"; "external_gateway_policy"].

(** One pinned key: strict base64 of 32 bytes in 44 characters. *)
Definition pinned_key (value : bytes) : option bytes :=
  let '(encoded, valid) := localDpiCatalogString value in
  key ← std_decode encoded;
  if negb valid || negb (String.length encoded =? 44)%nat || negb (length key =? 32)%nat then None else Some key.

Definition localDpiCatalogPinnedKey (raw : bytes) (keyID : string) : option bytes :=
  values ← raw_map raw;
  if bool_decide (values = ∅) || negb (forallb (λ kv : string * bytes, catalogServiceIDPattern kv.1) (map_to_list values)) then None
  else
    object ← rawControlObject (map_to_list values).*1 raw;
    keys ← mapM (λ kv : string * bytes, key ← pinned_key kv.2; Some (kv.1, key)) object;
    raw_field keyID keys.

(** The loop over the services: [None] when it gives up, else the selected one. *)
Fixpoint select_service (serviceID : string) (seen : list string) (selected : option raw_fields) (services : list bytes)
    : option (option raw_fields) :=
  match services with
  | [] => Some selected
  | raw :: services =>
      service ← rawControlObject service_fields raw;
      let id := catalog_text (raw_get "service_id" service) in
      if negb (catalogServiceIDPattern id) || bool_decide (id ∈ seen) then None
      else select_service serviceID (id :: seen) (if bool_decide (id = serviceID) then Some service else selected) services
  end.

Definition revision_ok (r : Z) : bool := negb ((r <? 1) || (9007199254740991 <? r)).

Section Verification.
(** [ed25519.Verify(key, message, signature)] *)
Variable ed25519_Verify : bytes → bytes → bytes → bool.

(** The payload of an envelope that a pinned key signed and whose digest is the
    expected one. *)
Definition open_catalog (envelopeJSON publicKeysJSON : bytes) (expectedPayloadSHA256 : string) : option bytes :=
  envelope ← rawControlObject envelope_fields envelopeJSON;
  let keyID := catalog_text (raw_get "key_id" envelope) in
  let digest := catalog_text (raw_get "payload_sha256" envelope) in
  let signatureText := catalog_text (raw_get "signature_b64" envelope) in
  if negb (bool_decide (catalog_text (raw_get "algorithm" envelope) = "Ed25519")) || negb (catalogServiceIDPattern keyID) ||
     negb (bool_decide (digest = expectedPayloadSHA256)) || negb (String.length signatureText =? 86)%nat then None
  else
    key ← localDpiCatalogPinnedKey publicKeysJSON keyID;
    let rawPayload := raw_get "payload" envelope in
    if negb (bool_decide (str_of_list (hex_encode (sha256 rawPayload)) = digest)) then None
    else
      signature ← raw_url_decode signatureText;
      if negb (length signature =? 64)%nat ||
         negb (ed25519_Verify key (list_of_str "pokrov-routing-catalog-v1" ++ byte_of 10 :: rawPayload) signature) then None
      else Some rawPayload.

Definition verifiedRoutingCatalogService (envelopeJSON publicKeysJSON : bytes) (audience expectedPayloadSHA256 : string)
    (expectedRevision expectedSecurityRevision : Z) (serviceID accessState : string) (now : time) : option verifiedCatalogService :=
  if (1048576 <? blen envelopeJSON) || negb (one_of ["lab"; "production"] audience) ||
     negb (smartAccessRuntimeDigest expectedPayloadSHA256) || negb (revision_ok expectedRevision) ||
     negb (revision_ok expectedSecurityRevision) || negb (catalogServiceIDPattern serviceID) ||
     negb (one_of access_states accessState) then None
  else
    rawPayload ← open_catalog envelopeJSON publicKeysJSON expectedPayloadSHA256;
    payload ← rawControlObject catalog_fields rawPayload;
    if negb (bool_decide (catalog_text (raw_get "schema_version" payload) = "pokrov-routing-catalog-v1")) ||
       negb (bool_decide (catalog_text (raw_get "audience" payload) = audience)) ||
       negb (bool_decide (raw_int64 (raw_get "revision" payload) = Some expectedRevision)) ||
       negb (bool_decide (raw_int64 (raw_get "security_revision" payload) = Some expectedSecurityRevision)) then None
    else
      let issuedText := catalog_text (raw_get "issued_at" payload) in
      let expiresText := catalog_text (raw_get "expires_at" payload) in
      issued ← smartAccessControlTime issuedText;
      expires ← smartAccessControlTime expiresText;
      if negb (Before issued expires) || Before now issued || negb (Before now expires) then None
      else
        _ ← localDpiCatalogArray (raw_get "sources" payload) 1 128;
        _ ← localDpiCatalogArray (raw_get "evidence" payload) 0 512;
        services ← localDpiCatalogArray (raw_get "services" payload) 1 256;
        selected ← select_service serviceID [] None services;
        service ← selected;
        Some (mkVerified service issuedText expiresText).
End Verification.

(** ** Route intents *)

Definition intent_extras : list (list string) :=
  [[]; ["local_dpi_control_host"]; ["telegram_ws_datacenters"]; ["local_dpi_control_host"; "telegram_ws_datacenters"]].

(** The first set of extra members that fits. *)
Fixpoint route_intent (extras : list (list string)) (raw : bytes) : option raw_fields :=
  match extras with
  | [] => None
  | e :: extras => match rawControlObject (["mode"; "action"] ++ e) raw with
                   | Some intent => Some intent
                   | None => route_intent extras raw
                   end
  end.
Definition catalogNativeRouteIntent (raw : bytes) : option raw_fields := route_intent intent_extras raw.

(** ** Telegram datacenters *)

Definition bytes_le (a b : bytes) : Prop := String.leb (str_of_list a) (str_of_list b) = true.
#[export] Instance bytes_le_dec a b : Decision (bytes_le a b) := decide (String.leb _ _ = true).
Definition id_le (a b : dc_options) : Prop := dc_ID a ≤ dc_ID b.
#[export] Instance id_le_dec a b : Decision (id_le a b) := decide (dc_ID a ≤ dc_ID b).

(** The addresses of a row, and the addresses seen after it. *)
Fixpoint address_loop (seen : list string) (acc : list bytes) (raws : list bytes) : option (list string * list bytes) :=
  match raws with
  | [] => Some (seen, acc)
  | raw :: raws =>
      let '(address, valid) := localDpiCatalogString raw in
      if negb valid || negb (PublicDatacenterAddress (list_of_str address)) || bool_decide (address ∈ seen) then None
      else address_loop (address :: seen) (acc ++ [list_of_str address]) raws
  end.

Fixpoint row_loop (seenIDs : list Z) (seenAddresses : list string) (acc : list dc_options) (rows : list bytes)
    : option (list dc_options) :=
  match rows with
  | [] => Some acc
  | raw :: rows =>
      row ← rawControlObject ["id"; "addresses"; "websocket_address"] raw;
      id ← raw_int64 (raw_get "id" row);
      if (id <? 1) || (5 <? id) || bool_decide (id ∈ seenIDs) then None
      else
        let '(websocket, valid) := localDpiCatalogString (raw_get "websocket_address" row) in
        if negb valid || negb (PublicDatacenterAddress (list_of_str websocket)) then None
        else
          addresses ← localDpiCatalogArray (raw_get "addresses" row) 1 16;
          p ← address_loop seenAddresses [] addresses;
          row_loop (id :: seenIDs) p.1
            (acc ++ [mkDcOptions id (merge_sort bytes_le p.2) (list_of_str websocket)]) rows
  end.

Definition telegramCatalogDatacenters (raw : bytes) : option (list dc_options) :=
  rows ← localDpiCatalogArray raw 1 5;
  result ← row_loop [] [] [] rows;
  Some (merge_sort id_le result).

(** ** The local-DPI projection *)

Definition is_present (k : string) (o : raw_fields) : bool := bool_decide (is_Some (raw_field k o)).

(** One intent: [None] when the service is refused, else whether it is the
    intent of the requested mode with this control host. *)
Definition check_intent (serviceID host requestedMode mode action : string) (intent : raw_fields) : option bool :=
  if is_present "telegram_ws_datacenters" intent &&
     (negb (bool_decide (mode = "selective")) || negb (bool_decide (action = "vpn")) ||
      bool_decide (telegramCatalogDatacenters (raw_get "telegram_ws_datacenters" intent) = None)) then None
  else
    here ← (if is_present "local_dpi_control_host" intent then
              let intentHost := catalog_text (raw_get "local_dpi_control_host" intent) in
              if negb (bool_decide (mode = "selective") ||
                       (bool_decide (mode = "smart_safe") && one_of ["youtube"; "discord"; "instagram"; "threads"] serviceID)) ||
                 negb (bool_decide (action = "vpn")) || negb (localDpiCatalogHost intentHost) then None
              else if bool_decide (mode = requestedMode)
              then (if bool_decide (intentHost = host) then Some true else None)
              else Some false
            else Some false);
    if bool_decide (mode = requestedMode) && negb (bool_decide (action = "vpn")) then None else Some here.

Fixpoint intent_loop (serviceID host requestedMode : string) (seenModes : list string) (modeVPN : bool) (intents : list bytes)
    : option bool :=
  match intents with
  | [] => Some modeVPN
  | raw :: intents =>
      intent ← catalogNativeRouteIntent raw;
      let mode := catalog_text (raw_get "mode" intent) in
      let action := catalog_text (raw_get "action" intent) in
      if bool_decide (mode = "") || bool_decide (mode ∈ seenModes) then None
      else
        here ← check_intent serviceID host requestedMode mode action intent;
        intent_loop serviceID host requestedMode (mode :: seenModes) (modeVPN || here) intents
  end.

Definition domain_fields : list string := ["name"; "match"; "role"; "shared"; "source_ids"].

Fixpoint domain_loop (host : string) (seen : list string) (found : bool) (domains : list bytes) : bool :=
  match domains with
  | [] => found
  | raw :: domains =>
      match rawControlObject domain_fields raw with
      | None => false
      | Some domain =>
          let name := catalog_text (raw_get "name" domain) in
          let match_ := catalog_text (raw_get "match" domain) in
          let shared := raw_get "shared" domain in
          let identity := str_of_list (list_of_str name ++ byte_of 0 :: list_of_str match_) in
          if negb (localDpiCatalogHost name) || negb (one_of ["exact"; "suffix"] match_) ||
             negb (bytes_eqb shared (txt "false") || bytes_eqb shared (txt "true")) || bool_decide (identity ∈ seen) then false
          else domain_loop host (identity :: seen)
                 (found || (bool_decide (name = host) && bool_decide (match_ = "exact") && bytes_eqb shared (txt "false"))) domains
      end
  end.

(** The tests both projections share. *)
Definition service_offered (service : raw_fields) (accessState platform : string) : bool :=
  bytes_eqb (raw_get "enabled" service) (txt "true") &&
  bool_decide (catalog_text (raw_get "evidence_status" service) = "verified") &&
  localDpiCatalogContains (raw_get "platforms" service) platform &&
  localDpiCatalogContains (raw_get "access_states" service) accessState.

Definition localDpiCatalogService (service : raw_fields) (serviceID host accessState platform requestedMode : string) : bool :=
  if negb (service_offered service accessState platform) then false
  else match localDpiCatalogArray (raw_get "route_intents" service) 0 5 with
       | None => false
       | Some intents =>
           match intent_loop serviceID host requestedMode [] false intents with
           | Some true =>
               match localDpiCatalogArray (raw_get "domains" service) 0 256 with
               | Some domains => domain_loop host [] false domains
               | None => false
               end
           | _ => false
           end
       end.

Definition verifyLocalDpiCatalogPlatform ed25519_Verify (envelopeJSON publicKeysJSON : bytes)
    (audience expectedPayloadSHA256 : string) (expectedRevision expectedSecurityRevision : Z)
    (serviceID controlHost accessState platform mode : string) (now : time) : bool :=
  if negb (one_of ["selective"; "smart_safe"] mode) || negb (localDpiCatalogHost controlHost) then false
  else match verifiedRoutingCatalogService ed25519_Verify envelopeJSON publicKeysJSON audience expectedPayloadSHA256
               expectedRevision expectedSecurityRevision serviceID accessState now with
       | Some verified => localDpiCatalogService (vc_service verified) serviceID controlHost accessState platform mode
       | None => false
       end.

(** The entry points: Android's [VerifyLocalDpiCatalog] is for the selective mode. *)
Definition VerifyLocalDpiCatalog ed keysJSON audience digest revision security serviceID host state now envelope : bool :=
  verifyLocalDpiCatalogPlatform ed envelope keysJSON audience digest revision security serviceID host state "android" "selective" now.
Definition VerifyLocalDpiCatalogMode ed keysJSON audience digest revision security serviceID host state mode now envelope : bool :=
  verifyLocalDpiCatalogPlatform ed envelope keysJSON audience digest revision security serviceID host state "android" mode now.
Definition VerifyWindowsLocalDpiCatalogMode ed keysJSON audience digest revision security serviceID host state mode now envelope : bool :=
  verifyLocalDpiCatalogPlatform ed envelope keysJSON audience digest revision security serviceID host state "windows" mode now.
Definition VerifyWindowsLocalDpiCatalog ed keysJSON audience digest revision security serviceID host state now envelope : bool :=
  VerifyWindowsLocalDpiCatalogMode ed keysJSON audience digest revision security serviceID host state "selective" now envelope.

(** ** What the texts say *)

(** The cut object [o] has the members [ms]. *)
Definition cut_of (o : raw_fields) (ms : list (string * json)) : Prop :=
  NoDup ms.*1 ∧ ∀ k, parse (raw_get k o) = field k ms.

Lemma raw_field_cons k k' t o : raw_field k ((k', t) :: o) = if String.eqb k' k then Some t else raw_field k o.
Proof.
  unfold raw_field. rewrite filter_cons. cbn [fst]. destruct (decide (k' = k)) as [->|Hn].
  - by rewrite String.eqb_refl.
  - by rewrite (proj2 (String.eqb_neq _ _) Hn).
Qed.

Lemma members_field o ms k : Forall2 member_reads_as o ms → parse (raw_get k o) = field k ms.
Proof.
  induction 1 as [|[a t] [b j] o ms [Hk Hj] _ IH]; [done|]. cbn in Hk, Hj. subst b. unfold raw_get. rewrite raw_field_cons.
  cbn [field]. by destruct (String.eqb a k).
Qed.

Lemma members_keys o ms : Forall2 member_reads_as o ms → o.*1 = ms.*1.
Proof. induction 1 as [|[a t] [b j] o ms [Hk _] _ IH]; [done|]. cbn in *. congruence. Qed.

(** An accepted text is the text of an object with exactly the given members. *)
Lemma rawControl_spec fields raw o : rawControlObject fields raw = Some o →
  ∃ ms, parse raw = Some (JObj ms) ∧ smartAccessControlObject fields (JObj ms) = Some ms ∧ cut_of o ms ∧ o.*1 = ms.*1.
Proof.
  unfold rawControlObject. pose proof (raw_object_parse raw) as H. destruct (raw_object raw) as [o'|]; [|done].
  destruct H as (ms & Hp & Hm). cbn [mbind option_bind]. destruct (_ && _) eqn:E; [|done]. intros [= <-].
  exists ms. pose proof (members_keys _ _ Hm) as Hk. split_and!; [done| | |done].
  - unfold smartAccessControlObject. rewrite <- Hk, <- (Forall2_length _ _ _ Hm), E. done.
  - bsplit. split; [by rewrite <- Hk|]. intros k. by apply members_field.
Qed.

Lemma catalog_string raw s : localDpiCatalogString raw = (s, true) → parse raw = Some (JStr s).
Proof. unfold localDpiCatalogString. destruct (parse raw) as [[]|]; try done. by intros [= -> _]. Qed.

Lemma catalog_text_spec raw s : catalog_text raw = s → s ≠ "" → parse raw = Some (JStr s).
Proof. unfold localDpiCatalogString. destruct (parse raw) as [[]|]; cbn; intros <- H; done. Qed.

Lemma catalog_array raw lo hi l : localDpiCatalogArray raw lo hi = Some l →
  ∃ js, parse raw = Some (JArr js) ∧ Forall2 reads_as l js ∧ (lo ≤ length l ≤ hi)%nat.
Proof.
  unfold localDpiCatalogArray. destruct (negb _); [done|]. pose proof (raw_array_parse raw) as H.
  destruct (raw_array raw) as [l'|]; [|done]. cbn [mbind option_bind]. destruct (_ || _) eqn:E; [done|]. intros [= <-].
  destruct H as (js & Hp & Hl). exists js. split_and!; [done|done| |]; bsplit; by apply Nat.ltb_ge.
Qed.

Lemma raw_int64_spec raw n : raw_int64 raw = Some n → ∃ j, parse raw = Some j ∧ un_int64 j = Some n.
Proof. unfold raw_int64. destruct (parse raw) as [j|]; [|done]. eauto. Qed.

Lemma service_id_nonempty s : catalogServiceIDPattern s = true → s ≠ "".
Proof. by intros H ->. Qed.

(** *** The pinned key *)

Lemma mapM_keys {A B} (f : A → option B) (l : list (string * A)) keys k v :
  mapM (λ kv, y ← f kv.2; Some (kv.1, y)) l = Some keys → snd <$> head (filter (λ kv : string * B, kv.1 = k) keys) = Some v →
  ∃ x, (k, x) ∈ l ∧ f x = Some v.
Proof.
  revert keys. induction l as [|[a x] l IH]; intros keys Hm Hk.
  - injection Hm as <-. done.
  - cbn in Hm. destruct (f x) as [y|] eqn:E; [|done]. cbn in Hm.
    destruct (mapM _ l) as [ys|] eqn:Em; [|done]. injection Hm as <-.
    rewrite filter_cons in Hk. cbn [fst] in Hk. destruct (decide (a = k)) as [->|Hn].
    + cbn in Hk. injection Hk as <-. exists x. split; [left|done].
    + destruct (IH ys eq_refl Hk) as (x' & ? & ?). exists x'. split; [by right|done].
Qed.

Lemma raw_field_in k t o : NoDup o.*1 → (k, t) ∈ o → raw_field k o = Some t.
Proof. apply assoc_in. Qed.

Definition pinned (keysJSON : bytes) (keyID : string) (key : bytes) : Prop :=
  ∃ keys encoded, parse keysJSON = Some (JObj keys) ∧ NoDup keys.*1 ∧ field keyID keys = Some (JStr encoded) ∧
    std_decode encoded = Some key ∧ length key = 32%nat.

Lemma pinned_key_spec raw keyID key : localDpiCatalogPinnedKey raw keyID = Some key → pinned raw keyID key.
Proof.
  unfold localDpiCatalogPinnedKey. destruct (raw_map raw) as [m|]; [|done]. cbn [mbind option_bind].
  destruct (_ || _); [done|]. destruct (rawControlObject _ raw) as [o|] eqn:Eo; [|done]. cbn [mbind option_bind].
  destruct (mapM _ o) as [keys|] eqn:Em; [|done]. cbn [mbind option_bind]. intros Hk.
  destruct (mapM_keys pinned_key o keys keyID key Em Hk) as (t & Hin & Ht).
  apply rawControl_spec in Eo as (ms & Hp & _ & [Hn Hf] & Hkeys). unfold pinned_key in Ht.
  destruct (localDpiCatalogString t) as [encoded valid] eqn:Es. destruct (std_decode encoded) as [k|] eqn:Ed; [|done].
  cbn [mbind option_bind] in Ht. destruct (_ || _) eqn:E in Ht; [done|]. injection Ht as ->. bsplit. subst valid.
  exists ms, encoded. split_and!; try done.
  - rewrite <- Hf. unfold raw_get. rewrite (raw_field_in keyID t) by (done || by rewrite Hkeys). by apply catalog_string.
  - by apply Nat.eqb_eq.
Qed.

(** *** The selected service *)

(** A service of the list, by its text. *)
Lemma service_id_read raw j o id : rawControlObject service_fields raw = Some o → reads_as raw j →
  catalog_text (raw_get "service_id" o) = id → catalogServiceIDPattern id = true →
  ∃ ms, j = JObj ms ∧ smartAccessControlObject service_fields (JObj ms) = Some ms ∧ cut_of o ms ∧ field "service_id" ms = Some (JStr id).
Proof.
  intros (ms & Hp & Hc & Hcut & _)%rawControl_spec Hj Hid Hpat. unfold reads_as in Hj. rewrite Hp in Hj. injection Hj as <-.
  exists ms. split_and!; try done. destruct Hcut as [_ Hf]. rewrite <- Hf. apply catalog_text_spec; [done|by apply service_id_nonempty].
Qed.

Definition names_service (sid : string) (j : json) : Prop := ∃ ms, j = JObj ms ∧ field "service_id" ms = Some (JStr sid).

Lemma names_same sid id j ms : j = JObj ms → field "service_id" ms = Some (JStr id) → names_service sid j → id = sid.
Proof. intros -> Hid (ms' & [= <-] & H). congruence. Qed.

(** An object with exactly the given members. *)
Definition exact_object (fields : list string) (j : json) : Prop := ∃ ms, j = JObj ms ∧ smartAccessControlObject fields j = Some ms.

Lemma select_seen sid l js : ∀ seen sel r, sid ∈ seen → select_service sid seen sel l = Some r → Forall2 reads_as l js →
  r = sel ∧ Forall (λ j, ¬ names_service sid j) js ∧ Forall (exact_object service_fields) js.
Proof.
  intros seen sel r Hin H HF. revert seen sel Hin H. induction HF as [|raw j l js Hj _ IH]; intros seen sel Hin H.
  - injection H as <-. by split.
  - cbn [select_service] in H. destruct (rawControlObject service_fields raw) as [o|] eqn:Eo; [|done]. cbn [mbind option_bind] in H.
    destruct (_ || _) eqn:E in H; [done|]. bsplit.
    destruct (service_id_read raw j o _ Eo Hj eq_refl) as (ms & -> & Hex & _ & Hid); [done|].
    assert (catalog_text (raw_get "service_id" o) ≠ sid) as Hne by (intros <-; done).
    rewrite bool_decide_eq_false_2 in H by done. apply IH in H as (-> & HF & HE); [|by right].
    split_and!; [done| |constructor; [by exists ms|done]]. constructor; [|done]. intros Hs. apply Hne. by eapply names_same.
Qed.

Lemma select_service_spec sid l js seen o : sid ∉ seen → select_service sid seen None l = Some (Some o) → Forall2 reads_as l js →
  ∃ i ms, js !! i = Some (JObj ms) ∧ smartAccessControlObject service_fields (JObj ms) = Some ms ∧ cut_of o ms ∧
    field "service_id" ms = Some (JStr sid) ∧ (∀ k j, js !! k = Some j → names_service sid j → k = i) ∧
    Forall (exact_object service_fields) js.
Proof.
  intros Hin H HF. revert seen Hin H. induction HF as [|raw j l js Hj HF IH]; intros seen Hin H; [done|].
  cbn [select_service] in H. destruct (rawControlObject service_fields raw) as [o'|] eqn:Eo; [|done]. cbn [mbind option_bind] in H.
  destruct (_ || _) eqn:E in H; [done|]. bsplit.
  destruct (service_id_read raw j o' _ Eo Hj eq_refl) as (ms & -> & Hc & Hcut & Hid); [done|].
  case_bool_decide as Hs.
  - subst sid. apply (select_seen _ _ js) in H as ([= <-] & HN & HE); [|left|done]. exists 0%nat, ms.
    split_and!; try done; [|constructor; [by exists ms|done]].
    intros [|k] x Hk Hx; [done|]. cbn in Hk. rewrite Forall_lookup in HN. by destruct (HN k x Hk).
  - apply IH in H as (i & ms' & Hi & ? & ? & ? & Hu & HE); [|by intros [?|?]%elem_of_cons].
    exists (S i), ms'. split_and!; try done; [|constructor; [by exists ms|done]]. intros [|k] x Hk Hx; [|f_equal; by eapply Hu].
    cbn in Hk. injection Hk as <-. destruct Hs. by eapply names_same.
Qed.

(** ** Authenticity *)

(** The text [text] is the payload of the envelope, with the expected digest and
    a signature of a pinned key. *)
Definition signed_text (ed : bytes → bytes → bytes → bool) (envelopeJSON keysJSON : bytes) (digest : string) (text : bytes) : Prop :=
  ∃ e keyID key signature j, parse envelopeJSON = Some (JObj e) ∧ smartAccessControlObject envelope_fields (JObj e) = Some e ∧
    field "payload" e = Some j ∧ parse text = Some j ∧
    field "key_id" e = Some (JStr keyID) ∧ pinned keysJSON keyID key ∧
    str_of_list (hex_encode (sha256 text)) = digest ∧
    ed key (list_of_str "pokrov-routing-catalog-v1" ++ byte_of 10 :: text) signature = true.

Lemma open_catalog_spec ed envelopeJSON keysJSON digest text j : open_catalog ed envelopeJSON keysJSON digest = Some text →
  parse text = Some j → signed_text ed envelopeJSON keysJSON digest text.
Proof.
  unfold open_catalog. destruct (rawControlObject envelope_fields envelopeJSON) as [o|] eqn:Eo; [|done]. cbn [mbind option_bind].
  intros H Hj. destruct (_ || _) eqn:E1 in H; [done|].
  destruct (localDpiCatalogPinnedKey keysJSON _) as [key|] eqn:Ek; [|done]. cbn [mbind option_bind] in H.
  destruct (negb _) eqn:E2 in H; [done|]. destruct (raw_url_decode _) as [signature|] eqn:Es; [|done]. cbn [mbind option_bind] in H.
  destruct (_ || _) eqn:E3 in H; [done|]. injection H as <-. bsplit.
  apply rawControl_spec in Eo as (e & Hp & Hce & [_ Hf] & _).
  exists e, (catalog_text (raw_get "key_id" o)), key, signature, j. split_and!; try done.
  - by rewrite <- Hf.
  - rewrite <- Hf. apply catalog_text_spec; [done|by apply service_id_nonempty].
  - by apply pinned_key_spec.
  - congruence.
Qed.

(** What a signed catalog text says about the service [sid]: the schema, the
    audience and both revisions are the expected ones, [now] is in its window, and
    [service] is its only entry of that name. *)
Definition catalog_says (text : bytes) (audience : string) (revision security : Z) (sid : string) (now : time)
    (issuedAt expiresAt : string) (service : list (string * json)) : Prop :=
  ∃ catalog services i issued expires,
    parse text = Some (JObj catalog) ∧ smartAccessControlObject catalog_fields (JObj catalog) = Some catalog ∧
    field "schema_version" catalog = Some (JStr "pokrov-routing-catalog-v1") ∧
    field "audience" catalog = Some (JStr audience) ∧
    field "revision" catalog ≫= un_int64 = Some revision ∧ field "security_revision" catalog ≫= un_int64 = Some security ∧
    field "issued_at" catalog = Some (JStr issuedAt) ∧ smartAccessControlTime issuedAt = Some issued ∧
    field "expires_at" catalog = Some (JStr expiresAt) ∧ smartAccessControlTime expiresAt = Some expires ∧
    wall issued ≤ wall now < wall expires ∧
    field "services" catalog = Some (JArr services) ∧ services !! i = Some (JObj service) ∧
    Forall (exact_object service_fields) services ∧ field "service_id" service = Some (JStr sid) ∧
    (∀ k j, services !! k = Some j → names_service sid j → k = i).

(** An accepted service is the entry of a text that a pinned key signed. *)
Lemma verified_spec ed envelopeJSON keysJSON audience digest revision security sid state now v :
  verifiedRoutingCatalogService ed envelopeJSON keysJSON audience digest revision security sid state now = Some v →
  ∃ text service,
    signed_text ed envelopeJSON keysJSON digest text ∧
    catalog_says text audience revision security sid now (vc_issuedAt v) (vc_expiresAt v) service ∧
    cut_of (vc_service v) service.
Proof.
  unfold verifiedRoutingCatalogService. intros H. destruct (_ || _) eqn:E0 in H; [done|].
  destruct (open_catalog ed envelopeJSON keysJSON digest) as [text|] eqn:Eo; [|done]. cbn [mbind option_bind] in H.
  destruct (rawControlObject catalog_fields text) as [payload|] eqn:Ep; [|done]. cbn [mbind option_bind] in H.
  destruct (_ || _) eqn:E1 in H; [done|].
  destruct (smartAccessControlTime (catalog_text (raw_get "issued_at" payload))) as [issued|] eqn:Ei; [|done]. cbn [mbind option_bind] in H.
  destruct (smartAccessControlTime (catalog_text (raw_get "expires_at" payload))) as [expires|] eqn:Ex; [|done]. cbn [mbind option_bind] in H.
  destruct (_ || _) eqn:E2 in H; [done|]. destruct (localDpiCatalogArray _ 1 128); [|done]. destruct (localDpiCatalogArray _ 0 512); [|done].
  cbn [mbind option_bind] in H. destruct (localDpiCatalogArray _ 1 256) as [services|] eqn:Es; [|done]. cbn [mbind option_bind] in H.
  destruct (select_service sid [] None services) as [[o|]|] eqn:Eo'; [|done..]. injection H as <-. cbn [vc_issuedAt vc_expiresAt vc_service].
  apply rawControl_spec in Ep as (catalog & Hp & Hcat & [Hn Hf] & _). apply catalog_array in Es as (js & Hjs & HF & _).
  destruct (select_service_spec sid services js [] o) as (i & ms & Hi & Hc & Hcut & Hid & Hu & HE); [apply not_elem_of_nil|done..|].
  pose proof (control_mono _ _ Ei) as Mi. pose proof (control_mono _ _ Ex) as Mx. rewrite !before_wall in E2 by done. bsplit.
  exists text, ms. split; [by eapply open_catalog_spec|]. split; [|done].
  exists catalog, js, i, issued, expires. rewrite <- !Hf. split_and!; try done; try lia.
  - by apply catalog_text_spec.
  - apply catalog_text_spec; [done|]. intros ->. by destruct (one_of _ "") eqn:E in *.
  - apply catalog_text_spec; [done|]. intros Hx. by rewrite Hx in Ei.
  - apply catalog_text_spec; [done|]. intros Hx. by rewrite Hx in Ex.
Qed.

(** ** The local-DPI projection *)

Lemma contains_loop_spec w seen found values : contains_loop w seen found values = true →
  found = true ∨ ∃ raw, raw ∈ values ∧ parse raw = Some (JStr w).
Proof.
  revert seen found. induction values as [|raw values IH]; intros seen found H; [by left|]. cbn [contains_loop] in H.
  destruct (localDpiCatalogString raw) as [value valid] eqn:Es. destruct (_ || _) eqn:E in H; [done|]. bsplit. subst valid.
  apply IH in H as [H|(r & Hr & Hp)].
  - apply orb_true_iff in H as [->|H%bool_decide_eq_true]; [by left|]. subst value. right. exists raw. split; [left|by apply catalog_string].
  - right. exists r. split; [by right|done].
Qed.

Definition lists (w : string) (j : option json) : Prop := ∃ l, j = Some (JArr l) ∧ JStr w ∈ l.

Lemma reads_elem raw l js j : Forall2 reads_as l js → raw ∈ l → parse raw = Some j → j ∈ js.
Proof.
  induction 1 as [|r x l js Hx _ IH]; intros Hin Hp; [by apply not_elem_of_nil in Hin|].
  apply elem_of_cons in Hin as [->|Hin]; [|right; by apply IH]. unfold reads_as in Hx. rewrite Hp in Hx. injection Hx as ->. left.
Qed.

Lemma contains_spec raw w : localDpiCatalogContains raw w = true → lists w (parse raw).
Proof.
  unfold localDpiCatalogContains. destruct (localDpiCatalogArray raw 1 5) as [l|] eqn:E; [|done].
  apply catalog_array in E as (js & Hp & HF & _). intros [?|(r & Hr & Hs)]%contains_loop_spec; [done|].
  exists js. split; [done|]. by eapply reads_elem.
Qed.

Lemma route_intent_spec extras raw o : route_intent extras raw = Some o → ∃ ms, parse raw = Some (JObj ms) ∧ cut_of o ms.
Proof.
  induction extras as [|e extras IH]; [done|]. cbn [route_intent]. destruct (rawControlObject _ raw) as [o'|] eqn:E; [|done].
  intros [= <-]. apply rawControl_spec in E as (ms & ? & _ & ? & _). eauto.
Qed.

Definition dpi_mode (sid mode : string) : Prop :=
  mode = "selective" ∨ (mode = "smart_safe" ∧ sid ∈ ["youtube"; "discord"; "instagram"; "threads"]).

Lemma check_intent_spec sid host req mode action o here : check_intent sid host req mode action o = Some here →
  (mode = req → action = "vpn") ∧
  (here = true → mode = req ∧ dpi_mode sid mode ∧ catalog_text (raw_get "local_dpi_control_host" o) = host ∧ localDpiCatalogHost host = true).
Proof.
  unfold check_intent. intros H. destruct (is_present "telegram_ws_datacenters" o && _); [done|].
  match type of H with (?x ≫= _) = _ => destruct x as [h|] eqn:Eh; [|done] end. cbn [mbind option_bind] in H.
  destruct (_ && _) eqn:Ea in H; [done|]. injection H as <-.
  split; [intros ->; rewrite bool_decide_eq_true_2 in Ea by done; cbn in Ea; by bsplit|].
  intros ->. destruct (is_present _ o); [|done]. destruct (_ || _) eqn:E in Eh; [done|]. bsplit.
  destruct (bool_decide (mode = req)) eqn:Em; [|done]. destruct (bool_decide (_ = host)) eqn:Ehost; [|done]. bsplit.
  split_and!; try done; [|congruence].
  match goal with H : _ || _ = true |- _ => apply orb_true_iff in H as [H|H] end; bsplit; [by left|]. right.
  match goal with H : one_of _ _ = true |- _ => apply bool_decide_eq_true in H end. done.
Qed.

(** The intent for the control host, and no other of its mode. *)
Definition has_mode (mode : string) (j : json) : Prop := ∃ ms, j = JObj ms ∧ field "mode" ms = Some (JStr mode).
Definition vpn_intent (sid host mode : string) (intents : list json) : Prop :=
  ∃ i ms, intents !! i = Some (JObj ms) ∧ field "mode" ms = Some (JStr mode) ∧ field "action" ms = Some (JStr "vpn") ∧
    field "local_dpi_control_host" ms = Some (JStr host) ∧ dpi_mode sid mode ∧
    ∀ k j, intents !! k = Some j → has_mode mode j → k = i.

Lemma intent_seen sid host req l js : Forall2 reads_as l js → ∀ seen vpn r, req ∈ seen →
  intent_loop sid host req seen vpn l = Some r → r = vpn ∧ Forall (λ j, ¬ has_mode req j) js.
Proof.
  induction 1 as [|raw j l js Hj _ IH]; intros seen vpn r Hin H.
  - injection H as <-. by split.
  - cbn [intent_loop] in H. destruct (catalogNativeRouteIntent raw) as [o|] eqn:Eo; [|done]. cbn [mbind option_bind] in H.
    destruct (_ || _) eqn:E in H; [done|]. bsplit. destruct (check_intent _ _ _ _ _ o) as [here|] eqn:Ec; [|done]. cbn [mbind option_bind] in H.
    apply check_intent_spec in Ec as [_ Hh]. apply route_intent_spec in Eo as (ms & Hp & Hn & Hf).
    unfold reads_as in Hj. rewrite Hp in Hj. injection Hj as <-.
    assert (catalog_text (raw_get "mode" o) ≠ req) as Hne by (intros <-; done).
    destruct here; [by destruct Hh|]. rewrite orb_false_r in H. apply IH in H as [-> HF]; [|by right]. split; [done|].
    constructor; [|done]. intros (ms' & [= <-] & Hm). rewrite <- Hf in Hm. apply Hne. unfold localDpiCatalogString. by rewrite Hm.
Qed.

Lemma intent_spec sid host req l js : host ≠ "" → Forall2 reads_as l js → ∀ seen, req ∉ seen →
  intent_loop sid host req seen false l = Some true → vpn_intent sid host req js.
Proof.
  intros Hhost. induction 1 as [|raw j l js Hj HF IH]; intros seen Hin H; [done|].
  cbn [intent_loop] in H. destruct (catalogNativeRouteIntent raw) as [o|] eqn:Eo; [|done]. cbn [mbind option_bind] in H.
  destruct (_ || _) eqn:E in H; [done|]. bsplit. destruct (check_intent _ _ _ _ _ o) as [here|] eqn:Ec; [|done]. cbn [mbind option_bind] in H.
  apply check_intent_spec in Ec as [Ha Hh]. apply route_intent_spec in Eo as (ms & Hp & Hn & Hf).
  unfold reads_as in Hj. rewrite Hp in Hj. injection Hj as <-.
  destruct (decide (catalog_text (raw_get "mode" o) = req)) as [Hm|Hm].
  - apply (intent_seen _ _ _ _ js) in H as [Hr HN]; [|done|rewrite Hm; left].
    destruct (Hh (eq_sym Hr)) as (_ & Hd & Hc & _). rewrite Hm in *.
    exists 0%nat, ms. rewrite <- !Hf. split_and!; try done; try (apply catalog_text_spec; [by auto|congruence || done]).
    intros [|k] x Hk Hx; [done|]. cbn in Hk. rewrite Forall_lookup in HN. by destruct (HN k x Hk).
  - destruct here; [by destruct Hh|]. apply IH in H as (i & ms' & Hi & ? & ? & ? & ? & Hu); [|by intros [?|?]%elem_of_cons].
    exists (S i), ms'. split_and!; try done. intros [|k] x Hk Hx; [|f_equal; by eapply Hu].
    cbn in Hk. injection Hk as <-. destruct Hx as (ms'' & [= <-] & Hx). rewrite <- Hf in Hx. destruct Hm.
    unfold localDpiCatalogString. by rewrite Hx.
Qed.

(** A domain of its own, matched exactly. *)
Definition own_domain (host : string) (domains : list json) : Prop :=
  ∃ d, JObj d ∈ domains ∧ field "name" d = Some (JStr host) ∧ field "match" d = Some (JStr "exact") ∧
    field "shared" d = Some (JBool false).

(** A row of the domains. *)
Definition domain_row (j : json) : Prop :=
  ∃ d name match_ shared, j = JObj d ∧ smartAccessControlObject domain_fields (JObj d) = Some d ∧
    field "name" d = Some (JStr name) ∧ field "match" d = Some (JStr match_) ∧ field "shared" d = Some (JBool shared) ∧
    localDpiCatalogHost name = true ∧ match_ ∈ ["exact"; "suffix"].

Lemma domain_rows host l js : Forall2 reads_as l js → ∀ seen found, domain_loop host seen found l = true → Forall domain_row js.
Proof.
  induction 1 as [|raw j l js Hj _ IH]; intros seen found H; [done|]. cbn [domain_loop] in H.
  destruct (rawControlObject domain_fields raw) as [o|] eqn:Eo; [|done]. destruct (_ || _) eqn:E in H; [done|]. bsplit.
  constructor; [|by eapply IH]. apply rawControl_spec in Eo as (d & Hp & Hc & [_ Hf] & _).
  unfold reads_as in Hj. rewrite Hp in Hj. injection Hj as <-.
  match goal with H : one_of _ _ = true |- _ => apply bool_decide_eq_true in H as Hm end.
  match goal with H : _ || _ = true |- _ => apply orb_true_iff in H as Hs end.
  exists d, (catalog_text (raw_get "name" o)), (catalog_text (raw_get "match" o)), (bytes_eqb (raw_get "shared" o) (txt "true")).
  rewrite <- !Hf. split_and!; try done.
  - apply catalog_text_spec; [done|by intros Hx; rewrite Hx in *].
  - apply catalog_text_spec; [done|]. intros Hx. rewrite Hx in Hm. set_solver.
  - destruct Hs as [Hs|Hs]; apply bool_decide_eq_true in Hs as ->; by vm_compute.
Qed.

Lemma domain_loop_spec host seen found l : host ≠ "" → domain_loop host seen found l = true →
  found = true ∨ ∃ raw d, raw ∈ l ∧ parse raw = Some (JObj d) ∧ field "name" d = Some (JStr host) ∧
    field "match" d = Some (JStr "exact") ∧ field "shared" d = Some (JBool false).
Proof.
  intros Hhost. revert seen found. induction l as [|raw l IH]; intros seen found H; [by left|]. cbn [domain_loop] in H.
  destruct (rawControlObject domain_fields raw) as [o|] eqn:Eo; [|done]. destruct (_ || _) eqn:E in H; [done|].
  apply IH in H as [H|(r & d & Hr & Hd)]; [|right; exists r, d; split; [by right|done]].
  apply orb_true_iff in H as [->|H]; [by left|]. right. clear E. bsplit.
  apply rawControl_spec in Eo as (ms & Hp & _ & [_ Hf] & _). exists raw, ms. rewrite <- !Hf. split_and!; [left|done| | |].
  - by apply catalog_text_spec.
  - by apply catalog_text_spec.
  - match goal with H : bytes_eqb _ _ = true |- _ => apply bool_decide_eq_true in H as -> end. by vm_compute.
Qed.

Lemma host_nonempty host : localDpiCatalogHost host = true → host ≠ "".
Proof. by intros H ->. Qed.

(** What an entry of the catalog must say for its service to admit the strategy. *)
Definition admits_host (service : list (string * json)) (sid host state platform mode : string) : Prop :=
  field "enabled" service = Some (JBool true) ∧ field "evidence_status" service = Some (JStr "verified") ∧
  lists platform (field "platforms" service) ∧ lists state (field "access_states" service) ∧
  (∃ intents, field "route_intents" service = Some (JArr intents) ∧ vpn_intent sid host mode intents) ∧
  (∃ domains, field "domains" service = Some (JArr domains) ∧ own_domain host domains ∧ Forall domain_row domains).

Lemma offered_spec o ms state platform : cut_of o ms → service_offered o state platform = true →
  field "enabled" ms = Some (JBool true) ∧ field "evidence_status" ms = Some (JStr "verified") ∧
  lists platform (field "platforms" ms) ∧ lists state (field "access_states" ms).
Proof.
  intros [_ Hf] H. unfold service_offered in H. bsplit. rewrite <- !Hf. split_and!; try (by apply contains_spec).
  - match goal with H : bytes_eqb _ _ = true |- _ => apply bool_decide_eq_true in H as -> end. by vm_compute.
  - by apply catalog_text_spec.
Qed.

Lemma dpi_service_spec o ms sid host state platform mode : cut_of o ms → localDpiCatalogHost host = true →
  localDpiCatalogService o sid host state platform mode = true → admits_host ms sid host state platform mode.
Proof.
  intros Hc Hhost%host_nonempty H. unfold localDpiCatalogService in H. destruct (negb _) eqn:E0; [done|]. bsplit.
  destruct (offered_spec _ _ _ _ Hc E0) as (? & ? & ? & ?). destruct Hc as [_ Hf].
  destruct (localDpiCatalogArray (raw_get "route_intents" o) 0 5) as [intents|] eqn:Ei; [|done].
  destruct (intent_loop _ _ _ _ _ _) as [[]|] eqn:El; [|done..].
  destruct (localDpiCatalogArray (raw_get "domains" o) 0 256) as [domains|] eqn:Ed; [|done].
  apply catalog_array in Ei as (ijs & Hi & HFi & _). apply catalog_array in Ed as (djs & Hd & HFd & _).
  split_and!; try done.
  - exists ijs. rewrite <- Hf. split; [done|]. eapply intent_spec; [done|exact HFi|apply not_elem_of_nil|done].
  - exists djs. rewrite <- Hf. split_and!; [done| |by eapply domain_rows].
    apply domain_loop_spec in H as [?|(raw & d & Hr & Hp & ? & ? & ?)]; [done| |done]. exists d. split_and!; try done.
    by eapply reads_elem.
Qed.

Lemma verified_id ed envelopeJSON keysJSON audience digest revision security sid state now v :
  verifiedRoutingCatalogService ed envelopeJSON keysJSON audience digest revision security sid state now = Some v → sid ≠ "".
Proof. unfold verifiedRoutingCatalogService. destruct (_ || _) eqn:E; [done|]. bsplit. intros _. by apply service_id_nonempty. Qed.

Lemma dpi_host_spec ed envelopeJSON keysJSON audience digest revision security sid host state platform mode now :
  verifyLocalDpiCatalogPlatform ed envelopeJSON keysJSON audience digest revision security sid host state platform mode now = true →
  ∃ text issuedAt expiresAt service,
    signed_text ed envelopeJSON keysJSON digest text ∧
    catalog_says text audience revision security sid now issuedAt expiresAt service ∧
    admits_host service sid host state platform mode ∧ dpi_mode sid mode ∧ sid ≠ "".
Proof.
  unfold verifyLocalDpiCatalogPlatform. destruct (_ || _) eqn:E; [done|]. bsplit.
  destruct (verifiedRoutingCatalogService _ _ _ _ _ _ _ _ _ _) as [v|] eqn:Ev; [|done]. intros Hok.
  pose proof (verified_id _ _ _ _ _ _ _ _ _ _ _ Ev) as Hsid. apply verified_spec in Ev as (text & service & Hs & Hc & Hcut).
  pose proof (dpi_service_spec _ _ _ _ _ _ _ Hcut ltac:(done) Hok) as Ha.
  exists text, (vc_issuedAt v), (vc_expiresAt v), service. split_and!; try done.
  destruct Ha as (_ & _ & _ & _ & (intents & _ & i & ms & _ & _ & _ & _ & Hd & _) & _). done.
Qed.

(** C13: The local-DPI strategy is admitted only for a control host the catalog
    signed for it.  When the native verifier accepts, a pinned key signed a current
    catalog text of the expected revisions in which the service is enabled,
    verified, offered on this platform and in this state of access; its only route
    intent of the requested mode sends it through the VPN and names this control
    host; the host is one of its own domains, matched exactly and not shared.  Only
    the selective mode, and for the four named services the smart mode, is
    accepted. *)
Theorem dpi_host_signed ed envelopeJSON keysJSON audience digest revision security sid host state platform mode now :
  verifyLocalDpiCatalogPlatform ed envelopeJSON keysJSON audience digest revision security sid host state platform mode now = true →
  ∃ text issuedAt expiresAt service,
    signed_text ed envelopeJSON keysJSON digest text ∧
    catalog_says text audience revision security sid now issuedAt expiresAt service ∧
    admits_host service sid host state platform mode ∧ dpi_mode sid mode.
Proof.
  intros (text & i & e & service & ? & ? & ? & ? & _)%dpi_host_spec. by exists text, i, e, service.
Qed.

(** ** An accepted catalog

    With a keyed hash in the place of the signature scheme. *)

Definition ex_service (sid host : string) (intents : json) : json :=
  JObj [("service_id", JStr sid); ("display_name", JStr sid); ("categories", JArr []); ("enabled", JBool true);
        ("classification", JStr "x"); ("reason", JStr "x"); ("evidence_status", JStr "verified"); ("source_ids", JArr []);
        ("evidence_ids", JArr []); ("platforms", JArr [JStr "android"; JStr "windows"]);
        ("access_states", JArr [JStr "paid_unlimited"]); ("route_intents", intents); ("android", JNull); ("windows", JNull);
        ("domains", JArr [JObj [("name", JStr host); ("match", JStr "exact"); ("role", JStr "x"); ("shared", JBool false);
                                ("source_ids", JArr [])]]);
        ("networks", JArr []); ("provider_capability_refs", JArr []); ("external_gateway_policy", JNull)].

Definition ex_catalog (services : list json) : bytes :=
  txt "{ " ++ drop 1 (print (JObj
    [("schema_version", JStr "pokrov-routing-catalog-v1"); ("revision", JNum "7"); ("security_revision", JNum "3");
     ("audience", JStr "lab"); ("issued_at", JStr "2026-01-01T00:00:00Z"); ("expires_at", JStr "2026-01-02T00:00:00Z");
     ("sources", JArr [JStr "s"]); ("evidence", JArr []); ("services", JArr services)])).

(** The payload is put into the envelope as it is, with its inner spacing. *)
Definition ex_envelope (payload : bytes) : bytes :=
  let signature := ex_sign ex_key (list_of_str "pokrov-routing-catalog-v1" ++ byte_of 10 :: payload) in
  let head := print (JObj [("algorithm", JStr "Ed25519"); ("key_id", JStr "k1");
                           ("payload_sha256", JStr (str_of_list (hex_encode (sha256 payload))));
                           ("signature_b64", JStr (str_of_list (b64_encode signature)))]) in
  take (length head - 1) head ++ txt "," ++ print_string "payload" ++ txt ": " ++ payload ++ txt "}".

Definition ex_digest (payload : bytes) : string := str_of_list (hex_encode (sha256 payload)).
Definition ex_keys : bytes := print (JObj [("k1", JStr (str_of_list (b64_encode ex_key ++ txt "=")))]).

Definition ex_dpi_catalog : bytes := Eval vm_compute in
  ex_catalog [ex_service "youtube" "www.youtube.com"
    (JArr [JObj [("mode", JStr "selective"); ("action", JStr "vpn"); ("local_dpi_control_host", JStr "www.youtube.com")]])].

Lemma dpi_host_signed_witness :
  verifyLocalDpiCatalogPlatform ex_verify (ex_envelope ex_dpi_catalog) ex_keys "lab" (ex_digest ex_dpi_catalog) 7 3 "youtube"
    "www.youtube.com" "paid_unlimited" "android" "selective" (ex_time 600) = true ∧
  ∃ text, signed_text ex_verify (ex_envelope ex_dpi_catalog) ex_keys (ex_digest ex_dpi_catalog) text.
Proof.
  assert (H : verifyLocalDpiCatalogPlatform ex_verify (ex_envelope ex_dpi_catalog) ex_keys "lab" (ex_digest ex_dpi_catalog) 7 3 "youtube"
    "www.youtube.com" "paid_unlimited" "android" "selective" (ex_time 600) = true) by (vm_compute; reflexivity).
  split; [exact H|].
  destruct (dpi_host_signed ex_verify (ex_envelope ex_dpi_catalog) ex_keys "lab" (ex_digest ex_dpi_catalog) 7 3 "youtube"
    "www.youtube.com" "paid_unlimited" "android" "selective" (ex_time 600) H) as (text & _ & _ & _ & Ht & _).
  exists text. exact Ht.
Defined.
