(* ===== verification/TelegramPrepare.v ===== *)
(** * Preparing a profile with the Telegram strategy

    [daemon/telegram_ws_catalog.go]: from a profile and the catalog it names, the
    Telegram outbounds of the services the catalog offers them for, and the rules
    that send exactly their datacenters to them.  The profile's own sections stay
    texts ([json.RawMessage]); printing the finished profile is left out. *)

From stdpp Require Import base list strings gmap sorting.
From Stdlib Require Import ZArith Lia Ascii.
From S2P Require Import Prelude GoTime GoBytes GoJson GoRawJson GoNetip CatalogWindow TelegramWs FallbackGraph ControlWire ControlVerify CatalogVerify.

Local Open Scope Z_scope.
Set Default Goal Selector "!".

Abbreviation errTelegramScope := FallbackGraph.errScope.

Record telegramMetadata := mkMetadata {
  SchemaVersion : Z; Mode : string; m_Platform : string; Envelope : string; Digest : string; Revision : Z;
  SecurityRevision : Z; AccessState : string; Services : gmap string string }.

(** [json.Unmarshal] into the struct. *)
Definition unmarshal_metadata (raw : bytes) : option telegramMetadata :=
  ms ← parse raw ≫= struct_members;
  a1 ← struct_field assign_int64 "schema_version" 0 ms;
  a2 ← struct_field assign_string "mode" "" ms;
  a3 ← struct_field assign_string "platform" "" ms;
  a4 ← struct_field assign_string "catalog_envelope" "" ms;
  a5 ← struct_field assign_string "catalog_sha256" "" ms;
  a6 ← struct_field assign_int64 "revision" 0 ms;
  a7 ← struct_field assign_int64 "security_revision" 0 ms;
  a8 ← struct_field assign_string "access_state" "" ms;
  a9 ← struct_field assign_string_map "services" ∅ ms;
  Some (mkMetadata a1 a2 a3 a4 a5 a6 a7 a8 a9).

Definition metadata_fields : list string :=
  ["schema_version"; "mode"; "platform"; "catalog_envelope"; "catalog_sha256"; "revision"; "security_revision"; "access_state";
   "services"].

(** ** Datacenters of a service *)

(** The loop over the intents: [None] when the service is refused. *)
Fixpoint telegram_intents (seen : list string) (result : option (list dc_options)) (intents : list bytes)
    : option (option (list dc_options)) :=
  match intents with
  | [] => Some result
  | raw :: intents =>
      intent ← catalogNativeRouteIntent raw;
      let mode := catalog_text (raw_get "mode" intent) in
      let action := catalog_text (raw_get "action" intent) in
      if bool_decide (mode = "") || bool_decide (mode ∈ seen) then None
      else if is_present "telegram_ws_datacenters" intent then
        if negb (bool_decide (mode = "selective")) || negb (bool_decide (action = "vpn")) then None
        else
          dcs ← telegramCatalogDatacenters (raw_get "telegram_ws_datacenters" intent);
          telegram_intents (mode :: seen) (Some dcs) intents
      else telegram_intents (mode :: seen) result intents
  end.

Definition telegramServiceDatacenters (service : raw_fields) (accessState platform : string) : option (list dc_options) :=
  if negb (service_offered service accessState platform) then None
  else
    intents ← localDpiCatalogArray (raw_get "route_intents" service) 1 5;
    result ← telegram_intents [] None intents;
    result.

(** ** The rule of a service *)

Abbreviation raw_row := (gmap string bytes).
Definition row_get (k : string) (m : raw_row) : bytes := default [] (m !! k).
Definition has_key {A} (k : string) (m : gmap string A) : bool := bool_decide (is_Some (m !! k)).

(** [json.Unmarshal(raw, &names)] for a [[]string]. *)
Definition raw_strings (raw : bytes) : option (list string) :=
  match parse raw with Some (JArr l) => mapM un_string l | Some JNull => Some [] | _ => None end.

(** The rule names exactly this domain and nothing by the other kind of name. *)
Definition rule_names (rule : raw_row) (domain : raw_fields) : bool :=
  let name := catalog_text (raw_get "name" domain) in
  let match_ := catalog_text (raw_get "match" domain) in
  let names key other :=
    negb (has_key other rule) && bool_decide (raw_strings (row_get key rule) = Some [name]) in
  localDpiCatalogHost name && bytes_eqb (raw_get "shared" domain) (txt "false") &&
  (if bool_decide (match_ = "suffix") then names "domain_suffix" "domain"
   else bool_decide (match_ = "exact") && names "domain" "domain_suffix").

(** The catalog rule of the service: its window, the VPN, no lease and no
    selector but domains. *)
Definition service_rule (verified : verifiedCatalogService) (serviceID vpnTag : string) (rule : raw_row) : bool :=
  match raw_map (row_get "pokrov_catalog_window" rule) with
  | None => false
  | Some window =>
      bool_decide (catalog_text (row_get "service_id" window) = serviceID) &&
      bool_decide (catalog_text (row_get "issued_at" window) = vc_issuedAt verified) &&
      bool_decide (catalog_text (row_get "expires_at" window) = vc_expiresAt verified) &&
      bool_decide (catalog_text (row_get "outbound" rule) = vpnTag) &&
      bool_decide (catalog_text (row_get "action" rule) = "route") &&
      negb (has_key "lease_id" window) && negb (has_key "lease_group" window) && negb (has_key "domain_regex" rule) &&
      negb (has_key "domain_keyword" rule) && negb (has_key "ip_cidr" rule) && negb (has_key "ip_is_private" rule) &&
      negb (has_key "rule_set" rule)
  end.

Definition telegramHasServiceVPNRule (rules : list raw_row) (verified : verifiedCatalogService) (serviceID vpnTag : string) : bool :=
  match localDpiCatalogArray (raw_get "domains" (vc_service verified)) 0 256 with
  | None => false
  | Some domains =>
      existsb (λ rule, service_rule verified serviceID vpnTag rule &&
                 existsb (λ raw, match rawControlObject domain_fields raw with
                                 | Some domain => rule_names rule domain
                                 | None => false
                                 end) domains) rules
  end.

(** ** The profile *)

(** An outbound of the profile, or one that was added. *)
Inductive out_row := OldOutbound (m : raw_row) | TelegramOutbound (tag : string) (o : tg_options).
(** A rule of the profile, or [{"action": "route", "network": "tcp", "port": 443,
    "ip_cidr": ips, "outbound": tag}]. *)
Inductive out_rule := OldRule (m : raw_row) | TelegramRule (ips : list bytes) (tag : string).

Definition out_tag (r : out_row) : string :=
  match r with OldOutbound m => catalog_text (row_get "tag" m) | TelegramOutbound tag _ => tag end.

Record prep := mkPrep {
  registry : preparations; added : list (string * tg_options); telegramRules : list (list bytes * string);
  usedAddresses : list bytes; prepared : list (string * string); pr_IssuedAt : string; pr_ExpiresAt : string }.

#[export] Instance eta_prep : Eta prep := λ p,
  mkPrep (registry p) (added p) (telegramRules p) (usedAddresses p) (prepared p) (pr_IssuedAt p) (pr_ExpiresAt p).

Definition exact_ip (address : bytes) : bytes := address ++ txt (if bool_decide (":"%char ∈ address) then "/128" else "/32").

Definition telegram_tag (serviceID : string) : string := "pokrov-telegram-ws-" +:+ serviceID.

(** The addresses of the datacenters, each used once in the profile. *)
Fixpoint use_addresses (used : list bytes) (addresses : list bytes) : option (list bytes) :=
  match addresses with
  | [] => Some used
  | a :: l => if bool_decide (a ∈ used) then None else use_addresses (a :: used) l
  end.
Definition dc_addresses (datacenters : list dc_options) : list bytes := concat (dc_Addresses <$> datacenters).

(** What [PrepareTelegramWSProfile] returns, before it is printed. *)
Record telegramPreparation := mkPreparation {
  tp_outbounds : list out_row; tp_rules : list out_rule; tp_IssuedAt : string; tp_ExpiresAt : string;
  tp_Services : list (string * string) }.

(** [json.Unmarshal] into a slice of maps. *)
Definition raw_maps (raw : bytes) : option (list raw_row) :=
  match raw_array raw with
  | Some l => mapM raw_map l
  | None => match parse raw with Some JNull => Some [] | _ => None end
  end.

Fixpoint first_window (i : nat) (rules : list raw_row) : nat :=
  match rules with
  | [] => 0%nat
  | rule :: rules => if has_key "pokrov_catalog_window" rule then i else first_window (S i) rules
  end.

Definition string_le (a b : string) : Prop := String.leb a b = true.
#[export] Instance string_le_dec a b : Decision (string_le a b) := decide (String.leb a b = true).

Section Prepare.
Variable ed25519_Verify : bytes → bytes → bytes → bool.
(** The engine's reading of the profile without [_meta], as the definitions that
    [FallbackDefinitions] walks over; and that walk with its own parameters. *)
Variable parseConfig : gmap string bytes → option (list (string * definition)).
Variable fallbackDefinitions : list (string * definition) → string → result string (gmap string string).

(** The body of the loop over the services.  The first clock reading is that of
    the verification, the second that of the registration. *)
Definition prepare_service (metadata : telegramMetadata) (keysJSON : bytes) (audience bindInterface platform : string)
    (rules outbounds : list raw_row) (parsed : list (string * definition)) (serviceID : string)
    (env : time * time * option string) (p : prep) : bool * prep :=
  let '(now1, now2, nonce) := env in
  match verifiedRoutingCatalogService ed25519_Verify (list_of_str (Envelope metadata)) keysJSON audience (Digest metadata)
          (Revision metadata) (SecurityRevision metadata) serviceID (AccessState metadata) now1 with
  | None => (false, p)
  | Some verified =>
      match telegramServiceDatacenters (vc_service verified) (AccessState metadata) platform with
      | None => (false, p)
      | Some datacenters =>
          let vpnTag := default "" (Services metadata !! serviceID) in
          match fallbackDefinitions parsed vpnTag with
          | Err _ => (false, p)
          | Ok fallback =>
              let tag := telegram_tag serviceID in
              if negb (telegramHasServiceVPNRule rules verified serviceID vpnTag) ||
                 bool_decide (tag ∈ (out_tag ∘ OldOutbound <$> outbounds) ++ (added p).*1) then (false, p)
              else
                let options := mkTgOptions bindInterface "" vpnTag datacenters serviceID (vc_issuedAt verified)
                                 (vc_expiresAt verified) "" in
                match RegisterPreparation options fallback now2 nonce (registry p) with
                | (Err _, ps) => (false, p <| registry := ps |>)
                | (Ok id, ps) =>
                    match use_addresses (usedAddresses p) (dc_addresses datacenters) with
                    | None => (false, p <| registry := ps |>)
                    | Some used =>
                        (true, mkPrep ps (added p ++ [(tag, options <| o_NativePreparationID := id |>)])
                                 (telegramRules p ++ [(merge_sort bytes_le (exact_ip <$> dc_addresses datacenters), tag)]) used
                                 (prepared p ++ [(serviceID, tag)]) (vc_issuedAt verified) (vc_expiresAt verified))
                    end
                end
          end
      end
  end.

Fixpoint prepare_services metadata keysJSON audience bindInterface platform rules outbounds parsed (ids : list string)
    (env : nat → time * time * option string) (i : nat) (p : prep) : bool * prep :=
  match ids with
  | [] => (true, p)
  | serviceID :: ids =>
      let '(ok, p) := prepare_service metadata keysJSON audience bindInterface platform rules outbounds parsed serviceID (env i) p in
      if ok then prepare_services metadata keysJSON audience bindInterface platform rules outbounds parsed ids env (S i) p
      else (false, p)
  end.

(** The same catalog as the local-DPI section names, when there is one. *)
Definition same_catalog (hostMeta : raw_row) (metadata : telegramMetadata) : bool :=
  match hostMeta !! "local_dpi" with
  | None => true
  | Some raw =>
      match unmarshal_metadata raw with
      | None => false
      | Some other =>
          bool_decide (Envelope other = Envelope metadata) && bool_decide (Digest other = Digest metadata) &&
          (Revision other =? Revision metadata) && (SecurityRevision other =? SecurityRevision metadata) &&
          bool_decide (AccessState other = AccessState metadata)
      end
  end.

(** The metadata of a profile, exact in its members and in its services. *)
Definition read_metadata (hostMeta : raw_row) (platform : string) : option telegramMetadata :=
  let raw := row_get "telegram_ws" hostMeta in
  _ ← rawControlObject metadata_fields raw;
  metadata ← unmarshal_metadata raw;
  if negb (SchemaVersion metadata =? 1) || negb (bool_decide (Mode metadata = "selective")) ||
     negb (bool_decide (m_Platform metadata = platform)) || (size (Services metadata) =? 0)%nat ||
     (256 <? size (Services metadata))%nat then None
  else
    strictMeta ← raw_map raw;
    _ ← rawControlObject (map_to_list (Services metadata)).*1 (row_get "services" strictMeta);
    if same_catalog hostMeta metadata then Some metadata else None.

Definition PrepareTelegramWSProfile (configJSON keysJSON : bytes) (audience bindInterface platform : string)
    (env : nat → time * time * option string) (ps : preparations) : result string telegramPreparation * preparations :=
  let opened :=
    (if negb (one_of ["windows"; "android"] platform) || bool_decide (bindInterface = "") ||
       bool_decide (byte_of 0 ∈ list_of_str bindInterface) then None
    else
      config ← raw_map configJSON;
      hostMeta ← raw_map (row_get "_meta" config);
      metadata ← read_metadata hostMeta platform;
      outbounds ← raw_maps (row_get "outbounds" config);
      route ← raw_map (row_get "route" config);
      rules ← raw_maps (row_get "rules" route);
      if existsb (λ row, bool_decide (catalog_text (row_get "type" row) = "pokrov-telegram-ws") ||
                         has_key "native_preparation_id" row) outbounds then None
      else
        parsed ← parseConfig (delete "_meta" config);
        Some (metadata, outbounds, rules, parsed)) in
  match opened with
  | None => (Err errTelegramScope, ps)
  | Some (metadata, outbounds, rules, parsed) =>
      let ids := merge_sort string_le (map_to_list (Services metadata)).*1 in
      let '(ok, p) := prepare_services metadata keysJSON audience bindInterface platform rules outbounds parsed ids env 0
                        (mkPrep ps [] [] [] [] "" "") in
      if negb ok then (Err errTelegramScope, registry p)
      else
        let i := first_window 0 rules in
        (Ok (mkPreparation ((OldOutbound <$> outbounds) ++ ((λ r, TelegramOutbound r.1 r.2) <$> added p))
               ((OldRule <$> take i rules) ++ ((λ r, TelegramRule r.1 r.2) <$> telegramRules p) ++ (OldRule <$> drop i rules))
               (pr_IssuedAt p) (pr_ExpiresAt p) (prepared p)), registry p)
  end.
End Prepare.

(** ** The datacenters of a signed table *)

Definition text_json (b : bytes) : json := JStr (str_of_list b).

(** A datacenter as an outbound accepts it. *)
Definition dc_ok (dc : dc_options) : Prop :=
  1 ≤ dc_ID dc ≤ 5 ∧ PublicDatacenterAddress (dc_WebsocketAddress dc) = true ∧
  (1 ≤ length (dc_Addresses dc) ≤ 16)%nat ∧ Forall (λ a, PublicDatacenterAddress a = true) (dc_Addresses dc).

(** The row of the table that says [dc]. *)
Definition dc_of (j : json) (dc : dc_options) : Prop :=
  ∃ ms as_, j = JObj ms ∧ field "id" ms ≫= un_int64 = Some (dc_ID dc) ∧
    field "websocket_address" ms = Some (text_json (dc_WebsocketAddress dc)) ∧
    field "addresses" ms = Some (JArr (text_json <$> as_)) ∧ Permutation as_ (dc_Addresses dc).

(** Identifiers are distinct, and so are all addresses. *)
Definition dcs_ok (l : list dc_options) : Prop := Forall dc_ok l ∧ NoDup (dc_ID <$> l) ∧ NoDup (dc_addresses l).

Lemma list_str_inj (a b : bytes) : str_of_list a = str_of_list b → a = b.
Proof. intros H. by rewrite <- (list_str a), H, list_str. Qed.

Lemma address_loop_spec raws js : Forall2 reads_as raws js → ∀ seen acc seen' acc', address_loop seen acc raws = Some (seen', acc') →
  ∃ new, acc' = acc ++ new ∧ js = text_json <$> new ∧ Forall (λ a, PublicDatacenterAddress a = true) new ∧ NoDup new ∧
    (∀ a, a ∈ new → str_of_list a ∉ seen) ∧ (∀ x, x ∈ seen' ↔ x ∈ seen ∨ x ∈ str_of_list <$> new).
Proof.
  induction 1 as [|raw j raws js Hj _ IH]; intros seen acc seen' acc' H; cbn [address_loop] in H.
  - injection H as <- <-. exists []. rewrite app_nil_r. split_and!; try done; [constructor|set_solver|set_solver].
  - destruct (localDpiCatalogString raw) as [address valid] eqn:Es. destruct (_ || _) eqn:E in H; [done|]. bsplit. subst valid.
    apply IH in H as (new & -> & -> & Hp & Hn & Hd & Hs). apply catalog_string in Es. unfold reads_as in Hj. rewrite Es in Hj. injection Hj as <-.
    exists (list_of_str address :: new). rewrite <- app_assoc. split_and!; try done.
    + cbn. unfold text_json at 2. by rewrite str_list.
    + by constructor.
    + apply NoDup_cons. split; [|done]. intros Hin%Hd. rewrite str_list in Hin. set_solver.
    + intros a [->|Ha]%elem_of_cons; [by rewrite str_list|]. apply Hd in Ha. set_solver.
    + intros x. rewrite Hs. cbn. rewrite str_list. set_solver.
Qed.

(** One row. *)
Lemma row_spec raw j row id websocket addresses seen seen' l : reads_as raw j →
  rawControlObject ["id"; "addresses"; "websocket_address"] raw = Some row → raw_int64 (raw_get "id" row) = Some id →
  1 ≤ id ≤ 5 → localDpiCatalogString (raw_get "websocket_address" row) = (websocket, true) →
  PublicDatacenterAddress (list_of_str websocket) = true → localDpiCatalogArray (raw_get "addresses" row) 1 16 = Some addresses →
  address_loop seen [] addresses = Some (seen', l) →
  let dc := mkDcOptions id (merge_sort bytes_le l) (list_of_str websocket) in
  dc_of j dc ∧ dc_ok dc ∧ NoDup (dc_Addresses dc) ∧ (∀ a, a ∈ dc_Addresses dc → str_of_list a ∉ seen) ∧
  (∀ x, x ∈ seen' ↔ x ∈ seen ∨ x ∈ str_of_list <$> dc_Addresses dc).
Proof.
  intros Hj (ms & Hp & _ & [_ Hf] & _)%rawControl_spec (ij & Hid & Hint)%raw_int64_spec Hr Hw Hpub
    (ajs & Hajs & HF & Hlen)%catalog_array Ha dc.
  destruct (address_loop_spec _ _ HF _ _ _ _ Ha) as (new & -> & -> & Hnew & Hn & Hd & Hs). cbn [app] in *.
  pose proof (merge_sort_Permutation bytes_le new) as HP. unfold reads_as in Hj. rewrite Hp in Hj. injection Hj as <-.
  apply Forall2_length in HF. rewrite length_fmap in HF.
  split_and!; cbn [dc dc_Addresses].
  - exists ms, new. rewrite <- !Hf, Hid. split_and!; try done. apply catalog_string in Hw. rewrite Hw. unfold text_json. cbn. by rewrite str_list.
  - split_and!; cbn; try done; try lia.
    + rewrite HP. lia.
    + rewrite HP. lia.
    + by rewrite HP.
  - by rewrite HP.
  - intros a. rewrite HP. apply Hd.
  - intros x. by rewrite HP.
Qed.

Lemma dc_addresses_cons dc l : dc_addresses (dc :: l) = dc_Addresses dc ++ dc_addresses l.
Proof. done. Qed.

Lemma row_loop_spec rows js : Forall2 reads_as rows js → ∀ ids seen acc res, row_loop ids seen acc rows = Some res →
  ∃ new, res = acc ++ new ∧ Forall2 dc_of js new ∧ dcs_ok new ∧ (∀ dc, dc ∈ new → dc_ID dc ∉ ids) ∧
    (∀ a, a ∈ dc_addresses new → str_of_list a ∉ seen).
Proof.
  induction 1 as [|raw j rows js Hj _ IH]; intros ids seen acc res H; cbn [row_loop] in H.
  - injection H as <-. exists []. rewrite app_nil_r. split_and!; try done; [split_and!; constructor|set_solver|set_solver].
  - destruct (rawControlObject _ raw) as [row|] eqn:Er; [|done]. cbn [mbind option_bind] in H.
    destruct (raw_int64 (raw_get "id" row)) as [id|] eqn:Ei; [|done]. cbn [mbind option_bind] in H.
    destruct (_ || _) eqn:E1 in H; [done|]. destruct (localDpiCatalogString (raw_get "websocket_address" row)) as [ws valid] eqn:Ew.
    destruct (_ || _) eqn:E2 in H; [done|]. bsplit. subst valid.
    destruct (localDpiCatalogArray _ 1 16) as [addresses|] eqn:Ea; [|done]. cbn [mbind option_bind] in H.
    destruct (address_loop seen [] addresses) as [[seen' l]|] eqn:El; [|done]. cbn [mbind option_bind fst snd] in H.
    destruct (row_spec raw j row id ws addresses seen seen' l) as (Hof & Hdc & Hnd & Hfresh & Hseen); try done; [lia|].
    set (dc := mkDcOptions id _ _) in *. apply IH in H as (new & -> & HF & (Hok & Hids & Has) & Hi & Hs).
    exists (dc :: new). rewrite <- app_assoc. split_and!; try done.
    + by constructor.
    + split_and!; [by constructor| |].
      * cbn. apply NoDup_cons. split; [|done]. intros (x & Hx & Hin)%list_elem_of_fmap. apply Hi in Hin. cbn in Hx. set_solver.
      * rewrite dc_addresses_cons. apply NoDup_app. split_and!; [done| |done]. intros a Ha Hin%Hs. rewrite Hseen in Hin.
        apply Hin. right. by apply list_elem_of_fmap_2.
    + intros x [->|Hx]%elem_of_cons; [done|]. apply Hi in Hx. set_solver.
    + intros a. rewrite dc_addresses_cons. intros [Ha|Ha]%elem_of_app; [by apply Hfresh|]. apply Hs in Ha. rewrite Hseen in Ha. tauto.
Qed.

(** The table [j] lists exactly the datacenters [dcs]. *)
Definition table_of (j : option json) (dcs : list dc_options) : Prop :=
  ∃ rows dcs', j = Some (JArr rows) ∧ Forall2 dc_of rows dcs' ∧ Permutation dcs' dcs ∧ (1 ≤ length dcs ≤ 5)%nat.

Lemma dcs_ok_perm l l' : Permutation l l' → dcs_ok l → dcs_ok l'.
Proof.
  intros HP (H1 & H2 & H3). split_and!; [by rewrite <- HP|by rewrite <- HP|]. unfold dc_addresses in *.
  rewrite <- HP. done.
Qed.

Lemma datacenters_spec raw dcs : telegramCatalogDatacenters raw = Some dcs →
  table_of (parse raw) dcs ∧ dcs_ok dcs ∧ Sorted id_le dcs.
Proof.
  unfold telegramCatalogDatacenters. destruct (localDpiCatalogArray raw 1 5) as [rows|] eqn:Er; [|done]. cbn [mbind option_bind].
  destruct (row_loop [] [] [] rows) as [res|] eqn:El; [|done]. cbn [mbind option_bind]. intros [= <-].
  apply catalog_array in Er as (js & Hp & HF & Hlen). apply (row_loop_spec _ js) in El as (new & -> & Hdc & Hok & _); [|done].
  cbn [app]. pose proof (merge_sort_Permutation id_le new) as HP.
  apply Forall2_length in HF. pose proof (Forall2_length _ _ _ Hdc).
  split_and!.
  - exists js, new. split_and!; [done|done|done|rewrite HP; lia|rewrite HP; lia].
  - by eapply dcs_ok_perm.
  - apply Sorted_merge_sort. intros a b. unfold id_le. lia.
Qed.

(** *** The outbound accepts them *)

Lemma public_text_spec v : PublicDatacenterAddress v = true → ∃ a, public_text v = Some a ∧ addr_string a = v.
Proof.
  unfold PublicDatacenterAddress. intros [a Ha]%bool_decide_eq_true. exists a. split; [done|]. unfold public_text in Ha.
  destruct (ParseAddr v) as [x|]; [|done]. destruct (_ && _) eqn:E; [|done]. injection Ha as <-. by bsplit.
Qed.

(** The texts of the addresses taken so far. *)
Definition taken (acc : list (addr * nat)) : list bytes := addr_string <$> acc.*1.

Lemma parse_addresses_accepts dc l : ∀ acc, Forall (λ a, PublicDatacenterAddress a = true) l → NoDup l →
  (∀ a, a ∈ l → a ∉ taken acc) → ∃ acc', parse_addresses dc l acc = Some acc' ∧ taken acc' = taken acc ++ l.
Proof.
  induction l as [|v l IH]; intros acc Hp Hn Hd; cbn [parse_addresses].
  - exists acc. by rewrite app_nil_r.
  - apply Forall_cons in Hp as [Hv Hp]. apply NoDup_cons in Hn as [Hvl Hn].
    destruct (public_text_spec v Hv) as (a & -> & Ha). cbn [mbind option_bind].
    rewrite bool_decide_eq_false_2. 2:{ intros Hin. apply (Hd v); [left|]. rewrite <- Ha. by apply list_elem_of_fmap_2. }
    assert (Ht : taken (acc ++ [(a, dc)]) = taken acc ++ [v]) by (unfold taken; rewrite !fmap_app; cbn; by rewrite Ha).
    destruct (IH (acc ++ [(a, dc)])) as (acc' & -> & Hacc); [done..| |].
    { intros x Hx. rewrite Ht. intros [Hin|Hin%list_elem_of_singleton]%elem_of_app; [by eapply Hd; [right|]|by subst]. }
    exists acc'. split; [done|]. by rewrite Hacc, Ht, <- app_assoc.
Qed.

Lemma parse_datacenters_accepts l : ∀ i seen acc, dcs_ok l → (∀ dc, dc ∈ l → dc_ID dc ∉ seen) →
  (∀ a, a ∈ dc_addresses l → a ∉ taken acc) → is_Some (parse_datacenters i seen l acc).
Proof.
  induction l as [|dc l IH]; intros i seen acc (Hok & Hids & Has) Hs Ha; cbn [parse_datacenters]; [done|].
  apply Forall_cons in Hok as [(Hid & Hw & Hl & Hp) Hok]. cbn in Hids. apply NoDup_cons in Hids as [Hid' Hids].
  rewrite dc_addresses_cons in *. apply NoDup_app in Has as (Hn1 & Hdis & Hn2).
  rewrite bool_false_if.
  2:{ rewrite !orb_false_iff. split_and!; [lia|lia| |by rewrite Hw|apply Nat.eqb_neq; lia|apply Nat.ltb_ge; lia].
      apply bool_decide_eq_false. apply Hs. left. }
  destruct (parse_addresses_accepts i (dc_Addresses dc) acc) as (acc' & -> & Ht); [done..| |].
  { intros a Hin. apply Ha. set_solver. }
  cbn [mbind option_bind]. apply IH; [by split_and!| |].
  - intros x Hx [Heq|Hin]%elem_of_cons; [|by eapply Hs; [right|]]. apply Hid'. rewrite <- Heq. by apply list_elem_of_fmap_2.
  - intros a Hin. rewrite Ht. intros [?|?]%elem_of_app; [|by eapply Hdis]. eapply (Ha a); [set_solver|done].
Qed.

(** ** What the catalog offers *)

(** The service offers the datacenters [dcs]: through its selective intent, to the VPN. *)
Definition offers_datacenters (service : list (string * json)) (dcs : list dc_options) (state platform : string) : Prop :=
  field "enabled" service = Some (JBool true) ∧ field "evidence_status" service = Some (JStr "verified") ∧
  lists platform (field "platforms" service) ∧ lists state (field "access_states" service) ∧
  ∃ intents ms, field "route_intents" service = Some (JArr intents) ∧ JObj ms ∈ intents ∧
    field "mode" ms = Some (JStr "selective") ∧ field "action" ms = Some (JStr "vpn") ∧
    table_of (field "telegram_ws_datacenters" ms) dcs.

Lemma telegram_intents_spec l js : Forall2 reads_as l js → ∀ seen res dcs, telegram_intents seen res l = Some (Some dcs) →
  res = Some dcs ∨ (dcs_ok dcs ∧ ∃ ms, JObj ms ∈ js ∧ field "mode" ms = Some (JStr "selective") ∧ field "action" ms = Some (JStr "vpn") ∧
    table_of (field "telegram_ws_datacenters" ms) dcs).
Proof.
  induction 1 as [|raw j l js Hj _ IH]; intros seen res dcs H; cbn [telegram_intents] in H; [injection H as ->; by left|].
  destruct (catalogNativeRouteIntent raw) as [o|] eqn:Eo; [|done]. cbn [mbind option_bind] in H.
  destruct (_ || _) eqn:E in H; [done|]. destruct (is_present _ o).
  - destruct (_ || _) eqn:E2 in H; [done|]. destruct (telegramCatalogDatacenters _) as [dcs'|] eqn:Ed; [|done].
    cbn [mbind option_bind] in H. apply IH in H as [[= <-]|(Hok & ms & Hin & Hms)]; [|right; split; [done|]; exists ms; split; [by right|done]].
    right. apply route_intent_spec in Eo as (ms & Hp & _ & Hf). unfold reads_as in Hj. rewrite Hp in Hj. injection Hj as <-.
    apply datacenters_spec in Ed as (Ht & Hok & _). split; [done|]. exists ms. rewrite <- !Hf. bsplit.
    split_and!; [left|by apply catalog_text_spec|by apply catalog_text_spec|done].
  - apply IH in H as [->|(Hok & ms & Hin & Hms)]; [by left|]. right. split; [done|]. exists ms. split; [by right|done].
Qed.

Lemma service_datacenters_spec o ms state platform dcs : cut_of o ms → telegramServiceDatacenters o state platform = Some dcs →
  offers_datacenters ms dcs state platform ∧ dcs_ok dcs.
Proof.
  intros Hc. unfold telegramServiceDatacenters. destruct (negb _) eqn:E; [done|]. bsplit.
  destruct (offered_spec _ _ _ _ Hc E) as (? & ? & ? & ?). destruct Hc as [_ Hf].
  destruct (localDpiCatalogArray _ 1 5) as [intents|] eqn:Ei; [|done]. cbn [mbind option_bind].
  destruct (telegram_intents [] None intents) as [r|] eqn:Et; [|done]. cbn [mbind option_bind]. intros ->.
  apply catalog_array in Ei as (js & Hp & HF & _). apply (telegram_intents_spec _ js) in Et as [?|(Hok & m & Hin & Hm1 & Hm2 & Hm3)]; [done| |done].
  split; [|done]. split_and!; try done. exists js, m. rewrite <- (Hf "route_intents"). done.
Qed.

(** ** The prepared profile *)

Section Exact.
Context (ed : bytes → bytes → bytes → bool).
Context (fallbackDefinitions : list (string * definition) → string → result string (gmap string string)).
Context (metadata : telegramMetadata) (keysJSON : bytes) (audience bindInterface platform : string).
Context (rules outbounds : list raw_row) (parsed : list (string * definition)).

Abbreviation prepare1 := (prepare_service ed fallbackDefinitions metadata keysJSON audience bindInterface platform rules outbounds parsed).
Abbreviation prepareN := (prepare_services ed fallbackDefinitions metadata keysJSON audience bindInterface platform rules outbounds parsed).

(** The outbound [o] and the rule for the addresses [ips] come from the entry of
    [sid] in a catalog text that a pinned key signed and that is current at [now];
    the rule is for the datacenters of that entry, and the outbound, which falls
    back to the VPN the profile names, takes them. *)
Definition signed_outbound (now : time) (sid tag : string) (o : tg_options) (ips : list bytes) : Prop :=
  tag = telegram_tag sid ∧ o_ServiceID o = sid ∧ o_VPNOutbound o = default "" (Services metadata !! sid) ∧
  o_dialer o = bindInterface ∧ o_Detour o = "" ∧
  (∃ graph, fallbackDefinitions parsed (o_VPNOutbound o) = Ok graph) ∧
  (∃ text service, signed_text ed (list_of_str (Envelope metadata)) keysJSON (Digest metadata) text ∧
     catalog_says text audience (Revision metadata) (SecurityRevision metadata) sid now (o_IssuedAt o) (o_ExpiresAt o) service ∧
     offers_datacenters service (o_Datacenters o) (AccessState metadata) platform) ∧
  is_Some (parse_datacenters 0 [] (o_Datacenters o) []) ∧ Permutation ips (exact_ip <$> dc_addresses (o_Datacenters o)).

(** One outbound and one rule for every service, in order. *)
Inductive all_signed (env : nat → time * time * option string) : nat → list string → list (string * tg_options) →
    list (list bytes * string) → Prop :=
| signed_nil i : all_signed env i [] [] []
| signed_cons i sid ids tag o ips rows trs : signed_outbound (env i).1.1 sid tag o ips → all_signed env (S i) ids rows trs →
    all_signed env i (sid :: ids) ((tag, o) :: rows) ((ips, tag) :: trs).

Definition row_addresses (r : string * tg_options) : list bytes := dc_addresses (o_Datacenters r.2).

Lemma use_addresses_spec l : ∀ used used', use_addresses used l = Some used' → NoDup l ∧ (∀ a, a ∈ l → a ∉ used) ∧ Permutation used' (l ++ used).
Proof.
  induction l as [|a l IH]; intros used used' H; cbn [use_addresses] in H.
  - injection H as <-. split_and!; [constructor|set_solver|done].
  - case_bool_decide as E; [done|]. apply IH in H as (Hn & Hd & HP). split_and!.
    + apply NoDup_cons. split; [|done]. intros Ha%Hd. set_solver.
    + intros x [->|Hx]%elem_of_cons; [done|]. apply Hd in Hx. set_solver.
    + rewrite HP. cbn. by rewrite Permutation_middle.
Qed.

(** What one service adds. *)
Lemma prepare_service_spec sid env p p' : prepare1 sid env p = (true, p') →
  ∃ tag o ips, signed_outbound env.1.1 sid tag o ips ∧
    added p' = added p ++ [(tag, o)] ∧ telegramRules p' = telegramRules p ++ [(ips, tag)] ∧ prepared p' = prepared p ++ [(sid, tag)] ∧
    NoDup (dc_addresses (o_Datacenters o)) ∧ (∀ a, a ∈ dc_addresses (o_Datacenters o) → a ∉ usedAddresses p) ∧
    Permutation (usedAddresses p') (dc_addresses (o_Datacenters o) ++ usedAddresses p) ∧
    tag ∉ (out_tag ∘ OldOutbound <$> outbounds) ++ (added p).*1 ∧
    ∃ verified, telegramHasServiceVPNRule rules verified sid (o_VPNOutbound o) = true.
Proof.
  unfold prepare_service. destruct env as [[now1 now2] nonce]. cbn [fst].
  destruct (verifiedRoutingCatalogService _ _ _ _ _ _ _ _ _ _) as [v|] eqn:Ev; [|done].
  destruct (telegramServiceDatacenters _ _ _) as [dcs|] eqn:Ed; [|done].
  destruct (fallbackDefinitions parsed _) as [graph|] eqn:Eg; [|done].
  destruct (_ || _) eqn:E; [done|]. bsplit.
  destruct (RegisterPreparation _ _ _ _ _) as [[id|] ps] eqn:Er; [|done].
  destruct (use_addresses _ _) as [used|] eqn:Eu; [|done]. intros [= <-]. cbn [added telegramRules prepared usedAddresses].
  apply verified_spec in Ev as (text & service & Hs & Hc & Hcut).
  destruct (service_datacenters_spec _ _ _ _ _ Hcut Ed) as [Hoff Hok]. apply use_addresses_spec in Eu as (Hn & Hd & HP).
  eexists (telegram_tag sid), _, _. split_and!; try reflexivity; try done; cbn [o_Datacenters o_VPNOutbound set].
  - unfold signed_outbound. cbn. split_and!; try done; [by eexists|by eexists text, service| |apply merge_sort_Permutation].
    apply parse_datacenters_accepts; [done|set_solver|set_solver].
  - by exists v.
Qed.

Lemma prepare_services_spec env ids : ∀ i p p', prepareN ids env i p = (true, p') →
  ∃ rows trs, all_signed env i ids rows trs ∧ added p' = added p ++ rows ∧ telegramRules p' = telegramRules p ++ trs ∧
    prepared p' = prepared p ++ zip ids rows.*1 ∧
    NoDup (concat (row_addresses <$> rows)) ∧ (∀ a, a ∈ concat (row_addresses <$> rows) → a ∉ usedAddresses p) ∧
    NoDup rows.*1 ∧ (∀ t, t ∈ rows.*1 → t ∉ (out_tag ∘ OldOutbound <$> outbounds) ++ (added p).*1) ∧
    (ids ≠ [] → ∃ verified sid vpn, telegramHasServiceVPNRule rules verified sid vpn = true).
Proof.
  induction ids as [|sid ids IH]; intros i p p' H; cbn [prepare_services] in H.
  - injection H as <-. exists [], []. rewrite !app_nil_r. split_and!; try done; try constructor; set_solver.
  - destruct (prepare1 sid (env i) p) as [[] p1] eqn:E1; [|done].
    apply prepare_service_spec in E1 as (tag & o & ips & Hs & Ha & Ht & Hp & Hn & Hd & HP & Htag & v & Hv).
    apply IH in H as (rows & trs & Hall & Ha' & Ht' & Hp' & Hn' & Hd' & Hr & Htags & _).
    rewrite Ha in Ha', Htags. rewrite Ht in Ht'. rewrite Hp in Hp'. rewrite <- app_assoc in Ha', Ht', Hp'.
    exists ((tag, o) :: rows), ((ips, tag) :: trs). split_and!; try done.
    + by constructor.
    + cbn. unfold row_addresses at 1. cbn [snd]. apply NoDup_app. split_and!; [done| |done].
      intros a Hin Hin2%Hd'. rewrite HP in Hin2. set_solver.
    + intros a Hin. cbn in Hin. apply elem_of_app in Hin as [Hin|Hin]; [by apply Hd|]. apply Hd' in Hin. rewrite HP in Hin. set_solver.
    + cbn. apply NoDup_cons. split; [|done]. intros Hin%Htags. rewrite fmap_app in Hin. set_solver.
    + intros t [->|Hin]%elem_of_cons; [done|]. apply Htags in Hin. rewrite fmap_app in Hin. set_solver.
    + eauto.
Qed.
End Exact.

(** The place before the first catalog rule. *)
Lemma first_window_spec rules : Exists (λ m, has_key "pokrov_catalog_window" m = true) rules → ∀ i,
  ∃ k m, first_window i rules = (i + k)%nat ∧ rules !! k = Some m ∧ has_key "pokrov_catalog_window" m = true ∧
    Forall (λ m, has_key "pokrov_catalog_window" m = false) (take k rules).
Proof.
  induction rules as [|r rules IH]; intros H i; [by apply Exists_nil in H|]. cbn [first_window].
  destruct (has_key _ r) eqn:E.
  - exists 0%nat, r. split_and!; try done; try lia; constructor.
  - apply Exists_cons in H as [H|H]; [congruence|]. destruct (IH H (S i)) as (k & m & -> & ? & ? & ?).
    exists (S k), m. split_and!; try done; [lia|by constructor].
Qed.

Lemma service_rule_window rules verified sid vpn : telegramHasServiceVPNRule rules verified sid vpn = true →
  Exists (λ m, has_key "pokrov_catalog_window" m = true) rules.
Proof.
  unfold telegramHasServiceVPNRule. destruct (localDpiCatalogArray _ _ _) as [domains|]; [|done].
  intros (rule & Hin & [Hr _]%andb_true_iff)%existsb_exists. apply Exists_exists. exists rule.
  split; [by apply list_elem_of_In|]. unfold service_rule, row_get in Hr. unfold has_key.
  destruct (rule !! "pokrov_catalog_window"); [by apply bool_decide_eq_true_2|done].
Qed.

(** The parts of a profile that preparation reads. *)
Definition profile_parts (configJSON : bytes) (platform : string) (metadata : telegramMetadata) (outbounds rules : list raw_row) : Prop :=
  ∃ config hostMeta route, raw_map configJSON = Some config ∧ raw_map (row_get "_meta" config) = Some hostMeta ∧
    read_metadata hostMeta platform = Some metadata ∧ raw_maps (row_get "outbounds" config) = Some outbounds ∧
    raw_map (row_get "route" config) = Some route ∧ raw_maps (row_get "rules" route) = Some rules.

Lemma metadata_services hostMeta platform metadata : read_metadata hostMeta platform = Some metadata → Services metadata ≠ ∅.
Proof.
  unfold read_metadata. destruct (rawControlObject _ _); [|done]. cbn [mbind option_bind].
  destruct (unmarshal_metadata _) as [m|]; [|done]. cbn [mbind option_bind]. destruct (_ || _) eqn:E; [done|]. intros H Hs.
  assert (m = metadata) as ->.
  { destruct (raw_map _); [|done]. cbn [mbind option_bind] in H. destruct (rawControlObject _ _); [|done]. cbn [mbind option_bind] in H.
    destruct (same_catalog _ _); [|done]. by injection H. }
  bsplit. rewrite Hs, map_size_empty in *. done.
Qed.

(** C15: A prepared Telegram profile contains what the catalog signed and nothing
    else.  For every service the profile names, in order, one outbound is added,
    under a tag that was free, for the datacenters of the entry of that service in
    a catalog text that a pinned key signed and that is current; the entry offers
    them on this platform and in this state of access through its selective VPN
    intent; the outbound accepts the list, and falls back to a protected graph.  One rule each sends
    exactly their addresses, no address occurring twice in the whole profile, to
    that outbound.  The rules stand before the first rule with a catalog window and
    after everything that precedes it; all other outbounds and rules are unchanged
    and in order. *)
Theorem telegram_profile_exact ed parseConfig fallbackDefinitions configJSON keysJSON audience bindInterface platform env ps r ps' :
  PrepareTelegramWSProfile ed parseConfig fallbackDefinitions configJSON keysJSON audience bindInterface platform env ps = (Ok r, ps') →
  ∃ metadata outbounds rules parsed ids rows trs k window,
    profile_parts configJSON platform metadata outbounds rules ∧
    Permutation ids (map_to_list (Services metadata)).*1 ∧
    all_signed ed fallbackDefinitions metadata keysJSON audience bindInterface platform parsed env 0 ids rows trs ∧
    NoDup rows.*1 ∧ (∀ m, m ∈ outbounds → out_tag (OldOutbound m) ∉ rows.*1) ∧
    NoDup (concat (row_addresses <$> rows)) ∧
    tp_outbounds r = (OldOutbound <$> outbounds) ++ ((λ x, TelegramOutbound x.1 x.2) <$> rows) ∧
    tp_rules r = (OldRule <$> take k rules) ++ ((λ x, TelegramRule x.1 x.2) <$> trs) ++ (OldRule <$> drop k rules) ∧
    rules !! k = Some window ∧ has_key "pokrov_catalog_window" window = true ∧
    Forall (λ m, has_key "pokrov_catalog_window" m = false) (take k rules) ∧
    tp_Services r = zip ids rows.*1.
Proof.
  unfold PrepareTelegramWSProfile. destruct (_ || _); [done|].
  destruct (raw_map configJSON) as [config|] eqn:Ec; [|done]. cbn [mbind option_bind].
  destruct (raw_map (row_get "_meta" config)) as [hostMeta|] eqn:Em; [|done]. cbn [mbind option_bind].
  destruct (read_metadata hostMeta platform) as [metadata|] eqn:Er; [|done]. cbn [mbind option_bind].
  destruct (raw_maps (row_get "outbounds" config)) as [outbounds|] eqn:Eo; [|done]. cbn [mbind option_bind].
  destruct (raw_map (row_get "route" config)) as [route|] eqn:Et; [|done]. cbn [mbind option_bind].
  destruct (raw_maps (row_get "rules" route)) as [rules|] eqn:Eu; [|done]. cbn [mbind option_bind].
  destruct (existsb _ outbounds); [done|]. destruct (parseConfig _) as [parsed|]; [|done]. cbn [mbind option_bind].
  set (ids := merge_sort string_le _). destruct (prepare_services _ _ _ _ _ _ _ _ _ _ ids env 0 _) as [[] p] eqn:Ep; [|done].
  cbn [negb]. intros [= <- <-].
  assert (HP : Permutation ids (map_to_list (Services metadata)).*1) by apply merge_sort_Permutation.
  apply prepare_services_spec in Ep as (rows & trs & Hall & Ha & Htr & Hpr & Hn & _ & Hr & Htags & Hrule).
  cbn [added telegramRules prepared app fmap list_fmap] in *. rewrite app_nil_r in Htags.
  destruct Hrule as (v & sid & vpn & Hv).
  { intros Hids. apply metadata_services in Er. rewrite Hids in HP. apply Permutation_nil_l, eq_sym in HP.
    apply fmap_nil_inv, map_to_list_empty_iff in HP. done. }
  destruct (first_window_spec rules (service_rule_window _ _ _ _ Hv) 0) as (k & m & Hk & Hm & Hw & Hpre). cbn in Hk.
  exists metadata, outbounds, rules, parsed, ids, rows, trs, k, m. rewrite Ha, Htr, Hpr, Hk. split_and!; try done.
  - by exists config, hostMeta, route.
  - intros x Hx Hin%Htags. apply Hin. by apply (list_elem_of_fmap_2 (out_tag ∘ OldOutbound)).
Qed.

(** ** A prepared profile *)

Definition ex_tg_catalog : bytes := Eval vm_compute in
  ex_catalog [ex_service "telegram" "t.me"
    (JArr [JObj [("mode", JStr "selective"); ("action", JStr "vpn");
                 ("telegram_ws_datacenters",
                  JArr [JObj [("id", JNum "2"); ("addresses", JArr [JStr "149.154.167.51"; JStr "149.154.167.50"]);
                              ("websocket_address", JStr "149.154.167.99")]])]])].

Definition ex_tg_config : bytes := Eval vm_compute in print (JObj
  [("_meta", JObj [("telegram_ws", JObj
      [("schema_version", JNum "1"); ("mode", JStr "selective"); ("platform", JStr "windows");
       ("catalog_envelope", JStr (str_of_list (ex_envelope ex_tg_catalog))); ("catalog_sha256", JStr (ex_digest ex_tg_catalog));
       ("revision", JNum "7"); ("security_revision", JNum "3"); ("access_state", JStr "paid_unlimited");
       ("services", JObj [("telegram", JStr "vpn")])])]);
   ("outbounds", JArr [JObj [("type", JStr "vless"); ("tag", JStr "vpn")]]);
   ("route", JObj [("rules", JArr
      [JObj [("action", JStr "sniff")];
       JObj [("domain", JArr [JStr "t.me"]); ("action", JStr "route"); ("outbound", JStr "vpn");
             ("pokrov_catalog_window", JObj [("service_id", JStr "telegram"); ("issued_at", JStr "2026-01-01T00:00:00Z");
                                             ("expires_at", JStr "2026-01-02T00:00:00Z")])]])])]).

Definition ex_fallback (_ : list (string * definition)) (_ : string) : result string (gmap string string) :=
  Ok (<[ "vpn" := "x" ]> ∅).

Abbreviation ex_tg_prepare :=
  (PrepareTelegramWSProfile ex_verify (λ _, Some []) ex_fallback ex_tg_config ex_keys "lab" "eth0" "windows"
    (λ _, (ex_time 600, ex_time 601, Some "nonce")) ∅).

(** The rule for the two addresses stands between the profile's own rules. *)
Example ex_tg_rules :
  match ex_tg_prepare.1 with
  | Ok r => (λ x, match x with TelegramRule ips tag => Some (str_of_list <$> ips, tag) | OldRule _ => None end) <$> tp_rules r
  | Err _ => []
  end = [None; Some (["149.154.167.50/32"; "149.154.167.51/32"], "pokrov-telegram-ws-telegram"); None].
Proof. vm_compute. reflexivity. Qed.

Lemma ok_eta {E A B} (x : result E A * B) : is_ok x.1 = true → ∃ a, x = (Ok a, x.2).
Proof. destruct x as [[a|] b]; [by exists a|done]. Qed.

Lemma telegram_profile_exact_witness :
  is_ok ex_tg_prepare.1 = true ∧
  ∃ metadata outbounds rules, profile_parts ex_tg_config "windows" metadata outbounds rules.
Proof.
  assert (Hok : is_ok ex_tg_prepare.1 = true) by (vm_compute; reflexivity).
  split; [exact Hok|]. destruct (ok_eta ex_tg_prepare Hok) as [r H].
  destruct (telegram_profile_exact _ _ _ _ _ _ _ _ _ _ _ _ H) as (metadata & outbounds & rules & _ & _ & _ & _ & _ & _ & Hp & _).
  exists metadata, outbounds, rules. exact Hp.
Defined.
