(* ===== verification/WindowsDpi.v ===== *)
(** * Preparing a Windows profile with the local-DPI strategy

    [v2/hcore/windows_local_dpi.go]: from a profile and the catalog it names, one
    local-DPI outbound for every service the catalog admits it for, and in front
    of the catalog's own VPN rule for such a service an IPv4 rule that tries the
    strategy first.  The profile's own sections stay texts; printing the finished
    profile is left out. *)

From stdpp Require Import base list strings gmap sorting.
From Stdlib Require Import ZArith Lia Ascii.
From S2P Require Import Prelude GoTime GoBytes GoJson GoRawJson GoNetip GraphWalk CatalogWindow CarrierPolicy ControlWire ControlVerify CatalogVerify TelegramPrepare.

Local Open Scope Z_scope.
Set Default Goal Selector "!".

Definition errWindowsDpiScope : string := "windows_local_dpi_scope_invalid".

(** ** Structs *)

Record windowsDpiMetadata := mkDpiMetadata {
  w_Mode : string; w_Platform : string; w_Envelope : string; w_Digest : string; w_Revision : Z; w_SecurityRevision : Z;
  w_AccessState : string; w_Services : gmap string string }.

Definition unmarshal_dpi_metadata (raw : bytes) : option windowsDpiMetadata :=
  ms ← parse raw ≫= struct_members;
  a1 ← struct_field assign_string "mode" "" ms;
  a2 ← struct_field assign_string "platform" "" ms;
  a3 ← struct_field assign_string "catalog_envelope" "" ms;
  a4 ← struct_field assign_string "catalog_sha256" "" ms;
  a5 ← struct_field assign_int64 "revision" 0 ms;
  a6 ← struct_field assign_int64 "security_revision" 0 ms;
  a7 ← struct_field assign_string "access_state" "" ms;
  a8 ← struct_field assign_string_map "services" ∅ ms;
  Some (mkDpiMetadata a1 a2 a3 a4 a5 a6 a7 a8).

Record windowsDpiDomain := mkDomain { d_Name : string; d_Match : string; d_Shared : bool }.
Record signedService := mkSigned { s_ServiceID : string; s_Domains : list windowsDpiDomain }.
Record signedPayload := mkPayload { p_IssuedAt : string; p_ExpiresAt : string; p_Services : list signedService }.

#[export] Instance windowsDpiDomain_eq_dec : EqDecision windowsDpiDomain.
Proof. solve_decision. Defined.

Definition read_domain (j : json) : option windowsDpiDomain :=
  ms ← struct_members j;
  n ← struct_field assign_string "name" "" ms;
  m ← struct_field assign_string "match" "" ms;
  s ← struct_field assign_bool "shared" false ms;
  Some (mkDomain n m s).
Definition read_signed (j : json) : option signedService :=
  ms ← struct_members j;
  id ← struct_field assign_string "service_id" "" ms;
  ds ← struct_field (assign_slice read_domain) "domains" [] ms;
  Some (mkSigned id ds).
(** A struct in a struct is read into what it already holds. *)
Definition assign_payload (j : json) (p : signedPayload) : option signedPayload :=
  ms ← struct_members j;
  i ← struct_field assign_string "issued_at" (p_IssuedAt p) ms;
  e ← struct_field assign_string "expires_at" (p_ExpiresAt p) ms;
  ss ← struct_field (assign_slice read_signed) "services" (p_Services p) ms;
  Some (mkPayload i e ss).
(** The part of the envelope that is read without being verified. *)
Definition unmarshal_envelope (raw : bytes) : option signedPayload :=
  ms ← parse raw ≫= struct_members;
  struct_field assign_payload "payload" (mkPayload "" "" []) ms.

(** ** The protected VPN *)

Definition windowsDpiString (raw : bytes) : string := catalog_text raw.

(** The options of an outbound read from its row, and the parameters of the
    carrier policies. *)
Record codecs := mkCodecs {
  decode_vless : raw_row → option VLESSOptions; decode_slip : raw_row → option SlipstreamOptions;
  decode_dnstt : raw_row → option DnsttOptions; decode_naive : raw_row → option NaiveOptions;
  c_pem : bytes → option (bytes * bytes); c_x509 : bytes → bool;
  c_server : bytes → bytes → bool; c_key : bytes → option bytes }.

Section Protected.
Context (c : codecs).
Context (byTag : gmap string raw_row).

Definition row_of (tag : string) : raw_row := default ∅ (byTag !! tag).
Definition row_text (k : string) (m : raw_row) : string := windowsDpiString (row_get k m).

Definition slip_carried (leaf carrier : raw_row) : bool :=
  match decode_vless c leaf, decode_slip c carrier with
  | Some v, Some o => slip_ProtectedVLESSDetour (c_pem c) (c_x509 c) v o
  | _, _ => false
  end.
Definition dnstt_carried (leaf carrier : raw_row) : bool :=
  match decode_vless c leaf, decode_dnstt c carrier with
  | Some v, Some o => dnstt_ProtectedVLESSDetour (c_server c) (c_key c) v o
  | _, _ => false
  end.

(** [tls.Enabled && !tls.Insecure] *)
Definition tls_protected (raw : bytes) : bool :=
  match ms ← parse raw ≫= struct_members;
        enabled ← struct_field assign_bool "enabled" false ms;
        insecure ← struct_field assign_bool "insecure" false ms;
        Some (enabled, insecure) with
  | Some (enabled, insecure) => enabled && negb insecure
  | None => false
  end.

(** The switch over the type, [rec] being the recursive call. *)
Definition protected_type (rec : string → bool) (outbound : raw_row) : bool :=
  let type := row_text "type" outbound in
  if bool_decide (type = "naive") then match decode_naive c outbound with Some o => ProtectedH2 o | None => false end
  else if bool_decide (type = "vless") then tls_protected (row_get "tls" outbound)
  else if one_of ["hysteria2"; "wireguard"; "awg"] type then true
  else if bool_decide (type = "pokrov-ats-lease") then rec (row_text "upstream_tag" outbound)
  else if one_of ["selector"; "urltest"] type then
    match raw_strings (row_get "outbounds" outbound) with
    | Some children => negb (length children =? 0)%nat && forallb rec children
    | None => false
    end
  else false.

Fixpoint windowsDpiProtectedVPN (fuel : nat) (visiting : gset string) (tag : string) : bool :=
  match fuel with
  | O => false
  | S fuel =>
      match byTag !! tag with
      | None => false
      | Some outbound =>
          if bool_decide (tag ∈ visiting) then false
          else
            let rec := windowsDpiProtectedVPN fuel ({[tag]} ∪ visiting) in
            let detour := row_text "detour" outbound in
            if bool_decide (detour = "") then protected_type rec outbound
            else
              let is_vless := bool_decide (row_text "type" outbound = "vless") in
              let carrier := row_of detour in
              if is_vless && bool_decide (row_text "type" carrier = "slipstream") then slip_carried outbound carrier
              else if is_vless && bool_decide (row_text "type" carrier = "dnstt") then dnstt_carried outbound carrier
              else if negb (rec detour) then false
              else protected_type rec outbound
      end
  end.

(** One unit more than there are outbounds. *)
Definition protected_fuel : nat := S (size byTag).
Definition ProtectedVPN (tag : string) : bool := windowsDpiProtectedVPN protected_fuel ∅ tag.
End Protected.

(** ** The services *)

(** A selected service of the prepared profile. *)
Record windowsDpiService := mkDpiService {
  ServiceID : string; OutboundTag : string; ControlHost : string; Domains : list windowsDpiDomain }.

(** [{"type": "pokrov-local-dpi", "windows_direct": true, ...}] *)
Record localOutbound := mkLocal {
  l_tag : string; l_bindInterface : string; l_vpnOutbound : string; l_serviceID : string; l_preferTCP : bool }.

Definition local_tag (serviceID : string) : string := "pokrov-local-dpi-" +:+ serviceID.

(** The owner of every domain of the catalog; the empty string when there are several. *)
Abbreviation owners := (gmap (string * string) string).
Definition own_domain1 (serviceID : string) (m : owners) (d : windowsDpiDomain) : owners :=
  let identity := (d_Match d, d_Name d) in
  match m !! identity with
  | None => <[identity := serviceID]> m
  | Some owner => if bool_decide (owner = serviceID) then m else <[identity := ""]> m
  end.
Definition domain_owners (services : list signedService) : owners :=
  foldl (λ m s, foldl (own_domain1 (s_ServiceID s)) m (s_Domains s)) ∅ services.

(** The first loop: every tag once. *)
Fixpoint tags (l : list raw_row) (m : gmap string raw_row) : option (gmap string raw_row) :=
  match l with
  | [] => Some m
  | outbound :: l =>
      let tag := row_text "tag" outbound in
      if bool_decide (tag = "") || has_key tag m then None else tags l (<[tag := outbound]> m)
  end.

(** The tests of a rule that do not depend on a domain: a rule of this service in
    the window of the catalog, without lease, for IPv4, not inverted, and without a
    selector that could widen it. *)
Definition catalog_rule (payload : signedPayload) (serviceID : string) (rule : raw_row) : bool :=
  match raw_map (row_get "pokrov_catalog_window" rule) with
  | None => false
  | Some window =>
      bool_decide (row_text "service_id" window = serviceID) && bool_decide (row_text "action" rule = "route") &&
      bool_decide (row_text "issued_at" window = p_IssuedAt payload) &&
      bool_decide (row_text "expires_at" window = p_ExpiresAt payload) &&
      negb (has_key "lease_id" window) && negb (has_key "lease_group" window) &&
      (negb (has_key "ip_version" rule) ||
       match raw_int64 (row_get "ip_version" rule) with Some v => (v =? 0) || (v =? 4) | None => false end) &&
      (negb (has_key "invert" rule) ||
       match parse (row_get "invert" rule) ≫= un_bool with Some inverted => negb inverted | None => false end) &&
      negb (has_key "domain_regex" rule) && negb (has_key "domain_keyword" rule) && negb (has_key "ip_cidr" rule) &&
      negb (has_key "ip_is_private" rule) && negb (has_key "rule_set" rule)
  end.

(** The rule names exactly this domain, which is the service's alone. *)
Definition rule_for (owned : owners) (serviceID : string) (rule : raw_row) (domain : windowsDpiDomain) : bool :=
  let '(key, other) := if bool_decide (d_Match domain = "suffix") then ("domain_suffix", "domain") else ("domain", "domain_suffix") in
  negb (d_Shared domain) && bool_decide (default "" (owned !! (d_Match domain, d_Name domain)) = serviceID) &&
  negb (has_key other rule) && bool_decide (raw_strings (row_get key rule) = Some [d_Name domain]).

(** [fallback], [matching] and [selected.Domains] *)
Record scope := mkScope { fallback : string; matching : list nat; sc_domains : list windowsDpiDomain }.

(** The IPv4 rule in front of a matching rule, and the rule for QUIC in front of that. *)
Definition local_rule (tag : string) (rule : raw_row) : raw_row :=
  <["ip_version" := txt "4"]> (<["outbound" := print_string tag]> rule).
Definition quic_rule (tag : string) (rule : raw_row) : raw_row :=
  <["port" := txt "443"]> (<["network" := print_string "udp"]> (<["outbound" := print_string tag]> rule)).
Definition open_network (rule : raw_row) : bool :=
  negb (has_key "network" rule) && negb (has_key "port" rule) && negb (has_key "port_range" rule).

(** The length of a [[]json.RawMessage]. *)
Definition raw_length (raw : bytes) : option nat :=
  match raw_array raw with
  | Some l => Some (length l)
  | None => match parse raw with Some JNull => Some 0%nat | _ => None end
  end.

(** The state of the loop over the services. *)
Record dpi_prep := mkDpiPrep {
  locals : list localOutbound; localRules : gmap nat raw_row; quicRules : gmap nat raw_row; services : list windowsDpiService }.

Record windowsDpiPreparation := mkWindowsPreparation {
  wp_outbounds : list raw_row; wp_locals : list localOutbound; wp_rules : list raw_row; wp_ExpiresAt : string;
  wp_Services : list windowsDpiService }.

Section Prepare.
Variable ed25519_Verify : bytes → bytes → bytes → bool.
Context (c : codecs).

Section Service.
Context (metadata : windowsDpiMetadata) (payload : signedPayload) (byTag : gmap string raw_row) (finalTag : string).
Context (owned : owners).

(** A rule and a domain; [None] is the refusal of the whole profile. *)
Definition match_domain (serviceID : string) (index : nat) (rule : raw_row) (s : option scope) (domain : windowsDpiDomain)
    : option scope :=
  s ← s;
  if negb (rule_for owned serviceID rule domain) then Some s
  else
    let vpn := row_text "outbound" rule in
    if negb (ProtectedVPN c byTag vpn) || (negb (bool_decide (fallback s = "")) && negb (bool_decide (fallback s = vpn))) ||
       (bool_decide (w_Mode metadata = "smart_safe") && negb (bool_decide (vpn = finalTag))) then None
    else Some (mkScope vpn (matching s ++ [index]) (sc_domains s ++ [domain])).

Fixpoint match_rules (serviceID : string) (domains : list windowsDpiDomain) (index : nat) (rules : list raw_row) (s : scope)
    : option scope :=
  match rules with
  | [] => Some s
  | rule :: rules =>
      s ← (if catalog_rule payload serviceID rule then foldl (match_domain serviceID index rule) (Some s) domains else Some s);
      match_rules serviceID domains (S index) rules s
  end.

(** [range] over the matching rules. *)
Definition override (tag : string) (preferTCP : bool) (rules : list raw_row) (p : gmap nat raw_row * gmap nat raw_row) (i : nat)
    : gmap nat raw_row * gmap nat raw_row :=
  match rules !! i with
  | None => p
  | Some rule =>
      (<[i := local_rule tag rule]> p.1,
       if preferTCP && open_network rule then <[i := quic_rule tag rule]> p.2 else p.2)
  end.

(** The body of the loop over the services. *)
Definition prepare_dpi_service (keysJSON : bytes) (audience bindInterface : string) (rules : list raw_row) (now : time)
    (serviceID : string) (p : dpi_prep) : option dpi_prep :=
  let host := default "" (w_Services metadata !! serviceID) in
  if negb (VerifyWindowsLocalDpiCatalogMode ed25519_Verify keysJSON audience (w_Digest metadata) (w_Revision metadata)
             (w_SecurityRevision metadata) serviceID host (w_AccessState metadata) (w_Mode metadata) now
             (list_of_str (w_Envelope metadata))) then None
  else
    let domains := from_option s_Domains [] (head (filter (λ s, s_ServiceID s = serviceID) (p_Services payload))) in
    let tag := local_tag serviceID in
    if has_key tag byTag then None
    else
      s ← match_rules serviceID domains 0 rules (mkScope "" [] []);
      if (length (matching s) =? 0)%nat then Some p
      else if negb (existsb (λ d, bool_decide (d_Name d = host) && bool_decide (d_Match d = "exact")) (sc_domains s)) then None
      else
        let preferTCP := bool_decide (serviceID = "youtube") in
        let '(local, quic) := foldl (override tag preferTCP rules) (localRules p, quicRules p) (matching s) in
        Some (mkDpiPrep (locals p ++ [mkLocal tag bindInterface (fallback s) serviceID preferTCP]) local quic
                (services p ++ [mkDpiService serviceID tag host (sc_domains s)])).

Fixpoint prepare_dpi_services keysJSON audience bindInterface rules (clock : nat → time) (i : nat) (ids : list string) (p : dpi_prep)
    : option dpi_prep :=
  match ids with
  | [] => Some p
  | serviceID :: ids =>
      p ← prepare_dpi_service keysJSON audience bindInterface rules (clock i) serviceID p;
      prepare_dpi_services keysJSON audience bindInterface rules clock (S i) ids p
  end.
End Service.

(** The rules with their overrides in front of them. *)
Definition prepared_rules (rules : list raw_row) (local quic : gmap nat raw_row) : list raw_row :=
  concat (imap (λ i rule, option_list (quic !! i) ++ option_list (local !! i) ++ [rule]) rules).

(** The default route: direct in the selective mode, a protected VPN in the smart one. *)
Definition final_ok (metadata : windowsDpiMetadata) (byTag : gmap string raw_row) (finalTag : string) : bool :=
  if bool_decide (w_Mode metadata = "selective") then
    let final := row_of byTag finalTag in
    bool_decide (row_text "type" final = "direct") && bool_decide (row_text "detour" final = "")
  else ProtectedVPN c byTag finalTag.

Definition PrepareWindowsLocalDpiProfile (windows : bool) (configJSON keysJSON : bytes) (audience bindInterface : string)
    (clock : nat → time) : result string windowsDpiPreparation :=
  let prepared :=
    (if negb windows || bool_decide (bindInterface = "") || bool_decide (byte_of 0 ∈ list_of_str bindInterface) then None
    else
      config ← raw_map configJSON;
      hostMeta ← raw_map (row_get "_meta" config);
      metadata ← unmarshal_dpi_metadata (row_get "local_dpi" hostMeta);
      if negb (one_of ["selective"; "smart_safe"] (w_Mode metadata)) || negb (bool_decide (w_Platform metadata = "windows")) ||
         (size (w_Services metadata) =? 0)%nat || (256 <? size (w_Services metadata))%nat then None
      else
        payload ← unmarshal_envelope (list_of_str (w_Envelope metadata));
        outbounds ← raw_maps (row_get "outbounds" config);
        route ← raw_map (row_get "route" config);
        rules ← raw_maps (row_get "rules" route);
        if has_key "endpoints" config && negb (bool_decide (raw_length (row_get "endpoints" config) = Some 0%nat)) then None
        else
          byTag ← tags outbounds ∅;
          let finalTag := row_text "final" route in
          if negb (final_ok metadata byTag finalTag) then None
          else
            p ← prepare_dpi_services metadata payload byTag finalTag (domain_owners (p_Services payload)) keysJSON audience
                  bindInterface rules clock 0 (merge_sort string_le (map_to_list (w_Services metadata)).*1) (mkDpiPrep [] ∅ ∅ []);
            if (length (services p) =? 0)%nat then None
            else Some (mkWindowsPreparation outbounds (locals p) (prepared_rules rules (localRules p) (quicRules p))
                         (p_ExpiresAt payload) (services p))) in
  match prepared with Some r => Ok r | None => Err errWindowsDpiScope end.
End Prepare.

(** ** The protected outbounds *)

Section ProtectedExact.
Context (c : codecs) (byTag : gmap string raw_row).

(** What the type of an outbound asks of itself, and which outbounds it leads to. *)
Definition type_node (outbound : raw_row) : bool * list string :=
  let type := row_text "type" outbound in
  if bool_decide (type = "naive") then (match decode_naive c outbound with Some o => ProtectedH2 o | None => false end, [])
  else if bool_decide (type = "vless") then (tls_protected (row_get "tls" outbound), [])
  else if one_of ["hysteria2"; "wireguard"; "awg"] type then (true, [])
  else if bool_decide (type = "pokrov-ats-lease") then (true, [row_text "upstream_tag" outbound])
  else if one_of ["selector"; "urltest"] type then
    match raw_strings (row_get "outbounds" outbound) with Some l => (negb (length l =? 0)%nat, l) | None => (false, []) end
  else (false, []).

(** The same with the detour: a VLESS exit over a carrier is tested together with
    it, any other detour must be protected as well. *)
Definition vpn_node (tag : string) : option (bool * list string) :=
  outbound ← byTag !! tag;
  let detour := row_text "detour" outbound in
  let '(ok, deps) := type_node outbound in
  Some (if bool_decide (detour = "") then (ok, deps)
        else if bool_decide (row_text "type" outbound = "vless") && bool_decide (row_text "type" (row_of byTag detour) = "slipstream")
        then (slip_carried c outbound (row_of byTag detour), [])
        else if bool_decide (row_text "type" outbound = "vless") && bool_decide (row_text "type" (row_of byTag detour) = "dnstt")
        then (dnstt_carried c outbound (row_of byTag detour), [])
        else (ok, detour :: deps)).

Lemma type_node_spec rec outbound : protected_type c rec outbound = (type_node outbound).1 && forallb rec (type_node outbound).2.
Proof.
  unfold protected_type, type_node. repeat (case_goal; cbn [fst snd forallb]); rewrite ?andb_true_r; done.
Qed.

Lemma vpn_walk fuel visiting tag : windowsDpiProtectedVPN c byTag fuel visiting tag = walk vpn_node fuel visiting tag.
Proof.
  revert visiting tag. induction fuel as [|fuel IH]; intros visiting tag; [done|]. cbn [windowsDpiProtectedVPN walk]. unfold vpn_node at 1.
  destruct (byTag !! tag) as [outbound|]; [|done]. cbn [mbind option_bind]. pose proof (type_node_spec) as Ht.
  assert (Hrec : ∀ l, forallb (windowsDpiProtectedVPN c byTag fuel ({[tag]} ∪ visiting)) l = forallb (walk vpn_node fuel ({[tag]} ∪ visiting)) l).
  { intros l. induction l as [|x l IHl]; [done|]. cbn [forallb]. by rewrite IH, IHl. }
  rewrite !Ht, Hrec, IH. destruct (type_node outbound) as [ok deps]. cbn [fst snd].
  destruct (bool_decide (tag ∈ visiting)); cbn [negb andb].
  { by repeat case_goal. }
  destruct (bool_decide (row_text "detour" outbound = "")); [done|].
  destruct (_ && bool_decide (_ = "slipstream")); [cbn; by rewrite andb_true_r|].
  destruct (_ && bool_decide (_ = "dnstt")); [cbn; by rewrite andb_true_r|]. cbn [forallb].
  destruct (walk _ _ _ _); cbn [negb andb]; [done|]. by rewrite andb_false_r.
Qed.

Lemma vpn_exact tag : ProtectedVPN c byTag tag = true ↔ Grounded vpn_node tag.
Proof.
  unfold ProtectedVPN, protected_fuel. rewrite vpn_walk, <- size_dom. apply walk_exact. intros t x. unfold vpn_node.
  destruct (byTag !! t) eqn:E; [|done]. intros _. apply elem_of_dom. by eexists.
Qed.
End ProtectedExact.

(** ** Reading without verifying agrees with the signed text *)

(** Members in lower case, each once, are the fields of those names. *)
Lemma struct_field_exact {A} (assign : json → A → option A) name zero ms :
  NoDup ms.*1 → Forall (λ k, fold_key (list_of_str k) = list_of_str k) ms.*1 →
  struct_field assign name zero ms = match field name ms with Some j => assign j zero | None => Some zero end.
Proof.
  unfold struct_field. intros Hn Hf.
  assert (Hnone : ∀ l (a : option A), Forall (λ k, fold_key (list_of_str k) = list_of_str k) l.*1 → name ∉ l.*1 →
    foldl (λ acc m, a ← acc; if bytes_eqb (fold_key (list_of_str m.1)) (list_of_str name) then assign m.2 a else Some a) a l = a).
  { intros l. induction l as [|[k v] l IH]; intros a Hl Hin; [done|]. cbn in Hl, Hin. apply Forall_cons in Hl as [Hk Hl]. cbn [foldl fst snd].
    rewrite not_elem_of_cons in Hin. destruct Hin as [Hne Hin]. rewrite Hk. unfold bytes_eqb. rewrite bool_decide_eq_false_2.
    - rewrite IH by done. by destruct a.
    - intros Heq. apply Hne. by rewrite <- (str_list name), <- Heq, str_list. }
  induction ms as [|[k v] ms IH]; [done|]. cbn in Hn, Hf. apply NoDup_cons in Hn as [Hk Hn]. apply Forall_cons in Hf as [Hfk Hf].
  cbn [foldl fst snd field mbind option_bind]. rewrite Hfk. destruct (String.eqb k name) eqn:E.
  - apply String.eqb_eq in E as ->. unfold bytes_eqb. rewrite bool_decide_eq_true_2 by done. by apply Hnone.
  - apply String.eqb_neq in E. unfold bytes_eqb. rewrite bool_decide_eq_false_2; [by apply IH|].
    intros Heq. apply E. by rewrite <- (str_list k), Heq, str_list.
Qed.

Definition folded (k : string) : bool := bytes_eqb (fold_key (list_of_str k)) (list_of_str k).

(** The members of a strict object are the fields of a struct. *)
Lemma control_struct {A} (assign : json → A → option A) fields ms name zero :
  bool_decide (NoDup fields) && forallb folded fields = true → smartAccessControlObject fields (JObj ms) = Some ms →
  struct_field assign name zero ms = match field name ms with Some j => assign j zero | None => Some zero end.
Proof.
  intros [Hd%bool_decide_eq_true Hf]%andb_true_iff Hc. apply struct_field_exact; [by apply control_object_spec in Hc as [? _]|].
  apply Forall_forall. intros k Hk. eapply control_keys in Hk; [|exact Hd|exact Hc]. rewrite forallb_forall in Hf.
  by apply list_elem_of_In, Hf, bool_decide_eq_true in Hk.
Qed.

Definition plain_names (fields : list string) : bool := bool_decide (NoDup fields) && forallb folded fields.
Lemma domain_names : plain_names domain_fields = true. Proof. by vm_compute. Qed.
Lemma service_names : plain_names service_fields = true. Proof. by vm_compute. Qed.
Lemma catalog_names : plain_names catalog_fields = true. Proof. by vm_compute. Qed.
Lemma envelope_names : plain_names envelope_fields = true. Proof. by vm_compute. Qed.

Definition domain_json (j : json) (d : windowsDpiDomain) : Prop :=
  ∃ ms, j = JObj ms ∧ field "name" ms = Some (JStr (d_Name d)) ∧ field "match" ms = Some (JStr (d_Match d)) ∧
    field "shared" ms = Some (JBool (d_Shared d)).

Lemma read_domain_row j d : domain_row j → read_domain j = Some d → domain_json j d ∧ d_Match d ∈ ["exact"; "suffix"].
Proof.
  intros (ms & name & match_ & shared & -> & Hc & Hn & Hm & Hs & _ & Hx). unfold read_domain. cbn [struct_members mbind option_bind].
  rewrite !(control_struct _ _ _ _ _ domain_names Hc), Hn, Hm, Hs. intros [= <-]. split; [|done]. by exists ms.
Qed.

Lemma mapM_elem {A B} (f : A → option B) l k y : mapM f l = Some k → y ∈ k → ∃ x, x ∈ l ∧ f x = Some y.
Proof.
  intros H%mapM_Some. induction H as [|x z l k Hx _ IH]; [by intros ?%not_elem_of_nil|].
  intros [->|Hy]%elem_of_cons; [exists x; split; [left|done]|]. destruct (IH Hy) as (x' & ? & ?). exists x'. split; [by right|done].
Qed.

Lemma mapM_index {A B} (f : A → option B) l k i x : mapM f l = Some k → l !! i = Some x → ∃ y, k !! i = Some y ∧ f x = Some y.
Proof. intros H%mapM_Some Hi. eapply Forall2_lookup_l in H as (y & ? & ?); [|exact Hi]. eauto. Qed.

Lemma mapM_index_r {A B} (f : A → option B) l k i y : mapM f l = Some k → k !! i = Some y → ∃ x, l !! i = Some x ∧ f x = Some y.
Proof. intros H%mapM_Some Hi. eapply Forall2_lookup_r in H as (x & ? & ?); [|exact Hi]. eauto. Qed.

Lemma read_signed_id ms s : smartAccessControlObject service_fields (JObj ms) = Some ms → read_signed (JObj ms) = Some s →
  field "service_id" ms ≫= (λ j, assign_string j "") = Some (s_ServiceID s) ∧
  field "domains" ms ≫= (λ j, assign_slice read_domain j []) = Some (s_Domains s).
Proof.
  intros Hc. unfold read_signed. cbn [struct_members mbind option_bind]. rewrite !(control_struct _ _ _ _ _ service_names Hc).
  assert (Hf : ∀ k, k ∈ service_fields → is_Some (field k ms)).
  { intros k Hk. apply control_object_spec in Hc as (Hn & _ & Hall). apply Hall, list_elem_of_fmap in Hk as ([k' v] & -> & Hin).
    exists v. by apply field_in. }
  destruct (Hf "service_id") as [j1 ->]; [apply (bool_decide_eq_true_1 _); by vm_compute|].
  destruct (Hf "domains") as [j2 ->]; [apply (bool_decide_eq_true_1 _); by vm_compute|]. cbn [mbind option_bind].
  destruct (assign_string j1 "") as [id|]; [|done]. cbn [mbind option_bind].
  destruct (assign_slice read_domain j2 []) as [ds|]; [|done]. by intros [= <-].
Qed.

(** The envelope read without verification gives what the signed text says: the
    dates and the services, the named one in its only place. *)
Lemma envelope_agrees ed envelopeJSON keysJSON digest text audience revision security sid now issuedAt expiresAt service payload :
  signed_text ed envelopeJSON keysJSON digest text →
  catalog_says text audience revision security sid now issuedAt expiresAt service → sid ≠ "" →
  unmarshal_envelope envelopeJSON = Some payload →
  p_IssuedAt payload = issuedAt ∧ p_ExpiresAt payload = expiresAt ∧
  ∃ s, read_signed (JObj service) = Some s ∧ s ∈ p_Services payload ∧ s_ServiceID s = sid ∧
    head (filter (λ x, s_ServiceID x = sid) (p_Services payload)) = Some s.
Proof.
  intros (e & _ & _ & _ & j & He & Hce & Hpay & Htext & _) (catalog & services & i & _ & _ & Hcat & Hcc & _ & _ & _ & _ & Hi & _ & Hx & _ & _ & Hs & Hsi & Hex & Hid & Hu) Hsid.
  unfold unmarshal_envelope. rewrite He. cbn [struct_members mbind option_bind]. rewrite (control_struct _ _ _ _ _ envelope_names Hce), Hpay.
  rewrite Hcat in Htext. injection Htext as <-. unfold assign_payload. cbn [struct_members mbind option_bind].
  rewrite !(control_struct _ _ _ _ _ catalog_names Hcc), Hi, Hx, Hs. cbn [assign_string assign_slice mbind option_bind].
  destruct (mapM read_signed services) as [ss|] eqn:Em; [|done]. intros [= <-]. cbn [p_IssuedAt p_ExpiresAt p_Services].
  split_and!; [done..|]. destruct (mapM_index _ _ _ _ _ Em Hsi) as (s & Hss & Hrs).
  assert (Hnames : ∀ ms s', smartAccessControlObject service_fields (JObj ms) = Some ms → read_signed (JObj ms) = Some s' →
    s_ServiceID s' = sid ↔ field "service_id" ms = Some (JStr sid)).
  { intros ms s' Hc Hr. destruct (read_signed_id ms s' Hc Hr) as [Hf _].
    destruct (field "service_id" ms) as [[]|]; cbn in Hf; try discriminate; injection Hf as <-; naive_solver. }
  rewrite Forall_lookup in Hex. destruct (Hex i _ Hsi) as (ms & [= <-] & Hc).
  assert (Hid' : s_ServiceID s = sid) by (by eapply Hnames).
  exists s. split_and!; try done; [by eapply list_elem_of_lookup_2|].
  assert (Huniq : ∀ k s', ss !! k = Some s' → s_ServiceID s' = sid → k = i).
  { intros k s' Hk Hs'. destruct (mapM_index_r _ _ _ _ _ Em Hk) as (x & Hxk & Hrx). destruct (Hex k x Hxk) as (ms' & -> & Hc').
    eapply Hu; [exact Hxk|]. exists ms'. split; [done|]. by eapply Hnames. }
  clear - Hss Hid' Huniq. revert i Hss Huniq. induction ss as [|y ss IH]; intros i Hss Huniq; [done|].
  rewrite filter_cons. destruct (decide (s_ServiceID y = sid)) as [Hy|Hy].
  - specialize (Huniq 0%nat y eq_refl Hy) as <-. by injection Hss as ->.
  - destruct i as [|i]; [cbn in Hss; injection Hss as ->; done|]. eapply (IH i); [done|]. intros k s' Hk Hs'.
    specialize (Huniq (S k) s' Hk Hs'). lia.
Qed.

(** ** The owners of the domains *)

Definition listed_domains (services : list signedService) : list (string * windowsDpiDomain) :=
  s ← services; (λ d, (s_ServiceID s, d)) <$> s_Domains s.

Definition identity_of (d : windowsDpiDomain) : string * string := (d_Match d, d_Name d).

Lemma domain_owners_flat services : domain_owners services = foldl (λ m p, own_domain1 p.1 m p.2) ∅ (listed_domains services).
Proof.
  unfold domain_owners, listed_domains. generalize (∅ : owners). induction services as [|s l IH]; intros m; [done|].
  cbn [mbind list_bind foldl]. rewrite foldl_app, <- IH. f_equal. clear. revert m. induction (s_Domains s) as [|d ds IH]; intros m; cbn; auto.
Qed.

(** A domain with an owner is listed by nobody else. *)
Lemma owners_spec services id owner : domain_owners services !! id = Some owner → owner ≠ "" →
  ∀ p, p ∈ listed_domains services → identity_of p.2 = id → p.1 = owner.
Proof.
  rewrite domain_owners_flat. set (l := listed_domains services).
  enough (H : (∀ p, p ∈ l → is_Some (foldl (λ m p, own_domain1 p.1 m p.2) ∅ l !! identity_of p.2)) ∧
    ∀ id owner, foldl (λ m p, own_domain1 p.1 m p.2) ∅ l !! id = Some owner → owner ≠ "" → ∀ p, p ∈ l → identity_of p.2 = id → p.1 = owner)
    by apply H.
  induction l as [|x l [IH1 IH2]] using rev_ind; [split; [set_solver|done]|]. rewrite foldl_app. cbn [foldl].
  set (m := foldl _ ∅ l) in *. unfold own_domain1. fold (identity_of x.2).
  destruct (m !! identity_of x.2) as [o|] eqn:E.
  - case_bool_decide as Ho.
    + split.
      * intros p [Hp| ->%list_elem_of_singleton]%elem_of_app; [by apply IH1|by rewrite E].
      * intros id' o' Hm Hne p [Hp| ->%list_elem_of_singleton]%elem_of_app Hid; [by eapply IH2|]. subst id'. congruence.
    + split.
      * intros p Hp. destruct (decide (identity_of x.2 = identity_of p.2)) as [Heq|Hn].
        { rewrite <- Heq, lookup_insert_eq. done. }
        rewrite lookup_insert_ne by done. apply elem_of_app in Hp as [Hp| ->%list_elem_of_singleton]; [by apply IH1|done].
      * intros id' o' Hm Hne p Hp Hid. destruct (decide (identity_of x.2 = id')) as [<-|Hn]; [rewrite lookup_insert_eq in Hm; congruence|].
        rewrite lookup_insert_ne in Hm by done. apply elem_of_app in Hp as [Hp| ->%list_elem_of_singleton]; [by eapply IH2|done].
  - split.
    + intros p Hp. destruct (decide (identity_of x.2 = identity_of p.2)) as [Heq|Hn].
      { rewrite <- Heq, lookup_insert_eq. done. }
      rewrite lookup_insert_ne by done. apply elem_of_app in Hp as [Hp| ->%list_elem_of_singleton]; [by apply IH1|done].
    + intros id' o' Hm Hne p Hp Hid. destruct (decide (identity_of x.2 = id')) as [<-|Hn].
      * rewrite lookup_insert_eq in Hm. injection Hm as <-. apply elem_of_app in Hp as [Hp| ->%list_elem_of_singleton]; [|done].
        destruct (IH1 p Hp) as [o Ho]. rewrite Hid, E in Ho. done.
      * rewrite lookup_insert_ne in Hm by done. apply elem_of_app in Hp as [Hp| ->%list_elem_of_singleton]; [by eapply IH2|done].
Qed.

(** ** The rules of a service *)

Lemma tags_no_empty l : ∀ m m', tags l m = Some m' → m !! "" = None → m' !! "" = None.
Proof.
  induction l as [|o l IH]; intros m m' H Hm; cbn [tags] in H; [by injection H as <-|]. destruct (_ || _) eqn:E; [done|]. bsplit.
  eapply IH; [exact H|]. by rewrite lookup_insert_ne.
Qed.

Section Rules.
Context (c : codecs) (metadata : windowsDpiMetadata) (payload : signedPayload) (byTag : gmap string raw_row) (finalTag : string).
Context (owned : owners) (Hempty : byTag !! "" = None).

Lemma protected_nonempty tag : ProtectedVPN c byTag tag = true → tag ≠ "".
Proof. intros H ->. unfold ProtectedVPN, protected_fuel in H. cbn [windowsDpiProtectedVPN] in H. by rewrite Hempty in H. Qed.

(** A rule that may be preceded by an override, for the domain [d] and the VPN [vpn]. *)
Definition overridable (sid vpn : string) (rule : raw_row) (d : windowsDpiDomain) : Prop :=
  catalog_rule payload sid rule = true ∧ rule_for owned sid rule d = true ∧ row_text "outbound" rule = vpn ∧
  ProtectedVPN c byTag vpn = true ∧ (w_Mode metadata = "smart_safe" → vpn = finalTag).

Definition scope_ok (sid : string) (domains : list windowsDpiDomain) (rules : list raw_row) (s : scope) : Prop :=
  ∃ hits : list (nat * windowsDpiDomain), matching s = hits.*1 ∧ sc_domains s = hits.*2 ∧
    Forall (λ h, h.2 ∈ domains ∧ ∃ rule, rules !! h.1 = Some rule ∧ overridable sid (fallback s) rule h.2) hits.

Lemma match_domain_ok sid domains rules i rule s d s' :
  rules !! i = Some rule → catalog_rule payload sid rule = true → d ∈ domains → scope_ok sid domains rules s →
  match_domain c metadata byTag finalTag owned sid i rule (Some s) d = Some s' → scope_ok sid domains rules s'.
Proof.
  intros Hi Hc Hd (hits & Hm & Hs & HF). unfold match_domain. cbn [mbind option_bind].
  destruct (negb (rule_for _ _ _ _)) eqn:Er; [intros [= <-]; by exists hits|]. destruct (_ || _) eqn:E; [done|]. intros [= <-]. bsplit.
  exists (hits ++ [(i, d)]). cbn [matching sc_domains fallback]. rewrite !fmap_app, Hm, Hs. split_and!; [done..|].
  apply Forall_app. split.
  - destruct hits as [|h hits]; [done|].
    assert (fallback s = row_text "outbound" rule) as <-; [|done].
    apply Forall_cons in HF as [(_ & r & _ & _ & _ & _ & Hp & _) _].
    apply protected_nonempty in Hp. rewrite bool_decide_eq_false_2 in * by done. cbn in *. by bsplit.
  - apply Forall_singleton. cbn. split; [done|]. exists rule. split; [done|]. unfold overridable. split_and!; try done. intros Hsm.
    match goal with H : bool_decide (w_Mode metadata = _) && _ = false |- _ => rewrite bool_decide_eq_true_2 in H by done; cbn in H end.
    by bsplit.
Qed.

Lemma match_rules_ok sid domains all : ∀ rules i s s', drop i all = rules → scope_ok sid domains all s →
  match_rules c metadata payload byTag finalTag owned sid domains i rules s = Some s' → scope_ok sid domains all s'.
Proof.
  induction rules as [|rule rules IH]; intros i s s' Hd Hs H; cbn [match_rules] in H; [by injection H as <-|].
  assert (Hi : all !! i = Some rule) by (rewrite <- (Nat.add_0_r i), <- lookup_drop, Hd; done).
  match type of H with (?x ≫= _) = _ => destruct x as [s1|] eqn:E1; [|done] end. cbn [mbind option_bind] in H.
  eapply (IH (S i)); [|clear H|exact H].
  { rewrite <- Nat.add_1_r, <- drop_drop, Hd. done. }
  destruct (catalog_rule payload sid rule) eqn:Ec; [|by injection E1 as <-].
  assert (Hsub : domains ⊆ domains) by done. revert Hsub E1. generalize domains at 1 3 as ds. intros ds. revert s Hs.
  induction ds as [|d ds IHd]; intros s Hs Hsub E1; cbn [foldl] in E1; [by injection E1 as <-|].
  destruct (match_domain _ _ _ _ _ _ _ _ (Some s) d) as [s2|] eqn:E2.
  - eapply IHd; [|set_solver|exact E1]. apply (match_domain_ok _ _ _ i rule s d); [exact Hi|exact Ec|set_solver|exact Hs|exact E2].
  - exfalso. clear -E1. induction ds; cbn in E1; [done|auto].
Qed.
End Rules.

(** ** The prepared profile *)

Lemma override_local tag pref rules idxs : ∀ p i x, (foldl (override tag pref rules) p idxs).1 !! i = Some x →
  p.1 !! i = Some x ∨ (i ∈ idxs ∧ ∃ rule, rules !! i = Some rule ∧ x = local_rule tag rule).
Proof.
  induction idxs as [|k idxs IH]; intros p i x H; cbn [foldl] in H; [by left|].
  apply IH in H as [H|[Hi H]]; [|right; split; [by right|done]]. unfold override in H.
  destruct (rules !! k) as [rule|] eqn:Ek; [|by left]. cbn [fst] in H. destruct (decide (k = i)) as [->|Hn].
  - rewrite lookup_insert_eq in H. injection H as <-. right. split; [left|]. by exists rule.
  - rewrite lookup_insert_ne in H by done. by left.
Qed.

Lemma override_quic tag pref rules idxs : ∀ p i x, (foldl (override tag pref rules) p idxs).2 !! i = Some x →
  p.2 !! i = Some x ∨ (i ∈ idxs ∧ pref = true ∧ ∃ rule, rules !! i = Some rule ∧ open_network rule = true ∧ x = quic_rule tag rule).
Proof.
  induction idxs as [|k idxs IH]; intros p i x H; cbn [foldl] in H; [by left|].
  apply IH in H as [H|[Hi H]]; [|right; split; [by right|done]]. unfold override in H.
  destruct (rules !! k) as [rule|] eqn:Ek; [|by left]. cbn [snd] in H. destruct (pref && open_network rule) eqn:Eo; [|by left].
  apply andb_true_iff in Eo as [-> Eo]. destruct (decide (k = i)) as [->|Hn].
  - rewrite lookup_insert_eq in H. injection H as <-. right. split_and!; [left|done|]. by exists rule.
  - rewrite lookup_insert_ne in H by done. by left.
Qed.

Section Profile.
Context (ed : bytes → bytes → bytes → bool) (c : codecs) (metadata : windowsDpiMetadata) (payload : signedPayload).
Context (byTag : gmap string raw_row) (finalTag : string) (keysJSON : bytes) (audience bindInterface : string).
Context (rules : list raw_row) (clock : nat → time).
Context (Hempty : byTag !! "" = None) (Henv : unmarshal_envelope (list_of_str (w_Envelope metadata)) = Some payload).

(** The domain is a row of the signed entry, its own, and no other service of the
    catalog lists it. *)
Definition sole_domain (sid : string) (service : list (string * json)) (d : windowsDpiDomain) : Prop :=
  (∃ domains j, field "domains" service = Some (JArr domains) ∧ j ∈ domains ∧ domain_json j d) ∧ d_Shared d = false ∧
  ∀ p, p ∈ listed_domains (p_Services payload) → identity_of p.2 = identity_of d → p.1 = sid.

(** A service of the profile: the catalog signed it for its control host at some
    reading of the clock, its domains are its own, and the control host is one. *)
Definition signed_service (s : windowsDpiService) : Prop :=
  OutboundTag s = local_tag (ServiceID s) ∧ byTag !! OutboundTag s = None ∧
  w_Services metadata !! ServiceID s = Some (ControlHost s) ∧
  (∃ k text service, signed_text ed (list_of_str (w_Envelope metadata)) keysJSON (w_Digest metadata) text ∧
     catalog_says text audience (w_Revision metadata) (w_SecurityRevision metadata) (ServiceID s) (clock k)
       (p_IssuedAt payload) (p_ExpiresAt payload) service ∧
     admits_host service (ServiceID s) (ControlHost s) (w_AccessState metadata) "windows" (w_Mode metadata) ∧
     Forall (sole_domain (ServiceID s) service) (Domains s)) ∧
  ∃ d, d ∈ Domains s ∧ d_Name d = ControlHost s ∧ d_Match d = "exact".

(** The local outbound of a service falls back to one VPN, all of whose paths end
    in protected exits. *)
Definition local_of (l : localOutbound) (s : windowsDpiService) : Prop :=
  l_tag l = OutboundTag s ∧ l_serviceID l = ServiceID s ∧ l_bindInterface l = bindInterface ∧
  l_preferTCP l = bool_decide (ServiceID s = "youtube") ∧ Grounded (vpn_node c byTag) (l_vpnOutbound l).

(** The rule belongs to the outbound [l] of [s]: a rule of the catalog window of [s]
    for one of its domains, to the VPN that [l] falls back to. *)
Definition overrides (l : localOutbound) (s : windowsDpiService) (rule : raw_row) : Prop :=
  ∃ d, d ∈ Domains s ∧
    overridable c metadata payload byTag finalTag (domain_owners (p_Services payload)) (ServiceID s) (l_vpnOutbound l) rule d.

Definition override_ok (p : dpi_prep) (i : nat) (x : raw_row) (quic : bool) : Prop :=
  ∃ k l s rule, locals p !! k = Some l ∧ services p !! k = Some s ∧ rules !! i = Some rule ∧ overrides l s rule ∧
    if quic then l_preferTCP l = true ∧ open_network rule = true ∧ x = quic_rule (OutboundTag s) rule
    else x = local_rule (OutboundTag s) rule.

Definition prep_ok (p : dpi_prep) : Prop :=
  Forall2 local_of (locals p) (services p) ∧ Forall signed_service (services p) ∧
  (∀ i x, localRules p !! i = Some x → override_ok p i x false) ∧ (∀ i x, quicRules p !! i = Some x → override_ok p i x true).

Lemma override_ok_app p l s local quic i x q : override_ok p i x q →
  override_ok (mkDpiPrep (locals p ++ [l]) local quic (services p ++ [s])) i x q.
Proof.
  intros (k & l0 & s0 & rule & Hl & Hs & H). exists k, l0, s0, rule. cbn. rewrite !lookup_app_l by (by eapply lookup_lt_Some). done.
Qed.

Lemma owned_sole sid rule d : rule_for (domain_owners (p_Services payload)) sid rule d = true → sid ≠ "" →
  d_Shared d = false ∧ ∀ p, p ∈ listed_domains (p_Services payload) → identity_of p.2 = identity_of d → p.1 = sid.
Proof.
  intros H Hsid. unfold rule_for in H. case_match. bsplit. split; [done|]. intros p Hp Hid.
  destruct (domain_owners (p_Services payload) !! (d_Match d, d_Name d)) as [o|] eqn:E; cbn in *; [|congruence]. subst o.
  by eapply owners_spec; [exact E| | |].
Qed.

(** The domains of a signed entry, as read without verification. *)
Lemma signed_domains service sid host state mode s d : smartAccessControlObject service_fields (JObj service) = Some service →
  admits_host service sid host state "windows" mode → read_signed (JObj service) = Some s → d ∈ s_Domains s →
  ∃ domains j, field "domains" service = Some (JArr domains) ∧ j ∈ domains ∧ domain_json j d.
Proof.
  intros Hc (_ & _ & _ & _ & _ & domains & Hd & _ & HF) Hr Hin. apply read_signed_id in Hr as [_ Hds]; [|done].
  rewrite Hd in Hds. cbn in Hds. destruct (mapM_elem _ _ _ _ Hds Hin) as (j & Hj & Hrd). exists domains, j. split_and!; try done.
  rewrite Forall_forall in HF. by destruct (read_domain_row j d (HF j Hj) Hrd).
Qed.

Lemma service_exact text rev sec sid now i e service : catalog_says text audience rev sec sid now i e service →
  smartAccessControlObject service_fields (JObj service) = Some service.
Proof.
  intros (catalog & services & k & _ & _ & _ & _ & _ & _ & _ & _ & _ & _ & _ & _ & _ & _ & Hk & HE & _).
  rewrite Forall_lookup in HE. destruct (HE k _ Hk) as (ms & [= <-] & H). done.
Qed.

Lemma prepare_dpi_service_ok k sid p p' : is_Some (w_Services metadata !! sid) → prep_ok p →
  prepare_dpi_service ed c metadata payload byTag finalTag (domain_owners (p_Services payload)) keysJSON audience bindInterface rules
    (clock k) sid p = Some p' → prep_ok p'.
Proof.
  intros [host Hhost] (Hl & Hs & Hlr & Hqr) H. unfold prepare_dpi_service in H. rewrite Hhost in H. cbn [default] in H.
  destruct (negb _) eqn:Ev in H; [done|]. bsplit. unfold VerifyWindowsLocalDpiCatalogMode in Ev.
  destruct (has_key (local_tag sid) byTag) eqn:Et; [done|]. apply bool_decide_eq_false, eq_None_not_Some in Et.
  match type of H with (?x ≫= _) = _ => destruct x as [sc|] eqn:Em; [|done] end. cbn [mbind option_bind] in H.
  destruct (length (matching sc) =? 0)%nat; [by injection H as <-|]. destruct (negb (existsb _ _)) eqn:Ex in H; [done|].
  apply negb_false_iff, existsb_exists in Ex as (d0 & Hd0 & [Hn0 Hm0]%andb_true_iff). apply bool_decide_eq_true in Hn0, Hm0.
  destruct (foldl _ _ _) as [local quic] eqn:Ef. injection H as <-.
  destruct (dpi_host_spec _ _ _ _ _ _ _ _ _ _ _ _ _ Ev) as (text & iss & exp & service & Hsig & Hsays & Hadm & Hmode & Hsid).
  destruct (envelope_agrees _ _ _ _ _ _ _ _ _ _ _ _ _ _ Hsig Hsays Hsid Henv) as (<- & <- & s0 & Hr0 & _ & _ & Hhead).
  rewrite Hhead in Em. cbn [from_option] in Em. change (id host) with host in *.
  apply (match_rules_ok c metadata payload byTag finalTag _ Hempty sid _ rules) in Em as (hits & Hma & Hdo & HF);
    [|done|by exists []].
  set (l := mkLocal _ _ _ _ _). set (s := mkDpiService _ _ _ _).
  assert (Hhit : ∀ i, i ∈ matching sc → ∃ rule, rules !! i = Some rule ∧ overrides l s rule).
  { intros i Hi. rewrite Hma in Hi. apply list_elem_of_fmap in Hi as ([i' d] & -> & Hin). rewrite Forall_forall in HF.
    destruct (HF _ Hin) as (_ & rule & Hrule & Ho). exists rule. split; [done|]. exists d. split; [|done].
    cbn. rewrite Hdo. by apply (list_elem_of_fmap_2 snd _ (i', d)). }
  assert (Hover : ∀ i rule, i ∈ matching sc → rules !! i = Some rule → overrides l s rule).
  { intros i rule Hi Hrule. destruct (Hhit i Hi) as (r & Hr & ?). congruence. }
  assert (Hlast : ∀ {A} (q : list A) x, (q ++ [x]) !! length q = Some x) by (intros; by apply list_lookup_middle).
  pose proof (Forall2_length _ _ _ Hl) as Hlen.
  split_and!; cbn [locals services localRules quicRules].
  - apply Forall2_app; [done|]. constructor; [|constructor]. split_and!; try done. cbn [l l_vpnOutbound].
    apply list_elem_of_In in Hd0. rewrite Hdo in Hd0. apply list_elem_of_fmap in Hd0 as (h & _ & Hin).
    rewrite Forall_forall in HF. destruct (HF _ Hin) as (_ & rule & _ & _ & _ & _ & Hp & _). by apply vpn_exact.
  - apply Forall_app. split; [done|]. apply Forall_singleton. split_and!; try done.
    + exists k, text, service. split_and!; try done. apply Forall_forall. intros d Hd. cbn [s Domains] in Hd. rewrite Hdo in Hd.
      apply list_elem_of_fmap in Hd as (h & -> & Hin). rewrite Forall_forall in HF. destruct (HF _ Hin) as (Hds & rule & _ & _ & Hrf & _).
      split; [|by eapply owned_sole]. eapply signed_domains; [by eapply service_exact|exact Hadm|exact Hr0|exact Hds].
    + exists d0. split_and!; [by apply list_elem_of_In|done|done].
  - intros i x Hx. pose proof (override_local (local_tag sid) (bool_decide (sid = "youtube")) rules (matching sc) (localRules p, quicRules p) i x) as Ho.
    rewrite Ef in Ho. destruct (Ho Hx) as [Hold|(Hi & rule & Hrule & ->)]; [by apply override_ok_app, Hlr|].
    exists (length (locals p)), l, s, rule. cbn [locals services]. rewrite Hlast, Hlen, Hlast. split_and!; try done. by eapply Hover.
  - intros i x Hx. pose proof (override_quic (local_tag sid) (bool_decide (sid = "youtube")) rules (matching sc) (localRules p, quicRules p) i x) as Ho.
    rewrite Ef in Ho. destruct (Ho Hx) as [Hold|(Hi & Hpref & rule & Hrule & Hopen & ->)]; [by apply override_ok_app, Hqr|].
    exists (length (locals p)), l, s, rule. cbn [locals services]. rewrite Hlast, Hlen, Hlast. split_and!; try done. by eapply Hover.
Qed.

Lemma prepare_dpi_services_ok ids : (∀ sid, sid ∈ ids → is_Some (w_Services metadata !! sid)) → ∀ k p p', prep_ok p →
  prepare_dpi_services ed c metadata payload byTag finalTag (domain_owners (p_Services payload)) keysJSON audience bindInterface rules
    clock k ids p = Some p' → prep_ok p'.
Proof.
  induction ids as [|sid ids IH]; intros Hids k p p' Hp H; cbn [prepare_dpi_services] in H; [by injection H as <-|].
  match type of H with (?x ≫= _) = _ => destruct x as [p1|] eqn:E1; [|done] end. cbn [mbind option_bind] in H.
  eapply (IH ltac:(intros; apply Hids; by right) (S k)); [|exact H].
  eapply prepare_dpi_service_ok; [apply Hids; left|exact Hp|exact E1].
Qed.
End Profile.

(** The parts of a profile that preparation reads. *)
Definition dpi_parts (configJSON : bytes) (metadata : windowsDpiMetadata) (payload : signedPayload) (outbounds rules : list raw_row)
    (byTag : gmap string raw_row) (finalTag : string) : Prop :=
  ∃ config hostMeta route, raw_map configJSON = Some config ∧ raw_map (row_get "_meta" config) = Some hostMeta ∧
    unmarshal_dpi_metadata (row_get "local_dpi" hostMeta) = Some metadata ∧
    unmarshal_envelope (list_of_str (w_Envelope metadata)) = Some payload ∧
    raw_maps (row_get "outbounds" config) = Some outbounds ∧ raw_map (row_get "route" config) = Some route ∧
    raw_maps (row_get "rules" route) = Some rules ∧ tags outbounds ∅ = Some byTag ∧ finalTag = row_text "final" route.

(** C14: A prepared Windows profile adds only overrides that the catalog signed.
    Every service it lists was signed, current and admitted for its control host
    and this platform, by a pinned key; its domains are rows of the signed entry,
    not shared and listed by no other service of the catalog, although they were
    read from the envelope without verification; the control host is one of them.
    Its outbound falls back to one VPN all of whose paths end in protected exits.
    The rules are the old ones, in order and unchanged; what is added stands
    directly before a rule of that service's own catalog window, for exactly one
    of its domains, without lease or wider selector, that goes to the same VPN, and
    is a copy of it for IPv4 (or, for the one service that asks for TCP, for
    QUIC) with the service's outbound.  The default route is direct in the
    selective mode and otherwise protected and the same VPN. *)
Theorem windows_profile_exact ed c windows configJSON keysJSON audience bindInterface clock r :
  PrepareWindowsLocalDpiProfile ed c windows configJSON keysJSON audience bindInterface clock = Ok r →
  ∃ metadata payload outbounds rules byTag finalTag extra,
    dpi_parts configJSON metadata payload outbounds rules byTag finalTag ∧ final_ok c metadata byTag finalTag = true ∧
    wp_outbounds r = outbounds ∧ wp_Services r ≠ [] ∧ wp_ExpiresAt r = p_ExpiresAt payload ∧
    Forall2 (local_of c byTag bindInterface) (wp_locals r) (wp_Services r) ∧
    Forall (signed_service ed metadata payload byTag keysJSON audience clock) (wp_Services r) ∧
    wp_rules r = concat (imap (λ i rule, extra i ++ [rule]) rules) ∧
    ∀ i x, x ∈ extra i → ∃ k l s rule,
      wp_locals r !! k = Some l ∧ wp_Services r !! k = Some s ∧ rules !! i = Some rule ∧
      overrides c metadata payload byTag finalTag l s rule ∧
      (x = local_rule (OutboundTag s) rule ∨
       (x = quic_rule (OutboundTag s) rule ∧ ServiceID s = "youtube" ∧ open_network rule = true)).
Proof.
  unfold PrepareWindowsLocalDpiProfile. destruct (_ || _); [done|].
  destruct (raw_map configJSON) as [config|] eqn:Ec; [|done]. cbn [mbind option_bind].
  destruct (raw_map (row_get "_meta" config)) as [hostMeta|] eqn:Em; [|done]. cbn [mbind option_bind].
  destruct (unmarshal_dpi_metadata _) as [metadata|] eqn:Er; [|done]. cbn [mbind option_bind]. destruct (_ || _); [done|].
  destruct (unmarshal_envelope _) as [payload|] eqn:Ep; [|done]. cbn [mbind option_bind].
  destruct (raw_maps (row_get "outbounds" config)) as [outbounds|] eqn:Eo; [|done]. cbn [mbind option_bind].
  destruct (raw_map (row_get "route" config)) as [route|] eqn:Et; [|done]. cbn [mbind option_bind].
  destruct (raw_maps (row_get "rules" route)) as [rules|] eqn:Eu; [|done]. cbn [mbind option_bind].
  destruct (_ && _); [done|]. destruct (tags outbounds ∅) as [byTag|] eqn:Eb; [|done]. cbn [mbind option_bind].
  destruct (final_ok _ _ _ _) eqn:Ef; [|done]. cbn [negb].
  match goal with |- context [prepare_dpi_services ed c metadata payload byTag ?f ?o ?k ?a ?b ?u ?cl 0 ?ids ?p0] =>
    destruct (prepare_dpi_services ed c metadata payload byTag f o k a b u cl 0 ids p0) as [p|] eqn:Es; [|done] end.
  cbn [mbind option_bind]. destruct (length (services p) =? 0)%nat eqn:El; [done|]. intros [= <-].
  apply prepare_dpi_services_ok in Es as (Hl & Hs & Hlr & Hqr); [|by eapply tags_no_empty|done| |].
  2:{ intros sid. rewrite merge_sort_Permutation. intros ([k v] & -> & Hin)%list_elem_of_fmap. apply elem_of_map_to_list in Hin. by exists v. }
  2:{ split_and!; try done; constructor. }
  exists metadata, payload, outbounds, rules, byTag, (row_text "final" route),
    (λ i, option_list (quicRules p !! i) ++ option_list (localRules p !! i)).
  cbn [wp_outbounds wp_locals wp_rules wp_ExpiresAt wp_Services]. split_and!; try done.
  - by exists config, hostMeta, route.
  - by destruct (services p).
  - unfold prepared_rules. f_equal. apply imap_ext. intros i rule _. by rewrite app_assoc.
  - intros i x [Hx|Hx]%elem_of_app.
    + destruct (quicRules p !! i) as [y|] eqn:E; [|by apply not_elem_of_nil in Hx]. apply list_elem_of_singleton in Hx as ->.
      destruct (Hqr i y E) as (k & l & s & rule & Hk & Hks & Hr & Ho & Hpref & Hopen & ->).
      exists k, l, s, rule. split_and!; try done. right. split_and!; try done.
      eapply Forall2_lookup_lr in Hl as (_ & _ & _ & Hp & _); [|exact Hk|exact Hks]. rewrite Hp in Hpref. by bsplit.
    + destruct (localRules p !! i) as [y|] eqn:E; [|by apply not_elem_of_nil in Hx]. apply list_elem_of_singleton in Hx as ->.
      destruct (Hlr i y E) as (k & l & s & rule & Hk & Hks & Hr & Ho & ->). exists k, l, s, rule. split_and!; try done. by left.
Qed.

(** ** A prepared profile *)

Definition ex_codecs : codecs :=
  mkCodecs (λ _, None) (λ _, None) (λ _, None) (λ _, None) (λ _, None) (λ _, false) (λ _ _, false) (λ _, None).

Definition ex_dpi_config : bytes := Eval vm_compute in print (JObj
  [("_meta", JObj [("local_dpi", JObj
      [("mode", JStr "selective"); ("platform", JStr "windows");
       ("catalog_envelope", JStr (str_of_list (ex_envelope ex_dpi_catalog))); ("catalog_sha256", JStr (ex_digest ex_dpi_catalog));
       ("revision", JNum "7"); ("security_revision", JNum "3"); ("access_state", JStr "paid_unlimited");
       ("services", JObj [("youtube", JStr "www.youtube.com")])])]);
   ("outbounds", JArr [JObj [("type", JStr "direct"); ("tag", JStr "d")];
                       JObj [("type", JStr "hysteria2"); ("tag", JStr "h")];
                       JObj [("type", JStr "selector"); ("tag", JStr "vpn"); ("outbounds", JArr [JStr "h"])]]);
   ("route", JObj [("final", JStr "d"); ("rules", JArr
      [JObj [("action", JStr "sniff")];
       JObj [("domain", JArr [JStr "www.youtube.com"]); ("action", JStr "route"); ("outbound", JStr "vpn");
             ("pokrov_catalog_window", JObj [("service_id", JStr "youtube"); ("issued_at", JStr "2026-01-01T00:00:00Z");
                                             ("expires_at", JStr "2026-01-02T00:00:00Z")])]])])]).

Abbreviation ex_dpi_prepare :=
  (PrepareWindowsLocalDpiProfile ex_verify ex_codecs true ex_dpi_config ex_keys "lab" "eth0" (λ _, ex_time 600)).

(** The rule for QUIC and the rule for IPv4 stand before the VPN rule. *)
Example ex_dpi_rules :
  match ex_dpi_prepare with
  | Ok r => (λ m, (row_text "outbound" m, str_of_list (row_get "ip_version" m), row_text "network" m)) <$> wp_rules r
  | Err _ => []
  end = [("", "", ""); ("pokrov-local-dpi-youtube", "", "udp"); ("pokrov-local-dpi-youtube", "4", ""); ("vpn", "", "")].
Proof. vm_compute. reflexivity. Qed.

Lemma ok_inv {E A} (x : result E A) : is_ok x = true → ∃ a, x = Ok a.
Proof. destruct x as [a|]; [by exists a|done]. Qed.

Lemma windows_profile_exact_witness :
  is_ok ex_dpi_prepare = true ∧
  ∃ metadata payload outbounds rules byTag finalTag, dpi_parts ex_dpi_config metadata payload outbounds rules byTag finalTag.
Proof.
  assert (Hok : is_ok ex_dpi_prepare = true) by (vm_compute; reflexivity).
  split; [exact Hok|].
  destruct (ok_inv _ Hok) as [r H].
  destruct (windows_profile_exact _ _ _ _ _ _ _ _ _ H) as (metadata & payload & outbounds & rules & byTag & finalTag & _ & Hp & _).
  exists metadata, payload, outbounds, rules, byTag, finalTag. exact Hp.
Defined.
