(* ===== verification/DnsTunnel.v ===== *)
(** * The DNS tunnel

    [protocol/pokrov/dnstt/dns_packet.go] and [outbound.go].  Packets travel to the
    server as base32 labels of DNS questions and come back as length-prefixed
    pieces of TXT records; the outbound keeps one session with the server behind a
    gate.  The DNS message format, KCP, Noise and smux are libraries: here their
    outcomes are arguments. *)

From stdpp Require Import base list strings gmap.
From Stdlib Require Import ZArith Lia Ascii.
From S2P Require Import Prelude GoTime GoBytes GoJson.

Local Open Scope Z_scope.
Set Default Goal Selector "!".

(** ** base32 without padding, in lower case *)

Definition b32_char (x : Z) : ascii := if x <? 26 then byte_of (97 + x) else byte_of (24 + x).
Definition b32_val (c : ascii) : option Z :=
  let x := byte_val c in
  if (97 <=? x) && (x <=? 122) then Some (x - 97) else if (50 <=? x) && (x <=? 55) then Some (x - 24) else None.

(** The first [n] digits of a group of five bytes. *)
Definition b32_digits (n : nat) (v : Z) : bytes := (λ i : nat, b32_char (v / 2 ^ (35 - 5 * Z.of_nat i) mod 32)) <$> seq 0 n.

(** [base32.StdEncoding.WithPadding(base32.NoPadding).EncodeToString], lowered. *)
Fixpoint b32_encode (b : bytes) : bytes :=
  match b with
  | [] => []
  | [a] => b32_digits 2 (be_val [a] * 2 ^ 32)
  | [a; b] => b32_digits 4 (be_val [a; b] * 2 ^ 24)
  | [a; b; c] => b32_digits 5 (be_val [a; b; c] * 2 ^ 16)
  | [a; b; c; d] => b32_digits 7 (be_val [a; b; c; d] * 2 ^ 8)
  | a :: b :: c :: d :: e :: r => b32_digits 8 (be_val [a; b; c; d; e]) ++ b32_encode r
  end.

(** ** Queries *)

Definition queryCapacity : Z := 224.

(** [payload]: the client, padding and, unless it is a poll, the packet. *)
Definition query_payload (packet id padding : bytes) : bytes :=
  id ++ byte_of (224 + blen padding) :: padding ++ (if 0 <? blen packet then byte_of (blen packet) :: packet else []).
Definition padding_size (packet : bytes) : Z := if blen packet =? 0 then 8 else 3.

(** Labels of at most 63 characters; fuel for every character. *)
Fixpoint cut_labels (fuel : nat) (encoded : bytes) : list bytes :=
  match fuel, encoded with
  | S fuel, _ :: _ => take 63 encoded :: cut_labels fuel (drop 63 encoded)
  | _, _ => []
  end.
Definition query_labels (payload : bytes) : list bytes :=
  let encoded := b32_encode payload in cut_labels (length encoded) encoded.

Record Message (Name : Type) := mkMessage { ID : Z; Flags : Z; Question : list (Name * Z * Z); Additional : list (Z * Z) }.
Arguments mkMessage {Name}.

Section Query.
(** The DNS library: [dns.NewName] and [Message.WireFormat]. *)
Context {Name : Type} (NewName : list bytes → option Name) (WireFormat : Message Name → option bytes).

(** [random n] and [queryID] are bytes of the random source, [None] when it fails. *)
Definition encodeQuery (packet id : bytes) (domain : list bytes) (random : Z → option bytes) (queryID : option bytes)
    : result string bytes :=
  if queryCapacity <=? blen packet then Err "dnstt packet exceeds query capacity"
  else match random (padding_size packet) with
       | None => Err "random"
       | Some padding =>
           match NewName (query_labels (query_payload packet id padding) ++ domain) with
           | None => Err "name"
           | Some name =>
               match queryID with
               | None => Err "random"
               | Some q =>
                   match WireFormat (mkMessage (be_val q) 256 [(name, 16, 1)] [(41, 4096)]) with
                   | Some wire => Ok wire
                   | None => Err "wire"
                   end
               end
           end
       end.
End Query.

(** ** Answers *)

(** The pieces of a payload; one that is cut short ends the reading.  Fuel for
    every byte. *)
Fixpoint read_pieces (fuel : nat) (payload : bytes) : list bytes :=
  match fuel, payload with
  | S fuel, h :: l :: rest =>
      let size := Z.to_nat (be_val [h; l]) in
      if (length rest <? size)%nat then [] else take size rest :: read_pieces fuel (drop size rest)
  | _, _ => []
  end.

(** What the library read from an answer: flags, answers with whether their name
    is under the domain, their type, and their text when it can be decoded. *)
Record answer := mkAnswer { a_Under : bool; a_Type : Z; a_Text : option bytes }.
Record response := mkResponse { r_Flags : Z; r_Answer : list answer }.

(** The packets an answer carries; nothing when it is not an answer for us. *)
Definition receive (r : option response) : list bytes :=
  match r with
  | None => []
  | Some r =>
      match r_Answer r with
      | [a] =>
          if negb (Z.land (r_Flags r) 0x800f =? 0x8000) || negb (a_Under a) || negb (a_Type a =? 16) then []
          else match a_Text a with Some payload => read_pieces (length payload) payload | None => [] end
      | _ => []
      end
  end.

(** ** The loops

    [polls]: the tokens in the channel of capacity 16; [incoming]: the packets
    handed to the session. *)
Record loops := mkLoops { polls : nat; incoming : list bytes; delay : Z; stopped : bool; sent : list bytes }.
#[export] Instance eta_loops : Eta loops := λ s, mkLoops (polls s) (incoming s) (delay s) (stopped s) (sent s).

Definition minDelay : Z := 500 * Millisecond.
Definition maxDelay : Z := 10 * Second.

(** One datagram of [recvLoop]; [None]: the socket failed. *)
Definition recv_step (datagram : option (option response)) (s : loops) : loops :=
  match datagram with
  | None => s <| stopped := true |>
  | Some r => foldl (λ s p, s <| incoming ::= (λ q, q ++ [p]) |> <| polls := Nat.min 16 (S (polls s)) |>) s (receive r)
  end.

(** What the selection of [sendLoop] took. *)
Inductive wake := WDone | WPacket (p : bytes) | WPoll | WTimer.

(** One turn of [sendLoop]; [query] is [encodeQuery] with this turn's random bytes
    and [written] whether the socket took it. *)
Definition send_step (w : wake) (query : bytes → option bytes) (written : bool) (s : loops) : loops :=
  match w with
  | WDone => s
  | _ =>
      let packet := match w with WPacket p => p | _ => [] end in
      let s := match w with WPoll => s <| polls := Nat.pred (polls s) |> | _ => s end in
      let s := if 0 <? blen packet then s <| polls := Nat.pred (polls s) |> else s in
      let s := s <| delay := match w with WTimer => Z.min (2 * delay s) maxDelay | _ => minDelay end |> in
      match query packet with
      | None => s <| stopped := true |>
      | Some q => if written then s <| sent ::= (λ l, l ++ [q]) |> else s <| stopped := true |>
      end
  end.

(** ** What the server reads

    The other end of the format: [b32_decode] and [read_query] are the reader of
    the protocol, not code of this repository. *)

Definition digits_num (l : list Z) : Z := foldl (λ a d, 32 * a + d) 0 l.
Fixpoint b32_groups (l : list Z) : option bytes :=
  match l with
  | [] => Some []
  | [a; b] => Some (be_put 1 (digits_num [a; b] / 2 ^ 2))
  | [a; b; c; d] => Some (be_put 2 (digits_num [a; b; c; d] / 2 ^ 4))
  | [a; b; c; d; e] => Some (be_put 3 (digits_num [a; b; c; d; e] / 2 ^ 1))
  | [a; b; c; d; e; f; g] => Some (be_put 4 (digits_num [a; b; c; d; e; f; g] / 2 ^ 3))
  | a :: b :: c :: d :: e :: f :: g :: h :: r => t ← b32_groups r; Some (be_put 5 (digits_num [a; b; c; d; e; f; g; h]) ++ t)
  | _ => None
  end.
Definition b32_decode (b : bytes) : option bytes := mapM b32_val b ≫= b32_groups.

(** Padding is skipped, packets are collected. *)
Fixpoint read_parts (fuel : nat) (b : bytes) : option (list bytes) :=
  match fuel, b with
  | _, [] => Some []
  | O, _ => None
  | S fuel, c :: r =>
      let n := byte_val c in
      if 224 <=? n then if (length r <? Z.to_nat (n - 224))%nat then None else read_parts fuel (drop (Z.to_nat (n - 224)) r)
      else if (length r <? Z.to_nat n)%nat then None
           else l ← read_parts fuel (drop (Z.to_nat n) r); Some (take (Z.to_nat n) r :: l)
  end.
Definition read_query (labels : list bytes) : option (bytes * list bytes) :=
  b ← b32_decode (concat labels);
  parts ← read_parts (length b) (drop 8 b);
  Some (take 8 b, parts).

(** *** base32 *)

Lemma b32_char_val d : 0 ≤ d < 32 → b32_val (b32_char d) = Some d.
Proof.
  intros H. unfold b32_val, b32_char. destruct (d <? 26) eqn:E; rewrite byte_val_of, wrap_small by lia.
  - rewrite bool_true_if by lia. f_equal. lia.
  - rewrite bool_false_if, bool_true_if by lia. f_equal. lia.
Qed.

Definition digit_at (v : Z) (i : nat) : Z := v / 2 ^ (35 - 5 * Z.of_nat i) mod 32.

Lemma digits_vals n v : mapM b32_val (b32_digits n v) = Some (digit_at v <$> seq 0 n).
Proof.
  apply mapM_Some. unfold b32_digits. generalize (seq 0 n) as l. intros l. induction l as [|i l IH]; cbn; constructor; [|done].
  apply b32_char_val. by apply Z.mod_pos_bound.
Qed.

Lemma digits_num_snoc l d : digits_num (l ++ [d]) = 32 * digits_num l + d.
Proof. unfold digits_num. by rewrite foldl_app. Qed.

(** The first digits are the high bits. *)
Lemma digits_num_high n v : (n ≤ 8)%nat → 0 ≤ v < 2 ^ 40 → digits_num (digit_at v <$> seq 0 n) = v / 2 ^ (40 - 5 * Z.of_nat n).
Proof.
  intros Hn Hv. induction n as [|n IH].
  - cbn. change (40 - 5 * Z.of_nat 0) with 40. rewrite Z.div_small; lia.
  - rewrite seq_S, fmap_app. change (digit_at v <$> [(0 + n)%nat]) with [digit_at v n]. rewrite digits_num_snoc, IH by lia. unfold digit_at.
    replace (40 - 5 * Z.of_nat n) with (35 - 5 * Z.of_nat n + 5) by lia.
    replace (40 - 5 * Z.of_nat (S n)) with (35 - 5 * Z.of_nat n) by lia.
    rewrite Z.pow_add_r, <- Z.div_div by lia. change (2 ^ 5) with 32. symmetry. apply Z.div_mod. lia.
Qed.

(** The bytes of a group come back. *)
Lemma group_back k n v sh : (n ≤ 8)%nat → 0 ≤ v < 2 ^ (8 * Z.of_nat k) → 0 ≤ sh → 0 ≤ 8 * Z.of_nat k ≤ 40 →
  40 - 5 * Z.of_nat n + sh = 40 - 8 * Z.of_nat k →
  digits_num (digit_at (v * 2 ^ (40 - 8 * Z.of_nat k)) <$> seq 0 n) / 2 ^ sh = v.
Proof.
  intros Hn Hv Hsh Hk He. rewrite digits_num_high; [|done|].
  - rewrite Z.div_div by (apply Z.pow_nonzero || apply Z.pow_pos_nonneg; lia).
    rewrite <- Z.pow_add_r by lia. replace (40 - 5 * Z.of_nat n + sh) with (40 - 8 * Z.of_nat k) by lia.
    apply Z.div_mul. apply Z.pow_nonzero; lia.
  - replace (2 ^ 40) with (2 ^ (8 * Z.of_nat k) * 2 ^ (40 - 8 * Z.of_nat k)); [|rewrite <- Z.pow_add_r by lia; f_equal; lia].
    assert (0 < 2 ^ (40 - 8 * Z.of_nat k)) by (apply Z.pow_pos_nonneg; lia). nia.
Qed.

Lemma mapM_app {A B} (f : A → option B) l k : mapM f (l ++ k) = x ← mapM f l; y ← mapM f k; Some (x ++ y).
Proof.
  induction l as [|a l IH]; cbn; [by destruct (mapM f k)|]. destruct (f a); [|done]. cbn. rewrite IH.
  destruct (mapM f l); [|done]. cbn. by destruct (mapM f k).
Qed.

Lemma b32_decode_app x y : b32_decode (b32_digits 8 x ++ y) = t ← b32_decode y; Some (be_put 5 (digits_num (digit_at x <$> seq 0 8)) ++ t).
Proof.
  unfold b32_decode. rewrite mapM_app, digits_vals. cbn [mbind option_bind]. destruct (mapM b32_val y) as [l|]; done.
Qed.

Lemma b32_roundtrip b : b32_decode (b32_encode b) = Some b.
Proof.
  remember (length b) as n eqn:Hn. revert b Hn. induction (lt_wf n) as [n _ IH]. intros b ->.
  destruct b as [|b1 [|b2 [|b3 [|b4 [|b5 r]]]]]; [done| | | | |].
  1-4: cbn [b32_encode]; unfold b32_decode; rewrite digits_vals; cbn [mbind option_bind seq fmap list_fmap b32_groups].
  - pose proof (be_val_range [b1]) as Hr. pose proof (group_back 1 2 (be_val [b1]) 2) as H.
    cbn [seq fmap list_fmap] in H. change (40 - 8 * Z.of_nat 1) with 32 in H. rewrite H by (exact Hr || lia). f_equal. apply (be_put_val [b1]).
  - pose proof (be_val_range [b1; b2]) as Hr. pose proof (group_back 2 4 (be_val [b1; b2]) 4) as H.
    cbn [seq fmap list_fmap] in H. change (40 - 8 * Z.of_nat 2) with 24 in H. rewrite H by (exact Hr || lia). f_equal. apply (be_put_val [b1; b2]).
  - pose proof (be_val_range [b1; b2; b3]) as Hr. pose proof (group_back 3 5 (be_val [b1; b2; b3]) 1) as H.
    cbn [seq fmap list_fmap] in H. change (40 - 8 * Z.of_nat 3) with 16 in H. rewrite H by (exact Hr || lia). f_equal. apply (be_put_val [b1; b2; b3]).
  - pose proof (be_val_range [b1; b2; b3; b4]) as Hr. pose proof (group_back 4 7 (be_val [b1; b2; b3; b4]) 3) as H.
    cbn [seq fmap list_fmap] in H. change (40 - 8 * Z.of_nat 4) with 8 in H. rewrite H by (exact Hr || lia). f_equal. apply (be_put_val [b1; b2; b3; b4]).
  - cbn [b32_encode]. rewrite b32_decode_app, (IH (length r)) by (cbn [length]; lia || done). cbn [mbind option_bind].
    pose proof (be_val_range [b1; b2; b3; b4; b5]) as Hr.
    rewrite digits_num_high by (exact Hr || lia). change (2 ^ (40 - 5 * Z.of_nat 8)) with 1. rewrite Z.div_1_r.
    change 5%nat with (length [b1; b2; b3; b4; b5]). by rewrite be_put_val.
Qed.

(** *** Labels *)

Lemma cut_labels_spec fuel b : (length b ≤ fuel)%nat →
  concat (cut_labels fuel b) = b ∧ Forall (λ l, 1 ≤ length l ≤ 63)%nat (cut_labels fuel b).
Proof.
  revert b. induction fuel as [|fuel IH]; intros b Hl; [destruct b; [done|cbn in Hl; lia]|].
  destruct b as [|c r] eqn:Eb; [done|]. rewrite <- Eb in *. assert (Hlen : (1 ≤ length b)%nat) by (rewrite Eb; cbn; lia).
  assert (cut_labels (S fuel) b = take 63 b :: cut_labels fuel (drop 63 b)) as -> by (by rewrite Eb).
  destruct (IH (drop 63 b)) as [H1 H2]; [rewrite length_drop; lia|]. split.
  - cbn [concat]. by rewrite H1, take_drop.
  - constructor; [rewrite length_take; lia|done].
Qed.

(** *** Parts *)

Lemma read_parts_padding fuel padding r : blen padding < 32 →
  read_parts (S fuel) (byte_of (224 + blen padding) :: padding ++ r) = read_parts fuel r.
Proof.
  intros H. cbn [read_parts]. assert (0 ≤ blen padding) by (unfold blen; lia). rewrite byte_val_of, wrap_small by lia.
  rewrite bool_true_if by lia. replace (224 + blen padding - 224) with (blen padding) by lia. unfold blen. rewrite Nat2Z.id.
  rewrite length_app, (proj2 (Nat.ltb_ge _ _)) by lia. by rewrite drop_app_length.
Qed.

Lemma read_parts_packet fuel packet : 0 < blen packet < 224 →
  read_parts (S fuel) (byte_of (blen packet) :: packet) = Some [packet].
Proof.
  intros H. cbn [read_parts]. rewrite byte_val_of, wrap_small by lia. rewrite bool_false_if by lia. unfold blen. rewrite Nat2Z.id.
  rewrite (proj2 (Nat.ltb_ge _ _)) by lia. rewrite drop_all, firstn_all. by destruct fuel.
Qed.

(** ** The session behind the gate *)

(** The resources of a session that is being or has been set up: the packet
    connection, KCP, and the multiplexer once there is one. *)
Record session := mkSession { packet_open : bool; kcp_open : bool; mux_open : bool; once_done : bool }.

(** [ctxDone]: the outbound was cancelled; [current]: the session under the gate. *)
Record tunnel := mkTunnel { sessions : gmap nat session; current : option nat; ctxDone : bool; streams : gset nat }.
#[export] Instance eta_tunnel : Eta tunnel := λ t, mkTunnel (sessions t) (current t) (ctxDone t) (streams t).

(** [tunnelSession.Close] *)
Definition close_session (s : session) : session := if once_done s then s else mkSession false false false true.
Definition Close_session (k : nat) (t : tunnel) : tunnel := t <| sessions ::= alter close_session k |>.

(** Where [connect] ends. *)
Inductive connected := NoSocket | NoConn | BadMTU | NoNoise | NoMux | Cancelled | Connected (raced : bool).

(** [connect]: a session under a fresh key, as it is left.  [raced]: the context
    ended after the last test and closed the packet connection. *)
Definition connect (k : nat) (r : connected) (t : tunnel) : bool * tunnel :=
  match r with
  | NoSocket => (false, t)
  | NoConn | BadMTU => (false, t <| sessions ::= <[k := mkSession false false false false]> |>)
  | NoNoise | NoMux => (false, Close_session k (t <| sessions ::= <[k := mkSession true true false false]> |>))
  | Cancelled => (false, Close_session k (t <| sessions ::= <[k := mkSession true true true false]> |>))
  | Connected raced => (true, t <| sessions ::= <[k := mkSession (negb raced) (negb raced) true false]> |>)
  end.

(** [session.closed()] *)
Definition session_closed (s : session) : bool := negb (packet_open s) || negb (mux_open s).

(** How the opening of a stream ends; a stream that arrives after the caller
    gave up is closed. *)
Inductive opened := StreamOk (n : nat) | StreamErr | CallerGone.

Inductive dialed := Stream (n : nat) | DialErr (e : string).

(** The part of [DialContext] that holds the gate.  [callerDone]: the caller's
    context is over. *)
Definition DialContext (k : nat) (callerDone : bool) (r : connected) (o : opened) (t : tunnel) : dialed * tunnel :=
  if ctxDone t then (DialErr "closed", t)
  else if callerDone then (DialErr "context", t)
  else
    let t := match current t with
             | Some c => if default true (session_closed <$> sessions t !! c)
                         then Close_session c t <| current := None |> else t
             | None => t
             end in
    let '(ok, t) := match current t with
                    | Some c => (Some c, t)
                    | None => let '(ok, t) := connect k r t in
                              if ok then (Some k, t <| current := Some k |>) else (None, t)
                    end in
    match ok with
    | None => (DialErr "connect", t)
    | Some c =>
        match o with
        | StreamOk n => (Stream n, t <| streams ::= union {[n]} |>)
        | StreamErr => (DialErr "stream", Close_session c t <| current := None |>)
        | CallerGone => (DialErr "context", t)
        end
    end.

(** The part of [Close] that holds the gate. *)
Definition Close_gate (t : tunnel) : tunnel :=
  match current t with
  | Some c => Close_session c t <| current := None |>
  | None => t
  end.
(** [h.cancel()] *)
Definition cancel (t : tunnel) : tunnel := t <| ctxDone := true |>.

(** A worker of the packet connection or the multiplexer ends by itself. *)
Definition dies (k : nat) (mux : bool) (t : tunnel) : tunnel :=
  t <| sessions ::= alter (λ s, if mux then mkSession (packet_open s) (kcp_open s) false (once_done s)
                                else mkSession false (kcp_open s) (mux_open s) (once_done s)) k |>.

Inductive tstep : tunnel → tunnel → Prop :=
| t_dial t k callerDone r o : sessions t !! k = None → tstep t (DialContext k callerDone r o t).2
| t_cancel t : tstep t (cancel t)
| t_close t : ctxDone t = true → tstep t (Close_gate t)
| t_dies t k mux : tstep t (dies k mux t).

Definition initial : tunnel := mkTunnel ∅ None false ∅.

Definition released (s : session) : Prop := packet_open s = false ∧ kcp_open s = false ∧ mux_open s = false.

(** Every session but the current one has been released; the current one has not
    been closed by us. *)
Definition inv (t : tunnel) : Prop :=
  (∀ k s, sessions t !! k = Some s → current t ≠ Some k → released s) ∧
  (∀ k, current t = Some k → ∃ s, sessions t !! k = Some s ∧ once_done s = false).

Lemma close_released s : once_done s = false → released (close_session s).
Proof. intros H. unfold close_session. by rewrite H. Qed.

Lemma inv_drop t k : inv t → current t = Some k → inv (Close_session k t <| current := None |>).
Proof.
  intros [H1 H2] Hc. destruct (H2 k Hc) as (s & Hs & Ho). split; cbn; [|done]. intros k' s' Hs' _. case_key k k'; intros.
  - rewrite lookup_alter_eq, Hs in Hs'. injection Hs' as <-. by apply close_released.
  - rewrite lookup_alter_ne in Hs' by done. eapply H1; [exact Hs'|]. congruence.
Qed.

Lemma inv_fresh t k s : inv t → sessions t !! k = None → released s → inv (t <| sessions ::= <[k := s]> |>).
Proof.
  intros [H1 H2] Hk Hs. split; cbn.
  - intros k' s' Hs' Hc. destruct (decide (k = k')) as [<-|Hn]; [rewrite lookup_insert_eq in Hs'; by injection Hs' as <-|].
    rewrite lookup_insert_ne in Hs' by done. by eapply H1.
  - intros k' Hc. destruct (H2 k' Hc) as (s' & Hs' & Ho). exists s'. rewrite lookup_insert_ne by congruence. done.
Qed.

Lemma connect_inv k r t ok t' : inv t → current t = None → sessions t !! k = None → connect k r t = (ok, t') →
  inv (if ok then t' <| current := Some k |> else t') ∧ current t' = None ∧ ctxDone t' = ctxDone t.
Proof.
  intros Hi Hc Hk H. pose proof (inv_fresh t k) as Hf.
  assert (Hcl : ∀ s, once_done s = false → inv (Close_session k (t <| sessions ::= <[k := s]> |>))).
  { intros s Hs. assert (Close_session k (t <| sessions ::= <[k := s]> |>) = t <| sessions ::= <[k := close_session s]> |>) as ->.
    { unfold Close_session. destruct t; cbn. f_equal. by rewrite alter_insert_eq. }
    apply Hf; [done|done|]. by apply close_released. }
  destruct r; cbn in H; injection H as <- <-; (split; [|by split]); try done; try (by apply Hf); try (by apply Hcl).
  destruct Hi as [H1 H2]. split; cbn.
  - intros k' s' Hs' Hne. rewrite lookup_insert_ne in Hs' by congruence. eapply H1; [exact Hs'|congruence].
  - intros k' [= <-]. rewrite lookup_insert_eq. by eexists.
Qed.

(** The gate section drops a session that has ended by itself. *)
Definition drop_dead (t : tunnel) : tunnel :=
  match current t with
  | Some c => if default true (session_closed <$> sessions t !! c) then Close_session c t <| current := None |> else t
  | None => t
  end.

Lemma drop_dead_inv t : inv t → inv (drop_dead t) ∧ ctxDone (drop_dead t) = ctxDone t.
Proof.
  intros Hi. unfold drop_dead. destruct (current t) as [c|] eqn:E; [|done].
  destruct (default true _); [|done]. split; [by apply inv_drop|done].
Qed.

Lemma drop_dead_fresh t k : sessions t !! k = None → sessions (drop_dead t) !! k = None.
Proof.
  intros Hk. unfold drop_dead. destruct (current t) as [c|]; [|done]. destruct (default true _); [|done]. cbn.
  destruct (decide (c = k)) as [->|Hn]; [by rewrite lookup_alter_eq, Hk|by rewrite lookup_alter_ne].
Qed.

Lemma dial_inv k callerDone r o t : inv t → sessions t !! k = None → inv (DialContext k callerDone r o t).2.
Proof.
  intros Hi Hk. unfold DialContext. destruct (ctxDone t); [done|]. destruct callerDone; [done|]. fold (drop_dead t).
  destruct (drop_dead_inv t Hi) as [Hd _]. pose proof (drop_dead_fresh t k Hk) as Hf. set (t1 := drop_dead t) in *.
  assert (Hend : ∀ c t2, inv t2 → current t2 = Some c →
    inv (match o with
         | StreamOk n => (Stream n, t2 <| streams ::= union {[n]} |>)
         | StreamErr => (DialErr "stream", Close_session c t2 <| current := None |>)
         | CallerGone => (DialErr "context", t2)
         end).2).
  { intros c t2 H2 Hc. destruct o; cbn [snd]; [|by apply inv_drop|done]. by destruct H2. }
  destruct (current t1) as [c|] eqn:Ec; [by apply Hend|].
  destruct (connect k r t1) as [ok t2] eqn:Et. destruct (connect_inv _ _ _ _ _ Hd Ec Hf Et) as (H2 & _ & _).
  destruct ok; [|done]. by apply Hend.
Qed.

Lemma dies_inv k mux t : inv t → inv (dies k mux t).
Proof.
  intros [H1 H2]. split; cbn.
  - intros k' s' Hs' Hc. destruct (decide (k = k')) as [<-|Hn].
    + rewrite lookup_alter_eq in Hs'. destruct (sessions t !! k) as [s|] eqn:E; [|done]. injection Hs' as <-.
      destruct (H1 k s E Hc) as (? & ? & ?). by destruct mux; split_and!.
    + rewrite lookup_alter_ne in Hs' by done. by eapply H1.
  - intros k' Hc. destruct (H2 k' Hc) as (s & Hs & Ho). destruct (decide (k = k')) as [<-|Hn].
    + rewrite lookup_alter_eq, Hs. eexists. split; [done|]. by destruct mux.
    + rewrite lookup_alter_ne by done. by exists s.
Qed.

Lemma tstep_inv t t' : tstep t t' → inv t → inv t'.
Proof.
  intros [|? | ? |] Hi; [by apply dial_inv|by destruct Hi|unfold Close_gate; destruct (current _) eqn:E; [by apply inv_drop|done]|by apply dies_inv].
Qed.

(** Once cancelled and closed, nothing is opened again. *)
Lemma tstep_closed t t' : tstep t t' → ctxDone t = true → current t = None → ctxDone t' = true ∧ current t' = None.
Proof.
  intros [? k cd r o Hk|?|?|] Hx Hc; try done.
  - unfold DialContext. by rewrite Hx.
  - unfold Close_gate. by rewrite Hc.
Qed.

Lemma runs_inv t t' : rtc tstep t t' → inv t → inv t'.
Proof. induction 1; eauto using tstep_inv. Qed.
Lemma runs_closed t t' : rtc tstep t t' → ctxDone t = true → current t = None → ctxDone t' = true ∧ current t' = None.
Proof. induction 1 as [|x y z Hxy _ IH]; intros Hx Hc; [done|]. by destruct (tstep_closed _ _ Hxy Hx Hc); apply IH. Qed.

(** C31: The tunnel keeps one session and leaks none.  In every interleaving of
    dials, failures, cancellation and closing, however a set-up ends and whenever
    a session dies by itself, every session but the one under the gate has released
    its packet connection, its KCP connection and its multiplexer; and after the
    outbound is cancelled and closed there is no session, every resource ever
    opened has been released, and dialling is refused, for ever. *)
Theorem tunnel_no_leak t : rtc tstep initial t →
  (∀ k s, sessions t !! k = Some s → current t ≠ Some k → released s) ∧
  (ctxDone t = true → ∀ t', rtc tstep (Close_gate t) t' →
     current t' = None ∧ (∀ k s, sessions t' !! k = Some s → released s) ∧
     ∀ k callerDone r o, DialContext k callerDone r o t' = (DialErr "closed", t')).
Proof.
  intros Ht. assert (Hi : inv t) by (eapply runs_inv; [exact Ht|]; split; cbn; [by intros ? ? ?%lookup_empty_Some|done]).
  split; [by apply Hi|]. intros Hx t' Ht'.
  assert (H : inv t' ∧ ctxDone t' = true ∧ current t' = None).
  { split; [eapply runs_inv; [exact Ht'|]; by eapply tstep_inv; [by apply t_close|]|].
    eapply runs_closed; [exact Ht'| |]; unfold Close_gate; by destruct (current t) eqn:E. }
  destruct H as ([H1 _] & Hc & Hn). split_and!; [done| |].
  - intros k s Hs. eapply H1; [exact Hs|congruence].
  - intros. unfold DialContext. by rewrite Hc.
Qed.

(** A run in which a session is set up, dies, is replaced, and the outbound closed. *)
Definition ex_tunnel : tunnel :=
  cancel (DialContext 1 false (Connected false) StreamErr (dies 0 false (DialContext 0 false (Connected false) (StreamOk 7) initial).2)).2.

Lemma tunnel_no_leak_witness : ctxDone ex_tunnel = true ∧ ∀ k s, sessions (Close_gate ex_tunnel) !! k = Some s → released s.
Proof.
  split; [reflexivity|].
  assert (H : rtc tstep initial ex_tunnel).
  { eapply rtc_l; [apply (t_dial initial 0 false (Connected false) (StreamOk 7)); reflexivity|].
    eapply rtc_l; [apply (t_dies _ 0 false)|]. eapply rtc_l; [apply (t_dial _ 1 false (Connected false) StreamErr); reflexivity|].
    eapply rtc_l; [apply t_cancel|]. apply rtc_refl. }
  destruct (tunnel_no_leak ex_tunnel H) as [_ H2]. destruct (H2 eq_refl _ (rtc_refl _ _)) as (_ & H3 & _). exact H3.
Defined.

(** ** Framing *)

Lemma query_payload_read packet id padding : length id = 8%nat → blen packet < 224 → blen padding = padding_size packet →
  read_parts (length (query_payload packet id padding)) (drop 8 (query_payload packet id padding)) =
    Some (if blen packet =? 0 then [] else [packet]) ∧ take 8 (query_payload packet id padding) = id.
Proof.
  intros Hid Hp Hpad. unfold query_payload. split; [|by rewrite <- Hid, take_app_length].
  assert (Hd : ∀ x, drop 8 (id ++ x) = x) by (intros x; rewrite <- Hid; apply drop_app_length). rewrite Hd, length_app.
  assert (0 ≤ blen packet) by (unfold blen; lia).
  assert (blen padding < 32) by (rewrite Hpad; unfold padding_size; case_goal; lia).
  cbn [length]. rewrite Hid. cbn [Nat.add]. rewrite read_parts_padding by done.
  destruct (blen packet =? 0) eqn:E.
  - by rewrite bool_false_if by lia.
  - rewrite bool_true_if by lia. apply read_parts_packet. lia.
Qed.

(** The pieces of an answer, each after its length. *)
Definition piece (p : bytes) : bytes := be_put 2 (blen p) ++ p.

Lemma be_put2 z : be_put 2 z = [byte_of (z / 2 ^ 8); byte_of (z / 2 ^ 0)].
Proof. done. Qed.

Lemma read_pieces_piece fuel p r : blen p < 65536 → read_pieces (S fuel) (piece p ++ r) = p :: read_pieces fuel (drop (length p) (p ++ r)).
Proof.
  intros H. unfold piece. rewrite be_put2. cbn [app read_pieces]. rewrite <- be_put2, be_val_put.
  assert (0 ≤ blen p) by (unfold blen; lia). rewrite Z.mod_small by (change (2 ^ (8 * Z.of_nat 2)) with 65536; lia).
  unfold blen. rewrite Nat2Z.id, length_app, (proj2 (Nat.ltb_ge _ _)) by lia. by rewrite take_app_length.
Qed.

Lemma read_pieces_back ps fuel rest : (length ps ≤ fuel)%nat → (length rest < 2)%nat → Forall (λ p, blen p < 65536) ps →
  read_pieces fuel (concat (piece <$> ps) ++ rest) = ps.
Proof.
  intros Hf Hr. revert fuel Hf. induction ps as [|p ps IH]; intros fuel Hf HF.
  - destruct fuel, rest as [|? [|? ?]]; cbn in *; done || lia.
  - apply Forall_cons in HF as [Hp HF]. destruct fuel as [|fuel]; [cbn in Hf; lia|]. cbn [fmap list_fmap concat].
    rewrite <- app_assoc, read_pieces_piece by done. rewrite drop_app_length. f_equal. apply IH; [cbn in Hf; lia|done].
Qed.

(** C34: What the tunnel sends and receives survives its framing.  A query that is
    built names labels of 1 to 63 characters in front of the domain from which the
    server's reader recovers the client and exactly the packet, or no packet when
    it is a poll; a packet that does not fit is refused and never cut.  From the text
    of an answer the packets are recovered in order, and a piece cut short at
    the end is dropped. *)
Theorem framing_roundtrip {Name} (NewName : list bytes → option Name) WireFormat packet id domain random queryID ps rest :
  length id = 8%nat → (∀ n b, 0 ≤ n → random n = Some b → blen b = n) → Forall (λ p, blen p < 65536) ps → (length rest < 2)%nat →
  (∀ wire, encodeQuery NewName WireFormat packet id domain random queryID = Ok wire →
     blen packet < 224 ∧ ∃ labels name q, NewName (labels ++ domain) = Some name ∧
       WireFormat (mkMessage q 256 [(name, 16, 1)] [(41, 4096)]) = Some wire ∧
       Forall (λ l, 1 ≤ length l ≤ 63)%nat labels ∧
       read_query labels = Some (id, if blen packet =? 0 then [] else [packet])) ∧
  receive (Some (mkResponse 0x8000 [mkAnswer true 16 (Some (concat (piece <$> ps) ++ rest))])) = ps.
Proof.
  intros Hid Hrand Hps Hrest. split.
  - intros wire. unfold encodeQuery. destruct (queryCapacity <=? blen packet) eqn:Ec; [done|].
    unfold queryCapacity in Ec. destruct (random (padding_size packet)) as [padding|] eqn:Er; [|done].
    destruct (NewName _) as [name|] eqn:En; [|done]. destruct queryID as [q|]; [|done].
    destruct (WireFormat _) as [w|] eqn:Ew; [|done]. intros [= <-]. split; [lia|].
    set (payload := query_payload packet id padding) in *. exists (query_labels payload), name, (be_val q).
    destruct (cut_labels_spec (length (b32_encode payload)) (b32_encode payload)) as [H1 H2]; [done|].
    split_and!; try done. unfold read_query, query_labels. rewrite H1, b32_roundtrip. cbn [mbind option_bind].
    destruct (query_payload_read packet id padding Hid ltac:(lia) (Hrand (padding_size packet) _ ltac:(unfold padding_size; case_goal; lia) Er)) as [H3 H4]. fold payload in H3, H4.
    rewrite H3. cbn [mbind option_bind]. by rewrite H4.
  - unfold receive. cbn [r_Answer r_Flags a_Under a_Type a_Text]. cbn [negb orb Z.land Z.eqb Pos.eqb Pos.land].
    apply read_pieces_back; [|done|done]. rewrite length_app. clear - ps.
    assert (length ps ≤ length (concat (piece <$> ps)))%nat; [|lia].
    induction ps as [|p ps IH]; [done|]. cbn [fmap list_fmap concat]. unfold piece at 1. rewrite !length_app, be_put_length.
    cbn [length]. lia.
Qed.

Definition ex_random (n : Z) : option bytes := Some (replicate (Z.to_nat n) "r"%char).

Lemma framing_roundtrip_witness :
  is_ok (encodeQuery (λ l, Some l) (λ _, Some []) (txt "hello") (txt "clientid") [txt "example"] ex_random (Some (txt "id"))) = true ∧
  receive (Some (mkResponse 0x8000 [mkAnswer true 16 (Some (concat (piece <$> [txt "ab"; []; txt "c"]) ++ txt "x"))])) =
    [txt "ab"; []; txt "c"].
Proof.
  split; [vm_compute; reflexivity|].
  apply (framing_roundtrip (λ l, Some l) (λ _, Some []) (txt "hello") (txt "clientid") [txt "example"] ex_random (Some (txt "id"))
    [txt "ab"; []; txt "c"] (txt "x")).
  - reflexivity.
  - intros n b Hn [= <-]. unfold blen. rewrite length_replicate. lia.
  - repeat constructor.
  - vm_compute. lia.
Defined.

(** ** The loops *)

Inductive lstep : loops → loops → Prop :=
| l_recv s datagram : stopped s = false → lstep s (recv_step datagram s)
| l_send s w query written : stopped s = false → (w = WPoll → (0 < polls s)%nat) → lstep s (send_step w query written s).

(** Polling backs off within its bounds and the tokens fit their channel, in
    every interleaving of the two loops. *)
Lemma loops_bounded s s' : rtc lstep s s' → minDelay ≤ delay s ≤ maxDelay ∧ (polls s ≤ 16)%nat →
  minDelay ≤ delay s' ≤ maxDelay ∧ (polls s' ≤ 16)%nat.
Proof.
  induction 1 as [|x y z Hxy _ IH]; [done|]. intros H. apply IH. clear IH. destruct Hxy as [s datagram _|s w query written _ _].
  - destruct datagram as [r|]; [|done]. cbn [recv_step]. generalize (receive r) as l. intros l. revert s H.
    induction l as [|p l IH]; intros s [H1 H2]; [done|]. cbn [foldl]. apply IH. cbn [set delay polls]. split; [done|apply Nat.le_min_l].
  - destruct H as [H1 H2]. unfold send_step, minDelay, maxDelay, Second, Millisecond in *.
    destruct w; cbn; try done; repeat (case_goal; cbn); lia.
Qed.
