(* ===== verification/RuntimeRenewal.v ===== *)
(** * The Smart Access worker of the running service

    [daemon/smart_access.go], [daemon/smart_access_runtime_control.go],
    [daemon/smart_access_runtime_renewal.go] and
    [daemon/smart_access_runtime_renewal_poll.go]: configuring the worker that
    polls the control plane, applying its decisions to the outbounds and to the
    restriction journal, enrolling leases for renewal and adopting renewed ones.

    The parts are those of [RuntimeControl] (the instance with its outbounds and
    rules), [SaOutbound] (the leases), [RestrictionStore] (the journal) and
    [ControlVerify] (what an answer says), which share names: some are written
    with their file.  An operation is one critical section of [serviceAccess];
    readings of the clock, the state of contexts and the outcomes of input and
    output are arguments. *)

From stdpp Require Import base list strings gmap sorting relations.
From Stdlib Require Import ZArith Lia Ascii.
From S2P Require Import Prelude GoTime GoBytes GoCrypto GoNetip.
From S2P Require Import LocalDpi.
From S2P Require Import TelegramWs.
From S2P Require Import SaOutbound.
From S2P Require Import CatalogWindow.
From S2P Require Import RuntimeControl.
From S2P Require Import GoJson ControlWire RestrictionStore ControlVerify.

Local Open Scope Z_scope.
Set Default Goal Selector "!".

(** ** Data *)

Record smartAccessRuntimeRenewalConfig := mkRenewalConfig {
  n_SchemaVersion : string; n_ProfileDigest : string; n_Capability : string; n_IssuedAt : string; n_ExpiresAt : string;
  n_Lease : identity }.
(** An enrolment; the code shares it by pointer. *)
Record smartAccessRuntimeRenewal := mkEnrolment {
  e_config : smartAccessRuntimeRenewalConfig; e_current : identity; e_lastAttempt : time; e_issued : time;
  e_expires : time; e_deadline : time; e_size : Z }.
Abbreviation enrolment := smartAccessRuntimeRenewal.
#[export] Instance enrolment_eta : Eta enrolment := λ e,
  mkEnrolment (e_config e) (e_current e) (e_lastAttempt e) (e_issued e) (e_expires e) (e_deadline e) (e_size e).

Record smartAccessRuntimeControlWorker := mkWorker {
  k_config : smartAccessRuntimeControlConfig; k_keys : gmap string bytes; k_issued : time; k_expires : time;
  k_deadline : time; k_instance : nat; k_generation : string; k_renewals : gmap string nat }.
Abbreviation worker := smartAccessRuntimeControlWorker.
#[export] Instance worker_eta : Eta worker := λ k,
  mkWorker (k_config k) (k_keys k) (k_issued k) (k_expires k) (k_deadline k) (k_instance k) (k_generation k) (k_renewals k).

Definition verifier_of (k : worker) : verifier := mkVerifier (k_config k) (k_keys k) (k_expires k) (k_deadline k).

(** The service with its instance [dv], whose identity is [inst]; [control] is
    the instance's worker.  Workers and enrolments are kept by key. *)
Record daemon := mkDaemon {
  dv : service; inst : nat; control : option nat; restrictionExpires : time;
  workers : gmap nat worker; enrolments : gmap nat enrolment; store : RestrictionStore.world }.
#[export] Instance daemon_eta : Eta daemon := λ d,
  mkDaemon (dv d) (inst d) (control d) (restrictionExpires d) (workers d) (enrolments d) (store d).

(** ** Reading the host's commands *)

Definition smartAccessRuntimeControlLimit : Z := 16 * 1024.

Definition url_char (c : ascii) : bool :=
  let x := byte_val c in
  ((65 <=? x) && (x <=? 90)) || ((97 <=? x) && (x <=? 122)) || ((48 <=? x) && (x <=? 57)) || (x =? 95) || (x =? 45).
(** [^prefix\.[A-Za-z0-9_-]+\.[a-f0-9]{64}$] *)
Definition capability_pattern (prefix s : string) : bool :=
  let b := list_of_str s in
  let p := list_of_str prefix ++ ["."%char] in
  let rest := drop (length p) b in
  has_prefix b p && (66 <=? length rest)%nat &&
  (let n := (length rest - 65)%nat in
   forallb url_char (take n rest) && bool_decide (rest !! n = Some "."%char) &&
   forallb AtsLease.lease_hex (drop (S n) rest)).
Definition smartAccessRuntimeCapability : string → bool := capability_pattern "pkr_src1".
Definition smartAccessFirstProviderQACapability : string → bool := capability_pattern "saqa1".
Definition smartAccessRuntimeRenewalCapability : string → bool := capability_pattern "pkr_srn1".

(** The keys: all of them decode to 32 bytes. *)
Definition lease_keys (m : gmap string string) : option (gmap string bytes) :=
  foldr (λ kv acc, keys ← acc;
           key ← std_decode kv.2;
           if catalogServiceIDPattern kv.1 && (length key =? 32)%nat then Some (<[kv.1 := key]> keys) else None)
    (Some ∅) (map_to_list m).

Section Parsing.
(** The tests of the code on the result of [url.Parse]. *)
Variable base_ok : string → bool.

Definition parseSmartAccessRuntimeControl (raw : bytes) (now : time) : option worker :=
  if smartAccessRuntimeControlLimit <? blen raw then None
  else
    j ← parse raw;
    o ← smartAccessControlObject
          ["schema_version"; "profile_digest"; "catalog_sha256"; "platform"; "audience"; "api_base_url"; "dns_resolver";
           "capability"; "issued_at"; "expires_at"; "lease_keys_by_id"] j;
    let str k := field k o ≫= un_string in
    schema ← str "schema_version"; profile ← str "profile_digest"; catalog ← str "catalog_sha256";
    platform ← str "platform"; audience ← str "audience"; base ← str "api_base_url"; resolver ← str "dns_resolver";
    capability ← str "capability"; issuedAt ← str "issued_at"; expiresAt ← str "expires_at";
    keysByID ← field "lease_keys_by_id" o ≫= un_string_map;
    let keysByID := default ∅ keysByID in
    if negb (bool_decide (schema = "pokrov-smart-access-runtime-worker-v1")) || negb (smartAccessRuntimeDigest profile) ||
       (negb (bool_decide (catalog = "")) && negb (smartAccessRuntimeDigest catalog)) ||
       negb (one_of ["android"; "windows"] platform) || negb (one_of ["lab"; "production"] audience) ||
       negb (catalogServiceIDPattern resolver) || (4096 <? String.length capability)%nat ||
       (negb (smartAccessRuntimeCapability capability) && negb (smartAccessFirstProviderQACapability capability)) ||
       negb (base_ok base) then None
    else
      issued ← smartAccessControlTime issuedAt;
      expires ← smartAccessControlTime expiresAt;
      if Before now issued || negb (Before now expires) || negb (Before issued expires) then None
      else
        keys ← lease_keys keysByID;
        if bool_decide (keys = ∅) then None
        else Some (mkWorker (mkConfig schema profile catalog platform audience base resolver capability issuedAt expiresAt keysByID)
                     keys issued expires (Add now (Sub expires now)) 0 "" ∅).
End Parsing.

Definition parseSmartAccessRuntimeRenewal (raw : bytes) (now : time) : option enrolment :=
  if smartAccessRuntimeControlLimit <? blen raw then None
  else
    j ← parse raw;
    o ← smartAccessControlObject ["schema_version"; "profile_digest"; "capability"; "issued_at"; "expires_at"; "lease"] j;
    lease ← field "lease" o ≫= parseSmartAccessRuntimeLeaseIdentity;
    let str k := field k o ≫= un_string in
    schema ← str "schema_version"; profile ← str "profile_digest"; capability ← str "capability";
    issuedAt ← str "issued_at"; expiresAt ← str "expires_at";
    if negb (bool_decide (schema = "pokrov-smart-access-runtime-renewal-worker-v1")) || negb (smartAccessRuntimeDigest profile) ||
       (4096 <? String.length capability)%nat || negb (smartAccessRuntimeRenewalCapability capability) then None
    else
      issued ← smartAccessControlTime issuedAt;
      expires ← smartAccessControlTime expiresAt;
      if Before now issued || negb (Before issued expires) || negb (Before now expires) ||
         Before now (control_time (IssuedAt lease)) || negb (Before now (control_time (NewFlowsUntil lease))) then None
      else Some (mkEnrolment (mkRenewalConfig schema profile capability issuedAt expiresAt lease) lease zero_time issued expires
                   (Add now (Sub expires now)) (blen raw)).

(** [json.Marshal] of the configurations, which the code compares. *)
Definition config_json (c : smartAccessRuntimeControlConfig) : json :=
  JObj [("schema_version", JStr (c_SchemaVersion c)); ("profile_digest", JStr (c_ProfileDigest c));
        ("catalog_sha256", JStr (c_CatalogSHA256 c)); ("platform", JStr (c_Platform c)); ("audience", JStr (c_Audience c));
        ("api_base_url", JStr (c_APIBaseURL c)); ("dns_resolver", JStr (c_DNSResolver c));
        ("capability", JStr (c_Capability c)); ("issued_at", JStr (c_IssuedAt c)); ("expires_at", JStr (c_ExpiresAt c));
        ("lease_keys_by_id", scopes_json (c_LeaseKeysByID c))].
Definition renewal_config_json (c : smartAccessRuntimeRenewalConfig) : json :=
  JObj [("schema_version", JStr (n_SchemaVersion c)); ("profile_digest", JStr (n_ProfileDigest c));
        ("capability", JStr (n_Capability c)); ("issued_at", JStr (n_IssuedAt c)); ("expires_at", JStr (n_ExpiresAt c));
        ("lease", identity_json (n_Lease c))].

(** ** The bound of a profile *)

(** A rule of the routing or DNS options: the end of its catalog window, if it
    has one, and the rules of a logical rule. *)
Inductive window_rule := WindowRule (expiresAt : option string) (rules : list window_rule).

(** [retain] *)
Definition retain_expiry (expires : time) (value : string) : time :=
  match smartAccessControlTime value with
  | Some parsed => if After parsed expires then parsed else expires
  | None => expires
  end.
Fixpoint rule_expiry (expires : time) (r : window_rule) {struct r} : time :=
  match r with
  | WindowRule window rules => foldl rule_expiry (from_option (retain_expiry expires) expires window) rules
  end.
(** [leases]: the last moments of the Smart Access outbounds of the options. *)
Definition smartAccessProfileRestrictionExpiry (route dns : list window_rule) (leases : list string) : time :=
  foldl retain_expiry (foldl rule_expiry (foldl rule_expiry zero_time route) dns) leases.

(** ** Configuring the worker *)

(** What the environment decides: the clock of the parse, of the guards and of
    the comparison with the previous worker; whether its context has ended;
    whether a dialer could be made and a directory was given; the random bytes
    and the outcome of reading and writing the journal. *)
Record configure_env := mkCEnv {
  ce_parse : time; ce_now : time; ce_again : nat → time; ce_prevDone : bool; ce_dialer : bool; ce_storage : bool;
  ce_entropy : option bytes; ce_read : bool; ce_write : bool }.

(** The enrolments the new worker takes over. *)
Definition inherited (now : time) (expires : time) (d : daemon) (previous : worker) : gmap string nat :=
  filter (λ se : string * nat,
    match enrolments d !! se.2 with
    | Some e => Before now (e_expires e) && Before now (e_deadline e) && negb (After (e_expires e) expires)
    | None => false
    end = true) (k_renewals previous).

(** The tests against the previous worker: an error, or [Some true] for an exact retry. *)
Definition against_previous (c : configure_env) (p w : worker) : result string bool :=
  if negb (bool_decide (c_ProfileDigest (k_config p) = c_ProfileDigest (k_config w))) ||
     negb (bool_decide (c_Platform (k_config p) = c_Platform (k_config w))) ||
     negb (bool_decide (c_Audience (k_config p) = c_Audience (k_config w))) || Before (k_issued w) (k_issued p)
  then Err "smart_access_runtime_control_conflict"
  else if bool_decide (c_Capability (k_config p) = c_Capability (k_config w)) then
    if negb (bytes_eqb (print (config_json (k_config p))) (print (config_json (k_config w)))) || ce_prevDone c ||
       negb (Before (ce_again c 0%nat) (k_deadline p)) || negb (Before (ce_again c 1%nat) (k_expires p))
    then Err "smart_access_runtime_control_conflict"
    else Ok true
  else Ok false.

Definition previous_worker (d : daemon) : option worker := control d ≫= λ k, workers d !! k.

Definition ConfigureSmartAccessRuntimeControl (base_ok : string → bool) (profileDigest : string) (raw : bytes)
    (c : configure_env) (d : daemon) : result string bool * daemon :=
  match parseSmartAccessRuntimeControl base_ok raw (ce_parse c) with
  | None => (Err "smart_access_runtime_control_invalid", d)
  | Some w =>
      let now := ce_now c in
      if negb (bool_decide (c_ProfileDigest (k_config w) = profileDigest)) then (Err "smart_access_runtime_control_conflict", d)
      else if negb (running (dv d)) then (Err "smart_access_runtime_unavailable", d)
      else if Before now (k_issued w) || negb (Before now (k_expires w)) || negb (Before now (k_deadline w))
      then (Err "smart_access_runtime_control_expired", d)
      else if IsZero (restrictionExpires d) || negb (Before now (restrictionExpires d)) then (Ok false, d)
      else
        match from_option (λ p, against_previous c p w) (Ok false) (previous_worker d) with
        | Err e => (Err e, d)
        | Ok true => (Ok true, d)
        | Ok false =>
            if negb (ce_dialer c) then (Err "smart_access_runtime_control_transport_unavailable", d)
            else if negb (ce_storage c) then (Err "smart_access_restriction_storage_unavailable", d)
            else
              let '(res, st) := begin_ profileDigest (c_CatalogSHA256 (k_config w)) (restrictionExpires d) (ce_entropy c)
                                  (ce_read c) (ce_write c) (store d) in
              let d := d <| store := st |> in
              match res with
              | Err e => (Err e, d)
              | Ok generation =>
                  let renewals :=
                    match previous_worker d with
                    | Some p => if negb (ce_prevDone c) && Before now (k_expires p) && Before now (k_deadline p)
                                then inherited now (k_expires w) d p else ∅
                    | None => ∅
                    end in
                  let k := fresh (dom (workers d)) in
                  (Ok true, d <| workers ::= insert k (w <| k_instance := inst d |> <| k_generation := generation |>
                                                        <| k_renewals := renewals |>) |>
                              <| control := Some k |>)
              end
        end
  end.

(** ** Asking the control plane *)

(** What came back of a request: nothing, or a status with the body that could be
    read. *)
Inductive http_answer := NoAnswer | Answer (status : Z) (body : option bytes).
(** The server as a request finds it: URL, bearer and body. *)
Definition server : Type := string → string → bytes → http_answer.

(** The body of an answer; at most one byte more than the limit is read. *)
Definition read_answer (a : http_answer) (ctxErr : bool) : option bytes :=
  match a with
  | NoAnswer => None
  | Answer status body =>
      if negb (status =? 200) then None
      else data ← body;
           let data := take (Z.to_nat (smartAccessRuntimeControlLimit + 1)) data in
           if (smartAccessRuntimeControlLimit <? blen data) || ctxErr then None else Some data
  end.

(** [strings.TrimSuffix(base, "/")] *)
Definition trim_slash (base : string) : string :=
  let b := list_of_str base in
  if bool_decide (last b = Some "/"%char) then str_of_list (take (length b - 1) b) else base.

Definition control_request (w : worker) (nonce : string) : bytes :=
  print (marshal_map
    [("schema_version", JStr "pokrov-smart-access-runtime-control-request-v1"); ("request_nonce", JStr nonce);
     ("profile_digest", JStr (c_ProfileDigest (k_config w))); ("platform", JStr (c_Platform (k_config w)))]).
Definition renewal_request (w : worker) (a : attempt) (nonce : string) : bytes :=
  print (marshal_map
    [("schema_version", JStr "pokrov-smart-access-runtime-renewal-request-v1"); ("request_nonce", JStr nonce);
     ("profile_digest", JStr (c_ProfileDigest (k_config w))); ("platform", JStr (c_Platform (k_config w)));
     ("expected_lease_id", JStr (LeaseID (a_previous a)))]).

Section Polling.
Variable ed25519_Verify : bytes → bytes → bytes → bool.
Variable serve : server.

(** [entropy]: the sixteen bytes of the nonce, if they could be read. *)
Definition poll (entropy : option bytes) (ctxErr : bool) (started now : time) (w : worker) : option smartAccessRuntimeDecision :=
  b ← entropy;
  let nonce := str_of_list (hex_encode b) in
  data ← read_answer (serve (trim_slash (c_APIBaseURL (k_config w)) ++ "/api/client/smart-access/runtime-control")%string
                        (c_Capability (k_config w)) (control_request w nonce)) ctxErr;
  re ← verify ed25519_Verify (verifier_of w) data nonce started now;
  let '(reason, expires) := (re : string * time) in
  Some (mkDecision reason expires (Add now (Sub expires now))).

Definition pollRenewal (entropy : option bytes) (ctxErr : bool) (started now : time) (w : worker) (a : attempt)
    : option smartAccessRuntimeRenewalDecision :=
  b ← entropy;
  let nonce := str_of_list (hex_encode b) in
  data ← read_answer (serve (trim_slash (c_APIBaseURL (k_config w)) ++ "/api/client/smart-access/runtime-renewal")%string
                        (a_capability a) (renewal_request w a nonce)) ctxErr;
  verifyRenewal ed25519_Verify (verifier_of w) data nonce a started now.
End Polling.

(** ** Applying a control decision *)

(** [Revoke] on every Smart Access outbound. *)
Fixpoint revoke_leases (terminate : bool) (os : list (string * outbound_ref)) (x : sys) : sys :=
  match os with
  | [] => x
  | (_, RSmart k) :: os => revoke_leases terminate os (on_outbound k tt (λ w, (tt, SaOutbound.Revoke terminate w)) x).2
  | _ :: os => revoke_leases terminate os x
  end.

(** The worker [k] still speaks for the running instance. *)
Definition speaks (k : nat) (d : daemon) : option worker :=
  match workers d !! k with
  | Some w =>
      if running (dv d) && bool_decide (k_instance w = inst d) && bool_decide (control d = Some k) then Some w else None
  | None => None
  end.

(** The guards of [applySmartAccessRuntimeControl]; [t] are the four readings of the clock. *)
Definition control_applies (k : nat) (decision : smartAccessRuntimeDecision) (done : bool) (t : nat → time) (d : daemon) : option worker :=
  match speaks k d with
  | Some w =>
      if negb done && Before (t 0%nat) (k_deadline w) && Before (t 1%nat) (k_expires w) && Before (t 2%nat) (d_expires decision) &&
         Before (t 3%nat) (d_deadline decision) && negb (bool_decide (d_reason decision = "current")) then Some w else None
  | None => None
  end.

Definition applySmartAccessRuntimeControl (k : nat) (decision : smartAccessRuntimeDecision) (done : bool) (t : nat → time)
    (write : bool) (d : daemon) : daemon :=
  match control_applies k decision done t d with
  | None => d
  | Some w =>
      let reason := d_reason decision in
      let s := if one_of ["catalog_disabled"; "access_denied"] reason then (Box_RevokeRoutingCatalog (t 4%nat) (dv d)).2 else dv d in
      let x := revoke_leases (negb (bool_decide (reason = "issuance_disabled"))) (sv_outbounds s) (sv_sys s) in
      d <| dv := s <| sv_sys := x |> |>
        <| store ::= restrict (c_ProfileDigest (k_config w)) (k_generation w) reason write |>
  end.

(** ** Enrolling a lease *)

(** The first Smart Access outbound that accepts; asking can latch an expired admission. *)
Fixpoint accepts_enrolment (now : nat → time) (n : nat) (l : identity) (os : list (string * outbound_ref)) (x : sys) : bool * sys :=
  match os with
  | [] => (false, x)
  | (_, RSmart k) :: os =>
      let '(ok, x) := on_outbound k false (SaOutbound.AcceptsRenewalEnrollment (now n) (LeaseID l) (IssuedAt l) (NewFlowsUntil l)
                                             (ActiveFlowsUntil l)) x in
      if ok then (true, x) else accepts_enrolment now (S n) l os x
  | _ :: os => accepts_enrolment now n l os x
  end.

(** The enrolments that have not ended. *)
Definition unexpired (now : time) (d : daemon) (m : gmap string nat) : gmap string nat :=
  filter (λ se : string * nat,
    match enrolments d !! se.2 with Some e => Before now (e_expires e) && Before now (e_deadline e) | None => false end = true) m.

(** The size of the enrolments of the other scopes. *)
Definition other_sizes (scope : string) (d : daemon) (m : gmap string nat) : Z :=
  foldr (λ se acc, acc + if bool_decide (se.1 = scope) then 0 else from_option e_size 0 (enrolments d !! se.2)) 0 (map_to_list m).

Definition enrolment_conflict : string := "smart_access_runtime_renewal_conflict".

(** [now0]: the clock of the parse; [now]: of the guards; [asked]: of the outbounds. *)
Definition ConfigureSmartAccessRenewal (profileDigest : string) (raw : bytes) (now0 now : time) (asked : nat → time) (done : bool)
    (d : daemon) : result string bool * daemon :=
  match parseSmartAccessRuntimeRenewal raw now0 with
  | None => (Err "smart_access_runtime_renewal_invalid", d)
  | Some r =>
      if negb (bool_decide (n_ProfileDigest (e_config r) = profileDigest)) then (Err enrolment_conflict, d)
      else if negb (running (dv d)) then (Err "smart_access_runtime_unavailable", d)
      else
        match control d ≫= λ k, w ← workers d !! k; Some (k, w) with
        | None => (Err enrolment_conflict, d)
        | Some (k, w) =>
            let l := n_Lease (e_config r) in
            if done || negb (bool_decide (c_ProfileDigest (k_config w) = profileDigest)) ||
               negb (bool_decide (c_Platform (k_config w) = Platform l)) || negb (bool_decide (c_Audience (k_config w) = Audience l)) ||
               negb (Before now (k_expires w)) || negb (Before now (k_deadline w)) || negb (Before now (e_expires r)) ||
               negb (Before now (e_deadline r)) || Before now (e_issued r) || After (e_expires r) (k_expires w)
            then (Err enrolment_conflict, d)
            else
              let '(found, x) := accepts_enrolment asked 0 l (sv_outbounds (dv d)) (sv_sys (dv d)) in
              let d := d <| dv ::= λ s, s <| sv_sys := x |> |> in
              if negb found then (Ok false, d)
              else
                let renewals := unexpired now d (k_renewals w) in
                let d := d <| workers ::= alter (λ w, w <| k_renewals := renewals |>) k |> in
                let scope := RuntimeScopeSHA256 l in
                let previous := renewals !! scope ≫= λ e, enrolments d !! e in
                let verdict :=
                  match previous with
                  | None => Ok false
                  | Some p =>
                      if Before (e_issued r) (e_issued p) then Err enrolment_conflict
                      else if bool_decide (n_Capability (e_config p) = n_Capability (e_config r)) then
                        if negb (bytes_eqb (print (renewal_config_json (e_config p))) (print (renewal_config_json (e_config r))))
                        then Err enrolment_conflict else Ok true
                      else if negb (follows l (e_current p)) then Err enrolment_conflict
                      else Ok false
                  end in
                match verdict with
                | Err e => (Err e, d)
                | Ok true => (Ok true, d)
                | Ok false =>
                    let total := e_size r + other_sizes scope d renewals in
                    if (bool_decide (previous = None) && (256 <=? size renewals)%nat) || (1024 * 1024 <? total)
                    then (Err "smart_access_runtime_renewal_full", d)
                    else
                      let e := fresh (dom (enrolments d)) in
                      (Ok true, d <| enrolments ::= insert e r |>
                                  <| workers ::= alter (λ w, w <| k_renewals ::= insert scope e |>) k |>)
                end
        end
  end.

(** ** Choosing the next renewal *)

(** The enrolment is due and its lease can be renewed. *)
Definition due (now : time) (d : daemon) (e : enrolment) : bool :=
  let issued := control_time (IssuedAt (e_current e)) in
  let newUntil := control_time (NewFlowsUntil (e_current e)) in
  negb (Before now (e_issued e)) && Before now (e_expires e) && Before now (e_deadline e) &&
  negb (Before now issued) && negb (Before now (Add issued (Z.quot (Sub newUntil issued) 2))) && Before newUntil (e_expires e) &&
  existsb (λ o : string * outbound_ref,
    match o.2 with
    | RSmart k => match souts (sv_sys (dv d)) !! k with
                  | Some w => SaOutbound.CanRenewLease (LeaseID (e_current e)) w
                  | None => false
                  end
    | _ => false
    end) (sv_outbounds (dv d)).

(** The least recently attempted one, and of those the first scope. *)
Definition better (e : enrolment) (scope : string) (best : option (string * nat * enrolment)) : bool :=
  match best with
  | None => true
  | Some (s, _, b) => Before (e_lastAttempt e) (e_lastAttempt b) ||
                      (SaOutbound.Equal (e_lastAttempt e) (e_lastAttempt b) && String.ltb scope s)
  end.

(** [order]: the enrolments of the worker in the order the map is walked. *)
Definition choose (now : time) (d : daemon) (order : list (string * nat)) : option (string * nat * enrolment) :=
  foldl (λ best se,
    match enrolments d !! se.2 with
    | Some e => if due now d e && better e se.1 best then Some (se.1, se.2, e) else best
    | None => best
    end) None order.

Definition nextSmartAccessRuntimeRenewal (k : nat) (ctl : smartAccessRuntimeDecision) (done : bool) (now : time)
    (order : list (string * nat)) (d : daemon) : option (nat * attempt) * daemon :=
  match speaks k d with
  | None => (None, d)
  | Some w =>
      if done || negb (bool_decide (d_reason ctl = "current")) || negb (Before now (d_expires ctl)) ||
         negb (Before now (d_deadline ctl)) || negb (Before now (k_expires w)) || negb (Before now (k_deadline w))
      then (None, d)
      else
        match choose now d order with
        | None => (None, d)
        | Some (_, i, e) =>
            (Some (i, mkAttempt (e_current e) (n_Capability (e_config e)) (e_expires e) (e_deadline e) ctl),
             d <| enrolments ::= insert i (e <| e_lastAttempt := now |>) |>)
        end
  end.

(** ** Adopting a renewed lease *)

(** [SaOutbound.RenewLease] with the state the caller's callback works on. *)
Definition RenewLease_in {St} (now1 now2 now3 : time) (expectedID nextID issuedAt newFlowsUntil activeFlowsUntil : string)
    (retainExpiry : time → St → option string * St) (w : SaOutbound.world) (s : St) : result string bool * SaOutbound.world * St :=
  match SaOutbound.leases (SaOutbound.ob w) !! expectedID, SaOutbound.current_lease w with
  | None, _ | _, None => (Ok false, w, s)
  | Some _, Some cur =>
      if SaOutbound.closed (SaOutbound.ob w) || SaOutbound.revoked (SaOutbound.ob w) || SaOutbound.l_revoked cur
      then (Err SaOutbound.errLease, w, s)
      else
        match SaOutbound.newLeaseAuthorization now1 nextID issuedAt newFlowsUntil activeFlowsUntil with
        | Err _ => (Err SaOutbound.errLease, w, s)
        | Ok nx =>
            if SaOutbound.admissionExpired nx then (Err SaOutbound.errLease, w, s)
            else if SaOutbound.same_grant cur nx then (Ok true, w, s)
            else if negb (bool_decide (SaOutbound.id cur = expectedID)) || bool_decide (nextID = expectedID) ||
                    Before (SaOutbound.issued nx) (SaOutbound.issued cur) ||
                    negb (After (SaOutbound.newUntil nx) (SaOutbound.newUntil cur))
            then (Err SaOutbound.errLease, w, s)
            else if bool_decide (is_Some (SaOutbound.leases (SaOutbound.ob w) !! nextID)) then (Err SaOutbound.errLease, w, s)
            else
              let w := w <| SaOutbound.ob ::= λ h,
                h <| SaOutbound.leases := filter (λ e, SaOutbound.prunable now2 w expectedID e = false) (SaOutbound.leases h) |> |> in
              if (256 <=? size (SaOutbound.leases (SaOutbound.ob w)))%nat then (Err SaOutbound.errLease, w, s)
              else
                let '(err, s) := retainExpiry (SaOutbound.activeUntil nx) s in
                match err with
                | Some e => (Err e, w, s)
                | None =>
                    if Before now3 (SaOutbound.issued nx) || negb (Before now3 (SaOutbound.newUntil nx)) ||
                       negb (Before now3 (SaOutbound.newDeadline nx))
                    then (Err SaOutbound.errLease, w, s)
                    else
                      let a := SaOutbound.next_auth w in
                      (Ok true,
                       w <| SaOutbound.auths ::= insert a nx |> <| SaOutbound.next_auth := S a |>
                         <| SaOutbound.ob ::= λ h, h <| SaOutbound.leases ::= insert nextID a |> <| SaOutbound.lease := a |> |>, s)
                end
        end
  end.

(** The identifiers of the current leases and the outbound that holds [id]: [None]
    when two outbounds hold the same lease or there are too many. *)
Fixpoint current_ids (id : string) (os : list (string * outbound_ref)) (x : sys) (ids : gset string) (target : option nat)
    : option (gset string * option nat) :=
  match os with
  | [] => Some (ids, target)
  | (_, RSmart k) :: os =>
      match souts x !! k with
      | Some w =>
          let i := SaOutbound.getLeaseID w in
          if bool_decide (i ∈ ids) || (256 <=? size ids)%nat then None
          else current_ids id os x ({[i]} ∪ ids) (if bool_decide (i = id) then Some k else target)
      | None => current_ids id os x ids target
      end
  | _ :: os => current_ids id os x ids target
  end.

(** What the environment decides while a renewal is applied: the readings of
    [fresh] with the state of the context, of [RenewLease] and of the journal's
    clock, and the outcome of the write. *)
Record apply_env := mkAEnv {
  ae_fresh : nat → time; ae_done : nat → bool; ae_renew : nat → time; ae_journal : time; ae_write : bool }.

(** [fresh] *)
Definition fresh_at (c : apply_env) (n : nat) (w : worker) (a : attempt) (r : smartAccessRuntimeRenewalDecision) : bool :=
  let now := ae_fresh c n in
  negb (ae_done c n) && negb (Before now (rd_issued r)) && Before now (rd_newUntil r) && Before now (rd_deadline r) &&
  Before now (k_expires w) && Before now (k_deadline w) && Before now (a_expires a) && Before now (a_deadline a) &&
  Before now (d_expires (a_control a)) && Before now (d_deadline (a_control a)).

(** The callback: the journal has both generations before the outbound adopts the new one. *)
Definition retain_callback (c : apply_env) (w : worker) (a : attempt) (r : smartAccessRuntimeRenewalDecision) (next : identity)
    (ids : gset string) (_ : time) (st : RestrictionStore.world) : option string * RestrictionStore.world :=
  if negb (fresh_at c 1 w a r) then (Some "smart_access_runtime_renewal_expired", st)
  else
    match retainRenewal (c_ProfileDigest (k_config w)) (k_generation w) (a_previous a) next ids (ae_journal c) (ae_write c) st with
    | (Some e, st) => (Some e, st)
    | (None, st) => if negb (fresh_at c 2 w a r) then (Some "smart_access_runtime_renewal_expired", st) else (None, st)
    end.

(** The guards up to the choice of the target outbound. *)
Definition renewal_applies (k i : nat) (a : attempt) (r : smartAccessRuntimeRenewalDecision) (c : apply_env) (d : daemon)
    : option (worker * gset string * nat) :=
  match speaks k d with
  | None => None
  | Some w =>
      if negb (bool_decide (k_renewals w !! RuntimeScopeSHA256 (a_previous a) = Some i)) ||
         negb (bool_decide (e_current <$> enrolments d !! i = Some (a_previous a))) || negb (fresh_at c 0 w a r) then None
      else match current_ids (LeaseID (a_previous a)) (sv_outbounds (dv d)) (sv_sys (dv d)) ∅ None with
           | Some (ids, Some target) => Some (w, ids, target)
           | _ => None
           end
  end.

Definition set_sys (x : sys) (d : daemon) : daemon := d <| dv ::= λ s, s <| sv_sys := x |> |>.
Definition set_outbound (k : nat) (w : SaOutbound.world) (d : daemon) : daemon :=
  set_sys ((sv_sys (dv d)) <| souts ::= insert k w |>) d.

Definition applySmartAccessRuntimeRenewal (k i : nat) (a : attempt) (r : smartAccessRuntimeRenewalDecision) (c : apply_env)
    (d : daemon) : daemon :=
  match renewal_applies k i a r c d with
  | None => d
  | Some (w, ids, target) =>
      match souts (sv_sys (dv d)) !! target with
      | None => d
      | Some o =>
          if negb (bool_decide (rd_restriction r = "")) then
              set_outbound target (SaOutbound.Revoke (bool_decide (rd_restriction r = "terminate")) o) d
                <| store ::= restrictScope (c_ProfileDigest (k_config w)) (k_generation w) (RuntimeScopeSHA256 (a_previous a))
                               (rd_restriction r) (ae_write c) |>
          else
          match rd_lease r with
          | None => d
          | Some l =>
              let '(res, o, st) :=
                RenewLease_in (ae_renew c 0) (ae_renew c 1) (ae_renew c 2) (LeaseID (a_previous a)) (LeaseID l) (IssuedAt l)
                  (NewFlowsUntil l) (ActiveFlowsUntil l) (retain_callback c w a r l ids) o (store d) in
              let d := set_outbound target o d <| store := st |> in
              match res with
              | Ok true =>
                  d <| enrolments ::= alter (λ e, e <| e_current := l |>) i |>
                    <| restrictionExpires ::= λ t, if After (rd_activeUntil r) t then rd_activeUntil r else t |>
              | _ => d
              end
          end
      end
  end.

(** ** Commands of the host *)

(** The callback of [RenewSmartAccessLease]. *)
Definition extend_callback (write : bool) (w : option worker) (expires : time) (s : time * RestrictionStore.world)
    : option string * (time * RestrictionStore.world) :=
  if negb (After expires s.1) then (None, s)
  else
    match w with
    | None => (None, (expires, s.2))
    | Some w =>
        match extendExpiry (c_ProfileDigest (k_config w)) (k_generation w) expires write s.2 with
        | (Some e, st) => (Some e, (s.1, st))
        | (None, st) => (None, (expires, st))
        end
    end.

(** The loop over the outbounds ends at the first error or success. *)
Fixpoint renew_host (t : nat → nat → time) (expectedID nextID issuedAt newFlowsUntil activeFlowsUntil : string) (write : nat → bool)
    (wk : option worker) (os : list (string * outbound_ref)) (n : nat) (d : daemon) : result string bool * daemon :=
  match os with
  | [] => (Ok false, d)
  | (_, RSmart k) :: os =>
      match souts (sv_sys (dv d)) !! k with
      | None => renew_host t expectedID nextID issuedAt newFlowsUntil activeFlowsUntil write wk os (S n) d
      | Some o =>
          let '(res, o, (e, st)) :=
            RenewLease_in (t n 0%nat) (t n 1%nat) (t n 2%nat) expectedID nextID issuedAt newFlowsUntil activeFlowsUntil
              (extend_callback (write n) wk) o (restrictionExpires d, store d) in
          let d := set_outbound k o d <| store := st |> <| restrictionExpires := e |> in
          match res with
          | Ok false => renew_host t expectedID nextID issuedAt newFlowsUntil activeFlowsUntil write wk os (S n) d
          | _ => (res, d)
          end
      end
  | _ :: os => renew_host t expectedID nextID issuedAt newFlowsUntil activeFlowsUntil write wk os (S n) d
  end.

Definition RenewSmartAccessLease (t : nat → nat → time) (expectedID nextID issuedAt newFlowsUntil activeFlowsUntil : string)
    (write : nat → bool) (d : daemon) : result string bool * daemon :=
  if negb (smartAccessLeaseID expectedID) then (Err "smart_access_lease_invalid", d)
  else if negb (running (dv d)) then (Err "smart_access_runtime_unavailable", d)
  else renew_host t expectedID nextID issuedAt newFlowsUntil activeFlowsUntil write (previous_worker d) (sv_outbounds (dv d)) 0 d.

Definition RevokeSmartAccessPolicy (terminateActive : bool) (d : daemon) : result string bool * daemon :=
  if negb (running (dv d)) then (Err "smart_access_runtime_unavailable", d)
  else (Ok (existsb (λ o : string * outbound_ref, match o.2 with RSmart _ => true | _ => false end) (sv_outbounds (dv d))),
        set_sys (revoke_leases terminateActive (sv_outbounds (dv d)) (sv_sys (dv d))) d).

Fixpoint revoke_lease (leaseID : string) (terminateActive : bool) (os : list (string * outbound_ref)) (x : sys) : bool * sys :=
  match os with
  | [] => (false, x)
  | (_, RSmart k) :: os =>
      let '(b, x) := on_outbound k false (SaOutbound.RevokeLease leaseID terminateActive) x in
      let '(found, x) := revoke_lease leaseID terminateActive os x in (b || found, x)
  | _ :: os => revoke_lease leaseID terminateActive os x
  end.

Definition RevokeSmartAccessLease (leaseID : string) (terminateActive : bool) (d : daemon) : result string bool * daemon :=
  if negb (smartAccessLeaseID leaseID) then (Err "smart_access_lease_invalid", d)
  else if negb (running (dv d)) then (Err "smart_access_runtime_unavailable", d)
  else let '(found, x) := revoke_lease leaseID terminateActive (sv_outbounds (dv d)) (sv_sys (dv d)) in (Ok found, set_sys x d).

(** The end of a worker's goroutine. *)
Definition worker_ends (k : nat) (write : bool) (d : daemon) : daemon :=
  match workers d !! k with
  | Some w => d <| store ::= finish (c_ProfileDigest (k_config w)) (k_generation w) write |>
  | None => d
  end.
