(* ===== verification/ServiceRun.v ===== *)
(** * The running service

    The steps of the service that [RuntimeRenewal] describes, interleaved in any
    order with failing input and output, ends of workers, new instances and
    crashes of the process; and what they keep.  The journal of the service runs
    as [RestrictionStore] describes, so what is proved there holds here; a
    decision of the control plane is enforced and recorded; an outbound adopts a
    renewed lease only after the journal has it. *)

From stdpp Require Import base list strings gmap sorting relations.
From Stdlib Require Import ZArith Lia Ascii.
From S2P Require Import Prelude GoTime GoBytes GoCrypto GoNetip.
From S2P Require Import LocalDpi.
From S2P Require Import TelegramWs.
From S2P Require Import SaOutbound.
From S2P Require Import CatalogWindow.
From S2P Require Import RuntimeControl.
From S2P Require Import GoJson ControlWire RestrictionStore ControlVerify RuntimeRenewal.

Local Open Scope Z_scope.
Set Default Goal Selector "!".

#[local] Arguments print _ : simpl never.
#[local] Arguments control_time _ : simpl never.
#[local] Arguments parse_utc _ : simpl never.
#[local] Arguments smartAccessControlTime _ : simpl never.

(** ** Live generations *)

Abbreviation lives d := (live (jr d)).

Lemma write_live wr st : lives (writeLocked wr st).2 = lives st.
Proof. unfold writeLocked. by repeat case_match. Qed.

Lemma write_live' wr st e st' : writeLocked wr st = (e, st') → lives st' = lives st.
Proof. intros H. by rewrite <- (write_live wr st), H. Qed.

Lemma load_live rd st : lives (loadLocked rd st).2 = lives st.
Proof. unfold loadLocked. by repeat case_match. Qed.

Lemma restrict_live p g reason wr st : lives (restrict p g reason wr st) = lives st.
Proof. unfold restrict. case_match; [|done]. case_match. by rewrite write_live. Qed.

Lemma scope_live p g scope action wr st : lives (restrictScope p g scope action wr st) = lives st.
Proof. unfold restrictScope. case_match; [|done]. case_match. case_match; [done|]. rewrite write_live. by case_match. Qed.

Lemma extend_live p g e wr st : lives (extendExpiry p g e wr st).2 = lives st.
Proof.
  unfold extendExpiry. case_match; [done|]. destruct (find_record _ _) as [[i r]|]; [|done]. case_match; [done|].
  destruct (writeLocked wr _) as [[err|] st'] eqn:W; exact (write_live' _ _ _ _ W).
Qed.

Lemma retain_live p g previous next ids now wr st : lives (retainRenewal p g previous next ids now wr st).2 = lives st.
Proof.
  unfold retainRenewal. case_match; [done|]. destruct (find_record _ _) as [[i r]|]; [|done]. do 4 (case_match; [done|]).
  destruct (writeLocked wr _) as [[err|] st'] eqn:W; exact (write_live' _ _ _ _ W).
Qed.

Lemma snapshot_live rd wr st : lives (snapshotLocked rd wr st).2 = lives st.
Proof.
  unfold snapshotLocked. pose proof (load_live rd st) as L. destruct (loadLocked rd st) as [[e|] st1]; [done|].
  pose proof (write_live wr st1) as W. destruct (writeLocked wr st1) as [[e|] st2]; cbn [snd] in *; [congruence|].
  case_match; cbn [snd]; congruence.
Qed.

Lemma read_live rd wr st : lives (ReadSmartAccessRestrictions rd wr st).2 = lives st.
Proof. unfold ReadSmartAccessRestrictions. rewrite <- (snapshot_live rd wr st). by destruct (snapshotLocked rd wr st). Qed.

Lemma ack_live d rd wr wr' st : lives (AcknowledgeSmartAccessRestrictions d rd wr wr' st).2 = lives st.
Proof.
  unfold AcknowledgeSmartAccessRestrictions. case_match; [done|]. rewrite <- (snapshot_live rd wr st).
  destruct (snapshotLocked rd wr st) as [[[t c]|e] st1]; [|done]. case_match; [done|]. cbn [snd].
  destruct (writeLocked wr' _) as [[e|] st2] eqn:W; apply write_live' in W; exact W.
Qed.

Lemma begin_live p c e entropy rd wr st :
  match begin_ p c e entropy rd wr st with
  | (Ok g, st') => lives st' = <[p := g]> (lives st) ∧ ∃ b, entropy = Some b ∧ g = str_of_list (hex_encode b)
  | (Err _, st') => lives st' = lives st
  end.
Proof.
  unfold begin_. pose proof (load_live rd st) as L. destruct (loadLocked rd st) as [[err|] st0]; [done|]. cbn [snd] in L.
  destruct (is_unsettled _ _); [done|]. destruct (bool_decide _ && _); [done|]. destruct (_ ≫= _); [done|].
  destruct entropy as [b|]; [|done].
  destruct (match find_record _ _ with Some _ => _ | None => _ end) as [i rs].
  destruct (writeLocked wr _) as [[err|] st2] eqn:W; apply write_live' in W; [exact (eq_trans W L)|].
  split; [|eauto]. exact (f_equal (insert p _) (eq_trans W L)).
Qed.

Lemma finish_live p g wr st :
  lives (finish p g wr st) = if bool_decide (live_of p (jr st) = g) then delete p (lives st) else lives st.
Proof.
  unfold finish. case_bool_decide; [|done]. cbn [negb]. case_match; [|done]. case_match. by rewrite write_live.
Qed.

(** ** What was read *)

(** The next bind of a reader. *)
#[local] Ltac unbind := let H := fresh "Hb" in intros H; apply bind_Some in H as (? & _ & H); revert H.

Lemma parsed_identity raw l : parseSmartAccessRuntimeLeaseIdentity raw = Some l → identity_valid l = true.
Proof.
  unfold parseSmartAccessRuntimeLeaseIdentity. intros (o & _ & H)%bind_Some. apply bind_Some in H as (x & _ & H).
  case_match; by simplify_eq.
Qed.

Lemma parsed_control base_ok raw now w : parseSmartAccessRuntimeControl base_ok raw now = Some w →
  smartAccessRuntimeDigest (c_ProfileDigest (k_config w)) = true ∧
  (c_CatalogSHA256 (k_config w) = "" ∨ smartAccessRuntimeDigest (c_CatalogSHA256 (k_config w)) = true).
Proof.
  unfold parseSmartAccessRuntimeControl. case_match; [done|].
  do 13 unbind. case_match eqn:E; [done|]. bsplit.
  do 2 unbind. case_match; [done|]. unbind.
  case_match; [done|]. intros [= <-]. cbn.
  repeat match goal with H : negb _ = false |- _ => apply negb_false_iff in H end. split; [done|].
  match goal with H : negb (bool_decide (?c = "")) && _ = false |- _ =>
    destruct (decide (c = "")) as [?|Hc]; [by left|right; rewrite (bool_decide_eq_false_2 _ Hc) in H; by apply negb_false_iff in H] end.
Qed.

Lemma parsed_renewal raw now e : parseSmartAccessRuntimeRenewal raw now = Some e →
  identity_valid (e_current e) = true.
Proof.
  unfold parseSmartAccessRuntimeRenewal. case_match; [done|]. do 2 unbind.
  intros (l & Hl & Hb)%bind_Some. revert Hb. do 5 unbind. case_match; [done|].
  do 2 unbind. case_match; [done|]. intros [= <-]. cbn.
  apply bind_Some in Hl as (? & _ & Hl). by eapply parsed_identity.
Qed.

Lemma action_reason reason action : expected_action reason = Some action → reason = "current" ∨ reason ∈ reasons.
Proof.
  unfold expected_action, one_of. case_bool_decide; [auto|]. case_bool_decide as Hi; [intros _; right; rewrite Hi; set_solver|].
  case_bool_decide as Ho; [|done]. intros _. right. revert Ho. unfold reasons. rewrite !elem_of_cons. tauto.
Qed.

Lemma verified_reason ed v raw nonce started now reason e :
  verify ed v raw nonce started now = Some (reason, e) → reason = "current" ∨ reason ∈ reasons.
Proof.
  unfold verify. intros ([[[key digest] sig] payload] & _ & Hb)%bind_Some. revert Hb.
  do 2 unbind. case_match; [done|]. case_match eqn:E; [done|].
  do 2 unbind. case_match; [done|]. case_match; [done|]. intros [= <- _].
  apply negb_false_iff, bool_decide_eq_true in E. by eapply action_reason.
Qed.

Definition renewal_ok (a : attempt) (r : smartAccessRuntimeRenewalDecision) : Prop :=
  (∃ l, rd_lease r = Some l ∧ rd_restriction r = "" ∧ identity_valid l = true ∧ follows l (a_previous a) = true ∧
        LeaseID l ≠ LeaseID (a_previous a) ∧ some_date (rd_activeUntil r)) ∨
  (rd_lease r = None ∧ one_of ["drain"; "terminate"] (rd_restriction r) = true).

Lemma renewal_action_one reason action : renewal_action reason = Some action → one_of ["drain"; "terminate"] action = true.
Proof. unfold renewal_action. repeat (case_match; try done); by intros [= <-]. Qed.

Lemma verified_renewal ed v raw nonce a started now r :
  verifyRenewal ed v raw nonce a started now = Some r → renewal_ok a r.
Proof.
  unfold verifyRenewal. intros ([[[key digest] sig] payload] & _ & Hb)%bind_Some. revert Hb.
  destruct (smartAccessControlObject renewal_fields payload) as [values|].
  - intros (texts & _ & Hb)%bind_Some. revert Hb. case_match; [done|]. intros (l & Hl & Hb)%bind_Some. revert Hb.
    case_match eqn:Ef; [done|]. do 2 (case_match; [done|]). intros [= <-]. left. exists l. cbn. bsplit.
    apply bind_Some in Hl as (? & _ & Hl). apply parsed_identity in Hl. split_and!; try done.
    destruct (identity_dates l Hl) as (i & n & t & _ & _ & Ht & _). unfold control_time.
    rewrite (utc_control _ _ Ht). right. eauto.
  - unfold verifyRenewalRestriction. do 2 unbind. case_match; [done|].
    case_match eqn:E; [done|]. case_match; [done|]. do 2 unbind. do 2 (case_match; [done|]).
    intros [= <-]. right. split; [done|]. apply negb_false_iff, bool_decide_eq_true in E. by eapply renewal_action_one.
Qed.

(** ** Renewing the lease of an outbound *)

(** [RenewLease_in] is [SaOutbound.RenewLease] with a callback that has a state:
    the callback is called at most once, and the lease changes only after it
    has succeeded. *)
Lemma renew_in_spec {St} n1 n2 n3 expected nextID iss nu au (f : time → St → option string * St) w s res w' s' :
  RenewLease_in n1 n2 n3 expected nextID iss nu au f w s = (res, w', s') →
  SaOutbound.RenewLease n1 n2 n3 expected nextID iss nu au (λ t, (f t s).1) w = (res, w') ∧
  ((s' = s ∧ SaOutbound.getLeaseID w' = SaOutbound.getLeaseID w) ∨
   ∃ nx, SaOutbound.newLeaseAuthorization n1 nextID iss nu au = Ok nx ∧ s' = (f (SaOutbound.activeUntil nx) s).2 ∧
     (SaOutbound.getLeaseID w' = SaOutbound.getLeaseID w ∨
      (f (SaOutbound.activeUntil nx) s).1 = None ∧ SaOutbound.getLeaseID w = expected ∧ SaOutbound.getLeaseID w' = nextID)).
Proof.
  unfold RenewLease_in, SaOutbound.RenewLease. cbv zeta.
  destruct (SaOutbound.leases _ !! expected) as [a0|]; [|intros [= <- <- <-]; split; [done|by left]].
  destruct (SaOutbound.current_lease w) as [cur|] eqn:Ecur; [|intros [= <- <- <-]; split; [done|by left]].
  destruct (_ || SaOutbound.l_revoked cur); [intros [= <- <- <-]; split; [done|by left]|].
  destruct (SaOutbound.newLeaseAuthorization _ _ _ _ _) as [nx|] eqn:En; [|intros [= <- <- <-]; split; [done|by left]].
  destruct (SaOutbound.admissionExpired nx); [intros [= <- <- <-]; split; [done|by left]|].
  destruct (SaOutbound.same_grant cur nx); [intros [= <- <- <-]; split; [done|by left]|].
  destruct (negb (bool_decide (SaOutbound.id cur = expected)) || _ || _ || _) eqn:Eg;
    [intros [= <- <- <-]; split; [done|by left]|]. bsplit.
  destruct (bool_decide (is_Some _)); [intros [= <- <- <-]; split; [done|by left]|].
  destruct (256 <=? size _)%nat; [intros [= <- <- <-]; split; [done|by left]|].
  destruct (f (SaOutbound.activeUntil nx) s) as [err s1] eqn:Ef. cbn [fst].
  destruct err as [err|]; [intros [= <- <- <-]; split; [done|]; right; exists nx; rewrite Ef; split_and!; [done|done|by left]|].
  destruct (Before n3 (SaOutbound.issued nx) || _ || _);
    [intros [= <- <- <-]; split; [done|]; right; exists nx; rewrite Ef; split_and!; [done|done|by left]|].
  intros [= <- <- <-]. split; [done|]. right. exists nx. rewrite Ef. split_and!; [done|done|right]. split_and!; [done| |].
  - unfold SaOutbound.getLeaseID. by rewrite Ecur.
  - unfold SaOutbound.getLeaseID, SaOutbound.current_lease. simpl. rewrite lookup_insert_eq. cbn.
    by apply newLeaseAuthorization_inv in En as [? _].
Qed.

(** ** The outbounds *)

(** What a revocation leaves: the outbound is revoked for good and, if flows are
    to be terminated, has none. *)
Definition withdrawn_out (terminate : bool) (w : SaOutbound.world) : Prop :=
  SaOutbound.revoked (SaOutbound.ob w) = true ∧ (terminate = true → shut_down w).

Lemma revoke_withdrawn terminate w : SaOutbound.Inv w →
  SaOutbound.Inv (SaOutbound.Revoke terminate w) ∧ withdrawn_out terminate (SaOutbound.Revoke terminate w) ∧
  SaOutbound.getLeaseID (SaOutbound.Revoke terminate w) = SaOutbound.getLeaseID w ∧
  SaOutbound.world_le w (SaOutbound.Revoke terminate w).
Proof.
  intros I. assert (K : SaOutbound.keeps w (SaOutbound.Revoke terminate w)).
  { unfold SaOutbound.Revoke. pose proof (keeps_Revoke_section terminate w) as K.
    destruct (SaOutbound.Revoke_section terminate w) as [fs w1]. eapply SaOutbound.keeps_trans; [exact K|apply keeps_close_flows]. }
  destruct (K I) as [I' L]. split_and!; [done| | |done].
  - split; [|intros ->; by apply revoke_shut]. unfold SaOutbound.Revoke. cbn. by rewrite close_flows_ob.
  - unfold SaOutbound.getLeaseID, SaOutbound.current_lease, SaOutbound.Revoke. cbn. rewrite close_flows_ob. cbn.
    by rewrite close_flows_auths.
Qed.

(** An operation of one outbound in the shared state. *)
Lemma on_outbound_ok {A} k (x0 : A) f x : smart_ok x →
  (∀ w, souts x !! k = Some w → SaOutbound.keeps w (f w).2) → smart_ok (on_outbound k x0 f x).2.
Proof.
  intros I K. unfold on_outbound. destruct (souts x !! k) as [w|] eqn:E; [|done]. specialize (K w eq_refl).
  destruct (f w) as [r w']. cbn [snd] in *. intros j v. simpl. case_key k j; [|apply I]. intros [= <-]. by apply K, (I k).
Qed.

Lemma revoke_leases_spec terminate os x :
  smart_ok x →
  let x' := revoke_leases terminate os x in
  smart_ok x' ∧ rules x' = rules x ∧
  ∀ j w, souts x !! j = Some w → ∃ w', souts x' !! j = Some w' ∧
    (withdrawn_out terminate w ∨ (∃ tag, (tag, RSmart j) ∈ os) → withdrawn_out terminate w').
Proof.
  cbv zeta. revert x. induction os as [|[tag r] os IH]; intros x I; simpl.
  { split_and!; [done|done|]. intros j w Hj. exists w. split; [done|]. intros [?|[t H]]; [done|by apply elem_of_nil in H]. }
  destruct r as [k|k|k|]; [|destruct (IH x I) as (H1 & H2 & H3); split_and!; [done|done|];
    intros j w Hj; destruct (H3 j w Hj) as (w' & Hw' & Hs); exists w'; (split; [done|]);
    intros [?|[t Ht]]; [apply Hs; by left|];
    apply elem_of_cons in Ht as [?|?]; [done|apply Hs; right; by eauto]..].
  unfold on_outbound. destruct (souts x !! k) as [w0|] eqn:E0; cbn [snd].
  - destruct (revoke_withdrawn terminate w0 (I k w0 E0)) as (I0 & W0 & _ & _).
    set (x1 := x <| souts ::= insert k (SaOutbound.Revoke terminate w0) |>).
    assert (I1 : smart_ok x1) by (intros j w; subst x1; simpl; case_key k j; [by intros [= <-]|apply I]).
    destruct (IH x1 I1) as (H1 & H2 & H3). split_and!; [done|done|]. intros j w Hj. destruct (decide (k = j)) as [<-|Hne].
    + destruct (H3 k (SaOutbound.Revoke terminate w0)) as (w' & Hw' & Hs); [subst x1; simpl; by rewrite lookup_insert_eq|].
      exists w'. split; [done|]. intros _. apply Hs. by left.
    + destruct (H3 j w) as (w' & Hw' & Hs); [subst x1; simpl; by rewrite lookup_insert_ne|]. exists w'. split; [done|].
      intros [?|[t [?|Ht]%elem_of_cons]]; apply Hs; [by left|congruence|right; by eauto].
  - destruct (IH x I) as (H1 & H2 & H3). split_and!; [done|done|]. intros j w Hj. destruct (H3 j w Hj) as (w' & Hw' & Hs).
    exists w'. split; [done|]. intros [?|[t [?|Ht]%elem_of_cons]]; apply Hs; [by left|congruence|right; by eauto].
Qed.

Lemma accepts_ok now n l os x : smart_ok x → smart_ok (accepts_enrolment now n l os x).2.
Proof.
  revert n x. induction os as [|[tag [k|k|k|]] os IH]; intros n x I; simpl; auto.
  pose proof (on_outbound_ok k false (SaOutbound.AcceptsRenewalEnrollment (now n) (LeaseID l) (IssuedAt l) (NewFlowsUntil l) (ActiveFlowsUntil l)) x I) as O.
  destruct (on_outbound _ _ _ _) as [ok x1]. cbn [snd] in O. destruct ok; [|apply IH]; apply O; intros w _;
    unfold SaOutbound.AcceptsRenewalEnrollment; case_match; try apply SaOutbound.keeps_refl;
    case_match; try apply SaOutbound.keeps_refl; apply SaOutbound.keeps_admits.
Qed.

Lemma revoke_lease_ok lid terminate os x : smart_ok x → smart_ok (revoke_lease lid terminate os x).2.
Proof.
  revert x. induction os as [|[tag [k|k|k|]] os IH]; intros x I; simpl; auto.
  pose proof (on_outbound_ok k false (SaOutbound.RevokeLease lid terminate) x I) as O.
  destruct (on_outbound _ _ _ _) as [ok x1]. cbn [snd] in O. specialize (IH x1).
  destruct (revoke_lease _ _ _ x1) as [found x2]. cbn [snd] in *. apply IH, O. intros w _. unfold SaOutbound.RevokeLease.
  pose proof (keeps_RevokeLease_section lid terminate w) as K. destruct (SaOutbound.RevokeLease_section lid terminate w) as [[fs|] w1].
  - eapply SaOutbound.keeps_trans; [exact K|apply keeps_close_flows].
  - exact K.
Qed.

(** ** Steps

    [dm] is the service, [alive] the workers whose goroutine runs and [owes] the
    restrictions imposed and not yet acknowledged.  Decisions are those that
    polling any server returns; sixteen random bytes give a generation no worker
    of the process has. *)

Record run := mkRun { dm : daemon; alive : gset nat; owes : list (string * restriction) }.

(** What applying a decision makes owed. *)
Definition control_owes (k : nat) (dec : smartAccessRuntimeDecision) (done : bool) (t : nat → time) (d : daemon)
    : list (string * restriction) :=
  match control_applies k dec done t d with
  | Some w => [(c_ProfileDigest (k_config w), RPolicy (d_reason dec))]
  | None => []
  end.
Definition renewal_owes (k i : nat) (a : attempt) (r : smartAccessRuntimeRenewalDecision) (c : apply_env) (d : daemon)
    : list (string * restriction) :=
  match renewal_applies k i a r c d with
  | Some (w, _, target) =>
      if bool_decide (is_Some (souts (sv_sys (dv d)) !! target)) && negb (bool_decide (rd_restriction r = ""))
      then [(c_ProfileDigest (k_config w), RScope (RuntimeScopeSHA256 (a_previous a)) (rd_restriction r))] else []
  | None => []
  end.

Definition set_store (st : RestrictionStore.world) (d : daemon) : daemon := d <| store := st |>.
(** A new instance of the service, made from options. *)
Definition new_instance (s : service) (route dns : list window_rule) (leases : list string) (d : daemon) : daemon :=
  d <| dv := s |> <| inst ::= S |> <| control := None |>
    <| restrictionExpires := smartAccessProfileRestrictionExpiry route dns leases |>.
(** The process after a crash: only the file is left. *)
Definition restarted (s : service) (d : daemon) : daemon := mkDaemon s 0 None zero_time ∅ ∅ (crash (store d)).

Section Run.
Variable ed25519_Verify : bytes → bytes → bytes → bool.
Variable base_ok : string → bool.

Inductive dstep : run → run → Prop :=
| ds_configure d al o p raw c :
    (∀ b, ce_entropy c = Some b → length b = 16%nat ∧
       ∀ k w, workers d !! k = Some w → k_generation w ≠ str_of_list (hex_encode b)) →
    let d' := (ConfigureSmartAccessRuntimeControl base_ok p raw c d).2 in
    dstep (mkRun d al o) (mkRun d' (al ∪ (dom (workers d') ∖ dom (workers d))) o)
| ds_control d al o k w serve entropy ctxErr started now dec done t wr :
    k ∈ al → workers d !! k = Some w → poll ed25519_Verify serve entropy ctxErr started now w = Some dec →
    dstep (mkRun d al o) (mkRun (applySmartAccessRuntimeControl k dec done t wr d) al (control_owes k dec done t d ++ o))
| ds_enrol d al o p raw now0 now asked done :
    dstep (mkRun d al o) (mkRun (ConfigureSmartAccessRenewal p raw now0 now asked done d).2 al o)
| ds_next d al o k ctl done now order :
    dstep (mkRun d al o) (mkRun (nextSmartAccessRuntimeRenewal k ctl done now order d).2 al o)
| ds_renewal d al o k i w a r serve entropy ctxErr started now c :
    k ∈ al → workers d !! k = Some w → pollRenewal ed25519_Verify serve entropy ctxErr started now w a = Some r →
    dstep (mkRun d al o) (mkRun (applySmartAccessRuntimeRenewal k i a r c d) al (renewal_owes k i a r c d ++ o))
| ds_host d al o t expected next issuedAt newFlowsUntil activeFlowsUntil wr :
    dstep (mkRun d al o) (mkRun (RenewSmartAccessLease t expected next issuedAt newFlowsUntil activeFlowsUntil wr d).2 al o)
| ds_revoke_policy d al o terminate : dstep (mkRun d al o) (mkRun (RevokeSmartAccessPolicy terminate d).2 al o)
| ds_revoke_lease d al o lid terminate : dstep (mkRun d al o) (mkRun (RevokeSmartAccessLease lid terminate d).2 al o)
| ds_ends d al o k wr : k ∈ al → dstep (mkRun d al o) (mkRun (worker_ends k wr d) (al ∖ {[k]}) o)
| ds_read d al o rd wr : dstep (mkRun d al o) (mkRun (set_store (ReadSmartAccessRestrictions rd wr (store d)).2 d) al o)
| ds_ack d al o digest rd wr wr' :
    let res := AcknowledgeSmartAccessRestrictions digest rd wr wr' (store d) in
    dstep (mkRun d al o)
      (mkRun (set_store res.2 d) al (match res.1 with Ok true => settle (jr (store d)) o | _ => o end))
| ds_instance d al o s route dns leases :
    smart_ok (sv_sys s) → dstep (mkRun d al o) (mkRun (new_instance s route dns leases d) al o)
| ds_service d al o s : smart_ok (sv_sys s) → dstep (mkRun d al o) (mkRun (d <| dv := s |>) al o)
| ds_crash d al o s : smart_ok (sv_sys s) → dstep (mkRun d al o) (mkRun (restarted s d) ∅ o).
End Run.

(** The first start, without a journal. *)
Definition first_service (s : service) : run := mkRun (mkDaemon s 0 None zero_time ∅ ∅ (mkWorld None new_journal)) ∅ [].

(** ** The invariant *)

Definition history_of (x : run) : history := mkHistory (store (dm x)) (owes x).

Definition worker_ok (w : worker) : Prop :=
  smartAccessRuntimeDigest (c_ProfileDigest (k_config w)) = true ∧ smartAccessLeaseID (k_generation w) = true.

Record rinv (x : run) : Prop := mkRinv {
  ri_workers : ∀ k w, workers (dm x) !! k = Some w → worker_ok w;
  ri_distinct : ∀ k k' w w', workers (dm x) !! k = Some w → workers (dm x) !! k' = Some w' →
    k_generation w = k_generation w' → k = k';
  ri_enrolments : ∀ i e, enrolments (dm x) !! i = Some e → identity_valid (e_current e) = true;
  ri_date : some_date (restrictionExpires (dm x));
  ri_smart : smart_ok (sv_sys (dv (dm x)));
  ri_live : ∀ k w, k ∈ alive x → workers (dm x) !! k = Some w → control (dm x) = Some k →
    lives (store (dm x)) !! c_ProfileDigest (k_config w) = Some (k_generation w) }.

(** Steps that leave workers, enrolments and the live generations alone. *)
Lemma rinv_frame d al o d' o' :
  rinv (mkRun d al o) → workers d' = workers d → enrolments d' = enrolments d → control d' = control d →
  some_date (restrictionExpires d') → smart_ok (sv_sys (dv d')) → lives (store d') = lives (store d) →
  rinv (mkRun d' al o').
Proof.
  intros [H1 H2 H3 H4 H5 H6] Ew Ee Ec Hd Hs El. cbn in *.
  constructor; cbn; rewrite ?Ew, ?Ee, ?Ec, ?El; done.
Qed.

(** ** Dates *)

Lemma retain_expiry_date e v : some_date e → some_date (retain_expiry e v).
Proof.
  intros He. unfold retain_expiry. destruct (smartAccessControlTime v) as [t|] eqn:E; [|done].
  destruct (After t e) eqn:Ea; [|done]. right. exists v. apply control_utc; [done|].
  pose proof (control_mono _ _ E) as Mt. pose proof (some_date_mono e He) as Me. unfold After in Ea.
  rewrite before_wall in Ea by done. assert (0 ≤ wall e); [|lia].
  destruct He as [->|[u Hu]]; [done|by eapply parse_utc_nonneg].
Qed.

Lemma foldl_date {A} (f : time → A → time) l e : (∀ e a, a ∈ l → some_date e → some_date (f e a)) → some_date e →
  some_date (foldl f e l).
Proof.
  revert e. induction l as [|a l IH]; intros e Hf He; [done|]. cbn. apply IH.
  - intros ? b Hb. apply Hf. by apply elem_of_cons; right.
  - apply Hf; [|done]. apply elem_of_cons. by left.
Qed.

Fixpoint rule_depth (r : window_rule) : nat := match r with WindowRule _ rs => S (foldr (λ r n, rule_depth r `max` n)%nat 0%nat rs) end.

Lemma rule_depth_in r e rs : r ∈ rs → (rule_depth r < rule_depth (WindowRule e rs))%nat.
Proof.
  cbn. induction rs as [|x rs IH]; [by intros ?%elem_of_nil|]. intros [->|H]%elem_of_cons; cbn; [lia|]. specialize (IH H). lia.
Qed.

Lemma rule_expiry_date r e : some_date e → some_date (rule_expiry e r).
Proof.
  remember (rule_depth r) as n eqn:En. revert r e En. induction (lt_wf n) as [n _ IH]. intros [window rs] e -> He. cbn.
  apply foldl_date; [|destruct window; cbn; [by apply retain_expiry_date|done]].
  intros e' r Hr He'. eapply IH; [by apply (rule_depth_in r window)|done|done].
Qed.

Lemma profile_expiry_date route dns leases : some_date (smartAccessProfileRestrictionExpiry route dns leases).
Proof.
  unfold smartAccessProfileRestrictionExpiry.
  repeat (apply foldl_date; [intros; first [by apply retain_expiry_date|by apply rule_expiry_date]|]). by left.
Qed.

(** ** The operations keep the invariant, and step the journal *)

Definition good (x x' : run) : Prop := rinv x' ∧ rtc jstep (history_of x) (history_of x').

Lemma good_same x : rinv x → good x x.
Proof. intros I. by split. Qed.

Lemma al_same (d d' : daemon) (al : gset nat) : workers d' = workers d → al ∪ (dom (workers d') ∖ dom (workers d)) = al.
Proof. intros ->. rewrite difference_diag_L. set_solver. Qed.

Lemma good_store d al o st o' :
  rinv (mkRun d al o) → lives st = lives (store d) → jstep (mkHistory (store d) o) (mkHistory st o') →
  good (mkRun d al o) (mkRun (set_store st d) al o').
Proof.
  intros I El Hs. split; [|by apply rtc_once]. eapply (rinv_frame d al o); try done; apply I.
Qed.

Lemma good_configure base_ok d al o p raw c :
  rinv (mkRun d al o) →
  (∀ b, ce_entropy c = Some b → length b = 16%nat ∧
     ∀ k w, workers d !! k = Some w → k_generation w ≠ str_of_list (hex_encode b)) →
  let d' := (ConfigureSmartAccessRuntimeControl base_ok p raw c d).2 in
  good (mkRun d al o) (mkRun d' (al ∪ (dom (workers d') ∖ dom (workers d))) o).
Proof.
  intros I He. cbv zeta. unfold ConfigureSmartAccessRuntimeControl.
  assert (G : good (mkRun d al o) (mkRun d (al ∪ (dom (workers d) ∖ dom (workers d))) o))
    by (rewrite al_same by done; by apply good_same).
  destruct (parseSmartAccessRuntimeControl base_ok raw (ce_parse c)) as [w|] eqn:Ew; [|done].
  destruct (parsed_control _ _ _ _ Ew) as [Hp Hc].
  destruct (negb (bool_decide (c_ProfileDigest (k_config w) = p))) eqn:Ep; [done|].
  apply negb_false_iff, bool_decide_eq_true in Ep. rewrite Ep in Hp.
  destruct (negb (running (dv d))); [done|]. destruct (Before (ce_now c) (k_issued w) || _ || _); [done|].
  destruct (IsZero (restrictionExpires d) || _); [done|]. destruct (from_option _ _ _) as [[]|]; [done| |done].
  destruct (negb (ce_dialer c)); [done|]. destruct (negb (ce_storage c)); [done|].
  pose proof (begin_live p (c_CatalogSHA256 (k_config w)) (restrictionExpires d) (ce_entropy c) (ce_read c) (ce_write c) (store d)) as L.
  pose proof (js_begin (store d) o p (c_CatalogSHA256 (k_config w)) (restrictionExpires d) (ce_entropy c) (ce_read c) (ce_write c)
    Hp Hc (ri_date _ I) (λ b Hb, proj1 (He b Hb))) as J.
  destruct (begin_ _ _ _ _ _ _ _) as [[g|e] st]; cbn [snd] in *.
  2:{ rewrite al_same by done. by apply good_store. }
  destruct L as (L & b & Hb & ->). destruct (He b Hb) as [Hlen Hnew]. set (k := fresh (dom (workers d))).
  assert (Hk : workers d !! k = None) by (apply not_elem_of_dom, is_fresh).
  split; [|by apply rtc_once]. destruct I as [H1 H2 H3 H4 H5 H6]. constructor; cbn in *.
  - intros j v. case_key k j; [|apply H1]. intros [= <-]. split; cbn; [by rewrite Ep|]. exact (hex_encode_hex b 16 Hlen).
  - intros j j' v v'. case_key k j; case_key k j'; intros Hv Hv'; simplify_eq/=.
    + done.
    + intros E. by destruct (Hnew j' v').
    + intros E. by destruct (Hnew j v).
    + by eapply H2.
  - done.
  - done.
  - done.
  - intros j v _ Hv [= <-]. rewrite lookup_insert_eq in Hv. injection Hv as <-. cbn. rewrite L, Ep. by rewrite lookup_insert_eq.
Qed.

Lemma speaks_spec k d w : speaks k d = Some w →
  workers d !! k = Some w ∧ running (dv d) = true ∧ k_instance w = inst d ∧ control d = Some k.
Proof. unfold speaks. case_match; [|done]. case_match eqn:E; [|done]. intros [= <-]. by bsplit. Qed.

Lemma control_applies_spec k dec done t d w : control_applies k dec done t d = Some w →
  speaks k d = Some w ∧ d_reason dec ≠ "current".
Proof. unfold control_applies. destruct (speaks k d); [|done]. case_match eqn:E; [|done]. intros [= <-]. by bsplit. Qed.

Lemma box_smart now s : smart_ok (sv_sys s) → smart_ok (sv_sys (Box_RevokeRoutingCatalog now s).2) ∧
  souts (sv_sys (Box_RevokeRoutingCatalog now s).2) = souts (sv_sys s) ∧
  sv_outbounds (Box_RevokeRoutingCatalog now s).2 = sv_outbounds s ∧
  sys_le (sv_sys s) (sv_sys (Box_RevokeRoutingCatalog now s).2) ∧
  ∀ i w, i ∈ sv_dns_rules s ++ sv_route_rules s → window_of i (sv_sys s) = Some w →
    latched i (sv_sys (Box_RevokeRoutingCatalog now s).2).
Proof.
  intros I. unfold Box_RevokeRoutingCatalog.
  destruct (revoke_rules_spec now (sv_dns_rules s) (sv_sys s)) as (A1 & A2 & A3 & _).
  destruct (revoke_rules _ (sv_dns_rules s) _) as [f1 x1]. cbn [snd] in *.
  destruct (revoke_rules_spec now (sv_route_rules s) x1) as (B1 & B2 & B3 & _).
  destruct (revoke_rules _ (sv_route_rules s) _) as [f2 x2]. cbn in *.
  split_and!; [unfold smart_ok; rewrite B2, A2; exact I|congruence|done|by etrans|].
  intros i w [Hi|Hi]%elem_of_app Hw; [eapply latched_le; [exact B1|]; by eapply A3|].
  destruct (window_of_le _ _ _ _ A1 Hw) as (w' & Hw' & _). by eapply B3.
Qed.

Lemma polled_reason ed serve entropy ctxErr started now w dec : poll ed serve entropy ctxErr started now w = Some dec →
  d_reason dec = "current" ∨ d_reason dec ∈ reasons.
Proof.
  unfold poll. do 2 unbind. intros ([reason e] & Hv & Hb)%bind_Some. injection Hb as <-. by eapply verified_reason.
Qed.

Lemma polled_renewal ed serve entropy ctxErr started now w a r :
  pollRenewal ed serve entropy ctxErr started now w a = Some r → renewal_ok a r.
Proof. unfold pollRenewal. do 2 unbind. apply verified_renewal. Qed.

Lemma good_control ed d al o k w serve entropy ctxErr started now dec done t wr :
  rinv (mkRun d al o) → k ∈ al → workers d !! k = Some w → poll ed serve entropy ctxErr started now w = Some dec →
  good (mkRun d al o) (mkRun (applySmartAccessRuntimeControl k dec done t wr d) al (control_owes k dec done t d ++ o)).
Proof.
  intros I Hk Hw Hv. unfold applySmartAccessRuntimeControl, control_owes.
  destruct (control_applies k dec done t d) as [w'|] eqn:Ea; [|by apply good_same].
  apply control_applies_spec in Ea as [(Hw' & _ & _ & Hc)%speaks_spec Hr].
  assert (w' = w) as -> by congruence. pose proof (ri_live _ I k w Hk Hw Hc) as Hl.
  split.
  - apply (rinv_frame d al o); try done; [apply I| |apply restrict_live]. cbn. case_match.
    + by apply revoke_leases_spec, box_smart, I.
    + by apply revoke_leases_spec, I.
  - apply rtc_once. cbn. apply js_restrict; [done|]. by destruct (polled_reason _ _ _ _ _ _ _ _ Hv).
Qed.

Lemma choose_enrolled now d order s i e : choose now d order = Some (s, i, e) → enrolments d !! i = Some e.
Proof.
  unfold choose. set (f := λ best se, _).
  assert (∀ b, (∀ s i e, b = Some (s, i, e) → enrolments d !! i = Some e) → foldl f b order = Some (s, i, e) →
    enrolments d !! i = Some e) as G; [|by apply G].
  induction order as [|se order IH]; intros b Hb; cbn; [apply Hb|]. apply IH. unfold f.
  destruct (enrolments d !! se.2) as [x|] eqn:Ex; [|done]. case_match; [|done]. by intros ? ? ? [= <- <- <-].
Qed.

Lemma good_next d al o k ctl done now order :
  rinv (mkRun d al o) → good (mkRun d al o) (mkRun (nextSmartAccessRuntimeRenewal k ctl done now order d).2 al o).
Proof.
  intros I. unfold nextSmartAccessRuntimeRenewal. destruct (speaks k d) as [w|]; [|by apply good_same].
  destruct (done || _ || _ || _ || _ || _); [by apply good_same|].
  destruct (choose now d order) as [[[s i] e]|] eqn:Ec; [|by apply good_same]. split; [|done].
  apply choose_enrolled in Ec. destruct I as [H1 H2 H3 H4 H5 H6]. constructor; cbn in *; try done.
  intros j x. case_key i j; [|apply H3]. intros [= <-]. cbn. by eapply H3.
Qed.

Lemma alter_worker f d k j w : alter f k (workers d) !! j = Some w → (∀ w, k_config (f w) = k_config w ∧ k_generation (f w) = k_generation w) →
  ∃ w0, workers d !! j = Some w0 ∧ k_config w = k_config w0 ∧ k_generation w = k_generation w0.
Proof.
  intros H Hf. destruct (decide (k = j)) as [<-|Hne].
  - rewrite lookup_alter_eq in H. destruct (workers d !! k) as [w0|]; [|done]. injection H as <-. exists w0. split; [done|apply Hf].
  - rewrite lookup_alter_ne in H by done. eauto.
Qed.

(** Changing the enrolments of a worker. *)
Lemma rinv_renewals f d al o k :
  rinv (mkRun d al o) → (∀ w, k_config (f w) = k_config w ∧ k_generation (f w) = k_generation w) →
  rinv (mkRun (d <| workers ::= alter f k |>) al o).
Proof.
  intros [H1 H2 H3 H4 H5 H6] Hf. constructor; cbn in *; try done.
  - intros j w (w0 & Hw & Ec & Eg)%alter_worker; [|done]. unfold worker_ok. rewrite Ec, Eg. by eapply H1.
  - intros j j' w w' (w0 & Hw & _ & Eg)%alter_worker (w0' & Hw' & _ & Eg')%alter_worker E; [|done..]. eapply H2; [done|done|congruence].
  - intros j w Hj (w0 & Hw & Ec & Eg)%alter_worker Hc; [|done]. rewrite Ec, Eg. by eapply H6.
Qed.

Lemma rinv_enrolled d al o i e : rinv (mkRun d al o) → identity_valid (e_current e) = true →
  rinv (mkRun (d <| enrolments ::= insert i e |>) al o).
Proof.
  intros [H1 H2 H3 H4 H5 H6] He. constructor; cbn in *; try done. intros j x. case_key i j; [|apply H3]. by intros [= <-].
Qed.

Lemma good_enrol d al o p raw now0 now asked done :
  rinv (mkRun d al o) → good (mkRun d al o) (mkRun (ConfigureSmartAccessRenewal p raw now0 now asked done d).2 al o).
Proof.
  intros I. unfold ConfigureSmartAccessRenewal.
  destruct (parseSmartAccessRuntimeRenewal raw now0) as [r|] eqn:Er; [|by apply good_same]. apply parsed_renewal in Er.
  destruct (negb (bool_decide _)); [by apply good_same|]. destruct (negb (running (dv d))); [by apply good_same|].
  destruct (control d ≫= _) as [[k w]|]; [|by apply good_same].
  destruct (done || _ || _ || _ || _ || _ || _ || _ || _ || _); [by apply good_same|].
  pose proof (accepts_ok asked 0 (n_Lease (e_config r)) (sv_outbounds (dv d)) (sv_sys (dv d)) (ri_smart _ I)) as Hx.
  destruct (accepts_enrolment _ _ _ _ _) as [found x]. cbn [snd] in Hx.
  assert (I1 : rinv (mkRun (d <| dv ::= λ s, s <| sv_sys := x |> |>) al o)) by (apply (rinv_frame d al o); try done; apply I).
  destruct (negb found); [by split|].
  set (d1 := d <| dv ::= λ s, s <| sv_sys := x |> |>) in *. set (renewals := unexpired now d1 (k_renewals w)).
  assert (I2 : rinv (mkRun (d1 <| workers ::= alter (λ w, w <| k_renewals := renewals |>) k |>) al o)) by by apply rinv_renewals.
  cbv zeta. destruct (match _ with None => _ | Some _ => _ end) as [[]|]; [by split| |by split].
  case_match; [by split|]. split; [|done]. apply rinv_renewals; [|done]. by apply rinv_enrolled.
Qed.

Lemma good_ends d al o k wr : rinv (mkRun d al o) → good (mkRun d al o) (mkRun (worker_ends k wr d) (al ∖ {[k]}) o).
Proof.
  intros I. unfold worker_ends. destruct (workers d !! k) as [w|] eqn:Ew.
  - destruct (ri_workers _ I k w Ew) as [_ Hg]. split; [|apply rtc_once; by apply js_finish].
    destruct I as [H1 H2 H3 H4 H5 H6]. constructor; cbn in *; try done.
    intros j v [Hj Hne%not_elem_of_singleton]%elem_of_difference Hv Hc. specialize (H6 j v Hj Hv Hc). rewrite finish_live.
    case_bool_decide as Hb; [|done]. rewrite lookup_delete_ne; [done|]. intros E. apply Hne, (H2 _ _ _ _ Hv Ew).
    unfold live_of in Hb. rewrite E, H6 in Hb. done.
  - split; [|done]. destruct I as [H1 H2 H3 H4 H5 H6]. constructor; cbn in *; try done. intros j v Hj. apply H6. set_solver.
Qed.

(** ** Renewals *)

Lemma set_outbound_ok k w d : smart_ok (sv_sys (dv d)) → SaOutbound.Inv w → smart_ok (sv_sys (dv (set_outbound k w d))).
Proof. intros I Iw j v. cbn. case_key k j; [by intros [= <-]|apply I]. Qed.

Lemma renew_in_keeps {St} n1 n2 n3 expected nextID iss nu au (f : time → St → option string * St) w s res w' s' :
  RenewLease_in n1 n2 n3 expected nextID iss nu au f w s = (res, w', s') → SaOutbound.Inv w → SaOutbound.Inv w'.
Proof.
  intros [H _]%renew_in_spec I.
  destruct (SaOutbound.keeps_renew n1 n2 n3 expected nextID iss nu au (λ t, (f t s).1) w I) as [I' _]. by rewrite H in I'.
Qed.

Lemma retain_callback_steps c w a r next ids t st o :
  smartAccessLeaseID (k_generation w) = true → identity_valid (a_previous a) = true → identity_valid next = true →
  let st' := (retain_callback c w a r next ids t st).2 in
  rtc jstep (mkHistory st o) (mkHistory st' o) ∧ lives st' = lives st.
Proof.
  intros Hg Hp Hn. cbv zeta. unfold retain_callback. destruct (negb (fresh_at c 1 w a r)); [done|].
  pose proof (js_retain st o (c_ProfileDigest (k_config w)) _ _ _ ids (ae_journal c) (ae_write c) Hg Hp Hn) as J.
  pose proof (retain_live (c_ProfileDigest (k_config w)) (k_generation w) (a_previous a) next ids (ae_journal c) (ae_write c) st) as L.
  destruct (retainRenewal _ _ _ _ _ _ _ st) as [[e|] st']; cbn [snd] in *; [split; [by apply rtc_once|done]|].
  case_match; (split; [by apply rtc_once|done]).
Qed.

Lemma renewal_applies_spec k i a r c d w ids target : renewal_applies k i a r c d = Some (w, ids, target) →
  speaks k d = Some w ∧ ∃ e, enrolments d !! i = Some e ∧ e_current e = a_previous a.
Proof.
  unfold renewal_applies. destruct (speaks k d) as [w0|]; [|done]. case_match eqn:E; [done|]. bsplit.
  destruct (current_ids _ _ _ _ _) as [[ids0 [t|]]|]; [|done..]. intros [= <- <- <-]. split; [done|].
  destruct (enrolments d !! i) as [e|]; [|done]. cbn in *. simplify_eq. eauto.
Qed.

Lemma identity_scope l : identity_valid l = true → smartAccessRuntimeDigest (RuntimeScopeSHA256 l) = true.
Proof.
  intros [H _]%andb_true_iff. bsplit. rewrite forallb_forall in *.
  match goal with H : ∀ x, In x [_; _; RuntimeScopeSHA256 l] → _ |- _ => apply H end. by do 2 right; left.
Qed.

Lemma good_renewal ed d al o k i w a r serve entropy ctxErr started now c :
  rinv (mkRun d al o) → k ∈ al → workers d !! k = Some w →
  pollRenewal ed serve entropy ctxErr started now w a = Some r →
  good (mkRun d al o) (mkRun (applySmartAccessRuntimeRenewal k i a r c d) al (renewal_owes k i a r c d ++ o)).
Proof.
  intros I Hk Hw Hv%polled_renewal. unfold applySmartAccessRuntimeRenewal, renewal_owes.
  destruct (renewal_applies k i a r c d) as [[[w' ids] target]|] eqn:Ea; [|by apply good_same].
  apply renewal_applies_spec in Ea as [(Hw' & _ & _ & Hc)%speaks_spec (e & He & Hcur)].
  assert (w' = w) as -> by congruence. clear Hw'. pose proof (ri_enrolments _ I i e He) as Hid. rewrite Hcur in Hid.
  pose proof (ri_live _ I k w Hk Hw Hc) as Hl. destruct (ri_workers _ I k w Hw) as [_ Hg]. cbn in Hl.
  destruct (souts (sv_sys (dv d)) !! target) as [ow|] eqn:Eo; [|by apply good_same].
  rewrite (bool_decide_eq_true_2 (is_Some _)) by (by eexists). cbn [andb]. pose proof (ri_smart _ I target ow Eo) as Io.
  destruct Hv as [(l & Hrl & Hrr & Hvl & _ & _ & Hd)|[Hrl Hrr]].
  - rewrite Hrr. rewrite (bool_decide_eq_true_2 ("" = "")) by done. cbn [negb app]. rewrite Hrl.
    destruct (RenewLease_in _ _ _ _ _ _ _ _ _ _ _) as [[res o'] st] eqn:Er. pose proof (renew_in_keeps _ _ _ _ _ _ _ _ _ _ _ _ _ _ Er Io) as Io'.
    apply renew_in_spec in Er as [_ Hst].
    assert (rtc jstep (mkHistory (store d) o) (mkHistory st o) ∧ lives st = lives (store d)) as [J L].
    { destruct Hst as [[-> _]|(nx & _ & -> & _)]; [done|]. by apply retain_callback_steps. }
    assert (I1 : rinv (mkRun (set_outbound target o' d <| store := st |>) al o)).
    { apply (rinv_frame d al o); try done; [apply I|]. apply set_outbound_ok; [apply I|done]. }
    destruct res as [[]|]; [|by split..]. split; [|done]. destruct I1 as [H1 H2 H3 H4 H5 H6]. constructor; try done.
    + intros j x. cbn. destruct (decide (i = j)) as [<-|Hne]; [|rewrite lookup_alter_ne by done; apply H3].
      rewrite lookup_alter_eq, He. by intros [= <-].
    + cbn. case_match; [done|exact H4].
  - destruct (bool_decide (rd_restriction r = "")) eqn:Eb; [apply bool_decide_eq_true in Eb; by rewrite Eb in Hrr|].
    cbn [negb app]. split.
    + apply (rinv_frame d al o); try done; [apply I| |apply scope_live].
      change (smart_ok (sv_sys (dv (set_outbound target (SaOutbound.Revoke (bool_decide (rd_restriction r = "terminate")) ow) d)))).
      apply set_outbound_ok; [apply I|]. by apply revoke_withdrawn.
    + apply rtc_once. apply js_scope; [done| |done]. by apply identity_scope.
Qed.

Lemma extend_callback_steps wr wk t e st o v :
  (∀ w, wk = Some w → smartAccessLeaseID (k_generation w) = true) → some_date e → parse_utc v = Some t →
  let s' := (extend_callback wr wk t (e, st)).2 in
  rtc jstep (mkHistory st o) (mkHistory s'.2 o) ∧ lives s'.2 = lives st ∧ some_date s'.1.
Proof.
  intros Hg He Ht. cbv zeta. unfold extend_callback. cbn [fst snd]. destruct (negb (After t e)); [done|].
  assert (some_date t) by (right; eauto). destruct wk as [w|]; [|done]. specialize (Hg w eq_refl).
  pose proof (js_extend st o (c_ProfileDigest (k_config w)) _ t wr Hg ltac:(done)) as J.
  pose proof (extend_live (c_ProfileDigest (k_config w)) (k_generation w) t wr st) as L.
  destruct (extendExpiry _ _ _ _ _) as [[x|] st']; cbn [snd fst] in *; (split_and!; [by apply rtc_once|done|done]).
Qed.

Lemma good_trans x1 x2 x3 : good x1 x2 → (rinv x2 → good x2 x3) → good x1 x3.
Proof. intros [I H] H'. destruct (H' I) as [I' H'']. split; [done|]. by etrans. Qed.

Lemma good_renew_host t expected nextID iss nu au wr wk os n d al o :
  rinv (mkRun d al o) → (∀ w, wk = Some w → smartAccessLeaseID (k_generation w) = true) →
  good (mkRun d al o) (mkRun (renew_host t expected nextID iss nu au wr wk os n d).2 al o).
Proof.
  revert n d. induction os as [|[tag [k|k|k|]] os IH]; intros n d I Hg; cbn [renew_host snd]; auto using good_same.
  destruct (souts (sv_sys (dv d)) !! k) as [ow|] eqn:Eo; [|by apply IH].
  destruct (RenewLease_in _ _ _ _ _ _ _ _ _ _ _) as [[res o'] [e st]] eqn:Er.
  pose proof (renew_in_keeps _ _ _ _ _ _ _ _ _ _ _ _ _ _ Er (ri_smart _ I k ow Eo)) as Io'.
  apply renew_in_spec in Er as [_ Hst].
  assert (rtc jstep (mkHistory (store d) o) (mkHistory st o) ∧ lives st = lives (store d) ∧ some_date e) as (J & L & Hd).
  { destruct Hst as [[[= -> ->] _]|(nx & Hx & Es & _)]; [split_and!; [done|done|apply I]|].
    apply newLeaseAuthorization_inv in Hx as (_ & _ & _ & Ha & _).
    pose proof (extend_callback_steps (wr n) wk _ (restrictionExpires d) (store d) o _ Hg (ri_date _ I) Ha) as X. by rewrite <- Es in X. }
  assert (G : good (mkRun d al o) (mkRun (set_outbound k o' d <| store := st |> <| restrictionExpires := e |>) al o)).
  { split; [|done]. apply (rinv_frame d al o); try done. apply set_outbound_ok; [apply I|done]. }
  destruct res as [[]|]; [exact G| |exact G]. eapply good_trans; [exact G|]. intros I'. by apply IH.
Qed.

Lemma previous_generation d al o w : rinv (mkRun d al o) → previous_worker d = Some w → smartAccessLeaseID (k_generation w) = true.
Proof. intros I (k & _ & Hk)%bind_Some. by apply (ri_workers _ I k w). Qed.

Lemma dstep_good ed base_ok x x' : rinv x → dstep ed base_ok x x' → good x x'.
Proof.
  intros I. destruct 1.
  - by apply good_configure.
  - by eapply good_control.
  - by apply good_enrol.
  - by apply good_next.
  - by eapply good_renewal.
  - unfold RenewSmartAccessLease. do 2 (case_match; [by apply good_same|]). apply good_renew_host; [done|].
    intros w. by eapply previous_generation.
  - unfold RevokeSmartAccessPolicy. case_match; [by apply good_same|]. split; [|done].
    apply (rinv_frame d al o); try done; [apply I|]. by apply revoke_leases_spec, I.
  - unfold RevokeSmartAccessLease. do 2 (case_match; [by apply good_same|]).
    pose proof (revoke_lease_ok lid terminate (sv_outbounds (dv d)) (sv_sys (dv d)) (ri_smart _ I)) as Hx.
    destruct (revoke_lease _ _ _ _) as [found x]. split; [|done]. apply (rinv_frame d al o); try done. apply I.
  - by apply good_ends.
  - apply good_store; [done|apply read_live|apply js_read].
  - apply good_store; [done|apply ack_live|apply js_ack].
  - split; [|done]. destruct I as [H1 H2 H3 H4 H5 H6]. constructor; cbn in *; try done. apply profile_expiry_date.
  - split; [|done]. by apply (rinv_frame d al o); try done; apply I.
  - split; [|apply rtc_once, js_crash]. constructor; cbn; try done. by left.
Qed.

Lemma first_rinv s : smart_ok (sv_sys s) → rinv (first_service s).
Proof. intros I. constructor; cbn; try done. by left. Qed.

Lemma rinv_reach ed base_ok s x : smart_ok (sv_sys s) → rtc (dstep ed base_ok) (first_service s) x →
  rinv x ∧ rtc jstep first_run (history_of x).
Proof.
  intros Hs R. assert (∀ y, rtc (dstep ed base_ok) y x → rinv y → good y x) as G.
  { clear. induction 1 as [y|y y' z Hy _ IH]; intros I; [by apply good_same|]. by eapply good_trans; [apply (dstep_good ed base_ok y y' I Hy)|]. }
  exact (G _ R (first_rinv s Hs)).
Qed.

(** ** What holds of every run *)

(** C5: The journal of the service runs as the journal's own steps describe.  In
    whatever order workers are configured, decisions and renewals applied,
    leases enrolled, the host's commands run, workers end, instances are
    replaced and the process crashes, with reads and writes that may fail, the
    journal's state with the restrictions imposed so far is one the journal
    reaches by its own steps; the running worker of the present instance holds
    the live generation of its profile. *)
Theorem service_refines_journal ed base_ok s x :
  smart_ok (sv_sys s) → rtc (dstep ed base_ok) (first_service s) x →
  rtc jstep first_run (history_of x) ∧
  ∀ k w, k ∈ alive x → speaks k (dm x) = Some w →
    lives (store (dm x)) !! c_ProfileDigest (k_config w) = Some (k_generation w).
Proof.
  intros Hs R. destruct (rinv_reach _ _ _ _ Hs R) as [I J]. split; [done|].
  intros k w Hk (Hw & _ & _ & Hc)%speaks_spec. by eapply (ri_live _ I).
Qed.

(** C2: A verified decision of the control plane is enforced at once and for
    good.  When a worker that speaks for the running instance applies a decision
    other than [current], every Smart Access outbound is revoked and admits no
    flow again, with its flows closed unless only issuance is disabled; if the
    catalog is disabled or access denied, no rule with a catalog window matches
    again; and whether or not the journal could be written, a process started
    after a crash refuses the profile until the restriction is acknowledged. *)
Theorem control_enforced ed base_ok s d al o k w serve entropy ctxErr started now dec done t wr :
  smart_ok (sv_sys s) → rtc (dstep ed base_ok) (first_service s) (mkRun d al o) →
  k ∈ al → poll ed serve entropy ctxErr started now w = Some dec → control_applies k dec done t d = Some w →
  let d' := applySmartAccessRuntimeControl k dec done t wr d in
  (∀ tag j ow, (tag, RSmart j) ∈ sv_outbounds (dv d) → souts (sv_sys (dv d)) !! j = Some ow →
     ∃ ow', souts (sv_sys (dv d')) !! j = Some ow' ∧ (d_reason dec ≠ "issuance_disabled" → shut_down ow') ∧
       ∀ later u, rtc SaOutbound.step ow' later → (SaOutbound.AdmitsNewFlows u later).1 = false) ∧
  (d_reason dec = "catalog_disabled" ∨ d_reason dec = "access_denied" →
     ∀ i win, i ∈ sv_dns_rules (dv d) ++ sv_route_rules (dv d) → window_of i (sv_sys (dv d)) = Some win →
     ∀ x c m, rtc sstep (sv_sys (dv d')) x → env_ok c → (Match c i m x).1.1 = false) ∧
  (∀ catalog e entropy rd wr',
     (begin_ (c_ProfileDigest (k_config w)) catalog e entropy rd wr' (crash (store d'))).1 =
       Err (if rd then recovery_required else storage_invalid)).
Proof.
  intros Hs R Hk Hv Ha d'. pose proof (control_applies_spec _ _ _ _ _ _ Ha) as [(Hw & _)%speaks_spec _].
  destruct (rinv_reach _ _ _ _ Hs R) as [I J]. pose proof (ri_smart _ I) as Is. cbn [dm] in Is.
  destruct (good_control ed d al o k w serve entropy ctxErr started now dec done t wr I Hk Hw Hv) as [_ J'].
  pose proof (jinv_reach _ (transitivity J J')) as Jv. unfold control_owes, history_of in Jv. rewrite Ha in Jv. cbn [dm owes app] in Jv.
  subst d'. unfold applySmartAccessRuntimeControl in *. rewrite Ha in *. set (reason := d_reason dec) in *.
  destruct (box_smart (t 4%nat) (dv d) Is) as (Ib & Eb & Ob & Lb & Wb).
  set (sb := if one_of _ reason then _ else dv d) in *.
  assert (smart_ok (sv_sys sb) ∧ souts (sv_sys sb) = souts (sv_sys (dv d)) ∧ sv_outbounds sb = sv_outbounds (dv d)) as (Isb & Esb & Osb)
    by (subst sb; by destruct (one_of _ reason)).
  destruct (revoke_leases_spec (negb (bool_decide (reason = "issuance_disabled"))) (sv_outbounds sb) (sv_sys sb) Isb) as (Ir & Er & Sr).
  split_and!.
  - intros tag j ow Hj Ho. cbn. rewrite <- Esb in Ho. destruct (Sr j ow Ho) as (ow' & Ho' & Hd). exists ow'. split; [done|].
    destruct Hd as [Hd1 Hd2]; [right; exists tag; by rewrite Osb|]. split.
    + intros Hn. apply Hd2. by rewrite bool_decide_eq_false_2.
    + intros later u Hl. eapply revoked_refuses; [by eapply Ir|done|done].
  - intros Hr i win Hi Hw' y c m Ry Hc. cbn in Ry.
    assert (Hsb : sb = (Box_RevokeRoutingCatalog (t 4%nat) (dv d)).2).
    { subst sb. unfold one_of. rewrite bool_decide_eq_true_2; [done|]. rewrite !elem_of_cons. tauto. }
    assert (L : latched i y).
    { eapply latched_le; [by apply ssteps_le, Ry|]. eapply latched_le; [exact (sys_le_rules _ _ Er)|].
      rewrite Hsb. by eapply Wb. }
    destruct (latched_rule i y L) as [rule Hrule]. by eapply latched_refuses.
  - intros catalog e entropy' rd wr'. rewrite (owed_refused _ _ _ (RPolicy reason) _ _ _ _ _ (crash_inv _ _ Jv)); [done|by apply elem_of_cons; left|done].
Qed.

(** What a successful [retainRenewal] has written. *)
Lemma retain_written w o p g previous next ids now wr w' :
  jinv (mkHistory w o) → identity_valid previous = true → identity_valid next = true →
  retainRenewal p g previous next ids now wr w = (None, w') →
  ∃ data rs rec, file w' = Some data ∧ load_document data = Some rs ∧ get p rs = Some rec ∧ Generation rec = g ∧
    Pending rec = true ∧ previous ∈ Leases rec ∧ next ∈ Leases rec.
Proof.
  intros I Hv1 Hv2. pose proof (retain_inv w o p g previous next ids now wr I Hv1 Hv2) as I'. revert I'. unfold retainRenewal.
  case_match eqn:E0; [done|]. destruct (find_record (of_generation p g) (records (jr w))) as [[i r]|] eqn:Ef; [|done].
  case_match eqn:E1; [done|]. case_match; [done|]. case_match; [done|]. case_match; [done|]. bsplit.
  pose proof (generation_loaded w o p g _ I Ef) as Hl. set (m := <[LeaseID next := next]> _) in *.
  pose proof (mk_doc _ _ (loaded_memory w o I Hl)) as Md.
  destruct (generation_get p g _ i r (do_distinct _ Md) Ef) as (Hi & Hg & Hp & Hgen).
  destruct (writeLocked wr _) as [err w1] eqn:Ew. destruct err as [err|]; [done|]. intros I' [= <-]. cbn [snd] in I'.
  assert (Hf : file w1 = Some (print (document_json (alter (retain_record m) i (records (jr w))))) ∧
               jr w1 = jr (set_records (alter (retain_record m) i (records (jr w))) w)).
  { revert Ew. unfold writeLocked. repeat (case_match; [done|]). by intros [= <-]. }
  destruct Hf as [Hf Hj]. assert (Hl1 : loaded (jr w1) = true) by (by rewrite Hj).
  pose proof (mk_doc _ _ (loaded_memory w1 o I' Hl1)) as D. rewrite Hj in D. cbn in D.
  eexists _, _, (retain_record m r). split_and!; [exact Hf|by apply load_document_print| | | | |].
  - rewrite (get_alter (retain_record m) i (records (jr w)) r) by (done || apply Md). by rewrite bool_decide_eq_true_2.
  - done.
  - cbn. by destruct (Pending r).
  - cbn. rewrite merge_sort_Permutation. apply list_elem_of_fmap. exists (LeaseID previous, previous). split; [done|].
    apply elem_of_map_to_list. subst m. rewrite lookup_insert_ne, lookup_insert_eq; [done|].
    match goal with H : LeaseID previous ≠ LeaseID next |- _ => congruence end.
  - cbn. rewrite merge_sort_Permutation. apply list_elem_of_fmap. exists (LeaseID next, next). split; [done|].
    apply elem_of_map_to_list. subst m. by rewrite lookup_insert_eq.
Qed.

(** C4: A renewed lease is recorded before it is used.  When applying a verified
    renewal changes the lease of an outbound, the new lease is the verified one,
    a continuation of the lease the attempt was made for; and the file, as a
    process started after a crash reads it, has a pending record of the profile
    and generation with both leases. *)
Theorem renewal_recorded ed base_ok s d al o k i w a r serve entropy ctxErr started now c :
  smart_ok (sv_sys s) → rtc (dstep ed base_ok) (first_service s) (mkRun d al o) →
  k ∈ al → workers d !! k = Some w → pollRenewal ed serve entropy ctxErr started now w a = Some r →
  let d' := applySmartAccessRuntimeRenewal k i a r c d in
  ∀ j ow ow', souts (sv_sys (dv d)) !! j = Some ow → souts (sv_sys (dv d')) !! j = Some ow' →
    SaOutbound.getLeaseID ow' ≠ SaOutbound.getLeaseID ow →
    ∃ l data rs rec, rd_lease r = Some l ∧ follows l (a_previous a) = true ∧
      SaOutbound.getLeaseID ow = LeaseID (a_previous a) ∧ SaOutbound.getLeaseID ow' = LeaseID l ∧
      file (crash (store d')) = Some data ∧ load_document data = Some rs ∧ get (c_ProfileDigest (k_config w)) rs = Some rec ∧
      Generation rec = k_generation w ∧ Pending rec = true ∧ a_previous a ∈ Leases rec ∧ l ∈ Leases rec.
Proof.
  intros Hs R Hk Hw Hv%polled_renewal d' j ow ow' Ho Ho' Hne. destruct (rinv_reach _ _ _ _ Hs R) as [I J%jinv_reach].
  subst d'. unfold applySmartAccessRuntimeRenewal in *.
  destruct (renewal_applies k i a r c d) as [[[w' ids] target]|] eqn:Ea; [|congruence].
  apply renewal_applies_spec in Ea as [(Hw' & _)%speaks_spec (e & He & Hcur)].
  assert (w' = w) as -> by congruence. pose proof (ri_enrolments _ I i e He) as Hid. rewrite Hcur in Hid.
  destruct (souts (sv_sys (dv d)) !! target) as [x|] eqn:Ex; [|congruence].
  destruct Hv as [(l & Hrl & Hrr & Hvl & Hf & _ & _)|[Hrl Hrr]].
  - rewrite Hrr, Hrl in *. rewrite (bool_decide_eq_true_2 ("" = "")) in * by done. cbn [negb] in *.
    destruct (RenewLease_in _ _ _ _ _ _ _ _ _ _ _) as [[res x'] st] eqn:Er. apply renew_in_spec in Er as [_ Hst].
    set (d' := match res with Ok true => _ | _ => _ end) in *.
    assert (souts (sv_sys (dv d')) = <[target := x']> (souts (sv_sys (dv d))) ∧ store d' = st) as [Es Est] by (by destruct res as [[]|]).
    rewrite Es in Ho'. destruct (decide (target = j)) as [->|Hj]; [|rewrite lookup_insert_ne in Ho' by done; congruence].
    rewrite lookup_insert_eq in Ho'. simplify_eq. destruct Hst as [[_ ?]|(nx & _ & -> & [?|(Hn & Hold & Hnew)])]; [done|done|].
    revert Hn. rewrite Est. unfold retain_callback. case_match; [done|].
    destruct (retainRenewal _ _ _ _ _ _ _ _) as [[err|] st'] eqn:Ew; [done|]. case_match; [done|]. intros _.
    destruct (retain_written _ _ _ _ _ _ _ _ _ _ J Hid Hvl Ew) as (data & rs & rec & ? & ? & ? & ? & ? & ? & ?).
    by exists l, data, rs, rec.
  - destruct (bool_decide (rd_restriction r = "")) eqn:Eb; [apply bool_decide_eq_true in Eb; by rewrite Eb in Hrr|].
    cbn in Ho'. destruct (decide (target = j)) as [->|Hj]; [|rewrite lookup_insert_ne in Ho' by done; congruence].
    rewrite lookup_insert_eq in Ho'. simplify_eq. destruct Hne. by apply revoke_withdrawn, (ri_smart _ I j).
Qed.

(** *** Examples: a service with one outbound, its worker, an enrolment and a renewal *)

Definition ex_cap (prefix : string) : string := (prefix ++ ".x." ++ ex_hex 64 "d")%string.
Definition ex_worker_config : smartAccessRuntimeControlConfig :=
  mkConfig "pokrov-smart-access-runtime-worker-v1" (ex_hex 64 "a") "" "android" "lab" "https://api.example.org" "dns"
    (ex_cap "pkr_src1") "2026-01-01T00:00:00Z" "2026-01-01T01:00:00Z" {["k1" := "a2tra2tra2tra2tra2tra2tra2tra2tra2tra2tra2s="]}.
Definition ex_raw : bytes := Eval vm_compute in print (config_json ex_worker_config).
Definition ex_enrolment : bytes := Eval vm_compute in
  print (renewal_config_json (mkRenewalConfig "pokrov-smart-access-runtime-renewal-worker-v1" (ex_hex 64 "a") (ex_cap "pkr_srn1")
    "2026-01-01T00:05:00Z" "2026-01-01T00:50:00Z" ex_previous)).

Definition ex_out_options : SaOutbound.saOptions := {|
  SaOutbound.Detour := ""; SaOutbound.LeaseID := ex_hex 32 "1"; SaOutbound.IssuedAt := IssuedAt ex_previous;
  SaOutbound.NewFlowsUntil := NewFlowsUntil ex_previous; SaOutbound.ActiveFlowsUntil := ActiveFlowsUntil ex_previous;
  SaOutbound.RelayAddresses := [list_of_str "93.184.216.34"]; SaOutbound.RelayConnectPolicy := None;
  SaOutbound.ExternalECHOuterSNI := false;
  SaOutbound.Domains := SaOutbound.Domains SaOutbound.ex_options;
  SaOutbound.MaxNewConnectionsPerMinute := 2; SaOutbound.MaxConcurrentConnections := 3 |}.
Definition ex_out : SaOutbound.world := Eval vm_compute in
  match SaOutbound.NewOutbound (ex_time 310) ex_out_options true true with Ok w => w | Err _ => SaOutbound.ex_world end.
Lemma ex_out_new : SaOutbound.NewOutbound (ex_time 310) ex_out_options true true = Ok ex_out.
Proof. vm_compute. reflexivity. Qed.

Definition ex_run_service : service :=
  mkService false true true [("smart", RSmart 1)] [] [0%nat] (ex_sys <| souts := {[1%nat := ex_out]} |>) ∅ ∅.
Lemma ex_run_smart : smart_ok (sv_sys ex_run_service).
Proof.
  intros k w Hk. change (({[1%nat := ex_out]} : gmap nat SaOutbound.world) !! k = Some w) in Hk.
  apply lookup_singleton_Some in Hk as [_ <-]. exact (sa_initial_inv _ _ _ _ _ ex_out_new).
Qed.

Definition ex_route : list window_rule := [WindowRule None [WindowRule (Some "2026-01-01T00:30:00Z") []]].
Definition ex_d0 : daemon :=
  new_instance ex_run_service ex_route [] [ActiveFlowsUntil ex_previous]
    (dm (first_service ex_run_service)).
Definition ex_cenv : configure_env :=
  mkCEnv (ex_time 400) (ex_time 400) (λ _, ex_time 400) false true true (Some ex_entropy) true true.
Definition ex_d1 : daemon := (ConfigureSmartAccessRuntimeControl (λ _, true) (ex_hex 64 "a") ex_raw ex_cenv ex_d0).2.
Definition ex_d2 : daemon :=
  (ConfigureSmartAccessRenewal (ex_hex 64 "a") ex_enrolment (ex_time 410) (ex_time 410) (λ _, ex_time 410) false ex_d1).2.
Definition ex_al : gset nat := ∅ ∪ (dom (workers ex_d1) ∖ dom (workers ex_d0)).

Lemma ex_run_reach : rtc (dstep ex_verify (λ _, true)) (first_service ex_run_service) (mkRun ex_d2 ex_al []).
Proof.
  eapply rtc_l; [exact (ds_instance _ _ _ ∅ [] ex_run_service ex_route [] [ActiveFlowsUntil ex_previous] ex_run_smart)|].
  eapply rtc_l; [exact (ds_configure _ _ ex_d0 ∅ [] (ex_hex 64 "a") ex_raw ex_cenv ltac:(intros b [= <-]; split; [reflexivity|intros k w Hk; discriminate]))|].
  eapply rtc_l; [exact (ds_enrol _ _ ex_d1 ex_al [] (ex_hex 64 "a") ex_enrolment (ex_time 410) (ex_time 410) (λ _, ex_time 410) false)|].
  apply rtc_refl.
Qed.

Definition ex_w : worker := Eval vm_compute in
  match workers ex_d2 !! 0%nat with Some w => w | None => mkWorker ex_worker_config ∅ zero_time zero_time zero_time 0 "" ∅ end.

Lemma ex_alive : 0%nat ∈ ex_al.
Proof. apply (bool_decide_unpack (0%nat ∈ ex_al)). vm_compute. exact I. Qed.

Lemma ex_smart_in : ("smart", RSmart 1) ∈ sv_outbounds (dv ex_d2).
Proof.
  assert (sv_outbounds (dv ex_d2) = [("smart", RSmart 1)]) as -> by (vm_compute; reflexivity). apply list_elem_of_here.
Qed.

Lemma service_refines_journal_witness :
  rtc jstep first_run (mkHistory (store ex_d2) []) ∧ lives (store ex_d2) !! ex_hex 64 "a" = Some ex_generation.
Proof.
  destruct (service_refines_journal ex_verify (λ _, true) ex_run_service (mkRun ex_d2 ex_al []) ex_run_smart ex_run_reach) as [H1 H2].
  split; [exact H1|]. refine (H2 0%nat ex_w ex_alive _). vm_compute. reflexivity.
Defined.

Definition ex_serve (b : bytes) : server := λ _ _ _, Answer 200 (Some b).
Definition ex_nonce_bytes : bytes := replicate 16 "U"%char.

(** The control plane disables the catalog; the write of the journal fails. *)
Definition ex_disable : bytes := Eval vm_compute in
  ex_response "smart-access-runtime-control-response-v1" "pokrov-smart-access-runtime-control-v1"
    [("schema_version", JStr "pokrov-smart-access-runtime-control-v1"); ("request_nonce", JStr ex_nonce);
     ("device_binding", JStr (binding "pokrov-smart-access-runtime-binding-v1" ex_nonce (ex_cap "pkr_src1")));
     ("profile_digest", JStr (ex_hex 64 "a")); ("platform", JStr "android"); ("audience", JStr "lab");
     ("action", JStr "terminate"); ("reason", JStr "catalog_disabled"); ("issued_at", JStr "2026-01-01T00:10:00Z");
     ("expires_at", JStr "2026-01-01T00:10:40Z")].
Definition ex_dec : smartAccessRuntimeDecision := mkDecision "catalog_disabled" (ex_date 640) (ex_time 640).
Definition ex_d3 : daemon := applySmartAccessRuntimeControl 0 ex_dec false (λ _, ex_time 606) false ex_d2.

Lemma control_enforced_witness :
  (∃ ow', souts (sv_sys (dv ex_d3)) !! 1%nat = Some ow' ∧ shut_down ow') ∧
  (begin_ (ex_hex 64 "a") "" zero_time (Some ex_entropy) true true (crash (store ex_d3))).1 = Err recovery_required.
Proof.
  destruct (control_enforced ex_verify (λ _, true) ex_run_service ex_d2 ex_al [] 0%nat ex_w (ex_serve ex_disable)
    (Some ex_nonce_bytes) false (ex_time 600) (ex_time 605) ex_dec false (λ _, ex_time 606) false ex_run_smart ex_run_reach)
    as (H1 & _ & H3).
  - exact ex_alive.
  - vm_compute. reflexivity.
  - vm_compute. reflexivity.
  - split; [|exact (H3 "" zero_time (Some ex_entropy) true true)].
    destruct (H1 "smart" 1%nat ex_out ex_smart_in ltac:(vm_compute; reflexivity)) as (ow' & Ho & Hs & _).
    exists ow'. split; [exact Ho|]. apply Hs. discriminate.
Defined.

(** The lease is half used and renewed. *)
Definition ex_current : smartAccessRuntimeDecision := mkDecision "current" (ex_date 640) (ex_time 640).
Definition ex_next_run : option (nat * attempt) * daemon :=
  nextSmartAccessRuntimeRenewal 0 ex_current false (ex_time 600) [(RuntimeScopeSHA256 ex_previous, 0%nat)] ex_d2.
Definition ex_try : attempt := Eval vm_compute in match ex_next_run.1 with Some (_, a) => a | None => ex_attempt end.
Definition ex_answer : bytes := Eval vm_compute in
  ex_response "smart-access-runtime-renewal-response-v1" "pokrov-smart-access-runtime-renewal-v1"
    [("schema_version", JStr "pokrov-smart-access-runtime-renewal-v1"); ("request_nonce", JStr ex_nonce);
     ("capability_binding", JStr (binding "pokrov-smart-access-runtime-renewal-binding-v1" ex_nonce (ex_cap "pkr_srn1")));
     ("profile_digest", JStr (ex_hex 64 "a")); ("platform", JStr "android"); ("audience", JStr "lab");
     ("expected_lease_id", JStr (ex_hex 32 "1")); ("lease", canonicalObject ex_next)].
Definition ex_aenv : apply_env := mkAEnv (λ _, ex_time 606) (λ _, false) (λ _, ex_time 606) (ex_time 606) true.
Definition ex_d4 : daemon := applySmartAccessRuntimeRenewal 0 0 ex_try ex_decision ex_aenv ex_next_run.2.
Definition ex_renewed : SaOutbound.world := Eval vm_compute in
  match souts (sv_sys (dv ex_d4)) !! 1%nat with Some w => w | None => ex_out end.

Lemma ex_next_reach : rtc (dstep ex_verify (λ _, true)) (first_service ex_run_service) (mkRun ex_next_run.2 ex_al []).
Proof. eapply rtc_r; [exact ex_run_reach|]. apply ds_next. Qed.

Lemma renewal_recorded_witness :
  SaOutbound.getLeaseID ex_renewed = LeaseID ex_next ∧
  ∃ data rs rec, file (store ex_d4) = Some data ∧ load_document data = Some rs ∧ get (ex_hex 64 "a") rs = Some rec ∧
    ex_previous ∈ Leases rec.
Proof.
  destruct (renewal_recorded ex_verify (λ _, true) ex_run_service ex_next_run.2 ex_al [] 0%nat 0%nat ex_w ex_try ex_decision
    (ex_serve ex_answer) (Some ex_nonce_bytes) false (ex_time 600) (ex_time 605) ex_aenv ex_run_smart ex_next_reach
    ex_alive ltac:(vm_compute; reflexivity) ltac:(vm_compute; reflexivity)
    1%nat ex_out ex_renewed ltac:(vm_compute; reflexivity) ltac:(vm_compute; reflexivity) ltac:(vm_compute; discriminate))
    as (l & data & rs & rec & Hl & _ & _ & Hid & Hf & Hload & Hrec & _ & _ & Hin & _).
  injection Hl as <-. split; [exact Hid|]. exists data, rs, rec. split_and!; [exact Hf|exact Hload|exact Hrec|exact Hin].
Defined.
