(* ===== verification/LinuxProfile.v ===== *)
(** * The profile boundary of the Linux runtime

    [v2/linuxruntime/profile.go]: [Prepare] takes a profile from the host's user
    and gives the engine a configuration in which the profile has no say over
    the TUN device, the ownership of routes, log files, auxiliary services, or
    any file, network namespace, interface or mark named in a nested option.

    The decoded profile is Go's [any]: a map keeps one entry per key, in an order
    that does not matter.  The values of one profile share nothing, so changing a
    map in place changes the one position it is at. *)

From stdpp Require Import base list strings sets sorting.
From Stdlib Require Import ZArith Lia Ascii.
From S2P Require Import Prelude GoBytes GoNetip GoJson GoFloat.
From S2P Require Import ControlWire.

Local Open Scope Z_scope.
Set Default Goal Selector "!".

(** ** Go's [any] and its JSON *)

(** [AInt]: an integer the code itself puts into a map. *)
Inductive any :=
| ANil | ABool (b : bool) | ANum (f : float64) | AInt (z : Z) | AStr (s : string)
| AArr (l : list any) | AMap (m : list (string * any)).

Fixpoint get (k : string) (m : list (string * any)) : option any :=
  match m with
  | [] => None
  | (k', v) :: m => if bool_decide (k' = k) then Some v else get k m
  end.
Fixpoint amend (k : string) (v : any) (m : list (string * any)) : list (string * any) :=
  match m with
  | [] => [(k, v)]
  | (k', v') :: m => if bool_decide (k' = k) then (k, v) :: m else (k', v') :: amend k v m
  end.

(** [json.Unmarshal] into an [any]: the last of equal keys counts, a number out
    of range is an error. *)
Fixpoint decode (j : json) : option any :=
  match j with
  | JNull => Some ANil
  | JBool b => Some (ABool b)
  | JNum l => ANum <$> ParseFloat l
  | JStr s => Some (AStr s)
  | JArr l =>
      AArr <$> (fix elements l := match l with [] => Some [] | x :: l => y ← decode x; ys ← elements l; Some (y :: ys) end) l
  | JObj l =>
      AMap <$> (fix members m l := match l with [] => Some m | (k, x) :: l => y ← decode x; members (amend k y m) l end) [] l
  end.
(** [json.Marshal]: the keys of a map are sorted. *)
Fixpoint encode (a : any) : json :=
  match a with
  | ANil => JNull
  | ABool b => JBool b
  | ANum f => JNum (FormatFloat f)
  | AInt z => JNum (show_int z)
  | AStr s => JStr s
  | AArr l => JArr (encode <$> l)
  | AMap m => JObj (merge_sort key_le ((λ kv, (kv.1, encode kv.2)) <$> m))
  end.

(** Type assertions; a missing key fails them. *)
Definition as_map (a : option any) : option (list (string * any)) := match a with Some (AMap m) => Some m | _ => None end.
Definition as_array (a : option any) : option (list any) := match a with Some (AArr l) => Some l | _ => None end.
Definition as_string (a : option any) : option string := match a with Some (AStr s) => Some s | _ => None end.
Definition as_float (a : option any) : option float64 := match a with Some (ANum f) => Some f | _ => None end.

(** ** Nested options *)

Definition has_suffix (b suffix : bytes) : bool := has_prefix (rev b) (rev suffix).

Definition type_in (types : list string) (m : list (string * any)) : bool :=
  match as_string (get "type" m) with Some t => one_of types t | None => false end.

(** A key a profile may not have. *)
Definition forbidden (uriPath : bool) (key : string) : bool :=
  let lower := to_lower (list_of_str key) in
  let same s := bytes_eqb lower (list_of_str s) in
  has_suffix lower (list_of_str "_path") || has_suffix lower (list_of_str "_directory") ||
  same "netns" || same "system_interface" || same "interface_name" || same "routing_mark" || same "default_mark" || same "bind_interface" ||
  same "output" || (same "path" && negb uriPath).

Definition uri_path (transport : bool) (m : list (string * any)) : bool := transport || type_in ["https"; "http"] m.

Definition transports : list string := ["http"; "ws"; "quic"; "grpc"; "httpupgrade"].
(** A member [transport] is an object of a known type. *)
Definition transport_ok (key : string) (child : any) : bool :=
  negb (bool_decide (key = "transport")) || match as_map (Some child) with Some m => type_in transports m | None => false end.

Fixpoint safeValues (transport : bool) (value : any) : bool :=
  match value with
  | AMap m =>
      let uri := uri_path transport m in
      (fix members l := match l with
        | [] => true
        | (key, child) :: l =>
            negb (forbidden uri key) && transport_ok key child && safeValues (bool_decide (key = "transport")) child && members l
        end) m
  | AArr l => (fix elements l := match l with [] => true | child :: l => safeValues transport child && elements l end) l
  | _ => true
  end.

Definition onlyKeys (allowed : list string) (m : list (string * any)) : bool := forallb (λ kv, one_of allowed kv.1) m.

(** ** Preparing a profile *)

Definition MaximumConfigBytes : Z := 512 * 1024.
Definition TunnelInterface : string := "pokrov0".
Definition RoutingMark : Z := 0x504b.

Record Plan := mkPlan { p_TunnelInterface : string; p_RoutingMark : Z; p_DNSServers : list string }.

Definition top_keys : list string := ["log"; "dns"; "inbounds"; "outbounds"; "route"].
Definition outbound_types : list string :=
  ["direct"; "block"; "dns"; "selector"; "urltest"; "vless"; "vmess"; "trojan"; "shadowsocks"; "hysteria"; "hysteria2"; "tuic";
   "socks"; "http"; "wireguard"; "anytls"].
Definition tun_keys : list string := ["type"; "tag"; "mtu"; "auto_route"; "strict_route"; "stack"; "address"; "domain_strategy"].
Definition mixed_keys : list string := ["type"; "tag"; "listen"; "listen_port"; "domain_strategy"].
Definition route_keys : list string :=
  ["rules"; "rule_set"; "final"; "find_process"; "auto_detect_interface"; "default_domain_resolver"].

(** An integral number within bounds: the code compares the [float64] with its
    conversion to an unsigned integer and back. *)
Definition integer_in (lo hi : Z) (a : option any) : bool :=
  match as_float a ≫= float_int with Some n => (lo <=? n) && (n <=? hi) | None => false end.

Definition outbound_ok (value : any) : bool := match as_map (Some value) with Some m => type_in outbound_types m | None => false end.

Definition mixed_ok (m : list (string * any)) : bool :=
  onlyKeys mixed_keys m &&
  match as_string (get "listen" m) with
  | Some address => match ParseAddr (list_of_str address) with Some ip => IsLoopback ip | None => false end
  | None => false
  end && integer_in 1024 65535 (get "listen_port" m).

(** The loop over the inbounds: the index of the tunnel, if all are accepted. *)
Fixpoint find_tunnel (n : nat) (tunnel : option nat) (l : list any) : option (option nat) :=
  match l with
  | [] => Some tunnel
  | value :: l =>
      m ← as_map (Some value);
      if type_in ["tun"] m then
        if bool_decide (is_Some tunnel) || negb (onlyKeys tun_keys m) then None else find_tunnel (S n) (Some n) l
      else if type_in ["mixed"] m then if mixed_ok m then find_tunnel (S n) tunnel l else None
      else None
  end.

Definition dns_server (address : string) : option string :=
  if bool_decide (address = "172.19.0.1/28") then Some "172.19.0.2"
  else if bool_decide (address = "fdfe:dcba:9876::1/126") then Some "fdfe:dcba:9876::2" else None.
(** The loop over the addresses of the tunnel: the DNS servers. *)
Fixpoint dns_servers (seen : list string) (l : list any) : option (list string) :=
  match l with
  | [] => Some []
  | value :: l =>
      address ← as_string (Some value);
      if bool_decide (address ∈ seen) then None
      else server ← dns_server address; servers ← dns_servers (address :: seen) l; Some (server :: servers)
  end.

Definition disabled_log : any := AMap [("disabled", ABool true)].
Definition hijack_rule : any := AMap [("port", AInt 53); ("action", AStr "hijack-dns")].

(** The tunnel and the route as the service owns them. *)
Definition own_tunnel (m : list (string * any)) : list (string * any) :=
  amend "stack" (AStr "system") (amend "auto_redirect" (ABool false) (amend "strict_route" (ABool true)
    (amend "auto_route" (ABool false) (amend "interface_name" (AStr TunnelInterface) m)))).
Definition own_route (rules : list any) (m : list (string * any)) : list (string * any) :=
  amend "rules" (AArr (hijack_rule :: rules)) (amend "default_mark" (AInt RoutingMark) (amend "auto_detect_interface" (ABool true) m)).

(** The decoded profile to the decoded configuration. *)
Definition prepare_root (root : list (string * any)) : option (list (string * any) * Plan) :=
  if negb (onlyKeys top_keys root) then None
  else
    let root := amend "log" disabled_log root in
    if negb (safeValues false (AMap root)) then None
    else
      dns ← as_map (get "dns" root);
      if (length dns =? 0)%nat then None
      else
        outbounds ← as_array (get "outbounds" root);
        if (length outbounds =? 0)%nat || negb (forallb outbound_ok outbounds) then None
        else
          inbounds ← as_array (get "inbounds" root);
          found ← find_tunnel 0 None inbounds;
          i ← found;
          tunnel ← as_map (inbounds !! i);
          addresses ← as_array (get "address" tunnel);
          if (length addresses =? 0)%nat || (2 <? length addresses)%nat then None
          else
            servers ← dns_servers [] addresses;
            if negb (integer_in 1280 1500 (get "mtu" tunnel)) then None
            else
              let root := amend "inbounds" (AArr (<[i := AMap (own_tunnel tunnel)]> inbounds)) root in
              route ← as_map (get "route" root);
              if negb (onlyKeys route_keys route) then None
              else
                rules ← as_array (get "rules" route);
                let root := amend "route" (AMap (own_route rules route)) root in
                Some (amend "log" disabled_log root, mkPlan TunnelInterface RoutingMark servers).

(** [None]: the profile is rejected. *)
Definition Prepare (input : bytes) : option (bytes * Plan) :=
  if (length input =? 0)%nat || (MaximumConfigBytes <? blen input) then None
  else
    j ← parse input;
    root ← as_map (decode j);
    out ← prepare_root root;
    let '(root, plan) := (out : list (string * any) * Plan) in
    Some (print (encode (AMap root)), plan).

(** ** Maps *)

Lemma get_amend k k' v m : get k (amend k' v m) = if bool_decide (k' = k) then Some v else get k m.
Proof.
  induction m as [|[k0 v0] m IH]; cbn.
  - done.
  - destruct (decide (k0 = k')) as [->|H0].
    + rewrite (bool_decide_eq_true_2 (k' = k')) by done. cbn. by case_bool_decide.
    + rewrite (bool_decide_eq_false_2 (k0 = k')) by done. cbn. rewrite IH. repeat case_bool_decide; congruence.
Qed.

Lemma amend_in k v kv m : kv ∈ amend k v m → kv = (k, v) ∨ kv ∈ m.
Proof.
  induction m as [|[k0 v0] m IH]; cbn.
  - intros [->|?]%elem_of_cons; auto.
  - case_bool_decide; rewrite !elem_of_cons; [tauto|]. intros [->|H']; [auto|]. apply IH in H'. tauto.
Qed.

Lemma get_member k m v : get k m = Some v → (k, v) ∈ m.
Proof.
  induction m as [|[k0 v0] m IH]; cbn; [done|]. case_bool_decide as H0; [subst; intros [= ->]|intros H]; apply elem_of_cons; auto.
Qed.

Lemma onlyKeys_in allowed m kv : onlyKeys allowed m = true → kv ∈ m → kv.1 ∈ allowed.
Proof.
  unfold onlyKeys. rewrite forallb_forall. intros H Hin. apply list_elem_of_In, H in Hin. by apply bool_decide_eq_true in Hin.
Qed.

(** ** What [safeValues] guarantees *)

(** [within v t m t']: [m] is a map somewhere inside [v], reached with the
    transport flag [t']. *)
Inductive within : any → bool → list (string * any) → bool → Prop :=
| within_here m t : within (AMap m) t m t
| within_member m t k c m' t' : (k, c) ∈ m → within c (bool_decide (k = "transport")) m' t' → within (AMap m) t m' t'
| within_element l t c m' t' : c ∈ l → within c t m' t' → within (AArr l) t m' t'.

(** The members of a map a profile may have. *)
Definition members_ok (t : bool) (m : list (string * any)) : Prop :=
  ∀ k c, (k, c) ∈ m → forbidden (uri_path t m) k = false ∧ transport_ok k c = true.

Lemma safe_map t m : safeValues t (AMap m) = true →
  members_ok t m ∧ ∀ k c, (k, c) ∈ m → safeValues (bool_decide (k = "transport")) c = true.
Proof.
  unfold members_ok. cbn [safeValues]. generalize (uri_path t m) as u. intros u. induction m as [|[k0 c0] m IH]; cbn.
  - intros _. split; intros k c H; by apply elem_of_nil in H.
  - rewrite !andb_true_iff, negb_true_iff. intros [[[H1 H2] H3] H4]. apply IH in H4 as [A B].
    split; intros k c [[= -> ->]|H]%elem_of_cons; auto.
Qed.

Lemma safe_array t l : safeValues t (AArr l) = true → ∀ c, c ∈ l → safeValues t c = true.
Proof.
  cbn. induction l as [|x l IH]; cbn; [intros _ c H; by apply elem_of_nil in H|].
  rewrite andb_true_iff. intros [H1 H2] c [->|H]%elem_of_cons; auto.
Qed.

Lemma safe_within v t m t' : within v t m t' → safeValues t v = true → members_ok t' m.
Proof.
  induction 1 as [m t|m t k c m' t' Hin _ IH|l t c m' t' Hin _ IH]; intros Hs.
  - by apply safe_map.
  - apply IH. by eapply safe_map.
  - apply IH. by eapply safe_array.
Qed.

(** ** The prepared configuration *)

Definition owned_tun_keys : list string := tun_keys ++ ["interface_name"; "auto_redirect"].
Definition owned_route_keys : list string := route_keys ++ ["default_mark"].

(** The tunnel: owned by the service, addresses from the fixed plan, a sane MTU. *)
Record tunnel_owned (plan : Plan) (m : list (string * any)) : Prop := {
  tu_keys : ∀ kv, kv ∈ m → kv.1 ∈ owned_tun_keys;
  tu_type : get "type" m = Some (AStr "tun");
  tu_name : get "interface_name" m = Some (AStr "pokrov0");
  tu_auto : get "auto_route" m = Some (ABool false);
  tu_strict : get "strict_route" m = Some (ABool true);
  tu_redirect : get "auto_redirect" m = Some (ABool false);
  tu_stack : get "stack" m = Some (AStr "system");
  tu_mtu : ∃ f n, get "mtu" m = Some (ANum f) ∧ float_int f = Some n ∧ 1280 ≤ n ≤ 1500;
  tu_addresses : ∃ addresses, get "address" m = Some (AArr (AStr <$> addresses)) ∧ (1 ≤ length addresses ≤ 2)%nat ∧
    NoDup addresses ∧ Forall2 (λ a s, dns_server a = Some s) addresses (p_DNSServers plan) }.

(** A proxy inbound on the loopback interface with an unprivileged port. *)
Definition loopback_proxy (value : any) : Prop :=
  ∃ m address ip f n, value = AMap m ∧ get "type" m = Some (AStr "mixed") ∧ get "listen" m = Some (AStr address) ∧
    ParseAddr (list_of_str address) = Some ip ∧ IsLoopback ip = true ∧
    get "listen_port" m = Some (ANum f) ∧ float_int f = Some n ∧ 1024 ≤ n ≤ 65535.

Record confined (plan : Plan) (root : list (string * any)) : Prop := {
  cf_keys : ∀ kv, kv ∈ root → kv.1 ∈ top_keys;
  cf_log : get "log" root = Some disabled_log;
  cf_dns : ∃ m, get "dns" root = Some (AMap m) ∧ m ≠ [];
  cf_outbounds : ∃ l, get "outbounds" root = Some (AArr l) ∧ l ≠ [] ∧
    ∀ o, o ∈ l → ∃ m t, o = AMap m ∧ get "type" m = Some (AStr t) ∧ t ∈ outbound_types;
  cf_owned : ∃ l i tun route rules,
    get "inbounds" root = Some (AArr l) ∧ l !! i = Some (AMap tun) ∧ tunnel_owned plan tun ∧
    (∀ j x, j ≠ i → l !! j = Some x → loopback_proxy x) ∧
    get "route" root = Some (AMap route) ∧ (∀ kv, kv ∈ route → kv.1 ∈ owned_route_keys) ∧
    get "rules" route = Some (AArr (hijack_rule :: rules)) ∧ get "default_mark" route = Some (AInt 20555) ∧
    get "auto_detect_interface" route = Some (ABool true) ∧
    ∀ m t k c, within (AMap root) false m t → (k, c) ∈ m →
      forbidden (uri_path t m) k = false ∧ transport_ok k c = true ∨
      (m = tun ∧ k = "interface_name") ∨ (m = route ∧ k = "default_mark") }.

Lemma type_in_spec types m : type_in types m = true → ∃ t, get "type" m = Some (AStr t) ∧ t ∈ types.
Proof.
  unfold type_in, as_string. destruct (get "type" m) as [[]|]; try done. intros H%bool_decide_eq_true. eauto.
Qed.

Lemma as_map_some a m : as_map a = Some m → a = Some (AMap m).
Proof. by destruct a as [[]|]; intros [=->]. Qed.
Lemma as_array_some a l : as_array a = Some l → a = Some (AArr l).
Proof. by destruct a as [[]|]; intros [=->]. Qed.
Lemma as_string_some a s : as_string a = Some s → a = Some (AStr s).
Proof. by destruct a as [[]|]; intros [=->]. Qed.

Lemma integer_in_spec lo hi a : integer_in lo hi a = true → ∃ f n, a = Some (ANum f) ∧ float_int f = Some n ∧ lo ≤ n ≤ hi.
Proof.
  unfold integer_in, as_float. destruct a as [[]|]; try done. cbn. destruct (float_int f) as [n|] eqn:E; [|done].
  intros [? ?]%andb_true_iff. exists f, n. split_and!; [done|done|lia|lia].
Qed.

Lemma mixed_proxy m : type_in ["mixed"] m = true → mixed_ok m = true → loopback_proxy (AMap m).
Proof.
  intros (t & Ht & ->%list_elem_of_singleton)%type_in_spec. unfold mixed_ok. rewrite !andb_true_iff. intros [[_ H1] H2].
  destruct (as_string (get "listen" m)) as [address|] eqn:Ea; [|done]. apply as_string_some in Ea.
  destruct (ParseAddr (list_of_str address)) as [ip|] eqn:Ei; [|done]. apply integer_in_spec in H2 as (f & n & ? & ? & ?).
  exists m, address, ip, f, n. done.
Qed.

(** The inbounds are the tunnel and proxies. *)
Lemma find_tunnel_spec n t0 l r : find_tunnel n t0 l = Some r →
  (∀ j x, l !! j = Some x → loopback_proxy x ∨ r = Some (n + j)%nat) ∧
  (r = t0 ∨ ∃ j m, r = Some (n + j)%nat ∧ l !! j = Some (AMap m) ∧ get "type" m = Some (AStr "tun") ∧ onlyKeys tun_keys m = true) ∧
  (is_Some t0 → r = t0).
Proof.
  revert n t0. induction l as [|v l IH]; intros n t0; cbn [find_tunnel].
  - intros [= <-]. split_and!; [by intros [|]|by left|done].
  - destruct (as_map (Some v)) as [m|] eqn:Em; [|done]. apply as_map_some in Em as [= ->]. cbn [mbind option_bind].
    destruct (type_in ["tun"] m) eqn:Et.
    + destruct (bool_decide (is_Some t0) || _) eqn:Eb; [done|]. apply orb_false_iff in Eb as [Eb1 Eb2].
      apply bool_decide_eq_false in Eb1. apply negb_false_iff in Eb2. apply type_in_spec in Et as (t & Ht & ->%list_elem_of_singleton).
      intros (H1 & H2 & H3)%IH. specialize (H3 ltac:(by eexists)). subst r. split_and!.
      * intros [|j] x Hx; [right; f_equal; lia|]. cbn in Hx. destruct (H1 j x Hx) as [?|[= ?]]; [by left|lia].
      * right. exists 0%nat, m. split_and!; [f_equal; lia|done|done|done].
      * intros Hs. by destruct Eb1.
    + destruct (type_in ["mixed"] m) eqn:Ex; [|done]. destruct (mixed_ok m) eqn:Eo; [|done]. intros (H1 & H2 & H3)%IH. split_and!.
      * intros [|j] x Hx; cbn in Hx; [injection Hx as <-; left; by apply mixed_proxy|].
        destruct (H1 j x Hx) as [?|Hr]; [by left|right]. rewrite Hr. f_equal. lia.
      * destruct H2 as [->|(j & m' & -> & H2)]; [by left|right]. exists (S j), m'. split; [f_equal; lia|done].
      * done.
Qed.

Lemma dns_servers_spec seen l servers : dns_servers seen l = Some servers →
  ∃ addresses, l = AStr <$> addresses ∧ NoDup addresses ∧ (∀ a, a ∈ addresses → a ∉ seen) ∧
    Forall2 (λ a s, dns_server a = Some s) addresses servers.
Proof.
  revert seen servers. induction l as [|v l IH]; intros seen servers; cbn [dns_servers].
  - intros [= <-]. exists []. split_and!; [done|constructor|by intros a ?%elem_of_nil|constructor].
  - destruct (as_string (Some v)) as [a|] eqn:Ea; [|done]. apply as_string_some in Ea as [= ->]. cbn [mbind option_bind].
    case_bool_decide as Hseen; [done|]. intros (s & Hs & H)%bind_Some. apply bind_Some in H as (ss & H & [= <-]).
    apply IH in H as (addresses & -> & Hn & Hd & Hf). exists (a :: addresses). split_and!; [done| | |by constructor].
    + constructor; [|done]. intros Hin. apply (Hd a Hin). apply elem_of_cons. by left.
    + intros b [->|Hb]%elem_of_cons; [done|]. intros Hin. apply (Hd b Hb). apply elem_of_cons. by right.
Qed.

Lemma own_tunnel_in kv m : kv ∈ own_tunnel m →
  kv ∈ m ∨ kv.1 ∈ ["interface_name"; "auto_route"; "strict_route"; "auto_redirect"; "stack"] ∧ ∀ t m' t', ¬ within kv.2 t m' t'.
Proof.
  unfold own_tunnel. intros H.
  repeat (apply amend_in in H as [->|H]; [right; split; [cbn; set_solver|inversion 1]|]). by left.
Qed.

Lemma own_route_in kv rules m : kv ∈ own_route rules m →
  kv ∈ m ∨ kv = ("rules", AArr (hijack_rule :: rules)) ∨
  kv.1 ∈ ["default_mark"; "auto_detect_interface"] ∧ ∀ t m' t', ¬ within kv.2 t m' t'.
Proof.
  unfold own_route. intros H. apply amend_in in H as [->|H]; [by right; left|].
  repeat (apply amend_in in H as [->|H]; [right; right; split; [cbn; set_solver|inversion 1]|]). by left.
Qed.

(** Fixed keys are not forbidden. *)
Definition harmless (keys : list string) : bool :=
  forallb (λ k, negb (forbidden true k) && negb (forbidden false k) && negb (bool_decide (k = "transport"))) keys.

Lemma harmless_ok keys k u c : harmless keys = true → k ∈ keys → forbidden u k = false ∧ transport_ok k c = true.
Proof.
  unfold harmless. rewrite forallb_forall. intros H Hk%list_elem_of_In%H. rewrite !andb_true_iff, !negb_true_iff in Hk.
  destruct Hk as [[Ht Hf] Hn]. split; [by destruct u|]. unfold transport_ok. by rewrite Hn.
Qed.

(** The maps inside the tunnel and the route the service owns. *)
Lemma own_tunnel_within m m' t' k c :
  safeValues false (AMap m) = true → onlyKeys tun_keys m = true → within (AMap (own_tunnel m)) false m' t' → (k, c) ∈ m' →
  forbidden (uri_path t' m') k = false ∧ transport_ok k c = true ∨ (m' = own_tunnel m ∧ k = "interface_name").
Proof.
  intros Hs Hk W Hin. inversion W as [|m0 t0 k0 c0 ? ? Hin0 W0|]; subst.
  - destruct (decide (k = "interface_name")) as [->|Hne]; [by right|left].
    apply (harmless_ok ["type"; "tag"; "mtu"; "auto_route"; "strict_route"; "stack"; "address"; "domain_strategy"; "auto_redirect"]);
      [by vm_compute|].
    apply own_tunnel_in in Hin as [Hin|[Hin _]].
    + apply (onlyKeys_in _ _ _ Hk) in Hin. cbn in Hin. unfold tun_keys in Hin. set_solver.
    + cbn in Hin. set_solver.
  - left. apply own_tunnel_in in Hin0 as [Hin0|[_ Hno]]; [|by destruct (Hno _ _ _ W0)].
    apply (safe_map _ _ Hs) in Hin0. by apply (safe_within _ _ _ _ W0).
Qed.

Lemma hijack_within m' t' k c : within hijack_rule false m' t' → (k, c) ∈ m' →
  forbidden (uri_path t' m') k = false ∧ transport_ok k c = true.
Proof.
  intros W Hin. inversion W as [|m0 t0 k0 c0 ? ? Hin0 W0|]; subst.
  - apply (harmless_ok ["port"; "action"]); [by vm_compute|]. set_solver.
  - rewrite !elem_of_cons in Hin0. destruct Hin0 as [[= -> ->]|[[= -> ->]|?%elem_of_nil]]; [inversion W0|inversion W0|done].
Qed.

Lemma own_route_within rules m m' t' k c :
  safeValues false (AMap m) = true → onlyKeys route_keys m = true → get "rules" m = Some (AArr rules) →
  within (AMap (own_route rules m)) false m' t' → (k, c) ∈ m' →
  forbidden (uri_path t' m') k = false ∧ transport_ok k c = true ∨ (m' = own_route rules m ∧ k = "default_mark").
Proof.
  intros Hs Hk Hr W Hin. inversion W as [|m0 t0 k0 c0 ? ? Hin0 W0|]; subst.
  - destruct (decide (k = "default_mark")) as [->|Hne]; [by right|left].
    apply (harmless_ok route_keys); [by vm_compute|].
    apply own_route_in in Hin as [Hin|[[= -> ->]|[Hin _]]].
    + by apply (onlyKeys_in _ _ _ Hk) in Hin.
    + unfold route_keys. set_solver.
    + cbn in Hin. unfold route_keys. set_solver.
  - left. apply own_route_in in Hin0 as [Hin0|[[= -> ->]|[_ Hno]]]; [| |by destruct (Hno _ _ _ W0)].
    + apply (safe_map _ _ Hs) in Hin0. by apply (safe_within _ _ _ _ W0).
    + inversion W0 as [| |l0 t0 c0 ? ? Hin0 W1]; subst. apply elem_of_cons in Hin0 as [->|Hin0]; [by eapply hijack_within|].
      apply get_member in Hr. apply (safe_map _ _ Hs) in Hr. by apply (safe_within _ _ _ _ W1 (safe_array _ _ Hr _ Hin0)).
Qed.

Lemma own_tunnel_owned m servers addresses :
  onlyKeys tun_keys m = true → get "type" m = Some (AStr "tun") → get "address" m = Some (AArr addresses) →
  (length addresses =? 0)%nat || (2 <? length addresses)%nat = false → dns_servers [] addresses = Some servers →
  integer_in 1280 1500 (get "mtu" m) = true →
  tunnel_owned (mkPlan TunnelInterface RoutingMark servers) (own_tunnel m).
Proof.
  intros Hk Ht Ha [Hl1%Nat.eqb_neq Hl2%Nat.ltb_ge]%orb_false_iff (as_ & -> & Hn & _ & Hf)%dns_servers_spec Hm%integer_in_spec.
  rewrite length_fmap in *. constructor; try (unfold own_tunnel; rewrite !get_amend; cbn; done).
  - intros kv [Hin|[Hin _]]%own_tunnel_in; [apply (onlyKeys_in _ _ _ Hk) in Hin|]; unfold owned_tun_keys, tun_keys in *; set_solver.
  - exists as_. unfold own_tunnel. rewrite !get_amend. cbn. split_and!; [done|lia|lia|done|done].
Qed.

Lemma outbounds_typed l : forallb outbound_ok l = true →
  ∀ o, o ∈ l → ∃ m t, o = AMap m ∧ get "type" m = Some (AStr t) ∧ t ∈ outbound_types.
Proof.
  rewrite forallb_forall. intros H o Ho%list_elem_of_In%H. unfold outbound_ok in Ho.
  destruct (as_map (Some o)) as [m|] eqn:E; [|done]. apply as_map_some in E as [= ->].
  apply type_in_spec in Ho as (t & ? & ?). eauto.
Qed.

(** What the tests of [prepare_root] leave. *)
Lemma prepare_inv root root' plan : prepare_root root = Some (root', plan) →
  let root1 := amend "log" disabled_log root in
  ∃ dns outbounds inbounds i tun addresses servers route rules,
    onlyKeys top_keys root = true ∧ safeValues false (AMap root1) = true ∧
    get "dns" root1 = Some (AMap dns) ∧ dns ≠ [] ∧
    get "outbounds" root1 = Some (AArr outbounds) ∧ outbounds ≠ [] ∧ forallb outbound_ok outbounds = true ∧
    get "inbounds" root1 = Some (AArr inbounds) ∧ find_tunnel 0 None inbounds = Some (Some i) ∧ inbounds !! i = Some (AMap tun) ∧
    get "address" tun = Some (AArr addresses) ∧ (length addresses =? 0)%nat || (2 <? length addresses)%nat = false ∧
    dns_servers [] addresses = Some servers ∧ integer_in 1280 1500 (get "mtu" tun) = true ∧
    get "route" root1 = Some (AMap route) ∧ onlyKeys route_keys route = true ∧ get "rules" route = Some (AArr rules) ∧
    plan = mkPlan TunnelInterface RoutingMark servers ∧
    root' = amend "log" disabled_log (amend "route" (AMap (own_route rules route))
              (amend "inbounds" (AArr (<[i := AMap (own_tunnel tun)]> inbounds)) root1)).
Proof.
  unfold prepare_root. cbv zeta. destruct (onlyKeys top_keys root); [|done]. cbn [negb].
  destruct (safeValues false _); [|done]. cbn [negb].
  intros (dns & Hdns%as_map_some & H)%bind_Some. destruct (length dns =? 0)%nat eqn:Ed; [done|]. apply Nat.eqb_neq in Ed.
  apply bind_Some in H as (outs & Houts%as_array_some & H). destruct (_ || negb (forallb outbound_ok outs)) eqn:Eo; [done|].
  apply orb_false_iff in Eo as [Eo1%Nat.eqb_neq Eo2%negb_false_iff].
  apply bind_Some in H as (ins & Hins%as_array_some & H). apply bind_Some in H as (found & Hfound & H).
  apply bind_Some in H as (i & -> & H). apply bind_Some in H as (tun & Htun%as_map_some & H).
  apply bind_Some in H as (addresses & Ha%as_array_some & H). destruct (_ || (2 <? length addresses)%nat) eqn:El; [done|].
  apply bind_Some in H as (servers & Hservers & H). destruct (integer_in _ _ _) eqn:Em; [|done]. cbn [negb] in H.
  apply bind_Some in H as (route & Hroute%as_map_some & H). rewrite get_amend in Hroute. cbn in Hroute.
  destruct (onlyKeys route_keys route) eqn:Er; [|done]. cbn [negb] in H. apply bind_Some in H as (rules & Hrules%as_array_some & H).
  injection H as <- <-. exists dns, outs, ins, i, tun, addresses, servers, route, rules.
  split_and!; try done; intros ->; by cbn in *.
Qed.

Lemma prepared_confined root root' plan : prepare_root root = Some (root', plan) → confined plan root'.
Proof.
  intros H. apply prepare_inv in H as (dns & outs & ins & i & tun & addresses & servers & route & rules & Hk & Hs & Hdns & Hne &
    Houts & Hone & Hok & Hins & Hfind & Htun & Ha & Hlen & Hsv & Hmtu & Hroute & Hrk & Hrules & -> & ->).
  set (root1 := amend "log" disabled_log root) in *. set (ins' := <[i := AMap (own_tunnel tun)]> ins).
  destruct (find_tunnel_spec _ _ _ _ Hfind) as (F1 & F2 & _).
  assert (Hi : get "type" tun = Some (AStr "tun") ∧ onlyKeys tun_keys tun = true).
  { destruct F2 as [?|(j & m & [= ->] & Hj & ? & ?)]; [done|]. change (0 + j)%nat with j in Htun. by simplify_eq. }
  destruct Hi as [Htype Htk].
  assert (Hkeys : ∀ kv, kv ∈ root1 → kv.1 ∈ top_keys).
  { intros kv [->|Hin]%amend_in; [unfold top_keys; set_solver|by eapply onlyKeys_in]. }
  pose proof (safe_map _ _ Hs) as [_ Hchild]. pose proof (Hchild _ _ (get_member _ _ _ Hins)) as Sins.
  pose proof (Hchild _ _ (get_member _ _ _ Hroute)) as Sroute. pose proof (safe_array _ _ Sins _ (list_elem_of_lookup_2 _ _ _ Htun)) as Stun.
  constructor.
  - intros kv [->|[->|[->|Hin]%amend_in]%amend_in]%amend_in; [unfold top_keys; cbn; set_solver..|by apply Hkeys].
  - by rewrite !get_amend.
  - exists dns. rewrite !get_amend. done.
  - exists outs. rewrite !get_amend. split_and!; [done|done|by apply outbounds_typed].
  - exists ins', i, (own_tunnel tun), (own_route rules route), rules. rewrite !get_amend. cbn.
    split_and!; [done| | | |done| | | | |].
    + unfold ins'. apply list_lookup_insert_eq. by eapply lookup_lt_Some.
    + by eapply own_tunnel_owned.
    + intros j x Hj Hx. unfold ins' in Hx. rewrite list_lookup_insert_ne in Hx by done. destruct (F1 j x Hx) as [?|[= ->]]; [done|lia].
    + intros kv [Hin|[->|[Hin _]]]%own_route_in; [apply (onlyKeys_in _ _ _ Hrk) in Hin|cbn|]; unfold owned_route_keys, route_keys in *; set_solver.
    + unfold own_route. by rewrite get_amend.
    + unfold own_route. by rewrite !get_amend.
    + unfold own_route. by rewrite !get_amend.
    + intros m t k c W Hin. inversion W as [|m0 t0 k0 c0 ? ? Hin0 W0|]; subst.
      * left. apply (harmless_ok top_keys); [by vm_compute|]. cbn in Hin.
        apply amend_in in Hin as [[= -> ->]|[[= -> ->]|[[= -> ->]|Hin]%amend_in]%amend_in]; [unfold top_keys; set_solver..|].
        by apply (Hkeys (k, c)).
      * apply amend_in in Hin0 as [[= -> ->]|[[= -> ->]|[[= -> ->]|Hin0]%amend_in]%amend_in].
        -- left. inversion W0 as [|m1 t1 k1 c1 ? ? Hin1 W1|]; subst.
           ++ apply (harmless_ok ["disabled"]); [by vm_compute|]. set_solver.
           ++ apply list_elem_of_singleton in Hin1 as [= -> ->]. inversion W1.
        -- destruct (own_route_within rules route m t k c) as [?|?]; [done..|by left|right; by right].
        -- inversion W0 as [| |l0 t0 x ? ? Hx W1]; subst. apply list_elem_of_lookup in Hx as [j Hj]. unfold ins' in Hj.
           destruct (decide (i = j)) as [<-|Hij].
           ++ rewrite list_lookup_insert_eq in Hj by (by eapply lookup_lt_Some). injection Hj as <-.
              destruct (own_tunnel_within tun m t k c) as [?|?]; [done..|by left|right; by left].
           ++ rewrite list_lookup_insert_ne in Hj by done. left.
              exact (safe_within _ _ _ _ W1 (safe_array _ _ Sins _ (list_elem_of_lookup_2 _ _ _ Hj)) k c Hin).
        -- left. exact (safe_within _ _ _ _ W0 (Hchild _ _ Hin0) k c Hin).
Qed.


(** *** Examples *)

Definition ex_tun : json :=
  JObj [("type", JStr "tun"); ("mtu", JNum "1.4e3"); ("address", JArr [JStr "172.19.0.1/28"; JStr "fdfe:dcba:9876::1/126"]);
        ("auto_route", JBool true)].
Definition ex_linux_profile (outbound : list (string * json)) : bytes :=
  print (JObj [("dns", JObj [("final", JStr "remote")]);
    ("inbounds", JArr [ex_tun; JObj [("type", JStr "mixed"); ("listen", JStr "127.0.0.1"); ("listen_port", JNum "2080")]]);
    ("outbounds", JArr [JObj (("type", JStr "vless") :: outbound)]);
    ("route", JObj [("rules", JArr []); ("final", JStr "proxy")])]).
Definition ex_transport : list (string * json) :=
  [("transport", JObj [("type", JStr "ws"); ("path", JStr "/tunnel")])].


(** A path outside a transport, a network namespace, a mark or a second tunnel is
    refused, whatever the case of the key. *)
Lemma profile_rejects :
  (λ o, bool_decide (Prepare (ex_linux_profile o) = None)) <$>
    [[("path", JStr "/etc/passwd")]; [("Certificate_Path", JStr "x")]; [("NetNS", JStr "x")];
     [("tls", JObj [("ech", JArr [JObj [("config_path", JStr "x")]])])]; [("transport", JObj [("type", JStr "unix")])]] =
    [true; true; true; true; true].
Proof. vm_compute. reflexivity. Qed.

(** The test folds the case of a key with [strings.ToLower], which keeps U+017F,
    the long s; JSON field names match under Unicode case folding, in which it
    is an s.  A profile with [netn(U+017F)] is accepted. *)
Definition long_s : string := str_of_list (utf8 383).
Lemma netns_long_s_accepted :
  is_Some (Prepare (ex_linux_profile [(("netn" ++ long_s)%string, JStr "x")])) ∧ Prepare (ex_linux_profile [("netns", JStr "x")]) = None.
Proof. split; [eexists|]; vm_compute; reflexivity. Qed.
