(* ===== verification/HostCore.v ===== *)
(** * Starting and stopping the engine

    Models the life cycle of the host core in [v2/hcore]: [StartService]
    ([start.go]), [Stop] ([stop.go]), [Restart] ([restart.go]),
    [StartInterruptible] ([interruptible_start.go]), [NewService]
    ([service.go]) and [SetCoreStatus], [errorWrapper] and [StopAndAlert]
    ([coreinfo.go], [custom.go]).

    [StartService] and [Stop] hold [static.lock] throughout, so each is one
    definition on [static].  What is done without the lock (the recovery from a
    panic, whose deferred call runs after the deferred [Unlock], and the status a
    cancelled [Restart] sets) are steps of their own. *)

From stdpp Require Import base list strings gmap relations.
From Stdlib Require Import ZArith Lia.
From S2P Require Import Prelude GoBytes UrlTestHistory FailureCodes.

Local Open Scope Z_scope.

(** ** State *)

Inductive CoreStates := STOPPED | STARTING | STARTED | STOPPING.

Inductive MessageType :=
| EMPTY | ALREADY_STARTED | ALREADY_STOPPED | UNEXPECTED_ERROR | ERROR_BUILDING_CONFIG | ERROR_EXTENSION
| START_SERVICE | INSTANCE_NOT_STARTED.

Record CoreInfoResponse := mkInfo { i_CoreState : CoreStates; i_MessageType : MessageType; i_Message : string }.

Record StartRequest := mkRequest {
  ConfigContent : string;
  ConfigPath : string;
  ConfigName : string;
  EnableRawConfig : bool;
  DelayStart : bool
}.

(** The fields of [PokrovInstance] the life cycle uses; [settings] is the table of
    [AppSettings], [instances] tells of every engine made so far whether it is
    open, and [published] lists what observers saw, the latest first. *)
Record PokrovInstance := mkStatic {
  StartedService : option nat;
  CoreState : CoreStates;
  PokrovOptions : bool;
  previousStartRequest : option StartRequest;
  ListenPort : Z;
  settings : gmap string string;
  instances : gmap nat bool;
  published : list CoreInfoResponse
}.

#[export] Instance eta_static : Eta PokrovInstance := λ s,
  mkStatic (StartedService s) (CoreState s) (PokrovOptions s) (previousStartRequest s) (ListenPort s) (settings s)
    (instances s) (published s).

Definition SetCoreStatus (state : CoreStates) (ty : MessageType) (message : string) (s : PokrovInstance)
    : PokrovInstance * CoreInfoResponse :=
  let info := mkInfo state ty message in
  (s <| CoreState := state |> <| published ::= cons info |>, info).

(** [ss.Close()]: the engine is closed, whatever error that reports. *)
Definition close_instance (ss : nat) (s : PokrovInstance) : PokrovInstance := s <| instances ::= <[ss := false]> |>.

Definition StopAndAlert (ty : MessageType) (message : string) (s : PokrovInstance) : PokrovInstance :=
  let s := (SetCoreStatus STOPPED ty message s).1 in
  match StartedService s with
  | Some ss => (close_instance ss s) <| StartedService := None |>
  | None => s
  end.

Section Host.
Variable p : platform.

(** The code shown instead of an error; classification ends for every error
    whose probe errors carry their cause ([FailureCodes]). *)
Definition safe_code (e : gerr) : string := match ClassifyStartError p (Some e) with Ret c => c | _ => "" end.

Definition errorWrapper (ty : MessageType) (e : gerr) (s : PokrovInstance) : PokrovInstance * CoreInfoResponse * gerr :=
  let s := StopAndAlert UNEXPECTED_ERROR (safe_code e) s in
  let '(s, info) := SetCoreStatus STOPPED ty (safe_code e) s in
  (s, info, runtimeFailure (safe_code e) e).

(** ** Starting *)

(** The request of the last start, from the table. *)
Definition loadLastStartRequestIfNeeded (request : option StartRequest) (s : PokrovInstance) : option StartRequest :=
  let given := match request with
               | Some r => negb (bool_decide (ConfigContent r = ""%string)) || negb (bool_decide (ConfigPath r = ""%string))
               | None => false
               end in
  if given then request
  else
    path ← settings s !! "lastStartRequestPath"%string;
    content ← settings s !! "lastStartRequestContent"%string;
    name ← settings s !! "lastStartRequestName"%string;
    Some (mkRequest content path name false false).

(** The content of a configuration is never stored. *)
Definition saveLastStartRequest (r : StartRequest) (s : PokrovInstance) : PokrovInstance :=
  if bool_decide (ConfigContent r = ""%string) && bool_decide (ConfigPath r = ""%string) then s
  else s <| settings ::= λ t, <["lastStartRequestName"%string := ConfigName r]>
             (<["lastStartRequestContent"%string := ""%string]> (<["lastStartRequestPath"%string := ConfigPath r]> t)) |>.

(** What a call into other code does. *)
Inductive call (A : Type) := Returns (a : A) | Errs (e : gerr) | Panics.
#[local] Arguments Returns {A} a.
#[local] Arguments Errs {A} e.
#[local] Arguments Panics {A}.

(** The state of the context at each of its tests, and the calls of a start: the
    listening ports of the socks inbounds of the configuration that is built, the
    extensions, and the engine. *)
Record start_env := mkStartEnv {
  ctx_entry : option gerr;
  load_err : gerr;
  build : call (list Z);
  ctx_built : option gerr;
  prestart : call unit;
  ctx_delay : option gerr;
  ctx_ready : option gerr;
  new_service : call nat;
  ctx_final : option gerr
}.

(** A start answers, or panics with its lock released. *)
Inductive start_result :=
| Answer (response : option CoreInfoResponse) (err : option gerr)
| Panicking.

Definition failed (ty : MessageType) (e : gerr) (s : PokrovInstance) : PokrovInstance * start_result :=
  let '(s, info, err) := errorWrapper ty e s in (s, Answer (Some info) (Some err)).

Definition not_initialized : gerr := GErr NOther "PokrovOptions not initialized" [].

(** The start proper, from [NewService] on: [NewService] closes the engine of a
    start that fails. *)
Definition launch (e : start_env) (ports : list Z) (s : PokrovInstance) : PokrovInstance * start_result :=
  match new_service e with
  | Panics => (s, Panicking)
  | Errs err => failed START_SERVICE err s
  | Returns instance =>
      let s := s <| instances ::= <[instance := true]> |> <| StartedService := Some instance |> in
      match ctx_final e with
      | Some err => (s, Answer None (Some err))
      | None =>
          let s := s <| ListenPort := default (ListenPort s) (last ports) |> in
          let '(s, info) := SetCoreStatus STARTED EMPTY "" s in (s, Answer (Some info) None)
      end
  end.

(** From the built configuration to the engine. *)
Definition prepare (e : start_env) (r : StartRequest) (ports : list Z) (s : PokrovInstance) : PokrovInstance * start_result :=
  match ctx_built e with
  | Some err => failed START_SERVICE err s
  | None =>
      let s := saveLastStartRequest r s in
      match prestart e with
      | Panics => (s, Panicking)
      | Errs err => failed ERROR_EXTENSION err s
      | Returns _ =>
          match (if DelayStart r then ctx_delay e else None), ctx_ready e with
          | Some err, _ | None, Some err => failed START_SERVICE err s
          | None, None => launch e ports s
          end
      end
  end.

(** [StartService] between [Lock] and [Unlock]. *)
Definition start_section (e : start_env) (request : option StartRequest) (s : PokrovInstance) : PokrovInstance * start_result :=
  match ctx_entry e with
  | Some err => (s, Answer None (Some err))
  | None =>
      match CoreState s with
      | STOPPED =>
          let s := (SetCoreStatus STARTING EMPTY "" s).1 in
          match loadLastStartRequestIfNeeded request s with
          | None => failed ERROR_BUILDING_CONFIG (load_err e) s
          | Some r =>
              let s := s <| previousStartRequest := Some r |> in
              if negb (EnableRawConfig r) && negb (PokrovOptions s) then failed ERROR_BUILDING_CONFIG not_initialized s
              else match build e with
                   | Panics => (s, Panicking)
                   | Errs err => failed ERROR_BUILDING_CONFIG err s
                   | Returns ports => prepare e r ports s
                   end
          end
      | state => (s, Answer (Some (mkInfo state ALREADY_STARTED "instance already started")) None)
      end
  end.

(** ** Stopping *)

(** [Stop] between [Lock] and [Unlock]; [close_err] is what closing reports. *)
Definition stop_section (close_err : option gerr) (s : PokrovInstance) : PokrovInstance * (CoreInfoResponse * option gerr) :=
  let s := (SetCoreStatus STOPPING EMPTY "" s).1 in
  match StartedService s with
  | None => let '(s, info) := SetCoreStatus STOPPED ALREADY_STOPPED "" s in (s, (info, None))
  | Some ss =>
      let s := (close_instance ss s) <| StartedService := None |> in
      match close_err with
      | Some err => let '(s, info, err) := errorWrapper UNEXPECTED_ERROR err s in (s, (info, Some err))
      | None => let '(s, info) := SetCoreStatus STOPPED EMPTY "" s in (s, (info, None))
      end
  end.

(** [Restart]: [waits] is set on Android with a tunnel, [cancelled] if the context
    ends that wait. *)
Definition Restart (close_err : option gerr) (waits cancelled : bool) (e : start_env) (request : option StartRequest)
    (s : PokrovInstance) : PokrovInstance * start_result :=
  let '(s, (info, err)) := stop_section close_err s in
  match err with
  | Some err => (s, Answer (Some info) (Some err))
  | None =>
      if waits && cancelled then
        let '(s, info) := SetCoreStatus STOPPED INSTANCE_NOT_STARTED "restart cancelled" s in (s, Answer (Some info) None)
      else start_section e request s
  end.

(** ** Events *)

Inductive operation := RuntimeStart | RuntimeStop.
Inductive report := OutcomeStarted | OutcomeSucceeded | OutcomeFailed (code : string).

(** The recovery of a panic: [config.DeferPanicToError] with [errorWrapper]. *)
Definition recover (panic : gerr) (s : PokrovInstance) (r : start_result) : PokrovInstance * option CoreInfoResponse * option gerr :=
  match r with
  | Answer info err => (s, info, err)
  | Panicking => let '(s, info, err) := errorWrapper UNEXPECTED_ERROR panic s in (s, Some info, Some err)
  end.

(** [StartService] with nothing in between, and the events it emits. *)
Definition StartService (e : start_env) (panic : gerr) (request : option StartRequest) (s : PokrovInstance)
    : PokrovInstance * option CoreInfoResponse * option gerr * list (operation * report) :=
  let '(s, r) := start_section e request s in
  let '(s, info, err) := recover panic s r in
  (s, info, err, [(RuntimeStart, OutcomeStarted);
                  (RuntimeStart, match err with Some err => OutcomeFailed (safe_code err) | None => OutcomeSucceeded end)]).

(** [StartInterruptible]: the context is cancelled if the caller interrupts
    ([interrupted], which the start sees at its tests), and an interruption that
    wins after the start succeeded turns its result into an error. *)
Definition StartInterruptible (e : start_env) (panic : gerr) (request : option StartRequest) (interrupted : option gerr)
    (s : PokrovInstance) : PokrovInstance * option CoreInfoResponse * option gerr :=
  let '(s, info, err, _) := StartService e panic request s in
  (s, info, match err with Some err => Some err | None => interrupted end).
End Host.

Arguments Returns {A} a.
Arguments Errs {A} e.
Arguments Panics {A}.

(** ** Runs of locked calls *)

(** A new engine is not one of the earlier. *)
Definition fresh_service (e : start_env) (s : PokrovInstance) : Prop :=
  ∀ i, new_service e = Returns i → instances s !! i = None.

Inductive cstep (p : platform) : PokrovInstance → PokrovInstance → Prop :=
| c_start s e request s' info err : fresh_service e s → start_section p e request s = (s', Answer info err) → cstep p s s'
| c_stop s close_err s' r : stop_section p close_err s = (s', r) → cstep p s s'.

(** The engine that is open is the one the core refers to, it is stopped exactly
    when there is none, and no configuration is stored. *)
Record owned (s : PokrovInstance) : Prop := {
  owned_open : ∀ i, instances s !! i = Some true ↔ StartedService s = Some i;
  owned_state : CoreState s = STOPPED ↔ StartedService s = None;
  owned_private : ∀ v, settings s !! "lastStartRequestContent"%string = Some v → v = ""%string
}.

(** Nothing is open. *)
Record idle (s : PokrovInstance) : Prop := {
  idle_service : StartedService s = None;
  idle_open : ∀ i, instances s !! i ≠ Some true;
  idle_private : ∀ v, settings s !! "lastStartRequestContent"%string = Some v → v = ""%string
}.

Lemma idle_owned s : idle s → CoreState s = STOPPED → owned s.
Proof. intros [Hs Ho Hp] Hc. constructor; [|by rewrite Hs|done]. intros i. rewrite Hs. split; [intros H; by apply Ho in H|done]. Qed.

Lemma owned_idle s : owned s → CoreState s = STOPPED → idle s.
Proof.
  intros [Ho Hs Hp] Hc%Hs. constructor; [done| |done]. intros i H%Ho. congruence.
Qed.

Lemma save_idle r s : idle s → idle (saveLastStartRequest r s).
Proof.
  intros [Hs Ho Hp]. unfold saveLastStartRequest. destruct (_ && _); [done|]. constructor; simpl; [done..|].
  intros v. rewrite lookup_insert_ne, lookup_insert_eq by done. congruence.
Qed.

Section Lifecycle.
Variable p : platform.

Lemma alert_idle ty m s : idle s → idle (StopAndAlert ty m s).
Proof. intros [Hs Ho Hp]. unfold StopAndAlert. simpl. rewrite Hs. by constructor. Qed.

Lemma failed_idle ty e s s' r : idle s → failed p ty e s = (s', r) →
  idle s' ∧ CoreState s' = STOPPED ∧ ∃ info err, r = Answer (Some info) (Some err) ∧ i_CoreState info = STOPPED.
Proof.
  intros Hi. unfold failed, errorWrapper. simpl. intros [= <- <-].
  pose proof (alert_idle UNEXPECTED_ERROR (safe_code p e) s Hi) as [Hs Ho Hp].
  split_and!; [by constructor|done|by eauto].
Qed.

(** What a start that was not refused at once leaves behind. *)
Definition start_left (s' : PokrovInstance) (r : start_result) : Prop :=
  match r with
  | Answer info None => ∃ x i, info = Some x ∧ i_CoreState x = STARTED ∧ CoreState s' = STARTED ∧ StartedService s' = Some i
  | Answer info (Some _) => (idle s' ∧ CoreState s' = STOPPED) ∨
      (info = None ∧ CoreState s' = STARTING ∧ ∃ i, StartedService s' = Some i)
  | Panicking => True
  end.

Lemma failed_left ty e s s' r : idle s → failed p ty e s = (s', r) → owned s' ∧ start_left s' r.
Proof.
  intros Hi Hf. destruct (failed_idle _ _ _ _ _ Hi Hf) as (Hi' & Hc & info & err & -> & Hx).
  split; [by apply idle_owned|]. simpl. by left.
Qed.

Lemma launch_left e ports s s' r : idle s → CoreState s = STARTING → fresh_service e s → r ≠ Panicking →
  launch p e ports s = (s', r) → owned s' ∧ start_left s' r.
Proof.
  intros Hi Hc Hf Hr. unfold launch. destruct (new_service e) as [i|err|] eqn:Hn; [|by apply failed_left|by intros [= <- <-]].
  destruct Hi as [Hs Ho Hp].
  assert (Hopen : ∀ j, <[i := true]> (instances s) !! j = Some true ↔ Some i = Some j).
  { intros j. case_key i j; [done|]. split; [intros H; by apply Ho in H|by intros [= ->]]. }
  destruct (ctx_final e) as [err|]; intros [= <- <-].
  - split; [constructor; simpl; [done|by rewrite Hc|done]|]. right. eauto.
  - split; [constructor; simpl; [done|done|done]|]. simpl. eauto 10.
Qed.

Lemma prepare_left e r ports s s' res : idle s → CoreState s = STARTING → fresh_service e s → res ≠ Panicking →
  prepare p e r ports s = (s', res) → owned s' ∧ start_left s' res.
Proof.
  intros Hi Hc Hf Hr. unfold prepare. destruct (ctx_built e); [by apply failed_left|].
  pose proof (save_idle r s Hi) as Hi'.
  assert (Hc' : CoreState (saveLastStartRequest r s) = STARTING) by (unfold saveLastStartRequest; by destruct (_ && _)).
  assert (Hf' : fresh_service e (saveLastStartRequest r s)) by (unfold saveLastStartRequest; by destruct (_ && _)).
  destruct (prestart e) as [[]|err|]; [|by apply failed_left|by intros [= <- <-]].
  destruct (if DelayStart r then ctx_delay e else None); [by apply failed_left|].
  destruct (ctx_ready e); [by apply failed_left|by apply launch_left].
Qed.

Lemma start_left_spec e request s s' r : owned s → fresh_service e s → r ≠ Panicking → ctx_entry e = None →
  CoreState s = STOPPED → start_section p e request s = (s', r) → owned s' ∧ start_left s' r.
Proof.
  intros Ho Hf Hr He Hc. unfold start_section. rewrite He, Hc. simpl.
  pose proof (owned_idle _ Ho Hc) as [Hs Hop Hp].
  destruct (loadLastStartRequestIfNeeded _ _) as [q|]; [|by apply failed_left].
  destruct (_ && _); [by apply failed_left|].
  destruct (build e) as [ports|err|]; [|by apply failed_left|by intros [= <- <-]]. by apply prepare_left.
Qed.

(** A start that panics has made no engine the core refers to. *)
Lemma failed_answers ty e s s' : failed p ty e s ≠ (s', Panicking).
Proof. unfold failed, errorWrapper. simpl. congruence. Qed.

Lemma start_panic_idle e request s s' : owned s → start_section p e request s = (s', Panicking) → idle s'.
Proof.
  intros Ho. unfold start_section. destruct (ctx_entry e); [done|]. destruct (CoreState s) eqn:Hc; try done. simpl.
  pose proof (owned_idle _ Ho Hc) as [Hs Hop Hp].
  destruct (loadLastStartRequestIfNeeded _ _) as [q|]; [|by intros ?%failed_answers].
  destruct (_ && _); [by intros ?%failed_answers|].
  destruct (build e) as [ports|err|]; [|by intros ?%failed_answers|by intros [= <-]].
  unfold prepare. destruct (ctx_built e); [by intros ?%failed_answers|].
  match goal with |- context [saveLastStartRequest q ?s0] => assert (Hi : idle (saveLastStartRequest q s0)) by (by apply save_idle) end.
  destruct (prestart e) as [[]|err|]; [|by intros ?%failed_answers|by intros [= <-]].
  destruct (if DelayStart q then ctx_delay e else None); [by intros ?%failed_answers|].
  destruct (ctx_ready e); [by intros ?%failed_answers|]. unfold launch.
  destruct (new_service e) as [i|err|]; [by destruct (ctx_final e)|by intros ?%failed_answers|by intros [= <-]].
Qed.

(** The whole call keeps the core's engine its own. *)
Lemma start_service_owned e x request s s' info err events : owned s → fresh_service e s →
  StartService p e x request s = (s', info, err, events) → owned s'.
Proof.
  intros Ho Hf. unfold StartService. destruct (start_section p e request s) as [s1 r] eqn:Hst.
  destruct r as [info1 err1|]; simpl; intros [= <- <- <- <-].
  - destruct (ctx_entry e) as [y|] eqn:He; [unfold start_section in Hst; rewrite He in Hst; by simplify_eq|].
    destruct (CoreState s) eqn:Hc; try (unfold start_section in Hst; rewrite He, Hc in Hst; by simplify_eq).
    by apply (start_left_spec e request s s1 (Answer info1 err1)).
  - pose proof (alert_idle UNEXPECTED_ERROR (safe_code p x) s1 (start_panic_idle _ _ _ _ Ho Hst)) as [? ? ?].
    by apply idle_owned; [constructor|].
Qed.

Lemma stop_idle close_err s s' r : owned s → stop_section p close_err s = (s', r) →
  idle s' ∧ CoreState s' = STOPPED ∧ i_CoreState r.1 = STOPPED.
Proof.
  intros [Ho Hst Hp]. unfold stop_section. simpl. destruct (StartedService s) as [ss|] eqn:Hs.
  - assert (Hcl : ∀ i, <[ss := false]> (instances s) !! i ≠ Some true).
    { intros i. case_key ss i; [done|]. intros H%Ho. congruence. }
    destruct close_err as [err|].
    + unfold errorWrapper, StopAndAlert. simpl. intros [= <- <-]. by split_and!; [constructor|..].
    + intros [= <- <-]. by split_and!; [constructor|..].
  - intros [= <- <-]. split_and!; [|done..]. constructor; simpl; [done| |done]. intros i H%Ho. done.
Qed.

Lemma cstep_owned s s' : cstep p s s' → owned s → owned s'.
Proof.
  intros H Ho. destruct H as [s e request s' info err Hf Hst|s close_err s' r Hst].
  - destruct (ctx_entry e) as [x|] eqn:He; [unfold start_section in Hst; rewrite He in Hst; by simplify_eq|].
    destruct (CoreState s) eqn:Hc; try (unfold start_section in Hst; rewrite He, Hc in Hst; by simplify_eq).
    by apply (start_left_spec e request s s' (Answer info err)).
  - destruct (stop_idle _ _ _ _ Ho Hst) as (Hi & Hc & _). by apply idle_owned.
Qed.
End Lifecycle.

(** A core that was just set up. *)
Definition initial (options : bool) : PokrovInstance := mkStatic None STOPPED options None 0 ∅ ∅ [].

Lemma initial_owned options : owned (initial options).
Proof. constructor; simpl; [|done|by intros v; rewrite lookup_empty]. intros i. by rewrite lookup_empty. Qed.


(** ** An example *)

Definition ex_cancelled : gerr := GErr NOther "context canceled" [].
Definition ex_env (instance : nat) (final : option gerr) : start_env :=
  mkStartEnv None ex_cancelled (Returns [1080]) None (Returns ()) None None (Returns instance) final.
Definition ex_request : StartRequest := mkRequest "{}" "" "name" true false.

(** A start that is cancelled at the end keeps its engine; a stop closes it, and
    the next start makes another. *)
Definition ex_retained : PokrovInstance := (start_section ex_linux (ex_env 1 (Some ex_cancelled)) (Some ex_request) (initial false)).1.
Definition ex_stopped : PokrovInstance := (stop_section ex_linux (Some ex_cancelled) ex_retained).1.
Definition ex_started : PokrovInstance := (start_section ex_linux (ex_env 2 None) (Some ex_request) ex_stopped).1.


(** ** What is done without the lock *)

(** Where the recovery of a panicking start is. *)
Inductive recovery :=
| AtStatus
| AtRead
| AtClose (ss : nat)
| AtClear
| AtFinal.

Record world := mkWorld { host : PokrovInstance; recoveries : gmap nat recovery }.

Inductive ustep (p : platform) (panic : gerr) : world → world → Prop :=
| u_locked w s : cstep p (host w) s → ustep p panic w (mkWorld s (recoveries w))
| u_panic w t e request s : recoveries w !! t = None → start_section p e request (host w) = (s, Panicking) →
    ustep p panic w (mkWorld s (<[t := AtStatus]> (recoveries w)))
| u_status w t : recoveries w !! t = Some AtStatus →
    ustep p panic w (mkWorld (SetCoreStatus STOPPED UNEXPECTED_ERROR (safe_code p panic) (host w)).1 (<[t := AtRead]> (recoveries w)))
| u_read w t : recoveries w !! t = Some AtRead →
    ustep p panic w (mkWorld (host w) (<[t := match StartedService (host w) with Some ss => AtClose ss | None => AtFinal end]> (recoveries w)))
| u_close w t ss : recoveries w !! t = Some (AtClose ss) →
    ustep p panic w (mkWorld (close_instance ss (host w)) (<[t := AtClear]> (recoveries w)))
| u_clear w t : recoveries w !! t = Some AtClear →
    ustep p panic w (mkWorld ((host w) <| StartedService := None |>) (<[t := AtFinal]> (recoveries w)))
| u_final w t : recoveries w !! t = Some AtFinal →
    ustep p panic w (mkWorld (SetCoreStatus STOPPED UNEXPECTED_ERROR (safe_code p panic) (host w)).1 (delete t (recoveries w)))
| u_restart w : ustep p panic w
    (mkWorld (SetCoreStatus STOPPED INSTANCE_NOT_STARTED "restart cancelled" (host w)).1 (recoveries w)).

(** A [Restart] that is cancelled while it waits sets the status without the lock:
    a start that ran meanwhile is then taken for stopped, the next start makes a
    second engine, and the first keeps running with nothing that refers to it. *)
Lemma cancelled_restart_leaks :
  ∃ w, rtc (ustep ex_linux ex_cancelled) (mkWorld (initial false) ∅) w ∧
    instances (host w) !! 1%nat = Some true ∧ instances (host w) !! 2%nat = Some true ∧ StartedService (host w) = Some 2%nat.
Proof.
  set (s1 := (start_section ex_linux (ex_env 1 None) (Some ex_request) (initial false)).1).
  set (s2 := (SetCoreStatus STOPPED INSTANCE_NOT_STARTED "restart cancelled" s1).1).
  set (s3 := (start_section ex_linux (ex_env 2 None) (Some ex_request) s2).1).
  exists (mkWorld s3 ∅). split; [|done].
  eapply rtc_l; [apply (u_locked _ _ (mkWorld (initial false) ∅) s1)|].
  { eapply (c_start _ _ (ex_env 1 None) (Some ex_request)); [by intros i [= <-]|vm_compute; reflexivity]. }
  eapply rtc_l; [apply (u_restart _ _ (mkWorld s1 ∅))|].
  eapply rtc_l; [apply (u_locked _ _ (mkWorld s2 ∅) s3)|apply rtc_refl].
  eapply (c_start _ _ (ex_env 2 None) (Some ex_request)); [by intros i [= <-]|vm_compute; reflexivity].
Qed.

(** The recovery of a panic runs after the lock is released: it can clear the
    reference to an engine that was started while it closed another. *)
Lemma recovery_leaks :
  ∃ w, rtc (ustep ex_linux ex_cancelled) (mkWorld (initial false) ∅) w ∧
    instances (host w) !! 2%nat = Some true ∧ StartedService (host w) = None.
Proof.
  set (boom := mkStartEnv None ex_cancelled Panics None (Returns ()) None None (Returns 9%nat) None).
  set (s1 := (start_section ex_linux boom (Some ex_request) (initial false)).1).
  set (s2 := (SetCoreStatus STOPPED UNEXPECTED_ERROR (safe_code ex_linux ex_cancelled) s1).1).
  set (s3 := (start_section ex_linux (ex_env 1 None) (Some ex_request) s2).1).
  set (s4 := close_instance 1 s3).
  set (s5 := (stop_section ex_linux None s4).1).
  set (s6 := (start_section ex_linux (ex_env 2 None) (Some ex_request) s5).1).
  eexists. split.
  - eapply rtc_l; [apply (u_panic _ _ (mkWorld (initial false) ∅) 0 boom (Some ex_request) s1); vm_compute; reflexivity|].
    eapply rtc_l; [apply (u_status _ _ _ 0); reflexivity|].
    eapply rtc_l; [apply (u_locked _ _ (mkWorld s2 _) s3), (c_start _ _ (ex_env 1 None) (Some ex_request) s3 (Some (mkInfo STARTED EMPTY "")) None);
                   [by intros i [= <-]|vm_compute; reflexivity]|].
    eapply rtc_l; [apply (u_read _ _ _ 0); reflexivity|].
    eapply rtc_l; [apply (u_close _ _ _ 0 1); vm_compute; reflexivity|].
    eapply rtc_l; [apply (u_locked _ _ (mkWorld s4 _) s5), (c_stop _ _ None s5 (mkInfo STOPPED EMPTY "", None)); vm_compute; reflexivity|].
    eapply rtc_l; [apply (u_locked _ _ (mkWorld s5 _) s6), (c_start _ _ (ex_env 2 None) (Some ex_request) s6 (Some (mkInfo STARTED EMPTY "")) None);
                   [by intros i [= <-]|vm_compute; reflexivity]|].
    eapply rtc_l; [apply (u_clear _ _ _ 0); reflexivity|]. apply rtc_refl.
  - vm_compute. done.
Qed.
