(* ===== verification/LinuxDaemon.v ===== *)
(** * The Linux service process

    Models [v2/hcore/linux_daemon_linux.go] ([ServeLinuxDaemon],
    [readLinuxCommands]), [linux_connect_deadline_linux.go] (the deadline of an
    attempt and its watch) and [linux_ats_lease_linux.go] (the deadline of a
    lease), over the profile of [LinuxProfile] and the life cycle of [HostCore].

    The main goroutine, the watch and cancellation from outside interleave in
    [dstep]; what the main goroutine does between two waits is one step, except
    for the promotion of a lease, whose locked part is a step of its own. *)

From stdpp Require Import base list strings gmap relations.
From Stdlib Require Import ZArith Lia Ascii.
From S2P Require Import Prelude GoTime GoBytes GoJson GoRawJson GoCrypto UrlTestHistory FailureCodes AtsLease LinuxProfile HostCore.

Local Open Scope Z_scope.

(** ** The deadline of an attempt *)

Record linuxConnectDeadline := mkDeadline { BootRef : string; StartedElapsedMS : Z; DeadlineElapsedMS : Z }.

Definition is_hex (c : ascii) : bool := let n := byte_val c in ((48 <=? n) && (n <=? 57)) || ((97 <=? n) && (n <=? 102)).

(** Groups of hexadecimal digits of the given lengths, separated by hyphens. *)
Fixpoint hex_groups (sizes : list nat) (b : bytes) : bool :=
  match sizes with
  | [] => false
  | [n] => (length b =? n)%nat && forallb is_hex b
  | n :: sizes =>
      (length (take n b) =? n)%nat && forallb is_hex (take n b) &&
      match drop n b with "-"%char :: b => hex_groups sizes b | _ => false end
  end.

Definition linuxBootRefPattern (s : string) : bool :=
  has_prefix (list_of_str s) (txt "linux:") && hex_groups [8; 4; 4; 4; 12]%nat (drop 6 (list_of_str s)).

Definition valid (deadline : option linuxConnectDeadline) : bool :=
  match deadline with
  | None => false
  | Some d =>
      linuxBootRefPattern (BootRef d) && (0 <=? StartedElapsedMS d) && (DeadlineElapsedMS d <=? 9007199254740991) &&
      (StartedElapsedMS d <? DeadlineElapsedMS d) && (DeadlineElapsedMS d - StartedElapsedMS d <=? 86400000)
  end.

(** A reading of the boot identifier (trimmed) and of the boot clock, if they
    succeed. *)
Record boot := mkBoot { boot_id : option string; boot_clock : option (Z * Z) }.

Definition elapsed_ms (c : Z * Z) : Z := c.1 * 1000 + c.2 ÷ 1000000.

Definition current (d : linuxConnectDeadline) (b : boot) : bool :=
  match boot_id b with
  | None => false
  | Some id =>
      if negb (bool_decide (("linux:" ++ id)%string = BootRef d)) then false
      else match boot_clock b with
           | None => false
           | Some (seconds, nanos) =>
               if (seconds <? 0) || (9007199254740 <? seconds) || (nanos <? 0) || (1000000000 <=? nanos) then false
               else let ms := elapsed_ms (seconds, nanos) in (StartedElapsedMS d <=? ms) && (ms <? DeadlineElapsedMS d)
           end
  end.

(** One round of [watch]: whether it cancels. *)
Definition watch_cancels (d : linuxConnectDeadline) (promotedUntil : Z) (b : boot) : bool :=
  if promotedUntil =? 0 then negb (current d b)
  else match boot_clock b with Some c => promotedUntil <=? elapsed_ms c | None => true end.

(** ** Commands *)

Definition LinuxProtocol : string := "pokrov-linux-core-v1".

Record linuxCommand := mkCommand {
  Protocol : string;
  Action : string;
  ExpectedCoreModuleSHA256 : string;
  ExpectedProfileSHA256 : string;
  Deadline : option linuxConnectDeadline;
  c_LeaseID : string;
  c_IssuedAt : string;
  c_NewFlowsUntil : string;
  c_ActiveFlowsUntil : string;
  TerminateActive : option bool
}.

(** [decoder.DisallowUnknownFields] *)
Definition only_fields (names : list string) (ms : list (string * json)) : bool :=
  forallb (λ m : string * json, existsb (λ n, bytes_eqb (fold_key (list_of_str m.1)) (list_of_str n)) names) ms.

Definition deadline_fields : list string := ["boot_ref"; "started_elapsed_ms"; "deadline_elapsed_ms"]%string.

Definition assign_deadline (j : json) (a : option linuxConnectDeadline) : option (option linuxConnectDeadline) :=
  match j with
  | JNull => Some None
  | JObj ms =>
      let d := default (mkDeadline "" 0 0) a in
      if only_fields deadline_fields ms then
        ref ← struct_field assign_string "boot_ref" (BootRef d) ms;
        started ← struct_field assign_int64 "started_elapsed_ms" (StartedElapsedMS d) ms;
        ends ← struct_field assign_int64 "deadline_elapsed_ms" (DeadlineElapsedMS d) ms;
        Some (Some (mkDeadline ref started ends))
      else None
  | _ => None
  end.

Definition assign_flag (j : json) (a : option bool) : option (option bool) :=
  match j with JNull => Some None | JBool b => Some (Some b) | _ => None end.

Definition command_fields : list string :=
  ["protocol"; "action"; "expected_core_module_sha256"; "expected_profile_sha256"; "deadline"; "endpoint_lease_ref";
   "issued_at"; "new_flows_until"; "active_flows_until"; "terminate_active"]%string.

(** A line holds one value and nothing after it. *)
Definition decode_command (line : bytes) : option linuxCommand :=
  ms ← parse line ≫= struct_members;
  if only_fields command_fields ms then
    a1 ← struct_field assign_string "protocol" "" ms;
    a2 ← struct_field assign_string "action" "" ms;
    a3 ← struct_field assign_string "expected_core_module_sha256" "" ms;
    a4 ← struct_field assign_string "expected_profile_sha256" "" ms;
    a5 ← struct_field assign_deadline "deadline" None ms;
    a6 ← struct_field assign_string "endpoint_lease_ref" "" ms;
    a7 ← struct_field assign_string "issued_at" "" ms;
    a8 ← struct_field assign_string "new_flows_until" "" ms;
    a9 ← struct_field assign_string "active_flows_until" "" ms;
    a10 ← struct_field assign_flag "terminate_active" None ms;
    Some (mkCommand a1 a2 a3 a4 a5 a6 a7 a8 a9 a10)
  else None.

Definition linuxIdentitySHA256 (value : string) : bool :=
  (length (list_of_str value) =? 64)%nat && forallb is_hex (list_of_str value).

Definition empty (s : string) : bool := bool_decide (s = ""%string).
Definition absent {A} (o : option A) : bool := match o with None => true | Some _ => false end.

(** The switch of [readLinuxCommands]. *)
Definition command_ok (c : linuxCommand) : bool :=
  if bool_decide (Action c = "start_with_identity"%string) then
    linuxIdentitySHA256 (ExpectedCoreModuleSHA256 c) && linuxIdentitySHA256 (ExpectedProfileSHA256 c) && valid (Deadline c) &&
    empty (c_LeaseID c) && empty (c_IssuedAt c) && empty (c_NewFlowsUntil c) && empty (c_ActiveFlowsUntil c) &&
    absent (TerminateActive c)
  else if bool_decide (Action c ∈ ["start"; "stop"; "health"]%string) then
    empty (ExpectedCoreModuleSHA256 c) && empty (ExpectedProfileSHA256 c) && absent (Deadline c) &&
    empty (c_LeaseID c) && empty (c_IssuedAt c) && empty (c_NewFlowsUntil c) && empty (c_ActiveFlowsUntil c) &&
    absent (TerminateActive c)
  else if bool_decide (Action c = "promote_ats_lease"%string) then
    empty (ExpectedCoreModuleSHA256 c) && absent (Deadline c) && linuxIdentitySHA256 (ExpectedProfileSHA256 c) &&
    leaseIDPattern (c_LeaseID c) && negb (empty (c_IssuedAt c)) && negb (empty (c_NewFlowsUntil c)) &&
    negb (empty (c_ActiveFlowsUntil c)) && absent (TerminateActive c)
  else if bool_decide (Action c = "revoke_ats_lease"%string) then
    empty (ExpectedCoreModuleSHA256 c) && absent (Deadline c) && linuxIdentitySHA256 (ExpectedProfileSHA256 c) &&
    leaseIDPattern (c_LeaseID c) && negb (absent (TerminateActive c)) && empty (c_IssuedAt c) &&
    empty (c_NewFlowsUntil c) && empty (c_ActiveFlowsUntil c)
  else false.

(** [bufio.Scanner] with lines: a line with its newline fits 1024 bytes, a last
    line without one 1023; a longer line ends the input. *)
Fixpoint split_line (b : bytes) : bytes * option bytes :=
  match b with
  | [] => ([], None)
  | c :: b => if byte_val c =? 10 then ([], Some b) else let '(l, rest) := split_line b in (c :: l, rest)
  end.

Definition drop_cr (l : bytes) : bytes :=
  match last l with Some c => if byte_val c =? 13 then take (length l - 1) l else l | None => l end.

Fixpoint scan_lines (fuel : nat) (b : bytes) : list bytes :=
  match fuel with
  | O => []
  | S fuel =>
      match b, split_line b with
      | [], _ => []
      | _, (l, Some rest) => if (length l <=? 1023)%nat then drop_cr l :: scan_lines fuel rest else []
      | _, (l, None) => if (length l <=? 1023)%nat then [drop_cr l] else []
      end
  end.

(** The commands of the input, up to the first line that is not one. *)
Fixpoint accept_lines (lines : list bytes) : list linuxCommand :=
  match lines with
  | [] => []
  | l :: lines =>
      match decode_command l with
      | Some c => if bool_decide (Protocol c = LinuxProtocol) && command_ok c then c :: accept_lines lines else []
      | None => []
      end
  end.

Definition readLinuxCommands (input : bytes) : list linuxCommand := accept_lines (scan_lines (S (length input)) input).

(** What a receive from the closed channel gives. *)
Definition no_command : linuxCommand := mkCommand "" "" "" "" None "" "" "" "" None.

(** ** The deadline of a lease *)

Definition row_text (row : list (string * json)) (name : string) : string :=
  foldl (λ s m, if bool_decide (m.1 = name) then match m.2 with JStr v => v | _ => ""%string end else s) ""%string row.

(** The outbounds of the configuration, each an object. *)
Definition config_rows (config : bytes) : option (list (list (string * json))) :=
  ms ← parse config ≫= struct_members;
  struct_field (assign_slice struct_members) "outbounds" [] ms.

Fixpoint lease_rows (c : linuxCommand) (gate upstream : Z) (rows : list (list (string * json))) : bool :=
  match rows with
  | [] => (gate =? 1) && (upstream =? 1)
  | row :: rows =>
      let tag := row_text row "tag" in
      if bool_decide (tag = "pokrov-ats"%string) then
        if bool_decide (row_text row "type" = "pokrov-ats-lease"%string) &&
           bool_decide (row_text row "upstream_tag" = "pokrov-ats-upstream"%string) &&
           bool_decide (row_text row "lease_id" = c_LeaseID c) && bool_decide (row_text row "issued_at" = c_IssuedAt c) &&
           bool_decide (row_text row "new_flows_until" = c_NewFlowsUntil c) &&
           bool_decide (row_text row "active_flows_until" = c_ActiveFlowsUntil c)
        then lease_rows c (gate + 1) upstream rows else false
      else if bool_decide (tag = "pokrov-ats-upstream"%string) then
        if bool_decide (row_text row "type" = "vless"%string) then lease_rows c gate (upstream + 1) rows else false
      else lease_rows c gate upstream rows
  end.

(** The readings of a promotion: the clock, the boot clock, and the clock again. *)
Record lease_clocks := mkClocks { first_now : time; lease_boot : option (Z * Z); second_now : time }.

Definition linuxATSLeaseDeadline (config : bytes) (c : linuxCommand) (t : lease_clocks) : option Z :=
  if negb (leaseIDPattern (c_LeaseID c)) then None
  else
    issued ← parse_utc (c_IssuedAt c);
    newUntil ← parse_utc (c_NewFlowsUntil c);
    activeUntil ← parse_utc (c_ActiveFlowsUntil c);
    let now := first_now t in
    if Before now issued || negb (Before now newUntil) || negb (After newUntil issued) || Before activeUntil newUntil ||
       (10 * Minute <? Sub newUntil issued) || (Hour <? Sub activeUntil issued) then None
    else
      rows ← config_rows config;
      if negb (lease_rows c 0 0 rows) then None
      else
        elapsed ← lease_boot t;
        let remaining := Until activeUntil (second_now t) ÷ Millisecond in
        if (remaining <=? 0) || (3600000 <? remaining) then None
        else Some (elapsed_ms elapsed + remaining).

(** ** The process *)

(** What is fixed once the profile is prepared: the bytes of the profile, the
    configuration and plan made of them, and the digest of the running module. *)
Record setting := mkSetting { profile : bytes; config : bytes; plan : Plan; moduleSHA256 : string; target : platform; panic : gerr }.

Definition profileSHA256 (c : setting) : string := str_of_list (hex_encode (sha256 (profile c))).

Record linuxHealth := mkHealth { DNSReady : bool; EgressValidated : bool }.

Inductive linuxReply :=
| Prepared (plan : Plan) (module profile : string)
| Started (identity : option (string * string * linuxConnectDeadline))
| Health (health : linuxHealth)
| Promoted (profile leaseID activeUntil : string)
| LeaseRevoked (profile leaseID : string)
| Stopped.

(** Where the main goroutine is; [bound] is the deadline of a start that named
    its identity. *)
Inductive point :=
| Waiting
| Launching (bound : option linuxConnectDeadline)
| Running (bound : option linuxConnectDeadline)
| Promoting (bound : linuxConnectDeadline) (c : linuxCommand) (limit : Z)
| Done (ok : bool).

Record daemon := mkDaemon {
  main : point;
  pending : list linuxCommand;
  cancelled : bool;
  watching : option linuxConnectDeadline;
  promotedUntil : Z;
  core : PokrovInstance;
  replies : list linuxReply
}.

#[export] Instance eta_daemon : Eta daemon := λ d,
  mkDaemon (main d) (pending d) (cancelled d) (watching d) (promotedUntil d) (core d) (replies d).

Section Process.
Variable cfg : setting.

(** The next command; the channel is closed after the last. *)
Definition take_command (d : daemon) : linuxCommand * daemon :=
  match pending d with
  | c :: rest => (c, d <| pending := rest |>)
  | [] => (no_command, d)
  end.

(** The deferred end: [Stop] and the last reply, then [cancelRun]. *)
Definition finish (ok : bool) (close_err : option gerr) (encodes : bool) (d : daemon) : daemon :=
  let '(s, (info, err)) := stop_section (target cfg) close_err (core d) in
  let stopped := match err, i_CoreState info with None, STOPPED => true | _, _ => false end in
  d <| core := s |> <| replies ::= λ l, if stopped && encodes then Stopped :: l else l |>
    <| main := Done (ok && stopped && encodes) |> <| cancelled := true |>.

(** What the environment answers during one step: closing the engine and writing
    the last reply if the step ends the run, writing its own reply, the second
    digest of the module, the boot readings, the start, the tunnel interface, the
    health probe, the clocks of a promotion and the answers of the lease. *)
Record answers := mkAnswers {
  a_close : option gerr;
  a_last : bool;
  a_encode : bool;
  a_module : string;
  a_boot : boot;
  a_start : start_env;
  a_interface : bool;
  a_health : linuxHealth;
  a_clocks : lease_clocks;
  a_confirm : result gerr bool;
  a_revoke : result gerr bool
}.

Definition abort (a : answers) (d : daemon) : daemon := finish false (a_close a) (a_last a) d.

(** The first command. *)
Definition first_command (a : answers) (c : linuxCommand) (d : daemon) : daemon :=
  if bool_decide (Action c = "start_with_identity"%string) then
    if negb (bool_decide (ExpectedCoreModuleSHA256 c = moduleSHA256 cfg)) ||
       negb (bool_decide (ExpectedProfileSHA256 c = profileSHA256 cfg)) ||
       negb (bool_decide (a_module a = moduleSHA256 cfg)) then abort a d
    else match Deadline c with
         | Some deadline =>
             if current deadline (a_boot a) then d <| main := Launching (Some deadline) |> <| watching := Some deadline |>
             else abort a d
         | None => abort a d
         end
  else if bool_decide (Action c = "start"%string) then d <| main := Launching None |>
  else abort a d.

Definition start_request : StartRequest := mkRequest (str_of_list (config cfg)) "" "" true false.

(** From the start to its reply. *)
Definition start_core (a : answers) (bound : option linuxConnectDeadline) (d : daemon) : daemon :=
  if cancelled d then abort a d
  else
    let '(s, info, err, _) := StartService (target cfg) (a_start a) (panic cfg) (Some start_request) (core d) in
    let d := d <| core := s |> in
    let started := match err, info with
                   | None, Some x => match i_CoreState x with STARTED => true | _ => false end
                   | _, _ => false
                   end in
    if negb started || negb (a_interface a) then abort a d
    else
      let timely := match bound with Some deadline => current deadline (a_boot a) | None => true end in
      if negb timely || negb (a_encode a) then abort a d
      else d <| replies ::= cons (Started ((λ deadline, (moduleSHA256 cfg, profileSHA256 cfg, deadline)) <$> bound)) |>
             <| main := Running bound |>.

Definition reply (a : answers) (r : linuxReply) (d : daemon) : daemon :=
  if a_encode a then d <| replies ::= cons r |> else abort a d.

(** [promote_ats_lease] up to the lock. *)
Definition promote (a : answers) (bound : option linuxConnectDeadline) (c : linuxCommand) (d : daemon) : daemon :=
  match bound with
  | None => abort a d
  | Some deadline =>
      if negb (promotedUntil d =? 0) || negb (current deadline (a_boot a)) ||
         negb (bool_decide (ExpectedProfileSHA256 c = profileSHA256 cfg)) || cancelled d then abort a d
      else match linuxATSLeaseDeadline (config cfg) c (a_clocks a) with
           | None => abort a d
           | Some limit => match a_confirm a with
                           | Ok true => d <| main := Promoting deadline c limit |>
                           | _ => abort a d
                           end
           end
  end.

(** The locked part and the reply. *)
Definition promote_section (a : answers) (deadline : linuxConnectDeadline) (c : linuxCommand) (limit : Z) (d : daemon) : daemon :=
  if negb (current deadline (a_boot a)) || cancelled d then abort a d
  else reply a (Promoted (profileSHA256 cfg) (c_LeaseID c) (c_ActiveFlowsUntil c))
         (d <| promotedUntil := limit |> <| main := Running (Some deadline) |>).

Definition revoke_lease (a : answers) (bound : option linuxConnectDeadline) (c : linuxCommand) (d : daemon) : daemon :=
  if absent bound || (promotedUntil d =? 0) || negb (bool_decide (ExpectedProfileSHA256 c = profileSHA256 cfg)) || cancelled d
  then abort a d
  else match a_revoke a with
       | Ok true => reply a (LeaseRevoked (profileSHA256 cfg) (c_LeaseID c)) d
       | _ => abort a d
       end.

Definition run_command (a : answers) (bound : option linuxConnectDeadline) (c : linuxCommand) (d : daemon) : daemon :=
  if bool_decide (Action c = "stop"%string) then finish true (a_close a) (a_last a) d
  else if bool_decide (Action c = "health"%string) then reply a (Health (a_health a)) d
  else if bool_decide (Action c = "promote_ats_lease"%string) then promote a bound c d
  else if bool_decide (Action c = "revoke_ats_lease"%string) then revoke_lease a bound c d
  else abort a d.

(** ** Interleavings *)

(** A start makes a new engine. *)
Definition fresh_answers (a : answers) (d : daemon) : Prop := fresh_service (a_start a) (core d).

Inductive dstep : daemon → daemon → Prop :=
| d_first d a c d' : main d = Waiting → take_command d = (c, d') → dstep d (first_command a c d')
| d_start d a bound : main d = Launching bound → fresh_answers a d → dstep d (start_core a bound d)
| d_command d a bound c d' : main d = Running bound → take_command d = (c, d') → dstep d (run_command a bound c d')
| d_promote d a deadline c limit : main d = Promoting deadline c limit → dstep d (promote_section a deadline c limit d)
| d_done d a : main d = Waiting ∨ (∃ bound, main d = Running bound) → cancelled d = true →
    dstep d (finish true (a_close a) (a_last a) d)
| d_watch d b deadline : watching d = Some deadline → watch_cancels deadline (promotedUntil d) b = true →
    dstep d (d <| cancelled := true |> <| watching := None |>)
| d_cancel d : dstep d (d <| cancelled := true |>)
| d_unread d : cancelled d = true → dstep d (d <| pending := [] |>).

Definition prepared_daemon (input : bytes) : daemon :=
  mkDaemon Waiting (readLinuxCommands input) false None 0 (initial false)
    [Prepared (plan cfg) (moduleSHA256 cfg) (profileSHA256 cfg)].
End Process.

(** ** What the reader accepts *)

Lemma accept_ok lines : Forall (λ c, command_ok c = true) (accept_lines lines).
Proof.
  induction lines as [|l lines IH]; simpl; [constructor|]. destruct (decode_command l) as [c|]; [|constructor].
  destruct (_ && _) eqn:Hb; [|constructor]. bsplit. by constructor.
Qed.

Lemma command_deadline c deadline : command_ok c = true → Action c = "start_with_identity"%string → Deadline c = Some deadline →
  valid (Some deadline) = true.
Proof. unfold command_ok. intros H E Hd. rewrite E in H. simpl in H. bsplit. by rewrite Hd in *. Qed.

(** The lease of a command is the one in the configuration, and ends within an
    hour of the reading. *)
Lemma lease_deadline_spec config c t limit : linuxATSLeaseDeadline config c t = Some limit →
  ∃ rows elapsed, config_rows config = Some rows ∧ lease_rows c 0 0 rows = true ∧ lease_boot t = Some elapsed ∧
    elapsed_ms elapsed < limit ≤ elapsed_ms elapsed + 3600000.
Proof.
  unfold linuxATSLeaseDeadline. destruct (negb _); [done|].
  destruct (parse_utc (c_IssuedAt c)) as [issued|]; [|done]. destruct (parse_utc (c_NewFlowsUntil c)) as [newUntil|]; [|done].
  destruct (parse_utc (c_ActiveFlowsUntil c)) as [activeUntil|]; [|done]. simpl.
  destruct (_ || _); [done|]. destruct (config_rows config) as [rows|]; [|done]. simpl.
  destruct (lease_rows c 0 0 rows) eqn:Hr; [|done]. simpl. destruct (lease_boot t) as [e|]; [|done]. simpl.
  destruct (_ || _) eqn:Hb; [done|]. intros [= <-]. exists rows, e. split_and!; try done; lia.
Qed.

(** ** The invariant of the process *)

Section Invariant.
Variable cfg : setting.

(** A lease that may extend the run. *)
Definition leased (deadline : linuxConnectDeadline) (limit : Z) : Prop :=
  ∃ c t b, ExpectedProfileSHA256 c = profileSHA256 cfg ∧ linuxATSLeaseDeadline (config cfg) c t = Some limit ∧
    current deadline b = true.

Definition bound_of (m : point) : option linuxConnectDeadline :=
  match m with Launching b | Running b => b | Promoting d _ _ => Some d | Waiting | Done _ => None end.

Definition engine_allowed (m : point) : bool := match m with Running _ | Promoting _ _ _ => true | _ => false end.

Record daemon_ok (d : daemon) : Prop := {
  ok_host : owned (core d);
  ok_idle : engine_allowed (main d) = false → CoreState (core d) = STOPPED;
  ok_pending : Forall (λ c, command_ok c = true) (pending d);
  ok_bound : ∀ deadline, bound_of (main d) = Some deadline →
    valid (Some deadline) = true ∧ (cancelled d = false → watching d = Some deadline);
  ok_promoted : promotedUntil d ≠ 0 → ∃ deadline, valid (Some deadline) = true ∧ leased deadline (promotedUntil d) ∧
    (∀ b, bound_of (main d) = Some b → b = deadline);
  ok_unpromoted : main d = Waiting ∨ (∃ b, main d = Launching b) → promotedUntil d = 0;
  ok_promoting : ∀ deadline c limit, main d = Promoting deadline c limit →
    ∃ t, ExpectedProfileSHA256 c = profileSHA256 cfg ∧ linuxATSLeaseDeadline (config cfg) c t = Some limit;
  ok_replies : ∀ m p deadline, Started (Some (m, p, deadline)) ∈ replies d →
    m = moduleSHA256 cfg ∧ p = profileSHA256 cfg ∧ valid (Some deadline) = true;
  ok_stopped : Stopped ∈ replies d → ∃ ok, main d = Done ok;
  ok_done : main d = Done true → head (replies d) = Some Stopped
}.

Lemma take_ok d c d' : daemon_ok d → take_command d = (c, d') →
  daemon_ok d' ∧ (command_ok c = true ∨ c = no_command) ∧ main d' = main d ∧ cancelled d' = cancelled d ∧
  promotedUntil d' = promotedUntil d ∧ core d' = core d.
Proof.
  intros Hd. unfold take_command. destruct (pending d) as [|x l] eqn:Hp; intros [= <- <-]; [by auto 10|].
  destruct Hd. rewrite Hp in *. apply Forall_cons in ok_pending0 as [Hx Hl]. split_and!; [|by left|done..].
  by constructor.
Qed.

Lemma linux_finish_ok ok close_err encodes d : daemon_ok d → (∀ o, main d ≠ Done o) → daemon_ok (finish cfg ok close_err encodes d).
Proof.
  intros Hd Hm. unfold finish. destruct (stop_section _ _ _) as [s [info err]] eqn:Hst.
  destruct (stop_idle _ _ _ _ _ (ok_host _ Hd) Hst) as (Hi & Hc & _). destruct Hd. constructor; simpl; try done.
  - by apply idle_owned.
  - intros H. destruct (ok_promoted0 H) as (dl & Hv & Hl & _). by exists dl.
  - by intros [|[]].
  - intros m p dl Hin. apply (ok_replies0 m p dl). destruct (_ && _); [|done]. by apply elem_of_cons in Hin as [|].
  - by eauto.
  - intros [= H]. apply andb_true_iff in H as [[_ Hs]%andb_true_iff He]. by rewrite Hs, He.
Qed.

(** A reply that is not the last and names no identity. *)
Definition plain_reply (r : linuxReply) : bool :=
  match r with Started (Some _) | Stopped => false | _ => true end.

Lemma abort_ok a d : daemon_ok d → (∀ o, main d ≠ Done o) → daemon_ok (abort cfg a d).
Proof. apply linux_finish_ok. Qed.

Lemma reply_ok a r d : daemon_ok d → (∀ o, main d ≠ Done o) → plain_reply r = true → daemon_ok (reply cfg a r d).
Proof.
  intros Hd Hm Hr. unfold reply. destruct (a_encode a); [|by apply abort_ok]. destruct Hd. constructor; simpl; try done.
  - intros m p dl [E|Hin]%elem_of_cons; [by subst|by apply ok_replies0].
  - intros [E|Hin]%elem_of_cons; [by subst|by apply ok_stopped0].
  - intros H. by apply Hm in H.
Qed.

Lemma first_ok a c d : daemon_ok d → main d = Waiting → command_ok c = true ∨ c = no_command → daemon_ok (first_command cfg a c d).
Proof.
  intros Hd Hm Hc. assert (Hn : ∀ o, main d ≠ Done o) by (by rewrite Hm).
  assert (Hz : promotedUntil d = 0) by (apply ok_unpromoted; auto).
  assert (Hst : Stopped ∉ replies d) by (intros Hin; apply (ok_stopped _ Hd) in Hin as [o Ho]; by apply Hn in Ho).
  assert (Hi : CoreState (core d) = STOPPED) by (apply ok_idle; [done|by rewrite Hm]).
  unfold first_command. case_bool_decide as Ha.
  - destruct (_ || _); [by apply abort_ok|]. destruct (Deadline c) as [dl|] eqn:Hdl; [|by apply abort_ok].
    destruct (current dl _); [|by apply abort_ok].
    assert (Hv : valid (Some dl) = true) by (destruct Hc as [Hc| ->]; [by eapply command_deadline|done]).
    destruct Hd. constructor; simpl; try done. by intros ? [= <-].
  - case_bool_decide; [|by apply abort_ok]. destruct Hd. by constructor.
Qed.

Lemma start_ok' a bound d : daemon_ok d → main d = Launching bound → fresh_answers a d → daemon_ok (start_core cfg a bound d).
Proof.
  intros Hd Hm Hf. assert (Hn : ∀ o, main d ≠ Done o) by (by rewrite Hm).
  assert (Hz : promotedUntil d = 0) by (apply ok_unpromoted; eauto).
  assert (Hst : Stopped ∉ replies d) by (intros Hin; apply (ok_stopped _ Hd) in Hin as [o Ho]; by apply Hn in Ho).
  unfold start_core. destruct (cancelled d) eqn:Hca; [by apply abort_ok|].
  destruct (StartService _ _ _ _ _) as [[[s info] err] events] eqn:Hs.
  pose proof (start_service_owned _ _ _ _ _ _ _ _ _ (ok_host _ Hd) Hf Hs) as Ho.
  match goal with |- context [abort cfg a ?d1] => set (d1' := d1) end.
  assert (Habort : daemon_ok (abort cfg a d1')).
  { unfold abort, finish. destruct (stop_section _ _ _) as [s' [info' err']] eqn:Hsto.
    destruct (stop_idle _ _ _ _ _ (Ho : owned (core d1')) Hsto) as (Hi & Hc & _). destruct Hd. constructor; simpl; try done.
    - by apply idle_owned.
    - intros m p dl Hin. apply (ok_replies0 m p dl). destruct (_ && _); [|done]. by apply elem_of_cons in Hin as [|].
    - by eauto. }
  destruct (_ || _); [done|]. destruct (_ || _); [done|].
  pose proof (ok_bound _ Hd) as Hb. rewrite Hm in Hb. destruct Hd. constructor; simpl; try done.
  - intros m p dl [E|Hin]%elem_of_cons; [|by apply ok_replies0]. destruct bound as [b|]; simplify_eq/=. split_and!; try done. by apply Hb.
  - by intros [|]%elem_of_cons.
Qed.

Lemma promote_ok a bound c d : daemon_ok d → main d = Running bound → daemon_ok (promote cfg a bound c d).
Proof.
  intros Hd Hm. assert (Hn : ∀ o, main d ≠ Done o) by (by rewrite Hm).
  unfold promote. destruct bound as [dl|]; [|by apply abort_ok]. destruct (_ || _) eqn:Hb; [by apply abort_ok|]. bsplit.
  destruct (linuxATSLeaseDeadline _ _ _) as [limit|] eqn:Hl; [|by apply abort_ok].
  destruct (a_confirm a) as [[]|]; try by apply abort_ok.
  pose proof (ok_bound _ Hd) as Hbd. rewrite Hm in Hbd.
  assert (Hst : Stopped ∉ replies d) by (intros Hin; apply (ok_stopped _ Hd) in Hin as [o Ho]; by apply Hn in Ho).
  destruct Hd. constructor; simpl; try done.
  - intros Hz. by apply Z.eqb_eq in H.
  - by intros [|[]].
  - intros ? ? ? [= <- <- <-]. eauto.
Qed.

Lemma promote_section_ok a deadline c limit d : daemon_ok d → main d = Promoting deadline c limit →
  daemon_ok (promote_section cfg a deadline c limit d).
Proof.
  intros Hd Hm. assert (Hn : ∀ o, main d ≠ Done o) by (by rewrite Hm).
  unfold promote_section. destruct (_ || _) eqn:Hb; [by apply abort_ok|]. bsplit.
  pose proof (ok_bound _ Hd) as Hbd. rewrite Hm in Hbd. destruct (Hbd _ eq_refl) as [Hv Hw].
  destruct (ok_promoting _ Hd _ _ _ Hm) as (t & Hp & Hl).
  assert (Hst : Stopped ∉ replies d) by (intros Hin; apply (ok_stopped _ Hd) in Hin as [o Ho]; by apply Hn in Ho).
  apply reply_ok; [|done|done]. destruct Hd. constructor; simpl; try done.
  - intros _. exists deadline. split_and!; [done| |by intros ? [= <-]]. exists c, t, (a_boot a). done.
  - by intros [|[]].
Qed.

Lemma command_step_ok a bound c d : daemon_ok d → main d = Running bound → daemon_ok (run_command cfg a bound c d).
Proof.
  intros Hd Hm. assert (Hn : ∀ o, main d ≠ Done o) by (by rewrite Hm).
  unfold run_command. case_bool_decide; [by apply linux_finish_ok|]. case_bool_decide; [by apply reply_ok|].
  case_bool_decide; [by apply promote_ok|]. case_bool_decide; [|by apply abort_ok].
  unfold revoke_lease. destruct (_ || _); [by apply abort_ok|]. destruct (a_revoke a) as [[]|]; [by apply reply_ok|by apply abort_ok..].
Qed.

Lemma dstep_ok d d' : dstep cfg d d' → daemon_ok d → daemon_ok d'.
Proof.
  intros H Hd. destruct H as [d a c d1 Hm Ht|d a bound Hm Hf|d a bound c d1 Hm Ht|d a dl c limit Hm|d a Hm Hc|d b dl Hw Hc|d|d Hc].
  - destruct (take_ok _ _ _ Hd Ht) as (Hd1 & Hc & Hm1 & _). apply first_ok; [done|by rewrite Hm1|done].
  - by apply start_ok'.
  - destruct (take_ok _ _ _ Hd Ht) as (Hd1 & _ & Hm1 & _). apply command_step_ok; [done|by rewrite Hm1].
  - by apply promote_section_ok.
  - apply linux_finish_ok; [done|]. destruct Hm as [Hm|[b Hm]]; by rewrite Hm.
  - destruct Hd. constructor; simpl; try done. intros x Hx. destruct (ok_bound0 x Hx). done.
  - destruct Hd. constructor; simpl; try done. intros x Hx. destruct (ok_bound0 x Hx). done.
  - destruct Hd. by constructor.
Qed.

Lemma prepared_ok input : daemon_ok (prepared_daemon cfg input).
Proof.
  constructor; simpl; try done.
  - apply accept_ok.
  - by intros m p dl [|?%not_elem_of_nil]%elem_of_cons.
  - by intros [|?%not_elem_of_nil]%elem_of_cons.
Qed.
End Invariant.

Lemma finish_final cfg ok close_err encodes d :
  cancelled (finish cfg ok close_err encodes d) = true ∧ promotedUntil (finish cfg ok close_err encodes d) = promotedUntil d.
Proof. unfold finish. by destruct (stop_section _ _ _) as [s [info err]]. Qed.

Lemma reply_final cfg a r d : cancelled d = true →
  cancelled (reply cfg a r d) = true ∧ promotedUntil (reply cfg a r d) = promotedUntil d.
Proof. intros Hc. unfold reply. destruct (a_encode a); [done|apply finish_final]. Qed.

Lemma take_final d c d' : take_command d = (c, d') → cancelled d' = cancelled d ∧ promotedUntil d' = promotedUntil d.
Proof. unfold take_command. destruct (pending d); by intros [= <- <-]. Qed.

(** Cancellation is final and ends promotion. *)
Lemma dstep_final cfg d d' : dstep cfg d d' → cancelled d = true → cancelled d' = true ∧ promotedUntil d' = promotedUntil d.
Proof.
  intros H Hc. destruct H as [d a c d1 Hm Ht|d a bound Hm Hf|d a bound c d1 Hm Ht|d a dl c limit Hm|d a Hm _|d b dl Hw _|d|d _]; [..|done|done|done].
  - destruct (take_final _ _ _ Ht) as [E1 E2]. rewrite Hc in E1. rewrite <- E2. unfold first_command, abort.
    repeat case_goal; first [apply finish_final|by split].
  - unfold start_core. rewrite Hc. apply finish_final.
  - destruct (take_final _ _ _ Ht) as [E1 E2]. rewrite Hc in E1. rewrite <- E2. unfold run_command, promote, revoke_lease, abort.
    rewrite E1, !orb_true_r. repeat case_goal; first [apply finish_final|by apply reply_final|by split].
  - unfold promote_section. rewrite Hc, orb_true_r. apply finish_final.
  - apply finish_final.
Qed.

(** ** What the process guarantees *)


(** ** An example: a start bound to its identity, then the promotion of its lease *)
Module Example.
Definition lease : string := "lease_0123456789abcdef0123456789abcdef".
Definition module : string := "0123456789abcdef0123456789abcdef0123456789abcdef0123456789abcdef".
Definition boot_uuid : string := "01234567-89ab-cdef-0123-456789abcdef".
Definition row (l : list (string * string)) : json := JObj ((λ kv, (kv.1, JStr kv.2)) <$> l).
Definition issued : string := "2026-01-01T00:00:00Z".
Definition new_until : string := "2026-01-01T00:05:00Z".
Definition active_until : string := "2026-01-01T00:30:00Z".

Definition cfg : setting :=
  mkSetting (txt "profile")
    (print (JObj [("outbounds"%string, JArr [
       row [("tag", "pokrov-ats"); ("type", "pokrov-ats-lease"); ("upstream_tag", "pokrov-ats-upstream"); ("lease_id", lease);
            ("issued_at", issued); ("new_flows_until", new_until); ("active_flows_until", active_until)];
       row [("tag", "pokrov-ats-upstream"); ("type", "vless")]])]))
    (mkPlan "pokrov0" 0 []) module ex_linux ex_cancelled.

Definition newline : bytes := [byte_of 10].
Definition start_line : bytes :=
  print (JObj [("protocol", JStr LinuxProtocol); ("action", JStr "start_with_identity");
               ("expected_core_module_sha256", JStr module); ("expected_profile_sha256", JStr (profileSHA256 cfg));
               ("deadline", JObj [("boot_ref", JStr ("linux:" ++ boot_uuid)); ("started_elapsed_ms", JNum "1000");
                                  ("deadline_elapsed_ms", JNum "61000")])]%string).
Definition promote_line : bytes :=
  print (JObj [("protocol", JStr LinuxProtocol); ("action", JStr "promote_ats_lease");
               ("expected_profile_sha256", JStr (profileSHA256 cfg)); ("endpoint_lease_ref", JStr lease);
               ("issued_at", JStr issued); ("new_flows_until", JStr new_until); ("active_flows_until", JStr active_until)]%string).
Definition input : bytes := start_line ++ newline ++ promote_line ++ newline.

(** One minute into the lease, thirty seconds after boot. *)
Definition now : time := default zero_time (parse_utc "2026-01-01T00:01:00Z").
Definition reading : boot := mkBoot (Some boot_uuid) (Some (30, 0)).
Definition good : answers :=
  mkAnswers None true true module reading (ex_env 1 None) true (mkHealth true true) (mkClocks now (Some (30, 0)) now) (Ok true) (Ok true).

Definition d0 : daemon := prepared_daemon cfg input.
Definition d1 : daemon := let '(c, d) := take_command d0 in first_command cfg good c d.
Definition d2 : daemon := start_core cfg good (bound_of (main d1)) d1.
Definition d3 : daemon := let '(c, d) := take_command d2 in run_command cfg good (bound_of (main d2)) c d.
Definition d4 : daemon :=
  match main d3 with Promoting deadline c limit => promote_section cfg good deadline c limit d3 | _ => d3 end.

Lemma evaluated : main d1 = Launching (Some (mkDeadline ("linux:" ++ boot_uuid) 1000 61000)) ∧
  main d2 = Running (bound_of (main d1)) ∧ promotedUntil d4 = 30000 + 29 * 60000.
Proof. vm_compute. done. Qed.

Lemma promoting : ∃ deadline c limit, main d3 = Promoting deadline c limit.
Proof. vm_compute. eauto. Qed.

Lemma linux_example_run : rtc (dstep cfg) d0 d4.
Proof.
  destruct evaluated as (H1 & H2 & _).
  eapply (rtc_l _ _ d1); [unfold d1; destruct (take_command d0) as [c d] eqn:E; by apply d_first|].
  eapply (rtc_l _ _ d2); [apply d_start; [by rewrite H1|intros i [= <-]; vm_compute; reflexivity]|].
  eapply (rtc_l _ _ d3); [unfold d3; destruct (take_command d2) as [c d] eqn:E; apply d_command; [by rewrite H2|exact E]|].
  eapply (rtc_l _ _ d4); [|apply rtc_refl]. unfold d4. destruct promoting as (deadline & c & limit & Hm). rewrite Hm.
  by apply d_promote.
Qed.
End Example.

