(* ===== verification/AwgContract.v ===== *)
(** * The contract of an AmneziaWG endpoint

    [engine/sing-box/protocol/awg/contract.go] and the parts of [endpoint.go]
    that use it: which options of an endpoint are accepted, and the text of the
    configuration ([genIpcConfig]) the device reads line by line.

    The sizes and times of the vendored device are those of
    [replace/amneziawg-go/device]; [MaxMessageSize] differs between platforms and
    is a parameter. *)

From stdpp Require Import base list strings.
From Stdlib Require Import ZArith Lia Ascii.
From S2P Require Import Prelude GoBytes GoJson GoNetip GoAddrText ControlVerify.

Local Open Scope Z_scope.
Set Default Goal Selector "!".

(** ** Options *)

Record AwgPeerOptions := mkPeer {
  pr_Address : string; pr_Port : Z; pr_PublicKey : string; pr_PresharedKey : string; pr_AllowedIPs : list prefix;
  pr_Keepalive : Z; pr_KeepaliveRange : string }.

Record AwgEndpointOptions := mkAwg {
  o_UseIntegratedTun : bool; o_ContractID : string; o_PrivateKey : string; o_Address : list prefix; o_MTU : Z; o_ListenPort : Z;
  o_Jc : Z; o_Jmin : Z; o_Jmax : Z; o_S1 : Z; o_S2 : Z; o_S3 : Z; o_S4 : Z;
  o_H1 : string; o_H2 : string; o_H3 : string; o_H4 : string;
  o_I1 : string; o_I2 : string; o_I3 : string; o_I4 : string; o_I5 : string;
  o_HeaderProtectionKey : string; o_ContentPaddingAddition : string; o_RekeyAfterTime : string; o_RekeyTimeout : string;
  o_RejectAfterTime : string; o_KeepaliveTimeout : string; o_MaxHandshakeAttempts : string; o_RandomTrailers : bool;
  o_Peers : list AwgPeerOptions }.
#[export] Instance awg_eta : Eta AwgEndpointOptions := λ o,
  mkAwg (o_UseIntegratedTun o) (o_ContractID o) (o_PrivateKey o) (o_Address o) (o_MTU o) (o_ListenPort o)
    (o_Jc o) (o_Jmin o) (o_Jmax o) (o_S1 o) (o_S2 o) (o_S3 o) (o_S4 o) (o_H1 o) (o_H2 o) (o_H3 o) (o_H4 o)
    (o_I1 o) (o_I2 o) (o_I3 o) (o_I4 o) (o_I5 o) (o_HeaderProtectionKey o) (o_ContentPaddingAddition o) (o_RekeyAfterTime o)
    (o_RekeyTimeout o) (o_RejectAfterTime o) (o_KeepaliveTimeout o) (o_MaxHandshakeAttempts o) (o_RandomTrailers o) (o_Peers o).

Definition awg2ContractID : string := "pokrov.awg2.endpoint.v1".
Definition awg31ContractID : string := "pokrov.awg31.endpoint.v1".
Definition allowedMTU : list Z := [1280; 1400; 1408].
Definition maximumJunkPacketCount : Z := 128.
Definition maximumAWG2JunkSize : Z := 65535.
Definition maximumAWG31JunkSize : Z := 1279.
Definition maximumPaddingSize : Z := 65535.
Definition maximumManagedWirePacketSize : Z := 2016.

(** Of the device. *)
Definition MessageInitiationSize : Z := 148.
Definition MessageResponseSize : Z := 92.
Definition MessageCookieReplySize : Z := 64.
Definition MessageTransportSize : Z := 32.
Definition RekeyAfterTime : Z := 120.
Definition RekeyTimeout : Z := 5.
Definition RejectAfterTime : Z := 180.
Definition KeepaliveTimeout : Z := 10.

(** ** Helpers *)

(** [base64.StdEncoding.DecodeString]: the unused bits of a last group are free. *)
Fixpoint lax_groups (l : list Z) : option bytes :=
  match l with
  | [] => Some []
  | [_] => None
  | [a; b] => Some [byte_of (a * 4 + b / 16)]
  | [a; b; c] => Some [byte_of (a * 4 + b / 16); byte_of (b mod 16 * 16 + c / 4)]
  | a :: b :: c :: d :: l =>
      r ← lax_groups l;
      Some (byte_of (a * 4 + b / 16) :: byte_of (b mod 16 * 16 + c / 4) :: byte_of (c mod 4 * 64 + d) :: r)
  end.
Definition DecodeString (s : string) : option bytes :=
  let b := no_newlines (list_of_str s) in
  if (length b mod 4 =? 0)%nat then mapM (b64_val false) (strip_padding b) ≫= lax_groups else None.

(** [strconv.ParseUint(s, 10, 32)] *)
Definition ParseUint32 (b : bytes) : option Z :=
  if negb (bool_decide (b = [])) && forallb is_digit b && (digits_val b <? 2 ^ 32) then Some (digits_val b) else None.

Definition hyphen : ascii := "-".
(** The bounds of [low] or [low-high]. *)
Definition uintRangeBounds (value : string) : option (Z * Z) :=
  match split_at hyphen (list_of_str value) with
  | [a] => low ← ParseUint32 a; Some (low, low)
  | [a; b] => low ← ParseUint32 a; high ← ParseUint32 b; if high <? low then None else Some (low, high)
  | _ => None
  end.

Definition validateUintRange (value : string) (minimum maximum : Z) : bool :=
  match uintRangeBounds value with Some (start, end_) => (minimum <=? start) && (end_ <=? maximum) | None => false end.

Definition validateKey (encoded : string) (required : bool) : bool :=
  (bool_decide (encoded = "") && negb required) ||
  match DecodeString encoded with Some decoded => (length decoded =? 32)%nat | None => false end.

(** [prefix.IsValid()], [IsUnspecified()] *)
Definition prefix_valid (p : prefix) : bool :=
  match p.1 with AV4 _ => (0 <=? p.2) && (p.2 <=? 32) | AV6 _ _ => (0 <=? p.2) && (p.2 <=? 128) | AInvalid => false end.
Definition IsUnspecified (a : addr) : bool := match a with AV4 v => v =? 0 | AV6 v z => (v =? 0) && bool_decide (z = []) | AInvalid => false end.

(** ** Instruction chains *)

Definition is_hex (c : ascii) : bool := match hex_val c with Some _ => true | None => false end.
Fixpoint span (p : ascii → bool) (b : bytes) : bytes * bytes :=
  match b with
  | [] => ([], [])
  | c :: r => if p c then let '(x, y) := span p r in (c :: x, y) else ([], b)
  end.

Definition open_ : ascii := "<".
Definition close_ : ascii := ">".
Definition static_prefix : bytes := list_of_str "<b 0x".
Definition random_prefixes : list bytes := [list_of_str "<r "; list_of_str "<rd "; list_of_str "<rc "].

(** One tag at the start of the text: its length and what it generates.  [None]: no
    tag starts here; [Some (n, None)]: a tag the code then refuses. *)
Definition random_tag (p b : bytes) : option (nat * option Z) :=
  if has_prefix b p then
    let r := drop (length p) b in
    let '(ds, rest) := span is_digit r in
    match ds, rest with
    | d :: _, c :: _ =>
        if negb (byte_val d =? 48) && (length ds <=? 4)%nat && Ascii.eqb c close_ then
          Some ((length p + length ds + 1)%nat,
                if (1 <=? digits_val ds) && (digits_val ds <=? 512) then Some (digits_val ds) else None)
        else None
    | _, _ => None
    end
  else None.
Definition static_tag (b : bytes) : option (nat * option Z) :=
  if has_prefix b static_prefix then
    let '(hs, rest) := span is_hex (drop (length static_prefix) b) in
    match hs, rest with
    | _ :: _, c :: _ =>
        if Ascii.eqb c close_ then
          Some ((length static_prefix + length hs + 1)%nat,
                if (length hs mod 2 =? 0)%nat then Some (Z.of_nat (length hs / 2)) else None)
        else None
    | _, _ => None
    end
  else None.
Definition tag_at (b : bytes) : option (nat * option Z) :=
  if has_prefix b (list_of_str "<t>") then Some (3%nat, Some 4)
  else match static_tag b with
       | Some r => Some r
       | None => foldr (λ p acc, match random_tag p b with Some r => Some r | None => acc end) None random_prefixes
       end.

(** [FindAllStringSubmatchIndex]: from left to right, without overlap; a match is
    its offset, its length and what it generates. *)
Fixpoint find_all (skip : nat) (offset : nat) (b : bytes) : list (nat * nat * option Z) :=
  match b with
  | [] => []
  | _ :: r =>
      match skip with
      | S skip => find_all skip (S offset) r
      | O => match tag_at b with
             | Some (n, g) => (offset, n, g) :: find_all (n - 1) (S offset) r
             | None => find_all 0 (S offset) r
             end
      end
  end.

(** The loop over the matches. *)
Fixpoint chain_loop (offset : nat) (generated : Z) (ms : list (nat * nat * option Z)) : option (nat * Z) :=
  match ms with
  | [] => Some (offset, generated)
  | (at_, n, g) :: ms =>
      if negb (at_ =? offset)%nat then None
      else match g with Some g => chain_loop (at_ + n) (generated + g) ms | None => None end
  end.

Definition validateInstructionChain (value : string) : bool :=
  let b := list_of_str value in
  if (2048 <? blen b) || existsb (λ c, (byte_val c =? 13) || (byte_val c =? 10) || (byte_val c =? 0)) b then false
  else
    let matches := find_all 0 0 b in
    negb (bool_decide (matches = [])) &&
    match chain_loop 0 0 matches with
    | Some (offset, generated) => (offset =? length b)%nat && (1 <=? generated) && (generated <=? 512)
    | None => false
    end.

(** ** Validation: the first message, if any

    Of a refused instruction chain only the outer message is kept. *)

(** [fmt.Errorf("%s: ...", contract)] *)
Definition message (contract text : string) : string := (contract ++ ": " ++ text)%string.
Definition refuse (c : bool) (e : string) (k : option string) : option string := if c then Some e else k.

Definition numbered (before : string) (i : nat) (after : string) : string := (before ++ show_int (Z.of_nat i) ++ after)%string.

(** The first of a list that is refused. *)
Fixpoint first_bad {A} (bad : nat → A → option string) (i : nat) (l : list A) : option string :=
  match l with
  | [] => None
  | x :: l => match bad i x with Some e => Some e | None => first_bad bad (S i) l end
  end.

Section Contract.
(** [awgdevice.MaxMessageSize] *)
Variable MaxMessageSize : Z.

Definition budget : Z := Z.min maximumManagedWirePacketSize MaxMessageSize.

Definition validatePacketBudget (o : AwgEndpointOptions) (contract : string) : option string :=
  match first_bad (λ i p, refuse (budget <? p.1 + p.2)
                     (message contract (numbered "s" (S i) " and packet content exceed the managed wire budget")) None) 0
          [(o_S1 o, MessageInitiationSize); (o_S2 o, MessageResponseSize); (o_S3 o, MessageCookieReplySize);
           (o_S4 o, o_MTU o + MessageTransportSize)] with
  | Some e => Some e
  | None => refuse (budget <? o_Jmax o) (message contract "junk packet exceeds the managed wire budget") None
  end.

(** The loop over the headers; [ranges]: the ranges so far. *)
Fixpoint header_ranges (contract : string) (i : nat) (ranges : list (Z * Z)) (hs : list string) : option string :=
  match hs with
  | [] => None
  | h :: hs =>
      match uintRangeBounds h with
      | None => Some (message contract (numbered "invalid h" (S i) " range"))
      | Some (low, high) =>
          if existsb (λ p, (low <=? p.2) && (p.1 <=? high)) ranges
          then Some (message contract "header ranges must not overlap")
          else header_ranges contract (S i) (ranges ++ [(low, high)]) hs
      end
  end.

Definition nonempty (s : string) : bool := negb (bool_decide (s = "")).

Definition validateAWG2Subset (o : AwgEndpointOptions) (peer : AwgPeerOptions) : option string :=
  refuse (existsb nonempty [o_I1 o; o_I2 o; o_I3 o; o_I4 o; o_I5 o])
    (message awg2ContractID "instruction chains are outside the v1 subset")
  (refuse (existsb nonempty [o_HeaderProtectionKey o; o_ContentPaddingAddition o; o_RekeyAfterTime o; o_RekeyTimeout o;
                            o_RejectAfterTime o; o_KeepaliveTimeout o; o_MaxHandshakeAttempts o; pr_KeepaliveRange peer] ||
          o_RandomTrailers o)
    (message awg2ContractID "AWG 3.1 fields are outside the v1 subset") None).

(** A range, or the default of the device. *)
Definition timing_bounds (value : string) (fallback : Z) : Z * Z :=
  if bool_decide (value = "") then (fallback, fallback) else default (0, 0) (uintRangeBounds value).

Definition validateTimingRelations (o : AwgEndpointOptions) : option string :=
  let rekeyHigh := (timing_bounds (o_RekeyAfterTime o) RekeyAfterTime).2 in
  let rejectLow := (timing_bounds (o_RejectAfterTime o) RejectAfterTime).1 in
  let keepaliveLow := (timing_bounds (o_KeepaliveTimeout o) KeepaliveTimeout).1 in
  let retryLow := (timing_bounds (o_RekeyTimeout o) RekeyTimeout).1 in
  refuse (rejectLow <=? rekeyHigh) (message awg31ContractID "rekey time must precede key rejection for every range value")
  (refuse (rejectLow <=? keepaliveLow + retryLow) (message awg31ContractID "receive rekey interval must remain positive") None).

Definition awg31_fields (o : AwgEndpointOptions) : list (string * string * Z * Z) :=
  [("content_padding_addition", o_ContentPaddingAddition o, 0, 512); ("rekey_after_time", o_RekeyAfterTime o, 30, 3600);
   ("rekey_timeout", o_RekeyTimeout o, 1, 60); ("reject_after_time", o_RejectAfterTime o, 30, 7200);
   ("keepalive_timeout", o_KeepaliveTimeout o, 1, 600); ("max_handshake_attempts", o_MaxHandshakeAttempts o, 1, 100)].

Definition bad_chain (i : nat) (instruction : string) : option string :=
  refuse (nonempty instruction && negb (validateInstructionChain instruction))
    (message awg31ContractID (numbered "invalid i" (S i) " instruction chain")) None.
Definition bad_field (_ : nat) (f : string * string * Z * Z) : option string :=
  let '(name, value, minimum, maximum) := f in
  refuse (nonempty value && negb (validateUintRange value minimum maximum))
    (message awg31ContractID ("invalid " ++ name ++ " range")%string) None.

Definition or_else (a b : option string) : option string := match a with Some e => Some e | None => b end.

Definition validateAWG31Subset (o : AwgEndpointOptions) (peer : AwgPeerOptions) : option string :=
  refuse ((o_S1 o <? 12) || (o_S2 o <? 12) || (o_S3 o <? 12) || (o_S4 o <? 12))
    (message awg31ContractID "header protection requires s1-s4 >= 12")
  (refuse (negb (validateKey (o_HeaderProtectionKey o) true))
    (message awg31ContractID "header_protection_key must be a 32-byte base64 key")
  (or_else (first_bad bad_chain 0 [o_I1 o; o_I2 o; o_I3 o; o_I4 o; o_I5 o])
  (or_else (first_bad bad_field 0 (awg31_fields o))
  (or_else (validateTimingRelations o)
  (refuse (negb (pr_Keepalive peer =? 0) && nonempty (pr_KeepaliveRange peer))
    (message awg31ContractID "persistent keepalive scalar and range are mutually exclusive")
  (refuse (nonempty (pr_KeepaliveRange peer) && negb (validateUintRange (pr_KeepaliveRange peer) 1 600))
    (message awg31ContractID "invalid persistent keepalive range") None)))))).

Definition bad_address (contract : string) (_ : nat) (p : prefix) : option string :=
  refuse (negb (prefix_valid p) || IsUnspecified p.1 || IsMulticast p.1) (message contract "invalid client address prefix") None.
Definition bad_allowed (contract : string) (_ : nat) (p : prefix) : option string :=
  refuse (negb (prefix_valid p)) (message contract "invalid allowed IP prefix") None.

Definition validatePeer (contract : string) (peer : AwgPeerOptions) : option string :=
  refuse (match ParseAddr (list_of_str (pr_Address peer)) with Some a => IsUnspecified a || IsMulticast a | None => true end)
    (message contract "peer address must be an IP literal")
  (refuse (pr_Port peer =? 0) (message contract "peer port is required")
  (refuse (negb (validateKey (pr_PublicKey peer) true)) (message contract "public_key must be a 32-byte base64 key")
  (refuse (negb (validateKey (pr_PresharedKey peer) false)) (message contract "preshared_key must be a 32-byte base64 key")
  (refuse ((length (pr_AllowedIPs peer) <? 1)%nat || (2 <? length (pr_AllowedIPs peer))%nat)
    (message contract "allowed IP prefix count must be between one and two")
  (or_else (first_bad (bad_allowed contract) 0 (pr_AllowedIPs peer))
  (refuse (600 <? pr_Keepalive peer) (message contract "persistent keepalive exceeds the supported bound") None)))))).

Definition junk_bad (maximumJunkSize : Z) (o : AwgEndpointOptions) : bool :=
  (o_Jc o <=? 0) || (maximumJunkPacketCount <? o_Jc o) || (o_Jmin o <=? 0) || (maximumJunkSize <? o_Jmin o) ||
  (o_Jmax o <=? 0) || (maximumJunkSize <? o_Jmax o) || (o_Jmax o <? o_Jmin o).
Definition padding_bad (o : AwgEndpointOptions) : bool :=
  existsb (λ s, (s <? 0) || (maximumPaddingSize <? s)) [o_S1 o; o_S2 o; o_S3 o; o_S4 o].

(** [None]: accepted. *)
Definition validateEndpointOptions (o : AwgEndpointOptions) : option string :=
  let contract := if bool_decide (o_ContractID o = "") then awg2ContractID else o_ContractID o in
  refuse (negb (bool_decide (contract = awg2ContractID)) && negb (bool_decide (contract = awg31ContractID)))
    "pokrov.awg.endpoint: unsupported contract_id"
  (refuse (o_UseIntegratedTun o) (message contract "integrated system TUN is forbidden")
  (refuse (negb (existsb (Z.eqb (o_MTU o)) allowedMTU)) (message contract "unsupported MTU")
  (refuse (negb (validateKey (o_PrivateKey o) true)) (message contract "private_key must be a 32-byte base64 key")
  (refuse ((length (o_Address o) <? 1)%nat || (2 <? length (o_Address o))%nat)
    (message contract "address prefix count must be between one and two")
  (or_else (first_bad (bad_address contract) 0 (o_Address o))
  (refuse (junk_bad (if bool_decide (contract = awg31ContractID) then maximumAWG31JunkSize else maximumAWG2JunkSize) o)
    (message contract "invalid junk packet bounds")
  (refuse (padding_bad o) (message contract "padding values are outside the supported range")
  (or_else (validatePacketBudget o contract)
  (or_else (header_ranges contract 0 [] [o_H1 o; o_H2 o; o_H3 o; o_H4 o])
  match o_Peers o with
  | [peer] =>
      or_else (validatePeer contract peer)
      (if bool_decide (contract = awg2ContractID) then validateAWG2Subset o peer else validateAWG31Subset o peer)
  | _ => Some (message contract "exactly one peer is required")
  end))))))))).
End Contract.

(** ** The text for the device *)

(** [netip.Prefix.String]; the address of a prefix has no zone. *)
Definition without_zone (a : addr) : addr := match a with AV6 v _ => AV6 v [] | _ => a end.
Definition prefix_string (p : prefix) : bytes :=
  if prefix_valid p then addr_string (without_zone p.1) ++ "/"%char :: list_of_str (show_int p.2) else list_of_str "invalid Prefix".

Definition opt_int (key : string) (z : Z) : list (string * bytes) := if z =? 0 then [] else [(key, list_of_str (show_int z))].
Definition opt_text (key : string) (s : string) : list (string * bytes) := if nonempty s then [(key, list_of_str s)] else [].
Definition key_line (key encoded : string) : option (string * bytes) := b ← DecodeString encoded; Some (key, hex_encode b).
(** Optional keys. *)
Definition opt_key (key encoded : string) : option (list (string * bytes)) :=
  if nonempty encoded then l ← key_line key encoded; Some [l] else Some [].

Definition peer_fields (peer : AwgPeerOptions) : option (list (string * bytes)) :=
  public ← key_line "public_key" (pr_PublicKey peer);
  preshared ← opt_key "preshared_key" (pr_PresharedKey peer);
  Some (public :: preshared ++
    (if nonempty (pr_Address peer) && negb (pr_Port peer =? 0)
     then [("endpoint", JoinHostPort (list_of_str (pr_Address peer)) (list_of_str (show_int (pr_Port peer))))] else []) ++
    (if nonempty (pr_KeepaliveRange peer) then [("persistent_keepalive_interval", list_of_str (pr_KeepaliveRange peer))]
     else opt_int "persistent_keepalive_interval" (pr_Keepalive peer)) ++
    ((λ p, ("allowed_ip", prefix_string p)) <$> pr_AllowedIPs peer)).

(** The lines in the order they are written. *)
Definition ipc_fields (o : AwgEndpointOptions) : option (list (string * bytes)) :=
  private ← key_line "private_key" (o_PrivateKey o);
  header ← opt_key "header_protection_key" (o_HeaderProtectionKey o);
  peers ← mapM peer_fields (o_Peers o);
  Some (private ::
    opt_int "listen_port" (o_ListenPort o) ++ opt_int "jc" (o_Jc o) ++ opt_int "jmin" (o_Jmin o) ++ opt_int "jmax" (o_Jmax o) ++
    opt_int "s1" (o_S1 o) ++ opt_int "s2" (o_S2 o) ++ opt_int "s3" (o_S3 o) ++ opt_int "s4" (o_S4 o) ++
    opt_text "h1" (o_H1 o) ++ opt_text "h2" (o_H2 o) ++ opt_text "h3" (o_H3 o) ++ opt_text "h4" (o_H4 o) ++
    opt_text "i1" (o_I1 o) ++ opt_text "i2" (o_I2 o) ++ opt_text "i3" (o_I3 o) ++ opt_text "i4" (o_I4 o) ++ opt_text "i5" (o_I5 o) ++
    header ++ opt_text "content_padding_addition" (o_ContentPaddingAddition o) ++ opt_text "rekey_after_time" (o_RekeyAfterTime o) ++
    opt_text "rekey_timeout" (o_RekeyTimeout o) ++ opt_text "reject_after_time" (o_RejectAfterTime o) ++
    opt_text "keepalive_timeout" (o_KeepaliveTimeout o) ++ opt_text "max_handshake_attempts" (o_MaxHandshakeAttempts o) ++
    (if o_RandomTrailers o then [("random_trailers", list_of_str "true")] else []) ++ mjoin peers).

Definition newline : ascii := byte_of 10.
Definition field_line (f : string * bytes) : bytes := list_of_str f.1 ++ "="%char :: f.2.
Fixpoint join_lines (ls : list bytes) : bytes :=
  match ls with [] => [] | [l] => l | l :: ls => l ++ newline :: join_lines ls end.

Definition genIpcConfig (o : AwgEndpointOptions) : option bytes := fs ← ipc_fields o; Some (join_lines (field_line <$> fs)).

(** The part of [NewEndpoint] before the device is made. *)
Definition NewEndpoint_config (MaxMessageSize : Z) (o : AwgEndpointOptions) : option bytes :=
  let o := if o_MTU o =? 0 then o <| o_MTU := 1408 |> else o in
  match validateEndpointOptions MaxMessageSize o with Some _ => None | None => genIpcConfig o end.

(** ** The device's side

    How the device reads the text ([IpcSetOperation]) and the ranges in it, and the
    times it takes from them.  [fastrandn] is of the Go runtime: a parameter of each
    draw. *)

(** [UintRange]: the upper bound in the high half of a 64-bit word. *)
Definition FromUint32 (lo hi : Z) : Z := Z.lor (Z.shiftl hi 32) lo.
Definition FromString (str : string) : option Z :=
  match split_at hyphen (list_of_str str) with
  | [a] => lo ← ParseUint32 a; Some (FromUint32 lo lo)
  | [a; b] => lo ← ParseUint32 a; hi ← ParseUint32 b; if hi <? lo then None else Some (FromUint32 lo hi)
  | _ => None
  end.
Definition Lo (r : Z) : Z := u32 r.
Definition Hi (r : Z) : Z := u32 (Z.shiftr r 32).
Definition Contains (r num : Z) : bool := (Lo r <=? num) && (num <=? Hi r).
Definition IsZero (r : Z) : bool := r =? 0.
Definition PickOne (fastrandn : Z → Z) (r : Z) : Z := u32 (Lo r + fastrandn (u32 (Hi r - Lo r + 1))).

Record timings := mkTimings { t_rekeyAfterTimeSec : Z; t_rekeyTimeoutSec : Z; t_rejectAfterTimeSec : Z; t_keepaliveTimeoutSec : Z }.

(** In seconds. *)
Definition or_range (fallback : Z) (pick : Z → Z) (r : Z) : Z := if IsZero r then fallback else pick r.
Definition keyRefreshTimeoutSending (rnd : Z → Z) (t : timings) : Z := or_range RekeyAfterTime (PickOne rnd) (t_rekeyAfterTimeSec t).
Definition keyRefreshTimeoutReceiving (rnd : Z → Z) (t : timings) : Z :=
  let rejectAfterTime := or_range RejectAfterTime (PickOne rnd) (t_rejectAfterTimeSec t) in
  let keepaliveTimeout := or_range KeepaliveTimeout Lo (t_keepaliveTimeoutSec t) in
  let rekeyTimeout := or_range RekeyTimeout Lo (t_rekeyTimeoutSec t) in
  Z.max 0 (rejectAfterTime - keepaliveTimeout - rekeyTimeout).
Definition keychainExpireTime (t : timings) : Z := or_range RejectAfterTime Hi (t_rejectAfterTimeSec t).

(** What the lines of the times leave in the device: nothing is written for an empty
    value, and a range starts as zero. *)
Definition stored_range (value : string) : option Z := if nonempty value then FromString value else Some 0.
Definition stored_timings (o : AwgEndpointOptions) : option timings :=
  a ← stored_range (o_RekeyAfterTime o); b ← stored_range (o_RekeyTimeout o);
  c ← stored_range (o_RejectAfterTime o); d ← stored_range (o_KeepaliveTimeout o); Some (mkTimings a b c d).

(** [bufio.Scanner] with [ScanLines]: a line of 64 KiB is an error, a carriage return
    at the end of a line is dropped, and so is an empty last line. *)
Definition maxScanTokenSize : nat := 65536.
Definition drop_cr (b : bytes) : bytes :=
  match reverse b with c :: r => if byte_val c =? 13 then reverse r else b | [] => b end.
(** [strings.Cut(line, "=")] *)
Definition cut_eq (b : bytes) : option (bytes * bytes) :=
  match span (λ c, negb (byte_val c =? 61)) b with (key, _ :: value) => Some (key, value) | (_, []) => None end.

(** The keys and values [IpcSetOperation] handles, and whether the whole text was
    read: a blank line ends the text, a line without a sign is an error. *)
Fixpoint ipc_read (lines : list bytes) : list (bytes * bytes) * bool :=
  match lines with
  | [] => ([], true)
  | line :: lines =>
      if bool_decide (line = []) && bool_decide (lines = []) then ([], true)
      else if (maxScanTokenSize <=? length line)%nat then ([], false)
      else let line := drop_cr line in
        if bool_decide (line = []) then ([], true)
        else match cut_eq line with
             | None => ([], false)
             | Some kv => let '(kvs, ok) := ipc_read lines in (kv :: kvs, ok)
             end
  end.
Definition IpcSetOperation_lines (text : bytes) : list (bytes * bytes) * bool := ipc_read (split_at newline text).

(** ** Instruction chains are sequences of tags *)

Inductive tag :=
| TTime
| TStatic (hs : bytes)
| TRandom (p : bytes) (ds : bytes).

Definition tag_text (t : tag) : bytes :=
  match t with
  | TTime => list_of_str "<t>"
  | TStatic hs => static_prefix ++ hs ++ [close_]
  | TRandom p ds => p ++ ds ++ [close_]
  end.
(** The bytes a tag generates. *)
Definition tag_size (t : tag) : Z :=
  match t with TTime => 4 | TStatic hs => Z.of_nat (length hs / 2) | TRandom _ ds => digits_val ds end.
Definition tag_ok (t : tag) : Prop :=
  match t with
  | TTime => True
  | TStatic hs => hs ≠ [] ∧ forallb is_hex hs = true ∧ (length hs mod 2 = 0)%nat
  | TRandom p ds => p ∈ random_prefixes ∧ forallb is_digit ds = true ∧ (length ds ≤ 4)%nat ∧
      (∃ d r, ds = d :: r ∧ byte_val d ≠ 48) ∧ 1 ≤ digits_val ds ≤ 512
  end.

Lemma has_prefix_app p b : has_prefix (p ++ b) p = true.
Proof. induction p as [|c p IH]; [by destruct b|]. cbn. by rewrite Ascii.eqb_refl. Qed.

Lemma has_prefix_split b p : has_prefix b p = true → b = p ++ drop (length p) b.
Proof.
  revert b. induction p as [|c p IH]; intros b; [done|]. destruct b as [|d b]; [done|]. cbn [has_prefix].
  rewrite andb_true_iff. intros [->%Ascii.eqb_eq H]. cbn. by rewrite <- IH.
Qed.

Lemma span_app p x c r : forallb p x = true → p c = false → span p (x ++ c :: r) = (x, c :: r).
Proof.
  intros Hx Hc. induction x as [|y x IH]; cbn in *; [by rewrite Hc|]. apply andb_true_iff in Hx as [Hy Hx]. by rewrite Hy, IH.
Qed.

Lemma span_spec p b x r : span p b = (x, r) → b = x ++ r ∧ forallb p x = true.
Proof.
  revert x r. induction b as [|c b IH]; intros x r; cbn; [by intros [= <- <-]|]. destruct (p c) eqn:E; [|by intros [= <- <-]].
  destruct (span p b) as [y z]. intros [= <- <-]. destruct (IH y z eq_refl) as [-> H]. cbn. by rewrite E.
Qed.

Lemma static_tag_text hs r : tag_ok (TStatic hs) →
  static_tag (tag_text (TStatic hs) ++ r) = Some (length (tag_text (TStatic hs)), Some (tag_size (TStatic hs))).
Proof.
  intros (Hne & Hh & Hm). unfold static_tag. cbn [tag_text]. rewrite <- !app_assoc, has_prefix_app, drop_app_length.
  cbn [app]. rewrite span_app by (done || by vm_compute). destruct hs as [|h hs]; [done|]. cbn [tag_size].
  rewrite Ascii.eqb_refl, Hm. cbn [Nat.eqb]. do 2 f_equal. rewrite !length_app. cbn. lia.
Qed.

Lemma random_tag_text p ds r : tag_ok (TRandom p ds) →
  random_tag p (tag_text (TRandom p ds) ++ r) = Some (length (tag_text (TRandom p ds)), Some (tag_size (TRandom p ds))).
Proof.
  intros (_ & Hd & Hl & (d & x & -> & Hz) & Hr). unfold random_tag. cbn [tag_text]. rewrite <- !app_assoc, has_prefix_app, drop_app_length.
  change ([close_] ++ r) with (close_ :: r). rewrite (span_app is_digit (d :: x)) by (done || by vm_compute). cbn [tag_size].
  rewrite Ascii.eqb_refl. apply Nat.leb_le in Hl. rewrite Hl. apply Z.eqb_neq in Hz. rewrite Hz. cbn [negb andb].
  rewrite bool_true_if by lia. do 2 f_equal. rewrite !length_app. cbn. lia.
Qed.

Lemma tag_at_text t r : tag_ok t → tag_at (tag_text t ++ r) = Some (length (tag_text t), Some (tag_size t)).
Proof.
  intros Ht. destruct t as [|hs|p ds].
  - unfold tag_at. by rewrite has_prefix_app.
  - unfold tag_at. rewrite bool_false_if by done. by rewrite static_tag_text.
  - pose proof (random_tag_text p ds r Ht) as H. destruct Ht as (Hp & _). unfold random_prefixes in Hp. rewrite !elem_of_cons in Hp.
    unfold tag_at. destruct Hp as [->|[->|[->|?%elem_of_nil]]]; [| | |done];
      (rewrite bool_false_if by done; cbn [foldr random_prefixes];
       match goal with |- match ?x with _ => _ end = _ => assert (x = None) as -> by reflexivity end).
    + by rewrite H.
    + match goal with |- match ?x with _ => _ end = _ => assert (x = None) as -> by reflexivity end. by rewrite H.
    + do 2 match goal with |- match ?x with _ => _ end = _ => assert (x = None) as -> by reflexivity end. by rewrite H.
Qed.

Lemma some_pair_inv {A B} (a c : A) (b d : B) : Some (a, b) = Some (c, d) → a = c ∧ b = d.
Proof. by intros [= -> ->]. Qed.

(** A match is a tag, and the code refuses it or takes its size. *)
Definition match_sound (b : bytes) (n : nat) (g : option Z) : Prop :=
  (0 < n)%nat ∧ ∀ s, g = Some s → ∃ t, tag_ok t ∧ b = tag_text t ++ drop n b ∧ length (tag_text t) = n ∧ tag_size t = s.

Lemma match_sound_intro t rest b n g :
  b = tag_text t ++ rest → length (tag_text t) = n → (0 < n)%nat → (∀ s, g = Some s → tag_ok t ∧ tag_size t = s) → match_sound b n g.
Proof.
  intros -> Hl Hn Hg. split; [done|]. intros s [Ht Hs]%Hg. exists t. by rewrite <- Hl, drop_app_length.
Qed.

Lemma static_tag_sound b n g : static_tag b = Some (n, g) → match_sound b n g.
Proof.
  unfold static_tag. destruct (has_prefix b static_prefix) eqn:Ep; [|done]. apply has_prefix_split in Ep.
  destruct (span is_hex _) as [hs rest] eqn:Es. apply span_spec in Es as [Er Hh]. rewrite Er in Ep.
  destruct hs as [|h hs]; [done|]. destruct rest as [|c rest]; [done|]. destruct (Ascii.eqb c close_) eqn:Ec; [|done].
  apply Ascii.eqb_eq in Ec. subst c. intros [<- <-]%some_pair_inv.
  apply (match_sound_intro (TStatic (h :: hs)) rest); [by cbn [tag_text]; rewrite <- !app_assoc| | |].
  - cbn [tag_text]. rewrite !length_app. cbn [length]. lia.
  - lia.
  - intros s Hs. destruct (_ =? 0)%nat eqn:Em; [|done]. apply Nat.eqb_eq in Em. by injection Hs as <-.
Qed.

Lemma random_tag_sound p b n g : p ∈ random_prefixes → random_tag p b = Some (n, g) → match_sound b n g.
Proof.
  intros Hp. unfold random_tag. destruct (has_prefix b p) eqn:Ep; [|done]. apply has_prefix_split in Ep.
  destruct (span is_digit _) as [ds rest] eqn:Es. apply span_spec in Es as [Er Hd]. rewrite Er in Ep.
  destruct ds as [|d ds]; [done|]. destruct rest as [|c rest]; [done|]. destruct (_ && Ascii.eqb c close_) eqn:Ec; [|done].
  rewrite !andb_true_iff in Ec. destruct Ec as [[Hz%negb_true_iff%Z.eqb_neq Hl%Nat.leb_le] Ec%Ascii.eqb_eq].
  subst c. intros [<- <-]%some_pair_inv.
  apply (match_sound_intro (TRandom p (d :: ds)) rest); [by cbn [tag_text]; rewrite <- !app_assoc| | |].
  - cbn [tag_text]. rewrite !length_app. cbn [length]. lia.
  - lia.
  - intros s Hs. destruct ((1 <=? _) && _) eqn:Em; [|done]. apply andb_true_iff in Em as [Em1 Em2]. injection Hs as <-.
    split; [|done]. cbn [tag_ok]. split_and!; [done|done|done|by exists d, ds|lia|lia].
Qed.

Lemma tag_at_sound b n g : tag_at b = Some (n, g) → match_sound b n g.
Proof.
  unfold tag_at. destruct (has_prefix b (list_of_str "<t>")) eqn:Et.
  - intros [<- <-]%some_pair_inv. apply (match_sound_intro TTime (drop 3 b)); [by apply has_prefix_split|done|lia|].
    by intros s [= <-].
  - destruct (static_tag b) as [x|] eqn:Es; [intros [= ->]; by apply static_tag_sound|].
    assert (∀ l, (∀ p, p ∈ l → p ∈ random_prefixes) →
      foldr (λ p acc, match random_tag p b with Some r => Some r | None => acc end) None l = Some (n, g) →
      ∃ p, p ∈ random_prefixes ∧ random_tag p b = Some (n, g)) as G.
    { induction l as [|p l IH]; cbn; [done|]. intros Hl. destruct (random_tag p b) as [x|] eqn:Er.
      - intros [= ->]. exists p. split; [apply Hl, elem_of_cons; by left|done].
      - apply IH. intros q Hq. apply Hl, elem_of_cons. by right. }
    intros (p & Hp & Hr)%G; [by eapply random_tag_sound|done].
Qed.

Definition chain_text (tags : list tag) : bytes := mjoin (tag_text <$> tags).
Definition chain_size (tags : list tag) : Z := foldr (λ t z, tag_size t + z) 0 tags.

Lemma find_all_skip k o b : find_all k o b = find_all 0 (o + k) (drop k b).
Proof.
  revert k o. induction b as [|c b IH]; intros k o; [by rewrite drop_nil|].
  destruct k as [|k]; [by rewrite Nat.add_0_r|]. cbn [find_all drop]. rewrite IH. f_equal. lia.
Qed.

Lemma find_all_tag o b n g : tag_at b = Some (n, g) → (0 < n)%nat → find_all 0 o b = (o, n, g) :: find_all 0 (o + n) (drop n b).
Proof.
  intros Ht Hn. destruct b as [|c b]; [done|]. cbn [find_all]. rewrite Ht. f_equal. rewrite find_all_skip.
  destruct n as [|n]; [lia|]. cbn [drop]. replace (S n - 1)%nat with n by lia. f_equal. lia.
Qed.

Lemma find_all_offset o b a n g ms k : find_all k o b = (a, n, g) :: ms → (o + k ≤ a)%nat.
Proof.
  revert k o. induction b as [|c b IH]; intros k o; cbn; [done|]. destruct k as [|k]; [|intros H%IH; lia].
  destruct (tag_at (c :: b)) as [[n' g']|]; [intros [= <- _ _ _]; lia|intros H%IH; lia].
Qed.

Lemma chain_complete tags o z : Forall tag_ok tags →
  chain_loop o z (find_all 0 o (chain_text tags)) = Some ((o + length (chain_text tags))%nat, z + chain_size tags).
Proof.
  intros Hok. revert o z. induction Hok as [|t tags Ht _ IH]; intros o z; [cbn; do 2 f_equal; lia|].
  change (chain_text (t :: tags)) with (tag_text t ++ chain_text tags).
  assert (0 < length (tag_text t))%nat by (destruct t; cbn [tag_text]; rewrite ?length_app; cbn; lia).
  erewrite find_all_tag by (done || by apply tag_at_text). cbn [chain_loop]. rewrite Nat.eqb_refl, drop_app_length. cbn [negb].
  rewrite IH, length_app. change (chain_size (t :: tags)) with (tag_size t + chain_size tags). do 2 f_equal; lia.
Qed.

Lemma chain_sound b o z off z' : chain_loop o z (find_all 0 o b) = Some (off, z') → off = (o + length b)%nat →
  ∃ tags, Forall tag_ok tags ∧ b = chain_text tags ∧ z' = z + chain_size tags.
Proof.
  remember (length b) as len eqn:Hlen. revert b o z Hlen. induction (lt_wf len) as [len _ IH]. intros b o z -> Hc Ho.
  destruct b as [|c b]; [cbn in Hc; simplify_eq; exists []; split_and!; [done|done|cbn; lia]|].
  destruct (tag_at (c :: b)) as [[n g]|] eqn:Et.
  - destruct (tag_at_sound _ _ _ Et) as [Hn Hg]. rewrite (find_all_tag _ _ _ _ Et Hn) in Hc. cbn [chain_loop] in Hc.
    rewrite Nat.eqb_refl in Hc. cbn [negb] in Hc. destruct g as [g|]; [|done]. destruct (Hg g eq_refl) as (t & Ht & Hb & Hl & <-).
    assert (n ≤ length (c :: b))%nat by (rewrite Hb, length_app; lia).
    edestruct IH as (tags & Htags & Hb' & ->); [|reflexivity|exact Hc|rewrite length_drop; lia|]; [rewrite length_drop; cbn [length] in *; lia|].
    exists (t :: tags). split_and!; [by constructor|by rewrite Hb, Hb'|].
    change (chain_size (t :: tags)) with (tag_size t + chain_size tags). lia.
  - cbn [find_all] in Hc. rewrite Et in Hc. destruct (find_all 0 (S o) b) as [|[[a n] g] ms] eqn:Ef; [cbn in *; simplify_eq; lia|].
    apply find_all_offset in Ef. cbn [chain_loop] in Hc. rewrite bool_true_if in Hc; [done|]. apply negb_true_iff, Nat.eqb_neq. lia.
Qed.

(** No tag holds a byte that ends a line. *)
Definition safe_byte (c : ascii) : bool := negb ((byte_val c =? 13) || (byte_val c =? 10) || (byte_val c =? 0)).
Lemma digit_safe c : is_digit c = true → safe_byte c = true.
Proof. destruct c as [[] [] [] [] [] [] [] []]; vm_compute; done. Qed.
Lemma hex_safe c : is_hex c = true → safe_byte c = true.
Proof. destruct c as [[] [] [] [] [] [] [] []]; vm_compute; done. Qed.
Lemma forallb_impl {A} (p q : A → bool) l : (∀ x, p x = true → q x = true) → forallb p l = true → forallb q l = true.
Proof. rewrite !forallb_forall. auto. Qed.
Lemma tag_safe t : tag_ok t → forallb safe_byte (tag_text t) = true.
Proof.
  destruct t as [|hs|p ds]; cbn [tag_ok tag_text]; [done| |].
  - intros (_ & H & _). rewrite !forallb_app, (forallb_impl _ _ _ hex_safe H). done.
  - intros (Hp & H & _). rewrite !forallb_app, (forallb_impl _ _ _ digit_safe H). unfold random_prefixes in Hp.
    rewrite !elem_of_cons in Hp. by destruct Hp as [->|[->|[->|?%elem_of_nil]]].
Qed.
Lemma chain_safe tags : Forall tag_ok tags → forallb safe_byte (chain_text tags) = true.
Proof.
  induction 1 as [|t tags Ht _ IH]; [done|]. change (chain_text (t :: tags)) with (tag_text t ++ chain_text tags).
  by rewrite forallb_app, tag_safe, IH.
Qed.

(** C27: the scan of an instruction chain ([FindAllStringSubmatchIndex] and the loop
    over its matches) accepts exactly the texts of at most 2048 bytes that are a
    sequence of time, static and random tags which together generate between 1 and
    512 bytes. *)
Theorem chain_grammar value :
  validateInstructionChain value = true ↔
  ∃ tags, Forall tag_ok tags ∧ list_of_str value = chain_text tags ∧ 1 ≤ chain_size tags ≤ 512 ∧ blen (list_of_str value) ≤ 2048.
Proof.
  unfold validateInstructionChain. split.
  - destruct (_ || _) eqn:E; [done|]. apply orb_false_iff in E as [E _]. destruct (chain_loop 0 0 _) as [[off z]|] eqn:Ec; [|by rewrite andb_false_r].
    rewrite !andb_true_iff. intros (_ & [Ho%Nat.eqb_eq Hlo] & Hhi).
    destruct (chain_sound _ _ _ _ _ Ec Ho) as (tags & Hok & Ht & ->). exists tags. split_and!; [done|done|lia|lia|lia].
  - intros (tags & Hok & Ht & Hsz & Hl). rewrite bool_false_if.
    2: { apply orb_false_iff. split; [lia|]. rewrite Ht. apply not_true_iff_false. intros (c & Hc & Hbad)%existsb_exists.
         apply chain_safe in Hok. rewrite forallb_forall in Hok. apply Hok in Hc. unfold safe_byte in Hc. by rewrite Hbad in Hc. }
    rewrite Ht, chain_complete by done. cbn [Nat.add]. rewrite Nat.eqb_refl, !andb_true_iff. split_and!; [|done|lia|lia].
    apply negb_true_iff, bool_decide_eq_false. intros Hn. pose proof (chain_complete tags 0 0 Hok) as Hc. rewrite Hn in Hc.
    cbn in Hc. injection Hc as _ Hz. lia.
Qed.

(** ** What an accepted endpoint is *)

Lemma refuse_none c e k : refuse c e k = None ↔ c = false ∧ k = None.
Proof. destruct c; cbn; naive_solver. Qed.
Lemma or_else_none a b : or_else a b = None ↔ a = None ∧ b = None.
Proof. destruct a; cbn; naive_solver. Qed.
Lemma first_bad_none {A} (bad : nat → A → option string) i l :
  first_bad bad i l = None ↔ ∀ j x, l !! j = Some x → bad (i + j)%nat x = None.
Proof.
  revert i. induction l as [|y l IH]; intros i; cbn; [naive_solver|]. split.
  - destruct (bad i y) eqn:E; [done|]. intros H [|j] x Hx; cbn in Hx; [simplify_eq; by rewrite Nat.add_0_r|].
    replace (i + S j)%nat with (S i + j)%nat by lia. by apply IH.
  - intros H. pose proof (H 0%nat y eq_refl) as E. rewrite Nat.add_0_r in E. rewrite E. apply IH. intros j x Hx.
    replace (S i + j)%nat with (i + S j)%nat by lia. by apply H.
Qed.

(** Ranges that do not meet. *)
Definition disjoint_ranges (p q : Z * Z) : Prop := p.2 < q.1 ∨ q.2 < p.1.
Definition pairwise {A} (R : A → A → Prop) (l : list A) : Prop := ∀ i j x y, (i < j)%nat → l !! i = Some x → l !! j = Some y → R x y.

Lemma pairwise_snoc {A} (R : A → A → Prop) l z : pairwise R l → Forall (λ x, R x z) l → pairwise R (l ++ [z]).
Proof.
  intros Hp Hz i j x y Hij Hx Hy. apply lookup_snoc_Some in Hy as [[Hj Hy]|[-> <-]].
  - rewrite lookup_app_l in Hx by lia. exact (Hp i j x y Hij Hx Hy).
  - rewrite lookup_app_l in Hx by done. rewrite Forall_lookup in Hz. by eapply Hz.
Qed.

Lemma header_ranges_sound contract i acc hs : pairwise disjoint_ranges acc → header_ranges contract i acc hs = None →
  ∃ rs, mapM uintRangeBounds hs = Some rs ∧ pairwise disjoint_ranges (acc ++ rs).
Proof.
  revert i acc. induction hs as [|h hs IH]; intros i acc Hacc; cbn [header_ranges]; [intros _; exists []; by rewrite app_nil_r|].
  destruct (uintRangeBounds h) as [[low high]|] eqn:Eh; [|done]. destruct (existsb _ acc) eqn:Eo; [done|]. intros H.
  edestruct IH as (rs & Hrs & Hp); [|exact H|]; [apply pairwise_snoc; [done|]|].
  - apply Forall_forall. intros p Hin%list_elem_of_In. apply not_true_iff_false in Eo. unfold disjoint_ranges. cbn.
    destruct (decide (p.2 < low)); [by left|right]. apply Z.nle_gt. intros Hle. apply Eo, existsb_exists. exists p. split; [done|lia].
  - exists ((low, high) :: rs). split; [|by rewrite <- app_assoc in Hp]. cbn. rewrite Eh. cbn. by rewrite Hrs.
Qed.

Definition contract_of (o : AwgEndpointOptions) : string := if bool_decide (o_ContractID o = "") then awg2ContractID else o_ContractID o.

(** The tests of [validateEndpointOptions], all passed. *)
Lemma validate_inv M o : validateEndpointOptions M o = None → ∃ peer,
  (contract_of o = awg2ContractID ∨ contract_of o = awg31ContractID) ∧ o_UseIntegratedTun o = false ∧ o_MTU o ∈ allowedMTU ∧
  validateKey (o_PrivateKey o) true = true ∧
  junk_bad (if bool_decide (contract_of o = awg31ContractID) then maximumAWG31JunkSize else maximumAWG2JunkSize) o = false ∧
  padding_bad o = false ∧ validatePacketBudget M o (contract_of o) = None ∧
  header_ranges (contract_of o) 0 [] [o_H1 o; o_H2 o; o_H3 o; o_H4 o] = None ∧
  o_Peers o = [peer] ∧ validatePeer (contract_of o) peer = None ∧
  (contract_of o = awg2ContractID → validateAWG2Subset o peer = None) ∧
  (contract_of o = awg31ContractID → validateAWG31Subset o peer = None).
Proof.
  unfold validateEndpointOptions. fold (contract_of o).
  intros (Hc & (Ht & (Hm & (Hk & (_ & (_ & (Hj & (Hp & (Hb & (Hh & H)%or_else_none)%or_else_none)%refuse_none)%refuse_none)%or_else_none
    )%refuse_none)%refuse_none)%refuse_none)%refuse_none)%refuse_none.
  destruct (o_Peers o) as [|peer [|]]; [done| |done]. apply or_else_none in H as [Hv Hs]. exists peer.
  split_and!; [| | |bsplit; done|exact Hj|exact Hp|exact Hb|exact Hh|done|exact Hv| |].
  - destruct (decide (contract_of o = awg2ContractID)); [by left|right]. rewrite (bool_decide_eq_false_2 (_ = awg2ContractID)) in Hc by done.
    cbn [negb andb] in Hc. bsplit. done.
  - done.
  - apply negb_false_iff, existsb_exists in Hm as (x & Hx & ->%Z.eqb_eq). by apply list_elem_of_In.
  - intros E. by rewrite bool_decide_eq_true_2 in Hs.
  - intros E. by rewrite bool_decide_eq_false_2 in Hs by (rewrite E; done).
Qed.

Lemma junk_ok m o : junk_bad m o = false → 1 ≤ o_Jc o ≤ 128 ∧ 1 ≤ o_Jmin o ≤ o_Jmax o ∧ o_Jmax o ≤ m.
Proof. unfold junk_bad, maximumJunkPacketCount. intros H. bsplit. lia. Qed.

Lemma padding_ok o : padding_bad o = false → 0 ≤ o_S1 o ∧ 0 ≤ o_S2 o ∧ 0 ≤ o_S3 o ∧ 0 ≤ o_S4 o.
Proof. unfold padding_bad. cbn [existsb]. intros H. bsplit. lia. Qed.

Lemma budget_ok M o c : validatePacketBudget M o c = None →
  o_S1 o + MessageInitiationSize ≤ budget M ∧ o_S2 o + MessageResponseSize ≤ budget M ∧ o_S3 o + MessageCookieReplySize ≤ budget M ∧
  o_S4 o + (o_MTU o + MessageTransportSize) ≤ budget M ∧ o_Jmax o ≤ budget M.
Proof.
  unfold validatePacketBudget. destruct (first_bad _ _ _) eqn:E; [done|]. intros [Hj _]%refuse_none.
  rewrite first_bad_none in E. pose proof (λ j x Hx, proj1 (proj1 (refuse_none _ _ _) (E j x Hx))) as G.
  pose proof (G 0%nat _ eq_refl). pose proof (G 1%nat _ eq_refl). pose proof (G 2%nat _ eq_refl). pose proof (G 3%nat _ eq_refl).
  cbn [fst snd] in *. lia.
Qed.

(** *** Ranges of the contract are the ranges of the device *)

Lemma ParseUint32_range b v : ParseUint32 b = Some v → 0 ≤ v < 2 ^ 32.
Proof.
  unfold ParseUint32. destruct (_ && _) eqn:E; [|done]. bsplit. intros [= <-]. split; [|lia].
  assert (∀ b z, 0 ≤ z → forallb is_digit b = true → 0 ≤ fold_left (λ a c, 10 * a + (byte_val c - 48)) b z) as G; [|by apply G].
  clear. induction b as [|c b IH]; intros z Hz; cbn [fold_left forallb]; [done|]. unfold is_digit at 1. intros H. bsplit.
  apply IH; [lia|done].
Qed.

Lemma uintRangeBounds_range s lo hi : uintRangeBounds s = Some (lo, hi) → 0 ≤ lo ≤ hi ∧ hi < 2 ^ 32.
Proof.
  unfold uintRangeBounds. destruct (split_at _ _) as [|a [|b [|]]]; [done| | |done]; cbn.
  - destruct (ParseUint32 a) as [v|] eqn:E; [|done]. apply ParseUint32_range in E. intros [= <- <-]. lia.
  - destruct (ParseUint32 a) as [v|] eqn:E; [|done]. destruct (ParseUint32 b) as [w|] eqn:E'; [|done]. cbn.
    apply ParseUint32_range in E, E'. destruct (w <? v) eqn:L; [done|]. intros [= <- <-]. lia.
Qed.

Lemma FromString_bounds s : FromString s = (λ p, FromUint32 p.1 p.2) <$> uintRangeBounds s.
Proof.
  unfold FromString, uintRangeBounds. destruct (split_at _ _) as [|a [|b [|]]]; [done| | |done]; cbn.
  - by destruct (ParseUint32 a).
  - destruct (ParseUint32 a); [|done]. destruct (ParseUint32 b); [|done]. cbn. by destruct (_ <? _).
Qed.

Lemma FromUint32_add lo hi : 0 ≤ lo < 2 ^ 32 → 0 ≤ hi → FromUint32 lo hi = hi * 2 ^ 32 + lo.
Proof.
  intros Hl Hh. unfold FromUint32. rewrite Z.shiftl_mul_pow2 by lia.
  assert (Z.land (hi * 2 ^ 32) lo = 0) as E; [|by rewrite Z.add_nocarry_lxor, Z.lxor_lor].
  apply Z.bits_inj'. intros n Hn. rewrite Z.land_spec, Z.bits_0. destruct (decide (n < 32)); [by rewrite Z.mul_pow2_bits_low|].
  rewrite (Z.bits_above_log2 lo), andb_false_r; [done|lia|]. destruct (decide (lo = 0)) as [->|]; [cbn; lia|].
  apply Z.log2_lt_pow2; [lia|]. apply Z.lt_le_trans with (2 ^ 32); [lia|]. apply Z.pow_le_mono_r; lia.
Qed.

Lemma Lo_Hi lo hi : 0 ≤ lo < 2 ^ 32 → 0 ≤ hi < 2 ^ 32 → Lo (FromUint32 lo hi) = lo ∧ Hi (FromUint32 lo hi) = hi.
Proof.
  intros Hl Hh. unfold Lo, Hi, wrap. rewrite FromUint32_add by lia. split.
  - rewrite Z.add_comm, Z_mod_plus_full. by apply Z.mod_small.
  - rewrite Z.shiftr_div_pow2, Z.div_add_l, (Z.div_small lo), Z.add_0_r by lia. by apply Z.mod_small.
Qed.

(** What a draw promises. *)
Definition draw_ok (rnd : Z → Z) : Prop := ∀ n, 0 < n < 2 ^ 32 → 0 ≤ rnd n < n.

Lemma PickOne_in rnd lo hi : draw_ok rnd → 0 ≤ lo ≤ hi → hi < 2 ^ 32 - 1 → lo ≤ PickOne rnd (FromUint32 lo hi) ≤ hi.
Proof.
  intros Hr Hl Hh. unfold PickOne. destruct (Lo_Hi lo hi) as [-> ->]; [lia|lia|]. rewrite (wrap_small 32 (hi - lo + 1)) by lia.
  pose proof (Hr (hi - lo + 1)). rewrite wrap_small; lia.
Qed.

(** A time of the device: some value of the range the contract checked. *)
Lemma stored_bounds name value mn mx fallback : bad_field 0 (name, value, mn, mx) = None → 1 ≤ mn → mx < 2 ^ 32 - 1 → 1 ≤ fallback →
  let p := timing_bounds value fallback in
  ∃ r, stored_range value = Some r ∧ 1 ≤ p.1 ∧ or_range fallback Lo r = p.1 ∧ or_range fallback Hi r = p.2 ∧
    ∀ rnd, draw_ok rnd → p.1 ≤ or_range fallback (PickOne rnd) r ≤ p.2.
Proof.
  unfold bad_field, stored_range, timing_bounds, nonempty. intros [Hb _]%refuse_none Hmn Hmx Hf.
  destruct (bool_decide (value = "")) eqn:Ev; cbn [negb andb] in *; [exists 0; split_and!; [done|done|done|done|cbn; lia]|].
  apply negb_false_iff in Hb. unfold validateUintRange in Hb. destruct (uintRangeBounds value) as [[lo hi]|] eqn:Er; [|done].
  apply andb_true_iff in Hb as [Hlo Hhi]. apply uintRangeBounds_range in Er as Hr. exists (FromUint32 lo hi).
  rewrite FromString_bounds, Er. split; [done|]. cbn [default from_option id fst snd]. unfold or_range, IsZero.
  assert (FromUint32 lo hi =? 0 = false) as -> by (apply Z.eqb_neq; rewrite FromUint32_add by lia; lia).
  destruct (Lo_Hi lo hi) as [-> ->]; [lia|lia|]. split_and!; [lia|done|done|]. intros rnd Hd. apply PickOne_in; [done|lia|lia].
Qed.


(** The times pass their tests under both contracts: the first leaves them empty. *)
Lemma timings_checked M o : validateEndpointOptions M o = None →
  (∀ f, f ∈ awg31_fields o → bad_field 0 f = None) ∧ validateTimingRelations o = None.
Proof.
  intros (peer & Hc & _ & _ & _ & _ & _ & _ & _ & _ & _ & H2 & H3)%validate_inv. destruct Hc as [Hc|Hc].
  - specialize (H2 Hc). unfold validateAWG2Subset in H2. apply refuse_none in H2 as [_ [He _]%refuse_none].
    cbn [existsb] in He. unfold nonempty in He. bsplit. split.
    + intros f Hf. unfold awg31_fields in Hf. rewrite !elem_of_cons in Hf.
      destruct Hf as [->|[->|[->|[->|[->|[->|?%elem_of_nil]]]]]]; [..|done];
        repeat match goal with H : _ = "" |- _ => rewrite H; clear H end; done.
    + unfold validateTimingRelations, timing_bounds. by rewrite !bool_decide_eq_true_2.
  - specialize (H3 Hc). unfold validateAWG31Subset in H3.
    apply refuse_none in H3 as [_ [_ [_ [Hf [Ht _]%or_else_none]%or_else_none]%or_else_none]%refuse_none].
    split; [|done]. rewrite first_bad_none in Hf. intros f [j Hj]%list_elem_of_lookup. by apply (Hf j).
Qed.

(** with the ranges of an accepted endpoint, under either contract and whatever
    values the device draws from them, keys are refreshed before they are rejected:
    the refresh after sending comes before every possible rejection time, and the
    refresh after receiving is at a positive time before the keys expire. *)
Theorem accepted_timings M o : validateEndpointOptions M o = None → ∃ t, stored_timings o = Some t ∧
  ∀ rnd rnd', draw_ok rnd → draw_ok rnd' →
    keyRefreshTimeoutSending rnd t < or_range RejectAfterTime (PickOne rnd') (t_rejectAfterTimeSec t) ≤ keychainExpireTime t ∧
    0 < keyRefreshTimeoutReceiving rnd t < keychainExpireTime t.
Proof.
  intros [Hf Ht]%timings_checked. unfold awg31_fields in Hf.
  destruct (stored_bounds "rekey_after_time" (o_RekeyAfterTime o) 30 3600 RekeyAfterTime) as (a & Ea & Ha); [by apply Hf; rewrite !elem_of_cons; auto 8|done..|].
  destruct (stored_bounds "rekey_timeout" (o_RekeyTimeout o) 1 60 RekeyTimeout) as (b & Eb & Hb); [by apply Hf; rewrite !elem_of_cons; auto 8|done..|].
  destruct (stored_bounds "reject_after_time" (o_RejectAfterTime o) 30 7200 RejectAfterTime) as (c & Ec & Hc); [by apply Hf; rewrite !elem_of_cons; auto 8|done..|].
  destruct (stored_bounds "keepalive_timeout" (o_KeepaliveTimeout o) 1 600 KeepaliveTimeout) as (d & Ed & Hd); [by apply Hf; rewrite !elem_of_cons; auto 8|done..|].
  exists (mkTimings a b c d). split; [unfold stored_timings; by rewrite Ea, Eb, Ec, Ed|].
  unfold validateTimingRelations in Ht. apply refuse_none in Ht as [Ht1 [Ht2 _]%refuse_none].
  unfold keyRefreshTimeoutSending, keyRefreshTimeoutReceiving, keychainExpireTime.
  cbn [t_rekeyAfterTimeSec t_rekeyTimeoutSec t_rejectAfterTimeSec t_keepaliveTimeoutSec]. intros rnd rnd' Hr Hr'.
  destruct Ha as (? & ? & ? & Ha), Hb as (? & Eb' & _), Hc as (? & ? & Ec' & Hc), Hd as (? & Ed' & _).
  pose proof (Ha rnd Hr). pose proof (Hc rnd Hr). pose proof (Hc rnd' Hr'). rewrite Eb', Ec', Ed'. lia.
Qed.

(** ** The text is read back line by line *)

Definition value_ok (v : bytes) : bool :=
  forallb (λ c, negb (Ascii.eqb c newline)) v && match reverse v with c :: _ => negb (byte_val c =? 13) | [] => true end.
Definition key_ok (k : string) : bool := forallb (λ c, safe_byte c && negb (byte_val c =? 61)) (list_of_str k).
Definition field_ok (f : string * bytes) : Prop := key_ok f.1 = true ∧ value_ok f.2 = true.

Lemma safe_value v : forallb safe_byte v = true → value_ok v = true.
Proof.
  intros H. unfold value_ok. apply andb_true_iff. split.
  - eapply forallb_impl; [|exact H]. intros c. unfold safe_byte. intros Hc. apply negb_true_iff, Ascii.eqb_neq. by intros ->.
  - destruct (reverse v) as [|c r] eqn:E; [done|]. assert (c ∈ v) as Hc by (rewrite <- (reverse_involutive v), E; apply elem_of_reverse, elem_of_cons; by left).
    rewrite forallb_forall in H. apply list_elem_of_In, H in Hc. unfold safe_byte in Hc. bsplit. by apply negb_true_iff.
Qed.

Lemma split_at_line sep a r : forallb (λ c, negb (Ascii.eqb c sep)) a = true → split_at sep (a ++ sep :: r) = a :: split_at sep r.
Proof.
  induction a as [|c a IH]; cbn; [by rewrite Ascii.eqb_refl|]. rewrite andb_true_iff. intros [Hc%negb_true_iff Ha]. rewrite Hc.
  by rewrite IH.
Qed.
Lemma split_at_last sep a : forallb (λ c, negb (Ascii.eqb c sep)) a = true → split_at sep a = [a].
Proof. induction a as [|c a IH]; cbn; [done|]. rewrite andb_true_iff. intros [Hc%negb_true_iff Ha]. by rewrite Hc, IH. Qed.
Lemma split_join ls : ls ≠ [] → Forall (λ a, forallb (λ c, negb (Ascii.eqb c newline)) a = true) ls → split_at newline (join_lines ls) = ls.
Proof.
  intros Hne H. induction H as [|a ls Ha Hls IH]; [done|]. destruct ls as [|b ls]; [by apply split_at_last|].
  change (join_lines (a :: b :: ls)) with (a ++ newline :: join_lines (b :: ls)). by rewrite split_at_line, IH.
Qed.

Lemma drop_cr_line k v : value_ok v = true → drop_cr (k ++ "="%char :: v) = k ++ "="%char :: v.
Proof.
  unfold value_ok, drop_cr. intros [_ H]%andb_true_iff. rewrite reverse_app, reverse_cons.
  destruct (reverse v) as [|c r]; [done|]. cbn. apply negb_true_iff in H. by rewrite H.
Qed.
Lemma cut_line k v : key_ok k = true → cut_eq (field_line (k, v)) = Some (list_of_str k, v).
Proof.
  intros H. unfold cut_eq, field_line. cbn [fst snd]. rewrite span_app; [done| |done]. eapply forallb_impl; [|exact H].
  by intros c [_ Hc]%andb_true_iff.
Qed.

Lemma read_fields fs : Forall field_ok fs → Forall (λ f, (length (field_line f) < maxScanTokenSize)%nat) fs →
  ipc_read (field_line <$> fs) = ((λ f, (list_of_str f.1, f.2)) <$> fs, true).
Proof.
  induction 1 as [|[k v] fs [Hk Hv] _ IH]; [done|]. intros [Hl Hls]%Forall_cons. rewrite !fmap_cons. cbn [ipc_read].
  assert (field_line (k, v) ≠ []) as Hne by (unfold field_line; cbn; by destruct (list_of_str k)).
  rewrite (bool_decide_eq_false_2 _ Hne). cbn [andb]. rewrite bool_false_if by (apply Nat.leb_gt; done).
  assert (drop_cr (field_line (k, v)) = field_line (k, v)) as -> by (by apply drop_cr_line).
  rewrite (bool_decide_eq_false_2 _ Hne), cut_line by done. by rewrite IH.
Qed.

Lemma field_no_newline f : field_ok f → forallb (λ c, negb (Ascii.eqb c newline)) (field_line f) = true.
Proof.
  intros [Hk Hv]. unfold field_line. rewrite forallb_app. cbn [forallb]. unfold value_ok in Hv. apply andb_true_iff in Hv as [-> _].
  rewrite !andb_true_r. eapply forallb_impl; [|exact Hk]. intros c [Hc _]%andb_true_iff.
  apply negb_true_iff, Ascii.eqb_neq. by intros ->.
Qed.

Lemma show_digits_digits fuel n acc : 0 ≤ n → forallb is_digit acc = true → forallb is_digit (show_digits fuel n acc) = true.
Proof.
  assert (∀ d, 0 ≤ d ≤ 9 → is_digit (byte_of (48 + d)) = true) as D.
  { intros d Hd. unfold is_digit. rewrite byte_val_of, wrap_small by lia. lia. }
  revert n acc. induction fuel as [|f IH]; intros n acc Hn Ha; cbn [show_digits]; [done|]. destruct (n <? 10) eqn:E.
  - cbn. rewrite D by lia. done.
  - apply IH; [apply Z.div_pos; lia|]. cbn. rewrite D by (pose proof (Z.mod_pos_bound n 10); lia). done.
Qed.
Lemma show_int_safe n : forallb safe_byte (list_of_str (show_int n)) = true.
Proof.
  unfold show_int. rewrite list_str. destruct (n <? 0) eqn:E; cbn [forallb]; [change (safe_byte "-") with true; cbn [andb]|];
    eapply forallb_impl; (apply digit_safe || (apply show_digits_digits; [lia|done])).
Qed.
Lemma hex_char_safe d : 0 ≤ d < 16 → safe_byte (hex_char d) = true.
Proof. intros H. unfold safe_byte, hex_char. destruct (d <? 10) eqn:E; rewrite byte_val_of, wrap_small by lia; lia. Qed.
Lemma hex_encode_safe b : forallb safe_byte (hex_encode b) = true.
Proof.
  unfold hex_encode. induction b as [|c b IH]; [done|]. rewrite fmap_cons. cbn [concat]. rewrite forallb_app, IH, andb_true_r.
  pose proof (byte_val_range c). cbn. rewrite !hex_char_safe; [done| |]; [apply Z.mod_pos_bound; lia|].
  split; [apply Z.div_pos; lia|apply Z.div_lt_upper_bound; lia].
Qed.
Lemma hex_digits_safe fuel n acc : 0 ≤ n → forallb safe_byte acc = true → forallb safe_byte (hex_digits fuel n acc) = true.
Proof.
  revert n acc. induction fuel as [|f IH]; intros n acc Hn Ha; cbn [hex_digits]; [done|]. destruct (n <? 16) eqn:E.
  - cbn. by rewrite hex_char_safe by lia.
  - apply IH; [apply Z.div_pos; lia|]. cbn. by rewrite hex_char_safe by (apply Z.mod_pos_bound; lia).
Qed.
Lemma joined_safe gs : Forall (λ g, 0 ≤ g) gs → forallb safe_byte (joined gs) = true.
Proof.
  intros H. unfold joined. generalize (seq 0 (length gs)). induction H as [|g gs Hg _ IH]; intros ix; [by rewrite zip_with_nil_r|].
  destruct ix as [|i ix]; [done|]. cbn [zip zip_with fmap list_fmap mjoin list_join fst snd]. rewrite !forallb_app, IH, andb_true_r.
  rewrite hex_digits_safe by done. by destruct (i =? 0)%nat.
Qed.
Lemma v4_string_safe v : forallb safe_byte (v4_string v) = true.
Proof. unfold v4_string. repeat (rewrite forallb_app || cbn [forallb] || rewrite show_int_safe). done. Qed.
Lemma v6_string_safe v : forallb safe_byte (v6_string v) = true.
Proof.
  assert (Forall (λ g, 0 ≤ g) (v6_groups v)) as H.
  { apply Forall_fmap, Forall_forall. intros k _. cbn. apply Z.mod_pos_bound. lia. }
  unfold v6_string. destruct (longest_run _ _ _) as [s e]. destruct (e =? 0)%nat; [by apply joined_safe|].
  rewrite forallb_app. cbn [forallb]. rewrite !joined_safe; [done|by apply Forall_drop|by apply Forall_take].
Qed.
Lemma prefix_string_safe p : forallb safe_byte (prefix_string p) = true.
Proof.
  unfold prefix_string. destruct (prefix_valid p); [|done]. rewrite forallb_app. cbn [forallb]. rewrite show_int_safe.
  assert (∀ a, forallb safe_byte (addr_string (without_zone a)) = true) as ->; [|done].
  intros [|v|v z]; unfold addr_string, without_zone; [done|by apply v4_string_safe|]. rewrite bool_decide_eq_true_2 by done.
  rewrite app_nil_r. destruct (Is4In6 _); [by rewrite forallb_app, v4_string_safe|by apply v6_string_safe].
Qed.

Lemma split_at_all sep q b : (∀ c, q c = true → Ascii.eqb c sep = false) → q sep = false → 
  Forall (λ a, forallb q a = true) (split_at sep b) → forallb (λ c, q c || Ascii.eqb c sep) b = true.
Proof.
  intros Hq Hs. induction b as [|c b IH]; [done|]. cbn [split_at forallb]. destruct (Ascii.eqb c sep) eqn:E.
  - intros [_ H]%Forall_cons. rewrite orb_true_r. by apply IH.
  - destruct (split_at sep b) as [|l ls] eqn:El; [by destruct b; cbn in El; repeat case_match|].
    intros [H1 H2]%Forall_cons. cbn in H1. apply andb_true_iff in H1 as [-> H1]. apply IH. by constructor.
Qed.
Lemma range_safe s r : uintRangeBounds s = Some r → forallb safe_byte (list_of_str s) = true.
Proof.
  intros H. apply (forallb_impl (λ c, is_digit c || Ascii.eqb c hyphen)).
  { intros c [Hc|Hc%Ascii.eqb_eq]%orb_true_iff; [by apply digit_safe|by subst c]. }
  assert (∀ a v, ParseUint32 a = Some v → forallb is_digit a = true) as D.
  { intros a v. unfold ParseUint32. destruct (_ && _) eqn:E; [|done]. by bsplit. }
  apply split_at_all; [intros c; destruct c as [[] [] [] [] [] [] [] []]; vm_compute; done|done|].
  unfold uintRangeBounds in H. destruct (split_at _ _) as [|a [|b [|]]]; [done| | |done]; cbn in H.
  - destruct (ParseUint32 a) eqn:E; [|done]. apply D in E. by repeat constructor.
  - destruct (ParseUint32 a) eqn:E; [|done]. destruct (ParseUint32 b) eqn:E'; [|done]. apply D in E, E'. by repeat constructor.
Qed.
Lemma validated_range_safe s a b : validateUintRange s a b = true → forallb safe_byte (list_of_str s) = true.
Proof. unfold validateUintRange. destruct (uintRangeBounds s) eqn:E; [|done]. intros _. by eapply range_safe. Qed.
Lemma validated_chain_safe s : validateInstructionChain s = true → forallb safe_byte (list_of_str s) = true.
Proof.
  unfold validateInstructionChain. destruct (_ || _) eqn:E; [done|]. apply orb_false_iff in E as [_ E]. intros _.
  apply forallb_forall. intros c Hc. unfold safe_byte. apply negb_true_iff, not_true_iff_false. intros Hb. apply not_true_iff_false in E.
  apply E, existsb_exists. by exists c.
Qed.

Lemma opt_int_ok k z : key_ok k = true → Forall field_ok (opt_int k z).
Proof. intros Hk. unfold opt_int. destruct (z =? 0); [done|]. repeat constructor; [done|]. apply safe_value, show_int_safe. Qed.
Lemma opt_text_ok k s : key_ok k = true → (nonempty s = true → forallb safe_byte (list_of_str s) = true) → Forall field_ok (opt_text k s).
Proof. intros Hk Hs. unfold opt_text. destruct (nonempty s); [|done]. repeat constructor; [done|]. by apply safe_value, Hs. Qed.
Lemma key_line_ok k s : key_ok k = true → validateKey s true = true → ∃ f, key_line k s = Some f ∧ field_ok f.
Proof.
  intros Hk Hv. unfold validateKey in Hv. rewrite andb_false_r in Hv. cbn [orb] in Hv. unfold key_line. destruct (DecodeString s) as [b|]; [|done].
  eexists. split; [done|]. split; [done|]. apply safe_value, hex_encode_safe.
Qed.
Lemma opt_key_ok k s : key_ok k = true → (nonempty s = true → validateKey s true = true) → ∃ fs, opt_key k s = Some fs ∧ Forall field_ok fs.
Proof.
  intros Hk Hv. unfold opt_key. destruct (nonempty s); [|by exists []]. destruct (key_line_ok k s Hk (Hv eq_refl)) as (f & -> & Hf).
  exists [f]. split; [done|by apply Forall_singleton].
Qed.

(** The host may be any text that does not end the line. *)
Lemma endpoint_ok host n : forallb (λ c, negb (Ascii.eqb c newline)) host = true → value_ok (JoinHostPort host (list_of_str (show_int n))) = true.
Proof.
  intros Hh. pose proof (safe_value _ (show_int_safe n)) as Hv. unfold value_ok in *. apply andb_true_iff in Hv as [H1 H2].
  assert (∀ x, forallb (λ c, negb (Ascii.eqb c newline)) x = true → forallb (λ c, negb (Ascii.eqb c newline)) (x ++ colon :: list_of_str (show_int n)) &&
    match reverse (x ++ colon :: list_of_str (show_int n)) with c :: _ => negb (byte_val c =? 13) | [] => true end = true) as G.
  { intros x Hx. rewrite forallb_app. cbn [forallb]. rewrite Hx, H1. rewrite reverse_app, reverse_cons. by destruct (reverse (list_of_str _)). }
  unfold JoinHostPort. case_bool_decide; [|by apply G]. specialize (G ("["%char :: host ++ ["]"%char])).
  cbn [app] in G. rewrite <- app_assoc in G. apply G. cbn. by rewrite forallb_app, Hh.
Qed.

Lemma peer_fields_ok o contract peer : validatePeer contract peer = None →
  forallb (λ c, negb (Ascii.eqb c newline)) (list_of_str (pr_Address peer)) = true →
  validateAWG2Subset o peer = None ∨ validateAWG31Subset o peer = None →
  ∃ fs, peer_fields peer = Some fs ∧ Forall field_ok fs.
Proof.
  intros Hv Ha Hs. unfold validatePeer in Hv.
  apply refuse_none in Hv as [_ [_ [Hk [Hpk _]%refuse_none]%refuse_none]%refuse_none]. bsplit.
  unfold peer_fields. destruct (key_line_ok "public_key" (pr_PublicKey peer)) as (f & -> & Hf); [done|done|].
  destruct (opt_key_ok "preshared_key" (pr_PresharedKey peer)) as (g & -> & Hg); [done| |].
  { unfold nonempty, validateKey in *. destruct (bool_decide (pr_PresharedKey peer = "")); [done|]. done. }
  eexists. split; [reflexivity|]. constructor; [done|]. apply Forall_app; split; [done|]. apply Forall_app; split; [|apply Forall_app; split].
  - destruct (_ && _); [|done]. repeat constructor. cbn [snd]. by apply endpoint_ok.
  - destruct (nonempty (pr_KeepaliveRange peer)) eqn:En; [|by apply opt_int_ok]. repeat constructor. cbn [snd]. apply safe_value.
    destruct Hs as [Hs|Hs].
    + exfalso. unfold validateAWG2Subset in Hs. apply refuse_none in Hs as [_ [He _]%refuse_none]. cbn [existsb] in He. bsplit. congruence.
    + unfold validateAWG31Subset in Hs.
      apply refuse_none in Hs as [_ [_ [_ [_ [_ [_ [Hr _]%refuse_none]%refuse_none]%or_else_none]%or_else_none]%or_else_none]%refuse_none].
      rewrite En in Hr. cbn [andb] in Hr. apply negb_false_iff in Hr. by eapply validated_range_safe.
  - apply Forall_fmap, Forall_forall. intros p _. split; [done|]. apply safe_value, prefix_string_safe.
Qed.

(** What the two subsets say of the texts and of the header key. *)
Lemma subset_texts o peer : validateAWG2Subset o peer = None ∨ validateAWG31Subset o peer = None →
  Forall (λ s, nonempty s = true → forallb safe_byte (list_of_str s) = true)
    [o_I1 o; o_I2 o; o_I3 o; o_I4 o; o_I5 o; o_ContentPaddingAddition o; o_RekeyAfterTime o; o_RekeyTimeout o; o_RejectAfterTime o;
     o_KeepaliveTimeout o; o_MaxHandshakeAttempts o] ∧
  (nonempty (o_HeaderProtectionKey o) = true → validateKey (o_HeaderProtectionKey o) true = true).
Proof.
  intros [H|H].
  - unfold validateAWG2Subset in H. apply refuse_none in H as [H1 [H2 _]%refuse_none]. cbn [existsb] in H1, H2. bsplit.
    split; [repeat constructor|]; congruence.
  - unfold validateAWG31Subset in H.
    apply refuse_none in H as [_ [Hk [Hc [Hf _]%or_else_none]%or_else_none]%refuse_none]. apply negb_false_iff in Hk. split; [|done].
    rewrite first_bad_none in Hc. rewrite first_bad_none in Hf.
    assert (∀ j s, [o_I1 o; o_I2 o; o_I3 o; o_I4 o; o_I5 o] !! j = Some s → nonempty s = true → forallb safe_byte (list_of_str s) = true) as C.
    { intros j s Hj Hn. specialize (Hc j s Hj). unfold bad_chain in Hc. rewrite Hn in Hc. apply refuse_none in Hc as [Hc _].
      apply validated_chain_safe. by apply negb_false_iff. }
    assert (∀ j f, awg31_fields o !! j = Some f → nonempty f.1.1.2 = true → forallb safe_byte (list_of_str f.1.1.2) = true) as F.
    { intros j [[[n s] a] b] Hj. cbn [fst snd]. intros Hn. specialize (Hf j _ Hj). unfold bad_field in Hf. rewrite Hn in Hf.
      apply refuse_none in Hf as [Hf _]. eapply validated_range_safe. by apply negb_false_iff. }
    repeat constructor; [apply (C 0%nat)|apply (C 1%nat)|apply (C 2%nat)|apply (C 3%nat)|apply (C 4%nat)|apply (F 0%nat _ eq_refl)|
      apply (F 1%nat _ eq_refl)|apply (F 2%nat _ eq_refl)|apply (F 3%nat _ eq_refl)|apply (F 4%nat _ eq_refl)|apply (F 5%nat _ eq_refl)]; done.
Qed.


(** ** Witnesses *)

Definition ex_key : string := "AAAAAAAAAAAAAAAAAAAAAAAAAAAAAAAAAAAAAAAAAAA=".
Definition ex_peer (address : string) : AwgPeerOptions := mkPeer address 51820 ex_key "" [pfx "0.0.0.0" 0; pfx "::" 0] 25 "".
Definition ex_awg (address : string) : AwgEndpointOptions :=
  mkAwg false awg31ContractID ex_key [pfx "10.8.0.2" 32] 1280 0 4 40 70 15 20 25 30 "1000-2000" "3000" "4000-4999" "5000"
    "<b 0xdeadbeef><t><r 16>" "" "" "" "" ex_key "0-16" "100-110" "5" "180-200" "10" "18" true [ex_peer address].

Example ex_awg_text :
  str_of_list <$> genIpcConfig (ex_awg "2001:db8::1") = Some (String.concat (str_of_list [newline])
    ["private_key=0000000000000000000000000000000000000000000000000000000000000000"; "jc=4"; "jmin=40"; "jmax=70";
     "s1=15"; "s2=20"; "s3=25"; "s4=30"; "h1=1000-2000"; "h2=3000"; "h3=4000-4999"; "h4=5000"; "i1=<b 0xdeadbeef><t><r 16>";
     "header_protection_key=0000000000000000000000000000000000000000000000000000000000000000"; "content_padding_addition=0-16";
     "rekey_after_time=100-110"; "rekey_timeout=5"; "reject_after_time=180-200"; "keepalive_timeout=10"; "max_handshake_attempts=18";
     "random_trailers=true"; "public_key=0000000000000000000000000000000000000000000000000000000000000000";
     "endpoint=[2001:db8::1]:51820"; "persistent_keepalive_interval=25"; "allowed_ip=0.0.0.0/0"; "allowed_ip=::/0"]).
Proof. by vm_compute. Qed.

Lemma accepted_timings_witness : ∃ t, stored_timings (ex_awg "192.0.2.1") = Some t.
Proof. destruct (accepted_timings 65535 (ex_awg "192.0.2.1") ltac:(vm_compute; reflexivity)) as (t & H & _). by exists t. Defined.

(** The address of a peer with a zone is any text: a zone with line ends passes the
    contract, and the device reads a second peer from it. *)
Definition zone_address : string := String.concat (str_of_list [newline])
  ["fe80::1%x]:1"; "public_key=1111111111111111111111111111111111111111111111111111111111111111"; "allowed_ip=192.0.2.0/24"; "endpoint=[fe80::1%y"].
Theorem zone_injects_peer :
  validateEndpointOptions 65535 (ex_awg zone_address) = None ∧
  ∃ text, genIpcConfig (ex_awg zone_address) = Some text ∧
    (filter (λ kv, kv.1 = list_of_str "public_key") (IpcSetOperation_lines text).1).*2 =
      [list_of_str "0000000000000000000000000000000000000000000000000000000000000000";
       list_of_str "1111111111111111111111111111111111111111111111111111111111111111"].
Proof. split; [by vm_compute|]. eexists. split; [vm_compute; reflexivity|]. by vm_compute. Qed.
