(* ===== verification/Balancer.v ===== *)
(** * The load-balancing group

    [engine/sing-box/protocol/group/balancer]: the group asks a strategy for an
    outbound, and the monitor tells the strategy new measurements.  The four
    strategies are instances of the interface [Strategy].

    The public suffix list, the hash function, the cache of sessions ([freelru]) and
    what a conversion of a float to [uint16] gives out of range are not of this code:
    a request carries what they answer, [f2u16] is a parameter. *)

From stdpp Require Import base list strings gmap.
From Stdlib Require Import ZArith Lia Ascii SpecFloat Sorted.
From S2P Require Import Prelude GoBytes GoJson GoFloat GoNetip GoAddrText.

Local Open Scope Z_scope.
Local Open Scope go_scope.
Set Default Goal Selector "!".

(** ** Data *)

Record Outbound := mkOut { out_Tag : string; out_Network : list string }.
#[export] Instance out_eq_dec : EqDecision Outbound.
Proof. solve_decision. Defined.

Record URLTestHistory := mkHist { h_Delay : Z; h_IsFromCache : bool }.
(** [None] is a nil pointer. *)
Abbreviation histories := (gmap string (option URLTestHistory)).

Record BalancerOutboundOptions := mkOptions {
  o_Outbounds : list string; o_Strategy : string; o_DelayAcceptableRatio : float64; o_MaxRetry : Z }.

Definition NetworkTCP : string := "tcp".
Definition NetworkUDP : string := "udp".
(** The code's maps have exactly the keys [tcp] and [udp]. *)
Record by_net (A : Type) := mkNet { tcp : A; udp : A }.
Arguments mkNet {A}. Arguments tcp {A}. Arguments udp {A}.
Definition map_net {A B} (f : A → B) (m : by_net A) : by_net B := mkNet (f (tcp m)) (f (udp m)).
(** [if net != N.NetworkTCP && net != N.NetworkUDP { net = N.NetworkTCP }] and the lookup. *)
Definition normal_net (net : string) : string :=
  if negb (bool_decide (net = NetworkTCP)) && negb (bool_decide (net = NetworkUDP)) then NetworkTCP else net.
Definition at_net {A} (net : string) (m : by_net A) : A := if bool_decide (net = NetworkUDP) then udp m else tcp m.
Definition set_net {A} (net : string) (a : A) (m : by_net A) : by_net A :=
  if bool_decide (net = NetworkUDP) then mkNet (tcp m) a else mkNet a (udp m).

(** [SPanic]: an index out of range; [SNil]: a nil outbound. *)
Inductive selected := SPanic | SNil | SOut (o : Outbound).
Definition index (l : list Outbound) (i : Z) : selected :=
  if i <? 0 then SPanic else match l !! Z.to_nat i with Some o => SOut o | None => SPanic end.

(** ** Helpers of the strategies *)

Record InboundContext := mkContext {
  c_IsFqdn : bool; c_Fqdn : string; c_Domain : string; c_DestinationAddresses : list addr; c_Addr : addr; c_Source : addr }.

(** [net.ParseIP(host) != nil] *)
Definition ParseIP (host : string) : bool :=
  match ParseAddr (list_of_str host) with Some (AV6 _ z) => bool_decide (z = []) | Some _ => true | None => false end.

Section Keys.
(** [publicsuffix.EffectiveTLDPlusOne] *)
Variable EffectiveTLDPlusOne : string → option string.

Definition getKey (m : InboundContext) : string :=
  let host := if c_IsFqdn m then c_Fqdn m else c_Domain m in
  let by_address :=
    match (match c_DestinationAddresses m with a :: _ => a | [] => c_Addr m end) with
    | AInvalid => ""%string
    | a => str_of_list (addr_string a)
    end in
  if negb (bool_decide (host = "")) then
    if ParseIP host then host
    else match EffectiveTLDPlusOne host with Some etld => etld | None => by_address end
  else by_address.
Definition getKeyWithSrcAndDst (m : InboundContext) : string := (str_of_list (addr_string (c_Source m)) ++ getKey m)%string.
End Keys.

(** The loop of [jumpHash]: the next key and the next candidate.  [None] would be a
    loop that does not end. *)
Definition jump_key (key : Z) : Z := wrap 64 (key * 2862933555777941757 + 1).
Definition jump_next (key b : Z) : Z :=
  float_trunc (f_mul (f_of_Z (b + 1)) (f_div (f_of_Z (Z.shiftl 1 31)) (f_of_Z (Z.shiftr key 33 + 1)))).
Fixpoint jump_loop (fuel : nat) (key b j buckets : Z) : option Z :=
  if j <? buckets then
    match fuel with
    | O => None
    | S fuel => let b := j in let key := jump_key key in jump_loop fuel key b (jump_next key b) buckets
    end
  else Some b.
Definition jumpHash (key buckets : Z) : option Z := jump_loop (Z.to_nat buckets) key 0 0 buckets.

Definition TimeoutDelay : Z := 65535.
Definition getModifiedDelay (his : option URLTestHistory) : Z :=
  match his with
  | None => TimeoutDelay
  | Some his =>
      let delay := h_Delay his in
      let delay := if delay =? 0 then TimeoutDelay else delay in
      if h_IsFromCache his && (delay <? 20000) then u16 (delay + 20000) else delay
  end.
Definition getTagDelay (tag : string) (history : histories) : Z :=
  match history !! tag with Some (Some his) => getModifiedDelay (Some his) | _ => TimeoutDelay end.

Definition filterOutbounds (outbounds : list Outbound) (network : string) : list Outbound :=
  let res := filter (λ out, network ∈ out_Network out) outbounds in
  if bool_decide (res = []) then outbounds else res.
Definition convertOutbounds (outbounds : list Outbound) : by_net (list Outbound) :=
  mkNet (filterOutbounds outbounds NetworkTCP) (filterOutbounds outbounds NetworkUDP).

(** [sort.SliceStable] by a delay. *)
Fixpoint insert_by (d : Outbound → Z) (x : Outbound) (l : list Outbound) : list Outbound :=
  match l with
  | [] => [x]
  | y :: l' => if d y <? d x then y :: insert_by d x l' else x :: l
  end.
Definition sort_by (d : Outbound → Z) (l : list Outbound) : list Outbound := foldr (insert_by d) [] l.
Definition sortOutboundsByDelay (outbounds : by_net (list Outbound)) (history : histories) : by_net (list Outbound) :=
  map_net (sort_by (λ o, getTagDelay (out_Tag o) history)) outbounds.

Section Ratio.
(** [uint16(f)] *)
Variable f2u16 : float64 → Z.

(** [uint16(math.Max(100, float64(d)) * ratio)] *)
Definition acceptable_delay (ratio : float64) (d : Z) : Z := f2u16 (f_mul (f_max (f_of_Z 100) (f_of_Z d)) ratio).

(** The last index whose delay is acceptable; [None]: [outs[0]] of an empty slice. *)
Fixpoint last_acceptable (i acc limit : Z) (d : Outbound → Z) (outs : list Outbound) : Z :=
  match outs with
  | [] => acc
  | out :: outs => last_acceptable (i + 1) (if d out <=? limit then i else acc) limit d outs
  end.
Definition acceptable_index (history : histories) (ratio : float64) (outs : list Outbound) : option Z :=
  let d o := getTagDelay (out_Tag o) history in
  match outs with
  | [] => None
  | first :: _ => Some (last_acceptable 0 0 (acceptable_delay ratio (d first)) d outs)
  end.
Definition getAcceptableIndex (sortedOutbounds : by_net (list Outbound)) (history : histories) (ratio : float64) : option (by_net Z) :=
  t ← acceptable_index history ratio (tcp sortedOutbounds);
  u ← acceptable_index history ratio (udp sortedOutbounds);
  Some (mkNet t u).

Definition min_delay (history : histories) (outs : list Outbound) : option Outbound * Z :=
  fold_left (λ acc out, let d := getTagDelay (out_Tag out) history in if d <=? acc.2 then (Some out, d) else acc) outs (None, TimeoutDelay).
Definition getMinDelay (outbounds : by_net (list Outbound)) (history : histories) : by_net (option Outbound) * by_net Z :=
  let m := map_net (min_delay history) outbounds in (map_net fst m, map_net snd m).

Definition getDelayMap (history : histories) : gmap string Z :=
  (λ his, match his with Some his => h_Delay his | None => TimeoutDelay end) <$> history.

(** ** The interface

    A request: the network, the hashes of the two keys of the connection, what the
    cache of sessions holds for it, and the successive readings of the clock. *)
Record request := mkRequest { r_net : string; r_key : Z; r_srckey : Z; r_cached : option Z; r_clock : nat → Z }.

(** [Select] also says what it adds to the cache of sessions. [None] of an update: a panic. *)
Class Strategy (S : Type) := {
  UpdateOutboundsInfo : histories → S → option (bool * S);
  Select : request → bool → S → selected * S * option Z;
  Now : S → option string }.

(** ** Round robin *)

Record RoundRobin := mkRR {
  rr_outbounds : by_net (list Outbound); rr_sorted : by_net (list Outbound); rr_maxIndex : by_net Z; rr_idx : by_net Z; rr_ratio : float64 }.

Definition NewRoundRobin (outbounds : list Outbound) (o : BalancerOutboundOptions) : RoundRobin :=
  let c := convertOutbounds outbounds in
  mkRR c c (map_net (λ outs, Z.of_nat (length outs) - 1) c) (mkNet 0 0) (o_DelayAcceptableRatio o).

Definition rr_update (history : histories) (s : RoundRobin) : option (bool * RoundRobin) :=
  let sorted := sortOutboundsByDelay (rr_outbounds s) history in
  ix ← getAcceptableIndex sorted history (rr_ratio s);
  let changed := negb (tcp ix =? tcp (rr_maxIndex s)) || negb (udp ix =? udp (rr_maxIndex s)) in
  Some (changed, mkRR (rr_outbounds s) sorted ix (rr_idx s) (rr_ratio s)).

Definition rr_select (net : string) (touch : bool) (s : RoundRobin) : selected * RoundRobin :=
  let net := normal_net net in
  let length := at_net net (rr_maxIndex s) + 1 in
  if length =? 0 then (SNil, s)
  else
    let id := Z.rem (at_net net (rr_idx s) + 1) length in
    match index (at_net net (rr_sorted s)) id with
    | SOut proxy => (SOut proxy, if touch then mkRR (rr_outbounds s) (rr_sorted s) (rr_maxIndex s) (set_net net id (rr_idx s)) (rr_ratio s) else s)
    | x => (x, s)
    end.
#[export] Instance RoundRobin_Strategy : Strategy RoundRobin := {
  UpdateOutboundsInfo := rr_update;
  Select r touch s := (rr_select (r_net r) touch s, None);
  Now _ := Some ""%string }.

(** ** Lowest delay *)

Record LowestDelay := mkLD { ld_outbounds : by_net (list Outbound); ld_selected : by_net (option Outbound) }.
(** [None]: the first of an empty slice. *)
Definition NewLowestDelay (outbounds : list Outbound) (o : BalancerOutboundOptions) : option LowestDelay :=
  let c := convertOutbounds outbounds in
  t ← head (tcp c); u ← head (udp c); Some (mkLD c (mkNet (Some t) (Some u))).
(** [out.Tag() != s.selectedOutbound[net].Tag()]; [None]: a nil outbound is asked. *)
Definition tag_differs (a b : option Outbound) : option bool := x ← a; y ← b; Some (negb (bool_decide (out_Tag x = out_Tag y))).
Definition ld_update (history : histories) (s : LowestDelay) : option (bool * LowestDelay) :=
  let m := (getMinDelay (ld_outbounds s) history).1 in
  t ← tag_differs (tcp m) (tcp (ld_selected s));
  u ← tag_differs (udp m) (udp (ld_selected s));
  Some (t || u, mkLD (ld_outbounds s) m).
Definition ld_select (net : string) (s : LowestDelay) : selected :=
  match at_net (normal_net net) (ld_selected s) with Some o => SOut o | None => SNil end.
#[export] Instance LowestDelay_Strategy : Strategy LowestDelay := {
  UpdateOutboundsInfo := ld_update;
  Select r _ s := (ld_select (r_net r) s, s, None);
  Now s := out_Tag <$> tcp (ld_selected s) }.

(** ** Consistent hashing *)

Record Hashing := mkCH {
  ch_outbounds : by_net (list Outbound); ch_delays : gmap string Z; ch_maxDelay : by_net Z; ch_maxRetry : Z; ch_ratio : float64 }.
(** The maps are nil at first: no delay is known and the limit is zero. *)
Definition NewHashing (outbounds : list Outbound) (o : BalancerOutboundOptions) : Hashing :=
  mkCH (convertOutbounds outbounds) ∅ (mkNet 0 0) (o_MaxRetry o) (o_DelayAcceptableRatio o).
Definition ch_update (history : histories) (s : Hashing) : option (bool * Hashing) :=
  let minDelay := (getMinDelay (ch_outbounds s) history).2 in
  Some (true, mkCH (ch_outbounds s) (getDelayMap history) (map_net (acceptable_delay (ch_ratio s)) minDelay) (ch_maxRetry s) (ch_ratio s)).
Definition Alive (s : Hashing) (net : string) (proxy : Outbound) : bool :=
  match ch_delays s !! out_Tag proxy with Some delay => delay <=? at_net net (ch_maxDelay s) | None => false end.

(** [g.outbounds[net][jumpHash(key, buckets)]] *)
Definition hashed (s : Hashing) (net : string) (key : Z) : selected :=
  let outs := at_net net (ch_outbounds s) in
  match jumpHash key (Z.of_nat (length outs)) with Some i => index outs i | None => SPanic end.
Inductive tried := TFound (x : selected) | TNone (key : Z).
Fixpoint ch_retry (n : nat) (s : Hashing) (net : string) (key : Z) : tried :=
  match n with
  | O => TNone key
  | S n => match hashed s net key with
           | SOut proxy => if Alive s net proxy then TFound (SOut proxy) else ch_retry n s net (wrap 64 (key + 1))
           | x => TFound x
           end
  end.
Definition ch_select (net : string) (key : Z) (s : Hashing) : selected :=
  let net := normal_net net in
  match ch_retry (Z.to_nat (ch_maxRetry s)) s net key with
  | TFound x => x
  | TNone key =>
      match List.find (Alive s net) (at_net net (ch_outbounds s)) with Some proxy => SOut proxy | None => hashed s net key end
  end.
Record ConsistentHashing := mkConsistent { ch_fields : Hashing }.
#[export] Instance ConsistentHashing_Strategy : Strategy ConsistentHashing := {
  UpdateOutboundsInfo h s := '(c, f) ← ch_update h (ch_fields s); Some (c, mkConsistent f);
  Select r _ s := (ch_select (r_net r) (r_key r) (ch_fields s), s, None);
  Now _ := Some ""%string }.

(** ** Sticky sessions: the same data and measurements; the cache is apart *)

Record StickySession := mkSticky { ss_fields : Hashing }.
(** The loop: the index that is used and whether it is [Alive]. *)
Fixpoint ss_retry (n : nat) (i : nat) (s : Hashing) (net : string) (r : request) (nowIdx : Z) : Z * bool * nat :=
  match n with
  | O => (nowIdx, false, i)
  | S n =>
      match index (at_net net (ch_outbounds s)) nowIdx with
      | SOut proxy =>
          if Alive s net proxy then (nowIdx, true, i)
          else ss_retry n (S i) s net r
                 (default (-1) (jumpHash (wrap 64 (r_srckey r + wrap 64 (r_clock r i))) (Z.of_nat (length (at_net net (ch_outbounds s))))))
      | _ => (nowIdx, false, i)
      end
  end.
Definition ss_select (r : request) (s : Hashing) : selected * option Z :=
  let net := normal_net (r_net r) in
  let outs := at_net net (ch_outbounds s) in
  let cached := match r_cached r with Some idx => if idx <? Z.of_nat (length outs) then Some idx else None | None => None end in
  let has := match r_cached r with Some _ => true | None => false end in
  let '(idx, i) := match cached with
                   | Some idx => (idx, 0%nat)
                   | None => (default (-1) (jumpHash (wrap 64 (r_srckey r + wrap 64 (r_clock r 0))) (Z.of_nat (length outs))), 1%nat)
                   end in
  let '(nowIdx, alive, _) := ss_retry (Z.to_nat (ch_maxRetry s - 1)) i s net r idx in
  (index outs nowIdx, if alive && has && (nowIdx =? idx) then None else Some nowIdx).
#[export] Instance StickySession_Strategy : Strategy StickySession := {
  UpdateOutboundsInfo h s := '(c, f) ← ch_update h (ss_fields s); Some (c, mkSticky f);
  Select r _ s := let '(x, added) := ss_select r (ss_fields s) in (x, s, added);
  Now _ := Some ""%string }.

(** ** The group *)

Inductive strategy := SRoundRobin (s : RoundRobin) | SConsistentHashing (s : ConsistentHashing) | SStickySession (s : StickySession) | SLowestDelay (s : LowestDelay).

Definition lift {S} (f : S → strategy) (u : option (bool * S)) : option (bool * strategy) := '(c, s) ← u; Some (c, f s).
Definition lift_select {S} (f : S → strategy) (u : selected * S * option Z) : selected * strategy * option Z := let '(x, s, a) := u in (x, f s, a).
#[export] Instance strategy_Strategy : Strategy strategy := {
  UpdateOutboundsInfo h s := match s with
    | SRoundRobin s => lift SRoundRobin (UpdateOutboundsInfo h s)
    | SConsistentHashing s => lift SConsistentHashing (UpdateOutboundsInfo h s)
    | SStickySession s => lift SStickySession (UpdateOutboundsInfo h s)
    | SLowestDelay s => lift SLowestDelay (UpdateOutboundsInfo h s) end;
  Select r touch s := match s with
    | SRoundRobin s => lift_select SRoundRobin (Select r touch s)
    | SConsistentHashing s => lift_select SConsistentHashing (Select r touch s)
    | SStickySession s => lift_select SStickySession (Select r touch s)
    | SLowestDelay s => lift_select SLowestDelay (Select r touch s) end;
  Now s := match s with SRoundRobin s => Now s | SConsistentHashing s => Now s | SStickySession s => Now s | SLowestDelay s => Now s end }.

(** [Balancer.Start]: [lookup] is the outbound manager.  [None]: the first of an empty slice. *)
Fixpoint resolve (lookup : string → option Outbound) (i : Z) (tags : list string) : result string (list Outbound) :=
  match tags with
  | [] => Ok []
  | tag :: tags =>
      match lookup tag with
      | None => Err ("outbound " ++ show_int i ++ " not found: " ++ tag)%string
      | Some detour => match resolve lookup (i + 1) tags with Ok rest => Ok (detour :: rest) | Err e => Err e end
      end
  end.
(** The group needs a tag. *)
Definition NewLoadBalance (o : BalancerOutboundOptions) : result string unit :=
  if bool_decide (o_Outbounds o = []) then Err "missing tags"%string else Ok tt.
Definition Start (lookup : string → option Outbound) (o : BalancerOutboundOptions) : option (result string strategy) :=
  match resolve lookup 0 (o_Outbounds o) with
  | Err e => Some (Err e)
  | Ok outs =>
      if bool_decide (o_Strategy o = "round-robin") then Some (Ok (SRoundRobin (NewRoundRobin outs o)))
      else if bool_decide (o_Strategy o = "consistent-hashing") then Some (Ok (SConsistentHashing (mkConsistent (NewHashing outs o))))
      else if bool_decide (o_Strategy o = "sticky-sessions") then Some (Ok (SStickySession (mkSticky (NewHashing outs o))))
      else if bool_decide (o_Strategy o = "lowest-delay") then l ← NewLowestDelay outs o; Some (Ok (SLowestDelay l))
      else Some (Err ("unknown load balance strategy: " ++ o_Strategy o)%string)
  end.

(** What happens to a group: the monitor reports, connections ask for an outbound
    ([touch] is always set).  [None]: a panic. *)
Inductive event := EReport (h : histories) | ERequest (r : request).
Fixpoint run {S} `{Strategy S} (s : S) (es : list event) : option (list (request * Outbound)) :=
  match es with
  | [] => Some []
  | EReport h :: es => '(_, s') ← UpdateOutboundsInfo h s; run s' es
  | ERequest r :: es => match Select r true s with (SOut o, s', _) => rest ← run s' es; Some ((r, o) :: rest) | _ => None end
  end.

(** ** [jumpHash] *)

(** The candidates grow, and the conversion to [int64] is exact. *)
Lemma jump_next_grows key b : 0 ≤ b < 2 ^ 31 - 1 → b < jump_next (jump_key key) b ≤ 2 ^ 62.
Proof.
  intros Hb. apply f_jump_bounds; [done|]. unfold jump_key.
  pose proof (wrap_range 64 (key * 2862933555777941757 + 1) ltac:(lia)) as H. rewrite Z.shiftr_div_pow2 by lia.
  set (z := wrap 64 _) in *. pose proof (Z.div_pos z (2 ^ 33)). pose proof (Z.div_lt_upper_bound z (2 ^ 33) (2 ^ 31)). lia.
Qed.

Lemma jump_loop_ends fuel key b j n : n < 2 ^ 31 → 0 ≤ j → n - j ≤ Z.of_nat fuel → j < n ∨ 0 ≤ b < n →
  ∃ x, jump_loop fuel key b j n = Some x ∧ 0 ≤ x < n.
Proof.
  intros Hn. revert key b j. induction fuel as [|f IH]; intros key b j Hj Hf Hb; cbn [jump_loop].
  - rewrite bool_false_if by lia. exists b. split; [done|lia].
  - destruct (j <? n) eqn:E; [|exists b; split; [done|lia]]. pose proof (jump_next_grows key j ltac:(lia)). apply IH; lia.
Qed.

Lemma jump_ok key n : 1 ≤ n < 2 ^ 31 → ∃ x, jumpHash key n = Some x ∧ 0 ≤ x < n.
Proof. intros Hn. apply jump_loop_ends; lia. Qed.

(** One more bucket: the candidates are the same, and one of them may be the new bucket. *)
Lemma jump_loop_grow fuel key b j n x : n < 2 ^ 31 - 1 → 0 ≤ j → jump_loop fuel key b j n = Some x →
  ∃ y, jump_loop (S fuel) key b j (n + 1) = Some y ∧ (y = x ∨ y = n).
Proof.
  intros Hn. revert key b j. induction fuel as [|f IH]; intros key b j Hj H.
  - cbn [jump_loop] in H. destruct (j <? n) eqn:E; [done|]. injection H as <-. cbn [jump_loop]. destruct (j <? n + 1) eqn:E'.
    + pose proof (jump_next_grows key j ltac:(lia)). rewrite bool_false_if by lia. exists j. split; [done|lia].
    + exists b. by split; [|left].
  - remember (S f) as g. cbn [jump_loop]. subst g. cbn [jump_loop] in H. destruct (j <? n) eqn:E.
    + pose proof (jump_next_grows key j ltac:(lia)). rewrite bool_true_if by lia. by apply IH; [lia|].
    + injection H as <-. destruct (j <? n + 1) eqn:E'.
      * pose proof (jump_next_grows key j ltac:(lia)). exists j. split; [|lia]. cbn [jump_loop]. by rewrite bool_false_if by lia.
      * exists b. by split; [|left].
Qed.

(** C30: [jumpHash] returns for every key and every number of buckets of an [int32]:
    its loop, which steps with rounded [float64] arithmetic, runs at most once per
    bucket and ends on a bucket in range; and the hash is consistent: when a bucket is
    added, a key keeps its bucket or moves to the new one. *)
Theorem jumpHash_consistent key n : 1 ≤ n < 2 ^ 31 - 1 →
  ∃ x y, jumpHash key n = Some x ∧ 0 ≤ x < n ∧ jumpHash key (n + 1) = Some y ∧ (y = x ∨ y = n).
Proof.
  intros Hn. destruct (jump_ok key n) as (x & Hx & Hr); [lia|]. unfold jumpHash in *.
  apply jump_loop_grow in Hx as Hg; [|lia|lia]. destruct Hg as (y & Hy & Hxy).
  replace (Z.to_nat (n + 1)) with (S (Z.to_nat n)) by lia. eauto 10.
Qed.

(** ** Sorting *)

Abbreviation sorted_by d := (StronglySorted (λ a b : Outbound, d a ≤ d b)).

Lemma insert_perm d x l : insert_by d x l ≡ₚ x :: l.
Proof. induction l as [|y l IH]; cbn; [done|]. destruct (_ <? _); [|done]. rewrite IH. apply Permutation_swap. Qed.
Lemma sort_perm d l : sort_by d l ≡ₚ l.
Proof. induction l as [|x l IH]; cbn; [done|]. by rewrite insert_perm, IH. Qed.
Lemma insert_sorted d x l : sorted_by d l → sorted_by d (insert_by d x l).
Proof.
  induction 1 as [|y l Hl IH Hy]; cbn; [by repeat constructor|]. destruct (d y <? d x) eqn:E.
  - constructor; [done|]. rewrite insert_perm. constructor; [lia|done].
  - constructor; [by constructor|]. constructor; [lia|]. eapply Forall_impl; [exact Hy|]. intros z Hz. cbn in Hz. lia.
Qed.
Lemma sort_sorted d l : sorted_by d (sort_by d l).
Proof. induction l as [|x l IH]; cbn; [constructor|by apply insert_sorted]. Qed.

Lemma filter_none {A} (P : A → Prop) `{∀ x, Decision (P x)} l : (∀ x, x ∈ l → ¬ P x) → filter P l = [].
Proof.
  induction l as [|x l IH]; intros H'; [done|]. rewrite filter_cons, decide_False by (apply H', elem_of_cons; by left).
  apply IH. intros y Hy. apply H', elem_of_cons. by right.
Qed.
Lemma sorted_none (d : Outbound → Z) lim x l : Forall (λ y, d x ≤ d y) l → ¬ d x ≤ lim → filter (λ o, d o ≤ lim) l = [].
Proof. intros Hx Hd. apply filter_none. intros o Ho Hle. rewrite Forall_forall in Hx. specialize (Hx o Ho). cbn in Hx. lia. Qed.

(** In a sorted list the acceptable outbounds are a prefix. *)
Lemma sorted_filter (d : Outbound → Z) lim l : sorted_by d l → filter (λ o, d o ≤ lim) l = take (length (filter (λ o, d o ≤ lim) l)) l.
Proof.
  induction 1 as [|x l Hl IH Hx]; [done|]. rewrite filter_cons. case_decide as Hd; [cbn; by rewrite <- IH|].
  by rewrite (sorted_none d lim x).
Qed.

Lemma last_acceptable_sorted d lim l i acc : sorted_by d l →
  last_acceptable i acc lim d l = if bool_decide (filter (λ o, d o ≤ lim) l = []) then acc else i + Z.of_nat (length (filter (λ o, d o ≤ lim) l)) - 1.
Proof.
  intros Hs. revert i acc. induction Hs as [|x l Hl IH Hx]; intros i acc; [done|]. cbn [last_acceptable]. rewrite IH, filter_cons.
  destruct (decide (d x ≤ lim)) as [Hd|Hd].
  - rewrite (bool_decide_eq_false_2 (x :: _ = [])) by done. cbn [length]. case_bool_decide as He; [|lia].
    rewrite He, bool_true_if by lia. cbn. lia.
  - rewrite (sorted_none d lim x) by done. rewrite bool_decide_eq_true_2 by done. rewrite bool_false_if by lia. done.
Qed.

(** ** Round robin *)

Definition rr_ok (outs : list Outbound) (s : RoundRobin) : Prop :=
  rr_outbounds s = convertOutbounds outs ∧ ∀ net,
    at_net net (rr_sorted s) ≡ₚ at_net net (convertOutbounds outs) ∧
    0 ≤ at_net net (rr_maxIndex s) < Z.of_nat (length (at_net net (rr_sorted s))) ∧ 0 ≤ at_net net (rr_idx s).

Lemma at_map {A B} net (f : A → B) m : at_net net (map_net f m) = f (at_net net m).
Proof. unfold at_net. by case_bool_decide. Qed.
Lemma at_mk {A} net (a : A) : at_net net (mkNet a a) = a.
Proof. unfold at_net. by case_bool_decide. Qed.
Lemma at_set {A} net net' (a : A) m : at_net net' (set_net net a m) = if bool_decide ((net = NetworkUDP) ↔ (net' = NetworkUDP)) then a else at_net net' m.
Proof. unfold at_net, set_net. repeat case_bool_decide; naive_solver. Qed.
Lemma at_convert net outs : at_net (normal_net net) (convertOutbounds outs) = filterOutbounds outs (normal_net net).
Proof. unfold at_net, normal_net, convertOutbounds. repeat case_bool_decide; naive_solver. Qed.
Lemma filter_nonempty outs net : outs ≠ [] → filterOutbounds outs net ≠ [].
Proof. intros H. unfold filterOutbounds. by case_bool_decide. Qed.
Lemma convert_nonempty outs net : outs ≠ [] → at_net net (convertOutbounds outs) ≠ [].
Proof. intros H. unfold at_net, convertOutbounds. case_bool_decide; by apply filter_nonempty. Qed.
Lemma nonempty_length {A} (l : list A) : l ≠ [] → 0 < Z.of_nat (length l).
Proof. destruct l; cbn; [done|lia]. Qed.

Lemma rr_new_ok outs o : outs ≠ [] → rr_ok outs (NewRoundRobin outs o).
Proof.
  intros Hne. split; [done|]. intros net. unfold NewRoundRobin. cbn [rr_sorted rr_maxIndex rr_idx]. rewrite at_map, at_mk.
  pose proof (nonempty_length _ (convert_nonempty outs net Hne)). split_and!; [done|lia|lia|lia].
Qed.

Lemma getAcceptableIndex_at sorted h ratio : (∀ net, at_net net sorted ≠ []) →
  ∃ ix, getAcceptableIndex sorted h ratio = Some ix ∧ ∀ net, acceptable_index h ratio (at_net net sorted) = Some (at_net net ix).
Proof.
  intros Hne. pose proof (Hne NetworkTCP) as Ht. pose proof (Hne NetworkUDP) as Hu. cbn in Ht, Hu.
  unfold getAcceptableIndex, acceptable_index. destruct (tcp sorted) as [|a l] eqn:El; [done|]. destruct (udp sorted) as [|b k] eqn:Ek; [done|].
  eexists. split; [reflexivity|]. intros net. unfold at_net. case_bool_decide; by rewrite ?El, ?Ek.
Qed.

Lemma last_acceptable_range d lim l i acc : 0 ≤ acc < i + Z.of_nat (length l) → 0 ≤ i → 0 ≤ last_acceptable i acc lim d l < i + Z.of_nat (length l).
Proof.
  revert i acc. induction l as [|x l IH]; intros i acc Ha Hi; cbn [last_acceptable length] in *; [lia|].
  pose proof (IH (i + 1) (if d x <=? lim then i else acc)). destruct (d x <=? lim); lia.
Qed.

Lemma acceptable_index_range h ratio l z : acceptable_index h ratio l = Some z → 0 ≤ z < Z.of_nat (length l).
Proof.
  unfold acceptable_index. destruct l as [|a l]; [done|]. intros E. apply (inj Some) in E. rewrite <- E. apply last_acceptable_range; cbn; lia.
Qed.

Lemma rr_update_ok outs h s : outs ≠ [] → rr_ok outs s → ∃ c s', rr_update h s = Some (c, s') ∧ rr_ok outs s' ∧
  rr_idx s' = rr_idx s ∧ rr_ratio s' = rr_ratio s ∧ rr_sorted s' = sortOutboundsByDelay (convertOutbounds outs) h ∧
  ∀ net, acceptable_index h (rr_ratio s) (at_net net (rr_sorted s')) = Some (at_net net (rr_maxIndex s')).
Proof.
  intros Hne [Ho Hs]. unfold rr_update. rewrite Ho. set (sorted := sortOutboundsByDelay _ _).
  assert (∀ net, at_net net sorted ≡ₚ at_net net (convertOutbounds outs)) as Hp by (intros net; unfold sorted, sortOutboundsByDelay; rewrite at_map; apply sort_perm).
  assert (∀ net, at_net net sorted ≠ []) as Hsn by (intros net E; apply (convert_nonempty outs net Hne), Permutation_nil; by rewrite <- E, Hp).
  destruct (getAcceptableIndex_at sorted h (rr_ratio s) Hsn) as (ix & -> & Hix).
  eexists _, _. split; [reflexivity|]. split_and!; [|done|done|done|done].
  split; [done|]. intros net. cbn [rr_sorted rr_maxIndex rr_idx]. split; [apply Hp|]. split; [|apply Hs].
  by eapply acceptable_index_range, Hix.
Qed.

Lemma index_in l i : 0 ≤ i < Z.of_nat (length l) → ∃ o, index l i = SOut o ∧ l !! Z.to_nat i = Some o.
Proof.
  intros Hi. unfold index. rewrite bool_false_if by lia. destruct (lookup_lt_is_Some_2 l (Z.to_nat i)) as [o Ho]; [lia|].
  rewrite Ho. by exists o.
Qed.

Definition rr_turn_id (net : string) (s : RoundRobin) : Z := (at_net net (rr_idx s) + 1) mod (at_net net (rr_maxIndex s) + 1).
Lemma rr_select_ok outs net touch s : rr_ok outs s → let n := normal_net net in ∃ o s',
  rr_select net touch s = (SOut o, s') ∧ at_net n (rr_sorted s) !! Z.to_nat (rr_turn_id n s) = Some o ∧ rr_ok outs s' ∧
  rr_sorted s' = rr_sorted s ∧ rr_maxIndex s' = rr_maxIndex s ∧ (touch = true → at_net n (rr_idx s') = rr_turn_id n s).
Proof.
  intros [Ho Hs]. cbn zeta. set (n := normal_net net).
  destruct (Hs n) as (Hp & Hm & Hi). unfold rr_select. fold n. rewrite bool_false_if by lia. rewrite Z.rem_mod_nonneg by lia. fold (rr_turn_id n s).
  assert (0 ≤ rr_turn_id n s < at_net n (rr_maxIndex s) + 1) as Hid by (apply Z.mod_pos_bound; lia).
  destruct (index_in (at_net n (rr_sorted s)) (rr_turn_id n s)) as (o & -> & Hl); [lia|].
  exists o. eexists. split; [reflexivity|]. split; [done|]. destruct touch; [|split_and!; [by split|done|done|done]].
  split_and!; [|done|done|].
  - split; [done|]. intros net'. cbn [rr_sorted rr_maxIndex rr_idx]. destruct (Hs net') as (? & ? & ?). rewrite at_set. split_and!; [done|lia|lia|].
    case_bool_decide; lia.
  - intros _. cbn [rr_idx]. rewrite at_set. by rewrite bool_decide_eq_true_2.
Qed.

(** Successive connections of one network. *)
Fixpoint turns (k : nat) (net : string) (s : RoundRobin) : list selected :=
  match k with O => [] | S k => let '(x, s') := rr_select net true s in x :: turns k net s' end.

Lemma turns_ids outs k net s : rr_ok outs s → let n := normal_net net in
  turns k net s = (λ i : nat, index (at_net n (rr_sorted s)) ((at_net n (rr_idx s) + 1 + Z.of_nat i) mod (at_net n (rr_maxIndex s) + 1))) <$> seq 0 k.
Proof.
  cbn zeta. revert s. induction k as [|k IH]; intros s Hs; [done|]. cbn [turns seq]. rewrite fmap_cons.
  destruct (rr_select_ok outs net true s Hs) as (o & s' & -> & Ho & Hs' & Es & Em & Ei). specialize (Ei eq_refl). set (n := normal_net net) in *.
  destruct Hs as [_ Hs]. destruct (Hs n) as (_ & Hm & Hi). f_equal.
  - rewrite Z.add_0_r. fold (rr_turn_id n s).
    assert (0 ≤ rr_turn_id n s < at_net n (rr_maxIndex s) + 1) as Hid by (apply Z.mod_pos_bound; lia).
    destruct (index_in (at_net n (rr_sorted s)) (rr_turn_id n s)) as (o' & -> & Hl); [lia|]. congruence.
  - rewrite IH by done. rewrite Es, Em, Ei. rewrite <- fmap_S_seq, <- list_fmap_compose. apply list_fmap_ext. intros _ i _. cbn. f_equal.
    unfold rr_turn_id. rewrite <- Z.add_assoc, Zplus_mod_idemp_l. f_equal. lia.
Qed.

Lemma rotated_seq a n : (a < n)%nat → (λ i : nat, Z.of_nat ((a + i) mod n)) <$> seq 0 n = Z.of_nat <$> seq a (n - a) ++ seq 0 a.
Proof.
  intros Ha. apply list_eq. intros i. rewrite !list_lookup_fmap. destruct (decide (i < n)%nat) as [Hi|Hi].
  - rewrite lookup_seq_lt by done. cbn. destruct (decide (i < n - a)%nat).
    + rewrite lookup_app_l by (rewrite length_seq; lia). rewrite lookup_seq_lt by done. cbn. rewrite Nat.mod_small by lia. done.
    + rewrite lookup_app_r by (rewrite length_seq; lia). rewrite length_seq, lookup_seq_lt by lia. cbn. do 2 f_equal.
      replace (a + i)%nat with (a + i - n + 1 * n)%nat by lia. rewrite Nat.Div0.mod_add, Nat.mod_small by lia. lia.
  - rewrite lookup_seq_ge by lia. rewrite lookup_ge_None_2; [done|]. rewrite length_app, !length_seq. lia.
Qed.

Lemma indexes_take l n : (n ≤ length l)%nat → (λ i : nat, index l (Z.of_nat i)) <$> seq 0 n = SOut <$> take n l.
Proof.
  intros Hn. apply list_eq. intros i. rewrite !list_lookup_fmap. destruct (decide (i < n)%nat) as [Hi|Hi].
  - rewrite lookup_seq_lt by done. cbn. rewrite lookup_take_lt by done. destruct (index_in l (Z.of_nat i)) as (o & -> & Ho); [lia|].
    rewrite Nat2Z.id in Ho. by rewrite Ho.
  - rewrite lookup_seq_ge by lia. rewrite lookup_ge_None_2; [done|]. rewrite length_take. lia.
Qed.

(** A round of turns goes once through the acceptable prefix. *)
Lemma round_permutes outs net s : rr_ok outs s → let n := normal_net net in let k := Z.to_nat (at_net n (rr_maxIndex s) + 1) in
  turns k net s ≡ₚ SOut <$> take k (at_net n (rr_sorted s)).
Proof.
  intros Hs. cbn zeta. set (n := normal_net net). rewrite (turns_ids outs) by done. fold n. destruct Hs as [_ Hs]. destruct (Hs n) as (_ & Hm & Hi).
  set (m := at_net n (rr_maxIndex s)) in *. set (k := Z.to_nat (m + 1)). set (a := Z.to_nat ((at_net n (rr_idx s) + 1) mod (m + 1))).
  assert (Z.of_nat k = m + 1) as Hk by lia. assert (a < k)%nat as Ha by (unfold a; pose proof (Z.mod_pos_bound (at_net n (rr_idx s) + 1) (m + 1)); lia).
  assert ((λ i : nat, index (at_net n (rr_sorted s)) ((at_net n (rr_idx s) + 1 + Z.of_nat i) mod (m + 1))) <$> seq 0 k
    = index (at_net n (rr_sorted s)) <$> (Z.of_nat <$> seq a (k - a) ++ seq 0 a)) as ->.
  { rewrite <- rotated_seq, <- list_fmap_compose by done. apply list_fmap_ext. intros _ i _. cbn. f_equal.
    rewrite Nat2Z.inj_mod, Nat2Z.inj_add, Hk. unfold a. rewrite Z2Nat.id by (apply Z.mod_pos_bound; lia). by rewrite Zplus_mod_idemp_l. }
  rewrite (Permutation_app_comm (seq a (k - a)) (seq 0 a)). replace (seq a (k - a)) with (seq (0 + a) (k - a)) by done. rewrite <- seq_app.
  replace (a + (k - a))%nat with k by lia. rewrite <- list_fmap_compose. rewrite <- indexes_take by lia. done.
Qed.

(** The states of a round robin over [outs]. *)
Inductive rr_reached (outs : list Outbound) (o : BalancerOutboundOptions) : RoundRobin → Prop :=
| rr_start : rr_reached outs o (NewRoundRobin outs o)
| rr_report s h c s' : rr_reached outs o s → rr_update h s = Some (c, s') → rr_reached outs o s'
| rr_request s net touch x s' : rr_reached outs o s → rr_select net touch s = (x, s') → rr_reached outs o s'.

Lemma rr_reached_ok outs o s : outs ≠ [] → rr_reached outs o s → rr_ok outs s.
Proof.
  intros Hne. induction 1 as [|s h c s' _ IH Hu|s net touch x s' _ IH Hs].
  - by apply rr_new_ok.
  - destruct (rr_update_ok outs h s Hne IH) as (c' & s1 & E & Hok & _). congruence.
  - destruct (rr_select_ok outs net touch s IH) as (o1 & s1 & E & _ & Hok & _). congruence.
Qed.


(** ** Lowest delay *)

(** Delays are of 16 bits. *)
Definition history_ok (h : histories) : Prop := ∀ tag his, h !! tag = Some (Some his) → 0 ≤ h_Delay his < 2 ^ 16.

Lemma getTagDelay_range h tag : history_ok h → 0 ≤ getTagDelay tag h ≤ TimeoutDelay.
Proof.
  intros Hh. unfold getTagDelay, TimeoutDelay. destruct (h !! tag) as [[his|]|] eqn:E; [|lia|lia]. apply Hh in E.
  unfold getModifiedDelay, TimeoutDelay. destruct (h_Delay his =? 0); cbn zeta; [by rewrite andb_false_r|].
  destruct (h_IsFromCache his && _) eqn:Ec; [|lia]. rewrite wrap_small by lia. lia.
Qed.

Lemma min_fold h l acc : let d o := getTagDelay (out_Tag o) h in
  let r := fold_left (λ acc out, if d out <=? acc.2 then (Some out, d out) else acc) l acc in
  r.2 ≤ acc.2 ∧ (∀ o, o ∈ l → r.2 ≤ d o) ∧ ((r = acc ∧ ∀ o, o ∈ l → acc.2 < d o) ∨ ∃ o, o ∈ l ∧ r = (Some o, d o)).
Proof.
  intros d. cbn zeta. revert acc. induction l as [|x l IH]; intros acc; cbn [fold_left].
  - split; [lia|]. split; [by intros o ?%elem_of_nil|]. left. split; [done|by intros o ?%elem_of_nil].
  - destruct (IH (if d x <=? acc.2 then (Some x, d x) else acc)) as (H1 & H2 & H3). set (r := fold_left _ _ _) in *.
    split_and!; [destruct (d x <=? acc.2) eqn:E; cbn in H1; lia| |].
    + intros o. rewrite elem_of_cons. intros [->|Ho]; [|by apply H2]. destruct (d x <=? acc.2) eqn:E; cbn in H1; lia.
    + destruct H3 as [[E Hn]|(o & Ho & E)]; [|right; exists o; rewrite elem_of_cons; auto].
      destruct (d x <=? acc.2) eqn:Ex; [right; exists x; split; [by apply elem_of_cons; left|done]|].
      left. split; [done|]. intros o. rewrite elem_of_cons. intros [->|Ho]; [lia|by apply Hn].
Qed.

Lemma min_delay_spec h l : history_ok h → l ≠ [] → ∃ o, o ∈ l ∧ min_delay h l = (Some o, getTagDelay (out_Tag o) h) ∧
  ∀ o', o' ∈ l → getTagDelay (out_Tag o) h ≤ getTagDelay (out_Tag o') h.
Proof.
  intros Hh Hl. destruct (min_fold h l (None, TimeoutDelay)) as (_ & H2 & H3). cbn zeta in *. fold (min_delay h l) in H2, H3.
  destruct H3 as [[_ Hn]|(o & Ho & E)].
  - destruct l as [|x l]; [done|]. pose proof (Hn x ltac:(by apply elem_of_cons; left)) as Hx. cbn in Hx.
    pose proof (getTagDelay_range h (out_Tag x) Hh). lia.
  - exists o. rewrite E in H2. by split_and!.
Qed.

Definition ld_ok (outs : list Outbound) (s : LowestDelay) : Prop :=
  ld_outbounds s = convertOutbounds outs ∧
  (∀ net, ∃ o, at_net net (ld_selected s) = Some o ∧ o ∈ at_net net (convertOutbounds outs)).

Lemma ld_new_ok outs o : outs ≠ [] → ∃ s, NewLowestDelay outs o = Some s ∧ ld_ok outs s.
Proof.
  intros Hne. unfold NewLowestDelay. pose proof (convert_nonempty outs NetworkTCP Hne) as Ht. pose proof (convert_nonempty outs NetworkUDP Hne) as Hu.
  cbn in Ht, Hu. unfold ld_ok, at_net. destruct (convertOutbounds outs) as [t u]. cbn in *. destruct t as [|a t]; [done|]. destruct u as [|b u]; [done|].
  eexists. split; [reflexivity|]. split; [done|]. intros net. cbn. case_bool_decide; eexists; (split; [done|]); apply elem_of_cons; by left.
Qed.

(** The outbound in use after a report has the smallest delay. *)
Lemma ld_update_ok outs h s : outs ≠ [] → history_ok h → ld_ok outs s → ∃ c s', ld_update h s = Some (c, s') ∧ ld_ok outs s' ∧
  ∀ net, ∃ o, at_net net (ld_selected s') = Some o ∧
    ∀ o', o' ∈ at_net net (convertOutbounds outs) → getTagDelay (out_Tag o) h ≤ getTagDelay (out_Tag o') h.
Proof.
  intros Hne Hh [Ho Hs]. unfold ld_update. rewrite Ho. set (m := (getMinDelay _ _).1).
  assert (∀ net, ∃ o, at_net net m = Some o ∧ o ∈ at_net net (convertOutbounds outs) ∧
    ∀ o', o' ∈ at_net net (convertOutbounds outs) → getTagDelay (out_Tag o) h ≤ getTagDelay (out_Tag o') h) as Hm.
  { intros net. destruct (min_delay_spec h (at_net net (convertOutbounds outs)) Hh (convert_nonempty outs net Hne)) as (o & Hin & E & Hmin).
    exists o. unfold m, getMinDelay. cbn [fst]. by rewrite !at_map, E. }
  destruct (Hm NetworkTCP) as (a & Ea & _), (Hm NetworkUDP) as (b & Eb & _), (Hs NetworkTCP) as (a' & Ea' & _), (Hs NetworkUDP) as (b' & Eb' & _).
  change (at_net NetworkTCP ?x) with (tcp x) in *. change (at_net NetworkUDP ?x) with (udp x) in *. unfold tag_differs.
  rewrite Ea, Eb, Ea', Eb'. eexists _, _. split; [reflexivity|]. split.
  - split; [done|]. intros net. destruct (Hm net) as (o & E & Hin & _). by exists o.
  - intros net. destruct (Hm net) as (o & E & _ & Hmin). by exists o.
Qed.

(** ** Hashing *)

Definition ch_ok (outs : list Outbound) (s : Hashing) : Prop := ch_outbounds s = convertOutbounds outs.

Lemma convert_length outs net : (length (at_net net (convertOutbounds outs)) ≤ length outs)%nat.
Proof. unfold at_net, convertOutbounds, filterOutbounds. repeat case_bool_decide; cbn; try done; apply length_filter. Qed.

Section Hash.
Variable outs : list Outbound.
Hypothesis Hne : outs ≠ [].
Hypothesis Hsmall : Z.of_nat (length outs) < 2 ^ 31.

Lemma jump_index key net : ∃ i, jumpHash key (Z.of_nat (length (at_net net (convertOutbounds outs)))) = Some i ∧
  0 ≤ i < Z.of_nat (length (at_net net (convertOutbounds outs))).
Proof.
  apply jump_ok. pose proof (nonempty_length _ (convert_nonempty outs net Hne)). pose proof (convert_length outs net). lia.
Qed.

Lemma hashed_ok s net key : ch_ok outs s → ∃ o, hashed s net key = SOut o ∧ o ∈ at_net net (convertOutbounds outs).
Proof.
  intros E. unfold hashed. rewrite E. destruct (jump_index key net) as (i & -> & Hi). destruct (index_in _ _ Hi) as (o & -> & Ho).
  exists o. split; [done|]. by eapply list_elem_of_lookup_2.
Qed.

Lemma ch_retry_ok n s net key : ch_ok outs s →
  (∃ o, ch_retry n s net key = TFound (SOut o) ∧ Alive s net o = true ∧ o ∈ at_net net (convertOutbounds outs)) ∨ ∃ key', ch_retry n s net key = TNone key'.
Proof.
  intros Hs. revert key. induction n as [|n IH]; intros key; cbn [ch_retry]; [right; by eexists|].
  destruct (hashed_ok s net key Hs) as (o & -> & Ho). destruct (Alive s net o) eqn:E; [left; by exists o|apply IH].
Qed.

(** Consistent hashing uses an outbound that is alive whenever there is one. *)
Lemma ch_select_ok s net key : ch_ok outs s → let n := normal_net net in
  ∃ o, ch_select net key s = SOut o ∧ o ∈ at_net n (convertOutbounds outs) ∧
    ((∃ o', o' ∈ at_net n (convertOutbounds outs) ∧ Alive s n o' = true) → Alive s n o = true).
Proof.
  intros Hs. cbn zeta. set (n := normal_net net). unfold ch_select. fold n.
  destruct (ch_retry_ok (Z.to_nat (ch_maxRetry s)) s n key Hs) as [(o & -> & Ha & Ho)|(key' & ->)]; [by exists o|].
  rewrite Hs. destruct (List.find (Alive s n) (at_net n (convertOutbounds outs))) as [o|] eqn:Ef.
  - apply List.find_some in Ef as [Ho%list_elem_of_In Ha]. by exists o.
  - destruct (hashed_ok s n key' Hs) as (o & -> & Ho). exists o. split_and!; [done|done|]. intros (o' & Ho'%list_elem_of_In & Ha).
    by rewrite (List.find_none _ _ Ef o' Ho') in Ha.
Qed.

Lemma ss_retry_ok k i s net r idx : ch_ok outs s → 0 ≤ idx < Z.of_nat (length (at_net net (convertOutbounds outs))) →
  0 ≤ (ss_retry k i s net r idx).1.1 < Z.of_nat (length (at_net net (convertOutbounds outs))).
Proof.
  intros Hs. revert i idx. induction k as [|k IH]; intros i idx Hi; cbn [ss_retry]; [done|].
  destruct (index _ idx) as [| |o]; [done|done|]. destruct (Alive s net o); [done|]. apply IH. rewrite Hs.
  destruct (jump_index (wrap 64 (r_srckey r + wrap 64 (r_clock r i))) net) as (j & -> & Hj). done.
Qed.

Lemma ss_select_ok s r : ch_ok outs s → (∀ i, r_cached r = Some i → 0 ≤ i) →
  ∃ o a, ss_select r s = (SOut o, a) ∧ o ∈ at_net (normal_net (r_net r)) (convertOutbounds outs) ∧ (∀ i, a = Some i → 0 ≤ i).
Proof.
  intros Hs Hc. unfold ss_select. set (n := normal_net (r_net r)). rewrite Hs.
  set (cached := match r_cached r with Some idx => _ | None => None end).
  set (start := match cached with Some idx => _ | None => _ end).
  assert (0 ≤ start.1 < Z.of_nat (length (at_net n (convertOutbounds outs)))) as Hstart.
  { unfold start. destruct cached as [i|] eqn:Ec.
    - unfold cached in Ec. destruct (r_cached r) as [i'|]; [|done]. destruct (i' <? _) eqn:El; [|done]. injection Ec as ->. cbn. specialize (Hc _ eq_refl). lia.
    - destruct (jump_index (wrap 64 (r_srckey r + wrap 64 (r_clock r 0))) n) as (j & -> & Hj). done. }
  destruct start as [idx i]. cbn [fst] in Hstart. pose proof (ss_retry_ok (Z.to_nat (ch_maxRetry s - 1)) i s n r idx Hs Hstart) as Hn.
  destruct (ss_retry _ _ _ _ _ _) as [[nowIdx alive] j]. cbn [fst] in Hn. destruct (index_in _ _ Hn) as (o & -> & Ho).
  eexists o, _. split; [reflexivity|]. split; [by eapply list_elem_of_lookup_2|]. intros z. destruct (_ && _); [done|]. intros [= <-]. lia.
Qed.

(** ** What a strategy promises the group

    A report or a request never panics, a request gets a member of the group that
    serves its network, and only indexes that are not negative reach the cache. *)
Definition request_ok (r : request) : Prop := ∀ i, r_cached r = Some i → 0 ≤ i.
Class StrategyLaws (S : Type) `{Strategy S} := {
  st_ok : S → Prop;
  update_law : ∀ h s, history_ok h → st_ok s → ∃ c s', UpdateOutboundsInfo h s = Some (c, s') ∧ st_ok s';
  select_law : ∀ r touch s, request_ok r → st_ok s → ∃ o s' a, Select r touch s = (SOut o, s', a) ∧ st_ok s' ∧
    o ∈ filterOutbounds outs (normal_net (r_net r)) ∧ ∀ i, a = Some i → 0 ≤ i }.

#[local] Instance RoundRobin_Laws : StrategyLaws RoundRobin.
Proof.
  refine {| st_ok := rr_ok outs |}.
  - intros h s _ Hs. destruct (rr_update_ok outs h s Hne Hs) as (c & s' & E & Hok & _). by exists c, s'.
  - intros r touch s _ Hs. destruct (rr_select_ok outs (r_net r) touch s Hs) as (o & s' & E & Ho & Hok & _).
    exists o, s', None. cbn [Select RoundRobin_Strategy]. rewrite E. split_and!; [done|done| |done].
    apply list_elem_of_lookup_2 in Ho. rewrite <- at_convert. destruct Hs as [_ Hs]. destruct (Hs (normal_net (r_net r))) as [Hp _]. by rewrite <- Hp.
Defined.

#[local] Instance LowestDelay_Laws : StrategyLaws LowestDelay.
Proof.
  refine {| st_ok := ld_ok outs |}.
  - intros h s Hh Hs. destruct (ld_update_ok outs h s Hne Hh Hs) as (c & s' & E & Hok & _). by exists c, s'.
  - intros r touch s _ Hs. pose proof Hs as [_ Hsel]. destruct (Hsel (normal_net (r_net r))) as (o & E & Ho). exists o, s, None.
    cbn [Select LowestDelay_Strategy]. unfold ld_select. rewrite E. rewrite at_convert in Ho. by split_and!.
Defined.

#[local] Instance ConsistentHashing_Laws : StrategyLaws ConsistentHashing.
Proof.
  refine {| st_ok := λ s, ch_ok outs (ch_fields s) |}.
  - intros h s _ Hs. by eexists _, _.
  - intros r touch s _ Hs. destruct (ch_select_ok (ch_fields s) (r_net r) (r_key r) Hs) as (o & E & Ho & _). exists o, s, None.
    cbn [Select ConsistentHashing_Strategy]. rewrite E. rewrite at_convert in Ho. by split_and!.
Defined.

#[local] Instance StickySession_Laws : StrategyLaws StickySession.
Proof.
  refine {| st_ok := λ s, ch_ok outs (ss_fields s) |}.
  - intros h s _ Hs. by eexists _, _.
  - intros r touch s Hr Hs. destruct (ss_select_ok (ss_fields s) r Hs Hr) as (o & a & E & Ho & Ha). exists o, s, a.
    cbn [Select StickySession_Strategy]. rewrite E. rewrite at_convert in Ho. by split_and!.
Defined.

#[local] Instance strategy_Laws : StrategyLaws strategy.
Proof.
  refine {| st_ok := λ s, match s with SRoundRobin s => st_ok s | SConsistentHashing s => st_ok s | SStickySession s => st_ok s | SLowestDelay s => st_ok s end |}.
  - intros h [s|s|s|s] Hh Hs; cbn [UpdateOutboundsInfo strategy_Strategy];
      destruct (update_law h s Hh Hs) as (c & s' & E & Hok); rewrite E; by eexists _, _.
  - intros r touch [s|s|s|s] Hr Hs; cbn [Select strategy_Strategy];
      destruct (select_law r touch s Hr Hs) as (o & s' & a & E & Hok & Ho & Ha); rewrite E; by eexists _, _, _.
Defined.

Definition event_ok (e : event) : Prop := match e with EReport h => history_ok h | ERequest r => request_ok r end.
Definition requests_of (es : list event) : list request := omap (λ e, match e with ERequest r => Some r | _ => None end) es.

(** Proved against the interface alone. *)
Lemma run_ok {S} `{StrategyLaws S} s es : st_ok s → Forall event_ok es → ∃ rs, run s es = Some rs ∧ rs.*1 = requests_of es ∧
  Forall (λ p, p.2 ∈ filterOutbounds outs (normal_net (r_net p.1))) rs.
Proof.
  intros Hs Hes. revert s Hs. induction Hes as [|e es He _ IH]; intros s Hs; [by exists []|]. destruct e as [h|r]; cbn [run requests_of omap list_omap].
  - destruct (update_law h s He Hs) as (c & s' & -> & Hs'). cbn. by apply IH.
  - destruct (select_law r true s He Hs) as (o & s' & a & -> & Hs' & Ho & _). destruct (IH s' Hs') as (rs & -> & Hr & Hf). cbn.
    exists ((r, o) :: rs). split; [done|]. split; [cbn; by rewrite Hr|]. by constructor.
Qed.

Lemma balancer_start_ok lookup o : resolve lookup 0 (o_Outbounds o) = Ok outs → ∃ r, Start lookup o = Some r ∧ ∀ s, r = Ok s → st_ok s.
Proof.
  intros Hr. unfold Start. rewrite Hr. destruct (ld_new_ok outs o Hne) as (l & -> & Hl).
  repeat case_bool_decide; (eexists; split; [reflexivity|]); intros s [= <-]; [|done|done|done]. by apply rr_new_ok.
Qed.

Lemma filter_member o net : o ∈ filterOutbounds outs net →
  o ∈ outs ∧ ((∃ o', o' ∈ outs ∧ net ∈ out_Network o') → net ∈ out_Network o).
Proof.
  unfold filterOutbounds. case_bool_decide as E.
  - intros Ho. split; [done|]. intros (o' & Ho' & Hn). exfalso. assert (o' ∈ filter (λ out, net ∈ out_Network out) outs) as Hin by (by apply list_elem_of_filter).
    rewrite E in Hin. by apply elem_of_nil in Hin.
  - intros [Hn Ho]%list_elem_of_filter. done.
Qed.

End Hash.

Lemma resolve_length lookup i tags outs : resolve lookup i tags = Ok outs → length outs = length tags.
Proof.
  revert i outs. induction tags as [|tag tags IH]; intros i outs; cbn; [by intros [= <-]|]. destruct (lookup tag); [|done].
  destruct (resolve lookup (i + 1) tags) eqn:E; [|done]. intros [= <-]. cbn. f_equal. by eapply IH.
Qed.

(** C25: whatever its strategy, a group that was made and started serves every
    connection: over every sequence of reports and connections nothing panics, and
    each connection gets a member of the group, one that serves its network if any
    member does.  The proof uses only what the interface promises; each strategy
    discharges it. *)
Theorem balancer_serves_all lookup o outs s es :
  NewLoadBalance o = Ok tt → resolve lookup 0 (o_Outbounds o) = Ok outs → Z.of_nat (length outs) < 2 ^ 31 →
  Start lookup o = Some (Ok s) → Forall event_ok es →
  ∃ rs, run s es = Some rs ∧ rs.*1 = requests_of es ∧
    Forall (λ p, p.2 ∈ outs ∧ let net := normal_net (r_net p.1) in
              (∃ o', o' ∈ outs ∧ net ∈ out_Network o') → net ∈ out_Network p.2) rs.
Proof.
  intros Hnew Hr Hsmall Hst Hes. assert (outs ≠ []) as Hne.
  { intros ->. apply resolve_length in Hr. unfold NewLoadBalance in Hnew. case_bool_decide as E; [done|]. by destruct (o_Outbounds o). }
  destruct (balancer_start_ok outs Hne Hsmall lookup o Hr) as (r & E & Hok). rewrite Hst in E. injection E as <-.
  destruct (run_ok outs s es (Hok s eq_refl) Hes) as (rs & Hrun & Hreq & Hf). exists rs. split_and!; [done|done|].
  eapply Forall_impl; [exact Hf|]. intros p. apply filter_member.
Qed.
End Ratio.

(** ** Witnesses *)

(** Known values of the hash. *)
Example jump_ex : (λ p, jumpHash p.1 p.2) <$> [(1, 1); (42, 57); (0xdead10cc, 1); (0xdead10cc, 666); (256, 1024)] =
  [Some 0; Some 43; Some 0; Some 361; Some 520].
Proof. vm_compute. reflexivity. Qed.

Lemma jumpHash_consistent_witness : ∃ x y, jumpHash 42 56 = Some x ∧ 0 ≤ x < 56 ∧ jumpHash 42 57 = Some y ∧ (y = x ∨ y = 56).
Proof. apply (jumpHash_consistent 42 56). lia. Defined.

Definition ex_outs : list Outbound := [mkOut "a" ["tcp"; "udp"]; mkOut "b" ["tcp"]; mkOut "c" ["tcp"; "udp"]; mkOut "d" ["tcp"]].
Definition ex_lookup (tag : string) : option Outbound := List.find (λ o, bool_decide (out_Tag o = tag)) ex_outs.
Definition ratio_two : float64 := f_of_Z 2.
Definition ex_options (strategy : string) : BalancerOutboundOptions := mkOptions ["a"; "b"; "c"; "d"] strategy ratio_two 3.
(** On amd64 a conversion out of range keeps the low bits. *)
Definition low_bits (f : float64) : Z := u16 (float_trunc f).
Definition ex_history : histories :=
  {["a" := Some (mkHist 90 false); "b" := Some (mkHist 250 false); "c" := Some (mkHist 150 false); "d" := Some (mkHist 0 false)]}.

Example rr_ex : (λ p, turns 4 "tcp" p.2) <$> rr_update low_bits ex_history (NewRoundRobin ex_outs (ex_options "round-robin")) =
  Some (SOut <$> [mkOut "c" ["tcp"; "udp"]; mkOut "a" ["tcp"; "udp"]; mkOut "c" ["tcp"; "udp"]; mkOut "a" ["tcp"; "udp"]]).
Proof. vm_compute. reflexivity. Qed.


Lemma balancer_serves_all_witness : ∃ s rs, Start ex_lookup (ex_options "sticky-sessions") = Some (Ok s) ∧
  run (H := strategy_Strategy low_bits) s [EReport ex_history; ERequest (mkRequest "udp" 7 9 (Some 1) (λ _, 5)); ERequest (mkRequest "tcp" 7 9 None (λ _, 5))] = Some rs.
Proof.
  destruct (Start ex_lookup (ex_options "sticky-sessions")) as [[s|]|] eqn:E; [|vm_compute in E; discriminate E|vm_compute in E; discriminate E].
  destruct (balancer_serves_all low_bits ex_lookup (ex_options "sticky-sessions") ex_outs s
    [EReport ex_history; ERequest (mkRequest "udp" 7 9 (Some 1) (λ _, 5)); ERequest (mkRequest "tcp" 7 9 None (λ _, 5))]
    ltac:(vm_compute; reflexivity) ltac:(vm_compute; reflexivity) ltac:(cbn; lia) E) as (rs & Hrun & _).
  - rewrite !Forall_cons. split_and!; [|intros i [= <-]; lia|intros i [=]|apply Forall_nil_2]. intros tag his H.
    unfold ex_history in H. repeat (apply lookup_insert_Some in H as [[_ [= <-]]|[_ H]]; [cbn; lia|]).
    first [by apply lookup_singleton_Some in H as [_ [= <-]]|by rewrite lookup_empty in H].
  - by exists s, rs.
Defined.

(** An outbound that was never measured, or whose last measurement timed out, has the
    delay zero.  For the order of outbounds it counts as timed out; hashing takes it
    for alive and even prefers it to measured ones. *)
Theorem unmeasured_alive :
  getTagDelay "d" ex_history = TimeoutDelay ∧
  match ch_update low_bits ex_history (NewHashing ex_outs (ex_options "consistent-hashing")) with
  | Some (_, s) => Alive s "tcp" (mkOut "d" ["tcp"]) = true ∧ Alive s "tcp" (mkOut "b" ["tcp"]) = false ∧
      ch_select "tcp" 2 s = SOut (mkOut "d" ["tcp"])
  | None => False
  end.
Proof. vm_compute. repeat split. Qed.

(** The accepted delay is computed in [float64] and converted to [uint16]: when the
    smallest delay times the ratio passes 65535 the conversion is out of range (on
    amd64 it keeps the low bits), the limit falls below the smallest delay, and no
    outbound is acceptable although the slower one is within the ratio. *)
Definition slow_history : histories := {["a" := Some (mkHist 40000 false); "c" := Some (mkHist 41000 false)]}.
Theorem ratio_overflows :
  acceptable_delay low_bits ratio_two 40000 = 14464 ∧
  filter (λ o, getTagDelay (out_Tag o) slow_history ≤ acceptable_delay low_bits ratio_two 40000) ex_outs = [].
Proof. vm_compute. repeat split. Qed.
