(* ===== verification/EgressProbe.v ===== *)
(** * Authenticated egress probes

    [engine/sing-box/common/urltest/protected_session.go],
    [common/urltest/diagnostic_budget.go], [daemon/selected_outbound_probe.go] and
    [v2/hcore/candidate_probe.go]: what a probe of the route to the owned responders
    proves, which outbound it is about, and how the verdict on a candidate profile is
    formed.

    What the network does in a session (the errors of dialing, of the TLS handshake,
    of writing and reading, the answers) and the successive readings of a context's
    error are inputs.  A TLS handshake without an error means a certificate that the
    roots verify for [ServerName], which the code sets to the host of the target. *)

From stdpp Require Import base list strings gmap.
From Stdlib Require Import ZArith Lia.
From S2P Require Import Prelude GoTime UrlTestHistory.

Local Open Scope Z_scope.
Local Open Scope go_scope.
Set Default Goal Selector "!".

(** ** Targets *)

Definition ProtectedProbeURL : string := "https://api.pokrov.space/api/public/authenticated-egress-probe".
Definition ProtectedPayloadURL : string := "https://api.pokrov.space/api/public/egress-probe-64k".
Definition protectedReserveProbeHost : string := "birch.portal-privacy.online".
Definition ProtectedReserveProbeURL : string := "https://" ++ protectedReserveProbeHost ++ "/.well-known/pokrov/egress-probe".
Definition ProtectedReservePayloadURL : string := "https://" ++ protectedReserveProbeHost ++ "/.well-known/pokrov/egress-probe-64k.bin".
Definition ProtectedProbeMarker : string := "pokrov-authenticated-egress-v1".
Definition ProtectedPayloadBytes : Z := 64 * 1024.

Record OwnedProbeTarget := mkTarget { t_Host : string; t_ProbeURL : string; t_PayloadURL : string }.
Definition primary_target : OwnedProbeTarget := mkTarget "api.pokrov.space" ProtectedProbeURL ProtectedPayloadURL.
Definition reserve_target : OwnedProbeTarget := mkTarget protectedReserveProbeHost ProtectedReserveProbeURL ProtectedReservePayloadURL.

(** [ctx.Err()] of an ended context. *)
Inductive cerr := CDeadline | CCanceled.
#[export] Instance cerr_eq_dec : EqDecision cerr.
Proof. solve_decision. Defined.
Definition ctx_error (c : cerr) : goerr := match c with CDeadline => [NDeadline] | CCanceled => [NCanceled] end.

Definition is_node (n : err_node) (e : goerr) : bool := bool_decide (n ∈ e).
Definition is_certificate (n : err_node) : bool := match n with NCertificate => true | _ => false end.
Fixpoint as_errno (e : goerr) : option Z := match e with [] => None | NErrno c _ :: _ => Some c | _ :: e => as_errno e end.
(** [errors.Is(err, context.DeadlineExceeded)] or a [net.Error] that timed out. *)
Definition timed_out (e : goerr) : bool := is_node NDeadline e || default false (as_net_timeout e).

(** ** Diagnostics *)

Record ProbeFailure := mkFailure {
  pf_Operation : string; pf_Cause : string; pf_Context : string; pf_Target : string; pf_Request : string; pf_Status : Z; pf_OSErrorCode : Z }.
(** The zero value. *)
Definition no_failure : ProbeFailure := mkFailure "" "" "" "" "" 0 0.

Definition target_of (endpoint : string) : string :=
  if bool_decide (endpoint = ProtectedProbeURL) || bool_decide (endpoint = ProtectedPayloadURL) then "owned_api"
  else if bool_decide (endpoint = ProtectedReserveProbeURL) || bool_decide (endpoint = ProtectedReservePayloadURL) then "owned_reserve" else "".
Definition request_of (endpoint : string) : string :=
  if bool_decide (endpoint = ProtectedProbeURL) || bool_decide (endpoint = ProtectedReserveProbeURL) then "egress_204"
  else if bool_decide (endpoint = ProtectedPayloadURL) || bool_decide (endpoint = ProtectedReservePayloadURL) then "egress_64k" else "".
Definition cause_of (operation : string) (e : goerr) : string :=
  if timed_out e then "timeout"
  else if is_node NCanceled e then "cancelled"
  else if is_node NUnexpectedEOF e then "unexpected_eof"
  else if is_node NEOF e then "eof"
  else if is_node NClosed e || is_node NClosedPipe e then "closed"
  else if existsb is_dns e then "dns"
  else if existsb is_certificate e then "tls_certificate"
  else if bool_decide (operation = "validate_response") then "invalid_response"
  else "io".
(** The times of a failure are left out. *)
Definition Capture (ctx : option cerr) (operation endpoint : string) (e : goerr) (status : Z) : ProbeFailure :=
  mkFailure operation (cause_of operation e)
    (match ctx with Some CDeadline => "deadline" | Some CCanceled => "cancelled" | None => "active" end)
    (target_of endpoint) (request_of endpoint) status (default 0 (as_errno e)).

Record HTTP64KObservation := mkObservation { ob_Target : string; ob_Status : Z; ob_ReceivedBytes : Z; ob_ExpectedBytes : Z }.
Record HTTP64KDiagnostic := mkDiagnostic { dg_Failure : string; dg_Observation : option HTTP64KObservation }.
Definition no_diagnostic : HTTP64KDiagnostic := mkDiagnostic "" None.

(** ** One session with a target *)

Record response := mkResponse { rs_StatusCode : Z; rs_Marker : string; rs_ContentLength : Z; rs_Encoding : string }.
(** Of the payload: the bytes that arrived, and the error of [io.CopyN] if they are
    fewer.  [ss_ctx]: the readings of [ctx.Err()], [ss_elapsed]: milliseconds since the
    session began. *)
Record session := mkSession {
  ss_dial : option goerr; ss_tls : option goerr;
  ss_write204 : option goerr; ss_read204 : result goerr response;
  ss_write64 : option goerr; ss_read64 : result goerr response; ss_body : Z * option goerr;
  ss_ctx : nat → option cerr; ss_elapsed : Z }.

Definition probeIOFailureKind (e : goerr) : string := if timed_out e then "timeout" else "probe_failed".

Definition errOwnedProbeResponseInvalid : goerr := [NOwnedInvalid].
Definition valid_204 (r : response) : bool := (rs_StatusCode r =? 204) && bool_decide (rs_Marker r = ProtectedProbeMarker).
Definition valid_64k (r : response) : bool :=
  (rs_StatusCode r =? 200) && bool_decide (rs_Marker r = ProtectedProbeMarker) && (rs_ContentLength r =? ProtectedPayloadBytes) &&
  bool_decide (rs_Encoding r = "").

(** The kind (empty: no failure), the error and the diagnostic. *)
Definition ProbeGET204 (s : session) (endpoint : string) : string * goerr * ProbeFailure :=
  match ss_write204 s with
  | Some e => ("probe_failed", e, Capture (ss_ctx s 0) "write" endpoint e 0)
  | None =>
      match ss_read204 s with
      | Err e => ("probe_failed", e, Capture (ss_ctx s 0) "read_headers" endpoint e 0)
      | Ok r =>
          if valid_204 r then ("", [], no_failure)
          else ("unexpected_status", errOwnedProbeResponseInvalid,
                Capture (ss_ctx s 0) "validate_response" endpoint errOwnedProbeResponseInvalid (rs_StatusCode r))
      end
  end.

Definition http64k_failure (kind reason : string) : HTTP64KDiagnostic :=
  mkDiagnostic (if bool_decide (kind = "probe_failed") then reason else "") None.
Definition ProbeGET64K (s : session) (endpoint : string) : string * goerr * ProbeFailure * HTTP64KDiagnostic :=
  match ss_write64 s with
  | Some e => let kind := probeIOFailureKind e in (kind, e, Capture (ss_ctx s 1) "write" endpoint e 0, http64k_failure kind "write_error")
  | None =>
      match ss_read64 s with
      | Err e => let kind := probeIOFailureKind e in (kind, e, Capture (ss_ctx s 1) "read_headers" endpoint e 0, http64k_failure kind "header_error")
      | Ok r =>
          if negb (valid_64k r) then
            ("unexpected_status", errOwnedProbeResponseInvalid,
             Capture (ss_ctx s 1) "validate_response" endpoint errOwnedProbeResponseInvalid (rs_StatusCode r), no_diagnostic)
          else match ss_body s with
               | (n, Some e) =>
                   let f := Capture (ss_ctx s 1) "read_body" endpoint e (rs_StatusCode r) in
                   let target := if bool_decide (endpoint = ProtectedPayloadURL) then "owned_api"
                                 else if bool_decide (endpoint = ProtectedReservePayloadURL) then "owned_reserve" else "" in
                   let ob := if bool_decide (target = "") then None else Some (mkObservation target (rs_StatusCode r) n ProtectedPayloadBytes) in
                   if bool_decide (ss_ctx s 2 = Some CDeadline) then ("data_stalled", ctx_error CDeadline, f, mkDiagnostic "" ob)
                   else if bool_decide (probeIOFailureKind e = "timeout") then ("data_stalled", e, f, mkDiagnostic "" ob)
                   else if is_node NEOF e || is_node NUnexpectedEOF e then ("probe_failed", e, f, mkDiagnostic "body_short" ob)
                   else ("probe_failed", e, f, mkDiagnostic "body_read_error" ob)
               | (_, None) => ("", [], no_failure, no_diagnostic)
               end
      end
  end.

(** [protectedURLTestAt]: the delay in milliseconds, or an error of a stage. *)
Definition protectedURLTestAt (s : session) (target : OwnedProbeTarget) : result goerr Z :=
  match ss_dial s with
  | Some e => Err (NProbe StageConnect :: e)
  | None =>
      match ss_tls s with
      | Some e => Err (NProbe StageTLS :: e)
      | None =>
          match ProbeGET204 s (t_ProbeURL target) with
          | (""%string, _, _) =>
              match ProbeGET64K s (t_PayloadURL target) with
              | (""%string, _, _, _) =>
                  match ss_ctx s 3 with
                  | Some c => Err (NProbe StageResponse :: ctx_error c)
                  | None => Ok (u16 (Z.max 1 (ss_elapsed s)))
                  end
              | (_, e, _, _) => Err (NProbe StageResponse :: e)
              end
          | (_, e, _) => Err (NProbe StageResponse :: e)
          end
      end
  end.

(** ** The two targets *)

(** What [ProbeOwnedTargets] returns. *)
Inductive owned_err := OErr (e : goerr) | OCtx (c : cerr) | OUnavailable.
(** [c1]: [ctx.Err()] after the first target; [c2], [c3]: the readings after the reserve. *)
Definition ProbeOwnedTargets {S} (c1 c2 c3 : option cerr) (probe : OwnedProbeTarget → S → option goerr * S) (s : S) : option owned_err * S :=
  let '(primaryErr, s) := probe primary_target s in
  match c1, primaryErr with
  | Some _, Some e => (Some (OErr e), s)
  | Some c, None => (Some (OCtx c), s)
  | None, None => (None, s)
  | None, Some pe =>
      let '(err, s) := probe reserve_target s in
      match err, c2 with
      | None, Some c => (Some (OCtx c), s)
      | None, None => (None, s)
      | Some e, _ =>
          if bool_decide (c3 = None) && (is_node NOwnedInvalid pe || is_node NOwnedInvalid e) then (Some OUnavailable, s) else (Some (OErr e), s)
      end
  end.

(** [ProtectedURLTest]: [net] gives the session with each target. *)
Definition protected_probe (net : OwnedProbeTarget → session) (target : OwnedProbeTarget) (delay : Z) : option goerr * Z :=
  match protectedURLTestAt (net target) target with Ok d => (None, d) | Err e => (Some e, 0) end.
Definition ProtectedURLTest (c1 c2 c3 : option cerr) (net : OwnedProbeTarget → session) : result owned_err Z :=
  match ProbeOwnedTargets c1 c2 c3 (protected_probe net) 0 with (None, delay) => Ok delay | (Some e, _) => Err e end.

(** ** The outbound a probe is about *)

(** [o_now] of a group; [o_id]: the object, whatever its tag. *)
Record Outbound := mkOutbound { o_id : nat; o_Type : string; o_group : bool; o_now : string }.
Definition TypeSelector : string := "selector".
Definition TypeURLTest : string := "urltest".
Definition unprotected (t : string) : bool := bool_decide (t = "direct") || bool_decide (t = "block") || bool_decide (t = "dns").

Fixpoint leaf_loop (fuel : nat) (group_types : list string) (visited : gset string) (tag : string) (lookup : gmap string Outbound) : option Outbound :=
  match fuel with
  | O => None
  | S fuel =>
      if bool_decide (tag = "") || bool_decide (tag ∈ visited) then None
      else match lookup !! tag with
           | None => None
           | Some outbound =>
               if o_group outbound then
                 if bool_decide (o_Type outbound ∈ group_types) then leaf_loop fuel group_types ({[tag]} ∪ visited) (o_now outbound) lookup else None
               else if unprotected (o_Type outbound) then None else Some outbound
           end
  end.
(** The service's walk stops after sixteen tags; the candidate's has no bound but
    cannot repeat a tag, so one more step than there are outbounds is enough. *)
Definition selectedProbeLeaf (tag : string) (lookup : gmap string Outbound) : option Outbound :=
  leaf_loop 16 [TypeSelector; TypeURLTest] ∅ tag lookup.
Definition candidateProtectedLeaf (tag : string) (lookup : gmap string Outbound) : option Outbound :=
  leaf_loop (S (size lookup)) [TypeSelector] ∅ tag lookup.

(** ** Probes of the started service *)

Inductive probe_err := EUnavailable | ETargetUnavailable | EInvalidRequest | ECtx (c : cerr) | EProbe (e : owned_err).

(** The race of [select]: the probe's answer, or the end of the context. *)
Inductive race := Answer (r : result owned_err Z) | Ended (c : cerr).
(** [c0] and [c1], [c2]: [ctx.Err()] before the probe, after it, and after the second
    lookup; [l0], [l1]: the outbounds at the two lookups. *)
Record probe_run := mkRun { pr_c0 : option cerr; pr_c1 : option cerr; pr_c2 : option cerr; pr_l0 : gmap string Outbound; pr_l1 : gmap string Outbound;
  pr_race : Outbound → race }.
Definition probeSelectedOutbound (i : probe_run) (tag : string) : bool * option probe_err :=
  match selectedProbeLeaf tag (pr_l0 i) with
  | None => (false, Some ETargetUnavailable)
  | Some selected =>
      if negb (bool_decide (pr_c0 i = None)) then (false, Some ETargetUnavailable)
      else match pr_race i selected with
           | Ended c => (false, Some (ECtx c))
           | Answer r =>
               match pr_c1 i with
               | Some c => (false, Some (ECtx c))
               | None =>
                   let same := match selectedProbeLeaf tag (pr_l1 i) with Some current => (o_id current =? o_id selected)%nat | None => false end in
                   let succeeded := match r with Ok delay => bool_decide (pr_c2 i = None) && (delay <? 65535) | Err _ => false end in
                   if succeeded && negb same then (false, Some EUnavailable)
                   else (succeeded && same, match r with Ok _ => None | Err e => Some (EProbe e) end)
               end
           end
  end.

(** The service when it is read: [STARTED] with an instance, or not. *)
Definition ProbeSelectedOutboundResult (before after : option nat) (i : probe_run) (tag : string) : bool * option probe_err :=
  match before with
  | None => (false, Some EUnavailable)
  | Some instance =>
      let '(healthy, e) := probeSelectedOutbound i tag in (healthy && bool_decide (after = Some instance), e)
  end.

Definition TCPTimeout : Z := 15 * Second.
(** [i0], [i1]: what the host's callback says first and last (the watcher's readings
    only end the context); [ce]: [ctx.Err()] when the watcher has stopped. *)
Definition probeRuntimeEgress (timeout : Z) (callback : bool) (i0 i1 : bool) (ce : option cerr) (i : probe_run) (tag : string) : bool * option probe_err :=
  if (timeout <=? 0) || (TCPTimeout <? timeout) || negb callback then (false, Some EInvalidRequest)
  else if i0 then (false, Some (ECtx CCanceled))
  else
    let '(healthy, e) := probeSelectedOutbound i tag in
    match ce with
    | Some c => (false, Some (ECtx c))
    | None => if i1 then (false, Some (ECtx CCanceled)) else (healthy, e)
    end.
(** [lock0], [lock1]: whether [TryRLock] succeeds; [live]: [instance.ctx.Err() == nil]. *)
Definition ProbeRuntimeEgressResult (lock0 lock1 : bool) (before after : option nat) (live : bool) (timeout : Z) (callback i0 i1 : bool)
    (ce : option cerr) (i : probe_run) (tag : string) : bool * option probe_err :=
  if negb lock0 then (false, Some EUnavailable)
  else match before with
       | None => (false, Some EUnavailable)
       | Some instance =>
           let '(healthy, e) := probeRuntimeEgress timeout callback i0 i1 ce i tag in
           if negb lock1 then (false, e) else (healthy && bool_decide (after = Some instance) && live, e)
       end.

(** ** The probe of a candidate profile *)

(** *** Its outbound *)

(** The parsed profile: the final outbound, the process rules with their outbound, the
    outbounds and the endpoints. *)
Record candidate_route := mkRoute { cr_Final : string; cr_process_rules : list string; cr_Outbounds : list (string * string); cr_Endpoints : list string }.
Definition protectedTag (r : candidate_route) (tag : string) : bool :=
  if bool_decide (tag = "") then false
  else match List.find (λ o, bool_decide (o.1 = tag)) (cr_Outbounds r) with
       | Some o => negb (unprotected o.2)
       | None => existsb (λ e, bool_decide (e = tag)) (cr_Endpoints r)
       end.
Definition candidate_target (r : candidate_route) : string :=
  let target := if protectedTag r (cr_Final r) then cr_Final r else default ""%string (List.find (protectedTag r) (cr_process_rules r)) in
  let target := if bool_decide (target = "")
                then match List.find (λ o, bool_decide (o.2 = TypeSelector) || bool_decide (o.2 = TypeURLTest)) (cr_Outbounds r) with
                     | Some o => o.1
                     | None => ""%string
                     end
                else target in
  if bool_decide (target = "") then match cr_Outbounds r with o :: _ => o.1 | [] => ""%string end else target.

(** *** One target *)

(** The stages inside a TLS handshake are left out of [stage]. *)
Definition candidateHTTPSProbe (s : session) (target : OwnedProbeTarget) : string * ProbeFailure * HTTP64KDiagnostic * string :=
  match ss_dial s with
  | Some e => ("connect_failed", Capture (ss_ctx s 0) "dial" (t_ProbeURL target) e 0, no_diagnostic, "proxy_dial")
  | None =>
      match ss_tls s with
      | Some e => ("tls_failed", Capture (ss_ctx s 0) "tls" (t_ProbeURL target) e 0, no_diagnostic, "tls_handshake")
      | None =>
          match ProbeGET204 s (t_ProbeURL target) with
          | (""%string, _, _) =>
              match ProbeGET64K s (t_PayloadURL target) with (kind, _, f, d) => (kind, f, d, "http_64k") end
          | (kind, _, f) => (kind, f, no_diagnostic, "http_204")
          end
      end
  end%string.

Record CandidateProbeError := mkCandidateError { ce_Failure : ProbeFailure; ce_Primary : option ProbeFailure }.
Definition no_error : CandidateProbeError := mkCandidateError no_failure None.
(** What the closure over the two targets shares. *)
Record http_state := mkHttp { hs_kind : string; hs_error : CandidateProbeError; hs_detail : HTTP64KDiagnostic; hs_stage : string }.
Definition candidate_probe (net : OwnedProbeTarget → session) (target : OwnedProbeTarget) (h : http_state) : option goerr * http_state :=
  match candidateHTTPSProbe (net target) target with
  | (kind, current, detail, stage) =>
      if bool_decide (kind = "") then (None, mkHttp kind no_error detail stage)
      else
        let failure := ce_Failure (hs_error h) in
        let primary := if bool_decide (pf_Target failure = "owned_api") && negb (bool_decide (pf_Cause failure = "")) then Some failure else None in
        (Some [NOther], mkHttp kind (mkCandidateError current primary) detail stage)
  end.
Definition candidateHTTPProbe (c1 c2 c3 : option cerr) (net : OwnedProbeTarget → session) : string * http_state :=
  let h := (ProbeOwnedTargets c1 c2 c3 (candidate_probe net) (mkHttp "" no_error no_diagnostic "")).2 in
  let invalid f := bool_decide (pf_Cause f = "invalid_response") in
  (if negb (bool_decide (hs_kind h = "")) &&
      (invalid (ce_Failure (hs_error h)) || match ce_Primary (hs_error h) with Some f => invalid f | None => false end)
   then "unavailable"%string else hs_kind h, h).

(** *** The verdict *)

Record CandidateProbeResult := mkResult {
  cp_Success : bool; cp_FailureKind : string; cp_ProbeError : option CandidateProbeError;
  cp_HTTP64KFailure : string; cp_HTTP64KObservation : option HTTP64KObservation; cp_Stage : string }.
#[export] Instance cp_eta : Eta CandidateProbeResult := λ r,
  mkResult (cp_Success r) (cp_FailureKind r) (cp_ProbeError r) (cp_HTTP64KFailure r) (cp_HTTP64KObservation r) (cp_Stage r).

Definition cancel_cause (f : ProbeFailure) : bool :=
  bool_decide (pf_Cause f = "timeout") || bool_decide (pf_Cause f = "cancelled") || bool_decide (pf_Cause f = "closed").
(** [ctx]: [None] for a nil context, else its readings in turn. *)
Definition finish (ctx : option (option cerr * option cerr * option cerr)) (operationError : option goerr) (r : CandidateProbeResult) : CandidateProbeResult :=
  let r := match ctx with
    | Some (ca, cb, cc) =>
        if negb (cp_Success r) && negb (bool_decide (cp_FailureKind r = "data_stalled")) &&
           (bool_decide (cp_FailureKind r = "invalid_request") ||
            match operationError, ca with Some e, Some c => existsb (λ n, bool_decide (n ∈ e)) (ctx_error c) | _, _ => false end ||
            match cp_ProbeError r with Some e => cancel_cause (ce_Failure e) | None => false end)
        then if bool_decide (cb = Some CDeadline) then r <| cp_FailureKind := "timeout"%string |>
             else if bool_decide (cc = None) then r else r <| cp_FailureKind := "cancelled"%string |>
        else r
    | None => r
    end in
  if negb (bool_decide (cp_FailureKind r = "probe_failed")) || negb (bool_decide (cp_Stage r = "http_64k"))
  then r <| cp_HTTP64KFailure := ""%string |> <| cp_HTTP64KObservation := None |> else r.

(** [candidateProbeID] *)
Definition id_char (c : Ascii.ascii) : bool :=
  let n := Z.of_N (Ascii.N_of_ascii c) in
  (65 <=? n) && (n <=? 90) || (97 <=? n) && (n <=? 122) || (48 <=? n) && (n <=? 57) || (n =? 95) || (n =? 45).
Definition candidateProbeID (id : string) : bool :=
  (1 <=? Z.of_nat (String.length id)) && (Z.of_nat (String.length id) <=? 128) && forallb id_char (String.list_ascii_of_string id).

(** What happens during a call: the context once the host's callback was asked, the
    profile, the instance, its outbounds, the network, and the readings of [finish]. *)
Record candidate_input := mkInput {
  ci_ctx : option cerr; ci_options : result goerr candidate_route; ci_new : option goerr; ci_start : option goerr; ci_lookup : gmap string Outbound;
  ci_net : OwnedProbeTarget → session; ci_owned : option cerr * option cerr * option cerr; ci_finish : option cerr * option cerr * option cerr }.

Definition failed (kind stage : string) : CandidateProbeResult := mkResult false kind None "" None stage.

(** The part between the registration of the call and its removal. *)
Definition candidate_body (i : candidate_input) : CandidateProbeResult :=
  let finish := finish (Some (ci_finish i)) in
  match ci_ctx i with
  | Some _ => finish None (failed "invalid_request" "")
  | None =>
      match ci_options i with
      | Err e => finish (Some e) (failed "invalid_profile" "parse_profile")
      | Ok route =>
          match ci_new i, ci_start i with
          | Some e, _ => finish (Some e) (failed "invalid_profile" "create_instance")
          | None, Some e => finish (Some e) (failed "start_failed" "start_instance")
          | None, None =>
              match candidateProtectedLeaf (candidate_target route) (ci_lookup i) with
              | None => finish None (failed "invalid_profile" "select_outbound")
              | Some _ =>
                  let '(c1, c2, c3) := ci_owned i in
                  let '(kind, h) := candidateHTTPProbe c1 c2 c3 (ci_net i) in
                  finish None (mkResult (bool_decide (kind = "")) kind
                    (if bool_decide (pf_Cause (ce_Failure (hs_error h)) = "") then None else Some (hs_error h))
                    (dg_Failure (hs_detail h)) (dg_Observation (hs_detail h)) (hs_stage h))
              end
          end
      end
  end.

(** [calls]: the probes under way; the call is one of them while its body runs. *)
Definition probeCandidate (calls : gset string) (id : string) (timeout : Z) (i : candidate_input) : CandidateProbeResult * gset string :=
  if negb (candidateProbeID id) || (timeout <=? 0) || (30 * Second <? timeout) then (finish None None (failed "invalid_request" ""), calls)
  else if bool_decide (id ∈ calls) then (finish None None (failed "duplicate_probe" ""), calls)
  else (candidate_body i, ({[id]} ∪ calls) ∖ {[id]}).

(** ** The ledger of a diagnostic operation *)

Record DiagnosticByteBudget := mkBudget { b_limit : Z; b_reserved : Z; b_exhausted : bool; b_cause : option goerr }.
#[export] Instance budget_eta : Eta DiagnosticByteBudget := λ b, mkBudget (b_limit b) (b_reserved b) (b_exhausted b) (b_cause b).
Inductive budget_err := BInvalidBudget | BInvalidReservation | BBudget | BCause (e : goerr).
Definition NewDiagnosticByteBudget (limit : Z) : result budget_err DiagnosticByteBudget :=
  if (limit <? 0) || (67108864 <? limit) then Err BInvalidBudget else Ok (mkBudget limit 0 false None).
Definition ErrDiagnosticByteBudget : goerr := [NOther].
(** [cancel]: the first cause stays. *)
Definition cancel (e : goerr) (b : DiagnosticByteBudget) : DiagnosticByteBudget :=
  match b_cause b with Some _ => b | None => b <| b_cause := Some e |> end.
Definition Reserve (count : Z) (b : DiagnosticByteBudget) : option budget_err * DiagnosticByteBudget :=
  match b_cause b with
  | Some e => (Some (BCause e), b)
  | None =>
      if count <=? 0 then (Some BInvalidReservation, b)
      else if b_limit b - b_reserved b <? count then (Some BBudget, cancel ErrDiagnosticByteBudget (b <| b_exhausted := true |>))
      else (None, b <| b_reserved := b_reserved b + count |>)
  end.
Definition budget_Close (b : DiagnosticByteBudget) : DiagnosticByteBudget := cancel [NCanceled] b.
Definition Snapshot (b : DiagnosticByteBudget) : Z * Z * bool * bool :=
  (b_limit b, b_reserved b, match b_cause b with Some _ => true | None => false end, b_exhausted b).

(** The parent's context may end at any time. *)
Inductive budget_op := BReserve (count : Z) | BClose | BParent (e : goerr).
Definition budget_step (op : budget_op) (b : DiagnosticByteBudget) : option budget_err * DiagnosticByteBudget :=
  match op with BReserve n => Reserve n b | BClose => (None, budget_Close b) | BParent e => (None, cancel e b) end.
Fixpoint budget_run (ops : list budget_op) (b : DiagnosticByteBudget) : list (option budget_err) * DiagnosticByteBudget :=
  match ops with [] => ([], b) | op :: ops => let '(r, b) := budget_step op b in let '(rs, b) := budget_run ops b in (r :: rs, b) end.

(** ** What an answer proves *)

(** In one TLS session with the host of the target: the owned 204 answer, then the
    owned answer of 64 KiB, read to its end. *)
Record session_proves (s : session) : Prop := mkProves {
  sp_dial : ss_dial s = None; sp_tls : ss_tls s = None;
  sp_204 : ∃ r, ss_write204 s = None ∧ ss_read204 s = Ok r ∧ rs_StatusCode r = 204 ∧ rs_Marker r = ProtectedProbeMarker;
  sp_64k : ∃ r, ss_write64 s = None ∧ ss_read64 s = Ok r ∧ rs_StatusCode r = 200 ∧ rs_Marker r = ProtectedProbeMarker ∧
             rs_ContentLength r = 65536 ∧ rs_Encoding r = ""%string ∧ (ss_body s).2 = None }.

Lemma GET204_cases s u : let '(kind, e, f) := ProbeGET204 s u in
  (kind = ""%string ∧ ∃ r, ss_write204 s = None ∧ ss_read204 s = Ok r ∧ rs_StatusCode r = 204 ∧ rs_Marker r = ProtectedProbeMarker) ∨
  (kind ∈ ["probe_failed"; "unexpected_status"]%string ∧ pf_Cause f ≠ ""%string).
Proof.
  assert (∀ op e, cause_of op e ≠ ""%string) as C by (intros; unfold cause_of; repeat case_match; done).
  unfold ProbeGET204. destruct (ss_write204 s) as [e|]; [right; split; [set_solver|apply C]|].
  destruct (ss_read204 s) as [r|e]; [|right; split; [set_solver|apply C]]. destruct (valid_204 r) eqn:E; [|right; split; [set_solver|apply C]].
  left. split; [done|]. exists r. unfold valid_204 in E. bsplit. split_and!; [done|done|lia|done].
Qed.

Definition kinds_64k : list string := ["probe_failed"; "timeout"; "unexpected_status"; "data_stalled"]%string.
Lemma GET64K_cases s u : let '(kind, e, f, d) := ProbeGET64K s u in
  (kind = ""%string ∧ ∃ r, ss_write64 s = None ∧ ss_read64 s = Ok r ∧ rs_StatusCode r = 200 ∧ rs_Marker r = ProtectedProbeMarker ∧
     rs_ContentLength r = 65536 ∧ rs_Encoding r = ""%string ∧ (ss_body s).2 = None) ∨
  (kind ∈ kinds_64k ∧ pf_Cause f ≠ ""%string).
Proof.
  assert (∀ op e, cause_of op e ≠ ""%string) as C by (intros; unfold cause_of; repeat case_match; done).
  assert (∀ e, probeIOFailureKind e ∈ kinds_64k) as K by (intros; unfold probeIOFailureKind, kinds_64k; case_match; set_solver).
  unfold ProbeGET64K. destruct (ss_write64 s) as [e|]; [right; split; [apply K|apply C]|].
  destruct (ss_read64 s) as [r|e]; [|right; split; [apply K|apply C]].
  destruct (valid_64k r) eqn:E; cbn [negb]; [|right; split; [unfold kinds_64k; set_solver|apply C]].
  destruct (ss_body s) as [n [e|]] eqn:Eb.
  { destruct (bool_decide (ss_ctx s 2 = _)); [|destruct (bool_decide (probeIOFailureKind e = _)); [|destruct (is_node NEOF e || is_node NUnexpectedEOF e)]];
      right; (split; [unfold kinds_64k; set_solver|apply C]). }
  left. split; [done|]. exists r. unfold valid_64k, ProtectedPayloadBytes in E. bsplit. split_and!; [done|done|lia|done|lia|done|done].
Qed.

Lemma kinds_nonempty (l : list string) (k : string) : k ∈ l → ""%string ∉ l → k ≠ ""%string.
Proof. by intros H Hn ->. Qed.

Lemma URLTestAt_ok s t d : protectedURLTestAt s t = Ok d → session_proves s ∧ ss_ctx s 3 = None ∧ d = u16 (Z.max 1 (ss_elapsed s)).
Proof.
  unfold protectedURLTestAt. destruct (ss_dial s) eqn:Ed; [done|]. destruct (ss_tls s) eqn:Et; [done|].
  pose proof (GET204_cases s (t_ProbeURL t)) as H2. pose proof (GET64K_cases s (t_PayloadURL t)) as H6.
  destruct (ProbeGET204 _ _) as [[k2 e2] f2]. destruct H2 as [[-> H2]|[H2 _]].
  2: { apply kinds_nonempty in H2; [|by rewrite !elem_of_cons, elem_of_nil; naive_solver]. by destruct k2. }
  destruct (ProbeGET64K _ _) as [[[k6 e6] f6] d6]. destruct H6 as [[-> H6]|[H6 _]].
  2: { apply kinds_nonempty in H6; [|by unfold kinds_64k; rewrite !elem_of_cons, elem_of_nil; naive_solver]. by destruct k6. }
  destruct (ss_ctx s 3) eqn:Ec; [done|]. intros [= <-]. done.
Qed.

Lemma owned_ok {S} c1 c2 c3 probe (s s' : S) : ProbeOwnedTargets c1 c2 c3 probe s = (None, s') →
  c1 = None ∧ ((probe primary_target s = (None, s')) ∨ (c2 = None ∧ ∃ s1 e, probe primary_target s = (Some e, s1) ∧ probe reserve_target s1 = (None, s'))).
Proof.
  unfold ProbeOwnedTargets. destruct (probe primary_target s) as [[e|] s1] eqn:E1.
  - destruct c1; [done|]. destruct (probe reserve_target s1) as [[e2|] s2] eqn:E2; [by case_match|]. destruct c2; [done|].
    intros [= <-]. split; [done|]. right. split; [done|]. by exists s1, e.
  - destruct c1; [done|]. intros [= <-]. split; [done|by left].
Qed.

Lemma ProtectedURLTest_ok c1 c2 c3 net d : ProtectedURLTest c1 c2 c3 net = Ok d →
  c1 = None ∧ ∃ t, t ∈ [primary_target; reserve_target] ∧ session_proves (net t) ∧ ss_ctx (net t) 3 = None ∧ d = u16 (Z.max 1 (ss_elapsed (net t))).
Proof.
  unfold ProtectedURLTest. destruct (ProbeOwnedTargets _ _ _ _ _) as [[e|] d'] eqn:E; [done|]. intros [= <-].
  assert (∀ t d0, protected_probe net t d0 = (None, d') → session_proves (net t) ∧ ss_ctx (net t) 3 = None ∧ d' = u16 (Z.max 1 (ss_elapsed (net t)))) as G.
  { intros t d0. unfold protected_probe. destruct (protectedURLTestAt (net t) t) eqn:Et; [|done]. intros [= <-]. by apply URLTestAt_ok in Et. }
  apply owned_ok in E as [Hc [H|(_ & s1 & e & _ & H)]]; apply G in H; (split; [done|]).
  - exists primary_target. split; [by apply elem_of_cons; left|done].
  - exists reserve_target. split; [by apply elem_of_cons; right; apply list_elem_of_singleton|done].
Qed.

(** ** Leaves *)

(** [n] steps through groups lead to a protected leaf. *)
Fixpoint leads (types : list string) (l : gmap string Outbound) (n : nat) (tag : string) (o : Outbound) : Prop :=
  tag ≠ ""%string ∧ ∃ x, l !! tag = Some x ∧
  match n with
  | O => o_group x = false ∧ unprotected (o_Type x) = false ∧ o = x
  | S n => o_group x = true ∧ o_Type x ∈ types ∧ leads types l n (o_now x) o
  end.

Lemma leads_unique types l n m tag o o' : leads types l n tag o → leads types l m tag o' → n = m ∧ o = o'.
Proof.
  revert m tag. induction n as [|n IH]; intros m tag [Ht (x & Hx & H)] H'; destruct m as [|m]; destruct H' as [_ (y & Hy & H')]; rewrite Hx in Hy; injection Hy as <-.
  - destruct H as (_ & _ & ->), H' as (_ & _ & ->). done.
  - destruct H as (H & _), H' as (H' & _). congruence.
  - destruct H as (H & _), H' as (H' & _). congruence.
  - destruct H as (_ & _ & H), H' as (_ & _ & H'). destruct (IH m (o_now x) H H') as [-> ->]. done.
Qed.

Lemma leaf_sound fuel types visited tag l o : leaf_loop fuel types visited tag l = Some o → ∃ n, (n < fuel)%nat ∧ leads types l n tag o.
Proof.
  revert visited tag. induction fuel as [|f IH]; intros visited tag; cbn [leaf_loop]; [done|]. destruct (_ || _) eqn:E; [done|]. bsplit.
  destruct (l !! tag) as [x|] eqn:Ex; [|done]. destruct (o_group x) eqn:Eg.
  - case_bool_decide as Et; [|done]. intros (n & Hn & Hl)%IH. exists (S n). split; [lia|]. cbn. split; [done|]. by exists x.
  - destruct (unprotected _) eqn:Eu; [done|]. intros [= ->]. exists 0%nat. split; [lia|]. cbn. split; [done|]. by exists o.
Qed.

Lemma leaf_complete fuel types visited tag l o n : leads types l n tag o → (n < fuel)%nat → (∀ v, v ∈ visited → ∃ m o', leads types l m v o' ∧ (n < m)%nat) →
  leaf_loop fuel types visited tag l = Some o.
Proof.
  revert visited tag n. induction fuel as [|f IH]; intros visited tag n Hl Hn Hv; [lia|]. cbn [leaf_loop].
  assert (tag ∉ visited) as Hnv. { intros Hin. destruct (Hv _ Hin) as (m & o' & Hm & Hlt). destruct (leads_unique _ _ _ _ _ _ _ Hl Hm). lia. }
  assert (tag ≠ ""%string) as Hne by (destruct n; exact (proj1 Hl)). rewrite !bool_decide_eq_false_2 by done. cbn [orb].
  destruct n as [|n]; pose proof Hl as [_ (x & Hx & H)]; rewrite Hx.
  - destruct H as (-> & -> & ->). done.
  - destruct H as (-> & Ht & Hr). rewrite bool_decide_eq_true_2 by done. apply (IH _ _ n); [done|lia|].
    intros v [->%elem_of_singleton|Hin]%elem_of_union; [exists (S n), o; split; [done|lia]|].
    destruct (Hv v Hin) as (m & o' & Hm & Hlt). exists m, o'. split; [done|lia].
Qed.

(** A walk that ends visits each outbound at most once. *)
Lemma leads_short types l n tag o : leads types l n tag o → (n < size l)%nat.
Proof.
  intros H. assert (∃ X : gset string, X ⊆ dom l ∧ size X = S n ∧ ∀ x, x ∈ X → ∃ k, (k ≤ n)%nat ∧ leads types l k x o) as (X & Hsub & Hsz & _).
  { revert tag H. induction n as [|n IH]; intros tag H; pose proof H as [_ (x & Hx & Hr)].
    - exists {[tag]}. split_and!; [apply singleton_subseteq_l, elem_of_dom; by exists x|by rewrite size_singleton|].
      intros y ->%elem_of_singleton. by exists 0%nat.
    - destruct Hr as (_ & _ & Hr). destruct (IH _ Hr) as (X & Hsub & Hsz & Hk). exists ({[tag]} ∪ X). split_and!.
      + apply union_subseteq. split; [apply singleton_subseteq_l, elem_of_dom; by exists x|done].
      + rewrite size_union, size_singleton, Hsz; [lia|]. apply disjoint_singleton_l. intros Hin. destruct (Hk _ Hin) as (k & Hkn & Hkl).
        destruct (leads_unique _ _ _ _ _ _ _ H Hkl). lia.
      + intros y [->%elem_of_singleton|Hin]%elem_of_union; [by exists (S n)|]. destruct (Hk _ Hin) as (k & ? & ?). exists k. split; [lia|done]. }
  apply subseteq_size in Hsub. rewrite size_dom in Hsub. lia.
Qed.

(** the outbound a probe is about.  The service probes exactly the protected leaf
    that at most fifteen steps through selectors and URL-test groups lead to; the walk
    of a candidate, which has no bound, always ends and finds exactly the protected leaf
    that any number of selector steps leads to.  A cycle, a missing outbound, another
    group and a direct, block or DNS leaf are never probed. *)
Theorem probe_leaf_exact tag l o :
  (selectedProbeLeaf tag l = Some o ↔ ∃ n, (n < 16)%nat ∧ leads [TypeSelector; TypeURLTest] l n tag o) ∧
  (candidateProtectedLeaf tag l = Some o ↔ ∃ n, leads [TypeSelector] l n tag o).
Proof.
  split; split.
  - apply leaf_sound.
  - intros (n & Hn & Hl). eapply leaf_complete; [done|done|]. intros v Hv. by apply elem_of_empty in Hv.
  - intros (n & _ & Hl)%leaf_sound. by exists n.
  - intros (n & Hl). eapply leaf_complete; [done| |].
    + apply leads_short in Hl. lia.
    + intros v Hv. by apply elem_of_empty in Hv.
Qed.

(** ** Probes of the service *)

Lemma leaf_protected tag l o : selectedProbeLeaf tag l = Some o → o_group o = false ∧ unprotected (o_Type o) = false.
Proof.
  intros (n & _ & H)%leaf_sound. revert tag H. induction n as [|n IH]; intros tag [_ (x & _ & H)]; [by destruct H as (? & ? & ->)|].
  destruct H as (_ & _ & H). by eapply IH.
Qed.

Lemma probeSelected_ok i tag e : probeSelectedOutbound i tag = (true, e) → e = None ∧ pr_c0 i = None ∧ pr_c1 i = None ∧ pr_c2 i = None ∧ ∃ o o' d,
  selectedProbeLeaf tag (pr_l0 i) = Some o ∧ selectedProbeLeaf tag (pr_l1 i) = Some o' ∧ o_id o' = o_id o ∧ pr_race i o = Answer (Ok d) ∧ d < 65535.
Proof.
  unfold probeSelectedOutbound. destruct (selectedProbeLeaf tag (pr_l0 i)) as [o|] eqn:E0; [|done].
  case_bool_decide as H0; cbn [negb]; [|done]. destruct (pr_race i o) as [[d|oe]|c] eqn:Er; [| |done]; (destruct (pr_c1 i) eqn:E1; [done|]).
  - case_bool_decide as H2; cbn [andb]; [|done]. destruct (d <? 65535) eqn:Ed; [|done]. cbn [andb].
    destruct (selectedProbeLeaf tag (pr_l1 i)) as [o'|] eqn:E2; [|done]. destruct (_ =? _)%nat eqn:Es; [|done]. cbn. intros [= <-].
    apply Nat.eqb_eq in Es. split_and!; [done|done|done|done|]. exists o, o', d. split_and!; [done|done|done|done|lia].
  - done.
Qed.


(** ** The verdict on a candidate *)

Definition failure_kinds : list string :=
  ["invalid_request"; "duplicate_probe"; "invalid_profile"; "start_failed"; "connect_failed"; "tls_failed"; "probe_failed"; "unexpected_status";
   "timeout"; "cancelled"; "data_stalled"; "unavailable"].
(** A kind that fits the flag of success. *)
Definition kind_ok (success : bool) (kind : string) : Prop := if success then kind = ""%string else kind ∈ failure_kinds.

Lemma HTTPSProbe_cases s t : let '(kind, f, d, stage) := candidateHTTPSProbe s t in
  (kind = ""%string ∧ session_proves s) ∨ kind ∈ failure_kinds.
Proof.
  unfold candidateHTTPSProbe. destruct (ss_dial s) eqn:Ed; [right; unfold failure_kinds; set_solver|].
  destruct (ss_tls s) eqn:Et; [right; unfold failure_kinds; set_solver|].
  pose proof (GET204_cases s (t_ProbeURL t)) as H2. destruct (ProbeGET204 _ _) as [[k2 e2] f2]. destruct H2 as [[-> H2]|[H2 _]].
  - pose proof (GET64K_cases s (t_PayloadURL t)) as H6. destruct (ProbeGET64K _ _) as [[[k6 e6] f6] d6].
    destruct H6 as [[-> H6]|[H6 _]]; [by left|right]. unfold kinds_64k in H6. unfold failure_kinds. set_solver.
  - rewrite !elem_of_cons, elem_of_nil in H2. destruct H2 as [->|[->|[]]]; right; unfold failure_kinds; set_solver.
Qed.

Lemma HTTPProbe_cases c1 c2 c3 net : let '(kind, h) := candidateHTTPProbe c1 c2 c3 net in
  (kind = ""%string ∧ ∃ t, t ∈ [primary_target; reserve_target] ∧ session_proves (net t)) ∨ kind ∈ failure_kinds.
Proof.
  unfold candidateHTTPProbe. set (h := (ProbeOwnedTargets _ _ _ _ _).2).
  assert (∃ t h0, t ∈ [primary_target; reserve_target] ∧ h = (candidate_probe net t h0).2) as (t & h0 & Ht & Eh).
  { unfold h, ProbeOwnedTargets. destruct (candidate_probe net primary_target _) as [pe s1] eqn:E1.
    assert (s1 = (candidate_probe net primary_target (mkHttp "" no_error no_diagnostic "")).2) as Es by (by rewrite E1).
    destruct c1, pe; try (eexists primary_target, _; split; [by apply elem_of_cons; left|exact Es]).
    destruct (candidate_probe net reserve_target s1) as [e s2] eqn:E2. exists reserve_target, s1.
    split; [by apply elem_of_cons; right; apply list_elem_of_singleton|]. rewrite E2. cbn. destruct e, c2; try done; by case_match. }
  cbn zeta. destruct (negb _ && _); [right; unfold failure_kinds; set_solver|].
  rewrite Eh. unfold candidate_probe. pose proof (HTTPSProbe_cases (net t) t) as H. destruct (candidateHTTPSProbe (net t) t) as [[[kind f] d] stage].
  destruct H as [[-> H]|H]; [left; split; [done|by exists t]|right]. case_bool_decide; [by subst|]. done.
Qed.

Lemma finish_ok ctx oe r : kind_ok (cp_Success r) (cp_FailureKind r) → let r' := finish ctx oe r in
  cp_Success r' = cp_Success r ∧ kind_ok (cp_Success r') (cp_FailureKind r') ∧
  (cp_HTTP64KFailure r' ≠ ""%string ∨ cp_HTTP64KObservation r' ≠ None → cp_FailureKind r' = "probe_failed"%string ∧ cp_Stage r' = "http_64k"%string).
Proof.
  intros Hk. unfold finish.
  set (r1 := match ctx with Some _ => _ | None => r end).
  assert (cp_Success r1 = cp_Success r ∧ kind_ok (cp_Success r1) (cp_FailureKind r1)) as [Hs Hk1].
  { unfold r1. destruct ctx as [[[ca cb] cc]|]; [|done]. destruct (_ && _) eqn:E; [|done].
    assert (cp_Success r = false) as Hf by (bsplit; done). destruct (bool_decide (cb = _)); [|destruct (bool_decide (cc = None)); [done|]];
      cbn; rewrite Hf; unfold failure_kinds; (split; [done|]); cbn; set_solver. }
  cbn zeta. destruct (_ || _) eqn:E; cbn.
  - split_and!; [done|done|]. intros [?|?]; done.
  - bsplit. by split_and!.
Qed.

(** C24: the verdict on a candidate profile is honest.  The call is the only one of its
    identifier and leaves the set of calls as it was.  It reports success exactly when it
    reports no failure, and then the request was valid, the profile led to a protected
    outbound, and an owned responder was reached in one verified TLS session with both
    marked answers complete.  A failure is one of twelve names, whatever cancellation
    races with it, and the details of the 64 KiB answer are only given for a failure of
    that answer. *)
Theorem candidate_honest calls id timeout i r calls' : probeCandidate calls id timeout i = (r, calls') →
  calls' = calls ∧ kind_ok (cp_Success r) (cp_FailureKind r) ∧
  (cp_HTTP64KFailure r ≠ ""%string ∨ cp_HTTP64KObservation r ≠ None → cp_FailureKind r = "probe_failed"%string ∧ cp_Stage r = "http_64k"%string) ∧
  (cp_Success r = true → candidateProbeID id = true ∧ 0 < timeout ≤ 30 * Second ∧ id ∉ calls ∧
   ∃ route o t, ci_options i = Ok route ∧ candidateProtectedLeaf (candidate_target route) (ci_lookup i) = Some o ∧
     t ∈ [primary_target; reserve_target] ∧ session_proves (ci_net i t)).
Proof.
  assert (∀ ctx oe kind stage, kind ∈ failure_kinds → let r := finish ctx oe (failed kind stage) in
    cp_Success r = false ∧ kind_ok (cp_Success r) (cp_FailureKind r) ∧
    (cp_HTTP64KFailure r ≠ ""%string ∨ cp_HTTP64KObservation r ≠ None → cp_FailureKind r = "probe_failed"%string ∧ cp_Stage r = "http_64k"%string)) as F
    by (intros; by apply finish_ok).
  assert (∀ ctx oe kind stage (P : Prop), kind ∈ failure_kinds → let r := finish ctx oe (failed kind stage) in
    kind_ok (cp_Success r) (cp_FailureKind r) ∧
    (cp_HTTP64KFailure r ≠ ""%string ∨ cp_HTTP64KObservation r ≠ None → cp_FailureKind r = "probe_failed"%string ∧ cp_Stage r = "http_64k"%string) ∧
    (cp_Success r = true → P)) as G.
  { intros ctx oe kind stage P Hk. destruct (F ctx oe kind stage Hk) as (Hs & H1 & H2). split_and!; [done|done|]. cbn zeta. by rewrite Hs. }
  unfold probeCandidate. destruct (_ || _) eqn:Eb; [intros [= <- <-]; split; [done|]; apply G; unfold failure_kinds; set_solver|].
  case_bool_decide as Hin; [intros [= <- <-]; split; [done|]; apply G; unfold failure_kinds; set_solver|].
  intros [= <- <-]. split; [apply set_eq; set_solver|]. unfold candidate_body.
  destruct (ci_ctx i); [apply G; unfold failure_kinds; set_solver|]. destruct (ci_options i) as [route|]; [|apply G; unfold failure_kinds; set_solver].
  destruct (ci_new i); [apply G; unfold failure_kinds; set_solver|]. destruct (ci_start i); [apply G; unfold failure_kinds; set_solver|].
  destruct (candidateProtectedLeaf _ _) as [o|] eqn:El; [|apply G; unfold failure_kinds; set_solver].
  destruct (ci_owned i) as [[c1 c2] c3]. pose proof (HTTPProbe_cases c1 c2 c3 (ci_net i)) as H. destruct (candidateHTTPProbe _ _ _ _) as [kind h].
  match goal with |- context [finish ?c ?oe ?r0] => destruct (finish_ok c oe r0) as (Hs & H1 & H2) end.
  { cbn [cp_Success cp_FailureKind]. unfold kind_ok. destruct H as [[-> _]|H]; [done|]. case_bool_decide; [by subst|done]. }
  split_and!; [done|done|]. rewrite Hs. cbn [cp_Success]. intros ->%bool_decide_eq_true.
  destruct H as [[_ (t & Ht & Hp)]|H]; [|by unfold failure_kinds in H; rewrite !elem_of_cons, elem_of_nil in H; naive_solver].
  bsplit. split_and!; [done|lia|lia|done|]. by exists route, o, t.
Qed.

(** ** The ledger *)

(** The bytes of the reservations that were granted. *)
Fixpoint granted (ops : list budget_op) (rs : list (option budget_err)) : Z :=
  match ops, rs with
  | BReserve n :: ops, None :: rs => n + granted ops rs
  | _ :: ops, _ :: rs => granted ops rs
  | _, _ => 0
  end.

Lemma cancel_reserved e b : b_reserved (cancel e b) = b_reserved b ∧ b_limit (cancel e b) = b_limit b ∧ b_cause (cancel e b) ≠ None.
Proof. unfold cancel. destruct (b_cause b) eqn:E; cbn; split_and!; congruence. Qed.

Lemma closed_stays ops b : b_cause b ≠ None → ∃ rs, budget_run ops b = (rs, b) ∧ granted ops rs = 0 ∧ ∀ j n, ops !! j = Some (BReserve n) → rs !! j ≠ Some None.
Proof.
  intros Hc. induction ops as [|op ops IH]; cbn [budget_run]; [exists []; by split_and!|].
  destruct IH as (rs & Hr & Hg & Hn). destruct (b_cause b) as [c|] eqn:Ec; [|done].
  assert (budget_step op b = (match op with BReserve _ => Some (BCause c) | _ => None end, b)) as ->
    by (destruct op; cbn; unfold Reserve, budget_Close, cancel; rewrite Ec; done).
  rewrite Hr. eexists. split; [reflexivity|]. split; [by destruct op|]. intros [|j] n; cbn; [by intros [= ->]|apply Hn].
Qed.

Lemma granted_cons op ops r rs : granted (op :: ops) (r :: rs) = granted [op] [r] + granted ops rs.
Proof. destruct op, r; cbn; lia. Qed.

(** One operation on an open ledger. *)
Lemma budget_step_ok op b : b_cause b = None → 0 ≤ b_reserved b ≤ b_limit b → let '(r, b1) := budget_step op b in
  b_limit b1 = b_limit b ∧ 0 ≤ b_reserved b1 ≤ b_limit b ∧ b_reserved b1 = b_reserved b + granted [op] [r] ∧
  (b_cause b1 = None → op ≠ BClose ∧ (∀ e, op ≠ BParent e) ∧ r ≠ Some BBudget).
Proof.
  intros Ec Hb. destruct op as [n| |e]; cbn [budget_step granted].
  - unfold Reserve. rewrite Ec. destruct (n <=? 0) eqn:En; [cbn; split_and!; [done|lia|lia|lia|done]|]. destruct (_ <? n) eqn:El.
    + destruct (cancel_reserved ErrDiagnosticByteBudget (b <| b_exhausted := true |>)) as (-> & -> & Hn). cbn. split_and!; [done|lia|lia|lia|by intros].
    + cbn. split_and!; [done|lia|lia|lia|done].
  - unfold budget_Close. destruct (cancel_reserved [NCanceled] b) as (-> & -> & Hn). split_and!; [done|lia|lia|lia|by intros].
  - destruct (cancel_reserved e b) as (-> & -> & Hn). split_and!; [done|lia|lia|lia|by intros].
Qed.

Definition ends (ops : list budget_op) (rs : list (option budget_err)) (i : nat) : Prop :=
  ops !! i = Some BClose ∨ (∃ e, ops !! i = Some (BParent e)) ∨ rs !! i = Some (Some BBudget).

Lemma budget_run_ok ops b : 0 ≤ b_reserved b ≤ b_limit b → let '(rs, b') := budget_run ops b in
  b_reserved b' = b_reserved b + granted ops rs ∧ 0 ≤ b_reserved b' ≤ b_limit b ∧
  ∀ i j n, (i < j)%nat → ops !! j = Some (BReserve n) → ends ops rs i → rs !! j ≠ Some None.
Proof.
  revert b. induction ops as [|op ops IH]; intros b Hb; [cbn; split_and!; [lia|lia|lia|done]|].
  destruct (b_cause b) as [c|] eqn:Ec.
  - destruct (closed_stays (op :: ops) b) as (rs & -> & Hg & Hn); [by rewrite Ec|]. rewrite Hg. split_and!; [lia|lia|lia|].
    intros i j n _ Hj _. by eapply Hn.
  - pose proof (budget_step_ok op b Ec Hb) as Hstep. cbn [budget_run]. destruct (budget_step op b) as [r b1]. destruct Hstep as (Hl & Hb1 & Hg & Hc).
    pose proof (IH b1 ltac:(lia)) as Hrun. destruct (budget_run ops b1) as [rs b'] eqn:Er. destruct Hrun as (H1 & H2 & H3).
    rewrite granted_cons. split_and!; [lia|lia|lia|]. intros i j n Hij Hj He. destruct j as [|j]; [lia|]. destruct i as [|i]; [|apply (H3 i j n); [lia|done|exact He]].
    assert (b_cause b1 ≠ None) as Hcl. { intros E. apply Hc in E as (E1 & E2 & E3). unfold ends in He. cbn in He. naive_solver. }
    destruct (closed_stays ops b1 Hcl) as (rs1 & Er1 & _ & Hn). rewrite Er in Er1. injection Er1 as -> ->. by apply (Hn j n).
Qed.

(** the ledger of a diagnostic operation never overspends and never refunds.  After
    any sequence of reservations, closes and cancellations the reserved bytes are exactly
    those of the granted reservations and within the limit, which is at most 64 MiB; and
    once the ledger is closed, cancelled or exhausted no later reservation is granted. *)
Theorem ledger_exact limit b ops : NewDiagnosticByteBudget limit = Ok b →
  let '(rs, b') := budget_run ops b in
  b_reserved b' = granted ops rs ∧ 0 ≤ b_reserved b' ≤ limit ∧ limit ≤ 67108864 ∧
  ∀ i j n, (i < j)%nat → ops !! j = Some (BReserve n) → ends ops rs i → rs !! j ≠ Some None.
Proof.
  unfold NewDiagnosticByteBudget. destruct (_ || _) eqn:E; [done|]. bsplit. intros [= <-].
  pose proof (budget_run_ok ops (mkBudget limit 0 false None)) as H'. destruct (budget_run _ _) as [rs b']. cbn [b_reserved b_limit] in H'.
  destruct H' as (H1 & H2 & H3); [lia|]. split_and!; [lia|lia|lia|lia|done].
Qed.

(** ** Witnesses *)

Definition ex_answer (status length : Z) : response := mkResponse status ProtectedProbeMarker length "".
Definition ex_session : session :=
  mkSession None None None (Ok (ex_answer 204 0)) None (Ok (ex_answer 200 65536)) (65536, None) (λ _, None) 120.
Definition ex_down : session := mkSession (Some [NOp "tcp" true]) None None (Err []) None (Err []) (0, None) (λ _, None) 5000.
(** Only the reserve answers. *)
Definition ex_net (t : OwnedProbeTarget) : session := if bool_decide (t_Host t = protectedReserveProbeHost) then ex_session else ex_down.
Definition ex_table : gmap string Outbound :=
  {["select" := mkOutbound 1 TypeSelector true "auto"; "auto" := mkOutbound 2 TypeURLTest true "exit"; "exit" := mkOutbound 3 "vless" false "";
    "direct" := mkOutbound 4 "direct" false ""]}.

Example ex_leaves :
  o_id <$> selectedProbeLeaf "select" ex_table = Some 3%nat ∧ selectedProbeLeaf "direct" ex_table = None ∧ candidateProtectedLeaf "select" ex_table = None.
Proof. vm_compute. repeat split. Qed.

Definition ex_run : probe_run :=
  mkRun None None None ex_table ex_table (λ _, Answer (ProtectedURLTest None None None ex_net)).

Definition ex_candidate : candidate_input :=
  mkInput None (Ok (mkRoute "exit" [] [("exit", "vless")] [])) None None {["exit" := mkOutbound 3 "vless" false ""]} ex_net (None, None, None) (None, None, None).
Lemma candidate_honest_witness : ∃ r, probeCandidate ∅ "probe-1" Second ex_candidate = (r, ∅) ∧ cp_Success r = true ∧ kind_ok (cp_Success r) (cp_FailureKind r).
Proof.
  destruct (probeCandidate ∅ "probe-1" Second ex_candidate) as [r calls] eqn:E.
  destruct (candidate_honest ∅ "probe-1" Second ex_candidate r calls E) as (-> & Hk & _).
  exists r. split_and!; [done| |done]. assert (cp_Success (probeCandidate ∅ "probe-1" Second ex_candidate).1 = true) as Hs by (vm_compute; reflexivity).
  by rewrite E in Hs.
Defined.

Lemma ledger_exact_witness : ∃ b, NewDiagnosticByteBudget 100 = Ok b ∧
  let '(rs, b') := budget_run [BReserve 60; BReserve 50; BReserve 10] b in b_reserved b' = granted [BReserve 60; BReserve 50; BReserve 10] rs.
Proof. eexists. split; [reflexivity|]. exact (proj1 (ledger_exact 100 _ [BReserve 60; BReserve 50; BReserve 10] eq_refl)). Defined.
